(* ===== verification/_CoqProject ===== *)
-Q . S2P
Prelude.v
Ast.v
ExprEq.v
ExprPlace.v
ExprTransformers.v
ExprOps.v
ExprOpsFacts.v
Collections.v
Typaram.v
ExprReplace.v
Items.v
Semantics.v
Simplifier.v
SemanticsFacts.v
Graph.v
Borrows.v
Stmt.v
Cfg.v
CfgGraph.v
CfgLoops.v
CfgTopo.v
CfgPaths.v
CfgAssigned.v
CfgFacts.v
MethodSem.v
MethodOpts.v
CleanCfg.v
VarRemover.v
Inliner.v
DeletePredicates.v
Display.v
Perm.v
FuState.v
Footprint.v
FuSemantics.v
EventLog.v
PathCtxt.v
PathCtxtFacts.v
ObtainFacts.v
JoinFacts.v
CfgReplacer.v
CfgReplacerFacts.v
Unfoldings.v
ExprReplacer.v
FoldUnfold.v
FoldUnfoldFacts.v
FoldingOpt.v
QuantifierFixer.v
VarPurifier.v
Purification.v
PurifyFacts.v
Optimizations.v
GhostVars.v
ViperAst.v
ToViper.v
CfgToViper.v
CfgToViperFacts.v
EncoderPurifier.v
Specs.v
Preparser.v
PreparserFacts.v
PreparserRoundTrip.v
Untyped.v
Typed.v
SpecsFacts.v
SpecMacros.v
SpecCollector.v
SpecPipelineFacts.v
Mir.v
Places.v
PlacesFacts.v
Analysis.v
AnalysisFacts.v
ReachingFacts.v
Liveness.v
Loops.v
LoopsFacts.v
Procedure.v
LoopForest.v
Interpreter.v
