(* ===== verification/Prelude.v ===== *)
(** * The Viper intermediate representation of Prusti, verified

    Prusti translates Rust functions with contracts into Viper programs.  The
    crate [src/prusti-common] holds the intermediate representation (VIR): the
    abstract syntax, the control flow graphs of methods, the graph of
    reborrows, the traversals and the optimizations.  The encoder of
    [src/prusti-viper] builds VIR from the compiler's MIR, adds folding and
    unfolding of permissions, and prusti-common hands the result to the Viper
    verifier.  The contracts come from attributes that the procedural macros
    of [src/prusti-specs] parse and that [src/prusti-interface] collects.
    This library models the VIR and the algorithms on it, the way of a
    contract from its tokens to the specification the encoder sees, and the
    analyses of MIR that the encoder asks ([src/analysis],
    [src/prusti-interface/src/environment]), and proves them correct.

    ** How the program is modelled

    - The release profile: [debug_assert!] is compiled out.  A function that
      may panic returns [option]; one that also returns a [Result] returns
      [outcome]; a trait whose methods take [&mut self] is a record of
      computations in [ST] (below), a walker updates its state by [Walk].
    - Rust's [==] is the class [PartialEq] ([peq], written [==]).  For
      expressions it is not Leibniz equality, and the theorems say when two
      expressions compare equal.
    - [HashMap] and [HashSet] are association lists and lists without
      duplicates over that equality, in insertion order ([Collections]).  In
      the files on MIR, whose keys have a structural equality, they are the
      [gmap] and [gset] of stdpp, and a loop over one goes over its elements
      in their order.
    - What the compiler provides to the analyses of MIR (types of places,
      successors, predecessors, dominators, attributes, the visitor of
      places) is the class [MirCrate] or an argument; what its documentation
      says of them is [MirLaws].  [ConcreteMir] is an instance with a few
      types.
    - Machine integers are in [Z] with the wrap-around of the release profile
      written out ([wrap_u32], [wrap_i32], [wrap_u64], [as_isize]); an index into a
      vector is a [nat] and out of range is a panic.
    - A [trait] with one method per constructor ([fold_and], [walk_local],
      ...) is one function over a [Node]: a constructor whose children are
      pairs of the child and the traversal of it, so that an overriding
      method decides, as in the code, whether and where it recurs.
    - Loops over worklists carry fuel, one unit per element taken from the
      worklist.  The fuel in each definition is the number of nodes (or of
      names), and the theorems show that it suffices: none assumes that a
      loop returns.

    ** The files

    - [Prelude]: the monads, the equality classes, strings, and tactics
      ([inv_option], [inv_outcome], [ole_solve]).
    - [Ast]: [vir/ast/common.rs], the types of [expr.rs], [trigger.rs],
      [domain.rs].  [ExprEq]: [impl PartialEq for Expr] and [impl Hash].
      [ExprPlace]: places and prefixes.  [ExprTransformers]: folders and
      walkers ([expr_transformers.rs]).  [ExprOps]: constructors, queries
      and rewritings of [expr.rs], substitution of old expressions of
      [vir/utils.rs]; [ExprOpsFacts] has their theorems.
    - [Collections].  [Typaram]: [typaram.rs], with the regular expression
      crate as the class [RegexCrate].  [ExprReplace]: the replacement of
      places, which substitutes type parameters.  [Display]: the [Display]
      instances the algorithms depend on (sorting, names of predicates).
    - [Items]: functions, domains, predicates.
    - [Semantics]: a reference semantics of the pure fragment of expressions,
      following the translation of [to_viper.rs].  What Viper leaves open (the
      division of integers, the heap, functions) is an argument, the classes
      [Interp] and [InterpLaws].  It is the specification against which
      [Simplifier] ([optimizations/functions/simplifier.rs]) and, in
      [SemanticsFacts], remainder, conjunction, the boolean test and inlining
      of function bodies are proved.
    - [Borrows]: [vir/borrows.rs], the DAG of reborrows and the guard of an
      expiring borrow.
    - [Stmt]: [stmt.rs], [gather_labels.rs] and the maps of [vir/utils.rs].
    - [Cfg]: [vir/cfg/method.rs] without its algorithms, and the closure
      traversals of [cfg/visitor.rs]; [CfgGraph]: the algorithms and
      [cfg/assigned_vars.rs].  [Graph] is the theory of paths and worklists
      they share; [CfgLoops], [CfgTopo], [CfgPaths] and [CfgAssigned] prove
      the algorithms correct, [CfgFacts] the builder and the fresh names.
    - The optimizations: [MethodOpts] ([methods/cfg_cleaner.rs],
      [empty_if_remover.rs], [assert_remover.rs]) with [MethodSem], the runs
      of a method as a step relation over an arbitrary meaning of statements,
      and that methods without loops finish; [CleanCfg], the refinement of the cleaned method;
      [VarRemover] ([methods/var_remover.rs]); [Inliner]
      ([functions/inliner.rs]); [DeletePredicates]
      ([predicates/delete_unused_predicates.rs]).
    - The fold-unfold algorithm of [prusti-viper/src/encoder/foldunfold]:
      [Perm] ([perm.rs], [places_utils.rs], [action.rs], the errors of
      [mod.rs]); [FuState] ([state.rs]);
      [Footprint] ([footprint.rs], [requirements.rs]); [FuSemantics]
      ([semantics.rs]), the effect of a statement on the state; [EventLog]
      ([log.rs]), whose vectors behind [Rc] live in a heap; [PathCtxt]
      ([path_ctxt.rs]), with [PathCtxtFacts] (folding and unfolding),
      [ObtainFacts] (the search) and [JoinFacts] (the join of two branches).
    - Its driver: [CfgReplacer] ([vir/cfg/visitor.rs]), the forward pass over
      a graph as a class of callbacks, with [CfgReplacerFacts] (the graph) and
      the first part of [FoldUnfoldFacts] (the blocks, for any implementation
      that keeps a notion of meaning); [ExprReplacer] (the unfoldings in expressions, of
      [mod.rs]); [FoldUnfold] (the rest of [mod.rs],
      [process_expire_borrows.rs], [borrows.rs]), an instance of the class,
      and [FoldUnfoldFacts].
    - The other optimizations: [Unfoldings] (expressions up to unfoldings)
      with [FoldingOpt] ([folding/expressions.rs]); [QuantifierFixer]
      ([methods/quantifier_fixer.rs]); [VarPurifier] ([methods/purifier.rs])
      and [Purification] ([purification/mod.rs]) with [PurifyFacts];
      [GhostVars] ([fixes/ghost_vars.rs]).
      [Optimizations] ([optimizations/mod.rs], [methods/mod.rs]) puts them
      in the order of the code and composes their theorems.
    - The translation to Viper: [ViperAst] is the AST that the factory of
      [src/viper/src/ast_factory] builds, [ToViper] translates expressions,
      statements and items ([vir/to_viper.rs]), [CfgToViper] methods and
      programs ([cfg/to_viper.rs]).  [CfgToViperFacts] gives the bodies of
      Viper methods, with labels and gotos, their executions and relates them
      to [MethodSem], as [ToViper] expressions to [Semantics].
    - [EncoderPurifier] ([prusti-viper/src/encoder/purifier.rs]), the
      references that are purified before fold-unfold.
    - Specifications: [Specs] ([specifications/common.rs]) is their data.
      [Preparser] ([preparser.rs]) parses trees of tokens; proc_macro and syn
      are the classes [ProcMacroCrate] and [SynCrate].  [PreparserFacts] shows
      that it ends, [PreparserRoundTrip] prints assertions and parses them
      back.  [Untyped] ([untyped.rs],
      [json.rs]) numbers expressions, writes the statements for the type
      checker and the structure that is serialized, with quote, uuid and serde
      as classes; [Typed] ([prusti-interface/src/specs/typed.rs]) resolves it
      after type checking, with the compiler as the class [Rustc];
      [SpecsFacts].  [SpecMacros] ([lib.rs], [rewriter.rs]) are the
      attributes, [SpecCollector] ([prusti-interface/src/specs/mod.rs],
      [external.rs], [utils.rs]) the visitor that reads what they generate,
      and [SpecPipelineFacts] composes them.
    - MIR: [Mir] is its data (places, statements, terminators, bodies) and
      the compiler.  [Places] ([prusti-interface/src/utils.rs],
      [environment/place_set.rs], and the copy in
      [analysis/src/abstract_domains/place_utils.rs]) expands and collapses
      places; [PlacesFacts].  [Analysis] ([analysis/src]) is the analyzer with
      its work set over the class [AbstractState], the two abstract domains,
      and the result for the encoder ([mir_analyses/initialization.rs]);
      [AnalysisFacts] is its theory for domains of finite height, which
      [ReachingFacts] applies.  [Liveness] ([mir_analyses/liveness.rs]) is the
      analysis with a queue.
    - Loops: [Loops] ([mir_utils/real_edges.rs], [environment/loops.rs]) are
      the natural loops, the order of the blocks and the places a loop
      accesses; [LoopsFacts].  [Procedure] ([environment/procedure.rs],
      [encoder/loop_encoder.rs]) are the blocks that are encoded and the block
      of a loop invariant.  [LoopForest] ([environment/loops_utils.rs],
      [loop_encoder.rs]) turns the leaves of a loop into the trees of
      permissions of its invariant.
    - [Interpreter]: the interpretation of bodies from their ends
      ([encoder/mir_interpreter.rs]), and the small parts of the encoder that
      need no more of the compiler: [mir_successor.rs], [name_interner.rs],
      [initialisation.rs], [places.rs].

    ** Fuel

    Every bound is a definition, and a theorem shows that it suffices:
    the number of blocks for the algorithms on graphs, one more than the
    number of known labels or variables for fresh names, the number of
    predicates for the reachable predicates, the sizes of expressions for
    the recursive functions on them.  The recursion of [obtain] of
    [path_ctxt.rs] is bounded by [obtain_bound], computed from the depths of
    the places in the state and in the request; [ObtainFacts] shows that the
    recursion ends before: neither more fuel nor another result at its end
    changes what is returned.  [replace_stmt] has [stmt_fuel], the
    depth of the statement and of what it adds, and satisfies the recursion
    equation of the code; [prepend_join] has the number of branches.  The
    loop of [convert_basic_block_path] removes a block in each round and has
    one unit more than there are blocks.  [parse_prusti] has one unit more
    than there are tokens, at all depths, in its stream, and its loops one per
    token; without fuel they panic, and [PreparserFacts] shows that they do
    not, on streams whose spans are of one file.  On MIR, the loops over places have one unit per projection, the
    search for the body of a loop one per block, the reachable blocks one per
    edge.  The analyzer takes its fuel as an argument: [reaching_fuel], from
    the height of the domain, is enough for reaching definitions, and
    [liveness_fuel] for liveness, where the code itself gives up after a
    million items.  The recursion over the blocks that lead to a
    specification has an end only without cycles of such blocks, and the
    backward interpretation only without cycles: their theorems have a rank
    of the blocks as an argument.

    ** What is shown

    - Equality and hashing: what [==] compares, that hashing agrees with it,
      and that expressions with [InhaleExhale] or [Downcast] are not equal to
      themselves.
    - Places: prefixes form a partial order that shrinks the depth, exploding
      a place is undone by reconstructing it, and replacing a prefix is undone
      by replacing it back.
    - Type parameters: what [learn] infers, [apply] reproduces.
    - Queries and rewritings of expressions, against direct definitions.
    - Semantics: simplification, inlining, [rem], [conjoin] and [disjoin]
      keep or have the intended value.
    - The DAG of reborrows: what the builder accepts, and that the guard is
      the conjunction over the reachable reborrows.
    - Statements: the maps visit the expressions in order and stop at the
      first error; labels are gathered in order.
    - Control flow graphs: an invariant of every builder call, freshness and
      termination of name generation, and the correctness of loop detection
      (Kahn's algorithm, with [i32] in-degrees), topological sort, path search (breadth first),
      predecessors and assigned variables.
    - Optimizations: cleaning the graph, removing empty conditionals and
      trivial assertions keep the runs of a method; unused variables and
      predicates are exactly those not reachable; inlining keeps values and
      terminates.  Moving unfoldings keeps the value and what is unfolded, but
      may take an unfolding out of the quantifier of its variables;
      purified expressions have the values of the fields they replace;
      hoisting out of a quantifier is sound if no bound variable is hoisted;
      renamed ghost variables are unique; the stages of a method compose.
    - The translation: an expression has the value of its source, a method
      the executions of its control flow graph, also after the optimizations;
      methods without loops finish.
    - Fold-unfold: the permission state forms a partial commutative structure
      in which inserting and removing cancel; frames give back what they
      took; folding and unfolding are inverse; a successful search ends with
      a permission on the place that was asked for, with the amount that was
      asked for if all amounts are [Write], in a well-formed state, and it
      always ends; the join of two branches leaves both with the permissions they
      share.
    - The pass: it keeps the paths of the graph; the unfoldings it adds keep
      the value of every expression; what it adds to a method without borrows
      is ghost code.  The references the encoder purifies are those that
      reach, through the assignments of the method, no variable that is
      dereferenced or borrows into a field.
    - Specifications: the parser ends on every stream of one file and reads
      every printed assertion back; a chain of implications before a pledge
      without a reference is rejected; expressions are numbered consecutively; the type checker
      gets one closure per identifier; what is serialized is found again after
      type checking; the attributes of a function, through the items the
      macros generate and the visitor, become a specification with the
      assertions that were written, kind by kind and in order.

    - Places and analyses of MIR: inserting into, removing from and merging
      sets of places keep their invariant and cover the right places; the
      analyzer ends, what it records solves the equations of the body and
      contains every definition that reaches a location, where a
      [DropAndReplace], which the code ignores, defines nothing; liveness
      computes exactly the assignments by statements and calls that reach a
      point.
    - Loops of MIR: on a reducible body, where a block may be its own loop,
      the loops are the natural loops of the back edges, with what the code
      adds for an edge of a block to itself, and the blocks are in
      topological order; a block is encoded iff it is reachable and not part
      of a specification; the block of an invariant is the first one before a
      specification and is run in every iteration; the leaves of a loop cover its accesses, and the
      permission trees give exactly the permissions of the leaves.
    - The backward interpreter gives the state of the equations; interned
      names are unique.

    ** What is not modelled

    [Debug] output and the assertions of debug builds; the Java objects behind
    the factory, its simplifier and the start of the verifier ([viper],
    [viper-sys], [jni-gen]); the macros for closures and external
    specifications, which rewrite syntax trees of syn; servers, drivers and
    configuration.  The encoder proper ([procedure_encoder.rs],
    [pure_function_encoder.rs], [type_encoder.rs], [snapshot]) consists of
    calls to the Rust compiler (types, substitutions, spans, traits) between
    those to the parts that are modelled, and so do the queries to the borrow
    checker ([polonius_info.rs], [borrowck]), whose results are files and
    relations of a library of the compiler.  Of [procedure.rs] the test for
    calls that panic compares names that the compiler prints. *)

From Stdlib Require Import Lia ZArith.
From stdpp Require Export base list option strings.

(** ** Outcomes

    A Rust function that may panic ([unreachable!], [assert!], [unwrap],
    indexing) is modelled with [option]: [None] is the panic.  A function
    that also returns a [Result] is modelled with [outcome E]. *)

Inductive outcome (E A : Type) : Type :=
  | Val (a : A)
  | Err (e : E)
  | Panic.
Arguments Val {E A} a.
Arguments Err {E A} e.
Arguments Panic {E A}.

#[export] Instance outcome_ret {E} : MRet (outcome E) := fun A a => Val a.
#[export] Instance outcome_bind {E} : MBind (outcome E) := fun A B f m =>
  match m with
  | Val a => f a
  | Err e => Err e
  | Panic => Panic
  end.
#[export] Instance outcome_fmap {E} : FMap (outcome E) := fun A B f m =>
  match m with
  | Val a => Val (f a)
  | Err e => Err e
  | Panic => Panic
  end.

(** A panicking computation inside a fallible one. *)
Definition unwrap {E A} (m : option A) : outcome E A :=
  match m with
  | Some a => Val a
  | None => Panic
  end.

(** [assert!(b)]: the option and the outcome version. *)
Definition assert_ (b : bool) : option unit := if b then Some tt else None.

Definition assert_o {E} (b : bool) : outcome E unit := unwrap (assert_ b).

(** State passing with panics and errors: the monad of the traits whose
    methods take [&mut self]. *)
Definition ST (S E A : Type) : Type := S -> outcome E (A * S).

#[export] Instance ST_ret {S E} : MRet (ST S E) := fun A a s => Val (a, s).
#[export] Instance ST_bind {S E} : MBind (ST S E) := fun A B f m s =>
  match m s with
  | Val (a, s') => f a s'
  | Err e => Err e
  | Panic => Panic
  end.
#[export] Instance ST_fmap {S E} : FMap (ST S E) := fun A B f m s =>
  match m s with
  | Val (a, s') => Val (f a, s')
  | Err e => Err e
  | Panic => Panic
  end.

(** A panicking computation as a step that leaves the state alone; reading
    and writing the state. *)
Definition lift {S E A} (m : option A) : ST S E A := fun s =>
  match m with
  | Some a => Val (a, s)
  | None => Panic
  end.
Definition fail {S E A} (e : E) : ST S E A := fun _ => Err e.
Definition panic {S E A} : ST S E A := fun _ => Panic.
Definition get_st {S E} : ST S E S := fun s => Val (s, s).
Definition put_st {S E} (s : S) : ST S E unit := fun _ => Val (tt, s).
Definition modify {S E} (f : S -> S) : ST S E unit := fun s => Val (tt, f s).

(** A fallible computation that does not touch the state; a loop. *)
Definition lift_o {S E A} (m : outcome E A) : ST S E A := fun s =>
  match m with
  | Val a => Val (a, s)
  | Err e => Err e
  | Panic => Panic
  end.
Fixpoint for_each {S E A B} (f : B -> A -> ST S E B) (b : B) (l : list A) : ST S E B :=
  match l with
  | [] => mret b
  | x :: l' => b ← f b x; for_each f b l'
  end.

(** Run the computations of a list from left to right. *)
Fixpoint sequence {S E A} (l : list (ST S E A)) : ST S E (list A) :=
  match l with
  | [] => mret []
  | m :: l' => x ← m; xs ← sequence l'; mret (x :: xs)
  end.

(** A property of all trees holds of the trees of a list: for induction
    principles of nested types. *)
Definition Forall_of {A} (Q : A -> Prop) (f : forall a, Q a) : forall l, Forall Q l :=
  fix go l :=
    match l with
    | [] => Forall_nil_2 Q
    | a :: l' => Forall_cons_2 Q a l' (f a) (go l')
    end.

(** Left-to-right traversal in [option]. *)
Fixpoint mapM_opt {A B} (f : A -> option B) (l : list A) : option (list B) :=
  match l with
  | [] => Some []
  | x :: l' => y ← f x; ys ← mapM_opt f l'; Some (y :: ys)
  end.

(** [iter().any(f)] and [retain], where the test may panic. *)
Fixpoint any_opt {A} (f : A -> option bool) (l : list A) : option bool :=
  match l with
  | [] => Some false
  | x :: l' => b ← f x; if (b : bool) then Some true else any_opt f l'
  end.

Fixpoint filter_opt {A} (f : A -> option bool) (l : list A) : option (list A) :=
  match l with
  | [] => Some []
  | x :: l' => b ← f x; l' ← filter_opt f l'; Some (if (b : bool) then x :: l' else l')
  end.

(** A loop whose body may panic, and one whose body may also return an error. *)
Fixpoint iter_opt {A} (f : A -> option unit) (l : list A) : option unit :=
  match l with
  | [] => Some tt
  | x :: l' => _ ← f x; iter_opt f l'
  end.

Fixpoint foldM {E S A} (f : S -> A -> outcome E S) (s : S) (l : list A) : outcome E S :=
  match l with
  | [] => Val s
  | x :: l' => s ← f s x; foldM f s l'
  end.

Lemma foldM_inv {E S A} (P : S -> Prop) (f : S -> A -> outcome E S) l :
  (forall s x s', x ∈ l -> P s -> f s x = Val s' -> P s') ->
  forall s s', P s -> foldM f s l = Val s' -> P s'.
Proof.
  induction l as [|x l IH]; intros Hf s s' Hs Hl; cbn in Hl; [by injection Hl as <-|].
  destruct (f s x) as [s1| |] eqn:Hx; cbn in Hl; try done. eapply IH; [|eapply Hf; [by left|exact Hs|exact Hx]|exact Hl].
  intros. eapply Hf; [by right|done|done].
Qed.

(** The order "at least as defined" on optional values. *)
Definition ole {A} (o o' : option A) : Prop := forall a, o = Some a -> o' = Some a.

Lemma ole_refl {A} (o : option A) : ole o o.
Proof. intros a. auto. Qed.

Lemma ole_trans {A} (o1 o2 o3 : option A) : ole o1 o2 -> ole o2 o3 -> ole o1 o3.
Proof. intros H1 H2 a Ha. auto. Qed.

Lemma ole_none {A} (o : option A) : ole None o.
Proof. intros a. discriminate. Qed.

Lemma ole_bind {A B} (o o' : option A) (f g : A -> option B) :
  ole o o' -> (forall a, ole (f a) (g a)) -> ole (o ≫= f) (o' ≫= g).
Proof. intros Ho Hf b (a & Ha%Ho & Hb%Hf)%bind_Some. by rewrite Ha. Qed.

Lemma ole_fmap {A B} (o o' : option A) (f : A -> B) : ole o o' -> ole (f <$> o) (f <$> o').
Proof. intros Ho b (a & Ha%Ho & ->)%fmap_Some. by rewrite Ha. Qed.

Lemma mapM_opt_total {A B} (f : A -> option B) (g : A -> B) (l : list A) :
  Forall (fun x => f x = Some (g x)) l -> mapM_opt f l = Some (map g l).
Proof. induction 1 as [|x l Hx _ IH]; cbn; [done|]. by rewrite Hx, IH. Qed.

Lemma ole_mapM_opt {A B} (f : A -> option B) (h : A -> A) (l : list A) :
  Forall (fun x => ole (f x) (f (h x))) l -> ole (mapM_opt f l) (mapM_opt f (map h l)).
Proof.
  induction 1; simpl; [apply ole_refl|].
  apply ole_bind; [done|]. intros a. apply ole_bind; [done|]. intros. apply ole_refl.
Qed.

(** The two sides are built by the same program from ordered parts. *)
Create HintDb ole.
#[export] Hint Resolve ole_refl ole_none ole_mapM_opt : ole.

Ltac ole_step :=
  first
    [ apply ole_refl | apply ole_none | assumption
    | apply ole_bind; [|intros ?]
    | apply ole_fmap | apply ole_mapM_opt
    | solve [auto with ole nocore]
    | match goal with |- ole (match ?x with _ => _ end) _ => destruct x end ].
Ltac ole_solve := repeat ole_step.

Lemma assert_Some b u : assert_ b = Some u <-> b = true.
Proof. destruct b, u; simpl; split; congruence. Qed.

(** Take apart the hypotheses that say a computation in [option] succeeds. *)
Ltac inv_option :=
  repeat match goal with
  | H : mbind _ _ = Some _ |- _ =>
      let x := fresh "x" in let Hx := fresh "Hx" in
      apply bind_Some in H as (x & Hx & H)
  | H : fmap _ _ = Some _ |- _ =>
      let x := fresh "x" in let Hx := fresh "Hx" in
      apply fmap_Some in H as (x & Hx & H)
  | H : assert_ _ = Some _ |- _ => apply assert_Some in H
  | H : Some _ = Some _ |- _ => injection H as H
  | H : None = Some _ |- _ => discriminate H
  | H : (_ && _) = true |- _ => apply andb_true_iff in H as [? ?]
  end.

(** The same for [outcome]. *)
Lemma outcome_bind_val {E A B} (m : outcome E A) (f : A -> outcome E B) (b : B) :
  (m ≫= f) = Val b <-> exists a, m = Val a /\ f a = Val b.
Proof. destruct m; cbn; split; try (by intros (? & [= ->] & ?)); try done. eauto. Qed.

Lemma outcome_fmap_val {E A B} (m : outcome E A) (f : A -> B) (b : B) :
  (f <$> m) = Val b <-> exists a, m = Val a /\ b = f a.
Proof. destruct m; cbn; split; try done; try (by intros (? & [= ->] & ->)); try by intros (? & ? & ?). intros [= <-]. eauto. Qed.

Lemma unwrap_val {E A} (o : option A) (a : A) : unwrap (E := E) o = Val a <-> o = Some a.
Proof. destruct o; cbn; split; congruence. Qed.

Lemma assert_o_val {E} b u : assert_o (E := E) b = Val u <-> b = true.
Proof. unfold assert_o. by rewrite unwrap_val, assert_Some. Qed.

Ltac inv_outcome :=
  repeat match goal with
  | H : mbind _ _ = Val _ |- _ =>
      let x := fresh "x" in let Hx := fresh "Hx" in
      apply outcome_bind_val in H as (x & Hx & H)
  | H : fmap _ _ = Val _ |- _ =>
      let x := fresh "x" in let Hx := fresh "Hx" in
      apply outcome_fmap_val in H as (x & Hx & H)
  | H : unwrap _ = Val _ |- _ => apply unwrap_val in H
  | H : assert_o _ = Val _ |- _ => apply assert_o_val in H
  | H : Val _ = Val _ |- _ => injection H as H
  | H : Err _ = Val _ |- _ => discriminate H
  | H : Panic = Val _ |- _ => discriminate H
  end.

(** The same for [ST]. *)
Lemma st_bind_val {S E A B} (m : ST S E A) (f : A -> ST S E B) (s : S) (r : B * S) :
  (m ≫= f) s = Val r <-> exists a s', m s = Val (a, s') /\ f a s' = Val r.
Proof.
  unfold mbind, ST_bind. destruct (m s) as [[a s']| |]; split; try done; try by intros (? & ? & ? & ?).
  - eauto.
  - by intros (? & ? & [= -> ->] & ?).
Qed.

Lemma st_ret_val {S E A} (a : A) (s : S) (r : A * S) : (mret a : ST S E A) s = Val r <-> r = (a, s).
Proof. unfold mret, ST_ret. split; congruence. Qed.

Lemma lift_val {S E A} (m : option A) (s : S) (r : A * S) :
  lift (E := E) m s = Val r <-> exists a, m = Some a /\ r = (a, s).
Proof. unfold lift. destruct m as [a|]; split; try done; [intros [= <-]; eauto|by intros (? & [= ->] & ->)|by intros (? & ? & ?)]. Qed.

Lemma lift_o_val {S E A} (m : outcome E A) (s : S) (r : A * S) :
  lift_o m s = Val r <-> exists a, m = Val a /\ r = (a, s).
Proof.
  unfold lift_o. destruct m as [a| |]; split; try done; try by intros (? & ? & ?).
  - intros [= <-]. eauto.
  - by intros (? & [= ->] & ->).
Qed.

Lemma get_st_val {S E} (s : S) (r : S * S) : get_st (E := E) s = Val r <-> r = (s, s).
Proof. unfold get_st. split; congruence. Qed.

Lemma put_st_val {S E} (x s : S) (r : unit * S) : put_st (E := E) x s = Val r <-> r = (tt, x).
Proof. unfold put_st. split; congruence. Qed.

Lemma modify_val {S E} (f : S -> S) (s : S) (r : unit * S) : modify (E := E) f s = Val r <-> r = (tt, f s).
Proof. unfold modify. split; congruence. Qed.

Ltac inv_st :=
  repeat match goal with
  | H : get_st _ = Val _ |- _ => apply get_st_val in H; injection H as ? ?; subst
  | H : put_st _ _ = Val _ |- _ => apply put_st_val in H; injection H as ? ?; subst
  | H : modify _ _ = Val _ |- _ => apply modify_val in H; injection H as ? ?; subst
  | H : mbind _ _ _ = Val _ |- _ =>
      let x := fresh "x" in let s := fresh "s" in let Hx := fresh "Hx" in
      apply st_bind_val in H as (x & s & Hx & H)
  | H : lift _ _ = Val _ |- _ =>
      let x := fresh "x" in let Hx := fresh "Hx" in let He := fresh "He" in
      apply lift_val in H as (x & Hx & He); injection He as ? ?; subst
  | H : lift_o _ _ = Val _ |- _ =>
      let x := fresh "x" in let Hx := fresh "Hx" in let He := fresh "He" in
      apply lift_o_val in H as (x & Hx & He); injection He as ? ?; subst
  | H : mret _ _ = Val _ |- _ => apply st_ret_val in H; injection H as ? ?; subst
  | H : (let '(_, _) := ?x in _) _ = Val _ |- _ => is_var x; destruct x
  end.

(** Invariants of loops. *)
Lemma for_each_run {S E A B} (P : list A -> B -> S -> Prop) (f : B -> A -> ST S E B) l :
  (forall seen b x s b' s', x ∈ l -> P seen b s -> f b x s = Val (b', s') -> P (seen ++ [x])%list b' s') ->
  forall seen b s b' s', P seen b s -> for_each f b l s = Val (b', s') -> P (seen ++ l)%list b' s'.
Proof.
  induction l as [|x l IH]; intros Hf seen b s b' s' Hb Hl; cbn in Hl; inv_st; [by rewrite app_nil_r|].
  replace (seen ++ x :: l)%list with ((seen ++ [x]) ++ l)%list by by rewrite <- app_assoc.
  eapply IH; [|eapply Hf; [by left|exact Hb|exact Hx]|exact Hl]. intros. eapply Hf; [by right|done|done].
Qed.

Lemma for_each_inv {S E A B} (P : B -> Prop) (f : B -> A -> ST S E B) l b s b' s' :
  (forall b x s b' s', x ∈ l -> P b -> f b x s = Val (b', s') -> P b') ->
  P b -> for_each f b l s = Val (b', s') -> P b'.
Proof. intros Hf. apply (for_each_run (fun _ b _ => P b) f l (fun _ b x s b' s' => Hf b x s b' s') [] b s b' s'). Qed.

(** Computations that agree. *)
Lemma st_bind_ext {S E A B} (m1 m2 : ST S E A) (f1 f2 : A -> ST S E B) (s : S) :
  m1 s = m2 s -> (forall a s', m1 s = Val (a, s') -> f1 a s' = f2 a s') -> (m1 ≫= f1) s = (m2 ≫= f2) s.
Proof. unfold mbind, ST_bind. intros <- Hf. destruct (m1 s) as [[a s']| |]; [|done..]. by apply Hf. Qed.

Lemma for_each_ext {S E A B} (P : B -> Prop) (f g : B -> A -> ST S E B) l :
  (forall b x s, x ∈ l -> P b -> f b x s = g b x s) ->
  (forall b x s b' s', x ∈ l -> P b -> f b x s = Val (b', s') -> P b') ->
  forall b s, P b -> for_each f b l s = for_each g b l s.
Proof.
  induction l as [|x l IH]; intros Hf Hp b s Hb; cbn; [done|].
  apply st_bind_ext; [apply Hf; [by left|done]|]. intros b' s' Hx.
  apply IH; [intros; apply Hf; [by right|done]|intros; eapply Hp; [by right|done|done]|eapply Hp; [by left|done|done]].
Qed.

(** ** Boolean equality: the trait [PartialEq]

    [==] of Rust is a user-defined boolean function; it need not be
    Leibniz equality and, for some types of the program, it is not even
    reflexive. *)

Class PartialEq (A : Type) := peq : A -> A -> bool.

Declare Scope rust_scope.
Delimit Scope rust_scope with rust.
Open Scope rust_scope.
Notation "a == b" := (peq a b) (at level 70, no associativity) : rust_scope.
Notation "a != b" := (negb (peq a b)) (at level 70, no associativity) : rust_scope.

(** What the documentation of [PartialEq] asks for: symmetry and
    transitivity, i.e. a partial equivalence relation. *)
Class PartialEqPER (A : Type) `{PartialEq A} : Prop := {
  peq_sym : forall a b : A, (a == b) = (b == a);
  peq_trans : forall a b c : A, (a == b) = true -> (b == c) = true -> (a == c) = true
}.

(** What [Eq] adds: reflexivity. *)
Class RustEq (A : Type) `{PartialEq A} : Prop := {
  rust_eq_per :: PartialEqPER A;
  peq_refl : forall a : A, (a == a) = true
}.

(** Types on which [==] is Leibniz equality. *)
Class PartialEqLeibniz (A : Type) `{PartialEq A} : Prop :=
  peq_eq : forall a b : A, (a == b) = true <-> a = b.

#[export] Instance bool_PartialEq : PartialEq bool := Bool.eqb.
#[export] Instance string_PartialEq : PartialEq string := String.eqb.
#[export] Instance Z_PartialEq : PartialEq Z := Z.eqb.
#[export] Instance nat_PartialEq : PartialEq nat := Nat.eqb.

Definition list_eqb {A} (f : A -> A -> bool) : list A -> list A -> bool :=
  fix go l1 l2 :=
    match l1, l2 with
    | [], [] => true
    | x :: l1', y :: l2' => f x y && go l1' l2'
    | _, _ => false
    end.

Definition option_eqb {A} (f : A -> A -> bool) (o1 o2 : option A) : bool :=
  match o1, o2 with
  | Some x, Some y => f x y
  | None, None => true
  | _, _ => false
  end.

#[export] Instance list_PartialEq {A} `{PartialEq A} : PartialEq (list A) := list_eqb peq.
#[export] Instance option_PartialEq {A} `{PartialEq A} : PartialEq (option A) := option_eqb peq.

#[export] Instance prod_PartialEq {A B} `{PartialEq A} `{PartialEq B} : PartialEq (A * B) :=
  fun x y => (fst x == fst y) && (snd x == snd y).

#[export] Instance bool_peq_eq : PartialEqLeibniz bool.
Proof. intros a b. apply Bool.eqb_true_iff. Qed.
#[export] Instance string_peq_eq : PartialEqLeibniz string.
Proof. intros a b. apply String.eqb_eq. Qed.
#[export] Instance Z_peq_eq : PartialEqLeibniz Z.
Proof. intros a b. apply Z.eqb_eq. Qed.
#[export] Instance nat_peq_eq : PartialEqLeibniz nat.
Proof. intros a b. apply Nat.eqb_eq. Qed.

Lemma forallb_true {A} (l : list A) : forallb (fun _ => true) l = true.
Proof. by induction l. Qed.

Lemma list_eqb_map_eq {A B} (f : A -> A -> bool) (g : A -> B) (P : A -> bool) (l1 l2 : list A) :
  Forall (fun x => forall y, f x y = true <-> P x = true /\ g x = g y) l1 ->
  list_eqb f l1 l2 = true <-> forallb P l1 = true /\ map g l1 = map g l2.
Proof.
  intros HF. revert l2.
  induction HF as [|x l1 Hx _ IH]; intros [|y l2]; simpl;
    try (split; [discriminate | intros [_ ?]; discriminate]); [tauto|].
  rewrite !andb_true_iff, Hx, IH. split.
  - intros [[-> ->] [-> ->]]. auto.
  - intros [[-> ->] Heq]. injection Heq. auto.
Qed.

#[export] Instance list_peq_eq {A} `{PartialEqLeibniz A} : PartialEqLeibniz (list A).
Proof.
  intros l1 l2. unfold peq, list_PartialEq.
  rewrite (list_eqb_map_eq peq id (fun _ => true) l1 l2).
  - rewrite !map_id. rewrite forallb_true. tauto.
  - apply Forall_forall. intros x _ y. rewrite peq_eq. unfold id. tauto.
Qed.

#[export] Instance option_peq_eq {A} `{PartialEqLeibniz A} : PartialEqLeibniz (option A).
Proof.
  intros [x|] [y|]; unfold peq, option_PartialEq; simpl; try (split; congruence).
  rewrite peq_eq. split; congruence.
Qed.

Lemma list_eqb_norm {A B} `{PartialEq A} (norm : A -> B) :
  (forall a b : A, (a == b) = true <-> norm a = norm b) ->
  forall l1 l2 : list A, (l1 == l2) = true <-> map norm l1 = map norm l2.
Proof.
  intros Hspec l1 l2. unfold peq, list_PartialEq.
  rewrite (list_eqb_map_eq peq norm (fun _ => true)), forallb_true; [tauto|].
  apply Forall_forall. intros x _ y. rewrite Hspec. tauto.
Qed.

(** An equality that compares the images under a normal-form function is
    an equivalence; one that also asks the left side to be comparable is a
    partial equivalence.  The instances of the AST use these two. *)
Lemma per_of_norm {A B} `{PartialEq A} (ok : A -> bool) (norm : A -> B) :
  (forall a b, (a == b) = true <-> ok a = true /\ norm a = norm b) ->
  (forall a b, norm a = norm b -> ok a = ok b) ->
  PartialEqPER A.
Proof.
  intros Hspec Hok.
  assert (Hsym : forall a b, (a == b) = true -> (b == a) = true).
  { intros a b [Ha Hn]%Hspec. apply Hspec. split; [|done]. rewrite <- (Hok a b); done. }
  split.
  - intros a b. destruct (a == b) eqn:E1, (b == a) eqn:E2; try done.
    + apply Hsym in E1. congruence.
    + apply Hsym in E2. congruence.
  - intros a b c [Ha Hab]%Hspec [_ Hbc]%Hspec. apply Hspec. split; [done|congruence].
Qed.

Lemma rust_eq_of_norm {A B} `{PartialEq A} (norm : A -> B) :
  (forall a b, (a == b) = true <-> norm a = norm b) -> RustEq A.
Proof.
  intros Hspec. split.
  - apply (per_of_norm (fun _ => true) norm); [|done]. intros a b. rewrite Hspec. tauto.
  - intros a. by apply Hspec.
Qed.

#[export] Instance leibniz_rust_eq {A} `{PartialEqLeibniz A} : RustEq A | 100.
Proof. apply (rust_eq_of_norm id). apply peq_eq. Qed.

Lemma peq_false_iff {A} `{PartialEqLeibniz A} (a b : A) : (a == b) = false <-> a <> b.
Proof. rewrite <- (peq_eq a b). destruct (a == b); split; congruence. Qed.

#[export] Instance leibniz_eq_dec {A} `{PartialEqLeibniz A} : EqDecision A | 1000.
Proof.
  intros a b. destruct (a == b) eqn:E; [left; by apply peq_eq|right; by apply peq_false_iff].
Defined.

(** ** Strings

    The part of [str] the program uses.  Names are ASCII, so a character is
    a byte. *)

Open Scope string_scope.

Lemma string_app_inj (p a b : string) : p ++ a = p ++ b -> a = b.
Proof. induction p as [|c p IH]; cbn; [done|]. intros [=]. auto. Qed.

(** [s[n..]]. *)
Fixpoint str_skip (n : nat) (s : string) : string :=
  match n, s with
  | 0, _ => s
  | S n', String _ s' => str_skip n' s'
  | S _, EmptyString => EmptyString
  end.

(** [s.starts_with(p)]. *)
Definition starts_with (s p : string) : bool := String.prefix p s.

(** [s.replace(pat, rep)] for a non-empty pattern: the occurrences of [pat]
    from left to right, without overlaps; [skip] counts the characters of the
    last occurrence that are still to be dropped. *)
Fixpoint str_replace_go (pat rep : string) (skip : nat) (s : string) : string :=
  match s with
  | EmptyString => EmptyString
  | String c s' =>
      match skip with
      | S k => str_replace_go pat rep k s'
      | 0 =>
          if starts_with s pat
          then rep ++ str_replace_go pat rep (String.length pat - 1) s'
          else String c (str_replace_go pat rep 0 s')
      end
  end.

(** The empty pattern matches before every character and at the end. *)
Fixpoint str_intersperse (rep s : string) : string :=
  match s with
  | EmptyString => rep
  | String c s' => rep ++ String c (str_intersperse rep s')
  end.

Definition str_replace (s pat rep : string) : string :=
  match pat with
  | EmptyString => str_intersperse rep s
  | _ => str_replace_go pat rep 0 s
  end.
