(* ===== verification/Ast.v ===== *)
(** * The data of the intermediate language VIR

    [prusti-common/src/vir/ast/common.rs], the types of [ast/expr.rs],
    [ast/domain.rs], [ast/trigger.rs] and [ast/predicate.rs]: positions,
    permission amounts, types, variables, fields, constants and expressions.
    Every Rust [enum] is an inductive type inside a module of the same name,
    so that its constructors are written [Expr.Field], [Ty.Seq], ... as in
    the source ([Type] is called [Ty] here). *)

From S2P Require Import Prelude.

(** ** Positions *)

Module Position.
(** [line] and [column] are [i32], [id] is [u64]; the code only copies and
    compares them. *)
Record Position : Type := new { line : Z; column : Z; id : Z }.

Definition is_default (p : Position) : bool :=
  (line p =? 0)%Z && (column p =? 0)%Z && (id p =? 0)%Z.

Definition default : Position := new 0 0 0.
End Position.
Abbreviation Position := Position.Position.

(** ** Permission amounts *)

Module PermAmount.
Inductive PermAmount : Type :=
  | Read
  | Write
  | Remaining.

Definition eqb (a b : PermAmount) : bool :=
  match a, b with
  | Read, Read | Write, Write | Remaining, Remaining => true
  | _, _ => false
  end.

(** Can this permission amount be used in specifications? *)
Definition is_valid_for_specs (self : PermAmount) : bool :=
  match self with
  | Read | Write => true
  | Remaining => false
  end.

Inductive PermAmountError : Type :=
  | InvalidAdd (a b : PermAmount)
  | InvalidSub (a b : PermAmount).

Definition add (self other : PermAmount) : outcome PermAmountError PermAmount :=
  match self, other with
  | Read, Remaining | Remaining, Read => Val Write
  | _, _ => Err (InvalidAdd self other)
  end.

Definition sub (self other : PermAmount) : outcome PermAmountError PermAmount :=
  match self, other with
  | Write, Read => Val Remaining
  | Write, Remaining => Val Read
  | _, _ => Err (InvalidSub self other)
  end.

Definition partial_cmp (self other : PermAmount) : option comparison :=
  match self, other with
  | Read, Write => Some Lt
  | Read, Read | Write, Write => Some Eq
  | Write, Read => Some Gt
  | _, _ => None
  end.

(** [Ord::cmp]: [expect] panics where [partial_cmp] is [None]. *)
Definition cmp (self other : PermAmount) : option comparison := partial_cmp self other.

Definition to_string (self : PermAmount) : string :=
  match self with
  | Read => "read"
  | Write => "write"
  | Remaining => "write-read"
  end.
End PermAmount.
Abbreviation PermAmount := PermAmount.PermAmount.

(** ** Types *)

Module Ty.
Inductive Ty : Type :=
  | Int
  | Bool
  | Seq (elem_ty : Ty)
  | TypedRef (name : string)
  | Domain (name : string)
  | Snapshot (name : string).

Inductive TypeId : Type := IdInt | IdBool | IdRef | IdSeq | IdDomain | IdSnapshot.

Definition get_id (self : Ty) : TypeId :=
  match self with
  | Bool => IdBool
  | Int => IdInt
  | TypedRef _ => IdRef
  | Domain _ => IdDomain
  | Snapshot _ => IdSnapshot
  | Seq _ => IdSeq
  end.

(** [std::mem::discriminant]: the index of the variant. *)
Definition discriminant (self : Ty) : nat :=
  match self with
  | Int => 0
  | Bool => 1
  | Seq _ => 2
  | TypedRef _ => 3
  | Domain _ => 4
  | Snapshot _ => 5
  end.

(** [impl PartialEq for Type] compares discriminants only. *)
Definition eqb (self other : Ty) : bool := Nat.eqb (discriminant self) (discriminant other).

Fixpoint to_string (self : Ty) : string :=
  match self with
  | Int => "Int"
  | Bool => "Bool"
  | TypedRef name => "Ref(" ++ name ++ ")"
  | Domain name => "Domain(" ++ name ++ ")"
  | Snapshot name => "Snapshot(" ++ name ++ ")"
  | Seq elem_ty => "Seq[" ++ to_string elem_ty ++ "]"
  end.

Definition is_ref (self : Ty) : bool := match self with TypedRef _ => true | _ => false end.

Definition is_domain (self : Ty) : bool := match self with Domain _ => true | _ => false end.

Definition is_snapshot (self : Ty) : bool := match self with Snapshot _ => true | _ => false end.

Definition name (self : Ty) : string :=
  match self with
  | Bool => "bool"
  | Int => "int"
  | TypedRef pred_name => pred_name
  | Domain pred_name => pred_name
  | Snapshot pred_name => pred_name
  | Seq _ => "Seq"
  end.

(** The type that corresponds to an enum variant; [unreachable!] on
    anything but a reference. *)
Definition variant (self : Ty) (variant : string) : option Ty :=
  match self with
  | TypedRef name => Some (TypedRef (name ++ variant))
  | _ => None
  end.

(** One pass of [str::replace] per substitution, in the iteration order of
    the substitution map. *)
Definition patch_name (substs : list (string * string)) (name : string) : string :=
  foldl (fun n '(typ, subst) => str_replace n typ subst) name substs.

Definition patch (self : Ty) (substs : list (string * string)) : Ty :=
  match self with
  | TypedRef predicate_name => TypedRef (patch_name substs predicate_name)
  | typ => typ
  end.
End Ty.
Abbreviation Ty := Ty.Ty.

(** ** Local variables and fields *)

Module LocalVar.
Record LocalVar : Type := new { name : string; typ : Ty }.

Definition eqb (a b : LocalVar) : bool :=
  String.eqb (name a) (name b) && Ty.eqb (typ a) (typ b).

Definition new_typed_ref (name : string) (ty_ref_name : string) : LocalVar :=
  new name (Ty.TypedRef ty_ref_name).

(** [Display] prints the name, [Debug] also the type. *)
Definition to_string (self : LocalVar) : string := name self.

Definition to_debug_string (self : LocalVar) : string :=
  name self ++ ": " ++ Ty.to_string (typ self).
End LocalVar.
Abbreviation LocalVar := LocalVar.LocalVar.

Module Field.
Record Field : Type := new { name : string; typ : Ty }.

Definition eqb (a b : Field) : bool :=
  String.eqb (name a) (name b) && Ty.eqb (typ a) (typ b).

Definition typed_ref_name (self : Field) : option string :=
  match typ self with
  | Ty.TypedRef name => Some name
  | _ => None
  end.

Definition get_identifier (self : Field) : string := name self.

Definition to_string (self : Field) : string := name self.
End Field.
Abbreviation Field := Field.Field.

(** ** Enum variants *)

Module EnumVariantIndex.
Record EnumVariantIndex : Type := new { get_variant_name : string }.

Definition eqb (a b : EnumVariantIndex) : bool :=
  String.eqb (get_variant_name a) (get_variant_name b).

Definition to_string (self : EnumVariantIndex) : string :=
  "{" ++ get_variant_name self ++ "}".

(** [impl Into<EnumVariantIndex> for &Field]: drops the prefix [enum_]. *)
Definition of_field (self : Field) : option EnumVariantIndex :=
  _ ← assert_ (String.prefix "enum_" (Field.name self));
  Some (new (str_skip 5 (Field.name self))).
End EnumVariantIndex.
Abbreviation EnumVariantIndex := EnumVariantIndex.EnumVariantIndex.

Definition MaybeEnumVariantIndex : Type := option EnumVariantIndex.

(** ** Borrows *)

Module Borrow.
(** The method-unique borrow identifier, a [usize]. *)
Record Borrow : Type := from { borrow_id : nat }.

Definition eqb (a b : Borrow) : bool := Nat.eqb (borrow_id a) (borrow_id b).
End Borrow.
Abbreviation Borrow := Borrow.Borrow.

(** ** Operators and constants *)

Module UnaryOpKind.
Inductive UnaryOpKind : Type := Not | Minus.

Definition eqb (a b : UnaryOpKind) : bool :=
  match a, b with
  | Not, Not | Minus, Minus => true
  | _, _ => false
  end.

Definition to_string (self : UnaryOpKind) : string :=
  match self with
  | Not => "!"
  | Minus => "-"
  end.
End UnaryOpKind.
Abbreviation UnaryOpKind := UnaryOpKind.UnaryOpKind.

Module BinOpKind.
Inductive BinOpKind : Type :=
  | EqCmp | NeCmp | GtCmp | GeCmp | LtCmp | LeCmp
  | Add | Sub | Mul | Div | Mod
  | And | Or | Implies.

Definition discriminant (self : BinOpKind) : nat :=
  match self with
  | EqCmp => 0 | NeCmp => 1 | GtCmp => 2 | GeCmp => 3 | LtCmp => 4 | LeCmp => 5
  | Add => 6 | Sub => 7 | Mul => 8 | Div => 9 | Mod => 10
  | And => 11 | Or => 12 | Implies => 13
  end.

Definition eqb (a b : BinOpKind) : bool := Nat.eqb (discriminant a) (discriminant b).

Definition to_string (self : BinOpKind) : string :=
  match self with
  | EqCmp => "=="
  | NeCmp => "!="
  | GtCmp => ">"
  | GeCmp => ">="
  | LtCmp => "<"
  | LeCmp => "<="
  | Add => "+"
  | Sub => "-"
  | Mul => "*"
  | Div => "\"
  | Mod => "%"
  | And => "&&"
  | Or => "||"
  | Implies => "==>"
  end.
End BinOpKind.
Abbreviation BinOpKind := BinOpKind.BinOpKind.

Module ContainerOpKind.
Inductive ContainerOpKind : Type := SeqIndex | SeqConcat | SeqLen.

Definition discriminant (self : ContainerOpKind) : nat :=
  match self with SeqIndex => 0 | SeqConcat => 1 | SeqLen => 2 end.

Definition eqb (a b : ContainerOpKind) : bool := Nat.eqb (discriminant a) (discriminant b).
End ContainerOpKind.
Abbreviation ContainerOpKind := ContainerOpKind.ContainerOpKind.

Module Const.
(** [Int] holds an [i64]; wider integers are printed into [BigInt]. *)
Inductive Const : Type :=
  | Bool (b : bool)
  | Int (i : Z)
  | BigInt (s : string)
  | FnPtr.

Definition eqb (a b : Const) : bool :=
  match a, b with
  | Bool b1, Bool b2 => Bool.eqb b1 b2
  | Int i1, Int i2 => (i1 =? i2)%Z
  | BigInt s1, BigInt s2 => String.eqb s1 s2
  | FnPtr, FnPtr => true
  | _, _ => false
  end.
End Const.
Abbreviation Const := Const.Const.

(** ** Domain functions *)

Module DomainFunc.
Record DomainFunc : Type := new {
  name : string;
  formal_args : list LocalVar;
  return_type : Ty;
  unique : bool;
  domain_name : string
}.

Definition eqb (a b : DomainFunc) : bool :=
  String.eqb (name a) (name b)
  && list_eqb LocalVar.eqb (formal_args a) (formal_args b)
  && Ty.eqb (return_type a) (return_type b)
  && Bool.eqb (unique a) (unique b)
  && String.eqb (domain_name a) (domain_name b).
End DomainFunc.
Abbreviation DomainFunc := DomainFunc.DomainFunc.

(** ** Triggers

    [struct Trigger(Vec<Expr>)]; the parameter is the type of expressions,
    which is declared together with it. *)

Module Trigger.
Record Trigger (Expr : Type) : Type := new { elements : list Expr }.
Arguments new {Expr} elements.
Arguments elements {Expr} t : rename.

Definition map {E1 E2} (f : E1 -> E2) (t : Trigger E1) : Trigger E2 :=
  new (List.map f (elements t)).
End Trigger.

(** ** Expressions *)

Module Expr.
#[local] Unset Elimination Schemes.
Inductive Expr : Type :=
  (** A local var. *)
  | Local (v : LocalVar) (p : Position)
  (** An enum variant: base, variant. *)
  | Variant (base : Expr) (variant : Field) (p : Position)
  (** A field access. *)
  | Field (base : Expr) (field : Field) (p : Position)
  (** The inverse of a [val_ref] field access. *)
  | AddrOf (base : Expr) (typ : Ty) (p : Position)
  | LabelledOld (label : string) (base : Expr) (p : Position)
  | Const (c : Const) (p : Position)
  | MagicWand (lhs rhs : Expr) (borrow : option Borrow) (p : Position)
  (** Predicate name, argument, permission amount. *)
  | PredicateAccessPredicate (name : string) (arg : Expr) (perm : PermAmount) (p : Position)
  | FieldAccessPredicate (base : Expr) (perm : PermAmount) (p : Position)
  | UnaryOp (op : UnaryOpKind) (arg : Expr) (p : Position)
  | BinOp (op : BinOpKind) (left right : Expr) (p : Position)
  (** Container operation on a Viper container (e.g. Seq index). *)
  | ContainerOp (op : ContainerOpKind) (left right : Expr) (p : Position)
  (** Viper Seq. *)
  | Seq (ty : Ty) (elems : list Expr) (p : Position)
  (** Predicate name, arguments, in-expression, permission amount, variant. *)
  | Unfolding (name : string) (args : list Expr) (base : Expr) (perm : PermAmount)
      (variant : MaybeEnumVariantIndex) (p : Position)
  (** Guard, then, else. *)
  | Cond (guard then_expr else_expr : Expr) (p : Position)
  | ForAll (vars : list LocalVar) (triggers : list (Trigger.Trigger Expr)) (body : Expr)
      (p : Position)
  | Exists (vars : list LocalVar) (triggers : list (Trigger.Trigger Expr)) (body : Expr)
      (p : Position)
  (** [let variable == (expr) in body]. *)
  | LetExpr (var : LocalVar) (expr body : Expr) (p : Position)
  (** Function name, arguments, formal arguments, return type. *)
  | FuncApp (name : string) (args : list Expr) (formal_args : list LocalVar) (return_type : Ty)
      (p : Position)
  | DomainFuncApp (func : DomainFunc) (args : list Expr) (p : Position)
  | InhaleExhale (inhale_expr exhale_expr : Expr) (p : Position)
  (** Expression in which the downcast is visible, place to the enumeration,
      field that encodes the variant. *)
  | Downcast (base enum_place : Expr) (field : Ast.Field)
  (** Snapshot call to convert from a Ref to a snapshot value. *)
  | SnapApp (expr : Expr) (p : Position).
End Expr.
Abbreviation Expr := Expr.Expr.
Abbreviation Trigger := (Trigger.Trigger Expr).

(** A component that can be used to represent a place as a vector. *)
Module PlaceComponent.
Inductive PlaceComponent : Type :=
  | Field (field : Ast.Field) (p : Position)
  | Variant (field : Ast.Field) (p : Position).
End PlaceComponent.
Abbreviation PlaceComponent := PlaceComponent.PlaceComponent.

(** ** Induction on expressions

    Rocq's own principle does not reach the expressions inside the argument
    lists and the triggers; this one does. *)

Section ExprInd.
Context (P : Expr -> Prop).
Context (PLocal : forall v p, P (Expr.Local v p)).
Context (PVariant : forall b f p, P b -> P (Expr.Variant b f p)).
Context (PField : forall b f p, P b -> P (Expr.Field b f p)).
Context (PAddrOf : forall b t p, P b -> P (Expr.AddrOf b t p)).
Context (PLabelledOld : forall l b p, P b -> P (Expr.LabelledOld l b p)).
Context (PConst : forall c p, P (Expr.Const c p)).
Context (PMagicWand : forall l r b p, P l -> P r -> P (Expr.MagicWand l r b p)).
Context (PPred : forall n a q p, P a -> P (Expr.PredicateAccessPredicate n a q p)).
Context (PAcc : forall a q p, P a -> P (Expr.FieldAccessPredicate a q p)).
Context (PUnaryOp : forall o a p, P a -> P (Expr.UnaryOp o a p)).
Context (PBinOp : forall o l r p, P l -> P r -> P (Expr.BinOp o l r p)).
Context (PContainerOp : forall o l r p, P l -> P r -> P (Expr.ContainerOp o l r p)).
Context (PSeq : forall t es p, Forall P es -> P (Expr.Seq t es p)).
Context (PUnfolding : forall n es b q v p,
  Forall P es -> P b -> P (Expr.Unfolding n es b q v p)).
Context (PCond : forall g t e p, P g -> P t -> P e -> P (Expr.Cond g t e p)).
Context (PForAll : forall vs ts b p,
  Forall (fun t => Forall P (Trigger.elements t)) ts -> P b -> P (Expr.ForAll vs ts b p)).
Context (PExists : forall vs ts b p,
  Forall (fun t => Forall P (Trigger.elements t)) ts -> P b -> P (Expr.Exists vs ts b p)).
Context (PLetExpr : forall v e b p, P e -> P b -> P (Expr.LetExpr v e b p)).
Context (PFuncApp : forall n es fa t p, Forall P es -> P (Expr.FuncApp n es fa t p)).
Context (PDomainFuncApp : forall f es p, Forall P es -> P (Expr.DomainFuncApp f es p)).
Context (PInhaleExhale : forall i e p, P i -> P e -> P (Expr.InhaleExhale i e p)).
Context (PDowncast : forall b e f, P b -> P e -> P (Expr.Downcast b e f)).
Context (PSnapApp : forall e p, P e -> P (Expr.SnapApp e p)).

Fixpoint Expr_ind' (e : Expr) : P e :=
  match e with
  | Expr.Local v p => PLocal v p
  | Expr.Variant b f p => PVariant b f p (Expr_ind' b)
  | Expr.Field b f p => PField b f p (Expr_ind' b)
  | Expr.AddrOf b t p => PAddrOf b t p (Expr_ind' b)
  | Expr.LabelledOld l b p => PLabelledOld l b p (Expr_ind' b)
  | Expr.Const c p => PConst c p
  | Expr.MagicWand l r b p => PMagicWand l r b p (Expr_ind' l) (Expr_ind' r)
  | Expr.PredicateAccessPredicate n a q p => PPred n a q p (Expr_ind' a)
  | Expr.FieldAccessPredicate a q p => PAcc a q p (Expr_ind' a)
  | Expr.UnaryOp o a p => PUnaryOp o a p (Expr_ind' a)
  | Expr.BinOp o l r p => PBinOp o l r p (Expr_ind' l) (Expr_ind' r)
  | Expr.ContainerOp o l r p => PContainerOp o l r p (Expr_ind' l) (Expr_ind' r)
  | Expr.Seq t es p => PSeq t es p (Forall_of P Expr_ind' es)
  | Expr.Unfolding n es b q v p =>
      PUnfolding n es b q v p (Forall_of P Expr_ind' es) (Expr_ind' b)
  | Expr.Cond g t e p => PCond g t e p (Expr_ind' g) (Expr_ind' t) (Expr_ind' e)
  | Expr.ForAll vs ts b p =>
      PForAll vs ts b p
        (Forall_of _ (fun t =>
           match t return Forall P (Trigger.elements t) with
           | Trigger.new es => Forall_of P Expr_ind' es
           end) ts)
        (Expr_ind' b)
  | Expr.Exists vs ts b p =>
      PExists vs ts b p
        (Forall_of _ (fun t =>
           match t return Forall P (Trigger.elements t) with
           | Trigger.new es => Forall_of P Expr_ind' es
           end) ts)
        (Expr_ind' b)
  | Expr.LetExpr v e b p => PLetExpr v e b p (Expr_ind' e) (Expr_ind' b)
  | Expr.FuncApp n es fa t p => PFuncApp n es fa t p (Forall_of P Expr_ind' es)
  | Expr.DomainFuncApp f es p => PDomainFuncApp f es p (Forall_of P Expr_ind' es)
  | Expr.InhaleExhale i e p => PInhaleExhale i e p (Expr_ind' i) (Expr_ind' e)
  | Expr.Downcast b e f => PDowncast b e f (Expr_ind' b) (Expr_ind' e)
  | Expr.SnapApp e p => PSnapApp e p (Expr_ind' e)
  end.
End ExprInd.

(** [children e]: the sub-expressions the traversals of
    [ast/expr_transformers.rs] descend into, in their order.  The
    expressions inside triggers are not among them. *)
Definition children (e : Expr) : list Expr :=
  match e with
  | Expr.Local _ _ | Expr.Const _ _ => []
  | Expr.Variant b _ _ | Expr.Field b _ _ | Expr.AddrOf b _ _ | Expr.LabelledOld _ b _
  | Expr.PredicateAccessPredicate _ b _ _ | Expr.FieldAccessPredicate b _ _
  | Expr.UnaryOp _ b _ | Expr.ForAll _ _ b _ | Expr.Exists _ _ b _ | Expr.SnapApp b _ => [b]
  | Expr.MagicWand l r _ _ | Expr.BinOp _ l r _ | Expr.ContainerOp _ l r _
  | Expr.LetExpr _ l r _ | Expr.InhaleExhale l r _ | Expr.Downcast l r _ => [l; r]
  | Expr.Cond g t e _ => [g; t; e]
  | Expr.Unfolding _ es b _ _ _ => es ++ [b]
  | Expr.Seq _ es _ | Expr.FuncApp _ es _ _ _ | Expr.DomainFuncApp _ es _ => es
  end%list.

(** The same node with other children. *)
Definition map_children (f : Expr -> Expr) (e : Expr) : Expr :=
  match e with
  | Expr.Local _ _ | Expr.Const _ _ => e
  | Expr.Variant b v p => Expr.Variant (f b) v p
  | Expr.Field b fd p => Expr.Field (f b) fd p
  | Expr.AddrOf b t p => Expr.AddrOf (f b) t p
  | Expr.LabelledOld l b p => Expr.LabelledOld l (f b) p
  | Expr.MagicWand l r b p => Expr.MagicWand (f l) (f r) b p
  | Expr.PredicateAccessPredicate n a q p => Expr.PredicateAccessPredicate n (f a) q p
  | Expr.FieldAccessPredicate a q p => Expr.FieldAccessPredicate (f a) q p
  | Expr.UnaryOp o a p => Expr.UnaryOp o (f a) p
  | Expr.BinOp o l r p => Expr.BinOp o (f l) (f r) p
  | Expr.ContainerOp o l r p => Expr.ContainerOp o (f l) (f r) p
  | Expr.Seq t es p => Expr.Seq t (map f es) p
  | Expr.Unfolding n es b q v p => Expr.Unfolding n (map f es) (f b) q v p
  | Expr.Cond g t e p => Expr.Cond (f g) (f t) (f e) p
  | Expr.ForAll vs ts b p => Expr.ForAll vs ts (f b) p
  | Expr.Exists vs ts b p => Expr.Exists vs ts (f b) p
  | Expr.LetExpr v e b p => Expr.LetExpr v (f e) (f b) p
  | Expr.FuncApp n es fa t p => Expr.FuncApp n (map f es) fa t p
  | Expr.DomainFuncApp g es p => Expr.DomainFuncApp g (map f es) p
  | Expr.InhaleExhale i e p => Expr.InhaleExhale (f i) (f e) p
  | Expr.Downcast b e fd => Expr.Downcast (f b) (f e) fd
  | Expr.SnapApp e p => Expr.SnapApp (f e) p
  end.

(** Induction on the children: the principle for the traversals. *)
Lemma children_ind (P : Expr -> Prop) :
  (forall e, Forall P (children e) -> P e) -> forall e, P e.
Proof.
  intros H. induction e using Expr_ind'; apply H; simpl; auto.
  apply Forall_app. auto.
Qed.

Lemma children_map_children f e : children (map_children f e) = map f (children e).
Proof. destruct e; simpl; try done. by rewrite map_app. Qed.

Lemma map_children_ext f g e :
  Forall (fun c => f c = g c) (children e) -> map_children f e = map_children g e.
Proof.
  assert (Hl : forall l, Forall (fun c => f c = g c) l -> map f l = map g l).
  { intros l. induction 1; simpl; congruence. }
  destruct e; simpl; rewrite ?Forall_app, ?Forall_cons; intuition (f_equal; auto).
Qed.

Lemma map_children_id e : map_children (fun c => c) e = e.
Proof. destruct e; simpl; rewrite ?map_id; done. Qed.

Lemma map_children_comp f g e :
  map_children f (map_children g e) = map_children (fun c => f (g c)) e.
Proof. destruct e; simpl; rewrite ?map_map; done. Qed.
