(* ===== verification/ExprEq.v ===== *)
(** * Equality and hashing of expressions

    [impl PartialEq for Expr] and [impl Hash for Expr] of [ast/expr.rs], with
    the derived equalities of the other AST types.  Equality ignores
    positions, compares types by their variant only, and ignores the
    signature of a function application.

    [erase] is a normal form: two comparable expressions are equal exactly
    when their normal forms are the same term ([expr_eqb_spec]).  Everything
    about equality, and the agreement of hashing with it, goes through it. *)

From S2P Require Import Prelude Ast.

(** ** The derived equalities *)

#[export] Instance PermAmount_PartialEq : PartialEq PermAmount := PermAmount.eqb.
#[export] Instance Ty_PartialEq : PartialEq Ty := Ty.eqb.
#[export] Instance LocalVar_PartialEq : PartialEq LocalVar := LocalVar.eqb.
#[export] Instance Field_PartialEq : PartialEq Field := Field.eqb.
#[export] Instance EnumVariantIndex_PartialEq : PartialEq EnumVariantIndex := EnumVariantIndex.eqb.
#[export] Instance Borrow_PartialEq : PartialEq Borrow := Borrow.eqb.
#[export] Instance UnaryOpKind_PartialEq : PartialEq UnaryOpKind := UnaryOpKind.eqb.
#[export] Instance BinOpKind_PartialEq : PartialEq BinOpKind := BinOpKind.eqb.
#[export] Instance ContainerOpKind_PartialEq : PartialEq ContainerOpKind := ContainerOpKind.eqb.
#[export] Instance Const_PartialEq : PartialEq Const := Const.eqb.
#[export] Instance DomainFunc_PartialEq : PartialEq DomainFunc := DomainFunc.eqb.

(** ** [impl PartialEq for Expr]

    The last arm of the source is [(a, b) => { debug_assert_ne!(..); false }]:
    two [InhaleExhale] or two [Downcast] expressions reach it. *)
Fixpoint expr_eqb (self other : Expr) {struct self} : bool :=
  match self, other with
  | Expr.Local self_var _, Expr.Local other_var _ => self_var == other_var
  | Expr.Variant self_base self_variant _, Expr.Variant other_base other_variant _ =>
      expr_eqb self_base other_base && (self_variant == other_variant)
  | Expr.Field self_base self_field _, Expr.Field other_base other_field _ =>
      expr_eqb self_base other_base && (self_field == other_field)
  | Expr.AddrOf self_base self_typ _, Expr.AddrOf other_base other_typ _ =>
      expr_eqb self_base other_base && (self_typ == other_typ)
  | Expr.LabelledOld self_label self_base _, Expr.LabelledOld other_label other_base _ =>
      (self_label == other_label) && expr_eqb self_base other_base
  | Expr.Const self_const _, Expr.Const other_const _ => self_const == other_const
  | Expr.MagicWand self_lhs self_rhs self_borrow _,
    Expr.MagicWand other_lhs other_rhs other_borrow _ =>
      expr_eqb self_lhs other_lhs && expr_eqb self_rhs other_rhs && (self_borrow == other_borrow)
  | Expr.PredicateAccessPredicate self_name self_arg self_perm _,
    Expr.PredicateAccessPredicate other_name other_arg other_perm _ =>
      (self_name == other_name) && expr_eqb self_arg other_arg && (self_perm == other_perm)
  | Expr.FieldAccessPredicate self_base self_perm _,
    Expr.FieldAccessPredicate other_base other_perm _ =>
      expr_eqb self_base other_base && (self_perm == other_perm)
  | Expr.UnaryOp self_op self_arg _, Expr.UnaryOp other_op other_arg _ =>
      (self_op == other_op) && expr_eqb self_arg other_arg
  | Expr.BinOp self_op self_left self_right _, Expr.BinOp other_op other_left other_right _ =>
      (self_op == other_op) && expr_eqb self_left other_left && expr_eqb self_right other_right
  | Expr.ContainerOp self_op self_left self_right _,
    Expr.ContainerOp other_op other_left other_right _ =>
      (self_op == other_op) && expr_eqb self_left other_left && expr_eqb self_right other_right
  | Expr.Seq self_ty self_elems _, Expr.Seq other_ty other_elems _ =>
      (self_ty == other_ty) && list_eqb expr_eqb self_elems other_elems
  | Expr.Cond self_cond self_then self_else _, Expr.Cond other_cond other_then other_else _ =>
      expr_eqb self_cond other_cond && expr_eqb self_then other_then && expr_eqb self_else other_else
  | Expr.ForAll self_vars self_triggers self_expr _,
    Expr.ForAll other_vars other_triggers other_expr _ =>
      (self_vars == other_vars)
      && list_eqb (fun t1 t2 => list_eqb expr_eqb (Trigger.elements t1) (Trigger.elements t2))
           self_triggers other_triggers
      && expr_eqb self_expr other_expr
  | Expr.Exists self_vars self_triggers self_expr _,
    Expr.Exists other_vars other_triggers other_expr _ =>
      (self_vars == other_vars)
      && list_eqb (fun t1 t2 => list_eqb expr_eqb (Trigger.elements t1) (Trigger.elements t2))
           self_triggers other_triggers
      && expr_eqb self_expr other_expr
  | Expr.LetExpr self_var self_def self_expr _, Expr.LetExpr other_var other_def other_expr _ =>
      (self_var == other_var) && expr_eqb self_def other_def && expr_eqb self_expr other_expr
  | Expr.FuncApp self_name self_args _ _ _, Expr.FuncApp other_name other_args _ _ _ =>
      (self_name == other_name) && list_eqb expr_eqb self_args other_args
  | Expr.Unfolding self_name self_args self_base self_perm self_variant _,
    Expr.Unfolding other_name other_args other_base other_perm other_variant _ =>
      (self_name == other_name) && list_eqb expr_eqb self_args other_args
      && expr_eqb self_base other_base && (self_perm == other_perm)
      && option_eqb EnumVariantIndex.eqb self_variant other_variant
  | Expr.DomainFuncApp self_function_name self_args _,
    Expr.DomainFuncApp other_function_name other_args _ =>
      (self_function_name == other_function_name) && list_eqb expr_eqb self_args other_args
  | Expr.SnapApp self_expr _, Expr.SnapApp other_expr _ => expr_eqb self_expr other_expr
  | _, _ => false
  end.

#[export] Instance Expr_PartialEq : PartialEq Expr := expr_eqb.
#[export] Instance Trigger_PartialEq : PartialEq Trigger :=
  fun t1 t2 => list_eqb expr_eqb (Trigger.elements t1) (Trigger.elements t2).
#[export] Instance PlaceComponent_PartialEq : PartialEq PlaceComponent := fun a b =>
  match a, b with
  | PlaceComponent.Field f1 p1, PlaceComponent.Field f2 p2
  | PlaceComponent.Variant f1 p1, PlaceComponent.Variant f2 p2 =>
      (f1 == f2)
      && (Position.line p1 == Position.line p2)
      && (Position.column p1 == Position.column p2)
      && (Position.id p1 == Position.id p2)
  | _, _ => false
  end.

(** ** Normal forms *)

Definition erase_ty (t : Ty) : Ty :=
  match t with
  | Ty.Int => Ty.Int
  | Ty.Bool => Ty.Bool
  | Ty.Seq _ => Ty.Seq Ty.Int
  | Ty.TypedRef _ => Ty.TypedRef EmptyString
  | Ty.Domain _ => Ty.Domain EmptyString
  | Ty.Snapshot _ => Ty.Snapshot EmptyString
  end.

Definition erase_var (v : LocalVar) : LocalVar :=
  LocalVar.new (LocalVar.name v) (erase_ty (LocalVar.typ v)).

Definition erase_field (f : Field) : Field :=
  Field.new (Field.name f) (erase_ty (Field.typ f)).

Definition erase_func (f : DomainFunc) : DomainFunc :=
  DomainFunc.new (DomainFunc.name f) (map erase_var (DomainFunc.formal_args f))
    (erase_ty (DomainFunc.return_type f)) (DomainFunc.unique f) (DomainFunc.domain_name f).

Fixpoint erase (e : Expr) : Expr :=
  let pos := Position.default in
  match e with
  | Expr.Local v _ => Expr.Local (erase_var v) pos
  | Expr.Variant b v _ => Expr.Variant (erase b) (erase_field v) pos
  | Expr.Field b f _ => Expr.Field (erase b) (erase_field f) pos
  | Expr.AddrOf b t _ => Expr.AddrOf (erase b) (erase_ty t) pos
  | Expr.LabelledOld l b _ => Expr.LabelledOld l (erase b) pos
  | Expr.Const c _ => Expr.Const c pos
  | Expr.MagicWand l r b _ => Expr.MagicWand (erase l) (erase r) b pos
  | Expr.PredicateAccessPredicate n a q _ => Expr.PredicateAccessPredicate n (erase a) q pos
  | Expr.FieldAccessPredicate a q _ => Expr.FieldAccessPredicate (erase a) q pos
  | Expr.UnaryOp o a _ => Expr.UnaryOp o (erase a) pos
  | Expr.BinOp o l r _ => Expr.BinOp o (erase l) (erase r) pos
  | Expr.ContainerOp o l r _ => Expr.ContainerOp o (erase l) (erase r) pos
  | Expr.Seq t es _ => Expr.Seq (erase_ty t) (map erase es) pos
  | Expr.Unfolding n es b q v _ => Expr.Unfolding n (map erase es) (erase b) q v pos
  | Expr.Cond g t e _ => Expr.Cond (erase g) (erase t) (erase e) pos
  | Expr.ForAll vs ts b _ =>
      Expr.ForAll (map erase_var vs) (map (Trigger.map erase) ts) (erase b) pos
  | Expr.Exists vs ts b _ =>
      Expr.Exists (map erase_var vs) (map (Trigger.map erase) ts) (erase b) pos
  | Expr.LetExpr v e b _ => Expr.LetExpr (erase_var v) (erase e) (erase b) pos
  | Expr.FuncApp n es _ _ _ => Expr.FuncApp n (map erase es) [] Ty.Int pos
  | Expr.DomainFuncApp f es _ => Expr.DomainFuncApp (erase_func f) (map erase es) pos
  | Expr.InhaleExhale i e _ => Expr.InhaleExhale (erase i) (erase e) pos
  | Expr.Downcast b e f => Expr.Downcast (erase b) (erase e) (erase_field f)
  | Expr.SnapApp e _ => Expr.SnapApp (erase e) pos
  end.

(** No [InhaleExhale] and no [Downcast] anywhere, triggers included. *)
Fixpoint comparable (e : Expr) : bool :=
  match e with
  | Expr.Local _ _ | Expr.Const _ _ => true
  | Expr.Variant b _ _ | Expr.Field b _ _ | Expr.AddrOf b _ _ | Expr.LabelledOld _ b _
  | Expr.PredicateAccessPredicate _ b _ _ | Expr.FieldAccessPredicate b _ _
  | Expr.UnaryOp _ b _ | Expr.SnapApp b _ => comparable b
  | Expr.MagicWand l r _ _ | Expr.BinOp _ l r _ | Expr.ContainerOp _ l r _
  | Expr.LetExpr _ l r _ => comparable l && comparable r
  | Expr.Cond g t e _ => comparable g && comparable t && comparable e
  | Expr.Unfolding _ es b _ _ _ => forallb comparable es && comparable b
  | Expr.Seq _ es _ | Expr.FuncApp _ es _ _ _ | Expr.DomainFuncApp _ es _ =>
      forallb comparable es
  | Expr.ForAll _ ts b _ | Expr.Exists _ ts b _ =>
      forallb (fun t => forallb comparable (Trigger.elements t)) ts && comparable b
  | Expr.InhaleExhale _ _ _ | Expr.Downcast _ _ _ => false
  end.

(** ** Laws of the derived equalities *)

#[export] Instance PermAmount_peq_eq : PartialEqLeibniz PermAmount.
Proof. intros [] []; split; (done || discriminate). Qed.
#[export] Instance UnaryOpKind_peq_eq : PartialEqLeibniz UnaryOpKind.
Proof. intros [] []; split; (done || discriminate). Qed.
#[export] Instance BinOpKind_peq_eq : PartialEqLeibniz BinOpKind.
Proof. intros [] []; split; (done || discriminate). Qed.
#[export] Instance ContainerOpKind_peq_eq : PartialEqLeibniz ContainerOpKind.
Proof. intros [] []; split; (done || discriminate). Qed.
#[export] Instance Borrow_peq_eq : PartialEqLeibniz Borrow.
Proof. intros [x] [y]. unfold peq, Borrow_PartialEq, Borrow.eqb. simpl. rewrite Nat.eqb_eq. split; congruence. Qed.
#[export] Instance EnumVariantIndex_peq_eq : PartialEqLeibniz EnumVariantIndex.
Proof.
  intros [x] [y]. unfold peq, EnumVariantIndex_PartialEq, EnumVariantIndex.eqb. simpl.
  rewrite String.eqb_eq. split; congruence.
Qed.
#[export] Instance Const_peq_eq : PartialEqLeibniz Const.
Proof.
  intros [] []; unfold peq, Const_PartialEq; simpl; try (split; congruence).
  - rewrite Bool.eqb_true_iff. split; congruence.
  - rewrite Z.eqb_eq. split; congruence.
  - rewrite String.eqb_eq. split; congruence.
Qed.

Lemma ty_eqb_spec (a b : Ty) : (a == b) = true <-> erase_ty a = erase_ty b.
Proof. destruct a, b; unfold peq, Ty_PartialEq, Ty.eqb; simpl; split; congruence. Qed.

Lemma var_eqb_spec (a b : LocalVar) : (a == b) = true <-> erase_var a = erase_var b.
Proof.
  unfold peq, LocalVar_PartialEq, LocalVar.eqb, erase_var.
  rewrite andb_true_iff, String.eqb_eq. rewrite (ty_eqb_spec (LocalVar.typ a) (LocalVar.typ b)).
  split; [intros [-> ->]; done|]. intros E. injection E. auto.
Qed.

Lemma field_eqb_spec (a b : Field) : (a == b) = true <-> erase_field a = erase_field b.
Proof.
  unfold peq, Field_PartialEq, Field.eqb, erase_field.
  rewrite andb_true_iff, String.eqb_eq. rewrite (ty_eqb_spec (Field.typ a) (Field.typ b)).
  split; [intros [-> ->]; done|]. intros E. injection E. auto.
Qed.

Lemma vars_eqb_spec (l1 l2 : list LocalVar) :
  (l1 == l2) = true <-> map erase_var l1 = map erase_var l2.
Proof. exact (list_eqb_norm erase_var var_eqb_spec l1 l2). Qed.

Lemma func_eqb_spec (a b : DomainFunc) : (a == b) = true <-> erase_func a = erase_func b.
Proof.
  destruct a as [n1 f1 r1 u1 d1], b as [n2 f2 r2 u2 d2].
  unfold peq, DomainFunc_PartialEq, DomainFunc.eqb, erase_func; simpl.
  rewrite !andb_true_iff, !String.eqb_eq, Bool.eqb_true_iff.
  rewrite (vars_eqb_spec f1 f2), (ty_eqb_spec r1 r2).
  split; [intros [[[[-> ->] ->] ->] ->]; done|]. intros E. injection E. tauto.
Qed.

#[export] Instance Ty_RustEq : RustEq Ty.
Proof. exact (rust_eq_of_norm _ ty_eqb_spec). Qed.
#[export] Instance LocalVar_RustEq : RustEq LocalVar.
Proof. exact (rust_eq_of_norm _ var_eqb_spec). Qed.
#[export] Instance Field_RustEq : RustEq Field.
Proof. exact (rust_eq_of_norm _ field_eqb_spec). Qed.
#[export] Instance DomainFunc_RustEq : RustEq DomainFunc.
Proof. exact (rust_eq_of_norm _ func_eqb_spec). Qed.

(** ** The characterisation of [==] on expressions *)

Lemma triggers_eqb_spec (ts1 ts2 : list Trigger) :
  Forall (fun t => Forall (fun e => forall other,
    expr_eqb e other = true <-> comparable e = true /\ erase e = erase other)
    (Trigger.elements t)) ts1 ->
  list_eqb (fun t1 t2 => list_eqb expr_eqb (Trigger.elements t1) (Trigger.elements t2)) ts1 ts2
    = true <->
  forallb (fun t => forallb comparable (Trigger.elements t)) ts1 = true
  /\ map (Trigger.map erase) ts1 = map (Trigger.map erase) ts2.
Proof.
  intros H. apply list_eqb_map_eq. eapply Forall_impl; [exact H|].
  intros [es1] Hes [es2]. simpl. rewrite (list_eqb_map_eq _ erase comparable _ _ Hes).
  unfold Trigger.map. simpl. split; intros [? E]; (split; [done|]); [by rewrite E|].
  by injection E.
Qed.

Ltac eqb_norm :=
  repeat rewrite andb_true_iff;
  repeat (rewrite peq_eq || rewrite var_eqb_spec || rewrite field_eqb_spec
          || rewrite ty_eqb_spec || rewrite func_eqb_spec || rewrite vars_eqb_spec).

Lemma expr_eqb_spec self other :
  expr_eqb self other = true <-> comparable self = true /\ erase self = erase other.
Proof.
  revert other. induction self using Expr_ind'; intros other;
    destruct other; simpl;
    try (split; [discriminate | intros [_ ?]; discriminate]);
    try (split; [discriminate | intros [? _]; discriminate]);
    eqb_norm;
    repeat match goal with
    | IH : forall other, expr_eqb ?a other = true <-> _ |- context [expr_eqb ?a ?b = true] =>
        rewrite (IH b)
    | IH : Forall _ ?es |- context [list_eqb expr_eqb ?es _ = true] =>
        rewrite (list_eqb_map_eq _ erase comparable _ _ IH)
    | IH : Forall _ ?ts |- context [list_eqb _ ?ts _ = true] =>
        rewrite (triggers_eqb_spec _ _ IH)
    end;
    try change (option_eqb EnumVariantIndex.eqb ?a ?b) with (a == b); eqb_norm;
    (split; [intuition congruence | intros [? E]; injection E; intuition congruence]).
Qed.

Lemma forallb_map_erase es :
  Forall (fun e => comparable (erase e) = comparable e) es ->
  forallb comparable (map erase es) = forallb comparable es.
Proof. induction 1 as [|e' es He _ IH]; simpl; congruence. Qed.

Lemma comparable_triggers_erase ts :
  Forall (fun t => Forall (fun e => comparable (erase e) = comparable e) (Trigger.elements t)) ts ->
  forallb (fun t => forallb comparable (Trigger.elements t)) (map (Trigger.map erase) ts)
  = forallb (fun t => forallb comparable (Trigger.elements t)) ts.
Proof.
  induction 1 as [|[es] ts' Ht _ IH]; simpl; [done|]. rewrite forallb_map_erase by done. congruence.
Qed.

Lemma comparable_erase e : comparable (erase e) = comparable e.
Proof.
  induction e using Expr_ind'; simpl; try congruence;
    rewrite ?forallb_map_erase, ?comparable_triggers_erase by done; congruence.
Qed.

Lemma erase_ty_idem t : erase_ty (erase_ty t) = erase_ty t.
Proof. by destruct t. Qed.

Lemma erase_var_idem v : erase_var (erase_var v) = erase_var v.
Proof. unfold erase_var. simpl. by rewrite erase_ty_idem. Qed.

Lemma erase_field_idem f : erase_field (erase_field f) = erase_field f.
Proof. unfold erase_field. simpl. by rewrite erase_ty_idem. Qed.

Lemma erase_vars_idem vs : map erase_var (map erase_var vs) = map erase_var vs.
Proof. rewrite map_map. apply map_ext, erase_var_idem. Qed.

Lemma erase_func_idem f : erase_func (erase_func f) = erase_func f.
Proof. unfold erase_func. simpl. by rewrite erase_vars_idem, erase_ty_idem. Qed.

Lemma map_erase_idem es :
  Forall (fun e => erase (erase e) = erase e) es -> map erase (map erase es) = map erase es.
Proof. induction 1; simpl; congruence. Qed.

Lemma triggers_erase_idem ts :
  Forall (fun t => Forall (fun e => erase (erase e) = erase e) (Trigger.elements t)) ts ->
  map (Trigger.map erase) (map (Trigger.map erase) ts) = map (Trigger.map erase) ts.
Proof.
  induction 1 as [|[es] ts' Ht _ IH]; simpl; [done|]. rewrite IH. f_equal.
  unfold Trigger.map. simpl. by rewrite map_erase_idem.
Qed.

Lemma erase_idem e : erase (erase e) = erase e.
Proof.
  induction e using Expr_ind'; simpl;
    rewrite ?erase_var_idem, ?erase_field_idem, ?erase_ty_idem, ?erase_vars_idem,
      ?erase_func_idem, ?map_erase_idem, ?triggers_erase_idem by done; congruence.
Qed.

#[export] Instance Expr_PER : PartialEqPER Expr.
Proof.
  apply (per_of_norm comparable erase expr_eqb_spec).
  intros a b E. rewrite <- (comparable_erase a), <- (comparable_erase b). congruence.
Qed.

Lemma expr_eqb_refl e : (e == e) = comparable e.
Proof.
  destruct (comparable e) eqn:E.
  - by apply expr_eqb_spec.
  - destruct (e == e) eqn:E'; [|done]. apply expr_eqb_spec in E' as [? _]. congruence.
Qed.

Lemma expr_eqb_erase a b : (a == b) = true -> erase a = erase b.
Proof. by intros [_ H]%expr_eqb_spec. Qed.

(** The comparable expressions, on which [==] is an equivalence. *)
Lemma expr_eqb_cong_l (a b c : Expr) : (a == b) = true -> (a == c) = (b == c).
Proof.
  intros H. apply Bool.eq_true_iff_eq. split; intros H'.
  - apply (peq_trans b a c); [|exact H']. by rewrite (peq_sym b a).
  - exact (peq_trans a b c H H').
Qed.

Lemma expr_eqb_cong_r (a b c : Expr) : (a == b) = true -> (c == a) = (c == b).
Proof. intros H. rewrite (peq_sym c a), (peq_sym c b). by apply expr_eqb_cong_l. Qed.

Lemma expr_eqb_erase_l (a c : Expr) : (erase a == c) = (a == c).
Proof.
  apply Bool.eq_true_iff_eq. unfold peq, Expr_PartialEq.
  rewrite !expr_eqb_spec, comparable_erase, erase_idem. done.
Qed.

(** A function of expressions that does not see what [erase] drops gives the
    same result on equal expressions. *)
Lemma eqb_invariant {A} (f : Expr -> A) (a b : Expr) :
  (forall e, f (erase e) = f e) -> (a == b) = true -> f a = f b.
Proof. intros Hf H%expr_eqb_erase. rewrite <- (Hf a), <- (Hf b). congruence. Qed.

(** ** [impl Hash for Expr]

    A [Hasher] is fed a sequence of values.  Only that sequence matters:
    equal sequences give equal hashes.  A discriminant, an integer, a
    boolean, a string and the length prefix of a vector are fed as one item
    each. *)

Inductive hash_item : Type :=
  | HDiscriminant (n : nat)
  | HStr (s : string)
  | HInt (z : Z)
  | HBool (b : bool)
  | HLen (n : nat).

Class Hash (A : Type) := hash : A -> list hash_item.

#[export] Instance string_Hash : Hash string := fun s => [HStr s].
#[export] Instance bool_Hash : Hash bool := fun b => [HBool b].
#[export] Instance list_Hash {A} `{Hash A} : Hash (list A) :=
  fun l => (HLen (length l) :: concat (map hash l))%list.
#[export] Instance option_Hash {A} `{Hash A} : Hash (option A) := fun o =>
  match o with
  | None => [HDiscriminant 0]
  | Some x => (HDiscriminant 1 :: hash x)%list
  end.

(** [impl Hash for Type]: the discriminant only. *)
#[export] Instance Ty_Hash : Hash Ty := fun t => [HDiscriminant (Ty.discriminant t)].
(** Derived instances. *)
#[export] Instance LocalVar_Hash : Hash LocalVar := fun v =>
  (hash (LocalVar.name v) ++ hash (LocalVar.typ v))%list.
#[export] Instance Field_Hash : Hash Field := fun f =>
  (hash (Field.name f) ++ hash (Field.typ f))%list.
#[export] Instance EnumVariantIndex_Hash : Hash EnumVariantIndex := fun i =>
  hash (EnumVariantIndex.get_variant_name i).
#[export] Instance Borrow_Hash : Hash Borrow := fun b => [HInt (Z.of_nat (Borrow.borrow_id b))].
#[export] Instance PermAmount_Hash : Hash PermAmount := fun p =>
  [HDiscriminant match p with
   | PermAmount.Read => 0
   | PermAmount.Write => 1
   | PermAmount.Remaining => 2
   end].
#[export] Instance UnaryOpKind_Hash : Hash UnaryOpKind := fun o =>
  [HDiscriminant match o with UnaryOpKind.Not => 0 | UnaryOpKind.Minus => 1 end].
#[export] Instance BinOpKind_Hash : Hash BinOpKind := fun o =>
  [HDiscriminant (BinOpKind.discriminant o)].
#[export] Instance ContainerOpKind_Hash : Hash ContainerOpKind := fun o =>
  [HDiscriminant (ContainerOpKind.discriminant o)].
#[export] Instance Const_Hash : Hash Const := fun c =>
  match c with
  | Const.Bool b => [HDiscriminant 0; HBool b]
  | Const.Int i => [HDiscriminant 1; HInt i]
  | Const.BigInt s => [HDiscriminant 2; HStr s]
  | Const.FnPtr => [HDiscriminant 3]
  end.

(** [discriminant(self)]: the index of the variant in the declaration. *)
Definition expr_discriminant (e : Expr) : nat :=
  match e with
  | Expr.Local _ _ => 0
  | Expr.Variant _ _ _ => 1
  | Expr.Field _ _ _ => 2
  | Expr.AddrOf _ _ _ => 3
  | Expr.LabelledOld _ _ _ => 4
  | Expr.Const _ _ => 5
  | Expr.MagicWand _ _ _ _ => 6
  | Expr.PredicateAccessPredicate _ _ _ _ => 7
  | Expr.FieldAccessPredicate _ _ _ => 8
  | Expr.UnaryOp _ _ _ => 9
  | Expr.BinOp _ _ _ _ => 10
  | Expr.ContainerOp _ _ _ _ => 11
  | Expr.Seq _ _ _ => 12
  | Expr.Unfolding _ _ _ _ _ _ => 13
  | Expr.Cond _ _ _ _ => 14
  | Expr.ForAll _ _ _ _ => 15
  | Expr.Exists _ _ _ _ => 16
  | Expr.LetExpr _ _ _ _ => 17
  | Expr.FuncApp _ _ _ _ _ => 18
  | Expr.DomainFuncApp _ _ _ => 19
  | Expr.InhaleExhale _ _ _ => 20
  | Expr.Downcast _ _ _ => 21
  | Expr.SnapApp _ _ => 22
  end.

(** Hash ignoring the [position] field. *)
Fixpoint expr_hash (e : Expr) : list hash_item :=
  let hash_vec (es : list Expr) := (HLen (length es) :: concat (map expr_hash es))%list in
  let hash_triggers (ts : list Trigger) :=
    (HLen (length ts) :: concat (map (fun t =>
       HLen (length (Trigger.elements t)) :: concat (map expr_hash (Trigger.elements t))) ts))%list in
  (HDiscriminant (expr_discriminant e) ::
  match e with
  | Expr.Local var _ => hash var
  | Expr.Variant base variant_index _ => expr_hash base ++ hash variant_index
  | Expr.Field base field _ => expr_hash base ++ hash field
  | Expr.AddrOf base typ _ => expr_hash base ++ hash typ
  | Expr.LabelledOld label base _ => hash label ++ expr_hash base
  | Expr.Const const_expr _ => hash const_expr
  | Expr.MagicWand lhs rhs b _ => expr_hash lhs ++ expr_hash rhs ++ hash b
  | Expr.PredicateAccessPredicate name arg perm _ => hash name ++ expr_hash arg ++ hash perm
  | Expr.FieldAccessPredicate base perm _ => expr_hash base ++ hash perm
  | Expr.UnaryOp op arg _ => hash op ++ expr_hash arg
  | Expr.BinOp op lhs rhs _ => hash op ++ expr_hash lhs ++ expr_hash rhs
  | Expr.Cond cond then_expr else_expr _ =>
      expr_hash cond ++ expr_hash then_expr ++ expr_hash else_expr
  | Expr.ForAll vars triggers expr _ => hash vars ++ hash_triggers triggers ++ expr_hash expr
  | Expr.Exists vars triggers expr _ => hash vars ++ hash_triggers triggers ++ expr_hash expr
  | Expr.LetExpr var def expr _ => hash var ++ expr_hash def ++ expr_hash expr
  | Expr.FuncApp name args _ _ _ => hash name ++ hash_vec args
  | Expr.DomainFuncApp function args _ => hash (DomainFunc.name function) ++ hash_vec args
  | Expr.Unfolding name args base perm variant _ =>
      hash name ++ hash_vec args ++ expr_hash base ++ hash perm ++ hash variant
  | Expr.InhaleExhale inhale_expr exhale_expr _ => expr_hash inhale_expr ++ expr_hash exhale_expr
  | Expr.Downcast base enum_place field =>
      expr_hash base ++ expr_hash enum_place ++ hash field
  | Expr.SnapApp expr _ => expr_hash expr
  | Expr.ContainerOp op_kind lhs rhs _ => hash op_kind ++ expr_hash lhs ++ expr_hash rhs
  | Expr.Seq ty elems _ => hash ty ++ hash_vec elems
  end)%list.

#[export] Instance Expr_Hash : Hash Expr := expr_hash.

Lemma hash_erase_ty t : hash (erase_ty t) = hash t.
Proof. by destruct t. Qed.

Lemma hash_erase_var v : hash (erase_var v) = hash v.
Proof. destruct v as [n t]. unfold hash, LocalVar_Hash. simpl. by rewrite hash_erase_ty. Qed.

Lemma hash_erase_field f : hash (erase_field f) = hash f.
Proof. destruct f as [n t]. unfold hash, Field_Hash. simpl. by rewrite hash_erase_ty. Qed.

Lemma hash_erase_vars vs : hash (map erase_var vs) = hash vs.
Proof.
  unfold hash, list_Hash. rewrite length_map, map_map.
  do 2 f_equal. apply map_ext. apply hash_erase_var.
Qed.

Lemma hash_vec_erase (es : list Expr) :
  Forall (fun e => expr_hash (erase e) = expr_hash e) es ->
  map expr_hash (map erase es) = map expr_hash es.
Proof. induction 1; simpl; congruence. Qed.

Lemma hash_triggers_erase (ts : list Trigger) :
  Forall (fun t => Forall (fun e => expr_hash (erase e) = expr_hash e) (Trigger.elements t)) ts ->
  map (fun t => (HLen (length (Trigger.elements t))
                 :: concat (map expr_hash (Trigger.elements t)))%list) (map (Trigger.map erase) ts)
  = map (fun t => (HLen (length (Trigger.elements t))
                   :: concat (map expr_hash (Trigger.elements t)))%list) ts.
Proof.
  induction 1 as [|[es] ts' Ht _ IH]; simpl; [done|].
  rewrite length_map, hash_vec_erase, IH by done. done.
Qed.

Lemma expr_hash_erase e : expr_hash (erase e) = expr_hash e.
Proof.
  induction e using Expr_ind'; cbn [erase expr_hash expr_discriminant DomainFunc.name erase_func];
    rewrite ?hash_erase_var, ?hash_erase_field, ?hash_erase_ty, ?hash_erase_vars, ?length_map,
      ?hash_vec_erase, ?hash_triggers_erase by done; congruence.
Qed.

(** C9. In a release build `==` on expressions holds exactly when the two expressions are the
    same after erasing what the equality ignores (positions, what is inside types, the formal
    arguments and the result types of function applications) and the expression contains no
    `InhaleExhale` and no `Downcast`, also in triggers, for which `impl PartialEq for Expr` has
    no arm. *)
Theorem expr_eq_characterised (self other : Expr) :
  (self == other) = true <-> comparable self = true /\ erase self = erase other.
Proof. exact (expr_eqb_spec self other). Qed.

Theorem hash_agrees_with_eq (a b : Expr) : (a == b) = true -> hash a = hash b.
Proof.
  intros H%expr_eqb_erase. unfold hash, Expr_Hash.
  rewrite <- (expr_hash_erase a), <- (expr_hash_erase b). by rewrite H.
Qed.

Lemma hash_agrees_with_eq_witness :
  let a := Expr.Field (Expr.Local (LocalVar.new "x" (Ty.TypedRef "A")) (Position.new 1 2 3))
             (Field.new "f" Ty.Int) Position.default in
  let b := Expr.Field (Expr.Local (LocalVar.new "x" (Ty.TypedRef "B")) Position.default)
             (Field.new "f" Ty.Int) (Position.new 4 5 6) in
  (a == b) = true /\ hash a = hash b.
Proof. split; [vm_compute; reflexivity|]. apply hash_agrees_with_eq. vm_compute. reflexivity. Defined.
