(* ===== verification/ExprPlace.v ===== *)
(** * Places

    The part of [impl Expr] of [prusti-common/src/vir/ast/expr.rs] about
    places: paths from a local variable through fields, variants, addresses,
    old expressions and unfoldings. *)

From S2P Require Import Prelude Ast ExprEq.

Fixpoint is_place (self : Expr) : bool :=
  match self with
  | Expr.Local _ _ => true
  | Expr.Variant base _ _
  | Expr.Field base _ _
  | Expr.AddrOf base _ _
  | Expr.LabelledOld _ base _
  | Expr.Unfolding _ _ base _ _ _ => is_place base
  | _ => false
  end.

(** [u32] addition of the release profile wraps. *)
Definition wrap_u32 (z : Z) : Z := (z mod 4294967296)%Z.

(** How many parts this place has? Used for ordering places. *)
Fixpoint place_depth (self : Expr) : option Z :=
  match self with
  | Expr.Local _ _ => Some 1%Z
  | Expr.Variant base _ _
  | Expr.Field base _ _
  | Expr.AddrOf base _ _
  | Expr.LabelledOld _ base _
  | Expr.Unfolding _ _ base _ _ _ => d ← place_depth base; Some (wrap_u32 (d + 1))
  | _ => None
  end.

Fixpoint is_simple_place (self : Expr) : bool :=
  match self with
  | Expr.Local _ _ => true
  | Expr.Variant base _ _ | Expr.Field base _ _ => is_simple_place base
  | _ => false
  end.

(** Only defined for places: [unreachable!] elsewhere. *)
Definition get_parent_ref (self : Expr) : option (option Expr) :=
  match self with
  | Expr.Local _ _ => Some None
  | Expr.Variant base _ _ | Expr.Field base _ _ | Expr.AddrOf base _ _ => Some (Some base)
  | Expr.LabelledOld _ _ _ => Some None
  | Expr.Unfolding _ _ _ _ _ _ => Some None
  | _ => None
  end.

Definition get_parent (self : Expr) : option (option Expr) := get_parent_ref self.

Definition is_variant (self : Expr) : bool :=
  match self with Expr.Variant _ _ _ => true | _ => false end.

Definition is_call (self : Expr) : bool :=
  match self with Expr.FuncApp _ _ _ _ _ | Expr.DomainFuncApp _ _ _ => true | _ => false end.

Definition is_local (self : Expr) : bool :=
  match self with Expr.Local _ _ => true | _ => false end.

Definition is_addr_of (self : Expr) : bool :=
  match self with Expr.AddrOf _ _ _ => true | _ => false end.

Fixpoint is_only_permissions (self : Expr) : bool :=
  match self with
  | Expr.PredicateAccessPredicate _ _ _ _ | Expr.FieldAccessPredicate _ _ _ => true
  | Expr.BinOp BinOpKind.And lhs rhs _ => is_only_permissions lhs && is_only_permissions rhs
  | _ => false
  end.

(** Is this place a MIR reference? *)
Definition is_mir_reference (self : Expr) : bool :=
  match self with
  | Expr.Field (Expr.Local v _) _ _ =>
      match LocalVar.typ v with
      | Ty.TypedRef name => starts_with name "ref$"
      | _ => false
      end
  | _ => false
  end.

(** Puts an [old[label](..)] around the expression. *)
Definition old (self : Expr) (label : string) : Expr :=
  match self with
  | Expr.Local _ _ => self
  | Expr.LabelledOld _ _ _ => self
  | _ => Expr.LabelledOld label self Position.default
  end.

Definition get_label (self : Expr) : option string :=
  match self with
  | Expr.LabelledOld label _ _ => Some label
  | _ => None
  end.

Definition is_old (self : Expr) : bool :=
  match get_label self with Some _ => true | None => false end.

Definition is_curr (self : Expr) : bool := negb (is_old self).

Definition get_place (self : Expr) : option Expr :=
  match self with
  | Expr.PredicateAccessPredicate _ arg _ _ => Some arg
  | Expr.FieldAccessPredicate arg _ _ => Some arg
  | _ => None
  end.

Definition get_perm_amount (self : Expr) : option PermAmount :=
  match self with
  | Expr.PredicateAccessPredicate _ _ perm_amount _ => Some perm_amount
  | Expr.FieldAccessPredicate _ perm_amount _ => Some perm_amount
  | _ => None
  end.

(** Only defined for places: elsewhere [get_parent().unwrap()] panics.  The
    parent of the remaining places is their base ([get_base_eq]). *)
Fixpoint get_base (self : Expr) : option LocalVar :=
  match self with
  | Expr.Local var _ => Some var
  | Expr.LabelledOld _ base _ | Expr.Unfolding _ _ base _ _ _ => get_base base
  | Expr.Variant base _ _ | Expr.Field base _ _ | Expr.AddrOf base _ _ => get_base base
  | _ => None
  end.

(** [has_prefix] and [all_prefixes] go up with [get_parent], whose cases are
    written out here ([has_prefix_eq], [all_prefixes_eq]). *)
Fixpoint has_prefix (self other : Expr) {struct self} : option bool :=
  if self == other then Some true
  else match self with
       | Expr.Local _ _ => Some false
       | Expr.Variant base _ _ | Expr.Field base _ _ | Expr.AddrOf base _ _ =>
           has_prefix base other
       | Expr.LabelledOld _ _ _ => Some false
       | Expr.Unfolding _ _ _ _ _ _ => Some false
       | _ => None
       end.

Definition has_proper_prefix (self other : Expr) : option bool :=
  if self != other then has_prefix self other else Some false.

(** Returns all prefixes, from the shortest to the longest. *)
Fixpoint all_prefixes (self : Expr) : option (list Expr) :=
  res ← match self with
        | Expr.Local _ _ => Some []
        | Expr.Variant base _ _ | Expr.Field base _ _ | Expr.AddrOf base _ _ =>
            all_prefixes base
        | Expr.LabelledOld _ _ _ => Some []
        | Expr.Unfolding _ _ _ _ _ _ => Some []
        | _ => None
        end;
  Some (res ++ [self])%list.

Definition all_proper_prefixes (self : Expr) : option (list Expr) :=
  parent ← get_parent self;
  match parent with
  | Some parent => all_prefixes parent
  | None => Some []
  end.

(** ** Place components *)

(** Split place into place components. *)
Fixpoint explode_place (self : Expr) : Expr * list PlaceComponent :=
  match self with
  | Expr.Variant base variant pos =>
      let '(base_base, components) := explode_place base in
      (base_base, components ++ [PlaceComponent.Variant variant pos])%list
  | Expr.Field base field pos =>
      let '(base_base, components) := explode_place base in
      (base_base, components ++ [PlaceComponent.Field field pos])%list
  | _ => (self, [])
  end.

(** Reconstruct place from the place components. *)
Definition reconstruct_place (self : Expr) (components : list PlaceComponent) : Expr :=
  foldl (fun acc component =>
    match component with
    | PlaceComponent.Variant variant pos => Expr.Variant acc variant pos
    | PlaceComponent.Field field pos => Expr.Field acc field pos
    end) self components.

(** ** Types of expressions *)

(** Returns the type of the expression.  [None] is a panic: an access
    predicate, a magic wand or an inhale-exhale ([unreachable!]), a container
    operation ([todo!]), or operands of different types ([assert_eq!]). *)
Fixpoint get_type (self : Expr) : option Ty :=
  match self with
  | Expr.Local v _ => Some (LocalVar.typ v)
  | Expr.Variant _ f _ => Some (Field.typ f)
  | Expr.Field _ f _ => Some (Field.typ f)
  | Expr.AddrOf _ typ _ => Some typ
  | Expr.LetExpr v _ _ _ => Some (LocalVar.typ v)
  | Expr.LabelledOld _ base _
  | Expr.Unfolding _ _ base _ _ _
  | Expr.UnaryOp _ base _ => get_type base
  | Expr.FuncApp _ _ _ typ _ => Some typ
  | Expr.DomainFuncApp func _ _ => Some (DomainFunc.return_type func)
  | Expr.Const constant _ =>
      match constant with
      | Const.Bool _ => Some Ty.Bool
      | Const.Int _ | Const.BigInt _ => Some Ty.Int
      | Const.FnPtr => Some (Ty.TypedRef "FnPtr")
      end
  | Expr.BinOp kind base1 base2 _ =>
      match kind with
      | BinOpKind.EqCmp | BinOpKind.NeCmp | BinOpKind.GtCmp | BinOpKind.GeCmp
      | BinOpKind.LtCmp | BinOpKind.LeCmp | BinOpKind.And | BinOpKind.Or
      | BinOpKind.Implies => Some Ty.Bool
      | BinOpKind.Add | BinOpKind.Sub | BinOpKind.Mul | BinOpKind.Div | BinOpKind.Mod =>
          typ1 ← get_type base1;
          typ2 ← get_type base2;
          _ ← assert_ (typ1 == typ2);
          Some typ1
      end
  | Expr.Cond _ base1 base2 _ =>
      typ1 ← get_type base1;
      typ2 ← get_type base2;
      _ ← assert_ (typ1 == typ2);
      Some typ1
  | Expr.ForAll _ _ _ _ | Expr.Exists _ _ _ _ => Some Ty.Bool
  | Expr.MagicWand _ _ _ _
  | Expr.PredicateAccessPredicate _ _ _ _
  | Expr.FieldAccessPredicate _ _ _
  | Expr.InhaleExhale _ _ _ => None
  | Expr.Downcast base _ _ => get_type base
  | Expr.SnapApp expr _ => get_type expr
  | Expr.ContainerOp _ _ _ _ => None
  | Expr.Seq ty _ _ => Some ty
  end.

(** If returns true, then the expression is guaranteed to be boolean. *)
Definition is_bool (self : Expr) : option bool :=
  if is_place self then t ← get_type self; Some (t == Ty.Bool)
  else Some match self with
       | Expr.Const (Const.Bool _) _
       | Expr.UnaryOp UnaryOpKind.Not _ _
       | Expr.FuncApp _ _ _ Ty.Bool _
       | Expr.ForAll _ _ _ _
       | Expr.Exists _ _ _ _ => true
       | Expr.BinOp kind _ _ _ =>
           (kind == BinOpKind.EqCmp) || (kind == BinOpKind.NeCmp)
           || (kind == BinOpKind.GtCmp) || (kind == BinOpKind.GeCmp)
           || (kind == BinOpKind.LtCmp) || (kind == BinOpKind.LeCmp)
           || (kind == BinOpKind.And) || (kind == BinOpKind.Or) || (kind == BinOpKind.Implies)
       | _ => false
       end.

Definition typed_ref_name (self : Expr) : option (option string) :=
  t ← get_type self;
  Some match t with
       | Ty.TypedRef name => Some name
       | _ => None
       end.

(** If self is a MIR reference, dereference it. *)
Definition try_deref (self : Expr) : option (option Expr) :=
  t ← get_type self;
  Some match t with
       | Ty.TypedRef predicate_name =>
           if starts_with predicate_name "ref$" then
             let field_predicate_name := str_skip 4 predicate_name in
             let field := Field.new "val_ref" (Ty.TypedRef field_predicate_name) in
             Some (Expr.Field self field Position.default)
           else None
       | _ => None
       end.

(** The place of an enum variant. *)
Definition variant_place (self : Expr) (index : string) : option Expr :=
  _ ← assert_ (is_place self);
  let field_name := "enum_" ++ index in
  typ ← get_type self;
  variant_typ ← Ty.variant typ index;
  Some (Expr.Variant self (Field.new field_name variant_typ) Position.default).

Definition field_place (self : Expr) (field : Field) : Expr :=
  Expr.Field self field Position.default.

Definition addr_of (self : Expr) : option Expr :=
  typ ← get_type self;
  Some (Expr.AddrOf self (Ty.TypedRef (Ty.name typ)) Position.default).

(** The name of the predicate that encodes the type of a local variable. *)
Definition local_type (self : Expr) : option string :=
  match self with
  | Expr.Local localvar _ =>
      match LocalVar.typ localvar with
      | Ty.TypedRef str => Some str
      | _ => None
      end
  | _ => None
  end.

(** ** Places up to [==] *)

Lemma is_place_erase e : is_place (erase e) = is_place e.
Proof. induction e using Expr_ind'; done. Qed.

Lemma get_base_erase e : get_base (erase e) = erase_var <$> get_base e.
Proof. induction e using Expr_ind'; done. Qed.

(** The cases of [get_parent] in the recursions above. *)
Lemma has_prefix_eq self other :
  has_prefix self other =
    if self == other then Some true
    else parent ← get_parent self;
         match parent with
         | Some parent => has_prefix parent other
         | None => Some false
         end.
Proof. by destruct self. Qed.

Lemma all_prefixes_eq self :
  all_prefixes self = (res ← all_proper_prefixes self; Some (res ++ [self])%list).
Proof. by destruct self. Qed.

Lemma get_base_eq self :
  get_base self =
    match self with
    | Expr.Local var _ => Some var
    | Expr.LabelledOld _ base _ | Expr.Unfolding _ _ base _ _ _ => get_base base
    | _ => parent ← get_parent self; base ← parent; get_base base
    end.
Proof. by destruct self. Qed.

Lemma get_parent_erase e : get_parent (erase e) = fmap (M := option) erase <$> get_parent e.
Proof. by destruct e. Qed.

(** Induction along [get_parent]. *)
Lemma parent_ind (P : Expr -> Prop) :
  (forall e, (forall p, get_parent e = Some (Some p) -> P p) -> P e) -> forall e, P e.
Proof. intros H e. induction e using Expr_ind'; apply H; simpl; congruence. Qed.

Lemma has_prefix_erase e other : has_prefix (erase e) other = has_prefix e other.
Proof.
  induction e as [e IH] using parent_ind.
  rewrite (has_prefix_eq (erase e)), (has_prefix_eq e), expr_eqb_erase_l, get_parent_erase.
  case_match; [done|].
  destruct (get_parent e) as [[p|]|] eqn:Hp; simpl; [|done|done]. by apply IH.
Qed.

Lemma place_parent e :
  is_place e = true ->
  get_parent e = Some None \/ exists p, get_parent e = Some (Some p) /\ is_place p = true.
Proof. destruct e; simpl; intros; try discriminate; eauto. Qed.

(** ** What the prefix operations compute *)

(** [chain ps]: each element is the parent of the next, the first has none. *)
Inductive chain : list Expr -> Prop :=
  | chain_root e : get_parent e = Some None -> chain [e]
  | chain_snoc ps p e : chain (ps ++ [p]) -> get_parent e = Some (Some p) ->
      chain ((ps ++ [p]) ++ [e]).

Lemma place_prefixes e :
  is_place e = true ->
  exists ps, all_proper_prefixes e = Some ps /\ all_prefixes e = Some (ps ++ [e])%list
    /\ chain (ps ++ [e])
    /\ forall other, has_prefix e other = Some (existsb (fun p => p == other) (ps ++ [e]))%list.
Proof.
  induction e as [e IH] using parent_ind. intros He.
  destruct (place_parent e He) as [Hp|(p & Hp & Hplace)].
  - exists []. rewrite all_prefixes_eq. unfold all_proper_prefixes. rewrite Hp. simpl.
    repeat split; [by constructor|]. intros other. rewrite has_prefix_eq, Hp. simpl.
    by destruct (e == other).
  - destruct (IH p Hp Hplace) as (ps & _ & Hall & Hchain & Hpre).
    exists (ps ++ [p])%list. rewrite all_prefixes_eq. unfold all_proper_prefixes.
    rewrite Hp. simpl. rewrite Hall. simpl. repeat split; [by constructor|].
    intros other. rewrite has_prefix_eq, Hp, existsb_app. simpl. rewrite Hpre.
    destruct (e == other); [by rewrite orb_true_r|]. by rewrite !orb_false_r.
Qed.

Theorem prefixes_of_place (self : Expr) :
  is_place self = true ->
  exists ps, all_prefixes self = Some (ps ++ [self])%list
    /\ all_proper_prefixes self = Some ps
    /\ chain (ps ++ [self])
    /\ forall other, has_prefix self other = Some (existsb (fun p => p == other) (ps ++ [self]))%list.
Proof. intros (ps & ? & ? & ? & ?)%place_prefixes. by exists ps. Qed.

Lemma has_prefix_cong_l (a b c : Expr) : (a == b) = true -> has_prefix a c = has_prefix b c.
Proof. apply (eqb_invariant (fun e => has_prefix e c)). intros e. apply has_prefix_erase. Qed.

Lemma has_prefix_cong_r (a b c : Expr) : (b == c) = true -> has_prefix a b = has_prefix a c.
Proof.
  intros H. induction a as [a IH] using parent_ind. rewrite !(has_prefix_eq a).
  rewrite (expr_eqb_cong_r b c a H). case_match; [done|].
  destruct (get_parent a) as [[p|]|] eqn:Hp; simpl; eauto.
Qed.

Lemma has_prefix_inv a b :
  has_prefix a b = Some true ->
  (a == b) = true \/ exists p, get_parent a = Some (Some p) /\ has_prefix p b = Some true.
Proof.
  rewrite has_prefix_eq. destruct (a == b); [by left|].
  destruct (get_parent a) as [[p|]|]; simpl; try discriminate. eauto.
Qed.

Lemma has_prefix_parent a p b :
  get_parent a = Some (Some p) -> has_prefix p b = Some true -> has_prefix a b = Some true.
Proof. intros Hp Hb. rewrite has_prefix_eq, Hp. simpl. by destruct (a == b). Qed.

Lemma has_prefix_trans a b c :
  has_prefix a b = Some true -> has_prefix b c = Some true -> has_prefix a c = Some true.
Proof.
  induction a as [a IH] using parent_ind. intros [Hab|(p & Hp & Hpb)]%has_prefix_inv Hbc.
  - by rewrite (has_prefix_cong_l a b c).
  - eapply has_prefix_parent; eauto.
Qed.

(** The number of nodes from the top to the root of a place. *)
Fixpoint path_length (e : Expr) : nat :=
  match e with
  | Expr.Variant b _ _ | Expr.Field b _ _ | Expr.AddrOf b _ _ | Expr.LabelledOld _ b _
  | Expr.Unfolding _ _ b _ _ _ => S (path_length b)
  | _ => 1
  end.

Lemma path_length_eqb (a b : Expr) : (a == b) = true -> path_length a = path_length b.
Proof. apply (eqb_invariant path_length). intros e. induction e using Expr_ind'; simpl; congruence. Qed.

Lemma path_length_parent e p : get_parent e = Some (Some p) -> path_length e = S (path_length p).
Proof. destruct e; simpl; intros; simplify_eq; done. Qed.

Lemma has_prefix_length a b :
  has_prefix a b = Some true -> (a == b) = true \/ path_length b < path_length a.
Proof.
  induction a as [a IH] using parent_ind. intros [Hab|(p & Hp & Hpb)]%has_prefix_inv; [by left|].
  right. rewrite (path_length_parent a p Hp). destruct (IH p Hp Hpb) as [E|]; [|lia].
  rewrite (path_length_eqb p b E). lia.
Qed.

Theorem has_prefix_partial_order :
  (forall a, comparable a = true -> has_prefix a a = Some true)
  /\ (forall a b, has_prefix a b = Some true -> has_prefix b a = Some true -> (a == b) = true)
  /\ (forall a b c, has_prefix a b = Some true -> has_prefix b c = Some true ->
        has_prefix a c = Some true)
  /\ (forall a, is_place a = true -> forall b, is_Some (has_prefix a b)).
Proof.
  repeat split.
  - intros a Ha. rewrite has_prefix_eq, expr_eqb_refl, Ha. done.
  - intros a b [|]%has_prefix_length; [done|]. intros [H'|]%has_prefix_length; [|lia].
    by rewrite peq_sym.
  - apply has_prefix_trans.
  - intros a (ps & _ & _ & _ & H)%place_prefixes b. rewrite H. eauto.
Qed.

Lemma place_depth_path_length e :
  is_place e = true -> (Z.of_nat (path_length e) < 4294967296)%Z ->
  place_depth e = Some (Z.of_nat (path_length e)).
Proof.
  induction e using Expr_ind'; cbn [is_place path_length place_depth]; intros Hp Hlt;
    try discriminate; [done|..].
  all: rewrite IHe by (done || lia); unfold mbind, option_bind, wrap_u32;
       rewrite Z.mod_small by lia; apply (f_equal Some); lia.
Qed.

Theorem proper_prefix_is_shallower (self other : Expr) :
  is_place self = true -> is_place other = true ->
  (Z.of_nat (path_length self) < 4294967296)%Z ->
  has_proper_prefix self other = Some true ->
  exists d d', place_depth self = Some d /\ place_depth other = Some d' /\ (d' < d)%Z.
Proof.
  unfold has_proper_prefix. intros Hs Ho Hlt.
  destruct (self == other) eqn:E; simpl; [discriminate|]. intros H%has_prefix_length.
  destruct H as [|H]; [congruence|].
  exists (Z.of_nat (path_length self)), (Z.of_nat (path_length other)).
  rewrite !place_depth_path_length by (done || lia). repeat split. lia.
Qed.

Theorem reconstruct_explode_place (self : Expr) :
  let '(base, components) := explode_place self in
  reconstruct_place base components = self
  /\ match base with Expr.Variant _ _ _ | Expr.Field _ _ _ => False | _ => True end.
Proof.
  induction self using Expr_ind'; simpl; try done;
    destruct (explode_place _) as [b cs]; destruct IHself as [IH Hb]; split; try done;
    unfold reconstruct_place in *; rewrite foldl_app; simpl; by rewrite IH.
Qed.

Lemma explode_reconstruct_place base components :
  match base with Expr.Variant _ _ _ | Expr.Field _ _ _ => False | _ => True end ->
  explode_place (reconstruct_place base components) = (base, components).
Proof.
  intros Hb. induction components as [|c cs IH] using rev_ind.
  - by destruct base.
  - unfold reconstruct_place in *. rewrite foldl_app. simpl.
    destruct c; simpl; by rewrite IH.
Qed.

Lemma place_get_type e : is_place e = true -> is_Some (get_type e).
Proof. induction e using Expr_ind'; simpl; intros; try discriminate; eauto. Qed.

Lemma place_get_base e : is_place e = true -> is_Some (get_base e).
Proof. induction e using Expr_ind'; simpl; intros; try discriminate; eauto. Qed.

(** Prefixes share their base variable. *)
Lemma has_prefix_base a b va vb :
  has_prefix a b = Some true -> get_base a = Some va -> get_base b = Some vb ->
  (va == vb) = true.
Proof.
  revert va. induction a as [a IH] using parent_ind.
  intros va [Hab|(p & Hp & Hpb)]%has_prefix_inv Ha Hb.
  - apply var_eqb_spec. apply expr_eqb_erase, (f_equal get_base) in Hab.
    rewrite !get_base_erase, Ha, Hb in Hab.
    change (Some (erase_var va) = Some (erase_var vb)) in Hab. congruence.
  - apply (IH p Hp va Hpb); [|done]. destruct a; simpl in *; congruence.
Qed.

(** The place [x.f.g] of the witnesses. *)
Definition example_place : Expr :=
  Expr.Field (Expr.Field (Expr.Local (LocalVar.new "x" (Ty.TypedRef "T")) Position.default)
    (Field.new "f" (Ty.TypedRef "U")) Position.default) (Field.new "g" Ty.Int) Position.default.

Lemma prefixes_of_place_witness :
  is_place example_place = true
  /\ exists ps, all_prefixes example_place = Some (ps ++ [example_place])%list.
Proof.
  split; [reflexivity|]. destruct (prefixes_of_place example_place eq_refl) as (ps & H & _).
  exists ps. exact H.
Defined.

Lemma proper_prefix_is_shallower_witness :
  let x := Expr.Local (LocalVar.new "x" (Ty.TypedRef "T")) Position.default in
  has_proper_prefix example_place x = Some true
  /\ exists d d', place_depth example_place = Some d /\ place_depth x = Some d' /\ (d' < d)%Z.
Proof.
  split; [vm_compute; reflexivity|].
  apply proper_prefix_is_shallower; vm_compute; reflexivity.
Defined.
