(* ===== verification/ExprTransformers.v ===== *)
(** * Traversals of expressions

    [prusti-common/src/vir/ast/expr_transformers.rs]: the traits
    [ExprFolder], [FallibleExprFolder] and [ExprWalker], their default
    methods, and the two closures-based folds.

    The methods [fold_variant], [fold_field], ... of a trait are one function
    over the type [Node] of "an expression constructor whose sub-expressions
    are replaced by something else"; an implementation overrides a method by
    matching its constructor and falls through to the default for the rest.
    A sub-expression is handed to a method as a pair: the sub-expression
    itself ([orig]) and the traversal of it ([go], the call [self.fold(..)]).
    A method may use either, any number of times, as the Rust code may call
    [self.fold_boxed] or not; since every call is on a sub-expression, the
    traversal is a structural recursion and needs no fuel.

    [ExprFolder] and [FallibleExprFolder] differ only in the error type. *)

From S2P Require Import Prelude Ast ExprEq ExprPlace.

(** ** One layer of an expression *)

Module Node.
Inductive Node (C : Type) : Type :=
  | Local (v : LocalVar) (p : Position)
  | Variant (base : C) (variant : Field) (p : Position)
  | Field (receiver : C) (field : Field) (p : Position)
  | AddrOf (e : C) (t : Ty) (p : Position)
  | LabelledOld (label : string) (body : C) (p : Position)
  | Const (x : Const) (p : Position)
  | MagicWand (lhs rhs : C) (borrow : option Borrow) (p : Position)
  | PredicateAccessPredicate (name : string) (arg : C) (perm_amount : PermAmount) (p : Position)
  | FieldAccessPredicate (receiver : C) (perm_amount : PermAmount) (p : Position)
  | UnaryOp (op : UnaryOpKind) (arg : C) (p : Position)
  | BinOp (kind : BinOpKind) (first second : C) (p : Position)
  | ContainerOp (kind : ContainerOpKind) (l r : C) (p : Position)
  | Seq (t : Ty) (elems : list C) (p : Position)
  | Unfolding (name : string) (args : list C) (expr : C) (perm : PermAmount)
      (variant : MaybeEnumVariantIndex) (p : Position)
  | Cond (guard then_expr else_expr : C) (p : Position)
  | ForAll (vars : list LocalVar) (triggers : list Trigger) (body : C) (p : Position)
  | Exists (vars : list LocalVar) (triggers : list Trigger) (body : C) (p : Position)
  | LetExpr (var : LocalVar) (expr body : C) (p : Position)
  | FuncApp (name : string) (args : list C) (formal_args : list LocalVar) (return_type : Ty)
      (p : Position)
  | DomainFuncApp (func : DomainFunc) (args : list C) (p : Position)
  | InhaleExhale (inhale_expr exhale_expr : C) (p : Position)
  | Downcast (base enum_place : C) (field : Ast.Field)
  | SnapApp (e : C) (p : Position).
#[global] Arguments Local {C}.
#[global] Arguments Variant {C}.
#[global] Arguments Field {C}.
#[global] Arguments AddrOf {C}.
#[global] Arguments LabelledOld {C}.
#[global] Arguments Const {C}.
#[global] Arguments MagicWand {C}.
#[global] Arguments PredicateAccessPredicate {C}.
#[global] Arguments FieldAccessPredicate {C}.
#[global] Arguments UnaryOp {C}.
#[global] Arguments BinOp {C}.
#[global] Arguments ContainerOp {C}.
#[global] Arguments Seq {C}.
#[global] Arguments Unfolding {C}.
#[global] Arguments Cond {C}.
#[global] Arguments ForAll {C}.
#[global] Arguments Exists {C}.
#[global] Arguments LetExpr {C}.
#[global] Arguments FuncApp {C}.
#[global] Arguments DomainFuncApp {C}.
#[global] Arguments InhaleExhale {C}.
#[global] Arguments Downcast {C}.
#[global] Arguments SnapApp {C}.

(** The layer at the top of an expression; [sub] is applied to the
    sub-expressions. *)
Definition of_expr {C} (sub : Expr -> C) (e : Expr) : Node C :=
  match e with
  | Expr.Local v p => Local v p
  | Expr.Variant b v p => Variant (sub b) v p
  | Expr.Field b f p => Field (sub b) f p
  | Expr.AddrOf b t p => AddrOf (sub b) t p
  | Expr.LabelledOld l b p => LabelledOld l (sub b) p
  | Expr.Const x p => Const x p
  | Expr.MagicWand l r b p => MagicWand (sub l) (sub r) b p
  | Expr.PredicateAccessPredicate n a q p => PredicateAccessPredicate n (sub a) q p
  | Expr.FieldAccessPredicate a q p => FieldAccessPredicate (sub a) q p
  | Expr.UnaryOp o a p => UnaryOp o (sub a) p
  | Expr.BinOp o l r p => BinOp o (sub l) (sub r) p
  | Expr.ContainerOp o l r p => ContainerOp o (sub l) (sub r) p
  | Expr.Seq t es p => Seq t (map sub es) p
  | Expr.Unfolding n es b q v p => Unfolding n (map sub es) (sub b) q v p
  | Expr.Cond g t e p => Cond (sub g) (sub t) (sub e) p
  | Expr.ForAll vs ts b p => ForAll vs ts (sub b) p
  | Expr.Exists vs ts b p => Exists vs ts (sub b) p
  | Expr.LetExpr v e b p => LetExpr v (sub e) (sub b) p
  | Expr.FuncApp n es fa t p => FuncApp n (map sub es) fa t p
  | Expr.DomainFuncApp f es p => DomainFuncApp f (map sub es) p
  | Expr.InhaleExhale i e p => InhaleExhale (sub i) (sub e) p
  | Expr.Downcast b e f => Downcast (sub b) (sub e) f
  | Expr.SnapApp e p => SnapApp (sub e) p
  end.
End Node.
Abbreviation Node := Node.Node.

(** A sub-expression and the traversal of it. *)
Record child (R : Type) : Type := Child { orig : Expr; go : R }.
Arguments Child {R} orig go.
Arguments orig {R} c : rename.
Arguments go {R} c : rename.

(** ** Folders *)

Section Folder.
Context {S E : Type}.

Record ExprFolder : Type := {
  (** [fold(&mut self, e)]: the second argument is [default_fold_expr(self, e)]. *)
  fold : Expr -> ST S E Expr -> ST S E Expr;
  (** The methods [fold_local], [fold_variant], ... *)
  fold_node : Node (child (ST S E Expr)) -> ST S E Expr
}.

(** The default bodies of the methods; [self.fold] runs from left to right. *)
Definition default_fold_node (n : Node (child (ST S E Expr))) : ST S E Expr :=
  match n with
  | Node.Local v p => mret (Expr.Local v p)
  | Node.Variant base variant p => base ← go base; mret (Expr.Variant base variant p)
  | Node.Field receiver field p => receiver ← go receiver; mret (Expr.Field receiver field p)
  | Node.AddrOf e t p => e ← go e; mret (Expr.AddrOf e t p)
  | Node.Const x p => mret (Expr.Const x p)
  | Node.LabelledOld label body p => body ← go body; mret (Expr.LabelledOld label body p)
  | Node.MagicWand lhs rhs borrow p =>
      lhs ← go lhs; rhs ← go rhs; mret (Expr.MagicWand lhs rhs borrow p)
  | Node.PredicateAccessPredicate name arg perm_amount p =>
      arg ← go arg; mret (Expr.PredicateAccessPredicate name arg perm_amount p)
  | Node.FieldAccessPredicate receiver perm_amount p =>
      receiver ← go receiver; mret (Expr.FieldAccessPredicate receiver perm_amount p)
  | Node.UnaryOp op arg p => arg ← go arg; mret (Expr.UnaryOp op arg p)
  | Node.BinOp kind first second p =>
      first ← go first; second ← go second; mret (Expr.BinOp kind first second p)
  | Node.Unfolding name args expr perm variant p =>
      args ← sequence (map go args); expr ← go expr;
      mret (Expr.Unfolding name args expr perm variant p)
  | Node.Cond guard then_expr else_expr p =>
      guard ← go guard; then_expr ← go then_expr; else_expr ← go else_expr;
      mret (Expr.Cond guard then_expr else_expr p)
  | Node.ForAll x y z p => z ← go z; mret (Expr.ForAll x y z p)
  | Node.Exists x y z p => z ← go z; mret (Expr.Exists x y z p)
  | Node.LetExpr var expr body p =>
      expr ← go expr; body ← go body; mret (Expr.LetExpr var expr body p)
  | Node.FuncApp name args formal_args return_type p =>
      args ← sequence (map go args); mret (Expr.FuncApp name args formal_args return_type p)
  | Node.DomainFuncApp func args p =>
      args ← sequence (map go args); mret (Expr.DomainFuncApp func args p)
  | Node.InhaleExhale inhale_expr exhale_expr p =>
      inhale_expr ← go inhale_expr; exhale_expr ← go exhale_expr;
      mret (Expr.InhaleExhale inhale_expr exhale_expr p)
  | Node.Downcast base enum_place field =>
      base ← go base; enum_place ← go enum_place; mret (Expr.Downcast base enum_place field)
  | Node.SnapApp e p => e ← go e; mret (Expr.SnapApp e p)
  | Node.ContainerOp kind l r p => l ← go l; r ← go r; mret (Expr.ContainerOp kind l r p)
  | Node.Seq t elems p => elems ← sequence (map go elems); mret (Expr.Seq t elems p)
  end.

(** The default body of [fold]. *)
Definition default_fold (_ : Expr) (dflt : ST S E Expr) : ST S E Expr := dflt.

Definition default_folder : ExprFolder :=
  {| fold := default_fold; fold_node := default_fold_node |}.

(** [self.fold(e)]: [fold] with [default_fold_expr] as its way down. *)
Fixpoint run_fold (this : ExprFolder) (e : Expr) {struct e} : ST S E Expr :=
  fold this e
    (fold_node this (Node.of_expr (fun c => Child c (run_fold this c)) e)).

(** [default_fold_expr(self, e)]: dispatch on the constructor. *)
Definition default_fold_expr (this : ExprFolder) (e : Expr) : ST S E Expr :=
  fold_node this (Node.of_expr (fun c => Child c (run_fold this c)) e).
End Folder.
Arguments ExprFolder : clear implicits.

(** The fallible folders: the same methods, with [?] after every call. *)
Definition FallibleExprFolder (S E : Type) : Type := ExprFolder S E.

Definition default_fallible_fold_expr {S E} (this : FallibleExprFolder S E) (e : Expr) :
    ST S E Expr :=
  default_fold_expr this e.

(** An infallible folder has no error to return. *)
Definition run_infallible {S} (this : ExprFolder S Empty_set) (e : Expr) (s : S) :
    option (Expr * S) :=
  match run_fold this e s with
  | Val r => Some r
  | Err err => match err with end
  | Panic => None
  end.

(** ** Walkers *)

Section Walker.
Context {S : Type}.

(** A walk updates the walker; it may panic. *)
Definition Walk : Type := S -> option S.

Definition walk_nop : Walk := Some.

Definition walk_then (w1 w2 : Walk) : Walk := fun s => s' ← w1 s; w2 s'.

Definition walk_list (ws : list Walk) : Walk := foldr walk_then walk_nop ws.

Record ExprWalker : Type := {
  walk : Expr -> Walk -> Walk;
  walk_local_var : LocalVar -> Walk;
  walk_node : Node (child Walk) -> Walk
}.

(** The default bodies of the methods, for a walker whose [walk_local_var]
    is given. *)
Definition default_walk_node (walk_local_var : LocalVar -> Walk) (n : Node (child Walk)) : Walk :=
  match n with
  | Node.Local var _ => walk_local_var var
  | Node.Variant base _ _ => go base
  | Node.Field receiver _ _ => go receiver
  | Node.AddrOf receiver _ _ => go receiver
  | Node.Const _ _ => walk_nop
  | Node.LabelledOld _ body _ => go body
  | Node.MagicWand lhs rhs _ _ => walk_then (go lhs) (go rhs)
  | Node.PredicateAccessPredicate _ arg _ _ => go arg
  | Node.FieldAccessPredicate receiver _ _ => go receiver
  | Node.UnaryOp _ arg _ => go arg
  | Node.BinOp _ arg1 arg2 _ => walk_then (go arg1) (go arg2)
  | Node.Unfolding _ args body _ _ _ => walk_then (walk_list (map go args)) (go body)
  | Node.Cond guard then_expr else_expr _ =>
      walk_then (go guard) (walk_then (go then_expr) (go else_expr))
  | Node.ForAll vars _ body _ => walk_then (walk_list (map walk_local_var vars)) (go body)
  | Node.Exists vars _ body _ => walk_then (walk_list (map walk_local_var vars)) (go body)
  | Node.LetExpr bound_var expr body _ =>
      walk_then (walk_local_var bound_var) (walk_then (go expr) (go body))
  | Node.FuncApp _ args formal_args _ _ =>
      walk_then (walk_list (map go args)) (walk_list (map walk_local_var formal_args))
  | Node.DomainFuncApp func args _ =>
      walk_then (walk_list (map go args))
        (walk_list (map walk_local_var (DomainFunc.formal_args func)))
  | Node.InhaleExhale inhale_expr exhale_expr _ => walk_then (go inhale_expr) (go exhale_expr)
  | Node.Downcast base enum_place _ => walk_then (go base) (go enum_place)
  | Node.SnapApp expr _ => go expr
  | Node.ContainerOp _ l r _ => walk_then (go l) (go r)
  | Node.Seq _ elems _ => walk_list (map go elems)
  end.

Definition default_walk (_ : Expr) (dflt : Walk) : Walk := dflt.

Definition default_walk_local_var (_ : LocalVar) : Walk := walk_nop.

(** [self.walk(e)]. *)
Fixpoint run_walk (this : ExprWalker) (e : Expr) {struct e} : Walk :=
  walk this e (walk_node this (Node.of_expr (fun c => Child c (run_walk this c)) e)).

Definition default_walk_expr (this : ExprWalker) (e : Expr) : Walk :=
  walk_node this (Node.of_expr (fun c => Child c (run_walk this c)) e).
End Walker.
Arguments Walk : clear implicits.
Arguments ExprWalker : clear implicits.

(** ** [fold_places] and [fold_expr]

    The closures [F: Fn(Expr) -> Expr] may panic. *)

(** [fold_places]: the closure replaces the outermost places. *)
Definition place_folder (f : Expr -> option Expr) : ExprFolder unit Empty_set :=
  {| fold := fun e dflt => if is_place e then lift (f e) else dflt;
     fold_node := default_fold_node |}.

Definition fold_places (f : Expr -> option Expr) (self : Expr) : option Expr :=
  fst <$> run_infallible (place_folder f) self tt.

(** [fold_expr]: the closure is applied to every expression, bottom up. *)
Definition expr_folder_impl (f : Expr -> option Expr) : ExprFolder unit Empty_set :=
  {| fold := fun _ dflt => new_expr ← dflt; lift (f new_expr);
     fold_node := default_fold_node |}.

Definition fold_expr (f : Expr -> option Expr) (self : Expr) : option Expr :=
  fst <$> run_infallible (expr_folder_impl f) self tt.

(** ** Facts about traversals *)

Section FolderFacts.
Context {S E : Type}.
Implicit Types (F : ExprFolder S E) (e : Expr).

Lemma run_fold_unfold F e : run_fold F e = fold F e (default_fold_expr F e).
Proof. by destruct e. Qed.

Lemma sequence_at (g : Expr -> ST S E Expr) (f : Expr -> Expr) (es : list Expr) s :
  Forall (fun c => g c s = Val (f c, s)) es ->
  sequence (map go (map (fun c => Child c (g c)) es)) s = Val (map f es, s).
Proof.
  induction 1 as [|c es Hc _ IH]; simpl; [done|].
  unfold mbind, ST_bind. rewrite Hc. rewrite IH. done.
Qed.

Lemma sequence_val (g : Expr -> ST S E Expr) (f : Expr -> Expr) (es : list Expr) :
  Forall (fun c => forall s, g c s = Val (f c, s)) es ->
  forall s, sequence (map go (map (fun c => Child c (g c)) es)) s = Val (map f es, s).
Proof. intros H s. apply sequence_at. eapply Forall_impl; [exact H|]. auto. Qed.

(** The default methods rebuild the node from the folded children. *)
Lemma default_fold_node_at (g : Expr -> ST S E Expr) (f : Expr -> Expr) e s :
  Forall (fun c => g c s = Val (f c, s)) (children e) ->
  default_fold_node (Node.of_expr (fun c => Child c (g c)) e) s = Val (map_children f e, s).
Proof.
  destruct e; simpl; rewrite ?Forall_app, ?Forall_cons; intros H;
    unfold mbind, ST_bind; destruct_and?; try done;
    repeat match goal with
    | H : g ?c s = _ |- _ => rewrite H; clear H
    | H : Forall _ ?es |- context [sequence (map go (map _ ?es))] =>
        rewrite (sequence_at g f es s H)
    end; try done.
Qed.

Lemma default_fold_node_pure (g : Expr -> ST S E Expr) (f : Expr -> Expr) e :
  Forall (fun c => forall s, g c s = Val (f c, s)) (children e) ->
  forall s, default_fold_node (Node.of_expr (fun c => Child c (g c)) e) s
            = Val (map_children f e, s).
Proof. intros H s. apply default_fold_node_at. eapply Forall_impl; [exact H|]. auto. Qed.

(** A folder that overrides nothing returns its argument. *)
Lemma default_folder_id e s : run_fold (default_folder (S := S) (E := E)) e s = Val (e, s).
Proof.
  revert s. induction e as [e IH] using children_ind. intros s.
  rewrite run_fold_unfold. unfold default_fold_expr. simpl. unfold default_fold.
  rewrite (default_fold_node_pure _ (fun c => c)) by done. by rewrite map_children_id.
Qed.
End FolderFacts.

Lemma run_infallible_val {S} (F : ExprFolder S Empty_set) e s r :
  run_fold F e s = Val r -> run_infallible F e s = Some r.
Proof. unfold run_infallible. by intros ->. Qed.

(** ** What a traversal visits *)

Definition node_children {C} (n : Node C) : list C :=
  match n with
  | Node.Local _ _ | Node.Const _ _ => []
  | Node.Variant b _ _ | Node.Field b _ _ | Node.AddrOf b _ _ | Node.LabelledOld _ b _
  | Node.PredicateAccessPredicate _ b _ _ | Node.FieldAccessPredicate b _ _
  | Node.UnaryOp _ b _ | Node.ForAll _ _ b _ | Node.Exists _ _ b _ | Node.SnapApp b _ => [b]
  | Node.MagicWand l r _ _ | Node.BinOp _ l r _ | Node.ContainerOp _ l r _
  | Node.LetExpr _ l r _ | Node.InhaleExhale l r _ | Node.Downcast l r _ => [l; r]
  | Node.Cond g t e _ => [g; t; e]
  | Node.Unfolding _ es b _ _ _ => es ++ [b]
  | Node.Seq _ es _ | Node.FuncApp _ es _ _ _ | Node.DomainFuncApp _ es _ => es
  end%list.

Lemma node_children_of_expr {C} (sub : Expr -> C) e :
  node_children (Node.of_expr sub e) = map sub (children e).
Proof. destruct e; simpl; try done. by rewrite map_app. Qed.

(** All the expressions a default traversal visits, in pre-order. *)
Fixpoint subexprs (e : Expr) : list Expr :=
  e :: concat (node_children (Node.of_expr subexprs e)).

Lemma subexprs_eq e : subexprs e = e :: concat (map subexprs (children e)).
Proof. destruct e; simpl; try done. by rewrite map_app. Qed.

Section WalkerFacts.
Context {S : Type}.
Implicit Types (W : ExprWalker S) (e : Expr).

Lemma run_walk_unfold W e : run_walk W e = walk W e (default_walk_expr W e).
Proof. by destruct e. Qed.

Lemma walk_list_total (g : Expr -> Walk S) (h : Expr -> S -> S) (es : list Expr) :
  Forall (fun c => forall s, g c s = Some (h c s)) es ->
  forall s, walk_list (map go (map (fun c => Child c (g c)) es)) s
            = Some (foldl (fun s c => h c s) s es).
Proof.
  induction 1 as [|c es Hc _ IH]; intros s; simpl; [done|].
  unfold walk_then at 1. rewrite Hc. simpl. apply IH.
Qed.

Lemma walk_list_vars (lv : LocalVar -> Walk S) (h : LocalVar -> S -> S) (vars : list LocalVar) :
  (forall v s, lv v s = Some (h v s)) ->
  forall s, walk_list (map lv vars) s = Some (foldl (fun s v => h v s) s vars).
Proof.
  intros Hlv. induction vars as [|v vars IH]; intros s; simpl; [done|].
  unfold walk_then at 1. rewrite Hlv. simpl. apply IH.
Qed.

Lemma walk_list_vars_nop (vars : list LocalVar) (s : S) :
  walk_list (map default_walk_local_var vars) s = Some s.
Proof. induction vars; simpl; done. Qed.

(** The default methods visit the children from left to right. *)
Lemma default_walk_node_total (g : Expr -> Walk S) (h : Expr -> S -> S) e :
  Forall (fun c => forall s, g c s = Some (h c s)) (children e) ->
  forall s, default_walk_node default_walk_local_var (Node.of_expr (fun c => Child c (g c)) e) s
            = Some (foldl (fun s c => h c s) s (children e)).
Proof.
  destruct e; simpl; rewrite ?Forall_app, ?Forall_cons; intros H s; destruct_and?; try done;
    unfold walk_then, default_walk_local_var, walk_nop;
    try (rewrite (walk_list_total g h) by done); simpl;
    rewrite ?foldl_app; simpl;
    repeat (rewrite walk_list_vars_nop; simpl);
    repeat match goal with
    | H : forall s, g ?c s = _ |- _ => rewrite H; clear H; simpl
    end; done.
Qed.
End WalkerFacts.

(** A walker that raises a flag at the nodes where [hit] holds and goes
    through the default methods elsewhere finds out whether [hit] holds
    somewhere. *)
Lemma finder_walk (W : ExprWalker bool) (hit : Expr -> bool) :
  (forall e b, hit e = true -> run_walk W e b = Some true) ->
  (forall e b, hit e = false -> run_walk W e b =
     default_walk_node default_walk_local_var
       (Node.of_expr (fun c => Child c (run_walk W c)) e) b) ->
  forall e b, run_walk W e b = Some (b || existsb hit (subexprs e)).
Proof.
  intros Hhit Hmiss e. induction e as [e IH] using children_ind. intros b.
  rewrite subexprs_eq. simpl. destruct (hit e) eqn:He.
  - rewrite Hhit by done. by rewrite orb_true_r.
  - rewrite Hmiss by done. simpl.
    rewrite (default_walk_node_total _ (fun c s => s || existsb hit (subexprs c))) by done.
    f_equal. clear. revert b. induction (children e) as [|c cs IH]; intros b; simpl;
      [by rewrite orb_false_r|]. by rewrite IH, existsb_app, orb_assoc.
Qed.

(** A walker that appends to a list. *)
Lemma collector_foldl {X} (out : Expr -> list X) (es : list Expr) (s : list X) :
  foldl (fun s c => s ++ out c)%list s es = (s ++ concat (map out es))%list.
Proof.
  revert s. induction es as [|c es IH]; intros s; simpl; [by rewrite app_nil_r|].
  by rewrite IH, app_assoc.
Qed.
