(* ===== verification/ExprOps.v ===== *)
(** * Operations on expressions

    The rest of [impl Expr] of [prusti-common/src/vir/ast/expr.rs] (the
    constructors, positions, the searches and the rewritings built on the
    traversals), the conversions of [vir/conversions.rs] it uses, the trait
    [ExprIterator], and the two label maps of [vir/utils.rs]. *)

From stdpp Require Import pretty.
From S2P Require Import Prelude Ast ExprEq ExprPlace ExprTransformers.

(** ** Conversions into constants and expressions

    Integers that fit an [i64] become [Int]; [usize], [isize], [u64], 128-bit
    integers and [char] are printed into [BigInt]. *)

Definition const_of_bool (val : bool) : Const := Const.Bool val.
Definition const_of_i64 (val : Z) : Const := Const.Int val.
Definition const_of_usize (val : Z) : Const := Const.BigInt (pretty val).
Definition expr_of_const (cons : Const) : Expr := Expr.Const cons Position.default.
Definition expr_of_bool (val : bool) : Expr := expr_of_const (const_of_bool val).
Definition expr_of_i32 (val : Z) : Expr := expr_of_const (const_of_i64 val).
Definition expr_of_usize (val : Z) : Expr := expr_of_const (const_of_usize val).
Definition expr_of_var (local_var : LocalVar) : Expr := Expr.Local local_var Position.default.

(** ** Positions *)

Fixpoint pos (self : Expr) : Position :=
  match self with
  | Expr.Local _ p
  | Expr.Variant _ _ p
  | Expr.Field _ _ p
  | Expr.AddrOf _ _ p
  | Expr.Const _ p
  | Expr.LabelledOld _ _ p
  | Expr.MagicWand _ _ _ p
  | Expr.PredicateAccessPredicate _ _ _ p
  | Expr.FieldAccessPredicate _ _ p
  | Expr.UnaryOp _ _ p
  | Expr.BinOp _ _ _ p
  | Expr.Unfolding _ _ _ _ _ p
  | Expr.Cond _ _ _ p
  | Expr.ForAll _ _ _ p
  | Expr.Exists _ _ _ p
  | Expr.LetExpr _ _ _ p
  | Expr.FuncApp _ _ _ _ p
  | Expr.DomainFuncApp _ _ p
  | Expr.InhaleExhale _ _ p
  | Expr.ContainerOp _ _ _ p
  | Expr.Seq _ _ p
  | Expr.SnapApp _ p => p
  | Expr.Downcast base _ _ => pos base
  end.

Definition set_pos (self : Expr) (pos : Position) : Expr :=
  match self with
  | Expr.Local v _ => Expr.Local v pos
  | Expr.Variant base variant_index _ => Expr.Variant base variant_index pos
  | Expr.Field e f _ => Expr.Field e f pos
  | Expr.AddrOf e t _ => Expr.AddrOf e t pos
  | Expr.Const x _ => Expr.Const x pos
  | Expr.LabelledOld x y _ => Expr.LabelledOld x y pos
  | Expr.MagicWand x y b _ => Expr.MagicWand x y b pos
  | Expr.PredicateAccessPredicate x y z _ => Expr.PredicateAccessPredicate x y z pos
  | Expr.FieldAccessPredicate x y _ => Expr.FieldAccessPredicate x y pos
  | Expr.UnaryOp x y _ => Expr.UnaryOp x y pos
  | Expr.BinOp x y z _ => Expr.BinOp x y z pos
  | Expr.Unfolding x y z perm variant _ => Expr.Unfolding x y z perm variant pos
  | Expr.Cond x y z _ => Expr.Cond x y z pos
  | Expr.ForAll x y z _ => Expr.ForAll x y z pos
  | Expr.Exists x y z _ => Expr.Exists x y z pos
  | Expr.LetExpr x y z _ => Expr.LetExpr x y z pos
  | Expr.FuncApp x y z k _ => Expr.FuncApp x y z k pos
  | Expr.DomainFuncApp x y _ => Expr.DomainFuncApp x y pos
  | Expr.InhaleExhale x y _ => Expr.InhaleExhale x y pos
  | Expr.SnapApp e _ => Expr.SnapApp e pos
  | Expr.ContainerOp x y z _ => Expr.ContainerOp x y z pos
  | Expr.Seq x y _ => Expr.Seq x y pos
  | x => x
  end.

Definition default_pos_replacer (new_pos : Position) : ExprFolder unit Empty_set :=
  {| fold := fun _ dflt =>
       expr ← dflt;
       if Position.is_default (pos expr) then mret (set_pos expr new_pos) else mret expr;
     fold_node := default_fold_node |}.

(** Replace all default positions with [pos]. *)
Definition set_default_pos (self : Expr) (pos : Position) : option Expr :=
  fst <$> run_infallible (default_pos_replacer pos) self tt.

(** ** Constructors *)

Module Ex.
Definition predicate_access_predicate (name : string) (place : Expr) (perm : PermAmount) : Expr :=
  Expr.PredicateAccessPredicate name place perm (pos place).

Definition field_access_predicate (place : Expr) (perm : PermAmount) : Expr :=
  Expr.FieldAccessPredicate place perm (pos place).

(** The outer [option] is a panic of [get_type]. *)
Definition pred_permission (place : Expr) (perm : PermAmount) : option (option Expr) :=
  r ← typed_ref_name place;
  Some match r with
       | Some pred_name => Some (predicate_access_predicate pred_name place perm)
       | None => None
       end.

Definition acc_permission (place : Expr) (perm : PermAmount) : Expr :=
  Expr.FieldAccessPredicate place perm Position.default.

Definition labelled_old (label : string) (expr : Expr) : Expr :=
  Expr.LabelledOld label expr Position.default.

Definition not (expr : Expr) : Expr := Expr.UnaryOp UnaryOpKind.Not expr Position.default.

Definition minus (expr : Expr) : Expr := Expr.UnaryOp UnaryOpKind.Minus expr Position.default.

Definition gt_cmp (l r : Expr) : Expr := Expr.BinOp BinOpKind.GtCmp l r Position.default.

Definition ge_cmp (l r : Expr) : Expr := Expr.BinOp BinOpKind.GeCmp l r Position.default.

Definition lt_cmp (l r : Expr) : Expr := Expr.BinOp BinOpKind.LtCmp l r Position.default.

Definition le_cmp (l r : Expr) : Expr := Expr.BinOp BinOpKind.LeCmp l r Position.default.

Definition eq_cmp (l r : Expr) : Expr := Expr.BinOp BinOpKind.EqCmp l r Position.default.

Definition ne_cmp (l r : Expr) : Expr := not (eq_cmp l r).

Definition add (l r : Expr) : Expr := Expr.BinOp BinOpKind.Add l r Position.default.

Definition sub (l r : Expr) : Expr := Expr.BinOp BinOpKind.Sub l r Position.default.

Definition mul (l r : Expr) : Expr := Expr.BinOp BinOpKind.Mul l r Position.default.

Definition div (l r : Expr) : Expr := Expr.BinOp BinOpKind.Div l r Position.default.

Definition modulo (l r : Expr) : Expr := Expr.BinOp BinOpKind.Mod l r Position.default.

Definition and (l r : Expr) : Expr := Expr.BinOp BinOpKind.And l r Position.default.

Definition or (l r : Expr) : Expr := Expr.BinOp BinOpKind.Or l r Position.default.

Definition xor (l r : Expr) : Expr := not (eq_cmp l r).

Definition implies (l r : Expr) : Expr := Expr.BinOp BinOpKind.Implies l r Position.default.

Definition ite (guard l r : Expr) : Expr := Expr.Cond guard l r Position.default.

(** Encode Rust remainder. This is *not* Viper modulo. *)
Definition rem (l r : Expr) : Expr :=
  let abs_right := ite (ge_cmp r (expr_of_i32 0)) r (minus r) in
  ite (or (ge_cmp l (expr_of_i32 0)) (eq_cmp (modulo l r) (expr_of_i32 0)))
    (modulo l r)
    (sub (modulo l r) abs_right).

(** A quantifier must have at least one variable. *)
Definition forall_ (vars : list LocalVar) (triggers : list Trigger) (body : Expr) : option Expr :=
  _ ← assert_ (match vars with [] => false | _ => true end);
  Some (Expr.ForAll vars triggers body Position.default).

Definition exists_ (vars : list LocalVar) (triggers : list Trigger) (body : Expr) : option Expr :=
  _ ← assert_ (match vars with [] => false | _ => true end);
  Some (Expr.Exists vars triggers body Position.default).

Definition unfolding (pred_name : string) (args : list Expr) (expr : Expr) (perm : PermAmount)
    (variant : MaybeEnumVariantIndex) : Expr :=
  Expr.Unfolding pred_name args expr perm variant Position.default.

(** [unfolding T(arg) in body] where [T] is the type of [arg]. *)
Definition wrap_in_unfolding (arg body : Expr) : option Expr :=
  type_name ← Ty.name <$> get_type arg;
  Some (Expr.Unfolding type_name [arg] body PermAmount.Read None (pos body)).

Definition func_app (name : string) (args : list Expr) (internal_args : list LocalVar)
    (return_type : Ty) (pos : Position) : Expr :=
  Expr.FuncApp name args internal_args return_type pos.

Definition domain_func_app (func : DomainFunc) (args : list Expr) : Expr :=
  Expr.DomainFuncApp func args Position.default.

Definition magic_wand (lhs rhs : Expr) (borrow : option Borrow) : Expr :=
  Expr.MagicWand lhs rhs borrow Position.default.

Definition downcast (base enum_place : Expr) (variant_field : Field) : Expr :=
  Expr.Downcast base enum_place variant_field.

Definition snap_app (expr : Expr) : Expr := Expr.SnapApp expr Position.default.

Definition negate (self : Expr) : Expr :=
  match self with
  | Expr.UnaryOp UnaryOpKind.Not inner_expr _ => inner_expr
  | _ => not self
  end.
End Ex.

(** ** [ExprIterator] *)

Fixpoint conjoin (s : list Expr) : Expr :=
  match s with
  | conjunct :: s' => Ex.and conjunct (conjoin s')
  | [] => expr_of_bool true
  end.

Fixpoint disjoin (s : list Expr) : Expr :=
  match s with
  | conjunct :: s' => Ex.or conjunct (disjoin s')
  | [] => expr_of_bool false
  end.

(** ** Searches *)

(** The state is the field [found]. *)
Definition expr_finder (sub_target : Expr) : ExprWalker bool :=
  {| walk := fun expr dflt => if expr == sub_target then fun _ => Some true else dflt;
     walk_local_var := default_walk_local_var;
     walk_node := default_walk_node default_walk_local_var |}.

Definition find (self sub_target : Expr) : option bool :=
  run_walk (expr_finder sub_target) self false.

(** The state is the field [predicates]. *)
Definition predicate_finder (wanted : PermAmount) : ExprWalker (list Expr) :=
  {| walk := default_walk;
     walk_local_var := default_walk_local_var;
     walk_node := fun n =>
       match n with
       | Node.PredicateAccessPredicate _ arg perm_amount _ => fun predicates =>
           Some (if perm_amount == wanted then predicates ++ [orig arg] else predicates)%list
       | _ => default_walk_node default_walk_local_var n
       end |}.

(** Extract all predicates places mentioned in the expression whose
    predicates have the given permission amount. *)
Definition extract_predicate_places (self : Expr) (perm_amount : PermAmount) : option (list Expr) :=
  run_walk (predicate_finder perm_amount) self [].

(** The state is the field [non_pure]. *)
Definition purity_finder : ExprWalker bool :=
  {| walk := default_walk;
     walk_local_var := default_walk_local_var;
     walk_node := fun n =>
       match n with
       | Node.PredicateAccessPredicate _ _ _ _ => fun _ => Some true
       | Node.FieldAccessPredicate _ _ _ => fun _ => Some true
       | _ => default_walk_node default_walk_local_var n
       end |}.

Definition is_pure (self : Expr) : option bool :=
  negb <$> run_walk purity_finder self false.

Definition heap_access_finder : ExprWalker bool :=
  {| walk := default_walk;
     walk_local_var := default_walk_local_var;
     walk_node := fun n =>
       match n with
       | Node.PredicateAccessPredicate _ _ _ _
       | Node.FieldAccessPredicate _ _ _
       | Node.Field _ _ _
       | Node.Variant _ _ _
       | Node.MagicWand _ _ _ _
       | Node.Unfolding _ _ _ _ _ _
       | Node.FuncApp _ _ _ _ _ => fun _ => Some true
       | _ => default_walk_node default_walk_local_var n
       end |}.

Definition is_heap_dependent (self : Expr) : option bool :=
  run_walk heap_access_finder self false.

(** The state is the field [perms]. *)
Definition footprint_collector (perm_amount : PermAmount) : ExprWalker (list Expr) :=
  {| walk := default_walk;
     walk_local_var := default_walk_local_var;
     walk_node := fun n =>
       match n with
       | Node.Variant e v p => walk_then (go e) (fun perms =>
           Some (perms ++ [Ex.acc_permission (Expr.Variant (orig e) v p) perm_amount])%list)
       | Node.Field e f p => walk_then (go e) (fun perms =>
           Some (perms ++ [Ex.acc_permission (Expr.Field (orig e) f p) perm_amount])%list)
       | Node.LabelledOld _ _ _ => walk_nop (* Stop recursion. *)
       | _ => default_walk_node default_walk_local_var n
       end |}.

(** Compute the permissions that are needed for this expression to be
    successfully evaluated. *)
Definition compute_footprint (self : Expr) (perm_amount : PermAmount) : option (list Expr) :=
  run_walk (footprint_collector perm_amount) self [].

(** ** Rewritings *)

Definition purifier : ExprFolder unit Empty_set :=
  {| fold := default_fold;
     fold_node := fun n =>
       match n with
       | Node.PredicateAccessPredicate _ _ _ _ => mret (expr_of_bool true)
       | Node.FieldAccessPredicate _ _ _ => mret (expr_of_bool true)
       | _ => default_fold_node n
       end |}.

(** Remove access predicates. *)
Definition purify (self : Expr) : option Expr := fst <$> run_infallible purifier self tt.

Definition old_label_replacer (f : string -> option string) : ExprFolder unit Empty_set :=
  {| fold := default_fold;
     fold_node := fun n =>
       match n with
       | Node.LabelledOld label base pos =>
           match f label with
           | Some new_label => mret (set_pos (old (orig base) new_label) pos)
           | None => mret (orig base)
           end
       | _ => default_fold_node n
       end |}.

Definition map_labels (f : string -> option string) (self : Expr) : option Expr :=
  fst <$> run_infallible (old_label_replacer f) self tt.

(** The state is the field [current_label]. *)
Definition redundant_old_remover : ExprFolder (option string) Empty_set :=
  {| fold := default_fold;
     fold_node := fun n =>
       match n with
       | Node.LabelledOld label base pos =>
           old_current_label ← get_st;
           _ ← put_st (Some label);
           new_base ← go base;
           let new_expr :=
             if Some label == old_current_label then new_base
             else set_pos (old new_base label) pos in
           _ ← put_st old_current_label;
           mret new_expr
       | _ => default_fold_node n
       end |}.

(** Replaces expressions like [old[l5](old[l5](_9.val_ref).foo.bar)] into
    [old[l5](_9.val_ref.foo.bar)]. *)
Definition remove_redundant_old (self : Expr) : option Expr :=
  fst <$> run_infallible redundant_old_remover self None.

Definition perm_conjunction_filter : ExprFolder unit Empty_set :=
  {| fold := fun e dflt =>
       match e with
       | Expr.PredicateAccessPredicate _ _ _ _ => mret e
       | Expr.FieldAccessPredicate _ _ _ => mret e
       | Expr.BinOp BinOpKind.And _ _ _ => dflt (* [self.fold_bin_op(And, y, z, p)] *)
       | _ => mret (expr_of_bool true)
       end;
     fold_node := default_fold_node |}.

(** Leaves a conjunction of [acc(..)] expressions. *)
Definition filter_perm_conjunction (self : Expr) : option Expr :=
  fst <$> run_infallible perm_conjunction_filter self tt.

Definition type_patcher (substs : list (string * string)) : ExprFolder unit Empty_set :=
  {| fold := default_fold;
     fold_node := fun n =>
       let patch_var var := LocalVar.new (LocalVar.name var) (Ty.patch (LocalVar.typ var) substs) in
       match n with
       | Node.PredicateAccessPredicate predicate_name arg perm_amount pos =>
           arg ← go arg;
           mret (Expr.PredicateAccessPredicate (Ty.patch_name substs predicate_name) arg
                   perm_amount pos)
       | Node.Local var pos => mret (Expr.Local (patch_var var) pos)
       | Node.FuncApp name args formal_args return_type pos =>
           args ← sequence (map go args);
           mret (Expr.FuncApp name args (map patch_var formal_args) return_type pos)
       | _ => default_fold_node n
       end |}.

(** Replace all generic types with their instantiations by using string
    substitution. *)
Definition patch_types (substs : list (string * string)) (self : Expr) : option Expr :=
  fst <$> run_infallible (type_patcher substs) self tt.

Definition read_perm_remover : ExprFolder unit Empty_set :=
  {| fold := default_fold;
     fold_node := fun n =>
       match n with
       | Node.PredicateAccessPredicate name arg perm_amount p =>
           _ ← lift (assert_ (PermAmount.is_valid_for_specs perm_amount));
           match perm_amount with
           | PermAmount.Write => mret (Expr.PredicateAccessPredicate name (orig arg) perm_amount p)
           | PermAmount.Read => mret (expr_of_bool true)
           | _ => panic
           end
       | Node.FieldAccessPredicate reference perm_amount p =>
           _ ← lift (assert_ (PermAmount.is_valid_for_specs perm_amount));
           match perm_amount with
           | PermAmount.Write => mret (Expr.FieldAccessPredicate (orig reference) perm_amount p)
           | PermAmount.Read => mret (expr_of_bool true)
           | _ => panic
           end
       | _ => default_fold_node n
       end |}.

(** Remove read permissions. *)
Definition remove_read_permissions (self : Expr) : option Expr :=
  fst <$> run_infallible read_perm_remover self tt.

(** [utils.rs]: substitute (map) old expressions in an expression. *)
Definition old_expr_substitutor (f : string -> Expr -> option Expr) : ExprFolder unit Empty_set :=
  {| fold := default_fold;
     fold_node := fun n =>
       match n with
       | Node.LabelledOld x y p => y' ← lift (f x (orig y)); mret (set_pos y' p)
       | _ => default_fold_node n
       end |}.

Definition map_old_expr (f : string -> Expr -> option Expr) (self : Expr) : option Expr :=
  fst <$> run_infallible (old_expr_substitutor f) self tt.

(** [utils.rs]: in an expression, substitute labels of old expressions. *)
Definition label_substitutor (f : string -> string) : ExprFolder unit Empty_set :=
  {| fold := default_fold;
     fold_node := fun n =>
       match n with
       | Node.LabelledOld x y p => mret (Expr.LabelledOld (f x) (orig y) p)
       | _ => default_fold_node n
       end |}.

Definition map_old_expr_label (f : string -> string) (self : Expr) : option Expr :=
  fst <$> run_infallible (label_substitutor f) self tt.
