(* ===== verification/ExprOpsFacts.v ===== *)
(** * Properties of the operations on expressions

    What the searches of [ExprOps] find, and what its rewritings leave. *)

From S2P Require Import Prelude Ast ExprEq ExprPlace ExprTransformers ExprOps.

(** ** Searches *)

Definition is_access (e : Expr) : bool :=
  match e with
  | Expr.PredicateAccessPredicate _ _ _ _ | Expr.FieldAccessPredicate _ _ _ => true
  | _ => false
  end.

(** The constructs whose value may depend on the heap. *)
Definition is_heap_access (e : Expr) : bool :=
  match e with
  | Expr.PredicateAccessPredicate _ _ _ _ | Expr.FieldAccessPredicate _ _ _
  | Expr.Field _ _ _ | Expr.Variant _ _ _ | Expr.MagicWand _ _ _ _
  | Expr.Unfolding _ _ _ _ _ _ | Expr.FuncApp _ _ _ _ _ => true
  | _ => false
  end.

Lemma find_eq e target :
  find e target = Some (existsb (fun s => s == target) (subexprs e)).
Proof.
  unfold find. rewrite (finder_walk _ (fun s => s == target)); [done|..];
    intros e' b H; rewrite run_walk_unfold; cbn [walk expr_finder]; rewrite H; done.
Qed.

Lemma is_pure_eq e : is_pure e = Some (negb (existsb is_access (subexprs e))).
Proof.
  unfold is_pure. rewrite (finder_walk _ is_access); [done|..];
    intros e' b H; rewrite run_walk_unfold; by destruct e'.
Qed.

Lemma is_heap_dependent_eq e : is_heap_dependent e = Some (existsb is_heap_access (subexprs e)).
Proof.
  unfold is_heap_dependent. rewrite (finder_walk _ is_heap_access); [done|..];
    intros e' b H; rewrite run_walk_unfold; by destruct e'.
Qed.

Theorem searches_decide_occurrence (e target : Expr) :
  find e target = Some (existsb (fun s => s == target) (subexprs e))
  /\ is_pure e = Some (negb (existsb is_access (subexprs e)))
  /\ is_heap_dependent e = Some (existsb is_heap_access (subexprs e)).
Proof. auto using find_eq, is_pure_eq, is_heap_dependent_eq. Qed.

(** The access permissions [compute_footprint] collects: one for each field
    and variant that is read outside an old expression, inner ones first. *)
Fixpoint footprint_of (q : PermAmount) (e : Expr) : list Expr :=
  match e with
  | Expr.LabelledOld _ _ _ => []
  | _ => concat (node_children (Node.of_expr (footprint_of q) e))
  end ++
  match e with
  | Expr.Variant _ _ _ | Expr.Field _ _ _ => [Expr.FieldAccessPredicate e q Position.default]
  | _ => []
  end.

Lemma footprint_of_eq q e :
  footprint_of q e =
  ((match e with Expr.LabelledOld _ _ _ => [] | _ => concat (map (footprint_of q) (children e)) end)
   ++ match e with
      | Expr.Variant _ _ _ | Expr.Field _ _ _ => [Expr.FieldAccessPredicate e q Position.default]
      | _ => []
      end)%list.
Proof. destruct e; simpl; try done. by rewrite map_app. Qed.

Lemma footprint_walk q e s :
  run_walk (footprint_collector q) e s = Some (s ++ footprint_of q e)%list.
Proof.
  revert s. induction e as [e IH] using children_ind. intros s.
  assert (Hdef : default_walk_node default_walk_local_var
      (Node.of_expr (fun c => Child c (run_walk (footprint_collector q) c)) e) s
      = Some (s ++ concat (map (footprint_of q) (children e)))%list).
  { rewrite (default_walk_node_total _ (fun c s => s ++ footprint_of q c)%list) by done.
    by rewrite collector_foldl. }
  rewrite footprint_of_eq, run_walk_unfold.
  destruct e; unfold default_walk_expr; simpl in Hdef |- *; unfold default_walk, walk_then, walk_nop;
    rewrite ?app_nil_r in *; try exact Hdef; try done;
    rewrite Hdef; simpl; by rewrite <- app_assoc.
Qed.

Theorem compute_footprint_spec (e : Expr) (q : PermAmount) :
  compute_footprint e q = Some (footprint_of q e).
Proof. unfold compute_footprint. by rewrite footprint_walk. Qed.

(** ** Rewritings *)

(** [purify] without the traversal. *)
Fixpoint purified (e : Expr) : Expr :=
  match e with
  | Expr.PredicateAccessPredicate _ _ _ _ | Expr.FieldAccessPredicate _ _ _ => expr_of_bool true
  | _ => map_children purified e
  end.

Lemma purify_eq e : purify e = Some (purified e).
Proof.
  unfold purify. rewrite (run_infallible_val purifier e tt (purified e, tt)); [done|].
  induction e as [e IH] using children_ind. rewrite run_fold_unfold.
  assert (Hdef : default_fold_node (Node.of_expr (fun c => Child c (run_fold purifier c)) e) tt
                 = Val (map_children purified e, tt)).
  { apply default_fold_node_pure. eapply Forall_impl; [exact IH|]. by intros c Hc []. }
  destruct e; done || exact Hdef.
Qed.

Lemma purified_pure e : existsb is_access (subexprs (purified e)) = false.
Proof.
  induction e as [e IH] using children_ind.
  assert (Hdef : is_access (map_children purified e) = false ->
    existsb is_access (subexprs (map_children purified e)) = false).
  { intros H. rewrite subexprs_eq, children_map_children. simpl. rewrite H. simpl.
    clear H. induction IH as [|c cs Hc _ IH']; simpl; [done|].
    rewrite existsb_app, Hc. done. }
  destruct e; try (apply Hdef; done); done.
Qed.

Lemma purified_of_pure e : existsb is_access (subexprs e) = false -> purified e = e.
Proof.
  induction e as [e IH] using children_ind. rewrite subexprs_eq. simpl.
  intros [Hacc Hsub]%orb_false_iff.
  assert (Hc : map_children purified e = e).
  { rewrite <- (map_children_id e) at 2. apply map_children_ext.
    clear Hacc. induction IH as [|c cs Hc _ IH']; simpl in *; [done|].
    rewrite existsb_app, orb_false_iff in Hsub. destruct Hsub. constructor; auto. }
  destruct e; try done; exact Hc.
Qed.

Theorem purify_removes_accesses (e : Expr) :
  exists e', purify e = Some e' /\ is_pure e' = Some true /\ purify e' = Some e'
    /\ (is_pure e = Some true -> e' = e).
Proof.
  exists (purified e). rewrite !purify_eq, !is_pure_eq.
  rewrite (purified_of_pure (purified e)) by apply purified_pure. rewrite purified_pure.
  repeat split. intros H. apply purified_of_pure.
  destruct (existsb is_access (subexprs e)); [discriminate|done].
Qed.

(** *** Permission conjunctions *)

(** The leaves of a nested conjunction. *)
Fixpoint conjuncts (e : Expr) : list Expr :=
  match e with
  | Expr.BinOp BinOpKind.And l r _ => conjuncts l ++ conjuncts r
  | _ => [e]
  end.

Lemma conjuncts_conjoin es :
  conjuncts (conjoin es) = (concat (map conjuncts es) ++ [expr_of_bool true])%list.
Proof. induction es as [|e es IH]; simpl; [done|]. by rewrite IH, app_assoc. Qed.

Theorem filter_perm_conjunction_spec (e : Expr) :
  exists e', filter_perm_conjunction e = Some e'
    /\ conjuncts e' = map (fun c => if is_access c then c else expr_of_bool true) (conjuncts e)
    /\ List.filter is_access (conjuncts e') = List.filter is_access (conjuncts e).
Proof.
  set (keep := fun c => if is_access c then c else expr_of_bool true).
  assert (H : exists e', run_fold perm_conjunction_filter e tt = Val (e', tt)
                /\ conjuncts e' = map keep (conjuncts e)).
  { induction e using Expr_ind'; rewrite run_fold_unfold; try (by eexists).
    destruct o; try (by eexists).
    destruct IHe1 as (l' & Hl & Hcl), IHe2 as (r' & Hr & Hcr).
    exists (Expr.BinOp BinOpKind.And l' r' p). simpl.
    unfold default_fold_expr, mbind, ST_bind; simpl. unfold mbind, ST_bind. rewrite Hl, Hr. simpl.
    by rewrite Hcl, Hcr, map_app. }
  destruct H as (e' & Hrun & Hc). exists e'.
  unfold filter_perm_conjunction. rewrite (run_infallible_val _ _ _ _ Hrun), Hc.
  repeat split. clear Hc. induction (conjuncts e) as [|c cs IH]; [done|]. simpl. rewrite IH.
  unfold keep. by destruct (is_access c) eqn:E; simpl; rewrite ?E.
Qed.

(** *** Read permissions *)

(** The outermost access predicates of an expression, from left to right. *)
Fixpoint top_accesses (e : Expr) : list Expr :=
  match e with
  | Expr.PredicateAccessPredicate _ _ _ _ | Expr.FieldAccessPredicate _ _ _ => [e]
  | _ => concat (node_children (Node.of_expr top_accesses e))
  end.

Lemma top_accesses_eq e :
  top_accesses e = if is_access e then [e] else concat (map top_accesses (children e)).
Proof. destruct e; simpl; try done. by rewrite map_app. Qed.

Definition access_amount (e : Expr) : PermAmount :=
  match get_perm_amount e with Some q => q | None => PermAmount.Write end.

(** [remove_read_permissions] where it does not panic. *)
Fixpoint without_reads (e : Expr) : Expr :=
  match e with
  | Expr.PredicateAccessPredicate _ _ PermAmount.Read _
  | Expr.FieldAccessPredicate _ PermAmount.Read _ => expr_of_bool true
  | Expr.PredicateAccessPredicate _ _ _ _ | Expr.FieldAccessPredicate _ _ _ => e
  | _ => map_children without_reads e
  end.

Lemma forallb_concat {A} (P : A -> bool) (ls : list (list A)) :
  forallb P (concat ls) = true <-> Forall (fun l => forallb P l = true) ls.
Proof.
  induction ls as [|l ls IH]; simpl; [by split|].
  rewrite forallb_app, andb_true_iff, IH, Forall_cons. done.
Qed.

Lemma valid_children e :
  is_access e = false ->
  forallb (fun a => PermAmount.is_valid_for_specs (access_amount a)) (top_accesses e) = true ->
  Forall (fun c => forallb (fun a => PermAmount.is_valid_for_specs (access_amount a))
                     (top_accesses c) = true) (children e).
Proof. intros He. rewrite top_accesses_eq, He, forallb_concat, Forall_map. done. Qed.

Lemma read_perm_remover_run e :
  forallb (fun a => PermAmount.is_valid_for_specs (access_amount a)) (top_accesses e) = true ->
  run_fold read_perm_remover e tt = Val (without_reads e, tt).
Proof.
  induction e as [e IH] using children_ind. intros Hv. rewrite run_fold_unfold.
  assert (Hdef : is_access e = false ->
    default_fold_node (Node.of_expr (fun c => Child c (run_fold read_perm_remover c)) e) tt
                 = Val (map_children without_reads e, tt)).
  { intros He. apply default_fold_node_pure.
    pose proof (valid_children e He Hv) as Hc. clear -IH Hc.
    induction IH; constructor; inversion_clear Hc; auto. by intros []; auto. }
  destruct e; try exact (Hdef eq_refl); simpl in Hv; destruct perm; try done.
Qed.

Lemma without_reads_accesses e :
  top_accesses (without_reads e)
  = List.filter (fun a => negb (access_amount a == PermAmount.Read)) (top_accesses e).
Proof.
  induction e as [e IH] using children_ind.
  assert (Hdef : is_access e = false -> is_access (map_children without_reads e) = false ->
    top_accesses (map_children without_reads e)
    = List.filter (fun a => negb (access_amount a == PermAmount.Read)) (top_accesses e)).
  { intros H1 H2. rewrite !top_accesses_eq, H1, H2, children_map_children, map_map. clear -IH.
    induction IH as [|c cs Hc _ IH']; simpl; [done|]. by rewrite List.filter_app, Hc, IH'. }
  destruct e; try (apply Hdef; done); by destruct perm.
Qed.

Theorem remove_read_permissions_spec (e : Expr) :
  forallb (fun a => PermAmount.is_valid_for_specs (access_amount a)) (top_accesses e) = true ->
  exists e', remove_read_permissions e = Some e'
    /\ top_accesses e'
       = List.filter (fun a => negb (access_amount a == PermAmount.Read)) (top_accesses e).
Proof.
  intros H. exists (without_reads e). unfold remove_read_permissions.
  rewrite (run_infallible_val _ _ _ _ (read_perm_remover_run e H)).
  split; [done|]. apply without_reads_accesses.
Qed.

(** *** Positions *)

Lemma erase_set_pos e p : erase (set_pos e p) = erase e.
Proof. by destruct e. Qed.

Lemma pos_set_pos e p :
  pos (set_pos e p) = match e with Expr.Downcast _ _ _ => pos e | _ => p end.
Proof. by destruct e. Qed.

Fixpoint with_default_pos (p : Position) (e : Expr) : Expr :=
  let e' := map_children (with_default_pos p) e in
  if Position.is_default (pos e') then set_pos e' p else e'.

Lemma with_default_pos_eq p e :
  with_default_pos p e =
    let e' := map_children (with_default_pos p) e in
    if Position.is_default (pos e') then set_pos e' p else e'.
Proof. by destruct e. Qed.

Lemma set_default_pos_eq e p : set_default_pos e p = Some (with_default_pos p e).
Proof.
  unfold set_default_pos.
  rewrite (run_infallible_val (default_pos_replacer p) e tt (with_default_pos p e, tt)); [done|].
  induction e as [e IH] using children_ind. rewrite run_fold_unfold.
  cbn [fold default_pos_replacer]. unfold default_fold_expr, mbind, ST_bind.
  cbn [fold_node default_pos_replacer].
  rewrite (default_fold_node_pure _ (with_default_pos p))
    by (eapply Forall_impl; [exact IH|]; by intros c Hc []).
  rewrite with_default_pos_eq. cbn zeta. by case_match.
Qed.

Lemma map_erase_ext (f : Expr -> Expr) es :
  Forall (fun c => erase (f c) = erase c) es -> map erase (map f es) = map erase es.
Proof. induction 1; simpl; congruence. Qed.

Lemma erase_map_children f e :
  Forall (fun c => erase (f c) = erase c) (children e) -> erase (map_children f e) = erase e.
Proof.
  destruct e; simpl; rewrite ?Forall_app, ?Forall_cons; intros H; destruct_and?;
    rewrite ?map_erase_ext by done; congruence.
Qed.

Lemma erase_with_default_pos p e : erase (with_default_pos p e) = erase e.
Proof.
  induction e as [e IH] using children_ind. rewrite with_default_pos_eq. cbn zeta.
  case_match; rewrite ?erase_set_pos; by apply erase_map_children.
Qed.

Lemma children_set_pos e p : children (set_pos e p) = children e.
Proof. by destruct e. Qed.

Lemma with_default_pos_no_default p e :
  Position.is_default p = false ->
  Forall (fun s => Position.is_default (pos s) = false) (subexprs (with_default_pos p e)).
Proof.
  intros Hp. induction e as [e IH] using children_ind.
  assert (Hch : children (with_default_pos p e) = map (with_default_pos p) (children e)).
  { rewrite with_default_pos_eq. cbn zeta.
    case_match; rewrite ?children_set_pos; apply children_map_children. }
  assert (Hsub : Forall (fun s => Position.is_default (pos s) = false)
                   (concat (map subexprs (children (with_default_pos p e))))).
  { rewrite Hch, map_map. clear Hch. induction IH; simpl; [done|]. by apply Forall_app. }
  rewrite subexprs_eq. constructor; [|done].
  rewrite with_default_pos_eq. cbn zeta.
  destruct (Position.is_default (pos (map_children _ e))) eqn:E; [|exact E].
  rewrite pos_set_pos. destruct e; try done. rewrite Hch in Hsub.
  cbn [children map concat] in Hsub. rewrite !Forall_app, subexprs_eq, Forall_cons in Hsub.
  simpl. by destruct Hsub as [[Hpos _] _].
Qed.

Theorem set_default_pos_spec (e : Expr) (p : Position) :
  exists e', set_default_pos e p = Some e' /\ erase e' = erase e
    /\ (Position.is_default p = false ->
        Forall (fun s => Position.is_default (pos s) = false) (subexprs e')).
Proof.
  exists (with_default_pos p e). rewrite set_default_pos_eq.
  split; [done|]. split; [apply erase_with_default_pos|apply with_default_pos_no_default].
Qed.

Lemma remove_read_permissions_spec_witness :
  let x := Expr.Local (LocalVar.new "x" (Ty.TypedRef "T")) Position.default in
  let e := Ex.and (Ex.acc_permission x PermAmount.Read) (Ex.acc_permission x PermAmount.Write) in
  forallb (fun a => PermAmount.is_valid_for_specs (access_amount a)) (top_accesses e) = true
  /\ exists e', remove_read_permissions e = Some e'
       /\ top_accesses e'
          = List.filter (fun a => negb (access_amount a == PermAmount.Read)) (top_accesses e).
Proof.
  split; [vm_compute; reflexivity|]. apply remove_read_permissions_spec. vm_compute. reflexivity.
Defined.
