(* ===== verification/Collections.v ===== *)
(** * Hash maps and hash sets

    [std::collections::HashMap] and [HashSet] over the boolean equality of
    the key type.  The entries are kept in insertion order, which is the
    order an iteration visits them here; the theorems that mention a map
    are about what it contains.  The contract between [Hash] and [Eq] that
    the Rust collections rely on is proved for expressions in [ExprEq]. *)

From S2P Require Import Prelude.

Module HashMap.
Definition t (K V : Type) : Type := list (K * V).

Section Ops.
Context {K V : Type} `{PartialEq K}.
Implicit Types (m : t K V) (k : K) (v : V).

Definition empty : t K V := [].

Fixpoint get m k : option V :=
  match m with
  | [] => None
  | (k', v) :: m' => if k == k' then Some v else get m' k
  end.

Definition contains_key m k : bool := match get m k with Some _ => true | None => false end.

(** [insert] keeps the key that is already there and replaces its value. *)
Fixpoint insert m k v : t K V :=
  match m with
  | [] => [(k, v)]
  | (k', v') :: m' => if k == k' then (k', v) :: m' else (k', v') :: insert m' k v
  end.

Fixpoint remove m k : t K V :=
  match m with
  | [] => []
  | (k', v') :: m' => if k == k' then m' else (k', v') :: remove m' k
  end.

(** [iter().collect()]: later pairs win. *)
Definition from_list (l : list (K * V)) : t K V :=
  foldl (fun m kv => insert m (fst kv) (snd kv)) empty l.

Definition extend m (l : list (K * V)) : t K V :=
  foldl (fun m kv => insert m (fst kv) (snd kv)) m l.

Definition keys m : list K := map fst m.
(** [impl PartialEq for HashMap]. *)
Definition eqb `{PartialEq V} m1 m2 : bool :=
  Nat.eqb (length m1) (length m2)
  && forallb (fun e => match get m2 (fst e) with Some v => snd e == v | None => false end) m1.

Definition values m : list V := map snd m.

Lemma get_insert `{!PartialEqPER K} m k v k' :
  get (insert m k v) k' = if k' == k then Some v else get m k'.
Proof.
  induction m as [|[k1 v1] m IH]; simpl; [done|].
  destruct (k == k1) eqn:E1; simpl.
  - destruct (k' == k1) eqn:E2.
    + rewrite (peq_trans k' k1 k); [done|done|by rewrite peq_sym].
    + destruct (k' == k) eqn:E3; [|done].
      rewrite (peq_trans k' k k1 E3 E1) in E2. done.
  - rewrite IH. destruct (k' == k1) eqn:E2; [|done].
    destruct (k' == k) eqn:E3; [|done].
    rewrite peq_sym in E3. rewrite (peq_trans k k' k1 E3 E2) in E1. done.
Qed.

Lemma get_in m k v : get m k = Some v -> exists k', In (k', v) m /\ (k == k') = true.
Proof.
  induction m as [|[k1 v1] m IH]; simpl; [done|]. destruct (k == k1) eqn:E.
  - intros [= ->]. exists k1. auto.
  - intros (k' & ? & ?)%IH. eauto.
Qed.

(** Over Leibniz equality the keys stay different, and [remove] is what one
    expects. *)
Section Leibniz.
Context `{!PartialEqLeibniz K}.

Lemma keys_insert m k v : keys (insert m k v) = if contains_key m k then keys m else (keys m ++ [k])%list.
Proof.
  unfold contains_key, keys in *. induction m as [|[k' v'] m IH]; [done|]. cbn.
  destruct (k == k') eqn:E; [done|]. cbn. rewrite IH. by destruct (get m k).
Qed.

Lemma contains_key_in m k : contains_key m k = true <-> k ∈ keys m.
Proof.
  unfold contains_key, keys. induction m as [|[k' v'] m IH]; cbn; [by rewrite elem_of_nil|].
  rewrite elem_of_cons. destruct (k == k') eqn:E.
  - apply (peq_eq (A := K)) in E. split; [intros _; by left|done].
  - apply (peq_false_iff (A := K)) in E. rewrite IH. split; [intros ?; by right|]. by intros [?|?].
Qed.

Lemma nodup_insert m k v : NoDup (keys m) -> NoDup (keys (insert m k v)).
Proof.
  rewrite keys_insert. destruct (contains_key m k) eqn:E; [done|]. intros Hnd.
  apply NoDup_app. split; [done|]. split; [|apply NoDup_singleton].
  intros x Hx ->%list_elem_of_singleton. apply contains_key_in in Hx. congruence.
Qed.

Lemma keys_remove_sub m k x : x ∈ keys (remove m k) -> x ∈ keys m.
Proof.
  induction m as [|[k' v'] m IH]; cbn; [done|]. destruct (k == k'); cbn; rewrite !elem_of_cons; tauto.
Qed.

Lemma nodup_remove m k : NoDup (keys m) -> NoDup (keys (remove m k)).
Proof.
  induction m as [|[k' v'] m IH]; cbn; [done|]. intros [Hn Hnd]%NoDup_cons.
  destruct (k == k'); [done|]. cbn. constructor; [|auto]. by intros ?%keys_remove_sub.
Qed.

Lemma get_remove m k k' :
  NoDup (keys m) -> get (remove m k) k' = if k' == k then None else get m k'.
Proof.
  induction m as [|[k1 v1] m IH]; cbn; [by destruct (k' == k)|]. intros [Hn Hnd]%NoDup_cons.
  destruct (k == k1) eqn:E.
  - apply (peq_eq (A := K)) in E as <-. destruct (k' == k) eqn:E'; [|done].
    apply (peq_eq (A := K)) in E' as ->. destruct (get m k) eqn:Eg; [|done]. exfalso. apply Hn.
    apply contains_key_in. unfold contains_key. by rewrite Eg.
  - cbn. destruct (k' == k1) eqn:E1; [|auto]. apply (peq_eq (A := K)) in E1 as ->.
    destruct (k1 == k) eqn:E2; [|done]. apply (peq_eq (A := K)) in E2 as ->. by rewrite peq_refl in E.
Qed.

Lemma nodup_from_list (l : list (K * V)) : NoDup (keys (from_list l)).
Proof.
  unfold from_list. assert (H0 : NoDup (keys (empty : t K V))) by constructor.
  revert H0. generalize (empty : t K V). induction l as [|[k v] l IH]; intros m Hm; cbn; [done|].
  apply IH. by apply nodup_insert.
Qed.
End Leibniz.
(** Over a partial equivalence the keys stay distinct, and [remove] and
    [retain] are what one expects. *)
Section Distinct.
Context `{!PartialEqPER K}.

Definition distinct m : Prop := ForallOrdPairs (fun a b => (a == b) = false) (keys m).

(** [retain]. *)
Definition retain (m : t K V) (P : K -> V -> bool) : t K V := List.filter (fun e => P (fst e) (snd e)) m.

Lemma peq_false_l a b c : (a == b) = true -> (a == c) = false -> (b == c) = false.
Proof.
  intros Hab Hac. destruct (b == c) eqn:E; [|done]. by rewrite (peq_trans a b c) in Hac.
Qed.

Lemma peq_cong_l a b c : (a == b) = true -> (a == c) = (b == c).
Proof.
  intros Hab. destruct (a == c) eqn:E.
  - symmetry. rewrite peq_sym in Hab. by eapply peq_trans.
  - symmetry. by eapply peq_false_l.
Qed.

Lemma peq_cong_r a b c : (a == b) = true -> (c == a) = (c == b).
Proof. intros Hab. rewrite !(peq_sym c). by apply peq_cong_l. Qed.

Lemma get_cong m k k' : (k == k') = true -> get m k = get m k'.
Proof.
  intros Hk. induction m as [|[k1 v1] m IH]; cbn; [done|]. by rewrite (peq_cong_l k k' k1 Hk), IH.
Qed.

Lemma get_none m k : get m k = None <-> Forall (fun k' => (k == k') = false) (keys m).
Proof.
  induction m as [|[k1 v1] m IH]; cbn; [by split|]. rewrite Forall_cons, <- IH.
  destruct (k == k1); split; try done; [by intros []|by intros [_ ?]].
Qed.

Lemma distinct_nil : distinct empty.
Proof. constructor. Qed.

Lemma distinct_cons k v m : distinct ((k, v) :: m) <-> get m k = None /\ distinct m.
Proof.
  unfold distinct. cbn. rewrite get_none. split; [by inversion 1|]. intros [? ?]. by constructor.
Qed.

Lemma distinct_insert m k v : distinct m -> distinct (insert m k v).
Proof.
  induction m as [|[k1 v1] m IH]; cbn; [by repeat constructor|]. intros [Hn Hd]%distinct_cons.
  destruct (k == k1) eqn:E; [by apply distinct_cons|]. apply distinct_cons. split; [|by apply IH].
  rewrite get_insert, Hn. by rewrite peq_sym, E.
Qed.

Lemma keys_remove m k : Forall (fun k' => In k' (keys m)) (keys (remove m k)).
Proof.
  induction m as [|[k1 v1] m IH]; cbn; [constructor|]. destruct (k == k1); cbn.
  - apply Forall_forall. intros x Hx%list_elem_of_In. by right.
  - constructor; [by left|]. eapply Forall_impl; [exact IH|]. cbn. auto.
Qed.

Lemma distinct_get_remove m k k' :
  distinct m -> get (remove m k) k' = if k' == k then None else get m k'.
Proof.
  induction m as [|[k1 v1] m IH]; cbn; [by destruct (k' == k)|]. intros [Hn Hd]%distinct_cons.
  destruct (k == k1) eqn:E.
  - destruct (k' == k) eqn:E'.
    + rewrite (get_cong m k' k1); [done|]. by eapply peq_trans.
    + rewrite (peq_cong_r k1 k k'), E'; [done|]. by rewrite peq_sym.
  - cbn. rewrite IH by done. destruct (k' == k1) eqn:E1; [|done].
    rewrite (peq_cong_l k' k1 k E1), peq_sym, E. done.
Qed.

Lemma distinct_remove m k : distinct m -> distinct (remove m k).
Proof.
  induction m as [|[k1 v1] m IH]; cbn; [done|]. intros [Hn Hd]%distinct_cons.
  destruct (k == k1) eqn:E; [done|]. apply distinct_cons. split; [|by apply IH].
  rewrite distinct_get_remove by done. by rewrite Hn; destruct (k1 == k).
Qed.

Lemma distinct_from_list (l : list (K * V)) : distinct (from_list l).
Proof.
  unfold from_list. assert (Hd : distinct empty) by constructor. revert Hd. generalize empty.
  induction l as [|[k v] l IH]; intros m Hm; cbn; [done|]. apply IH. by apply distinct_insert.
Qed.

Lemma get_foldl_insert (l : list (K * V)) m k :
  get (foldl (fun m kv => insert m (fst kv) (snd kv)) m l) k =
    match List.find (fun kv => k == fst kv) (rev l) with
    | Some kv => Some (snd kv)
    | None => get m k
    end.
Proof.
  revert m. induction l as [|[k1 v1] l IH]; intros m; [done|]. cbn. rewrite IH, get_insert.
  assert (Happ : forall (P : K * V -> bool) l1 x, List.find P (l1 ++ [x])%list
    = match List.find P l1 with Some y => Some y | None => if P x then Some x else None end).
  { intros P l1 x. induction l1 as [|y l1 IHl]; cbn; [by destruct (P x)|]. by destruct (P y). }
  rewrite Happ. destruct (List.find _ (rev l)); [done|]. cbn. by destruct (k == k1).
Qed.

(** [retain] with a predicate that cannot tell equal keys apart. *)
Lemma get_retain m (P : K -> V -> bool) k :
  distinct m -> (forall k' v, (k == k') = true -> P k v = P k' v) ->
  get (retain m P) k = v ← get m k; if P k v then Some v else None.
Proof.
  intros Hd HP. unfold retain. induction m as [|[k1 v1] m IH]; cbn; [done|]. apply distinct_cons in Hd as [Hn Hd].
  destruct (k == k1) eqn:E; cbn.
  - rewrite (HP k1 v1 E). destruct (P k1 v1); cbn; [by rewrite E|]. rewrite IH by done.
    by rewrite (get_cong m k k1 E), Hn.
  - destruct (P k1 v1); cbn; [rewrite E|]; by apply IH.
Qed.

Lemma distinct_retain m (P : K -> V -> bool) : distinct m -> distinct (retain m P).
Proof.
  unfold retain. induction m as [|[k1 v1] m IH]; cbn; [done|]. intros [Hn Hd]%distinct_cons.
  destruct (P k1 v1); [|by apply IH]. apply distinct_cons. split; [|by apply IH].
  apply get_none in Hn. apply get_none. unfold keys in *. rewrite Forall_map in *.
  apply Forall_forall. intros e He%list_elem_of_In%filter_In. rewrite Forall_forall in Hn.
  apply Hn, list_elem_of_In, He.
Qed.

(** The entries of a map with distinct keys are its graph. *)
Lemma distinct_in_get m k v :
  distinct m -> In (k, v) m -> (k == k) = true -> get m k = Some v.
Proof.
  induction m as [|[k1 v1] m IH]; cbn; [done|]. intros [Hn Hd]%distinct_cons [[= -> ->]|Hin] Hk.
  - by rewrite Hk.
  - destruct (k == k1) eqn:E; [|by apply IH]. exfalso. apply get_none in Hn.
    rewrite Forall_forall in Hn. assert (Hk1 : k ∈ keys m).
    { apply list_elem_of_In, in_map_iff. by exists (k, v). }
    specialize (Hn k Hk1). rewrite peq_sym in Hn. congruence.
Qed.
End Distinct.

Lemma remove_length (m : t K V) k : is_Some (get m k) -> length m = S (length (remove m k)).
Proof.
  induction m as [|[k' v'] m IH]; cbn; [by intros []|]. destruct (k == k'); [done|].
  intros Hg. cbn. by rewrite <- IH.
Qed.
End Ops.
#[global] Arguments t : clear implicits.
End HashMap.

Module HashSet.
Definition t (A : Type) : Type := list A.

Section Ops.
Context {A : Type} `{PartialEq A}.
Implicit Types (s : t A) (x : A).

Definition contains s x : bool := existsb (fun y => x == y) s.

Definition insert s x : t A := if contains s x then s else (s ++ [x])%list.

Fixpoint remove s x : t A :=
  match s with
  | [] => []
  | y :: s' => if x == y then s' else y :: remove s' x
  end.

Definition from_list (l : list A) : t A := foldl insert [] l.

Definition union s1 s2 : t A := foldl insert s1 s2.

(** [impl PartialEq for HashSet]. *)
Definition eqb s1 s2 : bool :=
  Nat.eqb (length s1) (length s2) && forallb (fun x => contains s2 x) s1.

Definition difference s1 s2 : t A := List.filter (fun x => negb (contains s2 x)) s1.

Lemma contains_app s1 s2 x : contains (s1 ++ s2)%list x = contains s1 x || contains s2 x.
Proof. apply existsb_app. Qed.

Lemma contains_insert `{!PartialEqPER A} s x y :
  contains (insert s x) y = (y == x) || contains s y.
Proof.
  unfold insert. destruct (contains s x) eqn:E.
  - destruct (y == x) eqn:Eyx; [|done]. simpl.
    unfold contains in *. apply existsb_exists in E as (z & Hz & Exz).
    apply existsb_exists. exists z. split; [done|]. by eapply peq_trans.
  - rewrite contains_app. simpl. by rewrite orb_false_r, orb_comm.
Qed.

Lemma contains_union `{!PartialEqPER A} s1 s2 x :
  contains (union s1 s2) x = contains s1 x || contains s2 x.
Proof.
  unfold union. revert s1. induction s2 as [|y s2 IH]; intros s1; simpl.
  - by rewrite orb_false_r.
  - rewrite IH, contains_insert. unfold contains. simpl.
    destruct (x == y), (existsb _ s1); simpl; done.
Qed.

Lemma contains_from_list `{!PartialEqPER A} (l : list A) x :
  contains (from_list l) x = existsb (fun y => x == y) l.
Proof. unfold from_list. fold (union [] l). by rewrite contains_union. Qed.

(** Over Leibniz equality, membership is [In]. *)
Lemma contains_In `{!PartialEqLeibniz A} s x : contains s x = true <-> In x s.
Proof.
  unfold contains. rewrite existsb_exists. split.
  - intros (y & Hy & <-%peq_eq). done.
  - intros Hx. exists x. split; [done|]. by apply peq_eq.
Qed.
End Ops.
#[global] Arguments t : clear implicits.
End HashSet.
