(* ===== verification/Typaram.v ===== *)
(** * Substitution of type parameters

    [prusti-common/src/vir/ast/typaram.rs]: the string substitution that
    turns the name of a generic type into the name of an instance of it.

    The crate [regex] is an argument, [RegexCrate]; [RegexLaws] states what
    its documentation says about the expressions that [learn] builds:
    literal text and lazy groups between [^] and [$].  [MiniRegex] is a
    backtracking matcher that has the laws; the tests of the module are
    replayed with it. *)

From Stdlib Require Import Lia Ascii.

From S2P Require Import Prelude Collections.

(** ** The crate [regex] *)

Class RegexCrate := {
  Regex : Type;
  (** [Regex::new]: [None] is an error. *)
  regex_new : string -> option Regex;
  (** [find_iter]: start and end of the successive non-overlapping matches. *)
  find_iter : Regex -> string -> list (nat * nat);
  (** [captures]: the capture groups, the whole match first. *)
  regex_captures : Regex -> string -> option (list (option string))
}.

(** ** The program *)

(** [&s[a..b]]. *)
Definition str_slice (s : string) (a b : nat) : option string :=
  _ ← assert_ (Nat.leb a b && Nat.leb b (String.length s));
  Some (String.substring a (b - a) s).

Definition TYPARAM_RE : string := "(__TYPARAM__\$(.*?)\$__)".

Definition escape_dollars (s : string) : string := str_replace s "$" "\$".

Section Typaram.
Context `{RegexCrate}.

Record Substs : Type := make_substs { regex : Regex; repls : HashMap.t string string }.

(** The loop over the matches in [learn]: the regular expression, the type
    parameters found, and the end of the last match. *)
Fixpoint learn_scan (from : string) (matches : list (nat * nat)) (repls_regex_str : string)
    (found_typarams : list string) (last : nat) : option (string * list string * nat) :=
  match matches with
  | [] => Some (repls_regex_str, found_typarams, last)
  | (start, stop) :: rest =>
      lit ← str_slice from last start;
      item ← str_slice from start stop;
      learn_scan from rest (repls_regex_str ++ escape_dollars lit ++ "(.*?)")
        (found_typarams ++ [item])%list stop
  end.

(** The loop over the captures; [i] counts from 1. *)
Fixpoint learn_captures (to : string) (found_typarams : list string) (i : nat)
    (groups : list (option string)) (repls : HashMap.t string string) :
    option (HashMap.t string string) :=
  match groups with
  | [] => Some repls
  | group :: rest =>
      from_typaram ← found_typarams !! (i - 1);
      to_typaram ← group;
      _ ← match HashMap.get repls from_typaram with
          | Some x => assert_ (to == x)
          | None => Some tt
          end;
      learn_captures to found_typarams (S i) rest (HashMap.insert repls from_typaram to_typaram)
  end.

(** [from] is the generic type, [to] is more concrete. *)
Definition learn (from to : string) : option Substs :=
  typaram_re ← regex_new TYPARAM_RE;
  '(repls_regex_str, found_typarams, last) ←
    learn_scan from (find_iter typaram_re from) "^" [] 0;
  lit ← str_slice from last (String.length from);
  repls_regex ← regex_new ((repls_regex_str ++ escape_dollars lit) ++ "$");
  if from == to then
    Some (make_substs typaram_re (HashMap.from_list (map (fun x => (x, x)) found_typarams)))
  else
    captures ← regex_captures repls_regex to;
    repls ← learn_captures to found_typarams 1 (tail captures) HashMap.empty;
    Some (make_substs typaram_re repls).

Fixpoint apply_scan (self : Substs) (inner1 : string) (matches : list (nat * nat)) (newstr : string)
    (last : nat) : option (string * nat) :=
  match matches with
  | [] => Some (newstr, last)
  | (start, stop) :: rest =>
      lit ← str_slice inner1 last start;
      item ← str_slice inner1 start stop;
      let rep := match HashMap.get (repls self) item with Some rep => rep | None => item end in
      apply_scan self inner1 rest ((newstr ++ lit) ++ rep) stop
  end.

Definition apply (self : Substs) (inner1 : string) : option string :=
  '(newstr, last) ← apply_scan self inner1 (find_iter (regex self) inner1) "" 0;
  lit ← str_slice inner1 last (String.length inner1);
  Some (newstr ++ lit).
End Typaram.

(** ** What the documentation of [regex] says *)

(** Matches do not overlap and come in order. *)
Fixpoint ordered_matches (last len : nat) (ms : list (nat * nat)) : Prop :=
  match ms with
  | [] => last <= len
  | (a, b) :: ms' => last <= a /\ a <= b /\ b <= len /\ ordered_matches b len ms'
  end.

(** The pattern of the literals [lits] with a lazy group after each, then
    [last]; and the strings it describes. *)
Fixpoint template (lits : list string) (last : string) : string :=
  match lits with
  | [] => escape_dollars last ++ "$"
  | l :: lits' => escape_dollars l ++ "(.*?)" ++ template lits' last
  end.

Fixpoint fill (lits gs : list string) (last : string) : string :=
  match lits, gs with
  | l :: lits', g :: gs' => l ++ g ++ fill lits' gs' last
  | _, _ => last
  end.

Fixpoint str_forallb (P : ascii -> bool) (s : string) : bool :=
  match s with
  | EmptyString => true
  | String c s' => P c && str_forallb P s'
  end.

(** The characters of type names that have no meaning in a pattern but [$]. *)
Definition is_word (c : ascii) : bool :=
  let n := nat_of_ascii c in
  (Nat.leb 48 n && Nat.leb n 57) || (Nat.leb 65 n && Nat.leb n 90) || (Nat.leb 97 n && Nat.leb n 122)
  || Nat.eqb n 95.

Definition plain (s : string) : bool := str_forallb (fun c => is_word c || Ascii.eqb c "$"%char) s.

(** [.] does not match a newline. *)
Definition newline : ascii := ascii_of_nat 10.
Definition one_line (s : string) : bool := str_forallb (fun c => negb (Ascii.eqb c newline)) s.

Class RegexLaws `{RegexCrate} : Prop := {
  regex_typaram : is_Some (regex_new TYPARAM_RE);
  find_iter_ordered : forall r s, ordered_matches 0 (String.length s) (find_iter r s);
  regex_template : forall lits last, Forall (fun l => plain l = true) (last :: lits) ->
    exists r, regex_new ("^" ++ template lits last) = Some r
      /\ (forall s groups, regex_captures r s = Some groups ->
            exists gs, groups = Some s :: map Some gs /\ length gs = length lits /\ s = fill lits gs last)
      /\ (forall gs, length gs = length lits -> Forall (fun g => one_line g = true) gs ->
            is_Some (regex_captures r (fill lits gs last)))
}.

(** ** Slices *)

Lemma str_app_cons c (s t : string) : String c s ++ t = String c (s ++ t).
Proof. reflexivity. Qed.

Lemma str_nil_app (s : string) : "" ++ s = s.
Proof. reflexivity. Qed.

Lemma str_app_assoc (s1 s2 s3 : string) : (s1 ++ s2) ++ s3 = s1 ++ (s2 ++ s3).
Proof. induction s1 as [|c s1 IH]; [done|]. by rewrite !str_app_cons, IH. Qed.

Lemma str_app_nil (s : string) : s ++ "" = s.
Proof. induction s as [|c s IH]; [done|]. by rewrite str_app_cons, IH. Qed.

Lemma str_length_app (s1 s2 : string) : String.length (s1 ++ s2) = String.length s1 + String.length s2.
Proof. induction s1 as [|c s1 IH]; [done|]. rewrite str_app_cons. cbn. by rewrite IH. Qed.

Lemma str_forallb_app P s1 s2 : str_forallb P (s1 ++ s2) = str_forallb P s1 && str_forallb P s2.
Proof. induction s1 as [|c s1 IH]; [done|]. rewrite str_app_cons. cbn. by rewrite IH, andb_assoc. Qed.

Lemma substring_prefix s n : n <= String.length s ->
  exists t, s = String.substring 0 n s ++ t /\ String.length (String.substring 0 n s) = n
    /\ forall a m, String.substring (n + a) m s = String.substring a m t.
Proof.
  revert n. induction s as [|c s IH]; intros [|n] Hn; cbn in Hn |- *; try (by eexists); [lia|].
  destruct (IH n ltac:(lia)) as (t & Hs & Hl & Hsub). exists t.
  split; [by rewrite str_app_cons, <- Hs|].
  split; [by rewrite Hl|]. intros a m. by destruct m; rewrite <- Hsub.
Qed.

Lemma substring_all s : String.substring 0 (String.length s) s = s.
Proof. induction s as [|c s IH]; [done|]. cbn. by rewrite IH. Qed.

Lemma substring_none s : forall n, String.substring n 0 s = "".
Proof. induction s as [|c s IH]; intros [|n]; cbn; auto. Qed.

Lemma str_slice_split s a b : a <= b -> b <= String.length s ->
  exists l, str_slice s a b = Some l
    /\ String.substring a (String.length s - a) s
       = l ++ String.substring b (String.length s - b) s.
Proof.
  intros Hab Hb. unfold str_slice.
  assert (Nat.leb a b && Nat.leb b (String.length s) = true) as -> by
    (apply andb_true_iff; split; apply Nat.leb_le; lia).
  eexists. split; [reflexivity|].
  destruct (substring_prefix s a ltac:(lia)) as (t & Hs & Hl & Hsub).
  assert (Ht : String.length t = String.length s - a) by (pose proof (f_equal String.length Hs) as E; rewrite str_length_app, Hl in E; lia).
  pose proof (Hsub 0) as H0. rewrite Nat.add_0_r in H0. rewrite !H0, <- Ht, substring_all.
  destruct (substring_prefix t (b - a) ltac:(lia)) as (u & Hu & Hlu & Hsubu).
  assert (Hulen : String.length u = String.length s - b) by (pose proof (f_equal String.length Hu) as E; rewrite str_length_app, Hlu in E; lia).
  replace b with (a + (b - a)) at 2 by lia. rewrite Hsub.
  pose proof (Hsubu 0) as H1. rewrite Nat.add_0_r in H1. by rewrite H1, <- Hulen, substring_all.
Qed.

(** ** Learning and applying *)

Section Roundtrip.
Context `{RegexLaws}.

(** The type parameters of a type name. *)
Definition typarams (from : string) : option (list string) :=
  typaram_re ← regex_new TYPARAM_RE;
  mapM_opt (fun m => str_slice from (fst m) (snd m)) (find_iter typaram_re from).

(** The two loops over the matches see the same literals and items. *)
Lemma scan_segments from ms : forall last,
  ordered_matches last (String.length from) ms ->
  exists lits items lastlit stop,
    length items = length lits
    /\ mapM_opt (fun m => str_slice from (fst m) (snd m)) ms = Some items
    /\ str_slice from stop (String.length from) = Some lastlit
    /\ String.substring last (String.length from - last) from = fill lits items lastlit
    /\ (forall acc found, exists acc', learn_scan from ms acc found last = Some (acc', found ++ items, stop)%list
          /\ (acc' ++ escape_dollars lastlit) ++ "$" = acc ++ template lits lastlit)
    /\ (forall self new, exists new', apply_scan self from ms new last = Some (new', stop)
          /\ new' ++ lastlit =
             new ++ fill lits (map (fun x => default x (HashMap.get (repls self) x)) items) lastlit).
Proof.
  induction ms as [|[a b] ms IH]; intros last; cbn [ordered_matches].
  - intros Hl. destruct (str_slice_split from last (String.length from)) as (l & El & Hs); [done|done|].
    exists [], [], l, last. rewrite Nat.sub_diag in Hs. cbn. repeat split; try done.
    + by rewrite Hs, substring_none, str_app_nil.
    + intros acc found. exists acc. rewrite app_nil_r. by rewrite str_app_assoc.
    + intros self new. by exists new.
  - intros (Hla & Hab & Hb & Hms).
    destruct (IH b Hms) as (lits & items & lastlit & stop & Hlen & Hm & Hll & Hs & Hlearn & Happ).
    destruct (str_slice_split from last a) as (l & El & Hl); [lia|lia|].
    destruct (str_slice_split from a b) as (i & Ei & Hi); [lia|lia|].
    exists (l :: lits), (i :: items), lastlit, stop.
    cbn [length mapM_opt fst snd learn_scan apply_scan]. rewrite Hm, El, Ei.
    cbn [mbind option_bind fill map]. split; [congruence|]. split; [done|]. split; [done|].
    split; [by rewrite Hl, Hi, Hs|]. split.
    + intros acc found.
      destruct (Hlearn (acc ++ escape_dollars l ++ "(.*?)") (found ++ [i])%list) as (acc' & E & Hacc).
      exists acc'. rewrite E, <- app_assoc. split; [done|]. rewrite Hacc. cbn [template].
      by rewrite !str_app_assoc.
    + intros self new. edestruct (Happ self) as (new' & E & Hnew). exists new'. rewrite E.
      split; [done|]. rewrite Hnew, !str_app_assoc. by destruct (HashMap.get _ i).
Qed.

Lemma learn_captures_spec to items gs : forall i found repls,
  length gs = length items -> drop (i - 1) found = items -> 0 < i -> NoDup items ->
  (forall x, x ∈ items -> HashMap.get repls x = None) ->
  exists repls', learn_captures to found i (map Some gs) repls = Some repls'
    /\ map (HashMap.get repls') items = map Some gs
    /\ forall x, x ∉ items -> HashMap.get repls' x = HashMap.get repls x.
Proof.
  revert items. induction gs as [|g gs IH]; intros [|x items] i found repls Hlen Hd Hi Hnd Hnone; try done.
  - by exists repls.
  - apply NoDup_cons in Hnd as [Hx Hnd]. cbn [map learn_captures].
    assert (found !! (i - 1) = Some x) as ->.
    { rewrite <- (Nat.add_0_r (i - 1)), <- lookup_drop, Hd. done. }
    cbn. rewrite Hnone by (by left). cbn.
    edestruct (IH items (S i) found (HashMap.insert repls x g)) as (r & Er & Hr & Hrest); [cbn in *; lia| | |done| |].
    + replace (S i - 1) with (i - 1 + 1) by lia. rewrite <- drop_drop, Hd. done.
    + lia.
    + intros y Hy. rewrite HashMap.get_insert. destruct (y == x) eqn:E; [|apply Hnone; by right].
      apply (peq_eq (A := string)) in E as ->. done.
    + exists r. split; [done|]. split.
      * cbn. rewrite Hr, Hrest by done. by rewrite HashMap.get_insert, peq_refl.
      * intros y [Hyx Hy]%not_elem_of_cons. rewrite Hrest by done. rewrite HashMap.get_insert.
        destruct (y == x) eqn:E; [|done]. by apply (peq_eq (A := string)) in E.
Qed.
End Roundtrip.

Lemma str_forallb_impl (P Q : ascii -> bool) s :
  (forall c, P c = true -> Q c = true) -> str_forallb P s = true -> str_forallb Q s = true.
Proof.
  intros HPQ. induction s as [|c s IH]; [done|]. cbn. intros [Hc Hs]%andb_true_iff.
  by rewrite HPQ, IH.
Qed.

Lemma plain_one_line s : plain s = true -> one_line s = true.
Proof.
  apply str_forallb_impl. intros c Hc. destruct (Ascii.eqb c newline) eqn:E; [|done].
  apply Ascii.eqb_eq in E as ->. done.
Qed.

Lemma plain_fill lits : forall gs last,
  length gs = length lits -> plain (fill lits gs last) = true ->
  Forall (fun l => plain l = true) (last :: lits) /\ Forall (fun g => plain g = true) gs.
Proof.
  induction lits as [|l lits IH]; intros [|g gs] last; cbn [fill]; try done.
  - intros _ Hl. by repeat constructor.
  - intros [= Hlen]. unfold plain. rewrite !str_forallb_app. intros [Hl [Hg Hf]%andb_true_iff]%andb_true_iff.
    destruct (IH gs last Hlen Hf) as [Hlits Hgs]. apply Forall_cons in Hlits as [? ?].
    repeat (constructor; try done).
Qed.

Section Theorems.
Context `{RegexLaws}.

Lemma get_identity (ps : list string) x v :
  HashMap.get (HashMap.from_list (map (fun x => (x, x)) ps)) x = Some v -> v = x.
Proof.
  unfold HashMap.from_list.
  assert (Hempty : forall x v, HashMap.get (HashMap.empty : HashMap.t string string) x = Some v -> v = x) by done.
  revert Hempty. generalize (HashMap.empty : HashMap.t string string).
  induction ps as [|p ps IH]; intros m Hm; cbn; [apply Hm|]. apply IH. intros y w.
  rewrite HashMap.get_insert. destruct (y == p) eqn:E; [|apply Hm].
  apply (peq_eq (A := string)) in E as ->. by intros [= ->].
Qed.

Lemma default_values (m : HashMap.t string string) (ps gs : list string) :
  map (HashMap.get m) ps = map Some gs -> map (fun x => default x (HashMap.get m x)) ps = gs.
Proof.
  revert gs. induction ps as [|p ps IH]; intros [|g gs]; cbn; try done.
  intros [= -> E]. by rewrite (IH gs).
Qed.

(** On a type name whose type parameters are different, [learn] accepts exactly the instances,
    and applying what it learned to the generic name gives the concrete one. *)
Theorem learn_apply_roundtrip (from : string) (ps : list string) :
  plain from = true -> typarams from = Some ps -> NoDup ps ->
  (forall to s, learn from to = Some s -> apply s from = Some to)
  /\ (forall to re repls, regex_new TYPARAM_RE = Some re ->
        (forall p r, HashMap.get repls p = Some r -> one_line r = true) ->
        apply (make_substs re repls) from = Some to -> is_Some (learn from to)).
Proof.
  intros Hplain Hps Hnd. destruct regex_typaram as [re Hre].
  unfold typarams in Hps. rewrite Hre in Hps. cbn in Hps.
  destruct (scan_segments from (find_iter re from) 0 (find_iter_ordered re from))
    as (lits & items & lastlit & stop & Hlen & Hm & Hll & Hs & Hlearn & Happ).
  rewrite Hm in Hps. injection Hps as ->. rewrite Nat.sub_0_r, substring_all in Hs.
  rewrite Hs in Hplain. apply plain_fill in Hplain as [Hlits Hitems]; [|done].
  destruct (Hlearn "^" []) as (acc' & El & Hacc).
  destruct (regex_template lits lastlit Hlits) as (r & Hr & Hsound & Hcomplete).
  assert (Hself : forall self, regex self = re ->
    apply self from = Some (fill lits (map (fun x => default x (HashMap.get (repls self) x)) ps) lastlit)).
  { intros self Eself. unfold apply. rewrite Eself. destruct (Happ self "") as (new' & E & Hnew).
    rewrite E. cbn. rewrite Hll. cbn. by rewrite Hnew. }
  unfold learn. rewrite Hre. cbn [mbind option_bind]. rewrite El. cbn [mbind option_bind]. rewrite Hll.
  cbn [mbind option_bind]. rewrite Hacc, Hr. cbn [mbind option_bind]. split.
  - intros to s. destruct (from == to) eqn:E.
    + apply (peq_eq (A := string)) in E as <-. intros [= <-]. rewrite Hself, Hs by done. do 2 f_equal.
      etransitivity; [|apply map_id]. apply map_ext. intros x. cbn.
      destruct (HashMap.get _ x) eqn:Eg; [|done]. by apply get_identity in Eg as ->.
    + destruct (regex_captures r to) as [groups|] eqn:Ec; [|done].
      destruct (Hsound to groups Ec) as (gs & -> & Hgl & ->).
      edestruct (learn_captures_spec (fill lits gs lastlit) ps gs 1 ps HashMap.empty)
        as (repls' & Er & Hg & _); [congruence|done|lia|done|done|].
      cbn [mbind option_bind tail app]. rewrite Er. intros [= <-]. rewrite Hself by done.
      cbn [repls]. by rewrite (default_values _ ps gs Hg).
  - intros to re' reps Hre' Hone. assert (re' = re) as -> by congruence. rewrite Hself by done. intros [= <-].
    destruct (from == _); [by eexists|]. cbn [repls].
    set (gs := map _ ps). assert (Hgl : length gs = length lits) by (by unfold gs; rewrite length_map).
    destruct (Hcomplete gs Hgl) as [groups Ec].
    { apply Forall_forall. intros g (p & -> & Hp)%list_elem_of_fmap.
      destruct (HashMap.get reps p) as [v|] eqn:Eg; cbn; [by eapply Hone|].
      apply plain_one_line. rewrite Forall_forall in Hitems. by apply Hitems. }
    rewrite Ec. destruct (Hsound _ groups Ec) as (gs' & -> & Hgl' & ->).
    edestruct (learn_captures_spec (fill lits gs' lastlit) ps gs' 1 ps HashMap.empty)
      as (repls' & Er & _); [congruence|done|lia|done|done|].
    cbn [mbind option_bind tail app]. rewrite Er. by eexists.
Qed.
End Theorems.

(** ** A matcher *)

Module MiniRegex.
Inductive token : Type := Lit (c : Ascii.ascii) | Lazy | Open | Close | Bol | Eol.

(** The syntax it knows: the six tokens, a backslash before a dollar, letters, digits and
    underscores. *)
Fixpoint parse (s : string) : option (list token) :=
  match s with
  | EmptyString => Some []
  | String c s' =>
      if Ascii.eqb c "^"%char then cons Bol <$> parse s'
      else if Ascii.eqb c "$"%char then cons Eol <$> parse s'
      else if Ascii.eqb c "("%char then cons Open <$> parse s'
      else if Ascii.eqb c ")"%char then cons Close <$> parse s'
      else if Ascii.eqb c "\"%char then
        match s' with
        | String d s'' => if Ascii.eqb d "$"%char then cons (Lit d) <$> parse s'' else None
        | EmptyString => None
        end
      else if Ascii.eqb c "."%char then
        match s' with
        | String "*" (String "?" s'') => cons Lazy <$> parse s''
        | _ => None
        end
      else if is_word c then cons (Lit c) <$> parse s' else None
  end.

(** The groups that are open, with their texts so far, and the ones that are
    closed.  Group 0 is the whole match. *)
Record state : Type := make_state {
  opened : nat;
  stack : list (nat * string);
  closed : list (nat * string)
}.

Definition start : state := make_state 0 [(0, "")] [].

Definition eat (c : ascii) (st : state) : state :=
  make_state (opened st) (map (fun g => (fst g, snd g ++ String c "")) (stack st)) (closed st).

Definition open_group (st : state) : state :=
  make_state (S (opened st)) ((S (opened st), "") :: stack st) (closed st).

Definition close_group (st : state) : option state :=
  match stack st with
  | [] => None
  | g :: stack => Some (make_state (opened st) stack (closed st ++ [g])%list)
  end.

(** A lazy wildcard: the rest of the pattern is tried before a character is
    taken. *)
Fixpoint lazy_match (rest : state -> string -> option state) (st : state) (s : string) :
    option state :=
  match rest st s with
  | Some r => Some r
  | None =>
      match s with
      | EmptyString => None
      | String c s' => if Ascii.eqb c newline then None else lazy_match rest (eat c st) s'
      end
  end.

(** Match the tokens at the start of [s]; [bol]: nothing comes before [s]. *)
Fixpoint match_tokens (bol : bool) (ts : list token) (st : state) (s : string) : option state :=
  match ts with
  | [] => Some st
  | Lit c :: ts' =>
      match s with
      | String d s' => if Ascii.eqb c d then match_tokens false ts' (eat c st) s' else None
      | EmptyString => None
      end
  | Lazy :: ts' => lazy_match (match_tokens false ts') st s
  | Open :: ts' => match_tokens bol ts' (open_group st) s
  | Close :: ts' => st ← close_group st; match_tokens bol ts' st s
  | Bol :: ts' => if bol then match_tokens bol ts' st s else None
  | Eol :: ts' => match s with EmptyString => match_tokens bol ts' st s | _ => None end
  end.

(** The groups in order; the whole match is the one still open. *)
Definition groups_of (st : state) : list (option string) :=
  map (fun n => HashMap.get (stack st ++ closed st)%list n) (seq 0 (S (opened st))).

Definition whole_match (st : state) : string :=
  match HashMap.get (stack st) 0 with Some t => t | None => "" end.

(** The characters below [from] belong to the last match.  Empty matches
    are not reported: no pattern of the program has one. *)
Fixpoint search (ts : list token) (s : string) (pos from : nat) : list (nat * nat) :=
  let len :=
    if Nat.leb from pos then
      match match_tokens (Nat.eqb pos 0) ts start s with
      | Some st => Nat.min (String.length (whole_match st)) (String.length s)
      | None => 0
      end
    else 0 in
  match s with
  | EmptyString => []
  | String _ s' =>
      match len with
      | 0 => search ts s' (S pos) from
      | _ => (pos, pos + len) :: search ts s' (S pos) (pos + len)
      end
  end.

(** The first match. *)
Fixpoint captures_from (bol : bool) (ts : list token) (s : string) : option (list (option string)) :=
  match match_tokens bol ts start s with
  | Some st => Some (groups_of st)
  | None => match s with String _ s' => captures_from false ts s' | EmptyString => None end
  end.

#[export] Instance crate : RegexCrate := {
  Regex := list token;
  regex_new := parse;
  find_iter := fun ts s => search ts s 0 0;
  regex_captures := fun ts s => captures_from true ts s
}.
End MiniRegex.

Import MiniRegex.

(** ** The matcher has the laws *)

Section MiniRegexLaws.
Fixpoint lits_of (s : string) : list token :=
  match s with
  | EmptyString => []
  | String c s' => Lit c :: lits_of s'
  end.

Fixpoint eat_str (s : string) (st : state) : state :=
  match s with
  | EmptyString => st
  | String c s' => eat_str s' (eat c st)
  end.

Fixpoint template_tokens (lits : list string) (last : string) : list token :=
  match lits with
  | [] => lits_of last ++ [Eol]
  | l :: lits' => lits_of l ++ Open :: Lazy :: Close :: template_tokens lits' last
  end%list.

Lemma escape_dollars_cons c s :
  escape_dollars (String c s) =
    if Ascii.eqb c "$"%char then "\$" ++ escape_dollars s else String c (escape_dollars s).
Proof.
  unfold escape_dollars, str_replace. cbn [str_replace_go String.length Nat.sub].
  assert (starts_with (String c s) "$" = Ascii.eqb c "$"%char) as ->; [|done].
  unfold starts_with, String.prefix. destruct (ascii_dec "$" c) as [<-|Hc].
  - by destruct s.
  - by destruct (Ascii.eqb_spec c "$").
Qed.

Lemma parse_word c s : is_word c = true -> parse (String c s) = cons (Lit c) <$> parse s.
Proof.
  intros Hc. assert (forall d, is_word d = false -> Ascii.eqb c d = false) as Hne
    by (intros d Hw; destruct (Ascii.eqb_spec c d); congruence).
  cbn [parse]. by rewrite !Hne, Hc by reflexivity.
Qed.

Lemma parse_dollar s : parse (String "\" (String "$" s)) = cons (Lit "$"%char) <$> parse s.
Proof. reflexivity. Qed.

Lemma parse_group s :
  parse (String "(" (String "." (String "*" (String "?" (String ")" s)))))
  = app [Open; Lazy; Close] <$> parse s.
Proof. cbn. by destruct (parse s). Qed.

Lemma parse_lits l s :
  plain l = true -> parse (escape_dollars l ++ s) = app (lits_of l) <$> parse s.
Proof.
  induction l as [|c l IH]; [change (escape_dollars "" ++ s) with s; by destruct (parse s)|].
  unfold plain. cbn [str_forallb]. intros [Hc Hl]%andb_true_iff.
  rewrite escape_dollars_cons. destruct (Ascii.eqb_spec c "$") as [->|Hd].
  - rewrite str_app_assoc, !str_app_cons, str_nil_app, parse_dollar, IH by done.
    by destruct (parse s).
  - apply orb_true_iff in Hc as [Hc|Hc]; [|done].
    rewrite str_app_cons, parse_word, IH by done. by destruct (parse s).
Qed.

Lemma parse_template lits last :
  Forall (fun l => plain l = true) (last :: lits) ->
  parse (template lits last) = Some (template_tokens lits last).
Proof.
  intros [Hlast Hlits]%Forall_cons. induction Hlits as [|l lits Hl _ IH]; cbn [template template_tokens].
  - by rewrite parse_lits.
  - rewrite parse_lits by done. rewrite !str_app_cons, str_nil_app, parse_group, IH. done.
Qed.

Lemma match_lits l ts s' : forall bol st s, s = l ++ s' ->
  exists bol', match_tokens bol (lits_of l ++ ts) st s = match_tokens bol' ts (eat_str l st) s'.
Proof.
  induction l as [|c l IH]; intros bol st s ->; [by exists bol|]. rewrite str_app_cons. cbn.
  rewrite Ascii.eqb_refl. by apply IH.
Qed.

Lemma match_lits_inv l ts : forall bol st s st',
  match_tokens bol (lits_of l ++ ts) st s = Some st' -> exists s', s = l ++ s'.
Proof.
  induction l as [|c l IH]; intros bol st s st'; [by exists s|]. destruct s as [|d s]; [done|]. cbn.
  destruct (Ascii.eqb_spec c d) as [->|]; [|done]. intros [s' ->]%IH. by exists s'.
Qed.

Lemma lazy_match_inv rest s : forall st st',
  lazy_match rest st s = Some st' -> exists g s', s = g ++ s' /\ rest (eat_str g st) s' = Some st'.
Proof.
  induction s as [|c s IH]; intros st st'; cbn.
  - destruct (rest st "") eqn:E; [|done]. intros [= <-]. by exists "", "".
  - destruct (rest st (String c s)) eqn:E; [intros [= <-]; by exists "", (String c s)|].
    destruct (Ascii.eqb c newline); [done|]. intros (g & s' & -> & Hr)%IH. by exists (String c g), s'.
Qed.

Lemma lazy_match_total rest g s' : forall st,
  one_line g = true -> is_Some (rest (eat_str g st) s') -> is_Some (lazy_match rest st (g ++ s')).
Proof.
  induction g as [|c g IH]; intros st Hg [st' Hr].
  - rewrite str_nil_app. destruct s'; cbn in *; rewrite Hr; by eexists.
  - cbn in Hg. apply andb_true_iff in Hg as [Hc%negb_true_iff Hg]. rewrite str_app_cons. cbn.
    destruct (rest st _); [by eexists|]. rewrite Hc. apply IH; [done|]. by eexists.
Qed.

Lemma eat_str_one s : forall n k t cl,
  eat_str s (make_state n [(k, t)] cl) = make_state n [(k, t ++ s)] cl.
Proof.
  induction s as [|c s IH]; intros; cbn; [by rewrite str_app_nil|]. unfold eat. cbn. by rewrite IH, str_app_assoc.
Qed.

Lemma eat_str_two s : forall n k t k' t' cl,
  eat_str s (make_state n [(k, t); (k', t')] cl) = make_state n [(k, t ++ s); (k', t' ++ s)] cl.
Proof.
  induction s as [|c s IH]; intros; cbn; [by rewrite !str_app_nil|]. unfold eat. cbn.
  by rewrite IH, !str_app_assoc.
Qed.

Lemma match_template_inv lits last : forall bol n t cl s st',
  match_tokens bol (template_tokens lits last) (make_state n [(0, t)] cl) s = Some st' ->
  exists gs, length gs = length lits /\ s = fill lits gs last
    /\ st' = make_state (n + length gs) [(0, t ++ s)] (cl ++ combine (seq (S n) (length gs)) gs).
Proof.
  induction lits as [|l lits IH]; intros bol n t cl s st'; cbn [template_tokens]; intros E.
  - destruct (match_lits_inv _ _ _ _ _ _ E) as [s' ->]. exists []. cbn [length].
    destruct (match_lits last [Eol] s' bol (make_state n [(0, t)] cl) _ eq_refl) as [b' Em].
    rewrite Em, eat_str_one in E. destruct s'; [|done]. cbn in E. injection E as <-.
    by rewrite str_app_nil, Nat.add_0_r, app_nil_r.
  - destruct (match_lits_inv _ _ _ _ _ _ E) as [s' ->].
    destruct (match_lits l (Open :: Lazy :: Close :: template_tokens lits last) s' bol
                (make_state n [(0, t)] cl) _ eq_refl) as [b' Em].
    rewrite Em, eat_str_one in E. cbn in E. apply lazy_match_inv in E as (g & s'' & -> & E).
    unfold open_group in E. cbn in E. rewrite eat_str_two in E. cbn in E.
    apply IH in E as (gs & Hlen & -> & ->). exists (g :: gs). cbn [length]. split; [by rewrite Hlen|].
    split; [done|]. f_equal; [lia| |].
    + by rewrite !str_app_assoc.
    + by rewrite <- app_assoc.
Qed.

Lemma match_template_total lits last : forall bol n t cl gs,
  length gs = length lits -> Forall (fun g => one_line g = true) gs ->
  is_Some (match_tokens bol (template_tokens lits last) (make_state n [(0, t)] cl) (fill lits gs last)).
Proof.
  induction lits as [|l lits IH]; intros bol n t cl [|g gs] Hlen Hgs; try done; cbn [template_tokens fill].
  - destruct (match_lits last [Eol] "" bol (make_state n [(0, t)] cl) last) as [b' Em];
      [by rewrite str_app_nil|]. rewrite Em. by eexists.
  - edestruct (match_lits l) as [b' Em]; [reflexivity|]. rewrite Em, eat_str_one. cbn.
    apply Forall_cons in Hgs as [Hg Hgs]. apply lazy_match_total; [done|].
    unfold open_group. cbn. rewrite eat_str_two. cbn. apply IH; [by injection Hlen|done].
Qed.

Lemma get_app (m m' : HashMap.t nat string) n :
  HashMap.get (m ++ m')%list n = match HashMap.get m n with Some v => Some v | None => HashMap.get m' n end.
Proof. induction m as [|[k v] m IH]; cbn; [done|]. by destruct (n == k). Qed.

Lemma combine_groups (gs : list string) : forall k m,
  (forall n, k <= n -> HashMap.get m n = None) ->
  map (HashMap.get (m ++ combine (seq k (length gs)) gs)%list) (seq k (length gs)) = map Some gs.
Proof.
  induction gs as [|g gs IH]; intros k m Hm; cbn; [done|]. f_equal.
  - rewrite get_app, Hm by done. cbn. by rewrite peq_refl.
  - rewrite cons_middle, app_assoc. apply IH. intros n Hn. rewrite get_app, Hm by lia. cbn.
    destruct (n == k) eqn:E; [|done]. apply (peq_eq (A := nat)) in E. lia.
Qed.

Lemma search_ordered ts s : forall pos from,
  from <= pos + String.length s -> ordered_matches from (pos + String.length s) (search ts s pos from).
Proof.
  induction s as [|c s IH]; intros pos from Hfrom; cbn [search]; [done|].
  replace (pos + String.length (String c s)) with (S pos + String.length s) in * by (cbn; lia).
  set (len := if Nat.leb from pos then _ else 0).
  assert (Hlen : len = 0 \/ from <= pos /\ len <= S (String.length s)).
  { unfold len. destruct (Nat.leb_spec from pos); [right|by left]. split; [done|].
    destruct (match_tokens _ _ _ _); [|lia]. apply Nat.le_min_r. }
  destruct len as [|n]; [by apply IH|]. destruct Hlen as [|[Hf Hn]]; [done|]. cbn [ordered_matches].
  repeat split; try lia. apply IH. lia.
Qed.

Lemma captures_bol ts s : captures_from false (Bol :: ts) s = None.
Proof. by induction s. Qed.

Lemma captures_start ts s :
  captures_from true (Bol :: ts) s = groups_of <$> match_tokens true ts start s.
Proof.
  destruct s as [|c s]; cbn -[match_tokens]; cbn [match_tokens];
    destruct (match_tokens true ts start _); try done. apply captures_bol.
Qed.

#[export] Instance laws : RegexLaws.
Proof.
  split.
  - vm_compute. by eexists.
  - intros r s. apply (search_ordered r s 0 0). lia.
  - intros lits last Hplain. exists (Bol :: template_tokens lits last). split; [|split].
    + change (regex_new ("^" ++ template lits last)) with (cons Bol <$> parse (template lits last)).
      by rewrite parse_template.
    + intros s groups Hg.
      change (captures_from true (Bol :: template_tokens lits last) s = Some groups) in Hg.
      rewrite captures_start in Hg. destruct (match_tokens _ _ _ _) as [st|] eqn:E; [|done].
      apply match_template_inv in E as (gs & Hlen & Hs & ->). injection Hg as <-. exists gs.
      split; [|by subst]. unfold groups_of. cbn. f_equal. apply (combine_groups gs 1 [(0, s)]).
      intros [|n] Hn; [lia|done].
    + intros gs Hlen Hgs.
      change (is_Some (captures_from true (Bol :: template_tokens lits last) (fill lits gs last))).
      rewrite captures_start.
      destruct (match_template_total lits last true 0 "" [] gs Hlen Hgs) as [st E].
      unfold start. rewrite E. by eexists.
Qed.
End MiniRegexLaws.

(** ** Tests and witness *)

Definition check_subst (outer1 outer2 inner1 : string) : option string :=
  s ← learn outer1 outer2; apply s inner1.

Example test1 : check_subst
    "ref$m_generics_basic_3$$Number$opensqu$0$closesqu$$_beg_$__TYPARAM__$Y$__$_end_"
    "ref$m_generics_basic_3$$Number$opensqu$0$closesqu$$_beg_$__TYPARAM__$Z$__$_end_"
    "m_generics_basic_3$$Number$opensqu$0$closesqu$$_beg_$__TYPARAM__$Y$__$_end_"
  = Some "m_generics_basic_3$$Number$opensqu$0$closesqu$$_beg_$__TYPARAM__$Z$__$_end_".
Proof. vm_compute. reflexivity. Qed.

Example test2 : check_subst
    "ref$m_generics_basic_7$$Number$opensqu$0$closesqu$$_beg_$__TYPARAM__$A$__$_sep_$__TYPARAM__$B$__$_end_"
    "ref$m_generics_basic_7$$Number$opensqu$0$closesqu$$_beg_$__TYPARAM__$B$__$_sep_$__TYPARAM__$A$__$_end_"
    "m_generics_basic_7$$Number$opensqu$0$closesqu$$_beg_$__TYPARAM__$A$__$_sep_$__TYPARAM__$B$__$_end_"
  = Some "m_generics_basic_7$$Number$opensqu$0$closesqu$$_beg_$__TYPARAM__$B$__$_sep_$__TYPARAM__$A$__$_end_".
Proof. vm_compute. reflexivity. Qed.

Example test5 : check_subst
    "ref$m_generics_basic_5$$Number$opensqu$0$closesqu$$_beg_$__TYPARAM__$A$__$_sep_$m_generics_basic_5$$Number$opensqu$0$closesqu$$_beg_$__TYPARAM__$B$__$_sep_$i32$_sep_$__TYPARAM__$C$__$_end_$_sep_$__TYPARAM__$D$__$_end_"
    "ref$m_generics_basic_5$$Number$opensqu$0$closesqu$$_beg_$m_generics_basic_5$$Number$opensqu$0$closesqu$$_beg_$i8$_sep_$i32$_sep_$u8$_end_$_sep_$m_generics_basic_5$$Number$opensqu$0$closesqu$$_beg_$i16$_sep_$i32$_sep_$i64$_end_$_sep_$m_generics_basic_5$$Number$opensqu$0$closesqu$$_beg_$isize$_sep_$i32$_sep_$usize$_end_$_end_"
    "m_generics_basic_5$$Number$opensqu$0$closesqu$$_beg_$__TYPARAM__$B$__$_sep_$i32$_sep_$__TYPARAM__$C$__$_end_"
  = Some "m_generics_basic_5$$Number$opensqu$0$closesqu$$_beg_$i16$_sep_$i32$_sep_$i64$_end_".
Proof. vm_compute. reflexivity. Qed.

Example test7 : check_subst
    "tuple2$__TYPARAM__$T$__$__TYPARAM__$T$__" "tuple2$__TYPARAM__$T$__$__TYPARAM__$T$__"
    "tuple2$__TYPARAM__$T$__$__TYPARAM__$T$__"
  = Some "tuple2$__TYPARAM__$T$__$__TYPARAM__$T$__".
Proof. vm_compute. reflexivity. Qed.

(** A type parameter that occurs twice. *)
Example learn_repeated_typaram :
  learn "tuple2$__TYPARAM__$T$__$__TYPARAM__$T$__" "tuple2$i32$i32" = None.
Proof. vm_compute. reflexivity. Qed.


Lemma learn_apply_roundtrip_witness :
  typarams "P$__TYPARAM__$A$__$__TYPARAM__$B$__" = Some ["__TYPARAM__$A$__"; "__TYPARAM__$B$__"]
  /\ exists s, learn "P$__TYPARAM__$A$__$__TYPARAM__$B$__" "P$i8$u64" = Some s
       /\ apply s "P$__TYPARAM__$A$__$__TYPARAM__$B$__" = Some "P$i8$u64".
Proof.
  split; [vm_compute; reflexivity|]. eexists. split; [vm_compute; reflexivity|].
  eapply (proj1 (learn_apply_roundtrip "P$__TYPARAM__$A$__$__TYPARAM__$B$__"
    ["__TYPARAM__$A$__"; "__TYPARAM__$B$__"] ltac:(vm_compute; reflexivity) ltac:(vm_compute; reflexivity)
    ltac:(apply (bool_decide_unpack _); vm_compute; exact I))).
  vm_compute. reflexivity.
Defined.
