(* ===== verification/ExprReplace.v ===== *)
(** * Replacing places in expressions

    [replace_place] and [replace_multiple_places] of
    [prusti-common/src/vir/ast/expr.rs] and [trigger.rs].  The crate [regex],
    which the substitution of type parameters uses, is the class
    [RegexCrate] of [Typaram]. *)

From Stdlib Require Import Lia.
From S2P Require Import Prelude Ast ExprEq ExprPlace ExprTransformers ExprOps Collections Typaram.

(** ** The program *)

Section Replace.
Context `{RegexCrate}.

(** The type parameters are learned when both places are references held by
    local variables. *)
Definition learn_typarams (target replacement : Expr) : option (option Substs) :=
  match target, replacement with
  | Expr.Local tv _, Expr.Local rv _ =>
      if Ty.is_ref (LocalVar.typ tv) && Ty.is_ref (LocalVar.typ rv) then
        t ← local_type target;
        r ← local_type replacement;
        Some <$> learn t r
      else Some None
  | _, _ => Some None
  end.

(** [Field::new(field.name, Type::TypedRef(ts.apply(&field.typ.name())))]. *)
Definition apply_to_field (ts : Substs) (field : Field) : option Field :=
  inner2 ← apply ts (Ty.name (Field.typ field));
  Some (Field.new (Field.name field) (Ty.TypedRef inner2)).

(** [PlaceReplacer] of [replace_place]; the state is the field [subst], and
    [in_trigger] replaces in the expressions of a trigger. *)
Definition place_replacer (target replacement : Expr) (typaram_substs : option Substs)
    (in_trigger : Expr -> option Expr) : ExprFolder bool Empty_set :=
  let quantifier (build : list LocalVar -> list Trigger -> Expr -> Expr) vars triggers body :=
    base ← lift (get_base target);
    if HashSet.contains vars base then mret (build vars triggers (orig body))
    else
      triggers ← lift (mapM_opt (fun t => Trigger.new <$> mapM_opt in_trigger (Trigger.elements t)) triggers);
      body ← go body;
      mret (build vars triggers body) in
  {| fold := fun e dflt =>
       if is_place e && (e == target) then _ ← put_st true; mret replacement
       else
         e' ← dflt;
         match e' with
         | Expr.Field expr field pos =>
             subst ← get_st;
             match typaram_substs with
             | Some ts =>
                 if subst && Ty.is_ref (Field.typ field) then
                   field ← lift (apply_to_field ts field);
                   mret (Expr.Field expr field pos)
                 else mret e'
             | None => mret e'
             end
         | x => _ ← put_st false; mret x
         end;
     fold_node := fun n =>
       match n with
       | Node.ForAll vars triggers body pos =>
           quantifier (fun v t b => Expr.ForAll v t b pos) vars triggers body
       | Node.Exists vars triggers body pos =>
           quantifier (fun v t b => Expr.Exists v t b pos) vars triggers body
       | _ => default_fold_node n
       end |}.

(** How deep triggers are nested in triggers. *)
Fixpoint trigger_depth (e : Expr) : nat :=
  let all := fun es => list_max (map trigger_depth es) in
  let triggers := fun ts => list_max (map (fun t => list_max (map trigger_depth (Trigger.elements t))) ts) in
  match e with
  | Expr.Local _ _ | Expr.Const _ _ => 0
  | Expr.Variant b _ _ | Expr.Field b _ _ | Expr.AddrOf b _ _ | Expr.LabelledOld _ b _
  | Expr.PredicateAccessPredicate _ b _ _ | Expr.FieldAccessPredicate b _ _
  | Expr.UnaryOp _ b _ | Expr.SnapApp b _ => trigger_depth b
  | Expr.MagicWand l r _ _ | Expr.BinOp _ l r _ | Expr.ContainerOp _ l r _
  | Expr.LetExpr _ l r _ | Expr.InhaleExhale l r _ | Expr.Downcast l r _ =>
      Nat.max (trigger_depth l) (trigger_depth r)
  | Expr.Seq _ es _ | Expr.FuncApp _ es _ _ _ | Expr.DomainFuncApp _ es _ => all es
  | Expr.Unfolding _ es b _ _ _ => Nat.max (all es) (trigger_depth b)
  | Expr.Cond g t f _ => Nat.max (trigger_depth g) (Nat.max (trigger_depth t) (trigger_depth f))
  | Expr.ForAll _ ts b _ | Expr.Exists _ ts b _ => Nat.max (S (triggers ts)) (trigger_depth b)
  end.

(** The fuel bounds the nesting of triggers. *)
Fixpoint replace_place_fuel (target replacement : Expr) (fuel : nat) (self : Expr) : option Expr :=
  match fuel with
  | 0 => None
  | S fuel' =>
      typaram_substs ← learn_typarams target replacement;
      fst <$> run_infallible
        (place_replacer target replacement typaram_substs (replace_place_fuel target replacement fuel'))
        self false
  end.

Definition replace_place (self target replacement : Expr) : option Expr :=
  replace_place_fuel target replacement (S (trigger_depth self)) self.

(** The first replacement whose source is [e]. *)
Definition find_replacement (replacements : list (Expr * Expr)) (e : Expr) : option Expr :=
  snd <$> List.find (fun r => fst r == e) replacements.

Fixpoint position_of (replacements : list (Expr * Expr)) (e : Expr) : option nat :=
  match replacements with
  | [] => None
  | r :: rest => if fst r == e then Some 0 else S <$> position_of rest e
  end.

(** [unimplemented!]: a replacement conflicts with a quantified variable. *)
Fixpoint check_replacements (vars : list LocalVar) (replacements : list (Expr * Expr)) : option unit :=
  match replacements with
  | [] => Some tt
  | (src, dst) :: rest =>
      src_base ← get_base src;
      _ ← assert_ (negb (HashSet.contains vars src_base));
      dst_base ← get_base dst;
      _ ← assert_ (negb (HashSet.contains vars dst_base));
      check_replacements vars rest
  end.

(** [PlaceReplacer] of [replace_multiple_places]. *)
Definition multiple_place_replacer (replacements : list (Expr * Expr))
    (typaram_substs : list (option Substs)) (in_trigger : Expr -> option Expr) :
    ExprFolder unit Empty_set :=
  let quantifier (build : list LocalVar -> list Trigger -> Expr -> Expr) vars triggers body :=
    _ ← lift (check_replacements vars replacements);
    triggers ← lift (mapM_opt (fun t => Trigger.new <$> mapM_opt in_trigger (Trigger.elements t)) triggers);
    body ← go body;
    mret (build vars triggers body) in
  {| fold := fun e dflt =>
       if is_place e then
         match find_replacement replacements e with
         | Some dst => mret dst
         | None => dflt
         end
       else dflt;
     fold_node := fun n =>
       match n with
       | Node.Field receiver field pos =>
           base_substitution ← lift
             (if Ty.is_ref (Field.typ field) && is_place (orig receiver) then
                base ← get_base (orig receiver);
                Some (position_of replacements (expr_of_var base))
              else Some None);
           new_receiver ← go receiver;
           new_field ←
             match base_substitution with
             | Some subst_index =>
                 substs ← lift (typaram_substs !! subst_index);
                 match substs with
                 | Some ts => lift (apply_to_field ts field)
                 | None => mret field
                 end
             | None => mret field
             end;
           mret (Expr.Field new_receiver new_field pos)
       | Node.ForAll vars triggers body pos =>
           quantifier (fun v t b => Expr.ForAll v t b pos) vars triggers body
       | Node.Exists vars triggers body pos =>
           quantifier (fun v t b => Expr.Exists v t b pos) vars triggers body
       | _ => default_fold_node n
       end |}.

Fixpoint replace_multiple_places_fuel (replacements : list (Expr * Expr)) (fuel : nat) (self : Expr) :
    option Expr :=
  match fuel with
  | 0 => None
  | S fuel' =>
      typaram_substs ← mapM_opt (fun r => learn_typarams (fst r) (snd r)) replacements;
      fst <$> run_infallible
        (multiple_place_replacer replacements typaram_substs
           (replace_multiple_places_fuel replacements fuel'))
        self tt
  end.

Definition replace_multiple_places (self : Expr) (replacements : list (Expr * Expr)) : option Expr :=
  replace_multiple_places_fuel replacements (S (trigger_depth self)) self.
End Replace.

(** ** Absent places *)

(** Does [target] occur in [e], in triggers too? *)
Fixpoint occurs (target e : Expr) : bool :=
  (e == target) ||
  match e with
  | Expr.Local _ _ | Expr.Const _ _ => false
  | Expr.Variant b _ _ | Expr.Field b _ _ | Expr.AddrOf b _ _ | Expr.LabelledOld _ b _
  | Expr.PredicateAccessPredicate _ b _ _ | Expr.FieldAccessPredicate b _ _
  | Expr.UnaryOp _ b _ | Expr.SnapApp b _ => occurs target b
  | Expr.MagicWand l r _ _ | Expr.BinOp _ l r _ | Expr.ContainerOp _ l r _
  | Expr.LetExpr _ l r _ | Expr.InhaleExhale l r _ | Expr.Downcast l r _ =>
      occurs target l || occurs target r
  | Expr.Seq _ es _ | Expr.FuncApp _ es _ _ _ | Expr.DomainFuncApp _ es _ => existsb (occurs target) es
  | Expr.Unfolding _ es b _ _ _ => existsb (occurs target) es || occurs target b
  | Expr.Cond g t f _ => occurs target g || (occurs target t || occurs target f)
  | Expr.ForAll _ ts b _ | Expr.Exists _ ts b _ =>
      existsb (fun t => existsb (occurs target) (Trigger.elements t)) ts || occurs target b
  end.

Definition in_triggers (e : Expr) : list Expr :=
  match e with
  | Expr.ForAll _ ts _ _ | Expr.Exists _ ts _ _ => concat (map Trigger.elements ts)
  | _ => []
  end.

Lemma existsb_false {A} (P : A -> bool) l : existsb P l = false <-> Forall (fun x => P x = false) l.
Proof.
  induction l as [|x l IH]; cbn; [by split|]. by rewrite orb_false_iff, Forall_cons, IH.
Qed.

Lemma occurs_false target e :
  occurs target e = false ->
  (e == target) = false /\ Forall (fun c => occurs target c = false) (children e)
  /\ Forall (fun c => occurs target c = false) (in_triggers e).
Proof.
  destruct e; cbn [occurs children in_triggers]; rewrite !orb_false_iff, ?existsb_false; intros H;
    destruct_and?; split_and!; rewrite ?Forall_app; repeat (constructor || assumption || done).
  all: apply Forall_concat, Forall_fmap; eapply Forall_impl; [eassumption|];
       intros t Ht; by apply existsb_false.
Qed.

Lemma list_max_Forall {A} (f : A -> nat) (l : list A) n :
  list_max (map f l) <= n -> Forall (fun x => f x <= n) l.
Proof. rewrite list_max_le. apply Forall_fmap. Qed.

Lemma trigger_depth_children e n :
  trigger_depth e <= n ->
  Forall (fun c => trigger_depth c <= n) (children e)
  /\ Forall (fun c => trigger_depth c < n) (in_triggers e).
Proof.
  destruct e; cbn [trigger_depth children in_triggers]; intros Hn; rewrite ?Forall_app;
    split_and!; repeat (constructor || lia || (apply list_max_Forall; lia)).
  all: apply Forall_concat, Forall_fmap; destruct n as [|n]; [lia|];
       match goal with Hm : S (list_max (map ?f ?ts)) `max` _ <= _ |- _ =>
         eapply Forall_impl; [apply (list_max_Forall f ts n); lia|] end; cbn; intros t Ht;
       eapply Forall_impl; [apply list_max_Forall; exact Ht|]; cbn; lia.
Qed.

Lemma mapM_triggers_id (f : Expr -> option Expr) ts :
  Forall (fun e => f e = Some e) (concat (map Trigger.elements ts)) ->
  mapM_opt (fun t => Trigger.new <$> mapM_opt f (Trigger.elements t)) ts = Some ts.
Proof.
  intros Hf. rewrite (mapM_opt_total _ id); [by rewrite map_id|].
  apply Forall_concat in Hf. rewrite Forall_map in Hf. eapply Forall_impl; [exact Hf|]. intros [es] Hes. cbn.
  rewrite (mapM_opt_total _ id) by done. by rewrite map_id.
Qed.

Section ReplaceFacts.
Context `{RegexLaws}.
Implicit Types (target replacement e : Expr).


Lemma replacer_absent target replacement ts in_trigger n e :
  is_Some (get_base target) ->
  (forall c, trigger_depth c < n -> occurs target c = false -> in_trigger c = Some c) ->
  trigger_depth e <= n -> occurs target e = false ->
  run_fold (place_replacer target replacement ts in_trigger) e false = Val (e, false).
Proof.
  intros [base Hbase] Htrig. induction e as [e IH] using children_ind. intros Hd Ho.
  destruct (occurs_false target e Ho) as (Hne & Hch & Htr).
  destruct (trigger_depth_children e n Hd) as [Hdc Hdt].
  assert (Hmap : Forall (fun c => in_trigger c = Some c) (in_triggers e)).
  { apply Forall_forall. intros c Hc. rewrite Forall_forall in Hdt, Htr. auto. }
  assert (Hc : Forall (fun c => run_fold (place_replacer target replacement ts in_trigger) c false
                                = Val (c, false)) (children e)).
  { apply Forall_forall. intros c Hc. rewrite Forall_forall in IH, Hdc, Hch. auto. }
  set (R := place_replacer target replacement ts in_trigger) in *.
  assert (Hdef : default_fold_node (Node.of_expr (fun c => Child c (run_fold R c)) e) false = Val (e, false)).
  { rewrite (default_fold_node_at _ (fun c => c)) by done. by rewrite map_children_id. }
  assert (Hnode : default_fold_expr R e false = Val (e, false)).
  { destruct e; try exact Hdef; unfold default_fold_expr, R; cbn; fold R; rewrite Hbase;
      unfold lift, mbind, ST_bind; cbn; (case_match; [done|]);
      cbn [in_triggers] in Hmap; rewrite mapM_triggers_id by done; cbn;
      apply Forall_inv in Hc; by rewrite Hc. }
  rewrite run_fold_unfold. unfold R at 1. cbn [fold place_replacer]. fold R.
  rewrite Hne, andb_false_r. unfold mbind, ST_bind. rewrite Hnode.
  destruct e; cbn; try done. by destruct ts.
Qed.

(** A place that does not occur is not replaced: the expression stays as it is, also where type
    parameters are substituted. *)
Theorem replace_absent_place self target replacement ts :
  learn_typarams target replacement = Some ts -> is_Some (get_base target) ->
  occurs target self = false -> replace_place self target replacement = Some self.
Proof.
  intros Hts Hbase. unfold replace_place.
  assert (Hd : trigger_depth self < S (trigger_depth self)) by lia. revert Hd.
  generalize (S (trigger_depth self)) as n. intros n. revert self.
  induction n as [|n IH]; intros self Hd Ho; [lia|]. cbn [replace_place_fuel]. rewrite Hts. cbn.
  rewrite (run_infallible_val _ _ _ (self, false)); [done|].
  apply (replacer_absent target replacement ts _ n); [done|exact IH|lia|done].
Qed.

(** ** Places below the target *)

(** [below a b e e']: [e'] has the projections below [b] that [e] has below [a].  Fields are
    compared with [==], which does not see the names of the types. *)
Inductive below (a b : Expr) : Expr -> Expr -> Prop :=
  | below_here e : (e == a) = true -> below a b e b
  | below_variant e e' f p : below a b e e' -> below a b (Expr.Variant e f p) (Expr.Variant e' f p)
  | below_field e e' f f' p : below a b e e' -> (f == f') = true ->
      below a b (Expr.Field e f p) (Expr.Field e' f' p)
  | below_addr_of e e' t p : below a b e e' -> below a b (Expr.AddrOf e t p) (Expr.AddrOf e' t p).

Lemma below_prefix a b e e' :
  comparable b = true -> below a b e e' ->
  has_prefix e a = Some true /\ has_prefix e' b = Some true
  /\ path_length e' + path_length a = path_length e + path_length b.
Proof.
  intros Hb. induction 1 as [e He|e e' f p _ IH|e e' f f' p _ IH Hf|e e' t p _ IH].
  - split; [rewrite has_prefix_eq, He; done|]. split; [by rewrite has_prefix_eq, expr_eqb_refl, Hb|].
    rewrite (path_length_eqb e a He). lia.
  - destruct IH as (H1 & H2 & H3). split_and!; [by eapply has_prefix_parent|by eapply has_prefix_parent|cbn; lia].
  - destruct IH as (H1 & H2 & H3). split_and!; [by eapply has_prefix_parent|by eapply has_prefix_parent|cbn; lia].
  - destruct IH as (H1 & H2 & H3). split_and!; [by eapply has_prefix_parent|by eapply has_prefix_parent|cbn; lia].
Qed.

Lemma below_length a b e e' : below a b e e' -> path_length a <= path_length e /\ path_length b <= path_length e'.
Proof.
  induction 1 as [e He|e e' f p _ IH|e e' f f' p _ IH Hf|e e' t p _ IH]; cbn; try lia.
  by rewrite (path_length_eqb e a He).
Qed.

Lemma below_inverse a b e e' e'' :
  comparable b = true -> below a b e e' -> below b a e' e'' -> (e'' == e) = true.
Proof.
  intros Hb H1. revert e''.
  induction H1 as [e He|e e' f p H1 IH|e e' f f' p H1 IH Hf|e e' t p H1 IH]; intros e'' H2; inversion H2; subst;
    try (by rewrite peq_sym);
    try (exfalso; match goal with H : below _ _ ?x _ |- _ => pose proof (below_length _ _ _ _ H) end;
         try match goal with E : (_ == _) = true |- _ => apply path_length_eqb in E end; cbn in *; lia).
  all: unfold peq, Expr_PartialEq; cbn [expr_eqb]; apply andb_true_iff; split; [by apply IH|].
  - apply peq_refl.
  - rewrite peq_sym. eapply peq_trans; eassumption.
  - apply peq_refl.
Qed.

Lemma apply_total self s : is_Some (apply self s).
Proof.
  destruct (scan_segments s (find_iter (regex self) s) 0 (find_iter_ordered _ s))
    as (lits & items & lastlit & stop & _ & _ & Hl & _ & _ & Happ).
  unfold apply. destruct (Happ self "") as (new' & -> & _). cbn. rewrite Hl. by eexists.
Qed.

Lemma apply_to_field_eq ts f :
  Ty.is_ref (Field.typ f) = true -> exists f', apply_to_field ts f = Some f' /\ (f == f') = true.
Proof.
  intros Hf. unfold apply_to_field. destruct (apply_total ts (Ty.name (Field.typ f))) as [n ->].
  eexists. split; [reflexivity|]. unfold peq, Field_PartialEq, Field.eqb. cbn.
  rewrite String.eqb_refl. by destruct (Field.typ f).
Qed.

Lemma replacer_below target replacement ts in_trigger e s :
  is_place e = true -> has_prefix e target = Some true ->
  exists e' s', run_fold (place_replacer target replacement ts in_trigger) e s = Val (e', s')
    /\ below target replacement e e'.
Proof.
  set (R := place_replacer target replacement ts in_trigger). revert s.
  induction e as [e IH] using parent_ind. intros s He [Heq|(p & Hp & Hpt)]%has_prefix_inv.
  - rewrite run_fold_unfold. unfold R at 1. cbn [fold place_replacer]. rewrite He, Heq. cbn.
    do 2 eexists. split; [reflexivity|]. by constructor.
  - destruct (e == target) eqn:Ee.
    { rewrite run_fold_unfold. unfold R at 1. cbn [fold place_replacer]. rewrite He, Ee. cbn.
      do 2 eexists. split; [reflexivity|]. by constructor. }
    destruct (place_parent e He) as [Hn|(p' & Hp' & Hpl)]; [congruence|].
    assert (p' = p) as -> by congruence.
    destruct (IH p Hp s Hpl Hpt) as (q & s' & Hq & Hb).
    rewrite run_fold_unfold. unfold R at 1. cbn [fold place_replacer]. rewrite Ee, andb_false_r.
    destruct e; cbn in Hp; try discriminate Hp; injection Hp as ->; unfold default_fold_expr;
      cbn [fold_node R place_replacer Node.of_expr default_fold_node go]; unfold mbind, ST_bind; rewrite Hq; cbn.
    + do 2 eexists. split; [reflexivity|]. by constructor.
    + destruct ts as [ts|]; [|do 2 eexists; split; [reflexivity|]; constructor; [done|apply peq_refl]].
      destruct s'; [|do 2 eexists; split; [reflexivity|]; constructor; [done|apply peq_refl]]. cbn.
      destruct (Ty.is_ref (Field.typ field)) eqn:Ef;
        [|do 2 eexists; split; [reflexivity|]; constructor; [done|apply peq_refl]].
      destruct (apply_to_field_eq ts field Ef) as (f' & -> & Hf). cbn.
      do 2 eexists. split; [reflexivity|]. by constructor.
    + do 2 eexists. split; [reflexivity|]. by constructor.
Qed.

Lemma replace_place_below self target replacement ts :
  learn_typarams target replacement = Some ts -> is_place self = true -> has_prefix self target = Some true ->
  exists self', replace_place self target replacement = Some self' /\ below target replacement self self'.
Proof.
  intros Hts Hp Ht. unfold replace_place. cbn [replace_place_fuel]. rewrite Hts. cbn.
  destruct (replacer_below target replacement ts (replace_place_fuel target replacement (trigger_depth self))
              self false Hp Ht) as (e' & s' & E & Hb).
  exists e'. rewrite (run_infallible_val _ _ _ _ E). done.
Qed.

Lemma below_is_place a b e e' : is_place b = true -> below a b e e' -> is_place e' = true.
Proof. intros Hb. by induction 1. Qed.

(** A place below [target] becomes the place with the same projections below [replacement], and
    replacing back gives a place that is equal to the first one. *)
Theorem replace_place_roundtrip self target replacement ts ts' :
  learn_typarams target replacement = Some ts -> learn_typarams replacement target = Some ts' ->
  comparable replacement = true -> is_place replacement = true ->
  is_place self = true -> has_prefix self target = Some true ->
  exists self' self'', replace_place self target replacement = Some self'
    /\ below target replacement self self' /\ has_prefix self' replacement = Some true
    /\ replace_place self' replacement target = Some self'' /\ (self'' == self) = true.
Proof.
  intros Hts Hts' Hc Hr Hp Ht.
  destruct (replace_place_below self target replacement ts Hts Hp Ht) as (r1 & E1 & Hb1).
  destruct (below_prefix target replacement self r1 Hc Hb1) as (_ & Hp1 & _).
  pose proof (below_is_place target replacement self r1 Hr Hb1) as Hpl.
  destruct (replace_place_below r1 replacement target ts' Hts' Hpl Hp1) as (r2 & E2 & Hb2).
  exists r1, r2. split_and!; try done. by apply (below_inverse target replacement self r1).
Qed.
End ReplaceFacts.

(** ** Witnesses *)

Import MiniRegex.

Definition local_self : Expr := Expr.Local (LocalVar.new "self" (Ty.TypedRef "Pair")) Position.default.
Definition self_f : Expr := Expr.Field local_self (Field.new "f" (Ty.TypedRef "i32")) Position.default.
Definition x_g : Expr :=
  Expr.Field (Expr.Local (LocalVar.new "x" (Ty.TypedRef "Box$Pair")) Position.default)
    (Field.new "g" (Ty.TypedRef "Pair")) Position.default.

(** The permission to [self.f] of a predicate, instantiated at [x.g]. *)
Lemma replace_place_roundtrip_witness :
  replace_place self_f local_self x_g
    = Some (Expr.Field x_g (Field.new "f" (Ty.TypedRef "i32")) Position.default)
  /\ exists self' self'', replace_place self_f local_self x_g = Some self'
       /\ replace_place self' x_g local_self = Some self'' /\ (self'' == self_f) = true.
Proof.
  split; [vm_compute; reflexivity|].
  destruct (replace_place_roundtrip self_f local_self x_g None None) as (a & b & E1 & _ & _ & E2 & E3);
    [reflexivity|reflexivity|reflexivity|reflexivity|reflexivity|reflexivity|].
  exists a, b. split; [exact E1|]. split; [exact E2|exact E3].
Defined.

Lemma replace_absent_place_witness :
  occurs x_g self_f = false /\ replace_place self_f x_g local_self = Some self_f.
Proof.
  split; [vm_compute; reflexivity|].
  apply (replace_absent_place self_f x_g local_self None); [vm_compute; reflexivity|eexists; vm_compute; reflexivity|vm_compute; reflexivity].
Defined.

(** The fields of a generic type are instantiated along with the place. *)
Example replace_generic_field :
  replace_place
    (Expr.Field (Expr.Local (LocalVar.new "self" (Ty.TypedRef "Pair$__TYPARAM__$T$__$i32")) Position.default)
       (Field.new "f" (Ty.TypedRef "__TYPARAM__$T$__")) Position.default)
    (Expr.Local (LocalVar.new "self" (Ty.TypedRef "Pair$__TYPARAM__$T$__$i32")) Position.default)
    (Expr.Local (LocalVar.new "x" (Ty.TypedRef "Pair$u8$i32")) Position.default)
  = Some (Expr.Field (Expr.Local (LocalVar.new "x" (Ty.TypedRef "Pair$u8$i32")) Position.default)
       (Field.new "f" (Ty.TypedRef "u8")) Position.default).
Proof. vm_compute. reflexivity. Qed.
