(* ===== verification/Items.v ===== *)
(** * Functions, domains, predicates and bodyless methods

    [prusti-common/src/vir/ast/function.rs], [domain.rs], [predicate.rs] and
    [bodyless_method.rs]: the items of a Viper program other than its
    methods, with the operations that build and identify them. *)

From S2P Require Import Prelude Ast ExprEq ExprPlace ExprTransformers ExprOps Collections.

(** ** Functions *)

Module Function.
Record Function : Type := new {
  name : string;
  formal_args : list LocalVar;
  return_type : Ty;
  pres : list Expr;
  posts : list Expr;
  body : option Expr
}.

(** [compute_identifier]: the name with the signature. *)
Fixpoint type_name (typ : Ty) : string :=
  match typ with
  | Ty.Int => "$int$"
  | Ty.Bool => "$bool$"
  | Ty.TypedRef name => name
  | Ty.Domain name => name
  | Ty.Snapshot name => "Snap$" ++ name
  | Ty.Seq elem_ty => "Seq$" ++ type_name elem_ty
  end.

Definition compute_identifier (name : string) (formal_args : list LocalVar) (return_type : Ty) :
    string :=
  foldl (fun identifier arg => identifier ++ type_name (LocalVar.typ arg) ++ "$")
    (name ++ "__$TY$__") formal_args
  ++ type_name return_type.

Definition get_identifier (self : Function) : string :=
  compute_identifier (name self) (formal_args self) (return_type self).

Definition apply (self : Function) (args : list Expr) : Expr :=
  Expr.FuncApp (name self) args (formal_args self) (return_type self) Position.default.

(** [zip(..).collect::<HashMap<_, _>>()]. *)
Definition inline_subst (self : Function) (args : list Expr) : HashMap.t LocalVar Expr :=
  HashMap.from_list (combine (formal_args self) args).

(** Panics on a function without a body and on a local variable that is no
    formal argument. *)
Definition inline_body (self : Function) (args : list Expr) : option Expr :=
  let subst := inline_subst self args in
  body ← body self;
  fold_expr (fun orig_expr =>
    match orig_expr with
    | Expr.Local local _ => HashMap.get subst local
    | _ => Some orig_expr
    end) body.
End Function.
Abbreviation Function := Function.Function.

(** ** Domains *)

Module Domain.
Record DomainAxiom : Type := new_axiom {
  axiom_name : string;
  expr : Expr;
  axiom_domain_name : string
}.

Record Domain : Type := new {
  name : string;
  functions : list DomainFunc;
  axioms : list DomainAxiom;
  type_vars : list Ty
}.

Definition get_identifier (self : Domain) : string := name self.

Definition func_apply (self : DomainFunc) (args : list Expr) : Expr :=
  Expr.DomainFuncApp self args Position.default.

Definition func_get_identifier (self : DomainFunc) : string :=
  Function.compute_identifier (DomainFunc.name self) (DomainFunc.formal_args self)
    (DomainFunc.return_type self).
End Domain.
Abbreviation Domain := Domain.Domain.

(** ** Bodyless methods *)

Module BodylessMethod.
Record BodylessMethod : Type := new {
  name : string;
  formal_args : list LocalVar;
  formal_returns : list LocalVar
}.

Definition get_identifier (self : BodylessMethod) : string := name self.
End BodylessMethod.
Abbreviation BodylessMethod := BodylessMethod.BodylessMethod.

(** ** Predicates *)

Module StructPredicate.
Record StructPredicate : Type := make {
  name : string;
  this : LocalVar;
  body : option Expr
}.
End StructPredicate.
Abbreviation StructPredicate := StructPredicate.StructPredicate.

Module EnumPredicate.
Record EnumPredicate : Type := make {
  name : string;
  this : LocalVar;
  discriminant_field : Field;
  discriminant_bounds : Expr;
  variants : list (Expr * string * StructPredicate)
}.
End EnumPredicate.
Abbreviation EnumPredicate := EnumPredicate.EnumPredicate.

Module Predicate.
Inductive Predicate : Type :=
  | Struct (p : StructPredicate)
  | Enum (p : EnumPredicate)
  | Bodyless (name : string) (this : LocalVar).

Definition construct_this (typ : Ty) : LocalVar := LocalVar.new "self" typ.

Definition new_abstract (typ : Ty) : Predicate :=
  Struct (StructPredicate.make (Ty.name typ) (construct_this typ) None).

Definition is_abstract (self : Predicate) : bool :=
  match self with
  | Struct (StructPredicate.make _ _ None) => true
  | _ => false
  end.

Definition new_primitive_value (typ : Ty) (field : Field) (bounds : option (Expr * Expr))
    (is_unsigned : bool) : Predicate :=
  let this := construct_this typ in
  let val_field := field_place (expr_of_var this) field in
  let perm := Ex.acc_permission val_field PermAmount.Write in
  let conjuncts :=
    match bounds with
    | Some (lower, upper) => [perm; Ex.le_cmp lower val_field; Ex.le_cmp val_field upper]
    | None => if is_unsigned then [perm; Ex.le_cmp (expr_of_i32 0) val_field] else [perm]
    end in
  Struct (StructPredicate.make (Ty.name typ) this (Some (conjoin conjuncts))).

(** [StructPredicate::new]: panics on a field that is not a reference. *)
Definition struct_field_perms (this : LocalVar) (field : Field) : option (list Expr) :=
  predicate_name ← Field.typed_ref_name field;
  let location := field_place (expr_of_var this) field in
  Some [Ex.acc_permission location PermAmount.Write;
        Ex.predicate_access_predicate predicate_name location PermAmount.Write].

Definition struct_new (typ : Ty) (fields : list Field) : option StructPredicate :=
  let this := construct_this typ in
  parts ← mapM_opt (struct_field_perms this) fields;
  Some (StructPredicate.make (Ty.name typ) this (Some (conjoin (concat parts)))).

Definition new_struct (typ : Ty) (fields : list Field) : option Predicate :=
  Struct <$> struct_new typ fields.

Definition new_enum (this : LocalVar) (discriminant_field : Field) (discriminant_bounds : Expr)
    (variants : list (Expr * string * StructPredicate)) : Predicate :=
  Enum (EnumPredicate.make (Ty.name (LocalVar.typ this)) this discriminant_field
    discriminant_bounds variants).

Definition self_place (self : Predicate) : Expr :=
  match self with
  | Struct p => expr_of_var (StructPredicate.this p)
  | Enum p => expr_of_var (EnumPredicate.this p)
  | Bodyless _ this => expr_of_var this
  end.

Definition name (self : Predicate) : string :=
  match self with
  | Struct p => StructPredicate.name p
  | Enum p => EnumPredicate.name p
  | Bodyless name _ => name
  end.

Definition get_identifier (self : Predicate) : string :=
  match self with
  | Struct p => StructPredicate.name p
  | Enum p => EnumPredicate.name p
  | Bodyless name _ => name
  end.

(** [StructPredicate::construct_access] and [has_empty_body]. *)
Definition construct_access (self : StructPredicate) (this : Expr) (perm_amount : PermAmount) :
    Expr :=
  Expr.PredicateAccessPredicate (StructPredicate.name self) this perm_amount Position.default.

Definition has_empty_body (self : StructPredicate) : bool :=
  match StructPredicate.body self with
  | Some (Expr.Const (Const.Bool true) _) => true
  | _ => false
  end.

(** [EnumPredicate::body]. *)
Definition variant_part (this : LocalVar) (v : Expr * string * StructPredicate) : list Expr :=
  let '(guard, name, variant) := v in
  if has_empty_body variant then []
  else
    let field := Field.new ("enum_" ++ name) (LocalVar.typ (StructPredicate.this variant)) in
    let location := field_place (expr_of_var this) field in
    let field_perm := Ex.acc_permission location PermAmount.Write in
    let pred_perm := construct_access variant location PermAmount.Write in
    [Ex.and field_perm (Ex.implies guard pred_perm)].

Definition enum_body (self : EnumPredicate) : Expr :=
  let discriminant_loc :=
    field_place (expr_of_var (EnumPredicate.this self)) (EnumPredicate.discriminant_field self) in
  let discriminant_perm := Ex.acc_permission discriminant_loc PermAmount.Write in
  conjoin (discriminant_perm :: EnumPredicate.discriminant_bounds self
           :: concat (map (variant_part (EnumPredicate.this self)) (EnumPredicate.variants self))).
End Predicate.
Abbreviation Predicate := Predicate.Predicate.
