(* ===== verification/Semantics.v ===== *)
(** * Reference semantics of pure expressions

    The value that Viper gives to a heap-dependent but side-effect free
    expression, after the translation of [prusti-common/src/vir/to_viper.rs]
    ([Variant] and [Field] are field accesses, [Downcast] and [Unfolding]
    are their bodies, [FnPtr] is null, a function is called by the identifier
    of its signature).  The optimisations of expressions are proved against
    it.

    Evaluation is partial: [None] stands for a term Viper would reject as
    ill-formed in the state (a missing field, an index out of range, an
    ill-sorted operand); [And], [Or], [Implies] and [Cond] evaluate their
    right operands only when the left one requires it, as Viper's
    well-definedness conditions do.  Accessibility predicates, magic wands
    and inhale-exhale assertions are no values.  What only Viper or the
    verified program defines is a parameter: integer division and modulo,
    uninterpreted functions, the parsing of big integers, and the meaning of
    quantifiers. *)

From Stdlib Require Import Lia ZArith.
From S2P Require Import Prelude Ast ExprEq ExprPlace ExprTransformers ExprOps Items.

(** ** Values *)

Inductive Value : Type :=
  | VInt (z : Z)
  | VBool (b : bool)
  | VRef (r : nat)
  | VSeq (vs : list Value)
  | VDom (name : string) (n : nat).

Fixpoint value_eqb (a b : Value) {struct a} : bool :=
  match a, b with
  | VInt x, VInt y => Z.eqb x y
  | VBool x, VBool y => Bool.eqb x y
  | VRef x, VRef y => Nat.eqb x y
  | VSeq xs, VSeq ys => list_eqb value_eqb xs ys
  | VDom s x, VDom t y => String.eqb s t && Nat.eqb x y
  | _, _ => false
  end.

(** Sorts: types up to the equality of the program. *)
Inductive sort : Type := SInt | SBool | SRef | SSeq | SDom.

Definition sort_eqb (a b : sort) : bool :=
  match a, b with
  | SInt, SInt | SBool, SBool | SRef, SRef | SSeq, SSeq | SDom, SDom => true
  | _, _ => false
  end.
#[export] Instance sort_PartialEq : PartialEq sort := sort_eqb.
#[export] Instance sort_peq_eq : PartialEqLeibniz sort.
Proof. intros [] []; split; done. Qed.

Definition sort_of_ty (t : Ty) : sort :=
  match t with
  | Ty.Int => SInt
  | Ty.Bool => SBool
  | Ty.Seq _ => SSeq
  | Ty.TypedRef _ => SRef
  | Ty.Domain _ | Ty.Snapshot _ => SDom
  end.

Definition sort_of_value (v : Value) : sort :=
  match v with
  | VInt _ => SInt
  | VBool _ => SBool
  | VRef _ => SRef
  | VSeq _ => SSeq
  | VDom _ _ => SDom
  end.

(** A value of the declared sort, or nothing. *)
Definition checked (s : sort) (o : option Value) : option Value :=
  v ← o; if sort_of_value v == s then Some v else None.

(** ** States *)

Definition Heap : Type := nat -> string -> option Value.

Record State : Type := {
  store : string -> option Value;
  heap : Heap;
  old_heaps : string -> option Heap
}.

Definition with_store (st : State) (f : string -> option Value) : State :=
  {| store := f; heap := heap st; old_heaps := old_heaps st |}.

Definition with_heap (st : State) (h : Heap) : State :=
  {| store := store st; heap := h; old_heaps := old_heaps st |}.

Definition bind_var (f : string -> option Value) (x : string) (v : Value) :
    string -> option Value :=
  fun y => if String.eqb y x then Some v else f y.

Definition bind_vars (f : string -> option Value) (vars : list LocalVar) (vs : list Value) :
    string -> option Value :=
  foldl (fun f kv => bind_var f (LocalVar.name (fst kv)) (snd kv)) f (combine vars vs).

(** What the Viper program and its verifier define. *)
Class Interp : Type := {
  idiv : Z -> Z -> Z;
  imod : Z -> Z -> Z;
  big_int : string -> option Z;
  func : string -> list Value -> Heap -> option Value;
  domain_func : string -> list Value -> option Value;
  (** [quantifier universal vars f]: [f] is the body as a function of the
      values of [vars]. *)
  quantifier : bool -> list LocalVar -> (list Value -> option Value) -> option Value
}.

(** Viper's integers are SMT-LIB's: division is Euclidean.  A quantifier
    whose body is defined in more cases has no other value. *)
Class InterpLaws `{Interp} : Prop := {
  imod_range : forall a b, b <> 0%Z -> (0 <= imod a b < Z.abs b)%Z;
  imod_congruent : forall a b, b <> 0%Z -> (b | a - imod a b)%Z;
  quantifier_mono : forall u vars f g v,
    (forall vs w, f vs = Some w -> g vs = Some w) ->
    quantifier u vars f = Some v -> quantifier u vars g = Some v
}.

(** ** Evaluation *)

Section Eval.
Context `{Interp}.

Definition eval_cmp (op : BinOpKind) (x y : Z) : option Value :=
  match op with
  | BinOpKind.GtCmp => Some (VBool (y <? x)%Z)
  | BinOpKind.GeCmp => Some (VBool (y <=? x)%Z)
  | BinOpKind.LtCmp => Some (VBool (x <? y)%Z)
  | BinOpKind.LeCmp => Some (VBool (x <=? y)%Z)
  | BinOpKind.Add => Some (VInt (x + y))
  | BinOpKind.Sub => Some (VInt (x - y))
  | BinOpKind.Mul => Some (VInt (x * y))
  | BinOpKind.Div => if (y =? 0)%Z then None else Some (VInt (idiv x y))
  | BinOpKind.Mod => if (y =? 0)%Z then None else Some (VInt (imod x y))
  | _ => None
  end.

Definition eval_binop (op : BinOpKind) (l r : option Value) : option Value :=
  a ← l;
  match op, a with
  | BinOpKind.And, VBool false => Some (VBool false)
  | BinOpKind.And, VBool true => checked SBool r
  | BinOpKind.Or, VBool true => Some (VBool true)
  | BinOpKind.Or, VBool false => checked SBool r
  | BinOpKind.Implies, VBool false => Some (VBool true)
  | BinOpKind.Implies, VBool true => checked SBool r
  | BinOpKind.EqCmp, _ => b ← r; Some (VBool (value_eqb a b))
  | BinOpKind.NeCmp, _ => b ← r; Some (VBool (negb (value_eqb a b)))
  | _, VInt x => b ← r; match b with VInt y => eval_cmp op x y | _ => None end
  | _, _ => None
  end.

Definition eval_container (op : ContainerOpKind) (l r : option Value) : option Value :=
  a ← l;
  match op, a with
  | ContainerOpKind.SeqIndex, VSeq xs =>
      b ← r; match b with
             | VInt i => if (0 <=? i)%Z then nth_error xs (Z.to_nat i) else None
             | _ => None
             end
  | ContainerOpKind.SeqConcat, VSeq xs =>
      b ← r; match b with VSeq ys => Some (VSeq (xs ++ ys)%list) | _ => None end
  | ContainerOpKind.SeqLen, VSeq xs => Some (VInt (Z.of_nat (length xs)))
  | _, _ => None
  end.

Definition eval_field (st : State) (f : Field) (base : option Value) : option Value :=
  b ← base;
  match b with
  | VRef r => checked (sort_of_ty (Field.typ f)) (heap st r (Field.name f))
  | _ => None
  end.

Definition eval_const (c : Const) : option Value :=
  match c with
  | Const.Bool b => Some (VBool b)
  | Const.Int i => Some (VInt i)
  | Const.BigInt s => VInt <$> big_int s
  | Const.FnPtr => Some (VRef 0)
  end.

Fixpoint eval (e : Expr) (st : State) {struct e} : option Value :=
  match e with
  | Expr.Local v _ => checked (sort_of_ty (LocalVar.typ v)) (store st (LocalVar.name v))
  | Expr.Variant base f _ | Expr.Field base f _ => eval_field st f (eval base st)
  | Expr.AddrOf _ _ _ => None
  | Expr.LabelledOld label body _ =>
      h ← old_heaps st label; eval body (with_heap st h)
  | Expr.Const c _ => eval_const c
  | Expr.MagicWand _ _ _ _ | Expr.PredicateAccessPredicate _ _ _ _
  | Expr.FieldAccessPredicate _ _ _ | Expr.InhaleExhale _ _ _ => None
  | Expr.UnaryOp UnaryOpKind.Not arg _ =>
      a ← eval arg st; match a with VBool b => Some (VBool (negb b)) | _ => None end
  | Expr.UnaryOp UnaryOpKind.Minus arg _ =>
      a ← eval arg st; match a with VInt z => Some (VInt (- z)) | _ => None end
  | Expr.BinOp op l r _ => eval_binop op (eval l st) (eval r st)
  | Expr.ContainerOp op l r _ => eval_container op (eval l st) (eval r st)
  | Expr.Seq _ elems _ => VSeq <$> mapM_opt (fun e => eval e st) elems
  | Expr.Unfolding _ _ body _ _ _ => eval body st
  | Expr.Cond guard t f _ =>
      g ← eval guard st;
      match g with VBool true => eval t st | VBool false => eval f st | _ => None end
  | Expr.ForAll vars _ body _ =>
      checked SBool (quantifier true vars (fun vs =>
        eval body (with_store st (bind_vars (store st) vars vs))))
  | Expr.Exists vars _ body _ =>
      checked SBool (quantifier false vars (fun vs =>
        eval body (with_store st (bind_vars (store st) vars vs))))
  | Expr.LetExpr v def body _ =>
      x ← eval def st;
      eval body (with_store st (bind_var (store st) (LocalVar.name v) x))
  | Expr.FuncApp name args formal_args return_type _ =>
      vs ← mapM_opt (fun e => eval e st) args;
      checked (sort_of_ty return_type)
        (func (Function.compute_identifier name formal_args return_type) vs (heap st))
  | Expr.DomainFuncApp f args _ =>
      vs ← mapM_opt (fun e => eval e st) args;
      checked (sort_of_ty (DomainFunc.return_type f)) (domain_func (Domain.func_get_identifier f) vs)
  | Expr.Downcast base _ _ => eval base st
  | Expr.SnapApp _ _ => None
  end.

(** ** Sorts of expressions

    The sort of a well-sorted expression; the premises the two branches of a
    conditional and the operands of an operator have to meet. *)
Fixpoint sort_of (e : Expr) : option sort :=
  match e with
  | Expr.Local v _ => Some (sort_of_ty (LocalVar.typ v))
  | Expr.Variant base f _ | Expr.Field base f _ =>
      b ← sort_of base; _ ← assert_ (b == SRef); Some (sort_of_ty (Field.typ f))
  | Expr.AddrOf base t _ => _ ← sort_of base; Some (sort_of_ty t)
  | Expr.LabelledOld _ body _ => sort_of body
  | Expr.Const c _ =>
      Some match c with
           | Const.Bool _ => SBool
           | Const.Int _ | Const.BigInt _ => SInt
           | Const.FnPtr => SRef
           end
  | Expr.MagicWand l r _ _ | Expr.InhaleExhale l r _ =>
      a ← sort_of l; b ← sort_of r; _ ← assert_ ((a == SBool) && (b == SBool)); Some SBool
  | Expr.PredicateAccessPredicate _ arg _ _ | Expr.FieldAccessPredicate arg _ _ =>
      _ ← sort_of arg; Some SBool
  | Expr.UnaryOp UnaryOpKind.Not arg _ =>
      a ← sort_of arg; _ ← assert_ (a == SBool); Some SBool
  | Expr.UnaryOp UnaryOpKind.Minus arg _ =>
      a ← sort_of arg; _ ← assert_ (a == SInt); Some SInt
  | Expr.BinOp op l r _ =>
      a ← sort_of l; b ← sort_of r;
      match op with
      | BinOpKind.EqCmp | BinOpKind.NeCmp => _ ← assert_ (a == b); Some SBool
      | BinOpKind.And | BinOpKind.Or | BinOpKind.Implies =>
          _ ← assert_ ((a == SBool) && (b == SBool)); Some SBool
      | BinOpKind.GtCmp | BinOpKind.GeCmp | BinOpKind.LtCmp | BinOpKind.LeCmp =>
          _ ← assert_ ((a == SInt) && (b == SInt)); Some SBool
      | _ => _ ← assert_ ((a == SInt) && (b == SInt)); Some SInt
      end
  | Expr.ContainerOp op l r _ =>
      a ← sort_of l; b ← sort_of r;
      match op with
      | ContainerOpKind.SeqLen => _ ← assert_ (a == SSeq); Some SInt
      | ContainerOpKind.SeqConcat => _ ← assert_ ((a == SSeq) && (b == SSeq)); Some SSeq
      | ContainerOpKind.SeqIndex => None
      end
  | Expr.Seq _ elems _ => _ ← mapM_opt sort_of elems; Some SSeq
  | Expr.Unfolding _ args body _ _ _ => _ ← mapM_opt sort_of args; sort_of body
  | Expr.Cond guard t f _ =>
      g ← sort_of guard; a ← sort_of t; b ← sort_of f;
      _ ← assert_ ((g == SBool) && (a == b)); Some a
  | Expr.ForAll _ _ body _ | Expr.Exists _ _ body _ =>
      b ← sort_of body; _ ← assert_ (b == SBool); Some SBool
  | Expr.LetExpr v def body _ =>
      d ← sort_of def; _ ← assert_ (d == sort_of_ty (LocalVar.typ v)); sort_of body
  | Expr.FuncApp _ args _ t _ => _ ← mapM_opt sort_of args; Some (sort_of_ty t)
  | Expr.DomainFuncApp f args _ =>
      _ ← mapM_opt sort_of args; Some (sort_of_ty (DomainFunc.return_type f))
  | Expr.Downcast base enum_place _ => _ ← sort_of enum_place; sort_of base
  | Expr.SnapApp _ _ => None
  end.

(** ** Improvements

    [improves e e']: on well-sorted expressions, [e'] has the sort of [e] and
    the value of [e] wherever [e] has one. *)

Definition refines (e e' : Expr) : Prop := forall st, ole (eval e st) (eval e' st).

Definition improves (e e' : Expr) : Prop :=
  forall k, sort_of e = Some k -> sort_of e' = Some k /\ refines e e'.

Lemma improves_refl e : improves e e.
Proof. intros k Hk. split; [done|]. intros st. apply ole_refl. Qed.

Lemma improves_trans e1 e2 e3 : improves e1 e2 -> improves e2 e3 -> improves e1 e3.
Proof.
  intros H1 H2 k Hk. destruct (H1 k Hk) as [Hk2 R1]. destruct (H2 k Hk2) as [Hk3 R2].
  split; [done|]. intros st. eapply ole_trans; [apply R1|apply R2].
Qed.

Lemma mapM_opt_Forall {A B} (f : A -> option B) l ys :
  mapM_opt f l = Some ys -> Forall (fun x => is_Some (f x)) l.
Proof.
  revert ys. induction l as [|x l IH]; intros ys Hl; simpl in Hl; [done|].
  inv_option. constructor; [|by eapply IH]. eauto.
Qed.

Lemma sort_of_children e k :
  sort_of e = Some k -> Forall (fun c => is_Some (sort_of c)) (children e).
Proof.
  destruct e; intros Hk; cbn [sort_of children] in *; rewrite ?Forall_app, ?Forall_cons;
    repeat match goal with x : UnaryOpKind |- _ => destruct x end; inv_option;
    repeat split; first [apply Forall_nil; exact I | by eapply mapM_opt_Forall | by eexists].
Qed.

Lemma ole_checked s o o' : ole o o' -> ole (checked s o) (checked s o').
Proof. unfold checked. intros. ole_solve. Qed.

Lemma ole_eval_field st f o o' : ole o o' -> ole (eval_field st f o) (eval_field st f o').
Proof. unfold eval_field. intros. ole_solve. Qed.

Lemma ole_eval_binop op l l' r r' :
  ole l l' -> ole r r' -> ole (eval_binop op l r) (eval_binop op l' r').
Proof.
  intros Hl Hr. apply ole_bind; [done|]. intros a.
  destruct op, a; repeat (apply ole_checked || ole_step).
Qed.

Lemma ole_eval_container op l l' r r' :
  ole l l' -> ole r r' -> ole (eval_container op l r) (eval_container op l' r').
Proof.
  intros Hl Hr. apply ole_bind; [done|]. intros a. destruct op, a; ole_solve.
Qed.
End Eval.


Section Congruence.
Context `{InterpLaws}.

Lemma ole_sort_of_map_children f e :
  Forall (fun c => ole (sort_of c) (sort_of (f c))) (children e) ->
  ole (sort_of e) (sort_of (map_children f e)).
Proof.
  destruct e; cbn; rewrite ?Forall_app, ?Forall_cons; intros Hc; destruct_and?;
    repeat ole_step.
Qed.

Lemma ole_quantifier u vars f g :
  (forall vs, ole (f vs) (g vs)) -> ole (quantifier u vars f) (quantifier u vars g).
Proof. intros Hfg v. apply quantifier_mono. intros vs w. apply Hfg. Qed.

Lemma refines_map_children f e :
  Forall (fun c => refines c (f c)) (children e) -> refines e (map_children f e).
Proof.
  assert (Hl : forall st es, Forall (fun c => refines c (f c)) es ->
    Forall (fun c => ole (eval c st) (eval (f c) st)) es).
  { intros st es Hes. eapply Forall_impl; [exact Hes|]. intros c Hc. apply Hc. }
  destruct e; cbn; rewrite ?Forall_app, ?Forall_cons; intros Hc st; cbn; destruct_and?;
    repeat (apply ole_checked || apply ole_eval_field || apply ole_eval_binop
      || apply ole_eval_container || (apply ole_quantifier; intros ?) || ole_step).
Qed.

(** Improving the sub-expressions improves the expression. *)
Lemma improves_map_children f e :
  Forall (fun c => improves c (f c)) (children e) -> improves e (map_children f e).
Proof.
  intros Hf k Hk. pose proof (sort_of_children e k Hk) as Hs.
  assert (Hc : Forall (fun c => ole (sort_of c) (sort_of (f c)) /\ refines c (f c)) (children e)).
  { apply Forall_forall. intros c Hin. rewrite !Forall_forall in *.
    destruct (Hs c Hin) as [s Hcs]. destruct (Hf c Hin s Hcs) as [Hcs' Hr].
    split; [|done]. intros s' E. congruence. }
  split.
  - apply (ole_sort_of_map_children f e); [|done].
    eapply Forall_impl; [exact Hc|]. by intros c [].
  - apply refines_map_children. eapply Forall_impl; [exact Hc|]. by intros c [].
Qed.

(** *** Evaluation respects sorts *)

Lemma checked_sort s o v : checked s o = Some v -> sort_of_value v = s.
Proof.
  unfold checked. intros Hv. inv_option. destruct (sort_of_value x == s) eqn:E; [|done].
  injection Hv as <-. by apply peq_eq.
Qed.

Lemma eval_field_sort st f o v : eval_field st f o = Some v -> sort_of_value v = sort_of_ty (Field.typ f).
Proof.
  unfold eval_field. intros Hv. inv_option. destruct x; try done. by eapply checked_sort.
Qed.

Lemma eval_binop_sort op l r v a b k :
  eval_binop op l r = Some v ->
  (match op with
   | BinOpKind.EqCmp | BinOpKind.NeCmp => _ ← assert_ (a == b); Some SBool
   | BinOpKind.And | BinOpKind.Or | BinOpKind.Implies =>
       _ ← assert_ ((a == SBool) && (b == SBool)); Some SBool
   | BinOpKind.GtCmp | BinOpKind.GeCmp | BinOpKind.LtCmp | BinOpKind.LeCmp =>
       _ ← assert_ ((a == SInt) && (b == SInt)); Some SBool
   | _ => _ ← assert_ ((a == SInt) && (b == SInt)); Some SInt
   end) = Some k ->
  sort_of_value v = k.
Proof.
  unfold eval_binop. intros Hv Hk. inv_option.
  destruct op; inv_option; subst; destruct x; try done; inv_option;
    repeat (case_match; try done); inv_option; subst; eauto using checked_sort;
    cbn in *; repeat case_match; inv_option; by subst.
Qed.

Lemma sort_sound e : forall k st v,
  sort_of e = Some k -> eval e st = Some v -> sort_of_value v = k.
Proof.
  induction e as [e IH] using children_ind. intros k st v Hk Hv.
  destruct e; cbn [sort_of eval children] in *;
    repeat match goal with
    | H : Forall _ (_ :: _) |- _ => apply Forall_cons in H as [? ?]
    | H : Forall _ (_ ++ _) |- _ => apply Forall_app in H as [? ?]
    end; try done; inv_option; subst; eauto using checked_sort, eval_field_sort.
  - destruct c; cbn in *; inv_option; by subst.
  - destruct op; inv_option; subst; case_match; inv_option; by subst.
  - by eapply eval_binop_sort.
  - unfold eval_container in Hv. inv_option.
    destruct op; inv_option; subst; destruct x1; try done; inv_option;
      repeat case_match; inv_option; by subst.
  - match goal with E : (x0 == SBool) = true, E2 : (k == x2) = true |- _ =>
      apply (peq_eq (A := sort)) in E; apply (peq_eq (A := sort)) in E2 end.
    subst. repeat case_match; try done; eauto.
Qed.
End Congruence.

(** ** A concrete interpretation

    Euclidean division, no functions, and quantifiers over one variable that
    range over a finite sample of the integers; the witnesses use it. *)

Definition sample_values : list Value := [VInt (-1); VInt 0; VInt 1].

Fixpoint sample_quantifier (u : bool) (f : list Value -> option Value) (xs : list Value) :
    option Value :=
  match xs with
  | [] => Some (VBool u)
  | x :: xs' =>
      a ← f [x]; b ← sample_quantifier u f xs';
      match a, b with
      | VBool p, VBool q => Some (VBool (if u then p && q else p || q))
      | _, _ => None
      end
  end.

Definition sample_interp : Interp := {|
  idiv a b := (Z.sgn b * (a / Z.abs b))%Z;
  imod a b := (a mod Z.abs b)%Z;
  big_int _ := None;
  func _ _ _ := None;
  domain_func _ _ := None;
  quantifier u _ f := sample_quantifier u f sample_values
|}.

Lemma sample_laws : @InterpLaws sample_interp.
Proof.
  split; cbn [imod quantifier sample_interp].
  - intros a b Hb. apply Z.mod_pos_bound. lia.
  - intros a b Hb. apply Z.divide_abs_l. exists (a / Z.abs b)%Z.
    pose proof (Z.div_mod a (Z.abs b)). lia.
  - intros u vars f g v Hfg. revert v. induction sample_values as [|x xs IH]; intros v; [done|].
    cbn [sample_quantifier]. intros (a & Ha%Hfg & (b & Hb%IH & Hv)%bind_Some)%bind_Some.
    by rewrite Ha, Hb.
Qed.

Definition empty_state : State :=
  {| store := fun _ => None; heap := fun _ _ => None; old_heaps := fun _ => None |}.
