(* ===== verification/Simplifier.v ===== *)
(** * The simplifier of pure functions

    [prusti-common/src/vir/optimizations/functions/simplifier.rs]: constant
    evaluation of boolean expressions, as an [ExprFolder] whose [fold]
    rewrites after the default fold and whose [fold_cond] turns boolean
    conditionals into implications.

    The theorem is semantic: a well-sorted expression is simplified without
    panic into one of the same sort that has the same value wherever the
    original has a value (it may have a value in more states: [x && false]
    becomes [false] also where [x] is undefined). *)

From S2P Require Import Prelude Ast ExprEq ExprPlace ExprTransformers ExprOps Items Semantics.

(** [ExprSimplifier::apply_rules]. *)
Fixpoint apply_rules (e : Expr) : Expr :=
  match e with
  | Expr.UnaryOp UnaryOpKind.Not (Expr.Const (Const.Bool b) _) pos =>
      Expr.Const (Const.Bool (negb b)) pos
  | Expr.UnaryOp UnaryOpKind.Not (Expr.BinOp BinOpKind.EqCmp lhs rhs _) pos =>
      Expr.BinOp BinOpKind.NeCmp lhs rhs pos
  | Expr.BinOp BinOpKind.And (Expr.Const (Const.Bool b1) _) (Expr.Const (Const.Bool b2) _) pos =>
      Expr.Const (Const.Bool (b1 && b2)) pos
  | Expr.BinOp BinOpKind.And (Expr.Const (Const.Bool b) _) conjunct _
  | Expr.BinOp BinOpKind.And conjunct (Expr.Const (Const.Bool b) _) _ =>
      if b then conjunct else expr_of_bool false
  | Expr.BinOp BinOpKind.Or (Expr.Const (Const.Bool b) _) disjunct _
  | Expr.BinOp BinOpKind.Or disjunct (Expr.Const (Const.Bool b) _) _ =>
      if b then expr_of_bool true else disjunct
  | Expr.BinOp BinOpKind.Implies guard (Expr.Const (Const.Bool b) _) pos =>
      if b then expr_of_bool true else Expr.UnaryOp UnaryOpKind.Not guard pos
  | Expr.BinOp BinOpKind.Implies (Expr.Const (Const.Bool b) _) body _ =>
      if b then body else expr_of_bool true
  | Expr.BinOp BinOpKind.And op1 op2 pos =>
      Expr.BinOp BinOpKind.And (apply_rules op1) (apply_rules op2) pos
  | r => r
  end.

(** The body of [fold_cond] after the recursive calls. *)
Definition simplify_cond (simplified_guard simplified_then simplified_else : Expr)
    (pos : Position) : option Expr :=
  then_is_bool ← is_bool simplified_then;
  either_is_bool ← (if (then_is_bool : bool) then Some true else is_bool simplified_else);
  let result :=
    if (either_is_bool : bool) then
      Expr.BinOp BinOpKind.And
        (Expr.BinOp BinOpKind.Implies simplified_guard simplified_then pos)
        (Expr.BinOp BinOpKind.Implies
          (Expr.UnaryOp UnaryOpKind.Not simplified_guard pos) simplified_else pos)
        pos
    else Expr.Cond simplified_guard simplified_then simplified_else pos in
  Some (apply_rules result).

Definition expr_simplifier : ExprFolder unit Empty_set :=
  {| fold := fun _ dflt => folded_expr ← dflt; mret (apply_rules folded_expr);
     fold_node := fun n =>
       match n with
       | Node.Cond guard then_expr else_expr pos =>
           simplified_guard ← go guard;
           simplified_then ← go then_expr;
           simplified_else ← go else_expr;
           lift (simplify_cond simplified_guard simplified_then simplified_else pos)
       | _ => default_fold_node n
       end |}.

(** [impl Simplifier for Expr] and [impl Simplifier for Function]. *)
Definition simplify (self : Expr) : option Expr := fst <$> run_infallible expr_simplifier self tt.

Definition simplify_function (self : Function) : option Function :=
  new_body ← match Function.body self with
             | Some b => Some <$> simplify b
             | None => Some None
             end;
  Some (Function.new (Function.name self) (Function.formal_args self)
          (Function.return_type self) (Function.pres self) (Function.posts self) new_body).

(** ** The rules *)

Definition bool_lit (e : Expr) : option bool :=
  match e with Expr.Const (Const.Bool b) _ => Some b | _ => None end.

Lemma bool_lit_Some e b : bool_lit e = Some b -> exists p, e = Expr.Const (Const.Bool b) p.
Proof. destruct e; try done. destruct c; try done. intros [= ->]. by eexists. Qed.

Definition and_rule (l r : Expr) (p : Position) : Expr :=
  match bool_lit l, bool_lit r with
  | Some b1, Some b2 => Expr.Const (Const.Bool (b1 && b2)) p
  | Some b, None => if b then r else expr_of_bool false
  | None, Some b => if b then l else expr_of_bool false
  | None, None => Expr.BinOp BinOpKind.And (apply_rules l) (apply_rules r) p
  end.

Definition or_rule (l r : Expr) (p : Position) : Expr :=
  match bool_lit l, bool_lit r with
  | Some b, _ => if b then expr_of_bool true else r
  | None, Some b => if b then expr_of_bool true else l
  | None, None => Expr.BinOp BinOpKind.Or l r p
  end.

Definition implies_rule (l r : Expr) (p : Position) : Expr :=
  match bool_lit r, bool_lit l with
  | Some b, _ => if b then expr_of_bool true else Expr.UnaryOp UnaryOpKind.Not l p
  | None, Some b => if b then r else expr_of_bool true
  | None, None => Expr.BinOp BinOpKind.Implies l r p
  end.

(** Split an expression into the boolean literals and the rest. *)
Ltac case_lit e E :=
  destruct e as [| | | | |[?|?|?|] ?| | | | | | | | | | | | | | | | |]; try discriminate E.

(** The case of [And], apart from the recursion. *)
Definition and_case (rec : Expr -> Expr) (l r : Expr) (pos : Position) : Expr :=
  match l, r with
  | Expr.Const (Const.Bool b1) _, Expr.Const (Const.Bool b2) _ =>
      Expr.Const (Const.Bool (b1 && b2)) pos
  | Expr.Const (Const.Bool b) _, conjunct
  | conjunct, Expr.Const (Const.Bool b) _ => if b then conjunct else expr_of_bool false
  | op1, op2 => Expr.BinOp BinOpKind.And (rec op1) (rec op2) pos
  end.

Lemma apply_rules_and l r p :
  apply_rules (Expr.BinOp BinOpKind.And l r p) = and_rule l r p.
Proof.
  change (and_case apply_rules l r p = and_rule l r p). unfold and_rule.
  generalize apply_rules as rec. intros rec. destruct (bool_lit l) as [b|] eqn:El.
  - case_lit l El. injection El as ->. destruct (bool_lit r) as [b'|] eqn:Er.
    + case_lit r Er. injection Er as ->. reflexivity.
    + case_lit r Er; reflexivity.
  - destruct (bool_lit r) as [b'|] eqn:Er.
    + case_lit r Er. injection Er as ->. case_lit l El; reflexivity.
    + case_lit l El; case_lit r Er; reflexivity.
Qed.

Lemma apply_rules_or l r p : apply_rules (Expr.BinOp BinOpKind.Or l r p) = or_rule l r p.
Proof.
  unfold or_rule. destruct (bool_lit l) as [b|] eqn:El.
  - case_lit l El. injection El as ->. reflexivity.
  - destruct (bool_lit r) as [b'|] eqn:Er.
    + case_lit r Er. injection Er as ->. case_lit l El; reflexivity.
    + case_lit l El; case_lit r Er; reflexivity.
Qed.

Lemma apply_rules_implies l r p :
  apply_rules (Expr.BinOp BinOpKind.Implies l r p) = implies_rule l r p.
Proof.
  unfold implies_rule. destruct (bool_lit r) as [b'|] eqn:Er.
  - case_lit r Er. injection Er as ->. case_lit l I; reflexivity.
  - destruct (bool_lit l) as [b|] eqn:El.
    + case_lit l El. injection El as ->. case_lit r Er; reflexivity.
    + case_lit l El; case_lit r Er; reflexivity.
Qed.

Section Correctness.
Context `{InterpLaws}.

(** Evaluation of an [And] whose operands are well-sorted. *)
Lemma eval_bool e st v : sort_of e = Some SBool -> eval e st = Some v -> exists b, v = VBool b.
Proof. intros Hk Hv. pose proof (sort_sound e _ _ _ Hk Hv). destruct v; try done. by eexists. Qed.

Lemma checked_of_sort e st k : sort_of e = Some k -> checked k (eval e st) = eval e st.
Proof.
  intros Hk. unfold checked. destruct (eval e st) as [v|] eqn:Hv; [|done]. simpl.
  rewrite (sort_sound e k st v Hk Hv). destruct (k == k) eqn:E; [done|].
  by rewrite peq_refl in E.
Qed.

Definition is_connective (op : BinOpKind) : bool :=
  match op with BinOpKind.And | BinOpKind.Or | BinOpKind.Implies => true | _ => false end.

Lemma sort_of_connective op l r p k :
  is_connective op = true -> sort_of (Expr.BinOp op l r p) = Some k ->
  sort_of l = Some SBool /\ sort_of r = Some SBool /\ k = SBool.
Proof.
  destruct op; try done; intros _; cbn [sort_of]; intros Hk; inv_option;
  by repeat match goal with E : (_ == SBool) = true |- _ =>
    apply (peq_eq (A := sort)) in E; subst end.
Qed.

Lemma and_rule_improves l r p :
  improves l (apply_rules l) -> improves r (apply_rules r) ->
  improves (Expr.BinOp BinOpKind.And l r p) (and_rule l r p).
Proof.
  intros Hl Hr. unfold and_rule.
  destruct (bool_lit l) as [b|] eqn:El; [apply bool_lit_Some in El as [q ->]|];
  (destruct (bool_lit r) as [b'|] eqn:Er; [apply bool_lit_Some in Er as [q' ->]|]).
  4: { apply (improves_map_children apply_rules (Expr.BinOp BinOpKind.And l r p)). cbn [children]. auto. }
  all: intros k (Hkl & Hkr & ->)%sort_of_connective; [|done].
  - split; [done|]. intros st v. cbn. by destruct b.
  - destruct b; (split; [done|]); intros st v; cbn; [by rewrite checked_of_sort|done].
  - destruct b'; (split; [done|]); intros st v; cbn; intros (x & Hx & Hv)%bind_Some;
      destruct (eval_bool _ _ _ Hkl Hx) as [b'' ->]; rewrite ?Hx; destruct b''; exact Hv.
Qed.

Lemma or_rule_improves l r p : improves (Expr.BinOp BinOpKind.Or l r p) (or_rule l r p).
Proof.
  unfold or_rule.
  destruct (bool_lit l) as [b|] eqn:El; [apply bool_lit_Some in El as [q ->]|];
  [|destruct (bool_lit r) as [b'|] eqn:Er; [apply bool_lit_Some in Er as [q' ->]|]].
  3: apply improves_refl.
  all: intros k (Hkl & Hkr & ->)%sort_of_connective; [|done].
  - destruct b; (split; [done|]); intros st v; cbn; [done|by rewrite checked_of_sort].
  - destruct b'; (split; [done|]); intros st v; cbn; intros (x & Hx & Hv)%bind_Some;
      destruct (eval_bool _ _ _ Hkl Hx) as [b'' ->]; rewrite ?Hx; destruct b''; exact Hv.
Qed.

Lemma implies_rule_improves l r p :
  improves (Expr.BinOp BinOpKind.Implies l r p) (implies_rule l r p).
Proof.
  unfold implies_rule.
  destruct (bool_lit r) as [b|] eqn:Er; [apply bool_lit_Some in Er as [q ->]|];
  [|destruct (bool_lit l) as [b'|] eqn:El; [apply bool_lit_Some in El as [q' ->]|]].
  3: apply improves_refl.
  all: intros k (Hkl & Hkr & ->)%sort_of_connective; [|done].
  - destruct b; (split; [cbn [sort_of]; by rewrite ?Hkl|]); intros st v; cbn;
      intros (x & Hx & Hv)%bind_Some; rewrite ?Hx;
      destruct (eval_bool _ _ _ Hkl Hx) as [b'' ->]; rewrite ?Hx; destruct b''; exact Hv.
  - destruct b'; (split; [done|]); intros st v; cbn; [by rewrite checked_of_sort|done].
Qed.

Lemma not_rule_improves e p :
  improves (Expr.UnaryOp UnaryOpKind.Not e p) (apply_rules (Expr.UnaryOp UnaryOpKind.Not e p)).
Proof.
  destruct e; try apply improves_refl.
  - destruct c; try apply improves_refl. intros k Hk. split; [exact Hk|]. by intros st v.
  - destruct op; try apply improves_refl. intros k Hk. split.
    + cbn [sort_of apply_rules] in *. destruct (sort_of e1) as [s1|], (sort_of e2) as [s2|]; try done.
      cbn in *. by destruct (s1 == s2).
    + intros st v. cbn. destruct (eval e1 st) as [x|]; [|done]. cbn.
      by destruct x, (eval e2 st); cbn.
Qed.

Lemma apply_rules_improves e : improves e (apply_rules e).
Proof.
  induction e as [e IH] using children_ind.
  destruct e; try apply improves_refl.
  - destruct op; [apply not_rule_improves|apply improves_refl].
  - destruct op; try apply improves_refl.
    + rewrite apply_rules_and. cbn [children] in IH. rewrite !Forall_cons in IH.
      apply and_rule_improves; tauto.
    + rewrite apply_rules_or. apply or_rule_improves.
    + rewrite apply_rules_implies. apply implies_rule_improves.
Qed.

(** *** Conditionals *)

Lemma is_bool_total e : is_Some (is_bool e).
Proof.
  unfold is_bool. destruct (is_place e) eqn:E; [|by eexists].
  destruct (place_get_type e E) as [t Ht]. rewrite Ht. by eexists.
Qed.

Lemma place_sort e t k :
  is_place e = true -> get_type e = Some t -> sort_of e = Some k -> k = sort_of_ty t.
Proof.
  revert k. induction e using Expr_ind'; cbn [is_place get_type sort_of]; try done;
    intros k He Ht Hk; inv_option; subst; auto.
Qed.

Lemma is_bool_sort e k : is_bool e = Some true -> sort_of e = Some k -> k = SBool.
Proof.
  unfold is_bool. destruct (is_place e) eqn:E; intros Hb Hk.
  - inv_option. rewrite (place_sort e _ k E Hx Hk). by destruct x.
  - injection Hb as Hb. destruct e; try done; cbn [sort_of] in Hk.
    + destruct c; try done. by inv_option.
    + destruct op; try done. by inv_option.
    + destruct op; try done; by inv_option.
    + by inv_option.
    + by inv_option.
    + destruct return_type; try done. by inv_option.
Qed.

Definition either_bool (t f : Expr) : bool :=
  match is_bool t with
  | Some true => true
  | _ => match is_bool f with Some b => b | None => false end
  end.

Definition cond_result (g t f : Expr) (p : Position) : Expr :=
  if either_bool t f
  then Expr.BinOp BinOpKind.And (Expr.BinOp BinOpKind.Implies g t p)
         (Expr.BinOp BinOpKind.Implies (Expr.UnaryOp UnaryOpKind.Not g p) f p) p
  else Expr.Cond g t f p.

Lemma simplify_cond_eq g t f p : simplify_cond g t f p = Some (apply_rules (cond_result g t f p)).
Proof.
  unfold simplify_cond, cond_result, either_bool.
  destruct (is_bool_total t) as [[] ->], (is_bool_total f) as [b ->]; done.
Qed.

Lemma cond_result_improves g t f p : improves (Expr.Cond g t f p) (cond_result g t f p).
Proof.
  unfold cond_result. destruct (either_bool t f) eqn:E; [|apply improves_refl].
  intros k Hk. cbn [sort_of] in Hk. inv_option. subst k.
  match goal with E1 : (x == SBool) = true, E2 : (x0 == x1) = true |- _ =>
    apply (peq_eq (A := sort)) in E1 as ->; apply (peq_eq (A := sort)) in E2 as <- end.
  assert (x0 = SBool) as ->.
  { unfold either_bool in E. destruct (is_bool_total t) as [bt Ht], (is_bool_total f) as [bf Hf].
    rewrite Ht, Hf in E. destruct bt; [by apply (is_bool_sort t)|].
    subst. by apply (is_bool_sort f). }
  split.
  - cbn [sort_of]. by rewrite Hx, Hx0, Hx1.
  - intros st v. cbn [eval]. intros (a & Ha & Hv)%bind_Some. rewrite Ha.
    assert (exists b, v = VBool b) as [b ->].
    { destruct a as [|[]| | |]; try done; by eauto using eval_bool. }
    destruct a as [|[]| | |]; try done; cbn; rewrite checked_of_sort, Hv by done; by destruct b.
Qed.

(** *** The whole traversal *)

Fixpoint simplified (e : Expr) : Expr :=
  let e' := map_children simplified e in
  apply_rules (match e' with
               | Expr.Cond g t f p => apply_rules (cond_result g t f p)
               | _ => e'
               end).

Lemma simplified_eq e :
  simplified e =
    let e' := map_children simplified e in
    apply_rules (match e' with
                 | Expr.Cond g t f p => apply_rules (cond_result g t f p)
                 | _ => e'
                 end).
Proof. by destruct e. Qed.

Lemma simplify_eq e : simplify e = Some (simplified e).
Proof.
  unfold simplify.
  rewrite (run_infallible_val expr_simplifier e tt (simplified e, tt)); [done|].
  induction e as [e IH] using children_ind. rewrite run_fold_unfold, simplified_eq.
  cbn [fold expr_simplifier]. unfold default_fold_expr, mbind, ST_bind.
  assert (Hc : Forall (fun c => forall s, run_fold expr_simplifier c s = Val (simplified c, s))
                 (children e)).
  { eapply Forall_impl; [exact IH|]. by intros c Hc []. }
  assert (Hn : fold_node expr_simplifier
                 (Node.of_expr (fun c => Child c (run_fold expr_simplifier c)) e) tt
               = Val (match map_children simplified e with
                      | Expr.Cond g t f p => apply_rules (cond_result g t f p)
                      | _ => map_children simplified e
                      end, tt)).
  { pose proof (default_fold_node_pure _ simplified e Hc tt) as Hdef.
    destruct e; first [exact Hdef | idtac]. cbn [children] in Hc.
    rewrite !Forall_cons in Hc. destruct Hc as (H1 & H2 & H3 & _).
    cbn. unfold mbind, ST_bind. rewrite H1, H2, H3. unfold lift. by rewrite simplify_cond_eq. }
  by rewrite Hn.
Qed.

Lemma simplified_improves e : improves e (simplified e).
Proof.
  induction e as [e IH] using children_ind. rewrite simplified_eq. cbn zeta.
  eapply improves_trans; [apply (improves_map_children simplified e IH)|].
  eapply improves_trans; [|apply apply_rules_improves].
  destruct (map_children simplified e); try apply improves_refl.
  eapply improves_trans; [apply cond_result_improves|apply apply_rules_improves].
Qed.

(** C1. The simplifier is correct: on a well-sorted expression `simplify` does not panic, keeps
    the sort, and in every state in which the expression has a value the result has the same
    value; every rule of `apply_rules` and the rule for conditionals is covered. *)
Theorem simplify_preserves_value (e : Expr) (k : sort) :
  sort_of e = Some k ->
  exists e', simplify e = Some e' /\ sort_of e' = Some k
    /\ forall st v, eval e st = Some v -> eval e' st = Some v.
Proof.
  intros Hk. exists (simplified e). rewrite simplify_eq.
  destruct (simplified_improves e k Hk) as [Hk' Hr]. auto.
Qed.
End Correctness.

(** [x ? (y == 1) : true], with integers in place of [x] and [y]. *)
Lemma simplify_preserves_value_witness :
  let e := Expr.Cond (Ex.eq_cmp (expr_of_i32 1) (expr_of_i32 1))
             (Ex.not (Ex.eq_cmp (expr_of_i32 2) (expr_of_i32 1))) (expr_of_bool true)
             Position.default in
  sort_of e = Some SBool
  /\ exists e', simplify e = Some e' /\ sort_of e' = Some SBool
       /\ forall st v, @eval sample_interp e st = Some v -> @eval sample_interp e' st = Some v.
Proof.
  split; [reflexivity|].
  apply (@simplify_preserves_value sample_interp sample_laws). reflexivity.
Defined.
