(* ===== verification/SemanticsFacts.v ===== *)
(** * The meaning of the constructors

    What the functions that build expressions promise, in terms of the
    values of [Semantics]: the encoding of Rust's remainder, conjunctions
    and disjunctions of sequences, the boolean test, and the inlining of a
    function body. *)

From Stdlib Require Import Lia ZArith.
From S2P Require Import Prelude Ast ExprEq ExprPlace ExprTransformers ExprOps Collections Items Semantics.

Section Meaning.
Context `{InterpLaws}.

(** ** Rust's remainder *)

Lemma euclidean_rem a b m :
  b <> 0%Z -> (0 <= m < Z.abs b)%Z -> (b | a - m)%Z ->
  Z.rem a b = (if (0 <=? a)%Z || (m =? 0)%Z then m else m - Z.abs b)%Z.
Proof.
  intros Hb Hm [q Hq].
  assert (Hr : forall r, (0 <= a -> 0 <= r)%Z -> (a < 0 -> r <= 0)%Z -> (Z.abs r < Z.abs b)%Z ->
    (b | a - r)%Z -> Z.rem a b = r).
  { intros r Hp Hn Hlt [q' Hq']. pose proof (Z.quot_rem' a b). pose proof (Z.rem_bound_abs a b Hb).
    pose proof (Z.rem_nonneg a b Hb). pose proof (Z.rem_nonpos a b Hb).
    assert (Hd : (Z.rem a b - r = b * (q' - Z.quot a b))%Z) by lia.
    assert (Habs : (Z.abs (b * (q' - Z.quot a b)) < Z.abs b)%Z) by (rewrite <- Hd; lia).
    rewrite Z.abs_mul in Habs.
    assert (Z.abs (q' - Z.quot a b) = 0)%Z by nia. assert (q' = Z.quot a b) as -> by lia. lia. }
  destruct (Z.leb_spec 0 a) as [Ha|Ha]; cbn [orb].
  - apply Hr; try lia. by exists q.
  - destruct (Z.eqb_spec m 0) as [->|Hm0].
    + apply Hr; try lia. by exists q.
    + apply Hr; try lia. exists (q + Z.sgn b)%Z. rewrite <- (Z.abs_sgn b) at 1. lia.
Qed.

Theorem rem_is_rust_remainder (l r : Expr) (st : State) (a b : Z) :
  eval l st = Some (VInt a) -> eval r st = Some (VInt b) -> b <> 0%Z ->
  eval (Ex.rem l r) st = Some (VInt (Z.rem a b)).
Proof.
  intros Hl Hr Hb. rewrite (euclidean_rem a b (imod a b)) by auto using imod_range, imod_congruent.
  unfold Ex.rem. cbn. rewrite Hl, Hr. cbn.
  destruct (Z.eqb_spec b 0) as [|_]; [done|].
  destruct (0 <=? a)%Z; cbn; rewrite ?Hl, ?Hr; cbn.
  - by destruct (Z.eqb_spec b 0).
  - destruct (Z.eqb_spec b 0) as [|_]; [done|]. cbn.
    destruct (imod a b =? 0)%Z; [done|].
    destruct (Z.leb_spec 0 b); cbn; rewrite ?Hr; cbn; do 3 f_equal; lia.
Qed.

(** ** Sequences of conditions *)

Lemma eval_and_true l r p st :
  eval (Expr.BinOp BinOpKind.And l r p) st = Some (VBool true)
  <-> eval l st = Some (VBool true) /\ eval r st = Some (VBool true).
Proof.
  cbn. destruct (eval l st) as [a|]; cbn; [|split; [done|by intros []]].
  split.
  - destruct a as [|[]| | |]; try done; unfold checked; intros; inv_option;
      repeat (case_match; try done); by inv_option; subst.
  - by intros [[= ->] ->].
Qed.

Lemma eval_or_false l r p st :
  eval (Expr.BinOp BinOpKind.Or l r p) st = Some (VBool false)
  <-> eval l st = Some (VBool false) /\ eval r st = Some (VBool false).
Proof.
  cbn. destruct (eval l st) as [a|]; cbn; [|split; [done|by intros []]].
  split.
  - destruct a as [|[]| | |]; try done; unfold checked; intros; inv_option;
      repeat (case_match; try done); by inv_option; subst.
  - by intros [[= ->] ->].
Qed.

Lemma conjoin_true (es : list Expr) (st : State) :
  eval (conjoin es) st = Some (VBool true) <-> Forall (fun e => eval e st = Some (VBool true)) es.
Proof.
  induction es as [|e es IH]; [by split; [constructor|]|]. rewrite Forall_cons, <- IH. apply eval_and_true.
Qed.

Theorem conjoin_disjoin_spec (es : list Expr) (st : State) :
  (eval (conjoin es) st = Some (VBool true)
   <-> Forall (fun e => eval e st = Some (VBool true)) es)
  /\ (eval (disjoin es) st = Some (VBool false)
   <-> Forall (fun e => eval e st = Some (VBool false)) es).
Proof.
  split; [apply conjoin_true|]. induction es as [|e es IH]; [by split; [constructor|]|].
  rewrite Forall_cons, <- IH. apply eval_or_false.
Qed.

(** ** The boolean test *)

Lemma checked_bool o v : checked SBool o = Some v -> exists b, v = VBool b.
Proof. intros Hv%checked_sort. destruct v; try done. by eexists. Qed.

Lemma place_value_sort e : is_place e = true ->
  forall t st v, get_type e = Some t -> eval e st = Some v -> sort_of_value v = sort_of_ty t.
Proof.
  induction e using Expr_ind'; cbn [is_place get_type eval]; try done;
    intros Hp ty st w Ht Hv; inv_option; subst;
    eauto using checked_sort, eval_field_sort.
Qed.

(** C40. `is_bool` never panics, and an expression that it accepts has only boolean values. *)
Theorem is_bool_sound (e : Expr) :
  is_bool e <> None
  /\ (is_bool e = Some true ->
      forall st v, eval e st = Some v -> exists b, v = VBool b).
Proof.
  unfold is_bool. destruct (is_place e) eqn:E.
  - destruct (place_get_type e E) as [t Ht]. rewrite Ht. cbn. split; [done|].
    intros [= Hb] st v Hv. pose proof (place_value_sort e E t st v Ht Hv) as Hs.
    destruct t; try done. destruct v; try done. by eexists.
  - split; [done|]. intros [= Hb] st v Hv.
    destruct e; try done; cbn [eval] in Hv; try by eapply checked_bool.
    + destruct c; try done. injection Hv as <-. by eexists.
    + destruct op; try done. inv_option. destruct x; try done. injection Hv as <-. by eexists.
    + unfold eval_binop in Hv. inv_option.
      destruct op; try done; destruct x as [| [] | | |]; try done; inv_option; subst;
        repeat (case_match; try done); inv_option; subst; eauto using checked_bool;
        cbn in *; inv_option; subst; eauto.
    + inv_option. destruct return_type; try done. by eapply checked_bool.
Qed.

(** ** Inlining a function body

    [Function::inline_body] substitutes the formal arguments.  It is right
    for bodies without binders and without [old] expressions (the source
    says so in a comment); the value of the inlined body is then the value
    of the body in the state where the formal arguments hold the values of
    the actual ones. *)

(** No binder, no change of heap, and no other variable than [vars]. *)
Fixpoint inlinable (vars : list LocalVar) (e : Expr) : bool :=
  match e with
  | Expr.Local v _ => existsb (fun f => v == f) vars
  | Expr.LabelledOld _ _ _ | Expr.ForAll _ _ _ _ | Expr.Exists _ _ _ _
  | Expr.LetExpr _ _ _ _ => false
  | _ => forallb id (node_children (Node.of_expr (inlinable vars) e))
  end.

Definition inline_step (subst : HashMap.t LocalVar Expr) (e : Expr) : option Expr :=
  match e with
  | Expr.Local local _ => HashMap.get subst local
  | _ => Some e
  end.

Fixpoint inlined (subst : HashMap.t LocalVar Expr) (e : Expr) : Expr :=
  match e with
  | Expr.Local local _ => match HashMap.get subst local with Some a => a | None => e end
  | _ => map_children (inlined subst) e
  end.

Lemma inlinable_children vars e :
  inlinable vars e = true -> Forall (fun c => inlinable vars c = true) (children e).
Proof.
  intros He.
  assert (Hn : forallb id (node_children (Node.of_expr (inlinable vars) e)) = true).
  { destruct e; try discriminate He; first [exact He | reflexivity]. }
  rewrite node_children_of_expr, forallb_forall in Hn. apply Forall_forall. intros c Hc.
  apply (Hn (inlinable vars c)). apply in_map. by apply list_elem_of_In.
Qed.

Lemma run_inline vars subst e :
  (forall v, existsb (fun f => v == f) vars = true -> is_Some (HashMap.get subst v)) ->
  inlinable vars e = true ->
  run_fold (expr_folder_impl (inline_step subst)) e tt = Val (inlined subst e, tt).
Proof.
  intros Hv. induction e as [e IH] using children_ind. intros He.
  rewrite run_fold_unfold. cbn [fold expr_folder_impl].
  unfold default_fold_expr, mbind, ST_bind. cbn [fold_node expr_folder_impl].
  rewrite (default_fold_node_pure _ (inlined subst)).
  - destruct e; try reflexivity. cbn in *. destruct (Hv v He) as [a Ha]. unfold lift. by rewrite Ha.
  - pose proof (inlinable_children vars e He) as Hc. rewrite Forall_forall in *.
    intros c Hin []. by apply IH; [|apply Hc].
Qed.

(** An expression without binders reads its own variables only through its
    children. *)
Lemma eval_map_children_eq f e st st' :
  match e with
  | Expr.Local _ _ | Expr.LabelledOld _ _ _ | Expr.ForAll _ _ _ _ | Expr.Exists _ _ _ _
  | Expr.LetExpr _ _ _ _ => False
  | _ => True
  end ->
  heap st = heap st' ->
  Forall (fun c => eval (f c) st = eval c st') (children e) ->
  eval (map_children f e) st = eval e st'.
Proof.
  assert (Hl : forall es, Forall (fun c => eval (f c) st = eval c st') es ->
    mapM_opt (fun e => eval e st) (map f es) = mapM_opt (fun e => eval e st') es).
  { induction 1 as [|c es Hc _ IH]; [done|]. cbn. by rewrite Hc, IH. }
  intros He Hh Hc. destruct e; try done; cbn [children] in Hc;
    rewrite ?Forall_app, ?Forall_cons in Hc; destruct_and?; cbn [map_children eval];
    unfold eval_field; rewrite ?Hh, ?Hl by done;
    repeat match goal with E : eval (f ?c) st = _ |- _ => rewrite E; clear E end; done.
Qed.

Lemma eval_inlined vars subst st st' e :
  (forall v, existsb (fun f => v == f) vars = true ->
     exists a x, HashMap.get subst v = Some a /\ eval a st = Some x
       /\ store st' (LocalVar.name v) = Some x
       /\ sort_of_value x = sort_of_ty (LocalVar.typ v)) ->
  heap st = heap st' -> inlinable vars e = true ->
  eval (inlined subst e) st = eval e st'.
Proof.
  intros Hv Hh. induction e as [e IH] using children_ind. intros He.
  assert (Hc : Forall (fun c => eval (inlined subst c) st = eval c st') (children e)).
  { pose proof (inlinable_children vars e He) as Hc. rewrite Forall_forall in *.
    intros c Hin. by apply IH; [|apply Hc]. }
  destruct e; try discriminate He;
    try (apply (eval_map_children_eq (inlined subst)); [exact I|exact Hh|exact Hc]).
  destruct (Hv v He) as (a & x & Ha & Hx & Hs & Hty). cbn. rewrite Ha, Hx, Hs. unfold checked. cbn.
  destruct (_ == _) eqn:E; [done|]. by rewrite Hty, peq_refl in E.
Qed.

(** The map of [inline_body] and the store agree on the formal arguments
    already entered, whose names are not among those to come. *)
Definition agree (st : State) (m : HashMap.t LocalVar Expr) (f : string -> option Value)
    (rest : list LocalVar) : Prop :=
  forall v a, HashMap.get m v = Some a ->
    ~ In (LocalVar.name v) (map LocalVar.name rest)
    /\ exists x, eval a st = Some x /\ f (LocalVar.name v) = Some x
         /\ sort_of_value x = sort_of_ty (LocalVar.typ v).

Lemma local_var_eq_name (v w : LocalVar) :
  (v == w) = true ->
  LocalVar.name v = LocalVar.name w
  /\ sort_of_ty (LocalVar.typ v) = sort_of_ty (LocalVar.typ w).
Proof.
  destruct v as [n t], w as [n' t']. unfold peq, LocalVar_PartialEq, LocalVar.eqb. cbn.
  intros [Hn Ht]%andb_true_iff. split; [by apply String.eqb_eq|].
  by destruct t, t'.
Qed.

Lemma agree_extend st fs args vs m f :
  NoDup (map LocalVar.name fs) ->
  Forall2 (fun a x => eval a st = Some x) args vs ->
  Forall2 (fun v x => sort_of_value x = sort_of_ty (LocalVar.typ v)) fs vs ->
  agree st m f fs ->
  agree st (HashMap.extend m (combine fs args))
    (foldl (fun f kv => bind_var f (LocalVar.name (fst kv)) (snd kv)) f (combine fs vs)) []
  /\ forall v, (is_Some (HashMap.get m v) \/ existsb (fun w => v == w) fs = true) ->
       is_Some (HashMap.get (HashMap.extend m (combine fs args)) v).
Proof.
  revert args vs m f. induction fs as [|w fs IH]; intros args vs m f Hnd Hargs Hfs Hm.
  - split; [by inversion Hfs|]. intros v [Hv|]; [exact Hv|done].
  - inversion Hfs as [|? x ? vs' Hx Hfs' E1 E2]; subst.
    inversion Hargs as [|a ? args' ? Ha Hargs' E1 E2]; subst.
    cbn in Hnd. inversion Hnd as [|? ? Hnotin Hnd']; subst. cbn.
    assert (Hm' : agree st (HashMap.insert m w a) (bind_var f (LocalVar.name w) x) fs).
    { intros v b. rewrite HashMap.get_insert. unfold bind_var. destruct (v == w) eqn:E.
      - intros [= <-]. destruct (local_var_eq_name v w E) as [-> ->].
        rewrite String.eqb_refl. split; [by rewrite <- list_elem_of_In|]. eauto.
      - intros Hb. destruct (Hm v b Hb) as [Hv (y & Hy & Hfy & Hs)]. cbn in Hv.
        split; [tauto|]. exists y. destruct (String.eqb_spec (LocalVar.name v) (LocalVar.name w)); [|auto].
        exfalso. apply Hv. auto. }
    destruct (IH args' vs' _ _ Hnd' Hargs' Hfs' Hm') as [IH1 IH2]. split; [exact IH1|].
    intros v Hv. apply IH2. rewrite HashMap.get_insert.
    destruct (v == w) eqn:E; [left; by eexists|]. cbn in Hv. by rewrite ?E in Hv.
Qed.

Lemma mapM_opt_Forall2 {A B} (g : A -> option B) l ys :
  mapM_opt g l = Some ys -> Forall2 (fun x y => g x = Some y) l ys.
Proof.
  revert ys. induction l as [|x l IH]; intros ys Hl; cbn in Hl; inv_option; subst; [constructor|].
  constructor; auto.
Qed.

Theorem inline_body_value (self : Function) (args : list Expr) (body : Expr) (vs : list Value)
    (st : State) :
  Function.body self = Some body ->
  inlinable (Function.formal_args self) body = true ->
  NoDup (map LocalVar.name (Function.formal_args self)) ->
  mapM_opt (fun a => eval a st) args = Some vs ->
  Forall2 (fun v x => sort_of_value x = sort_of_ty (LocalVar.typ v)) (Function.formal_args self) vs ->
  exists e', Function.inline_body self args = Some e'
    /\ eval e' st = eval body (with_store st (bind_vars (store st) (Function.formal_args self) vs)).
Proof.
  intros Hb Hin Hnd Hargs%mapM_opt_Forall2 Hvs.
  destruct (agree_extend st (Function.formal_args self) args vs HashMap.empty (store st)
    Hnd Hargs Hvs ltac:(by intros v a)) as [Hag Hdom].
  exists (inlined (Function.inline_subst self args) body). split.
  - unfold Function.inline_body. rewrite Hb. cbn.
    change (fold_expr (inline_step (Function.inline_subst self args)) body
            = Some (inlined (Function.inline_subst self args) body)). unfold fold_expr.
    rewrite (run_infallible_val _ _ _ _ (run_inline (Function.formal_args self)
      (Function.inline_subst self args) body (fun v Hv => Hdom v (or_intror Hv)) Hin)). done.
  - apply (eval_inlined (Function.formal_args self)); [|done|done].
    intros v Hv. destruct (Hdom v (or_intror Hv)) as [a Ha]. exists a.
    destruct (Hag v a Ha) as [_ (x & ? & ? & ?)]. by exists x.
Qed.
End Meaning.

(** ** Witnesses *)

Lemma rem_is_rust_remainder_witness :
  @eval sample_interp (Ex.rem (expr_of_i32 (-7)) (expr_of_i32 2)) empty_state
  = Some (VInt (-1)).
Proof.
  exact (@rem_is_rust_remainder sample_interp sample_laws (expr_of_i32 (-7)) (expr_of_i32 2)
    empty_state (-7) 2 eq_refl eq_refl ltac:(discriminate)).
Defined.

Definition twice_x : Expr :=
  Ex.add (expr_of_var (LocalVar.new "x" Ty.Int)) (expr_of_var (LocalVar.new "x" Ty.Int)).

Definition twice : Function :=
  Function.new "twice" [LocalVar.new "x" Ty.Int] Ty.Int [] [] (Some twice_x).

Lemma inline_body_value_witness :
  exists e', Function.inline_body twice [expr_of_i32 4] = Some e'
    /\ @eval sample_interp e' empty_state = Some (VInt 8).
Proof.
  destruct (@inline_body_value sample_interp twice [expr_of_i32 4] twice_x [VInt 4] empty_state)
    as (e' & He & Hv); try reflexivity.
  - apply NoDup_singleton.
  - repeat constructor.
  - exists e'. split; [exact He|]. rewrite Hv. reflexivity.
Defined.
