(* ===== verification/Graph.v ===== *)
(** * Facts about finite directed graphs

    The theory the graph algorithms of the program share: paths as the
    closures [tc] and [rtc] of an edge relation on indices, the invariant of
    a worklist that marks a node when it enters the list, and the criterion
    for cycles. *)

From Stdlib Require Import Lia.
From stdpp Require Import relations.
From S2P Require Import Prelude.

(** ** Counting *)

Lemma nodup_bounded_length (l : list nat) (n : nat) :
  NoDup l -> (forall x, x ∈ l -> x < n) -> length l <= n.
Proof.
  intros Hnd Hlt. rewrite <- (length_seq n 0). apply submseteq_length.
  apply NoDup_submseteq; [done|]. intros x Hx. apply elem_of_seq. specialize (Hlt x Hx). lia.
Qed.

(** A duplicate-free list of [n] indices below [n] holds all of them. *)
Lemma nodup_bounded_full (l : list nat) (n : nat) :
  NoDup l -> (forall x, x ∈ l -> x < n) -> length l = n -> forall x, x < n -> x ∈ l.
Proof.
  intros Hnd Hlt Hlen x Hx. destruct (decide (x ∈ l)) as [|Hn]; [done|exfalso].
  assert (Hle : length (x :: l) <= n); [|cbn in Hle; lia].
  apply nodup_bounded_length; [by constructor|].
  intros y [->|Hy]%elem_of_cons; auto.
Qed.

(** ** Cycles *)

Section Cycles.
Context (edge : nat -> nat -> Prop).

(** A list in which every element is a predecessor of the one before it. *)
Inductive back_chain : list nat -> Prop :=
  | back_chain_one x : back_chain [x]
  | back_chain_cons x y l : edge y x -> back_chain (y :: l) -> back_chain (x :: y :: l).

Lemma back_chain_tc x l1 y l2 : back_chain (x :: l1 ++ y :: l2)%list -> tc edge y x.
Proof.
  revert x. induction l1 as [|z l1 IH]; intros x Hc; inversion Hc; subst.
  - by apply tc_once.
  - apply tc_r with z; auto.
Qed.

Lemma back_chain_app l1 l2 : l2 <> [] -> back_chain (l1 ++ l2)%list -> back_chain l2.
Proof.
  intros Hne. induction l1 as [|x l1 IH]; [done|]. cbn. intros Hc.
  destruct (l1 ++ l2)%list as [|y l] eqn:E; [by destruct l1, l2|].
  apply IH. by inversion Hc.
Qed.

Lemma back_chain_snoc l x y : edge y x -> back_chain (l ++ [x])%list -> back_chain (l ++ [x; y])%list.
Proof.
  intros He. induction l as [|z l IH]; cbn; intros Hc; [by repeat constructor|].
  destruct l as [|w l]; cbn in *; inversion Hc; subst; constructor; auto.
Qed.

Lemma not_nodup_split (l : list nat) :
  ~ NoDup l -> exists l1 x l2 l3, l = (l1 ++ x :: l2 ++ x :: l3)%list.
Proof.
  induction l as [|x l IH]; intros Hnd; [by destruct Hnd; constructor|].
  destruct (decide (x ∈ l)) as [Hx|Hx].
  - apply list_elem_of_split in Hx as (l2 & l3 & ->). by exists [], x, l2, l3.
  - destruct IH as (l1 & y & l2 & l3 & ->).
    + intros Hl. apply Hnd. by constructor.
    + by exists (x :: l1), y, l2, l3.
Qed.

(** A non-empty finite set in which every node has a predecessor has a
    cycle. *)
Lemma cycle_of_backwards_closed (P : nat -> Prop) (n : nat) (v : nat) :
  P v -> (forall x, P x -> x < n) -> (forall x, P x -> exists y, P y /\ edge y x) ->
  exists x, tc edge x x.
Proof.
  intros Hv Hlt Hpred.
  assert (Hchain : forall k, exists l, length l = S k /\ back_chain l /\ Forall P l).
  { intros k. assert (Hk : exists x l, length l = k /\ back_chain (l ++ [x])%list
                              /\ P x /\ Forall P l).
    { induction k as [|k (x & l & Hl & Hc & Hx & HP)].
      - exists v, []. repeat split; [constructor|done|constructor].
      - destruct (Hpred x Hx) as (y & Hy & He). exists y, (l ++ [x])%list.
        rewrite length_app, Forall_app. cbn. repeat split; [lia| |done|done|by repeat constructor].
        rewrite <- app_assoc. by apply back_chain_snoc. }
    destruct Hk as (x & l & Hl & Hc & Hx & HP). exists (l ++ [x])%list.
    rewrite length_app, Forall_app. cbn. repeat split; [lia|done|done|by repeat constructor]. }
  destruct (Hchain n) as (l & Hlen & Hc & HP).
  destruct (not_nodup_split l) as (l1 & x & l2 & l3 & ->).
  - intros Hnd. assert (Hle : length l <= n); [|lia].
    apply nodup_bounded_length; [done|]. intros x Hx. rewrite Forall_forall in HP. auto.
  - exists x. apply (back_chain_tc x l2 x l3). by eapply back_chain_app.
Qed.

(** An order in which every predecessor of a node comes later in the list
    (the list is built by consing finished nodes) excludes cycles. *)
Lemma acyclic_of_order (l : list nat) :
  NoDup l -> (forall u v, edge u v -> v ∈ l) ->
  (forall l1 v l2, l = (l1 ++ v :: l2)%list -> forall u, edge u v -> u ∈ l2) ->
  forall x, ~ tc edge x x.
Proof.
  intros Hnd Hin Hord.
  assert (Hsuf : forall u v, tc edge u v -> forall l1 l2, l = (l1 ++ v :: l2)%list -> u ∈ l2).
  { intros u v Huv. induction Huv as [u v He|u w v He Hwv IH]; intros l1 l2 E; [eauto|].
    pose proof (IH l1 l2 E) as Hw. apply list_elem_of_split in Hw as (m1 & m2 & ->).
    apply elem_of_app. right. right.
    apply (Hord (l1 ++ v :: m1)%list w m2); [|done]. rewrite E. by rewrite <- app_assoc. }
  intros x Hx. assert (Hxl : x ∈ l).
  { apply tc_nsteps in Hx as ([|k] & Hk & Hx); [lia|]. apply nsteps_inv_r in Hx as (y & _ & Hy). eauto. }
  apply list_elem_of_split in Hxl as (l1 & l2 & E). pose proof (Hsuf x x Hx l1 l2 E) as Hx2.
  rewrite E in Hnd. apply NoDup_app in Hnd as (_ & _ & Hnd). by apply NoDup_cons in Hnd as [? _].
Qed.
End Cycles.

(** ** Vectors of flags

    The vector [visited] as the set of its true indices. *)
Definition flags (visited : list bool) (n : nat) (marked : list nat) : Prop :=
  length visited = n /\ forall i, visited !! i = Some true <-> i ∈ marked.

Lemma flags_insert visited n marked i :
  flags visited n marked -> i < n -> flags (<[i := true]> visited) n (marked ++ [i]).
Proof.
  intros [Hl Hm] Hi. split; [by rewrite length_insert|]. intros j.
  rewrite elem_of_app, list_elem_of_singleton, <- Hm.
  destruct (decide (i = j)) as [->|Hn].
  - rewrite list_lookup_insert_eq by lia. tauto.
  - rewrite list_lookup_insert_ne by done. intuition congruence.
Qed.

(** ** Worklists

    A search from [root] that never enters a node of [blocked]: [done] are
    the nodes whose successors have been looked at, [todo] the nodes that
    are waiting, [marked] the nodes that may not be entered again. *)

(** What the inner loop over the successors [js] of a node does: the new
    nodes are appended to the list of waiting nodes and marked. *)
Definition marks (js todo marked todo' marked' : list nat) : Prop :=
  exists new,
    todo' = (todo ++ new)%list /\ NoDup new
    /\ (forall x, x ∈ new -> x ∈ js /\ x ∉ marked)
    /\ (forall x, x ∈ marked' <-> x ∈ marked \/ x ∈ new)
    /\ (forall x, x ∈ js -> x ∈ marked').

Lemma marks_nil todo marked : marks [] todo marked todo marked.
Proof.
  exists []. rewrite app_nil_r. split; [done|]. split; [constructor|].
  split; [by intros x Hx%elem_of_nil|]. split; [|by intros x Hx%elem_of_nil].
  intros x. rewrite elem_of_nil. tauto.
Qed.

Lemma marks_skip j js todo marked todo' marked' :
  j ∈ marked -> marks js todo marked todo' marked' -> marks (j :: js) todo marked todo' marked'.
Proof.
  intros Hj (new & -> & Hnd & Hf & Hm & Ha). exists new.
  split; [done|]. split; [done|]. split; [|split; [done|]].
  - intros x [? ?]%Hf. split; [by right|done].
  - intros x [->|Hx]%elem_of_cons; [apply Hm; by left|auto].
Qed.

Lemma marks_push j js todo marked marked1 todo' marked' :
  j ∉ marked -> (forall x, x ∈ marked1 <-> x ∈ marked \/ x = j) ->
  marks js (todo ++ [j]) marked1 todo' marked' ->
  marks (j :: js) todo marked todo' marked'.
Proof.
  intros Hj H1 (new & -> & Hnd & Hf & Hm & Ha). exists (j :: new). rewrite <- app_assoc.
  split; [done|]. split; [|split; [|split]].
  - constructor; [|done]. intros [_ Hn]%Hf. apply Hn, H1. by right.
  - intros x [->|[Hx Hn]%Hf]%elem_of_cons; [by split; [left|]|].
    split; [by right|]. intros Hx'. apply Hn, H1. by left.
  - intros x. rewrite Hm, H1, elem_of_cons. tauto.
  - intros x [->|Hx]%elem_of_cons; [|auto]. apply Hm, or_introl, H1. by right.
Qed.

Section Worklist.
Context (edge : nat -> nat -> Prop) (blocked : list nat) (root : nat).

Definition open_edge (x y : nat) : Prop := edge x y /\ y ∉ blocked.

Record winv (done todo marked : list nat) : Prop := {
  w_marked : forall x, x ∈ marked <-> x ∈ blocked \/ x ∈ done \/ x ∈ todo;
  w_nodup : NoDup (done ++ todo)%list;
  w_root : root ∈ (done ++ todo)%list;
  w_reach : forall x, x ∈ (done ++ todo)%list -> rtc open_edge root x;
  w_closed : forall x y, x ∈ done -> edge x y -> y ∈ marked
}.

Lemma winv_init marked :
  (forall x, x ∈ marked <-> x ∈ blocked \/ x = root) -> winv [] [root] marked.
Proof.
  intros Hm. split; cbn.
  - intros x. rewrite Hm, elem_of_nil, list_elem_of_singleton. tauto.
  - apply NoDup_singleton.
  - by apply list_elem_of_singleton.
  - intros x ->%list_elem_of_singleton. constructor.
  - by intros x y Hx%elem_of_nil.
Qed.

Lemma winv_step done todo rest marked c js todo' marked' :
  winv done todo marked -> todo ≡ₚ c :: rest ->
  (forall j, j ∈ js <-> edge c j) -> marks js rest marked todo' marked' ->
  winv (c :: done) todo' marked'.
Proof.
  intros [Hm Hnd Hr Hreach Hcl] Hperm Hjs (new & -> & Hnew & Hfresh & Hm' & Hall).
  assert (Hp : ((c :: done) ++ rest ++ new)%list ≡ₚ ((done ++ todo) ++ new)%list).
  { rewrite Hperm. solve_Permutation. }
  split.
  - intros x. rewrite Hm', Hm, Hperm, elem_of_app, !elem_of_cons. tauto.
  - rewrite Hp. apply NoDup_app. split; [done|]. split; [|done].
    intros x Hx Hn. apply Hfresh in Hn as [_ Hn]. apply Hn, Hm. apply elem_of_app in Hx. tauto.
  - rewrite Hp, elem_of_app. by left.
  - intros x. rewrite Hp, elem_of_app. intros [Hx|Hx]; [auto|].
    destruct (Hfresh x Hx) as [Hxj Hxm]. apply rtc_r with c.
    + apply Hreach. rewrite Hperm, elem_of_app, elem_of_cons. auto.
    + split; [by apply Hjs|]. intros Hb. apply Hxm, Hm. by left.
  - intros x y [->|Hx]%elem_of_cons He; [by apply Hall, Hjs|]. apply Hm'. left. eauto.
Qed.

Lemma winv_end done marked :
  winv done [] marked -> forall x, x ∈ done <-> rtc open_edge root x.
Proof.
  intros [Hm Hnd Hr Hreach Hcl] x. rewrite app_nil_r in *. split; [auto|].
  revert x. apply rtc_ind_r; [done|]. intros y z Hy [He Hz] IH.
  pose proof (Hcl y z IH He) as Hzm. apply Hm in Hzm. rewrite elem_of_nil in Hzm. tauto.
Qed.

(** While something is waiting, not every one of [n] nodes is done. *)
Lemma winv_fuel n done todo marked c :
  winv done todo marked -> c ∈ todo -> (forall x, x ∈ marked -> x < n) -> length done < n.
Proof.
  intros Hw Hc Hlt. assert (Hl : length (done ++ todo) <= n).
  { apply nodup_bounded_length; [apply Hw|]. intros x Hx%elem_of_app. apply Hlt, Hw. tauto. }
  rewrite length_app in Hl. destruct todo; [by apply elem_of_nil in Hc|cbn in Hl; lia].
Qed.

Lemma winv_bound n done todo marked :
  winv done todo marked -> (forall x, x ∈ (done ++ todo)%list -> x < n) ->
  length done + length todo <= n.
Proof. intros Hw Hlt. rewrite <- length_app. apply nodup_bounded_length; [apply Hw|done]. Qed.
End Worklist.

Lemma rtc_open_edge_nil edge x y : rtc (open_edge edge []) x y <-> rtc edge x y.
Proof.
  split; apply rtc_subrel; unfold subrelation; [by intros ? ? []|].
  intros a b Hab. split; [done|]. apply not_elem_of_nil.
Qed.
