(* ===== verification/Borrows.v ===== *)
(** * The reborrowing DAG

    [prusti-common/src/vir/borrows.rs]: the nodes of the graph of reborrows,
    its builder with the integrity check, and the guard of an expiring
    borrow.

    A node holds statements and a statement holds a DAG; here the type of
    statements is a parameter, which [Stmt] instantiates. *)

From Stdlib Require Import Lia.
From stdpp Require Import relations.
From S2P Require Import Prelude Ast ExprEq ExprPlace ExprTransformers ExprOps Collections Items Semantics.
From S2P Require Import SemanticsFacts Graph.

Module DAG.

(** ** Data *)

Record Node (Stmt : Type) : Type := new_node {
  guard : Expr;
  borrow : Borrow;
  reborrowing_nodes : list Borrow;
  reborrowed_nodes : list Borrow;
  stmts : list Stmt;
  borrowed_places : list Expr;
  conflicting_borrows : list Borrow;
  alive_conflicting_borrows : list Borrow;
  place : option Expr
}.
#[global] Arguments new_node {Stmt}.
#[global] Arguments guard {Stmt}.
#[global] Arguments borrow {Stmt}.
#[global] Arguments reborrowing_nodes {Stmt}.
#[global] Arguments reborrowed_nodes {Stmt}.
#[global] Arguments stmts {Stmt}.
#[global] Arguments borrowed_places {Stmt}.
#[global] Arguments conflicting_borrows {Stmt}.
#[global] Arguments alive_conflicting_borrows {Stmt}.
#[global] Arguments place {Stmt}.

Record DAG (Stmt : Type) : Type := make {
  borrow_indices : HashMap.t Borrow nat;
  nodes : list (Node Stmt);
  dag_borrowed_places : list Expr
}.
#[global] Arguments make {Stmt}.
#[global] Arguments borrow_indices {Stmt}.
#[global] Arguments nodes {Stmt}.
#[global] Arguments dag_borrowed_places {Stmt}.

Section Ops.
Context {Stmt : Type}.
Implicit Types (dag : DAG Stmt) (node : Node Stmt).

(** ** Queries *)

(** [iter]. *)
Definition iter dag : list (Node Stmt) := nodes dag.

(** Panics on an unknown borrow. *)
Definition get_borrow_index dag (b : Borrow) : option nat := HashMap.get (borrow_indices dag) b.

(** [any]: stops at the first borrowed place that is a prefix. *)
Fixpoint any_prefix (place : Expr) (borrowed : list Expr) : option bool :=
  match borrowed with
  | [] => Some false
  | borrowed_place :: rest =>
      b ← has_prefix place borrowed_place;
      if (b : bool) then Some true else any_prefix place rest
  end.

Definition in_borrowed_places dag (place : Expr) : option bool :=
  any_prefix place (dag_borrowed_places dag).

(** [check_integrity]: [None] when an assertion fails or the index of an
    unknown borrow is asked for. *)
Fixpoint check_nodes dag (i : nat) (ns : list (Node Stmt)) : option unit :=
  match ns with
  | [] => Some tt
  | node :: rest =>
      j ← HashMap.get (borrow_indices dag) (borrow node);
      _ ← assert_ (Nat.eqb j i);
      _ ← assert_ (forallb (HashMap.contains_key (borrow_indices dag)) (reborrowing_nodes node));
      _ ← assert_ (forallb (HashMap.contains_key (borrow_indices dag)) (reborrowed_nodes node));
      check_nodes dag (S i) rest
  end.

Definition is_empty {A} (l : list A) : bool := match l with [] => true | _ => false end.

Definition check_integrity dag : option unit :=
  _ ← match head (nodes dag) with
      | Some first => assert_ (is_empty (reborrowing_nodes first))
      | None => Some tt
      end;
  _ ← match last (nodes dag) with
      | Some last => assert_ (is_empty (reborrowed_nodes last))
      | None => Some tt
      end;
  _ ← assert_ (Nat.eqb (length (nodes dag)) (length (borrow_indices dag)));
  check_nodes dag 0 (nodes dag).

(** ** The guard of a borrow *)

(** The inner loop: enqueue and mark the borrows not visited yet.  The
    state is ([to_visit], [visited], [guard_indices]). *)
Fixpoint visit_borrows dag (bs : list Borrow) (st : list nat * list bool * list nat) :
    option (list nat * list bool * list nat) :=
  match bs with
  | [] => Some st
  | b :: bs' =>
      let '(to_visit, visited, guard_indices) := st in
      borrow_index ← HashMap.get (borrow_indices dag) b;
      v ← visited !! borrow_index;
      visit_borrows dag bs'
        (if (v : bool) then st
         else (to_visit ++ [borrow_index], <[borrow_index := true]> visited,
               guard_indices ++ [borrow_index])%list)
  end.

(** The outer loop pops one node per iteration and every node is pushed at
    most once: [length (nodes dag)] iterations and the final test suffice. *)
Fixpoint guard_loop dag (fuel : nat) (st : list nat * list bool * list nat) :
    option (list nat) :=
  match fuel with
  | 0 => None
  | S fuel' =>
      let '(to_visit, visited, guard_indices) := st in
      match to_visit with
      | [] => Some guard_indices
      | curr_index :: to_visit' =>
          curr_node ← nodes dag !! curr_index;
          st' ← visit_borrows dag (reborrowing_nodes curr_node) (to_visit', visited, guard_indices);
          guard_loop dag fuel' st'
      end
  end.

Definition guard_indices_of dag (expiring_borrow : Borrow) : option (list nat) :=
  index ← get_borrow_index dag expiring_borrow;
  let visited := replicate (length (nodes dag)) false in
  _ ← visited !! index;
  guard_loop dag (S (length (nodes dag))) ([index], <[index := true]> visited, [index]).

Definition complete_guard dag (expiring_borrow : Borrow) : option Expr :=
  guard_indices ← guard_indices_of dag expiring_borrow;
  guards ← mapM_opt (fun index => guard <$> nodes dag !! index) guard_indices;
  Some (conjoin guards).

(** ** The builder *)

Definition builder_new : DAG Stmt := make HashMap.empty [] [].

Definition add_node dag node : option (DAG Stmt) :=
  let new_index := length (nodes dag) in
  _ ← assert_ (negb (HashMap.contains_key (borrow_indices dag) (borrow node)));
  Some (make (HashMap.insert (borrow_indices dag) (borrow node) new_index)
          (nodes dag ++ [node])%list
          (dag_borrowed_places dag ++ borrowed_places node)%list).

Definition finish dag : option (DAG Stmt) := _ ← check_integrity dag; Some dag.

Fixpoint add_nodes dag (ns : list (Node Stmt)) : option (DAG Stmt) :=
  match ns with
  | [] => Some dag
  | n :: ns' => dag' ← add_node dag n; add_nodes dag' ns'
  end.
End Ops.
End DAG.

(** * Properties of the reborrowing DAG

    The builder keeps the index of every borrow, [check_integrity] accepts
    exactly the graphs whose references are closed, and on those the guard
    of a borrow is the conjunction of the guards of the borrows reachable
    through [reborrowing_nodes]. *)

Import DAG.

Section Facts.
Context {Stmt : Type}.
Implicit Types (dag : DAG Stmt) (ns : list (Node Stmt)).

(** ** What the builder builds *)

Definition built dag ns : Prop :=
  nodes dag = ns
  /\ borrow_indices dag = zip (map borrow ns) (seq 0 (length ns))
  /\ NoDup (map borrow ns)
  /\ dag_borrowed_places dag = concat (map borrowed_places ns).

Lemma get_zip (bs : list Borrow) (k : nat) (b : Borrow) (i : nat) :
  NoDup bs ->
  HashMap.get (zip bs (seq k (length bs))) b = Some i <-> k <= i /\ bs !! (i - k) = Some b.
Proof.
  revert k. induction bs as [|b' bs IH]; intros k; cbn; [intros _; split; [done|by intros [_ ?]]|].
  intros [Hn Hnd]%NoDup_cons. destruct (b == b') eqn:E.
  - apply peq_eq in E as <-. split.
    + intros [= <-]. by rewrite Nat.sub_diag.
    + intros [Hle Hi]. destruct (i - k) as [|m] eqn:Em; [f_equal; lia|].
      exfalso. apply Hn. by eapply list_elem_of_lookup_2.
  - rewrite IH by done. apply peq_false_iff in E. split.
    + intros [Hle Hi]. split; [lia|]. replace (i - k) with (S (i - S k)) by lia. done.
    + intros [Hle Hi]. destruct (i - k) as [|m] eqn:Em; [simplify_eq/=|].
      split; [lia|]. by replace (i - S k) with m by lia.
Qed.

Lemma built_index dag ns b i :
  built dag ns ->
  HashMap.get (borrow_indices dag) b = Some i <-> exists n, ns !! i = Some n /\ borrow n = b.
Proof.
  intros (_ & -> & Hnd & _). rewrite <- (length_map borrow ns), get_zip by done.
  rewrite Nat.sub_0_r, list_lookup_fmap. rewrite fmap_Some. split.
  - intros [_ (n & ? & ->)]. eauto.
  - intros (n & ? & <-). split; [lia|eauto].
Qed.

Lemma built_contains dag ns b :
  built dag ns -> HashMap.contains_key (borrow_indices dag) b = true <-> In b (map borrow ns).
Proof.
  intros Hb. unfold HashMap.contains_key.
  destruct (HashMap.get (borrow_indices dag) b) as [i|] eqn:E.
  - split; [intros _|done]. apply (built_index dag ns b i Hb) in E as (n & Hn & <-).
    apply in_map, list_elem_of_In. by eapply list_elem_of_lookup_2.
  - split; [done|]. intros (n & <- & Hn)%in_map_iff.
    apply list_elem_of_In, list_elem_of_lookup in Hn as [i Hi].
    assert (Hs : HashMap.get (borrow_indices dag) (borrow n) = Some i); [|congruence].
    apply (built_index dag ns _ i Hb). eauto.
Qed.

Lemma insert_fresh (m : HashMap.t Borrow nat) b i :
  HashMap.contains_key m b = false -> HashMap.insert m b i = (m ++ [(b, i)])%list.
Proof.
  unfold HashMap.contains_key. induction m as [|[b' j] m IH]; [done|]. cbn.
  destruct (b == b'); [done|]. intros Hm. by rewrite IH.
Qed.

Lemma add_node_built dag ns n :
  built dag ns ->
  (In (borrow n) (map borrow ns) -> add_node dag n = None)
  /\ (~ In (borrow n) (map borrow ns) ->
      exists dag', add_node dag n = Some dag' /\ built dag' (ns ++ [n])).
Proof.
  intros Hb. unfold add_node. split; intros Hin.
  - apply (built_contains dag ns _ Hb) in Hin. by rewrite Hin.
  - assert (Hc : HashMap.contains_key (borrow_indices dag) (borrow n) = false).
    { destruct (HashMap.contains_key _ _) eqn:E; [|done].
      by apply (built_contains dag ns _ Hb) in E. }
    rewrite Hc. cbn. eexists. split; [done|]. destruct Hb as (E1 & E2 & E3 & E4).
    split; [cbn; by rewrite E1|]. split; [|split].
    + cbn. rewrite insert_fresh by exact Hc. rewrite E1, E2.
      rewrite length_app, seq_app, map_app, zip_with_app by (by rewrite length_map, length_seq).
      done.
    + rewrite map_app. apply NoDup_app. split; [done|]. split; [|apply NoDup_singleton].
      intros b Hin1 Hin2. apply Hin. apply list_elem_of_singleton in Hin2 as <-.
      by apply list_elem_of_In.
    + cbn. rewrite E4, map_app, concat_app. cbn. by rewrite app_nil_r.
Qed.

Lemma add_nodes_built dag ms ns :
  built dag ms ->
  (NoDup (map borrow (ms ++ ns)) -> exists dag', add_nodes dag ns = Some dag' /\ built dag' (ms ++ ns))
  /\ (forall dag', add_nodes dag ns = Some dag' -> built dag' (ms ++ ns)).
Proof.
  revert dag ms. induction ns as [|n ns IH]; intros dag ms Hb; cbn.
  - rewrite app_nil_r. split; [by exists dag|]. by intros dag' [= <-].
  - destruct (add_node_built dag ms n Hb) as [Hdup Hok].
    assert (Happ : (ms ++ n :: ns)%list = ((ms ++ [n]) ++ ns)%list) by by rewrite <- app_assoc.
    split.
    + intros Hnd. destruct Hok as (dag1 & E1 & Hb1).
      { rewrite map_app in Hnd. apply NoDup_app in Hnd as (_ & Hd & _).
        intros Hin. apply list_elem_of_In in Hin. apply (Hd _ Hin). cbn. by left. }
      rewrite E1. cbn. rewrite Happ in *. by apply (IH dag1).
    + intros dag' (dag1 & E1 & E2)%bind_Some.
      destruct (in_dec (fun a b => decide (a = b)) (borrow n) (map borrow ms)) as [Hin|Hin].
      * by rewrite Hdup in E1.
      * destruct (Hok Hin) as (dag2 & E3 & Hb2). rewrite E3 in E1. injection E1 as <-.
        rewrite Happ. by apply (IH dag2).
Qed.

(** ** The integrity check *)

Definition known ns (bs : list Borrow) : Prop := forall b, In b bs -> In b (map borrow ns).

Definition closed_node ns (n : Node Stmt) : Prop :=
  known ns (reborrowing_nodes n) /\ known ns (reborrowed_nodes n).

Lemma forallb_known dag ns bs :
  built dag ns ->
  forallb (HashMap.contains_key (borrow_indices dag)) bs = true <-> known ns bs.
Proof.
  intros Hb. rewrite forallb_forall. unfold known.
  split; intros Hk b Hin; apply (built_contains dag ns b Hb); auto.
Qed.

Lemma check_nodes_spec dag ns :
  built dag ns ->
  forall pre rest, ns = (pre ++ rest)%list ->
    check_nodes dag (length pre) rest = Some tt <-> Forall (closed_node ns) rest.
Proof.
  intros Hb pre rest. revert pre. induction rest as [|n rest IH]; intros pre E; [by split|].
  cbn. assert (Hi : HashMap.get (borrow_indices dag) (borrow n) = Some (length pre)).
  { apply (built_index dag ns _ _ Hb). exists n. split; [|done]. rewrite E.
    by apply list_lookup_middle. }
  rewrite Hi. cbn. rewrite Nat.eqb_refl. cbn.
  assert (IH' : check_nodes dag (S (length pre)) rest = Some tt <-> Forall (closed_node ns) rest).
  { rewrite <- (IH (pre ++ [n])%list) by by rewrite <- app_assoc. by rewrite length_app, Nat.add_1_r. }
  rewrite Forall_cons, <- IH'. unfold closed_node.
  rewrite <- !(forallb_known dag ns _ Hb).
  destruct (forallb _ (reborrowing_nodes n)), (forallb _ (reborrowed_nodes n)); cbn;
    split; try done; intuition congruence.
Qed.

Definition ends_ok ns : Prop :=
  (forall n, head ns = Some n -> reborrowing_nodes n = [])
  /\ (forall n, last ns = Some n -> reborrowed_nodes n = []).

Lemma then_Some (a : option unit) (b : option unit) :
  (_ ← a; b) = Some tt <-> a = Some tt /\ b = Some tt.
Proof. destruct a as [[]|]; cbn; [tauto|]. split; [done|by intros []]. Qed.

Lemma end_ok_spec (o : option (Node Stmt)) (f : Node Stmt -> list Borrow) :
  match o with Some n => assert_ (is_empty (f n)) | None => Some tt end = Some tt
  <-> forall n, o = Some n -> f n = [].
Proof.
  destruct o as [n|]; [|by split]. rewrite assert_Some. split.
  - intros Hf m [= <-]. by destruct (f n).
  - intros Hf. by rewrite (Hf n eq_refl).
Qed.

Lemma check_integrity_spec dag ns :
  built dag ns -> check_integrity dag = Some tt <-> ends_ok ns /\ Forall (closed_node ns) ns.
Proof.
  intros Hb. pose proof (check_nodes_spec dag ns Hb [] ns eq_refl) as Hc. cbn in Hc.
  unfold check_integrity, ends_ok. pose proof Hb as (E1 & E2 & _). rewrite E1, E2, <- Hc.
  rewrite !then_Some, !end_ok_spec, assert_Some, length_zip_with, length_map, length_seq.
  rewrite Nat.min_id, Nat.eqb_refl. tauto.
Qed.

(** [finish] returns the graph itself, and only a closed one.  [add_nodes]
    is the sequence of calls of [add_node]. *)
Theorem builder_accepts_closed_graphs ns :
  (exists dag, add_nodes builder_new ns ≫= finish = Some dag /\ nodes dag = ns)
  <-> NoDup (map borrow ns) /\ ends_ok ns /\ Forall (closed_node ns) ns.
Proof.
  assert (H0 : built builder_new ([] : list (Node Stmt))) by (by repeat split; constructor).
  destruct (add_nodes_built builder_new [] ns H0) as [Hok Hback]. cbn in *. split.
  - intros (dag & (dag0 & E & Hf)%bind_Some & _). pose proof (Hback dag0 E) as Hb.
    unfold finish in Hf. inv_option. destruct x. apply (check_integrity_spec dag0 ns Hb) in Hx.
    split; [apply Hb|done].
  - intros [Hnd Hi]. destruct (Hok Hnd) as (dag & E & Hb). exists dag.
    rewrite E. cbn. unfold finish. apply (check_integrity_spec dag ns Hb) in Hi. rewrite Hi.
    split; [done|apply Hb].
Qed.

(** ** The guard of a borrow *)

(** Node [i] reborrows from node [j]. *)
Definition reborrows ns (i j : nat) : Prop :=
  exists n m, ns !! i = Some n /\ ns !! j = Some m /\ borrow m ∈ reborrowing_nodes n.

Lemma visit_borrows_spec dag ns bs : built dag ns -> known ns bs ->
  forall todo visited marked,
  flags visited (length ns) marked -> NoDup marked ->
  exists js todo' visited' marked',
    visit_borrows dag bs (todo, visited, marked) = Some (todo', visited', marked')
    /\ (forall j, j ∈ js <-> exists m, ns !! j = Some m /\ borrow m ∈ bs)
    /\ marks js todo marked todo' marked' /\ flags visited' (length ns) marked' /\ NoDup marked'.
Proof.
  intros Hb. induction bs as [|b bs IH]; intros Hk todo visited marked Hf Hnd.
  - exists [], todo, visited, marked. split; [done|]. split; [|by split; [apply marks_nil|split]].
    intros j. rewrite elem_of_nil. split; [done|]. by intros (m & _ & Hm%elem_of_nil).
  - assert (Hin : In b (map borrow ns)) by (apply Hk; by left).
    apply in_map_iff in Hin as (m & <- & Hm).
    apply list_elem_of_In, list_elem_of_lookup in Hm as [i Hi].
    assert (Hg : HashMap.get (borrow_indices dag) (borrow m) = Some i)
      by (apply (built_index dag ns _ i Hb); eauto).
    assert (Hlt : i < length ns) by by eapply lookup_lt_Some.
    assert (Hk' : known ns bs) by (intros b Hin; apply Hk; by right).
    destruct (proj2 (lookup_lt_is_Some visited i)) as [v Hv]; [by destruct Hf as [-> _]|].
    cbn. rewrite Hg. cbn. rewrite Hv. cbn.
    assert (Hjs : forall js,
      (forall j, j ∈ js <-> exists m, ns !! j = Some m /\ borrow m ∈ bs) ->
      forall j, j ∈ (i :: js) <-> exists m', ns !! j = Some m' /\ borrow m' ∈ borrow m :: bs).
    { intros js Hjs j. rewrite elem_of_cons, Hjs. split.
      - intros [->|(m' & ? & ?)]; [exists m; split; [done|by left]|exists m'; split; [done|by right]].
      - intros (m' & Hm' & [E|Hin]%elem_of_cons); [left|right; eauto].
        assert (Hg' : HashMap.get (borrow_indices dag) (borrow m) = Some j)
          by (apply (built_index dag ns _ j Hb); eauto). congruence. }
    destruct v.
    + destruct (IH Hk' todo visited marked Hf Hnd) as (js & t' & v' & m' & E & J & M & F & N).
      exists (i :: js), t', v', m'. split; [done|]. split; [by apply Hjs|].
      split; [|done]. apply marks_skip; [by apply Hf|done].
    + assert (Hni : i ∉ marked) by (intros Hi'%Hf; congruence).
      destruct (IH Hk' (todo ++ [i])%list (<[i := true]> visited) (marked ++ [i])%list)
        as (js & t' & v' & m' & E & J & M & F & N).
      { by apply flags_insert. }
      { apply NoDup_app. split; [done|]. split; [|apply NoDup_singleton].
        by intros x Hx ->%list_elem_of_singleton. }
      exists (i :: js), t', v', m'. split; [done|]. split; [by apply Hjs|].
      split; [|done]. apply (marks_push i js todo marked (marked ++ [i])%list); [done| |done].
      intros x. by rewrite elem_of_app, list_elem_of_singleton.
Qed.

Lemma guard_loop_spec dag ns root : built dag ns -> Forall (closed_node ns) ns ->
  forall fuel done todo visited marked,
  winv (reborrows ns) [] root done todo marked -> flags visited (length ns) marked -> NoDup marked ->
  length ns < fuel + length done ->
  exists l, guard_loop dag fuel (todo, visited, marked) = Some l
    /\ NoDup l /\ forall j, j ∈ l <-> rtc (reborrows ns) root j.
Proof.
  intros Hb Hcl. induction fuel as [|fuel IH]; intros done todo visited marked Hw Hf Hnd Hfuel.
  - destruct todo as [|c todo].
    + pose proof (winv_bound _ _ _ (length ns) done [] marked Hw) as Hle. cbn in Hfuel.
      exfalso. assert (length done + length (@nil nat) <= length ns); [|cbn in *; lia].
      apply Hle. intros x Hx. rewrite app_nil_r in Hx. assert (Hxm : x ∈ marked) by (apply Hw; auto).
      apply Hf in Hxm. apply lookup_lt_Some in Hxm. by destruct Hf as [<- _].
    + exfalso. assert (length done < length ns); [|lia].
      apply (winv_fuel _ _ _ (length ns) done (c :: todo) marked c Hw); [by left|].
      intros x Hx%Hf. apply lookup_lt_Some in Hx. by destruct Hf as [<- _].
  - cbn. destruct todo as [|c todo].
    + exists marked. split; [done|]. split; [done|]. intros j.
      rewrite <- rtc_open_edge_nil, <- (winv_end _ _ _ done marked Hw j).
      destruct Hw as [Hm _ _ _ _]. rewrite Hm, !elem_of_nil. tauto.
    + assert (Hc : c ∈ marked) by (apply Hw; right; right; by left).
      apply Hf in Hc. apply lookup_lt_Some in Hc. destruct Hf as [Hlen Hfl].
      rewrite Hlen in Hc. apply lookup_lt_is_Some in Hc as [n Hn].
      assert (En : nodes dag !! c = Some n) by (destruct Hb as [-> _]; done).
      rewrite En. cbn.
      assert (Hcn : closed_node ns n).
      { rewrite Forall_forall in Hcl. apply Hcl. by eapply list_elem_of_lookup_2. }
      destruct (visit_borrows_spec dag ns (reborrowing_nodes n) Hb (proj1 Hcn) todo visited marked
        (conj Hlen Hfl) Hnd) as (js & t' & v' & m' & E & J & M & F & N).
      rewrite E. cbn. apply (IH (c :: done)); [|done|done|cbn; lia].
      eapply winv_step; [exact Hw|done| |exact M].
      intros j. rewrite J. unfold reborrows. split.
      * intros (m & ? & ?). eauto.
      * intros (n' & m & E1 & ? & ?). rewrite Hn in E1. injection E1 as <-. eauto.
Qed.

Lemma guard_indices_spec dag ns i n :
  built dag ns -> Forall (closed_node ns) ns -> ns !! i = Some n ->
  exists l, guard_indices_of dag (borrow n) = Some l
    /\ NoDup l /\ forall j, j ∈ l <-> rtc (reborrows ns) i j.
Proof.
  intros Hb Hcl Hn. unfold guard_indices_of, get_borrow_index.
  rewrite (proj2 (built_index dag ns (borrow n) i Hb)) by eauto. cbn [mbind option_bind].
  destruct Hb as [En Hb']. rewrite En. pose proof (conj En Hb') as Hb. clear Hb'.
  assert (Hlt : i < length ns) by by eapply lookup_lt_Some.
  rewrite lookup_replicate_2 by done. cbn [mbind option_bind].
  apply (guard_loop_spec dag ns i Hb Hcl (S (length ns)) [] [i]); [| | |cbn; lia].
  - apply winv_init. intros x. rewrite list_elem_of_singleton, elem_of_nil. tauto.
  - apply (flags_insert _ _ []); [|done]. split; [by rewrite length_replicate|].
    intros j. rewrite elem_of_nil. split; [|done]. by intros [? _]%lookup_replicate.
  - apply NoDup_singleton.
Qed.

(** C35. In a DAG that passed the integrity check, `guard` terminates without a panic and
    returns an expression that is true exactly when the guards of all nodes reachable along
    reborrows from the expiring borrow are true. *)
Theorem guard_conjoins_reachable dag ns i n :
  add_nodes builder_new ns ≫= finish = Some dag -> ns !! i = Some n ->
  exists g, complete_guard dag (borrow n) = Some g
    /\ forall (I : Interp) st, eval g st = Some (VBool true)
         <-> forall j m, rtc (reborrows ns) i j -> ns !! j = Some m ->
               eval (guard m) st = Some (VBool true).
Proof.
  intros Hadd Hn.
  assert (H0 : built builder_new ([] : list (Node Stmt))) by (by repeat split; constructor).
  apply bind_Some in Hadd as (dag0 & E & Hf). destruct (add_nodes_built builder_new [] ns H0) as [_ Hback].
  pose proof (Hback dag0 E) as Hb. cbn in Hb. unfold finish in Hf. inv_option. subst dag0.
  destruct x. apply (check_integrity_spec dag ns Hb) in Hx as [_ Hcl].
  destruct (guard_indices_spec dag ns i n Hb Hcl Hn) as (l & El & _ & Hl).
  unfold complete_guard. rewrite El. cbn. pose proof Hb as (En & _). rewrite En.
  set (g j := match ns !! j with Some m => guard m | None => expr_of_bool true end).
  assert (Hin : forall j, j ∈ l -> exists m, ns !! j = Some m).
  { intros j Hj%Hl. apply rtc_inv_r in Hj as [<-|(k & _ & (? & m & _ & Hm & _))]; eauto. }
  rewrite (mapM_opt_total _ g).
  - cbn. eexists. split; [done|]. intros I st.
    rewrite (conjoin_true (map g l) st), Forall_forall. split.
    + intros Hall j m Hj Hm. assert (Hg : g j = guard m) by (unfold g; by rewrite Hm).
      rewrite <- Hg. apply Hall. apply list_elem_of_In, in_map, list_elem_of_In. by apply Hl.
    + intros Hall x Hx. apply list_elem_of_In, in_map_iff in Hx as (j & <- & Hj%list_elem_of_In).
      destruct (Hin j Hj) as [m Hm]. unfold g. rewrite Hm. by eapply Hall; [apply Hl|].
  - apply Forall_forall. intros j Hj. destruct (Hin j Hj) as [m Hm]. unfold g. by rewrite Hm.
Qed.
End Facts.

(** ** Witness: a borrow that is reborrowed once *)

Definition sample_nodes : list (Node unit) :=
  [ new_node (expr_of_bool true) (Borrow.from 1) [] [Borrow.from 2] [] [] [] [] None;
    new_node (expr_of_bool false) (Borrow.from 2) [Borrow.from 1] [] [] [] [] [] None ].

Lemma guard_conjoins_reachable_witness :
  exists dag g, add_nodes builder_new sample_nodes ≫= finish = Some dag
    /\ complete_guard dag (Borrow.from 2) = Some g.
Proof.
  destruct (add_nodes builder_new sample_nodes ≫= finish) as [dag|] eqn:E; [|vm_compute in E; done].
  destruct (guard_conjoins_reachable dag sample_nodes 1 _ E eq_refl) as (g & Hg & _).
  exists dag, g. split; [reflexivity|exact Hg].
Defined.
