(* ===== verification/Stmt.v ===== *)
(** * Statements

    [prusti-common/src/vir/ast/stmt.rs]: the statements, their positions,
    the traits [StmtFolder], [FallibleStmtFolder] and [StmtWalker] with their
    default methods; [map_expr] and [fallible_map_expr] of [vir/utils.rs];
    [gather_labels.rs].

    As for expressions, the methods [fold_inhale], [fold_if], ... of a trait
    are one function over [SNode]: a statement constructor whose nested
    statements are replaced by pairs of the statement and the traversal of
    it.  The traversals do not enter the statements of a reborrowing DAG. *)

From S2P Require Import Prelude Ast ExprEq ExprPlace ExprTransformers ExprOps Collections Borrows.

(** ** Data *)

Module AssignKind.
Inductive AssignKind : Type :=
  | Copy
  | Move
  | MutableBorrow (borrow : Borrow)
  | SharedBorrow (borrow : Borrow)
  | Ghost.
End AssignKind.
Abbreviation AssignKind := AssignKind.AssignKind.

Module Stmt.
Inductive Stmt : Type :=
  | Comment (comment : string)
  | Label (label : string)
  | Inhale (expr : Expr)
  | Exhale (expr : Expr) (pos : Position)
  | Assert (expr : Expr) (pos : Position)
  | MethodCall (name : string) (args : list Expr) (targets : list LocalVar)
  | Assign (target source : Expr) (kind : AssignKind)
  | Fold (predicate_name : string) (args : list Expr) (perm_amount : PermAmount)
      (variant : MaybeEnumVariantIndex) (pos : Position)
  | Unfold (predicate_name : string) (args : list Expr) (perm_amount : PermAmount)
      (variant : MaybeEnumVariantIndex)
  | Obtain (expr : Expr) (pos : Position)
  | BeginFrame
  | EndFrame
  | TransferPerm (from to : Expr) (unchecked : bool)
  | PackageMagicWand (wand : Expr) (body : list Stmt) (label : string) (vars : list LocalVar)
      (pos : Position)
  | ApplyMagicWand (wand : Expr) (pos : Position)
  | ExpireBorrows (dag : DAG.DAG Stmt)
  | If (guard : Expr) (then_stmts else_stmts : list Stmt)
  | Downcast (place : Expr) (field : Field).

Definition is_comment (self : Stmt) : bool := match self with Comment _ => true | _ => false end.

Definition package_magic_wand (lhs rhs : Expr) (stmts : list Stmt) (label : string)
    (vars : list LocalVar) (pos : Position) : Stmt :=
  PackageMagicWand (Expr.MagicWand lhs rhs None pos) stmts label vars pos.

Definition apply_magic_wand (lhs rhs : Expr) (borrow : Borrow) (pos : Position) : Stmt :=
  ApplyMagicWand (Ex.magic_wand lhs rhs (Some borrow)) pos.

Definition pos (self : Stmt) : option Position :=
  match self with
  | PackageMagicWand _ _ _ _ p => Some p
  | Exhale _ p => Some p
  | _ => None
  end.

Definition set_pos (self : Stmt) (pos : Position) : Stmt :=
  match self with
  | PackageMagicWand wand package_body label vars _ =>
      PackageMagicWand wand package_body label vars pos
  | Exhale expr _ => Exhale expr pos
  | x => x
  end.

Definition set_default_pos (self : Stmt) (pos' : Position) : Stmt :=
  if match pos self with Some x => Position.is_default x | None => false end
  then set_pos self pos'
  else self.
End Stmt.
Abbreviation Stmt := Stmt.Stmt.

(** Induction with hypotheses for the nested blocks; the statements of a DAG
    are not entered. *)
Section StmtInd.
Context (P : Stmt -> Prop).
Context (HComment : forall c, P (Stmt.Comment c)).
Context (HLabel : forall l, P (Stmt.Label l)).
Context (HInhale : forall e, P (Stmt.Inhale e)).
Context (HExhale : forall e p, P (Stmt.Exhale e p)).
Context (HAssert : forall e p, P (Stmt.Assert e p)).
Context (HMethodCall : forall n es vs, P (Stmt.MethodCall n es vs)).
Context (HAssign : forall a b k, P (Stmt.Assign a b k)).
Context (HFold : forall n es q v p, P (Stmt.Fold n es q v p)).
Context (HUnfold : forall n es q v, P (Stmt.Unfold n es q v)).
Context (HObtain : forall e p, P (Stmt.Obtain e p)).
Context (HBeginFrame : P Stmt.BeginFrame).
Context (HEndFrame : P Stmt.EndFrame).
Context (HTransferPerm : forall a b u, P (Stmt.TransferPerm a b u)).
Context (HPackage : forall w b l vs p, Forall P b -> P (Stmt.PackageMagicWand w b l vs p)).
Context (HApply : forall w p, P (Stmt.ApplyMagicWand w p)).
Context (HExpire : forall d, P (Stmt.ExpireBorrows d)).
Context (HIf : forall g t e, Forall P t -> Forall P e -> P (Stmt.If g t e)).
Context (HDowncast : forall e f, P (Stmt.Downcast e f)).

Fixpoint Stmt_ind' (s : Stmt) : P s :=
  match s with
  | Stmt.Comment c => HComment c
  | Stmt.Label l => HLabel l
  | Stmt.Inhale e => HInhale e
  | Stmt.Exhale e p => HExhale e p
  | Stmt.Assert e p => HAssert e p
  | Stmt.MethodCall n es vs => HMethodCall n es vs
  | Stmt.Assign a b k => HAssign a b k
  | Stmt.Fold n es q v p => HFold n es q v p
  | Stmt.Unfold n es q v => HUnfold n es q v
  | Stmt.Obtain e p => HObtain e p
  | Stmt.BeginFrame => HBeginFrame
  | Stmt.EndFrame => HEndFrame
  | Stmt.TransferPerm a b u => HTransferPerm a b u
  | Stmt.PackageMagicWand w b l vs p => HPackage w b l vs p (Forall_of P Stmt_ind' b)
  | Stmt.ApplyMagicWand w p => HApply w p
  | Stmt.ExpireBorrows d => HExpire d
  | Stmt.If g t e => HIf g t e (Forall_of P Stmt_ind' t) (Forall_of P Stmt_ind' e)
  | Stmt.Downcast e f => HDowncast e f
  end.
End StmtInd.

(** ** One layer of a statement *)

Module SNode.
Inductive SNode (C : Type) : Type :=
  | Comment (comment : string)
  | Label (label : string)
  | Inhale (expr : Expr)
  | Exhale (expr : Expr) (pos : Position)
  | Assert (expr : Expr) (pos : Position)
  | MethodCall (name : string) (args : list Expr) (targets : list LocalVar)
  | Assign (target source : Expr) (kind : AssignKind)
  | Fold (predicate_name : string) (args : list Expr) (perm_amount : PermAmount)
      (variant : MaybeEnumVariantIndex) (pos : Position)
  | Unfold (predicate_name : string) (args : list Expr) (perm_amount : PermAmount)
      (variant : MaybeEnumVariantIndex)
  | Obtain (expr : Expr) (pos : Position)
  | BeginFrame
  | EndFrame
  | TransferPerm (from to : Expr) (unchecked : bool)
  | PackageMagicWand (wand : Expr) (body : list C) (label : string) (vars : list LocalVar)
      (pos : Position)
  | ApplyMagicWand (wand : Expr) (pos : Position)
  | ExpireBorrows (dag : DAG.DAG Stmt)
  | If (guard : Expr) (then_stmts else_stmts : list C)
  | Downcast (place : Expr) (field : Field).
#[global] Arguments Comment {C}.
#[global] Arguments Label {C}.
#[global] Arguments Inhale {C}.
#[global] Arguments Exhale {C}.
#[global] Arguments Assert {C}.
#[global] Arguments MethodCall {C}.
#[global] Arguments Assign {C}.
#[global] Arguments Fold {C}.
#[global] Arguments Unfold {C}.
#[global] Arguments Obtain {C}.
#[global] Arguments BeginFrame {C}.
#[global] Arguments EndFrame {C}.
#[global] Arguments TransferPerm {C}.
#[global] Arguments PackageMagicWand {C}.
#[global] Arguments ApplyMagicWand {C}.
#[global] Arguments ExpireBorrows {C}.
#[global] Arguments If {C}.
#[global] Arguments Downcast {C}.

Definition of_stmt {C} (sub : Stmt -> C) (s : Stmt) : SNode C :=
  match s with
  | Stmt.Comment c => Comment c
  | Stmt.Label l => Label l
  | Stmt.Inhale e => Inhale e
  | Stmt.Exhale e p => Exhale e p
  | Stmt.Assert e p => Assert e p
  | Stmt.MethodCall n es vs => MethodCall n es vs
  | Stmt.Assign a b k => Assign a b k
  | Stmt.Fold n es q v p => Fold n es q v p
  | Stmt.Unfold n es q v => Unfold n es q v
  | Stmt.Obtain e p => Obtain e p
  | Stmt.BeginFrame => BeginFrame
  | Stmt.EndFrame => EndFrame
  | Stmt.TransferPerm a b u => TransferPerm a b u
  | Stmt.PackageMagicWand w b l vs p => PackageMagicWand w (map sub b) l vs p
  | Stmt.ApplyMagicWand w p => ApplyMagicWand w p
  | Stmt.ExpireBorrows d => ExpireBorrows d
  | Stmt.If g t e => If g (map sub t) (map sub e)
  | Stmt.Downcast e f => Downcast e f
  end.
End SNode.
Abbreviation SNode := SNode.SNode.

(** A nested statement and the traversal of it. *)
Record sub_stmt (R : Type) : Type := SubStmt { orig_stmt : Stmt; go_stmt : R }.
Arguments SubStmt {R} orig_stmt go_stmt.
Arguments orig_stmt {R} s : rename.
Arguments go_stmt {R} s : rename.

(** ** Folders *)

Section Folder.
Context {S E : Type}.

Record StmtFolder : Type := {
  (** [fold(&mut self, s)], given its default: the dispatch on the constructor. *)
  fold_stmt : Stmt -> ST S E Stmt -> ST S E Stmt;
  fold_expr_of : Expr -> ST S E Expr;
  fold_snode : SNode (sub_stmt (ST S E Stmt)) -> ST S E Stmt
}.

(** The default bodies of the methods; [f] is [self.fold_expr]. *)
Definition default_fold_snode (f : Expr -> ST S E Expr) (n : SNode (sub_stmt (ST S E Stmt))) :
    ST S E Stmt :=
  match n with
  | SNode.Comment s => mret (Stmt.Comment s)
  | SNode.Label s => mret (Stmt.Label s)
  | SNode.Inhale expr => expr ← f expr; mret (Stmt.Inhale expr)
  | SNode.Exhale e p => e ← f e; mret (Stmt.Exhale e p)
  | SNode.Assert expr pos => expr ← f expr; mret (Stmt.Assert expr pos)
  | SNode.MethodCall name args targets =>
      args ← sequence (map f args); mret (Stmt.MethodCall name args targets)
  | SNode.Assign p e k => p ← f p; e ← f e; mret (Stmt.Assign p e k)
  | SNode.Fold predicate_name args perm_amount variant pos =>
      args ← sequence (map f args);
      mret (Stmt.Fold predicate_name args perm_amount variant pos)
  | SNode.Unfold predicate_name args perm_amount variant =>
      args ← sequence (map f args);
      mret (Stmt.Unfold predicate_name args perm_amount variant)
  | SNode.Obtain e p => e ← f e; mret (Stmt.Obtain e p)
  | SNode.BeginFrame => mret Stmt.BeginFrame
  | SNode.EndFrame => mret Stmt.EndFrame
  | SNode.TransferPerm a b unchecked => a ← f a; b ← f b; mret (Stmt.TransferPerm a b unchecked)
  | SNode.PackageMagicWand wand body label vars pos =>
      wand ← f wand; body ← sequence (map go_stmt body);
      mret (Stmt.PackageMagicWand wand body label vars pos)
  | SNode.ApplyMagicWand w p => w ← f w; mret (Stmt.ApplyMagicWand w p)
  | SNode.ExpireBorrows dag => mret (Stmt.ExpireBorrows dag)
  | SNode.If g t e =>
      g ← f g; t ← sequence (map go_stmt t); e ← sequence (map go_stmt e);
      mret (Stmt.If g t e)
  | SNode.Downcast e fd => e ← f e; mret (Stmt.Downcast e fd)
  end.

(** The default of [fold_expr]. *)
Definition default_fold_expr_of (expr : Expr) : ST S E Expr := mret expr.

(** [self.fold(s)]. *)
Fixpoint run_stmt_fold (this : StmtFolder) (s : Stmt) {struct s} : ST S E Stmt :=
  fold_stmt this s
    (fold_snode this (SNode.of_stmt (fun c => SubStmt c (run_stmt_fold this c)) s)).
End Folder.
Arguments StmtFolder : clear implicits.

(** [FallibleStmtFolder]: the same methods, with [?] after every call. *)
Definition FallibleStmtFolder (S E : Type) : Type := StmtFolder S E.

Definition run_stmt_infallible {S} (this : StmtFolder S Empty_set) (s : Stmt) (st : S) :
    option (Stmt * S) :=
  match run_stmt_fold this s st with
  | Val r => Some r
  | Err err => match err with end
  | Panic => None
  end.

(** ** Walkers *)

Section Walker.
Context {S : Type}.

Record StmtWalker : Type := {
  walk_stmt : Stmt -> Walk S -> Walk S;
  walk_expr_of : Expr -> Walk S;
  walk_local_var_of : LocalVar -> Walk S;
  walk_snode : SNode (sub_stmt (Walk S)) -> Walk S
}.

Definition default_walk_snode (we : Expr -> Walk S) (wv : LocalVar -> Walk S)
    (n : SNode (sub_stmt (Walk S))) : Walk S :=
  match n with
  | SNode.Comment _ | SNode.Label _ => walk_nop
  | SNode.Inhale expr => we expr
  | SNode.Exhale expr _ => we expr
  | SNode.Assert expr _ => we expr
  | SNode.MethodCall _ args targets =>
      walk_then (walk_list (map we args)) (walk_list (map wv targets))
  | SNode.Assign target expr _ => walk_then (we target) (we expr)
  | SNode.Fold _ args _ _ _ => walk_list (map we args)
  | SNode.Unfold _ args _ _ => walk_list (map we args)
  | SNode.Obtain expr _ => we expr
  | SNode.BeginFrame | SNode.EndFrame => walk_nop
  | SNode.TransferPerm from to _ => walk_then (we from) (we to)
  | SNode.PackageMagicWand wand body _ vars _ =>
      walk_then (we wand) (walk_then (walk_list (map wv vars)) (walk_list (map go_stmt body)))
  | SNode.ApplyMagicWand wand _ => we wand
  | SNode.ExpireBorrows _ => walk_nop
  | SNode.If g t e =>
      walk_then (we g) (walk_then (walk_list (map go_stmt t)) (walk_list (map go_stmt e)))
  | SNode.Downcast e _ => we e
  end.

Definition default_walk_expr_of (_ : Expr) : Walk S := walk_nop.
Definition default_walk_local_var_of (_ : LocalVar) : Walk S := walk_nop.

(** [self.walk(s)]. *)
Fixpoint run_stmt_walk (this : StmtWalker) (s : Stmt) {struct s} : Walk S :=
  walk_stmt this s
    (walk_snode this (SNode.of_stmt (fun c => SubStmt c (run_stmt_walk this c)) s)).
End Walker.
Arguments StmtWalker : clear implicits.

(** ** Instances *)

(** [Stmt::map_expr]: the closure [F: Fn(Expr) -> Expr] may panic. *)
Definition stmt_expr_substitutor (substitutor : Expr -> option Expr) :
    StmtFolder unit Empty_set :=
  let fe e := lift (substitutor e) in
  {| fold_stmt := fun _ dflt => dflt; fold_expr_of := fe; fold_snode := default_fold_snode fe |}.

Definition map_expr (substitutor : Expr -> option Expr) (self : Stmt) : option Stmt :=
  fst <$> run_stmt_infallible (stmt_expr_substitutor substitutor) self tt.

(** [Stmt::fallible_map_expr]. *)
Definition fallible_stmt_expr_substitutor {E} (substitutor : Expr -> outcome E Expr) :
    FallibleStmtFolder unit E :=
  let fe e := fun s => e' ← substitutor e; Val (e', s) in
  {| fold_stmt := fun _ dflt => dflt; fold_expr_of := fe; fold_snode := default_fold_snode fe |}.

Definition fallible_map_expr {E} (substitutor : Expr -> outcome E Expr) (self : Stmt) :
    outcome E Stmt :=
  fst <$> run_stmt_fold (fallible_stmt_expr_substitutor substitutor) self tt.

(** [Stmt::set_default_expr_pos]. *)
Definition set_default_expr_pos (self : Stmt) (pos : Position) : option Stmt :=
  map_expr (fun e => set_default_pos e pos) self.

(** [gather_labels]. *)
Definition label_gatherer : StmtWalker (list string) :=
  {| walk_stmt := fun _ dflt => dflt;
     walk_expr_of := default_walk_expr_of;
     walk_local_var_of := default_walk_local_var_of;
     walk_snode := fun n =>
       match n with
       | SNode.Label label => fun labels => Some (labels ++ [label])%list
       | _ => default_walk_snode default_walk_expr_of default_walk_local_var_of n
       end |}.

Definition gather_labels (stmt : Stmt) : option (list string) :=
  run_stmt_walk label_gatherer stmt [].

(** * Facts about statements

    The traversals of [Stmt] against direct recursive definitions: the
    expressions a folder or walker visits, in order, and the labels a
    statement declares. *)

(** ** What a traversal visits *)

(** The expressions of a statement, from left to right, without the
    statements of a reborrowing DAG. *)
Fixpoint stmt_exprs (s : Stmt) : list Expr :=
  match s with
  | Stmt.Comment _ | Stmt.Label _ | Stmt.BeginFrame | Stmt.EndFrame | Stmt.ExpireBorrows _ => []
  | Stmt.Inhale e | Stmt.Exhale e _ | Stmt.Assert e _ | Stmt.Obtain e _
  | Stmt.ApplyMagicWand e _ | Stmt.Downcast e _ => [e]
  | Stmt.MethodCall _ es _ | Stmt.Fold _ es _ _ _ | Stmt.Unfold _ es _ _ => es
  | Stmt.Assign a b _ | Stmt.TransferPerm a b _ => [a; b]
  | Stmt.PackageMagicWand w b _ _ _ => w :: concat (map stmt_exprs b)
  | Stmt.If g t e => (g :: concat (map stmt_exprs t) ++ concat (map stmt_exprs e))%list
  end.

(** The labels a statement declares, in order. *)
Fixpoint stmt_labels (s : Stmt) : list string :=
  match s with
  | Stmt.Label l => [l]
  | Stmt.PackageMagicWand _ b _ _ _ => concat (map stmt_labels b)
  | Stmt.If _ t e => (concat (map stmt_labels t) ++ concat (map stmt_labels e))%list
  | _ => []
  end.

(** The statement with [f] applied to the expressions a traversal visits. *)
Fixpoint stmt_map (f : Expr -> Expr) (s : Stmt) : Stmt :=
  match s with
  | Stmt.Inhale e => Stmt.Inhale (f e)
  | Stmt.Exhale e p => Stmt.Exhale (f e) p
  | Stmt.Assert e p => Stmt.Assert (f e) p
  | Stmt.MethodCall n es vs => Stmt.MethodCall n (map f es) vs
  | Stmt.Assign a b k => Stmt.Assign (f a) (f b) k
  | Stmt.Fold n es q v p => Stmt.Fold n (map f es) q v p
  | Stmt.Unfold n es q v => Stmt.Unfold n (map f es) q v
  | Stmt.Obtain e p => Stmt.Obtain (f e) p
  | Stmt.TransferPerm a b u => Stmt.TransferPerm (f a) (f b) u
  | Stmt.PackageMagicWand w b l vs p => Stmt.PackageMagicWand (f w) (map (stmt_map f) b) l vs p
  | Stmt.ApplyMagicWand w p => Stmt.ApplyMagicWand (f w) p
  | Stmt.If g t e => Stmt.If (f g) (map (stmt_map f) t) (map (stmt_map f) e)
  | Stmt.Downcast e fd => Stmt.Downcast (f e) fd
  | s => s
  end.

(** The shape of a statement: everything but its expressions. *)
Definition shape (s : Stmt) : Stmt := stmt_map (fun _ => expr_of_bool true) s.

(** ** Walkers *)

#[local] Arguments walk_list : simpl never.

Lemma walk_list_cons {S} (w : Walk S) ws s :
  walk_list (w :: ws) s = (s' ← w s; walk_list ws s').
Proof. done. Qed.

Lemma walk_list_app {S} (ws1 ws2 : list (Walk S)) s :
  walk_list (ws1 ++ ws2)%list s = (s' ← walk_list ws1 s; walk_list ws2 s').
Proof.
  revert s. induction ws1 as [|w ws1 IH]; intros s; [done|]. cbn. rewrite !walk_list_cons.
  destruct (w s); [apply IH|done].
Qed.

Lemma walk_list_concat {S A} (w : A -> Walk S) (ls : list (list A)) s :
  walk_list (map w (concat ls)) s = walk_list (map (fun l => walk_list (map w l)) ls) s.
Proof.
  revert s. induction ls as [|l ls IH]; intros s; [done|]. cbn. rewrite map_app, walk_list_app, walk_list_cons.
  destruct (walk_list (map w l) s); [apply IH|done].
Qed.

Lemma walk_list_ext {S A} (w1 w2 : A -> Walk S) (l : list A) :
  Forall (fun x => forall s, w1 x s = w2 x s) l ->
  forall s, walk_list (map w1 l) s = walk_list (map w2 l) s.
Proof.
  induction 1 as [|x l Hx _ IH]; intros s; [done|]. cbn. rewrite !walk_list_cons, Hx.
  destruct (w2 x s); [apply IH|done].
Qed.

Section WalkerSpec.
Context {S A : Type} (this : StmtWalker S) (items : Stmt -> list A) (w : A -> Walk S).

(** The lists of nested statements. *)
Lemma walk_nested (l : list Stmt) :
  Forall (fun x => forall s, run_stmt_walk this x s = walk_list (map w (items x)) s) l ->
  forall s, walk_list (map go_stmt (map (fun c => SubStmt c (run_stmt_walk this c)) l)) s
            = walk_list (map w (concat (map items l))) s.
Proof.
  intros HF s. rewrite walk_list_concat, !map_map. cbn. by apply walk_list_ext.
Qed.
End WalkerSpec.

Lemma walk_list_one {S} (w : Walk S) s : walk_list [w] s = w s.
Proof. rewrite walk_list_cons. by destruct (w s). Qed.

(** A walker of the expressions visits [stmt_exprs] in order. *)
Lemma expr_walk_spec {S} (we : Expr -> Walk S) (this : StmtWalker S) :
  walk_stmt this = (fun _ dflt => dflt) ->
  walk_snode this = default_walk_snode we default_walk_local_var_of ->
  forall stmt s, run_stmt_walk this stmt s = walk_list (map we (stmt_exprs stmt)) s.
Proof.
  intros Hw Hn stmt. assert (Hv : forall (vs : list LocalVar) (s : S),
    walk_list (map (@default_walk_local_var_of S) vs) s = Some s) by (induction vs; done).
  induction stmt as [| | | | | | | | | | | | |wd b l vs p IHb| | |g t e IHt IHe|] using Stmt_ind';
    intros s; cbn [run_stmt_walk]; rewrite Hw, Hn; cbn [SNode.of_stmt default_walk_snode stmt_exprs map];
    rewrite ?walk_list_one; try done; unfold walk_then.
  - destruct (walk_list _ s); [apply Hv|done].
  - rewrite walk_list_cons. destruct (we a s); [cbn; by rewrite walk_list_one|done].
  - rewrite walk_list_cons. destruct (we a s); [cbn; by rewrite walk_list_one|done].
  - rewrite walk_list_cons. destruct (we wd s) as [s'|]; [|done]. cbn. rewrite Hv. cbn.
    by apply walk_nested.
  - rewrite walk_list_cons. destruct (we g s) as [s'|]; [|done]. cbn.
    rewrite map_app, walk_list_app, <- (walk_nested this stmt_exprs we t IHt).
    destruct (walk_list _ s') as [s''|]; [|done]. by apply walk_nested.
Qed.

(** `gather_labels` never panics and returns the labels the statement declares, in order. *)
Theorem gather_labels_spec (stmt : Stmt) : gather_labels stmt = Some (stmt_labels stmt).
Proof.
  pose (push := (fun l labels => Some (labels ++ [l])%list) : string -> Walk (list string)).
  assert (Hpush : forall ls acc, walk_list (map push ls) acc = Some (acc ++ ls)%list).
  { induction ls as [|l ls IH]; intros acc; cbn; [by rewrite app_nil_r|].
    rewrite walk_list_cons. cbn. by rewrite IH, <- app_assoc. }
  assert (He : forall es acc, walk_list (map (@default_walk_expr_of (list string)) es) acc = Some acc)
    by (induction es; done).
  assert (Hv : forall vs acc, walk_list (map (@default_walk_local_var_of (list string)) vs) acc = Some acc)
    by (induction vs; done).
  enough (forall acc, run_stmt_walk label_gatherer stmt acc = walk_list (map push (stmt_labels stmt)) acc)
    as Hgen by (unfold gather_labels; by rewrite Hgen, Hpush).
  induction stmt as [| | | | | | | | | | | | |wd b l vs p IHb| | |g t e IHt IHe|] using Stmt_ind';
    intros acc; cbn; unfold walk_then; rewrite ?He, ?Hv; try reflexivity.
  - cbn. rewrite Hv. reflexivity.
  - cbn. by apply walk_nested.
  - cbn. rewrite map_app, walk_list_app, <- (walk_nested label_gatherer stmt_labels push t IHt).
    destruct (walk_list _ acc) as [s''|]; [|done]. by apply walk_nested.
Qed.

(** ** Folders that map the expressions *)

Lemma outcome_bind_assoc {E A B C} (m : outcome E A) (f : A -> outcome E B) (g : B -> outcome E C) :
  ((m ≫= f) ≫= g) = (m ≫= fun x => f x ≫= g).
Proof. by destruct m. Qed.

Lemma outcome_fmap_bind {E A B C} (m : outcome E A) (f : A -> outcome E B) (g : B -> C) :
  (g <$> (m ≫= f)) = (m ≫= fun x => g <$> f x).
Proof. by destruct m. Qed.

Lemma mapM_app_outcome {E A B} (f : A -> outcome E B) (l1 l2 : list A) :
  mapM f (l1 ++ l2)%list = (xs ← mapM f l1; ys ← mapM f l2; mret (xs ++ ys)%list).
Proof.
  induction l1 as [|x l1 IH]; cbn; [by destruct (mapM f l2)|].
  destruct (f x); cbn; [|done..]. rewrite IH. destruct (mapM f l1); cbn; [|done..].
  by destruct (mapM f l2).
Qed.

(** What one needs of a traversal: the expressions of the result are those
    of the statement, mapped from left to right, and the rest is kept. *)
Definition maps_exprs {E} (f : Expr -> outcome E Expr) (s : Stmt) (r : outcome E Stmt) : Prop :=
  (stmt_exprs <$> r) = mapM f (stmt_exprs s)
  /\ (forall s', r = Val s' -> shape s' = shape s).

Section FolderSpec.
Context {E : Type} (f : Expr -> outcome E Expr) (this : StmtFolder unit E).
Context (Hfold : fold_stmt this = (fun _ dflt => dflt)).
Context (Hnode : fold_snode this = default_fold_snode (fold_expr_of this)).
Context (Hexpr : forall e u, fold_expr_of this e u = (e' ← f e; Val (e', u))).

Lemma sequence_exprs (es : list Expr) u :
  sequence (map (fold_expr_of this) es) u = (es' ← mapM f es; Val (es', u)).
Proof.
  induction es as [|e es IH]; [done|]. cbn. unfold ST_bind, mbind at 1. rewrite Hexpr.
  destruct (f e) as [e'| |]; cbn; [|done..]. unfold ST_bind, mbind at 1. rewrite IH.
  by destruct (mapM f es).
Qed.

(** The nested statements of a list. *)
Lemma sequence_stmts (l : list Stmt) u :
  Forall (fun s => exists r, run_stmt_fold this s u = (s' ← r; Val (s', u)) /\ maps_exprs f s r) l ->
  exists r, sequence (map go_stmt (map (fun c => SubStmt c (run_stmt_fold this c)) l)) u
            = (l' ← r; Val (l', u))
    /\ ((fun l' => concat (map stmt_exprs l')) <$> r) = mapM f (concat (map stmt_exprs l))
    /\ (forall l', r = Val l' -> map shape l' = map shape l).
Proof.
  induction 1 as [|s l (r & Hr & Hm & Hsh) _ (rl & Hrl & Hml & Hshl)].
  - exists (Val []). split; [done|]. split; [done|]. by intros l' [= <-].
  - exists (x ← r; xs ← rl; Val (x :: xs)). cbn. unfold ST_bind, mbind at 1. rewrite Hr.
    rewrite mapM_app_outcome, <- Hm, <- Hml. destruct r as [x| |]; cbn; [|done..].
    unfold ST_bind, mbind at 1. rewrite Hrl. destruct rl as [xs| |]; cbn; [|done..].
    split; [done|]. split; [done|]. intros l' [= <-]. cbn. by rewrite (Hsh x), (Hshl xs).
Qed.

(** With a state of type [unit], a computation is determined by its value. *)
Lemma unit_state {A} (o : outcome E (A * unit)) u : o = (x ← fst <$> o; Val (x, u)).
Proof. destruct u. by destruct o as [[x []]| |]. Qed.

Lemma nested_spec (l : list Stmt) :
  Forall (fun s => forall u, maps_exprs f s (fst <$> run_stmt_fold this s u)) l -> forall u,
  exists r, sequence (map go_stmt (map (fun c => SubStmt c (run_stmt_fold this c)) l)) u
            = (l' ← r; Val (l', u))
    /\ ((fun l' => concat (map stmt_exprs l')) <$> r) = mapM f (concat (map stmt_exprs l))
    /\ (forall l', r = Val l' -> map shape l' = map shape l).
Proof.
  intros HF u. apply sequence_stmts. eapply Forall_impl; [exact HF|]. intros s Hs.
  eexists. split; [apply unit_state|apply Hs].
Qed.

Lemma mapM_const {B} (es es' : list Expr) (c : B) :
  mapM f es = Val es' -> map (fun _ => c) es' = map (fun _ => c) es.
Proof.
  revert es'. induction es as [|e es IH]; intros es'; cbn; [by intros [= <-]|].
  destruct (f e); cbn; [|done..]. destruct (mapM f es) as [xs| |]; cbn; [|done..].
  intros [= <-]. cbn. by rewrite (IH xs).
Qed.

Lemma run_fold_spec (s : Stmt) u : maps_exprs f s (fst <$> run_stmt_fold this s u).
Proof.
  revert u.
  induction s as [| | |e p|e p|n es vs|a b k|n es q v p|n es q v|e p| | |a b k|w b l vs p IHb|w p|d
                 |g t e IHt IHe|e fd] using Stmt_ind'; intros u; unfold maps_exprs;
    cbn [run_stmt_fold]; rewrite Hfold, Hnode; cbn [SNode.of_stmt default_fold_snode];
    unfold mbind, ST_bind; rewrite ?Hexpr, ?sequence_exprs; cbn [stmt_exprs].
  all: try (split; [done|by intros s' [= <-]]).
  all: try (cbn; destruct (f _) as [e'| |]; cbn; (split; [done|by intros s' [= <-]])).
  all: try (cbn; destruct (f a) as [a'| |]; cbn; rewrite ?Hexpr; [|split; done..];
            destruct (f b) as [b'| |]; cbn; (split; [done|by intros s' [= <-]])).
  1-3: destruct (mapM f es) as [es'| |] eqn:Ees; cbn; (split; [done|intros s' [= <-]]);
    unfold shape; cbn; by rewrite (mapM_const es es').
  - destruct (nested_spec b IHb u) as (r & Hr & Hm & Hs). cbn. rewrite <- Hm.
    destruct (f w) as [w'| |]; cbn; [|split; done..]. rewrite Hr.
    destruct r as [b'| |]; cbn; (split; [done|intros s' [= <-]]).
    specialize (Hs b' eq_refl). unfold shape in *. cbn. f_equal. exact Hs.
  - destruct (nested_spec t IHt u) as (r & Hr & Hm & Hs).
    destruct (nested_spec e IHe u) as (r2 & Hr2 & Hm2 & Hs2). cbn.
    rewrite mapM_app_outcome, <- Hm, <- Hm2.
    destruct (f g) as [g'| |]; cbn; [|split; done..]. rewrite Hr.
    destruct r as [t'| |]; cbn; [|split; done..]. rewrite Hr2.
    destruct r2 as [e'| |]; cbn; (split; [done|intros s' [= <-]]).
    specialize (Hs t' eq_refl). specialize (Hs2 e' eq_refl). unfold shape in *. cbn.
    f_equal; [exact Hs|exact Hs2].
Qed.
End FolderSpec.

(** [map_expr] and [fallible_map_expr] apply the function to the expressions of the statement. *)
Theorem map_expr_spec {E} (f : Expr -> outcome E Expr) (g : Expr -> option Expr) (s : Stmt) :
  (stmt_exprs <$> fallible_map_expr f s) = mapM f (stmt_exprs s)
  /\ (forall s', fallible_map_expr f s = Val s' -> shape s' = shape s)
  /\ (stmt_exprs <$> map_expr g s) = mapM_opt g (stmt_exprs s)
  /\ (forall s', map_expr g s = Some s' -> shape s' = shape s).
Proof.
  destruct (run_fold_spec f (fallible_stmt_expr_substitutor f) eq_refl eq_refl
              ltac:(done) s tt) as [H1 H2].
  destruct (run_fold_spec (E := Empty_set) (fun e => unwrap (g e)) (stmt_expr_substitutor g)
              eq_refl eq_refl ltac:(intros e u; cbn; unfold lift; by destruct (g e)) s tt) as [H3 H4].
  split; [done|]. split; [done|].
  assert (Hm : forall es, mapM (M := outcome Empty_set) (fun e => unwrap (g e)) es = unwrap (mapM_opt g es)).
  { induction es as [|e es IH]; [done|]. cbn. destruct (g e); cbn; [|done]. rewrite IH.
    by destruct (mapM_opt g es). }
  unfold map_expr, run_stmt_infallible.
  destruct (run_stmt_fold (stmt_expr_substitutor g) s tt) as [[s' u]|[]|]; cbn in *.
  - split; [|intros s1 [= <-]; by apply H4]. rewrite Hm in H3.
    destruct (mapM_opt g (stmt_exprs s)); cbn in H3; congruence.
  - split; [|done]. rewrite Hm in H3. by destruct (mapM_opt g (stmt_exprs s)).
Qed.


(** *** Folders that do not fail *)

Section PureFolder.
Context {S E : Type} (this : StmtFolder S E) (f : Expr -> Expr).
Context (Hfold : fold_stmt this = (fun _ dflt => dflt)).
Context (Hnode : fold_snode this = default_fold_snode (fold_expr_of this)).

Definition folds_to (e : Expr) : Prop := forall s, fold_expr_of this e s = Val (f e, s).

Lemma sequence_pure (es : list Expr) s :
  Forall folds_to es -> sequence (map (fold_expr_of this) es) s = Val (map f es, s).
Proof.
  induction 1 as [|e es He _ IH]; [done|]. cbn. unfold mbind, ST_bind. by rewrite He, IH.
Qed.

Lemma sequence_stmts_pure (l : list Stmt) s :
  Forall (fun x => Forall folds_to (stmt_exprs x) ->
    forall s, run_stmt_fold this x s = Val (stmt_map f x, s)) l ->
  Forall folds_to (concat (map stmt_exprs l)) ->
  sequence (map go_stmt (map (fun c => SubStmt c (run_stmt_fold this c)) l)) s
  = Val (map (stmt_map f) l, s).
Proof.
  induction 1 as [|x l Hx _ IH]; [done|]. cbn. intros [Hxe Hle]%Forall_app.
  unfold mbind, ST_bind. by rewrite (Hx Hxe), IH.
Qed.

Lemma run_stmt_fold_pure (s : Stmt) :
  Forall folds_to (stmt_exprs s) -> forall st, run_stmt_fold this s st = Val (stmt_map f s, st).
Proof.
  induction s as [| | |e p|e p|n es vs|a b k|n es q v p|n es q v|e p| | |a b k|w b l vs p IHb|w p|d
                 |g t e IHt IHe|e fd] using Stmt_ind'; intros HF st;
    cbn [run_stmt_fold stmt_exprs] in *; rewrite Hfold, Hnode;
    cbn [SNode.of_stmt default_fold_snode stmt_map]; unfold mbind, ST_bind;
    rewrite ?Forall_cons, ?Forall_app in HF; try done.
  all: try (rewrite sequence_pure by done; done).
  all: try (by destruct HF as [-> _]).
  all: try (by destruct HF as (-> & -> & _)).
  - destruct HF as [-> Hb]. by rewrite sequence_stmts_pure.
  - destruct HF as (-> & Ht & He). rewrite sequence_stmts_pure by done. by rewrite sequence_stmts_pure.
Qed.
End PureFolder.

Lemma run_stmt_infallible_pure {S} (this : StmtFolder S Empty_set) (f : Expr -> Expr) s st :
  fold_stmt this = (fun _ dflt => dflt) -> fold_snode this = default_fold_snode (fold_expr_of this) ->
  Forall (folds_to this f) (stmt_exprs s) ->
  run_stmt_infallible this s st = Some (stmt_map f s, st).
Proof.
  intros Hf Hn HF. unfold run_stmt_infallible. by rewrite (run_stmt_fold_pure this f Hf Hn s HF).
Qed.

Lemma stmt_exprs_map f s : stmt_exprs (stmt_map f s) = map f (stmt_exprs s).
Proof.
  assert (Hl : forall l, Forall (fun s => stmt_exprs (stmt_map f s) = map f (stmt_exprs s)) l ->
    concat (map stmt_exprs (map (stmt_map f) l)) = map f (concat (map stmt_exprs l))).
  { induction 1 as [|x l Hx _ IH]; [done|]. cbn. by rewrite map_app, Hx, IH. }
  induction s using Stmt_ind'; try done; cbn; by rewrite ?map_app, !Hl.
Qed.
