(* ===== verification/Cfg.v ===== *)
(** * Control flow graphs

    [prusti-common/src/vir/cfg/method.rs]: the graph of basic blocks of a
    method, its builder functions and fresh names; the closures-based
    traversals of [cfg/visitor.rs] and [vir/utils.rs].  The graph algorithms
    of the same file are in [CfgGraph].

    The vector indexings of the code panic out of range ([None]).  The
    random [Uuid] of a method is an argument of [new]. *)

From Stdlib Require Import ZArith.
From stdpp Require Import pretty.
From S2P Require Import Prelude Ast ExprEq ExprPlace ExprTransformers ExprOps Collections Items Borrows.
From S2P Require Import Stmt.

Definition RETURN_LABEL : string := "end_of_method".

(** The 128-bit value of a [uuid::Uuid]. *)
Definition Uuid : Type := Z.

(** ** Block indices and successors *)

Module CfgBlockIndex.
Record CfgBlockIndex : Type := make { method_uuid : Uuid; block_index : nat }.

Definition eqb (a b : CfgBlockIndex) : bool :=
  (method_uuid a == method_uuid b) && (block_index a == block_index b).

Definition set_uuid (self : CfgBlockIndex) (method_uuid : Uuid) : CfgBlockIndex :=
  make method_uuid (block_index self).

Definition weak_eq (self other : CfgBlockIndex) : bool := block_index self == block_index other.

Definition index (self : CfgBlockIndex) : nat := block_index self.
End CfgBlockIndex.
Abbreviation CfgBlockIndex := CfgBlockIndex.CfgBlockIndex.
Abbreviation block_index := CfgBlockIndex.block_index.
Abbreviation method_uuid := CfgBlockIndex.method_uuid.

#[export] Instance CfgBlockIndex_PartialEq : PartialEq CfgBlockIndex := CfgBlockIndex.eqb.
#[export] Instance CfgBlockIndex_peq_eq : PartialEqLeibniz CfgBlockIndex.
Proof.
  intros [u i] [v j]. unfold peq, CfgBlockIndex_PartialEq, CfgBlockIndex.eqb. cbn.
  rewrite andb_true_iff, (peq_eq (A := Z)), (peq_eq (A := nat)). split; [by intros [-> ->]|].
  by intros [= -> ->].
Qed.

Module Successor.
Inductive Successor : Type :=
  | Undefined
  | Return
  | Goto (target : CfgBlockIndex)
  | GotoSwitch (guarded_targets : list (Expr * CfgBlockIndex)) (default_target : CfgBlockIndex).

Definition is_return (self : Successor) : bool := match self with Return => true | _ => false end.

Definition get_following (self : Successor) : list CfgBlockIndex :=
  match self with
  | Undefined | Return => []
  | Goto target => [target]
  | GotoSwitch guarded_targets default_target => (map snd guarded_targets ++ [default_target])%list
  end.

Definition replace_target (self : Successor) (src dst : CfgBlockIndex) : option Successor :=
  _ ← assert_ (method_uuid src == method_uuid dst);
  Some match self with
       | Goto target => Goto (if target == src then dst else target)
       | GotoSwitch guarded_targets default_target =>
           GotoSwitch (map (fun x => (fst x, if snd x == src then dst else snd x)) guarded_targets)
             (if default_target == src then dst else default_target)
       | x => x
       end.

Definition replace_uuid (self : Successor) (new_uuid : Uuid) : Successor :=
  match self with
  | Goto target => Goto (CfgBlockIndex.set_uuid target new_uuid)
  | GotoSwitch guarded_targets default_target =>
      GotoSwitch (map (fun x => (fst x, CfgBlockIndex.set_uuid (snd x) new_uuid)) guarded_targets)
        (CfgBlockIndex.set_uuid default_target new_uuid)
  | x => x
  end.
End Successor.
Abbreviation Successor := Successor.Successor.

(** ** Methods *)

Module CfgMethod.
Record CfgBlock : Type := make_block { stmts : list Stmt; successor : Successor }.

Record CfgMethod : Type := make {
  uuid : Uuid;
  method_name : string;
  formal_arg_count : nat;
  formal_returns : list LocalVar;
  local_vars : list LocalVar;
  labels : HashSet.t string;
  reserved_labels : HashSet.t string;
  basic_blocks : list CfgBlock;
  basic_blocks_labels : list string;
  fresh_var_index : Z;
  fresh_label_index : Z
}.

Definition new (uuid : Uuid) (method_name : string) (formal_arg_count : nat)
    (formal_returns local_vars : list LocalVar) (reserved_labels : list string) : CfgMethod :=
  make uuid method_name formal_arg_count formal_returns local_vars []
    (HashSet.from_list reserved_labels) [] [] 0 0.

(** Field updates. *)
Definition with_formal_returns (m : CfgMethod) x : CfgMethod :=
  make (uuid m) (method_name m) (formal_arg_count m) x (local_vars m) (labels m)
    (reserved_labels m) (basic_blocks m) (basic_blocks_labels m) (fresh_var_index m)
    (fresh_label_index m).
Definition with_local_vars (m : CfgMethod) x : CfgMethod :=
  make (uuid m) (method_name m) (formal_arg_count m) (formal_returns m) x (labels m)
    (reserved_labels m) (basic_blocks m) (basic_blocks_labels m) (fresh_var_index m)
    (fresh_label_index m).
Definition with_labels (m : CfgMethod) x : CfgMethod :=
  make (uuid m) (method_name m) (formal_arg_count m) (formal_returns m) (local_vars m) x
    (reserved_labels m) (basic_blocks m) (basic_blocks_labels m) (fresh_var_index m)
    (fresh_label_index m).
Definition with_blocks (m : CfgMethod) x : CfgMethod :=
  make (uuid m) (method_name m) (formal_arg_count m) (formal_returns m) (local_vars m) (labels m)
    (reserved_labels m) x (basic_blocks_labels m) (fresh_var_index m) (fresh_label_index m).
Definition with_blocks_labels (m : CfgMethod) x : CfgMethod :=
  make (uuid m) (method_name m) (formal_arg_count m) (formal_returns m) (local_vars m) (labels m)
    (reserved_labels m) (basic_blocks m) x (fresh_var_index m) (fresh_label_index m).
Definition with_fresh_var_index (m : CfgMethod) x : CfgMethod :=
  make (uuid m) (method_name m) (formal_arg_count m) (formal_returns m) (local_vars m) (labels m)
    (reserved_labels m) (basic_blocks m) (basic_blocks_labels m) x (fresh_label_index m).
Definition with_fresh_label_index (m : CfgMethod) x : CfgMethod :=
  make (uuid m) (method_name m) (formal_arg_count m) (formal_returns m) (local_vars m) (labels m)
    (reserved_labels m) (basic_blocks m) (basic_blocks_labels m) (fresh_var_index m) x.

Definition name (self : CfgMethod) : string := method_name self.

Definition get_identifier (self : CfgMethod) : string := method_name self.

Definition index_block (self : CfgMethod) (index : nat) : CfgBlockIndex :=
  CfgBlockIndex.make (uuid self) index.

(** *** Fresh names *)

Definition is_fresh_local_name (self : CfgMethod) (name : string) : bool :=
  forallb (fun x => LocalVar.name x != name) (formal_returns self)
  && forallb (fun x => LocalVar.name x != name) (local_vars self)
  && negb (HashSet.contains (labels self) name)
  && forallb (fun x => x != name) (basic_blocks_labels self).

(** [i32] addition of the release profile wraps. *)
Definition wrap_i32 (z : Z) : Z := ((z + 2147483648) mod 4294967296 - 2147483648)%Z.

Definition is_taken (self : CfgMethod) (candidate_name : string) : bool :=
  negb (is_fresh_local_name self candidate_name)
  || HashSet.contains (reserved_labels self) candidate_name.

(** The candidates [prefix0], [prefix1], ... from [index] on; the result is
    the first one that is not taken with the index after it. *)
Fixpoint fresh_name (self : CfgMethod) (prefix : string) (fuel : nat) (index : Z) :
    option (string * Z) :=
  let candidate_name := prefix ++ pretty index in
  let index' := wrap_i32 (index + 1) in
  if is_taken self candidate_name then
    match fuel with
    | 0 => None
    | S fuel' => fresh_name self prefix fuel' index'
    end
  else Some (candidate_name, index').

(** The names that can make a candidate be taken; one candidate more than
    there are names suffices. *)
Definition all_names (self : CfgMethod) : list string :=
  (map LocalVar.name (formal_returns self) ++ map LocalVar.name (local_vars self)
   ++ labels self ++ basic_blocks_labels self ++ reserved_labels self)%list.

Definition generate_fresh_local_var_name (self : CfgMethod) : option (string * CfgMethod) :=
  '(candidate_name, index) ←
    fresh_name self "__t" (length (all_names self)) (fresh_var_index self);
  Some (candidate_name, with_fresh_var_index self index).

Definition get_fresh_label_name (self : CfgMethod) : option (string * CfgMethod) :=
  '(candidate_name, index) ←
    fresh_name self "l" (length (all_names self)) (fresh_label_index self);
  Some (candidate_name, with_fresh_label_index self index).

(** *** Variables and labels *)

Definition get_all_vars (self : CfgMethod) : list LocalVar :=
  (formal_returns self ++ local_vars self)%list.

Definition get_all_labels (self : CfgMethod) : list string :=
  (labels self ++ basic_blocks_labels self)%list.

Definition add_fresh_local_var (self : CfgMethod) (typ : Ty) : option (LocalVar * CfgMethod) :=
  '(name, self) ← generate_fresh_local_var_name self;
  let local_var := LocalVar.new name typ in
  Some (local_var, with_local_vars self (local_vars self ++ [local_var])%list).

Definition add_local_var (self : CfgMethod) (name : string) (typ : Ty) : option CfgMethod :=
  _ ← assert_ (is_fresh_local_name self name);
  Some (with_local_vars self (local_vars self ++ [LocalVar.new name typ])%list).

Definition add_formal_return (self : CfgMethod) (name : string) (typ : Ty) : option CfgMethod :=
  _ ← assert_ (is_fresh_local_name self name);
  Some (with_formal_returns self (formal_returns self ++ [LocalVar.new name typ])%list).

(** *** Blocks and statements *)

Fixpoint register_labels (self : CfgMethod) (label_names : list string) : option CfgMethod :=
  match label_names with
  | [] => Some self
  | label_name :: rest =>
      _ ← assert_ (is_fresh_local_name self label_name);
      register_labels (with_labels self (HashSet.insert (labels self) label_name)) rest
  end.

Definition add_stmt (self : CfgMethod) (index : CfgBlockIndex) (stmt : Stmt) : option CfgMethod :=
  label_names ← gather_labels stmt;
  self ← register_labels self label_names;
  block ← basic_blocks self !! block_index index;
  Some (with_blocks self
    (<[block_index index := make_block (stmts block ++ [stmt])%list (successor block)]>
       (basic_blocks self))).

Fixpoint add_stmts (self : CfgMethod) (index : CfgBlockIndex) (stmts : list Stmt) :
    option CfgMethod :=
  match stmts with
  | [] => Some self
  | stmt :: rest => self ← add_stmt self index stmt; add_stmts self index rest
  end.

Definition is_alphabetic (c : Ascii.ascii) : bool :=
  let n := Ascii.nat_of_ascii c in
  ((Nat.leb 65 n && Nat.leb n 90) || (Nat.leb 97 n && Nat.leb n 122))%nat.

Definition is_numeric (c : Ascii.ascii) : bool :=
  let n := Ascii.nat_of_ascii c in (Nat.leb 48 n && Nat.leb n 57)%nat.

Definition underscore : Ascii.ascii := Ascii.ascii_of_nat 95.

Definition valid_label (label : string) : bool :=
  match String.list_ascii_of_string label with
  | [] => true
  | c :: cs =>
      (is_alphabetic c || Ascii.eqb c underscore)
      && forallb (fun c => is_alphabetic c || is_numeric c || Ascii.eqb c underscore) cs
  end.

Definition add_block (self : CfgMethod) (label : string) (stmts : list Stmt) :
    option (CfgBlockIndex * CfgMethod) :=
  _ ← assert_ (valid_label label);
  _ ← assert_ (forallb (fun l => l != label) (basic_blocks_labels self));
  _ ← assert_ (label != RETURN_LABEL);
  let index := length (basic_blocks self) in
  let self := with_blocks_labels self (basic_blocks_labels self ++ [label])%list in
  let self :=
    with_blocks self (basic_blocks self ++ [make_block stmts Successor.Undefined])%list in
  Some (index_block self index, self).

Definition get_successor (self : CfgMethod) (index : CfgBlockIndex) : option Successor :=
  _ ← assert_ (uuid self == method_uuid index);
  successor <$> basic_blocks self !! block_index index.

Definition set_successor (self : CfgMethod) (index : CfgBlockIndex) (successor : Successor) :
    option CfgMethod :=
  _ ← assert_ (uuid self == method_uuid index);
  block ← basic_blocks self !! block_index index;
  Some (with_blocks self
    (<[block_index index := make_block (stmts block) successor]> (basic_blocks self))).

Definition get_indices (self : CfgMethod) : list CfgBlockIndex :=
  map (index_block self) (seq 0 (length (basic_blocks self))).

Definition get_block_label (self : CfgMethod) (index : CfgBlockIndex) : option string :=
  basic_blocks_labels self !! block_index index.
End CfgMethod.
Abbreviation CfgBlock := CfgMethod.CfgBlock.
Abbreviation CfgMethod := CfgMethod.CfgMethod.
Abbreviation basic_blocks := CfgMethod.basic_blocks.

(** ** Traversals

    [cfg/visitor.rs]: the closures update a state of their own. *)

Section Traversals.
Context {S : Type}.

Definition walk_statements (self : CfgMethod) (walker : Stmt -> Walk S) : Walk S :=
  walk_list (map (fun block => walk_list (map walker (CfgMethod.stmts block))) (basic_blocks self)).

Definition walk_successors (self : CfgMethod) (walker : Successor -> Walk S) : Walk S :=
  walk_list (map (fun block => walker (CfgMethod.successor block)) (basic_blocks self)).

(** Every expression of a statement or of a guard, not its sub-expressions. *)
Definition expr_stmt_walker (walker : Expr -> Walk S) : StmtWalker S :=
  {| walk_stmt := fun _ dflt => dflt;
     walk_expr_of := walker;
     walk_local_var_of := default_walk_local_var_of;
     walk_snode := default_walk_snode walker default_walk_local_var_of |}.

Definition walk_successor_guards (walker : Expr -> Walk S) (succ : Successor) : Walk S :=
  match succ with
  | Successor.GotoSwitch targets _ => walk_list (map (fun t => walker (fst t)) targets)
  | _ => walk_nop
  end.

Definition walk_expressions (self : CfgMethod) (walker : Expr -> Walk S) : Walk S :=
  walk_then (walk_statements self (run_stmt_walk (expr_stmt_walker walker)))
    (walk_successors self (walk_successor_guards walker)).

(** [utils.rs]: [walk_method], [walk_methods] and [walk_functions], for a
    walker of statements and of expressions. *)
Definition walk_method (method : CfgMethod) (sw : StmtWalker S) (ew : ExprWalker S) : Walk S :=
  walk_then (walk_statements method (run_stmt_walk sw))
    (walk_successors method (walk_successor_guards (run_walk ew))).

Definition walk_methods (methods : list CfgMethod) (sw : StmtWalker S) (ew : ExprWalker S) :
    Walk S :=
  walk_list (map (fun method => walk_method method sw ew) methods).

Definition walk_functions (functions : list Function) (ew : ExprWalker S) : Walk S :=
  walk_list (map (fun function =>
    walk_then (walk_list (map (run_walk ew) (Function.pres function)))
      (walk_then (walk_list (map (run_walk ew) (Function.posts function)))
        (match Function.body function with Some e => run_walk ew e | None => walk_nop end)))
    functions).
End Traversals.

(** [patch_statements]: the closure may fail. *)
Definition patch_statements {S E} (self : CfgMethod) (walker : Stmt -> ST S E Stmt) :
    ST S E CfgMethod :=
  blocks ← sequence (map (fun block =>
    stmts ← sequence (map walker (CfgMethod.stmts block));
    mret (CfgMethod.make_block stmts (CfgMethod.successor block))) (basic_blocks self));
  mret (CfgMethod.with_blocks self blocks).

(** [retain_stmts]. *)
Definition retain_stmts (self : CfgMethod) (f : Stmt -> bool) : CfgMethod :=
  CfgMethod.with_blocks self
    (map (fun block => CfgMethod.make_block (List.filter f (CfgMethod.stmts block))
                         (CfgMethod.successor block)) (basic_blocks self)).
