(* ===== verification/CfgGraph.v ===== *)
(** * Graph algorithms on control flow graphs

    The rest of [prusti-common/src/vir/cfg/method.rs] (predecessors, loop
    detection, topological sort, paths) and [cfg/assigned_vars.rs].

    Loops over worklists take a fuel argument: one unit per node taken from
    the worklist.  Every node enters a worklist at most once, so the number
    of basic blocks is enough; [CfgLoops], [CfgTopo] and [CfgPaths] prove it. *)

From Stdlib Require Import ZArith.
From S2P Require Import Prelude Ast ExprEq ExprPlace ExprTransformers ExprOps Collections Items Borrows.
From S2P Require Import Stmt Cfg.
Import CfgMethod.

(** [for (i, x) in v.iter().enumerate()]. *)
Definition enumerate {A} (l : list A) : list (nat * A) := zip (seq 0 (length l)) l.

(** [self.basic_blocks[index].successor.get_following()]. *)
Definition following (self : CfgMethod) (index : nat) : option (list CfgBlockIndex) :=
  block ← basic_blocks self !! index;
  Some (Successor.get_following (successor block)).

(** ** Predecessors *)

Definition get_preceding (self : CfgMethod) (target_index : CfgBlockIndex) :
    option (list CfgBlockIndex) :=
  _ ← assert_ (uuid self == method_uuid target_index);
  Some (map (fun x => index_block self (fst x))
    (List.filter (fun x => existsb (fun b => b == target_index)
                             (Successor.get_following (successor (snd x))))
       (enumerate (basic_blocks self)))).

(** [result.entry(key).or_insert_with(Vec::new).push(index)]. *)
Definition push_entry (result : HashMap.t nat (list nat)) (key index : nat) :
    HashMap.t nat (list nat) :=
  let entry := match HashMap.get result key with Some l => l | None => [] end in
  HashMap.insert result key (entry ++ [index])%list.

Definition predecessors (self : CfgMethod) : HashMap.t nat (list nat) :=
  foldl (fun result ib =>
    foldl (fun result succ => push_entry result (block_index succ) (fst ib)) result
      (Successor.get_following (successor (snd ib))))
    HashMap.empty (enumerate (basic_blocks self)).

(** ** Loop detection *)

(** [in_degree[succ.index()] += 1] for every successor.  The vector is
    [vec![0; n]] and nothing else fixes the type of its elements, so they are
    [i32]; the arithmetic of the release profile wraps. *)
Fixpoint count_in_degrees (succs : list CfgBlockIndex) (in_degree : list Z) : option (list Z) :=
  match succs with
  | [] => Some in_degree
  | succ :: rest =>
      d ← in_degree !! CfgBlockIndex.index succ;
      count_in_degrees rest (<[CfgBlockIndex.index succ := wrap_i32 (d + 1)]> in_degree)
  end.

Fixpoint in_degrees (blocks : list CfgBlock) (in_degree : list Z) : option (list Z) :=
  match blocks with
  | [] => Some in_degree
  | block :: rest =>
      in_degree ← count_in_degrees (Successor.get_following (successor block)) in_degree;
      in_degrees rest in_degree
  end.

Definition zero_indices (in_degree : list Z) : list nat :=
  map fst (List.filter (fun x => Z.eqb (snd x) 0) (enumerate in_degree)).

Fixpoint relax (succs : list CfgBlockIndex) (in_degree : list Z) (queue : list nat) :
    option (list Z * list nat) :=
  match succs with
  | [] => Some (in_degree, queue)
  | succ :: rest =>
      d ← in_degree !! CfgBlockIndex.index succ;
      let d := wrap_i32 (d - 1) in
      relax rest (<[CfgBlockIndex.index succ := d]> in_degree)
        (if Z.eqb d 0 then (queue ++ [CfgBlockIndex.index succ])%list else queue)
  end.

Fixpoint visit_queue (self : CfgMethod) (fuel : nat) (in_degree : list Z) (queue : list nat)
    (visited_count : nat) : option nat :=
  match queue with
  | [] => Some visited_count
  | curr_index :: queue =>
      match fuel with
      | 0 => None
      | S fuel' =>
          succs ← following self curr_index;
          '(in_degree, queue) ← relax succs in_degree queue;
          visit_queue self fuel' in_degree queue (S visited_count)
      end
  end.

Definition has_loops (self : CfgMethod) : option bool :=
  let n := length (basic_blocks self) in
  in_degree ← in_degrees (basic_blocks self) (replicate n 0%Z);
  visited_count ← visit_queue self n in_degree (zero_indices in_degree) 0;
  Some (negb (Nat.eqb visited_count n)).

(** ** Topological sort *)

(** The loop over the successors, given the recursive call. *)
Fixpoint visit_following
    (visit : list bool -> list CfgBlockIndex -> nat -> option (list bool * list CfgBlockIndex))
    (following : list CfgBlockIndex) (visited : list bool) (topo_sorted : list CfgBlockIndex) :
    option (list bool * list CfgBlockIndex) :=
  match following with
  | [] => Some (visited, topo_sorted)
  | b :: rest =>
      let index := block_index b in
      v ← visited !! index;
      if (v : bool) then visit_following visit rest visited topo_sorted
      else
        '(visited, topo_sorted) ← visit visited topo_sorted index;
        visit_following visit rest visited topo_sorted
  end.

Fixpoint topological_sort_impl (self : CfgMethod) (fuel : nat) (visited : list bool)
    (topo_sorted : list CfgBlockIndex) (curr_index : nat) :
    option (list bool * list CfgBlockIndex) :=
  match fuel with
  | 0 => None
  | S fuel' =>
      v ← visited !! curr_index;
      _ ← assert_ (negb v);
      let visited := <[curr_index := true]> visited in
      succs ← following self curr_index;
      '(visited, topo_sorted) ←
        visit_following (topological_sort_impl self fuel') succs visited topo_sorted;
      Some (visited, (topo_sorted ++ [index_block self curr_index])%list)
  end.

(** The loop over the blocks of the method. *)
Fixpoint topological_sort_all (self : CfgMethod) (fuel : nat) (indices : list nat)
    (visited : list bool) (topo_sorted : list CfgBlockIndex) :
    option (list bool * list CfgBlockIndex) :=
  match indices with
  | [] => Some (visited, topo_sorted)
  | index :: rest =>
      v ← visited !! index;
      if (v : bool) then topological_sort_all self fuel rest visited topo_sorted
      else
        '(visited, topo_sorted) ← topological_sort_impl self fuel visited topo_sorted index;
        topological_sort_all self fuel rest visited topo_sorted
  end.

Definition get_topological_sort (self : CfgMethod) : option (list CfgBlockIndex) :=
  match basic_blocks self with
  | [] => Some []
  | _ =>
      let n := length (basic_blocks self) in
      let visited := <[0 := true]> (replicate n false) in
      '(_, topo_sorted) ← topological_sort_all self n (seq 1 (n - 1)) visited [];
      Some (index_block self 0 :: rev topo_sorted)
  end.

(** ** Paths *)

(** Follow [came_from] back to the start; the path is built in reverse. *)
Fixpoint backtrack (came_from : list (option CfgBlockIndex)) (fuel : nat)
    (path : list CfgBlockIndex) (index : CfgBlockIndex) : option (list CfgBlockIndex) :=
  from ← came_from !! block_index index;
  match from with
  | None => Some path
  | Some previous =>
      match fuel with
      | 0 => None
      | S fuel' => backtrack came_from fuel' (path ++ [previous])%list previous
      end
  end.

(** The loop over the successors of [curr_block_index]: a path when the end
    block is met, the new search state otherwise. *)
Fixpoint scan_successors (end_block curr_block_index : CfgBlockIndex) (succs : list CfgBlockIndex)
    (visited : list bool) (came_from : list (option CfgBlockIndex))
    (to_visit : list CfgBlockIndex) :
    option (list CfgBlockIndex
            + list bool * list (option CfgBlockIndex) * list CfgBlockIndex) :=
  match succs with
  | [] => Some (inr (visited, came_from, to_visit))
  | successor_block :: rest =>
      if CfgBlockIndex.weak_eq successor_block end_block then
        path ← backtrack came_from (length came_from) [successor_block; curr_block_index]
                 curr_block_index;
        Some (inl (rev path))
      else
        v ← visited !! block_index successor_block;
        if (v : bool) then
          scan_successors end_block curr_block_index rest visited came_from to_visit
        else
          scan_successors end_block curr_block_index rest
            (<[block_index successor_block := true]> visited)
            (<[block_index successor_block := Some curr_block_index]> came_from)
            (to_visit ++ [successor_block])%list
  end.

Fixpoint search_path (self : CfgMethod) (end_block : CfgBlockIndex) (fuel : nat)
    (visited : list bool) (came_from : list (option CfgBlockIndex))
    (to_visit : list CfgBlockIndex) : option (option (list CfgBlockIndex)) :=
  match to_visit with
  | [] => Some None
  | curr_block_index :: to_visit =>
      match fuel with
      | 0 => None
      | S fuel' =>
          succs ← following self (block_index curr_block_index);
          result ← scan_successors end_block curr_block_index succs visited came_from to_visit;
          match result with
          | inl path => Some (Some path)
          | inr (visited, came_from, to_visit) =>
              search_path self end_block fuel' visited came_from to_visit
          end
      end
  end.

Definition find_path (self : CfgMethod) (start_block end_block : CfgBlockIndex) :
    option (option (list CfgBlockIndex)) :=
  if CfgBlockIndex.weak_eq start_block end_block then Some (Some [start_block])
  else
    let n := length (basic_blocks self) in
    _ ← replicate n false !! block_index start_block;
    search_path self end_block n (<[block_index start_block := true]> (replicate n false))
      (replicate n None) [start_block].

(** ** Assigned variables *)

(** [check_block]. *)
Definition stmt_assigned_vars (stmt : Stmt) : list LocalVar :=
  match stmt with
  | Stmt.MethodCall _ _ targets => targets
  | Stmt.Assign (Expr.Local var _) _ _ => [var]
  | _ => []
  end.

Definition check_block (vars : HashSet.t LocalVar) (block : CfgBlock) : HashSet.t LocalVar :=
  foldl (fun vars stmt => HashSet.union vars (stmt_assigned_vars stmt)) vars (stmts block).

(** The loop over the predecessors of a block. *)
Fixpoint mark_predecessors (preds : list nat) (to_visit : list nat) (marked : HashSet.t nat) :
    list nat * HashSet.t nat :=
  match preds with
  | [] => (to_visit, marked)
  | predecessor :: rest =>
      if HashSet.contains marked predecessor then mark_predecessors rest to_visit marked
      else mark_predecessors rest (to_visit ++ [predecessor])%list
             (HashSet.insert marked predecessor)
  end.

(** [while let Some(current) = to_visit.pop()]: the last element. *)
Fixpoint collect_loop (self : CfgMethod) (preds : HashMap.t nat (list nat)) (fuel : nat)
    (to_visit : list nat) (marked : HashSet.t nat) (variables : HashSet.t LocalVar) :
    option (HashSet.t LocalVar) :=
  match last to_visit with
  | None => Some variables
  | Some current =>
      match fuel with
      | 0 => None
      | S fuel' =>
          let to_visit := removelast to_visit in
          let '(to_visit, marked) :=
            match HashMap.get preds current with
            | Some current_predecessors => mark_predecessors current_predecessors to_visit marked
            | None => (to_visit, marked)
            end in
          block ← basic_blocks self !! current;
          collect_loop self preds fuel' to_visit marked (check_block variables block)
      end
  end.

(** [sort_by(|a, b| a.name.cmp(&b.name))], a stable sort. *)
Fixpoint insert_by_name (v : LocalVar) (l : list LocalVar) : list LocalVar :=
  match l with
  | [] => [v]
  | w :: l' =>
      match String.compare (LocalVar.name v) (LocalVar.name w) with
      | Lt | Eq => v :: l
      | Gt => w :: insert_by_name v l'
      end
  end.

Definition sort_by_name (l : list LocalVar) : list LocalVar := foldr insert_by_name [] l.

Definition collect_assigned_vars (method : CfgMethod) (start_block end_block : CfgBlockIndex) :
    option (list LocalVar) :=
  let start := block_index start_block in
  let end_ := block_index end_block in
  let marked := HashSet.insert (HashSet.insert [] end_) start in
  variables ← collect_loop method (predecessors method) (length (basic_blocks method))
                [start] marked [];
  Some (sort_by_name variables).
