(* ===== verification/CfgLoops.v ===== *)
(** * Loop detection is correct

    [CfgMethod::has_loops] counts in-degrees and removes blocks of in-degree
    zero; it answers true exactly when the graph has a cycle.  Also the edge
    relation of a method, which the other graph proofs use. *)

From Stdlib Require Import Lia ZArith.
From stdpp Require Import relations.
From S2P Require Import Prelude Ast ExprEq ExprPlace ExprTransformers ExprOps Collections Items Graph.
From S2P Require Import Borrows Stmt Cfg CfgGraph.

(** ** The edges of a method *)

Definition succ_of (m : CfgMethod) (u : nat) : list nat :=
  match following m u with Some succs => map block_index succs | None => [] end.

Definition edge (m : CfgMethod) (u v : nat) : Prop := v ∈ succ_of m u.

#[export] Instance edge_dec m u v : Decision (edge m u v).
Proof. unfold edge. apply _. Defined.

(** All jump targets are blocks of the method. *)
Definition targets_ok (m : CfgMethod) : Prop :=
  forall u v, edge m u v -> v < length (basic_blocks m).

Lemma following_total m u : u < length (basic_blocks m) ->
  exists succs, following m u = Some succs /\ succ_of m u = map block_index succs.
Proof.
  intros Hu. unfold succ_of, following. apply lookup_lt_is_Some in Hu as [b Hb]. rewrite Hb. cbn. eauto.
Qed.

Lemma edge_source m u v : edge m u v -> u < length (basic_blocks m).
Proof.
  unfold edge, succ_of, following. destruct (basic_blocks m !! u) as [b|] eqn:E.
  - intros _. by eapply lookup_lt_Some.
  - cbn. by intros ?%elem_of_nil.
Qed.

(** ** Counting edges *)

Definition count (v : nat) (l : list nat) : nat := count_occ Nat.eq_dec l v.
#[global] Arguments count : simpl never.

Lemma count_pos v l : v ∈ l <-> count v l <> 0.
Proof. rewrite list_elem_of_In, (count_occ_In Nat.eq_dec). unfold count. lia. Qed.

Lemma count_nil v : count v [] = 0.
Proof. done. Qed.

Lemma count_cons v x l : count v (x :: l) = (if decide (x = v) then 1 else 0) + count v l.
Proof. unfold count. cbn. destruct (Nat.eq_dec x v), (decide (x = v)); done. Qed.

(** Edges into [v] from the nodes of [us] that are not in [done]. *)
Definition incoming (m : CfgMethod) (done us : list nat) (v : nat) : nat :=
  sum_list_with (fun u => if decide (u ∈ done) then 0 else count v (succ_of m u)) us.

(** The number of edges into [v], with their multiplicity. *)
Definition in_degree_of (m : CfgMethod) (v : nat) : nat :=
  sum_list_with (fun u => count v (succ_of m u)) (seq 0 (length (basic_blocks m))).

Lemma incoming_le m done v :
  incoming m done (seq 0 (length (basic_blocks m))) v <= in_degree_of m v.
Proof.
  unfold incoming, in_degree_of. induction (seq _ _) as [|u us IH]; cbn; [done|].
  destruct (decide _); lia.
Qed.

Lemma incoming_notin m done us c v : c ∉ us -> incoming m (c :: done) us v = incoming m done us v.
Proof.
  unfold incoming. induction us as [|u us IH]; cbn; [done|].
  intros [Hu Hn]%not_elem_of_cons. rewrite IH by done. f_equal.
  destruct (decide (u ∈ done)) as [H2|H2], (decide (u ∈ c :: done)) as [H1|H1]; try done.
  - destruct H1. by right.
  - apply elem_of_cons in H1 as [H1|H1]; congruence.
Qed.

Lemma incoming_cons m done us c v :
  NoDup us -> c ∈ us -> c ∉ done ->
  incoming m done us v = incoming m (c :: done) us v + count v (succ_of m c).
Proof.
  intros Hnd. induction Hnd as [|u us Hu Hnd IH]; [by intros ?%elem_of_nil|].
  intros Hc Hd. unfold incoming in *. cbn. destruct (decide (u = c)) as [->|Hne].
  - destruct (decide (c ∈ done)); [done|]. destruct (decide (c ∈ c :: done)) as [|Hx]; [|by destruct Hx; left].
    fold (incoming m (c :: done) us v). fold (incoming m done us v).
    rewrite incoming_notin by done. lia.
  - apply elem_of_cons in Hc as [->|Hc]; [done|]. rewrite IH by done.
    destruct (decide (u ∈ done)) as [H1|H1], (decide (u ∈ c :: done)) as [H2|H2]; try lia.
    + destruct H2. by right.
    + apply elem_of_cons in H2 as [->|]; done.
Qed.

Lemma incoming_zero m done v :
  incoming m done (seq 0 (length (basic_blocks m))) v = 0 <-> forall u, edge m u v -> u ∈ done.
Proof.
  assert (Hgen : forall us, incoming m done us v = 0 <-> forall u, u ∈ us -> edge m u v -> u ∈ done).
  { unfold incoming. induction us as [|u us IH]; cbn.
    - split; [|done]. by intros _ u ?%elem_of_nil.
    - rewrite Nat.eq_add_0, IH. split.
      + intros [Hu Hus] w [->|Hw]%elem_of_cons He; [|auto].
        destruct (decide (u ∈ done)); [done|]. by apply count_pos in He.
      + intros Hall. split.
        * destruct (decide (u ∈ done)) as [|Hn]; [done|].
          destruct (count v (succ_of m u)) eqn:E; [done|]. exfalso. apply Hn, Hall; [by left|].
          apply count_pos. lia.
        * intros w Hw. apply Hall. by right. }
  rewrite Hgen. split; intros Hall u.
  - intros He. apply Hall; [|done]. apply elem_of_seq. apply edge_source in He. lia.
  - intros _. apply Hall.
Qed.

(** ** The vector of in-degrees *)

Definition repr (n : nat) (deg : list Z) (f : nat -> nat) : Prop :=
  length deg = n /\ forall v, v < n -> deg !! v = Some (Z.of_nat (f v)).

(** One more than the largest [i32]. *)
Definition max_i32 : Z := 2147483648.

Lemma wrap_i32_small z : (0 <= z < max_i32)%Z -> CfgMethod.wrap_i32 z = z.
Proof. unfold CfgMethod.wrap_i32, max_i32. intros Hz. rewrite Z.mod_small; lia. Qed.

Lemma repr_insert n deg f s z : repr n deg f -> s < n ->
  repr n (<[s := Z.of_nat z]> deg) (fun v => if decide (s = v) then z else f v).
Proof.
  intros [Hl Hv] Hs. split; [by rewrite length_insert|]. intros v Hlt.
  destruct (decide (s = v)) as [->|Hn]; [by apply list_lookup_insert_eq; lia|].
  rewrite list_lookup_insert_ne by done. auto.
Qed.

Lemma repr_ext n deg f g : repr n deg f -> (forall v, v < n -> f v = g v) -> repr n deg g.
Proof. intros [Hl Hv] Hfg. split; [done|]. intros v Hlt. rewrite Hv, Hfg; done. Qed.

Lemma count_in_degrees_spec n succs : Forall (fun s => block_index s < n) succs ->
  forall deg f, repr n deg f ->
  (forall v, v < n -> (Z.of_nat (f v + count v (map block_index succs)) < max_i32)%Z) ->
  exists deg', count_in_degrees succs deg = Some deg'
    /\ repr n deg' (fun v => f v + count v (map block_index succs)).
Proof.
  induction 1 as [|s succs Hs _ IH]; intros deg f Hr Hb; cbn [count_in_degrees map].
  - exists deg. split; [done|]. eapply repr_ext; [done|]. intros v _. rewrite count_nil. lia.
  - unfold CfgBlockIndex.index. rewrite (proj2 Hr) by done. cbn [mbind option_bind].
    pose proof (Hb _ Hs) as Hbs. cbn [map] in Hbs. rewrite count_cons in Hbs.
    destruct (decide (block_index s = block_index s)) as [_|]; [|done].
    rewrite wrap_i32_small by (unfold max_i32 in *; lia).
    replace (Z.of_nat (f (block_index s)) + 1)%Z with (Z.of_nat (S (f (block_index s)))) by lia.
    destruct (IH _ _ (repr_insert n deg f (block_index s) (S (f (block_index s))) Hr Hs)) as (deg' & E & Hr').
    { intros v Hv. specialize (Hb v Hv). cbn [map] in Hb. rewrite count_cons in Hb.
      destruct (decide (block_index s = v)) as [->|]; lia. }
    exists deg'. split; [exact E|]. eapply repr_ext; [exact Hr'|]. intros v Hv. cbn beta. cbn [map].
    rewrite count_cons. destruct (decide (block_index s = v)) as [->|]; lia.
Qed.

Lemma relax_spec n succs : Forall (fun s => block_index s < n) succs ->
  forall deg f queue, repr n deg (fun v => f v + count v (map block_index succs)) ->
  (forall v, v < n -> (Z.of_nat (f v + count v (map block_index succs)) < max_i32)%Z) ->
  exists deg' new, relax succs deg queue = Some (deg', (queue ++ new)%list)
    /\ repr n deg' f /\ NoDup new
    /\ forall v, v ∈ new <-> v ∈ map block_index succs /\ f v = 0.
Proof.
  induction 1 as [|s succs Hs _ IH]; intros deg f queue Hr Hb; cbn [relax map].
  - exists deg, []. rewrite app_nil_r. split; [done|]. split.
    { eapply repr_ext; [exact Hr|]. intros v _. cbn beta. cbn [map]. rewrite count_nil. lia. }
    split; [constructor|]. intros v. rewrite elem_of_nil. tauto.
  - unfold CfgBlockIndex.index. pose proof (proj2 Hr _ Hs) as Hd. cbn [map] in Hd.
    rewrite count_cons in Hd. destruct (decide (block_index s = block_index s)) as [_|]; [|done].
    rewrite Hd. cbn [mbind option_bind].
    pose proof (Hb _ Hs) as Hbs. cbn [map] in Hbs. rewrite count_cons in Hbs.
    set (k := f (block_index s) + count (block_index s) (map block_index succs)) in *.
    replace (Z.of_nat (f (block_index s) + (1 + count (block_index s) (map block_index succs))) - 1)%Z
      with (Z.of_nat k) by lia.
    rewrite wrap_i32_small by (unfold max_i32 in *; destruct (decide _); lia).
    destruct (IH (<[block_index s := Z.of_nat k]> deg) f
                (if (Z.of_nat k =? 0)%Z then (queue ++ [block_index s])%list else queue))
      as (deg' & new & E & Hr' & Hnd & Hin).
    { eapply repr_ext; [apply (repr_insert _ _ _ _ _ Hr Hs)|]. intros v Hv. cbn beta. cbn [map].
      rewrite count_cons. destruct (decide (block_index s = v)) as [<-|]; [done|lia]. }
    { intros v Hv. specialize (Hb v Hv). cbn [map] in Hb. rewrite count_cons in Hb. lia. }
    exists deg', ((if (Z.of_nat k =? 0)%Z then [block_index s] else []) ++ new)%list.
    destruct (Z.eqb_spec (Z.of_nat k) 0) as [Hk|Hk].
    + rewrite E. rewrite <- app_assoc. split; [done|]. split; [done|].
      assert (Hns : block_index s ∉ map block_index succs)
        by (intros Hx%count_pos; lia).
      split; [constructor; [|done]; by intros [? _]%Hin|].
      intros v. cbn. rewrite !elem_of_cons, Hin. split; [|tauto].
      intros [->|?]; [|tauto]. split; [by left|lia].
    + rewrite E. split; [done|]. split; [done|]. split; [done|].
      intros v. cbn. rewrite elem_of_cons, Hin. split; [tauto|].
      intros [[->|?] Hf]; [|tauto]. split; [|done]. apply count_pos. lia.
Qed.

(** *** [enumerate().filter(..)] *)

Lemma in_enumerate_from {A} (l : list A) k i x :
  (i, x) ∈ zip (seq k (length l)) l <-> k <= i /\ l !! (i - k) = Some x.
Proof.
  revert k. induction l as [|y l IH]; intros k; cbn.
  - rewrite elem_of_nil, lookup_nil. split; [done|by intros []].
  - rewrite elem_of_cons, IH. split.
    + intros [[= -> ->]|[Hk Hl]]; [by rewrite Nat.sub_diag|].
      split; [lia|]. by replace (i - k) with (S (i - S k)) by lia.
    + intros [Hk Hl]. destruct (i - k) as [|j] eqn:Ej.
      * left. injection Hl as ->. f_equal. lia.
      * right. split; [lia|]. by replace (i - S k) with j by lia.
Qed.

Lemma enumerate_filter_in {A} (f : nat * A -> bool) (l : list A) i :
  i ∈ map fst (List.filter f (enumerate l)) <-> exists x, l !! i = Some x /\ f (i, x) = true.
Proof.
  rewrite list_elem_of_In, in_map_iff. unfold enumerate. split.
  - intros ((j & x) & <- & [Hin Hf]%filter_In). apply list_elem_of_In, in_enumerate_from in Hin.
    rewrite Nat.sub_0_r in Hin. exists x. by split; [apply Hin|].
  - intros (x & Hx & Hf). exists (i, x). split; [done|]. apply filter_In. split; [|done].
    apply list_elem_of_In, in_enumerate_from. rewrite Nat.sub_0_r. split; [lia|done].
Qed.

Lemma enumerate_filter_nodup {A} (f : nat * A -> bool) (l : list A) :
  NoDup (map fst (List.filter f (enumerate l))).
Proof.
  unfold enumerate. generalize 0 as k. induction l as [|x l IH]; intros k; cbn; [constructor|].
  destruct (f (k, x)); [|apply IH]. cbn. constructor; [|apply IH].
  rewrite list_elem_of_In, in_map_iff. intros ((j & y) & E & [Hin _]%filter_In). cbn in E. subst j.
  apply list_elem_of_In, in_enumerate_from in Hin. lia.
Qed.

Lemma zero_indices_spec n deg f : repr n deg f ->
  NoDup (zero_indices deg) /\ forall v, v ∈ zero_indices deg <-> v < n /\ f v = 0.
Proof.
  intros [Hl Hv]. split; [apply enumerate_filter_nodup|]. intros v. unfold zero_indices.
  rewrite enumerate_filter_in. split.
  - intros (x & Hx & H0). assert (Hlt : v < n) by (rewrite <- Hl; by eapply lookup_lt_Some).
    split; [done|]. rewrite Hv in Hx by done. cbn in H0. injection Hx as <-. apply Z.eqb_eq in H0. lia.
  - intros [Hlt H0]. exists 0%Z. rewrite Hv, H0 by done. done.
Qed.

Definition block_succs (b : CfgBlock) : list nat :=
  map block_index (Successor.get_following (CfgMethod.successor b)).

Lemma in_degrees_spec n blocks :
  Forall (fun b => Forall (fun s => s < n) (block_succs b)) blocks ->
  forall deg f, repr n deg f ->
  (forall v, v < n ->
     (Z.of_nat (f v + sum_list_with (fun b => count v (block_succs b)) blocks) < max_i32)%Z) ->
  exists deg', in_degrees blocks deg = Some deg'
    /\ repr n deg' (fun v => f v + sum_list_with (fun b => count v (block_succs b)) blocks).
Proof.
  induction 1 as [|b blocks Hb _ IH]; intros deg f Hr Hm; cbn [in_degrees sum_list_with].
  - exists deg. split; [done|]. eapply repr_ext; [exact Hr|]. intros v _. cbn. lia.
  - unfold block_succs in Hb at 1. rewrite Forall_map in Hb. cbn [sum_list_with] in Hm.
    destruct (count_in_degrees_spec n _ Hb deg f Hr) as (deg1 & E1 & Hr1).
    { intros v Hv. specialize (Hm v Hv). unfold block_succs in Hm at 1. lia. }
    rewrite E1. cbn [mbind option_bind].
    destruct (IH deg1 _ Hr1) as (deg2 & E2 & Hr2).
    { intros v Hv. specialize (Hm v Hv). unfold block_succs in Hm at 1. lia. }
    exists deg2. split; [exact E2|]. eapply repr_ext; [exact Hr2|]. intros v _. cbn beta.
    unfold block_succs at 2. lia.
Qed.

Lemma sum_blocks m (g : list nat -> nat) pre suf : basic_blocks m = (pre ++ suf)%list ->
  sum_list_with (fun u => g (succ_of m u)) (seq (length pre) (length suf))
  = sum_list_with (fun b => g (block_succs b)) suf.
Proof.
  revert pre. induction suf as [|b suf IH]; intros pre E; cbn; [done|].
  f_equal.
  - f_equal. unfold succ_of, following. rewrite E, list_lookup_middle by done. done.
  - rewrite <- (IH (pre ++ [b])%list) by by rewrite E, <- app_assoc.
    by rewrite length_app, Nat.add_1_r.
Qed.

(** The in-degrees fit the counters. *)
Definition in_degrees_fit (m : CfgMethod) : Prop :=
  forall v, v < length (basic_blocks m) -> (Z.of_nat (in_degree_of m v) < max_i32)%Z.

(** ** The queue *)

Section Kahn.
Context (m : CfgMethod) (Htargets : targets_ok m).
Context (Hsize : in_degrees_fit m).
Let n := length (basic_blocks m).

Record kinv (done queue : list nat) (deg : list Z) : Prop := {
  k_nodup : NoDup (done ++ queue)%list;
  k_lt : forall x, x ∈ (done ++ queue)%list -> x < n;
  k_repr : repr n deg (incoming m done (seq 0 n));
  k_zero : forall v, v < n -> incoming m done (seq 0 n) v = 0 <-> v ∈ (done ++ queue)%list;
  k_order : forall l1 v l2, done = (l1 ++ v :: l2)%list -> forall u, edge m u v -> u ∈ l2
}.

Lemma following_targets u succs :
  following m u = Some succs -> Forall (fun s => block_index s < n) succs.
Proof.
  intros E. apply Forall_forall. intros s Hs. apply (Htargets u). unfold edge, succ_of. rewrite E.
  by apply list_elem_of_In, in_map, list_elem_of_In.
Qed.

Lemma kinv_step done c queue deg : kinv done (c :: queue) deg ->
  exists succs deg' queue', following m c = Some succs
    /\ relax succs deg queue = Some (deg', queue') /\ kinv (c :: done) queue' deg'.
Proof.
  intros [Hnd Hlt Hr Hz Ho].
  assert (Hc : c < n) by (apply Hlt; rewrite elem_of_app, elem_of_cons; auto).
  assert (Hcd : c ∉ done).
  { intros Hx. apply NoDup_app in Hnd as (_ & Hd & _). apply (Hd c Hx). by left. }
  assert (Hinc : forall v, incoming m done (seq 0 n) v
                   = incoming m (c :: done) (seq 0 n) v + count v (succ_of m c)).
  { intros v. apply incoming_cons; [apply NoDup_seq| |done]. apply elem_of_seq. lia. }
  destruct (following_total m c Hc) as (succs & E & Es). rewrite Es in Hinc.
  destruct (relax_spec n succs (following_targets c succs E) deg
    (incoming m (c :: done) (seq 0 n)) queue) as (deg' & new & Er & Hr' & Hnew & Hin).
  { eapply repr_ext; [exact Hr|]. intros v _. apply Hinc. }
  { intros v Hv. rewrite <- Hinc. eapply Z.le_lt_trans; [|exact (Hsize v Hv)].
    apply inj_le, incoming_le. }
  exists succs, deg', (queue ++ new)%list. split; [done|]. split; [done|].
  assert (Hfresh : forall x, x ∈ new -> x ∉ (done ++ c :: queue)%list).
  { intros x [Hx Hx0]%Hin. apply count_pos in Hx. intros Hd. apply Hz in Hd.
    - rewrite Hinc in Hd. lia.
    - by apply Hlt. }
  assert (Hp : ((c :: done) ++ queue ++ new)%list ≡ₚ ((done ++ c :: queue) ++ new)%list)
    by solve_Permutation.
  split.
  - rewrite Hp. apply NoDup_app. split; [done|]. split; [|done]. intros x Hx Hn. by apply (Hfresh x Hn).
  - intros x. rewrite Hp, elem_of_app. intros [Hx|[Hx _]%Hin]; [auto|].
    apply (Htargets c). unfold edge. by rewrite Es.
  - done.
  - intros v Hv. rewrite Hp, elem_of_app, <- Hz, Hinc, Hin by done. split.
    + intros H0. rewrite H0. destruct (count v (map block_index succs)) eqn:Ec; [by left|].
      right. split; [|done]. apply count_pos. lia.
    + intros [H0|[_ H0]]; lia.
  - intros [|y l1] v l2 E12 u He; cbn in E12; injection E12 as <- E12; [|by eapply Ho].
    rewrite <- E12. apply (proj1 (incoming_zero m done c)); [|done].
    apply Hz; [done|]. rewrite elem_of_app, elem_of_cons. auto.
Qed.

Lemma visit_queue_spec fuel done queue deg :
  kinv done queue deg -> fuel + length done = n ->
  exists done', visit_queue m fuel deg queue (length done) = Some (length done')
    /\ exists deg', kinv done' [] deg'.
Proof.
  revert done queue deg. induction fuel as [|fuel IH]; intros seen queue deg Hk Hf;
    (destruct queue as [|c queue]; [exists seen; split; [done|eauto]|]).
  - exfalso. pose proof (nodup_bounded_length _ _ (k_nodup _ _ _ Hk) (k_lt _ _ _ Hk)) as Hl.
    rewrite length_app in Hl. cbn in *. lia.
  - destruct (kinv_step seen c queue deg Hk) as (succs & deg' & queue' & E1 & E2 & Hk').
    cbn. rewrite E1. cbn. rewrite E2. cbn.
    apply (IH (c :: seen) queue' deg' Hk'). cbn. lia.
Qed.

Lemma kinv_end done deg : kinv done [] deg ->
  (length done <> n <-> exists v, tc (edge m) v v).
Proof.
  intros [Hnd Hlt Hr Hz Ho]. rewrite app_nil_r in *.
  split.
  - intros Hlen. assert (Hv : exists v, v < n /\ v ∉ done).
    { destruct (decide (Exists (fun v => v ∉ done) (seq 0 n))) as [Hx|Hx].
      - apply Exists_exists in Hx as (v & Hv & ?). apply elem_of_seq in Hv. exists v. split; [lia|done].
      - exfalso. apply Hlen. apply Nat.le_antisymm; [by apply nodup_bounded_length|].
        rewrite <- (length_seq n 0). apply submseteq_length, NoDup_submseteq; [apply NoDup_seq|].
        intros x Hx'. destruct (decide (x ∈ done)); [done|]. exfalso. apply Hx.
        apply Exists_exists. eauto. }
    destruct Hv as (v & Hv & Hvd).
    apply (cycle_of_backwards_closed (edge m) (fun x => x < n /\ x ∉ done) n v); [done|by intros x []|].
    intros x [Hx Hxd].
    destruct (decide (Exists (fun u => u ∉ done /\ edge m u x) (seq 0 n))) as [He|He].
    + apply Exists_exists in He as (u & Hu & ? & ?). apply elem_of_seq in Hu.
      exists u. repeat split; [lia|done|done].
    + exfalso. apply Hxd, Hz; [done|]. apply incoming_zero. intros u Hu.
      destruct (decide (u ∈ done)); [done|]. exfalso. apply He. apply Exists_exists.
      exists u. split; [|done]. apply elem_of_seq. apply edge_source in Hu. unfold n. lia.
  - intros (v & Hv) Hlen. apply (acyclic_of_order (edge m) done Hnd) in Hv; [done| |done].
    intros u w He. apply (nodup_bounded_full done n Hnd Hlt Hlen). by apply (Htargets u).
Qed.
End Kahn.

Lemma has_loops_spec (m : CfgMethod) :
  targets_ok m -> in_degrees_fit m ->
  exists b, has_loops m = Some b /\ (b = true <-> exists v, tc (edge m) v v).
Proof.
  intros Ht Hs. unfold has_loops. set (n := length (basic_blocks m)).
  assert (Hsum : forall v, incoming m [] (seq 0 n) v
                   = sum_list_with (fun b => count v (block_succs b)) (basic_blocks m)).
  { intros v. rewrite <- (sum_blocks m (count v) [] (basic_blocks m) eq_refl).
    unfold incoming. cbn [length]. fold n. induction (seq 0 n) as [|u us IH]; [done|]. cbn.
    rewrite IH. destruct (decide (u ∈ [])) as [H|]; [by apply elem_of_nil in H|done]. }
  destruct (in_degrees_spec n (basic_blocks m)) with (deg := replicate n 0%Z) (f := fun _ : nat => 0)
    as (deg & E & Hr).
  - apply Forall_forall. intros b Hb. apply Forall_forall. intros s Hin.
    apply list_elem_of_lookup in Hb as [u Hu]. apply (Ht u).
    unfold edge, succ_of, following. by rewrite Hu.
  - split; [by rewrite length_replicate|]. intros v Hv. by rewrite lookup_replicate_2.
  - intros v Hv. rewrite <- Hsum. eapply Z.le_lt_trans; [|exact (Hs v Hv)]. apply inj_le, incoming_le.
  - rewrite E. cbn [mbind option_bind].
    assert (Hk : kinv m [] (zero_indices deg) deg).
    { assert (Hr' : repr n deg (incoming m [] (seq 0 n))).
      { eapply repr_ext; [exact Hr|]. intros v _. by rewrite Hsum. }
      destruct (zero_indices_spec n deg _ Hr') as [Hnd Hz].
      split; cbn.
      - done.
      - by intros x [? _]%Hz.
      - done.
      - intros v Hv. rewrite Hz. tauto.
      - by intros [] ? ? ?. }
    destruct (visit_queue_spec m Ht Hs n [] (zero_indices deg) deg Hk) as (fin & Ev & deg' & Hk');
      [cbn; lia|].
    cbn in Ev. rewrite Ev. cbn. eexists. split; [done|].
    rewrite negb_true_iff, Nat.eqb_neq. by apply (kinv_end m Ht fin deg').
Qed.

(** C2. `has_loops` terminates without a panic and answers true exactly when the control flow
    graph has a cycle (Kahn's algorithm against the transitive closure of the edges), for a
    method whose jumps lead to blocks it has and whose blocks have fewer than 2^31 incoming
    edges each: the counters are of type `i32`. *)
Theorem has_loops_iff_cycle (m : CfgMethod) :
  targets_ok m -> in_degrees_fit m ->
  exists b, has_loops m = Some b /\ (b = true <-> exists v, tc (edge m) v v).
Proof. exact (has_loops_spec m). Qed.

(** ** A sample method and a checker for [targets_ok] *)

Definition targets_okb (m : CfgMethod) : bool :=
  forallb (fun u => forallb (fun v => Nat.ltb v (length (basic_blocks m))) (succ_of m u))
    (seq 0 (length (basic_blocks m))).

Lemma targets_okb_ok m : targets_okb m = true -> targets_ok m.
Proof.
  unfold targets_okb. rewrite forallb_forall. intros Hall u v He.
  pose proof (edge_source m u v He) as Hu.
  assert (Hin : In u (seq 0 (length (basic_blocks m)))) by (apply in_seq; lia).
  specialize (Hall u Hin). rewrite forallb_forall in Hall.
  apply Nat.ltb_lt, Hall. by apply list_elem_of_In.
Qed.

Definition in_degrees_fitb (m : CfgMethod) : bool :=
  forallb (fun v => Z.ltb (Z.of_nat (in_degree_of m v)) max_i32) (seq 0 (length (basic_blocks m))).

Lemma in_degrees_fitb_ok m : in_degrees_fitb m = true -> in_degrees_fit m.
Proof.
  unfold in_degrees_fitb. rewrite forallb_forall. intros Hall v Hv. apply Z.ltb_lt, Hall, in_seq. lia.
Qed.

(** Block 0 branches to 1 and 2, block 1 jumps to [back], block 2 returns. *)
Definition sample_method (back : nat) : CfgMethod :=
  let blk i := CfgBlockIndex.make 7%Z i in
  CfgMethod.make 7%Z "m" 0 [] [] [] []
    [ CfgMethod.make_block [] (Successor.GotoSwitch [(expr_of_bool true, blk 1)] (blk 2));
      CfgMethod.make_block [] (Successor.Goto (blk back));
      CfgMethod.make_block [] Successor.Return ]
    ["start"; "body"; "end"] 0%Z 0%Z.

Lemma has_loops_iff_cycle_witness :
  targets_ok (sample_method 0)
  /\ exists b, has_loops (sample_method 0) = Some b
       /\ (b = true <-> exists v, tc (edge (sample_method 0)) v v).
Proof.
  assert (Ht : targets_ok (sample_method 0)) by (apply targets_okb_ok; reflexivity).
  split; [exact Ht|]. apply has_loops_iff_cycle; [exact Ht|by apply in_degrees_fitb_ok].
Defined.
