(* ===== verification/CfgTopo.v ===== *)
(** * The topological sort is one

    [CfgMethod::get_topological_sort] returns every block once, the first
    block first; in a method without loops every other block comes after
    all of its predecessors. *)

From Stdlib Require Import Lia ZArith.
From stdpp Require Import relations.
From S2P Require Import Prelude Ast ExprEq ExprPlace ExprTransformers ExprOps Collections Items Graph.
From S2P Require Import Borrows Stmt Cfg CfgGraph CfgLoops.

Section Topo.
Context (m : CfgMethod) (Htargets : targets_ok m).
Let n := length (basic_blocks m).

Definition acyclic : Prop := forall v, ~ tc (edge m) v v.

(** In a list of finished blocks the successors of a block come before it;
    block 0 is left out of the order. *)
Definition postorder (T : list nat) : Prop :=
  forall T1 u T2, T = (T1 ++ u :: T2)%list -> forall w, edge m u w -> w = 0 \/ w ∈ T1.

(** [S]: the blocks being visited, with block 0; [topo]: the finished ones. *)
Record tinv (S : list nat) (visited : list bool) (topo : list CfgBlockIndex) : Prop := {
  t_len : length visited = n;
  t_mark : forall i, visited !! i = Some true <-> i ∈ S \/ i ∈ map block_index topo;
  t_nodup : NoDup (S ++ map block_index topo)%list;
  t_uuid : Forall (fun b => method_uuid b = CfgMethod.uuid m) topo;
  t_order : acyclic -> postorder (map block_index topo)
}.

Lemma tinv_bound S visited topo : tinv S visited topo ->
  forall x, x ∈ (S ++ map block_index topo)%list -> x < n.
Proof.
  intros [Hl Hm _ _ _] x Hx%elem_of_app. apply Hm in Hx. apply lookup_lt_Some in Hx. lia.
Qed.

Lemma tinv_push S visited topo c :
  tinv S visited topo -> c < n -> c ∉ S -> c ∉ map block_index topo ->
  tinv (c :: S) (<[c := true]> visited) topo.
Proof.
  intros [Hl Hm Hnd Hu Ho] Hc HcS HcT. split; [by rewrite length_insert| | |done|done].
  - intros i. rewrite elem_of_cons. destruct (decide (c = i)) as [<-|Hne].
    + rewrite list_lookup_insert_eq by lia. tauto.
    + rewrite list_lookup_insert_ne, Hm by done. intuition congruence.
  - cbn. constructor; [|done]. rewrite elem_of_app. tauto.
Qed.

Lemma tinv_finish S visited topo c :
  tinv (c :: S) visited topo -> (forall s, s ∈ S -> s = 0 \/ tc (edge m) s c) ->
  (forall w, edge m c w -> w ∈ c :: S \/ w ∈ map block_index topo) ->
  tinv S visited (topo ++ [CfgMethod.index_block m c])%list.
Proof.
  intros [Hl Hm Hnd Hu Ho] HS Hw. split; [done| | | |].
  - intros i. rewrite Hm, map_app, elem_of_app, elem_of_cons. cbn. rewrite list_elem_of_singleton. tauto.
  - rewrite map_app. cbn. cbn in Hnd. rewrite app_assoc, Permutation_app_comm. done.
  - apply Forall_app. split; [done|]. by repeat constructor.
  - intros Hac. rewrite map_app. cbn. intros T1 u T2 E w He.
    destruct T2 as [|x T2 _] using rev_ind.
    + apply app_inj_tail in E as [<- <-]. destruct (Hw w He) as [[->|Hin]%elem_of_cons|Hin]; [| |by right].
      * exfalso. apply (Hac c). by apply tc_once.
      * destruct (HS w Hin) as [->|Htc]; [by left|]. exfalso. apply (Hac c). by eapply tc_l.
    + rewrite app_comm_cons, app_assoc in E. apply app_inj_tail in E as [E _]. by apply (Ho Hac T1 u T2 E w).
Qed.

(** What one visit promises. *)
Definition visit_ok (S : list nat)
    (visit : list bool -> list CfgBlockIndex -> nat -> option (list bool * list CfgBlockIndex))
    (c : nat) : Prop :=
  forall visited topo, tinv S visited topo -> c ∉ S -> c ∉ map block_index topo ->
  exists visited' new, visit visited topo c = Some (visited', (topo ++ new)%list)
    /\ tinv S visited' (topo ++ new) /\ c ∈ map block_index (topo ++ new).

Lemma visit_following_ok S visit succs :
  Forall (fun b => block_index b < n) succs ->
  (forall b, b ∈ succs -> visit_ok S visit (block_index b)) ->
  forall visited topo, tinv S visited topo ->
  exists visited' new, visit_following visit succs visited topo = Some (visited', (topo ++ new)%list)
    /\ tinv S visited' (topo ++ new)
    /\ forall b, b ∈ succs -> block_index b ∈ S \/ block_index b ∈ map block_index (topo ++ new).
Proof.
  induction 1 as [|b succs Hb _ IH]; intros Hok visited topo Hinv; cbn [visit_following].
  - exists visited, []. rewrite app_nil_r. split; [done|]. split; [done|]. by intros b ?%elem_of_nil.
  - assert (Hok' : forall b, b ∈ succs -> visit_ok S visit (block_index b)) by (intros; apply Hok; by right).
    destruct (proj2 (lookup_lt_is_Some visited (block_index b))) as [v Hv];
      [by rewrite (t_len _ _ _ Hinv)|]. rewrite Hv. cbn [mbind option_bind].
    destruct v.
    + destruct (IH Hok' visited topo Hinv) as (vis' & new & E & Hinv' & Hin).
      exists vis', new. split; [done|]. split; [done|]. intros b' [->|Hb']%elem_of_cons; [|auto].
      apply (t_mark _ _ _ Hinv) in Hv. rewrite map_app, elem_of_app. tauto.
    + assert (Hn : ~ (block_index b ∈ S \/ block_index b ∈ map block_index topo))
        by (rewrite <- (t_mark _ _ _ Hinv); congruence).
      destruct (Hok b ltac:(by left) visited topo Hinv) as (vis1 & new1 & E1 & Hinv1 & Hin1); [tauto|tauto|].
      rewrite E1. cbn. destruct (IH Hok' vis1 _ Hinv1) as (vis2 & new2 & E2 & Hinv2 & Hin2).
      exists vis2, (new1 ++ new2)%list. rewrite app_assoc. split; [done|]. split; [done|].
      intros b' [->|Hb']%elem_of_cons; [|auto]. right. rewrite map_app, elem_of_app. tauto.
Qed.

Lemma topological_sort_impl_ok fuel S c visited topo :
  tinv S visited topo -> c < n -> c ∉ S -> c ∉ map block_index topo ->
  (forall s, s ∈ S -> s = 0 \/ tc (edge m) s c) ->
  n <= fuel + length S ->
  exists visited' new, topological_sort_impl m fuel visited topo c = Some (visited', (topo ++ new)%list)
    /\ tinv S visited' (topo ++ new) /\ c ∈ map block_index (topo ++ new).
Proof.
  revert S c visited topo. induction fuel as [|fuel IH]; intros S c visited topo Hinv Hc HcS HcT HS Hf.
  - exfalso. assert (Hl : length (c :: S) <= n); [|cbn in Hl; lia].
    apply nodup_bounded_length.
    + constructor; [done|]. pose proof (t_nodup _ _ _ Hinv) as Hnd. by apply NoDup_app in Hnd as [? _].
    + intros x [->|Hx]%elem_of_cons; [done|]. apply (tinv_bound _ _ _ Hinv).
      apply elem_of_app. by left.
  - cbn [topological_sort_impl].
    destruct (proj2 (lookup_lt_is_Some visited c)) as [v Hv]; [by rewrite (t_len _ _ _ Hinv)|].
    destruct v; [apply (t_mark _ _ _ Hinv) in Hv; tauto|]. rewrite Hv. cbn [mbind option_bind assert_ negb].
    destruct (following_total m c Hc) as (succs & E & Es). rewrite E. cbn [mbind option_bind].
    pose proof (tinv_push S visited topo c Hinv Hc HcS HcT) as Hpush.
    assert (Hedge : forall b, b ∈ succs -> edge m c (block_index b)).
    { intros b Hb. unfold edge. rewrite Es. by apply list_elem_of_In, in_map, list_elem_of_In. }
    assert (Hb : Forall (fun b => block_index b < n) succs).
    { apply Forall_forall. intros b Hb. by apply (Htargets c), Hedge. }
    destruct (visit_following_ok (c :: S) (topological_sort_impl m fuel) succs Hb)
      with (visited := <[c := true]> visited) (topo := topo) as (vis' & new & Ef & Hinv' & Hin);
      [|done|].
    + intros b Hbin vis tp Hi HbS HbT. apply IH; try done; [|intros s [->|Hs]%elem_of_cons|cbn; lia].
      * by apply (Htargets c), Hedge.
      * right. by apply tc_once, Hedge.
      * destruct (HS s Hs) as [->|Htc]; [by left|]. right. by eapply tc_r; [|apply Hedge].
    + rewrite Ef. cbn. exists vis', (new ++ [CfgMethod.index_block m c])%list.
      rewrite app_assoc. split; [done|]. split.
      * apply tinv_finish; [done|done|]. intros w Hw. unfold edge in Hw. rewrite Es in Hw.
        apply list_elem_of_In, in_map_iff in Hw as (b & <- & Hbin%list_elem_of_In). auto.
      * rewrite !map_app, !elem_of_app. cbn. rewrite list_elem_of_singleton. tauto.
Qed.

Lemma topological_sort_all_ok indices visited topo :
  Forall (fun i => i < n) indices -> tinv [0] visited topo ->
  exists visited' new,
    topological_sort_all m n indices visited topo = Some (visited', (topo ++ new)%list)
    /\ tinv [0] visited' (topo ++ new)
    /\ forall i, i ∈ indices -> i = 0 \/ i ∈ map block_index (topo ++ new).
Proof.
  intros Hi. revert visited topo.
  induction Hi as [|i indices Hi _ IH]; intros visited topo Hinv; cbn [topological_sort_all].
  - exists visited, []. rewrite app_nil_r. split; [done|]. split; [done|]. by intros i ?%elem_of_nil.
  - destruct (proj2 (lookup_lt_is_Some visited i)) as [v Hv]; [by rewrite (t_len _ _ _ Hinv)|].
    rewrite Hv. cbn [mbind option_bind]. destruct v.
    + destruct (IH visited topo Hinv) as (vis' & new & E & Hinv' & Hin).
      exists vis', new. split; [done|]. split; [done|]. intros j [->|Hj]%elem_of_cons; [|auto].
      apply (t_mark _ _ _ Hinv) in Hv as [->%list_elem_of_singleton|Hv]; [by left|].
      right. rewrite map_app, elem_of_app. by left.
    + assert (Hn : ~ (i ∈ [0] \/ i ∈ map block_index topo))
        by (rewrite <- (t_mark _ _ _ Hinv); congruence).
      destruct (topological_sort_impl_ok n [0] i visited topo Hinv Hi) as (vis1 & new1 & E1 & Hinv1 & Hin1);
        [tauto|tauto|intros s ->%list_elem_of_singleton; by left|cbn; lia|].
      rewrite E1. cbn. destruct (IH vis1 _ Hinv1) as (vis2 & new2 & E2 & Hinv2 & Hin2).
      exists vis2, (new1 ++ new2)%list. rewrite app_assoc. split; [done|]. split; [done|].
      intros j [->|Hj]%elem_of_cons; [|auto]. right. rewrite map_app, elem_of_app. tauto.
Qed.
End Topo.

(** [u] comes before [v] in [l]. *)
Definition before (l : list nat) (u v : nat) : Prop :=
  exists l1 l2 l3, l = (l1 ++ u :: l2 ++ v :: l3)%list.

Lemma get_topological_sort_spec (m : CfgMethod) :
  targets_ok m ->
  exists l, get_topological_sort m = Some l
    /\ Forall (fun b => method_uuid b = CfgMethod.uuid m) l
    /\ map block_index l ≡ₚ seq 0 (length (basic_blocks m))
    /\ (basic_blocks m <> [] -> head (map block_index l) = Some 0)
    /\ ((forall v, ~ tc (edge m) v v) ->
        forall u v, edge m u v -> v <> 0 -> before (map block_index l) u v).
Proof.
  intros Ht. unfold get_topological_sort. set (n := length (basic_blocks m)).
  destruct (basic_blocks m) as [|b bs] eqn:Eb.
  { exists []. split; [done|]. split; [constructor|]. split; [done|]. split; [done|].
    intros _ u v He. apply edge_source in He. rewrite Eb in He. cbn in He. lia. }
  assert (Hn : 0 < n) by (unfold n; cbn; lia).
  assert (Hn' : n = length (basic_blocks m)) by by rewrite Eb.
  clearbody n.
  destruct (topological_sort_all_ok m Ht (seq 1 (n - 1)) (<[0 := true]> (replicate n false)) [])
    as (vis & topo & E & Hinv & Hin).
  - apply Forall_forall. intros i Hi%elem_of_seq. lia.
  - split; [by rewrite length_insert, length_replicate| |apply (NoDup_singleton 0)|constructor|].
    + intros i. cbn [map]. rewrite list_elem_of_singleton, elem_of_nil. destruct (decide (0 = i)) as [<-|Hne].
      * rewrite list_lookup_insert_eq by (rewrite length_replicate; lia). tauto.
      * rewrite list_lookup_insert_ne by done. split; [|intuition congruence].
        by intros [? _]%lookup_replicate.
    + intros _ T1 u T2 E0. by destruct T1.
  - rewrite <- Hn' in E. rewrite E. cbn in Hinv, Hin |- *. exists (CfgMethod.index_block m 0 :: rev topo).
    pose proof (tinv_bound m _ _ _ Hinv) as Hlt. destruct Hinv as [Hl Hm Hnd Hu Ho]. cbn in Hnd.
    split; [done|]. split; [|split; [|split; [done|]]].
    + constructor; [done|]. by apply Forall_rev.
    + cbn. rewrite map_rev, <- Permutation_rev. apply NoDup_Permutation; [done|apply NoDup_seq|].
      intros x. rewrite elem_of_seq, elem_of_cons. split.
      * intros [->|Hx]; [lia|]. split; [lia|]. cbn. rewrite Hn'. apply Hlt. cbn. by right.
      * intros [_ Hx]. destruct (decide (x = 0)) as [|Hx0]; [by left|].
        apply Hin, elem_of_seq. lia.
    + intros Hac u v He Hv. cbn. rewrite map_rev.
      assert (HvT : v ∈ map block_index topo).
      { destruct (Hin v) as [|?]; [|done|done]. apply elem_of_seq. specialize (Ht u v He). lia. }
      destruct (decide (u = 0)) as [->|Hu0].
      * apply list_elem_of_In, in_rev, list_elem_of_In, list_elem_of_split in HvT as (l1 & l2 & ->).
        by exists [], l1, l2.
      * assert (HuT : u ∈ map block_index topo).
        { destruct (Hin u) as [|?]; [|done|done]. apply elem_of_seq.
          pose proof (edge_source m u v He). lia. }
        apply list_elem_of_split in HuT as (T1 & T2 & ET).
        destruct (Ho Hac T1 u T2 ET v He) as [|Hv1]; [done|].
        apply list_elem_of_split in Hv1 as (T3 & T4 & ->).
        rewrite ET, !rev_app_distr. cbn.
        exists (0 :: rev T2), (rev T4), (rev T3). cbn. by rewrite <- !app_assoc.
Qed.

(** C3. For a method whose jumps lead to blocks it has, `get_topological_sort` terminates
    without a panic and returns every block of the method exactly once, the start block first;
    if the graph has no cycle, the source of every edge that does not lead into the start block
    comes before its target (the start block is always first, also before blocks that jump to
    it). *)
Theorem topological_sort_correct (m : CfgMethod) :
  targets_ok m ->
  exists l, get_topological_sort m = Some l
    /\ Forall (fun b => method_uuid b = CfgMethod.uuid m) l
    /\ map block_index l ≡ₚ seq 0 (length (basic_blocks m))
    /\ (basic_blocks m <> [] -> head (map block_index l) = Some 0)
    /\ ((forall v, ~ tc (edge m) v v) ->
        forall u v, edge m u v -> v <> 0 -> before (map block_index l) u v).
Proof. exact (get_topological_sort_spec m). Qed.

Lemma topological_sort_correct_witness :
  targets_ok (sample_method 2)
  /\ exists l, get_topological_sort (sample_method 2) = Some l
       /\ map block_index l ≡ₚ [0; 1; 2].
Proof.
  assert (Ht : targets_ok (sample_method 2)) by (apply targets_okb_ok; reflexivity).
  split; [exact Ht|]. destruct (topological_sort_correct (sample_method 2) Ht) as (l & E & _ & Hp & _).
  exists l. split; [exact E|exact Hp].
Defined.
