(* ===== verification/CfgPaths.v ===== *)
(** * The search for a path is sound and complete

    [CfgMethod::find_path] is a breadth-first search that records where it
    came from. *)

From Stdlib Require Import Lia ZArith.
From stdpp Require Import relations.
From S2P Require Import Prelude Ast ExprEq ExprPlace ExprTransformers ExprOps Collections Items Graph.
From S2P Require Import Borrows Stmt Cfg CfgGraph CfgLoops.

(** Consecutive elements are edges. *)
Fixpoint edge_path (m : CfgMethod) (l : list nat) : Prop :=
  match l with
  | x :: (y :: _) as l' => edge m x y /\ edge_path m l'
  | _ => True
  end.

Lemma edge_path_snoc m l x y : edge_path m (l ++ [x]) -> edge m x y -> edge_path m (l ++ [x; y]).
Proof.
  intros Hp He. induction l as [|z l IH]; cbn in *; [by split|].
  destruct l as [|w l]; cbn in *; destruct Hp as [Hz Hp]; (split; [done|]); by apply IH.
Qed.

Definition path_between (m : CfgMethod) (u v : nat) (l : list nat) : Prop :=
  head l = Some u /\ last l = Some v /\ edge_path m l.

Section Search.
Context (m : CfgMethod) (Htargets : targets_ok m) (start : nat) (end_block : CfgBlockIndex).
Let n := length (basic_blocks m).

(** ** Following [came_from] *)

(** The blocks that [backtrack] visits from block [x]. *)
Inductive trace (cf : list (option CfgBlockIndex)) : nat -> list CfgBlockIndex -> Prop :=
  | trace_start : cf !! start = Some None -> trace cf start []
  | trace_step x p l : cf !! x = Some (Some p) -> trace cf (block_index p) l -> trace cf x (p :: l).

Lemma backtrack_trace cf x l : trace cf (block_index x) l ->
  forall fuel path, length l <= fuel -> backtrack cf fuel path x = Some (path ++ l)%list.
Proof.
  intros Ht. remember (block_index x) as i eqn:Ei. revert x Ei.
  induction Ht as [Hs|i p l Hi _ IH]; intros x -> [|fuel] path Hf; cbn in *; try lia.
  - rewrite Hs. cbn. by rewrite app_nil_r.
  - rewrite Hs. cbn. by rewrite app_nil_r.
  - rewrite Hi. cbn. rewrite (IH p) by (done || lia). by rewrite <- app_assoc.
Qed.

(** What is recorded points backwards along edges between marked blocks. *)
Record cinv (visited : list bool) (cf : list (option CfgBlockIndex)) (marked : list nat) : Prop := {
  c_flags : flags visited n marked;
  c_len : length cf = n;
  c_from : forall y p, cf !! y = Some (Some p) ->
    y ∈ marked /\ block_index p ∈ marked /\ edge m (block_index p) y
}.

Lemma trace_path visited cf marked x l :
  cinv visited cf marked -> trace cf x l ->
  path_between m start x (rev (x :: map block_index l)).
Proof.
  intros [_ _ Hc] Ht. induction Ht as [|x p l Hx _ [Hh [Hl Hp]]]; [by repeat split|].
  cbn [map rev] in *. destruct (Hc x p Hx) as (_ & _ & He). split; [|split].
  - destruct (rev (map block_index l)); done.
  - by rewrite last_snoc.
  - rewrite <- app_assoc. cbn. by apply edge_path_snoc.
Qed.

Lemma trace_insert visited cf marked x p y l :
  cinv visited cf marked -> x ∉ marked -> y ∈ marked -> trace cf y l -> trace (<[x := p]> cf) y l.
Proof.
  intros [_ _ Hc] Hx Hy Ht. induction Ht as [Hs|y q l Hq _ IH].
  - apply trace_start. rewrite list_lookup_insert_ne; [done|]. by intros ->.
  - apply trace_step with (l := l); [|apply IH; by destruct (Hc y q Hq) as (_ & ? & _)].
    rewrite list_lookup_insert_ne; [done|]. by intros ->.
Qed.

(** ** The loop over the successors *)

Lemma scan_successors_spec c lc succs : 
  Forall (fun s => edge m (block_index c) (block_index s)) succs -> length lc <= n ->
  forall visited cf marked to_visit,
  cinv visited cf marked -> block_index c ∈ marked -> trace cf (block_index c) lc ->
  (block_index end_block ∈ map block_index succs /\
   exists path, scan_successors end_block c succs visited cf to_visit = Some (inl path)
     /\ path_between m start (block_index end_block) (map block_index path))
  \/ (block_index end_block ∉ map block_index succs /\
   exists visited' cf' to_visit' marked',
     scan_successors end_block c succs visited cf to_visit = Some (inr (visited', cf', to_visit'))
     /\ marks (map block_index succs) (map block_index to_visit) marked
          (map block_index to_visit') marked'
     /\ cinv visited' cf' marked'
     /\ (forall y l, y ∈ marked -> trace cf y l -> trace cf' y l)
     /\ (forall y, y ∈ marked' -> y ∉ marked -> trace cf' y (c :: lc))).
Proof.
  intros Hs Hlc. induction Hs as [|s succs He Hs IH]; intros visited cf marked to_visit Hi Hc Ht;
    cbn [scan_successors map].
  - right. split; [apply not_elem_of_nil|]. exists visited, cf, to_visit, marked.
    split; [done|]. split; [apply marks_nil|]. split; [done|]. split; [auto|]. by intros y Hy Hn.
  - unfold CfgBlockIndex.weak_eq. destruct (block_index s == block_index end_block) eqn:Eq.
    + apply (peq_eq (A := nat)) in Eq. left. split; [rewrite <- Eq; by left|].
      rewrite (backtrack_trace cf c lc Ht) by by rewrite (c_len _ _ _ Hi). cbn.
      eexists. split; [done|]. destruct (trace_path _ _ _ _ _ Hi Ht) as (Hh & Hl & Hp).
      rewrite <- Eq. cbn in Hh, Hp. rewrite !map_app, map_rev. cbn. split; [|split].
      * by destruct (rev (map block_index lc)).
      * by rewrite last_snoc.
      * rewrite <- app_assoc. cbn. by apply edge_path_snoc.
    + apply (peq_false_iff (A := nat)) in Eq.
      assert (Hlt : block_index s < n) by by apply (Htargets (block_index c)).
      destruct (c_flags _ _ _ Hi) as [Hlen Hfl].
      destruct (proj2 (lookup_lt_is_Some visited (block_index s))) as [v Hv]; [by rewrite Hlen|].
      rewrite Hv. cbn [mbind option_bind]. destruct v.
      * destruct (IH visited cf marked to_visit Hi Hc Ht) as [(Hin & path & E & Hp)|(Hn & v' & cf' & tv' & m' & E & M & I & T1 & T2)].
        -- left. split; [by right|]. eauto.
        -- right. split; [by intros [?|?]%elem_of_cons|]. exists v', cf', tv', m'.
           split; [done|]. split; [|done]. apply marks_skip; [by apply Hfl|done].
      * assert (Hns : block_index s ∉ marked) by (intros Hx%Hfl; congruence).
        assert (Hi' : cinv (<[block_index s := true]> visited) (<[block_index s := Some c]> cf)
                        (marked ++ [block_index s])).
        { split; [by apply flags_insert|by rewrite length_insert; apply Hi|].
          intros y p Hy. rewrite !elem_of_app, list_elem_of_singleton.
          destruct (decide (block_index s = y)) as [<-|Hne].
          - rewrite list_lookup_insert_eq in Hy by (rewrite (c_len _ _ _ Hi); done).
            injection Hy as <-. tauto.
          - rewrite list_lookup_insert_ne in Hy by done.
            destruct (c_from _ _ _ Hi y p Hy) as (? & ? & ?). tauto. }
        assert (Htr : forall y l, y ∈ marked -> trace cf y l -> trace (<[block_index s := Some c]> cf) y l).
        { intros y l Hy. by apply (trace_insert _ _ _ _ _ _ _ Hi). }
        destruct (IH _ _ _ (to_visit ++ [s])%list Hi' ltac:(apply elem_of_app; by left) (Htr _ _ Hc Ht))
          as [(Hin & path & E & Hp)|(Hn & v' & cf' & tv' & m' & E & M & I & T1 & T2)].
        -- left. split; [by right|]. eauto.
        -- right. split; [by intros [?|?]%elem_of_cons|]. exists v', cf', tv', m'.
           split; [done|]. split; [|split; [done|split]].
           ++ eapply marks_push; [done| |rewrite map_app in M; exact M].
              intros x. by rewrite elem_of_app, list_elem_of_singleton.
           ++ intros y l Hy Hyt. apply T1; [apply elem_of_app; by left|]. by apply Htr.
           ++ intros y Hy Hym. destruct (decide (y = block_index s)) as [->|Hne].
              ** apply T1; [rewrite elem_of_app, list_elem_of_singleton; by right|].
                 apply trace_step; [|by apply Htr].
                 apply list_lookup_insert_eq. by rewrite (c_len _ _ _ Hi).
              ** apply T2; [done|]. by rewrite elem_of_app, list_elem_of_singleton; intros [?|?].
Qed.

(** ** The search *)

Lemma search_path_spec fuel seen visited cf marked to_visit :
  winv (edge m) [] start seen (map block_index to_visit) marked ->
  cinv visited cf marked ->
  (forall x, x ∈ marked -> exists l, trace cf x l /\ length l <= length seen) ->
  (forall x, x ∈ seen -> ~ edge m x (block_index end_block)) ->
  start <> block_index end_block ->
  fuel + length seen = n ->
  exists r, search_path m end_block fuel visited cf to_visit = Some r
    /\ match r with
       | Some path => path_between m start (block_index end_block) (map block_index path)
       | None => ~ rtc (edge m) start (block_index end_block)
       end.
Proof.
  revert seen visited cf marked to_visit.
  induction fuel as [|fuel IH]; intros seen visited cf marked to_visit Hw Hi Htr Hend Hne Hf;
    destruct to_visit as [|c to_visit]; cbn [search_path].
  1, 3: exists None; split; [done|]; intros Hr;
    apply rtc_inv_r in Hr as [|(y & Hy & He)]; [done|]; apply (Hend y); [|done];
    apply (winv_end _ _ _ _ _ Hw); by apply rtc_open_edge_nil.
  - exfalso. assert (Hl : length seen < n); [|lia].
    apply (winv_fuel _ _ _ n seen _ marked (block_index c) Hw); [by left|].
    intros x Hx. destruct (c_flags _ _ _ Hi) as [Hl Hfl]. apply Hfl, lookup_lt_Some in Hx. lia.
  - assert (Hlt : forall x, x ∈ marked -> x < n).
    { intros x Hx. destruct (c_flags _ _ _ Hi) as [Hl Hfl]. apply Hfl, lookup_lt_Some in Hx. lia. }
    assert (Hcm : block_index c ∈ marked) by (apply Hw; right; right; by left).
    destruct (following_total m (block_index c) (Hlt _ Hcm)) as (succs & E & Es).
    rewrite E. cbn [mbind option_bind].
    destruct (Htr _ Hcm) as (lc & Htc & Hlc).
    assert (Hls : length seen < n).
    { apply (winv_fuel _ _ _ n seen _ marked (block_index c) Hw); [by left|done]. }
    assert (Hedge : forall j, j ∈ map block_index succs <-> edge m (block_index c) j).
    { intros j. unfold edge. by rewrite Es. }
    destruct (scan_successors_spec c lc succs) with (visited := visited) (cf := cf)
      (marked := marked) (to_visit := to_visit)
      as [(Hin & path & Ep & Hp)|(Hn & v' & cf' & tv' & m' & Ep & M & I & T1 & T2)]; try done; [|lia| |].
    + apply Forall_forall. intros s Hs. apply Hedge. by apply list_elem_of_In, in_map, list_elem_of_In.
    + rewrite Ep. cbn. exists (Some path). done.
    + rewrite Ep. cbn.
      apply (IH (block_index c :: seen) v' cf' m' tv'); [|done| | |done|cbn; lia].
      * cbn [map] in Hw. by eapply winv_step.
      * intros x Hx. destruct (decide (x ∈ marked)) as [Hxm|Hxm].
        -- destruct (Htr x Hxm) as (l & Hl & ?). exists l. split; [by apply T1|cbn; lia].
        -- exists (c :: lc). split; [by apply T2|cbn; lia].
      * intros x [->|Hx]%elem_of_cons; [|auto]. by rewrite <- Hedge.
Qed.
End Search.

Theorem find_path_correct (m : CfgMethod) (start_block end_block : CfgBlockIndex) :
  targets_ok m -> block_index start_block < length (basic_blocks m) ->
  exists r, find_path m start_block end_block = Some r
    /\ match r with
       | Some path =>
           path_between m (block_index start_block) (block_index end_block) (map block_index path)
       | None => ~ rtc (edge m) (block_index start_block) (block_index end_block)
       end.
Proof.
  intros Ht Hlt. unfold find_path, CfgBlockIndex.weak_eq.
  destruct (block_index start_block == block_index end_block) eqn:E.
  - apply (peq_eq (A := nat)) in E. exists (Some [start_block]). split; [done|].
    cbn. by rewrite <- E.
  - apply (peq_false_iff (A := nat)) in E. rewrite lookup_replicate_2 by done. cbn [mbind option_bind].
    apply (search_path_spec m Ht (block_index start_block) end_block _ [] _ _ [block_index start_block]);
      [| | | |done|cbn; lia].
    + apply winv_init. intros x. rewrite list_elem_of_singleton, elem_of_nil. tauto.
    + split; [|by rewrite length_replicate|by intros y p [? _]%lookup_replicate].
      apply (flags_insert _ _ []); [|done]. split; [by rewrite length_replicate|].
      intros j. rewrite elem_of_nil. split; [|done]. by intros [? _]%lookup_replicate.
    + intros x ->%list_elem_of_singleton. exists []. split; [|cbn; lia].
      apply trace_start. by apply lookup_replicate_2.
    + by intros x ?%elem_of_nil.
Qed.

Lemma find_path_correct_witness :
  let m := sample_method 0 in
  let blk i := CfgBlockIndex.make 7%Z i in
  targets_ok m /\ exists r, find_path m (blk 1) (blk 2) = Some r.
Proof.
  cbn zeta. assert (Ht : targets_ok (sample_method 0)) by (apply targets_okb_ok; reflexivity).
  split; [exact Ht|].
  destruct (find_path_correct (sample_method 0) (CfgBlockIndex.make 7%Z 1) (CfgBlockIndex.make 7%Z 2) Ht)
    as (r & E & _); [cbn; lia|]. exists r. exact E.
Defined.
