(* ===== verification/CfgAssigned.v ===== *)
(** * Predecessors and assigned variables

    [CfgMethod::predecessors] and [get_preceding] invert the edges of the
    graph, and [collect_assigned_vars] ([cfg/assigned_vars.rs]) finds the
    variables assigned in the blocks from which its start block can be
    reached without passing through its end block. *)

From Stdlib Require Import Lia ZArith Sorting.Sorted.
From stdpp Require Import relations.
From S2P Require Import Prelude Ast ExprEq ExprPlace ExprTransformers ExprOps Collections Items Graph.
From S2P Require Import Borrows Stmt Cfg CfgGraph CfgLoops.

(** ** Predecessors *)

Definition preds_of (r : HashMap.t nat (list nat)) (v : nat) : list nat :=
  match HashMap.get r v with Some l => l | None => [] end.

Lemma preds_of_push r k i v :
  preds_of (push_entry r k i) v = (preds_of r v ++ (if decide (k = v) then [i] else []))%list.
Proof.
  unfold preds_of, push_entry. rewrite HashMap.get_insert.
  destruct (decide (k = v)) as [->|Hne].
  - rewrite peq_refl. by destruct (HashMap.get r v).
  - rewrite app_nil_r. destruct (v == k) eqn:E; [|done]. apply (peq_eq (A := nat)) in E. congruence.
Qed.

Lemma preds_of_block r i succs v :
  preds_of (foldl (fun r s => push_entry r (block_index s) i) r succs) v
  = (preds_of r v ++ repeat i (count v (map block_index succs)))%list.
Proof.
  revert r. induction succs as [|s succs IH]; intros r; cbn [foldl map].
  - by rewrite count_nil, app_nil_r.
  - rewrite IH, preds_of_push, count_cons, <- app_assoc. by destruct (decide (block_index s = v)).
Qed.

Lemma preds_of_blocks m pre suf r v : basic_blocks m = (pre ++ suf)%list ->
  preds_of (foldl (fun r ib =>
    foldl (fun r s => push_entry r (block_index s) (fst ib)) r
      (Successor.get_following (CfgMethod.successor (snd ib)))) r
    (zip (seq (length pre) (length suf)) suf)) v
  = (preds_of r v
     ++ concat (map (fun u => repeat u (count v (succ_of m u))) (seq (length pre) (length suf))))%list.
Proof.
  revert pre r. induction suf as [|b suf IH]; intros pre r E; cbn.
  - by rewrite app_nil_r.
  - assert (E' : basic_blocks m = ((pre ++ [b]) ++ suf)%list) by by rewrite E, <- app_assoc.
    specialize (IH (pre ++ [b])%list) as IH'. rewrite length_app, Nat.add_1_r in IH'.
    rewrite IH' by done. rewrite preds_of_block, <- app_assoc. do 3 f_equal.
    unfold succ_of, following. by rewrite E, list_lookup_middle.
Qed.

Lemma preds_of_predecessors m v :
  preds_of (predecessors m) v
  = concat (map (fun u => repeat u (count v (succ_of m u))) (seq 0 (length (basic_blocks m)))).
Proof. apply (preds_of_blocks m [] (basic_blocks m) HashMap.empty v eq_refl). Qed.

Lemma preds_of_edge m u v : u ∈ preds_of (predecessors m) v <-> edge m u v.
Proof.
  rewrite preds_of_predecessors, list_elem_of_In, in_concat. unfold edge. split.
  - intros (l & (w & <- & _)%in_map_iff & Hu). pose proof (repeat_spec _ _ _ Hu) as ->.
    apply count_pos. by destruct (count v (succ_of m w)).
  - intros He. exists (repeat u (count v (succ_of m u))). split.
    + apply in_map_iff. exists u. split; [done|]. apply in_seq.
      pose proof (edge_source m u v He). lia.
    + apply count_pos in He. destruct (count v (succ_of m u)); [done|]. by left.
Qed.

(** All indices in successors carry the [Uuid] of the method. *)
Definition uuids_ok (m : CfgMethod) : Prop :=
  forall u succs, following m u = Some succs ->
    Forall (fun b => method_uuid b = CfgMethod.uuid m) succs.

Theorem predecessors_invert_edges (m : CfgMethod) (target : CfgBlockIndex) :
  uuids_ok m ->
  (forall v l u, HashMap.get (predecessors m) v = Some l -> u ∈ l <-> edge m u v)
  /\ (forall v, HashMap.get (predecessors m) v = None -> forall u, ~ edge m u v)
  /\ (method_uuid target <> CfgMethod.uuid m -> get_preceding m target = None)
  /\ (method_uuid target = CfgMethod.uuid m ->
      exists l, get_preceding m target = Some l /\ NoDup (map block_index l)
        /\ forall u, u ∈ map block_index l <-> edge m u (block_index target)).
Proof.
  intros Hu. split; [|split; [|split]].
  - intros v l u Hg. rewrite <- preds_of_edge. unfold preds_of. by rewrite Hg.
  - intros v Hg u He. apply preds_of_edge in He. unfold preds_of in He. rewrite Hg in He.
    by apply elem_of_nil in He.
  - intros Hne. unfold get_preceding. destruct (CfgMethod.uuid m == method_uuid target) eqn:E; [|done].
    apply (peq_eq (A := Z)) in E. congruence.
  - intros E. unfold get_preceding. rewrite <- E, peq_refl. cbn [mbind option_bind assert_].
    eexists. split; [done|]. rewrite map_map. cbn [CfgMethod.index_block block_index].
    split; [apply enumerate_filter_nodup|]. intros u. rewrite enumerate_filter_in.
    unfold edge, succ_of, following. split.
    + intros (b & Hb & (t & Ht & Heq)%existsb_exists). rewrite Hb. cbn in *.
      apply (peq_eq (A := CfgBlockIndex)) in Heq as ->. by apply list_elem_of_In, in_map.
    + destruct (basic_blocks m !! u) as [b|] eqn:Hb; cbn; [|by intros ?%elem_of_nil].
      intros (t & Et & Ht)%list_elem_of_In%in_map_iff. exists b. split; [done|].
      apply existsb_exists. exists t. split; [done|]. apply (peq_eq (A := CfgBlockIndex)).
      assert (Hf : following m u = Some (Successor.get_following (CfgMethod.successor b)))
        by (unfold following; by rewrite Hb).
      apply Hu in Hf. rewrite Forall_forall in Hf.
      specialize (Hf t ltac:(by apply list_elem_of_In)).
      destruct t as [tu ti], target as [gu gi]. cbn in *. congruence.
Qed.

Lemma predecessors_invert_edges_witness :
  uuids_ok (sample_method 0)
  /\ (exists l, get_preceding (sample_method 0) (CfgBlockIndex.make 7%Z 0) = Some l
        /\ NoDup (map block_index l)
        /\ forall u, u ∈ map block_index l <-> edge (sample_method 0) u 0).
Proof.
  assert (H : uuids_ok (sample_method 0)).
  { intros [|[|[|u]]] succs; cbn; intros [= <-]; repeat constructor. }
  split; [exact H|].
  exact (proj2 (proj2 (proj2 (predecessors_invert_edges _ (CfgBlockIndex.make 7%Z 0) H))) eq_refl).
Defined.

(** ** Assigned variables *)

(** The statements that assign a variable: calls, to their targets, and
    assignments whose left side is a variable. *)
Inductive assigns (w : LocalVar) : Stmt -> Prop :=
  | assigns_call name args targets : w ∈ targets -> assigns w (Stmt.MethodCall name args targets)
  | assigns_var p source kind : assigns w (Stmt.Assign (Expr.Local w p) source kind).

Lemma stmt_assigned_vars_spec stmt w : w ∈ stmt_assigned_vars stmt <-> assigns w stmt.
Proof.
  split.
  - destruct stmt as [| | | | |name args targets|target source kind| | | | | | | | | | |]; cbn;
      try (by intros ?%elem_of_nil); [by constructor|].
    destruct target; try (by intros ?%elem_of_nil). intros ->%list_elem_of_singleton. constructor.
  - destruct 1; cbn; [done|by apply list_elem_of_singleton].
Qed.

(** Variable [v] is assigned in block [u]; variables are compared with
    [==], as the hash set does. *)
Definition assigned_in (m : CfgMethod) (u : nat) (v : LocalVar) : Prop :=
  exists block stmt w, basic_blocks m !! u = Some block /\ stmt ∈ CfgMethod.stmts block
    /\ assigns w stmt /\ (v == w) = true.

Lemma contains_exists {A} `{PartialEq A} (s : HashSet.t A) x :
  HashSet.contains s x = true <-> exists y, y ∈ s /\ (x == y) = true.
Proof.
  unfold HashSet.contains. rewrite existsb_exists. split; intros (y & Hy & E); exists y;
    (split; [by apply list_elem_of_In|done]).
Qed.

Lemma check_block_contains vars block v :
  HashSet.contains (check_block vars block) v = true
  <-> HashSet.contains vars v = true
      \/ exists stmt w, stmt ∈ CfgMethod.stmts block /\ assigns w stmt /\ (v == w) = true.
Proof.
  setoid_rewrite <- stmt_assigned_vars_spec.
  unfold check_block. generalize (CfgMethod.stmts block). intros ss. revert vars.
  induction ss as [|s ss IH]; intros vars; cbn [foldl].
  - split; [by left|]. intros [?|(s & w & Hs & _)]; [done|by apply elem_of_nil in Hs].
  - rewrite IH, HashSet.contains_union, orb_true_iff, (contains_exists (stmt_assigned_vars s)). split.
    + intros [[?|(w & Hw & E)]|(s' & w & Hs & Hw)]; [by left|right; exists s, w|right; exists s', w];
        rewrite elem_of_cons; auto.
    + intros [?|(s' & w & [->|Hs]%elem_of_cons & Hw & E)]; [auto| |right; eauto]. left. right. eauto.
Qed.

Lemma mark_predecessors_marks preds : forall to_visit marked,
  let r := mark_predecessors preds to_visit marked in marks preds to_visit marked (fst r) (snd r).
Proof.
  induction preds as [|p preds IH]; intros to_visit marked; cbn [mark_predecessors]; [apply marks_nil|].
  destruct (HashSet.contains marked p) eqn:E.
  - apply marks_skip; [|apply IH]. by apply list_elem_of_In, HashSet.contains_In.
  - apply marks_push with (marked1 := HashSet.insert marked p); [| |apply IH].
    + intros Hp%list_elem_of_In%HashSet.contains_In. congruence.
    + intros x. rewrite !list_elem_of_In, <- !HashSet.contains_In, HashSet.contains_insert, orb_true_iff.
      rewrite (peq_eq (A := nat)). tauto.
Qed.

Lemma last_removelast {A} (l : list A) x : last l = Some x -> l = (removelast l ++ [x])%list.
Proof.
  intros Hl. destruct l as [|y l _] using rev_ind; [done|].
  rewrite last_snoc in Hl. injection Hl as ->. by rewrite removelast_last.
Qed.

Section Collect.
Context (m : CfgMethod) (start end_ : nat) (Hstart : start < length (basic_blocks m)).

(** From [start] backwards along edges, without entering [end_]. *)
Definition reaches_start : nat -> Prop := rtc (open_edge (flip (edge m)) [end_]) start.

Lemma reaches_bound u : reaches_start u -> u < length (basic_blocks m).
Proof.
  intros Hr. apply rtc_inv_r in Hr as [<-|(y & _ & He & _)]; [done|]. by apply edge_source in He.
Qed.

Lemma collect_step seen to_visit marked cur :
  winv (flip (edge m)) [end_] start seen to_visit marked -> last to_visit = Some cur ->
  let r := match HashMap.get (predecessors m) cur with
           | Some ps => mark_predecessors ps (removelast to_visit) marked
           | None => (removelast to_visit, marked)
           end in
  winv (flip (edge m)) [end_] start (cur :: seen) (fst r) (snd r).
Proof.
  intros Hw Hl r. eapply (winv_step _ _ _ _ _ (removelast to_visit)) with
    (js := preds_of (predecessors m) cur); [exact Hw| | |].
  - rewrite (last_removelast to_visit cur) at 1 by done. solve_Permutation.
  - intros j. apply preds_of_edge.
  - unfold preds_of, r. destruct (HashMap.get (predecessors m) cur) as [ps|].
    + apply mark_predecessors_marks.
    + apply marks_nil.
Qed.

Lemma collect_loop_spec fuel : forall seen to_visit marked vars,
  winv (flip (edge m)) [end_] start seen to_visit marked ->
  length (basic_blocks m) <= length seen + fuel ->
  (forall v, HashSet.contains vars v = true <-> exists u, u ∈ seen /\ assigned_in m u v) ->
  exists vars', collect_loop m (predecessors m) fuel to_visit marked vars = Some vars'
    /\ forall v, HashSet.contains vars' v = true <-> exists u, reaches_start u /\ assigned_in m u v.
Proof.
  assert (Hend : forall seen marked vars,
    winv (flip (edge m)) [end_] start seen [] marked ->
    (forall v, HashSet.contains vars v = true <-> exists u, u ∈ seen /\ assigned_in m u v) ->
    forall v, HashSet.contains vars v = true <-> exists u, reaches_start u /\ assigned_in m u v).
  { intros seen marked vars Hw Hv v. rewrite Hv. pose proof (winv_end _ _ _ _ _ Hw) as He.
    split; intros (u & Hu & Ha); exists u; (split; [|done]); by apply He. }
  induction fuel as [|fuel IH]; intros seen to_visit marked vars Hw Hf Hv;
    destruct to_visit as [|a tv _] using rev_ind; cbn [collect_loop].
  1, 3: cbn [last]; eauto.
  - exfalso. pose proof (winv_bound _ _ _ (length (basic_blocks m)) _ _ _ Hw) as Hb.
    rewrite length_app in Hb. cbn in Hb. enough (length seen + (length tv + 1) <= length (basic_blocks m)) by lia.
    apply Hb. intros x Hx. apply reaches_bound. by apply (w_reach _ _ _ _ _ _ Hw).
  - rewrite last_snoc. pose proof (collect_step seen (tv ++ [a]) marked a Hw (last_snoc _ _)) as Hw'.
    cbv zeta in Hw' |- *. destruct (match HashMap.get _ a with Some _ => _ | None => _ end) as [tv' mk'] eqn:E.
    cbn [fst snd] in Hw'.
    assert (Ha : a < length (basic_blocks m)).
    { apply reaches_bound, (w_reach _ _ _ _ _ _ Hw'). rewrite elem_of_app. left. by left. }
    destruct (proj2 (lookup_lt_is_Some (basic_blocks m) a) Ha) as [b Hb]. rewrite Hb.
    cbn [mbind option_bind]. apply (IH (a :: seen) tv' mk'); [done|cbn; lia|].
    intros v. rewrite check_block_contains, Hv. unfold assigned_in. split.
    + intros [(u & Hu & Has)|(s & w & Hs)].
      * exists u. split; [by right|done].
      * exists a. split; [by left|]. exists b, s, w. done.
    + intros (u & [->|Hu]%elem_of_cons & b' & s & w & Hb' & Hs).
      * right. exists s, w. congruence.
      * left. exists u. split; [done|]. exists b', s, w. done.
Qed.
End Collect.

(** *** Sorting by name *)

Definition name_le (a b : LocalVar) : Prop :=
  String.compare (LocalVar.name a) (LocalVar.name b) <> Gt.

Lemma insert_by_name_sorted v l : Sorted name_le l -> Sorted name_le (insert_by_name v l).
Proof.
  induction 1 as [|w l Hl IH Hh]; cbn; [by repeat constructor|].
  destruct (String.compare (LocalVar.name v) (LocalVar.name w)) eqn:E;
    try (constructor; [by constructor|]; constructor; unfold name_le; congruence).
  constructor; [done|]. assert (Hwv : name_le w v).
  { unfold name_le. rewrite String.compare_antisym, E. done. }
  destruct l as [|x l]; cbn; [by constructor|]. inversion Hh; subst.
  destruct (String.compare (LocalVar.name v) (LocalVar.name x)); by constructor.
Qed.

Lemma insert_by_name_perm v l : insert_by_name v l ≡ₚ v :: l.
Proof.
  induction l as [|w l IH]; cbn; [done|].
  destruct (String.compare _ _); [done|done|]. rewrite IH. apply Permutation_swap.
Qed.

Lemma sort_by_name_spec l : Sorted name_le (sort_by_name l) /\ sort_by_name l ≡ₚ l.
Proof.
  induction l as [|v l [IHs IHp]]; cbn; [split; [constructor|done]|]. split.
  - by apply insert_by_name_sorted.
  - by rewrite insert_by_name_perm, IHp.
Qed.

Theorem collect_assigned_vars_correct (m : CfgMethod) (start_block end_block : CfgBlockIndex) :
  block_index start_block < length (basic_blocks m) ->
  exists vars, collect_assigned_vars m start_block end_block = Some vars
    /\ Sorted name_le vars
    /\ forall v, (exists w, w ∈ vars /\ (v == w) = true)
         <-> exists u, reaches_start m (block_index start_block) (block_index end_block) u
                /\ assigned_in m u v.
Proof.
  intros Hs. destruct (collect_loop_spec m _ (block_index end_block) Hs (length (basic_blocks m))
    [] [block_index start_block]
    (HashSet.insert (HashSet.insert [] (block_index end_block)) (block_index start_block)) [])
    as (vars & E & Hv).
  - apply winv_init. intros x.
    rewrite list_elem_of_In, <- HashSet.contains_In, !HashSet.contains_insert, !orb_true_iff,
      !(peq_eq (A := nat)), list_elem_of_singleton. cbn. intuition congruence.
  - cbn. lia.
  - intros v. split; [done|]. by intros (u & Hu%elem_of_nil & _).
  - exists (sort_by_name vars). unfold collect_assigned_vars. rewrite E. cbn [mbind option_bind].
    destruct (sort_by_name_spec vars) as [Hsort Hperm]. split; [done|]. split; [done|].
    intros v. rewrite <- Hv, contains_exists.
    split; intros (w & Hw & Heq); exists w; (split; [|done]); by rewrite Hperm in * || rewrite Hperm.
Qed.

(** A loop whose body assigns [x] and calls a method with target [y]. *)
Definition sample_loop : CfgMethod :=
  let blk i := CfgBlockIndex.make 7%Z i in
  let var n := LocalVar.new n Ty.Int in
  CfgMethod.make 7%Z "m" 0 [] [] [] []
    [ CfgMethod.make_block [Stmt.Assign (Expr.Local (var "z") Position.default)
                              (expr_of_bool true) AssignKind.Copy] (Successor.Goto (blk 1));
      CfgMethod.make_block [Stmt.MethodCall "f" [] [var "y"]]
        (Successor.GotoSwitch [(expr_of_bool true, blk 2)] (blk 3));
      CfgMethod.make_block [Stmt.Assign (Expr.Local (var "x") Position.default)
                              (expr_of_bool true) AssignKind.Copy] (Successor.Goto (blk 1));
      CfgMethod.make_block [] Successor.Return ]
    ["start"; "head"; "body"; "end"] 0%Z 0%Z.

Lemma collect_assigned_vars_correct_witness :
  collect_assigned_vars sample_loop (CfgBlockIndex.make 7%Z 2) (CfgBlockIndex.make 7%Z 0)
    = Some [LocalVar.new "x" Ty.Int; LocalVar.new "y" Ty.Int]
  /\ exists vars, collect_assigned_vars sample_loop (CfgBlockIndex.make 7%Z 2)
                    (CfgBlockIndex.make 7%Z 0) = Some vars
       /\ Sorted name_le vars
       /\ forall v, (exists w, w ∈ vars /\ (v == w) = true)
            <-> exists u, reaches_start sample_loop 2 0 u /\ assigned_in sample_loop u v.
Proof.
  split; [vm_compute; reflexivity|].
  apply (collect_assigned_vars_correct sample_loop (CfgBlockIndex.make 7%Z 2) (CfgBlockIndex.make 7%Z 0)).
  cbn. lia.
Defined.
