(* ===== verification/CfgFacts.v ===== *)
(** * Facts about the builder of control flow graphs

    Fresh names are fresh and are found within the fuel; the functions that
    build a method keep it well formed; the traversal of the expressions of a
    method. *)

From Stdlib Require Import Lia ZArith.
From stdpp Require Import pretty relations.
From S2P Require Import Prelude Ast ExprEq ExprPlace ExprTransformers ExprOps Collections Items Graph.
From S2P Require Import Borrows Stmt Cfg CfgGraph CfgLoops CfgAssigned.
Import CfgMethod.

(** ** Fresh names *)

Definition in_i32 (z : Z) : Prop := (-2147483648 <= z < 2147483648)%Z.

Lemma wrap_i32_id z : in_i32 z -> wrap_i32 z = z.
Proof. unfold in_i32, wrap_i32. intros Hz. rewrite Z.mod_small; lia. Qed.

Lemma wrap_i32_range z : in_i32 (wrap_i32 z).
Proof.
  unfold in_i32, wrap_i32. pose proof (Z.mod_pos_bound (z + 2147483648) 4294967296). lia.
Qed.

Lemma wrap_i32_succ z : wrap_i32 (wrap_i32 z + 1) = wrap_i32 (z + 1).
Proof.
  unfold wrap_i32.
  replace ((z + 2147483648) mod 4294967296 - 2147483648 + 1 + 2147483648)%Z
    with ((z + 2147483648) mod 4294967296 + 1)%Z by lia.
  rewrite Zplus_mod_idemp_l. do 2 f_equal. lia.
Qed.

(** The counter repeats only after 2^32 steps. *)
Lemma wrap_i32_inj i j k :
  (0 <= j < 4294967296)%Z -> (0 <= k < 4294967296)%Z ->
  wrap_i32 (i + j) = wrap_i32 (i + k) -> j = k.
Proof.
  intros Hj Hk E. unfold wrap_i32 in E.
  assert (E' : ((i + j + 2147483648) mod 4294967296 = (i + k + 2147483648) mod 4294967296)%Z) by lia.
  pose proof (Z.div_mod (i + j + 2147483648) 4294967296 ltac:(lia)).
  pose proof (Z.div_mod (i + k + 2147483648) 4294967296 ltac:(lia)). nia.
Qed.

(** The candidate that is tried after [k] rejections. *)
Definition candidate (prefix : string) (index : Z) (k : nat) : string :=
  prefix ++ pretty (wrap_i32 (index + Z.of_nat k)).

Lemma candidate_inj prefix index j k :
  (Z.of_nat j < 4294967296)%Z -> (Z.of_nat k < 4294967296)%Z ->
  candidate prefix index j = candidate prefix index k -> j = k.
Proof.
  intros Hj Hk E%string_app_inj%(inj pretty). apply wrap_i32_inj in E; lia.
Qed.

Lemma fresh_name_spec m prefix index fuel : forall k,
  match fresh_name m prefix fuel (wrap_i32 (index + Z.of_nat k)) with
  | Some (c, index') =>
      exists j, k <= j <= k + fuel /\ c = candidate prefix index j
        /\ index' = wrap_i32 (index + Z.of_nat (S j)) /\ is_taken m c = false
        /\ forall l, k <= l < j -> is_taken m (candidate prefix index l) = true
  | None => forall l, k <= l <= k + fuel -> is_taken m (candidate prefix index l) = true
  end.
Proof.
  assert (Hs : forall k, wrap_i32 (wrap_i32 (index + Z.of_nat k) + 1) = wrap_i32 (index + Z.of_nat (S k))).
  { intros k. rewrite wrap_i32_succ. f_equal. lia. }
  induction fuel as [|fuel IH]; intros k; cbn [fresh_name]; rewrite Hs;
    fold (candidate prefix index k); destruct (is_taken m (candidate prefix index k)) eqn:E.
  - intros l Hl. by replace l with k by lia.
  - exists k. do 4 (split; [done || lia|]). lia.
  - specialize (IH (S k)). destruct (fresh_name m prefix fuel _) as [[c i]|].
    + destruct IH as (j & Hj & -> & -> & Ht & Hl). exists j. do 4 (split; [done || lia|]).
      intros l Hl'. destruct (decide (l = k)) as [->|]; [done|]. apply Hl. lia.
    + intros l Hl. destruct (decide (l = k)) as [->|]; [done|]. apply IH. lia.
  - exists k. do 4 (split; [done || lia|]). lia.
Qed.

Lemma forallb_peq {A} (f : A -> string) (l : list A) n :
  forallb (fun x => f x != n) l = true <-> n ∉ map f l.
Proof.
  rewrite forallb_forall, list_elem_of_In, in_map_iff. split.
  - intros Hall (x & <- & Hx). specialize (Hall _ Hx). by rewrite peq_refl in Hall.
  - intros Hn x Hx. destruct (f x == n) eqn:E; [|done]. apply (peq_eq (A := string)) in E.
    destruct Hn. eauto.
Qed.

Lemma is_fresh_local_name_spec m n :
  is_fresh_local_name m n = true
  <-> n ∉ map LocalVar.name (get_all_vars m) /\ n ∉ labels m /\ n ∉ basic_blocks_labels m.
Proof.
  pose proof (forallb_peq id (basic_blocks_labels m) n) as Hb. rewrite map_id in Hb. unfold id in Hb.
  unfold is_fresh_local_name, get_all_vars. rewrite !andb_true_iff, Hb, !forallb_peq, map_app, elem_of_app.
  rewrite negb_true_iff, <- not_true_iff_false, HashSet.contains_In, <- list_elem_of_In. tauto.
Qed.

Lemma is_taken_spec m n : is_taken m n = true <-> n ∈ all_names m.
Proof.
  unfold is_taken. rewrite orb_true_iff, negb_true_iff, <- not_true_iff_false,
    is_fresh_local_name_spec, HashSet.contains_In, <- list_elem_of_In.
  unfold all_names, get_all_vars. rewrite map_app, !elem_of_app.
  destruct (decide (n ∈ map LocalVar.name (formal_returns m))),
    (decide (n ∈ map LocalVar.name (local_vars m))), (decide (n ∈ labels m)),
    (decide (n ∈ basic_blocks_labels m)), (decide (n ∈ reserved_labels m)); tauto.
Qed.

(** There are fewer names than candidates, so the search ends. *)
Lemma fresh_name_total m prefix index :
  in_i32 index -> (Z.of_nat (length (all_names m)) < 4294967295)%Z ->
  exists j, fresh_name m prefix (length (all_names m)) index
            = Some (candidate prefix index j, wrap_i32 (index + Z.of_nat (S j)))
    /\ j <= length (all_names m) /\ candidate prefix index j ∉ all_names m
    /\ forall l, l < j -> candidate prefix index l ∈ all_names m.
Proof.
  intros Hi Hlen. pose proof (fresh_name_spec m prefix index (length (all_names m)) 0) as Hs.
  rewrite Z.add_0_r, (wrap_i32_id index Hi) in Hs.
  destruct (fresh_name m prefix _ index) as [[c i]|].
  - destruct Hs as (j & Hj & -> & -> & Ht & Hl). exists j. split; [done|]. split; [lia|].
    split; [by rewrite <- is_taken_spec, Ht|]. intros l Hl'. apply is_taken_spec, Hl. lia.
  - exfalso. pose (cs := map (candidate prefix index) (seq 0 (S (length (all_names m))))).
    assert (Hnd : NoDup cs).
    { apply NoDup_ListNoDup. apply NoDup_map_NoDup_ForallPairs; [|apply seq_NoDup].
      intros a b Ha%in_seq Hb%in_seq. apply candidate_inj; lia. }
    assert (Hle : length cs <= length (all_names m)).
    { apply submseteq_length, NoDup_submseteq; [done|].
      intros x (l & <- & Hx%in_seq)%list_elem_of_In%in_map_iff. apply is_taken_spec, Hs. lia. }
    unfold cs in Hle. rewrite length_map, length_seq in Hle. lia.
Qed.

(** ** What the builder keeps *)

Definition block_labels (b : CfgBlock) : list string := concat (map stmt_labels (stmts b)).

(** A jump goes to a block of the method. *)
Definition jump_ok (m : CfgMethod) (b : CfgBlockIndex) : Prop :=
  method_uuid b = uuid m /\ block_index b < length (basic_blocks m).

Definition jumps_ok (m : CfgMethod) : Prop :=
  forall u succs, following m u = Some succs -> Forall (jump_ok m) succs.

Record wf (m : CfgMethod) : Prop := {
  (** variables and statement labels have pairwise different names *)
  wf_names : NoDup (map LocalVar.name (get_all_vars m) ++ labels m)%list;
  (** [labels] are the labels of the statements *)
  wf_labels : labels m ≡ₚ concat (map block_labels (basic_blocks m));
  wf_length : length (basic_blocks_labels m) = length (basic_blocks m);
  wf_block_labels : NoDup (basic_blocks_labels m);
  wf_valid : Forall (fun l => valid_label l = true /\ l <> RETURN_LABEL) (basic_blocks_labels m);
  wf_var_index : in_i32 (fresh_var_index m);
  wf_label_index : in_i32 (fresh_label_index m);
  wf_jumps : jumps_ok m
}.

(** What the graph algorithms assume. *)
Lemma jumps_targets_ok m : jumps_ok m -> targets_ok m /\ uuids_ok m.
Proof.
  intros Hj. split.
  - intros u v. unfold edge, succ_of. destruct (following m u) as [succs|] eqn:E.
    + cbn. intros (b & <- & Hb)%list_elem_of_In%in_map_iff. apply Hj in E.
      rewrite Forall_forall in E. apply E. by apply list_elem_of_In.
    + cbn. by intros ?%elem_of_nil.
  - intros u succs E%Hj. eapply Forall_impl; [exact E|]. by intros b [? _].
Qed.

(** One call of a public function of the builder that returns.  The two side
    conditions are not checked by the code: statements passed to [add_block]
    declare no labels, and a successor jumps to blocks of the method. *)
Inductive build : CfgMethod -> CfgMethod -> Prop :=
  | build_fresh_var m typ v m' : add_fresh_local_var m typ = Some (v, m') -> build m m'
  | build_fresh_label m l m' : get_fresh_label_name m = Some (l, m') -> build m m'
  | build_local_var m name typ m' : add_local_var m name typ = Some m' -> build m m'
  | build_formal_return m name typ m' : add_formal_return m name typ = Some m' -> build m m'
  | build_stmt m index stmt m' : add_stmt m index stmt = Some m' -> build m m'
  | build_block m label stmts index m' :
      concat (map stmt_labels stmts) = [] -> add_block m label stmts = Some (index, m') -> build m m'
  | build_successor m index succ m' :
      Forall (jump_ok m) (Successor.get_following succ) ->
      set_successor m index succ = Some m' -> build m m'.

(** *** Names *)

Lemma fresh_name_not_taken m prefix fuel index c i :
  fresh_name m prefix fuel index = Some (c, i) -> c ∉ all_names m /\ in_i32 i.
Proof.
  revert index. induction fuel as [|fuel IH]; intros index; cbn [fresh_name];
    destruct (is_taken m _) eqn:E; try done; [|apply IH|]; intros [= <- <-];
    (split; [rewrite <- is_taken_spec; congruence|apply wrap_i32_range]).
Qed.

Lemma not_taken_fresh m c :
  c ∉ all_names m ->
  c ∉ map LocalVar.name (get_all_vars m) /\ c ∉ labels m /\ c ∉ basic_blocks_labels m.
Proof. unfold all_names, get_all_vars. rewrite map_app, !elem_of_app. tauto. Qed.

(** A new variable in front of the labels. *)
Lemma names_snoc (vars : list string) (ls : list string) n :
  NoDup (vars ++ ls)%list -> n ∉ vars -> n ∉ ls -> NoDup ((vars ++ [n]) ++ ls)%list.
Proof.
  intros Hnd Hv Hl. rewrite <- app_assoc. cbn. rewrite <- (Permutation_middle vars ls n).
  constructor; [|done]. rewrite elem_of_app. tauto.
Qed.

(** *** The operations one by one *)

Lemma wf_new u name k returns locals reserved :
  NoDup (map LocalVar.name (returns ++ locals)%list) -> wf (new u name k returns locals reserved).
Proof.
  intros Hnd. split; cbn; try done; try constructor.
  by rewrite app_nil_r.
Qed.

Lemma wf_variable m c returns locals :
  wf m -> c ∉ map LocalVar.name (get_all_vars m) -> c ∉ labels m ->
  map LocalVar.name (returns ++ locals)%list ≡ₚ (map LocalVar.name (get_all_vars m) ++ [c])%list ->
  wf (with_local_vars (with_formal_returns m returns) locals).
Proof.
  intros [] Hv Hl Hp. split; cbn; try done. unfold get_all_vars. cbn. rewrite Hp.
  by apply names_snoc.
Qed.

Lemma add_fresh_local_var_wf m typ v m' : wf m -> add_fresh_local_var m typ = Some (v, m') -> wf m'.
Proof.
  intros Hwf E. unfold add_fresh_local_var, generate_fresh_local_var_name in E.
  destruct (fresh_name m "__t" _ _) as [[c i]|] eqn:Ef; [|done]. cbn in E. injection E as <- <-.
  apply fresh_name_not_taken in Ef as [(Hv & Hl & _)%not_taken_fresh Hi].
  assert (Hwf' : wf (with_local_vars (with_formal_returns m (formal_returns m))
                       (local_vars m ++ [LocalVar.new c typ])%list)).
  { apply (wf_variable m c); [done..|]. unfold get_all_vars. by rewrite app_assoc, map_app. }
  destruct Hwf'. by split.
Qed.

Lemma get_fresh_label_name_wf m l m' : wf m -> get_fresh_label_name m = Some (l, m') -> wf m'.
Proof.
  intros [] E. unfold get_fresh_label_name in E.
  destruct (fresh_name m "l" _ _) as [[c i]|] eqn:Ef; [|done]. cbn in E. injection E as <- <-.
  apply fresh_name_not_taken in Ef as [_ Hi]. by split.
Qed.

Lemma add_local_var_wf m name typ m' : wf m -> add_local_var m name typ = Some m' -> wf m'.
Proof.
  intros Hwf E. unfold add_local_var in E. inv_option. subst m'.
  apply is_fresh_local_name_spec in Hx as (Hv & Hl & _).
  apply (wf_variable m name (formal_returns m)); [done..|].
  unfold get_all_vars. by rewrite app_assoc, map_app.
Qed.

Lemma add_formal_return_wf m name typ m' : wf m -> add_formal_return m name typ = Some m' -> wf m'.
Proof.
  intros Hwf E. unfold add_formal_return in E. inv_option. subst m'.
  apply is_fresh_local_name_spec in Hx as (Hv & Hl & _).
  apply (wf_variable m name (formal_returns m ++ [LocalVar.new name typ])%list (local_vars m)); [done..|].
  unfold get_all_vars. rewrite !map_app. cbn. rewrite <- !app_assoc. cbn.
  by rewrite <- Permutation_cons_append.
Qed.

(** [add_stmt] registers the labels of its statement, which must be new. *)
Lemma register_labels_spec ls : forall m m', register_labels m ls = Some m' ->
  m' = with_labels m (labels m ++ ls)%list
  /\ NoDup ls /\ forall l, l ∈ ls -> is_fresh_local_name m l = true.
Proof.
  induction ls as [|l ls IH]; intros m m' E; cbn in E.
  - injection E as <-. rewrite app_nil_r. split; [by destruct m|]. split; [constructor|].
    by intros l Hl%elem_of_nil.
  - inv_option. apply IH in E as (-> & Hnd & Hall).
    pose proof (proj1 (is_fresh_local_name_spec m l) Hx) as (Hv & Hl & Hb).
    assert (Hins : HashSet.insert (labels m) l = (labels m ++ [l])%list).
    { unfold HashSet.insert. destruct (HashSet.contains (labels m) l) eqn:Ec; [|done].
      by apply HashSet.contains_In, list_elem_of_In in Ec. }
    rewrite Hins in *. cbn. rewrite <- app_assoc. split; [done|].
    assert (Hls : forall l', l' ∈ ls -> is_fresh_local_name m l' = true /\ l' <> l).
    { intros l' Hl'. specialize (Hall l' Hl'). apply is_fresh_local_name_spec in Hall. cbn in Hall.
      rewrite is_fresh_local_name_spec. rewrite elem_of_app, list_elem_of_singleton in Hall. tauto. }
    split; [constructor; [|done]; intros Hin; by apply Hls in Hin as [_ ?]|].
    intros l' [->|Hl']%elem_of_cons; [done|by apply Hls].
Qed.

Lemma concat_insert {A B} (f : A -> list B) (l : list A) i x x' ys :
  l !! i = Some x -> f x' = (f x ++ ys)%list ->
  concat (map f (<[i := x']> l)) ≡ₚ (concat (map f l) ++ ys)%list.
Proof.
  intros Hi Hf. rewrite insert_take_drop by by eapply lookup_lt_Some.
  rewrite <- (take_drop_middle l i x Hi) at 3. rewrite !map_app, !concat_app. cbn. rewrite Hf.
  rewrite <- !app_assoc. do 2 f_equiv. apply Permutation_app_comm.
Qed.

Lemma jumps_insert m i b b' :
  jumps_ok m -> basic_blocks m !! i = Some b ->
  Forall (jump_ok m) (Successor.get_following (successor b')) ->
  jumps_ok (with_blocks m (<[i := b']> (basic_blocks m))).
Proof.
  intros Hj Hi Hb u succs. unfold following, jump_ok. cbn. rewrite length_insert.
  destruct (decide (i = u)) as [<-|Hne].
  - rewrite list_lookup_insert_eq by (by eapply lookup_lt_Some). cbn. by intros [= <-].
  - rewrite list_lookup_insert_ne by done. apply Hj.
Qed.

Lemma add_stmt_wf m index stmt m' : wf m -> add_stmt m index stmt = Some m' -> wf m'.
Proof.
  intros [] E. unfold add_stmt in E. rewrite gather_labels_spec in E. cbn in E. inv_option. subst m'.
  apply register_labels_spec in Hx as (-> & Hnd & Hfresh). cbn in Hx0 |- *.
  assert (Hj : jumps_ok (with_blocks m (<[block_index index := make_block (stmts x0 ++ [stmt])%list
                                            (successor x0)]> (basic_blocks m)))).
  { eapply jumps_insert; [done..|]. apply wf_jumps0 with (u := block_index index).
    unfold following. by rewrite Hx0. }
  split; cbn; try done; [| |by rewrite length_insert].
  - rewrite app_assoc. apply NoDup_app. split; [done|]. split; [|done].
    intros l Hl Hin. apply Hfresh, is_fresh_local_name_spec in Hin. apply elem_of_app in Hl. tauto.
  - rewrite (concat_insert block_labels (basic_blocks m) (block_index index) x0 _ (stmt_labels stmt));
      [by rewrite wf_labels0|done|].
    unfold block_labels. cbn. rewrite map_app, concat_app. cbn. by rewrite app_nil_r.
Qed.

Lemma add_block_wf m label ss index m' :
  wf m -> concat (map stmt_labels ss) = [] -> add_block m label ss = Some (index, m') -> wf m'.
Proof.
  intros [] Hss E. unfold add_block in E. inv_option. subst m'.
  apply (forallb_peq id) in Hx0. rewrite map_id in Hx0.
  apply negb_true_iff, (peq_false_iff (A := string)) in Hx1.
  split; cbn; try done.
  - rewrite map_app, concat_app. cbn. change (block_labels (make_block ss Successor.Undefined))
      with (concat (map stmt_labels ss)). by rewrite Hss, !app_nil_r.
  - rewrite !length_app. cbn. congruence.
  - apply NoDup_app. split; [done|]. split; [|apply NoDup_singleton].
    by intros l Hl ->%list_elem_of_singleton.
  - apply Forall_app. split; [done|]. by repeat constructor.
  - intros u succs. unfold following, jump_ok. cbn. rewrite length_app. cbn.
    destruct (decide (u < length (basic_blocks m))) as [Hlt|Hge].
    + rewrite lookup_app_l by done. intros Hf%wf_jumps0.
      eapply Forall_impl; [exact Hf|]. intros b [? ?]. split; [done|lia].
    + rewrite lookup_app_r by lia. destruct (u - length (basic_blocks m)); cbn; intros [= <-].
      constructor.
Qed.

Lemma set_successor_wf m index succ m' :
  wf m -> Forall (jump_ok m) (Successor.get_following succ) ->
  set_successor m index succ = Some m' -> wf m'.
Proof.
  intros [] Hs E. unfold set_successor in E. inv_option. subst m'.
  assert (Hj : jumps_ok (with_blocks m (<[block_index index := make_block (stmts x0) succ]> (basic_blocks m))))
    by (by eapply jumps_insert).
  split; cbn; try done; [|by rewrite length_insert].
  rewrite (concat_insert block_labels (basic_blocks m) (block_index index) x0 _ []);
    [by rewrite app_nil_r|done|]. unfold block_labels. cbn. by rewrite app_nil_r.
Qed.

(** ** The theorems *)

Theorem builder_keeps_well_formed u name k returns locals reserved m :
  NoDup (map LocalVar.name (returns ++ locals)%list) ->
  rtc build (new u name k returns locals reserved) m -> wf m.
Proof.
  intros Hnd Hr. pose proof (wf_new u name k returns locals reserved Hnd) as Hw.
  induction Hr as [m|m1 m2 m3 Hb _ IH]; [done|]. apply IH. destruct Hb.
  - by eapply add_fresh_local_var_wf.
  - by eapply get_fresh_label_name_wf.
  - by eapply add_local_var_wf.
  - by eapply add_formal_return_wf.
  - by eapply add_stmt_wf.
  - by eapply add_block_wf.
  - by eapply set_successor_wf.
Qed.

Theorem fresh_names_are_fresh m :
  in_i32 (fresh_var_index m) -> in_i32 (fresh_label_index m) ->
  (Z.of_nat (length (all_names m)) < 2147483647)%Z ->
  (exists c i, generate_fresh_local_var_name m = Some (c, with_fresh_var_index m i)
     /\ in_i32 i /\ c ∉ all_names m /\ is_fresh_local_name m c = true)
  /\ (exists c i, get_fresh_label_name m = Some (c, with_fresh_label_index m i)
       /\ in_i32 i /\ c ∉ all_names m /\ is_fresh_local_name m c = true
       /\ exists c' m', get_fresh_label_name (with_fresh_label_index m i) = Some (c', m') /\ c' <> c).
Proof.
  intros Hv Hl Hlen. split.
  - destruct (fresh_name_total m "__t" _ Hv) as (j & E & _ & Hn & _); [lia|].
    exists (candidate "__t" (fresh_var_index m) j), (wrap_i32 (fresh_var_index m + Z.of_nat (S j))).
    unfold generate_fresh_local_var_name. rewrite E. split; [done|]. split; [apply wrap_i32_range|].
    split; [done|]. by apply is_fresh_local_name_spec, not_taken_fresh.
  - destruct (fresh_name_total m "l" _ Hl) as (j & E & Hj & Hn & _); [lia|].
    pose (i := wrap_i32 (fresh_label_index m + Z.of_nat (S j))).
    exists (candidate "l" (fresh_label_index m) j), i.
    unfold get_fresh_label_name at 1. rewrite E. split; [done|]. split; [apply wrap_i32_range|].
    split; [done|]. split; [by apply is_fresh_local_name_spec, not_taken_fresh|].
    destruct (fresh_name_total (with_fresh_label_index m i) "l" i) as (j' & E' & Hj' & _);
      [apply wrap_i32_range|change (all_names (with_fresh_label_index m i)) with (all_names m); lia|].
    eexists _, _. unfold get_fresh_label_name. cbn [fresh_label_index with_fresh_label_index].
    rewrite E'. split; [done|]. change (all_names (with_fresh_label_index m i)) with (all_names m) in Hj'.
    intros Hc%string_app_inj%(inj pretty). unfold i in Hc.
    assert (Hw : forall a b, wrap_i32 (wrap_i32 a + Z.of_nat b) = wrap_i32 (a + Z.of_nat b)).
    { intros a b. unfold wrap_i32. replace ((a + 2147483648) mod 4294967296 - 2147483648 + Z.of_nat b + 2147483648)%Z
        with ((a + 2147483648) mod 4294967296 + Z.of_nat b)%Z by lia. rewrite Zplus_mod_idemp_l.
      do 2 f_equal. lia. }
    rewrite Hw, <- Z.add_assoc in Hc. apply wrap_i32_inj in Hc; lia.
Qed.

(** A method built by one call of every kind. *)
Definition built_method : option CfgMethod :=
  let m := new 7%Z "m" 0 [LocalVar.new "r" Ty.Int] [] ["l0"] in
  '(_, m) ← add_fresh_local_var m Ty.Bool;
  m ← add_local_var m "x" Ty.Int;
  '(i, m) ← add_block m "start" [Stmt.Comment "entry"];
  '(l, m) ← get_fresh_label_name m;
  m ← add_stmt m i (Stmt.Label l);
  set_successor m i (Successor.Goto i).

Lemma builder_keeps_well_formed_witness :
  exists m, built_method = Some m /\ labels m = ["l1"] /\ wf m.
Proof.
  eexists. split; [vm_compute; reflexivity|]. split; [reflexivity|].
  apply (builder_keeps_well_formed 7%Z "m" 0 [LocalVar.new "r" Ty.Int] [] ["l0"]).
  - cbn. apply NoDup_singleton.
  - eapply rtc_l; [eapply (build_fresh_var _ Ty.Bool); vm_compute; reflexivity|].
    eapply rtc_l; [eapply (build_local_var _ "x" Ty.Int); vm_compute; reflexivity|].
    eapply rtc_l; [eapply (build_block _ "start" [Stmt.Comment "entry"]); vm_compute; reflexivity|].
    eapply rtc_l; [eapply build_fresh_label; vm_compute; reflexivity|].
    eapply rtc_l; [eapply (build_stmt _ (CfgBlockIndex.make 7%Z 0) (Stmt.Label "l1")); vm_compute; reflexivity|].
    eapply rtc_l; [|apply rtc_refl].
    eapply (build_successor _ (CfgBlockIndex.make 7%Z 0) (Successor.Goto (CfgBlockIndex.make 7%Z 0)));
      [|vm_compute; reflexivity]. repeat constructor.
Defined.

Lemma fresh_names_are_fresh_witness :
  let m := new 7%Z "m" 0 [LocalVar.new "__t0" Ty.Int] [] ["l0"; "__t1"] in
  generate_fresh_local_var_name m = Some ("__t2", with_fresh_var_index m 3)
  /\ exists c i, get_fresh_label_name m = Some (c, with_fresh_label_index m i)
       /\ in_i32 i /\ c ∉ all_names m /\ is_fresh_local_name m c = true
       /\ exists c' m', get_fresh_label_name (with_fresh_label_index m i) = Some (c', m') /\ c' <> c.
Proof.
  split; [vm_compute; reflexivity|]. apply fresh_names_are_fresh; cbn; unfold in_i32; lia.
Defined.

(** ** The traversal of the expressions *)

Definition successor_guards (s : Successor) : list Expr :=
  match s with Successor.GotoSwitch targets _ => map fst targets | _ => [] end.

(** The expressions of the statements of all blocks, then the guards of all successors. *)
Definition method_exprs (m : CfgMethod) : list Expr :=
  (concat (map (fun b => concat (map stmt_exprs (stmts b))) (basic_blocks m))
   ++ concat (map (fun b => successor_guards (successor b)) (basic_blocks m)))%list.

Theorem walk_expressions_spec {S} (m : CfgMethod) (walker : Expr -> Walk S) (s : S) :
  walk_expressions m walker s = walk_list (map walker (method_exprs m)) s.
Proof.
  assert (Hst : forall s, walk_statements m (run_stmt_walk (expr_stmt_walker walker)) s
    = walk_list (map walker (concat (map (fun b => concat (map stmt_exprs (stmts b)))
                                       (basic_blocks m)))) s).
  { intros s1. unfold walk_statements. rewrite walk_list_concat, map_map.
    apply walk_list_ext, Forall_forall. intros b _ s2. rewrite walk_list_concat, map_map.
    apply walk_list_ext, Forall_forall. intros stmt _ s3. by apply expr_walk_spec. }
  assert (Hsu : forall s, walk_successors m (walk_successor_guards walker) s
    = walk_list (map walker (concat (map (fun b => successor_guards (successor b))
                                       (basic_blocks m)))) s).
  { intros s1. unfold walk_successors. rewrite walk_list_concat, map_map.
    apply walk_list_ext, Forall_forall. intros b _ s2. destruct (successor b); cbn; try done.
    by rewrite map_map. }
  unfold walk_expressions, walk_then, method_exprs. rewrite map_app, walk_list_app, Hst.
  destruct (walk_list _ s) as [s'|]; [apply Hsu|done].
Qed.
