(* ===== verification/MethodSem.v ===== *)
(** * Reference semantics of methods

    The executions of a method as Viper sees it: [cfg/to_viper.rs] emits every
    block as a label, its statements and jumps to the labels of its
    successors, and [to_viper.rs] emits the statements.  What a statement
    does to the state of the verifier, and whether it fails to verify, is a
    parameter; the laws say what the documentation of Viper says about
    comments, literally true assertions and conditionals.

    The optimizations of methods are proved against it: they keep the
    executions and the verification failures. *)

From stdpp Require Import relations.
From S2P Require Import Prelude Ast ExprEq ExprPlace ExprTransformers ExprOps Collections Items Borrows.
From S2P Require Import Stmt Cfg CfgGraph CfgLoops.

Class MethodInterp : Type := {
  MState : Type;
  (** one execution: a new state, or [None] if verification fails *)
  exec : Stmt -> MState -> option MState -> Prop;
  (** the value of a guard, [None] if it is not well defined *)
  holds : Expr -> MState -> option bool
}.

(** ** Sequences of statements *)

Section Sem.
Context `{MethodInterp}.

Fixpoint exec_list (ss : list Stmt) (σ : MState) (r : option MState) : Prop :=
  match ss with
  | [] => r = Some σ
  | s :: ss' =>
      (exec s σ None /\ r = None) \/ exists σ', exec s σ (Some σ') /\ exec_list ss' σ' r
  end.

Lemma exec_list_app ss1 ss2 σ r :
  exec_list (ss1 ++ ss2)%list σ r
  <-> (exec_list ss1 σ None /\ r = None) \/ exists σ', exec_list ss1 σ (Some σ') /\ exec_list ss2 σ' r.
Proof.
  revert σ. induction ss1 as [|s ss1 IH]; intros σ; cbn.
  - split; [intros Hr; right; by exists σ|]. by intros [[? _]|(σ' & [= <-] & Hr)].
  - split.
    + intros [[Hs ->]|(σ1 & Hs & [[Hr ->]|(σ2 & Hr & Hr2)]%IH)].
      * left. split; [by left|done].
      * left. split; [right; by exists σ1|done].
      * right. exists σ2. split; [right; by exists σ1|done].
    + intros [[[[Hs _]|(σ1 & Hs & Hr)] ->]|(σ2 & [[Hs ?]|(σ1 & Hs & Hr)] & Hr2)]; [by left| |done|].
      * right. exists σ1. split; [done|]. apply IH. by left.
      * right. exists σ1. split; [done|]. apply IH. right. by exists σ2.
Qed.

(** ** Control flow *)

(** The first target whose guard holds. *)
Fixpoint select (targets : list (Expr * CfgBlockIndex)) (default_target : CfgBlockIndex) (σ : MState) :
    option CfgBlockIndex :=
  match targets with
  | [] => Some default_target
  | (guard, target) :: rest =>
      b ← holds guard σ;
      if (b : bool) then Some target else select rest default_target σ
  end.

(** The jump at the end of a block; [None]: there is none, [Some None]: a
    guard is not well defined. *)
Definition jump (succ : Successor) (σ : MState) : option (option nat) :=
  match succ with
  | Successor.Undefined | Successor.Return => None
  | Successor.Goto target => Some (Some (block_index target))
  | Successor.GotoSwitch targets default_target =>
      Some (block_index <$> select targets default_target σ)
  end.

(** [finish run succ σ r]: from the end of a block with the successor [succ],
    where [run] continues at a block. *)
Definition finish (run : nat -> MState -> option MState -> Prop) (succ : Successor) (σ : MState)
    (r : option MState) : Prop :=
  (succ = Successor.Return /\ r = Some σ)
  \/ (jump succ σ = Some None /\ r = None)
  \/ exists j, jump succ σ = Some (Some j) /\ run j σ r.

(** [run m i σ r]: started at block [i] in state [σ], the method can return
    in a state or fail to verify. *)
Inductive run (m : CfgMethod) : nat -> MState -> option MState -> Prop :=
  | run_fail i b σ :
      basic_blocks m !! i = Some b -> exec_list (CfgMethod.stmts b) σ None -> run m i σ None
  | run_return i b σ σ' :
      basic_blocks m !! i = Some b -> exec_list (CfgMethod.stmts b) σ (Some σ') ->
      CfgMethod.successor b = Successor.Return -> run m i σ (Some σ')
  | run_guard i b σ σ' :
      basic_blocks m !! i = Some b -> exec_list (CfgMethod.stmts b) σ (Some σ') ->
      jump (CfgMethod.successor b) σ' = Some None -> run m i σ None
  | run_jump i b σ σ' j r :
      basic_blocks m !! i = Some b -> exec_list (CfgMethod.stmts b) σ (Some σ') ->
      jump (CfgMethod.successor b) σ' = Some (Some j) -> run m j σ' r -> run m i σ r.

(** The same executions and failures from the start block. *)
Definition same_behaviour (m m' : CfgMethod) : Prop := forall σ r, run m 0 σ r <-> run m' 0 σ r.

(** A run is the statements of its block and what follows. *)
Lemma run_iff m i σ r :
  run m i σ r <-> exists b, basic_blocks m !! i = Some b
    /\ ((exec_list (CfgMethod.stmts b) σ None /\ r = None)
        \/ exists σ', exec_list (CfgMethod.stmts b) σ (Some σ')
             /\ finish (run m) (CfgMethod.successor b) σ' r).
Proof.
  unfold finish. split.
  - destruct 1 as [i b σ Hb He|i b σ σ' Hb He Hs|i b σ σ' Hb He Hj|i b σ σ' j r Hb He Hj Hr];
      exists b; (split; [done|]); [by left|right; exists σ'; split; [done|]..]; eauto 6.
  - intros (b & Hb & [[He ->]|(σ' & He & [[Hs ->]|[[Hj ->]|(j & Hj & Hr)]])]).
    + by eapply run_fail.
    + by eapply run_return.
    + by eapply run_guard.
    + by eapply run_jump.
Qed.

(** Blocks that execute alike and jump alike make methods that behave alike. *)
Definition same_blocks (m m' : CfgMethod) : Prop :=
  Forall2 (fun b b' => CfgMethod.successor b' = CfgMethod.successor b
      /\ forall σ r, exec_list (CfgMethod.stmts b) σ r <-> exec_list (CfgMethod.stmts b') σ r)
    (basic_blocks m) (basic_blocks m').

Lemma run_same_blocks m m' : same_blocks m m' -> forall i σ r, run m i σ r -> run m' i σ r.
Proof.
  intros HF i σ r Hr.
  induction Hr as [i b σ Hb He|i b σ σ' Hb He Hs|i b σ σ' Hb He Hj|i b σ σ' j r Hb He Hj Hr IH];
    destruct (Forall2_lookup_l _ _ _ i b HF Hb) as (b' & Hb' & Hsucc & Hex); apply Hex in He.
  - by eapply run_fail.
  - eapply run_return; [done|done|congruence].
  - eapply run_guard; [done|done|congruence].
  - eapply run_jump; [done|done|by rewrite Hsucc|done].
Qed.

Lemma same_blocks_behave m m' : same_blocks m m' -> same_behaviour m m'.
Proof.
  intros HF σ r. split; [by apply run_same_blocks|]. apply run_same_blocks.
  unfold same_blocks in *. apply Forall2_flip. eapply Forall2_impl; [exact HF|].
  intros b b' [Hs He]. split; [done|]. intros. symmetry. apply He.
Qed.

(** ** Statements without effect *)

Definition no_op (s : Stmt) : Prop := forall σ r, exec s σ r <-> r = Some σ.

Lemma exec_list_no_ops ss σ r : Forall no_op ss -> exec_list ss σ r <-> r = Some σ.
Proof.
  intros HF. revert σ. induction HF as [|s ss Hs _ IH]; intros σ; [done|]. cbn. split.
  - intros [[?%Hs _]|(σ' & [= <-]%Hs & Hr)]; [done|by apply IH].
  - intros ->. right. exists σ. split; [by apply Hs|by apply IH].
Qed.

Lemma exec_list_filter f ss :
  Forall (fun s => f s = false -> no_op s) ss ->
  forall σ r, exec_list ss σ r <-> exec_list (List.filter f ss) σ r.
Proof.
  induction 1 as [|s ss Hs _ IH]; intros σ r; [done|]. cbn. destruct (f s) eqn:E; cbn.
  - split; (intros [?|(σ' & ? & ?)]; [by left|right; exists σ'; split; [done|by apply IH]]).
  - specialize (Hs eq_refl). rewrite <- IH. split.
    + by intros [[?%Hs _]|(σ' & [= <-]%Hs & Hr)].
    + intros Hr. right. exists σ. split; [by apply Hs|done].
Qed.

Lemma retain_same_behaviour m f :
  Forall (fun b => Forall (fun s => f s = false -> no_op s) (CfgMethod.stmts b)) (basic_blocks m) ->
  same_behaviour m (retain_stmts m f).
Proof.
  intros HF. apply same_blocks_behave. unfold same_blocks, retain_stmts. cbn.
  induction HF as [|b bs Hb _ IH]; constructor; [|done]. split; [done|]. by apply exec_list_filter.
Qed.
End Sem.

(** ** The laws *)

Class MethodLaws `{MethodInterp} : Prop := {
  exec_comment : forall c, no_op (Stmt.Comment c);
  (** translated to a comment *)
  exec_transfer : forall a b u, no_op (Stmt.TransferPerm a b u);
  exec_inhale_true : forall p, no_op (Stmt.Inhale (Expr.Const (Const.Bool true) p));
  exec_exhale_true : forall p q, no_op (Stmt.Exhale (Expr.Const (Const.Bool true) p) q);
  exec_assert_true : forall p q, no_op (Stmt.Assert (Expr.Const (Const.Bool true) p) q);
  exec_if : forall g t e σ r,
    exec (Stmt.If g t e) σ r
    <-> match holds g σ with
        | None => r = None
        | Some b => exec_list (if b then t else e) σ r
        end
}.

(** An interpretation that satisfies the laws: the state is the number of
    statements other than comments and trivial ones; [assert false] fails;
    guards are boolean literals. *)
Section Sample.

Definition bool_literal (e : Expr) : option bool :=
  match e with Expr.Const (Const.Bool b) _ => Some b | _ => None end.

Definition count_basic (s : Stmt) (n : nat) : option nat :=
  match s with
  | Stmt.Comment _ | Stmt.TransferPerm _ _ _ => Some n
  | Stmt.Inhale e | Stmt.Exhale e _ | Stmt.Assert e _ =>
      match bool_literal e with Some true => Some n | Some false => None | None => Some (S n) end
  | _ => Some (S n)
  end.

Fixpoint count_stmt (s : Stmt) (n : nat) : option nat :=
  match s with
  | Stmt.If g t e =>
      b ← bool_literal g;
      foldl (fun o s => n ← o; count_stmt s n) (Some n) (if (b : bool) then t else e)
  | s => count_basic s n
  end.

#[export] Instance counting_interp : MethodInterp :=
  {| MState := nat; exec := fun s n r => r = count_stmt s n; holds := fun g _ => bool_literal g |}.

Lemma foldl_none (ss : list Stmt) :
  foldl (fun o s => n ← o; count_stmt s n) None ss = None.
Proof. induction ss as [|s ss IH]; [done|exact IH]. Qed.

Lemma count_list ss n r :
  exec_list ss n r <-> r = foldl (fun o s => n ← o; count_stmt s n) (Some n) ss.
Proof.
  revert n. induction ss as [|s ss IH]; intros n; [done|]. cbn. split.
  - intros [[<- ->]|(n' & <- & ->%IH)]; [|done]. cbn. by rewrite foldl_none.
  - destruct (count_stmt s n) as [n'|].
    + intros Hr. right. exists n'. split; [done|by apply IH].
    + intros ->. left. split; [done|apply foldl_none].
Qed.

#[export] Instance counting_laws : MethodLaws.
Proof.
  split; try (intros; intros σ r; reflexivity).
  intros g t e σ r. cbn. destruct (bool_literal g) as [[|]|]; cbn; [| |done]; symmetry; apply count_list.
Qed.
End Sample.

(** * Methods without loops finish

    The procedure encoder asks [has_loops] whether loops are left in a
    method.  If not, every execution of the method is finite, and it ends at
    [Return] or in a verification failure unless a statement gets stuck. *)

(** Every block has a successor and its statements can be executed. *)
Record not_stuck `{MethodInterp} (m : CfgMethod) : Prop := {
  defined_successors : Forall (fun b => CfgMethod.successor b <> Successor.Undefined) (basic_blocks m);
  executable : Forall (fun b => Forall (fun s => forall σ, exists r, exec s σ r) (CfgMethod.stmts b)) (basic_blocks m)
}.

Section Finish.
Context `{MethodInterp}.

Lemma exec_list_progress ss σ : Forall (fun s => forall σ, exists r, exec s σ r) ss -> exists r, exec_list ss σ r.
Proof.
  intros HF. revert σ. induction HF as [|s ss Hs _ IH]; intros σ; [by exists (Some σ)|]. cbn.
  destruct (Hs σ) as [[σ'|] Hr]; [|exists None; by left]. destruct (IH σ') as [r Hr']. exists r. right. by exists σ'.
Qed.

(** Jumps follow the edges of the graph. *)
Lemma select_target targets dt σ t : select targets dt σ = Some t -> t = dt \/ t ∈ map snd targets.
Proof.
  induction targets as [|[g t'] targets IH]; cbn; [intros [= ->]; by left|].
  intros ([|] & _ & Ht)%bind_Some; [injection Ht as ->; right; left|]. apply IH in Ht as [?|?]; [by left|]. right. by right.
Qed.

Lemma jump_follows_edge m i b σ j :
  basic_blocks m !! i = Some b -> jump (CfgMethod.successor b) σ = Some (Some j) -> edge m i j.
Proof.
  intros Hb Hj. unfold edge, succ_of, following. rewrite Hb. cbn. destruct (CfgMethod.successor b) as [| |t|ts dt]; cbn in Hj; try done.
  - injection Hj as <-. left.
  - injection Hj as Hj. apply fmap_Some in Hj as (t & Ht & ->). cbn.
    apply select_target in Ht as [->|Ht]; apply list_elem_of_fmap_2; rewrite elem_of_app, ?list_elem_of_singleton; [by right|by left].
Qed.

Lemma acyclic_sn m i : targets_ok m -> (forall v, ~ tc (edge m) v v) -> sn (edge m) i.
Proof.
  intros Ht Ha. apply tc_finite_sn; [exact Ha|]. exists (seq 0 (length (basic_blocks m))).
  intros x Hx. apply elem_of_seq. assert (Hl : x < length (basic_blocks m)); [|lia].
  induction Hx as [u v Huv|u v w _ _ IH]; [by apply (Ht u)|exact IH].
Qed.

(** From every block. *)
Lemma run_finishes m i :
  targets_ok m -> not_stuck m -> sn (edge m) i -> i < length (basic_blocks m) -> forall σ, exists r, run m i σ r.
Proof.
  intros Ht [Hs He] Hsn. induction Hsn as [i _ IH]. intros Hi σ.
  apply lookup_lt_is_Some in Hi as [b Hb]. rewrite Forall_forall in Hs, He.
  assert (Hin : b ∈ basic_blocks m) by (by eapply list_elem_of_lookup_2).
  destruct (exec_list_progress (CfgMethod.stmts b) σ (He b Hin)) as [[σ'|] Hr]; [|exists None; by eapply run_fail].
  destruct (CfgMethod.successor b) as [| |t|ts dt] eqn:Es; [by destruct (Hs b Hin)|exists (Some σ'); by eapply run_return| |].
  all: destruct (jump (CfgMethod.successor b) σ') as [[j|]|] eqn:Ej;
    [|exists None; by eapply run_guard|by rewrite Es in Ej].
  all: assert (Hij : edge m i j) by (by eapply jump_follows_edge).
  all: destruct (IH j Hij (Ht i j Hij) σ') as [r Hj]; exists r; by eapply run_jump.
Qed.
End Finish.

(** If [has_loops] answers no, the blocks of every execution decrease in a
    well-founded order, and every execution that is not stuck finishes. *)
(** C34. If `has_loops` answers no, for a method whose jumps lead to blocks it has and whose
    blocks have fewer than 2^31 incoming edges each (the counters are of type `i32`), then the
    jumps between blocks are well founded, and, if the method is not stuck, from every block and
    state an execution finishes, at `Return` or in a verification failure. *)
Theorem loop_free_methods_finish `{MethodInterp} (m : CfgMethod) :
  targets_ok m -> in_degrees_fit m -> has_loops m = Some false ->
  (forall i, sn (edge m) i)
  /\ (not_stuck m -> forall i σ, i < length (basic_blocks m) -> exists r, run m i σ r).
Proof.
  intros Ht Hn Hl. destruct (has_loops_spec m Ht Hn) as (b & E & Hb). rewrite Hl in E. injection E as <-.
  assert (Ha : forall v, ~ tc (edge m) v v) by (intros v Hv; assert (false = true) by (apply Hb; by exists v); done).
  split; [intros i; exact (acyclic_sn m i Ht Ha)|]. intros Hns i σ Hi. exact (run_finishes m i Ht Hns (acyclic_sn m i Ht Ha) Hi σ).
Qed.

(** Two branches that meet. *)
Definition sample_diamond : CfgMethod :=
  let to i := CfgBlockIndex.make 7%Z i in
  CfgMethod.make 7%Z "m" 0 [] [] [] []
    [CfgMethod.make_block [] (Successor.GotoSwitch [(expr_of_bool false, to 1)] (to 2));
     CfgMethod.make_block [Stmt.Comment "then"] (Successor.Goto (to 3));
     CfgMethod.make_block [Stmt.Comment "else"] (Successor.Goto (to 3));
     CfgMethod.make_block [Stmt.Assert (expr_of_bool true) Position.default] Successor.Return]
    ["start"; "then"; "else"; "end"] 0%Z 0%Z.

Lemma loop_free_methods_finish_witness :
  (forall i, sn (edge sample_diamond) i) /\ exists r, @run counting_interp sample_diamond 0 5 r.
Proof.
  destruct (@loop_free_methods_finish counting_interp sample_diamond) as [Hsn Hrun].
  - by apply targets_okb_ok.
  - by apply in_degrees_fitb_ok.
  - vm_compute. reflexivity.
  - split; [exact Hsn|]. apply Hrun; [|cbn; lia]. split.
    + repeat (constructor; [discriminate|]). constructor.
    + repeat constructor; intros σ; by eexists.
Defined.
