(* ===== verification/MethodOpts.v ===== *)
(** * Optimizations of methods

    [prusti-common/src/vir/optimizations/methods]: [assert_remover.rs],
    [empty_if_remover.rs], [var_remover.rs] and [cfg_cleaner.rs]. *)

From S2P Require Import Prelude Ast ExprEq ExprPlace ExprTransformers ExprOps Collections Items Borrows.
From S2P Require Import Stmt Cfg CfgGraph MethodSem.

(** ** Trivial assertions *)

Definition keep_assertion (stmt : Stmt) : bool :=
  match stmt with
  | Stmt.Assert (Expr.Const (Const.Bool true) _) _ => false
  | Stmt.Exhale (Expr.Const (Const.Bool true) _) _ => false
  | Stmt.Inhale (Expr.Const (Const.Bool true) _) => false
  | _ => true
  end.

Definition remove_trivial_assertions (method : CfgMethod) : CfgMethod :=
  retain_stmts method keep_assertion.

(** ** Empty conditionals *)

(** One statement of [is_empty_body], which is its conjunction over a list. *)
Fixpoint is_empty_stmt (stmt : Stmt) : bool :=
  match stmt with
  | Stmt.Comment _ | Stmt.TransferPerm _ _ _ => true
  | Stmt.If _ then_stmts else_stmts =>
      forallb is_empty_stmt then_stmts && forallb is_empty_stmt else_stmts
  | _ => false
  end.

Definition is_empty_body (stmts : list Stmt) : bool := forallb is_empty_stmt stmts.

Definition keep_if (stmt : Stmt) : bool :=
  match stmt with
  | Stmt.If _ _ _ => negb (is_empty_body [stmt])
  | _ => true
  end.

Definition remove_empty_if (method : CfgMethod) : CfgMethod := retain_stmts method keep_if.

(** ** Unused variables *)

(** [UsedVarCollector]: the state is [used_vars].  Accessibility predicates
    are not entered. *)
Definition insert_name (v : LocalVar) : Walk (HashSet.t string) :=
  fun used_vars => Some (HashSet.insert used_vars (LocalVar.name v)).

Definition used_var_walker : ExprWalker (HashSet.t string) :=
  {| walk := default_walk;
     walk_local_var := insert_name;
     walk_node := fun n =>
       match n with
       | Node.PredicateAccessPredicate _ _ _ _ | Node.FieldAccessPredicate _ _ _ => walk_nop
       | _ => default_walk_node insert_name n
       end |}.

Definition used_var_stmt_walker : StmtWalker (HashSet.t string) :=
  {| walk_stmt := fun _ dflt => dflt;
     walk_expr_of := run_walk used_var_walker;
     walk_local_var_of := insert_name;
     walk_snode := fun n =>
       match n with
       | SNode.PackageMagicWand wand body _ vars _ =>
           walk_then (run_walk used_var_walker wand)
             (walk_then (walk_list (map go_stmt body))
               (fun used_vars =>
                  Some (foldl (fun s v => HashSet.remove s (LocalVar.name v)) used_vars vars)))
       | _ => default_walk_snode (run_walk used_var_walker) insert_name n
       end |}.

Definition collect_used_vars (method : CfgMethod) : option (HashSet.t string) :=
  walk_then (walk_statements method (run_stmt_walk used_var_stmt_walker))
    (walk_successors method (walk_successor_guards (run_walk used_var_walker))) [].

(** [UnusedVarRemover]. *)
Definition unused_var_remover (unused_vars : HashSet.t LocalVar) : ExprFolder unit Empty_set :=
  {| fold := default_fold;
     fold_node := fun n =>
       match n with
       | Node.PredicateAccessPredicate predicate_name arg perm_amount pos =>
           let kept := mret (Expr.PredicateAccessPredicate predicate_name (orig arg) perm_amount pos) in
           match orig arg with
           | Expr.Local var _ =>
               if HashSet.contains unused_vars var then mret (expr_of_bool true) else kept
           | _ => kept
           end
       | Node.FieldAccessPredicate expr perm_amount pos =>
           var ← lift (get_base (orig expr));
           if HashSet.contains unused_vars var then mret (expr_of_bool true)
           else mret (Expr.FieldAccessPredicate (orig expr) perm_amount pos)
       | _ => default_fold_node n
       end |}.

Definition unused_var_stmt_remover (unused_vars : HashSet.t LocalVar) : StmtFolder unit Empty_set :=
  let fe := run_fold (unused_var_remover unused_vars) in
  {| fold_stmt := fun _ dflt => dflt; fold_expr_of := fe; fold_snode := default_fold_snode fe |}.

(** The statements of a method, each replaced by the result of a folder. *)
Definition fold_method_stmts (f : StmtFolder unit Empty_set) (method : CfgMethod) :
    option CfgMethod :=
  blocks ← mapM_opt (fun block =>
    stmts ← mapM_opt (fun stmt => fst <$> run_stmt_infallible f stmt tt) (CfgMethod.stmts block);
    Some (CfgMethod.make_block stmts (CfgMethod.successor block))) (basic_blocks method);
  Some (CfgMethod.with_blocks method blocks).

Definition remove_unused_vars (method : CfgMethod) : option CfgMethod :=
  used ← collect_used_vars method;
  let is_used v := HashSet.contains used (LocalVar.name v) in
  let used_vars := List.filter is_used (CfgMethod.local_vars method) in
  let unused_vars :=
    HashSet.from_list (List.filter (fun v => negb (is_used v)) (CfgMethod.local_vars method)) in
  fold_method_stmts (unused_var_stmt_remover unused_vars)
    (CfgMethod.with_local_vars method used_vars).

(** ** Merging of basic blocks *)

(** The inner loop of [clean_cfg]: the state is the block that grows, the
    blocks not placed yet and the new indices.  Every iteration takes a block
    out of [blocks]. *)
Fixpoint merge_blocks (predecessors : HashMap.t nat (list nat)) (new_index : nat) (fuel : nat)
    (basic_block : CfgBlock) (blocks : HashMap.t nat CfgBlock) (new_indices : HashMap.t nat nat) :
    option (CfgBlock * HashMap.t nat CfgBlock * HashMap.t nat nat) :=
  match CfgMethod.successor basic_block with
  | Successor.Goto target =>
      preds ← HashMap.get predecessors (block_index target);
      if Nat.eqb (length preds) 1 then
        _ ← assert_ (negb (HashMap.contains_key new_indices (block_index target)));
        target_block ← HashMap.get blocks (block_index target);
        match fuel with
        | 0 => None
        | S fuel' =>
            merge_blocks predecessors new_index fuel'
              (CfgMethod.make_block (CfgMethod.stmts basic_block ++ CfgMethod.stmts target_block)%list
                 (CfgMethod.successor target_block))
              (HashMap.remove blocks (block_index target))
              (HashMap.insert new_indices (block_index target) new_index)
        end
      else Some (basic_block, blocks, new_indices)
  | _ => Some (basic_block, blocks, new_indices)
  end.

(** The outer loop. *)
Fixpoint clean_blocks (predecessors : HashMap.t nat (list nat)) (traversal_order : list CfgBlockIndex)
    (new_basic_blocks : list CfgBlock) (blocks : HashMap.t nat CfgBlock)
    (new_indices : HashMap.t nat nat) : option (list CfgBlock * HashMap.t nat nat) :=
  match traversal_order with
  | [] => Some (new_basic_blocks, new_indices)
  | b :: rest =>
      match HashMap.get blocks (block_index b) with
      | Some basic_block =>
          let blocks := HashMap.remove blocks (block_index b) in
          let new_index := length new_basic_blocks in
          _ ← assert_ (negb (HashMap.contains_key new_indices (block_index b)));
          let new_indices := HashMap.insert new_indices (block_index b) new_index in
          '(basic_block, blocks, new_indices) ←
            merge_blocks predecessors new_index (length blocks) basic_block blocks new_indices;
          clean_blocks predecessors rest (new_basic_blocks ++ [basic_block])%list blocks new_indices
      | None => clean_blocks predecessors rest new_basic_blocks blocks new_indices
      end
  end.

Definition rename_index (new_indices : HashMap.t nat nat) (target : CfgBlockIndex) :
    option CfgBlockIndex :=
  i ← HashMap.get new_indices (block_index target);
  Some (CfgBlockIndex.make (method_uuid target) i).

Definition rename_successor (new_indices : HashMap.t nat nat) (succ : Successor) : option Successor :=
  match succ with
  | Successor.Undefined => Some Successor.Undefined
  | Successor.Return => Some Successor.Return
  | Successor.Goto target => Successor.Goto <$> rename_index new_indices target
  | Successor.GotoSwitch conditional_targets default_target =>
      default_target ← rename_index new_indices default_target;
      conditional_targets ← mapM_opt (fun x =>
        target ← rename_index new_indices (snd x); Some (fst x, target)) conditional_targets;
      Some (Successor.GotoSwitch conditional_targets default_target)
  end.

Definition clean_cfg (method : CfgMethod) : option CfgMethod :=
  let predecessors := predecessors method in
  traversal_order ← get_topological_sort method;
  first ← head traversal_order;
  _ ← assert_ (Nat.eqb (block_index first) 0);
  '(new_basic_blocks, new_indices) ←
    clean_blocks predecessors traversal_order [] (HashMap.from_list (enumerate (basic_blocks method)))
      HashMap.empty;
  new_basic_blocks ← mapM_opt (fun b =>
    succ ← rename_successor new_indices (CfgMethod.successor b);
    Some (CfgMethod.make_block (CfgMethod.stmts b) succ)) new_basic_blocks;
  Some (CfgMethod.with_blocks method new_basic_blocks).

(** * The optimizations of methods keep the behaviour

    Trivial assertions and empty conditionals, against [MethodSem]; what the
    removal of unused variables guarantees about declarations. *)

Section Facts.
Context `{MethodLaws}.

Lemma dropped_assertion_no_op s : keep_assertion s = false -> no_op s.
Proof.
  destruct s as [| |e|e p|e p| | | | | | | | | | | | |]; try done; destruct e; try done;
    destruct c as [[]| | |]; try done; intros _.
  - apply exec_inhale_true.
  - apply exec_exhale_true.
  - apply exec_assert_true.
Qed.

(** Removing trivial assertions keeps the executions and failures of a method. *)
Lemma remove_trivial_assertions_correct (m : CfgMethod) :
  same_behaviour m (remove_trivial_assertions m).
Proof.
  apply retain_same_behaviour, Forall_forall. intros b _. apply Forall_forall.
  intros s _. apply dropped_assertion_no_op.
Qed.

(** The guards of a statement and of its nested conditionals. *)
Fixpoint if_guards (s : Stmt) : list Expr :=
  match s with
  | Stmt.If g t e => (g :: concat (map if_guards t) ++ concat (map if_guards e))%list
  | _ => []
  end.

Lemma empty_stmt_no_op s :
  is_empty_stmt s = true -> Forall (fun g => forall σ, holds g σ <> None) (if_guards s) -> no_op s.
Proof.
  induction s as [| | | | | | | | | | | | | | | |g t e IHt IHe|] using Stmt_ind'; try done;
    cbn [is_empty_stmt if_guards].
  - intros _ _. apply exec_comment.
  - intros _ _. apply exec_transfer.
  - intros [Ht He]%andb_true_iff [Hg [Hgt Hge]%Forall_app]%Forall_cons σ r.
    assert (Hb : forall ss, Forall (fun s => is_empty_stmt s = true ->
        Forall (fun g => forall σ, holds g σ <> None) (if_guards s) -> no_op s) ss ->
        forallb is_empty_stmt ss = true ->
        Forall (fun g => forall σ, holds g σ <> None) (concat (map if_guards ss)) -> Forall no_op ss).
    { intros ss. induction 1 as [|s ss Hs _ IH]; cbn; [constructor|].
      intros [? ?]%andb_true_iff [? ?]%Forall_app. constructor; auto. }
    rewrite exec_if. destruct (holds g σ) as [b|] eqn:E; [|by apply Hg in E].
    apply exec_list_no_ops. destruct b; auto.
Qed.

(** Removing empty conditionals keeps the executions and failures of a method if the guards
    of the removed conditionals are well defined. *)
Lemma remove_empty_if_correct (m : CfgMethod) :
  Forall (fun b => Forall (fun s => keep_if s = false ->
    Forall (fun g => forall σ, holds g σ <> None) (if_guards s)) (CfgMethod.stmts b)) (basic_blocks m) ->
  same_behaviour m (remove_empty_if m).
Proof.
  intros HF. apply retain_same_behaviour. eapply Forall_impl; [exact HF|]. intros b Hb.
  eapply Forall_impl; [exact Hb|]. intros s Hs E. apply empty_stmt_no_op; [|by apply Hs].
  destruct s; try done. cbn in E. rewrite andb_true_r in E. by apply negb_false_iff in E.
Qed.
End Facts.

(** A block with a trivial assertion, an empty conditional and a failing
    assertion. *)
Definition sample_cleanup : CfgMethod :=
  let lit b := expr_of_bool b in
  CfgMethod.make 7%Z "m" 0 [] [] [] []
    [CfgMethod.make_block
       [Stmt.Inhale (lit true);
        Stmt.If (lit false) [Stmt.Comment "then"] [Stmt.If (lit true) [] []];
        Stmt.Assert (lit false) Position.default] Successor.Return] ["start"] 0%Z 0%Z.

Lemma remove_trivial_assertions_correct_witness :
  @same_behaviour counting_interp sample_cleanup (remove_trivial_assertions sample_cleanup)
  /\ map (fun b => length (CfgMethod.stmts b)) (basic_blocks (remove_trivial_assertions sample_cleanup)) = [2].
Proof.
  split; [apply (@remove_trivial_assertions_correct counting_interp counting_laws)|reflexivity].
Defined.

Lemma remove_empty_if_correct_witness :
  @same_behaviour counting_interp sample_cleanup (remove_empty_if sample_cleanup)
  /\ map (fun b => length (CfgMethod.stmts b)) (basic_blocks (remove_empty_if sample_cleanup)) = [2].
Proof.
  split; [apply (@remove_empty_if_correct counting_interp counting_laws)|reflexivity].
  repeat (constructor || (intros _; cbn)); done.
Defined.
