(* ===== verification/CleanCfg.v ===== *)
(** * Merging of basic blocks keeps the behaviour

    [clean_cfg] places the blocks of a method in chains: a block is followed
    by the target of its jump if it is the only predecessor of the target.
    In a method without loops whose start block has no predecessor this does
    not panic and the executions stay the same. *)

From Stdlib Require Import Lia ZArith.
From stdpp Require Import relations.
From S2P Require Import Prelude Ast ExprEq ExprPlace ExprTransformers ExprOps Collections Items Graph.
From S2P Require Import Borrows Stmt Cfg CfgGraph CfgLoops CfgTopo CfgAssigned MethodSem MethodOpts.

(** ** Lists and maps *)

Lemma before_lookup l u v :
  before l u v -> exists i j, i < j /\ l !! i = Some u /\ l !! j = Some v.
Proof.
  intros (l1 & l2 & l3 & ->). exists (length l1), (length l1 + S (length l2)). split; [lia|].
  split; [by apply list_lookup_middle|].
  rewrite lookup_app_r by lia. replace (length l1 + S (length l2) - length l1) with (S (length l2)) by lia.
  cbn. by apply list_lookup_middle.
Qed.

Lemma enumerate_get {A} (l : list A) i : HashMap.get (HashMap.from_list (enumerate l)) i = l !! i.
Proof.
  unfold enumerate, HashMap.from_list.
  assert (Hgen : forall k (m : HashMap.t nat A),
    (forall j, k <= j -> HashMap.get m j = None) ->
    HashMap.get (foldl (fun m kv => HashMap.insert m (fst kv) (snd kv)) m (zip (seq k (length l)) l)) i
    = if decide (i < k) then HashMap.get m i else l !! (i - k)).
  { induction l as [|x l IH]; intros k m Hm; cbn.
    - destruct (decide (i < k)); [done|]. apply Hm. lia.
    - rewrite IH.
      + rewrite HashMap.get_insert. destruct (decide (i < k)), (decide (i < S k)); try lia.
        * rewrite (proj2 (peq_false_iff (A := nat) i k)); [done|lia].
        * assert (i = k) as -> by lia. rewrite peq_refl. by rewrite Nat.sub_diag.
        * by replace (i - k) with (S (i - S k)) by lia.
      + intros j Hj. rewrite HashMap.get_insert, (proj2 (peq_false_iff (A := nat) j k)) by lia.
        apply Hm. lia. }
  rewrite Hgen by done. destruct (decide (i < 0)); [lia|]. by rewrite Nat.sub_0_r.
Qed.

(** ** Chains *)

Section Clean.
Context (m : CfgMethod).
Context (Htargets : targets_ok m) (Hacyclic : acyclic m) (Hstart : forall u, ~ edge m u 0).
Let n := length (basic_blocks m).

Definition block_at (i : nat) : CfgBlock :=
  match basic_blocks m !! i with
  | Some b => b
  | None => CfgMethod.make_block [] Successor.Undefined
  end.

(** Block [x] jumps to [y] and is its only predecessor. *)
Definition sole_goto (x y : nat) : Prop :=
  (exists target, CfgMethod.successor (block_at x) = Successor.Goto target /\ block_index target = y)
  /\ forall u, edge m u y -> u = x.

Fixpoint linked (c : list nat) : Prop :=
  match c with
  | x :: (y :: _) as c' => sole_goto x y /\ linked c'
  | _ => True
  end.

Lemma linked_snoc c x y : linked (c ++ [x])%list -> sole_goto x y -> linked (c ++ [x; y])%list.
Proof.
  intros Hl Hs. induction c as [|z c IH]; [by split|].
  destruct c as [|w c]; cbn in *; destruct Hl as [Hz Hl]; (split; [done|]); by apply IH.
Qed.

Lemma linked_middle c1 x y c2 : linked (c1 ++ x :: y :: c2)%list -> sole_goto x y.
Proof.
  induction c1 as [|z c1 IH]; [by intros [? _]|]. cbn.
  destruct (c1 ++ x :: y :: c2)%list as [|w c] eqn:E; [by destruct c1|]. intros [_ Hl]. auto.
Qed.

Definition merged_stmts (c : list nat) : list Stmt :=
  concat (map (fun i => CfgMethod.stmts (block_at i)) c).

Definition last_successor (c : list nat) : Successor :=
  match last c with
  | Some y => CfgMethod.successor (block_at y)
  | None => Successor.Undefined
  end.

Definition merged_block (c : list nat) : CfgBlock :=
  CfgMethod.make_block (merged_stmts c) (last_successor c).

(** The chains placed so far, the blocks left and the new indices. *)
Record inv (cs : list (list nat)) (blocks : HashMap.t nat CfgBlock) (ni : HashMap.t nat nat) : Prop := {
  i_nodup : NoDup (concat cs);
  i_keys : NoDup (HashMap.keys blocks);
  i_blocks : forall i, HashMap.get blocks i
                       = if decide (i ∈ concat cs) then None else basic_blocks m !! i;
  i_idx : forall i k, HashMap.get ni i = Some k <-> exists c, cs !! k = Some c /\ i ∈ c;
  i_linked : Forall linked cs
}.

Lemma in_chains (cs : list (list nat)) i : i ∈ concat cs <-> exists k c, cs !! k = Some c /\ i ∈ c.
Proof.
  rewrite list_elem_of_In, in_concat. split.
  - intros (c & Hc%list_elem_of_In & Hi%list_elem_of_In). apply list_elem_of_lookup in Hc as [k Hk]. eauto.
  - intros (k & c & Hk & Hi). exists c. split; apply list_elem_of_In; [|done].
    by eapply list_elem_of_lookup_2.
Qed.

Lemma inv_none cs blocks ni i : inv cs blocks ni -> i ∉ concat cs -> HashMap.get ni i = None.
Proof.
  intros Hi Hn. destruct (HashMap.get ni i) as [k|] eqn:E; [|done]. exfalso. apply Hn, in_chains.
  apply (i_idx _ _ _ Hi) in E as (c & Hc & Hic). eauto.
Qed.

(** Adding block [x] to chain [k]. *)
Lemma inv_add cs cs' blocks ni x k :
  inv cs blocks ni -> x ∉ concat cs -> concat cs' ≡ₚ x :: concat cs ->
  (forall i j, (exists c, cs' !! j = Some c /\ i ∈ c)
               <-> (i = x /\ j = k) \/ exists c, cs !! j = Some c /\ i ∈ c) ->
  Forall linked cs' ->
  inv cs' (HashMap.remove blocks x) (HashMap.insert ni x k).
Proof.
  intros Hi Hx Hp Hidx Hl. pose proof Hi as [Hnd Hk Hb Hn _]. split; [| | | |done].
  - rewrite Hp. by constructor.
  - by apply HashMap.nodup_remove.
  - intros i. rewrite (HashMap.get_remove blocks x i Hk), Hb.
    destruct (i == x) eqn:E.
    + apply (peq_eq (A := nat)) in E as ->. destruct (decide (x ∈ concat cs')) as [|Hn']; [done|].
      destruct Hn'. rewrite Hp. by left.
    + apply (peq_false_iff (A := nat)) in E.
      destruct (decide (i ∈ concat cs')) as [Hin|Hin], (decide (i ∈ concat cs)) as [Hin'|Hin']; try done.
      * rewrite Hp in Hin. by apply elem_of_cons in Hin as [?|?].
      * destruct Hin. rewrite Hp. by right.
  - intros i j. rewrite HashMap.get_insert, Hidx. destruct (i == x) eqn:E.
    + apply (peq_eq (A := nat)) in E as ->. split; [intros [= <-]; by left|].
      intros [[_ ->]|(c & Hc & Hic)]; [done|]. destruct Hx. apply in_chains. eauto.
    + apply (peq_false_iff (A := nat)) in E. rewrite Hn. split; [by right|]. by intros [[? _]|?].
Qed.

Lemma inv_new_chain cs blocks ni h :
  inv cs blocks ni -> h ∉ concat cs ->
  inv (cs ++ [[h]]) (HashMap.remove blocks h) (HashMap.insert ni h (length cs)).
Proof.
  intros Hi Hh. apply (inv_add cs); [done|done| | |].
  - rewrite concat_app. cbn. rewrite Permutation_app_comm. done.
  - intros i j. rewrite (lookup_app cs). split.
    + intros (c & Hc & Hic). destruct (cs !! j) as [c'|] eqn:E; [right; exists c'; by injection Hc as ->|].
      left. apply lookup_ge_None in E. destruct (j - length cs) as [|d] eqn:Ed; cbn in Hc; [|done].
      injection Hc as <-. apply list_elem_of_singleton in Hic. split; [done|lia].
    + intros [[-> ->]|(c & Hc & Hic)]; [|exists c; by rewrite Hc].
      exists [h]. rewrite lookup_ge_None_2, Nat.sub_diag by lia. split; [done|by left].
  - apply Forall_app. split; [apply Hi|by repeat constructor].
Qed.

Lemma inv_extend cs c y t blocks ni :
  inv (cs ++ [c ++ [y]])%list blocks ni -> t ∉ concat (cs ++ [c ++ [y]])%list -> sole_goto y t ->
  inv (cs ++ [c ++ [y; t]])%list (HashMap.remove blocks t) (HashMap.insert ni t (length cs)).
Proof.
  intros Hi Ht Hs. apply (inv_add (cs ++ [c ++ [y]])%list); [done|done| | |].
  - rewrite !concat_app. cbn. rewrite !app_nil_r. solve_Permutation.
  - intros i j. rewrite !(lookup_app cs). destruct (cs !! j) as [c'|] eqn:E.
    + split; [intros (c0 & [= <-] & ?); right; by exists c'|].
      intros [[-> ->]|?]; [|done]. apply lookup_lt_Some in E. lia.
    + apply lookup_ge_None in E. destruct (j - length cs) as [|d] eqn:Ed; cbn.
      * split.
        -- intros (c0 & [= <-] & Hin). rewrite elem_of_app, !elem_of_cons in Hin.
           destruct (decide (i = t)) as [->|]; [left; split; [done|lia]|]. right.
           exists (c ++ [y])%list. split; [done|]. rewrite elem_of_app, elem_of_cons.
           destruct Hin as [?|[?|[?|Hn%elem_of_nil]]]; tauto.
        -- intros [[-> ->]|(c0 & [= <-] & Hin)]; exists (c ++ [y; t])%list; (split; [done|]);
             rewrite elem_of_app, !elem_of_cons; [tauto|].
           rewrite elem_of_app, elem_of_cons in Hin. tauto.
      * split; [by intros (? & ? & _)|]. intros [[-> ->]|(? & ? & _)]; [lia|done].
  - pose proof (i_linked _ _ _ Hi) as Hl. apply Forall_app in Hl as [Hl Hc]. apply Forall_app. split; [done|].
    apply Forall_cons in Hc as [Hc _]. constructor; [|constructor]. by apply linked_snoc.
Qed.

Lemma merged_snoc c y t b :
  basic_blocks m !! t = Some b ->
  merged_block (c ++ [y; t])%list
  = CfgMethod.make_block (CfgMethod.stmts (merged_block (c ++ [y])%list) ++ CfgMethod.stmts b)%list
      (CfgMethod.successor b).
Proof.
  intros Hb. unfold merged_block, merged_stmts, last_successor. cbn [CfgMethod.stmts].
  assert (Ht : block_at t = b) by (unfold block_at; by rewrite Hb).
  replace (c ++ [y; t])%list with ((c ++ [y]) ++ [t])%list by by rewrite <- app_assoc.
  rewrite last_snoc, Ht, (map_app _ (c ++ [y])), concat_app. cbn. by rewrite Ht, app_nil_r.
Qed.

(** ** The order of the traversal *)

Context (order : list nat).
Context (Horder : NoDup order) (Hbefore : forall u v, edge m u v -> v <> 0 -> before order u v).

Lemma edge_positions u v : edge m u v -> exists i j, i < j /\ order !! i = Some u /\ order !! j = Some v.
Proof. intros He. apply before_lookup, Hbefore; [done|]. intros ->. by apply (Hstart u). Qed.

(** The members of a chain come in order. *)
Lemma linked_positions c h y i :
  linked (h :: c)%list -> last (h :: c) = Some y -> order !! i = Some h ->
  exists j, i <= j /\ order !! j = Some y.
Proof.
  revert h i. induction c as [|x c IH]; intros h i Hl Hy Hi.
  - injection Hy as <-. eauto.
  - destruct Hl as [[(t & Hs & <-) _] Hl].
    assert (He : edge m h (block_index t)).
    { unfold edge, succ_of, following, block_at in *. destruct (basic_blocks m !! h); [|done]. cbn.
      rewrite Hs. cbn. by left. }
    apply edge_positions in He as (a & b & Hab & Ha & Hb).
    assert (a = i) as -> by (by eapply NoDup_lookup).
    destruct (IH (block_index t) b Hl Hy Hb) as (j & Hj & Hjy). exists j. split; [lia|done].
Qed.

(** The last block of a chain is not followed by another one in a chain. *)
Lemma last_not_followed cs blocks ni k c y k' pre t post :
  inv cs blocks ni -> cs !! k = Some c -> last c = Some y ->
  cs !! k' = Some (pre ++ y :: t :: post)%list -> False.
Proof.
  intros Hi Hk Hy Hk'.
  assert (Hyk : HashMap.get ni y = Some k) by (apply (i_idx _ _ _ Hi); exists c; split;
    [done|by apply last_Some_elem_of]).
  assert (Hyk' : HashMap.get ni y = Some k').
  { apply (i_idx _ _ _ Hi). eexists. split; [exact Hk'|]. rewrite elem_of_app, elem_of_cons. tauto. }
  assert (k' = k) as -> by congruence. rewrite Hk in Hk'. injection Hk' as ->.
  pose proof (i_nodup _ _ _ Hi) as Hnd. rewrite <- (take_drop_middle cs k _ Hk), concat_app in Hnd.
  apply NoDup_app in Hnd as (_ & _ & Hnd). cbn in Hnd. apply NoDup_app in Hnd as (Hnd & _ & _).
  apply NoDup_app in Hnd as (_ & _ & Hnd). apply NoDup_cons in Hnd as [Hny _].
  rewrite last_app_cons, last_cons_cons in Hy. apply Hny. by apply last_Some_elem_of.
Qed.

(** The sole successor of the end of the last chain is not placed, unless
    its chain comes later in the order. *)
Lemma target_not_placed cs c y t blocks ni P rest :
  inv (cs ++ [c ++ [y]])%list blocks ni -> sole_goto y t -> edge m y t ->
  order = (P ++ rest)%list ->
  Forall (fun c' => exists h, head c' = Some h /\ h ∈ P) cs ->
  (exists h, head (c ++ [y])%list = Some h /\ head rest = Some h) ->
  t ∉ concat (cs ++ [c ++ [y]])%list.
Proof.
  intros Hi Hs He Ho Hheads (h & Hh & Hrest) Hin. apply in_chains in Hin as (k & c' & Hk & Ht).
  apply list_elem_of_split in Ht as (pre & post & ->).
  assert (Hy : (cs ++ [c ++ [y]])%list !! length cs = Some (c ++ [y])%list) by by apply list_lookup_middle.
  destruct pre as [|z pre _] using rev_ind.
  - (* [t] is the head of its chain *)
    assert (Hpos : exists i j, order !! i = Some h /\ i <= j /\ order !! j = Some y).
    { assert (Hi0 : order !! length P = Some h).
      { destruct rest as [|h' rest]; [done|]. injection Hrest as ->. rewrite Ho.
        by apply list_lookup_middle. }
      pose proof (i_linked _ _ _ Hi) as Hl. rewrite Forall_app, Forall_cons in Hl.
      destruct Hl as (_ & Hl & _). destruct (c ++ [y])%list as [|h' c0] eqn:Ec; [done|].
      injection Hh as ->. destruct (linked_positions c0 h y (length P) Hl) as (j & Hj & Hjy);
        [by rewrite <- Ec, last_snoc|done|]. eauto. }
    destruct Hpos as (i & j & Hih & Hij & Hjy).
    apply edge_positions in He as (a & b & Hab & Ha & Hb).
    assert (a = j) as -> by (by eapply NoDup_lookup).
    assert (HtP : t ∈ P \/ t = h).
    { rewrite (lookup_app cs) in Hk. destruct (cs !! k) as [c'|] eqn:Ek.
      - injection Hk as ->. rewrite Forall_forall in Hheads.
        destruct (Hheads (t :: post)) as (h' & [= <-] & Hin); [by eapply list_elem_of_lookup_2|]. by left.
      - destruct (k - length cs) as [|d]; cbn in Hk; [|done]. injection Hk as Hk. cbn in Hk.
        rewrite Hk in Hh. injection Hh as ->. by right. }
    destruct HtP as [[q Hq]%list_elem_of_lookup_1| ->].
    + assert (Hq' : order !! q = Some t) by (rewrite Ho; by apply lookup_app_l_Some).
      assert (q = b) as -> by (by eapply NoDup_lookup). apply lookup_lt_Some in Hq.
      assert (i = length P).
      { destruct rest as [|h' rest]; [done|]. injection Hrest as ->.
        eapply NoDup_lookup; [done|done|]. rewrite Ho. by apply list_lookup_middle. }
      lia.
    + assert (i = b) by (by eapply NoDup_lookup). lia.
  - (* its predecessor in the chain is [y], which is last *)
    assert (Hl : linked (pre ++ z :: t :: post)).
    { pose proof (i_linked _ _ _ Hi) as Hl. rewrite Forall_forall in Hl.
      replace (pre ++ z :: t :: post)%list with ((pre ++ [z]) ++ t :: post)%list by by rewrite <- app_assoc.
      apply Hl. by eapply list_elem_of_lookup_2. }
    apply linked_middle in Hl. assert (z = y) as -> by (symmetry; by apply Hl).
    rewrite <- app_assoc in Hk. cbn in Hk.
    apply (last_not_followed _ _ _ _ _ _ _ _ _ _ Hi Hy (last_snoc _ _) Hk).
Qed.

(** ** The loops *)

Lemma sole_goto_of_preds y t target ps :
  CfgMethod.successor (block_at y) = Successor.Goto target -> block_index target = t ->
  HashMap.get (predecessors m) t = Some ps -> length ps = 1 -> edge m y t -> sole_goto y t.
Proof.
  intros Hs Ht Hg Hlen He. split; [eauto|]. intros u Hu.
  apply preds_of_edge in He, Hu. unfold preds_of in *. rewrite Hg in *.
  destruct ps as [|x [|]]; try done. apply list_elem_of_singleton in He, Hu. congruence.
Qed.

Lemma merge_blocks_spec cs P rest fuel : forall c y blocks ni,
  inv (cs ++ [c ++ [y]])%list blocks ni -> order = (P ++ rest)%list ->
  Forall (fun c' => exists h, head c' = Some h /\ h ∈ P) cs ->
  (exists h, head (c ++ [y])%list = Some h /\ head rest = Some h) ->
  y < n -> length blocks <= fuel ->
  exists c' y' blocks' ni',
    merge_blocks (predecessors m) (length cs) fuel (merged_block (c ++ [y])%list) blocks ni
      = Some (merged_block (c' ++ [y'])%list, blocks', ni')
    /\ inv (cs ++ [c' ++ [y']])%list blocks' ni'
    /\ head (c' ++ [y'])%list = head (c ++ [y])%list
    /\ (forall x, x ∈ (c' ++ [y'])%list -> x < n \/ x ∈ c).
Proof.
  induction fuel as [|fuel IH]; intros c y blocks ni Hi Ho Hh Hhead Hy Hf;
    assert (Hdone : exists c' y' blocks' ni',
      Some (merged_block (c ++ [y])%list, blocks, ni) = Some (merged_block (c' ++ [y'])%list, blocks', ni')
      /\ inv (cs ++ [c' ++ [y']])%list blocks' ni' /\ head (c' ++ [y'])%list = head (c ++ [y])%list
      /\ (forall x, x ∈ (c' ++ [y'])%list -> x < n \/ x ∈ c))
      by (exists c, y, blocks, ni; do 3 (split; [done|]); intros x;
          rewrite elem_of_app, list_elem_of_singleton; intros [?| ->]; [by right|by left]);
    assert (Hsucc : CfgMethod.successor (merged_block (c ++ [y])%list) = CfgMethod.successor (block_at y))
      by (unfold merged_block, last_successor; by rewrite last_snoc);
    cbn [merge_blocks]; rewrite Hsucc;
    destruct (CfgMethod.successor (block_at y)) as [| |target|targets dflt] eqn:Es; try exact Hdone.
  all: assert (He : edge m y (block_index target))
    by (unfold edge, succ_of, following, block_at in *;
        destruct (basic_blocks m !! y); [cbn; rewrite Es; cbn; by left|done]).
  all: destruct (HashMap.get (predecessors m) (block_index target)) as [ps|] eqn:Ep;
    [|exfalso; apply preds_of_edge in He; unfold preds_of in He; rewrite Ep in He;
      by apply elem_of_nil in He].
  all: cbn [mbind option_bind]; destruct (Nat.eqb_spec (length ps) 1) as [Hlen|]; [|exact Hdone].
  all: assert (Hsole : sole_goto y (block_index target)) by (by eapply sole_goto_of_preds).
  all: assert (Hn : block_index target ∉ concat (cs ++ [c ++ [y]])%list)
    by (by eapply target_not_placed).
  all: unfold HashMap.contains_key; rewrite (inv_none _ _ _ _ Hi Hn); cbn [negb assert_ mbind option_bind].
  all: assert (Ht : block_index target < n) by (by apply (Htargets y)).
  all: destruct (proj2 (lookup_lt_is_Some (basic_blocks m) (block_index target)) Ht) as [b Hb].
  all: assert (Hg : HashMap.get blocks (block_index target) = Some b)
    by (rewrite (i_blocks _ _ _ Hi); by destruct (decide _)).
  all: rewrite Hg; cbn [mbind option_bind].
  - pose proof (HashMap.remove_length blocks _ (ex_intro _ _ Hg)). lia.
  - pose proof (inv_extend cs c y _ blocks ni Hi Hn Hsole) as Hi'.
    rewrite <- (merged_snoc c y (block_index target) b Hb).
    replace (c ++ [y; block_index target])%list with ((c ++ [y]) ++ [block_index target])%list in *
      by by rewrite <- app_assoc.
    destruct (IH (c ++ [y])%list (block_index target) _ _ Hi' Ho Hh) as (c' & y' & bl' & ni' & E & Hi2 & Hhd & Hlt).
    + destruct Hhead as (h & Hc & Hr). exists h. split; [|done]. by destruct c.
    + done.
    + pose proof (HashMap.remove_length blocks _ (ex_intro _ _ Hg)). lia.
    + exists c', y', bl', ni'. split; [exact E|]. split; [done|]. split; [rewrite Hhd; by destruct c|].
      intros x Hx. destruct (Hlt x Hx) as [?|Hxc]; [by left|].
      apply elem_of_app in Hxc as [?| ->%list_elem_of_singleton]; [by right|by left].
Qed.

(** All chains have a head in the part of the order that is done. *)
Lemma clean_blocks_spec rest : forall (P : list nat) cs blocks ni,
  order = (P ++ map block_index rest)%list -> (forall x, x ∈ order -> x < n) ->
  inv cs blocks ni -> (forall x, x ∈ concat cs -> x < n) -> (forall x, x ∈ P -> x ∈ concat cs) ->
  Forall (fun c' => exists h, head c' = Some h /\ h ∈ P) cs ->
  exists cs' ni' blocks',
    clean_blocks (predecessors m) rest (map merged_block cs) blocks ni
      = Some (map merged_block cs', ni')
    /\ inv cs' blocks' ni' /\ (forall x, x ∈ concat cs' -> x < n)
    /\ (forall x, x ∈ order -> x ∈ concat cs')
    /\ (exists cs2, cs' = (cs ++ cs2)%list /\ (cs2 <> [] -> cs = [] ->
          exists c0, head cs2 = Some c0 /\ head c0 = head (map block_index rest))).
Proof.
  induction rest as [|b rest IH]; intros P cs blocks ni Ho Hlt Hi Hcs HP Hh; cbn [clean_blocks].
  - exists cs, ni, blocks. split; [done|]. split; [done|]. split; [done|]. split.
    + intros x. rewrite Ho, app_nil_r. apply HP.
    + exists []. split; [by rewrite app_nil_r|done].
  - set (h := block_index b) in *. cbn [map] in Ho. fold h in Ho.
    assert (Hn : h < n) by (apply Hlt; rewrite Ho, elem_of_app, elem_of_cons; tauto).
    assert (Ho' : order = ((P ++ [h]) ++ map block_index rest)%list) by by rewrite <- app_assoc.
    assert (Hh' : forall cs0, Forall (fun c' => exists h, head c' = Some h /\ h ∈ P) cs0 ->
      Forall (fun c' => exists h0, head c' = Some h0 /\ h0 ∈ (P ++ [h])%list) cs0).
    { intros cs0 H0. eapply Forall_impl; [exact H0|]. intros c' (h0 & ? & ?). exists h0.
      rewrite elem_of_app. tauto. }
    rewrite (i_blocks _ _ _ Hi). destruct (decide (h ∈ concat cs)) as [Hin|Hnin].
    + destruct (IH (P ++ [h])%list cs blocks ni Ho' Hlt Hi Hcs) as (cs' & ni' & bl' & E & Hi' & Hc' & Ha & cs2 & -> & Hc2).
      * intros x [?|Hx%list_elem_of_singleton]%elem_of_app; [by apply HP|by subst].
      * by apply Hh'.
      * exists (cs ++ cs2)%list, ni', bl'. do 4 (split; [done|]). exists cs2. split; [done|].
        intros _ ->. by apply elem_of_nil in Hin.
    + destruct (proj2 (lookup_lt_is_Some (basic_blocks m) h) Hn) as [blk Hb]. rewrite Hb.
      unfold HashMap.contains_key. rewrite (inv_none _ _ _ _ Hi Hnin), length_map.
      cbn [negb assert_ mbind option_bind].
      pose proof (inv_new_chain cs blocks ni h Hi Hnin) as Hi1.
      assert (Hm1 : blk = merged_block ([] ++ [h])%list).
      { unfold merged_block, merged_stmts, last_successor, block_at. cbn. rewrite Hb, app_nil_r.
        by destruct blk. }
      rewrite Hm1.
      destruct (merge_blocks_spec cs P (map block_index (b :: rest)) (length (HashMap.remove blocks h)) [] h
        (HashMap.remove blocks h) (HashMap.insert ni h (length cs)) Hi1 Ho Hh)
        as (c' & y' & bl1 & ni1 & E & Hi2 & Hhd & Hxs); [by exists h|done|done|].
      rewrite E. cbn [mbind option_bind].
      destruct (IH (P ++ [h])%list (cs ++ [c' ++ [y']])%list bl1 ni1 Ho' Hlt Hi2)
        as (cs' & ni' & bl' & E' & Hi' & Hc' & Ha & cs2 & -> & _).
      * intros x. rewrite concat_app, elem_of_app. cbn. rewrite app_nil_r.
        intros [?|Hx]; [by apply Hcs|]. destruct (Hxs x Hx) as [?|?%elem_of_nil]; done.
      * assert (Hhc : h ∈ (c' ++ [y'])%list).
        { destruct (c' ++ [y'])%list; [done|]. injection Hhd as ->. by left. }
        intros x. rewrite concat_app, (elem_of_app P), (elem_of_app (concat cs)), list_elem_of_singleton.
        cbn. rewrite app_nil_r. intros [Hx| ->]; [left; by apply HP|by right].
      * apply Forall_app. split; [by apply Hh'|]. constructor; [|constructor]. exists h.
        split; [done|]. apply elem_of_app. right. by left.
      * rewrite map_app in E'. exists ((cs ++ [c' ++ [y']]) ++ cs2)%list, ni', bl'. split; [exact E'|].
        do 3 (split; [done|]). exists ((c' ++ [y'])%list :: cs2). split; [by rewrite <- app_assoc|].
        intros _ _. eexists. split; [reflexivity|exact Hhd].
Qed.

(** ** Renaming *)

Lemma rename_total cs blocks ni s :
  inv cs blocks ni -> Forall (fun b => block_index b ∈ concat cs) (Successor.get_following s) ->
  exists s', rename_successor ni s = Some s'.
Proof.
  intros Hi HF. assert (Hidx : forall b, block_index b ∈ concat cs -> exists b', rename_index ni b = Some b').
  { intros b (k & c & Hk & Hb)%in_chains. unfold rename_index.
    rewrite (proj2 (i_idx _ _ _ Hi (block_index b) k)) by eauto. cbn. eauto. }
  destruct s as [| |t|ts d]; cbn; [by eexists..| |].
  - apply Forall_cons in HF as [Ht _]. destruct (Hidx t Ht) as [t' E]. rewrite E. cbn. eauto.
  - cbn in HF. apply Forall_app in HF as [Hts [Hd _]%Forall_cons].
    destruct (Hidx d Hd) as [d' E]. rewrite E. cbn.
    assert (Hm : exists ts', mapM_opt (fun x => target ← rename_index ni (snd x); Some (fst x, target)) ts
                             = Some ts').
    { induction ts as [|[g t] ts IH]; cbn; [eauto|]. apply Forall_cons in Hts as [Ht Hts].
      destruct (Hidx t Ht) as [t' E1]. cbn in *. rewrite E1. cbn. destruct (IH Hts) as [ts' ->]. cbn. eauto. }
    destruct Hm as [ts' ->]. cbn. eauto.
Qed.

Lemma jump_rename `{MethodInterp} ni s s' σ :
  rename_successor ni s = Some s' ->
  (s' = Successor.Return <-> s = Successor.Return)
  /\ match jump s σ with
     | None => jump s' σ = None
     | Some None => jump s' σ = Some None
     | Some (Some j) => exists k, HashMap.get ni j = Some k /\ jump s' σ = Some (Some k)
     end.
Proof.
  assert (Hidx : forall b b', rename_index ni b = Some b' ->
    HashMap.get ni (block_index b) = Some (block_index b')).
  { intros b b'. unfold rename_index. destruct (HashMap.get ni (block_index b)); [|done]. by intros [= <-]. }
  destruct s as [| |t|ts d]; cbn; [by intros [= <-]..| |].
  - intros (t' & Ht & ->)%fmap_Some. split; [done|]. exists (block_index t'). split; [by apply Hidx|done].
  - intros (d' & Hd & (ts' & Hts & [= <-])%bind_Some)%bind_Some. split; [done|]. cbn.
    revert ts' Hts. induction ts as [|[g t] ts IH]; intros ts' Hts; cbn in Hts.
    + injection Hts as <-. cbn. exists (block_index d'). split; [by apply Hidx|done].
    + inv_option. subst. cbn. destruct (holds g σ) as [[|]|]; cbn; [| |done].
      * eexists. split; [by apply Hidx|done].
      * by apply IH.
Qed.

(** ** The simulation *)

Section Simulation.
Context `{MethodInterp} (cs : list (list nat)) (bl : HashMap.t nat CfgBlock) (ni : HashMap.t nat nat).
Context (Hinv : inv cs bl ni) (Hlt : forall x, x ∈ concat cs -> x < n).
Context (Hall : forall x, x < n -> x ∈ concat cs) (new_blocks : list CfgBlock).
Context (Hnew : Forall2 (fun c b => exists s', rename_successor ni (last_successor c) = Some s'
                                     /\ b = CfgMethod.make_block (merged_stmts c) s') cs new_blocks).
Let m' := CfgMethod.with_blocks m new_blocks.

Lemma jump_edge y σ j : jump (CfgMethod.successor (block_at y)) σ = Some (Some j) -> edge m y j.
Proof.
  unfold edge, succ_of, following, block_at. destruct (basic_blocks m !! y) as [b|]; [|done]. cbn.
  destruct (CfgMethod.successor b) as [| |t|ts d]; cbn; try done.
  - intros [= <-]. by left.
  - intros [= (t & Ht & ->)%fmap_Some]. apply list_elem_of_In, in_map. revert Ht.
    induction ts as [|[g t'] ts IH]; cbn; [intros [= <-]; by left|].
    destruct (holds g σ) as [[|]|]; cbn; [intros [= <-]; by left| |done]. intros ?. right. auto.
Qed.

(** A jump from the end of a chain goes to the head of a chain. *)
Lemma target_head k c y j :
  cs !! k = Some c -> last c = Some y -> edge m y j ->
  exists k' c', HashMap.get ni j = Some k' /\ cs !! k' = Some (j :: c').
Proof.
  intros Hk Hy He. assert (Hj : j ∈ concat cs) by (apply Hall; by apply (Htargets y)).
  apply in_chains in Hj as (k' & c' & Hk' & Hj).
  assert (Hg : HashMap.get ni j = Some k') by (apply (i_idx _ _ _ Hinv); eauto).
  apply list_elem_of_split in Hj as (pre & post & ->).
  destruct pre as [|z pre _] using rev_ind; [eauto|]. exfalso. rewrite <- app_assoc in Hk'. cbn in Hk'.
  pose proof (i_linked _ _ _ Hinv) as Hl. rewrite Forall_forall in Hl.
  specialize (Hl _ (list_elem_of_lookup_2 _ _ _ Hk')). apply linked_middle in Hl as [_ Hl].
  rewrite <- (Hl y He) in Hk'. by eapply (last_not_followed cs bl ni k c y k' pre j post).
Qed.

Definition tail_run (R : nat -> MState -> option MState -> Prop) (c : list nat) (σ : MState)
    (r : option MState) : Prop :=
  (exec_list (merged_stmts c) σ None /\ r = None)
  \/ exists σ', exec_list (merged_stmts c) σ (Some σ') /\ finish R (last_successor c) σ' r.

Definition run_new (j : nat) (σ : MState) (r : option MState) : Prop :=
  exists k, HashMap.get ni j = Some k /\ run m' k σ r.

Lemma finish_rename s s' σ r :
  rename_successor ni s = Some s' -> finish (run m') s' σ r <-> finish run_new s σ r.
Proof.
  intros Hs. destruct (jump_rename ni s s' σ Hs) as [Hret Hj]. unfold finish, run_new. rewrite Hret.
  destruct (jump s σ) as [[j|]|].
  - destruct Hj as (k & Hk & ->). split.
    + intros [?|[[? _]|(k' & [= <-] & Hr)]]; [by left|done|]. right. right. eauto.
    + intros [?|[[? _]|(j' & [= <-] & k' & Hk' & Hr)]]; [by left|done|]. right. right.
      exists k. split; [done|]. congruence.
  - rewrite Hj. split; (intros [?|[?|(? & ? & _)]]; [by left|by right; left|done]).
  - rewrite Hj. split; (intros [?|[[? _]|(? & ? & _)]]; [by left|done..]).
Qed.

Lemma run_chain k σ r :
  run m' k σ r <-> exists c, cs !! k = Some c /\ tail_run run_new c σ r.
Proof.
  rewrite run_iff. unfold tail_run. split.
  - intros (b & Hb & Hr). destruct (Forall2_lookup_r _ _ _ k b Hnew Hb) as (c & Hc & s' & Hs & ->).
    exists c. split; [done|]. destruct Hr as [?|(σ' & ? & ?)]; [by left|]. right. exists σ'.
    split; [done|]. by apply (finish_rename _ s' σ' r Hs).
  - intros (c & Hc & Hr). destruct (Forall2_lookup_l _ _ _ k c Hnew Hc) as (b & Hb & s' & Hs & ->).
    eexists. split; [exact Hb|]. destruct Hr as [?|(σ' & ? & ?)]; [by left|]. right. exists σ'.
    split; [done|]. by apply (finish_rename _ s' σ' r Hs).
Qed.

Lemma merged_cons i c : merged_stmts (i :: c) = (CfgMethod.stmts (block_at i) ++ merged_stmts c)%list.
Proof. done. Qed.

(** In the middle of a chain the block jumps to the next one. *)
Lemma chain_next k c1 i x c2 σ :
  cs !! k = Some (c1 ++ i :: x :: c2)%list ->
  CfgMethod.successor (block_at i) <> Successor.Return
  /\ jump (CfgMethod.successor (block_at i)) σ = Some (Some x).
Proof.
  intros Hk. pose proof (i_linked _ _ _ Hinv) as Hl. rewrite Forall_forall in Hl.
  specialize (Hl _ (list_elem_of_lookup_2 _ _ _ Hk)). apply linked_middle in Hl as [(t & -> & <-) _]. done.
Qed.

(** The rest of a chain after its first block. *)
Lemma tail_run_cons R k c1 i x c2 σ σ' r :
  cs !! k = Some (c1 ++ i :: x :: c2)%list ->
  exec_list (CfgMethod.stmts (block_at i)) σ (Some σ') -> tail_run R (x :: c2) σ' r ->
  tail_run R (i :: x :: c2) σ r.
Proof.
  intros Hk He [[Hr ->]|(σ2 & Hr & Hf)].
  - left. split; [|done]. rewrite merged_cons. apply exec_list_app. right. eauto.
  - right. exists σ2. split; [|done]. rewrite merged_cons. apply exec_list_app. right. eauto.
Qed.

Lemma block_at_some i b : basic_blocks m !! i = Some b -> block_at i = b.
Proof. unfold block_at. by intros ->. Qed.

Lemma simulation_forward i σ r : run m i σ r ->
  forall k c1 c2, cs !! k = Some (c1 ++ i :: c2)%list -> tail_run run_new (i :: c2) σ r.
Proof.
  induction 1 as [i b σ Hb He|i b σ σ' Hb He Hs|i b σ σ' Hb He Hj|i b σ σ' j r Hb He Hj Hr IH];
    intros k c1 c2 Hk; apply block_at_some in Hb as <-.
  - left. split; [|done]. rewrite merged_cons. apply exec_list_app. by left.
  - destruct c2 as [|x c2]; [|by apply (chain_next _ _ _ _ _ σ) in Hk as [? _]].
    right. exists σ'. rewrite merged_cons. cbn. rewrite app_nil_r. split; [done|]. by left.
  - destruct c2 as [|x c2]; [|apply (chain_next _ _ _ _ _ σ') in Hk as [_ ?]; congruence].
    right. exists σ'. rewrite merged_cons. cbn. rewrite app_nil_r. split; [done|]. right. by left.
  - destruct c2 as [|x c2].
    + right. exists σ'. rewrite merged_cons. cbn. rewrite app_nil_r. split; [done|]. right. right.
      exists j. split; [done|]. unfold run_new.
      destruct (target_head k _ i j Hk (last_snoc _ _) (jump_edge _ _ _ Hj)) as (k' & c' & Hg & Hk').
      exists k'. split; [done|]. apply run_chain. exists (j :: c'). split; [done|]. by eapply (IH k' []).
    + destruct (chain_next _ _ _ _ _ σ' Hk) as [_ Hx]. assert (j = x) as -> by congruence.
      apply (tail_run_cons _ k c1 i x c2 σ σ'); [done|done|]. eapply (IH k (c1 ++ [i])%list).
      by rewrite <- app_assoc.
Qed.

Lemma chain_run c2 : forall k c1 i σ r,
  cs !! k = Some (c1 ++ i :: c2)%list -> tail_run (run m) (i :: c2) σ r -> run m i σ r.
Proof.
  induction c2 as [|x c2 IH]; intros k c1 i σ r Hk Ht;
    assert (Hi : i ∈ concat cs)
      by (apply in_chains; eexists _, _; split; [exact Hk|]; rewrite elem_of_app, elem_of_cons; tauto);
    destruct (proj2 (lookup_lt_is_Some (basic_blocks m) i) (Hlt i Hi)) as [b Hb];
    pose proof (block_at_some i b Hb) as Eb; apply run_iff; exists b; (split; [done|]); rewrite <- Eb.
  - unfold tail_run, merged_stmts, last_successor in Ht. cbn in Ht. by rewrite app_nil_r in Ht.
  - assert (Hk' : cs !! k = Some ((c1 ++ [i]) ++ x :: c2)%list) by by rewrite <- app_assoc.
    destruct Ht as [[Ht ->]|(σ' & Ht & Hf)]; rewrite merged_cons in Ht;
      apply exec_list_app in Ht as [[Ht E]|(σ1 & Ht1 & Ht2)]; try done; [by left| |].
    + right. exists σ1. split; [done|]. right. right. exists x.
      split; [by apply (chain_next k c1 i x c2)|]. apply (IH k _ x _ _ Hk'). by left.
    + right. exists σ1. split; [done|]. right. right. exists x.
      split; [by apply (chain_next k c1 i x c2)|]. apply (IH k _ x _ _ Hk'). right. eauto.
Qed.

Lemma simulation_backward k σ r : run m' k σ r ->
  forall i c, cs !! k = Some (i :: c) -> run m i σ r.
Proof.
  induction 1 as [k b σ Hb He|k b σ σ' Hb He Hs|k b σ σ' Hb He Hj|k b σ σ' j r Hb He Hj Hr IH];
    intros i c Hk; destruct (Forall2_lookup_r _ _ _ k b Hnew Hb) as (c0 & Hc & s' & Hren & ->);
    rewrite Hk in Hc; injection Hc as <-; cbn [CfgMethod.stmts CfgMethod.successor] in *;
    apply (chain_run c k [] i _ _ Hk).
  - by left.
  - right. exists σ'. split; [done|]. left. split; [|done]. by apply (jump_rename ni _ s' σ' Hren).
  - right. exists σ'. split; [done|]. right. left. split; [|done].
    destruct (jump_rename ni _ s' σ' Hren) as [_ Hr]. destruct (jump (last_successor _) σ') as [[j|]|]; [|done|congruence].
    destruct Hr as (k' & _ & Hr). congruence.
  - right. exists σ'. split; [done|]. right. right.
    destruct (jump_rename ni _ s' σ' Hren) as [_ Hr']. destruct (jump (last_successor _) σ') as [[j0|]|] eqn:Ej;
      [|congruence..]. destruct Hr' as (k' & Hg & Hr'). assert (k' = j) as -> by congruence.
    exists j0. split; [done|]. unfold last_successor in Ej.
    destruct (last (i :: c)) as [y|] eqn:Ey; [|done].
    destruct (target_head k _ y j0 Hk Ey (jump_edge _ _ _ Ej)) as (k' & c' & Hg' & Hk').
    assert (k' = j) as -> by congruence. by apply (IH j0 c').
Qed.
End Simulation.
End Clean.

(** ** The theorem *)

Lemma inv_init m : inv m [] (HashMap.from_list (enumerate (basic_blocks m))) HashMap.empty.
Proof.
  split; cbn.
  - constructor.
  - apply HashMap.nodup_from_list.
  - intros i. rewrite enumerate_get. destruct (decide (i ∈ [])) as [?%elem_of_nil|]; done.
  - intros i k. split; [done|]. by intros (c & ? & _).
  - constructor.
Qed.

Lemma mapM_opt_Forall2_total {A B} (f : A -> option B) (l : list A) :
  Forall (fun x => is_Some (f x)) l ->
  exists ys, mapM_opt f l = Some ys /\ Forall2 (fun x y => f x = Some y) l ys.
Proof.
  induction 1 as [|x l [y Hy] _ (ys & E & HF)]; [by exists []; split; [|constructor]|].
  exists (y :: ys). cbn. rewrite Hy. cbn. rewrite E. split; [done|by constructor].
Qed.

Lemma last_successor_targets m c :
  targets_ok m ->
  Forall (fun b => block_index b < length (basic_blocks m)) (Successor.get_following (last_successor m c)).
Proof.
  intros Ht. unfold last_successor. destruct (last c) as [y|]; [|constructor].
  apply Forall_forall. intros b Hb. apply (Ht y). unfold edge, succ_of, following, block_at in *.
  destruct (basic_blocks m !! y); [|by apply elem_of_nil in Hb]. cbn.
  by apply list_elem_of_In, in_map, list_elem_of_In.
Qed.

Lemma clean_cfg_behaves (m : CfgMethod) :
  targets_ok m -> acyclic m -> (forall u, ~ edge m u 0) -> basic_blocks m <> [] ->
  exists m', clean_cfg m = Some m' /\ forall I : MethodInterp, same_behaviour m m'.
Proof.
  intros Ht Hac Hs Hne.
  destruct (get_topological_sort_spec m Ht) as (l & El & _ & Hperm & Hhead & Hbef).
  specialize (Hhead Hne). specialize (Hbef Hac). set (n := length (basic_blocks m)) in *.
  assert (Hlt : forall x, x ∈ map block_index l <-> x < n).
  { intros x. rewrite Hperm, elem_of_seq. lia. }
  assert (Hnd : NoDup (map block_index l)) by (rewrite Hperm; apply NoDup_seq).
  destruct (clean_blocks_spec m Ht Hs (map block_index l) Hnd Hbef l [] [] _ _ eq_refl
    (fun x => proj1 (Hlt x)) (inv_init m)) as (cs & ni & bl & Ec & Hi & Hcs & Hall & cs2 & -> & Hhd);
    [by intros x ?%elem_of_nil..|constructor|]. cbn [app] in *.
  assert (Hall' : forall x, x < n -> x ∈ concat cs2) by (intros x Hx; by apply Hall, Hlt).
  destruct (mapM_opt_Forall2_total (fun b =>
    succ ← rename_successor ni (CfgMethod.successor b);
    Some (CfgMethod.make_block (CfgMethod.stmts b) succ)) (map (merged_block m) cs2)) as (nb & En & HF).
  { apply Forall_forall. intros b (c & <- & _)%list_elem_of_In%in_map_iff. cbn.
    destruct (rename_total m cs2 bl ni (last_successor m c) Hi) as [s' E].
    - eapply Forall_impl; [by apply last_successor_targets|]. cbn. auto.
    - rewrite E. by eexists. }
  assert (HF' : Forall2 (fun c b => exists s', rename_successor ni (last_successor m c) = Some s'
                          /\ b = CfgMethod.make_block (merged_stmts m c) s') cs2 nb).
  { apply Forall2_fmap_l in HF. eapply Forall2_impl; [exact HF|]. cbn.
    intros c b (s' & E & [= <-])%bind_Some. eauto. }
  exists (CfgMethod.with_blocks m nb). split.
  - unfold clean_cfg. rewrite El. cbn [mbind option_bind]. destruct l as [|b0 l]; [done|].
    injection Hhead as Hb0. cbn [head mbind option_bind]. rewrite Hb0. cbn [Nat.eqb assert_ mbind option_bind].
    cbn [map] in Ec. rewrite Ec. cbn [mbind option_bind]. by rewrite En.
  - intros I σ r. destruct l as [|b0 l]; [done|]. injection Hhead as Hb0.
    assert (Hc0 : exists c0, cs2 !! 0 = Some (0 :: c0)).
    { destruct cs2 as [|c cs2].
      - exfalso. assert (H0 : 0 < n) by (unfold n; destruct (basic_blocks m); [done|cbn; lia]).
        by apply Hall', elem_of_nil in H0.
      - destruct Hhd as (c0 & [= <-] & Hhc); [done|done|]. cbn in Hhc. rewrite Hb0 in Hhc.
        destruct c as [|x c]; [done|]. injection Hhc as ->. by exists c. }
    destruct Hc0 as [c0 Hc0]. split.
    + intros Hr. apply (run_chain m cs2 ni nb HF'). exists (0 :: c0). split; [done|].
      by apply (simulation_forward m Ht cs2 bl ni Hi Hall' nb HF' 0 σ r Hr 0 []).
    + intros Hr. by apply (simulation_backward m Ht cs2 bl ni Hi Hcs Hall' nb HF' 0 σ r Hr 0 c0).
Qed.

(** C4. Merging basic blocks is correct: on a method without loops whose start block has no
    predecessor, `clean_cfg` does not panic, and for every semantics of statements and guards
    the result has the same executions and verification failures. *)
Theorem clean_cfg_correct (m : CfgMethod) :
  targets_ok m -> acyclic m -> (forall u, ~ edge m u 0) -> basic_blocks m <> [] ->
  exists m', clean_cfg m = Some m' /\ forall I : MethodInterp, same_behaviour m m'.
Proof. exact (clean_cfg_behaves m). Qed.

(** Blocks 0 and 1 are merged, 2 and 3 keep two predecessors or a branch. *)
Definition sample_chain : CfgMethod :=
  let blk i := CfgBlockIndex.make 7%Z i in
  CfgMethod.make 7%Z "m" 0 [] [] [] []
    [ CfgMethod.make_block [Stmt.Comment "a"] (Successor.Goto (blk 1));
      CfgMethod.make_block [Stmt.Comment "b"] (Successor.GotoSwitch [(expr_of_bool true, blk 3)] (blk 2));
      CfgMethod.make_block [] (Successor.Goto (blk 3));
      CfgMethod.make_block [] Successor.Return ]
    ["start"; "next"; "side"; "end"] 0%Z 0%Z.

Lemma sample_chain_edges u v : edge sample_chain u v -> u < v /\ v < 4.
Proof.
  unfold edge, succ_of, following. destruct u as [|[|[|[|u]]]]; cbn;
    rewrite ?elem_of_cons, ?elem_of_nil; try tauto; lia.
Qed.

Lemma clean_cfg_correct_witness :
  exists m', clean_cfg sample_chain = Some m'
    /\ map (fun b => length (CfgMethod.stmts b)) (basic_blocks m') = [2; 0; 0]
    /\ forall I : MethodInterp, same_behaviour sample_chain m'.
Proof.
  destruct (clean_cfg_correct sample_chain) as (m' & E & Hm).
  - intros u v He. apply (sample_chain_edges u v He).
  - assert (Hlt : forall u v, tc (edge sample_chain) u v -> u < v).
    { induction 1 as [u v He|u w v He _ IH]; apply sample_chain_edges in He; lia. }
    intros v Hv%Hlt. lia.
  - intros u He%sample_chain_edges. lia.
  - discriminate.
  - exists m'. split; [exact E|]. split; [|exact Hm]. vm_compute in E. injection E as <-. reflexivity.
Defined.
