(* ===== verification/VarRemover.v ===== *)
(** * Removal of unused variables

    [remove_unused_vars] deletes the declarations of variables that occur
    only in accessibility predicates, with the predicates about them. *)

From S2P Require Import Prelude Ast ExprEq ExprPlace ExprTransformers ExprOps ExprOpsFacts Collections Items.
From S2P Require Import Borrows Stmt Cfg CfgGraph MethodOpts.

#[local] Arguments walk_list : simpl never.

(** ** Expressions *)

(** The accesses that are kept. *)
Definition keeps_access (unused : HashSet.t LocalVar) (a : Expr) : bool :=
  match a with
  | Expr.PredicateAccessPredicate _ (Expr.Local v _) _ _ => negb (HashSet.contains unused v)
  | Expr.FieldAccessPredicate e _ _ =>
      match get_base e with Some v => negb (HashSet.contains unused v) | None => true end
  | _ => true
  end.

Fixpoint without_unused (unused : HashSet.t LocalVar) (e : Expr) : Expr :=
  match e with
  | Expr.PredicateAccessPredicate _ _ _ _ | Expr.FieldAccessPredicate _ _ _ =>
      if keeps_access unused e then e else expr_of_bool true
  | _ => map_children (without_unused unused) e
  end.

(** The receivers of the outermost field accesses are places. *)
Definition has_base (a : Expr) : bool :=
  match a with
  | Expr.FieldAccessPredicate e _ _ => match get_base e with Some _ => true | None => false end
  | _ => true
  end.

Lemma unused_remover_run unused e :
  forallb has_base (top_accesses e) = true ->
  forall u, run_fold (unused_var_remover unused) e u = Val (without_unused unused e, u).
Proof.
  induction e as [e IH] using children_ind. intros Hb u. rewrite run_fold_unfold.
  assert (Hdef : is_access e = false ->
    default_fold_node (Node.of_expr (fun c => Child c (run_fold (unused_var_remover unused) c)) e) u
    = Val (map_children (without_unused unused) e, u)).
  { intros He. apply default_fold_node_pure. rewrite top_accesses_eq, He, forallb_concat, Forall_map in Hb.
    clear -IH Hb. induction IH; constructor; inversion_clear Hb; auto. }
  destruct e; try exact (Hdef eq_refl); cbn.
  - unfold default_fold_expr. cbn. destruct e; try done. by destruct (HashSet.contains unused v).
  - unfold default_fold_expr. cbn in Hb |- *. unfold mbind, ST_bind, lift.
    destruct (get_base e) as [v|]; [|done]. by destruct (HashSet.contains unused v).
Qed.

Lemma without_unused_accesses unused e :
  top_accesses (without_unused unused e) = List.filter (keeps_access unused) (top_accesses e).
Proof.
  induction e as [e IH] using children_ind.
  assert (Hdef : is_access e = false -> is_access (map_children (without_unused unused) e) = false ->
    top_accesses (map_children (without_unused unused) e)
    = List.filter (keeps_access unused) (top_accesses e)).
  { intros H1 H2. rewrite !top_accesses_eq, H1, H2, children_map_children, map_map. clear -IH.
    induction IH as [|c cs Hc _ IH']; simpl; [done|]. by rewrite List.filter_app, Hc, IH'. }
  destruct e; try (apply Hdef; done); cbn [without_unused top_accesses List.filter]; by case_match.
Qed.

(** ** The collector *)

Lemma default_walk_node_map {S} (lv : LocalVar -> Walk S) (g : Expr -> Walk S) (f : Expr -> Expr) e :
  Forall (fun c => forall s, g (f c) s = g c s) (children e) ->
  forall s, default_walk_node lv (Node.of_expr (fun c => Child c (g c)) (map_children f e)) s
            = default_walk_node lv (Node.of_expr (fun c => Child c (g c)) e) s.
Proof.
  assert (Hl : forall es, Forall (fun c => forall s, g (f c) s = g c s) es -> forall s,
    walk_list (map go (map (fun c => Child c (g c)) (map f es))) s
    = walk_list (map go (map (fun c => Child c (g c)) es)) s).
  { intros es HF. rewrite !map_map. cbn. by apply walk_list_ext. }
  destruct e; cbn [children map_children Node.of_expr default_walk_node]; intros HF s;
    rewrite ?Forall_app, ?Forall_cons in HF; cbn [go]; unfold walk_then;
  repeat match goal with
    | H : _ /\ _ |- _ => destruct H
    | H : forall s, g (f ?c) s = g ?c s |- context [g (f ?c) ?s] => rewrite (H s)
    | H : Forall _ ?es |- context [walk_list (map go (map _ (map f ?es))) ?s] => rewrite (Hl es H s)
    | |- _ ≫= _ = _ ≫= _ => apply option_bind_ext_fun; intros ?
    end; done.
Qed.

Lemma walk_list_total_some {S A} (w : A -> Walk S) (l : list A) :
  Forall (fun x => forall s, is_Some (w x s)) l -> forall s, is_Some (walk_list (map w l) s).
Proof.
  induction 1 as [|x l Hx _ IH]; intros s; [by eexists|]. cbn. rewrite walk_list_cons.
  destruct (Hx s) as [s' ->]. apply IH.
Qed.

Lemma default_walk_node_some {S} (lv : LocalVar -> Walk S) (g : Expr -> Walk S) e :
  (forall v s, is_Some (lv v s)) -> Forall (fun c => forall s, is_Some (g c s)) (children e) ->
  forall s, is_Some (default_walk_node lv (Node.of_expr (fun c => Child c (g c)) e) s).
Proof.
  intros Hv. assert (Hvs : forall vs s, is_Some (walk_list (map lv vs) s))
    by (intros vs; apply walk_list_total_some, Forall_forall; auto).
  assert (Hl : forall es, Forall (fun c => forall s, is_Some (g c s)) es -> forall s,
    is_Some (walk_list (map go (map (fun c => Child c (g c)) es)) s)).
  { intros es HF. rewrite map_map. cbn. by apply walk_list_total_some. }
  destruct e; cbn [children Node.of_expr default_walk_node]; intros HF s;
    rewrite ?Forall_app, ?Forall_cons in HF; cbn [go]; unfold walk_then, walk_nop; try (by eexists);
  repeat match goal with
    | H : _ /\ _ |- _ => destruct H
    | H : forall s, is_Some (g ?c s) |- context [g ?c ?s] => destruct (H s) as [? ->]; cbn
    | H : Forall _ ?es |- context [walk_list (map go (map _ ?es)) ?s] => destruct (Hl es H s) as [? ->]; cbn
    | |- context [lv ?v ?s] => destruct (Hv v s) as [? ->]; cbn
    | |- context [walk_list (map lv ?vs) ?s] => destruct (Hvs vs s) as [? ->]; cbn
    end; try (by eexists); auto.
Qed.

Lemma used_var_walker_unfold e s :
  run_walk used_var_walker e s
  = if is_access e then Some s
    else default_walk_node insert_name (Node.of_expr (fun c => Child c (run_walk used_var_walker c)) e) s.
Proof. rewrite run_walk_unfold. by destruct e. Qed.

Lemma used_var_walker_some e : forall s, is_Some (run_walk used_var_walker e s).
Proof.
  induction e as [e IH] using children_ind. intros s. rewrite used_var_walker_unfold.
  destruct (is_access e); [by eexists|]. apply default_walk_node_some; [by eexists|done].
Qed.

Lemma used_var_walker_same unused e :
  forall s, run_walk used_var_walker (without_unused unused e) s = run_walk used_var_walker e s.
Proof.
  induction e as [e IH] using children_ind. intros s.
  assert (Hdef : is_access e = false -> is_access (map_children (without_unused unused) e) = false ->
    run_walk used_var_walker (map_children (without_unused unused) e) s = run_walk used_var_walker e s).
  { intros H1 H2. rewrite !used_var_walker_unfold, H1, H2. by apply default_walk_node_map. }
  destruct e; try (apply Hdef; done); cbn [without_unused]; by case_match.
Qed.

(** ** Statements *)

Lemma stmt_walk_same (unused : HashSet.t LocalVar) (stmt : Stmt) : forall s,
  run_stmt_walk used_var_stmt_walker (stmt_map (without_unused unused) stmt) s
  = run_stmt_walk used_var_stmt_walker stmt s.
Proof.
  assert (Hes : forall es s, walk_list (map (run_walk used_var_walker) (map (without_unused unused) es)) s
                             = walk_list (map (run_walk used_var_walker) es) s).
  { intros es. rewrite map_map. apply walk_list_ext, Forall_forall. intros. apply used_var_walker_same. }
  assert (Hl : forall l, Forall (fun x => forall s,
      run_stmt_walk used_var_stmt_walker (stmt_map (without_unused unused) x) s
      = run_stmt_walk used_var_stmt_walker x s) l -> forall s,
    walk_list (map go_stmt (map (fun c => SubStmt c (run_stmt_walk used_var_stmt_walker c))
                              (map (stmt_map (without_unused unused)) l))) s
    = walk_list (map go_stmt (map (fun c => SubStmt c (run_stmt_walk used_var_stmt_walker c)) l)) s).
  { intros l HF. rewrite !map_map. cbn. by apply walk_list_ext. }
  induction stmt using Stmt_ind'; intros s; cbn; unfold walk_then;
    rewrite ?Hes, ?used_var_walker_same; try done;
    repeat (apply option_bind_ext_fun; intros ?); rewrite ?used_var_walker_same, ?Hl by done; try done;
    repeat (apply option_bind_ext_fun; intros ?); by rewrite ?Hl.
Qed.

Lemma stmt_walk_some (stmt : Stmt) : forall s, is_Some (run_stmt_walk used_var_stmt_walker stmt s).
Proof.
  assert (Hes : forall es s, is_Some (walk_list (map (run_walk used_var_walker) es) s))
    by (intros es; apply walk_list_total_some, Forall_forall; intros; apply used_var_walker_some).
  assert (Hvs : forall vs s, is_Some (walk_list (map insert_name vs) s))
    by (intros vs; apply walk_list_total_some, Forall_forall; by eexists).
  assert (Hl : forall l, Forall (fun x => forall s, is_Some (run_stmt_walk used_var_stmt_walker x s)) l ->
    forall s, is_Some (walk_list (map go_stmt (map (fun c => SubStmt c (run_stmt_walk used_var_stmt_walker c)) l)) s)).
  { intros l HF. rewrite map_map. cbn. by apply walk_list_total_some. }
  induction stmt using Stmt_ind'; intros s; cbn; unfold walk_then; try (by eexists);
    repeat match goal with
    | |- context [run_walk used_var_walker ?e ?s] => destruct (used_var_walker_some e s) as [? ->]; cbn
    | |- context [walk_list (map (run_walk used_var_walker) ?es) ?s] => destruct (Hes es s) as [? ->]; cbn
    | |- context [walk_list (map insert_name ?vs) ?s] => destruct (Hvs vs s) as [? ->]; cbn
    | H : Forall _ ?l |- context [walk_list (map go_stmt (map _ ?l)) ?s] => destruct (Hl l H s) as [? ->]; cbn
    end; by eexists.
Qed.

(** ** Methods *)

Definition block_map (f : Expr -> Expr) (b : CfgBlock) : CfgBlock :=
  CfgMethod.make_block (map (stmt_map f) (CfgMethod.stmts b)) (CfgMethod.successor b).

Lemma fold_method_stmts_pure (F : StmtFolder unit Empty_set) (f : Expr -> Expr) m :
  fold_stmt F = (fun _ dflt => dflt) -> fold_snode F = default_fold_snode (fold_expr_of F) ->
  Forall (fun b => Forall (fun s => Forall (folds_to F f) (stmt_exprs s)) (CfgMethod.stmts b)) (basic_blocks m) ->
  fold_method_stmts F m = Some (CfgMethod.with_blocks m (map (block_map f) (basic_blocks m))).
Proof.
  intros Hf Hn HF. unfold fold_method_stmts.
  assert (Hb : mapM_opt (fun block =>
      stmts ← mapM_opt (fun stmt => fst <$> run_stmt_infallible F stmt tt) (CfgMethod.stmts block);
      Some (CfgMethod.make_block stmts (CfgMethod.successor block))) (basic_blocks m)
    = Some (map (block_map f) (basic_blocks m))).
  { induction HF as [|b bs Hb _ IH]; [done|]. cbn.
    assert (Hs : mapM_opt (fun stmt => fst <$> run_stmt_infallible F stmt tt) (CfgMethod.stmts b)
                 = Some (map (stmt_map f) (CfgMethod.stmts b))).
    { clear IH. induction Hb as [|s ss Hs _ IH]; [done|]. cbn.
      rewrite (run_stmt_infallible_pure F f s tt Hf Hn Hs). cbn. by rewrite IH. }
    rewrite Hs. cbn. by rewrite IH. }
  by rewrite Hb.
Qed.

Lemma collect_used_vars_some m : is_Some (collect_used_vars m).
Proof.
  unfold collect_used_vars, walk_then, walk_statements, walk_successors.
  destruct (walk_list_total_some (fun block => walk_list (map (run_stmt_walk used_var_stmt_walker)
    (CfgMethod.stmts block))) (basic_blocks m)) with (s := [] : HashSet.t string) as [s1 ->].
  - apply Forall_forall. intros b _. apply walk_list_total_some, Forall_forall.
    intros s _. apply stmt_walk_some.
  - apply walk_list_total_some, Forall_forall. intros b _ s. unfold walk_successor_guards.
    destruct (CfgMethod.successor b); try by eexists. apply walk_list_total_some, Forall_forall.
    intros t _. apply used_var_walker_some.
Qed.

(** The accesses in the statements of a method, from left to right. *)
Definition method_accesses (m : CfgMethod) : list Expr :=
  concat (map (fun b => concat (map (fun s => concat (map top_accesses (stmt_exprs s)))
                                  (CfgMethod.stmts b))) (basic_blocks m)).

Lemma concat_map_filter {A} (g : Expr -> list Expr) (h : A -> list Expr) (h' : A -> list Expr) (P : Expr -> bool) l :
  Forall (fun x => h' x = List.filter P (h x)) l ->
  concat (map h' l) = List.filter P (concat (map h l)).
Proof. induction 1 as [|x l Hx _ IH]; [done|]. cbn. by rewrite List.filter_app, Hx, IH. Qed.

Lemma stmt_accesses_map unused s :
  concat (map top_accesses (stmt_exprs (stmt_map (without_unused unused) s)))
  = List.filter (keeps_access unused) (concat (map top_accesses (stmt_exprs s))).
Proof.
  rewrite stmt_exprs_map, map_map. apply (concat_map_filter top_accesses).
  apply Forall_forall. intros e _. apply without_unused_accesses.
Qed.

Definition without_unused_method (unused : HashSet.t LocalVar) (m : CfgMethod) : CfgMethod :=
  CfgMethod.with_blocks m (map (block_map (without_unused unused)) (basic_blocks m)).

Lemma method_accesses_map unused m :
  method_accesses (without_unused_method unused m)
  = List.filter (keeps_access unused) (method_accesses m).
Proof.
  unfold method_accesses, without_unused_method. cbn [basic_blocks CfgMethod.with_blocks CfgMethod.basic_blocks].
  rewrite map_map. apply (concat_map_filter top_accesses). apply Forall_forall. intros b _. cbn.
  rewrite map_map. apply (concat_map_filter top_accesses), Forall_forall. intros s _. apply stmt_accesses_map.
Qed.

Lemma collect_used_vars_map unused m :
  collect_used_vars (without_unused_method unused m) = collect_used_vars m.
Proof.
  unfold collect_used_vars, walk_then, walk_statements, walk_successors, without_unused_method. cbn.
  rewrite !map_map. cbn.
  rewrite (walk_list_ext _ (fun block => walk_list (map (run_stmt_walk used_var_stmt_walker)
                                                     (CfgMethod.stmts block)))).
  - done.
  - apply Forall_forall. intros b _ s. rewrite map_map. apply walk_list_ext, Forall_forall.
    intros stmt _ s'. apply stmt_walk_same.
Qed.

Lemma remove_unused_vars_eq m used :
  forallb has_base (method_accesses m) = true -> collect_used_vars m = Some used ->
  let is_used v := HashSet.contains used (LocalVar.name v) in
  remove_unused_vars m = Some (without_unused_method
    (HashSet.from_list (List.filter (fun v => negb (is_used v)) (CfgMethod.local_vars m)))
    (CfgMethod.with_local_vars m (List.filter is_used (CfgMethod.local_vars m)))).
Proof.
  intros Hb Hu is_used. unfold remove_unused_vars. rewrite Hu. cbn [mbind option_bind].
  apply (fold_method_stmts_pure _ (without_unused _)); [done|done|]. cbn.
  unfold method_accesses in Hb. rewrite forallb_concat, Forall_map in Hb.
  eapply Forall_impl; [exact Hb|]. intros b Hb1. cbn in Hb1. rewrite forallb_concat, Forall_map in Hb1.
  eapply Forall_impl; [exact Hb1|]. intros s Hs. cbn in Hs. rewrite forallb_concat, Forall_map in Hs.
  eapply Forall_impl; [exact Hs|]. intros e He st. cbn in He |- *. by apply unused_remover_run.
Qed.

(** With nothing to remove the statements stay as they are. *)
Lemma keeps_all a : keeps_access [] a = true.
Proof. destruct a; try done; cbn; [by destruct a|by destruct (get_base a)]. Qed.

Lemma without_unused_nil e : without_unused [] e = e.
Proof.
  induction e as [e IH] using children_ind.
  assert (Hdef : map_children (without_unused []) e = e).
  { rewrite <- (map_children_id e) at 2. by apply map_children_ext. }
  destruct e; try exact Hdef; cbn [without_unused]; by rewrite keeps_all.
Qed.

Lemma stmt_map_id f s : (forall e, f e = e) -> stmt_map f s = s.
Proof.
  intros Hf. assert (Hes : forall es, map f es = es) by (induction es; cbn; congruence).
  assert (Hl : forall l, Forall (fun s => stmt_map f s = s) l -> map (stmt_map f) l = l)
    by (induction 1; cbn; congruence).
  induction s using Stmt_ind'; cbn; rewrite ?Hf, ?Hes, ?Hl by done; done.
Qed.

Lemma without_unused_method_nil m : without_unused_method [] m = m.
Proof.
  unfold without_unused_method. destruct m. unfold CfgMethod.with_blocks. cbn. f_equal.
  induction basic_blocks as [|b bs IH]; [done|]. cbn. rewrite IH. f_equal. destruct b as [ss su].
  unfold block_map. cbn. f_equal. induction ss as [|s ss IHs]; [done|]. cbn.
  by rewrite IHs, (stmt_map_id _ s without_unused_nil).
Qed.

Lemma filter_twice {A} (P : A -> bool) (l : list A) :
  List.filter (fun v => negb (P v)) (List.filter P l) = []
  /\ List.filter P (List.filter P l) = List.filter P l.
Proof.
  induction l as [|v l [IH1 IH2]]; [done|]. cbn. destruct (P v) eqn:E; [|by split].
  cbn. rewrite E. cbn. by rewrite IH1, IH2.
Qed.

Definition used_in (used : HashSet.t string) (v : LocalVar) : bool :=
  HashSet.contains used (LocalVar.name v).

Theorem remove_unused_vars_spec (m : CfgMethod) :
  forallb has_base (method_accesses m) = true ->
  exists used m', collect_used_vars m = Some used /\ remove_unused_vars m = Some m'
    /\ CfgMethod.local_vars m' = List.filter (used_in used) (CfgMethod.local_vars m)
    /\ collect_used_vars m' = Some used
    /\ method_accesses m' = List.filter (keeps_access (HashSet.from_list
         (List.filter (fun v => negb (used_in used v)) (CfgMethod.local_vars m)))) (method_accesses m)
    /\ remove_unused_vars m' = Some m'.
Proof.
  intros Hb. destruct (collect_used_vars_some m) as [used Hu].
  pose proof (remove_unused_vars_eq m used Hb Hu) as E. cbv zeta in E.
  set (unused := HashSet.from_list _) in E. set (vars := List.filter _ _) in E.
  exists used. eexists. split; [done|]. split; [exact E|]. split; [done|].
  assert (Hu' : collect_used_vars (without_unused_method unused (CfgMethod.with_local_vars m vars)) = Some used).
  { rewrite collect_used_vars_map. exact Hu. }
  assert (Ha : method_accesses (without_unused_method unused (CfgMethod.with_local_vars m vars))
               = List.filter (keeps_access unused) (method_accesses m))
    by exact (method_accesses_map unused (CfgMethod.with_local_vars m vars)).
  assert (Hb' : forallb has_base
      (method_accesses (without_unused_method unused (CfgMethod.with_local_vars m vars))) = true).
  { rewrite Ha. apply forallb_forall. intros a [Hin _]%filter_In. rewrite forallb_forall in Hb. auto. }
  split; [done|]. split; [exact Ha|]. rewrite (remove_unused_vars_eq _ used Hb' Hu').
  cbn [CfgMethod.local_vars without_unused_method CfgMethod.with_blocks CfgMethod.with_local_vars].
  unfold vars. destruct (filter_twice (fun v => HashSet.contains used (LocalVar.name v)) (CfgMethod.local_vars m)) as [-> ->].
  by rewrite without_unused_method_nil.
Qed.

(** [x] is used only in accesses; [acc(P(x.f))] stays although its variable
    is no longer declared. *)
Definition sample_unused : CfgMethod :=
  let x := LocalVar.new "x" (Ty.TypedRef "T") in
  let field := Expr.Field (Expr.Local x Position.default) (Field.new "f" (Ty.TypedRef "S")) Position.default in
  CfgMethod.make 7%Z "m" 0 [] [x] [] []
    [CfgMethod.make_block
       [Stmt.Inhale (Ex.and (Ex.acc_permission field PermAmount.Write)
                       (Ex.predicate_access_predicate "S" field PermAmount.Write))] Successor.Return]
    ["start"] 0%Z 0%Z.

Lemma remove_unused_vars_spec_witness :
  exists used m', collect_used_vars sample_unused = Some used /\ remove_unused_vars sample_unused = Some m'
    /\ CfgMethod.local_vars m' = []
    /\ map (fun a => match a with Expr.PredicateAccessPredicate n _ _ _ => n | _ => "acc" end)
         (method_accesses m') = ["S"]
    /\ remove_unused_vars m' = Some m'.
Proof.
  destruct (remove_unused_vars_spec sample_unused) as (used & m' & Hu & Hm & Hv & _ & Ha & Hi); [reflexivity|].
  exists used, m'. split; [exact Hu|]. split; [exact Hm|]. vm_compute in Hu. injection Hu as <-.
  split; [rewrite Hv; reflexivity|]. split; [rewrite Ha; reflexivity|exact Hi].
Defined.

(** The place that the remaining predicate is about starts at [x]. *)
Lemma dangling_variable :
  exists m', remove_unused_vars sample_unused = Some m' /\ CfgMethod.local_vars m' = []
    /\ exists place q p, method_accesses m' = [Expr.PredicateAccessPredicate "S" place q p]
         /\ get_base place = Some (LocalVar.new "x" (Ty.TypedRef "T")).
Proof. eexists. split; [vm_compute; reflexivity|]. split; [reflexivity|]. repeat eexists. Qed.
