(* ===== verification/Inliner.v ===== *)
(** * Inlining of constant functions

    [prusti-common/src/vir/optimizations/functions/inliner.rs]: functions
    whose body is built from constants are removed and their calls replaced
    by the body, until nothing changes. *)

From Stdlib Require Import Lia.
From S2P Require Import Prelude Ast ExprEq ExprPlace ExprTransformers ExprOps ExprOpsFacts Collections Items.
From S2P Require Import Semantics Borrows Stmt Cfg CfgGraph MethodOpts VarRemover.

(** ** The program *)

Fixpoint is_constant (self : Expr) : bool :=
  match self with
  | Expr.Const _ _ => true
  | Expr.UnaryOp _ subexpr _ => is_constant subexpr
  | Expr.BinOp _ subexpr1 subexpr2 _ => is_constant subexpr1 && is_constant subexpr2
  | _ => false
  end.

Definition has_constant_body (self : Function) : bool :=
  match Function.body self with
  | Some expr => is_constant expr
  | None => false
  end.

(** The function is dropped when it is pure, so clearing its precondition is
    not visible. *)
Definition try_purify (function : Function) : option Expr :=
  if has_constant_body function then
    if forallb is_only_permissions (Function.pres function)
       && match Function.posts function with [] => true | _ => false end
    then Function.body function
    else None
  else None.

(** [ConstantFunctionInliner]. *)
Definition constant_function_inliner (pure_function_map : HashMap.t string Expr) :
    ExprFolder unit Empty_set :=
  {| fold := default_fold;
     fold_node := fun n =>
       match n with
       | Node.FuncApp name args formal_args return_type pos =>
           match HashMap.get pure_function_map name with
           | Some body => mret body
           | None =>
               args ← sequence (map go args);
               mret (Expr.FuncApp name args formal_args return_type pos)
           end
       | Node.Unfolding name args expr perm variant pos =>
           body ← go expr;
           if is_constant body then mret body
           else
             args ← sequence (map go args);
             mret (Expr.Unfolding name args body perm variant pos)
       | _ => default_fold_node n
       end |}.

Definition constant_function_stmt_inliner (pure_function_map : HashMap.t string Expr) :
    StmtFolder unit Empty_set :=
  let fe := run_fold (constant_function_inliner pure_function_map) in
  {| fold_stmt := fun _ dflt => dflt; fold_expr_of := fe; fold_snode := default_fold_snode fe |}.

Definition inline_into (pure_function_map : HashMap.t string Expr) (function : Function) :
    option Function :=
  body ← match Function.body function with
         | Some b =>
             Some <$> (fst <$> run_infallible (constant_function_inliner pure_function_map) b tt)
         | None => Some None
         end;
  Some (Function.new (Function.name function) (Function.formal_args function)
          (Function.return_type function) (Function.pres function) (Function.posts function) body).

Definition inline_into_methods (methods : list CfgMethod) (pure_function_map : HashMap.t string Expr) :
    option (list CfgMethod) :=
  mapM_opt (fold_method_stmts (constant_function_stmt_inliner pure_function_map)) methods.

(** The loop over the functions: the ones that stay, the map, and whether
    some function was pure. *)
Fixpoint purify_all (functions non_pure_functions : list Function)
    (pure_function_map : HashMap.t string Expr) (changed : bool) :
    list Function * HashMap.t string Expr * bool :=
  match functions with
  | [] => (non_pure_functions, pure_function_map, changed)
  | function :: rest =>
      match try_purify function with
      | Some body =>
          purify_all rest non_pure_functions
            (HashMap.insert pure_function_map (Function.name function) body) true
      | None => purify_all rest (non_pure_functions ++ [function])%list pure_function_map changed
      end
  end.

(** Every iteration but the last removes a function. *)
Fixpoint inline_loop (fuel : nat) (functions : list Function)
    (pure_function_map : HashMap.t string Expr) :
    option (list Function * HashMap.t string Expr) :=
  match fuel with
  | 0 => None
  | S fuel' =>
      let '(non_pure_functions, pure_function_map, changed) :=
        purify_all functions [] pure_function_map false in
      functions ← mapM_opt (inline_into pure_function_map) non_pure_functions;
      if (changed : bool) then inline_loop fuel' functions pure_function_map
      else Some (functions, pure_function_map)
  end.

Definition inline_constant_functions (methods : list CfgMethod) (functions : list Function) :
    option (list CfgMethod * list Function) :=
  '(functions, pure_function_map) ←
    inline_loop (S (length functions)) functions HashMap.empty;
  methods ← inline_into_methods methods pure_function_map;
  Some (methods, functions).

(** ** The inliner of expressions *)

Fixpoint const_inlined (pure : HashMap.t string Expr) (e : Expr) : Expr :=
  match e with
  | Expr.FuncApp name args formal_args return_type pos =>
      match HashMap.get pure name with
      | Some body => body
      | None => Expr.FuncApp name (map (const_inlined pure) args) formal_args return_type pos
      end
  | Expr.Unfolding name args expr perm variant pos =>
      if is_constant (const_inlined pure expr) then const_inlined pure expr
      else Expr.Unfolding name (map (const_inlined pure) args) (const_inlined pure expr) perm variant pos
  | _ => map_children (const_inlined pure) e
  end.

Lemma const_inliner_run pure e : forall u,
  run_fold (constant_function_inliner pure) e u = Val (const_inlined pure e, u).
Proof.
  induction e as [e IH] using children_ind. intros u. rewrite run_fold_unfold.
  assert (Hdef : default_fold_node (Node.of_expr (fun c => Child c (run_fold (constant_function_inliner pure) c)) e) u
                 = Val (map_children (const_inlined pure) e, u)) by (by apply default_fold_node_pure).
  destruct e; try exact Hdef; cbn in IH.
  - apply Forall_app in IH as [Ha [He _]%Forall_cons]. unfold default_fold_expr. cbn.
    unfold default_fold, mbind, ST_bind. rewrite He.
    destruct (is_constant (const_inlined pure e)); [done|]. by rewrite (sequence_val _ (const_inlined pure)).
  - unfold default_fold_expr. cbn. unfold default_fold, mbind, ST_bind.
    destruct (HashMap.get pure name); [done|]. by rewrite (sequence_val _ (const_inlined pure)).
Qed.

Definition inlined_function (pure : HashMap.t string Expr) (f : Function) : Function :=
  Function.new (Function.name f) (Function.formal_args f) (Function.return_type f)
    (Function.pres f) (Function.posts f) (const_inlined pure <$> Function.body f).

Lemma inline_into_eq pure f : inline_into pure f = Some (inlined_function pure f).
Proof.
  unfold inline_into, inlined_function. destruct (Function.body f) as [b|]; [|done].
  by rewrite (run_infallible_val _ _ _ _ (const_inliner_run pure b tt)).
Qed.

Definition inlined_method (pure : HashMap.t string Expr) (m : CfgMethod) : CfgMethod :=
  CfgMethod.with_blocks m (map (block_map (const_inlined pure)) (basic_blocks m)).

Lemma inline_into_methods_eq pure ms : inline_into_methods ms pure = Some (map (inlined_method pure) ms).
Proof.
  unfold inline_into_methods. induction ms as [|m ms IH]; [done|]. cbn.
  rewrite (fold_method_stmts_pure _ (const_inlined pure)); [|done|done|].
  - cbn. rewrite IH. done.
  - apply Forall_forall. intros b _. apply Forall_forall. intros s _. apply Forall_forall.
    intros e _ u. apply const_inliner_run.
Qed.

(** ** The loop *)

Lemma purify_all_spec functions : forall non_pure pure changed,
  let r := purify_all functions non_pure pure changed in
  fst (fst r) = (non_pure ++ List.filter (fun f => match try_purify f with Some _ => false | None => true end)
                               functions)%list
  /\ snd r = changed || existsb (fun f => match try_purify f with Some _ => true | None => false end) functions
  /\ snd (fst r) = foldl (fun pure f => match try_purify f with
                                        | Some b => HashMap.insert pure (Function.name f) b
                                        | None => pure end) pure functions.
Proof.
  induction functions as [|f fs IH]; intros non_pure pure changed; cbn.
  - rewrite app_nil_r, orb_false_r. done.
  - destruct (try_purify f) as [b|]; cbn.
    + destruct (IH non_pure (HashMap.insert pure (Function.name f) b) true) as (-> & -> & ->).
      split; [done|]. split; [by rewrite orb_true_r|done].
    + destruct (IH (non_pure ++ [f])%list pure changed) as (-> & -> & ->). by rewrite <- app_assoc.
Qed.

Definition impure (f : Function) : bool := match try_purify f with Some _ => false | None => true end.

(** A constant has one value, and the inliner leaves it alone. *)
Lemma const_inlined_constant pure e : is_constant e = true -> const_inlined pure e = e.
Proof.
  induction e as [e IH] using children_ind. destruct e; try done; cbn in *.
  - apply Forall_cons in IH as [IH _]. intros H. by rewrite IH.
  - apply Forall_cons in IH as [IH1 [IH2 _]%Forall_cons]. intros [H1 H2]%andb_true_iff. by rewrite IH1, IH2.
Qed.

Definition constants (pure : HashMap.t string Expr) : Prop :=
  forall n b, HashMap.get pure n = Some b -> is_constant b = true.

Lemma const_inlined_idem pure e :
  constants pure -> const_inlined pure (const_inlined pure e) = const_inlined pure e.
Proof.
  intros Hp. induction e as [e IH] using children_ind.
  assert (Hes : forall es, Forall (fun c => const_inlined pure (const_inlined pure c) = const_inlined pure c) es ->
    map (const_inlined pure) (map (const_inlined pure) es) = map (const_inlined pure) es)
    by (induction 1; cbn; congruence).
  destruct e; cbn [children] in IH; cbn [const_inlined map_children];
    rewrite ?Forall_app, ?Forall_cons in IH; destruct_and?; try (f_equal; by auto).
  - destruct (is_constant (const_inlined pure e)) eqn:Ec; [done|]. cbn [const_inlined].
    match goal with E : const_inlined pure (const_inlined pure e) = _ |- _ => rewrite E end.
    rewrite Ec. f_equal. by auto.
  - destruct (HashMap.get pure name) as [b|] eqn:E.
    + by apply const_inlined_constant, (Hp name).
    + cbn [const_inlined]. rewrite E. f_equal. by auto.
Qed.

Lemma try_purify_spec f b :
  try_purify f = Some b -> Function.body f = Some b /\ is_constant b = true.
Proof.
  unfold try_purify, has_constant_body. destruct (Function.body f) as [b'|]; [|done].
  destruct (is_constant b') eqn:E; [|done]. destruct (_ && _); [|done]. intros [= <-]. done.
Qed.

(** One round of the loop. *)
Definition round_map (fs : list Function) (pure : HashMap.t string Expr) : HashMap.t string Expr :=
  foldl (fun pure f => match try_purify f with
                       | Some b => HashMap.insert pure (Function.name f) b
                       | None => pure end) pure fs.

Lemma round_map_get fs : forall pure n b,
  HashMap.get (round_map fs pure) n = Some b ->
  HashMap.get pure n = Some b \/ exists f, f ∈ fs /\ Function.name f = n /\ try_purify f = Some b.
Proof.
  induction fs as [|f fs IH]; intros pure n b; cbn; [by left|].
  intros [Hg|(f' & Hf & Hn & Hb)]%IH; [|right; exists f'; split; [by right|done]].
  destruct (try_purify f) as [b'|] eqn:E; [|by left]. rewrite HashMap.get_insert in Hg.
  destruct (n == Function.name f) eqn:En; [|by left]. apply (peq_eq (A := string)) in En as ->.
  injection Hg as ->. right. exists f. split; [by left|done].
Qed.

(** A name that is in the map stays there, a pure function enters it. *)
Lemma round_map_keeps fs : forall pure n,
  (is_Some (HashMap.get pure n) \/ exists f, f ∈ fs /\ Function.name f = n /\ impure f = false) ->
  is_Some (HashMap.get (round_map fs pure) n).
Proof.
  induction fs as [|f fs IH]; intros pure n; cbn; [intros [?|(f & ?%elem_of_nil & _)]; done|].
  intros H. apply IH. destruct (try_purify f) as [b|] eqn:E.
  - rewrite HashMap.get_insert. destruct (n == Function.name f) eqn:En; [left; by eexists|].
    destruct H as [?|(f' & [->|Hf]%elem_of_cons & Hn & Hi)]; [by left| |right; by exists f'].
    apply (peq_false_iff (A := string)) in En. congruence.
  - destruct H as [?|(f' & [->|Hf]%elem_of_cons & Hn & Hi)]; [by left| |right; by exists f'].
    unfold impure in Hi. by rewrite E in Hi.
Qed.

Lemma purify_all_eq fs pure :
  purify_all fs [] pure false = (List.filter impure fs, round_map fs pure, negb (forallb impure fs)).
Proof.
  destruct (purify_all_spec fs [] pure false) as (H1 & H2 & H3).
  destruct (purify_all fs [] pure false) as [[np p] c]. cbn in *. subst.
  f_equal. clear. induction fs as [|f fs IH]; [done|]. cbn. rewrite IH. unfold impure.
  by destruct (try_purify f).
Qed.

Lemma inline_loop_unfold fuel fs pure :
  inline_loop (S fuel) fs pure =
    let fs' := map (inlined_function (round_map fs pure)) (List.filter impure fs) in
    if forallb impure fs then Some (fs', round_map fs pure)
    else inline_loop fuel fs' (round_map fs pure).
Proof.
  cbn [inline_loop]. rewrite purify_all_eq, (mapM_opt_total _ (inlined_function (round_map fs pure)))
    by (apply Forall_forall; intros; apply inline_into_eq). cbn [mbind option_bind]. by destruct (forallb impure fs).
Qed.

Lemma filter_length_lt {A} (P : A -> bool) l : forallb P l = false -> length (List.filter P l) < length l.
Proof.
  induction l as [|x l IH]; [done|]. cbn. destruct (P x); cbn.
  - intros ?%IH. lia.
  - intros _. pose proof (List.filter_length_le P l). lia.
Qed.

(** An invariant of the rounds holds at the end, and the loop ends. *)
Lemma inline_loop_ind (Inv : list Function -> HashMap.t string Expr -> Prop) :
  (forall fs pure, Inv fs pure ->
     Inv (map (inlined_function (round_map fs pure)) (List.filter impure fs)) (round_map fs pure)) ->
  forall fuel fs pure, length fs < fuel -> Inv fs pure ->
  exists fs' pure', inline_loop fuel fs pure = Some (fs', pure') /\ Inv fs' pure'.
Proof.
  intros Hstep fuel. induction fuel as [|fuel IH]; intros fs pure Hlen Hi; [lia|].
  rewrite inline_loop_unfold. cbv zeta. destruct (forallb impure fs) eqn:E; [eauto|].
  apply IH; [|by apply Hstep]. rewrite length_map. apply filter_length_lt in E. lia.
Qed.

(** ** What stays and what is removed *)

Definition signature (f : Function) :=
  (Function.name f, Function.formal_args f, Function.return_type f, Function.pres f, Function.posts f).

Record accounted (fs0 fs : list Function) (pure : HashMap.t string Expr) : Prop := {
  acc_from : forall f, f ∈ fs -> exists f0, f0 ∈ fs0 /\ signature f = signature f0;
  acc_all : forall f0, f0 ∈ fs0 ->
    (exists f, f ∈ fs /\ signature f = signature f0) \/ is_Some (HashMap.get pure (Function.name f0));
  acc_constants : constants pure
}.

Lemma in_round fs pure f :
  f ∈ map (inlined_function pure) (List.filter impure fs)
  <-> exists g, g ∈ fs /\ impure g = true /\ f = inlined_function pure g.
Proof.
  rewrite list_elem_of_In, in_map_iff. split.
  - intros (g & <- & [Hg Hi]%filter_In). exists g. by rewrite list_elem_of_In.
  - intros (g & Hg & Hi & ->). exists g. split; [done|]. apply filter_In. by rewrite <- list_elem_of_In.
Qed.

Lemma constants_round fs pure : constants pure -> constants (round_map fs pure).
Proof.
  intros Hp n b [Hg|(f & _ & _ & Hb)]%round_map_get; [by eapply Hp|]. by apply try_purify_spec in Hb as [_ ?].
Qed.

Lemma accounted_step fs0 fs pure :
  accounted fs0 fs pure ->
  accounted fs0 (map (inlined_function (round_map fs pure)) (List.filter impure fs)) (round_map fs pure).
Proof.
  intros [Hf Ha Hc]. split; [| |by apply constants_round].
  - intros f (g & Hg & _ & ->)%in_round. by apply Hf in Hg.
  - intros f0 Hf0. destruct (Ha f0 Hf0) as [(g & Hg & Hs)|Hs].
    + destruct (impure g) eqn:Ei.
      * left. exists (inlined_function (round_map fs pure) g). split; [apply in_round; eauto|done].
      * right. apply round_map_keeps. right. exists g. split; [done|]. split; [|done].
        by injection Hs.
    + right. apply round_map_keeps. by left.
Qed.

(** The loop stops at a fixpoint, if it does not stop at once. *)
Lemma round_map_impure fs pure : forallb impure fs = true -> round_map fs pure = pure.
Proof.
  revert pure. induction fs as [|f fs IH]; intros pure; [done|]. cbn. unfold impure at 1.
  destruct (try_purify f); [done|]. apply IH.
Qed.

Lemma inline_loop_fixpoint fuel : forall fs pure fs' pure',
  constants pure ->
  forallb impure fs = false \/ Forall (fun f => inlined_function pure f = f) fs ->
  inline_loop fuel fs pure = Some (fs', pure') -> forallb impure fs' = true.
Proof.
  induction fuel as [|fuel IH]; intros fs pure fs' pure' Hc Hs E; [done|].
  rewrite inline_loop_unfold in E. cbv zeta in E. destruct (forallb impure fs) eqn:Ei.
  - destruct Hs as [?|Hs]; [done|]. injection E as <- <-. rewrite (round_map_impure fs pure Ei).
    assert (Hid : map (inlined_function pure) (List.filter impure fs) = fs); [|by rewrite Hid].
    clear -Hs Ei. induction Hs as [|f fs Hf _ IHf]; [done|]. cbn in *.
    apply andb_true_iff in Ei as [-> Ei]. cbn. by rewrite Hf, IHf.
  - eapply IH; [by apply constants_round| |exact E]. right. apply Forall_forall.
    intros f (g & _ & _ & ->)%in_round. unfold inlined_function. cbn. f_equal.
    destruct (Function.body g) as [b|]; [|done]. cbn. f_equal. by apply const_inlined_idem, constants_round.
Qed.

(** ** The value of the program *)

Section Value.
Context `{InterpLaws} (fs0 : list Function).

(** The value of a call is that of the body, the documented meaning of a
    Viper function. *)
Definition call_state (f : Function) (vs : list Value) (h : Heap) : State :=
  {| store := bind_vars (fun _ => None) (Function.formal_args f) vs; heap := h;
     old_heaps := fun _ => None |}.

Definition defined_by (f : Function) : Prop :=
  forall b vs h v, Function.body f = Some b ->
    func (Function.get_identifier f) vs h = Some v -> eval b (call_state f vs h) = Some v.

(** A call names one function of the program. *)
Definition linked_call (e : Expr) : Prop :=
  match e with
  | Expr.FuncApp name _ formal_args return_type _ =>
      forall f, f ∈ fs0 -> Function.name f = name ->
        Function.compute_identifier name formal_args return_type = Function.get_identifier f
  | _ => True
  end.

Definition linked_calls (e : Expr) : Prop := Forall linked_call (subexprs e).

Lemma linked_calls_eq e : linked_calls e <-> linked_call e /\ Forall linked_calls (children e).
Proof.
  unfold linked_calls at 1. rewrite subexprs_eq, Forall_cons, Forall_concat, Forall_map. done.
Qed.

Lemma constant_linked e : is_constant e = true -> linked_calls e.
Proof.
  induction e as [e IH] using children_ind. intros He. apply linked_calls_eq.
  destruct e; try done; (split; [done|]); cbn in *.
  - rewrite !Forall_cons in *. destruct IH as [IH _]. auto.
  - apply andb_true_iff in He as [? ?]. rewrite !Forall_cons in *. destruct IH as (? & ? & _). auto.
Qed.

Lemma eval_constant e st st' : is_constant e = true -> eval e st = eval e st'.
Proof.
  induction e as [e IH] using children_ind. destruct e; try done; cbn in *.
  - apply Forall_cons in IH as [IH _]. intros He. by rewrite (IH He).
  - apply Forall_cons in IH as [IH1 [IH2 _]%Forall_cons]. intros [H1 H2]%andb_true_iff.
    by rewrite (IH1 H1), (IH2 H2).
Qed.

Definition sound_map (pure : HashMap.t string Expr) : Prop :=
  forall n b, HashMap.get pure n = Some b -> is_constant b = true
    /\ exists f0, f0 ∈ fs0 /\ Function.name f0 = n
       /\ forall vs h v st, func (Function.get_identifier f0) vs h = Some v -> eval b st = Some v.

Lemma refines_const_inlined pure e :
  sound_map pure -> linked_calls e -> refines e (const_inlined pure e) /\ linked_calls (const_inlined pure e).
Proof.
  intros Hp. induction e as [e IH] using children_ind. intros [Hl Hc]%linked_calls_eq.
  assert (HF : Forall (fun c => refines c (const_inlined pure c) /\ linked_calls (const_inlined pure c)) (children e)).
  { clear -IH Hc. induction IH; constructor; inversion_clear Hc; auto. }
  assert (Hdef : linked_call (map_children (const_inlined pure) e) ->
    refines e (map_children (const_inlined pure) e) /\ linked_calls (map_children (const_inlined pure) e)).
  { intros Hm. split.
    - apply refines_map_children. eapply Forall_impl; [exact HF|]. by intros c [].
    - apply linked_calls_eq. split; [done|]. rewrite children_map_children, Forall_map.
      eapply Forall_impl; [exact HF|]. by intros c []. }
  destruct e; try (apply Hdef; exact I).
  - cbn [const_inlined]. destruct (is_constant (const_inlined pure e)); [|by apply Hdef].
    cbn [children] in HF. apply Forall_app in HF as [_ [[Hr Hcl] _]%Forall_cons].
    split; [|done]. intros st. cbn. apply Hr.
  - cbn [const_inlined]. destruct (HashMap.get pure name) as [b|] eqn:Eg; [|by apply Hdef].
    destruct (Hp name b Eg) as (Hb & f0 & Hf0 & Hn & Hv). split; [|by apply constant_linked].
    intros st v. cbn. unfold checked. intros Hev. inv_option. case_match; [|done]. injection Hev as <-.
    cbn in Hl. rewrite (Hl f0 Hf0 Hn) in Hx0. by eapply Hv.
Qed.

Record valued (fs : list Function) (pure : HashMap.t string Expr) : Prop := {
  val_from : forall f, f ∈ fs -> exists f0, f0 ∈ fs0 /\ signature f = signature f0;
  val_defined : Forall defined_by fs;
  val_linked : Forall (fun f => match Function.body f with Some b => linked_calls b | None => True end) fs;
  val_map : sound_map pure
}.

Lemma valued_round_map fs pure : valued fs pure -> sound_map (round_map fs pure).
Proof.
  intros [Hfrom Hd _ Hp] n b [Hg|(f & Hf & Hn & Hb)]%round_map_get; [by apply Hp|].
  apply try_purify_spec in Hb as [Hbody Hc]. split; [done|].
  destruct (Hfrom f Hf) as (f0 & Hf0 & Hs). exists f0. split; [done|]. injection Hs as Hsn Hsa Hsr Hsp Hso.
  split; [congruence|]. intros vs h v st Hv. rewrite (eval_constant b st (call_state f vs h) Hc).
  rewrite Forall_forall in Hd. apply (Hd f Hf); [done|].
  unfold Function.get_identifier in *. by rewrite Hsn, Hsa, Hsr.
Qed.

Lemma valued_step fs pure :
  valued fs pure ->
  valued (map (inlined_function (round_map fs pure)) (List.filter impure fs)) (round_map fs pure).
Proof.
  intros Hv. pose proof (valued_round_map fs pure Hv) as Hm. destruct Hv as [Hfrom Hd Hl Hp].
  rewrite Forall_forall in Hd, Hl. split; [| | |done].
  - intros f (g & Hg & _ & ->)%in_round. by apply Hfrom in Hg.
  - apply Forall_forall. intros f (g & Hg & _ & ->)%in_round b vs h v Hb Hv.
    cbn in Hb. apply fmap_Some in Hb as (b0 & Hb0 & ->). specialize (Hl g Hg). rewrite Hb0 in Hl.
    apply (proj1 (refines_const_inlined _ b0 Hm Hl)). by apply (Hd g Hg b0).
  - apply Forall_forall. intros f (g & Hg & _ & ->)%in_round. cbn.
    destruct (Function.body g) as [b|] eqn:Eb; [|done]. cbn. specialize (Hl g Hg). rewrite Eb in Hl.
    by apply refines_const_inlined.
Qed.
End Value.

(** ** The theorems *)

Lemma inline_constant_functions_eq methods functions functions' pure :
  inline_loop (S (length functions)) functions HashMap.empty = Some (functions', pure) ->
  inline_constant_functions methods functions = Some (map (inlined_method pure) methods, functions').
Proof.
  intros E. unfold inline_constant_functions. rewrite E. cbn [mbind option_bind].
  by rewrite inline_into_methods_eq.
Qed.

Lemma accounted_init functions : accounted functions functions HashMap.empty.
Proof. split; [eauto|eauto|done]. Qed.

Theorem inline_constant_functions_total methods functions :
  exists pure functions',
    inline_constant_functions methods functions = Some (map (inlined_method pure) methods, functions')
    /\ accounted functions functions' pure
    /\ (forallb impure functions = false -> Forall (fun f => try_purify f = None) functions').
Proof.
  destruct (inline_loop_ind (accounted functions) (accounted_step functions) (S (length functions))
    functions HashMap.empty (Nat.lt_succ_diag_r _) (accounted_init functions)) as (fs' & pure & E & Ha).
  exists pure, fs'. split; [by apply inline_constant_functions_eq|]. split; [done|].
  intros Hi. pose proof (inline_loop_fixpoint _ functions HashMap.empty fs' pure ltac:(done) (or_introl Hi) E) as Hf.
  apply Forall_forall. intros f Hin. rewrite forallb_forall in Hf. specialize (Hf f).
  unfold impure in Hf. destruct (try_purify f); [|done]. by discriminate Hf; apply list_elem_of_In.
Qed.

Theorem inline_constant_functions_value `{InterpLaws} methods functions :
  Forall defined_by functions ->
  Forall (fun f => match Function.body f with Some b => linked_calls functions b | None => True end) functions ->
  exists pure functions',
    inline_constant_functions methods functions = Some (map (inlined_method pure) methods, functions')
    /\ Forall defined_by functions'
    /\ forall e, linked_calls functions e ->
         forall st v, eval e st = Some v -> eval (const_inlined pure e) st = Some v.
Proof.
  intros Hd Hl.
  assert (Hv : valued functions functions HashMap.empty) by (split; [eauto|done|done|done]).
  destruct (inline_loop_ind (valued functions) (valued_step functions) (S (length functions))
    functions HashMap.empty (Nat.lt_succ_diag_r _) Hv) as (fs' & pure & E & Hv').
  exists pure, fs'. split; [by apply inline_constant_functions_eq|]. split; [by eapply val_defined|].
  intros e He st v. apply (refines_const_inlined functions pure e); [by eapply val_map|done].
Qed.

(** [answer(this)] requires a permission and returns 42; [main(this)] calls it. *)
Definition this_var : LocalVar := LocalVar.new "this" (Ty.TypedRef "T").

Definition call_of (f : Function) (args : list Expr) : Expr := Function.apply f args.

Definition answer : Function :=
  Function.new "answer" [this_var] Ty.Int
    [Ex.predicate_access_predicate "T" (expr_of_var this_var) PermAmount.Read] []
    (Some (expr_of_i32 42)).

Definition main_function : Function :=
  Function.new "main" [this_var] Ty.Int [] [] (Some (call_of answer [expr_of_var this_var])).

(** The interpretation of these two functions. *)
Definition answer_interp : Interp := {|
  idiv := @idiv sample_interp; imod := @imod sample_interp; big_int := @big_int sample_interp;
  func _ vs _ := match vs with [VRef _] => Some (VInt 42) | _ => None end;
  domain_func := @domain_func sample_interp; quantifier := @quantifier sample_interp
|}.

Lemma answer_laws : @InterpLaws answer_interp.
Proof.
  split; cbn.
  - apply (@imod_range sample_interp sample_laws).
  - apply (@imod_congruent sample_interp sample_laws).
  - apply (@quantifier_mono sample_interp sample_laws).
Qed.

Lemma inline_constant_functions_total_witness :
  exists pure functions',
    inline_constant_functions [] [answer; main_function] = Some ([], functions')
    /\ functions' = [] /\ accounted [answer; main_function] functions' pure
    /\ Forall (fun f => try_purify f = None) functions'.
Proof.
  destruct (inline_constant_functions_total [] [answer; main_function]) as (pure & fs' & E & Ha & Hf).
  exists pure, fs'. split; [exact E|]. split; [vm_compute in E; by injection E as <-|].
  split; [exact Ha|]. apply Hf. reflexivity.
Defined.

Lemma inline_constant_functions_value_witness :
  exists pure functions',
    inline_constant_functions [] [answer; main_function] = Some (map (inlined_method pure) [], functions')
    /\ Forall (@defined_by answer_interp) functions'
    /\ forall e, linked_calls [answer; main_function] e ->
         forall st v, @eval answer_interp e st = Some v -> @eval answer_interp (const_inlined pure e) st = Some v.
Proof.
  apply (@inline_constant_functions_value answer_interp answer_laws).
  - repeat constructor; intros b vs h v [= <-] Hv; cbn in *;
      destruct vs as [|[| |r| |] [|]]; try discriminate; injection Hv as <-; reflexivity.
  - repeat constructor; cbn; intros f Hf Hn; repeat (apply elem_of_cons in Hf as [->|Hf]; [try reflexivity; try discriminate|]);
      by apply elem_of_nil in Hf.
Defined.

(** ** Where the code falls short of its documentation *)

(** Calls in preconditions stay although the function is removed. *)
Definition guarded : Function :=
  Function.new "guarded" [this_var] Ty.Int
    [Ex.eq_cmp (call_of answer [expr_of_var this_var]) (expr_of_i32 42)] [] None.

Lemma inliner_leaves_call_in_precondition :
  exists functions', inline_constant_functions [] [answer; guarded] = Some ([], functions')
    /\ map Function.name functions' = ["guarded"]
    /\ Forall (fun f => exists args p, In (call_of answer args) (concat (map subexprs (Function.pres f)))
                                       /\ p = Position.default) functions'.
Proof.
  eexists. split; [vm_compute; reflexivity|]. split; [reflexivity|]. repeat constructor.
  exists [expr_of_var this_var], Position.default. split; [right; left; reflexivity|done].
Qed.

(** The first round folds [unfolding T(this) in 42] to [42], but the loop
    stops: the result still has a function that a second call would inline. *)
Definition unfolding_answer : Function :=
  Function.new "answer" [this_var] Ty.Int
    [Ex.predicate_access_predicate "T" (expr_of_var this_var) PermAmount.Read] []
    (Some (Ex.unfolding "T" [expr_of_var this_var] (expr_of_i32 42) PermAmount.Read None)).

Lemma inliner_stops_before_fixpoint :
  exists functions', inline_constant_functions [] [unfolding_answer] = Some ([], functions')
    /\ map Function.name functions' = ["answer"]
    /\ inline_constant_functions [] functions' = Some ([], []).
Proof. eexists. split; [vm_compute; reflexivity|]. split; reflexivity. Qed.

(** Two functions with one name and different signatures are one entry of
    the map: the call of the first gets the body of the second. *)
Definition size_of (ty : string) (n : Z) : Function :=
  Function.new "size" [LocalVar.new "this" (Ty.TypedRef ty)] Ty.Int [] [] (Some (expr_of_i32 n)).

Lemma inliner_confuses_signatures :
  Function.get_identifier (size_of "A" 1) <> Function.get_identifier (size_of "B" 2)
  /\ exists pure, inline_loop 3 [size_of "A" 1; size_of "B" 2] HashMap.empty = Some ([], pure)
       /\ const_inlined pure (call_of (size_of "A" 1) [expr_of_var this_var]) = expr_of_i32 2.
Proof. split; [discriminate|]. eexists. split; vm_compute; reflexivity. Qed.
