(* ===== verification/DeletePredicates.v ===== *)
(** * Deletion of unused predicates

    [prusti-common/src/vir/optimizations/predicates/delete_unused_predicates.rs]:
    the predicates that no method or function uses, directly or through the
    bodies of other predicates, are deleted, and struct predicates that are
    never folded or unfolded lose their bodies.

    The ordered sets and maps of the code are only asked for membership. *)

From Stdlib Require Import Lia.
From stdpp Require Import relations.
From S2P Require Import Prelude Ast ExprEq ExprPlace ExprTransformers ExprOps Collections Items Graph.
From S2P Require Import Borrows Stmt Cfg.

(** ** The program *)

Record UsedPredicateCollector : Type := make_collector {
  used_predicates : HashSet.t string;
  folded_predicates : HashSet.t string
}.

Definition use_predicate (name : string) : Walk UsedPredicateCollector := fun c =>
  Some (make_collector (HashSet.insert (used_predicates c) name) (folded_predicates c)).

Definition fold_predicate (name : string) : Walk UsedPredicateCollector := fun c =>
  Some (make_collector (used_predicates c) (HashSet.insert (folded_predicates c) name)).

Definition predicate_walker : ExprWalker UsedPredicateCollector :=
  {| walk := default_walk;
     walk_local_var := default_walk_local_var;
     walk_node := fun n =>
       match n with
       | Node.PredicateAccessPredicate name arg _ _ => walk_then (use_predicate name) (go arg)
       | Node.Unfolding name args body _ _ _ =>
           walk_then (use_predicate name) (walk_then (fold_predicate name)
             (walk_then (walk_list (map go args)) (go body)))
       | _ => default_walk_node default_walk_local_var n
       end |}.

Definition predicate_stmt_walker : StmtWalker UsedPredicateCollector :=
  {| walk_stmt := fun _ dflt => dflt;
     walk_expr_of := run_walk predicate_walker;
     walk_local_var_of := default_walk_local_var_of;
     walk_snode := fun n =>
       match n with
       | SNode.Fold predicate_name _ _ _ _ | SNode.Unfold predicate_name _ _ _ =>
           walk_then (fold_predicate predicate_name) (use_predicate predicate_name)
       | _ => default_walk_snode (run_walk predicate_walker) default_walk_local_var_of n
       end |}.

Definition collect_info_from_methods_and_functions (methods : list CfgMethod)
    (functions : list Function) : option UsedPredicateCollector :=
  collector ← walk_methods methods predicate_stmt_walker predicate_walker (make_collector [] []);
  collector ← walk_functions functions predicate_walker collector;
  use_predicate "DeadBorrowToken$" collector.

(** The walk over the body of one predicate; [None]: the predicate is ignored. *)
Definition predicate_body_walk (pred : Predicate) : option (Walk UsedPredicateCollector) :=
  match pred with
  | Predicate.Struct p =>
      match StructPredicate.body p with
      | Some e => Some (run_walk predicate_walker e)
      | None => None
      end
  | Predicate.Enum p =>
      Some (walk_then
        (run_walk predicate_walker
           (field_place (expr_of_var (EnumPredicate.this p)) (EnumPredicate.discriminant_field p)))
        (walk_then (run_walk predicate_walker (EnumPredicate.discriminant_bounds p))
          (walk_list (map (fun v : Expr * string * StructPredicate =>
             let '(e, _, sp) := v in
             walk_then (run_walk predicate_walker e)
               (walk_then (use_predicate (StructPredicate.name sp))
                 (match StructPredicate.body sp with
                  | Some e => run_walk predicate_walker e
                  | None => walk_nop
                  end))) (EnumPredicate.variants p)))))
  | Predicate.Bodyless _ _ => None
  end.

(** After each predicate the collected names move into the map. *)
Fixpoint get_used_predicates_go (predicates : list Predicate) (collector : UsedPredicateCollector)
    (map : HashMap.t string (HashSet.t string)) : option (HashMap.t string (HashSet.t string)) :=
  match predicates with
  | [] => Some map
  | pred :: rest =>
      match predicate_body_walk pred with
      | Some w =>
          collector ← w collector;
          get_used_predicates_go rest (make_collector [] (folded_predicates collector))
            (HashMap.insert map (Predicate.name pred) (used_predicates collector))
      | None => get_used_predicates_go rest collector map
      end
  end.

Definition get_used_predicates_in_predicate_map (predicates : list Predicate) :
    option (HashMap.t string (HashSet.t string)) :=
  get_used_predicates_go predicates (make_collector [] []) HashMap.empty.

(** The loop over the used predicates, given the recursive call. *)
Fixpoint visit_each (visit : string -> HashSet.t string -> option (HashSet.t string))
    (names : list string) (visited : HashSet.t string) : option (HashSet.t string) :=
  match names with
  | [] => Some visited
  | p :: rest => visited ← visit p visited; visit_each visit rest visited
  end.

(** The fuel bounds the depth of the recursion. *)
Fixpoint visit_predicate (predicates_in_predicates : HashMap.t string (HashSet.t string)) (fuel : nat)
    (to_visit : string) (visited : HashSet.t string) : option (HashSet.t string) :=
  if HashSet.contains visited to_visit then Some visited
  else
    match fuel with
    | 0 => None
    | S fuel' =>
        let visited := HashSet.insert visited to_visit in
        match HashMap.get predicates_in_predicates to_visit with
        | Some v => visit_each (visit_predicate predicates_in_predicates fuel') v visited
        | None => Some visited
        end
    end.

Definition compute_reachable_predicates
    (predicates_in_predicates : HashMap.t string (HashSet.t string))
    (used_predicates : HashSet.t string) : option (HashSet.t string) :=
  visit_each (visit_predicate predicates_in_predicates (S (length predicates_in_predicates)))
    used_predicates [].

(** [Remove the bodies of predicates that are never folded or unfolded]. *)
Definition drop_body (folded : HashSet.t string) (predicate : Predicate) : Predicate :=
  if HashSet.contains folded (Predicate.name predicate) then predicate
  else
    match predicate with
    | Predicate.Struct sp =>
        Predicate.Struct (StructPredicate.make (StructPredicate.name sp) (StructPredicate.this sp) None)
    | p => p
    end.

Definition drop_entry (folded : HashSet.t string) (map : HashMap.t string (HashSet.t string))
    (predicate : Predicate) : HashMap.t string (HashSet.t string) :=
  if HashSet.contains folded (Predicate.name predicate) then map
  else
    match predicate with
    | Predicate.Struct _ => HashMap.remove map (Predicate.name predicate)
    | _ => map
    end.

Definition delete_unused_predicates (methods : list CfgMethod) (functions : list Function)
    (predicates : list Predicate) : option (list Predicate) :=
  collector ← collect_info_from_methods_and_functions methods functions;
  predicates_in_predicates_map ← get_used_predicates_in_predicate_map predicates;
  let folded := folded_predicates collector in
  let predicates_in_predicates_map := foldl (drop_entry folded) predicates_in_predicates_map predicates in
  reachable_predicates ←
    compute_reachable_predicates predicates_in_predicates_map (used_predicates collector);
  Some (List.filter (fun p => HashSet.contains reachable_predicates (Predicate.name p))
          (map (drop_body folded) predicates)).

(** ** What the walkers collect *)

#[local] Arguments walk_list : simpl never.

Inductive note : Type := Use (name : string) | FoldOf (name : string).

Definition take_note (n : note) : Walk UsedPredicateCollector :=
  match n with Use name => use_predicate name | FoldOf name => fold_predicate name end.

(** What one node of an expression tells. *)
Definition own_notes (e : Expr) : list note :=
  match e with
  | Expr.PredicateAccessPredicate name _ _ _ => [Use name]
  | Expr.Unfolding name _ _ _ _ _ => [Use name; FoldOf name]
  | _ => []
  end.

Definition expr_notes (e : Expr) : list note := concat (map own_notes (subexprs e)).

Lemma expr_notes_eq e : expr_notes e = (own_notes e ++ concat (map expr_notes (children e)))%list.
Proof.
  unfold expr_notes at 1. rewrite subexprs_eq. cbn. f_equal.
  induction (children e) as [|c cs IH]; [done|]. cbn. by rewrite map_app, concat_app, IH.
Qed.

Lemma walk_children {S A} (g : Expr -> Walk S) (items : Expr -> list A) (w : A -> Walk S) es s :
  Forall (fun c => forall s, g c s = walk_list (map w (items c)) s) es ->
  walk_list (map go (map (fun c => Child c (g c)) es)) s = walk_list (map w (concat (map items es))) s.
Proof. intros HF. rewrite walk_list_concat, !map_map. cbn. by apply walk_list_ext. Qed.

Lemma walk_vars_nop {S} (vs : list LocalVar) (s : S) :
  walk_list (map default_walk_local_var vs) s = Some s.
Proof. induction vs; [done|exact IHvs]. Qed.

(** The default methods visit the children. *)
Lemma default_walk_node_children {S A} (g : Expr -> Walk S) (items : Expr -> list A) (w : A -> Walk S) e s :
  Forall (fun c => forall s, g c s = walk_list (map w (items c)) s) (children e) ->
  default_walk_node default_walk_local_var (Node.of_expr (fun c => Child c (g c)) e) s
  = walk_list (map w (concat (map items (children e)))) s.
Proof.
  destruct e; cbn; rewrite ?Forall_app, ?Forall_cons; intros HF; unfold walk_then, default_walk_local_var, walk_nop;
    rewrite ?map_app, ?concat_app; cbn; rewrite ?app_nil_r, ?map_app; try done;
    repeat match goal with
    | H : _ /\ _ |- _ => destruct H
    | |- context [walk_list (_ ++ _)%list] => rewrite walk_list_app
    | |- context [walk_list (map (fun _ => Some) ?vs) ?s] =>
        change (walk_list (map (fun _ => Some) vs) s)
          with (walk_list (map (@default_walk_local_var S) vs) s); rewrite walk_vars_nop; cbn
    | H : forall s, g ?c s = _ |- context [g ?c ?s] => rewrite (H s)
    | H : Forall _ ?es |- context [walk_list (map go (map _ ?es)) ?s] => rewrite (walk_children g items w es s H)
    | |- _ ≫= _ = _ ≫= _ => apply option_bind_ext_fun; intros ?
    end; try done.
  all: destruct (walk_list _ s) as [s'|]; [apply walk_vars_nop|done].
Qed.

Lemma predicate_walk e : forall c,
  run_walk predicate_walker e c = walk_list (map take_note (expr_notes e)) c.
Proof.
  induction e as [e IH] using children_ind. intros c. rewrite run_walk_unfold, expr_notes_eq.
  assert (Hdef := fun s => default_walk_node_children (run_walk predicate_walker) expr_notes take_note e s IH).
  destruct e; try exact (Hdef c); cbn [children] in IH; rewrite map_app, walk_list_app; cbn [own_notes map].
  - apply Forall_cons in IH as [IH _]. rewrite walk_list_one. cbn. unfold walk_then. cbn.
    by rewrite IH, app_nil_r.
  - apply Forall_app in IH as [Ha [He _]%Forall_cons]. cbn. unfold walk_then. cbn.
    rewrite walk_list_cons. cbn. rewrite walk_list_one. cbn.
    rewrite (walk_children _ expr_notes take_note) by done. rewrite map_app, concat_app, map_app, walk_list_app.
    apply option_bind_ext_fun. intros c'. cbn. by rewrite He, app_nil_r.
Qed.

Fixpoint stmt_notes (s : Stmt) : list note :=
  match s with
  | Stmt.Fold name _ _ _ _ | Stmt.Unfold name _ _ _ => [FoldOf name; Use name]
  | Stmt.PackageMagicWand w b _ _ _ => (expr_notes w ++ concat (map stmt_notes b))%list
  | Stmt.If g t e => (expr_notes g ++ concat (map stmt_notes t) ++ concat (map stmt_notes e))%list
  | s => concat (map expr_notes (stmt_exprs s))
  end.

Lemma predicate_stmt_walk s : forall c,
  run_stmt_walk predicate_stmt_walker s c = walk_list (map take_note (stmt_notes s)) c.
Proof.
  assert (Hes : forall es c, walk_list (map (run_walk predicate_walker) es) c
                             = walk_list (map take_note (concat (map expr_notes es))) c).
  { intros es c. rewrite walk_list_concat, !map_map. apply walk_list_ext, Forall_forall.
    intros e _ c'. apply predicate_walk. }
  assert (Hvs : forall (vs : list LocalVar) c,
    walk_list (map (@default_walk_local_var_of UsedPredicateCollector) vs) c = Some c)
    by (intros vs; induction vs as [|v vs IH]; intros c; [done|exact (IH c)]).
  induction s using Stmt_ind'; intros c0; cbn; unfold walk_then; rewrite ?app_nil_r, ?predicate_walk, ?Hes;
    try done.
  - destruct (walk_list _ c0) as [c'|]; [apply Hvs|done].
  - rewrite map_app, walk_list_app. apply option_bind_ext_fun. intros c'. apply predicate_walk.
  - rewrite map_app, walk_list_app. apply option_bind_ext_fun. intros c'. apply predicate_walk.
  - rewrite map_app, walk_list_app. apply option_bind_ext_fun. intros c'. rewrite Hvs. cbn.
    by apply walk_nested.
  - rewrite !map_app, !walk_list_app. apply option_bind_ext_fun. intros c'.
    rewrite (walk_nested predicate_stmt_walker stmt_notes take_note) by done. rewrite walk_list_app.
    apply option_bind_ext_fun. intros c2. by apply walk_nested.
Qed.

Definition method_notes (m : CfgMethod) : list note :=
  (concat (map (fun b => concat (map stmt_notes (CfgMethod.stmts b))) (basic_blocks m))
   ++ concat (map (fun b => match CfgMethod.successor b with
                            | Successor.GotoSwitch targets _ => concat (map (fun t => expr_notes (fst t)) targets)
                            | _ => []
                            end) (basic_blocks m)))%list.

Definition function_notes (f : Function) : list note :=
  (concat (map expr_notes (Function.pres f)) ++ concat (map expr_notes (Function.posts f))
   ++ match Function.body f with Some e => expr_notes e | None => [] end)%list.

(** All uses in the methods and functions of a program. *)
Definition program_notes (methods : list CfgMethod) (functions : list Function) : list note :=
  (concat (map method_notes methods) ++ concat (map function_notes functions))%list.

(** Walking a list of items is taking the notes of all of them. *)
Lemma walk_items {A} (w : A -> Walk UsedPredicateCollector) (items : A -> list note) (l : list A) c :
  (forall x c, x ∈ l -> w x c = walk_list (map take_note (items x)) c) ->
  walk_list (map w l) c = walk_list (map take_note (concat (map items l))) c.
Proof.
  intros Hw. rewrite walk_list_concat, map_map. apply walk_list_ext, Forall_forall. auto.
Qed.

Lemma method_walk m c :
  walk_method m predicate_stmt_walker predicate_walker c = walk_list (map take_note (method_notes m)) c.
Proof.
  unfold walk_method, walk_then, method_notes. rewrite map_app, walk_list_app.
  unfold walk_statements, walk_successors.
  rewrite (walk_items _ (fun b => concat (map stmt_notes (CfgMethod.stmts b)))).
  - apply option_bind_ext_fun. intros c'.
    apply (walk_items _ (fun b => match CfgMethod.successor b with
      | Successor.GotoSwitch targets _ => concat (map (fun t => expr_notes (fst t)) targets) | _ => [] end)).
    intros b c2 _. unfold walk_successor_guards. destruct (CfgMethod.successor b); try done.
    apply (walk_items _ (fun t => expr_notes (fst t))). intros t c3 _. apply predicate_walk.
  - intros b c' _. apply walk_items. intros s c2 _. apply predicate_stmt_walk.
Qed.

Lemma program_walk methods functions c :
  (c ← walk_methods methods predicate_stmt_walker predicate_walker c;
   walk_functions functions predicate_walker c)
  = walk_list (map take_note (program_notes methods functions)) c.
Proof.
  unfold program_notes. rewrite map_app, walk_list_app. unfold walk_methods, walk_functions.
  rewrite (walk_items _ method_notes) by (intros m c' _; apply method_walk).
  apply option_bind_ext_fun. intros c'. apply walk_items. intros f c2 _.
  unfold function_notes, walk_then.
  rewrite !map_app, !walk_list_app, (walk_items _ expr_notes) by (intros; apply predicate_walk).
  apply option_bind_ext_fun. intros c3. rewrite walk_list_app, (walk_items _ expr_notes) by (intros; apply predicate_walk).
  apply option_bind_ext_fun. intros c4. destruct (Function.body f); [apply predicate_walk|done].
Qed.

Lemma in_insert (s : HashSet.t string) n x : x ∈ HashSet.insert s n <-> x = n \/ x ∈ s.
Proof.
  rewrite !list_elem_of_In, <- !HashSet.contains_In, HashSet.contains_insert, orb_true_iff.
  by rewrite (peq_eq (A := string)).
Qed.

Lemma take_notes ns : forall c, exists c', walk_list (map take_note ns) c = Some c'
  /\ (forall n, n ∈ used_predicates c' <-> n ∈ used_predicates c \/ Use n ∈ ns)
  /\ (forall n, n ∈ folded_predicates c' <-> n ∈ folded_predicates c \/ FoldOf n ∈ ns).
Proof.
  induction ns as [|nt ns IH]; intros c.
  - exists c. split; [done|]. split; intros n; rewrite elem_of_nil; tauto.
  - cbn [map]. rewrite walk_list_cons.
    destruct nt as [n0|n0]; cbn [take_note mbind option_bind use_predicate fold_predicate];
      edestruct IH as (c' & E & Hu & Hf); exists c'; (split; [exact E|]); split; intros n;
      rewrite ?Hu, ?Hf; cbn [used_predicates folded_predicates];
      rewrite ?in_insert, elem_of_cons; intuition congruence.
Qed.

(** ** The map *)

Definition predicate_notes (p : Predicate) : list note :=
  match p with
  | Predicate.Struct p =>
      match StructPredicate.body p with Some e => expr_notes e | None => [] end
  | Predicate.Enum p =>
      (expr_notes (field_place (expr_of_var (EnumPredicate.this p)) (EnumPredicate.discriminant_field p))
       ++ expr_notes (EnumPredicate.discriminant_bounds p)
       ++ concat (map (fun v : Expr * string * StructPredicate =>
            let '(e, _, sp) := v in
            (expr_notes e ++ [Use (StructPredicate.name sp)]
             ++ match StructPredicate.body sp with Some e => expr_notes e | None => [] end))
            (EnumPredicate.variants p)))%list
  | Predicate.Bodyless _ _ => []
  end.

Lemma body_walk p w : predicate_body_walk p = Some w ->
  forall c, w c = walk_list (map take_note (predicate_notes p)) c.
Proof.
  destruct p as [p|p|]; cbn [predicate_body_walk predicate_notes];
    [destruct (StructPredicate.body p); [|done]| |done]; intros E c; apply (inj Some) in E; subst w.
  - apply predicate_walk.
  - unfold walk_then. rewrite !map_app, !walk_list_app, predicate_walk.
    apply option_bind_ext_fun. intros c2. rewrite walk_list_app, predicate_walk.
    apply option_bind_ext_fun. intros c3. apply walk_items. intros [[e nm] sp] c4 _.
    rewrite !map_app, walk_list_app, predicate_walk. apply option_bind_ext_fun. intros c5.
    rewrite walk_list_app. cbn [map take_note]. rewrite walk_list_one.
    apply option_bind_ext_fun. intros c6. destruct (StructPredicate.body sp); [apply predicate_walk|done].
Qed.

Definition has_entry (p : Predicate) : bool :=
  match predicate_body_walk p with Some _ => true | None => false end.

Lemma no_entry_notes p : has_entry p = false -> predicate_notes p = [].
Proof. destruct p as [p|p|]; cbn; try done. unfold has_entry. cbn. by destruct (StructPredicate.body p). Qed.

Lemma get_used_spec predicates : forall collector map,
  used_predicates collector = [] -> NoDup (HashMap.keys map) ->
  exists map', get_used_predicates_go predicates collector map = Some map'
    /\ NoDup (HashMap.keys map')
    /\ (NoDup (List.map Predicate.name predicates) -> forall n,
        match HashMap.get map' n with
        | Some s =>
            (exists p, p ∈ predicates /\ Predicate.name p = n /\ has_entry p = true
               /\ forall q, q ∈ s <-> Use q ∈ predicate_notes p)
            \/ HashMap.get map n = Some s
        | None => HashMap.get map n = None
                  /\ forall p, p ∈ predicates -> Predicate.name p = n -> has_entry p = false
        end).
Proof.
  induction predicates as [|p ps IH]; intros c mp Hc Hk; cbn [get_used_predicates_go].
  - exists mp. split; [done|]. split; [done|]. intros _ n. destruct (HashMap.get mp n); [by right|].
    split; [done|]. by intros p ?%elem_of_nil.
  - destruct (predicate_body_walk p) as [w|] eqn:Ew.
    + rewrite (body_walk p w Ew c). destruct (take_notes (predicate_notes p) c) as (c' & E & Hu & _).
      rewrite E. cbn [mbind option_bind].
      destruct (IH (make_collector [] (folded_predicates c'))
                  (HashMap.insert mp (Predicate.name p) (used_predicates c')) eq_refl)
        as (mp' & E' & Hk' & Hg); [by apply HashMap.nodup_insert|].
      exists mp'. split; [done|]. split; [done|]. cbn [List.map]. intros [Hn Hnd]%NoDup_cons n.
      specialize (Hg Hnd n). destruct (HashMap.get mp' n) as [s|].
      * destruct Hg as [(p' & Hp & Hg)|Hg]; [left; exists p'; split; [by right|done]|].
        rewrite HashMap.get_insert in Hg. destruct (n == Predicate.name p) eqn:En; [|by right].
        apply (peq_eq (A := string)) in En as ->. injection Hg as <-. left. exists p.
        split; [by left|]. split; [done|]. split; [unfold has_entry; by rewrite Ew|].
        intros q. rewrite Hu, Hc, elem_of_nil. tauto.
      * destruct Hg as [Hg Hall]. rewrite HashMap.get_insert in Hg.
        destruct (n == Predicate.name p) eqn:En; [done|]. split; [done|].
        intros p' [->|Hp]%elem_of_cons Hn'; [|by apply Hall].
        by rewrite <- Hn', peq_refl in En.
    + destruct (IH c mp Hc Hk) as (mp' & E' & Hk' & Hg). exists mp'. split; [done|]. split; [done|].
      cbn [List.map]. intros [Hn Hnd]%NoDup_cons n. specialize (Hg Hnd n).
      destruct (HashMap.get mp' n) as [s|].
      * destruct Hg as [(p' & Hp & Hg)|Hg]; [left; exists p'; split; [by right|done]|by right].
      * destruct Hg as [Hg Hall]. split; [done|]. intros p' [->|Hp]%elem_of_cons Hn'; [|by apply Hall].
        unfold has_entry. by rewrite Ew.
Qed.

(** ** Reachability *)

Section Reach.
Context (pm : HashMap.t string (HashSet.t string)).

Definition uses (p q : string) : Prop := exists s, HashMap.get pm p = Some s /\ q ∈ s.

(** The keys not visited yet. *)
Definition unvisited (visited : HashSet.t string) : nat :=
  length (List.filter (fun k => negb (HashSet.contains visited k)) (HashMap.keys pm)).

Lemma contains_in (s : HashSet.t string) n : HashSet.contains s n = true <-> n ∈ s.
Proof. by rewrite HashSet.contains_In, <- list_elem_of_In. Qed.

Lemma unvisited_mono s s' : (forall x, x ∈ s -> x ∈ s') -> unvisited s' <= unvisited s.
Proof.
  intros Hs. unfold unvisited. induction (HashMap.keys pm) as [|k ks IH]; cbn; [done|].
  destruct (HashSet.contains s k) eqn:E1, (HashSet.contains s' k) eqn:E2; cbn; try lia.
  apply contains_in, Hs, contains_in in E1. congruence.
Qed.

Lemma unvisited_insert s p : p ∉ s -> is_Some (HashMap.get pm p) ->
  unvisited (HashSet.insert s p) < unvisited s.
Proof.
  intros Hp Hk. assert (Hin : p ∈ HashMap.keys pm).
  { apply HashMap.contains_key_in. unfold HashMap.contains_key. destruct Hk as [? ->]. done. }
  unfold unvisited. revert Hin. induction (HashMap.keys pm) as [|k ks IH]; [by intros ?%elem_of_nil|].
  assert (Hle : forall ks, length (List.filter (fun k => negb (HashSet.contains (HashSet.insert s p) k)) ks)
                <= length (List.filter (fun k => negb (HashSet.contains s k)) ks)).
  { clear. induction ks as [|k ks IH]; cbn; [done|].
    destruct (HashSet.contains s k) eqn:E1, (HashSet.contains (HashSet.insert s p) k) eqn:E2; cbn; try lia.
    apply contains_in in E1. assert (k ∈ HashSet.insert s p) as E%contains_in by (apply in_insert; by right).
    congruence. }
  intros [->|Hin]%elem_of_cons; cbn.
  - assert (k ∈ HashSet.insert s k) as ->%contains_in by (apply in_insert; by left).
    destruct (HashSet.contains s k) eqn:E; [by apply contains_in in E|]. cbn. specialize (Hle ks). lia.
  - specialize (IH Hin). destruct (HashSet.contains s k) eqn:E1, (HashSet.contains (HashSet.insert s p) k) eqn:E2;
      cbn; try lia.
    apply contains_in in E1. assert (k ∈ HashSet.insert s p) as E%contains_in by (apply in_insert; by right).
    congruence.
Qed.

(** What a visit that starts at one of [roots] adds: names reachable from
    the roots, closed under [uses]. *)
Record visits (roots : list string) (visited visited' : HashSet.t string) : Prop := {
  v_sub : forall x, x ∈ visited -> x ∈ visited';
  v_roots : forall x, x ∈ roots -> x ∈ visited';
  v_reach : forall x, x ∈ visited' -> x ∈ visited \/ exists r, r ∈ roots /\ rtc uses r x;
  v_closed : forall x y, x ∈ visited' -> x ∉ visited -> uses x y -> y ∈ visited'
}.

Lemma visits_nil visited : visits [] visited visited.
Proof. split; [done| |by left|done]. by intros x ?%elem_of_nil. Qed.

Lemma visits_cons r rs v v1 v2 : visits [r] v v1 -> visits rs v1 v2 -> visits (r :: rs) v v2.
Proof.
  intros [S1 R1 P1 C1] [S2 R2 P2 C2]. split.
  - auto.
  - intros x [->|Hx]%elem_of_cons; [|auto]. apply S2, R1. by left.
  - intros x Hx. destruct (P2 x Hx) as [Hx1|(r' & Hr & Hx1)].
    + destruct (P1 x Hx1) as [?|(r' & ->%list_elem_of_singleton & ?)]; [by left|]. right. exists r.
      split; [by left|done].
    + right. exists r'. split; [by right|done].
  - intros x y Hx Hn Hu. destruct (decide (x ∈ v1)) as [Hx1|Hx1]; [|by eapply C2]. apply S2. by eapply C1.
Qed.

Lemma visit_each_spec fuel :
  (forall p v, unvisited v < fuel ->
     exists v', visit_predicate pm fuel p v = Some v' /\ visits [p] v v') ->
  forall ps v, unvisited v < fuel ->
    exists v', visit_each (visit_predicate pm fuel) ps v = Some v' /\ visits ps v v'.
Proof.
  intros Hv ps. induction ps as [|p ps IH]; intros v Hf; cbn [visit_each].
  - exists v. split; [done|apply visits_nil].
  - destruct (Hv p v Hf) as (v1 & E1 & H1). rewrite E1. cbn [mbind option_bind].
    destruct (IH v1) as (v2 & E2 & H2).
    { pose proof (unvisited_mono v v1 (v_sub _ _ _ H1)). lia. }
    exists v2. split; [done|]. by eapply visits_cons.
Qed.

Lemma visit_predicate_spec fuel : forall p v, unvisited v < fuel ->
  exists v', visit_predicate pm fuel p v = Some v' /\ visits [p] v v'.
Proof.
  induction fuel as [|fuel IH]; intros p v Hf; [lia|]. cbn [visit_predicate].
  destruct (HashSet.contains v p) eqn:Ec.
  { apply contains_in in Ec. exists v. split; [done|]. split; [done| |by left|done].
    by intros x ->%list_elem_of_singleton. }
  assert (Hp : p ∉ v) by (intros ?%contains_in; congruence).
  destruct (HashMap.get pm p) as [s|] eqn:Eg.
  - assert (Hlt : unvisited (HashSet.insert v p) < fuel)
      by (pose proof (unvisited_insert v p Hp ltac:(by eexists)); lia).
    destruct (visit_each_spec fuel IH s (HashSet.insert v p) Hlt) as (v' & E & [Hs Hr Hre Hcl]).
    exists v'. split; [done|]. split.
    + intros x Hx. apply Hs, in_insert. by right.
    + intros x ->%list_elem_of_singleton. apply Hs, in_insert. by left.
    + intros x Hx. destruct (Hre x Hx) as [[->|?]%in_insert|(r & Hrs & Hrx)]; [right|by left|right].
      * exists p. split; [by left|constructor].
      * exists p. split; [by left|]. apply rtc_l with r; [by exists s|done].
    + intros x y Hx Hn Hu. destruct (decide (x = p)) as [->|Hne].
      * destruct Hu as (s' & Hs' & Hy). rewrite Eg in Hs'. injection Hs' as <-. by apply Hr.
      * apply (Hcl x); [done| |done]. rewrite in_insert. tauto.
  - exists (HashSet.insert v p). split; [done|]. split.
    + intros x Hx. apply in_insert. by right.
    + intros x ->%list_elem_of_singleton. apply in_insert. by left.
    + intros x [->|?]%in_insert; [right|by left]. exists p. split; [by left|constructor].
    + intros x y [->|?]%in_insert Hn; [|done]. intros (s & Hs & _). congruence.
Qed.

Lemma compute_reachable_spec used :
  exists r, compute_reachable_predicates pm used = Some r
    /\ forall n, n ∈ r <-> exists u, u ∈ used /\ rtc uses u n.
Proof.
  unfold compute_reachable_predicates.
  destruct (visit_each_spec _ (visit_predicate_spec (S (length pm))) used []) as (r & E & [_ Hr Hre Hcl]).
  { unfold unvisited, HashMap.keys. pose proof (List.filter_length_le
      (fun k => negb (HashSet.contains [] k)) (map fst pm)) as Hle. rewrite length_map in Hle. lia. }
  exists r. split; [done|]. intros n. split.
  - intros Hn. destruct (Hre n Hn) as [?%elem_of_nil|?]; done.
  - intros (u & Hu & Hrt). apply Hr in Hu. revert Hu. induction Hrt as [|x y z Hxy _ IH]; [done|].
    intros Hx. apply IH. apply (Hcl x); [done|by intros ?%elem_of_nil|done].
Qed.
End Reach.

(** ** The theorem *)

Lemma drop_body_name folded p : Predicate.name (drop_body folded p) = Predicate.name p.
Proof. unfold drop_body. destruct (HashSet.contains _ _); [done|]. by destruct p. Qed.

(** Predicate [p] loses its entry in the map. *)
Definition loses_entry (folded : HashSet.t string) (p : Predicate) : bool :=
  negb (HashSet.contains folded (Predicate.name p))
  && match p with Predicate.Struct _ => true | _ => false end.

Lemma drop_entries_get folded ps : forall map n, NoDup (HashMap.keys map) ->
  HashMap.get (foldl (drop_entry folded) map ps) n
  = if existsb (fun p => loses_entry folded p && (n == Predicate.name p)) ps then None
    else HashMap.get map n.
Proof.
  induction ps as [|p ps IH]; intros mp n Hk; [done|]. cbn [foldl existsb].
  unfold drop_entry, loses_entry at 1. destruct (HashSet.contains folded (Predicate.name p)); [by apply IH|].
  cbn [negb andb]. destruct p as [sp| |]; cbn [andb orb]; try by apply IH.
  rewrite IH by (by apply HashMap.nodup_remove). rewrite HashMap.get_remove by done.
  destruct (existsb _ ps); [by rewrite orb_true_r|]. rewrite orb_false_r. done.
Qed.

(** In the program after the bodies are dropped, the body of the predicate
    named [p] mentions [q]. *)
Definition mentions (folded : HashSet.t string) (predicates : list Predicate) (p q : string) : Prop :=
  exists pr, pr ∈ predicates /\ Predicate.name pr = p /\ Use q ∈ predicate_notes (drop_body folded pr).

Lemma nodup_name (ps : list Predicate) p p' :
  NoDup (map Predicate.name ps) -> p ∈ ps -> p' ∈ ps -> Predicate.name p = Predicate.name p' -> p = p'.
Proof.
  intros Hnd [i Hi]%list_elem_of_lookup_1 [j Hj]%list_elem_of_lookup_1 E.
  assert (i = j) as ->; [|congruence].
  eapply NoDup_lookup; [exact Hnd| |]; rewrite list_lookup_fmap; [by rewrite Hi|by rewrite Hj, E].
Qed.

Lemma loses_entry_notes folded p :
  loses_entry folded p = true -> predicate_notes (drop_body folded p) = [].
Proof.
  unfold loses_entry, drop_body. destruct (HashSet.contains _ _); [done|]. by destruct p.
Qed.

Lemma keeps_entry_notes folded p : loses_entry folded p = false -> drop_body folded p = p.
Proof. unfold loses_entry, drop_body. destruct (HashSet.contains _ _); [done|]. by destruct p. Qed.

Lemma uses_mentions folded predicates pm0 :
  NoDup (map Predicate.name predicates) ->
  get_used_predicates_in_predicate_map predicates = Some pm0 ->
  forall p q, uses (foldl (drop_entry folded) pm0 predicates) p q <-> mentions folded predicates p q.
Proof.
  intros Hnd E p q.
  destruct (get_used_spec predicates (make_collector [] []) HashMap.empty eq_refl) as (pm & E' & Hk & Hg);
    [constructor|].
  unfold get_used_predicates_in_predicate_map in E. rewrite E in E'. injection E' as <-.
  specialize (Hg Hnd p). unfold uses, mentions. rewrite (drop_entries_get folded predicates pm0 p Hk).
  destruct (existsb _ predicates) eqn:Ex.
  - split; [by intros (s & ? & _)|]. intros (pr & Hpr & Hn & Hu). exfalso.
    apply existsb_exists in Ex as (p' & Hp' & [Hl Hn']%andb_true_iff). apply list_elem_of_In in Hp'.
    apply (peq_eq (A := string)) in Hn'.
    assert (pr = p') as -> by (eapply nodup_name; [done..|congruence]).
    rewrite (loses_entry_notes folded p' Hl) in Hu. by apply elem_of_nil in Hu.
  - assert (Hkeep : forall pr, pr ∈ predicates -> Predicate.name pr = p -> drop_body folded pr = pr).
    { intros pr Hpr Hn. apply keeps_entry_notes. destruct (loses_entry folded pr) eqn:El; [|done].
      exfalso. rewrite <- not_true_iff_false in Ex. apply Ex, existsb_exists. exists pr.
      split; [by apply list_elem_of_In|]. rewrite El, Hn. by rewrite peq_refl. }
    destruct (HashMap.get pm0 p) as [s|].
    + destruct Hg as [(pr & Hpr & Hn & _ & Hs)|]; [|done]. split.
      * intros (s' & [= <-] & Hq). exists pr. split; [done|]. split; [done|]. rewrite Hkeep by done. by apply Hs.
      * intros (pr' & Hpr' & Hn' & Hu). rewrite Hkeep in Hu by done. exists s. split; [done|].
        assert (pr' = pr) as -> by (eapply nodup_name; [done..|congruence]). by apply Hs.
    + destruct Hg as [_ Hall]. split; [by intros (s & ? & _)|]. intros (pr & Hpr & Hn & Hu).
      rewrite Hkeep in Hu by done. rewrite (no_entry_notes pr (Hall pr Hpr Hn)) in Hu. by apply elem_of_nil in Hu.
Qed.

Lemma collect_info_spec methods functions :
  exists c, collect_info_from_methods_and_functions methods functions = Some c
    /\ (forall n, n ∈ used_predicates c <-> Use n ∈ program_notes methods functions \/ n = "DeadBorrowToken$")
    /\ (forall n, n ∈ folded_predicates c <-> FoldOf n ∈ program_notes methods functions).
Proof.
  destruct (take_notes (program_notes methods functions) (make_collector [] [])) as (c & E & Hu & Hf).
  rewrite <- program_walk in E. unfold collect_info_from_methods_and_functions.
  apply bind_Some in E as (c0 & E0 & E1). rewrite E0. cbn [mbind option_bind]. rewrite E1. cbn.
  eexists. split; [done|]. cbn. split; intros n; rewrite ?in_insert, ?Hu, ?Hf, elem_of_nil; tauto.
Qed.

Theorem delete_unused_predicates_spec methods functions predicates :
  NoDup (map Predicate.name predicates) ->
  exists result folded,
    delete_unused_predicates methods functions predicates = Some result
    /\ (forall n, HashSet.contains folded n = true <-> FoldOf n ∈ program_notes methods functions)
    /\ sublist result (map (drop_body folded) predicates)
    /\ forall p, p ∈ predicates ->
         (drop_body folded p ∈ result
          <-> exists u, (Use u ∈ program_notes methods functions \/ u = "DeadBorrowToken$")
                        /\ rtc (mentions folded predicates) u (Predicate.name p)).
Proof.
  intros Hnd. destruct (collect_info_spec methods functions) as (c & Ec & Hu & Hf).
  destruct (get_used_spec predicates (make_collector [] []) HashMap.empty eq_refl) as (pm & Em & _ & _);
    [constructor|].
  pose proof (uses_mentions (folded_predicates c) predicates pm Hnd Em) as Hm.
  destruct (compute_reachable_spec (foldl (drop_entry (folded_predicates c)) pm predicates) (used_predicates c))
    as (r & Er & Hr).
  eexists _, (folded_predicates c). unfold delete_unused_predicates. rewrite Ec. cbn [mbind option_bind].
  unfold get_used_predicates_in_predicate_map. rewrite Em. cbn [mbind option_bind]. rewrite Er.
  cbn [mbind option_bind]. split; [done|]. split; [intros n; by rewrite contains_in, Hf|]. split.
  - generalize (map (drop_body (folded_predicates c)) predicates). intros l.
    induction l as [|x l IH]; cbn; [constructor|]. destruct (HashSet.contains r _); by constructor.
  - intros p Hp. rewrite list_elem_of_In, filter_In, drop_body_name, contains_in, Hr.
    assert (Hin : In (drop_body (folded_predicates c) p) (map (drop_body (folded_predicates c)) predicates))
      by (by apply in_map, list_elem_of_In).
    split.
    + intros [_ (u & Hu' & Hrt)]. exists u. split; [by apply Hu|].
      revert Hrt. apply rtc_subrel. intros a b. apply Hm.
    + intros (u & Hu' & Hrt). split; [done|]. exists u. split; [by apply Hu|].
      revert Hrt. apply rtc_subrel. intros a b. apply Hm.
Qed.

(** [A] mentions [B] and is unfolded, [C] is only mentioned, [D] is unused. *)
Definition sample_predicates : list Predicate :=
  let mk n body := Predicate.Struct (StructPredicate.make n (LocalVar.new "self" (Ty.TypedRef n)) body) in
  let acc n := Ex.predicate_access_predicate n (expr_of_var (LocalVar.new "self" (Ty.TypedRef "A"))) PermAmount.Write in
  [mk "A" (Some (Ex.and (acc "B") (acc "C"))); mk "B" (Some (acc "D")); mk "C" None; mk "D" None].

Definition sample_user : CfgMethod :=
  CfgMethod.make 7%Z "m" 0 [] [] [] []
    [CfgMethod.make_block [Stmt.Unfold "A" [] PermAmount.Write None] Successor.Return] ["start"] 0%Z 0%Z.

Lemma delete_unused_predicates_spec_witness :
  exists result folded,
    delete_unused_predicates [sample_user] [] sample_predicates = Some result
    /\ map Predicate.name result = ["A"; "B"; "C"]
    /\ forall p, p ∈ sample_predicates ->
         (drop_body folded p ∈ result
          <-> exists u, (Use u ∈ program_notes [sample_user] [] \/ u = "DeadBorrowToken$")
                        /\ rtc (mentions folded sample_predicates) u (Predicate.name p)).
Proof.
  destruct (delete_unused_predicates_spec [sample_user] [] sample_predicates) as (r & f & E & _ & _ & H).
  - cbn. repeat constructor; rewrite ?elem_of_cons, ?elem_of_nil; intuition discriminate.
  - exists r, f. split; [exact E|]. split; [|exact H]. vm_compute in E. injection E as <-. reflexivity.
Defined.
