(* ===== verification/Display.v ===== *)
(** * Printing of expressions and statements

    The [Display] implementations of [ast/expr.rs], [ast/trigger.rs],
    [ast/predicate.rs] (variants), [ast/stmt.rs] and [cfg/display.rs], and
    the [Debug] ones of [borrows.rs] they use.  The text ends up in comments,
    in labels of graphs and in error messages.

    Printing panics on a sequence literal whose type is not a sequence, so
    the functions return options. *)

From Stdlib Require Import Ascii.
From stdpp Require Import pretty.
From S2P Require Import Prelude Ast ExprEq ExprPlace ExprTransformers ExprOps Borrows Stmt Cfg.

(** [Vec<String>::join]. *)
Fixpoint str_join (sep : string) (l : list string) : string :=
  match l with
  | [] => ""
  | [x] => x
  | x :: l' => x ++ sep ++ str_join sep l'
  end.

Definition nl : string := String (ascii_of_nat 10) "".

(** [writeln!]. *)
Definition line (s : string) : string := s ++ nl.

Definition bool_to_string (b : bool) : string := if b then "true" else "false".

(** [Debug] of a borrow and of an optional borrow. *)
Definition borrow_debug (b : Borrow) : string := "L" ++ pretty (Borrow.borrow_id b).

Definition option_borrow_debug (b : option Borrow) : string :=
  match b with
  | Some b => "Some(" ++ borrow_debug b ++ ")"
  | None => "None"
  end.

Definition dag_debug {S} (dag : DAG.DAG S) : string :=
  "ReborrowingDAG("
  ++ str_join "" (map (fun n => borrow_debug (DAG.borrow n) ++ ",") (DAG.nodes dag)) ++ ")".

Definition const_to_string (c : Const) : string :=
  match c with
  | Const.Bool val => bool_to_string val
  | Const.Int val => pretty val
  | Const.BigInt val => val
  | Const.FnPtr => "FnPtr"
  end.

(** The predicate of a fold or unfold, with the variant. *)
Definition pred_with_variant (pred_name : string) (variant : MaybeEnumVariantIndex) : string :=
  match variant with
  | Some variant_index => pred_name ++ "<variant " ++ EnumVariantIndex.to_string variant_index ++ ">"
  | None => pred_name
  end.

Fixpoint expr_to_string (self : Expr) : option string :=
  let join := fun es => str_join ", " <$> mapM_opt expr_to_string es in
  let quantifier := fun (q : string) vars ts body =>
    triggers ← mapM_opt (fun t => es ← mapM_opt expr_to_string (Trigger.elements t);
                                  Some ("{" ++ str_join ", " es ++ "}")) ts;
    b ← expr_to_string body;
    Some (q ++ " " ++ str_join ", " (map LocalVar.to_debug_string vars) ++ " "
          ++ str_join ", " triggers ++ " :: " ++ b) in
  match self with
  | Expr.Local v _ => Some (LocalVar.to_string v)
  | Expr.Variant base variant_index _ =>
      b ← expr_to_string base; Some (b ++ "[" ++ Field.to_string variant_index ++ "]")
  | Expr.Field base field _ => b ← expr_to_string base; Some (b ++ "." ++ Field.to_string field)
  | Expr.AddrOf base _ _ => b ← expr_to_string base; Some ("&(" ++ b ++ ")")
  | Expr.Const value _ => Some (const_to_string value)
  | Expr.BinOp op lhs rhs _ =>
      l ← expr_to_string lhs; r ← expr_to_string rhs;
      Some ("(" ++ l ++ ") " ++ BinOpKind.to_string op ++ " (" ++ r ++ ")")
  | Expr.ContainerOp op lhs rhs _ =>
      l ← expr_to_string lhs;
      match op with
      | ContainerOpKind.SeqIndex => r ← expr_to_string rhs; Some (l ++ "[" ++ r ++ "]")
      | ContainerOpKind.SeqConcat => r ← expr_to_string rhs; Some (l ++ " ++ " ++ r)
      | ContainerOpKind.SeqLen => Some ("|" ++ l ++ "|")
      end
  | Expr.Seq ty elems _ =>
      elems_printed ← join elems;
      match ty with
      | Ty.Seq elem_ty => Some ("Seq[" ++ Ty.to_string elem_ty ++ "](" ++ elems_printed ++ ")")
      | _ => None
      end
  | Expr.UnaryOp op expr _ =>
      e ← expr_to_string expr; Some (UnaryOpKind.to_string op ++ "(" ++ e ++ ")")
  | Expr.PredicateAccessPredicate pred_name arg perm _ =>
      a ← expr_to_string arg;
      Some ("acc(" ++ pred_name ++ "(" ++ a ++ "), " ++ PermAmount.to_string perm ++ ")")
  | Expr.FieldAccessPredicate expr perm _ =>
      e ← expr_to_string expr; Some ("acc(" ++ e ++ ", " ++ PermAmount.to_string perm ++ ")")
  | Expr.LabelledOld label expr _ =>
      e ← expr_to_string expr; Some ("old[" ++ label ++ "](" ++ e ++ ")")
  | Expr.MagicWand lhs rhs borrow _ =>
      l ← expr_to_string lhs; r ← expr_to_string rhs;
      Some ("(" ++ l ++ ") " ++ option_borrow_debug borrow ++ " --* (" ++ r ++ ")")
  | Expr.Unfolding pred_name args expr perm variant _ =>
      a ← join args; e ← expr_to_string expr;
      Some ("(unfolding acc(" ++ pred_with_variant pred_name variant ++ "(" ++ a ++ "), "
            ++ PermAmount.to_string perm ++ ") in " ++ e ++ ")")
  | Expr.Cond guard lhs rhs _ =>
      g ← expr_to_string guard; l ← expr_to_string lhs; r ← expr_to_string rhs;
      Some ("(" ++ g ++ ")?(" ++ l ++ "):(" ++ r ++ ")")
  | Expr.ForAll vars triggers body _ => quantifier "forall" vars triggers body
  | Expr.Exists vars triggers body _ => quantifier "exists" vars triggers body
  | Expr.LetExpr var expr body _ =>
      e ← expr_to_string expr; b ← expr_to_string body;
      Some ("(let " ++ LocalVar.to_debug_string var ++ " == (" ++ e ++ ") in " ++ b ++ ")")
  | Expr.FuncApp name args params typ _ =>
      a ← join args;
      Some (name ++ "<" ++ str_join ", " (map (fun p => Ty.to_string (LocalVar.typ p)) params)
            ++ "," ++ Ty.to_string typ ++ ">(" ++ a ++ ")")
  | Expr.DomainFuncApp function args _ =>
      a ← join args; Some (DomainFunc.name function ++ "(" ++ a ++ ")")
  | Expr.InhaleExhale inhale_expr exhale_expr _ =>
      i ← expr_to_string inhale_expr; e ← expr_to_string exhale_expr;
      Some ("[(" ++ i ++ "), (" ++ e ++ ")]")
  | Expr.Downcast base enum_place field =>
      p ← expr_to_string enum_place; b ← expr_to_string base;
      Some ("(downcast " ++ p ++ " to " ++ Field.to_string field ++ " in " ++ b ++ ")")
  | Expr.SnapApp expr _ => e ← expr_to_string expr; Some ("snap(" ++ e ++ ")")
  end.

Definition exprs_to_string (es : list Expr) : option string :=
  str_join ", " <$> mapM_opt expr_to_string es.

Definition trigger_to_string (t : Trigger) : option string :=
  es ← exprs_to_string (Trigger.elements t); Some ("{" ++ es ++ "}").

(** Statements in a block are indented. *)
Definition indented (s : string) : string := line ("    " ++ str_replace s nl (nl ++ "    ")).

Definition print_block (stmts : list string) : string :=
  "{" ++ (match stmts with [] => "" | _ => nl end) ++ str_join "" (map indented stmts) ++ "}".

Fixpoint stmt_to_string (self : Stmt) : option string :=
  match self with
  | Stmt.Comment comment => Some ("// " ++ comment)
  | Stmt.Label label => Some ("label " ++ label)
  | Stmt.Inhale expr => e ← expr_to_string expr; Some ("inhale " ++ e)
  | Stmt.Exhale expr _ => e ← expr_to_string expr; Some ("exhale " ++ e)
  | Stmt.Assert expr _ => e ← expr_to_string expr; Some ("assert " ++ e)
  | Stmt.MethodCall name args vars =>
      a ← exprs_to_string args;
      Some (str_join ", " (map LocalVar.to_string vars) ++ " := " ++ name ++ "(" ++ a ++ ")")
  | Stmt.Assign lhs rhs kind =>
      l ← expr_to_string lhs; r ← expr_to_string rhs;
      Some match kind with
           | AssignKind.Move => l ++ " := move " ++ r
           | AssignKind.Copy => l ++ " := copy " ++ r
           | AssignKind.MutableBorrow borrow => l ++ " := mut borrow " ++ r ++ " // " ++ borrow_debug borrow
           | AssignKind.SharedBorrow borrow => l ++ " := borrow " ++ r ++ " // " ++ borrow_debug borrow
           | AssignKind.Ghost => l ++ " := ghost " ++ r
           end
  | Stmt.Fold pred_name args perm variant _ =>
      a ← exprs_to_string args;
      Some ("fold acc(" ++ pred_with_variant pred_name variant ++ "(" ++ a ++ "), "
            ++ PermAmount.to_string perm ++ ")")
  | Stmt.Unfold pred_name args perm variant =>
      a ← exprs_to_string args;
      Some ("unfold acc(" ++ pred_with_variant pred_name variant ++ "(" ++ a ++ "), "
            ++ PermAmount.to_string perm ++ ")")
  | Stmt.Obtain expr _ => e ← expr_to_string expr; Some ("obtain " ++ e)
  | Stmt.BeginFrame => Some "begin frame"
  | Stmt.EndFrame => Some "end frame"
  | Stmt.TransferPerm lhs rhs unchecked =>
      l ← expr_to_string lhs; r ← expr_to_string rhs;
      Some ("transfer perm " ++ l ++ " --> " ++ r ++ " // unchecked: " ++ bool_to_string unchecked)
  | Stmt.PackageMagicWand magic_wand package_stmts label _ _ =>
      head ← match magic_wand with
             | Expr.MagicWand lhs rhs None _ =>
                 l ← expr_to_string lhs; r ← expr_to_string rhs;
                 Some (line ("package[" ++ label ++ "] " ++ l) ++ line ("    --* " ++ r))
             | _ => w ← expr_to_string magic_wand; Some (line ("package[" ++ label ++ "] " ++ w))
             end;
      body ← mapM_opt stmt_to_string package_stmts;
      Some (head ++ print_block body)
  | Stmt.ApplyMagicWand magic_wand _ =>
      match magic_wand with
      | Expr.MagicWand lhs rhs (Some borrow) _ =>
          l ← expr_to_string lhs; r ← expr_to_string rhs;
          Some (line ("apply[" ++ borrow_debug borrow ++ "] " ++ l ++ " --* " ++ r))
      | _ => w ← expr_to_string magic_wand; Some (line ("apply " ++ w))
      end
  | Stmt.ExpireBorrows dag => Some (line ("expire_borrows " ++ dag_debug dag))
  | Stmt.If guard then_stmts else_stmts =>
      g ← expr_to_string guard;
      t ← mapM_opt stmt_to_string then_stmts;
      e ← mapM_opt stmt_to_string else_stmts;
      Some ("if " ++ g ++ " " ++ print_block t ++ " else " ++ print_block e)
  | Stmt.Downcast e v => e ← expr_to_string e; Some (line ("downcast " ++ e ++ " to " ++ Field.to_string v))
  end.

(** ** Control flow graphs *)

Definition block_index_to_string (self : CfgBlockIndex) : string := "cfg:" ++ pretty (block_index self).

Definition successor_to_string (self : Successor) : option string :=
  match self with
  | Successor.Undefined => Some (line "Undefined")
  | Successor.Return => Some (line "Return")
  | Successor.Goto target => Some (line ("Goto(" ++ block_index_to_string target ++ ")"))
  | Successor.GotoSwitch guarded_targets default_target =>
      ts ← mapM_opt (fun gt => g ← expr_to_string (fst gt);
                              Some ("(" ++ g ++ ", " ++ block_index_to_string (snd gt) ++ ")")) guarded_targets;
      Some (line ("GotoSwitch(" ++ str_join ", " ts ++ ", " ++ block_index_to_string default_target ++ ")"))
  end.
