(* ===== verification/Perm.v ===== *)
(** * Permissions, actions and sets of places

    [prusti-viper/src/encoder/foldunfold]: [perm.rs], [action.rs],
    [places_utils.rs] and the error type of [mod.rs].

    A [HashSet] of permissions and a [HashMap] from places to amounts are
    the sets and maps of [Collections]; they are iterated in insertion
    order. *)

From Stdlib Require Import Lia.
From S2P Require Import Prelude Ast ExprEq ExprPlace ExprTransformers ExprOps Collections Borrows Stmt.
From S2P Require Import Cfg Display.

(** ** [perm.rs] *)

Module Perm.
(** An access or predicate permission to a place. *)
Inductive Perm : Type :=
  | Acc (place : Expr) (perm_amount : PermAmount)
  | Pred (place : Expr) (perm_amount : PermAmount).

(** [derive(PartialEq)]. *)
Definition eqb (a b : Perm) : bool :=
  match a, b with
  | Acc p x, Acc q y | Pred p x, Pred q y => (p == q) && (x == y)
  | _, _ => false
  end.

Definition is_acc (self : Perm) : bool := match self with Acc _ _ => true | _ => false end.
Definition is_pred (self : Perm) : bool := match self with Pred _ _ => true | _ => false end.

Definition get_place (self : Perm) : Expr := match self with Acc place _ | Pred place _ => place end.
Definition get_perm_amount (self : Perm) : PermAmount := match self with Acc _ p | Pred _ p => p end.

Definition is_curr (self : Perm) : bool := ExprPlace.is_curr (get_place self).
Definition is_local (self : Perm) : bool := ExprPlace.is_local (get_place self).
Definition typed_ref_name (self : Perm) : option (option string) := ExprPlace.typed_ref_name (get_place self).
Definition get_label (self : Perm) : option string := ExprPlace.get_label (get_place self).

(** The closure may panic. *)
Definition map_place (self : Perm) (f : Expr -> option Expr) : option Perm :=
  match self with
  | Acc place fr => place ← f place; Some (Acc place fr)
  | Pred place fr => place ← f place; Some (Pred place fr)
  end.

Definition has_proper_prefix (self : Perm) (other : Expr) : option bool :=
  ExprPlace.has_proper_prefix (get_place self) other.

Definition with_amount (self : Perm) (new_perm : PermAmount) : Perm :=
  match self with
  | Acc expr _ => Acc expr new_perm
  | Pred expr _ => Pred expr new_perm
  end.

Definition init_perm_amount (self : Perm) (new_perm : PermAmount) : option Perm :=
  _ ← assert_ (PermAmount.is_valid_for_specs new_perm);
  match get_perm_amount self with
  | PermAmount.Remaining => None
  | _ => Some (with_amount self new_perm)
  end.

Definition update_perm_amount (self : Perm) (new_perm : PermAmount) : option Perm :=
  _ ← assert_ (PermAmount.is_valid_for_specs (get_perm_amount self));
  _ ← assert_ (PermAmount.is_valid_for_specs new_perm);
  Some (with_amount self new_perm).

Definition set_default_pos (self : Perm) (pos : Position) : option Perm :=
  map_place self (fun expr => ExprOps.set_default_pos expr pos).

Definition to_string (self : Perm) : option string :=
  p ← expr_to_string (get_place self);
  Some ((if is_acc self then "Acc(" else "Pred(") ++ p ++ ", "
        ++ PermAmount.to_string (get_perm_amount self) ++ ")").
End Perm.
Abbreviation Perm := Perm.Perm.

#[export] Instance Perm_PartialEq : PartialEq Perm := Perm.eqb.

(** A set of permissions. *)
Module PermSet.
Record PermSet : Type := make {
  acc_perms : HashMap.t Expr PermAmount;
  pred_perms : HashMap.t Expr PermAmount
}.

Definition empty : PermSet := make HashMap.empty HashMap.empty.

(** Corresponds to an [inhale]; the amount of the permission is ignored. *)
Definition add (self : PermSet) (perm : Perm) : PermSet :=
  match perm with
  | Perm.Acc place perm_amount => make (HashMap.insert (acc_perms self) place perm_amount) (pred_perms self)
  | Perm.Pred place perm_amount => make (acc_perms self) (HashMap.insert (pred_perms self) place perm_amount)
  end.

Definition perms (self : PermSet) : list Perm :=
  (map (fun e => Perm.Acc (fst e) (snd e)) (acc_perms self)
   ++ map (fun e => Perm.Pred (fst e) (snd e)) (pred_perms self))%list.
End PermSet.
Abbreviation PermSet := PermSet.PermSet.

(** [PermIterator]. *)
Definition collect_curr (perms : list Perm) : list Perm := List.filter Perm.is_curr perms.

Definition group_by_label (perms : list Perm) : HashMap.t (option string) (list Perm) :=
  foldl (fun res_perms perm =>
    let label := Perm.get_label perm in
    HashMap.insert res_perms label
      ((match HashMap.get res_perms label with Some ps => ps | None => [] end) ++ [perm])%list)
    HashMap.empty perms.

(** Set difference: it does not panic if [left] has less permission than
    [right], but it does when it has more. *)
Fixpoint place_perm_difference (left : HashMap.t Expr PermAmount) (right : list (Expr * PermAmount)) :
    option (HashMap.t Expr PermAmount) :=
  match right with
  | [] => Some left
  | (place, right_perm_amount) :: rest =>
      left ← match HashMap.get left place with
             | Some left_perm_amount =>
                 match left_perm_amount, right_perm_amount with
                 | PermAmount.Read, PermAmount.Read
                 | PermAmount.Read, PermAmount.Write
                 | PermAmount.Write, PermAmount.Write => Some (HashMap.remove left place)
                 | _, _ => None
                 end
             | None => Some left
             end;
      place_perm_difference left rest
  end.

(** [filter(..).map(|p| (place, amount)).collect()]. *)
Definition amounts_of (f : Perm -> bool) (perms : HashSet.t Perm) : HashMap.t Expr PermAmount :=
  HashMap.from_list (map (fun p => (Perm.get_place p, Perm.get_perm_amount p)) (List.filter f perms)).

Definition perm_difference (left right : HashSet.t Perm) : option (HashSet.t Perm) :=
  acc ← place_perm_difference (amounts_of Perm.is_acc left) (amounts_of Perm.is_acc right);
  pred ← place_perm_difference (amounts_of Perm.is_pred left) (amounts_of Perm.is_pred right);
  Some (HashSet.from_list (map (fun e => Perm.Acc (fst e) (snd e)) acc
                           ++ map (fun e => Perm.Pred (fst e) (snd e)) pred)).

(** ** Errors *)

Inductive FoldUnfoldError : Type :=
  | FailedToObtain (p : Perm)
  | RequiresFolding (pred : string) (args : list Expr) (perm : PermAmount)
      (variant : MaybeEnumVariantIndex) (pos : Position)
  | InvalidPermAmountAdd (msg : string)
  | InvalidPermAmountSub (msg : string)
  | MissingPredicate (name : string)
  | FailedToRemovePred (place : Expr)
  | MissingLabel (label : string)
  | Unsupported (msg : string).

(** [impl From<PermAmountError>]: what [?] does on an error of [add] or [sub]. *)
Definition of_perm_amount_error (err : PermAmount.PermAmountError) : FoldUnfoldError :=
  match err with
  | PermAmount.InvalidAdd a b =>
      InvalidPermAmountAdd ("invalid addition: " ++ PermAmount.to_string a ++ " + " ++ PermAmount.to_string b)
  | PermAmount.InvalidSub a b =>
      InvalidPermAmountSub ("invalid substraction: " ++ PermAmount.to_string a ++ " - " ++ PermAmount.to_string b)
  end.

Definition map_err {E E' A} (f : E -> E') (o : outcome E A) : outcome E' A :=
  match o with
  | Val a => Val a
  | Err e => Err (f e)
  | Panic => Panic
  end.

Definition amount_add (a b : PermAmount) : outcome FoldUnfoldError PermAmount :=
  map_err of_perm_amount_error (PermAmount.add a b).

Definition amount_sub (a b : PermAmount) : outcome FoldUnfoldError PermAmount :=
  map_err of_perm_amount_error (PermAmount.sub a b).

(** ** [action.rs] *)

Module Action.
Inductive Action : Type :=
  | Fold (pred : string) (args : list Expr) (perm_amount : PermAmount)
      (variant : MaybeEnumVariantIndex) (pos : Position)
  | Unfold (pred : string) (args : list Expr) (perm_amount : PermAmount)
      (variant : MaybeEnumVariantIndex)
  (** The dropped permission and the missing permission that caused it to be
      dropped. *)
  | Drop (perm missing_perm : Perm).

(** [Display]: panics only on expressions that cannot be printed. *)
Definition to_string (self : Action) : option string :=
  match self with
  | Fold pred args perm_amount variant pos => stmt_to_string (Stmt.Fold pred args perm_amount variant pos)
  | Unfold pred args perm_amount variant => stmt_to_string (Stmt.Unfold pred args perm_amount variant)
  | Drop perm missing_perm =>
      p ← Perm.to_string perm; m ← Perm.to_string missing_perm; Some ("drop " ++ p ++ " (" ++ m ++ ")")
  end.

Definition to_stmt (self : Action) : option Stmt :=
  match self with
  | Fold pred args perm_amount variant pos => Some (Stmt.Fold pred args perm_amount variant pos)
  | Unfold pred args perm_amount variant => Some (Stmt.Unfold pred args perm_amount variant)
  | Drop _ _ => Stmt.Comment <$> to_string self
  end.

(** Folding inside an expression is not supported by Viper. *)
Definition to_expr (self : Action) (inner_expr : Expr) : outcome FoldUnfoldError Expr :=
  match self with
  | Fold pred args perm variant position => Err (RequiresFolding pred args perm variant position)
  | Unfold pred args perm variant => Val (Ex.unfolding pred args inner_expr perm variant)
  | Drop _ _ => Val inner_expr
  end.
End Action.
Abbreviation Action := Action.Action.

(** ** [places_utils.rs] *)

(** Is [place] a proper extension of some element of [places]?  The loop
    stops at the first one. *)
Fixpoint extends_some (place : Expr) (places : list Expr) : option bool :=
  match places with
  | [] => Some false
  | other :: rest =>
      b ← has_proper_prefix place other;
      if (b : bool) then Some true else extends_some place rest
  end.

(** The loops over [left] that insert the items with the given answer. *)
Fixpoint filter_extensions (keep : bool) (left right : list Expr) (res : HashSet.t Expr) :
    option (HashSet.t Expr) :=
  match left with
  | [] => Some res
  | left_item :: rest =>
      b ← extends_some left_item right;
      filter_extensions keep rest right (if Bool.eqb b keep then HashSet.insert res left_item else res)
  end.

Definition filter_proper_extensions_of (left right : HashSet.t Expr) : option (HashSet.t Expr) :=
  filter_extensions true left right [].

Definition filter_not_proper_extensions_of (left right : HashSet.t Expr) : option (HashSet.t Expr) :=
  filter_extensions false left right [].

Definition ancestors (initial : HashSet.t Expr) : option (HashSet.t Expr) :=
  filter_extensions false initial initial [].

Definition union {A} `{PartialEq A} (left right : HashSet.t A) : HashSet.t A := HashSet.union left right.

Definition union3 {A} `{PartialEq A} (left mid right : HashSet.t A) : HashSet.t A :=
  HashSet.union (HashSet.union left mid) right.

Definition intersection {A} `{PartialEq A} (left right : HashSet.t A) : HashSet.t A :=
  List.filter (fun x => HashSet.contains right x) left.

(** * Permissions and sets of places: theorems

    What the difference of permission sets and the filters of
    [places_utils.rs] compute. *)

#[export] Instance Perm_PER : PartialEqPER Perm.
Proof.
  apply (per_of_norm (fun p => comparable (Perm.get_place p))
           (fun p => (Perm.is_acc p, erase (Perm.get_place p), Perm.get_perm_amount p))).
  - intros [p x|p x] [q y|q y]; unfold peq, Perm_PartialEq; cbn [Perm.eqb Perm.get_place Perm.is_acc Perm.get_perm_amount];
      try (split; [done|intros [_ ?]; congruence]);
      rewrite andb_true_iff, (peq_eq x y), (expr_eqb_spec p q); split; intros; destruct_and?; split_and?; congruence.
  - intros a b [=]. rewrite <- (comparable_erase (Perm.get_place a)), <- (comparable_erase (Perm.get_place b)).
    congruence.
Qed.

(** ** The difference of permission sets *)

Definition same_place (p q : Perm) : bool :=
  Bool.eqb (Perm.is_acc p) (Perm.is_acc q) && (Perm.get_place p == Perm.get_place q).

(** The amounts for which [place_perm_difference] has an arm. *)
Definition removable (l r : PermAmount) : bool :=
  match l, r with
  | PermAmount.Read, PermAmount.Read | PermAmount.Read, PermAmount.Write
  | PermAmount.Write, PermAmount.Write => true
  | _, _ => false
  end.

(** No place with two amounts. *)
Definition one_amount (s : list Perm) : Prop :=
  forall p q, In p s -> In q s -> same_place p q = true -> Perm.get_perm_amount p = Perm.get_perm_amount q.

Lemma place_perm_difference_cons left k r rest :
  place_perm_difference left ((k, r) :: rest) =
    match HashMap.get left k with
    | Some l => if removable l r then place_perm_difference (HashMap.remove left k) rest else None
    | None => place_perm_difference left rest
    end.
Proof. cbn. by destruct (HashMap.get left k) as [[]|]; destruct r. Qed.

Lemma place_perm_difference_spec right : forall left,
  HashMap.distinct left -> HashMap.distinct right ->
  (is_Some (place_perm_difference left right) <->
     forall k l r, In (k, r) right -> HashMap.get left k = Some l -> removable l r = true)
  /\ forall res, place_perm_difference left right = Some res ->
       HashMap.distinct res
       /\ forall k, HashMap.get res k = if HashMap.contains_key right k then None else HashMap.get left k.
Proof.
  induction right as [|[k r] rest IH]; intros left Hl Hr.
  - cbn. split; [split; [by intros|by eexists]|]. by intros res [= <-].
  - apply HashMap.distinct_cons in Hr as [Hn Hr]. rewrite place_perm_difference_cons.
    assert (Hne : forall k' r', In (k', r') rest -> (k' == k) = false).
    { intros k' r' Hin. apply HashMap.get_none in Hn. rewrite Forall_forall in Hn.
      rewrite peq_sym. apply Hn, list_elem_of_In, in_map_iff. by exists (k', r'). }
    destruct (HashMap.get left k) as [l|] eqn:El; [destruct (removable l r) eqn:Er|].
    + destruct (IH (HashMap.remove left k) (HashMap.distinct_remove _ _ Hl) Hr) as [IHs IHr]. split.
      * rewrite IHs. split.
        -- intros H k' l' r' [[= <- <-]|Hin] Eg; [congruence|]. apply (H k' l' r' Hin).
           rewrite HashMap.distinct_get_remove by done. by rewrite (Hne k' r' Hin).
        -- intros H k' l' r' Hin. rewrite HashMap.distinct_get_remove by done.
           rewrite (Hne k' r' Hin). apply H. by right.
      * intros res Hres. destruct (IHr res Hres) as [Hd Hg]. split; [done|]. intros k'. rewrite Hg.
        unfold HashMap.contains_key. cbn. rewrite HashMap.distinct_get_remove by done.
        destruct (k' == k); [by destruct (HashMap.get rest k')|done].
    + split; [|done]. split; [by intros []|]. intros H. rewrite (H k l r) in Er; [done|by left|done].
    + destruct (IH left Hl Hr) as [IHs IHr]. split.
      * rewrite IHs. split; [|by intros H k' l' r' Hin; apply H; right].
        intros H k' l' r' [[= <- <-]|Hin]; [congruence|by apply H].
      * intros res Hres. destruct (IHr res Hres) as [Hd Hg]. split; [done|]. intros k'. rewrite Hg.
        unfold HashMap.contains_key. cbn. destruct (k' == k) eqn:Ek; [|done].
        rewrite (HashMap.get_cong left k' k Ek), El. by destruct (HashMap.get rest k').
Qed.

Lemma amounts_of_get f s k a :
  (forall p q, In p s -> In q s -> f p = true -> f q = true ->
     (Perm.get_place p == Perm.get_place q) = true -> Perm.get_perm_amount p = Perm.get_perm_amount q) ->
  HashMap.get (amounts_of f s) k = Some a <->
    exists p, In p s /\ f p = true /\ (k == Perm.get_place p) = true /\ Perm.get_perm_amount p = a.
Proof.
  intros Huni. unfold amounts_of, HashMap.from_list. rewrite HashMap.get_foldl_insert.
  set (l := map _ _). assert (Hl : forall e, In e (rev l) <-> exists p, In p s /\ f p = true
    /\ e = (Perm.get_place p, Perm.get_perm_amount p)).
  { intros e. rewrite <- in_rev. unfold l. rewrite in_map_iff. setoid_rewrite filter_In. naive_solver. }
  destruct (List.find _ (rev l)) as [e|] eqn:E.
  - apply find_some in E as [Hin Hk]. apply Hl in Hin as (p & Hp & Hf & ->). cbn in *. split.
    + intros [= <-]. by exists p.
    + intros (q & Hq & Hfq & Hkq & <-). f_equal. apply Huni; try done.
      rewrite peq_sym in Hk. by eapply peq_trans.
  - split; [done|]. intros (q & Hq & Hfq & Hkq & <-). exfalso.
    assert (Hin : In (Perm.get_place q, Perm.get_perm_amount q) (rev l)) by (apply Hl; by exists q).
    pose proof (find_none _ _ E _ Hin) as Hc. cbn in Hc. congruence.
Qed.

Lemma peq_perm p q : (p == q) = same_place p q && (Perm.get_perm_amount p == Perm.get_perm_amount q).
Proof. by destruct p, q. Qed.

Lemma existsb_entries (m : HashMap.t Expr PermAmount) k a :
  HashMap.distinct m ->
  existsb (fun e => (k == fst e) && (a == snd e)) m = true <-> HashMap.get m k = Some a.
Proof.
  induction m as [|[k1 a1] m IH]; cbn; [done|]. intros [Hn Hd]%HashMap.distinct_cons.
  rewrite orb_true_iff, IH, andb_true_iff by done. destruct (k == k1) eqn:E.
  - rewrite (HashMap.get_cong m k k1 E), Hn. split; [|intros [= ->]].
    + intros [[_ ->%peq_eq]|]; done.
    + left. split; [done|]. apply peq_refl.
  - naive_solver.
Qed.

Lemma existsb_map {A B} (P : B -> bool) (f : A -> B) l : existsb P (map f l) = existsb (fun x => P (f x)) l.
Proof. induction l as [|x l IH]; [done|]. cbn. by rewrite IH. Qed.

Lemma existsb_const_false {A} (l : list A) : existsb (fun _ => false) l = false.
Proof. by induction l. Qed.

Lemma contains_amounts acc pred p :
  HashMap.distinct acc -> HashMap.distinct pred ->
  HashSet.contains (HashSet.from_list (map (fun e => Perm.Acc (fst e) (snd e)) acc
                      ++ map (fun e => Perm.Pred (fst e) (snd e)) pred)%list) p = true
  <-> HashMap.get (if Perm.is_acc p then acc else pred) (Perm.get_place p) = Some (Perm.get_perm_amount p).
Proof.
  intros Ha Hp. rewrite HashSet.contains_from_list, existsb_app, !existsb_map.
  destruct p as [k a|k a]; cbn.
  - rewrite <- (existsb_entries acc k a Ha). unfold peq at 2, Perm_PartialEq, Perm.eqb.
    by rewrite existsb_const_false, orb_false_r.
  - rewrite <- (existsb_entries pred k a Hp). unfold peq at 1, Perm_PartialEq, Perm.eqb.
    by rewrite existsb_const_false.
Qed.

Lemma contains_one_amount s p :
  one_amount s ->
  HashSet.contains s p = true <->
    exists q, In q s /\ Perm.is_acc q = Perm.is_acc p /\ (Perm.get_place p == Perm.get_place q) = true
      /\ Perm.get_perm_amount q = Perm.get_perm_amount p.
Proof.
  intros _. unfold HashSet.contains. rewrite existsb_exists. setoid_rewrite peq_perm.
  unfold same_place. setoid_rewrite andb_true_iff. setoid_rewrite andb_true_iff.
  setoid_rewrite Bool.eqb_true_iff. setoid_rewrite peq_eq. naive_solver.
Qed.

(** The two maps of [perm_difference]. *)
Definition of_kind (b : bool) : Perm -> bool := if b then Perm.is_acc else Perm.is_pred.

Lemma amounts_of_kind b s k a :
  one_amount s ->
  HashMap.get (amounts_of (of_kind b) s) k = Some a <->
    exists p, In p s /\ Perm.is_acc p = b /\ (k == Perm.get_place p) = true /\ Perm.get_perm_amount p = a.
Proof.
  intros Hs. assert (Hk : forall p, of_kind b p = true <-> Perm.is_acc p = b) by (by destruct b; intros []).
  setoid_rewrite <- Hk. apply amounts_of_get. intros p q Hp Hq Hap Haq Hpq. apply Hs; [done..|].
  apply Hk in Hap, Haq. unfold same_place. rewrite Hap, Haq, Hpq. by destruct b.
Qed.

Lemma same_place_iff p q :
  same_place p q = true <-> Perm.is_acc p = Perm.is_acc q /\ (Perm.get_place p == Perm.get_place q) = true.
Proof. unfold same_place. by rewrite andb_true_iff, Bool.eqb_true_iff. Qed.

Lemma kind_difference left right b :
  one_amount left -> one_amount right ->
  (is_Some (place_perm_difference (amounts_of (of_kind b) left) (amounts_of (of_kind b) right)) <->
     forall p q, In p left -> In q right -> Perm.is_acc p = b -> same_place p q = true ->
       removable (Perm.get_perm_amount p) (Perm.get_perm_amount q) = true)
  /\ forall res, place_perm_difference (amounts_of (of_kind b) left) (amounts_of (of_kind b) right) = Some res ->
       HashMap.distinct res
       /\ forall p, Perm.is_acc p = b -> HashMap.get res (Perm.get_place p) = Some (Perm.get_perm_amount p)
            <-> HashSet.contains left p = true /\ existsb (same_place p) right = false.
Proof.
  intros Hl Hr. destruct (place_perm_difference_spec (amounts_of (of_kind b) right) (amounts_of (of_kind b) left))
    as [Hs Hres]; [apply HashMap.distinct_from_list..|]. split.
  - rewrite Hs. split.
    + intros H p q Hp Hq Hb [Hpq Hpl]%same_place_iff.
      assert (Hgq : HashMap.get (amounts_of (of_kind b) right) (Perm.get_place p) = Some (Perm.get_perm_amount q)).
      { apply amounts_of_kind; [done|]. exists q. split_and!; congruence. }
      apply HashMap.get_in in Hgq as (k & Hin & Hk). apply (H k _ _ Hin).
      apply amounts_of_kind; [done|]. exists p. split_and!; try done. by rewrite peq_sym.
    + intros H k l r Hin Hg. apply amounts_of_kind in Hg as (p & Hp & Hb & Hkp & <-); [|done].
      assert (Hkk : (k == k) = true) by (eapply peq_trans; [done|by rewrite peq_sym]).
      apply HashMap.distinct_in_get in Hin; [|apply HashMap.distinct_from_list|done].
      apply amounts_of_kind in Hin as (q & Hq & Hbq & Hkq & <-); [|done].
      apply H; try done. apply same_place_iff. split; [congruence|].
      rewrite peq_sym in Hkp. by eapply peq_trans.
  - intros res E. destruct (Hres res E) as [Hd Hg]. split; [done|]. intros p Hb. rewrite Hg.
    assert (Hc : HashMap.contains_key (amounts_of (of_kind b) right) (Perm.get_place p) = existsb (same_place p) right).
    { apply eq_true_iff_eq. rewrite existsb_exists. setoid_rewrite same_place_iff. unfold HashMap.contains_key.
      destruct (HashMap.get _ _) as [a|] eqn:Eg.
      - apply amounts_of_kind in Eg as (q & ? & ? & ? & ?); [|done]. split; [intros _; exists q|done].
        split_and!; congruence.
      - split; [done|]. intros (q & Hq & Hpq & Hpl).
        assert (HashMap.get (amounts_of (of_kind b) right) (Perm.get_place p) = Some (Perm.get_perm_amount q)); [|congruence].
        apply amounts_of_kind; [done|]. exists q. split_and!; congruence. }
    rewrite Hc, (contains_one_amount left p Hl). destruct (existsb _ right); [naive_solver|].
    rewrite amounts_of_kind by done. rewrite Hb. naive_solver.
Qed.

(** The difference of permission sets removes the places of [right] from [left], and it panics exactly when
    [left] has at some place an amount that [right] does not cover. *)
Theorem perm_difference_spec (left right : list Perm) :
  one_amount left -> one_amount right ->
  (is_Some (perm_difference left right) <->
     forall p q, In p left -> In q right -> same_place p q = true ->
       removable (Perm.get_perm_amount p) (Perm.get_perm_amount q) = true)
  /\ forall res, perm_difference left right = Some res ->
       forall p, HashSet.contains res p = HashSet.contains left p && negb (existsb (same_place p) right).
Proof.
  intros Hl Hr. destruct (kind_difference left right true Hl Hr) as [Sa Ga].
  destruct (kind_difference left right false Hl Hr) as [Sp Gp]. cbn [of_kind] in *.
  unfold perm_difference. split.
  - transitivity (is_Some (place_perm_difference (amounts_of Perm.is_acc left) (amounts_of Perm.is_acc right))
      /\ is_Some (place_perm_difference (amounts_of Perm.is_pred left) (amounts_of Perm.is_pred right))).
    + destruct (place_perm_difference (amounts_of Perm.is_acc left) _); cbn; [|by split; [intros []|intros [[] _]]].
      destruct (place_perm_difference _ _); cbn; [|by split; [intros []|intros [_ []]]].
      split; [|intros _; by eexists]. by split; eexists.
    + rewrite Sa, Sp. split; [|by intros H; split; intros; apply H].
      intros [Ha Hp] p q Hpl Hqr. destruct (Perm.is_acc p) eqn:E; [by apply Ha|by apply Hp].
  - intros res. destruct (place_perm_difference (amounts_of Perm.is_acc left) _) as [acc|] eqn:Ea; [|done].
    destruct (place_perm_difference (amounts_of Perm.is_pred left) _) as [pred|] eqn:Ep; [|done].
    cbn. intros [= <-] p. destruct (Ga acc eq_refl) as [Hda Hga]. destruct (Gp pred eq_refl) as [Hdp Hgp].
    apply eq_true_iff_eq. rewrite contains_amounts by done. rewrite andb_true_iff, negb_true_iff.
    destruct (Perm.is_acc p) eqn:E; [by apply Hga|by apply Hgp].
Qed.

(** ** Filters of places *)

(** Is [place] a proper extension of [other], for places? *)
Definition extends (place other : Expr) : bool := bool_decide (has_proper_prefix place other = Some true).

Lemma has_proper_prefix_place a b : is_place a = true -> has_proper_prefix a b = Some (extends a b).
Proof.
  intros Ha. unfold extends. destruct (has_proper_prefix a b) as [[]|] eqn:E; [done|done|]. exfalso.
  unfold has_proper_prefix in E. destruct (a == b); [done|]. cbn in E.
  destruct (place_prefixes a Ha) as (ps & _ & _ & _ & H). by rewrite H in E.
Qed.

Lemma extends_some_place a bs : is_place a = true -> extends_some a bs = Some (existsb (extends a) bs).
Proof.
  intros Ha. induction bs as [|b bs IH]; [done|]. cbn. rewrite has_proper_prefix_place by done. cbn.
  by destruct (extends a b).
Qed.

Lemma filter_extensions_spec keep left right : forall res,
  Forall (fun a => is_place a = true) left ->
  exists res', filter_extensions keep left right res = Some res'
    /\ forall e, HashSet.contains res' e =
         HashSet.contains res e
         || existsb (fun a => (e == a) && Bool.eqb (existsb (extends a) right) keep) left.
Proof.
  induction left as [|a left IH]; intros res; cbn [filter_extensions].
  - intros _. exists res. split; [done|]. intros e. by rewrite orb_false_r.
  - intros [Ha Hl]%Forall_cons. rewrite extends_some_place by done. cbn [mbind option_bind].
    destruct (IH (if Bool.eqb (existsb (extends a) right) keep then HashSet.insert res a else res) Hl)
      as (res' & E & Hc). exists res'. split; [done|]. intros e. rewrite Hc. cbn.
    destruct (Bool.eqb (existsb (extends a) right) keep).
    + rewrite HashSet.contains_insert, andb_true_r. by destruct (e == a), (HashSet.contains res e).
    + by rewrite andb_false_r.
Qed.

Lemma extends_length a b : extends a b = true -> path_length b < path_length a.
Proof.
  unfold extends. rewrite bool_decide_eq_true. unfold has_proper_prefix.
  destruct (a == b) eqn:E; [done|]. cbn. intros [Hab|]%has_prefix_length; [congruence|done].
Qed.

Lemma extends_trans a b c : extends a b = true -> extends b c = true -> extends a c = true.
Proof.
  intros Hab Hbc. pose proof (extends_length a b Hab). pose proof (extends_length b c Hbc).
  unfold extends in *. rewrite bool_decide_eq_true in *. unfold has_proper_prefix in *.
  destruct (a == b), (b == c); try done. cbn in *.
  destruct (a == c) eqn:E; [apply path_length_eqb in E; lia|]. cbn. by eapply has_prefix_trans.
Qed.

(** Every element has a shortest element of the set as a prefix. *)
Lemma root_of (s : list Expr) a :
  In a s -> exists b, In b s /\ (a = b \/ extends a b = true) /\ existsb (extends b) s = false.
Proof.
  remember (path_length a) as n eqn:Hn. revert a Hn. induction (lt_wf n) as [n _ IH]. intros a -> Hin.
  destruct (existsb (extends a) s) eqn:E; [|by exists a; auto].
  apply existsb_exists in E as (b & Hb & Hab). pose proof (extends_length a b Hab).
  destruct (IH (path_length b) ltac:(lia) b eq_refl Hb) as (c & Hc & Hbc & Hroot).
  exists c. split; [done|]. split; [|done]. right. destruct Hbc as [->|]; [done|]. by eapply extends_trans.
Qed.

Lemma filter_extensions_in keep left right : forall res res',
  Forall (fun a => is_place a = true) left ->
  filter_extensions keep left right res = Some res' ->
  forall b, In b res' -> In b res \/ (In b left /\ existsb (extends b) right = keep).
Proof.
  induction left as [|a left IH]; intros res res'; cbn [filter_extensions]; [intros _ [= <-]; auto|].
  intros [Ha Hl]%Forall_cons. rewrite extends_some_place by done. cbn [mbind option_bind].
  intros E b Hb. destruct (IH _ _ Hl E b Hb) as [Hin|[]]; [|by right; split; [right|]].
  destruct (Bool.eqb (existsb (extends a) right) keep) eqn:Ek; [|by left].
  apply Bool.eqb_prop in Ek. unfold HashSet.insert in Hin.
  destruct (HashSet.contains res a); [by left|].
  apply in_app_iff in Hin as [Hin|[->|[]]]; [by left|right; split; [by left|done]].
Qed.

(** [ancestors] does not panic on places, keeps only elements of the set, none of which extends another
    element, and leaves below every element of the set one that it keeps. *)
Theorem ancestors_spec (initial : HashSet.t Expr) :
  Forall (fun a => is_place a = true) initial ->
  Forall (fun a => comparable a = true) initial ->
  exists res, ancestors initial = Some res
    /\ (forall b, In b res -> In b initial /\ existsb (extends b) initial = false)
    /\ forall a, In a initial -> exists b, HashSet.contains res b = true /\ (a = b \/ extends a b = true).
Proof.
  intros Hp Hcmp. destruct (filter_extensions_spec false initial initial [] Hp) as (res & E & Hc).
  exists res. split; [done|]. split.
  - intros b Hb. by destruct (filter_extensions_in _ _ _ _ _ Hp E b Hb) as [[]|].
  - intros a Ha. destruct (root_of initial a Ha) as (b & Hb & Hab & Hroot). exists b. split; [|done].
    rewrite Hc. cbn. apply existsb_exists. exists b. split; [done|].
    rewrite Forall_forall in Hcmp. rewrite Hroot, expr_eqb_refl, (Hcmp b); [done|by apply list_elem_of_In].
Qed.

(** ** Witnesses *)

Definition place_a : Expr := Expr.Local (LocalVar.new "a" (Ty.TypedRef "T")) Position.default.
Definition place_af : Expr := Expr.Field place_a (Field.new "f" (Ty.TypedRef "U")) Position.default.
Definition place_b : Expr := Expr.Local (LocalVar.new "b" (Ty.TypedRef "T")) Position.default.

Lemma perm_difference_spec_witness :
  (is_Some (perm_difference [Perm.Acc place_a PermAmount.Read; Perm.Pred place_b PermAmount.Write]
              [Perm.Acc place_a PermAmount.Write]) <-> True)
  /\ perm_difference [Perm.Acc place_a PermAmount.Write] [Perm.Acc place_a PermAmount.Read] = None.
Proof.
  split.
  - destruct (perm_difference_spec [Perm.Acc place_a PermAmount.Read; Perm.Pred place_b PermAmount.Write]
                [Perm.Acc place_a PermAmount.Write]) as [H _].
    + intros p q [<-|[<-|[]]] [<-|[<-|[]]]; by vm_compute.
    + intros p q [<-|[]] [<-|[]]; by vm_compute.
    + split; [done|]. intros _. apply H. intros p q [<-|[<-|[]]] [<-|[]]; by vm_compute.
  - by vm_compute.
Defined.

Lemma ancestors_spec_witness :
  exists res, ancestors [place_a; place_af; place_b] = Some res
    /\ exists b, HashSet.contains res b = true /\ (place_af = b \/ extends place_af b = true).
Proof.
  destruct (ancestors_spec [place_a; place_af; place_b]) as (res & E & _ & H);
    [by repeat constructor..|].
  exists res. split; [exact E|]. apply H. right. by left.
Defined.
