(* ===== verification/FuState.v ===== *)
(** * The permission state of fold-unfold

    [prusti-viper/src/encoder/foldunfold/state.rs]: which access and
    predicate permissions hold, which places were moved out, the frames and
    the permissions dropped at a merge.

    [check_consistency] is the body of the debug build; the release build
    skips it, and so do the operations that call it here. *)

From Stdlib Require Import Lia.
From S2P Require Import Prelude Ast ExprEq ExprPlace ExprTransformers ExprOps Collections Display Perm.

Module State.
Record State : Type := make {
  (** paths on which we (may) have a full access permission *)
  acc : HashMap.t Expr PermAmount;
  (** paths on which we (may) have a full predicate permission *)
  pred : HashMap.t Expr PermAmount;
  (** paths that have been moved out (for sure) *)
  moved : HashSet.t Expr;
  (** permissions currently framed; the top of the stack is the last one *)
  framing_stack : list PermSet;
  (** permissions that should be removed from the state *)
  dropped : HashSet.t Perm
}.

(** [derive(PartialEq)]. *)
Definition perm_set_eqb (a b : PermSet) : bool :=
  HashMap.eqb (PermSet.acc_perms a) (PermSet.acc_perms b)
  && HashMap.eqb (PermSet.pred_perms a) (PermSet.pred_perms b).

Definition eqb (a b : State) : bool :=
  HashMap.eqb (acc a) (acc b) && HashMap.eqb (pred a) (pred b) && HashSet.eqb (moved a) (moved b)
  && list_eqb perm_set_eqb (framing_stack a) (framing_stack b) && HashSet.eqb (dropped a) (dropped b).

Definition new (acc pred : HashMap.t Expr PermAmount) (moved : HashSet.t Expr) : State :=
  make acc pred moved [] [].

(** ** Updates of one field *)

Definition with_acc (self : State) (m : HashMap.t Expr PermAmount) : State :=
  make m (pred self) (moved self) (framing_stack self) (dropped self).
Definition with_pred (self : State) (m : HashMap.t Expr PermAmount) : State :=
  make (acc self) m (moved self) (framing_stack self) (dropped self).
Definition set_moved (self : State) (m : HashSet.t Expr) : State :=
  make (acc self) (pred self) m (framing_stack self) (dropped self).
Definition with_framing_stack (self : State) (s : list PermSet) : State :=
  make (acc self) (pred self) (moved self) s (dropped self).

(** ** Queries *)

Definition acc_places (self : State) : HashSet.t Expr := HashSet.from_list (HashMap.keys (acc self)).
Definition pred_places (self : State) : HashSet.t Expr := HashSet.from_list (HashMap.keys (pred self)).

Definition contains_acc (self : State) (place : Expr) : bool := HashMap.contains_key (acc self) place.
Definition contains_pred (self : State) (place : Expr) : bool := HashMap.contains_key (pred self) place.

(** The permission amount is ignored. *)
Definition contains_perm (self : State) (item : Perm) : bool :=
  match item with
  | Perm.Acc _ _ => contains_acc self (Perm.get_place item)
  | Perm.Pred _ _ => contains_pred self (Perm.get_place item)
  end.

Definition contains_all_perms (self : State) (items : list Perm) : bool := forallb (contains_perm self) items.

Definition is_proper_prefix_of_some_acc (self : State) (prefix : Expr) : option bool :=
  any_opt (fun place => has_proper_prefix place prefix) (HashMap.keys (acc self)).
Definition is_prefix_of_some_acc (self : State) (prefix : Expr) : option bool :=
  any_opt (fun place => has_prefix place prefix) (HashMap.keys (acc self)).
Definition is_prefix_of_some_pred (self : State) (prefix : Expr) : option bool :=
  any_opt (fun place => has_prefix place prefix) (HashMap.keys (pred self)).
Definition is_prefix_of_some_moved (self : State) (prefix : Expr) : option bool :=
  any_opt (fun place => has_prefix place prefix) (moved self).

Definition acc_leaves (self : State) : option (HashSet.t Expr) :=
  HashSet.from_list <$>
    filter_opt (fun place => negb <$> is_proper_prefix_of_some_acc self place) (HashMap.keys (acc self)).

Definition is_dropped (self : State) (item : Perm) : bool := HashSet.contains (dropped self) item.

(** ** Display *)

Fixpoint insert_string (x : string) (l : list string) : list string :=
  match l with
  | [] => [x]
  | y :: l' => match String.compare x y with Gt => y :: insert_string x l' | _ => x :: l end
  end.

(** [info.sort(); info.join(..)]. *)
Definition sorted_lines (info : list string) : string := str_join ("," ++ nl) (foldr insert_string [] info).

Definition display_amounts (m : HashMap.t Expr PermAmount) : option string :=
  sorted_lines <$> mapM_opt (fun e => p ← expr_to_string (fst e); Some ("  " ++ p ++ ": " ++ PermAmount.to_string (snd e))) m.

Definition display_acc (self : State) : option string := display_amounts (acc self).
Definition display_pred (self : State) : option string := display_amounts (pred self).
Definition display_moved (self : State) : option string :=
  sorted_lines <$> mapM_opt (fun e => p ← expr_to_string e; Some ("  " ++ p)) (moved self).

(** ** The consistency check of the debug build *)

Definition is_read (a : PermAmount) : bool := a == PermAmount.Read.
Definition is_remaining (a : PermAmount) : bool := a == PermAmount.Remaining.

(** A predicate needs the access permission to its place. *)
Definition check_pred_has_acc (self : State) (place : Expr) : option unit :=
  if is_simple_place place && negb (contains_acc self place) then
    parent ← get_parent place;
    let contains_parent_pred :=
      match parent with
      | Some parent => HashMap.contains_key (pred self) parent
      | None => false
      end in
    a ← HashMap.get (pred self) place;
    assert_ (negb (negb contains_parent_pred && negb (is_remaining a) && negb (is_read a)
                   && negb (is_mir_reference place)))
  else Some tt.

(** An access permission needs the one of its parent. *)
Definition check_acc_has_parent (self : State) (place : Expr) : option unit :=
  if is_simple_place place && negb (is_local place) then
    parent ← get_parent place;
    parent ← parent;
    if contains_acc self parent then Some tt
    else
      a ← HashMap.get (acc self) place;
      if is_read a then
        grand_parent ← get_parent parent;
        grand_parent ← grand_parent;
        assert_ (is_local grand_parent)
      else None
  else Some tt.

(** All pairs of simple places of two lists that satisfy [bad] must pass
    [ok]. *)
Definition check_pairs (l1 l2 : list Expr) (bad : Expr -> Expr -> option bool)
    (ok : Expr -> Expr -> option bool) : option unit :=
  iter_opt (fun a => iter_opt (fun b =>
    if is_simple_place a && is_simple_place b then
      clash ← bad a b;
      if (clash : bool) then good ← ok a b; assert_ good else Some tt
    else Some tt) l2) l1.

Definition check_consistency (self : State) : option unit :=
  let preds := HashMap.keys (pred self) in
  let accs := HashMap.keys (acc self) in
  let never := fun _ _ => Some false in
  _ ← iter_opt (check_pred_has_acc self) preds;
  _ ← iter_opt (check_acc_has_parent self) accs;
  _ ← check_pairs preds preds has_proper_prefix (fun place other_place =>
        a ← HashMap.get (pred self) place;
        b ← HashMap.get (pred self) other_place;
        Some ((is_read a || is_remaining a) && is_read b));
  _ ← check_pairs accs preds has_proper_prefix never;
  _ ← check_pairs accs (moved self) has_proper_prefix never;
  check_pairs preds (moved self) (fun p m =>
    a ← has_prefix p m;
    if (a : bool) then Some true else has_prefix m p) never.

(** ** Changes *)

(** The closure may panic. *)
Definition replace_map (replace : Expr -> option Expr) (m : HashMap.t Expr PermAmount) :
    option (HashMap.t Expr PermAmount) :=
  HashMap.from_list <$> mapM_opt (fun e => place ← replace (fst e); Some (place, snd e)) m.

Definition replace_places (self : State) (replace : Expr -> option Expr) : option State :=
  acc' ← replace_map replace (acc self);
  pred' ← replace_map replace (pred self);
  Some (with_pred (with_acc self acc') pred').

Definition remove_acc_matching (self : State) (p : Expr -> option bool) : option State :=
  with_acc self <$> filter_opt (fun e => negb <$> p (fst e)) (acc self).
Definition remove_pred_matching (self : State) (p : Expr -> option bool) : option State :=
  with_pred self <$> filter_opt (fun e => negb <$> p (fst e)) (pred self).
Definition remove_moved_matching (self : State) (p : Expr -> option bool) : option State :=
  set_moved self <$> filter_opt (fun e => negb <$> p e) (moved self).

Definition remove_matching_place (self : State) (p : Expr -> option bool) : option State :=
  self ← remove_acc_matching self p;
  self ← remove_pred_matching self p;
  remove_moved_matching self p.

Definition remove_all (self : State) : option State := remove_matching_place self (fun _ => Some true).

(** [insert_acc] and [insert_pred] do the same to the two maps. *)
Definition insert_amount (m : HashMap.t Expr PermAmount) (place : Expr) (perm : PermAmount) :
    outcome FoldUnfoldError (HashMap.t Expr PermAmount) :=
  match HashMap.get m place with
  | Some old_perm =>
      new_perm ← amount_add old_perm perm;
      _ ← assert_o ((new_perm == PermAmount.Write) || (new_perm == PermAmount.Read));
      Val (HashMap.insert m place new_perm)
  | None => Val (HashMap.insert m place perm)
  end.

Definition insert_acc (self : State) (place : Expr) (perm : PermAmount) : outcome FoldUnfoldError State :=
  with_acc self <$> insert_amount (acc self) place perm.
Definition insert_pred (self : State) (place : Expr) (perm : PermAmount) : outcome FoldUnfoldError State :=
  with_pred self <$> insert_amount (pred self) place perm.

Definition insert_all_acc (self : State) (items : list (Expr * PermAmount)) : outcome FoldUnfoldError State :=
  foldM (fun s e => insert_acc s (fst e) (snd e)) self items.
Definition insert_all_pred (self : State) (items : list (Expr * PermAmount)) : outcome FoldUnfoldError State :=
  foldM (fun s e => insert_pred s (fst e) (snd e)) self items.

Definition insert_moved (self : State) (place : Expr) : State := set_moved self (HashSet.insert (moved self) place).

Definition insert_perm (self : State) (item : Perm) : outcome FoldUnfoldError State :=
  match item with
  | Perm.Acc place perm => insert_acc self place perm
  | Perm.Pred place perm => insert_pred self place perm
  end.

Definition insert_all_perms (self : State) (items : list Perm) : outcome FoldUnfoldError State :=
  foldM insert_perm self items.

(** The result is the amount that was removed; an absent place panics. *)
Definition remove_acc_place (self : State) (place : Expr) : option (PermAmount * State) :=
  a ← HashMap.get (acc self) place; Some (a, with_acc self (HashMap.remove (acc self) place)).
Definition remove_pred_place (self : State) (place : Expr) : option (PermAmount * State) :=
  a ← HashMap.get (pred self) place; Some (a, with_pred self (HashMap.remove (pred self) place)).

(** The common part of [remove_acc] and [remove_pred]: [cur] is the amount in
    the map. *)
Definition remove_amount (m : HashMap.t Expr PermAmount) (place : Expr) (cur perm : PermAmount) :
    outcome FoldUnfoldError (HashMap.t Expr PermAmount) :=
  if cur == perm then Val (HashMap.remove m place)
  else new_perm ← amount_sub cur perm; Val (HashMap.insert m place new_perm).

Definition remove_acc (self : State) (place : Expr) (perm : PermAmount) : outcome FoldUnfoldError State :=
  match HashMap.get (acc self) place with
  | Some cur => with_acc self <$> remove_amount (acc self) place cur perm
  | None => Panic
  end.
Definition remove_pred (self : State) (place : Expr) (perm : PermAmount) : outcome FoldUnfoldError State :=
  match HashMap.get (pred self) place with
  | Some cur => with_pred self <$> remove_amount (pred self) place cur perm
  | None => Err (FailedToRemovePred place)
  end.

Definition remove_perm (self : State) (item : Perm) : outcome FoldUnfoldError State :=
  match item with
  | Perm.Acc _ perm => remove_acc self (Perm.get_place item) perm
  | Perm.Pred _ perm => remove_pred self (Perm.get_place item) perm
  end.

Definition remove_all_perms (self : State) (items : list Perm) : outcome FoldUnfoldError State :=
  foldM remove_perm self items.

(** ** Restoring dropped permissions *)

Definition add_current (m : HashMap.t Expr PermAmount) (place : Expr) (perm : PermAmount) :
    outcome FoldUnfoldError PermAmount :=
  match HashMap.get m place with
  | Some curr_perm_amount => amount_add perm curr_perm_amount
  | None => Val perm
  end.

Definition restore_acc (self : State) (acc_place : Expr) (perm : PermAmount) : outcome FoldUnfoldError State :=
  perm ← add_current (acc self) acc_place perm;
  ignored ← unwrap
    (if is_simple_place acc_place then
       any_opt (fun pred_place =>
         if is_simple_place pred_place then has_proper_prefix acc_place pred_place else Some false)
         (HashMap.keys (pred self))
     else Some false);
  if (ignored : bool) then Val self
  else Val (with_acc self (HashMap.insert (acc self) acc_place perm)).

Definition restore_pred (self : State) (pred_place : Expr) (perm : PermAmount) : outcome FoldUnfoldError State :=
  perm ← add_current (pred self) pred_place perm;
  self ← unwrap
    (if is_simple_place pred_place then
       remove_acc_matching self (fun acc_place =>
         if is_simple_place acc_place then has_proper_prefix acc_place pred_place else Some false)
     else Some self);
  Val (with_pred self (HashMap.insert (pred self) pred_place perm)).

Definition restore_dropped_perm (self : State) (item : Perm) : outcome FoldUnfoldError State :=
  match item with
  | Perm.Acc place perm =>
      self ← unwrap (remove_moved_matching self (fun p => has_prefix place p));
      restore_acc self place perm
  | Perm.Pred place perm =>
      self ← unwrap (remove_moved_matching self (fun p => has_prefix place p));
      restore_pred self place perm
  end.

Definition restore_dropped_perms (self : State) (items : list Perm) : outcome FoldUnfoldError State :=
  foldM restore_dropped_perm self items.

(** ** The state as an expression *)

Definition acc_exprs (self : State) : list Expr :=
  concat (map (fun e =>
    let '(place, perm) := e in
    if negb (is_local place) && is_curr place then
      if is_dropped self (Perm.Acc place perm) then [] else [Ex.acc_permission place perm]
    else []) (acc self)).

Definition pred_exprs (self : State) : option (list Expr) :=
  @concat Expr <$> mapM_opt (fun e =>
    let '(place, perm_amount) := e in
    perm ← Ex.pred_permission place perm_amount;
    Some match perm with
         | Some perm =>
             if negb (is_dropped self (Perm.Pred place perm_amount)) && is_curr place then [perm] else []
         | None => []
         end) (pred self).

Definition as_vir_expr (self : State) : option Expr :=
  preds ← pred_exprs self;
  Some (conjoin (acc_exprs self ++ preds)%list).

(** ** Frames *)

(** All permissions but the accesses to local variables are framed. *)
Definition begin_frame (self : State) : State :=
  let framed := List.filter (fun e => negb (is_local (fst e))) (acc self) in
  let framed_perms := foldl (fun s e => PermSet.add s (Perm.Acc (fst e) (snd e))) PermSet.empty framed in
  let framed_perms := foldl (fun s e => PermSet.add s (Perm.Pred (fst e) (snd e))) framed_perms (pred self) in
  make (foldl (fun m e => HashMap.remove m (fst e)) (acc self) framed) HashMap.empty (moved self)
       (framing_stack self ++ [framed_perms])%list (dropped self).

Definition end_frame (self : State) : outcome FoldUnfoldError State :=
  framed_perms ← unwrap (last (framing_stack self));
  insert_all_perms (with_framing_stack self (removelast (framing_stack self))) (PermSet.perms framed_perms).
End State.
Abbreviation State := State.State.

#[export] Instance State_PartialEq : PartialEq State := State.eqb.

(** * The permission state: theorems

    The amount of permission at a place is what counts: two states are
    equivalent when they have the same amounts (and the same moved places,
    frames and dropped permissions).  Inserting and removing permissions
    undo each other up to this equivalence, and so do opening and closing a
    frame. *)

(** ** The amount at a place *)

Definition amounts (s : State) (is_acc : bool) : HashMap.t Expr PermAmount :=
  if is_acc then State.acc s else State.pred s.

Definition lookup (s : State) (is_acc : bool) (k : Expr) : option PermAmount := HashMap.get (amounts s is_acc) k.

(** What the maps are not about. *)
Definition same_rest (s s' : State) : Prop :=
  State.moved s = State.moved s' /\ State.framing_stack s = State.framing_stack s'
  /\ State.dropped s = State.dropped s'.

#[export] Instance State_equiv : Equiv State := fun s s' =>
  (forall b k, lookup s b k = lookup s' b k) /\ same_rest s s'.

#[export] Instance State_equivalence : Equivalence (≡@{State}).
Proof.
  split.
  - by intros s.
  - intros s s' [Hl (? & ? & ?)]. split; [by intros; rewrite Hl|by split_and!].
  - intros s1 s2 s3 [Hl1 (? & ? & ?)] [Hl2 (? & ? & ?)]. split; [|split_and!; congruence].
    intros b k. by rewrite Hl1, Hl2.
Qed.

Lemma contains_perm_lookup s p :
  State.contains_perm s p = bool_decide (is_Some (lookup s (Perm.is_acc p) (Perm.get_place p))).
Proof.
  unfold lookup. destruct p as [k a|k a]; cbn; unfold State.contains_acc, State.contains_pred, HashMap.contains_key.
  - destruct (HashMap.get (State.acc s) k); [by rewrite bool_decide_eq_true_2|by rewrite bool_decide_eq_false_2; [|intros []]].
  - destruct (HashMap.get (State.pred s) k); [by rewrite bool_decide_eq_true_2|by rewrite bool_decide_eq_false_2; [|intros []]].
Qed.

#[export] Instance contains_perm_proper : Proper ((≡) ==> eq ==> eq) State.contains_perm.
Proof. intros s s' [Hl _] p _ <-. by rewrite !contains_perm_lookup, Hl. Qed.

#[export] Instance lookup_proper : Proper ((≡) ==> eq ==> eq ==> eq) lookup.
Proof. intros s s' [Hl _] b _ <- k _ <-. apply Hl. Qed.

(** ** Well-formed states *)

(** The keys are places that can be compared, all different. *)
Definition good_map (m : HashMap.t Expr PermAmount) : Prop :=
  HashMap.distinct m /\ Forall (fun k => comparable k = true) (HashMap.keys m).

Definition good_state (s : State) : Prop := forall b, good_map (amounts s b).

Lemma lookup_cong s b k k' : (k == k') = true -> lookup s b k = lookup s b k'.
Proof. apply HashMap.get_cong. Qed.

Lemma keys_insert_cases {K V} `{PartialEq K} (m : HashMap.t K V) k v (P : K -> Prop) :
  P k -> Forall P (HashMap.keys m) -> Forall P (HashMap.keys (HashMap.insert m k v)).
Proof.
  intros Hk. unfold HashMap.keys. induction m as [|[k1 v1] m IH]; cbn; [by repeat constructor|].
  intros [? ?]%Forall_cons. destruct (k == k1); cbn; constructor; auto.
Qed.

Lemma good_map_insert m k v : comparable k = true -> good_map m -> good_map (HashMap.insert m k v).
Proof. intros Hk [Hd Hc]. split; [by apply HashMap.distinct_insert|by apply keys_insert_cases]. Qed.

Lemma good_map_remove m k : good_map m -> good_map (HashMap.remove m k).
Proof.
  intros [Hd Hc]. split; [by apply HashMap.distinct_remove|].
  pose proof (HashMap.keys_remove m k) as Hk. rewrite Forall_forall in *. intros x Hx. apply Hc.
  apply list_elem_of_In. by apply Hk.
Qed.

(** ** One permission *)

(** The amount after inserting and after removing [a]; [None] is a failure. *)
Definition plus (o : option PermAmount) (a : PermAmount) : option PermAmount :=
  match o with
  | None => Some a
  | Some o => match PermAmount.add o a with Val n => Some n | _ => None end
  end.

Definition minus (o : option PermAmount) (a : PermAmount) : option (option PermAmount) :=
  match o with
  | None => None
  | Some c =>
      if c == a then Some None else match PermAmount.sub c a with Val n => Some (Some n) | _ => None end
  end.

Definition is_key (p : Perm) (b : bool) (k : Expr) : bool := Bool.eqb b (Perm.is_acc p) && (k == Perm.get_place p).

(** [s'] is [s] with the amount of [p]'s place set to [o]. *)
Definition updated (s : State) (p : Perm) (o : option PermAmount) (s' : State) : Prop :=
  (forall b k, lookup s' b k = if is_key p b k then o else lookup s b k) /\ same_rest s s'.

Definition key_amount (s : State) (p : Perm) : option PermAmount := lookup s (Perm.is_acc p) (Perm.get_place p).

Lemma amount_add_val o a : amount_add o a = match PermAmount.add o a with
  | Val n => Val n | Err e => Err (of_perm_amount_error e) | Panic => Panic end.
Proof. by unfold amount_add, map_err; destruct (PermAmount.add o a). Qed.

Lemma insert_amount_spec m k a :
  match State.insert_amount m k a with
  | Val m' => exists n, plus (HashMap.get m k) a = Some n /\ m' = HashMap.insert m k n
  | _ => plus (HashMap.get m k) a = None
  end.
Proof.
  unfold State.insert_amount. destruct (HashMap.get m k) as [[]|]; destruct a; cbn; eauto.
Qed.

Lemma remove_amount_spec m k c a :
  match State.remove_amount m k c a with
  | Val m' => exists o, minus (Some c) a = Some o
      /\ m' = match o with Some n => HashMap.insert m k n | None => HashMap.remove m k end
  | _ => minus (Some c) a = None
  end.
Proof. unfold State.remove_amount. destruct c, a; cbn; eauto. Qed.

Lemma insert_perm_spec s p :
  match State.insert_perm s p with
  | Val s' => exists n, plus (key_amount s p) (Perm.get_perm_amount p) = Some n /\ updated s p (Some n) s'
      /\ (comparable (Perm.get_place p) = true -> good_state s -> good_state s')
  | _ => plus (key_amount s p) (Perm.get_perm_amount p) = None
  end.
Proof.
  destruct p as [k a|k a]; cbn; unfold State.insert_acc, State.insert_pred, key_amount; cbn.
  - pose proof (insert_amount_spec (State.acc s) k a) as H.
    destruct (State.insert_amount (State.acc s) k a) as [m| |]; [|done..].
    destruct H as (n & Hn & ->). exists n. split; [done|]. split.
    + split; [|done]. unfold is_key. intros [] k'; cbn; [|done]. unfold lookup; cbn. by rewrite HashMap.get_insert.
    + intros Hk Hg []; cbn; [|apply (Hg false)]. apply good_map_insert; [done|apply (Hg true)].
  - pose proof (insert_amount_spec (State.pred s) k a) as H.
    destruct (State.insert_amount (State.pred s) k a) as [m| |]; [|done..].
    destruct H as (n & Hn & ->). exists n. split; [done|]. split.
    + split; [|done]. unfold is_key. intros [] k'; cbn; [done|]. unfold lookup; cbn. by rewrite HashMap.get_insert.
    + intros Hk Hg []; cbn; [apply (Hg true)|]. apply good_map_insert; [done|apply (Hg false)].
Qed.

Lemma get_after m k o k' :
  good_map m ->
  HashMap.get (match o with Some n => HashMap.insert m k n | None => HashMap.remove m k end) k'
  = if k' == k then o else HashMap.get m k'.
Proof. intros [Hd _]. destruct o; [apply HashMap.get_insert|by apply HashMap.distinct_get_remove]. Qed.

Lemma remove_perm_spec s p :
  good_state s ->
  match State.remove_perm s p with
  | Val s' => exists o, minus (key_amount s p) (Perm.get_perm_amount p) = Some o /\ updated s p o s'
      /\ (comparable (Perm.get_place p) = true -> good_state s')
  | _ => minus (key_amount s p) (Perm.get_perm_amount p) = None
  end.
Proof.
  intros Hg. pose proof (Hg true) as Ha. pose proof (Hg false) as Hp. cbn in Ha, Hp.
  destruct p as [k a|k a]; cbn; unfold State.remove_acc, State.remove_pred, key_amount, lookup; cbn.
  - destruct (HashMap.get (State.acc s) k) as [c|] eqn:E; [|done].
    pose proof (remove_amount_spec (State.acc s) k c a) as H.
    destruct (State.remove_amount (State.acc s) k c a) as [m| |]; [|done..].
    destruct H as (o & Ho & ->). exists o. split; [done|]. split.
    + split; [|done]. unfold is_key, lookup. intros [] k'; cbn; [|done]. by apply get_after.
    + intros Hk []; cbn; [|done]. destruct o; [by apply good_map_insert|by apply good_map_remove].
  - destruct (HashMap.get (State.pred s) k) as [c|] eqn:E; [|done].
    pose proof (remove_amount_spec (State.pred s) k c a) as H.
    destruct (State.remove_amount (State.pred s) k c a) as [m| |]; [|done..].
    destruct H as (o & Ho & ->). exists o. split; [done|]. split.
    + split; [|done]. unfold is_key, lookup. intros [] k'; cbn; [done|]. by apply get_after.
    + intros Hk []; cbn; [done|]. destruct o; [by apply good_map_insert|by apply good_map_remove].
Qed.

(** ** Many permissions *)

(** The amounts of [ps] at one place, in order. *)
Definition amounts_at (ps : list Perm) (b : bool) (k : Expr) : list PermAmount :=
  map Perm.get_perm_amount (List.filter (fun p => is_key p b k) ps).

Fixpoint plus_all (o : option PermAmount) (l : list PermAmount) : option (option PermAmount) :=
  match l with
  | [] => Some o
  | a :: l' => n ← plus o a; plus_all (Some n) l'
  end.

Fixpoint minus_all (o : option PermAmount) (l : list PermAmount) : option (option PermAmount) :=
  match l with
  | [] => Some o
  | a :: l' => o ← minus o a; minus_all o l'
  end.

Definition places_comparable (ps : list Perm) : Prop := Forall (fun p => comparable (Perm.get_place p) = true) ps.

Lemma is_key_cong p b k k' : (k == k') = true -> is_key p b k = is_key p b k'.
Proof. intros Hk. unfold is_key. by rewrite (HashMap.peq_cong_l k k' _ Hk). Qed.

Lemma key_amount_eq s p b k : is_key p b k = true -> lookup s b k = key_amount s p.
Proof. unfold is_key. rewrite andb_true_iff, Bool.eqb_true_iff. intros [-> Hk]. by apply lookup_cong. Qed.

Lemma is_key_self p : comparable (Perm.get_place p) = true -> is_key p (Perm.is_acc p) (Perm.get_place p) = true.
Proof. intros Hk. unfold is_key. by rewrite Bool.eqb_reflx, expr_eqb_refl. Qed.

Lemma insert_all_spec ps : forall s,
  good_state s -> places_comparable ps ->
  match State.insert_all_perms s ps with
  | Val s' => good_state s' /\ same_rest s s'
      /\ forall b k, plus_all (lookup s b k) (amounts_at ps b k) = Some (lookup s' b k)
  | _ => exists b k, plus_all (lookup s b k) (amounts_at ps b k) = None
  end.
Proof.
  unfold State.insert_all_perms. induction ps as [|p ps IH]; intros s Hg; cbn; [done|].
  intros [Hk Hps]%Forall_cons. pose proof (insert_perm_spec s p) as Hs. unfold amounts_at in *.
  assert (Hfail : plus (key_amount s p) (Perm.get_perm_amount p) = None ->
    exists b k, plus_all (lookup s b k)
      (map Perm.get_perm_amount (if is_key p b k then p :: List.filter (fun p => is_key p b k) ps
                                 else List.filter (fun p => is_key p b k) ps)) = None).
  { intros Hn. exists (Perm.is_acc p), (Perm.get_place p). rewrite (is_key_self p Hk). cbn.
    fold (key_amount s p). by rewrite Hn. }
  destruct (State.insert_perm s p) as [s1| |]; cbn; [|by apply Hfail..].
  destruct Hs as (n & Hn & [Hl Hr] & Hg1).
  assert (Hstep : forall b k, plus_all (lookup s b k)
      (map Perm.get_perm_amount (if is_key p b k then p :: List.filter (fun p => is_key p b k) ps
                                 else List.filter (fun p => is_key p b k) ps))
    = plus_all (lookup s1 b k) (map Perm.get_perm_amount (List.filter (fun p => is_key p b k) ps))).
  { intros b k. rewrite Hl. destruct (is_key p b k) eqn:E; [|done]. cbn.
    by rewrite (key_amount_eq s p b k E), Hn. }
  specialize (IH s1 (Hg1 Hk Hg) Hps). destruct (foldM State.insert_perm s1 ps) as [s2| |].
  - destruct IH as (Hg2 & Hr2 & Hl2). split; [done|]. split.
    + destruct Hr as (? & ? & ?), Hr2 as (? & ? & ?). split_and!; congruence.
    + intros b k. rewrite Hstep. apply Hl2.
  - destruct IH as (b & k & IH). exists b, k. by rewrite Hstep.
  - destruct IH as (b & k & IH). exists b, k. by rewrite Hstep.
Qed.

Lemma remove_all_spec ps : forall s,
  good_state s -> places_comparable ps ->
  match State.remove_all_perms s ps with
  | Val s' => good_state s' /\ same_rest s s'
      /\ forall b k, minus_all (lookup s b k) (amounts_at ps b k) = Some (lookup s' b k)
  | _ => exists b k, minus_all (lookup s b k) (amounts_at ps b k) = None
  end.
Proof.
  unfold State.remove_all_perms. induction ps as [|p ps IH]; intros s Hg; cbn; [done|].
  intros [Hk Hps]%Forall_cons. pose proof (remove_perm_spec s p Hg) as Hs. unfold amounts_at in *.
  assert (Hfail : minus (key_amount s p) (Perm.get_perm_amount p) = None ->
    exists b k, minus_all (lookup s b k)
      (map Perm.get_perm_amount (if is_key p b k then p :: List.filter (fun p => is_key p b k) ps
                                 else List.filter (fun p => is_key p b k) ps)) = None).
  { intros Hn. exists (Perm.is_acc p), (Perm.get_place p). rewrite (is_key_self p Hk). cbn.
    fold (key_amount s p). by rewrite Hn. }
  destruct (State.remove_perm s p) as [s1| |]; cbn; [|by apply Hfail..].
  destruct Hs as (o & Ho & [Hl Hr] & Hg1).
  assert (Hstep : forall b k, minus_all (lookup s b k)
      (map Perm.get_perm_amount (if is_key p b k then p :: List.filter (fun p => is_key p b k) ps
                                 else List.filter (fun p => is_key p b k) ps))
    = minus_all (lookup s1 b k) (map Perm.get_perm_amount (List.filter (fun p => is_key p b k) ps))).
  { intros b k. rewrite Hl. destruct (is_key p b k) eqn:E; [|done]. cbn.
    by rewrite (key_amount_eq s p b k E), Ho. }
  specialize (IH s1 (Hg1 Hk) Hps). destruct (foldM State.remove_perm s1 ps) as [s2| |].
  - destruct IH as (Hg2 & Hr2 & Hl2). split; [done|]. split.
    + destruct Hr as (? & ? & ?), Hr2 as (? & ? & ?). split_and!; congruence.
    + intros b k. rewrite Hstep. apply Hl2.
  - destruct IH as (b & k & IH). exists b, k. by rewrite Hstep.
  - destruct IH as (b & k & IH). exists b, k. by rewrite Hstep.
Qed.

(** ** Inserting and removing undo each other *)

Lemma plus_minus_all o l o' : plus_all o l = Some o' -> minus_all o' l = Some o.
Proof. destruct o as [[]|], l as [|[] [|[] [|[] l]]]; cbn; by intros [= <-]. Qed.

Lemma minus_plus_all o l o' : minus_all o l = Some o' -> plus_all o' l = Some o.
Proof. destruct o as [[]|], l as [|[] [|[] [|[] l]]]; cbn; by intros [= <-]. Qed.

Lemma same_rest_trans s1 s2 s3 : same_rest s1 s2 -> same_rest s2 s3 -> same_rest s1 s3.
Proof. intros (? & ? & ?) (? & ? & ?). split_and!; congruence. Qed.

Lemma same_rest_sym s1 s2 : same_rest s1 s2 -> same_rest s2 s1.
Proof. intros (? & ? & ?). by split_and!. Qed.

Lemma remove_inserted s ps s' :
  good_state s -> places_comparable ps -> State.insert_all_perms s ps = Val s' ->
  exists s'', State.remove_all_perms s' ps = Val s'' /\ s'' ≡ s.
Proof.
  intros Hg Hps E. pose proof (insert_all_spec ps s Hg Hps) as Hi. rewrite E in Hi. destruct Hi as (Hg' & Hr & Hl).
  pose proof (remove_all_spec ps s' Hg' Hps) as Hs.
  destruct (State.remove_all_perms s' ps) as [s''| |].
  - exists s''. split; [done|]. destruct Hs as (_ & Hr' & Hl'). split.
    + intros b k. specialize (Hl' b k). rewrite (plus_minus_all _ _ _ (Hl b k)) in Hl'. by injection Hl'.
    + apply same_rest_sym. by eapply same_rest_trans.
  - exfalso. destruct Hs as (b & k & Hs). by rewrite (plus_minus_all _ _ _ (Hl b k)) in Hs.
  - exfalso. destruct Hs as (b & k & Hs). by rewrite (plus_minus_all _ _ _ (Hl b k)) in Hs.
Qed.

Lemma insert_removed s ps s' :
  good_state s -> places_comparable ps -> State.remove_all_perms s ps = Val s' ->
  exists s'', State.insert_all_perms s' ps = Val s'' /\ s'' ≡ s.
Proof.
  intros Hg Hps E. pose proof (remove_all_spec ps s Hg Hps) as Hi. rewrite E in Hi. destruct Hi as (Hg' & Hr & Hl).
  pose proof (insert_all_spec ps s' Hg' Hps) as Hs.
  destruct (State.insert_all_perms s' ps) as [s''| |].
  - exists s''. split; [done|]. destruct Hs as (_ & Hr' & Hl'). split.
    + intros b k. specialize (Hl' b k). rewrite (minus_plus_all _ _ _ (Hl b k)) in Hl'. by injection Hl'.
    + apply same_rest_sym. by eapply same_rest_trans.
  - exfalso. destruct Hs as (b & k & Hs). by rewrite (minus_plus_all _ _ _ (Hl b k)) in Hs.
  - exfalso. destruct Hs as (b & k & Hs). by rewrite (minus_plus_all _ _ _ (Hl b k)) in Hs.
Qed.

(** Inserting permissions into a well-formed state and removing them, or removing and inserting them, in the
    same order, succeeds and gives an equivalent state. *)
Theorem permissions_roundtrip (s : State) (ps : list Perm) (s' : State) :
  good_state s -> places_comparable ps ->
  (State.insert_all_perms s ps = Val s' -> exists s'', State.remove_all_perms s' ps = Val s'' /\ s'' ≡ s)
  /\ (State.remove_all_perms s ps = Val s' -> exists s'', State.insert_all_perms s' ps = Val s'' /\ s'' ≡ s).
Proof. intros Hg Hps. split; [by apply remove_inserted|by apply insert_removed]. Qed.

(** ** Frames *)

Lemma existsb_key (m : HashMap.t Expr PermAmount) k : existsb (fun e => k == fst e) m = HashMap.contains_key m k.
Proof. unfold HashMap.contains_key. induction m as [|[k1 a1] m IH]; [done|]. cbn. by destruct (k == k1). Qed.

Lemma get_foldl_remove (l : list (Expr * PermAmount)) k : forall m,
  good_map m ->
  good_map (foldl (fun m e => HashMap.remove m (fst e)) m l)
  /\ HashMap.get (foldl (fun m e => HashMap.remove m (fst e)) m l) k
     = if existsb (fun e => k == fst e) l then None else HashMap.get m k.
Proof.
  induction l as [|[k1 a1] l IH]; intros m Hm; cbn; [done|].
  destruct (IH (HashMap.remove m k1) (good_map_remove m k1 Hm)) as [Hg ->]. split; [done|].
  rewrite HashMap.distinct_get_remove by apply Hm. by destruct (k == k1), (existsb _ l).
Qed.

Lemma distinct_app_cons {K V} `{PartialEqPER K} (m l : HashMap.t K V) k v :
  HashMap.distinct (m ++ (k, v) :: l)%list ->
  HashMap.get m k = None /\ HashMap.distinct ((m ++ [(k, v)]) ++ l)%list.
Proof.
  intros Hd. rewrite <- app_assoc. split; [|done].
  induction m as [|[k1 v1] m IH]; [done|]. cbn in *. apply HashMap.distinct_cons in Hd as [Hn Hd].
  apply HashMap.get_none in Hn. unfold HashMap.keys in Hn. rewrite map_app in Hn. apply Forall_app in Hn as [_ Hn].
  apply Forall_cons in Hn as [Hn _]. cbn in Hn. rewrite peq_sym, Hn. by apply IH.
Qed.

Lemma insert_fresh_key {K V} `{PartialEq K} (m : HashMap.t K V) k v :
  HashMap.get m k = None -> HashMap.insert m k v = (m ++ [(k, v)])%list.
Proof.
  induction m as [|[k1 v1] m IH]; cbn; [done|]. destruct (k == k1); [done|]. intros Hn. by rewrite IH.
Qed.

Lemma foldl_insert_distinct {K V} `{PartialEqPER K} (l : list (K * V)) : forall m,
  HashMap.distinct (m ++ l)%list -> foldl (fun m e => HashMap.insert m (fst e) (snd e)) m l = (m ++ l)%list.
Proof.
  induction l as [|[k v] l IH]; intros m Hd; cbn; [by rewrite app_nil_r|].
  apply distinct_app_cons in Hd as [Hn Hd]. rewrite insert_fresh_key by done. rewrite IH by done.
  by rewrite <- app_assoc.
Qed.

Lemma foldl_add_acc (l : list (Expr * PermAmount)) : forall ps,
  foldl (fun s e => PermSet.add s (Perm.Acc (fst e) (snd e))) ps l
  = PermSet.make (foldl (fun m e => HashMap.insert m (fst e) (snd e)) (PermSet.acc_perms ps) l) (PermSet.pred_perms ps).
Proof. induction l as [|[k a] l IH]; intros []; [done|]. cbn. by rewrite IH. Qed.

Lemma foldl_add_pred (l : list (Expr * PermAmount)) : forall ps,
  foldl (fun s e => PermSet.add s (Perm.Pred (fst e) (snd e))) ps l
  = PermSet.make (PermSet.acc_perms ps) (foldl (fun m e => HashMap.insert m (fst e) (snd e)) (PermSet.pred_perms ps) l).
Proof. induction l as [|[k a] l IH]; intros []; [done|]. cbn. by rewrite IH. Qed.

Definition of_option {A} (o : option A) : list A := match o with Some a => [a] | None => [] end.

Lemma amounts_at_app ps qs b k : amounts_at (ps ++ qs)%list b k = (amounts_at ps b k ++ amounts_at qs b k)%list.
Proof. unfold amounts_at. by rewrite List.filter_app, map_app. Qed.

Lemma amounts_at_kind (c : bool) m b k :
  HashMap.distinct m ->
  amounts_at (map (fun e => (if c then Perm.Acc else Perm.Pred) (fst e) (snd e)) m) b k
  = if Bool.eqb b c then of_option (HashMap.get m k) else [].
Proof.
  unfold amounts_at. induction m as [|[k1 a1] m IH]; cbn; [by destruct (Bool.eqb b c)|].
  intros [Hn Hd]%HashMap.distinct_cons. specialize (IH Hd). unfold is_key at 1.
  assert (Hc : Perm.is_acc ((if c then Perm.Acc else Perm.Pred) k1 a1) = c
    /\ Perm.get_place ((if c then Perm.Acc else Perm.Pred) k1 a1) = k1
    /\ Perm.get_perm_amount ((if c then Perm.Acc else Perm.Pred) k1 a1) = a1) by by destruct c.
  destruct Hc as (-> & -> & Ha). destruct (Bool.eqb b c); cbn; [|done]. destruct (k == k1) eqn:E; cbn; [|done].
  rewrite Ha, IH. by rewrite (HashMap.get_cong m k k1 E), Hn.
Qed.

(** The accesses that are framed, as a map. *)
Definition framed_accs (s : State) : HashMap.t Expr PermAmount :=
  List.filter (fun e => negb (is_local (fst e))) (State.acc s).

Lemma is_local_cong a b : (a == b) = true -> is_local a = is_local b.
Proof. apply (eqb_invariant is_local). intros []; done. Qed.

Lemma get_framed s k :
  good_state s -> HashMap.get (framed_accs s) k = if is_local k then None else HashMap.get (State.acc s) k.
Proof.
  intros Hg. destruct (Hg true) as [Hd _]. cbn in Hd.
  pose proof (HashMap.get_retain (State.acc s) (fun k _ => negb (is_local k)) k Hd) as H.
  unfold HashMap.retain in H. unfold framed_accs. rewrite H.
  - destruct (HashMap.get (State.acc s) k); cbn; by destruct (is_local k).
  - intros k' _ E. by rewrite (is_local_cong k k' E).
Qed.

Lemma framed_distinct s : good_state s -> HashMap.distinct (framed_accs s).
Proof. intros Hg. apply (HashMap.distinct_retain _ (fun k _ => negb (is_local k))). apply (Hg true). Qed.

Lemma begin_frame_eq s :
  good_state s ->
  State.begin_frame s
  = State.make (foldl (fun m e => HashMap.remove m (fst e)) (State.acc s) (framed_accs s)) [] (State.moved s)
      (State.framing_stack s ++ [PermSet.make (framed_accs s) (State.pred s)])%list (State.dropped s).
Proof.
  intros Hg. unfold State.begin_frame. fold (framed_accs s). rewrite foldl_add_acc, foldl_add_pred. cbn.
  rewrite !foldl_insert_distinct; [done|apply (Hg false)|by apply framed_distinct].
Qed.

Lemma begin_frame_lookup s b k :
  good_state s ->
  lookup (State.begin_frame s) b k = if b && is_local k then lookup s b k else None.
Proof.
  intros Hg. rewrite begin_frame_eq by done. destruct b; [|done]. unfold lookup; cbn.
  destruct (get_foldl_remove (framed_accs s) k (State.acc s) (Hg true)) as [_ ->].
  rewrite existsb_key. unfold HashMap.contains_key. rewrite get_framed by done.
  destruct (is_local k); [done|]. by destruct (HashMap.get _ k) eqn:E; rewrite ?E.
Qed.

Definition framed_perms (s : State) : list Perm := PermSet.perms (PermSet.make (framed_accs s) (State.pred s)).

Lemma framed_perms_comparable s : good_state s -> places_comparable (framed_perms s).
Proof.
  intros Hg. unfold places_comparable, framed_perms, PermSet.perms. cbn. apply Forall_app. rewrite !Forall_map. cbn.
  pose proof (proj2 (Hg true)) as Ha. pose proof (proj2 (Hg false)) as Hp. unfold HashMap.keys in Ha, Hp. cbn in Ha, Hp.
  rewrite Forall_map in Ha, Hp. split; [|done]. rewrite Forall_forall in *. intros e He. apply Ha.
  apply list_elem_of_In in He. apply filter_In in He as [He _]. by apply list_elem_of_In.
Qed.

Lemma amounts_at_framed s b k :
  good_state s ->
  amounts_at (framed_perms s) b k
  = of_option (if b then HashMap.get (framed_accs s) k else HashMap.get (State.pred s) k).
Proof.
  intros Hg. unfold framed_perms, PermSet.perms. rewrite amounts_at_app. cbn [PermSet.acc_perms PermSet.pred_perms].
  pose proof (amounts_at_kind true (framed_accs s) b k (framed_distinct s Hg)) as Ha.
  pose proof (amounts_at_kind false (State.pred s) b k (proj1 (Hg false))) as Hp.
  cbn in Ha, Hp. rewrite Ha, Hp. destruct b; cbn; [by rewrite app_nil_r|done].
Qed.

(** Opening a frame takes away everything but the accesses to local variables, and closing it gives back an
    equivalent state. *)
Theorem frame_roundtrip (s : State) :
  good_state s ->
  (forall b k, lookup (State.begin_frame s) b k = if b && is_local k then lookup s b k else None)
  /\ exists s', State.end_frame (State.begin_frame s) = Val s' /\ s' ≡ s.
Proof.
  intros Hg. split; [by intros; apply begin_frame_lookup|]. unfold State.end_frame.
  set (t := State.with_framing_stack _ _).
  assert (Hstack : last (State.framing_stack (State.begin_frame s)) = Some (PermSet.make (framed_accs s) (State.pred s))
    /\ State.framing_stack t = State.framing_stack s).
  { unfold t. rewrite begin_frame_eq by done. cbn. by rewrite last_snoc, removelast_last. }
  destruct Hstack as [-> Hst]. cbn [unwrap mbind outcome_bind].
  assert (Ht : good_state t /\ forall b k, lookup t b k = if b && is_local k then lookup s b k else None).
  { split; [|intros b k; rewrite <- begin_frame_lookup by done; by destruct b].
    unfold t. rewrite begin_frame_eq by done. intros []; cbn; [|by repeat constructor].
    exact (proj1 (get_foldl_remove (framed_accs s) example_place (State.acc s) (Hg true))). }
  destruct Ht as [Hgt Hlt].
  fold (framed_perms s). pose proof (framed_perms_comparable s Hg) as Hps.
  pose proof (insert_all_spec (framed_perms s) t Hgt Hps) as Hi.
  assert (Hplus : forall b k, plus_all (lookup t b k) (amounts_at (framed_perms s) b k) = Some (lookup s b k)).
  { intros b k. rewrite Hlt, amounts_at_framed by done. unfold lookup. destruct b; cbn [andb amounts].
    - rewrite get_framed by done. destruct (is_local k); [done|]. by destruct (HashMap.get (State.acc s) k).
    - by destruct (HashMap.get (State.pred s) k). }
  destruct (State.insert_all_perms t (framed_perms s)) as [s'| |].
  - exists s'. split; [done|]. destruct Hi as (_ & Hr & Hl). split.
    + intros b k. specialize (Hl b k). rewrite Hplus in Hl. by injection Hl.
    + apply same_rest_sym. refine (same_rest_trans _ _ _ _ Hr). split_and!; [|done|];
        unfold t; by rewrite begin_frame_eq.
  - destruct Hi as (b & k & Hi). by rewrite Hplus in Hi.
  - destruct Hi as (b & k & Hi). by rewrite Hplus in Hi.
Qed.

(** ** Witnesses *)

Definition sample_state : State :=
  State.new [(place_a, PermAmount.Write); (place_af, PermAmount.Read)] [(place_af, PermAmount.Read)] [].

Lemma sample_state_good : good_state sample_state.
Proof. intros []; split; by repeat constructor. Qed.

Lemma permissions_roundtrip_witness :
  exists s', State.insert_all_perms sample_state [Perm.Acc place_af PermAmount.Remaining; Perm.Pred place_b PermAmount.Write]
             = Val s'
  /\ exists s'', State.remove_all_perms s' [Perm.Acc place_af PermAmount.Remaining; Perm.Pred place_b PermAmount.Write]
                 = Val s'' /\ s'' ≡ sample_state.
Proof.
  eexists. split; [reflexivity|].
  apply (permissions_roundtrip sample_state); [exact sample_state_good|by repeat constructor|reflexivity].
Defined.

Lemma frame_roundtrip_witness :
  exists s', State.end_frame (State.begin_frame sample_state) = Val s' /\ s' ≡ sample_state.
Proof. apply (frame_roundtrip sample_state sample_state_good). Defined.
