(* ===== verification/Footprint.v ===== *)
(** * Footprints and required permissions

    [prusti-viper/src/encoder/foldunfold/footprint.rs] and
    [requirements.rs]: the permissions that inhaling or exhaling an
    expression moves, those in the body of a predicate, and those an
    expression or a statement needs to be well defined.

    [footprint_with] takes the footprints of predicate bodies as an argument:
    the body of a predicate gets its own footprint with an empty map of
    predicates, in which an [unfolding] panics before it asks for a body. *)

From S2P Require Import Prelude Ast ExprEq ExprPlace ExprTransformers ExprOps Collections Typaram ExprReplace.
From S2P Require Import Items Borrows Stmt Perm.

Definition Predicates : Type := HashMap.t string Predicate.
Definition OldExprs : Type := HashMap.t string (list Expr).

(** ** [footprint.rs] *)

(** [Variant(base, field)] gives the name of the variant as an index. *)
Section Footprint.
Context `{RegexCrate}.

Definition collect_perms (perms : list Perm) : HashSet.t Perm := HashSet.from_list perms.

(** The permissions of the body of the predicate of [place], about [place];
    [amount] sets or updates their amounts. *)
Definition perms_in_pred (amount : Perm -> option Perm) (predicate : Predicate) (place : Expr)
    (footprint : HashSet.t Perm) : option (list Perm) :=
  let pred_self_place := Predicate.self_place predicate in
  mapM_opt (fun perm =>
    perm ← Perm.map_place perm (fun p => replace_place p pred_self_place place); amount perm) footprint.

(** [predicates.get(place.typed_ref_name().unwrap()).unwrap()]. *)
Definition predicate_of (predicates : Predicates) (place : Expr) : option Predicate :=
  predicate_name ← typed_ref_name place;
  predicate_name ← predicate_name;
  HashMap.get predicates predicate_name.

(** [assert!(vars.iter().all(|var| !var.typ.is_ref()))] and the accesses to
    quantified variables. *)
Definition vars_places (vars : list LocalVar) : option (HashSet.t Perm) :=
  _ ← assert_ (forallb (fun var => negb (Ty.is_ref (LocalVar.typ var))) vars);
  Some (collect_perms (map (fun var => Perm.Acc (expr_of_var var) PermAmount.Write) vars)).

Definition single_arg (args : list Expr) : option Expr :=
  match args with
  | [place] => Some place
  | _ => None
  end.

Fixpoint footprint_with (body_footprint : Predicate -> MaybeEnumVariantIndex -> option (HashSet.t Perm))
    (predicates : Predicates) (self : Expr) : option (HashSet.t Perm) :=
  let get_footprint := footprint_with body_footprint predicates in
  match self with
  | Expr.Local _ _ | Expr.Field _ _ _ | Expr.Variant _ _ _ | Expr.AddrOf _ _ _ | Expr.LabelledOld _ _ _
  | Expr.Const _ _ | Expr.FuncApp _ _ _ _ _ | Expr.DomainFuncApp _ _ _ | Expr.InhaleExhale _ _ _ => Some []
  | Expr.Unfolding _ args expr perm_amount variant _ =>
      place ← single_arg args;
      predicate ← predicate_of predicates place;
      footprint ← body_footprint predicate variant;
      places_in_pred ← perms_in_pred (fun p => Perm.init_perm_amount p perm_amount) predicate place footprint;
      expr_access_places ← get_footprint expr;
      perm_difference expr_access_places (collect_perms places_in_pred)
  | Expr.UnaryOp _ expr _ => get_footprint expr
  | Expr.BinOp _ lhs rhs _ | Expr.ContainerOp _ lhs rhs _ =>
      l ← get_footprint lhs; r ← get_footprint rhs; Some (union l r)
  | Expr.Seq _ elems _ => fps ← mapM_opt get_footprint elems; Some (foldl HashSet.union [] fps)
  | Expr.Cond guard lhs rhs _ =>
      g ← get_footprint guard; l ← get_footprint lhs; r ← get_footprint rhs; Some (union3 g l r)
  | Expr.ForAll vars _ body _ | Expr.Exists vars _ body _ =>
      vp ← vars_places vars; b ← get_footprint body; perm_difference b vp
  | Expr.PredicateAccessPredicate _ arg perm_amount _ =>
      Some (if is_place arg then
              [match get_label arg with
               | None => Perm.Pred arg perm_amount
               | Some label => Perm.Pred (old arg label) perm_amount
               end]
            else [])
  | Expr.FieldAccessPredicate place perm_amount _ => Some [Perm.Acc place perm_amount]
  | Expr.MagicWand _ _ _ _ => Some []
  | Expr.LetExpr _ _ _ _ => None
  | Expr.Downcast base _ _ => get_footprint base
  | Expr.SnapApp expr _ => get_footprint expr
  end.

(** The body of a predicate should not contain an [unfolding]. *)
Definition struct_body_footprint (self : StructPredicate) : option (HashSet.t Perm) :=
  match StructPredicate.body self with
  | Some body => footprint_with (fun _ _ => None) HashMap.empty body
  | None => Some []
  end.

Definition get_variant_footprint (self : EnumPredicate) (variant : EnumVariantIndex) :
    option (HashSet.t Perm) :=
  let this := expr_of_var (EnumPredicate.this self) in
  let variant_name := EnumVariantIndex.get_variant_name variant in
  place ← variant_place this variant_name;
  Some (collect_perms [Perm.Acc place PermAmount.Write; Perm.Pred place PermAmount.Write]).

Definition get_underapproximated_body_footprint (self : EnumPredicate) : HashSet.t Perm :=
  [Perm.Acc (field_place (expr_of_var (EnumPredicate.this self)) (EnumPredicate.discriminant_field self))
     PermAmount.Write].

Definition enum_body_footprint (self : EnumPredicate) (variant : EnumVariantIndex) : option (HashSet.t Perm) :=
  variant_footprint ← get_variant_footprint self variant;
  Some (HashSet.union (get_underapproximated_body_footprint self) variant_footprint).

Definition get_body_footprint (self : Predicate) (maybe_variant : MaybeEnumVariantIndex) :
    option (HashSet.t Perm) :=
  match self with
  | Predicate.Struct p =>
      _ ← assert_ (match maybe_variant with None => true | Some _ => false end);
      struct_body_footprint p
  | Predicate.Enum p =>
      match maybe_variant with
      | Some variant => enum_body_footprint p variant
      | None => Some (get_underapproximated_body_footprint p)
      end
  | Predicate.Bodyless _ _ => Some []
  end.

Definition get_footprint (predicates : Predicates) (self : Expr) : option (HashSet.t Perm) :=
  footprint_with get_body_footprint predicates self.

(** ** [requirements.rs] *)

(** The union of the sets of a vector. *)
Definition union_all (sets : list (HashSet.t Perm)) : HashSet.t Perm := foldl HashSet.union [] sets.

(** The permissions that a predicate access needs: it reads the predicate
    and, unless the place is old, the place. *)
Definition pred_access_requirements (place : Expr) : HashSet.t Perm :=
  let epsilon := PermAmount.Read in
  match get_label place with
  | None =>
      if is_old place then [Perm.Pred place epsilon]
      else collect_perms [Perm.Pred place epsilon; Perm.Acc place epsilon]
  | Some label =>
      if is_old place then [Perm.Pred (old place label) epsilon]
      else collect_perms [Perm.Pred (old place label) epsilon; Perm.Acc (old place label) epsilon]
  end.

(** What replaces an argument of a function: a place that holds a reference
    must have its predicate, a Rust reference must be unfolded. *)
Definition arg_expr (arg : Expr) : option Expr :=
  let is_ref := if is_place arg then Ty.is_ref <$> get_type arg else Some false in
  b ← is_ref;
  if (b : bool) then
    field_place ← try_deref arg;
    match field_place with
    | Some field_place =>
        p ← Ex.pred_permission field_place PermAmount.Read;
        p ← p;
        Some (Ex.and (Ex.acc_permission field_place PermAmount.Read) p)
    | None =>
        typ ← get_type arg;
        Some (Ex.predicate_access_predicate (Ty.name typ) arg PermAmount.Read)
    end
  else Some arg.

(** The fuel bounds the depth of the recursion: [arg_expr] builds a new
    expression from an argument, of height at most three. *)
Fixpoint requirements_fuel (predicates : Predicates) (fuel : nat) (self : Expr) : option (HashSet.t Perm) :=
  match fuel with
  | 0 => None
  | S fuel' =>
      let required := requirements_fuel predicates fuel' in
      let required_all := fun es => union_all <$> mapM_opt required es in
      match self with
      | Expr.Const _ _ => Some []
      | Expr.Unfolding _ args expr perm_amount variant _ =>
          place ← single_arg args;
          predicate ← predicate_of predicates place;
          footprint ← get_body_footprint predicate variant;
          places_in_pred ← perms_in_pred (fun p => Perm.update_perm_amount p perm_amount) predicate place footprint;
          expr_req_places ← required expr;
          req_places ← perm_difference expr_req_places (collect_perms places_in_pred);
          Some (HashSet.insert req_places (Perm.Pred place perm_amount))
      | Expr.LabelledOld _ _ _ => Some []
      | Expr.PredicateAccessPredicate _ place _ _ => Some (pred_access_requirements place)
      | Expr.FieldAccessPredicate expr _ _ => required expr
      | Expr.UnaryOp _ expr _ => required expr
      | Expr.BinOp _ lhs rhs _ | Expr.ContainerOp _ lhs rhs _ => required_all [lhs; rhs]
      | Expr.Seq _ elems _ => required_all elems
      | Expr.Cond guard lhs rhs _ => required_all [guard; lhs; rhs]
      | Expr.LetExpr _ _ _ _ => None
      | Expr.ForAll vars _ body _ | Expr.Exists vars _ body _ =>
          vp ← vars_places vars; b ← required body; perm_difference b vp
      | Expr.Local _ _ => Some []
      | Expr.AddrOf _ _ _ => None
      | Expr.Variant _ _ _ | Expr.Field _ _ _ => Some [Perm.Acc self PermAmount.Read]
      | Expr.MagicWand _ _ _ _ => Some []
      | Expr.FuncApp _ args _ _ _ | Expr.DomainFuncApp _ args _ =>
          es ← mapM_opt arg_expr args; required_all es
      | Expr.InhaleExhale _ _ _ => Some []
      | Expr.Downcast _ enum_place _ =>
          predicate ← predicate_of predicates enum_place;
          match predicate with
          | Predicate.Enum enum_predicate =>
              required (field_place enum_place (EnumPredicate.discriminant_field enum_predicate))
          | _ => None
          end
      | Expr.SnapApp _ _ => None
      end
  end.

(** The height of an expression. *)
Fixpoint height (e : Expr) : nat :=
  let all := fun es => list_max (map height es) in
  match e with
  | Expr.Local _ _ | Expr.Const _ _ => 1
  | Expr.Variant b _ _ | Expr.Field b _ _ | Expr.AddrOf b _ _ | Expr.LabelledOld _ b _
  | Expr.PredicateAccessPredicate _ b _ _ | Expr.FieldAccessPredicate b _ _
  | Expr.UnaryOp _ b _ | Expr.SnapApp b _ => S (height b)
  | Expr.MagicWand l r _ _ | Expr.BinOp _ l r _ | Expr.ContainerOp _ l r _
  | Expr.LetExpr _ l r _ | Expr.InhaleExhale l r _ | Expr.Downcast l r _ =>
      S (Nat.max (height l) (height r))
  | Expr.Seq _ es _ | Expr.FuncApp _ es _ _ _ | Expr.DomainFuncApp _ es _ => S (all es)
  | Expr.Unfolding _ es b _ _ _ => S (Nat.max (all es) (height b))
  | Expr.Cond g t f _ => S (Nat.max (height g) (Nat.max (height t) (height f)))
  | Expr.ForAll _ _ b _ | Expr.Exists _ _ b _ => S (height b)
  end.

Definition get_required_permissions (predicates : Predicates) (self : Expr) : option (HashSet.t Perm) :=
  requirements_fuel predicates (height self + 3) self.

Definition required_of_exprs (predicates : Predicates) (es : list Expr) : option (HashSet.t Perm) :=
  union_all <$> mapM_opt (get_required_permissions predicates) es.

(** [Stmt]: [unimplemented!] for the wands that are not of the form
    [MagicWand]. *)
Fixpoint stmt_required_permissions (predicates : Predicates) (old_exprs : OldExprs) (self : Stmt) :
    option (HashSet.t Perm) :=
  let required_stmts := fun ss => union_all <$> mapM_opt (stmt_required_permissions predicates old_exprs) ss in
  match self with
  | Stmt.Comment _ => Some []
  | Stmt.Label label =>
      match HashMap.get old_exprs label with
      | Some exprs => required_of_exprs predicates exprs
      | None => Some []
      end
  | Stmt.Inhale expr =>
      req ← get_required_permissions predicates expr;
      fp ← get_footprint predicates expr;
      perm_difference req fp
  | Stmt.Exhale expr pos | Stmt.Assert expr pos | Stmt.Obtain expr pos =>
      perms ← get_required_permissions predicates expr;
      collect_perms <$> mapM_opt (fun perm => Perm.set_default_pos perm pos) perms
  | Stmt.MethodCall _ args vars =>
      _ ← assert_ (match args with [] => true | _ => false end);
      Some (collect_perms (map (fun v => Perm.Acc (expr_of_var v) PermAmount.Write) vars))
  | Stmt.Assign lhs rhs _ =>
      res ← get_required_permissions predicates rhs;
      Some (HashSet.insert res (Perm.Acc lhs PermAmount.Write))
  | Stmt.Fold _ args perm_amount variant _ =>
      place ← single_arg args;
      predicate ← predicate_of predicates place;
      footprint ← get_body_footprint predicate variant;
      collect_perms <$> perms_in_pred (fun p => Perm.init_perm_amount p perm_amount) predicate place footprint
  | Stmt.Unfold _ args perm_amount _ =>
      place ← single_arg args;
      perms ← get_required_permissions predicates place;
      collect_perms <$> mapM_opt (fun perm => Perm.init_perm_amount perm perm_amount) perms
  | Stmt.BeginFrame | Stmt.EndFrame => Some []
  | Stmt.TransferPerm lhs _ unchecked => Some (if unchecked then [] else [Perm.Acc lhs PermAmount.Read])
  | Stmt.PackageMagicWand (Expr.MagicWand _ _ _ _) _ _ _ _ => Some []
  | Stmt.ApplyMagicWand (Expr.MagicWand lhs _ _ _) _ => get_required_permissions predicates lhs
  | Stmt.ExpireBorrows _ => Some []
  | Stmt.If guard then_ elze =>
      guard_reqs ← get_required_permissions predicates guard;
      then_reqs ← required_stmts then_;
      elze_reqs ← required_stmts elze;
      Some (HashSet.union guard_reqs (intersection then_reqs elze_reqs))
  | Stmt.Downcast enum_place variant_field =>
      get_required_permissions predicates (Ex.downcast (expr_of_bool true) enum_place variant_field)
  | _ => None
  end.
End Footprint.
