(* ===== verification/FuSemantics.v ===== *)
(** * Effect of a statement on the permission state

    [prusti-viper/src/encoder/foldunfold/semantics.rs], and
    [find_variant], [find_unfolded_variant] of [path_ctxt.rs], which it
    uses. *)

From S2P Require Import Prelude Ast ExprEq ExprPlace ExprTransformers ExprOps Collections Typaram ExprReplace.
From S2P Require Import Items Borrows Stmt Perm FuState Footprint.

(** ** Variants *)

(** The variant in [variant_place] of the enum at [enum_place]: panics when
    [enum_place] is not a proper prefix. *)
Fixpoint find_variant (enum_place variant_place : Expr) : option MaybeEnumVariantIndex :=
  match variant_place with
  | Expr.Variant parent field _ =>
      if enum_place == parent then Some <$> EnumVariantIndex.of_field field
      else find_variant enum_place parent
  | Expr.Field parent _ _ | Expr.AddrOf parent _ _ =>
      if enum_place == parent then Some None else find_variant enum_place parent
  | _ => None
  end.

(** The first variant found; the debug build checks that there is at most
    one. *)
Definition find_unfolded_variant (state : State) (enum_place : Expr) : option MaybeEnumVariantIndex :=
  places ← filter_opt (fun place =>
             b ← has_proper_prefix place enum_place; Some ((b : bool) && is_variant place))
             (State.acc_places state);
  variants ← mapM_opt (find_variant enum_place) places;
  let variants := HashSet.from_list (concat (map (fun v => match v with Some v => [v] | None => [] end) variants)) in
  Some (head variants).

(** ** Effects *)

Section Semantics.
Context `{RegexCrate}.

Abbreviation result := (outcome FoldUnfoldError State).

(** Accesses to local variables are not tracked by inhales and exhales. *)
Definition is_local_acc (p : Perm) : bool := Perm.is_local p && Perm.is_acc p.

Definition inhale_expr (expr : Expr) (state : State) (predicates : Predicates) : result :=
  footprint ← unwrap (get_footprint predicates expr);
  State.insert_all_perms state (List.filter (fun p => negb (is_local_acc p)) footprint).

(** The permissions in [old[pre](..)] stay for the final exhale of a
    method. *)
Definition is_exhaled (p : Perm) : bool :=
  (Perm.is_curr p || Perm.is_pred p) && negb (is_local_acc p)
  && negb (Perm.get_label p == Some "pre").

Definition exhale_expr (expr : Expr) (state : State) (predicates : Predicates) : result :=
  footprint ← unwrap (get_footprint predicates expr);
  State.remove_all_perms state (List.filter is_exhaled footprint).

(** [has_proper_prefix(..) && !p.is_local()]. *)
Definition proper_extension_not_local (place p : Expr) : option bool :=
  b ← has_proper_prefix p place; Some ((b : bool) && negb (is_local p)).

Definition apply_method_call (targets : list LocalVar) (state : State) : result :=
  let is_target := fun p => base ← get_base p; Some (HashSet.contains targets base) in
  unwrap
    (state ← State.remove_moved_matching state is_target;
     state ← State.remove_pred_matching state (fun p => if is_curr p then is_target p else Some false);
     State.remove_acc_matching state
       (fun p => if is_curr p && negb (is_local p) then is_target p else Some false)).

(** The permissions of the original state below [from], moved to [to] while
    they are inserted. *)
Definition move_acc (from to : Expr) (state : State) (e : Expr * PermAmount) : result :=
  let '(p, perm_amount) := e in
  b ← unwrap (has_proper_prefix p from);
  if (b : bool) then
    p ← unwrap (replace_place p from to);
    if is_local p then Val state else State.insert_acc state p perm_amount
  else Val state.

Definition move_pred (from to : Expr) (state : State) (e : Expr * PermAmount) : result :=
  let '(p, perm_amount) := e in
  b ← unwrap (has_prefix p from);
  if (b : bool) then
    p ← unwrap (replace_place p from to);
    State.insert_pred state p perm_amount
  else Val state.

(** What is lost about a place. *)
Definition forget_place (place : Expr) (state : State) : option State :=
  state ← State.remove_pred_matching state (fun p => has_prefix p place);
  State.remove_acc_matching state (proper_extension_not_local place).

(** The right side of a move or borrow: no moved part, and no predicate above. *)
Definition check_rhs (rhs : Expr) (state : State) : outcome FoldUnfoldError unit :=
  _ ← assert_o (is_place rhs);
  typ ← unwrap (get_type rhs);
  _ ← assert_o (Ty.is_ref typ);
  b ← unwrap (State.is_prefix_of_some_moved state rhs);
  if (b : bool) then Err (Unsupported "two-phase borrows are not supported")
  else
    prefixes ← unwrap (all_proper_prefixes rhs);
    assert_o (forallb (fun prefix => negb (State.contains_pred state prefix)) prefixes).

Definition apply_move (lhs_place rhs : Expr) (original_state state : State) : result :=
  state ← unwrap (forget_place rhs state);
  state ← unwrap (forget_place lhs_place state);
  state ← foldM (move_acc rhs lhs_place) state (State.acc original_state);
  state ← foldM (move_pred rhs lhs_place) state (State.pred original_state);
  b ← unwrap (has_prefix rhs lhs_place);
  Val (if (b : bool) then state else State.insert_moved state rhs).

(** Not for ghost assignments. *)
Definition apply_assign (lhs_place rhs : Expr) (kind : AssignKind) (state : State) : result :=
  let original_state := state in
  let is_copy := match kind with AssignKind.Copy => true | _ => false end in
  _ ← (if is_copy then Val tt else check_rhs rhs state);
  state ← unwrap
    (state ← State.remove_moved_matching state (fun p => has_prefix p lhs_place);
     state ← State.remove_pred_matching state (fun p => has_prefix p lhs_place);
     State.remove_acc_matching state (fun p => has_proper_prefix p lhs_place));
  is_ref ← (if is_place rhs then typ ← unwrap (get_type rhs); Val (Ty.is_ref typ) else Val false);
  if (is_ref : bool) then
    match kind with
    | AssignKind.Move | AssignKind.MutableBorrow _ => apply_move lhs_place rhs original_state state
    | AssignKind.SharedBorrow _ => unwrap (forget_place lhs_place state)
    | AssignKind.Ghost | AssignKind.Copy => Panic
    end
  else
    _ ← assert_o is_copy; Val state.

Definition apply_fold (args : list Expr) (perm_amount : PermAmount) (variant : MaybeEnumVariantIndex)
    (predicates : Predicates) (state : State) : result :=
  place ← unwrap (single_arg args);
  _ ← assert_o (negb (State.contains_pred state place));
  moved ← unwrap (State.is_prefix_of_some_moved state place);
  _ ← assert_o (negb moved);
  predicate ← unwrap (predicate_of predicates place);
  footprint ← unwrap (get_body_footprint predicate variant);
  places_in_pred ← unwrap (perms_in_pred (fun p => Perm.init_perm_amount p perm_amount) predicate place footprint);
  state ← State.remove_all_perms state places_in_pred;
  State.insert_pred state place perm_amount.

(** The permissions of the body keep their amounts. *)
Definition apply_unfold (args : list Expr) (perm_amount : PermAmount) (variant : MaybeEnumVariantIndex)
    (predicates : Predicates) (state : State) : result :=
  place ← unwrap (single_arg args);
  _ ← assert_o (State.contains_pred state place);
  moved ← unwrap (State.is_prefix_of_some_moved state place);
  _ ← assert_o (negb moved);
  predicate ← unwrap (predicate_of predicates place);
  footprint ← unwrap (get_body_footprint predicate variant);
  places_in_pred ← unwrap (perms_in_pred Some predicate place footprint);
  _ ← assert_o (forallb (fun contained_place => negb (State.contains_perm state contained_place)) places_in_pred);
  state ← State.remove_pred state place perm_amount;
  State.insert_all_perms state places_in_pred.

(** The permissions of the original state below [lhs_place], at
    [rhs_place]. *)
Definition transferred (is_acc : bool) (lhs_place rhs_place : Expr) (m : HashMap.t Expr PermAmount) :
    option (list (Expr * PermAmount)) :=
  below ← filter_opt (fun e => if is_acc then has_proper_prefix (fst e) lhs_place else has_prefix (fst e) lhs_place) m;
  moved ← mapM_opt (fun e => p ← replace_place (fst e) lhs_place rhs_place; Some (p, snd e)) below;
  Some (if is_acc then List.filter (fun e => negb (is_local (fst e))) moved else moved).

(** Move the access permission itself if the right side is old, and remove
    the one of an old left side. *)
Definition transfer_acc_itself (lhs_place rhs_place : Expr) (state : State) : result :=
  state ←
    (if State.contains_acc state lhs_place && negb (State.contains_acc state rhs_place) && is_old rhs_place then
       perm_amount ← unwrap (HashMap.get (State.acc state) lhs_place);
       state ← State.insert_acc state rhs_place perm_amount;
       if negb (is_local lhs_place) && negb (is_curr lhs_place) then
         snd <$> unwrap (State.remove_acc_place state lhs_place)
       else Val state
     else Val state);
  if State.contains_acc state lhs_place && is_old lhs_place then
    snd <$> unwrap (State.remove_acc_place state lhs_place)
  else Val state.

Definition apply_transfer (lhs_place rhs_place : Expr) (unchecked : bool) (state : State) : result :=
  let original_state := state in
  state ← unwrap
    (state ← forget_place lhs_place state;
     state ← forget_place rhs_place state;
     State.remove_moved_matching state (fun p => has_prefix p rhs_place));
  rhs_type ← unwrap (get_type rhs_place);
  let rhs_is_array := starts_with (Ty.name rhs_type) "Array$" in
  new_acc_places ←
    (if rhs_is_array then Val []
     else unwrap (transferred true lhs_place rhs_place (State.acc original_state)));
  new_pred_places ←
    (if rhs_is_array then Val [(rhs_place, PermAmount.Write)]
     else unwrap (transferred false lhs_place rhs_place (State.pred original_state)));
  state ← State.insert_all_acc state new_acc_places;
  state ← State.insert_all_pred state new_pred_places;
  state ← transfer_acc_itself lhs_place rhs_place state;
  b ← unwrap (has_prefix lhs_place rhs_place);
  Val (if negb b && negb unchecked then State.insert_moved state lhs_place else state).

Definition apply_downcast (enum_place : Expr) (variant_field : Field) (predicates : Predicates) (state : State) :
    result :=
  found ← unwrap (find_unfolded_variant state enum_place);
  match found with
  | Some _ => Val state
  | None =>
      predicate ← unwrap (predicate_of predicates enum_place);
      match predicate with
      | Predicate.Enum enum_predicate =>
          let discriminant_place := field_place enum_place (EnumPredicate.discriminant_field enum_predicate) in
          match HashMap.get (State.acc state) discriminant_place with
          | Some perm_amount =>
              let self_place := expr_of_var (EnumPredicate.this enum_predicate) in
              variant_footprint ← unwrap
                (variant ← EnumVariantIndex.of_field variant_field;
                 footprint ← get_variant_footprint enum_predicate variant;
                 mapM_opt (fun perm =>
                   perm ← Perm.update_perm_amount perm perm_amount;
                   Perm.map_place perm (fun place => replace_place place self_place enum_place)) footprint);
              State.insert_all_perms state variant_footprint
          | None => Val state
          end
      | _ => Panic
      end
  end.

Definition apply_on_state (self : Stmt) (state : State) (predicates : Predicates) : result :=
  match self with
  | Stmt.Comment _ | Stmt.Label _ | Stmt.Assert _ _ | Stmt.Obtain _ _ => Val state
  | Stmt.Inhale expr => inhale_expr expr state predicates
  | Stmt.Exhale expr _ => exhale_expr expr state predicates
  | Stmt.MethodCall _ _ targets => apply_method_call targets state
  | Stmt.Assign _ _ AssignKind.Ghost => Val state
  | Stmt.Assign lhs_place rhs kind => apply_assign lhs_place rhs kind state
  | Stmt.Fold _ args perm_amount variant _ => apply_fold args perm_amount variant predicates state
  | Stmt.Unfold _ args perm_amount variant => apply_unfold args perm_amount variant predicates state
  | Stmt.BeginFrame => Val (State.begin_frame state)
  | Stmt.EndFrame => State.end_frame state
  | Stmt.TransferPerm lhs_place rhs_place unchecked => apply_transfer lhs_place rhs_place unchecked state
  | Stmt.PackageMagicWand (Expr.MagicWand lhs rhs _ _) _ _ _ _ =>
      state ← exhale_expr rhs state predicates; inhale_expr lhs state predicates
  | Stmt.ApplyMagicWand (Expr.MagicWand lhs rhs _ _) _ =>
      state ← exhale_expr lhs state predicates; inhale_expr rhs state predicates
  | Stmt.ExpireBorrows _ => Val state
  | Stmt.Downcast enum_place variant_field => apply_downcast enum_place variant_field predicates state
  | _ => Panic
  end.
End Semantics.
