(* ===== verification/EventLog.v ===== *)
(** * The event log of fold-unfold

    [prusti-viper/src/encoder/foldunfold/log.rs].

    The vectors of prejoin actions are behind [Rc<RwLock<..>>], and cloning a
    log shares them: an action logged through one clone is seen by the
    others.  They live in a heap; a log holds their addresses. *)

From S2P Require Import Prelude Ast ExprEq ExprPlace ExprTransformers ExprOps Collections Borrows Stmt.
From S2P Require Import Cfg Perm.

(** The vectors, by address. *)
Definition Heap : Type := list (list Action).

(** Stable sort by a comparison that may panic ([slice::sort_by]). *)
Fixpoint insert_sorted {A} (cmp : A -> A -> option comparison) (x : A) (l : list A) : option (list A) :=
  match l with
  | [] => Some [x]
  | y :: l' =>
      c ← cmp x y;
      match c with
      | Gt => l' ← insert_sorted cmp x l'; Some (y :: l')
      | _ => Some (x :: l)
      end
  end.

Fixpoint sort_by {A} (cmp : A -> A -> option comparison) (l : list A) : option (list A) :=
  match l with
  | [] => Some []
  | x :: l' => l' ← sort_by cmp l'; insert_sorted cmp x l'
  end.

(** [entry(k).or_insert(vec![]).push(v)]. *)
Definition push_log_entry {K V} `{PartialEq K} (m : HashMap.t K (list V)) (k : K) (v : V) : HashMap.t K (list V) :=
  HashMap.insert m k ((match HashMap.get m k with Some vs => vs | None => [] end) ++ [v])%list.

(** Insert the entries of [other] whose keys are new. *)
Definition add_missing {K V} `{PartialEq K} (m other : HashMap.t K V) : HashMap.t K V :=
  foldl (fun m e => if HashMap.contains_key m (fst e) then m else HashMap.insert m (fst e) (snd e)) m other.

Module EventLog.
Record EventLog : Type := make {
  (** addresses of the actions performed before the join *)
  prejoin_actions : HashMap.t CfgBlockIndex nat;
  (** the access predicate, the right side of the assignment that created
      the borrow, and a unique number *)
  duplicated_reads : HashMap.t Borrow (list (Expr * Expr * Z));
  (** the place that is blocked by a borrow *)
  blocked_place : HashMap.t Borrow Expr;
  (** predicates converted from [Write] to [Read] when creating a borrow *)
  converted_to_read_places : HashMap.t Borrow (list Expr);
  (** a generator of unique numbers *)
  id_generator : Z
}.

Definition new : EventLog := make HashMap.empty HashMap.empty HashMap.empty HashMap.empty 0%Z.

Definition log_prejoin_action (heap : Heap) (self : EventLog) (block_index : CfgBlockIndex) (action : Action) :
    Heap * EventLog :=
  match HashMap.get (prejoin_actions self) block_index with
  | Some addr => (alter (fun actions => actions ++ [action])%list addr heap, self)
  | None =>
      ((heap ++ [[action]])%list,
       make (HashMap.insert (prejoin_actions self) block_index (length heap)) (duplicated_reads self)
         (blocked_place self) (converted_to_read_places self) (id_generator self))
  end.

(** The dropped permissions of one action. *)
Definition dropped_by (dag : DAG.DAG Stmt) (action : Action) : option (list Perm) :=
  match action with
  | Action.Drop perm missing_perm =>
      b ← DAG.in_borrowed_places dag (Perm.get_place missing_perm);
      Some (if (b : bool) then [perm] else [])
  | _ => Some []
  end.

(** An address out of range cannot occur: [None]. *)
Definition collect_dropped_permissions (heap : Heap) (self : EventLog) (path : list CfgBlockIndex)
    (dag : DAG.DAG Stmt) : option (list Perm) :=
  _ ← assert_ (Nat.ltb 0 (length path));
  @concat Perm <$>
    mapM_opt (fun curr_block_index =>
      match HashMap.get (prejoin_actions self) curr_block_index with
      | Some addr => actions ← heap !! addr; @concat Perm <$> mapM_opt (dropped_by dag) actions
      | None => Some []
      end) (removelast path).

Definition log_read_permission_duplication (self : EventLog) (borrow : Borrow) (perm original_place : Expr) :
    EventLog :=
  make (prejoin_actions self) (push_log_entry (duplicated_reads self) borrow (perm, original_place, id_generator self))
    (blocked_place self) (converted_to_read_places self) (wrap_u32 (id_generator self + 1)).

(** Predicates first; then accesses, the deepest and latest first. *)
Definition compare_reads (a b : Expr * Expr * Z) : option comparison :=
  let '(access1, _, id1) := a in
  let '(access2, _, id2) := b in
  match access1, access2 with
  | Expr.PredicateAccessPredicate _ _ _ _, Expr.PredicateAccessPredicate _ _ _ _ => Some Eq
  | Expr.PredicateAccessPredicate _ _ _ _, Expr.FieldAccessPredicate _ _ _ => Some Lt
  | Expr.FieldAccessPredicate _ _ _, Expr.PredicateAccessPredicate _ _ _ _ => Some Gt
  | Expr.FieldAccessPredicate place1 _ _, Expr.FieldAccessPredicate place2 _ _ =>
      depth1 ← place_depth place1;
      depth2 ← place_depth place2;
      Some match (depth2 ?= depth1)%Z with
           | Eq => (id2 ?= id1)%Z
           | c => c
           end
  | _, _ => None
  end.

Definition get_duplicated_read_permissions (self : EventLog) (borrow : Borrow) : option (list (Expr * Expr)) :=
  let entries := match HashMap.get (duplicated_reads self) borrow with Some l => l | None => [] end in
  map fst <$> sort_by compare_reads entries.

(** [get_perm_amount] panics on an expression that is not an access. *)
Definition log_convertion_to_read (self : EventLog) (borrow : Borrow) (perm : Expr) : option EventLog :=
  amount ← get_perm_amount perm;
  _ ← assert_ (amount == PermAmount.Remaining);
  Some (make (prejoin_actions self) (duplicated_reads self) (blocked_place self)
          (push_log_entry (converted_to_read_places self) borrow perm) (id_generator self)).

Definition get_converted_to_read_places (self : EventLog) (borrow : Borrow) : list Expr :=
  match HashMap.get (converted_to_read_places self) borrow with
  | Some accesses => accesses
  | None => []
  end.

Definition log_borrow_expiration (self : EventLog) (borrow : Borrow) : EventLog :=
  make (prejoin_actions self) (HashMap.remove (duplicated_reads self) borrow)
    (HashMap.remove (blocked_place self) borrow)
    (HashMap.remove (converted_to_read_places self) borrow) (id_generator self).

Definition join (self other : EventLog) : EventLog :=
  make (add_missing (prejoin_actions self) (prejoin_actions other))
    (add_missing (duplicated_reads self) (duplicated_reads other))
    (add_missing (blocked_place self) (blocked_place other))
    (add_missing (converted_to_read_places self) (converted_to_read_places other))
    (Z.max (id_generator self) (id_generator other)).
End EventLog.
Abbreviation EventLog := EventLog.EventLog.
