(* ===== verification/PathCtxt.v ===== *)
(** * The fold-unfold context of a path

    [prusti-viper/src/encoder/foldunfold/path_ctxt.rs]: obtaining
    permissions by folding and unfolding, and joining the contexts of two
    branches.  ([find_variant] and [find_unfolded_variant] are in
    [FuSemantics].)

    A context passed as [&mut] is an argument and a result.  [obtain] is
    recursive without a bound in the code; here it has fuel, and
    [ObtainFacts] shows that [obtain_bound] is enough: what is returned when
    the fuel is used up makes no difference. *)

From S2P Require Import Prelude Ast ExprEq ExprPlace ExprTransformers ExprOps Collections Typaram ExprReplace.
From S2P Require Import Items Borrows Stmt Cfg Perm FuState Footprint FuSemantics EventLog.

(** [iter().find(f)] where the test may panic. *)
Fixpoint find_opt {A} (f : A -> option bool) (l : list A) : option (option A) :=
  match l with
  | [] => Some None
  | x :: l' => b ← f x; if (b : bool) then Some (Some x) else find_opt f l'
  end.

(** ** Fold targets and conflicts *)

(** The enums that [item_set] has unfolded to a variant that [second_set]
    does not have. *)
Definition conflicting_bases (item_set second_set : HashSet.t Expr) : option (list Expr) :=
  @concat Expr <$> mapM_opt (fun item =>
    match item with
    | Expr.Variant base _ _ =>
        b ← any_opt (fun p => has_prefix p item) second_set; Some (if (b : bool) then [] else [base])
    | _ => Some []
    end) item_set.

Definition place_check (conflicting_base : HashSet.t Expr) (item_set other_set : HashSet.t Expr) (item : Expr) :
    option bool :=
  not_leaf ← any_opt (fun p => has_proper_prefix p item) item_set;
  above_other ← any_opt (fun p => has_prefix p item) other_set;
  conflict ← any_opt (fun base => has_prefix item base) conflicting_base;
  Some (negb not_leaf && negb above_other && negb conflict).

Definition compute_fold_target (left_set right_set : HashSet.t Expr) :
    option (HashSet.t Expr * HashSet.t Expr) :=
  left_bases ← conflicting_bases left_set right_set;
  right_bases ← conflicting_bases right_set left_set;
  let conflicting_base := HashSet.from_list (left_bases ++ right_bases)%list in
  left_places ← filter_opt (place_check conflicting_base left_set right_set) left_set;
  right_places ← filter_opt (place_check conflicting_base right_set left_set) right_set;
  pred_places ← filter_opt (fun place =>
    negb <$> any_opt (fun base => has_proper_prefix place base) conflicting_base) conflicting_base;
  Some (HashSet.from_list (left_places ++ right_places)%list, pred_places).

(** Drop the permissions below a required predicate. *)
Definition solve_conficts (perms : list Perm) : option (list Perm) :=
  filter_opt (fun p =>
    negb <$> any_opt (fun q =>
      if Perm.is_pred q then has_proper_prefix (Perm.get_place p) (Perm.get_place q) else Some false) perms) perms.

(** ** Amounts *)

(** [a >= b] of [PartialOrd]. *)
Definition amount_ge (a b : PermAmount) : bool :=
  match PermAmount.partial_cmp a b with
  | Some Gt | Some Eq => true
  | _ => false
  end.

(** [iter().min()]: the comparison panics on [Remaining]. *)
Fixpoint min_from (m : PermAmount) (l : list PermAmount) : option PermAmount :=
  match l with
  | [] => Some m
  | a :: l' =>
      c ← PermAmount.cmp m a;
      min_from (match c with Gt => a | _ => m end) l'
  end.

Definition min_amount (l : list PermAmount) : option (option PermAmount) :=
  match l with
  | [] => Some None
  | a :: l' => Some <$> min_from a l'
  end.

Definition min_or_write (l : list PermAmount) : option PermAmount :=
  m ← min_amount l; Some (match m with Some a => a | None => PermAmount.Write end).

Inductive ObtainResult : Type :=
  | Success (actions : list Action)
  | Failure (missing : Perm).

Definition get_actions (self : ObtainResult) : outcome FoldUnfoldError (list Action) :=
  match self with
  | Success actions => Val actions
  | Failure p => Err (FailedToObtain p)
  end.

Section Obtain.
Context `{RegexCrate}.
Variable predicates : Predicates.

(** ** Unfold *)

Definition unfold_pred (state : State) (pred_place : Expr) (perm_amount : PermAmount)
    (variant : MaybeEnumVariantIndex) : outcome FoldUnfoldError (State * Action) :=
  _ ← assert_o (State.contains_pred state pred_place);
  _ ← assert_o (PermAmount.is_valid_for_specs perm_amount);
  predicate_name ← unwrap (typed_ref_name pred_place);
  predicate_name ← unwrap predicate_name;
  predicate ← match HashMap.get predicates predicate_name with
              | Some predicate => Val predicate
              | None => Err (MissingPredicate predicate_name)
              end;
  footprint ← unwrap (get_body_footprint predicate variant);
  places_in_pred ← unwrap (perms_in_pred (fun p => Perm.update_perm_amount p perm_amount) predicate pred_place footprint);
  state ← State.remove_pred state pred_place perm_amount;
  state ← State.insert_all_perms state places_in_pred;
  Val (state, Action.Unfold predicate_name [pred_place] perm_amount variant).

(** ** Obtain *)

(** What the state can offer for the places of a predicate body. *)
Definition fold_amount (state : State) (places_in_pred : list Perm) : option PermAmount :=
  amounts ← mapM_opt (fun p =>
    offers ← filter_opt (fun e => has_prefix (fst e) (Perm.get_place p)) (State.acc state ++ State.pred state)%list;
    min_or_write (map snd offers)) places_in_pred;
  min_or_write amounts.

(** The loop that obtains the permissions of the body; the result is the
    state, the actions so far and the failure, if any. *)
Fixpoint obtain_body (obtain : State -> Perm -> outcome FoldUnfoldError (State * ObtainResult))
    (pos : Position) (state : State) (actions : list Action) (places : list Perm) :
    outcome FoldUnfoldError (State * ObtainResult) :=
  match places with
  | [] => Val (state, Success actions)
  | fold_req_place :: rest =>
      new_req_place ← unwrap (Perm.set_default_pos fold_req_place pos);
      r ← obtain state new_req_place;
      let '(state, obtain_result) := r in
      match obtain_result with
      | Success new_actions => obtain_body obtain pos state (actions ++ new_actions)%list rest
      | Failure p => Val (state, Failure p)
      end
  end.

(** Step 4: obtain the predicate [req] with a fold. *)
Definition obtain_fold (obtain : State -> Perm -> outcome FoldUnfoldError (State * ObtainResult))
    (state : State) (req : Perm) : outcome FoldUnfoldError (State * ObtainResult) :=
  let place := Perm.get_place req in
  predicate_name ← unwrap (typed_ref_name place);
  predicate_name ← unwrap predicate_name;
  predicate ← unwrap (HashMap.get predicates predicate_name);
  variant ← unwrap (find_unfolded_variant state place);
  existing_proper_perm_extension_opt ←
    unwrap (find_opt (fun p => has_proper_prefix p place) (State.acc_places state));
  footprint ← unwrap (get_body_footprint predicate variant);
  places_in_pred ← unwrap (perms_in_pred Some predicate place footprint);
  let can_fold :=
    match existing_proper_perm_extension_opt with
    | Some _ => true
    | None => match places_in_pred with [] => true | _ => false end && negb (Predicate.is_abstract predicate)
    end in
  if can_fold then
    perm_amount ← unwrap (fold_amount state places_in_pred);
    let pos := pos place in
    r ← obtain_body obtain pos state [] places_in_pred;
    let '(state, result) := r in
    match result with
    | Failure p => Val (state, Failure p)
    | Success actions =>
        scaled_places_in_pred ← unwrap (mapM_opt (fun perm => Perm.update_perm_amount perm perm_amount) places_in_pred);
        state ← State.remove_all_perms state scaled_places_in_pred;
        state ← State.insert_pred state place perm_amount;
        Val (state, Success (actions ++ [Action.Fold predicate_name [place] perm_amount variant pos])%list)
    end
  else Val (state, Failure req).

(** One call of [obtain]; [obtain] is the recursive call.  [in_join]: are we
    trying to join branches? *)
Definition obtain_step (obtain : State -> Perm -> bool -> outcome FoldUnfoldError (State * ObtainResult))
    (state : State) (req : Perm) (in_join : bool) : outcome FoldUnfoldError (State * ObtainResult) :=
  if State.contains_perm state req then Val (state, Success [])
  else if Perm.is_acc req && Perm.is_local req then Val (state, Success [])
  else
    existing_prefix_pred_opt ← unwrap (find_opt (fun p => Perm.has_proper_prefix req p) (State.pred_places state));
    match existing_prefix_pred_opt with
    | Some existing_pred_to_unfold =>
        perm_amount ← unwrap (HashMap.get (State.pred state) existing_pred_to_unfold);
        _ ← assert_o (amount_ge perm_amount (Perm.get_perm_amount req));
        variant ← unwrap (find_variant existing_pred_to_unfold (Perm.get_place req));
        r ← unfold_pred state existing_pred_to_unfold perm_amount variant;
        let '(state, action) := r in
        r ← obtain state req false;
        let '(state, result) := r in
        new_actions ← get_actions result;
        Val (state, Success (action :: new_actions))
    | None =>
        if Perm.is_pred req then obtain_fold (fun state p => obtain state p false) state req
        else if in_join && (Perm.get_perm_amount req == PermAmount.Read) then Val (state, Failure req)
        else Val (state, Failure req)
    end.

(** [obtain] cut off after [fuel] nested calls: the next one gives [cut],
    which is no result of [obtain]. *)
Fixpoint obtain_fuel (cut : outcome FoldUnfoldError (State * ObtainResult)) (fuel : nat)
    (state : State) (req : Perm) (in_join : bool) : outcome FoldUnfoldError (State * ObtainResult) :=
  match fuel with
  | 0 => cut
  | S fuel' => obtain_step (obtain_fuel cut fuel') state req in_join
  end.

Definition obtain_bound (state : State) (req : Perm) : nat :=
  let l := S (path_length (Perm.get_place req)) in
  l * l + list_max (map path_length (HashMap.keys (State.acc state))) + 3.

Definition obtain (state : State) (req : Perm) (in_join : bool) : outcome FoldUnfoldError (State * ObtainResult) :=
  obtain_fuel Panic (obtain_bound state req) state req in_join.

Fixpoint obtain_all (state : State) (reqs : list Perm) : outcome FoldUnfoldError (State * list Action) :=
  match reqs with
  | [] => Val (state, [])
  | perm :: rest =>
      r ← obtain state perm false;
      let '(state, result) := r in
      actions ← get_actions result;
      r ← obtain_all state rest;
      let '(state, more) := r in
      Val (state, (actions ++ more)%list)
  end.

Definition obtain_permissions (state : State) (permissions : list Perm) :
    outcome FoldUnfoldError (State * list Action) :=
  permissions ← unwrap (solve_conficts permissions);
  obtain_all state permissions.
End Obtain.

(** ** Contexts *)

Module PathCtxt.
Record PathCtxt : Type := make {
  state : State;
  (** the definition of the predicates *)
  predicates : Predicates;
  (** all usages of old expressions to consider *)
  old_exprs : OldExprs;
  (** a log of some of the actions that lead to this context *)
  log : EventLog
}.

Definition new (local_vars : list LocalVar) (predicates : Predicates) (old_exprs : OldExprs) : PathCtxt :=
  make (State.new (HashMap.from_list (map (fun v => (expr_of_var v, PermAmount.Write)) local_vars)) [] [])
    predicates old_exprs EventLog.new.

Definition with_state (self : PathCtxt) (s : State) : PathCtxt :=
  make s (predicates self) (old_exprs self) (log self).
Definition with_log (self : PathCtxt) (l : EventLog) : PathCtxt :=
  make (state self) (predicates self) (old_exprs self) l.
End PathCtxt.
Abbreviation PathCtxt := PathCtxt.PathCtxt.

Section Join.
Context `{RegexCrate}.

Definition apply_stmt (self : PathCtxt) (stmt : Stmt) : outcome FoldUnfoldError PathCtxt :=
  PathCtxt.with_state self <$> apply_on_state stmt (PathCtxt.state self) (PathCtxt.predicates self).

Definition ctxt_obtain (self : PathCtxt) (req : Perm) (in_join : bool) :
    outcome FoldUnfoldError (PathCtxt * ObtainResult) :=
  r ← obtain (PathCtxt.predicates self) (PathCtxt.state self) req in_join;
  Val (PathCtxt.with_state self (fst r), snd r).

Definition ctxt_obtain_permissions (self : PathCtxt) (permissions : list Perm) :
    outcome FoldUnfoldError (PathCtxt * list Action) :=
  r ← obtain_permissions (PathCtxt.predicates self) (PathCtxt.state self) permissions;
  Val (PathCtxt.with_state self (fst r), snd r).

(** ** Join *)

(** A branch: its context and the actions to add at its end. *)
Definition Branch : Type := PathCtxt * list Action.

Definition branch_state (b : Branch) : State := PathCtxt.state (fst b).
Definition set_branch_state (b : Branch) (s : State) : Branch := (PathCtxt.with_state (fst b) s, snd b).
Definition push_action (b : Branch) (a : Action) : Branch := (fst b, (snd b ++ [a])%list).

(** Remove the permission to a place and log why. *)
Definition drop_acc (missing : option Perm) (b : Branch) (place : Expr) : option Branch :=
  r ← State.remove_acc_place (branch_state b) place;
  let perm := Perm.Acc place (fst r) in
  Some (push_action (set_branch_state b (snd r)) (Action.Drop perm (match missing with Some m => m | None => perm end))).

Definition drop_pred (missing : option Perm) (b : Branch) (place : Expr) : option Branch :=
  r ← State.remove_pred_place (branch_state b) place;
  let perm := Perm.Pred place (fst r) in
  Some (push_action (set_branch_state b (snd r)) (Action.Drop perm (match missing with Some m => m | None => perm end))).

Fixpoint foldl_opt {S A} (f : S -> A -> option S) (s : S) (l : list A) : option S :=
  match l with
  | [] => Some s
  | x :: l' => s ← f s x; foldl_opt f s l'
  end.

(** What a branch gives up about [pred_place] when the other branch lacks
    [missing_perm]. *)
Definition remove_places (pred_place : Expr) (missing_perm : Perm) (b : Branch) : option Branch :=
  s ← State.remove_moved_matching (branch_state b) (fun moved_place => has_prefix moved_place pred_place);
  let b := set_branch_state b s in
  b ← foldl_opt (fun b acc_place =>
        p ← has_proper_prefix acc_place pred_place;
        if (p : bool) then drop_acc (Some missing_perm) b acc_place else Some b) b (State.acc_places s);
  foldl_opt (fun b place =>
    p ← has_prefix place pred_place;
    if (p : bool) then drop_pred (Some missing_perm) b place else Some b) b (State.pred_places (branch_state b)).

(** Obtain the predicate in the first branch; if that fails, give it up in
    both. *)
Definition try_obtain_pred (pred_perm : Perm) (left_branch right_branch : Branch) :
    outcome FoldUnfoldError (Branch * Branch) :=
  r ← ctxt_obtain (fst left_branch) pred_perm true;
  let left_branch := (fst r, snd left_branch) in
  match snd r with
  | Success new_actions => Val ((fst left_branch, (snd left_branch ++ new_actions)%list), right_branch)
  | Failure missing_perm =>
      let pred_place := Perm.get_place pred_perm in
      left_branch ← unwrap (remove_places pred_place missing_perm left_branch);
      right_branch ← unwrap (remove_places pred_place missing_perm right_branch);
      Val (left_branch, right_branch)
  end.

Definition get_acc_amount_below (s : State) (pred_place : Expr) : option (option PermAmount) :=
  e ← find_opt (fun e => has_proper_prefix (fst e) pred_place) (State.acc s); Some (option_map snd e).

Definition join_pred (branches : Branch * Branch) (pred_place : Expr) : outcome FoldUnfoldError (Branch * Branch) :=
  let '(left_branch, right_branch) := branches in
  left_amount ← unwrap (get_acc_amount_below (branch_state left_branch) pred_place);
  perm_amount ← match left_amount with
                | Some a => Val a
                | None =>
                    a ← unwrap (get_acc_amount_below (branch_state right_branch) pred_place); unwrap a
                end;
  let pred_perm := Perm.Pred pred_place perm_amount in
  r ← try_obtain_pred pred_perm left_branch right_branch;
  let '(left_branch, right_branch) := r in
  r ← try_obtain_pred pred_perm right_branch left_branch;
  let '(right_branch, left_branch) := r in
  Val (left_branch, right_branch).

(** Obtain the access in the first branch by unfolding; if that fails, drop
    it in the second. *)
Definition try_obtain_acc (acc_place : Expr) (left_branch right_branch : Branch) :
    outcome FoldUnfoldError (bool * Branch * Branch) :=
  if State.contains_acc (branch_state left_branch) acc_place then Val (true, left_branch, right_branch)
  else
    perm_amount ← unwrap (HashMap.get (State.acc (branch_state right_branch)) acc_place);
    let perm := Perm.Acc acc_place perm_amount in
    r ← ctxt_obtain (fst left_branch) perm true;
    let left_branch := (fst r, snd left_branch) in
    match snd r with
    | Success new_actions => Val (true, (fst left_branch, (snd left_branch ++ new_actions)%list), right_branch)
    | Failure missing_perm =>
        s ← State.remove_perm (branch_state right_branch) perm;
        Val (false, left_branch, push_action (set_branch_state right_branch s) (Action.Drop perm missing_perm))
    end.

Definition join_acc (branches : Branch * Branch) (acc_place : Expr) : outcome FoldUnfoldError (Branch * Branch) :=
  let '(left_branch, right_branch) := branches in
  r ← try_obtain_acc acc_place left_branch right_branch;
  let '(ok, left_branch, right_branch) := r in
  if (ok : bool) then
    r ← try_obtain_acc acc_place right_branch left_branch;
    let '(_, right_branch, left_branch) := r in Val (left_branch, right_branch)
  else Val (left_branch, right_branch).

Definition on_branches (f : Branch -> option Branch) (branches : Branch * Branch) : option (Branch * Branch) :=
  l ← f (fst branches); r ← f (snd branches); Some (l, r).

(** The predicates below a place that is moved out in the other branch. *)
Definition drop_moved_preds (moved_paths : HashSet.t Expr) (b : Branch) : option Branch :=
  places ← filter_proper_extensions_of (State.pred_places (branch_state b)) moved_paths;
  foldl_opt (drop_pred None) b places.

Definition drop_moved_accs (moved_paths : HashSet.t Expr) (b : Branch) : option Branch :=
  places ← filter_proper_extensions_of (State.acc_places (branch_state b)) moved_paths;
  foldl_opt (drop_acc None) b places.

Definition keep_preds (preserved_preds : HashSet.t Expr) (b : Branch) : option Branch :=
  foldl_opt (drop_pred None) b (HashSet.difference (State.pred_places (branch_state b)) preserved_preds).

(** The accesses that [other] does not have. *)
Definition drop_other_accs (other b : Branch) : option Branch :=
  foldl_opt (fun b acc_place =>
    r ← State.remove_acc_place (branch_state b) acc_place;
    let perm := Perm.Acc acc_place (fst r) in
    s ← State.remove_moved_matching (snd r) (fun moved_place => has_prefix moved_place acc_place);
    Some (push_action (set_branch_state b s) (Action.Drop perm perm))) b
    (HashSet.difference (State.acc_places (branch_state b)) (State.acc_places (branch_state other))).

(** Turn [Write] into [Read] where the other branch has [Read]. *)
Definition weaken (is_acc : bool) (branches : Branch * Branch) (place : Expr) :
    outcome FoldUnfoldError (Branch * Branch) :=
  let '(l, r) := branches in
  let amounts := fun b => if is_acc then State.acc (branch_state b) else State.pred (branch_state b) in
  let perm := (if is_acc then Perm.Acc else Perm.Pred) place PermAmount.Remaining in
  left_perm ← unwrap (HashMap.get (amounts l) place);
  right_perm ← unwrap (HashMap.get (amounts r) place);
  l ← (if (left_perm == PermAmount.Write) && (right_perm == PermAmount.Read) then
         s ← State.remove_perm (branch_state l) perm; Val (push_action (set_branch_state l s) (Action.Drop perm perm))
       else Val l);
  r ← (if (left_perm == PermAmount.Read) && (right_perm == PermAmount.Write) then
         s ← State.remove_perm (branch_state r) perm; Val (push_action (set_branch_state r s) (Action.Drop perm perm))
       else Val r);
  Val (l, r).

(** Obtain what the other branch has: predicates by folding, accesses by
    unfolding. *)
Definition reconcile (moved_paths : HashSet.t Expr) (branches : Branch * Branch) :
    outcome FoldUnfoldError (Branch * Branch) :=
  let '(l, r) := branches in
  targets ← unwrap (compute_fold_target (State.acc_places (branch_state l)) (State.acc_places (branch_state r)));
  unfold_actual_acc ← unwrap (filter_not_proper_extensions_of (fst targets) moved_paths);
  fold_actual_pred ← unwrap (filter_not_proper_extensions_of (snd targets) moved_paths);
  branches ← foldM join_pred (l, r) fold_actual_pred;
  foldM join_acc branches unfold_actual_acc.

(** Drop what is not in both branches and make the amounts equal. *)
Definition align (moved_paths : HashSet.t Expr) (branches : Branch * Branch) :
    outcome FoldUnfoldError (Branch * Branch) :=
  branches ← unwrap (on_branches (drop_moved_preds moved_paths) branches);
  let preserved_preds := intersection (State.pred_places (branch_state (fst branches)))
                           (State.pred_places (branch_state (snd branches))) in
  branches ← unwrap (on_branches (keep_preds preserved_preds) branches);
  branches ← unwrap (on_branches (drop_moved_accs moved_paths) branches);
  l ← unwrap (drop_other_accs (snd branches) (fst branches));
  r ← unwrap (drop_other_accs l (snd branches));
  branches ← foldM (weaken true) (l, r) (State.acc_places (branch_state l));
  branches ← foldM (weaken false) branches (State.pred_places (branch_state (fst branches)));
  _ ← assert_o (HashMap.eqb (State.acc (branch_state (fst branches))) (State.acc (branch_state (snd branches))));
  _ ← assert_o (HashMap.eqb (State.pred (branch_state (fst branches))) (State.pred (branch_state (snd branches))));
  Val branches.

(** Bring two different states together. *)
Definition join_states (branches : Branch * Branch) : outcome FoldUnfoldError (Branch * Branch) :=
  let '(l, r) := branches in
  moved_paths ← unwrap (ancestors (HashSet.union (State.moved (branch_state l)) (State.moved (branch_state r))));
  let l := set_branch_state l (State.set_moved (branch_state l) moved_paths) in
  let r := set_branch_state r (State.set_moved (branch_state r) moved_paths) in
  branches ← reconcile moved_paths (l, r);
  align moved_paths branches.

(** The result is the joined context and the actions of the two branches. *)
Definition join (self other : PathCtxt) : outcome FoldUnfoldError (PathCtxt * list Action * list Action) :=
  branches ←
    (if PathCtxt.state self == PathCtxt.state other then Val ((self, []), (other, []))
     else join_states ((self, []), (other, [])));
  let '((self, left_actions), (other, right_actions)) := branches in
  Val (PathCtxt.with_log self (EventLog.join (PathCtxt.log self) (PathCtxt.log other)), left_actions, right_actions).
End Join.
