(* ===== verification/PathCtxtFacts.v ===== *)
(** * Folding, unfolding and obtaining permissions: theorems

    Folding and unfolding a predicate are inverse on the permission state,
    and [obtain] terminates and, when it succeeds, the permission is there.
    The theorems are about predicates whose bodies only give permissions to
    the fields (or the variant) of [self], as those the encoder builds
    ([struct_direct], [enum_direct]). *)

From Stdlib Require Import Lia.
From S2P Require Import Prelude Ast ExprEq ExprPlace ExprTransformers ExprOps Collections Typaram ExprReplace.
From S2P Require Import Items Borrows Stmt Cfg Perm FuState Footprint.
From S2P Require Import FuSemantics EventLog PathCtxt.

(** ** Bodies of predicates *)

Section Bodies.
Context `{RegexLaws}.
Implicit Types (predicates : Predicates) (P : Predicate) (s : State) (place : Expr).

(** [e] is a direct projection of [place]. *)
Definition child_of (place e : Expr) : Prop :=
  is_place e = true /\ exists t, get_parent e = Some (Some t) /\ (t == place) = true.

Definition direct_perms (place : Expr) (ps : list Perm) : Prop := Forall (fun p => child_of place (Perm.get_place p)) ps.

(** The body of [P] is about the projections of [self]. *)
Definition direct (P : Predicate) : Prop :=
  forall variant footprint, get_body_footprint P variant = Some footprint ->
    direct_perms (Predicate.self_place P) footprint.

Definition all_direct (predicates : Predicates) : Prop := Forall (fun e => direct (snd e)) predicates.

Lemma child_prefix place e : child_of place e -> has_prefix e place = Some true.
Proof.
  intros (_ & t & Ht & Htp). apply (has_prefix_parent e t place Ht). by rewrite has_prefix_eq, Htp.
Qed.

Lemma child_length place e : child_of place e -> path_length e = S (path_length place).
Proof. intros (_ & t & Ht & Htp). by rewrite (path_length_parent e t Ht), (path_length_eqb t place Htp). Qed.

Lemma child_neq place e : child_of place e -> (place == e) = false.
Proof.
  intros Hc%child_length. destruct (place == e) eqn:E; [|done]. apply path_length_eqb in E. lia.
Qed.

Lemma replace_below e target replacement e' :
  is_place e = true -> has_prefix e target = Some true -> replace_place e target replacement = Some e' ->
  below target replacement e e'.
Proof.
  intros Hp Ht E. assert (Hts : exists ts, learn_typarams target replacement = Some ts).
  { revert E. unfold replace_place. cbn [replace_place_fuel].
    destruct (learn_typarams target replacement) as [ts|]; [by exists ts|done]. }
  destruct Hts as [ts Hts]. destruct (replace_place_below e target replacement ts Hts Hp Ht) as (e2 & E2 & Hb).
  congruence.
Qed.

(** A projection of [self] becomes the projection of the place. *)
Lemma replace_child e target replacement e' :
  child_of target e -> replace_place e target replacement = Some e' ->
  get_parent e' = Some (Some replacement) /\ is_place e = true
  /\ (comparable replacement = true -> comparable e' = true).
Proof.
  intros Hc E. pose proof Hc as (Hp & t & Ht & Htt).
  pose proof (replace_below e target replacement e' Hp (child_prefix _ _ Hc) E) as Hb.
  pose proof (child_length _ _ Hc) as Hl.
  assert (Hhere : forall u u', below target replacement u u' -> path_length u = path_length target -> u' = replacement).
  { intros u u' Hu Hlu. destruct Hu as [u Hu|u u' f p Hu|u u' f f' p Hu|u u' ty p Hu]; [done|..];
      pose proof (below_length _ _ _ _ Hu); cbn in Hlu; lia. }
  split; [|split; [done|]].
  - inversion Hb; subst; cbn in *.
    + match goal with E : (e == target) = true |- _ => apply path_length_eqb in E end. lia.
    + rewrite (Hhere e0 e'0) by (done || lia). done.
    + rewrite (Hhere e0 e'0) by (done || lia). done.
    + rewrite (Hhere e0 e'0) by (done || lia). done.
  - intros Hr. inversion Hb; subst; cbn in *; [done|..]; rewrite (Hhere e0 e'0) by (done || lia); done.
Qed.

(** ** The permissions in a predicate *)

Definition keeps_place (amount : Perm -> option Perm) : Prop :=
  forall p p', amount p = Some p' -> Perm.get_place p' = Perm.get_place p /\ Perm.is_acc p' = Perm.is_acc p.

Lemma with_amount_place p a :
  Perm.get_place (Perm.with_amount p a) = Perm.get_place p /\ Perm.is_acc (Perm.with_amount p a) = Perm.is_acc p.
Proof. by destruct p. Qed.

Lemma init_keeps_place a : keeps_place (fun p => Perm.init_perm_amount p a).
Proof.
  intros p p'. unfold Perm.init_perm_amount. destruct (assert_ _); cbn; [|done].
  destruct (Perm.get_perm_amount p); try done; intros [= <-]; apply with_amount_place.
Qed.

Lemma update_keeps_place a : keeps_place (fun p => Perm.update_perm_amount p a).
Proof.
  intros p p' E. unfold Perm.update_perm_amount in E. inv_option. subst. apply with_amount_place.
Qed.

Lemma some_keeps_place : keeps_place Some.
Proof. by intros p p' [= <-]. Qed.

Lemma map_place_some p f p' :
  Perm.map_place p f = Some p' ->
  f (Perm.get_place p) = Some (Perm.get_place p') /\ Perm.is_acc p' = Perm.is_acc p
  /\ Perm.get_perm_amount p' = Perm.get_perm_amount p.
Proof. destruct p; cbn; intros E; inv_option; subst; cbn; split_and!; done. Qed.

Lemma mapM_opt_image_Forall {A B} (f : A -> option B) (Q : A -> Prop) (R : B -> Prop) l l' :
  (forall x y, Q x -> f x = Some y -> R y) -> Forall Q l -> mapM_opt f l = Some l' -> Forall R l'.
Proof.
  intros Hf Hl. revert l'. induction Hl as [|x l Hx Hl IH]; intros l'; cbn; [intros [= <-]; constructor|].
  intros E. inv_option. subst. constructor; [by eapply Hf|by apply IH].
Qed.

(** The permissions of the body of the predicate of [place] are about the
    projections of [place]. *)
Definition body_of (place : Expr) (ps : list Perm) : Prop :=
  Forall (fun p => get_parent (Perm.get_place p) = Some (Some place)) ps
  /\ (comparable place = true -> places_comparable ps).

Lemma perms_in_pred_body amount P place variant footprint ps :
  direct P -> keeps_place amount -> get_body_footprint P variant = Some footprint ->
  perms_in_pred amount P place footprint = Some ps -> body_of place ps.
Proof.
  intros Hd Ha Hf E. specialize (Hd variant footprint Hf).
  assert (Hall : Forall (fun p => get_parent (Perm.get_place p) = Some (Some place)
    /\ (comparable place = true -> comparable (Perm.get_place p) = true)) ps).
  { refine (mapM_opt_image_Forall _ _ _ _ _ _ Hd E). intros p q Hp Eq. cbn in Eq. inv_option.
    apply map_place_some in Hx as (Hx & _ & _). apply Ha in Eq as [-> _].
    destruct (replace_child _ _ _ _ Hp Hx) as (? & _ & ?). done. }
  split; [by eapply Forall_impl; [exact Hall|intros p []]|].
  intros Hc. eapply Forall_impl; [exact Hall|]. intros p [_ Hp]. by apply Hp.
Qed.

Lemma body_amounts_at place ps b : body_of place ps -> amounts_at ps b place = [].
Proof.
  intros [Hb _]. unfold amounts_at. induction Hb as [|p ps Hp _ IH]; [done|]. cbn.
  unfold is_key at 1. destruct (place == Perm.get_place p) eqn:E; [|by rewrite andb_false_r].
  exfalso. apply path_length_eqb in E. rewrite (path_length_parent _ _ Hp) in E. lia.
Qed.
End Bodies.

(** ** Folding and unfolding *)

Section FoldUnfold.
Context `{RegexLaws}.
Implicit Types (predicates : Predicates) (s : State) (place : Expr).

Lemma all_direct_get predicates name P : all_direct predicates -> HashMap.get predicates name = Some P -> direct P.
Proof.
  intros Hd Hg. apply HashMap.get_in in Hg as (k & Hin & _). unfold all_direct in Hd. rewrite Forall_forall in Hd.
  apply (Hd (k, P)). by apply list_elem_of_In.
Qed.

Lemma predicate_of_some predicates place P :
  predicate_of predicates place = Some P <->
  exists name, typed_ref_name place = Some (Some name) /\ HashMap.get predicates name = Some P.
Proof.
  unfold predicate_of. destruct (typed_ref_name place) as [[name|]|]; cbn; split; try done;
    try by intros (? & ? & ?).
  - by exists name.
  - by intros (? & [= <-] & ?).
Qed.

(** What [unfold_pred] does when it returns. *)
Lemma unfold_pred_val predicates s place a variant s1 act :
  unfold_pred predicates s place a variant = Val (s1, act) ->
  exists name P footprint ps s0,
    typed_ref_name place = Some (Some name) /\ HashMap.get predicates name = Some P
    /\ get_body_footprint P variant = Some footprint
    /\ perms_in_pred (fun p => Perm.update_perm_amount p a) P place footprint = Some ps
    /\ State.contains_pred s place = true /\ PermAmount.is_valid_for_specs a = true
    /\ State.remove_perm s (Perm.Pred place a) = Val s0 /\ State.insert_all_perms s0 ps = Val s1
    /\ act = Action.Unfold name [place] a variant.
Proof.
  unfold unfold_pred. intros E. inv_outcome. subst. destruct (HashMap.get predicates x2) as [P|] eqn:EP; inv_outcome.
  subst. do 5 eexists. split_and!; done.
Qed.

(** For valid amounts, [init_perm_amount] and [update_perm_amount] agree. *)
Lemma update_init p a p' : Perm.update_perm_amount p a = Some p' -> Perm.init_perm_amount p a = Some p'.
Proof.
  unfold Perm.update_perm_amount, Perm.init_perm_amount. intros E. inv_option. subst.
  destruct (PermAmount.is_valid_for_specs a); [|done]. cbn. by destruct (Perm.get_perm_amount p).
Qed.

Lemma init_update p a p' :
  PermAmount.is_valid_for_specs a = true ->
  Perm.init_perm_amount p a = Some p' -> Perm.update_perm_amount p a = Some p'.
Proof.
  unfold Perm.update_perm_amount, Perm.init_perm_amount. intros -> E. cbn in *.
  by destruct (Perm.get_perm_amount p).
Qed.

Lemma mapM_opt_impl {A B} (f g : A -> option B) l l' :
  (forall x y, f x = Some y -> g x = Some y) -> mapM_opt f l = Some l' -> mapM_opt g l = Some l'.
Proof.
  intros Hfg. revert l'. induction l as [|x l IH]; intros l'; cbn; [done|]. intros E. inv_option. subst.
  rewrite (Hfg _ _ Hx). cbn. by rewrite (IH _ Hx0).
Qed.

Lemma perms_in_pred_impl (f g : Perm -> option Perm) P place footprint ps :
  (forall p p', f p = Some p' -> g p = Some p') ->
  perms_in_pred f P place footprint = Some ps -> perms_in_pred g P place footprint = Some ps.
Proof.
  intros Hfg. apply mapM_opt_impl. intros p q E. inv_option. rewrite Hx. cbn. by apply Hfg.
Qed.

(** Removing all of the predicate leaves none. *)
Lemma remove_whole_pred s place a :
  good_state s -> comparable place = true -> lookup s false place = Some a ->
  exists s0, State.remove_perm s (Perm.Pred place a) = Val s0 /\ updated s (Perm.Pred place a) None s0 /\ good_state s0.
Proof.
  intros Hg Hc Hl. pose proof (remove_perm_spec s (Perm.Pred place a) Hg) as Hs.
  unfold key_amount in Hs. cbn [Perm.is_acc Perm.get_place Perm.get_perm_amount] in Hs. rewrite Hl in Hs.
  assert (Hm : minus (Some a) a = Some None) by by destruct a.
  destruct (State.remove_perm s (Perm.Pred place a)) as [s0| |]; [|congruence..].
  destruct Hs as (o & Ho & Hu & Hgood). rewrite Hm in Ho. injection Ho as <-. exists s0. split_and!; auto; apply Hu.
Qed.

(** Inserting the predicate where there is none. *)
Lemma insert_new_pred s place a :
  good_state s -> comparable place = true -> lookup s false place = None ->
  exists s', State.insert_pred s place a = Val s' /\ updated s (Perm.Pred place a) (Some a) s' /\ good_state s'.
Proof.
  intros Hg Hc Hl. pose proof (insert_perm_spec s (Perm.Pred place a)) as Hs.
  unfold key_amount in Hs. cbn [Perm.is_acc Perm.get_place Perm.get_perm_amount] in Hs. rewrite Hl in Hs. cbn [plus] in Hs.
  change (State.insert_perm s (Perm.Pred place a)) with (State.insert_pred s place a) in Hs.
  destruct (State.insert_pred s place a) as [s'| |]; [|done..].
  destruct Hs as (n & [= <-] & Hu & Hgood). exists s'. split_and!; auto; apply Hu.
Qed.

Lemma contains_pred_lookup s place : State.contains_pred s place = match lookup s false place with Some _ => true | None => false end.
Proof. done. Qed.

Lemma is_prefix_of_some_moved_rest s s' place :
  same_rest s s' -> State.is_prefix_of_some_moved s place = State.is_prefix_of_some_moved s' place.
Proof. intros (Hm & _). unfold State.is_prefix_of_some_moved. by rewrite Hm. Qed.

Lemma updated_self s p o s' :
  updated s p o s' -> comparable (Perm.get_place p) = true -> key_amount s' p = o.
Proof. intros [Hu _] Hc. unfold key_amount. by rewrite Hu, is_key_self. Qed.

Lemma updated_undo s s0 s0' s2 place a :
  lookup s false place = Some a ->
  updated s (Perm.Pred place a) None s0 -> s0' ≡ s0 -> updated s0' (Perm.Pred place a) (Some a) s2 -> s2 ≡ s.
Proof.
  intros Hl [Hu Hr] [Hl0 Hr0] [Hu2 Hr2]. split.
  - intros b k. rewrite Hu2, Hl0, Hu. destruct (is_key _ b k) eqn:E; [|done].
    rewrite (key_amount_eq _ _ _ _ E). unfold key_amount. cbn [Perm.is_acc Perm.get_place]. by rewrite Hl.
  - apply same_rest_sym. eapply same_rest_trans; [exact Hr|]. eapply same_rest_trans; [|exact Hr2].
    by apply same_rest_sym.
Qed.

Lemma fold_after_unfold predicates s place a variant pos s1 act :
  all_direct predicates -> good_state s -> comparable place = true -> lookup s false place = Some a ->
  State.is_prefix_of_some_moved s place = Some false ->
  unfold_pred predicates s place a variant = Val (s1, act) ->
  exists name s2, act = Action.Unfold name [place] a variant
    /\ apply_on_state (Stmt.Fold name [place] a variant pos) s1 predicates = Val s2 /\ s2 ≡ s.
Proof.
  intros Hd Hg Hc Hl Hm E. apply unfold_pred_val in E as
    (name & P & footprint & ps & s0 & Hname & HP & Hfp & Hps & _ & Hvalid & Hrem & Hins & ->).
  exists name. pose proof (all_direct_get _ _ _ Hd HP) as HdP.
  destruct (perms_in_pred_body _ _ _ _ _ _ HdP (update_keeps_place a) Hfp Hps) as [Hbody Hcmp]. specialize (Hcmp Hc).
  destruct (remove_whole_pred s place a Hg Hc Hl) as (s0' & Hrem' & Hu & Hg0).
  rewrite Hrem in Hrem'. injection Hrem' as <-.
  pose proof (insert_all_spec ps s0 Hg0 Hcmp) as Hi. rewrite Hins in Hi. destruct Hi as (Hg1 & Hr1 & Hl1).
  assert (Hnone0 : lookup s0 false place = None).
  { by refine (updated_self _ (Perm.Pred place a) _ _ _ _). }
  assert (Hnone1 : lookup s1 false place = None).
  { specialize (Hl1 false place). rewrite (body_amounts_at place ps) in Hl1 by done. cbn [plus_all] in Hl1.
    congruence. }
  destruct (remove_inserted s0 ps s1 Hg0 Hcmp Hins) as (s2 & Hrem2 & Heq2).
  pose proof (remove_all_spec ps s1 Hg1 Hcmp) as Hgs2. rewrite Hrem2 in Hgs2. destruct Hgs2 as (Hg2 & _ & _).
  assert (Hnone2 : lookup s2 false place = None) by (destruct Heq2 as [-> _]; done).
  destruct (insert_new_pred s2 place a Hg2 Hc Hnone2) as (s3 & Hins3 & Hu3 & _).
  exists s3. split; [done|]. split; [|by eapply updated_undo].
  cbn [apply_on_state]. unfold apply_fold, single_arg. cbn [unwrap mbind outcome_bind].
  rewrite contains_pred_lookup, Hnone1. cbn.
  rewrite <- (is_prefix_of_some_moved_rest s s1), Hm; [|eapply same_rest_trans; [apply Hu|exact Hr1]]. cbn.
  rewrite (proj2 (predicate_of_some predicates place P)) by (by exists name). cbn. rewrite Hfp. cbn.
  rewrite (perms_in_pred_impl _ _ _ _ _ _ (fun p p' => update_init p a p') Hps). cbn.
  rewrite Hrem2. cbn. exact Hins3.
Qed.

Lemma apply_fold_val predicates s place a variant s1 :
  apply_fold [place] a variant predicates s = Val s1 ->
  exists name P footprint ps s0,
    typed_ref_name place = Some (Some name) /\ HashMap.get predicates name = Some P
    /\ get_body_footprint P variant = Some footprint
    /\ perms_in_pred (fun p => Perm.init_perm_amount p a) P place footprint = Some ps
    /\ lookup s false place = None /\ State.is_prefix_of_some_moved s place = Some false
    /\ State.remove_all_perms s ps = Val s0 /\ State.insert_pred s0 place a = Val s1.
Proof.
  unfold apply_fold, single_arg. intros E. inv_outcome. injection Hx as <-.
  apply predicate_of_some in Hx3 as (name & Hname & HP). rewrite contains_pred_lookup in Hx0.
  do 5 eexists. split_and!; try done.
  - by destruct (lookup s false place).
  - match goal with Hb : negb ?b = true |- State.is_prefix_of_some_moved _ _ = _ => by destruct b end.
Qed.

Lemma unfold_after_fold predicates s name place a variant pos s1 :
  all_direct predicates -> good_state s -> comparable place = true ->
  PermAmount.is_valid_for_specs a = true ->
  apply_on_state (Stmt.Fold name [place] a variant pos) s predicates = Val s1 ->
  exists s2 act, unfold_pred predicates s1 place a variant = Val (s2, act) /\ s2 ≡ s.
Proof.
  cbn [apply_on_state]. intros Hd Hg Hc Hvalid E. apply apply_fold_val in E as
    (name' & P & footprint & ps & s0 & Hname & HP & Hfp & Hps & Hnone & Hm & Hrem & Hins).
  pose proof (all_direct_get _ _ _ Hd HP) as HdP.
  destruct (perms_in_pred_body _ _ _ _ _ _ HdP (init_keeps_place a) Hfp Hps) as [Hbody Hcmp]. specialize (Hcmp Hc).
  pose proof (remove_all_spec ps s Hg Hcmp) as Hr. rewrite Hrem in Hr. destruct Hr as (Hg0 & Hr0 & Hl0).
  assert (Hnone0 : lookup s0 false place = None).
  { specialize (Hl0 false place). rewrite (body_amounts_at place ps) in Hl0 by done. cbn [minus_all] in Hl0.
    congruence. }
  destruct (insert_new_pred s0 place a Hg0 Hc Hnone0) as (s1' & Hins' & Hu1 & Hg1).
  rewrite Hins in Hins'. injection Hins' as <-.
  assert (Hl1 : lookup s1 false place = Some a).
  { by refine (updated_self _ (Perm.Pred place a) _ _ _ _). }
  destruct (remove_whole_pred s1 place a Hg1 Hc Hl1) as (s2 & Hrem2 & Hu2 & Hg2).
  assert (Heq : s2 ≡ s0).
  { destruct Hu1 as [Hk1 Hr1], Hu2 as [Hk2 Hr2]. split.
    - intros b k. rewrite Hk2, Hk1. destruct (is_key _ b k) eqn:Ek; [|done].
      rewrite (key_amount_eq _ _ _ _ Ek). unfold key_amount. cbn [Perm.is_acc Perm.get_place]. by rewrite Hnone0.
    - apply same_rest_sym. by eapply same_rest_trans. }
  destruct (insert_removed s ps s0 Hg Hcmp Hrem) as (s3 & Hins3 & Heq3).
  pose proof (insert_all_spec ps s2 Hg2 Hcmp) as Hi2. pose proof (insert_all_spec ps s0 Hg0 Hcmp) as Hi0.
  rewrite Hins3 in Hi0. destruct Hi0 as (_ & Hr3 & Hl3).
  assert (Hplus : forall b k, plus_all (lookup s2 b k) (amounts_at ps b k) = Some (lookup s3 b k)).
  { intros b k. destruct Heq as [-> _]. apply Hl3. }
  destruct (State.insert_all_perms s2 ps) as [s4| |] eqn:E4;
    [|exfalso; destruct Hi2 as (b & k & Hi2); by rewrite Hplus in Hi2..].
  destruct Hi2 as (_ & Hr4 & Hl4). exists s4, (Action.Unfold name' [place] a variant). split.
  - unfold unfold_pred. rewrite contains_pred_lookup, Hl1, Hvalid, Hname. cbn. rewrite HP. cbn. rewrite Hfp. cbn.
    rewrite (perms_in_pred_impl _ _ _ _ _ _ (fun p p' => init_update p a p' Hvalid) Hps).
    cbn [unwrap mbind outcome_bind]. change (State.remove_pred s1 place a) with (State.remove_perm s1 (Perm.Pred place a)).
    rewrite Hrem2. cbn [mbind outcome_bind]. by rewrite E4.
  - etrans; [|exact Heq3]. split.
    + intros b k. specialize (Hl4 b k). rewrite Hplus in Hl4. by injection Hl4.
    + eapply same_rest_trans; [apply same_rest_sym, Hr4|]. eapply same_rest_trans; [apply Heq|exact Hr3].
Qed.

(** Folding undoes unfolding: if the whole amount of a predicate is unfolded, the fold statement of the same
    predicate succeeds and gives an equivalent state; and what a fold statement folds can be unfolded. *)
(** C39. Folding and unfolding are inverse: the fold statement of a predicate that was unfolded
    whole succeeds and gives an equivalent state, and what a fold statement folds can be
    unfolded again. *)
Theorem fold_unfold_inverse predicates s place a variant pos :
  all_direct predicates -> good_state s -> comparable place = true ->
  (forall s1 act, lookup s false place = Some a -> State.is_prefix_of_some_moved s place = Some false ->
     unfold_pred predicates s place a variant = Val (s1, act) ->
     exists name s2, act = Action.Unfold name [place] a variant
       /\ apply_on_state (Stmt.Fold name [place] a variant pos) s1 predicates = Val s2 /\ s2 ≡ s)
  /\ (forall name s1, PermAmount.is_valid_for_specs a = true ->
     apply_on_state (Stmt.Fold name [place] a variant pos) s predicates = Val s1 ->
     exists s2 act, unfold_pred predicates s1 place a variant = Val (s2, act) /\ s2 ≡ s).
Proof.
  intros Hd Hg Hc. split.
  - intros s1 act Hl Hm E. by eapply fold_after_unfold.
  - intros name s1 Hv E. by eapply unfold_after_fold.
Qed.
End FoldUnfold.
