(* ===== verification/ObtainFacts.v ===== *)
(** * Obtaining permissions: soundness and termination

    [obtain] unfolds the predicates above the required place, from the one
    it finds on, and then folds the required predicate from the permissions
    below it.  Each unfolding lowers [above], the distances from the
    required place to the predicates above it; each fold moves one
    projection down, and there must be accesses below the place.  [obtain]
    looks for a permission of any amount, so its result has the amount that
    was asked for only in a state whose amounts are all [Write]. *)

From Stdlib Require Import Lia.
From S2P Require Import Prelude Ast ExprEq ExprPlace ExprTransformers ExprOps ExprOpsFacts Collections Typaram.
From S2P Require Import ExprReplace.
From S2P Require Import Items Borrows Stmt Cfg Perm FuState Footprint.
From S2P Require Import FuSemantics EventLog.
From S2P Require Import PathCtxt PathCtxtFacts.

(** ** Sums over the proper prefixes of a place *)

Fixpoint prefix_sum (g : Expr -> nat) (e : Expr) : nat :=
  match e with
  | Expr.Variant b _ _ | Expr.Field b _ _ | Expr.AddrOf b _ _ => g b + prefix_sum g b
  | _ => 0
  end.

Lemma prefix_sum_parent g e p : get_parent e = Some (Some p) -> prefix_sum g e = g p + prefix_sum g p.
Proof. by destruct e; intros [= <-]. Qed.

Lemma prefix_sum_no_parent g e : get_parent e = Some None -> prefix_sum g e = 0.
Proof. by destruct e. Qed.

Lemma prefix_sum_ext g g' e :
  (forall q, path_length q < path_length e -> g q = g' q) -> prefix_sum g e = prefix_sum g' e.
Proof.
  induction e using Expr_ind'; intros Hg; cbn in *; try done;
    (rewrite Hg by lia; f_equal; apply IHe; intros q Hq; apply Hg; lia).
Qed.

Lemma prefix_sum_bound g e n :
  (forall q, g q <= n) -> prefix_sum g e <= path_length e * n.
Proof.
  intros Hg. induction e using Expr_ind'; cbn; try lia; pose proof (Hg e); lia.
Qed.

(** A sum decreases when the term of one prefix is dropped and the next one
    becomes at most one less than it. *)
Lemma prefix_sum_decreases g g' (e p : Expr) (w : nat) :
  is_place e = true -> extends e p = true ->
  (forall q, (q == p) = true -> g' q = 0 /\ g q = S w) ->
  (forall q, path_length q = S (path_length p) -> g' q <= w) ->
  (forall q, path_length q <> path_length p -> path_length q <> S (path_length p) -> g' q = g q) ->
  prefix_sum g' e < prefix_sum g e.
Proof.
  intros He Hext Hp Hnext Hrest. revert He Hext. induction e as [e IH] using parent_ind. intros He Hext.
  assert (Hprefix : has_prefix e p = Some true /\ (e == p) = false).
  { unfold extends in Hext. rewrite bool_decide_eq_true in Hext. unfold has_proper_prefix in Hext.
    by destruct (e == p). }
  destruct Hprefix as [Hprefix Hne]. apply has_prefix_inv in Hprefix as [Hprefix|(p1 & Hp1 & Hpre1)]; [congruence|].
  rewrite !(prefix_sum_parent _ e p1 Hp1).
  assert (Hpl1 : is_place p1 = true).
  { destruct (place_parent e He) as [Hn|(p' & Hp' & Hpl)]; [congruence|]. by assert (p' = p1) as -> by congruence. }
  destruct (p1 == p) eqn:E1.
  - destruct (Hp p1 E1) as [-> ->]. rewrite (prefix_sum_ext g' g p1); [lia|]. intros q Hq.
    rewrite (path_length_eqb p1 p E1) in Hq. apply Hrest; lia.
  - assert (Hext1 : extends p1 p = true).
    { unfold extends, has_proper_prefix. rewrite E1. cbn. by rewrite bool_decide_eq_true. }
    pose proof (extends_length p1 p Hext1) as Hlen.
    destruct (decide (path_length p1 = S (path_length p))) as [El|El].
    + pose proof (has_prefix_inv p1 p Hpre1) as [?|(p2 & Hp2 & Hpre2)]; [congruence|].
      rewrite !(prefix_sum_parent _ p1 p2 Hp2). pose proof (path_length_parent p1 p2 Hp2) as Hl2.
      assert (E2 : (p2 == p) = true) by (apply has_prefix_length in Hpre2 as [?|?]; [done|lia]).
      destruct (Hp p2 E2) as [-> ->]. pose proof (Hnext p1 El).
      rewrite (prefix_sum_ext g' g p2); [lia|]. intros q Hq. apply Hrest; lia.
    + pose proof (IH p1 Hp1 Hpl1 Hext1). rewrite (Hrest p1) by lia. lia.
Qed.

(** ** Searching the predicates above a place *)

Lemma from_list_in {A} `{PartialEq A} (l : list A) x : In x (HashSet.from_list l) -> In x l.
Proof.
  unfold HashSet.from_list. assert (Hgen : forall l s, In x (foldl HashSet.insert s l) -> In x s \/ In x l).
  { clear l. induction l as [|y l IH]; intros s; cbn; [by left|]. intros [Hs|Hl]%IH; [|by right; right].
    unfold HashSet.insert in Hs. destruct (HashSet.contains s y); [by left|].
    apply in_app_iff in Hs as [Hs|[<-|[]]]; [by left|right; by left]. }
  intros Hx%Hgen. by destruct Hx.
Qed.

Lemma find_opt_place {A} (f : A -> option bool) (g : A -> bool) l :
  (forall x, f x = Some (g x)) -> find_opt f l = Some (List.find g l).
Proof. intros Hf. induction l as [|x l IH]; [done|]. cbn. rewrite Hf. cbn. by destruct (g x). Qed.

Lemma extends_cong_r a b c : (b == c) = true -> extends a b = extends a c.
Proof.
  intros H. unfold extends, has_proper_prefix. rewrite (expr_eqb_cong_r b c a H), (has_prefix_cong_r a b c H). done.
Qed.

Lemma extends_cong_l a b c : (a == b) = true -> extends a c = extends b c.
Proof.
  intros H. unfold extends, has_proper_prefix. rewrite (expr_eqb_cong_l a b c H), (has_prefix_cong_l a b c H). done.
Qed.

(** No predicate at a proper prefix of [e]. *)
Definition no_pred_above (s : State) (e : Expr) : Prop :=
  forall k, is_Some (lookup s false k) -> extends e k = false.

Lemma in_places_contained (l : list Expr) k k' :
  In k' l -> (k == k') = true -> exists y, In y (HashSet.from_list l) /\ (k == y) = true.
Proof.
  intros Hin Hk. assert (Hc : HashSet.contains (HashSet.from_list l) k = true).
  { rewrite HashSet.contains_from_list. apply existsb_exists. by exists k'. }
  apply existsb_exists in Hc. done.
Qed.

(** The result of the search: a predicate above, or none. *)
Lemma find_pred_above s req :
  good_state s -> is_place (Perm.get_place req) = true ->
  exists o, find_opt (fun p => Perm.has_proper_prefix req p) (State.pred_places s) = Some o
    /\ match o with
       | Some p => extends (Perm.get_place req) p = true /\ comparable p = true /\ is_Some (lookup s false p)
       | None => no_pred_above s (Perm.get_place req)
       end.
Proof.
  intros Hg Hp. exists (List.find (extends (Perm.get_place req)) (State.pred_places s)). split.
  - apply find_opt_place. intros k. by apply has_proper_prefix_place.
  - unfold State.pred_places. destruct (List.find _ _) as [p|] eqn:E.
    + apply find_some in E as [Hin Hext]. split; [done|]. apply from_list_in in Hin.
      pose proof (Hg false) as [Hd Hc]. cbn in Hd, Hc. rewrite Forall_forall in Hc.
      assert (Hcp : comparable p = true) by (apply Hc; by apply list_elem_of_In). split; [done|].
      unfold HashMap.keys in Hin. apply in_map_iff in Hin as ([p' a] & Hpe & Hin). cbn in Hpe. subst p'.
      exists a. unfold lookup. cbn. apply HashMap.distinct_in_get; [done|done|]. by rewrite expr_eqb_refl.
    + intros k [a Ha]. unfold lookup in Ha. cbn in Ha. apply HashMap.get_in in Ha as (k' & Hin & Hk).
      destruct (in_places_contained (HashMap.keys (State.pred s)) k k') as (y & Hy & Hky); [|done|].
      { unfold HashMap.keys. apply in_map_iff. by exists (k', a). }
      pose proof (find_none _ _ E y Hy) as Hn. cbn in Hn. by rewrite (extends_cong_r _ k y Hky).
Qed.

(** ** What obtaining does to a state without predicates above *)

Section Obtain.
Context `{RegexLaws}.
Variable predicates : Predicates.
Hypothesis Hdirect : all_direct predicates.

(** Every permission of the state is a [write] permission. *)
Definition all_write (s : State) : Prop := forall b k a, lookup s b k = Some a -> a = PermAmount.Write.

(** [e] gains no access; the new predicates are below [e]; from [write]
    permissions come [write] permissions. *)
Record frame (s : State) (e : Expr) (s' : State) : Prop := {
  frame_good : good_state s';
  frame_acc : forall k, is_Some (lookup s' true k) -> is_Some (lookup s true k);
  frame_pred : forall k, is_Some (lookup s' false k) -> is_Some (lookup s false k) \/ has_prefix k e = Some true;
  frame_write : all_write s -> all_write s'
}.

Lemma frame_refl s e : good_state s -> frame s e s.
Proof. intros Hg. split; auto. Qed.

Lemma frame_trans s1 s2 s3 e : frame s1 e s2 -> frame s2 e s3 -> frame s1 e s3.
Proof.
  intros [_ Ha1 Hp1 Hw1] [Hg Ha2 Hp2 Hw2]. split; [done|auto| |auto]. intros k Hk. destruct (Hp2 k Hk); auto.
Qed.

Lemma frame_below s s' e c : child_of e c -> frame s c s' -> frame s e s'.
Proof.
  intros Hc [Hg Ha Hp Hw]. split; [done|done| |done]. intros k Hk. destruct (Hp k Hk) as [|Hk']; [by left|].
  right. eapply has_prefix_trans; [exact Hk'|by apply child_prefix].
Qed.

Definition no_pred_at_or_above (s : State) (e : Expr) : Prop :=
  forall k, is_Some (lookup s false k) -> has_prefix e k <> Some true.

Lemma no_pred_child s e c : child_of e c -> no_pred_at_or_above s e -> no_pred_above s c.
Proof.
  intros (Hp & t & Ht & Hte) Hn k Hk. destruct (extends c k) eqn:E; [|done]. exfalso.
  unfold extends in E. rewrite bool_decide_eq_true in E. unfold has_proper_prefix in E.
  destruct (c == k) eqn:Eck; [done|]. cbn in E. apply has_prefix_inv in E as [?|(t' & Ht' & Hpre)]; [congruence|].
  assert (t' = t) as -> by congruence. apply (Hn k Hk). by rewrite <- (has_prefix_cong_l t e k Hte).
Qed.

Lemma frame_no_pred s e c s' : child_of e c -> frame s c s' -> no_pred_at_or_above s e -> no_pred_at_or_above s' e.
Proof.
  intros Hc [_ _ Hp _] Hn k Hk. destruct (Hp k Hk) as [Hs|Hkc]; [by apply Hn|]. intros Hek.
  apply has_prefix_length in Hkc. apply has_prefix_length in Hek. pose proof (child_length e c Hc).
  destruct Hkc as [E|], Hek as [E'|]; try apply path_length_eqb in E; try apply path_length_eqb in E'; lia.
Qed.

(** [req] is about a projection of [e]. *)
Definition child_req (e : Expr) (req : Perm) : Prop :=
  child_of e (Perm.get_place req) /\ comparable (Perm.get_place req) = true.

Lemma child_of_erase e c c' : erase c' = erase c -> child_of e c -> child_of e c'.
Proof.
  intros He (Hp & t & Ht & Hte). split; [by rewrite <- is_place_erase, He, is_place_erase|].
  pose proof (get_parent_erase c') as Hc'. rewrite He, get_parent_erase, Ht in Hc'. cbn in Hc'.
  destruct (get_parent c') as [[t'|]|]; cbn in Hc'; try done. injection Hc' as Hc'. exists t'. split; [done|].
  by rewrite <- expr_eqb_erase_l, <- Hc', expr_eqb_erase_l.
Qed.

Lemma set_default_pos_child e req pos req' :
  child_req e req -> Perm.set_default_pos req pos = Some req' ->
  child_req e req' /\ Perm.is_acc req' = Perm.is_acc req.
Proof.
  unfold Perm.set_default_pos. intros [Hc Hk] E. apply map_place_some in E as (E & Hacc & _).
  rewrite set_default_pos_eq in E. injection E as E.
  assert (He : erase (Perm.get_place req') = erase (Perm.get_place req)) by (rewrite <- E; apply erase_with_default_pos).
  split; [split|done]; [by eapply child_of_erase|]. by rewrite <- comparable_erase, He, comparable_erase.
Qed.

(** What the recursive call promises about the requirements it gets. *)
Definition obtains_below (e : Expr) (rec : State -> Perm -> outcome FoldUnfoldError (State * ObtainResult)) : Prop :=
  forall s c s' r, good_state s -> no_pred_above s (Perm.get_place c) -> child_req e c ->
    rec s c = Val (s', r) -> frame s (Perm.get_place c) s'.

Lemma obtain_body_frame rec pos e places : forall s acts s' r,
  obtains_below e rec -> Forall (child_req e) places -> good_state s -> no_pred_at_or_above s e ->
  obtain_body rec pos s acts places = Val (s', r) ->
  frame s e s' /\ no_pred_at_or_above s' e.
Proof.
  intros s acts s' r Hrec Hpl. revert s acts. induction Hpl as [|c places Hc Hpl IH]; intros s acts Hg Hn; cbn.
  - intros [= <- _]. split; [by apply frame_refl|done].
  - intros E. inv_outcome. destruct x0 as [s1 r1].
    destruct (set_default_pos_child e c pos x Hc Hx) as [Hcx _].
    pose proof (Hrec s x s1 r1 Hg (no_pred_child _ _ _ (proj1 Hcx) Hn) Hcx Hx0) as Hf.
    pose proof (frame_no_pred _ _ _ _ (proj1 Hcx) Hf Hn) as Hn1.
    destruct r1 as [new|p].
    + destruct (IH s1 (acts ++ new)%list (frame_good _ _ _ Hf) Hn1 E) as [Hf2 Hn2]. split; [|done].
      eapply frame_trans; [|exact Hf2]. by eapply frame_below; [apply Hcx|].
    + injection E as <- _. split; [|done]. by eapply frame_below; [apply Hcx|].
Qed.

Lemma body_child_req place ps : comparable place = true -> body_of place ps ->
  Forall (fun p => is_place (Perm.get_place p) = true) ps -> Forall (child_req place) ps.
Proof.
  intros Hc [Hb Hk] Hp. specialize (Hk Hc). unfold places_comparable in Hk. rewrite Forall_forall in *.
  intros p Hin. split; [|by apply Hk]. split; [by apply Hp|]. exists place. split; [by apply Hb|].
  by rewrite expr_eqb_refl.
Qed.

Lemma minus_all_some o l o' : minus_all o l = Some o' -> is_Some o' -> is_Some o.
Proof. destruct l as [|a l]; cbn; [by intros [= ->]|]. by destruct o. Qed.

(** ** Only [write] permissions *)

Definition write_or_none (o : option PermAmount) : Prop := forall a, o = Some a -> a = PermAmount.Write.

Lemma plus_all_write o l o' :
  write_or_none o -> Forall (eq PermAmount.Write) l -> plus_all o l = Some o' -> write_or_none o'.
Proof.
  intros Ho Hl. destruct Hl as [|a l <- Hl]; cbn; [by intros [= <-]|].
  destruct o as [a|]; [by rewrite (Ho a eq_refl)|]. cbn.
  destruct Hl as [|a l <- _]; cbn; [|done]. intros [= <-]. by intros a [= <-].
Qed.

Lemma minus_all_write o l o' :
  write_or_none o -> Forall (eq PermAmount.Write) l -> minus_all o l = Some o' -> write_or_none o'.
Proof.
  intros Ho Hl. destruct Hl as [|a l <- Hl]; cbn; [by intros [= <-]|].
  destruct o as [a|]; [|done]. rewrite (Ho a eq_refl). cbn.
  destruct Hl as [|a' l <- _]; cbn; [|done]. by intros [= <-].
Qed.

Definition write_perms (ps : list Perm) : Prop := Forall (fun p => Perm.get_perm_amount p = PermAmount.Write) ps.

Lemma amounts_at_write ps b k : write_perms ps -> Forall (eq PermAmount.Write) (amounts_at ps b k).
Proof.
  unfold amounts_at. induction 1 as [|p ps Hp _ IH]; cbn; [done|]. destruct (is_key p b k); [|done]. cbn.
  by constructor.
Qed.

Lemma update_all_write ps ps' :
  mapM_opt (fun p => Perm.update_perm_amount p PermAmount.Write) ps = Some ps' -> write_perms ps'.
Proof.
  intros E. refine (mapM_opt_image_Forall _ (fun _ => True) _ _ _ _ _ E); [|by apply Forall_true].
  intros p q _ Eq. unfold Perm.update_perm_amount in Eq. inv_option. subst. by destruct p.
Qed.

Lemma perms_in_pred_write P place footprint ps :
  perms_in_pred (fun p => Perm.update_perm_amount p PermAmount.Write) P place footprint = Some ps -> write_perms ps.
Proof.
  intros E. refine (mapM_opt_image_Forall _ (fun _ => True) _ _ _ _ _ E); [|by apply Forall_true].
  intros p q _ Eq. cbn in Eq. inv_option. unfold Perm.update_perm_amount in Eq. inv_option. subst. by destruct x.
Qed.

Lemma insert_all_write s ps s' :
  good_state s -> places_comparable ps -> write_perms ps -> all_write s ->
  State.insert_all_perms s ps = Val s' -> all_write s'.
Proof.
  intros Hg Hps Hw Hs E b k. pose proof (insert_all_spec ps s Hg Hps) as Hi. rewrite E in Hi.
  destruct Hi as (_ & _ & Hl). exact (plus_all_write _ _ _ (Hs b k) (amounts_at_write _ _ _ Hw) (Hl b k)).
Qed.

Lemma remove_all_write s ps s' :
  good_state s -> places_comparable ps -> write_perms ps -> all_write s ->
  State.remove_all_perms s ps = Val s' -> all_write s'.
Proof.
  intros Hg Hps Hw Hs E b k. pose proof (remove_all_spec ps s Hg Hps) as Hi. rewrite E in Hi.
  destruct Hi as (_ & _ & Hl). exact (minus_all_write _ _ _ (Hs b k) (amounts_at_write _ _ _ Hw) (Hl b k)).
Qed.

Lemma insert_pred_write s place s' :
  all_write s -> State.insert_pred s place PermAmount.Write = Val s' -> all_write s'.
Proof.
  intros Hs E b k a. pose proof (insert_perm_spec s (Perm.Pred place PermAmount.Write)) as Hi.
  change (State.insert_perm s (Perm.Pred place PermAmount.Write)) with (State.insert_pred s place PermAmount.Write) in Hi.
  rewrite E in Hi. destruct Hi as (n & Hn & [Hl _] & _). rewrite Hl. destruct (is_key _ b k); [|by apply Hs].
  intros [= <-]. change (key_amount s _) with (lookup s false place) in Hn.
  pose proof (Hs false place) as Hp. destruct (lookup s false place) as [c|].
  - by rewrite (Hp c eq_refl) in Hn.
  - by injection Hn.
Qed.

Lemma entry_write s : good_state s -> all_write s ->
  Forall (fun e => snd e = PermAmount.Write) (State.acc s ++ State.pred s)%list.
Proof.
  intros Hg Hs. assert (Hm : forall b, Forall (fun e => snd e = PermAmount.Write) (amounts s b)).
  { intros b. apply Forall_forall. intros [k a] Hin%list_elem_of_In. pose proof (Hg b) as [Hd Hc].
    apply (Hs b k). unfold lookup. apply HashMap.distinct_in_get; [done|done|]. rewrite expr_eqb_refl.
    rewrite Forall_forall in Hc. apply Hc. apply list_elem_of_In. unfold HashMap.keys. apply in_map_iff. by exists (k, a). }
  apply Forall_app. split; [apply (Hm true)|apply (Hm false)].
Qed.

Lemma min_from_write l : Forall (eq PermAmount.Write) l -> min_from PermAmount.Write l = Some PermAmount.Write.
Proof. by induction 1 as [|a l <- _ IH]. Qed.

Lemma min_or_write_write l : Forall (eq PermAmount.Write) l -> min_or_write l = Some PermAmount.Write.
Proof. intros Hl. destruct Hl as [|a l <- Hl]; [done|]. unfold min_or_write. cbn. by rewrite (min_from_write l Hl). Qed.

Lemma filter_opt_Forall {A} (f : A -> option bool) (Q : A -> Prop) l l' :
  Forall Q l -> filter_opt f l = Some l' -> Forall Q l'.
Proof.
  intros Hl. revert l'. induction Hl as [|x l Hx Hl IH]; intros l'; cbn; [by intros [= <-]|].
  intros E. inv_option. subst. destruct x0; auto.
Qed.

(** A state of [write] permissions offers [write]. *)
Lemma fold_amount_write s ps a :
  good_state s -> all_write s -> fold_amount s ps = Some a -> a = PermAmount.Write.
Proof.
  intros Hg Hs E. unfold fold_amount in E. inv_option.
  assert (Hall : Forall (eq PermAmount.Write) x).
  { refine (mapM_opt_image_Forall _ (fun _ => True) _ _ _ _ _ Hx); [|by apply Forall_true].
    intros p c _ Ec. inv_option. rewrite min_or_write_write in Ec; [by injection Ec|].
    rewrite Forall_map. eapply Forall_impl; [|by intros e He; symmetry; exact He].
    by eapply filter_opt_Forall; [apply entry_write|]. }
  rewrite (min_or_write_write x Hall) in E. by injection E.
Qed.

(** Removing permissions and inserting a predicate. *)
Lemma remove_insert_frame s0 s ps place a s1 s2 :
  frame s0 place s -> comparable place = true -> places_comparable ps ->
  (all_write s0 -> write_perms ps /\ a = PermAmount.Write) ->
  State.remove_all_perms s ps = Val s1 -> State.insert_pred s1 place a = Val s2 ->
  frame s0 place s2 /\ is_Some (lookup s2 false place).
Proof.
  intros [Hg Ha Hp Hall] Hc Hps Hw E1 E2. pose proof (remove_all_spec ps s Hg Hps) as Hr. rewrite E1 in Hr.
  destruct Hr as (Hg1 & _ & Hl1). pose proof (insert_perm_spec s1 (Perm.Pred place a)) as Hi.
  change (State.insert_perm s1 (Perm.Pred place a)) with (State.insert_pred s1 place a) in Hi. rewrite E2 in Hi.
  destruct Hi as (n & _ & Hu & Hg2). pose proof (updated_self _ _ _ _ Hu Hc) as Hself. destruct Hu as [Hl2 _].
  split; [|by exists n]. split; [by apply Hg2|..].
  - intros k. rewrite Hl2. cbn. intros Hk. apply Ha. exact (minus_all_some _ _ _ (Hl1 true k) Hk).
  - intros k. rewrite Hl2. unfold is_key. cbn. destruct (k == place) eqn:E.
    + intros _. right. by rewrite has_prefix_eq, E.
    + intros Hk. apply Hp. exact (minus_all_some _ _ _ (Hl1 false k) Hk).
  - intros Hs0. destruct (Hw Hs0) as [Hwp ->]. apply (insert_pred_write s1 place); [|done].
    exact (remove_all_write s ps s1 Hg Hps Hwp (Hall Hs0) E1).
Qed.

(** ** One fold *)

Lemma perms_in_pred_child P place variant footprint ps :
  direct P -> is_place place = true -> comparable place = true -> get_body_footprint P variant = Some footprint ->
  perms_in_pred Some P place footprint = Some ps -> Forall (child_req place) ps.
Proof.
  intros Hd Hp Hc Hf E. pose proof (perms_in_pred_body _ _ _ _ _ _ Hd some_keeps_place Hf E) as Hb.
  apply body_child_req; [done|done|]. refine (mapM_opt_image_Forall _ _ _ _ _ _ (Hd variant footprint Hf) E).
  intros p q Hpc Eq. cbn in Eq. inv_option. subst. apply map_place_some in Hx as (Hx & _ & _).
  pose proof Hpc as [Hpp _]. eapply below_is_place; [exact Hp|].
  by apply (replace_below _ _ _ _ Hpp (child_prefix _ _ Hpc) Hx).
Qed.

Lemma child_req_comparable place ps : Forall (child_req place) ps -> places_comparable ps.
Proof. intros Hps. eapply Forall_impl; [exact Hps|]. by intros p []. Qed.

Lemma update_all_comparable ps a ps' :
  places_comparable ps -> mapM_opt (fun p => Perm.update_perm_amount p a) ps = Some ps' -> places_comparable ps'.
Proof.
  intros Hc E. refine (mapM_opt_image_Forall _ _ _ _ _ _ Hc E). intros p q Hp Hq.
  apply update_keeps_place in Hq as [-> _]. done.
Qed.

(** What is folded: the predicate of the place with a variant. *)
Lemma predicate_direct name P : HashMap.get predicates name = Some P -> direct P.
Proof. by apply all_direct_get. Qed.

Lemma obtain_fold_frame rec s req s' r :
  obtains_below (Perm.get_place req) rec ->
  is_place (Perm.get_place req) = true -> comparable (Perm.get_place req) = true -> Perm.is_acc req = false ->
  good_state s -> no_pred_above s (Perm.get_place req) -> State.contains_perm s req = false ->
  obtain_fold predicates rec s req = Val (s', r) ->
  frame s (Perm.get_place req) s' /\ (forall acts, r = Success acts -> State.contains_perm s' req = true).
Proof.
  intros Hrec Hpl Hc Hacc Hg Hn Hnot E. unfold obtain_fold in E. inv_outcome.
  pose proof (predicate_direct _ _ Hx1) as HdP. set (place := Perm.get_place req) in *.
  pose proof (perms_in_pred_child _ _ _ _ _ HdP Hpl Hc Hx4 Hx5) as Hch.
  assert (Hat : no_pred_at_or_above s place).
  { intros k Hk Hpre. specialize (Hn k Hk). unfold extends, has_proper_prefix in Hn. rewrite bool_decide_eq_false in Hn.
    destruct (place == k) eqn:Ek; [|done]. rewrite contains_perm_lookup, Hacc in Hnot.
    rewrite bool_decide_eq_false in Hnot. apply Hnot. fold place. by rewrite (lookup_cong s false place k Ek). }
  destruct (match x3 with Some _ => true | None => _ end); [|simplify_eq; split; [by apply frame_refl|done]].
  inv_outcome. destruct x7 as [s1 r1].
  destruct (obtain_body_frame _ _ _ _ _ _ _ _ Hrec Hch Hg Hat Hx7) as [Hf Hat1].
  destruct r1 as [acts|p]; [|simplify_eq; split; [done|by intros]].
  inv_outcome. simplify_eq. pose proof (child_req_comparable _ _ Hch) as Hcmp.
  pose proof (update_all_comparable _ _ _ Hcmp Hx8) as Hcmp'.
  assert (Hwrite : all_write s -> write_perms x7 /\ x6 = PermAmount.Write).
  { intros Hw. pose proof (fold_amount_write _ _ _ Hg Hw Hx6) as E6. split; [|done]. rewrite E6 in Hx8.
    exact (update_all_write _ _ Hx8). }
  destruct (remove_insert_frame s s1 x7 place x6 x8 s' Hf Hc Hcmp' Hwrite Hx9 Hx10) as [Hf2 Hin].
  split; [done|]. intros acts' _. rewrite contains_perm_lookup, Hacc. by apply bool_decide_eq_true_2.
Qed.

(** ** Obtaining below: no unfolding *)

Definition well_formed_req (req : Perm) : Prop :=
  is_place (Perm.get_place req) = true /\ comparable (Perm.get_place req) = true.

(** The permission is in the state, or it is the access to a local variable. *)
Definition satisfied (s : State) (req : Perm) : Prop :=
  State.contains_perm s req = true \/ Perm.is_acc req && Perm.is_local req = true.

Lemma child_req_well_formed e req : child_req e req -> well_formed_req req.
Proof. by intros [[]]. Qed.

Lemma obtain_fuel_frame n : forall s req b s' r,
  well_formed_req req -> good_state s -> no_pred_above s (Perm.get_place req) ->
  obtain_fuel predicates Panic n s req b = Val (s', r) ->
  frame s (Perm.get_place req) s' /\ (forall acts, r = Success acts -> satisfied s' req).
Proof.
  induction n as [|n IH]; intros s req b s' r [Hp Hc] Hg Hn; cbn [obtain_fuel]; [done|]. unfold obtain_step.
  destruct (State.contains_perm s req) eqn:Eq.
  { intros [= <- <-]. split; [by apply frame_refl|]. intros _ _. by left. }
  destruct (Perm.is_acc req && Perm.is_local req) eqn:El.
  { intros [= <- <-]. split; [by apply frame_refl|]. intros _ _. by right. }
  destruct (find_pred_above s req Hg Hp) as (o & -> & Ho). cbn [unwrap mbind outcome_bind].
  destruct o as [p|].
  { exfalso. destruct Ho as (Hext & _ & Hin). specialize (Hn p Hin). congruence. }
  destruct (Perm.is_pred req) eqn:Epred.
  - intros E. assert (Hacc : Perm.is_acc req = false) by by destruct req.
    destruct (obtain_fold_frame (fun s p => obtain_fuel predicates Panic n s p false) s req s' r) as [Hf Hs]; try done.
    { intros s1 c s2 r2 Hg1 Hn1 Hc1 E1. apply (IH s1 c false s2 r2); try done. by eapply child_req_well_formed. }
    split; [done|]. intros acts Hr. left. by eapply Hs.
  - intros E. assert (s' = s) as -> by (destruct (b && _); by injection E).
    split; [by apply frame_refl|]. destruct (b && _); injection E as <-; by intros.
Qed.

(** ** Enough fuel: folding *)

Definition acc_bounded (s : State) (M : nat) : Prop := forall k, is_Some (lookup s true k) -> path_length k <= M.

Lemma acc_bounded_frame s e s' M : frame s e s' -> acc_bounded s M -> acc_bounded s' M.
Proof. intros Hf Hb k Hk. by apply Hb, (frame_acc _ _ _ Hf). Qed.

Lemma find_opt_some {A} (f : A -> option bool) l x :
  find_opt f l = Some (Some x) -> In x l /\ f x = Some true.
Proof.
  induction l as [|y l IH]; cbn; [done|]. intros E. inv_option. destruct x0; [injection E as <-; auto|].
  destruct (IH E). auto.
Qed.

Lemma has_proper_prefix_length a b : has_proper_prefix a b = Some true -> path_length b < path_length a.
Proof. intros H1. apply extends_length. unfold extends. by apply bool_decide_eq_true_2. Qed.

Lemma acc_place_lookup s p : good_state s -> In p (State.acc_places s) -> is_Some (lookup s true p).
Proof.
  intros Hg Hin%from_list_in. pose proof (Hg true) as [Hd Hc]. cbn in Hd, Hc. rewrite Forall_forall in Hc.
  assert (Hcp : comparable p = true) by (apply Hc; by apply list_elem_of_In).
  unfold HashMap.keys in Hin. apply in_map_iff in Hin as ([p' a] & Hpe & Hin). cbn in Hpe. subst p'.
  exists a. unfold lookup. cbn. apply HashMap.distinct_in_get; [done|done|]. by rewrite expr_eqb_refl.
Qed.

Lemma obtain_body_ext rec1 rec2 pos e s0 places : forall s acts,
  obtains_below e rec1 ->
  (forall s c, frame s0 e s -> no_pred_above s (Perm.get_place c) -> child_req e c -> rec1 s c = rec2 s c) ->
  Forall (child_req e) places -> frame s0 e s -> no_pred_at_or_above s e ->
  obtain_body rec1 pos s acts places = obtain_body rec2 pos s acts places.
Proof.
  intros s acts Hrec Hext Hpl. revert s acts. induction Hpl as [|c places Hc Hpl IH]; intros s acts Hf Hn; [done|].
  cbn. destruct (Perm.set_default_pos c pos) as [c'|] eqn:Ec; [|done]. cbn.
  destruct (set_default_pos_child e c pos c' Hc Ec) as [Hc' _].
  pose proof (no_pred_child _ _ _ (proj1 Hc') Hn) as Hn'. rewrite <- (Hext s c' Hf Hn' Hc').
  destruct (rec1 s c') as [[s1 r1]| |] eqn:E1; [|done..]. cbn. destruct r1 as [new|p]; [|done].
  pose proof (Hrec s c' s1 _ (frame_good _ _ _ Hf) Hn' Hc' E1) as Hf1. apply IH.
  - eapply frame_trans; [exact Hf|]. by eapply frame_below; [apply Hc'|].
  - by eapply frame_no_pred; [apply Hc'| |].
Qed.

Lemma not_contained_above s req :
  Perm.is_acc req = false -> no_pred_above s (Perm.get_place req) -> State.contains_perm s req = false ->
  no_pred_at_or_above s (Perm.get_place req).
Proof.
  intros Hacc Hn Hnot k Hk Hpre. specialize (Hn k Hk). unfold extends, has_proper_prefix in Hn.
  rewrite bool_decide_eq_false in Hn. destruct (Perm.get_place req == k) eqn:Ek; [|done].
  rewrite contains_perm_lookup, Hacc in Hnot. rewrite bool_decide_eq_false in Hnot. apply Hnot.
  by rewrite (lookup_cong s false _ k Ek).
Qed.

(** The fold of [req] is the same for two functions that agree below it. *)
Lemma obtain_fold_ext rec1 rec2 s req M :
  well_formed_req req -> Perm.is_acc req = false -> good_state s -> no_pred_above s (Perm.get_place req) ->
  State.contains_perm s req = false -> acc_bounded s M ->
  obtains_below (Perm.get_place req) rec1 ->
  (path_length (Perm.get_place req) < M ->
   forall s' c, frame s (Perm.get_place req) s' -> no_pred_above s' (Perm.get_place c) ->
     child_req (Perm.get_place req) c -> rec1 s' c = rec2 s' c) ->
  obtain_fold predicates rec1 s req = obtain_fold predicates rec2 s req.
Proof.
  intros [Hpl Hc] Hacc Hg Hn Hnot HM Hrec Hext. unfold obtain_fold. set (place := Perm.get_place req) in *.
  destruct (typed_ref_name place) as [[name|]|]; cbn; try done.
  destruct (HashMap.get predicates name) as [P|] eqn:EP; cbn; [|done].
  destruct (find_unfolded_variant s place) as [variant|]; cbn; [|done].
  destruct (find_opt _ (State.acc_places s)) as [o|] eqn:Eo; cbn; [|done].
  destruct (get_body_footprint P variant) as [footprint|] eqn:Ef; cbn; [|done].
  destruct (perms_in_pred Some P place footprint) as [ps|] eqn:Eps; cbn; [|done].
  pose proof (perms_in_pred_child _ _ _ _ _ (predicate_direct _ _ EP) Hpl Hc Ef Eps) as Hch.
  destruct (match o with Some _ => true | None => _ end) eqn:Ecan; [|done].
  destruct (fold_amount s ps) as [a|]; cbn; [|done].
  assert (Hbody : obtain_body rec1 (pos place) s [] ps = obtain_body rec2 (pos place) s [] ps); [|by rewrite Hbody].
  destruct o as [p|].
  - apply find_opt_some in Eo as [Hin Hpre]. pose proof (HM p (acc_place_lookup s p Hg Hin)).
    apply has_proper_prefix_length in Hpre. apply (obtain_body_ext rec1 rec2 _ place s); try done.
    + intros s' c Hf Hn' Hc'. apply Hext; done || lia.
    + by apply frame_refl.
    + by apply not_contained_above.
  - destruct ps; [done|]. by cbn in Ecan.
Qed.

Lemma obtain_fuel_enough_below cut M d : forall s req b m,
  well_formed_req req -> good_state s -> no_pred_above s (Perm.get_place req) -> acc_bounded s M ->
  M + 2 <= d + path_length (Perm.get_place req) -> 1 <= d <= m ->
  obtain_fuel predicates Panic d s req b = obtain_fuel predicates cut m s req b.
Proof.
  induction d as [|d IH]; intros s req b m Hwf Hg Hn HM Hd Hm; [lia|]. destruct m as [|m]; [lia|].
  cbn [obtain_fuel]. unfold obtain_step. destruct (State.contains_perm s req) eqn:Eq; [done|].
  destruct (Perm.is_acc req && Perm.is_local req); [done|].
  destruct (find_pred_above s req Hg (proj1 Hwf)) as (o & -> & Ho). cbn [unwrap mbind outcome_bind].
  destruct o as [p|].
  { exfalso. destruct Ho as (Hext & _ & Hin). specialize (Hn p Hin). congruence. }
  destruct (Perm.is_pred req) eqn:Epred; [|done]. assert (Hacc : Perm.is_acc req = false) by by destruct req.
  apply (obtain_fold_ext _ _ s req M); try done.
  - intros s1 c s2 r2 Hg1 Hn1 Hc1 E1.
    by apply (obtain_fuel_frame d s1 c false s2 r2 (child_req_well_formed _ _ Hc1) Hg1 Hn1).
  - intros Hlt s1 c Hf Hn1 Hc1. pose proof (child_length _ _ (proj1 Hc1)) as Hl. apply IH; try lia; try done.
    + by eapply child_req_well_formed.
    + apply (frame_good _ _ _ Hf).
    + by eapply acc_bounded_frame.
Qed.

(** ** Enough fuel: unfolding *)

(** The distances from [e] to the predicates at its proper prefixes. *)
Definition distance (s : State) (e : Expr) (q : Expr) : nat :=
  match lookup s false q with
  | Some _ => path_length e - path_length q
  | None => 0
  end.

Definition above (s : State) (e : Expr) : nat := prefix_sum (distance s e) e.

Lemma above_bound s e : above s e <= path_length e * path_length e.
Proof. apply prefix_sum_bound. intros q. unfold distance. destruct (lookup s false q); lia. Qed.

Lemma body_amounts_other place ps b k :
  body_of place ps -> path_length k <> S (path_length place) -> amounts_at ps b k = [].
Proof.
  intros [Hb _] Hk. unfold amounts_at. induction Hb as [|p ps Hp _ IH]; [done|]. cbn.
  unfold is_key at 1. destruct (k == Perm.get_place p) eqn:E; [|by rewrite andb_false_r].
  exfalso. apply path_length_eqb in E. rewrite (path_length_parent _ _ Hp) in E. lia.
Qed.

(** Unfolding all of [p] changes the amounts at [p] and one projection below
    it only. *)
Lemma unfold_pred_lookup s p a variant s1 act :
  good_state s -> comparable p = true -> lookup s false p = Some a ->
  unfold_pred predicates s p a variant = Val (s1, act) ->
  good_state s1 /\ (all_write s -> all_write s1) /\ (forall k, (k == p) = true -> lookup s1 false k = None)
  /\ (forall b k, path_length k <> S (path_length p) -> (k == p) = false -> lookup s1 b k = lookup s b k)
  /\ (forall k, path_length k <> S (path_length p) -> lookup s1 true k = lookup s true k).
Proof.
  intros Hg Hc Hl E. apply unfold_pred_val in E as
    (name & P & footprint & ps & s0 & _ & HP & Hfp & Hps & _ & _ & Hrem & Hins & _).
  destruct (perms_in_pred_body _ _ _ _ _ _ (predicate_direct _ _ HP) (update_keeps_place a) Hfp Hps) as [Hb Hcmp].
  specialize (Hcmp Hc).
  destruct (remove_whole_pred s p a Hg Hc Hl) as (s0' & Hrem' & Hu & Hg0).
  rewrite Hrem in Hrem'. injection Hrem' as <-.
  pose proof (insert_all_spec ps s0 Hg0 Hcmp) as Hi. rewrite Hins in Hi. destruct Hi as (Hg1 & _ & Hl1).
  destruct Hu as [Hl0 _].
  assert (Hother : forall b k, path_length k <> S (path_length p) -> lookup s1 b k = lookup s0 b k).
  { intros b k Hk. specialize (Hl1 b k). rewrite (body_amounts_other p ps) in Hl1 by done. cbn [plus_all] in Hl1.
    congruence. }
  split_and!; [done|..].
  - intros Hw. assert (a = PermAmount.Write) as -> by exact (Hw _ _ _ Hl).
    apply (insert_all_write s0 ps s1 Hg0 Hcmp (perms_in_pred_write _ _ _ _ Hps)); [|done].
    intros b k c. rewrite Hl0. destruct (is_key _ b k); [done|apply Hw].
  - intros k Hk. rewrite Hother by (rewrite (path_length_eqb k p Hk); lia). rewrite Hl0. unfold is_key. cbn.
    by rewrite Hk.
  - intros b k Hk Hne. rewrite Hother, Hl0 by done. unfold is_key. cbn. by rewrite Hne, andb_false_r.
  - intros k Hk. rewrite Hother, Hl0 by done. done.
Qed.

Lemma unfold_pred_progress s e p a variant s1 act M :
  good_state s -> is_place e = true -> comparable p = true -> extends e p = true -> lookup s false p = Some a ->
  acc_bounded s M -> path_length e <= M ->
  unfold_pred predicates s p a variant = Val (s1, act) ->
  good_state s1 /\ above s1 e < above s e /\ acc_bounded s1 M.
Proof.
  intros Hg He Hc Hext Hl HM HeM E.
  destruct (unfold_pred_lookup s p a variant s1 act Hg Hc Hl E) as (Hg1 & _ & Hnone & Hother & Hacc).
  pose proof (extends_length e p Hext) as Hlen. split; [done|]. split.
  - apply (prefix_sum_decreases _ _ e p (path_length e - path_length p - 1)); [done|done|..].
    + intros q Hq. unfold distance. rewrite (Hnone q Hq), (lookup_cong s false q p Hq), Hl.
      rewrite (path_length_eqb q p Hq). split; lia.
    + intros q Hq. unfold distance. destruct (lookup s1 false q); lia.
    + intros q Hq1 Hq2. unfold distance. rewrite Hother; [done|done|].
      destruct (q == p) eqn:Eq; [|done]. by apply path_length_eqb in Eq.
  - intros k Hk. destruct (decide (path_length k = S (path_length p))) as [El|El]; [lia|].
    apply HM. by rewrite <- (Hacc k El).
Qed.

Lemma obtain_fuel_enough cut M d : forall s req b m,
  well_formed_req req -> good_state s -> acc_bounded s M -> path_length (Perm.get_place req) <= M ->
  above s (Perm.get_place req) + M + 2 <= d + path_length (Perm.get_place req) -> 1 <= d <= m ->
  obtain_fuel predicates Panic d s req b = obtain_fuel predicates cut m s req b.
Proof.
  induction d as [|d IH]; intros s req b m Hwf Hg HM HeM Hd Hm; [lia|]. destruct m as [|m]; [lia|].
  destruct (find_pred_above s req Hg (proj1 Hwf)) as (o & Hfind & Ho). destruct o as [p|].
  - cbn [obtain_fuel]. unfold obtain_step. rewrite Hfind. destruct (State.contains_perm s req); [done|].
    destruct (Perm.is_acc req && Perm.is_local req); [done|]. cbn [unwrap mbind outcome_bind].
    destruct Ho as (Hext & Hcp & [a Ha]). pose proof Ha as Ha'. unfold lookup in Ha'. cbn in Ha'. rewrite Ha'. cbn.
    destruct (assert_o (amount_ge a (Perm.get_perm_amount req))) as [[]| |]; cbn; [|done..].
    destruct (find_variant p (Perm.get_place req)) as [variant|]; cbn; [|done].
    destruct (unfold_pred predicates s p a variant) as [[s1 act]| |] eqn:E; cbn; [|done..].
    destruct (unfold_pred_progress s _ p a variant s1 act M Hg (proj1 Hwf) Hcp Hext Ha HM HeM E) as (Hg1 & Hlt & HM1).
    rewrite <- (IH s1 req false m); [done|done|done|done|done|lia|]. split; [|lia].
    pose proof (extends_length _ _ Hext). lia.
  - apply (obtain_fuel_enough_below cut M); try done. lia.
Qed.

Lemma obtain_enough cut s req b m :
  well_formed_req req -> good_state s -> obtain_bound s req <= m ->
  obtain_fuel predicates cut m s req b = obtain predicates s req b.
Proof.
  intros Hwf Hg Hm. symmetry. unfold obtain. set (L := path_length (Perm.get_place req)).
  set (A := list_max (map path_length (HashMap.keys (State.acc s)))).
  assert (Hbound : obtain_bound s req = S L * S L + A + 3) by done.
  apply (obtain_fuel_enough cut (Nat.max L A)); [done|done| |fold L; lia| |lia].
  - intros k [a Ha]. unfold lookup in Ha. cbn in Ha. apply HashMap.get_in in Ha as (k' & Hin & Hk).
    rewrite (path_length_eqb k k' Hk).
    assert (Hall : Forall (fun x => path_length x <= A) (HashMap.keys (State.acc s))) by (apply list_max_Forall; done).
    rewrite Forall_forall in Hall. pose proof (Hall k') as H1. transitivity A; [|lia]. apply H1.
    apply list_elem_of_In. unfold HashMap.keys. apply in_map_iff. by exists (k', a).
  - pose proof (above_bound s (Perm.get_place req)). fold L in H1 |- *. lia.
Qed.

(** Success means that the permission is there. *)
Lemma obtain_fuel_sound n : forall s req b s' r,
  well_formed_req req -> good_state s -> obtain_fuel predicates Panic n s req b = Val (s', r) ->
  good_state s' /\ (all_write s -> all_write s') /\ (forall acts, r = Success acts -> satisfied s' req).
Proof.
  induction n as [|n IH]; intros s req b s' r Hwf Hg E; [done|].
  destruct (find_pred_above s req Hg (proj1 Hwf)) as (o & Hfind & Ho). destruct o as [p|].
  - cbn [obtain_fuel] in E. unfold obtain_step in E. rewrite Hfind in E.
    destruct (State.contains_perm s req) eqn:Eq.
    { injection E as <- <-. split_and!; [done|done|]. intros _ _. by left. }
    destruct (Perm.is_acc req && Perm.is_local req) eqn:El.
    { injection E as <- <-. split_and!; [done|done|]. intros _ _. by right. }
    destruct Ho as (Hext & Hcp & [a Ha]). pose proof Ha as Ha'. unfold lookup in Ha'. cbn in Ha', E.
    rewrite Ha' in E. cbn in E.
    destruct (assert_o (amount_ge a (Perm.get_perm_amount req))) as [[]| |]; cbn in E; [|done..].
    destruct (find_variant p (Perm.get_place req)) as [variant|]; cbn in E; [|done].
    destruct (unfold_pred predicates s p a variant) as [[s1 act]| |] eqn:Eu; cbn in E; [|done..].
    destruct (unfold_pred_lookup s p a variant s1 act Hg Hcp Ha Eu) as (Hg1 & Hw1 & _).
    destruct (obtain_fuel predicates Panic n s1 req false) as [[s2 r2]| |] eqn:E2; cbn in E; [|done..].
    destruct (IH s1 req false s2 r2 Hwf Hg1 E2) as (Hg2 & Hw2 & Hs).
    destruct r2 as [acts2|missing]; cbn in E; [|done]. injection E as <- <-. split_and!; [done|auto|].
    intros acts _. by eapply Hs.
  - destruct (obtain_fuel_frame (S n) s req b s' r Hwf Hg Ho E) as [Hf Hs].
    split_and!; [apply (frame_good _ _ _ Hf)|apply (frame_write _ _ _ Hf)|done].
Qed.

(** C38. The unbounded recursion of `obtain` ends: for predicates whose bodies are about the
    projections of self, and a state whose keys are distinct and comparable, the result of the
    recursion that is cut off after m nested calls, for every m from the number obtain_bound on,
    does not depend on what is returned at the cut, whether a value, an error or a panic; so no
    call is nested more deeply, and `obtain` is this result. *)
Theorem obtain_terminates cut (s : State) (req : Perm) (b : bool) (m : nat) :
  well_formed_req req -> good_state s -> obtain_bound s req <= m ->
  obtain_fuel predicates cut m s req b = obtain predicates s req b.
Proof. apply obtain_enough. Qed.

(** C37. For predicates whose bodies are about the projections of self: when `obtain` succeeds
    for an access or predicate permission to a place, from a state whose keys are distinct and
    comparable, the state it ends in has such keys, and it has a permission of that kind to the
    place (or the permission was the access to a local variable, which is not tracked). Its
    amount is not compared with the required one, but if all permissions of the state are
    `write`, then so are all permissions of the resulting state, and that to the place. *)
Theorem obtain_sound (s s' : State) (req : Perm) (b : bool) (actions : list Action) :
  well_formed_req req -> good_state s -> obtain predicates s req b = Val (s', Success actions) ->
  good_state s'
  /\ (Perm.is_acc req && Perm.is_local req = false ->
      exists amount, lookup s' (Perm.is_acc req) (Perm.get_place req) = Some amount
        /\ (all_write s -> amount = PermAmount.Write))
  /\ (all_write s -> all_write s').
Proof.
  intros Hwf Hg E. destruct (obtain_fuel_sound _ _ _ _ _ _ Hwf Hg E) as (Hg' & Hw & Hs). split_and!; [done| |done].
  intros Hl. destruct (Hs actions eq_refl) as [Hc|Hc]; [|congruence].
  rewrite contains_perm_lookup, bool_decide_eq_true in Hc. destruct Hc as [amount Ha]. exists amount.
  split; [done|]. intros Hall. exact (Hw Hall _ _ _ Ha).
Qed.
End Obtain.

(** ** The predicates of the encoder *)

Section Encoder.
Context `{RegexLaws}.

Lemma in_union {A} `{PartialEq A} (s1 s2 : HashSet.t A) x : In x (HashSet.union s1 s2) -> In x s1 \/ In x s2.
Proof.
  unfold HashSet.union. revert s1. induction s2 as [|y s2 IH]; intros s1; cbn; [by left|].
  intros [Hs|Hs]%IH; [|by right; right]. unfold HashSet.insert in Hs. destruct (HashSet.contains s1 y); [by left|].
  apply in_app_iff in Hs as [Hs|[<-|[]]]; [by left|right; by left].
Qed.

(** The footprint of [e], whatever the predicates, is about projections of
    [self]. *)
Definition direct_expr (self e : Expr) : Prop :=
  forall body predicates footprint, footprint_with body predicates e = Some footprint -> direct_perms self footprint.

Lemma direct_perms_union self s1 s2 :
  direct_perms self s1 -> direct_perms self s2 -> direct_perms self (HashSet.union s1 s2).
Proof.
  unfold direct_perms. rewrite !Forall_forall. intros H1 H2 p Hp%list_elem_of_In.
  apply in_union in Hp as [Hp|Hp]; apply list_elem_of_In in Hp; auto.
Qed.

Lemma direct_binop self op l r p : direct_expr self l -> direct_expr self r -> direct_expr self (Expr.BinOp op l r p).
Proof.
  intros Hl Hr body preds footprint E. cbn in E. inv_option. subst.
  apply direct_perms_union; [by eapply Hl|by eapply Hr].
Qed.

Lemma direct_conjoin self es : Forall (direct_expr self) es -> direct_expr self (conjoin es).
Proof.
  induction 1 as [|e es He Hes IH]; [by intros body preds footprint [= <-]; constructor|].
  by apply direct_binop.
Qed.

Lemma child_of_field v f : child_of (expr_of_var v) (field_place (expr_of_var v) f).
Proof. split; [done|]. exists (expr_of_var v). split; [done|]. by rewrite expr_eqb_refl. Qed.

Lemma direct_access self place a : child_of self place -> direct_expr self (Ex.acc_permission place a).
Proof. intros Hc body preds footprint [= <-]. constructor; [exact Hc|constructor]. Qed.

Lemma direct_pred_access self name place a :
  child_of self place -> is_old place = false -> direct_expr self (Ex.predicate_access_predicate name place a).
Proof.
  intros Hc Ho body preds footprint E. cbn in E. unfold is_old in Ho. rewrite (proj1 Hc) in E.
  destruct (get_label place); [done|]. injection E as <-. constructor; [exact Hc|constructor].
Qed.

Lemma struct_direct typ fields P : Predicate.new_struct typ fields = Some P -> direct P.
Proof.
  unfold Predicate.new_struct, Predicate.struct_new. intros E. inv_option. subst. intros variant footprint E.
  cbn in E. inv_option. unfold struct_body_footprint in E. cbn in E.
  refine (direct_conjoin _ _ _ _ _ _ E). apply Forall_concat.
  refine (mapM_opt_image_Forall _ (fun _ => True) _ _ _ _ _ Hx0); [|by apply Forall_true].
  intros f parts _ Ef. unfold Predicate.struct_field_perms in Ef. inv_option. subst.
  repeat constructor; [apply direct_access, child_of_field|by apply direct_pred_access; [apply child_of_field|]].
Qed.

Lemma child_of_variant v name place : variant_place (expr_of_var v) name = Some place -> child_of (expr_of_var v) place.
Proof.
  unfold variant_place. intros E. inv_option. subst. split; [done|]. exists (expr_of_var v). split; [done|].
  by rewrite expr_eqb_refl.
Qed.

Lemma enum_direct this f bounds variants : direct (Predicate.new_enum this f bounds variants).
Proof.
  intros variant footprint. unfold Predicate.new_enum. set (ep := EnumPredicate.make _ _ _ _ _).
  cbn [get_body_footprint Predicate.self_place].
  assert (Hd : direct_perms (expr_of_var this) (get_underapproximated_body_footprint ep)).
  { constructor; [apply child_of_field|constructor]. }
  destruct variant as [variant|]; [|intros [= <-]; exact Hd].
  unfold enum_body_footprint, get_variant_footprint. change (EnumPredicate.this ep) with this.
  destruct (variant_place (expr_of_var this) _) as [place|] eqn:Ev; [|done]. apply child_of_variant in Ev.
  intros E%(inj Some). rewrite <- E. apply direct_perms_union; [exact Hd|].
  apply Forall_forall. intros p Hp%list_elem_of_In%from_list_in. by destruct Hp as [<-|[<-|[]]].
Qed.

Lemma bodyless_direct name this : direct (Predicate.Bodyless name this).
Proof. intros variant footprint [= <-]. constructor. Qed.

Lemma abstract_direct typ : direct (Predicate.new_abstract typ).
Proof. intros variant footprint E. cbn in E. inv_option. subst. constructor. Qed.

Lemma direct_no_perms self e :
  (forall body predicates, footprint_with body predicates e = Some []) -> direct_expr self e.
Proof. intros He body preds footprint E. rewrite He in E. injection E as <-. constructor. Qed.

(** The bounds of a primitive type are expressions without permissions. *)
Lemma primitive_direct typ f bounds unsigned :
  match bounds with
  | Some (lower, upper) => forall body predicates, footprint_with body predicates lower = Some []
      /\ footprint_with body predicates upper = Some []
  | None => True
  end -> direct (Predicate.new_primitive_value typ f bounds unsigned).
Proof.
  intros Hb variant footprint E. cbn in E. inv_option. unfold struct_body_footprint in E. cbn in E.
  refine (direct_conjoin _ _ _ _ _ _ E). pose proof (child_of_field (Predicate.construct_this typ) f) as Hc.
  destruct bounds as [[lower upper]|]; [|destruct unsigned];
    repeat constructor; try (by apply direct_access); apply direct_binop; apply direct_no_perms; try done; apply Hb.
Qed.
End Encoder.

(** ** Examples and witnesses

    A struct [Pair] with two fields of type [i32]. *)

Import MiniRegex.

Definition pair_f : Field := Field.new "f" (Ty.TypedRef "i32").
Definition pair_g : Field := Field.new "g" (Ty.TypedRef "i32").
Definition val_int : Field := Field.new "val_int" Ty.Int.

Definition pair_predicate : Predicate :=
  match Predicate.new_struct (Ty.TypedRef "Pair") [pair_f; pair_g] with
  | Some p => p
  | None => Predicate.new_abstract (Ty.TypedRef "Pair")
  end.

Definition int_predicate : Predicate := Predicate.new_primitive_value (Ty.TypedRef "i32") val_int None false.

Definition pair_predicates : Predicates := [("Pair", pair_predicate); ("i32", int_predicate)].

Lemma pair_predicates_direct : all_direct pair_predicates.
Proof.
  apply Forall_cons. split; [by apply (struct_direct (Ty.TypedRef "Pair") [pair_f; pair_g])|].
  apply Forall_cons. split; [by apply primitive_direct|constructor].
Qed.

Definition local_x : Expr := expr_of_var (LocalVar.new "x" (Ty.TypedRef "Pair")).
Definition x_f : Expr := field_place local_x pair_f.
Definition x_f_val : Expr := field_place x_f val_int.

(** The state that holds a folded [Pair]. *)
Definition folded_x : State := State.new [(local_x, PermAmount.Write)] [(local_x, PermAmount.Write)] [].

Lemma folded_x_good : good_state folded_x.
Proof. intros []; split; by repeat constructor. Qed.

(** The access to [x.f.val_int] is obtained with two unfolds. *)
Lemma obtain_field :
  exists s, obtain pair_predicates folded_x (Perm.Acc x_f_val PermAmount.Write) false
    = Val (s, Success [Action.Unfold "Pair" [local_x] PermAmount.Write None;
                       Action.Unfold "i32" [x_f] PermAmount.Write None]).
Proof. eexists. vm_compute. reflexivity. Qed.

Lemma obtain_terminates_witness :
  obtain_fuel pair_predicates (Err (MissingLabel "cut off")) 1000 folded_x (Perm.Acc x_f_val PermAmount.Write) false
  = obtain pair_predicates folded_x (Perm.Acc x_f_val PermAmount.Write) false.
Proof.
  apply (obtain_terminates pair_predicates pair_predicates_direct);
    [by split|exact folded_x_good|apply Nat.leb_le; vm_compute; reflexivity].
Defined.

Lemma folded_x_write : all_write folded_x.
Proof.
  intros [] k a; unfold lookup, folded_x; cbn; destruct (peq k local_x); intros E; congruence.
Qed.

Lemma obtain_sound_witness :
  exists s actions, obtain pair_predicates folded_x (Perm.Acc x_f_val PermAmount.Write) false = Val (s, Success actions)
    /\ good_state s /\ lookup s true x_f_val = Some PermAmount.Write.
Proof.
  do 2 eexists. split; [vm_compute; reflexivity|].
  lazymatch goal with |- good_state ?s /\ _ => destruct (obtain_sound pair_predicates pair_predicates_direct folded_x s (Perm.Acc x_f_val PermAmount.Write) false
           [Action.Unfold "Pair" [local_x] PermAmount.Write None; Action.Unfold "i32" [x_f] PermAmount.Write None])
    as (Hg & Hl & _) end; [by split|exact folded_x_good|vm_compute; reflexivity|].
  split; [exact Hg|]. destruct (Hl eq_refl) as (a & Ha & Hw). rewrite (Hw folded_x_write) in Ha. exact Ha.
Defined.

(** The amounts are not compared: a [write] permission counts as obtained
    where the state only has a [read] permission. *)
Example obtain_ignores_amount :
  let s := State.new [(local_x, PermAmount.Write)] [(local_x, PermAmount.Read)] [] in
  obtain pair_predicates s (Perm.Pred local_x PermAmount.Write) false = Val (s, Success [])
  /\ lookup s false local_x = Some PermAmount.Read.
Proof. split; vm_compute; reflexivity. Qed.

Lemma fold_unfold_inverse_witness :
  exists s1 s2, unfold_pred pair_predicates folded_x local_x PermAmount.Write None
      = Val (s1, Action.Unfold "Pair" [local_x] PermAmount.Write None)
    /\ apply_on_state (Stmt.Fold "Pair" [local_x] PermAmount.Write None Position.default) s1 pair_predicates = Val s2
    /\ s2 ≡ folded_x.
Proof.
  eexists.
  destruct (fold_unfold_inverse pair_predicates folded_x local_x PermAmount.Write None Position.default
              pair_predicates_direct folded_x_good) as [Hfold _]; [reflexivity|].
  edestruct Hfold as (name & s2 & Hact & Hs & Heq); [reflexivity|reflexivity|vm_compute; reflexivity|].
  injection Hact as <-. exists s2. split; [vm_compute; reflexivity|]. split; [exact Hs|exact Heq].
Defined.

(** An unfold statement gives the amounts of the body, also when only a
    [Read] permission is unfolded; the context's [unfold] scales them. *)
Example unfold_statement_ignores_amount :
  let s := State.new [(local_x, PermAmount.Write)] [(local_x, PermAmount.Read)] [] in
  (exists s1, apply_on_state (Stmt.Unfold "Pair" [local_x] PermAmount.Read None) s pair_predicates = Val s1
     /\ lookup s1 true x_f = Some PermAmount.Write)
  /\ exists s2 act, unfold_pred pair_predicates s local_x PermAmount.Read None = Val (s2, act)
     /\ lookup s2 true x_f = Some PermAmount.Read.
Proof.
  cbn zeta. split.
  - eexists. split; [vm_compute; reflexivity|vm_compute; reflexivity].
  - do 2 eexists. split; [vm_compute; reflexivity|vm_compute; reflexivity].
Qed.

(** A failed fold leaves the folds it did on the way in the state, but their
    actions are lost: here [x.f] is folded before [x.g] is found missing. *)
Example failed_obtain_changes_state :
  let s := State.new [(local_x, PermAmount.Write); (x_f, PermAmount.Write); (x_f_val, PermAmount.Write);
                      (field_place local_x pair_g, PermAmount.Write)] [] [] in
  exists s', obtain pair_predicates s (Perm.Pred local_x PermAmount.Write) true
               = Val (s', Failure (Perm.Pred (field_place local_x pair_g) PermAmount.Write))
    /\ lookup s true x_f_val = Some PermAmount.Write /\ lookup s' true x_f_val = None
    /\ lookup s' false x_f = Some PermAmount.Write.
Proof.
  cbn zeta. eexists. split; [vm_compute; reflexivity|]. split; [vm_compute; reflexivity|].
  split; vm_compute; reflexivity.
Qed.
