(* ===== verification/JoinFacts.v ===== *)
(** * Joining the contexts of two branches: theorems

    Whatever the branches obtained before, the last part of [join]
    ([align]) cannot fail an assertion if the states hold [Read] and [Write]
    permissions only: it keeps exactly the common places that are not below
    a moved place, with the smaller amount. *)

From Stdlib Require Import Lia.
From S2P Require Import Prelude Ast ExprEq ExprPlace ExprTransformers ExprOps Collections Typaram ExprReplace.
From S2P Require Import Items Borrows Stmt Cfg Perm FuState Footprint.
From S2P Require Import FuSemantics EventLog.
From S2P Require Import PathCtxt PathCtxtFacts ObtainFacts.

(** ** Sets of places *)

Definition set_distinct (l : list Expr) : Prop := ForallOrdPairs (fun a b => (a == b) = false) l.

Lemma set_distinct_snoc l x :
  set_distinct l -> HashSet.contains l x = false -> set_distinct (l ++ [x])%list.
Proof.
  unfold set_distinct, HashSet.contains. induction 1 as [|y l Hy Hl IH]; cbn; [by repeat constructor|].
  rewrite orb_false_iff. intros [Hxy Hc]. constructor; [|by apply IH]. apply Forall_app. split; [done|].
  constructor; [by rewrite peq_sym|constructor].
Qed.

Lemma set_distinct_insert l x : set_distinct l -> set_distinct (HashSet.insert l x).
Proof.
  intros Hl. unfold HashSet.insert. destruct (HashSet.contains l x) eqn:E; [done|by apply set_distinct_snoc].
Qed.

Lemma set_distinct_inserts l : forall s, set_distinct s -> set_distinct (foldl HashSet.insert s l).
Proof. induction l as [|x l IH]; intros s Hs; [done|]. cbn. apply IH. by apply set_distinct_insert. Qed.

Lemma set_distinct_from_list l : set_distinct (HashSet.from_list l).
Proof. apply set_distinct_inserts. constructor. Qed.

Lemma set_distinct_filter (f : Expr -> bool) l : set_distinct l -> set_distinct (List.filter f l).
Proof.
  induction 1 as [|y l Hy Hl IH]; cbn; [constructor|]. destruct (f y); [|done]. constructor; [|done].
  apply Forall_forall. intros x Hx%list_elem_of_In%filter_In. rewrite Forall_forall in Hy.
  apply Hy, list_elem_of_In, Hx.
Qed.

Lemma filter_extensions_distinct keep l r : forall res res',
  set_distinct res -> filter_extensions keep l r res = Some res' -> set_distinct res'.
Proof.
  induction l as [|a l IH]; intros res res' Hres; cbn; [by intros [= <-]|]. intros E. inv_option.
  eapply IH; [|exact E]. destruct (Bool.eqb _ keep); [by apply set_distinct_insert|done].
Qed.

(** The places with a permission. *)
Definition places (s : State) (b : bool) : HashSet.t Expr := if b then State.acc_places s else State.pred_places s.

Lemma existsb_keys (m : HashMap.t Expr PermAmount) k :
  existsb (fun y => k == y) (HashMap.keys m) = HashMap.contains_key m k.
Proof. unfold HashMap.contains_key, HashMap.keys. induction m as [|[k1 a1] m IH]; [done|]. cbn. by destruct (k == k1). Qed.

Lemma contains_places s b k : HashSet.contains (places s b) k = bool_decide (is_Some (lookup s b k)).
Proof.
  assert (Hm : HashSet.contains (places s b) k = HashMap.contains_key (amounts s b) k).
  { unfold places, State.acc_places, State.pred_places. destruct b; rewrite HashSet.contains_from_list; apply existsb_keys. }
  rewrite Hm. unfold HashMap.contains_key, lookup. destruct (HashMap.get _ k).
  - by rewrite bool_decide_eq_true_2.
  - by rewrite bool_decide_eq_false_2; [|intros []].
Qed.

Lemma places_distinct s b : set_distinct (places s b).
Proof. destruct b; apply set_distinct_from_list. Qed.

(** The keys are places that can be compared. *)
Definition place_keys (s : State) : Prop :=
  forall b, Forall (fun k => is_place k = true /\ comparable k = true) (HashMap.keys (amounts s b)).

Lemma in_places s b k :
  good_state s -> In k (places s b) -> comparable k = true /\ is_Some (lookup s b k).
Proof.
  intros Hg Hin. assert (Hk : In k (HashMap.keys (amounts s b))) by (destruct b; by apply from_list_in).
  destruct (Hg b) as [Hd Hc]. rewrite Forall_forall in Hc. assert (Hck : comparable k = true) by (apply Hc; by apply list_elem_of_In).
  split; [done|]. unfold HashMap.keys in Hk. apply in_map_iff in Hk as ([k' a] & <- & Hin').
  exists a. apply HashMap.distinct_in_get; [done|done|]. by rewrite expr_eqb_refl.
Qed.

(** ** Dropping permissions *)

Definition places_ok (s : State) : Prop := forall b k, is_Some (lookup s b k) -> is_place k = true.

Record branch_ok (B : Branch) : Prop := {
  ok_good : good_state (branch_state B);
  ok_places : places_ok (branch_state B);
  ok_moved : Forall (fun m => is_place m = true) (State.moved (branch_state B))
}.

Definition is_drop (a : Action) : Prop := match a with Action.Drop _ _ => True | _ => False end.

(** [B'] is [B] without the permissions of kind [b] at the places [f], and
    with drops logged. *)
Record restricts (b : bool) (f : Expr -> bool) (B B' : Branch) : Prop := {
  restricts_ok : branch_ok B';
  restricts_lookup : forall c k, lookup (branch_state B') c k =
    if Bool.eqb c b && f k then None else lookup (branch_state B) c k;
  restricts_drops : exists ds, snd B' = (snd B ++ ds)%list /\ Forall is_drop ds
}.

Lemma restricts_none b (f : Expr -> bool) B : branch_ok B -> (forall k, f k = false) -> restricts b f B B.
Proof.
  intros HB Hf. split; [done| |exists []; by rewrite app_nil_r]. intros c k. by rewrite Hf, andb_false_r.
Qed.

Lemma restricts_trans b f g B1 B2 B3 :
  restricts b f B1 B2 -> restricts b g B2 B3 -> restricts b (fun k => f k || g k) B1 B3.
Proof.
  intros [_ Hl1 (ds1 & Hd1 & Hf1)] [Hok Hl2 (ds2 & Hd2 & Hf2)]. split; [done| |].
  - intros c k. rewrite Hl2, Hl1. by destruct (Bool.eqb c b), (f k), (g k).
  - exists (ds1 ++ ds2)%list. rewrite Hd2, Hd1, app_assoc. split; [done|]. by apply Forall_app.
Qed.

Lemma restricts_ext b f g B B' : (forall k, f k = g k) -> restricts b f B B' -> restricts b g B B'.
Proof. intros Hfg [Hok Hl Hd]. split; [done| |done]. intros c k. by rewrite Hl, Hfg. Qed.

Definition drops_one (b : bool) (step : Branch -> Expr -> option Branch) : Prop :=
  forall B k, branch_ok B -> comparable k = true -> is_Some (lookup (branch_state B) b k) ->
    exists B', step B k = Some B' /\ restricts b (fun k' => k' == k) B B'.

Lemma foldl_drop step b ks : forall B,
  drops_one b step -> branch_ok B -> set_distinct ks ->
  Forall (fun k => comparable k = true /\ is_Some (lookup (branch_state B) b k)) ks ->
  exists B', foldl_opt step B ks = Some B' /\ restricts b (HashSet.contains ks) B B'.
Proof.
  induction ks as [|k ks IH]; intros B Hstep HB Hd Hks; cbn.
  - exists B. split; [done|]. by apply restricts_none.
  - apply Forall_cons in Hks as [[Hc Hk] Hks]. inversion Hd as [|? ? Hne Hd']; subst.
    destruct (Hstep B k HB Hc Hk) as (B1 & -> & Hr). cbn.
    destruct (IH B1 Hstep (restricts_ok _ _ _ _ Hr) Hd') as (B2 & E & Hr2).
    + rewrite Forall_forall in *. intros x Hx. destruct (Hks x Hx) as [Hcx Hlx]. split; [done|].
      rewrite (restricts_lookup _ _ _ _ Hr), peq_sym, (Hne x Hx), andb_false_r. done.
    + exists B2. split; [done|]. by apply (restricts_trans b (fun k' => k' == k) (HashSet.contains ks) B B1).
Qed.

(** What a change of one map keeps. *)
Lemma branch_ok_removed B b k :
  branch_ok B ->
  let m := HashMap.remove (amounts (branch_state B) b) k in
  let s := if b then State.with_acc (branch_state B) m else State.with_pred (branch_state B) m in
  branch_ok (set_branch_state B s)
  /\ forall c k', lookup s c k' = if Bool.eqb c b && (k' == k) then None else lookup (branch_state B) c k'.
Proof.
  intros [Hg Hp Hm] m s.
  assert (Hl : forall c k', lookup s c k' = if Bool.eqb c b && (k' == k) then None else lookup (branch_state B) c k').
  { intros c k'. destruct (Hg b) as [Hd _]. unfold s, m, lookup. destruct b, c; cbn in *; try done;
      by apply HashMap.distinct_get_remove. }
  split; [|done]. split.
  - intros c. cbn. pose proof (good_map_remove _ k (Hg b)) as Hb. pose proof (Hg true). pose proof (Hg false).
    unfold s, m. by destruct b, c.
  - intros c k' Hk. apply (Hp c). cbn in Hk. rewrite Hl in Hk. by destruct (Bool.eqb c b && _); [destruct Hk|].
  - unfold s. by destruct b.
Qed.

Lemma drops_one_acc missing : drops_one true (drop_acc missing).
Proof.
  intros B k HB Hc [a Ha]. destruct (branch_ok_removed B true k HB) as [Hok Hl].
  unfold drop_acc, State.remove_acc_place. unfold lookup in Ha. cbn in Ha. rewrite Ha. cbn.
  eexists. split; [done|]. split; [by destruct Hok|exact Hl|]. cbn. eexists. split; [done|]. by repeat constructor.
Qed.

Lemma drops_one_pred missing : drops_one false (drop_pred missing).
Proof.
  intros B k HB Hc [a Ha]. destruct (branch_ok_removed B false k HB) as [Hok Hl].
  unfold drop_pred, State.remove_pred_place. unfold lookup in Ha. cbn in Ha. rewrite Ha. cbn.
  eexists. split; [done|]. split; [by destruct Hok|exact Hl|]. cbn. eexists. split; [done|]. by repeat constructor.
Qed.

Lemma filter_opt_place {A} (f : A -> option bool) (g : A -> bool) l :
  Forall (fun x => f x = Some (g x)) l -> filter_opt f l = Some (List.filter g l).
Proof. induction 1 as [|x l Hx _ IH]; [done|]. cbn. rewrite Hx, IH. cbn. by destruct (g x). Qed.

Lemma has_prefix_total a b : is_place a = true -> is_Some (has_prefix a b).
Proof. intros (ps & _ & _ & _ & H)%place_prefixes. rewrite H. by eexists. Qed.

Definition drop_other_step (b : Branch) (acc_place : Expr) : option Branch :=
  r ← State.remove_acc_place (branch_state b) acc_place;
  let perm := Perm.Acc acc_place (fst r) in
  s ← State.remove_moved_matching (snd r) (fun moved_place => has_prefix moved_place acc_place);
  Some (push_action (set_branch_state b s) (Action.Drop perm perm)).

Lemma drops_one_other : drops_one true drop_other_step.
Proof.
  intros B k HB Hc [a Ha]. destruct (branch_ok_removed B true k HB) as [Hok Hl].
  unfold drop_other_step, State.remove_acc_place. unfold lookup in Ha. cbn in Ha. rewrite Ha.
  cbn [mbind option_bind fst snd]. unfold State.remove_moved_matching.
  rewrite (filter_opt_place _ (fun m => negb (bool_decide (has_prefix m k = Some true)))).
  - eexists. split; [done|]. destruct Hok as [Hg Hp Hm]. split; [|exact Hl|].
    + split; [intros c; apply (Hg c)|intros c k'; apply (Hp c k')|]. cbn. cbn in Hm. rewrite Forall_forall in *.
      intros m Hin%list_elem_of_In%filter_In. apply Hm, list_elem_of_In, Hin.
    + cbn. eexists. split; [done|]. by repeat constructor.
  - eapply Forall_impl; [apply (ok_moved _ HB)|]. intros m Hm.
    destruct (has_prefix_total m k Hm) as [[] E]; cbn; rewrite E; by cbn.
Qed.

(** ** The steps that drop *)

Definition below_moved (moved : HashSet.t Expr) (k : Expr) : bool := existsb (extends k) moved.

Lemma contains_cong (s : HashSet.t Expr) a b : (a == b) = true -> HashSet.contains s a = HashSet.contains s b.
Proof.
  intros Hab. unfold HashSet.contains. induction s as [|x s IH]; [done|]. cbn.
  by rewrite (HashMap.peq_cong_l a b x Hab), IH.
Qed.

Lemma contains_filter (g : Expr -> bool) (s : HashSet.t Expr) k :
  (forall a b, (a == b) = true -> g a = g b) ->
  HashSet.contains (List.filter g s) k = HashSet.contains s k && g k.
Proof.
  intros Hg. unfold HashSet.contains. induction s as [|x s IH]; [done|]. cbn.
  destruct (k == x) eqn:E; cbn.
  - rewrite (Hg k x E). destruct (g x) eqn:Egx; cbn; [by rewrite E|]. rewrite IH, (Hg k x E), Egx. by rewrite andb_false_r.
  - destruct (g x); cbn; [by rewrite E, IH|done].
Qed.

Lemma below_moved_cong moved a b : (a == b) = true -> below_moved moved a = below_moved moved b.
Proof.
  intros Hab. unfold below_moved. induction moved as [|m moved IH]; [done|]. cbn.
  by rewrite (extends_cong_l a b m Hab), IH.
Qed.

(** Places without a permission do not matter. *)
Lemma restricts_present b f B B' :
  restricts b (fun k => HashSet.contains (places (branch_state B) b) k && f k) B B' -> restricts b f B B'.
Proof.
  intros [Hok Hl Hd]. split; [done| |done]. intros c k. rewrite Hl, contains_places.
  destruct (Bool.eqb c b) eqn:E; cbn; [|done]. apply Bool.eqb_prop in E as ->. destruct (f k); [|by rewrite andb_false_r].
  rewrite andb_true_r. case_bool_decide as Hb; [done|]. destruct (lookup (branch_state B) b k); [|done]. exfalso; eauto.
Qed.

Lemma places_facts B b (f : Expr -> bool) :
  branch_ok B ->
  set_distinct (List.filter f (places (branch_state B) b))
  /\ Forall (fun k => comparable k = true /\ is_Some (lookup (branch_state B) b k)) (List.filter f (places (branch_state B) b)).
Proof.
  intros HB. split; [apply set_distinct_filter, places_distinct|]. apply Forall_forall.
  intros k [Hin _]%list_elem_of_In%filter_In. by apply in_places; [apply HB|].
Qed.

Lemma filter_extensions_eq keep l right : forall res,
  Forall (fun a => is_place a = true) l -> set_distinct (res ++ l)%list -> 
  filter_extensions keep l right res
  = Some (res ++ List.filter (fun a => Bool.eqb (existsb (extends a) right) keep) l)%list.
Proof.
  induction l as [|a l IH]; intros res; cbn [filter_extensions List.filter]; [by rewrite app_nil_r|].
  intros [Ha Hl]%Forall_cons Hd. rewrite extends_some_place by done. cbn [mbind option_bind].
  assert (Hmid : HashSet.contains res a = false /\ set_distinct ((res ++ [a]) ++ l)%list /\ set_distinct (res ++ l)%list).
  { rewrite <- app_assoc. split_and!; [|done|].
    - clear IH. unfold HashSet.contains. induction res as [|x res IHr]; [done|]. cbn in *.
      inversion Hd as [|? ? Hx Hd']; subst. apply Forall_app in Hx as [_ Hx]. apply Forall_cons in Hx as [Hxa _].
      by rewrite peq_sym, Hxa, IHr.
    - clear IH. induction res as [|x res IHr]; cbn in *; [by inversion Hd|].
      inversion Hd as [|? ? Hx Hd']; subst. constructor; [|by apply IHr].
      apply Forall_app in Hx as [? Hx]. apply Forall_cons in Hx as [_ ?]. by apply Forall_app. }
  destruct Hmid as (Hn & Hd1 & Hd2). destruct (Bool.eqb (existsb (extends a) right) keep).
  - unfold HashSet.insert. rewrite Hn, IH by done. by rewrite <- app_assoc.
  - by apply IH.
Qed.

Lemma places_are_places B b : branch_ok B -> Forall (fun a => is_place a = true) (places (branch_state B) b).
Proof.
  intros HB. apply Forall_forall. intros k Hk%list_elem_of_In. apply in_places in Hk as [_ Hk]; [|apply HB].
  by apply (ok_places _ HB b).
Qed.

(** Dropping the places that pass a test. *)
Lemma drop_filtered step b (f : Expr -> bool) B :
  drops_one b step -> branch_ok B -> (forall x y, (x == y) = true -> f x = f y) ->
  exists B', foldl_opt step B (List.filter f (places (branch_state B) b)) = Some B' /\ restricts b f B B'.
Proof.
  intros Hstep HB Hf. destruct (places_facts B b f HB) as [Hd Hall].
  destruct (foldl_drop step b _ B Hstep HB Hd Hall) as (B' & E & Hr). exists B'. split; [done|].
  apply restricts_present. eapply restricts_ext; [|exact Hr]. intros k. by apply contains_filter.
Qed.

Lemma drop_moved step b moved B :
  drops_one b step -> branch_ok B ->
  exists B', (ps ← filter_proper_extensions_of (places (branch_state B) b) moved; foldl_opt step B ps) = Some B'
    /\ restricts b (below_moved moved) B B'.
Proof.
  intros Hstep HB. unfold filter_proper_extensions_of.
  rewrite filter_extensions_eq; [|by apply places_are_places|apply places_distinct]. cbn [mbind option_bind app].
  destruct (drop_filtered step b (fun a => Bool.eqb (existsb (extends a) moved) true) B Hstep HB) as (B' & E & Hr).
  - intros x y Hxy. fold (below_moved moved x) (below_moved moved y). by rewrite (below_moved_cong moved x y Hxy).
  - exists B'. split; [done|]. eapply restricts_ext; [|exact Hr]. intros k. cbn. unfold below_moved. by destruct (existsb _ moved).
Qed.

Lemma keep_preds_spec preserved B :
  branch_ok B ->
  exists B', keep_preds preserved B = Some B' /\ restricts false (fun k => negb (HashSet.contains preserved k)) B B'.
Proof.
  intros HB. apply (drop_filtered (drop_pred None) false (fun k => negb (HashSet.contains preserved k)) B);
    [apply drops_one_pred|done|]. intros x y Hxy. by rewrite (contains_cong preserved x y Hxy).
Qed.

Lemma drop_other_accs_spec other B :
  branch_ok B ->
  exists B', drop_other_accs other B = Some B'
    /\ restricts true (fun k => negb (HashSet.contains (places (branch_state other) true) k)) B B'.
Proof.
  intros HB. apply (drop_filtered drop_other_step true
    (fun k => negb (HashSet.contains (places (branch_state other) true) k)) B); [apply drops_one_other|done|].
  intros x y Hxy. by rewrite (contains_cong _ x y Hxy).
Qed.

(** ** Equal amounts *)

(** The states hold no [Remaining]. *)
Definition amounts_ok (s : State) : Prop :=
  forall b k a, lookup s b k = Some a -> PermAmount.is_valid_for_specs a = true.

(** The smaller of two amounts. *)
Definition weaker (a b : PermAmount) : PermAmount :=
  match a, b with
  | PermAmount.Write, PermAmount.Write => PermAmount.Write
  | _, _ => PermAmount.Read
  end.

Definition mk_perm (b : bool) (k : Expr) : Perm := (if b then Perm.Acc else Perm.Pred) k PermAmount.Remaining.

(** Taking [Remaining] from [Write] leaves [Read]. *)
Lemma weaken_one b k B :
  branch_ok B -> comparable k = true -> lookup (branch_state B) b k = Some PermAmount.Write ->
  exists s, State.remove_perm (branch_state B) (mk_perm b k) = Val s
    /\ branch_ok (push_action (set_branch_state B s) (Action.Drop (mk_perm b k) (mk_perm b k)))
    /\ forall c k', lookup s c k' = if Bool.eqb c b && (k' == k) then Some PermAmount.Read
                                    else lookup (branch_state B) c k'.
Proof.
  intros [Hg Hp Hm] Hc Hl.
  assert (Hmk : Perm.is_acc (mk_perm b k) = b /\ Perm.get_place (mk_perm b k) = k
    /\ Perm.get_perm_amount (mk_perm b k) = PermAmount.Remaining) by by destruct b.
  destruct Hmk as (Hb & Hk & Ha). pose proof (remove_perm_spec (branch_state B) (mk_perm b k) Hg) as Hs.
  unfold key_amount in Hs. rewrite Hb, Hk, Ha, Hl in Hs.
  destruct (State.remove_perm (branch_state B) (mk_perm b k)) as [s| |]; [|done..].
  destruct Hs as (o & [= <-] & [Hls (Hms & _ & _)] & Hgs). exists s. split; [done|].
  assert (Hlook : forall c k', lookup s c k' = if Bool.eqb c b && (k' == k) then Some PermAmount.Read
    else lookup (branch_state B) c k').
  { intros c k'. rewrite Hls. unfold is_key. by rewrite Hb, Hk. }
  split; [|done]. split; cbn.
  - by apply Hgs.
  - intros c k' Hk'. rewrite Hlook in Hk'. destruct (Bool.eqb c b && (k' == k)) eqn:E; [|by apply (Hp c)].
    apply andb_true_iff in E as [->%Bool.eqb_prop Ek]. apply (Hp b). rewrite (lookup_cong _ b k' k Ek), Hl. eauto.
  - by rewrite <- Hms.
Qed.

Definition both_ok (bs : Branch * Branch) : Prop :=
  branch_ok (fst bs) /\ branch_ok (snd bs) /\ amounts_ok (branch_state (fst bs)) /\ amounts_ok (branch_state (snd bs)).

Definition drops_since (B B' : Branch) : Prop := exists ds, snd B' = (snd B ++ ds)%list /\ Forall is_drop ds.

Lemma drops_since_refl B : drops_since B B.
Proof. exists []. by rewrite app_nil_r. Qed.

Lemma drops_since_trans B1 B2 B3 : drops_since B1 B2 -> drops_since B2 B3 -> drops_since B1 B3.
Proof.
  intros (d1 & H1 & F1) (d2 & H2 & F2). exists (d1 ++ d2)%list. rewrite H2, H1, app_assoc. split; [done|].
  by apply Forall_app.
Qed.

(** The amounts [f] chosen for the places of [ks] of kind [b]. *)
Definition weakened (b : bool) (f : Expr -> bool) (bs bs' : Branch * Branch) : Prop :=
  both_ok bs' /\ drops_since (fst bs) (fst bs') /\ drops_since (snd bs) (snd bs')
  /\ forall c k,
    let x := lookup (branch_state (fst bs)) c k in
    let y := lookup (branch_state (snd bs)) c k in
    let w := x ← x; y ← y; Some (weaker x y) in
    lookup (branch_state (fst bs')) c k = (if Bool.eqb c b && f k then w else x)
    /\ lookup (branch_state (snd bs')) c k = (if Bool.eqb c b && f k then w else y).

Lemma weaken_spec b k bs :
  both_ok bs -> comparable k = true ->
  is_Some (lookup (branch_state (fst bs)) b k) -> is_Some (lookup (branch_state (snd bs)) b k) ->
  exists bs', weaken b bs k = Val bs' /\ weakened b (fun k' => k' == k) bs bs'.
Proof.
  destruct bs as [l r]. cbn [fst snd]. intros (Hl & Hr & Hal & Har) Hc [x Hx] [y Hy].
  assert (Hxl : HashMap.get (if b then State.acc (branch_state l) else State.pred (branch_state l)) k = Some x) by by destruct b.
  assert (Hyr : HashMap.get (if b then State.acc (branch_state r) else State.pred (branch_state r)) k = Some y) by by destruct b.
  unfold weaken. rewrite Hxl, Hyr. cbn [unwrap mbind outcome_bind]. fold (mk_perm b k).
  assert (Hsame : x = y -> weakened b (fun k' => k' == k) (l, r) (l, r)).
  { intros <-. split; [done|]. split; [apply drops_since_refl|]. split; [apply drops_since_refl|].
    intros c k'. cbn. destruct (Bool.eqb c b && (k' == k)) eqn:E; [|done].
    apply andb_true_iff in E as [->%Bool.eqb_prop Ek]. rewrite !(lookup_cong _ b k' k Ek), Hx, Hy.
    by destruct x; specialize (Hal b k _ Hx). }
  assert (Hone : forall B s, amounts_ok (branch_state B) ->
    (forall c k', lookup s c k' = if Bool.eqb c b && (k' == k) then Some PermAmount.Read
                                  else lookup (branch_state B) c k') -> amounts_ok s).
  { intros B s HB Hs c k' a Ha. rewrite Hs in Ha. destruct (_ && _); [by injection Ha as <-|by eapply HB]. }
  pose proof (Hal b k x Hx) as Hvx. pose proof (Har b k y Hy) as Hvy.
  destruct x, y; try done.
  - eexists. split; [done|]. by apply Hsame.
  - destruct (weaken_one b k r Hr Hc Hy) as (s & E & Hok & Hs).
    change (PermAmount.Read == PermAmount.Write) with false. change (PermAmount.Read == PermAmount.Read) with true.
    change (PermAmount.Write == PermAmount.Write) with true. cbn [andb mbind outcome_bind]. rewrite E. cbn [mbind outcome_bind].
    eexists. split; [done|]. split; [|split_and!].
    + split_and!; [done|done|done|by apply (Hone r)].
    + apply drops_since_refl.
    + eexists. split; [done|]. by repeat constructor.
    + intros c k'. cbn [fst snd]. change (branch_state (push_action (set_branch_state r s) _)) with s. rewrite Hs.
      destruct (Bool.eqb c b && (k' == k)) eqn:Ek; [|done].
      apply andb_true_iff in Ek as [->%Bool.eqb_prop Ek]. by rewrite !(lookup_cong _ b k' k Ek), Hx, Hy.
  - destruct (weaken_one b k l Hl Hc Hx) as (s & E & Hok & Hs).
    change (PermAmount.Write == PermAmount.Write) with true. change (PermAmount.Read == PermAmount.Read) with true.
    change (PermAmount.Write == PermAmount.Read) with false. cbn [andb mbind outcome_bind]. rewrite E. cbn [mbind outcome_bind].
    eexists. split; [done|]. split; [|split_and!].
    + split_and!; [done|done|by apply (Hone l)|done].
    + eexists. split; [done|]. by repeat constructor.
    + apply drops_since_refl.
    + intros c k'. cbn [fst snd]. change (branch_state (push_action (set_branch_state l s) _)) with s. rewrite Hs.
      destruct (Bool.eqb c b && (k' == k)) eqn:Ek; [|done].
      apply andb_true_iff in Ek as [->%Bool.eqb_prop Ek]. by rewrite !(lookup_cong _ b k' k Ek), Hx, Hy.
  - eexists. split; [done|]. by apply Hsame.
Qed.

Lemma weaker_idem x y : (x' ← Some (weaker x y); y' ← Some (weaker x y); Some (weaker x' y')) = Some (weaker x y).
Proof. by destruct x, y. Qed.

Lemma weaken_all b ks : forall bs,
  both_ok bs -> set_distinct ks ->
  Forall (fun k => comparable k = true /\ is_Some (lookup (branch_state (fst bs)) b k)
                   /\ is_Some (lookup (branch_state (snd bs)) b k)) ks ->
  exists bs', foldM (weaken b) bs ks = Val bs' /\ weakened b (HashSet.contains ks) bs bs'.
Proof.
  induction ks as [|k ks IH]; intros bs Hok Hd Hks; cbn.
  - exists bs. split; [done|]. split; [done|]. split; [apply drops_since_refl|]. split; [apply drops_since_refl|].
    intros c k. cbn. by rewrite andb_false_r.
  - apply Forall_cons in Hks as [(Hc & Hx & Hy) Hks]. inversion Hd as [|? ? Hne Hd']; subst.
    destruct (weaken_spec b k bs Hok Hc Hx Hy) as (bs1 & -> & Hok1 & Hl1 & Hr1 & Hlook1). cbn [mbind outcome_bind].
    destruct (IH bs1 Hok1 Hd') as (bs2 & E & Hok2 & Hl2 & Hr2 & Hlook2).
    + rewrite Forall_forall in *. intros k' Hk'. destruct (Hks k' Hk') as (Hc' & Hx' & Hy'). split; [done|].
      destruct (Hlook1 b k') as [-> ->]. rewrite peq_sym, (Hne k' Hk'), andb_false_r. done.
    + exists bs2. split; [done|]. split; [done|]. split; [by eapply drops_since_trans|].
      split; [by eapply drops_since_trans|]. intros c k'. cbn. destruct (Hlook2 c k') as [-> ->].
      destruct (Hlook1 c k') as [-> ->]. unfold HashSet.contains. cbn. fold (HashSet.contains ks k').
      destruct (Bool.eqb c b), (k' == k), (HashSet.contains ks k'); cbn; try done.
      destruct (lookup (branch_state (fst bs)) c k') as [x|], (lookup (branch_state (snd bs)) c k') as [y|]; cbn; try done.
      by destruct x, y.
Qed.

(** ** Equal maps *)

Lemma good_map_length (m1 m2 : HashMap.t Expr PermAmount) :
  good_map m1 -> HashMap.distinct m2 ->
  (forall k, is_Some (HashMap.get m1 k) -> is_Some (HashMap.get m2 k)) -> length m1 <= length m2.
Proof.
  intros [Hd Hc]. revert m2. unfold HashMap.keys in Hc.
  induction m1 as [|[k a] m1 IH]; intros m2 Hd2 Hsub; cbn; [lia|].
  apply HashMap.distinct_cons in Hd as [Hn Hd]. apply Forall_cons in Hc as [Hk Hc]. cbn in Hk.
  rewrite (HashMap.remove_length m2 k).
  - apply le_n_S, IH; [done|done|by apply HashMap.distinct_remove|]. intros k' Hk'.
    rewrite HashMap.distinct_get_remove by done. destruct (k' == k) eqn:E.
    + exfalso. rewrite (HashMap.get_cong m1 k' k E), Hn in Hk'. by destruct Hk'.
    + apply Hsub. cbn. by rewrite E.
  - apply Hsub. cbn. rewrite expr_eqb_refl, Hk. eauto.
Qed.

Lemma same_lookup_eqb (m1 m2 : HashMap.t Expr PermAmount) :
  good_map m1 -> good_map m2 -> (forall k, HashMap.get m1 k = HashMap.get m2 k) -> HashMap.eqb m1 m2 = true.
Proof.
  intros H1 H2 Hl. unfold HashMap.eqb. apply andb_true_iff. split.
  - apply Nat.eqb_eq, Nat.le_antisymm.
    + apply good_map_length; [done|apply H2|]. intros k. by rewrite Hl.
    + apply good_map_length; [done|apply H1|]. intros k. by rewrite Hl.
  - apply forallb_forall. intros [k a] Hin. cbn. rewrite <- Hl. destruct H1 as [Hd Hc]. rewrite Forall_forall in Hc.
    assert (Hk : comparable k = true) by (apply Hc, list_elem_of_In, in_map_iff; by exists (k, a)).
    rewrite (HashMap.distinct_in_get m1 k a Hd Hin); [apply peq_refl|]. by rewrite expr_eqb_refl.
Qed.

(** ** The last part of [join] *)

(** What the joined branches have at a place. *)
Definition joined (moved : HashSet.t Expr) (l r : State) (b : bool) (k : Expr) : option PermAmount :=
  if below_moved moved k then None
  else x ← lookup l b k; y ← lookup r b k; Some (weaker x y).

Lemma amounts_ok_restricts b f B B' : restricts b f B B' -> amounts_ok (branch_state B) -> amounts_ok (branch_state B').
Proof.
  intros Hr HB c k a. rewrite (restricts_lookup _ _ _ _ Hr). destruct (_ && _); [done|]. apply HB.
Qed.

(** Before the amounts are compared: both branches have the same places. *)
Definition kept (moved : HashSet.t Expr) (l r : State) (b : bool) (k : Expr) : bool :=
  negb (below_moved moved k) && bool_decide (is_Some (lookup l b k)) && bool_decide (is_Some (lookup r b k)).

Lemma drop_steps moved l r :
  branch_ok l -> branch_ok r ->
  exists l' r',
    (branches ← on_branches (drop_moved_preds moved) (l, r);
     let preserved_preds := intersection (State.pred_places (branch_state (fst branches)))
                              (State.pred_places (branch_state (snd branches))) in
     branches ← on_branches (keep_preds preserved_preds) branches;
     branches ← on_branches (drop_moved_accs moved) branches;
     l ← drop_other_accs (snd branches) (fst branches);
     r ← drop_other_accs l (snd branches);
     Some (l, r)) = Some (l', r')
    /\ branch_ok l' /\ branch_ok r' /\ drops_since l l' /\ drops_since r r'
    /\ forall b k,
      lookup (branch_state l') b k
        = (if kept moved (branch_state l) (branch_state r) b k then lookup (branch_state l) b k else None)
      /\ lookup (branch_state r') b k
        = (if kept moved (branch_state l) (branch_state r) b k then lookup (branch_state r) b k else None).
Proof.
  intros Hl Hr. unfold on_branches, drop_moved_preds, drop_moved_accs. cbn [fst snd].
  destruct (drop_moved _ false moved l (drops_one_pred None) Hl) as (l1 & E & Rl1). cbn [places] in E. rewrite E.
  clear E. destruct (drop_moved _ false moved r (drops_one_pred None) Hr) as (r1 & E & Rr1). cbn [places] in E.
  cbn [mbind option_bind]. rewrite E. clear E. cbn [mbind option_bind fst snd].
  set (preserved := intersection _ _).
  destruct (keep_preds_spec preserved l1 (restricts_ok _ _ _ _ Rl1)) as (l2 & -> & Rl2). cbn [mbind option_bind].
  destruct (keep_preds_spec preserved r1 (restricts_ok _ _ _ _ Rr1)) as (r2 & -> & Rr2). cbn [mbind option_bind fst snd].
  destruct (drop_moved _ true moved l2 (drops_one_acc None) (restricts_ok _ _ _ _ Rl2)) as (l3 & E & Rl3).
  cbn [places] in E. rewrite E. clear E.
  destruct (drop_moved _ true moved r2 (drops_one_acc None) (restricts_ok _ _ _ _ Rr2)) as (r3 & E & Rr3).
  cbn [places] in E. cbn [mbind option_bind]. rewrite E. clear E. cbn [mbind option_bind fst snd].
  destruct (drop_other_accs_spec r3 l3 (restricts_ok _ _ _ _ Rl3)) as (l4 & -> & Rl4). cbn [mbind option_bind].
  destruct (drop_other_accs_spec l4 r3 (restricts_ok _ _ _ _ Rr3)) as (r4 & -> & Rr4). cbn [mbind option_bind].
  exists l4, r4. split; [done|]. split; [apply Rl4|]. split; [apply Rr4|].
  split; [do 3 (eapply drops_since_trans; [eapply restricts_drops; eassumption|]); by eapply restricts_drops|].
  split; [do 3 (eapply drops_since_trans; [eapply restricts_drops; eassumption|]); by eapply restricts_drops|].
  assert (Hpres : forall k, HashSet.contains preserved k
    = bool_decide (is_Some (lookup (branch_state l1) false k)) && bool_decide (is_Some (lookup (branch_state r1) false k))).
  { intros k. unfold preserved, intersection.
    rewrite (contains_filter (HashSet.contains (State.pred_places (branch_state r1)))) by (intros; by apply contains_cong).
    by rewrite <- !contains_places. }
  intros b k.
  rewrite (restricts_lookup _ _ _ _ Rr4), (restricts_lookup _ _ _ _ Rl4), !contains_places.
  rewrite (restricts_lookup _ _ _ _ Rl4), contains_places.
  rewrite !(restricts_lookup _ _ _ _ Rl3), !(restricts_lookup _ _ _ _ Rr3).
  rewrite !(restricts_lookup _ _ _ _ Rl2), !(restricts_lookup _ _ _ _ Rr2), !Hpres.
  rewrite !(restricts_lookup _ _ _ _ Rl1), !(restricts_lookup _ _ _ _ Rr1). unfold kept.
  destruct b; cbn [Bool.eqb andb]; destruct (below_moved moved k); cbn [negb andb]; try done.
  - destruct (lookup (branch_state l) true k), (lookup (branch_state r) true k); done.
  - destruct (lookup (branch_state l) false k), (lookup (branch_state r) false k); done.
Qed.

Lemma amounts_ok_kept (s s' : State) (f : bool -> Expr -> bool) :
  (forall b k, lookup s' b k = if f b k then lookup s b k else None) -> amounts_ok s -> amounts_ok s'.
Proof. intros Hl Hs b k a. rewrite Hl. destruct (f b k); [apply Hs|done]. Qed.

(** The places of both branches, for the comparison of the amounts. *)
Lemma both_places b (bs : Branch * Branch) :
  both_ok bs ->
  (forall k, is_Some (lookup (branch_state (fst bs)) b k) <-> is_Some (lookup (branch_state (snd bs)) b k)) ->
  set_distinct (places (branch_state (fst bs)) b)
  /\ Forall (fun k => comparable k = true /\ is_Some (lookup (branch_state (fst bs)) b k)
                      /\ is_Some (lookup (branch_state (snd bs)) b k)) (places (branch_state (fst bs)) b).
Proof.
  intros (Hl & _) Hsame. split; [apply places_distinct|]. apply Forall_forall. intros k Hk%list_elem_of_In.
  apply in_places in Hk as [Hc Hk]; [|apply Hl]. split_and!; [done|done|by apply Hsame].
Qed.

Lemma weaken_steps bs :
  both_ok bs ->
  (forall b k, is_Some (lookup (branch_state (fst bs)) b k) <-> is_Some (lookup (branch_state (snd bs)) b k)) ->
  exists bs',
    (branches ← foldM (weaken true) bs (State.acc_places (branch_state (fst bs)));
     foldM (weaken false) branches (State.pred_places (branch_state (fst branches)))) = Val bs'
    /\ both_ok bs' /\ drops_since (fst bs) (fst bs') /\ drops_since (snd bs) (snd bs')
    /\ forall b k,
      let w := x ← lookup (branch_state (fst bs)) b k; y ← lookup (branch_state (snd bs)) b k; Some (weaker x y) in
      lookup (branch_state (fst bs')) b k = w /\ lookup (branch_state (snd bs')) b k = w.
Proof.
  intros Hok Hsame. destruct (both_places true bs Hok (Hsame true)) as [Hd Hall].
  destruct (weaken_all true _ bs Hok Hd Hall) as (bs1 & E1 & Hok1 & Hdl1 & Hdr1 & Hw1). cbn [places] in E1.
  rewrite E1. cbn [mbind outcome_bind].
  assert (Hsame1 : forall b k, is_Some (lookup (branch_state (fst bs1)) b k) <-> is_Some (lookup (branch_state (snd bs1)) b k)).
  { intros b k. destruct (Hw1 b k) as [-> ->]. cbn. destruct (_ && _); [done|]. apply Hsame. }
  destruct (both_places false bs1 Hok1 (Hsame1 false)) as [Hd1 Hall1].
  destruct (weaken_all false _ bs1 Hok1 Hd1 Hall1) as (bs2 & E2 & Hok2 & Hdl2 & Hdr2 & Hw2). cbn [places] in E2.
  exists bs2. split; [done|]. split; [done|]. split; [by eapply drops_since_trans|]. split; [by eapply drops_since_trans|].
  intros b k. cbn zeta. destruct (Hw2 b k) as [-> ->], (Hw1 b k) as [Hl1 Hr1]. cbn zeta in Hl1, Hr1.
  rewrite !contains_places in Hl1, Hr1 |- *. pose proof (Hsame b k) as Hs.
  destruct b; rewrite Hl1, Hr1; revert Hs; clear; cbn [Bool.eqb andb];
    destruct (lookup (branch_state (fst bs)) _ k) as [x|], (lookup (branch_state (snd bs)) _ k) as [y|];
    intros [Hs1 Hs2]; try (by destruct Hs1; eauto); try (by destruct Hs2; eauto); first [by destruct x, y | done].
Qed.

(** If the branches hold [Read] and [Write] only, the last part of [join] passes its assertions: both
    branches end with the permissions they had in common and not below a moved place, with the smaller amount,
    and the only new actions are drops. *)
Theorem align_spec (moved : HashSet.t Expr) (l r : Branch) :
  both_ok (l, r) ->
  exists l' r', align moved (l, r) = Val (l', r')
    /\ both_ok (l', r') /\ drops_since l l' /\ drops_since r r'
    /\ forall b k, lookup (branch_state l') b k = joined moved (branch_state l) (branch_state r) b k
        /\ lookup (branch_state r') b k = joined moved (branch_state l) (branch_state r) b k.
Proof.
  intros (Hl & Hr & Hal & Har). cbn [fst snd] in *.
  destruct (drop_steps moved l r Hl Hr) as (l1 & r1 & E & Hl1 & Hr1 & Hdl & Hdr & Hk).
  assert (Hok1 : both_ok (l1, r1)).
  { split_and!; [done|done|..]; cbn.
    - apply (amounts_ok_kept (branch_state l) _ (kept moved (branch_state l) (branch_state r))); [|done].
      intros b k. by apply Hk.
    - apply (amounts_ok_kept (branch_state r) _ (kept moved (branch_state l) (branch_state r))); [|done].
      intros b k. by apply Hk. }
  destruct (weaken_steps (l1, r1) Hok1) as ([l2 r2] & E2 & Hok2 & Hdl2 & Hdr2 & Hw).
  { intros b k. cbn. destruct (Hk b k) as [-> ->]. unfold kept. destruct (below_moved moved k); [done|]. cbn [negb andb].
    destruct (lookup (branch_state l) b k), (lookup (branch_state r) b k); cbn; split; intros []; eauto; done. }
  exists l2, r2. cbn [fst snd] in *.
  assert (Hjoined : forall b k, lookup (branch_state l2) b k = joined moved (branch_state l) (branch_state r) b k
    /\ lookup (branch_state r2) b k = joined moved (branch_state l) (branch_state r) b k).
  { intros b k. destruct (Hw b k) as [-> ->]. destruct (Hk b k) as [-> ->]. unfold kept, joined.
    destruct (below_moved moved k); [done|]. cbn [negb andb].
    by destruct (lookup (branch_state l) b k), (lookup (branch_state r) b k). }
  split; [|split; [done|split; [by eapply drops_since_trans|split; [by eapply drops_since_trans|done]]]].
  unfold align. destruct (on_branches (drop_moved_preds moved) (l, r)) as [bs1|]; [|done].
  cbn [unwrap mbind outcome_bind option_bind] in E |- *.
  destruct (on_branches (keep_preds _) bs1) as [bs2|]; [|done].
  cbn [unwrap mbind outcome_bind option_bind] in E |- *.
  destruct (on_branches (drop_moved_accs moved) bs2) as [bs3|]; [|done].
  cbn [unwrap mbind outcome_bind option_bind] in E |- *.
  destruct (drop_other_accs (snd bs3) (fst bs3)) as [l3|]; [|done].
  cbn [unwrap mbind outcome_bind option_bind] in E |- *.
  destruct (drop_other_accs l3 (snd bs3)) as [r3|]; [|done].
  cbn [unwrap mbind outcome_bind option_bind] in E |- *. injection E as -> ->.
  destruct (foldM (weaken true) (l1, r1) (State.acc_places (branch_state l1))) as [bs4| |]; [|done..].
  cbn [unwrap mbind outcome_bind] in E2 |- *. rewrite E2. cbn [mbind outcome_bind fst snd].
  destruct Hok2 as (Hl2 & Hr2 & _). cbn in Hl2, Hr2.
  assert (Heq : forall b, HashMap.eqb (amounts (branch_state l2) b) (amounts (branch_state r2) b) = true).
  { intros b. apply same_lookup_eqb; [apply Hl2|apply Hr2|]. intros k.
    destruct (Hjoined b k) as [Hjl Hjr]. unfold lookup in Hjl, Hjr. congruence. }
  pose proof (Heq true) as Ha. pose proof (Heq false) as Hp. cbn [amounts] in Ha, Hp. rewrite Ha, Hp. done.
Qed.

(** ** Witness *)

Lemma places_ok_keys s :
  (forall b, Forall (fun k => is_place k = true) (HashMap.keys (amounts s b))) -> places_ok s.
Proof.
  intros Hk b k [a Ha]. apply HashMap.get_in in Ha as (k' & Hin & Hkk). specialize (Hk b).
  rewrite Forall_forall in Hk. rewrite (eqb_invariant is_place k k' is_place_erase Hkk). apply Hk.
  apply list_elem_of_In, in_map_iff. by exists (k', a).
Qed.

Lemma amounts_ok_values s :
  (forall b, Forall (fun a => PermAmount.is_valid_for_specs a = true) (HashMap.values (amounts s b))) -> amounts_ok s.
Proof.
  intros Hv b k a Ha. apply HashMap.get_in in Ha as (k' & Hin & _). specialize (Hv b). rewrite Forall_forall in Hv.
  apply Hv, list_elem_of_In, in_map_iff. by exists (k', a).
Qed.

Definition sample_branch (acc pred : list (Expr * PermAmount)) : Branch :=
  (PathCtxt.make (State.new acc pred []) [] [] EventLog.new, []).

Definition left_sample : Branch :=
  sample_branch [(place_a, PermAmount.Write); (place_af, PermAmount.Write); (place_b, PermAmount.Write)] [].
Definition right_sample : Branch :=
  sample_branch [(place_b, PermAmount.Write); (place_a, PermAmount.Write); (place_af, PermAmount.Read)]
    [(place_af, PermAmount.Read)].

Lemma samples_ok : both_ok (left_sample, right_sample).
Proof.
  split_and!; [split|split|..]; try (apply places_ok_keys); try (apply amounts_ok_values); try (by constructor);
    intros []; repeat split; by repeat constructor.
Qed.

Lemma align_spec_witness :
  exists l' r', align [place_b] (left_sample, right_sample) = Val (l', r')
    /\ lookup (branch_state l') true place_af = Some PermAmount.Read
    /\ lookup (branch_state r') false place_af = None.
Proof.
  destruct (align_spec [place_b] left_sample right_sample samples_ok) as (l' & r' & E & _ & _ & _ & Hl).
  exists l', r'. split; [exact E|]. destruct (Hl true place_af) as [-> _]. destruct (Hl false place_af) as [_ ->].
  by vm_compute.
Defined.
