(* ===== verification/CfgReplacer.v ===== *)
(** * The forward pass over a control flow graph

    [prusti-common/src/vir/cfg/visitor.rs], trait [CfgReplacer]: visit the
    blocks in topological order, replace the statements and the successor of
    each, with a context that is duplicated at forks and merged at joins.
    The merge may ask for actions on an incoming edge; they go to a new block
    on that edge.

    The trait is the class [CfgReplacer] over the monad [ST]: [S] is what
    [&mut self] refers to.  A [&mut PathCtxt] is an argument and a result.
    The callback [current_cfg] (debugging output from [&self]) is left out. *)

From S2P Require Import Prelude Ast ExprEq ExprPlace ExprTransformers ExprOps Collections Items Borrows.
From S2P Require Import Graph Stmt Cfg CfgGraph CfgLoops.
Import CfgMethod.

Class CfgReplacer (S E PathCtxt Action : Type) : Type := {
  is_noop : Action -> bool;
  check_compatible_back_edge : PathCtxt -> PathCtxt -> option unit;
  initial_context : ST S E PathCtxt;
  replace_stmt (stmt_index : nat) (stmt : Stmt) (is_last_before_return : bool) (pctxt : PathCtxt)
    (curr_block_index : CfgBlockIndex) (new_cfg : CfgMethod) (label : option string) :
    ST S E (list Stmt * PathCtxt);
  replace_successor (succ : Successor) (pctxt : PathCtxt) : ST S E (list Stmt * Successor * PathCtxt);
  prepend_join (pctxts : list PathCtxt) : ST S E (list Action * PathCtxt);
  perform_prejoin_action (pctxt : PathCtxt) (block_index : CfgBlockIndex) (actions : Action) :
    ST S E (list Stmt * PathCtxt)
}.

Section Replace.
Context {S E PathCtxt Action : Type} `{!CfgReplacer S E PathCtxt Action}.
(** The uuid of the new method. *)
Context (new_uuid : Uuid).

(** The local variables of [replace_cfg] that the loop changes. *)
Record Visit : Type := make_visit {
  new_cfg : CfgMethod;
  visited : list bool;
  reachable : list bool;
  initial_pctxt : list (option PathCtxt);
  final_pctxt : list (option PathCtxt)
}.

(** [v[i] = x]: a panic out of range. *)
Definition vec_set {A} (v : list A) (i : nat) (x : A) : option (list A) :=
  _ ← v !! i; Some (<[i := x]> v).

(** [basic_blocks_labels[index]] for every block. *)
Fixpoint init_blocks (labels : list string) (blocks : list CfgBlock) (new_cfg : CfgMethod) : option CfgMethod :=
  match blocks, labels with
  | [], _ => Some new_cfg
  | _ :: blocks, label :: labels =>
      r ← add_block new_cfg label []; init_blocks labels blocks (snd r)
  | _ :: _, [] => None
  end.

Definition initial_cfg (cfg : CfgMethod) : option CfgMethod :=
  init_blocks (basic_blocks_labels cfg) (basic_blocks cfg)
    (CfgMethod.new new_uuid (method_name cfg) (formal_arg_count cfg) (formal_returns cfg) (local_vars cfg)
       (get_all_labels cfg)).

(** An unreachable block is copied. *)
Definition copy_block (curr_index : nat) (curr_block : CfgBlock) (new_cfg : CfgMethod) : option CfgMethod :=
  let curr_block_index := index_block new_cfg curr_index in
  new_cfg ← add_stmts new_cfg curr_block_index (stmts curr_block);
  set_successor new_cfg curr_block_index (Successor.replace_uuid (successor curr_block) (uuid new_cfg)).

Fixpoint mark_reachable (following : list CfgBlockIndex) (reachable : list bool) : option (list bool) :=
  match following with
  | [] => Some reachable
  | b :: rest => reachable ← vec_set reachable (block_index b) true; mark_reachable rest reachable
  end.

(** The predecessors that have been visited. *)
Definition incoming_edges (cfg : CfgMethod) (visited : list bool) (curr_index : nat) : option (list nat) :=
  preceding ← get_preceding cfg (index_block cfg curr_index);
  filter_opt (fun i => visited !! i) (map block_index preceding).

(** The actions on the edge from [src_index]: a new block on that edge. *)
Definition prejoin_edge (visited : list bool) (curr_block_index : CfgBlockIndex) (acc : CfgMethod * PathCtxt)
    (edge : nat * Action) : ST S E (CfgMethod * PathCtxt) :=
  let '(new_cfg, pctxt) := acc in
  let '(src_index, action) := edge in
  v ← lift (visited !! src_index);
  _ ← lift (assert_ v);
  if is_noop action then mret (new_cfg, pctxt)
  else
    fresh ← lift (get_fresh_label_name new_cfg);
    let '(new_label, new_cfg) := fresh in
    added ← lift (add_block new_cfg new_label [Stmt.Comment ("========== " ++ new_label ++ " ==========")]);
    let '(new_block_index, new_cfg) := added in
    performed ← perform_prejoin_action pctxt new_block_index action;
    let '(stmts_to_add, pctxt) := performed in
    new_cfg ← lift (add_stmts new_cfg new_block_index stmts_to_add);
    new_cfg ← lift (set_successor new_cfg new_block_index (Successor.Goto curr_block_index));
    src_block ← lift (basic_blocks new_cfg !! src_index);
    succ ← lift (Successor.replace_target (successor src_block) curr_block_index new_block_index);
    new_cfg ← lift (set_successor new_cfg (index_block new_cfg src_index) succ);
    mret (new_cfg, pctxt).

(** The context at the start of a block, after the join. *)
Definition join_incoming (cfg : CfgMethod) (v : Visit) (curr_index : nat) : ST S E (CfgMethod * PathCtxt) :=
  let curr_block_index := index_block (new_cfg v) curr_index in
  incoming_edges ← lift (incoming_edges cfg (visited v) curr_index);
  incoming_pctxt ← lift (mapM_opt (fun i => p ← final_pctxt v !! i; p) incoming_edges);
  match incoming_pctxt with
  | [] => pctxt ← initial_context; mret (new_cfg v, pctxt)
  | _ =>
      joined ← prepend_join incoming_pctxt;
      let '(actions, pctxt) := joined in
      for_each (prejoin_edge (visited v) curr_block_index) (new_cfg v, pctxt) (combine incoming_edges actions)
  end.

(** One statement of the block. *)
Definition replace_one_stmt (curr_block : CfgBlock) (curr_block_index : CfgBlockIndex)
    (acc : CfgMethod * PathCtxt) (indexed_stmt : nat * Stmt) : ST S E (CfgMethod * PathCtxt) :=
  let '(new_cfg, pctxt) := acc in
  let '(stmt_index, stmt) := indexed_stmt in
  let last_stmt_before_return :=
    (stmt_index == length (stmts curr_block) - 1) && Successor.is_return (successor curr_block) in
  r ← replace_stmt stmt_index stmt last_stmt_before_return pctxt curr_block_index new_cfg None;
  let '(new_stmts, pctxt) := r in
  new_cfg ← lift (add_stmts new_cfg curr_block_index new_stmts);
  mret (new_cfg, pctxt).

Definition check_back_edges (v : Visit) (pctxt : PathCtxt) (following : list CfgBlockIndex) : option unit :=
  iter_opt (fun following_index =>
    let index := block_index following_index in
    is_visited ← visited v !! index;
    if (is_visited : bool) then
      other_pctxt ← initial_pctxt v !! index;
      other_pctxt ← other_pctxt;
      check_compatible_back_edge pctxt other_pctxt
    else Some tt) following.

Definition following_blocks (succ : Successor) : list nat := map block_index (Successor.get_following succ).

(** A reachable block. *)
Definition replace_block (cfg : CfgMethod) (v : Visit) (curr_index : nat) (curr_block : CfgBlock) : ST S E Visit :=
  let curr_block_index := index_block (new_cfg v) curr_index in
  reachable ← lift (mark_reachable (Successor.get_following (successor curr_block)) (reachable v));
  joined ← join_incoming cfg v curr_index;
  initial_pctxt ← lift (vec_set (initial_pctxt v) curr_index (Some (snd joined)));
  replaced ← for_each (replace_one_stmt curr_block curr_block_index) joined (enumerate (stmts curr_block));
  let '(new_cfg, pctxt) := replaced in
  r ← replace_successor (successor curr_block) pctxt;
  let '(new_stmts, new_successor, pctxt) := r in
  new_cfg ← lift (add_stmts new_cfg curr_block_index new_stmts);
  _ ← lift (assert_ (following_blocks (successor curr_block) == following_blocks new_successor));
  new_cfg ← lift (set_successor new_cfg curr_block_index (Successor.replace_uuid new_successor (uuid new_cfg)));
  succs ← lift (following new_cfg curr_index);
  let v := make_visit new_cfg (visited v) reachable initial_pctxt (final_pctxt v) in
  _ ← lift (check_back_edges v pctxt succs);
  final_pctxt ← lift (vec_set (final_pctxt v) curr_index (Some pctxt));
  mret (make_visit new_cfg (visited v) reachable initial_pctxt final_pctxt).

(** One round of the main loop. *)
Definition visit_block (cfg : CfgMethod) (v : Visit) (curr_index : nat) : ST S E Visit :=
  is_visited ← lift (visited v !! curr_index);
  _ ← lift (assert_ (negb is_visited));
  let v := make_visit (new_cfg v) (<[curr_index := true]> (visited v)) (reachable v) (initial_pctxt v) (final_pctxt v) in
  curr_block ← lift (basic_blocks cfg !! curr_index);
  is_reachable ← lift (reachable v !! curr_index);
  if (is_reachable : bool) then replace_block cfg v curr_index curr_block
  else
    new_cfg ← lift (copy_block curr_index curr_block (new_cfg v));
    mret (make_visit new_cfg (visited v) (reachable v) (initial_pctxt v) (final_pctxt v)).

Definition replace_cfg (cfg : CfgMethod) : ST S E CfgMethod :=
  initial ← lift (initial_cfg cfg);
  to_visit ← lift (get_topological_sort cfg);
  let n := length (basic_blocks cfg) in
  reachable ← lift (vec_set (replicate n false) 0 true);
  v ← for_each (visit_block cfg) (make_visit initial (replicate n false) reachable (replicate n None) (replicate n None))
        (map block_index to_visit);
  mret (new_cfg v).
End Replace.
#[global] Arguments Visit : clear implicits.
