(* ===== verification/CfgReplacerFacts.v ===== *)
(** * The forward pass keeps the structure of the graph

    For every implementation of [CfgReplacer]: the new method has the blocks
    of the old one followed by blocks on their edges, so that its paths
    between the old blocks are those of the old method. *)

From stdpp Require Import relations.
From S2P Require Import Prelude Ast ExprEq ExprPlace ExprTransformers ExprOps Collections Items Borrows.
From S2P Require Import Graph Stmt Cfg CfgGraph CfgLoops CfgTopo CfgFacts CfgReplacer.
Import CfgMethod.

(** ** What the builder does to the successors *)

Definition succs (m : CfgMethod) : list Successor := map successor (basic_blocks m).

(** The parts of a method that the pass copies. *)
Definition signature (m : CfgMethod) : Uuid * string * nat * list LocalVar * list LocalVar :=
  (CfgMethod.uuid m, method_name m, formal_arg_count m, formal_returns m, local_vars m).

Lemma succs_lookup m i : succs m !! i = successor <$> basic_blocks m !! i.
Proof. apply list_lookup_fmap. Qed.

Lemma following_succs m i : following m i = Successor.get_following <$> succs m !! i.
Proof. unfold following. rewrite succs_lookup. by destruct (basic_blocks m !! i). Qed.

Lemma succs_set m i b b' : basic_blocks m !! i = Some b ->
  map successor (<[i := b']> (basic_blocks m)) = <[i := successor b']> (succs m).
Proof. intros _. apply list_fmap_insert. Qed.

Lemma add_stmt_succs m i s m' : add_stmt m i s = Some m' -> succs m' = succs m /\ signature m' = signature m.
Proof.
  unfold add_stmt. intros E. inv_option. subst m'. apply register_labels_spec in Hx0 as (-> & _).
  split; [|done]. unfold succs. cbn in *. rewrite list_fmap_insert. apply list_insert_id.
  change (succs m !! block_index i = Some (successor x1)). by rewrite succs_lookup, Hx1.
Qed.

Lemma add_stmts_succs ss : forall m i m', add_stmts m i ss = Some m' ->
  succs m' = succs m /\ signature m' = signature m.
Proof.
  induction ss as [|s ss IH]; intros m i m' E; cbn in E; [by injection E as <-|].
  inv_option. apply add_stmt_succs in Hx as [H1 H2]. apply IH in E as [H3 H4]. split; congruence.
Qed.

Lemma add_block_succs m l ss b m' : add_block m l ss = Some (b, m') ->
  succs m' = (succs m ++ [Successor.Undefined])%list /\ signature m' = signature m
  /\ b = CfgBlockIndex.make (CfgMethod.uuid m) (length (succs m)).
Proof.
  unfold add_block. intros E. inv_option. subst. unfold succs. cbn.
  rewrite map_app, length_map. split; [done|]. by split.
Qed.

Lemma set_successor_succs m i s m' : set_successor m i s = Some m' ->
  succs m' = <[block_index i := s]> (succs m) /\ signature m' = signature m /\ block_index i < length (succs m).
Proof.
  unfold set_successor. intros E. inv_option. subst m'. split; [|split; [done|]].
  - unfold succs. cbn. by rewrite list_fmap_insert.
  - unfold succs. rewrite length_map. by eapply lookup_lt_Some.
Qed.

Lemma fresh_label_succs m l m' : get_fresh_label_name m = Some (l, m') ->
  succs m' = succs m /\ signature m' = signature m.
Proof. unfold get_fresh_label_name. intros E. inv_option. destruct x. inv_option. by subst. Qed.

(** ** The shape of the new method *)

Section Shape.
Context (u : Uuid) (n : nat).

(** A jump to [j], or to a block on an edge that jumps to [j]. *)
Definition redirected (ss : list Successor) (j : nat) (b : CfgBlockIndex) : Prop :=
  block_index b = j
  \/ n <= block_index b /\ ss !! block_index b = Some (Successor.Goto (CfgBlockIndex.make u j)).

Definition redirected_successor (ss : list Successor) (old new : Successor) : Prop :=
  Forall2 (redirected ss) (following_blocks old) (Successor.get_following new).

(** The blocks [seen] have their final successors, up to redirections. *)
Record shape (old : list Successor) (seen : list nat) (ss : list Successor) : Prop := {
  sh_length : n <= length ss;
  sh_edges : forall i s, n <= i -> ss !! i = Some s ->
    exists j, j < n /\ s = Successor.Goto (CfgBlockIndex.make u j);
  sh_done : forall i, i ∈ seen -> i < n -> exists s s', old !! i = Some s /\ ss !! i = Some s' /\ redirected_successor ss s s'
}.

Lemma redirected_mono ss ss' j b :
  (forall i, n <= i -> is_Some (ss !! i) -> ss' !! i = ss !! i) -> redirected ss j b -> redirected ss' j b.
Proof. intros Hs [?|[Hn Hb]]; [by left|]. right. split; [done|]. rewrite Hs; [done|done|by rewrite Hb]. Qed.

Lemma redirected_successor_mono ss ss' s s' :
  (forall i, n <= i -> is_Some (ss !! i) -> ss' !! i = ss !! i) ->
  redirected_successor ss s s' -> redirected_successor ss' s s'.
Proof. intros Hs Hr. eapply Forall2_impl; [exact Hr|]. intros j b. by apply redirected_mono. Qed.

Lemma same_targets_redirected ss s s' :
  following_blocks s = following_blocks s' -> redirected_successor ss s s'.
Proof.
  unfold redirected_successor. intros ->. unfold following_blocks. apply Forall2_fmap_l, Forall_Forall2_diag.
  apply Forall_true. intros b. by left.
Qed.

(** A block gets its successor. *)
Lemma shape_set old seen ss i s s' :
  shape old seen ss -> i < n -> old !! i = Some s -> redirected_successor ss s s' ->
  shape old (seen ++ [i])%list (<[i := s']> ss).
Proof.
  intros [Hl He Hd] Hi Ho Hr.
  assert (Hm : forall k, n <= k -> is_Some (ss !! k) -> <[i := s']> ss !! k = ss !! k)
    by (intros k Hk _; apply list_lookup_insert_ne; lia).
  split.
  - by rewrite length_insert.
  - intros k t Hk. rewrite list_lookup_insert_ne by lia. by apply He.
  - intros k Hk Hkn. destruct (decide (k = i)) as [->|Hne].
    + exists s, s'. split; [done|]. split; [apply list_lookup_insert_eq; lia|].
      by eapply redirected_successor_mono.
    + apply elem_of_app in Hk as [Hk|Hk%list_elem_of_singleton]; [|done]. destruct (Hd k Hk Hkn) as (t & t' & Ht & Ht' & Hr').
      exists t, t'. split; [done|]. rewrite list_lookup_insert_ne by done. split; [done|].
      by eapply redirected_successor_mono.
Qed.

(** A block on the edge from [src] to [j]. *)
Definition redirect (s : Successor) (j b : CfgBlockIndex) (s' : Successor) : Prop :=
  Forall2 (fun t t' => t' = t \/ t = j /\ t' = b) (Successor.get_following s) (Successor.get_following s').

Lemma replace_target_redirect s j b s' : Successor.replace_target s j b = Some s' -> redirect s j b s'.
Proof.
  unfold Successor.replace_target. intros E. inv_option. subst s'.
  assert (H1 : forall t, (if t == j then b else t) = t \/ t = j /\ (if t == j then b else t) = b).
  { intros t. destruct (t == j) eqn:Et; [|by left]. right. split; [by apply peq_eq|done]. }
  unfold redirect. destruct s as [| |t|ts d]; cbn; [constructor|constructor|by apply Forall2_cons|].
  apply Forall2_app; [|by apply Forall2_cons]. rewrite map_map. apply Forall2_fmap, Forall_Forall2_diag.
  apply Forall_true. intros [e t]. apply H1.
Qed.

Lemma shape_edge old seen ss src s s' j :
  shape old seen ss -> src < n -> j < n -> ss !! src = Some s ->
  redirect s (CfgBlockIndex.make u j) (CfgBlockIndex.make u (length ss)) s' ->
  shape old seen (<[src := s']> (ss ++ [Successor.Goto (CfgBlockIndex.make u j)])%list).
Proof.
  intros [Hl He Hd] Hsrc Hj Hs Hr. set (ss1 := (ss ++ [Successor.Goto (CfgBlockIndex.make u j)])%list).
  assert (Hnew : ss1 !! length ss = Some (Successor.Goto (CfgBlockIndex.make u j)))
    by (unfold ss1; by rewrite lookup_app_r, Nat.sub_diag by lia).
  assert (Hm : forall k, n <= k -> <[src := s']> ss1 !! k = ss1 !! k)
    by (intros k Hk; apply list_lookup_insert_ne; lia).
  assert (Hm1 : forall k, n <= k -> is_Some (ss !! k) -> <[src := s']> ss1 !! k = ss !! k).
  { intros k Hk [t Ht]. rewrite Hm by done. unfold ss1. rewrite lookup_app_l; [done|by eapply lookup_lt_Some]. }
  assert (Hlen : length ss1 = S (length ss)) by (unfold ss1; rewrite length_app; cbn; lia).
  split.
  - rewrite length_insert. lia.
  - intros k t Hk. rewrite Hm by done. destruct (decide (k < length ss)).
    + unfold ss1. rewrite lookup_app_l by done. by apply He.
    + intros Ht. pose proof (lookup_lt_Some _ _ _ Ht). assert (k = length ss) as -> by lia.
      rewrite Hnew in Ht. injection Ht as <-. eauto.
  - intros k Hk Hkn. destruct (Hd k Hk Hkn) as (t & t' & Ht & Ht' & Hr'). exists t.
    destruct (decide (k = src)) as [->|Hne].
    + exists s'. split; [done|]. split; [apply list_lookup_insert_eq; lia|].
      rewrite Ht' in Hs. injection Hs as ->. unfold redirected_successor, redirect in *.
      revert Hr' Hr. generalize (Successor.get_following s'). generalize (Successor.get_following s).
      intros l l' Hr'. revert l'. induction Hr' as [|j0 b0 js bs Hb Hbs IH]; intros l' Hr; inversion Hr; subst; constructor.
      * destruct H1 as [->|[-> ->]]; [by eapply redirected_mono; [|exact Hb]|].
        destruct Hb as [Hb|[Hb _]]; cbn in Hb; [subst|lia]. right. cbn. split; [lia|].
        rewrite Hm by lia. done.
      * by apply IH.
    + exists t'. split; [done|]. rewrite list_lookup_insert_ne by done. unfold ss1 at 1.
      rewrite lookup_app_l by (by eapply lookup_lt_Some). split; [done|]. by eapply redirected_successor_mono.
Qed.
End Shape.

(** ** The steps of the pass *)

Section Pass.
Context {S E PathCtxt Action : Type} `{!CfgReplacer S E PathCtxt Action}.
Context (new_uuid : Uuid) (cfg : CfgMethod).
Let n : nat := length (basic_blocks cfg).

(** The new method while the pass runs. *)
Record in_progress (seen : list nat) (m : CfgMethod) : Prop := {
  ip_signature : signature m = (new_uuid, method_name cfg, formal_arg_count cfg, formal_returns cfg, local_vars cfg);
  ip_shape : shape new_uuid n (succs cfg) seen (succs m)
}.

Lemma ip_uuid seen m : in_progress seen m -> CfgMethod.uuid m = new_uuid.
Proof. intros [H _]. by injection H. Qed.

Lemma ip_same seen m m' :
  succs m' = succs m /\ signature m' = signature m -> in_progress seen m -> in_progress seen m'.
Proof. intros [H1 H2] [H3 H4]. split; congruence. Qed.

Lemma ip_set seen m i s s' m' b :
  in_progress seen m -> i < n -> succs cfg !! i = Some s -> following_blocks s = following_blocks s' ->
  block_index b = i -> set_successor m b (Successor.replace_uuid s' (CfgMethod.uuid m)) = Some m' ->
  in_progress (seen ++ [i])%list m'.
Proof.
  intros Hm Hi Hs Hf Hb (E1 & E2 & _)%set_successor_succs. destruct Hm as [H1 H2]. split; [congruence|].
  rewrite E1, Hb. eapply shape_set; [done..|]. apply same_targets_redirected. rewrite Hf.
  unfold following_blocks. destruct s'; cbn; try done. by rewrite !map_app, !map_map.
Qed.

Lemma prejoin_edge_ip seen visited curr m p src a s m' p' s' :
  length visited = n -> curr < n -> in_progress seen m ->
  prejoin_edge visited (CfgBlockIndex.make new_uuid curr) (m, p) (src, a) s = Val ((m', p'), s') ->
  in_progress seen m'.
Proof.
  intros Hv Hc Hm Ex. cbn in Ex. inv_st.
  assert (Hsrc : src < n) by (rewrite <- Hv; by eapply lookup_lt_Some).
  destruct (is_noop a); inv_st; [done|].
  pose proof (ip_uuid _ _ Hm) as Hu.
  apply fresh_label_succs in Hx2 as [A1 A2]. apply add_block_succs in Hx3 as (B1 & B2 & ->).
  apply add_stmts_succs in Hx5 as [C1 C2]. apply set_successor_succs in Hx6 as (D1 & D2 & _).
  apply set_successor_succs in Hx9 as (F1 & F2 & _). apply replace_target_redirect in Hx8.
  assert (Hu1 : CfgMethod.uuid c = new_uuid) by (injection A2 as ?; congruence).
  destruct Hm as [H1 H2]. split; [congruence|]. pose proof (sh_length _ _ _ _ _ H2) as Hl.
  rewrite Hu1, A1 in *. cbn in F1, D1.
  assert (Hs3 : succs x3 = (succs m ++ [Successor.Goto (CfgBlockIndex.make new_uuid curr)])%list).
  { rewrite D1, C1, B1. rewrite insert_app_r_alt, Nat.sub_diag by lia. done. }
  rewrite F1, Hs3. eapply shape_edge; [done|done|done| |exact Hx8].
  rewrite <- (lookup_app_l (succs m) [Successor.Goto (CfgBlockIndex.make new_uuid curr)]) by lia.
  by rewrite <- Hs3, succs_lookup, Hx7.
Qed.

Lemma index_block_ip seen m i : in_progress seen m -> index_block m i = CfgBlockIndex.make new_uuid i.
Proof. intros Hm. unfold index_block. by rewrite (ip_uuid _ _ Hm). Qed.

Lemma join_incoming_ip seen v curr s m p s' :
  length (visited v) = n -> curr < n -> in_progress seen (new_cfg v) ->
  join_incoming cfg v curr s = Val ((m, p), s') -> in_progress seen m.
Proof.
  intros Hv Hc Hm Ex. unfold join_incoming in Ex. inv_st.
  match goal with H : mapM_opt _ _ = Some ?ps |- _ => destruct ps end; inv_st; [done|].
  rewrite (index_block_ip _ _ _ Hm) in Ex.
  refine (for_each_inv (fun acc => in_progress seen (fst acc)) _ _ _ _ _ _ _ _ Ex); [|done].
  intros [m1 q1] [src a] s2 [m2 q2] s3 _ H1 H2. by eapply prejoin_edge_ip.
Qed.

Lemma add_stmts_ip seen m b ss m' : in_progress seen m -> add_stmts m b ss = Some m' -> in_progress seen m'.
Proof. intros Hm E1%add_stmts_succs. by eapply ip_same. Qed.

Lemma replace_one_stmt_ip seen blk b m p x s m' p' s' :
  in_progress seen m -> replace_one_stmt blk b (m, p) x s = Val ((m', p'), s') -> in_progress seen m'.
Proof. intros Hm Ex. destruct x. cbn in Ex. inv_st. by eapply add_stmts_ip. Qed.

(** The loop invariant. *)
Record visit_inv (seen : list nat) (v : Visit PathCtxt) : Prop := {
  vi_visited : length (visited v) = n;
  vi_cfg : in_progress seen (new_cfg v)
}.

Lemma replace_block_inv seen v curr blk s v' s' :
  visit_inv seen v -> basic_blocks cfg !! curr = Some blk ->
  replace_block cfg v curr blk s = Val (v', s') -> visit_inv (seen ++ [curr]) v'.
Proof.
  intros [Hv Hm] Hb Ex. assert (Hc : curr < n) by (by eapply lookup_lt_Some).
  unfold replace_block in Ex. inv_st. split; [done|]. cbn.
  destruct x0 as [m1 q1]. apply (join_incoming_ip seen) in Hx0; [|done..].
  apply (for_each_inv (fun acc => in_progress seen (fst acc))) in Hx2;
    [|by intros [] ? ? [] ? _; apply replace_one_stmt_ip|done].
  pose proof (add_stmts_ip _ _ _ _ _ Hx2 Hx5) as Hm3.
  refine (ip_set seen x2 curr (successor blk) s2 x5 _ Hm3 Hc _ _ _ Hx7); [by rewrite succs_lookup, Hb| |done].
  by apply assert_Some, (peq_eq (A := list nat)) in Hx6.
Qed.

Lemma visit_block_inv seen v curr s v' s' :
  visit_inv seen v -> visit_block cfg v curr s = Val (v', s') -> visit_inv (seen ++ [curr]) v'.
Proof.
  intros Hi Ex. unfold visit_block in Ex. inv_st.
  match goal with H : basic_blocks cfg !! curr = Some ?b |- _ => rename b into blk; rename H into Hb end.
  assert (Hi' : visit_inv seen (make_visit (new_cfg v) (<[curr := true]> (visited v)) (reachable v)
                                  (initial_pctxt v) (final_pctxt v))).
  { destruct Hi as [Hv Hm]. split; [cbn; by rewrite length_insert|done]. }
  match type of Ex with (if ?b then _ else _) _ = _ => destruct b end; [by eapply replace_block_inv|]. inv_st. destruct Hi' as [Hv Hm]. split; [done|]. cbn in *.
  unfold copy_block in *. inv_option. pose proof (add_stmts_ip _ _ _ _ _ Hm Hx) as Hm3.
  refine (ip_set seen x curr (successor blk) (successor blk) x2 _ Hm3 _ _ _ _ Hx2);
    [by eapply lookup_lt_Some|by rewrite succs_lookup, Hb|done|done].
Qed.

Lemma init_blocks_succs blocks : forall labels m m', init_blocks labels blocks m = Some m' ->
  succs m' = (succs m ++ replicate (length blocks) Successor.Undefined)%list /\ signature m' = signature m.
Proof.
  induction blocks as [|b blocks IH]; intros [|l labels] m m' Ei; cbn in Ei; try done.
  - injection Ei as <-. by rewrite app_nil_r.
  - injection Ei as <-. by rewrite app_nil_r.
  - inv_option. destruct x as [i m1]. apply add_block_succs in Hx as (A1 & A2 & _). apply IH in Ei as [B1 B2].
    cbn in B1, B2. rewrite B1, A1, <- app_assoc. split; [done|congruence].
Qed.

Lemma initial_cfg_ip m : initial_cfg new_uuid cfg = Some m -> in_progress [] m.
Proof.
  unfold initial_cfg. intros [Hs Hg]%init_blocks_succs. split; [done|]. rewrite Hs. cbn. split.
  - by rewrite length_replicate.
  - intros i s Hi [-> Hl]%lookup_replicate. unfold n in *. lia.
  - by intros i ?%elem_of_nil.
Qed.

(** The shape of the result. *)
Lemma replace_cfg_shape s m s' :
  targets_ok cfg -> replace_cfg new_uuid cfg s = Val (m, s') -> in_progress (seq 0 n) m.
Proof.
  intros Ht Ex. unfold replace_cfg in Ex. inv_st.
  destruct (get_topological_sort_spec cfg Ht) as (l & El & _ & Hp & _).
  match goal with H : initial_cfg _ _ = Some _ |- _ => apply initial_cfg_ip in H as Hinit end.
  match goal with H : get_topological_sort cfg = Some _ |- _ => rewrite El in H; injection H as <- end.
  match goal with H : for_each _ _ _ _ = Val (?v, _) |- in_progress _ (new_cfg ?v) =>
    apply (for_each_run (fun seen v _ => visit_inv seen v)) with (seen := []) in H as Hi end.
  2: { intros seen v curr s1 v' s2 _. apply visit_block_inv. }
  2: { split; [cbn; by rewrite length_replicate|exact Hinit]. }
  destruct Hi as [_ [H1 [A B C]]]. split; [done|]. split; [done|done|].
  intros i Hi Hn. apply C; [|done]. cbn. by rewrite Hp.
Qed.
End Pass.

(** ** The paths *)

Section Paths.
Context (u : Uuid) (cfg m : CfgMethod).
Let n : nat := length (basic_blocks cfg).
Context (Hok : targets_ok cfg) (Hshape : shape u n (succs cfg) (seq 0 n) (succs m)).

Lemma edge_succs m0 i j : edge m0 i j <-> exists s, succs m0 !! i = Some s /\ j ∈ following_blocks s.
Proof.
  unfold edge, succ_of, following_blocks. rewrite following_succs. destruct (succs m0 !! i) as [s|]; cbn.
  - split; [intros Hj; by exists s|by intros (? & [= <-] & ?)].
  - rewrite elem_of_nil. split; [done|by intros (? & ? & _)].
Qed.

Lemma old_block i s : succs cfg !! i = Some s ->
  exists s', succs m !! i = Some s' /\ redirected_successor u n (succs m) s s'.
Proof.
  intros Hs. assert (Hi : i < n) by (apply lookup_lt_Some in Hs; unfold succs in Hs; by rewrite length_map in Hs).
  destruct (sh_done _ _ _ _ _ Hshape i) as (s0 & s' & Hs0 & Hs' & Hr);
    [apply elem_of_seq; lia|done|].
  assert (s0 = s) as -> by congruence. eauto.
Qed.

Lemma edge_forward i j : edge cfg i j -> rtc (edge m) i j.
Proof.
  rewrite edge_succs. intros (s & Hs & Hj). destruct (old_block i s Hs) as (s' & Hs' & Hr).
  apply list_elem_of_lookup in Hj as [k Hk]. destruct (Forall2_lookup_l _ _ _ _ _ Hr Hk) as (b & Hb & Hrd).
  assert (He : edge m i (block_index b)).
  { apply edge_succs. exists s'. split; [done|]. unfold following_blocks.
    apply list_elem_of_fmap_2, list_elem_of_lookup. eauto. }
  destruct Hrd as [<-|[Hn Hb']]; [by apply rtc_once|]. eapply rtc_l; [exact He|]. apply rtc_once, edge_succs.
  exists (Successor.Goto (CfgBlockIndex.make u j)). split; [done|]. by apply list_elem_of_singleton.
Qed.

(** Where a block of the new method stands in the old one. *)
Definition stands_for (i k : nat) : Prop :=
  if decide (i < n) then k = i
  else succs m !! i = Some (Successor.Goto (CfgBlockIndex.make u k)).

Lemma edge_backward i j k : edge m i j -> stands_for i k ->
  exists k', stands_for j k' /\ rtc (edge cfg) k k'.
Proof.
  rewrite edge_succs. unfold stands_for at 1. intros (s' & Hs' & Hj). destruct (decide (i < n)) as [Hi|Hi].
  - intros ->. destruct (lookup_lt_is_Some_2 (succs cfg) i) as [s Hs].
    { unfold succs. by rewrite length_map. }
    destruct (old_block i s Hs) as (s0 & Hs0 & Hr). assert (s0 = s') as -> by congruence.
    apply list_elem_of_In, in_map_iff in Hj as (b & <- & Hb%list_elem_of_In).
    apply list_elem_of_lookup in Hb as [l Hl]. destruct (Forall2_lookup_r _ _ _ _ _ Hr Hl) as (t & Ht & Hrd).
    assert (He : edge cfg i t) by (apply edge_succs; exists s; split; [done|apply list_elem_of_lookup; eauto]).
    exists t. split; [|by apply rtc_once]. unfold stands_for.
    destruct Hrd as [<-|[Hn Hb]]; [by rewrite decide_True by (by eapply Hok)|].
    by rewrite decide_False by lia.
  - intros Hk. rewrite Hk in Hs'. injection Hs' as <-. apply list_elem_of_singleton in Hj as ->. cbn.
    exists k. split; [|done]. destruct (sh_edges _ _ _ _ _ Hshape i _ ltac:(lia) Hk) as (k' & Hk' & [= <-]).
    unfold stands_for. by rewrite decide_True.
Qed.

Lemma paths_kept i j : i < n -> j < n -> rtc (edge m) i j <-> rtc (edge cfg) i j.
Proof.
  intros Hi Hj. split.
  - assert (Hgen : forall x y, rtc (edge m) x y -> forall k, stands_for x k ->
      exists k', stands_for y k' /\ rtc (edge cfg) k k').
    { induction 1 as [x|x y z Hxy _ IH]; intros k Hk; [by exists k|].
      destruct (edge_backward _ _ _ Hxy Hk) as (k1 & Hk1 & H1). destruct (IH _ Hk1) as (k2 & Hk2 & H2).
      exists k2. split; [done|by etrans]. }
    intros Hp. destruct (Hgen _ _ Hp i) as (k' & Hk & Hr); unfold stands_for in *; rewrite decide_True in * by done; [done|].
    by subst.
  - induction 1 as [x|x y z Hxy _ IH]; [done|]. etrans; [by apply edge_forward|]. apply IH; [by eapply Hok|done].
Qed.
End Paths.

Theorem replace_cfg_structure {S E PathCtxt Action : Type} `{!CfgReplacer S E PathCtxt Action}
    (new_uuid : Uuid) (cfg m : CfgMethod) (s s' : S) :
  targets_ok cfg -> replace_cfg new_uuid cfg s = Val (m, s') ->
  let n := length (basic_blocks cfg) in
  signature m = (new_uuid, method_name cfg, formal_arg_count cfg, formal_returns cfg, local_vars cfg)
  /\ n <= length (basic_blocks m)
  /\ (forall i targets, following cfg i = Some targets ->
        exists targets', following m i = Some targets'
          /\ Forall2 (redirected new_uuid n (succs m)) (map block_index targets) targets')
  /\ (forall i b, n <= i -> basic_blocks m !! i = Some b ->
        exists j, j < n /\ successor b = Successor.Goto (index_block m j))
  /\ (forall i j, i < n -> j < n -> rtc (edge m) i j <-> rtc (edge cfg) i j).
Proof.
  intros Hok Ex n. destruct (replace_cfg_shape _ _ _ _ _ Hok Ex) as [Hsig Hsh].
  assert (Hu : CfgMethod.uuid m = new_uuid) by by injection Hsig.
  split; [done|]. split; [|split; [|split; [|by apply paths_kept with (u := new_uuid)]]].
  - pose proof (sh_length _ _ _ _ _ Hsh) as Hl. unfold succs in Hl. by rewrite length_map in Hl.
  - intros i targets. rewrite following_succs. intros (sc & Hs & ->)%fmap_Some.
    destruct (old_block _ _ _ Hsh _ _ Hs) as (sc' & Hs' & Hr). exists (Successor.get_following sc').
    by rewrite following_succs, Hs'.
  - intros i b Hi Hb. destruct (sh_edges _ _ _ _ _ Hsh i (successor b) Hi) as (j & Hj & Hs).
    { by rewrite succs_lookup, Hb. }
    exists j. split; [done|]. unfold index_block. by rewrite Hu.
Qed.

(** ** Examples *)

(** Count the statements along the path; announce every join. *)
#[local] Instance counting_replacer : CfgReplacer unit Empty_set nat bool := {|
  is_noop := negb;
  check_compatible_back_edge := fun _ _ => Some tt;
  initial_context := mret 0;
  replace_stmt := fun _ stmt _ pctxt _ _ _ => mret ([stmt], Datatypes.S pctxt);
  replace_successor := fun succ pctxt => mret ([Stmt.Comment "end"], succ, pctxt);
  prepend_join := fun pctxts => mret (map (fun p => Nat.ltb 0 (length pctxts - 1)) pctxts, list_max pctxts);
  perform_prejoin_action := fun pctxt _ _ => mret ([Stmt.Comment "join"], pctxt)
|}.

Lemma replace_cfg_structure_witness :
  targets_ok (sample_method 2)
  /\ exists m, replace_cfg 9%Z (sample_method 2) tt = Val (m, tt)
      /\ length (basic_blocks m) = 5
      /\ (forall i j, i < 3 -> j < 3 -> rtc (edge m) i j <-> rtc (edge (sample_method 2)) i j).
Proof.
  assert (Ht : targets_ok (sample_method 2)) by (apply targets_okb_ok; reflexivity).
  split; [exact Ht|]. destruct (replace_cfg 9%Z (sample_method 2) tt) as [[m []]| |] eqn:E0.
  - exists m. split; [reflexivity|]. split.
    + vm_compute in E0. injection E0 as <-. reflexivity.
    + exact (proj2 (proj2 (proj2 (proj2 (replace_cfg_structure 9%Z (sample_method 2) m tt tt Ht E0))))).
  - vm_compute in E0. discriminate E0.
  - vm_compute in E0. discriminate E0.
Defined.

(** The blocks of [jumps]; the last one returns. *)
Definition method_of_jumps (jumps : list nat) : CfgMethod :=
  let n := length jumps in
  CfgMethod.make 7%Z "m" 0 [] [] [] []
    (map (fun j => CfgMethod.make_block [] (Successor.Goto (CfgBlockIndex.make 7%Z j))) jumps
       ++ [CfgMethod.make_block [] Successor.Return])%list
    (map (fun i => "b" ++ pretty.pretty i) (seq 0 (Datatypes.S n))) 0%Z 0%Z.

(** A block that cannot be reached is skipped, but its edges still count as
    incoming: its missing context is a panic. *)
Example unreachable_predecessor_panics :
  replace_cfg 9%Z (method_of_jumps [2; 2]) tt = Panic /\ targets_okb (method_of_jumps [2; 2]) = true.
Proof. split; vm_compute; reflexivity. Qed.

(** So does the edge of a block to itself. *)
Example self_loop_panics :
  replace_cfg 9%Z (method_of_jumps [1; 1]) tt = Panic /\ targets_okb (method_of_jumps [1; 1]) = true.
Proof. split; vm_compute; reflexivity. Qed.

(** Other loops are accepted. *)
Example loop_accepted :
  exists m, replace_cfg 9%Z (method_of_jumps [1; 2; 1]) tt = Val (m, tt) /\ length (basic_blocks m) = 4.
Proof. eexists. split; vm_compute; reflexivity. Qed.
