(* ===== verification/Unfoldings.v ===== *)
(** * Expressions up to unfoldings

    [unfolding P(x) in e] has the value of [e]: it only says where the
    permission to evaluate [e] comes from.  [erase] removes the unfoldings;
    the lemmas are for the traversals that add or move them. *)

From stdpp Require Import relations.
From S2P Require Import Prelude Ast ExprEq ExprPlace ExprTransformers ExprOps Semantics.

(** Remove the unfoldings of an expression. *)
Fixpoint erase (e : Expr) : Expr :=
  match e with
  | Expr.Unfolding _ _ body _ _ _ => erase body
  | _ => map_children erase e
  end.

Section Value.
Context `{InterpLaws}.

Lemma quantifier_ext u vars f g : (forall vs, f vs = g vs) -> quantifier u vars f = quantifier u vars g.
Proof.
  intros Hfg. destruct (quantifier u vars f) as [v|] eqn:E1.
  - symmetry. eapply quantifier_mono; [|exact E1]. intros vs w. by rewrite Hfg.
  - destruct (quantifier u vars g) as [v|] eqn:E2; [|done].
    eapply (quantifier_mono _ _ _ f) in E2; [congruence|]. intros vs w. by rewrite Hfg.
Qed.

Lemma mapM_opt_ext {A B} (f : A -> option B) (h : A -> A) l :
  Forall (fun x => f (h x) = f x) l -> mapM_opt f (map h l) = mapM_opt f l.
Proof. induction 1 as [|x l Hx _ IH]; cbn; [done|]. by rewrite Hx, IH. Qed.

Lemma eval_erase e : forall st, eval (erase e) st = eval e st.
Proof.
  induction e as [e IH] using children_ind. intros st.
  assert (Hl : forall es st, Forall (fun c => forall st, eval (erase c) st = eval c st) es ->
    mapM_opt (fun e => eval e st) (map erase es) = mapM_opt (fun e => eval e st) es).
  { intros es st0 Hes. apply mapM_opt_ext. eapply Forall_impl; [exact Hes|]. auto. }
  destruct e; cbn [erase map_children eval children] in *; try done;
    repeat match goal with
    | H : Forall _ (_ :: _) |- _ => apply Forall_cons in H as [? ?]
    | H : Forall _ (_ ++ _) |- _ => apply Forall_app in H as [? ?]
    | H : forall st, eval (erase _) st = _ |- _ => setoid_rewrite H
    end; try done; rewrite ?Hl by done; try done.
  - apply option_bind_ext_fun. intros h. done.
  - apply option_bind_ext_fun. intros [|[]| | |]; done.
  - f_equal. by apply quantifier_ext.
  - f_equal. by apply quantifier_ext.
  - apply option_bind_ext_fun. intros x. done.
Qed.
End Value.

(** [e'] is [e] with more unfoldings: it has the same value. *)
Definition unfoldings_added `{Interp} (e e' : Expr) : Prop :=
  erase e' = erase e /\ forall st, eval e' st = eval e st.

Section Erase.
Context `{InterpLaws}.

Lemma erase_unfoldings_added e e' : erase e' = erase e -> unfoldings_added e e'.
Proof. intros He. split; [done|]. intros st. by rewrite <- eval_erase, He, eval_erase. Qed.
End Erase.

(** ** Traversals *)

Section Folder.
Context {S E : Type} (R : S -> S -> Prop) `{!PreOrder R}.

(** [m] replaces [e] by an expression that differs in unfoldings; it changes
    the state by [R]. *)
Definition adds_unfoldings (m : ST S E Expr) (e : Expr) : Prop :=
  forall s e' s', m s = Val (e', s') -> R s s' /\ erase e' = erase e.

Lemma sequence_adds (g : Expr -> ST S E Expr) es :
  Forall (fun c => adds_unfoldings (g c) c) es ->
  forall s es' s', sequence (map go (map (fun c => Child c (g c)) es)) s = Val (es', s') ->
    R s s' /\ map erase es' = map erase es.
Proof.
  induction 1 as [|c es Hc _ IH]; intros s es' s' Es; cbn in Es; inv_st; [done|].
  match goal with H : g c _ = _ |- _ => apply Hc in H as [H1 H2] end.
  match goal with H : sequence _ _ = _ |- _ => apply IH in H as [H3 H4] end.
  split; [by etrans|]. cbn. congruence.
Qed.

(** The methods that are not overridden. *)
Lemma default_node_adds (g : Expr -> ST S E Expr) e :
  (forall name args body perm variant p, e <> Expr.Unfolding name args body perm variant p) ->
  Forall (fun c => adds_unfoldings (g c) c) (children e) ->
  adds_unfoldings (default_fold_node (Node.of_expr (fun c => Child c (g c)) e)) e.
Proof.
  intros Hne Hc s e' s' Es.
  destruct e; cbn in Es, Hc; rewrite ?Forall_cons in Hc; destruct_and?; inv_st;
    try (by edestruct Hne);
    repeat match goal with
    | Hc : adds_unfoldings ?m _, Hm : ?m _ = Val _ |- _ => apply Hc in Hm as [? ?]
    | Hc : Forall (fun c => adds_unfoldings (?g c) c) ?es, Hm : sequence (map go (map _ ?es)) _ = Val _ |- _ =>
        apply (sequence_adds g es Hc) in Hm as [? ?]
    end; (split; [repeat first [assumption | etrans; [eassumption|]]; done | cbn; congruence]).
Qed.
End Folder.
