(* ===== verification/ExprReplacer.v ===== *)
(** * Unfoldings in expressions

    [prusti-viper/src/encoder/foldunfold/mod.rs]: the folder [ExprReplacer],
    which wraps an expression in the unfoldings that give it the permissions
    it needs, and the functions that apply it to the parts of a Viper
    function.  The driver for methods, in the same file, is in [FoldUnfold]. *)

From S2P Require Import Prelude Ast ExprEq ExprPlace ExprTransformers ExprOps Collections Typaram ExprReplace.
From S2P Require Import Items Semantics Borrows Stmt Cfg Perm FuState Footprint FuSemantics.
From S2P Require Import EventLog PathCtxt ObtainFacts Unfoldings.

Module ExprReplacer.
(** [pctxt_at_label], which does not change, is an argument of the methods. *)
Record ExprReplacer : Type := make {
  curr_pctxt : PathCtxt;
  lhs_pctxt : option PathCtxt;
  wait_old_expr : bool
}.

Definition new (curr_pctxt : PathCtxt) (wait_old_expr : bool) : ExprReplacer := make curr_pctxt None wait_old_expr.

Definition with_curr_pctxt (self : ExprReplacer) (p : PathCtxt) : ExprReplacer := make p (lhs_pctxt self) (wait_old_expr self).
Definition with_lhs_pctxt (self : ExprReplacer) (p : option PathCtxt) : ExprReplacer := make (curr_pctxt self) p (wait_old_expr self).
Definition with_wait_old_expr (self : ExprReplacer) (b : bool) : ExprReplacer := make (curr_pctxt self) (lhs_pctxt self) b.
End ExprReplacer.
Abbreviation ExprReplacer := ExprReplacer.ExprReplacer.
Import ExprReplacer.

Definition Labels : Type := HashMap.t string PathCtxt.

Section Replacer.
Context `{RegexCrate}.
Context (pctxt_at_label : Labels).

Notation Fold A := (ST ExprReplacer FoldUnfoldError A).

(** Run [m] with another context, and swap the old one back. *)
Definition in_pctxt {A} (p : PathCtxt) (m : Fold A) : Fold A :=
  self ← get_st;
  _ ← put_st (with_curr_pctxt self p);
  r ← m;
  self' ← get_st;
  _ ← put_st (with_curr_pctxt self' (curr_pctxt self));
  mret r.

(** The actions around an expression, the first action outermost. *)
Definition wrap_in_actions (e : Expr) (actions : list Action) : outcome FoldUnfoldError Expr :=
  foldM (fun e action => Action.to_expr action e) e (rev actions).

(** Obtain the permissions in a copy of the context. *)
Definition add_unfoldings (e : Expr) (perms : list Perm) : Fold Expr :=
  self ← get_st;
  r ← lift_o (ctxt_obtain_permissions (curr_pctxt self) perms);
  lift_o (wrap_in_actions e (snd r)).

(** The context after the effect of [stmt] on the state. *)
Definition inner_pctxt (pctxt : PathCtxt) (stmt : Stmt) : outcome FoldUnfoldError PathCtxt :=
  PathCtxt.with_state pctxt <$> apply_on_state stmt (PathCtxt.state pctxt) (PathCtxt.predicates pctxt).

(** The permissions of one side of a magic wand. *)
Definition wand_state (pctxt : PathCtxt) (side : Expr) : outcome FoldUnfoldError State :=
  state ← unwrap (State.remove_all (PathCtxt.state pctxt));
  footprint ← unwrap (get_footprint (PathCtxt.predicates pctxt) side);
  State.insert_all_perms state
    (concat (map (fun p => [Perm.Acc (Perm.get_place p) (Perm.get_perm_amount p); p]) (List.filter Perm.is_pred footprint))).

Definition old_lhs (place : Expr) : option Expr := Some (set_pos (old place "lhs") (pos place)).

(** The context of [old[lhs](..)]. *)
Definition wand_lhs_pctxt (pctxt : PathCtxt) (lhs : Expr) : outcome FoldUnfoldError PathCtxt :=
  state ← wand_state pctxt lhs;
  state ← unwrap (State.replace_places state old_lhs);
  Val (PathCtxt.with_state pctxt state).

Definition fallible_fold_magic_wand (lhs rhs : child (Fold Expr)) (borrow : option Borrow) (p : Position) : Fold Expr :=
  self ← get_st;
  lhs_pctxt ← lift_o (wand_lhs_pctxt (curr_pctxt self) (orig lhs));
  new_lhs ← in_pctxt lhs_pctxt (go lhs);
  new_lhs_pctxt ← lift_o (wand_lhs_pctxt (curr_pctxt self) new_lhs);
  rhs_state ← lift_o (wand_state (curr_pctxt self) (orig rhs));
  new_rhs ← in_pctxt (PathCtxt.with_state (curr_pctxt self) rhs_state)
    (_ ← modify (fun s => with_lhs_pctxt s (Some new_lhs_pctxt));
     new_rhs ← go rhs;
     _ ← modify (fun s => with_lhs_pctxt s None);
     mret new_rhs);
  mret (Expr.MagicWand new_lhs new_rhs borrow p).

(** The context at a label, with the places of that label made current. *)
Definition pctxt_at (self : ExprReplacer) (label : string) : outcome FoldUnfoldError PathCtxt :=
  pctxt ←
    match (if label == "lhs" then lhs_pctxt self else None) with
    | Some pctxt => Val pctxt
    | None =>
        match HashMap.get pctxt_at_label label with
        | Some pctxt => Val pctxt
        | None => Err (MissingLabel label)
        end
    end;
  state ← unwrap (State.replace_places (PathCtxt.state pctxt)
            (map_labels (fun opt_label => if opt_label == label then None else Some opt_label)));
  Val (PathCtxt.with_state pctxt state).

Definition fallible_fold_labelled_old (label : string) (expr : child (Fold Expr)) (p : Position) : Fold Expr :=
  self ← get_st;
  tmp_curr_pctxt ← lift_o (pctxt_at self label);
  inner_expr ← in_pctxt tmp_curr_pctxt
    (_ ← modify (fun s => with_wait_old_expr s false);
     inner_expr ← go expr;
     _ ← modify (fun s => with_wait_old_expr s (wait_old_expr self));
     mret inner_expr);
  mret (Expr.LabelledOld label inner_expr p).

(** The methods; [fold_base] is the traversal of the base of a field place. *)
Definition replacer_node (fold_base : Fold Expr) (n : Node (child (Fold Expr))) : Fold Expr :=
  self ← get_st;
  match n with
  | Node.Field expr field p =>
      if wait_old_expr self then expr ← go expr; mret (Expr.Field expr field p)
      else
        let '(_, components) := explode_place (orig expr) in
        new_base ← fold_base;
        mret (reconstruct_place new_base (components ++ [PlaceComponent.Field field p])%list)
  | Node.Unfolding name args expr perm variant p =>
      if wait_old_expr self then expr ← go expr; mret (Expr.Unfolding name (map orig args) expr perm variant p)
      else
        inner ← lift_o (inner_pctxt (curr_pctxt self) (Stmt.Unfold name (map orig args) perm variant));
        inner_expr ← in_pctxt inner (go expr);
        mret (Expr.Unfolding name (map orig args) inner_expr perm variant p)
  | Node.MagicWand lhs rhs borrow p => fallible_fold_magic_wand lhs rhs borrow p
  | Node.LabelledOld label expr p => fallible_fold_labelled_old label expr p
  | Node.Downcast base enum_place variant_field =>
      if wait_old_expr self then base ← go base; mret (Expr.Downcast base (orig enum_place) variant_field)
      else
        inner ← lift_o (inner_pctxt (curr_pctxt self) (Stmt.Downcast (orig enum_place) variant_field));
        inner_base ← in_pctxt inner (go base);
        mret (Expr.Downcast inner_base (orig enum_place) variant_field)
  | Node.FuncApp function_name args formal_args return_type p =>
      if wait_old_expr self then
        args ← sequence (map go args); mret (Expr.FuncApp function_name args formal_args return_type p)
      else
        let func_app := Expr.FuncApp function_name (map orig args) formal_args return_type p in
        perms ← lift (get_required_permissions (PathCtxt.predicates (curr_pctxt self)) func_app);
        add_unfoldings func_app perms
  | n => default_fold_node n
  end.

(** [fallible_fold], given [default_fallible_fold_expr]. *)
Definition replacer_fold (expr : Expr) (dflt : Fold Expr) : Fold Expr :=
  self ← get_st;
  waiting ← lift (if wait_old_expr self then Some true else negb <$> is_pure expr);
  if (waiting : bool) then dflt
  else
    inner_expr ← dflt;
    self ← get_st;
    perms ← lift (get_required_permissions (PathCtxt.predicates (curr_pctxt self)) inner_expr);
    add_unfoldings inner_expr (List.filter Perm.is_curr perms).

(** [self.fallible_fold(expr)]; with [at_base], of the base of the place
    [expr] (the first part of [explode_place]). *)
Fixpoint fold_from (at_base : bool) (expr : Expr) {struct expr} : Fold Expr :=
  match at_base, expr with
  | true, (Expr.Variant c _ _ | Expr.Field c _ _) => fold_from true c
  | _, _ =>
      replacer_fold expr
        (replacer_node (match expr with Expr.Field c _ _ => fold_from true c | _ => panic end)
           (Node.of_expr (fun c => Child c (fold_from false c)) expr))
  end.

Definition fallible_fold (expr : Expr) : Fold Expr := fold_from false expr.

(** [ExprReplacer::new(..).fallible_fold(..)]. *)
Definition replace_with (pctxt : PathCtxt) (wait_old_expr : bool) (expr : Expr) : outcome FoldUnfoldError Expr :=
  fst <$> fallible_fold expr (ExprReplacer.new pctxt wait_old_expr).
End Replacer.

Section Functions.
Context `{RegexCrate}.

(** First inside old expressions, then everywhere else. *)
Definition add_folding_unfolding_to_expr (expr : Expr) (pctxt : PathCtxt) : outcome FoldUnfoldError Expr :=
  expr ← replace_with HashMap.empty pctxt true expr;
  replace_with HashMap.empty pctxt false expr.

Fixpoint mapM_outcome {E A B} (f : A -> outcome E B) (l : list A) : outcome E (list B) :=
  match l with
  | [] => Val []
  | x :: l' => y ← f x; ys ← mapM_outcome f l'; Val (y :: ys)
  end.

Definition add_folding_unfolding_to_function (function : Function) (predicates : Predicates) :
    outcome FoldUnfoldError Function :=
  pctxt ← foldM (fun pctxt pre => apply_stmt pctxt (Stmt.Inhale pre))
            (PathCtxt.new (Function.formal_args function) predicates HashMap.empty) (Function.pres function);
  pres ← mapM_outcome (fun e => add_folding_unfolding_to_expr e pctxt) (Function.pres function);
  posts ← mapM_outcome (fun e => add_folding_unfolding_to_expr e pctxt) (Function.posts function);
  body ← match Function.body function with
         | Some e => Some <$> add_folding_unfolding_to_expr e pctxt
         | None => Val None
         end;
  Val (Function.new (Function.name function) (Function.formal_args function) (Function.return_type function)
         pres posts body).
End Functions.

(** All the old expressions of a method, by label. *)
Definition old_expr_collector : ExprWalker OldExprs :=
  {| walk := default_walk;
     walk_local_var := default_walk_local_var;
     walk_node := fun n =>
       match n with
       | Node.LabelledOld label body _ => fun old_exprs => go body (push_log_entry old_exprs label (orig body))
       | n => default_walk_node default_walk_local_var n
       end |}.

Definition collect_old_exprs (cfg : CfgMethod) : option OldExprs :=
  walk_expressions cfg (run_walk old_expr_collector) HashMap.empty.

(** * What [ExprReplacer] adds

    Only unfoldings: without them the expression is the old one, and so is
    its value. *)

Import ExprReplacer.

(** ** The folder *)

Section Folder.
Context `{RegexCrate} (pctxt_at_label : Labels).
Notation Fold A := (ST ExprReplacer FoldUnfoldError A).

(** The context and the mode are restored; the context of the left side of a
    magic wand may be lost. *)
Definition restored (s s' : ExprReplacer) : Prop :=
  curr_pctxt s' = curr_pctxt s /\ wait_old_expr s' = wait_old_expr s.

Lemma restored_refl s : restored s s.
Proof. done. Qed.

Lemma restored_trans s1 s2 s3 : restored s1 s2 -> restored s2 s3 -> restored s1 s3.
Proof. intros [? ?] [? ?]. split; congruence. Qed.

#[local] Instance restored_preorder : PreOrder restored.
Proof. split; [exact restored_refl|exact restored_trans]. Qed.

Notation adds_unfoldings := (Unfoldings.adds_unfoldings restored).

Lemma in_pctxt_val {A} p (m : Fold A) s r s' :
  in_pctxt p m s = Val (r, s') ->
  exists s1, m (with_curr_pctxt s p) = Val (r, s1) /\ s' = with_curr_pctxt s1 (curr_pctxt s).
Proof.
  unfold in_pctxt. intros Hm. inv_st. eauto.
Qed.

Lemma in_pctxt_adds p m e s e' s' :
  adds_unfoldings m e -> in_pctxt p m s = Val (e', s') -> restored s s' /\ erase e' = erase e.
Proof.
  intros Hm (s1 & Hs1 & ->)%in_pctxt_val. apply Hm in Hs1 as [[_ Hw] He]. by repeat split.
Qed.

Lemma to_expr_erase action e e' : Action.to_expr action e = Val e' -> erase e' = erase e.
Proof. destruct action; cbn; intros E; try done; by injection E as <-. Qed.

Lemma wrap_in_actions_erase actions : forall e e', wrap_in_actions e actions = Val e' -> erase e' = erase e.
Proof.
  unfold wrap_in_actions. induction (rev actions) as [|a l IH]; cbn; intros e e' E; [by injection E as <-|].
  inv_outcome. apply IH in E. by apply to_expr_erase in Hx as <-.
Qed.

Lemma add_unfoldings_erase e perms : adds_unfoldings (add_unfoldings e perms) e.
Proof.
  intros s e' s' E. unfold add_unfoldings in E. inv_st.
  split; [done|]. by eapply wrap_in_actions_erase.
Qed.

Lemma replacer_fold_adds e dflt : adds_unfoldings dflt e -> adds_unfoldings (replacer_fold e dflt) e.
Proof.
  intros Hd s e' s' E. unfold replacer_fold in E. inv_st.
  match type of E with (if ?b then _ else _) _ = _ => destruct b end; [by apply Hd|]. inv_st.
  match goal with H : dflt _ = _ |- _ => apply Hd in H as [H1 H2] end. apply add_unfoldings_erase in E as [H3 H4].
  split; [by eapply restored_trans|congruence].
Qed.

(** Split the hypotheses of a method into facts on its calls. *)
Ltac adds_step :=
  match goal with
  | Hc : adds_unfoldings ?m _, E : ?m _ = Val _ |- _ => apply Hc in E as [? ?]
  | Hc : adds_unfoldings ?m _, E : in_pctxt _ ?m _ = Val _ |- _ => apply (in_pctxt_adds _ _ _ _ _ _ Hc) in E as [? ?]
  | Hc : Forall (fun c => adds_unfoldings (?g c) c) ?es, E : sequence (map go (map _ ?es)) _ = Val _ |- _ =>
      apply (sequence_adds restored g es Hc) in E as [? ?]
  end.
Ltac adds_solve :=
  repeat adds_step; split; [repeat first [assumption | eapply restored_trans; [eassumption|]]; done | cbn; congruence].

Lemma explode_reconstruct_whole e : reconstruct_place (fst (explode_place e)) (snd (explode_place e)) = e.
Proof.
  induction e using Expr_ind'; cbn; try done; destruct (explode_place _) as [b cs]; cbn in *;
    unfold reconstruct_place in *; rewrite foldl_app; cbn; congruence.
Qed.

Lemma erase_reconstruct e1 e2 components :
  erase e1 = erase e2 -> erase (reconstruct_place e1 components) = erase (reconstruct_place e2 components).
Proof.
  revert e1 e2. induction components as [|c components IH]; intros e1 e2 He; cbn; [done|].
  apply IH. destruct c; cbn; by rewrite He.
Qed.

Lemma with_lhs_adds p (m : Fold Expr) e : adds_unfoldings m e ->
  adds_unfoldings (_ ← modify (fun s => with_lhs_pctxt s (Some p)); new_rhs ← m;
                   _ ← modify (fun s => with_lhs_pctxt s None); mret new_rhs) e.
Proof. intros Hm s e' s' E. inv_st. match goal with H : m _ = _ |- _ => by apply Hm in H as [[? ?] ?] end. Qed.

Lemma with_wait_adds w (m : Fold Expr) e s e' s' : adds_unfoldings m e ->
  (_ ← modify (fun s => with_wait_old_expr s false); r ← m; _ ← modify (fun s => with_wait_old_expr s w); mret r) s = Val (e', s') ->
  curr_pctxt s' = curr_pctxt s /\ wait_old_expr s' = w /\ erase e' = erase e.
Proof. intros Hm E. inv_st. match goal with H : m _ = _ |- _ => by apply Hm in H as [[? ?] ?] end. Qed.

Lemma fold_magic_wand_adds lhs rhs borrow p (gl gr : Fold Expr) :
  adds_unfoldings gl lhs -> adds_unfoldings gr rhs ->
  adds_unfoldings (fallible_fold_magic_wand (Child lhs gl) (Child rhs gr) borrow p) (Expr.MagicWand lhs rhs borrow p).
Proof.
  intros Hl Hr s e' s' E. unfold fallible_fold_magic_wand in E. cbn in E. inv_st.
  match goal with H : in_pctxt _ (_ ← modify (fun _ => with_lhs_pctxt _ (Some ?q)); _) _ = _ |- _ =>
    apply (in_pctxt_adds _ _ rhs) in H as [? ?]; [|by apply with_lhs_adds] end.
  adds_solve.
Qed.

Lemma fold_labelled_old_adds label expr p (g : Fold Expr) :
  adds_unfoldings g expr ->
  adds_unfoldings (fallible_fold_labelled_old pctxt_at_label label (Child expr g) p) (Expr.LabelledOld label expr p).
Proof.
  intros Hg s e' s' E. unfold fallible_fold_labelled_old in E. cbn in E. inv_st.
  match goal with H : in_pctxt _ _ _ = _ |- _ => apply in_pctxt_val in H as (s2 & Hs2 & ->) end.
  apply (with_wait_adds _ g expr) in Hs2 as (H1 & H2 & H3); [|done]. split; [done|]. cbn. by rewrite H3.
Qed.

Lemma replacer_node_adds (g : Expr -> Fold Expr) (fold_base : Fold Expr) e :
  (forall c f p, e = Expr.Field c f p -> adds_unfoldings fold_base (fst (explode_place c))) ->
  Forall (fun c => adds_unfoldings (g c) c) (children e) ->
  adds_unfoldings (replacer_node pctxt_at_label fold_base (Node.of_expr (fun c => Child c (g c)) e)) e.
Proof.
  intros Hb Hc. pose proof (default_node_adds restored g e) as Hdef.
  intros s e' s' E. unfold replacer_node in E. apply st_bind_val in E as (s0 & s1 & Hs & E).
  apply get_st_val in Hs. injection Hs as -> ->.
  destruct e; cbn [Node.of_expr] in E; try (by apply (Hdef ltac:(done) Hc) in E);
    cbn in Hc; rewrite ?Forall_app, ?Forall_cons in Hc; destruct_and?;
    try (by eapply fold_labelled_old_adds); try (by eapply fold_magic_wand_adds);
    destruct (wait_old_expr s); cbn [orig go] in E.
  - inv_st. adds_solve.
  - specialize (Hb _ _ _ eq_refl).
    pose proof (explode_reconstruct_whole e) as Hr. cbn in E. destruct (explode_place e) as [b cs]. cbn in Hb. inv_st. adds_step.
    split; [done|]. rewrite (erase_reconstruct _ b) by done. unfold reconstruct_place. by rewrite foldl_app.
  - inv_st. adds_solve.
  - inv_st. adds_solve.
  - inv_st. adds_solve.
  - inv_st. rewrite map_map, map_id in E. by apply add_unfoldings_erase in E.
  - inv_st. adds_solve.
  - inv_st. adds_solve.
Qed.

Lemma fold_from_adds e : forall at_base,
  adds_unfoldings (fold_from pctxt_at_label at_base e) (if at_base then fst (explode_place e) else e).
Proof.
  induction e as [e IH] using children_ind.
  assert (Hf : adds_unfoldings (replacer_fold e
      (replacer_node pctxt_at_label (match e with Expr.Field c _ _ => fold_from pctxt_at_label true c | _ => panic end)
         (Node.of_expr (fun c => Child c (fold_from pctxt_at_label false c)) e))) e).
  { apply replacer_fold_adds, replacer_node_adds.
    - intros c f p ->. apply Forall_cons in IH as [IH _]. exact (IH true).
    - eapply Forall_impl; [exact IH|]. intros c Hc. exact (Hc false). }
  intros [|]; [|by destruct e].
  destruct e;
    lazymatch goal with
    | |- adds_unfoldings (fold_from _ true (Expr.Variant ?c _ _)) _ => idtac
    | |- adds_unfoldings (fold_from _ true (Expr.Field ?c _ _)) _ => idtac
    | _ => exact Hf
    end; clear Hf; apply Forall_cons in IH as [IH _]; specialize (IH true);
    cbn [explode_place]; destruct (explode_place _); exact IH.
Qed.
End Folder.

Section Correctness.
Context `{RegexCrate} `{InterpLaws}.

Theorem replacer_adds_unfoldings (pctxt_at_label : Labels) (e e' : Expr) (s s' : ExprReplacer) :
  fallible_fold pctxt_at_label e s = Val (e', s') -> restored s s' /\ unfoldings_added e e'.
Proof.
  intros E. destruct (fold_from_adds pctxt_at_label e false s e' s' E) as [Hs He].
  split; [exact Hs|]. exact (erase_unfoldings_added e e' He).
Qed.

Lemma replace_with_added labels pctxt w e e' :
  replace_with labels pctxt w e = Val e' -> erase e' = erase e.
Proof.
  unfold replace_with, fallible_fold. intros E. inv_outcome. destruct x as [e1 s1]. subst. cbn.
  exact (proj2 (fold_from_adds labels e false _ e1 s1 Hx)).
Qed.

Lemma add_folding_unfolding_added e pctxt e' :
  add_folding_unfolding_to_expr e pctxt = Val e' -> unfoldings_added e e'.
Proof.
  unfold add_folding_unfolding_to_expr. intros E. inv_outcome. apply replace_with_added in Hx, E.
  apply erase_unfoldings_added. congruence.
Qed.

Lemma mapM_outcome_Forall2 {E A B} (f : A -> outcome E B) (R : A -> B -> Prop) :
  (forall x y, f x = Val y -> R x y) -> forall l l', mapM_outcome f l = Val l' -> Forall2 R l l'.
Proof.
  intros Hf. induction l as [|x l IH]; intros l' El; cbn in El; inv_outcome; subst; constructor; auto.
Qed.

Theorem function_keeps_meaning (f f' : Function) (predicates : Predicates) :
  add_folding_unfolding_to_function f predicates = Val f' ->
  Function.get_identifier f' = Function.get_identifier f
  /\ Function.formal_args f' = Function.formal_args f
  /\ Forall2 unfoldings_added (Function.pres f) (Function.pres f')
  /\ Forall2 unfoldings_added (Function.posts f) (Function.posts f')
  /\ match Function.body f, Function.body f' with
      | Some body, Some body' => unfoldings_added body body'
      | None, None => True
      | _, _ => False
      end.
Proof.
  unfold add_folding_unfolding_to_function. intros E. inv_outcome. subst f'. cbn.
  split; [done|]. split; [done|].
  split; [|split]; try (eapply mapM_outcome_Forall2; [|eassumption]; intros ? ?; apply add_folding_unfolding_added).
  destruct (Function.body f); inv_outcome; subst; [|done]. by eapply add_folding_unfolding_added.
Qed.
End Correctness.

(** ** Witnesses *)

Import MiniRegex.

(** [x.f.val_int] is wrapped in the unfolding of [x] and of [x.f]. *)
Definition replacer_on_x : ExprReplacer :=
  ExprReplacer.new (PathCtxt.make folded_x pair_predicates [] EventLog.new) false.

Definition x_f_val_unfolded : Expr :=
  Expr.Unfolding "Pair" [local_x]
    (Expr.Unfolding "i32" [x_f] x_f_val PermAmount.Write None Position.default) PermAmount.Write None Position.default.

Lemma replacer_adds_unfoldings_witness :
  fallible_fold [] x_f_val replacer_on_x = Val (x_f_val_unfolded, replacer_on_x)
  /\ @unfoldings_added sample_interp x_f_val x_f_val_unfolded.
Proof.
  assert (E : fallible_fold [] x_f_val replacer_on_x = Val (x_f_val_unfolded, replacer_on_x))
    by (vm_compute; reflexivity).
  split; [exact E|]. exact (proj2 (@replacer_adds_unfoldings _ sample_interp sample_laws [] _ _ _ _ E)).
Defined.

(** A getter: [requires Pair(x)], [x.f.val_int]. *)
Definition getter : Function :=
  Function.new "getter" [LocalVar.new "x" (Ty.TypedRef "Pair")] Ty.Int
    [Expr.PredicateAccessPredicate "Pair" local_x PermAmount.Read Position.default] [] (Some x_f_val).

Lemma function_keeps_meaning_witness :
  exists f', add_folding_unfolding_to_function getter pair_predicates = Val f'
    /\ Function.body f' <> Function.body getter
    /\ Forall2 (@unfoldings_added sample_interp) (Function.pres getter) (Function.pres f').
Proof.
  destruct (add_folding_unfolding_to_function getter pair_predicates) as [f'| |] eqn:E.
  - exists f'. split; [reflexivity|]. split.
    + vm_compute in E. injection E as <-. discriminate.
    + exact (proj1 (proj2 (proj2 (@function_keeps_meaning _ sample_interp sample_laws getter f' pair_predicates E)))).
  - vm_compute in E. discriminate E.
  - vm_compute in E. discriminate E.
Defined.
