(* ===== verification/FoldUnfold.v ===== *)
(** * The fold-unfold driver

    [prusti-viper/src/encoder/foldunfold/mod.rs] (the replacer [FoldUnfold];
    [ExprReplacer] has the part on expressions), [process_expire_borrows.rs]
    and [borrows.rs].

    [&mut self] and the shared heap of the event logs are the state of the
    monad [FU]; a [&mut PathCtxt] is an argument and a result.  Dumps for
    debugging are left out; the comments they add to the method are not.
    [replace_stmt] is recursive on statements that it has rewritten: it has
    fuel, and [stmt_fuel] is how much [FoldUnfoldFacts] shows to be enough. *)

From S2P Require Import Prelude Ast ExprEq ExprPlace ExprTransformers ExprOps Collections Typaram ExprReplace.
From S2P Require Import Items Borrows Stmt Cfg CfgGraph Display Perm FuState Footprint.
From S2P Require Import FuSemantics EventLog PathCtxt.
From S2P Require Import CfgReplacer ExprReplacer.

(** The types of the compiler's MIR: a location is in a block. *)
Class Mir : Type := {
  BasicBlock : Type;
  BasicBlock_eq :: PartialEq BasicBlock;
  Location : Type;
  location_block : Location -> BasicBlock
}.

Section Driver.
Context `{RegexCrate} `{Mir}.

Record FoldUnfold : Type := make_fold_unfold {
  initial_pctxt : PathCtxt;
  pctxt_at_label : Labels;
  (** assert the state in the program after permissions were obtained *)
  check_foldunfold_state : bool;
  (** the configuration [dump_path_ctxt_in_debug_info] *)
  dump_path_ctxt : bool;
  (** the original method *)
  original_cfg : CfgMethod;
  borrow_locations : HashMap.t Borrow Location;
  cfg_map : HashMap.t BasicBlock (HashSet.t CfgBlockIndex);
  method_pos : Position
}.

Definition with_pctxt_at_label (self : FoldUnfold) (m : Labels) : FoldUnfold :=
  make_fold_unfold (initial_pctxt self) m (check_foldunfold_state self) (dump_path_ctxt self) (original_cfg self)
    (borrow_locations self) (cfg_map self) (method_pos self).

Notation FU A := (ST (FoldUnfold * Heap) FoldUnfoldError A).

Definition get_self : FU FoldUnfold := fun s => Val (fst s, s).
Definition get_heap : FU Heap := fun s => Val (snd s, s).
Definition modify_self (f : FoldUnfold -> FoldUnfold) : FU unit := fun s => Val (tt, (f (fst s), snd s)).
Definition put_heap (h : Heap) : FU unit := fun s => Val (tt, (fst s, h)).

(** ** Expressions of statements *)

Definition replace_expr (self : FoldUnfold) (expr : Expr) (curr_pctxt : PathCtxt) : outcome FoldUnfoldError Expr :=
  replace_with (pctxt_at_label self) curr_pctxt false expr.

Definition replace_old_expr (self : FoldUnfold) (expr : Expr) (curr_pctxt : PathCtxt) : outcome FoldUnfoldError Expr :=
  replace_with (pctxt_at_label self) curr_pctxt true expr.

Definition rewrite_stmt_with_unfoldings_in_old (self : FoldUnfold) (stmt : Stmt) (pctxt : PathCtxt) :
    outcome FoldUnfoldError Stmt :=
  fallible_map_expr (fun e => replace_old_expr self e pctxt) stmt.

Definition rewrite_stmt_with_unfoldings (self : FoldUnfold) (stmt : Stmt) (pctxt : PathCtxt) :
    outcome FoldUnfoldError Stmt :=
  match stmt with
  | Stmt.Inhale expr =>
      footprint ← unwrap (get_footprint (PathCtxt.predicates pctxt) expr);
      inner_state ← State.insert_all_perms (PathCtxt.state pctxt)
        (List.filter (fun p => negb (is_local (Perm.get_place p)) && Perm.is_curr p) footprint);
      Stmt.Inhale <$> replace_expr self expr (PathCtxt.with_state pctxt inner_state)
  | Stmt.TransferPerm lhs rhs unchecked =>
      new_lhs ← (if unchecked then Val lhs else replace_expr self lhs pctxt);
      rhs ← replace_old_expr self rhs pctxt;
      Val (Stmt.TransferPerm new_lhs rhs unchecked)
  | Stmt.PackageMagicWand wand stmts label vars pos =>
      wand ← replace_expr self wand pctxt;
      Val (Stmt.PackageMagicWand wand stmts label vars pos)
  | _ => fallible_map_expr (fun e => replace_expr self e pctxt) stmt
  end.

(** ** Borrows *)

(** The closest of the blocks that create the borrow. *)
Definition get_cfg_block_of_last_borrow (self : FoldUnfold) (curr_block : CfgBlockIndex) (borrow : Borrow) :
    option CfgBlockIndex :=
  mir_location ← HashMap.get (borrow_locations self) borrow;
  borrow_creation ← HashMap.get (cfg_map self) (location_block mir_location);
  nearest_block ←
    (fix go nearest_block blocks :=
       match blocks with
       | [] => Some nearest_block
       | block :: rest =>
           path ← find_path (original_cfg self) block curr_block;
           go match path, nearest_block with
              | Some path, Some (_, distance) =>
                  if Nat.ltb (length path) distance then Some (block, length path) else nearest_block
              | Some path, None => Some (block, length path)
              | None, _ => nearest_block
              end rest
       end) None borrow_creation;
  fst <$> nearest_block.

Definition stmts_of_actions (actions : list Action) : outcome FoldUnfoldError (list Stmt) :=
  unwrap (mapM_opt Action.to_stmt actions).

(** [pctxt.obtain_permissions(..)?.iter().map(|a| a.to_stmt())]. *)
Definition obtain_stmts (pctxt : PathCtxt) (perms : list Perm) : outcome FoldUnfoldError (list Stmt * PathCtxt) :=
  r ← ctxt_obtain_permissions pctxt perms;
  stmts ← stmts_of_actions (snd r);
  Val (stmts, fst r).

Definition restore_write_permission (acc : list Stmt * PathCtxt) (access : Expr) :
    outcome FoldUnfoldError (list Stmt * PathCtxt) :=
  let '(stmts, pctxt) := acc in
  perm ← match access with
         | Expr.PredicateAccessPredicate _ arg perm_amount _ =>
             _ ← assert_o (perm_amount == PermAmount.Remaining); Val (Perm.Pred arg PermAmount.Read)
         | Expr.FieldAccessPredicate place perm_amount _ =>
             _ ← assert_o (perm_amount == PermAmount.Remaining); Val (Perm.Acc place PermAmount.Read)
         | _ => Panic
         end;
  r ← obtain_stmts pctxt [perm];
  let inhale_stmt := Stmt.Inhale access in
  pctxt ← apply_stmt (snd r) inhale_stmt;
  Val (stmts ++ fst r ++ [inhale_stmt], pctxt)%list.

(** Restore the [Write] permissions that were converted to [Read]. *)
Definition restore_write_permissions (borrow : Borrow) (pctxt : PathCtxt) :
    outcome FoldUnfoldError (list Stmt * PathCtxt) :=
  r ← foldM restore_write_permission ([], pctxt) (EventLog.get_converted_to_read_places (PathCtxt.log pctxt) borrow);
  Val (fst r, PathCtxt.with_log (snd r) (EventLog.log_borrow_expiration (PathCtxt.log (snd r)) borrow)).

(** ** Places in package statements *)

Definition place_patcher (label : string) : ExprFolder unit Empty_set :=
  {| fold := fun e dflt =>
       match e with
       | Expr.Field (Expr.Local _ _) _ _ => mret (old e label)
       | _ => dflt
       end;
     fold_node := fun n =>
       match n with
       | Node.LabelledOld label expr p => mret (Expr.LabelledOld label (orig expr) p)
       | n => default_fold_node n
       end |}.

Definition patch_expr (label : string) (expr : Expr) : option Expr := fst <$> run_infallible (place_patcher label) expr tt.

Definition patch_args (label : string) (args : list Expr) : option (list Expr) :=
  mapM_opt (fun arg => _ ← assert_ (is_place arg); patch_expr label arg) args.

Definition patch_stmt (label : string) (stmt : Stmt) : option Stmt :=
  match stmt with
  | Stmt.Comment _ | Stmt.ApplyMagicWand _ _ | Stmt.TransferPerm _ _ _ | Stmt.Assign _ _ _ => Some stmt
  | Stmt.Inhale expr => Stmt.Inhale <$> patch_expr label expr
  | Stmt.Exhale expr pos => expr ← patch_expr label expr; Some (Stmt.Exhale expr pos)
  | Stmt.Fold pred_name args perm_amount variant pos =>
      args ← patch_args label args; Some (Stmt.Fold pred_name args perm_amount variant pos)
  | Stmt.Unfold pred_name args perm_amount variant =>
      args ← patch_args label args; Some (Stmt.Unfold pred_name args perm_amount variant)
  | _ => None
  end.

Definition patch_places (stmts : list Stmt) (maybe_label : option string) : option (list Stmt) :=
  match maybe_label with
  | Some label => mapM_opt (patch_stmt label) stmts
  | None => Some stmts
  end.

(** ** Joins *)

(** Each half of the branches is joined, then the two results. *)
Fixpoint prepend_join_fuel (fuel : nat) (bcs : list PathCtxt) : outcome FoldUnfoldError (list (list Action) * PathCtxt) :=
  match fuel, bcs with
  | S fuel, [bc] => Val ([[]], bc)
  | S fuel, _ :: _ =>
      let mid := Nat.div (length bcs) 2 in
      l ← prepend_join_fuel fuel (take mid bcs);
      r ← prepend_join_fuel fuel (drop mid bcs);
      joined ← join (snd l) (snd r);
      let '(merged_pctxt, merge_actions_left, merge_actions_right) := joined in
      Val (map (fun a => a ++ merge_actions_left)%list (fst l)
             ++ map (fun a => a ++ merge_actions_right)%list (fst r), merged_pctxt)%list
  | _, _ => Panic
  end.

Definition prepend_join_pctxts (bcs : list PathCtxt) : outcome FoldUnfoldError (list (list Action) * PathCtxt) :=
  prepend_join_fuel (length bcs) bcs.

(** The statements of the actions, which are logged. *)
Definition perform_actions (pctxt : PathCtxt) (block_index : CfgBlockIndex) (actions : list Action) :
    FU (list Stmt * PathCtxt) :=
  for_each (fun acc action =>
    let '(stmts, pctxt) := acc in
    stmt ← lift (Action.to_stmt action);
    heap ← get_heap;
    let '(heap, log) := EventLog.log_prejoin_action heap (PathCtxt.log pctxt) block_index action in
    _ ← put_heap heap;
    mret ((stmts ++ [stmt])%list, PathCtxt.with_log pctxt log)) ([], pctxt) actions.

(** ** One statement: the parts of [replace_stmt] *)

(** The left side of the wand of a statement. *)
Definition wand_lhs_of (stmt : Stmt) : option Expr :=
  match stmt with
  | Stmt.PackageMagicWand (Expr.MagicWand lhs _ _ _) _ _ _ _
  | Stmt.ApplyMagicWand (Expr.MagicWand lhs _ _ _) _
  | Stmt.Inhale (Expr.MagicWand lhs _ _ _) => Some lhs
  | _ => None
  end.

(** The state of [old[lhs](..)]. *)
Definition lhs_state (pctxt : PathCtxt) (lhs : Expr) : outcome FoldUnfoldError State :=
  labelled_state ← unwrap (State.remove_all (PathCtxt.state pctxt));
  labelled_state ← apply_on_state (Stmt.Inhale lhs) labelled_state (PathCtxt.predicates pctxt);
  labelled_state ← match lhs with
                   | Expr.PredicateAccessPredicate _ arg perm_amount _ => State.insert_acc labelled_state arg perm_amount
                   | _ => Val labelled_state
                   end;
  unwrap (State.replace_places labelled_state (fun place => Some (old place "lhs"))).

Definition set_label (label : string) (pctxt : PathCtxt) (state : State) : FU unit :=
  modify_self (fun self => with_pctxt_at_label self
                 (HashMap.insert (pctxt_at_label self) label (PathCtxt.with_state pctxt state))).

Definition store_lhs (stmt : Stmt) (pctxt : PathCtxt) : FU unit :=
  match wand_lhs_of stmt with
  | Some lhs => state ← lift_o (lhs_state pctxt lhs); set_label "lhs" pctxt state
  | None => mret tt
  end.

Definition store_label (stmt : Stmt) (pctxt : PathCtxt) : FU unit :=
  match stmt with
  | Stmt.Label label =>
      state ← lift (State.replace_places (PathCtxt.state pctxt) (fun place => Some (old place label)));
      set_label label pctxt state
  | _ => mret tt
  end.

Definition forget_lhs : FU unit :=
  modify_self (fun self => with_pctxt_at_label self (HashMap.remove (pctxt_at_label self) "lhs")).

Definition state_comment (title text : string) : Stmt :=
  Stmt.Comment ("[state] " ++ title ++ ": {" ++ nl ++ "//" ++ str_replace text nl (nl ++ "//") ++ nl ++ "//}").

Definition state_comments (state : State) : option (list Stmt) :=
  acc_state ← State.display_acc state;
  pred_state ← State.display_pred state;
  moved_state ← State.display_moved state;
  Some [state_comment "acc" acc_state; state_comment "pred" pred_state; state_comment "moved" moved_state].

(** The permissions to obtain: accesses before predicates, and of the old
    accesses only those of a predicate that is obtained as well. *)
Definition permissions_to_obtain (stmt : Stmt) (pctxt : PathCtxt) : option (list Perm) :=
  all_perms ← stmt_required_permissions (PathCtxt.predicates pctxt) (PathCtxt.old_exprs pctxt) stmt;
  let pred_permissions := List.filter Perm.is_pred all_perms in
  let acc_permissions :=
    List.filter (fun p => Perm.is_acc p
      && (Perm.is_curr p || existsb (fun pred_p => Perm.get_place pred_p == Perm.get_place p) pred_permissions)) all_perms in
  Some (acc_permissions ++ pred_permissions)%list.

Definition assert_state_stmts (state : State) : option (list Stmt) :=
  e ← State.as_vir_expr state;
  Some [Stmt.Comment "Assert content of fold/unfold state"; Stmt.Assert e Position.default].

(** Step 2. *)
Definition obtain_required (self : FoldUnfold) (stmt : Stmt) (is_last_before_return : bool) (label : option string)
    (pctxt : PathCtxt) : outcome FoldUnfoldError (list Stmt * PathCtxt) :=
  perms ← unwrap (permissions_to_obtain stmt pctxt);
  match perms with
  | [] => Val ([], pctxt)
  | _ =>
      r ← obtain_stmts pctxt perms;
      let '(stmts, pctxt) := r in
      asserts ← (if check_foldunfold_state self && negb is_last_before_return
                    && match label with None => true | Some _ => false end
                 then unwrap (assert_state_stmts (PathCtxt.state pctxt)) else Val []);
      Val ((stmts ++ asserts)%list, pctxt)
  end.

(** The places of which a part was taken when folding. *)
Definition restorable_places (expr : Expr) (state : State) : option (list Expr) :=
  inhaled_places ← extract_predicate_places expr PermAmount.Read;
  map fst <$> filter_opt (fun e =>
    if snd e == PermAmount.Remaining then any_opt (fun ip => has_prefix (fst e) ip) inhaled_places else Some false)
    (State.pred state).

(** ** Shared borrows *)

Definition access_expr (is_acc : bool) (name : string) (place : Expr) (amount : PermAmount) (p : Position) : Expr :=
  if is_acc then Expr.FieldAccessPredicate place amount Position.default
  else Expr.PredicateAccessPredicate name place amount p.

(** One permission of the borrowed place: keep [Read] of it, and duplicate
    it for the borrow.  [name] is the predicate's. *)
Definition share_permission (self : FoldUnfold) (is_acc : bool) (name : string) (lhs_place rhs_place : Expr) (borrow : Borrow)
    (acc : list Stmt * PathCtxt) (place : Expr) (perm_amount : PermAmount) : outcome FoldUnfoldError (list Stmt * PathCtxt) :=
  let '(stmts, pctxt) := acc in
  r ← (if perm_amount == PermAmount.Write then
         let access := access_expr is_acc name place PermAmount.Remaining (pos place) in
         log ← unwrap (EventLog.log_convertion_to_read (PathCtxt.log pctxt) borrow access);
         let stmt := Stmt.Exhale access (method_pos self) in
         pctxt ← apply_stmt (PathCtxt.with_log pctxt log) stmt;
         Val ((stmts ++ [stmt])%list, pctxt)
       else Val (stmts, pctxt));
  let '(stmts, pctxt) := r in
  new_place ← unwrap (replace_place place rhs_place lhs_place);
  let lhs_read_access := access_expr is_acc name new_place PermAmount.Read Position.default in
  let log := EventLog.log_read_permission_duplication (PathCtxt.log pctxt) borrow lhs_read_access lhs_place in
  let stmt := Stmt.Inhale lhs_read_access in
  pctxt ← apply_stmt (PathCtxt.with_log pctxt log) stmt;
  Val ((stmts ++ [stmt])%list, pctxt).

(** The permissions with [place] as a prefix; none may be [Remaining]. *)
Definition permissions_below (place : Expr) (skip_locals : bool) (m : HashMap.t Expr PermAmount) :
    option (list (Expr * PermAmount)) :=
  filter_opt (fun e =>
    _ ← assert_ (PermAmount.is_valid_for_specs (snd e));
    b ← has_prefix (fst e) place;
    Some (b && negb (skip_locals && is_local (fst e)))) m.

(** Shallow places first. *)
Definition compare_depth (a b : Expr * PermAmount * nat) : option comparison :=
  depth1 ← place_depth (fst (fst a));
  depth2 ← place_depth (fst (fst b));
  Some match (depth1 ?= depth2)%Z with Eq => Nat.compare (snd a) (snd b) | c => c end.

Definition share_access (self : FoldUnfold) (lhs_place rhs_place : Expr) (borrow : Borrow)
    (acc : list Stmt * PathCtxt) (entry : Expr * PermAmount * nat) : outcome FoldUnfoldError (list Stmt * PathCtxt) :=
  let '(place, perm_amount, _) := entry in
  (* copy of a shared reference: the root of rhs is not changed *)
  if (rhs_place == place) && (HashMap.get (State.acc (PathCtxt.state (snd acc))) lhs_place == Some PermAmount.Write)
  then Val acc
  else share_permission self true "" lhs_place rhs_place borrow acc place perm_amount.

Definition share_predicate (self : FoldUnfold) (lhs_place rhs_place : Expr) (borrow : Borrow)
    (acc : list Stmt * PathCtxt) (entry : Expr * PermAmount) : outcome FoldUnfoldError (list Stmt * PathCtxt) :=
  let '(place, perm_amount) := entry in
  predicate_name ← unwrap (typed_ref_name place);
  predicate_name ← unwrap predicate_name;
  share_permission self false predicate_name lhs_place rhs_place borrow acc place perm_amount.

(** Step 7. *)
Definition shared_borrow (self : FoldUnfold) (stmt : Stmt) (pctxt : PathCtxt) :
    outcome FoldUnfoldError (list Stmt * PathCtxt) :=
  match stmt with
  | Stmt.Assign lhs_place rhs_place (AssignKind.SharedBorrow borrow) =>
      acc_perms ← unwrap (permissions_below rhs_place true (State.acc (PathCtxt.state pctxt)));
      acc_perms ← unwrap (sort_by compare_depth (zip acc_perms (seq 1 (length acc_perms))));
      acc ← foldM (share_access self lhs_place rhs_place borrow) ([], pctxt) acc_perms;
      pred_perms ← unwrap (permissions_below rhs_place false (State.pred (PathCtxt.state (snd acc))));
      foldM (share_predicate self lhs_place rhs_place borrow) acc pred_perms
  | _ => Val ([], pctxt)
  end.

(** ** The graph of expiring borrows: [borrows.rs] *)

Record ExpireBlock : Type := make_expire_block {
  block_guard : Expr;
  block_current_guard : Expr;
  block_node : DAG.Node Stmt;
  block_predecessors : list nat;
  block_statements : list Stmt;
  block_successors : list nat
}.

Record ExpireCfg : Type := make_expire_cfg {
  expire_blocks : list ExpireBlock;
  (** the statements on the edges between blocks *)
  edges : HashMap.t (nat * nat) (list Stmt)
}.

Definition expire_cfg_new : ExpireCfg := make_expire_cfg [] HashMap.empty.

Definition expire_add_block (self : ExpireCfg) (block : ExpireBlock) : ExpireCfg :=
  make_expire_cfg (expire_blocks self ++ [block])%list (edges self).

(** [basic_blocks[index].statements.extend(..)]. *)
Definition extend_block (self : ExpireCfg) (index : nat) (stmts : list Stmt) : ExpireCfg :=
  make_expire_cfg
    (alter (fun b => make_expire_block (block_guard b) (block_current_guard b) (block_node b) (block_predecessors b)
                       (block_statements b ++ stmts)%list (block_successors b)) index (expire_blocks self))
    (edges self).

(** [edges.entry(key).or_insert(Vec::new()).extend(..)]. *)
Definition extend_edge (self : ExpireCfg) (key : nat * nat) (stmts : list Stmt) : ExpireCfg :=
  make_expire_cfg (expire_blocks self)
    (HashMap.insert (edges self) key
       ((match HashMap.get (edges self) key with Some l => l | None => [] end) ++ stmts)%list).

Definition expire_block_of (dag : DAG.DAG Stmt) (node : DAG.Node Stmt) : option ExpireBlock :=
  predecessors ← mapM_opt (DAG.get_borrow_index dag) (DAG.reborrowing_nodes node);
  successors ← mapM_opt (DAG.get_borrow_index dag) (DAG.reborrowed_nodes node);
  guard ← DAG.complete_guard dag (DAG.borrow node);
  Some (make_expire_block guard (DAG.guard node) node predecessors
          [Stmt.Comment ("expire loan " ++ borrow_debug (DAG.borrow node))] successors).

Definition build_initial_cfg (dag : DAG.DAG Stmt) : option ExpireCfg :=
  blocks ← mapM_opt (expire_block_of dag) (DAG.iter dag);
  Some (foldl expire_add_block expire_cfg_new blocks).

(** ** Expiring borrows: [process_expire_borrows.rs] *)

Definition restored_comment (perm : Perm) : option Stmt :=
  p ← Perm.to_string perm; Some (Stmt.Comment ("restored (from log): " ++ p)).

(** The permissions dropped between two blocks are restored. *)
Definition restore_dropped_between (heap : Heap) (log : EventLog) (dag : DAG.DAG Stmt) (new_cfg : CfgMethod)
    (start_block end_block : CfgBlockIndex) (pctxt : PathCtxt) : outcome FoldUnfoldError (list Stmt * PathCtxt) :=
  path ← unwrap (find_path new_cfg start_block end_block);
  path ← unwrap path;
  dropped_permissions ← unwrap (EventLog.collect_dropped_permissions heap log path dag);
  comments ← unwrap (mapM_opt restored_comment dropped_permissions);
  state ← State.restore_dropped_perms (PathCtxt.state pctxt) dropped_permissions;
  Val (comments, PathCtxt.with_state pctxt state).

Definition construct_initial_pctxt_no_predecessors (self : FoldUnfold) (heap : Heap) (dag : DAG.DAG Stmt)
    (surrounding_pctxt : PathCtxt) (surrounding_block_index : CfgBlockIndex) (new_cfg : CfgMethod)
    (curr_node : DAG.Node Stmt) : outcome FoldUnfoldError (PathCtxt * list Stmt) :=
  let end_block := surrounding_block_index in
  start_block ← unwrap (get_cfg_block_of_last_borrow self surrounding_block_index (DAG.borrow curr_node));
  if CfgBlockIndex.weak_eq start_block end_block then Val (surrounding_pctxt, [])
  else
    r ← restore_dropped_between heap (PathCtxt.log surrounding_pctxt) dag new_cfg start_block end_block surrounding_pctxt;
    Val (snd r, fst r).

(** The context at the end of one predecessor. *)
Definition incoming_pctxt (self : FoldUnfold) (heap : Heap) (dag : DAG.DAG Stmt)
    (surrounding_pctxt : PathCtxt) (surrounding_block_index : CfgBlockIndex) (new_cfg : CfgMethod)
    (curr_block_index : nat) (curr_node : DAG.Node Stmt) (final_pctxt : list (option PathCtxt))
    (acc : ExpireCfg * list PathCtxt) (predecessor : nat) : outcome FoldUnfoldError (ExpireCfg * list PathCtxt) :=
  let '(cfg, incoming) := acc in
  pctxt ← unwrap (final_pctxt !! predecessor);
  pctxt ← unwrap pctxt;
  predecessor_block ← unwrap (expire_blocks cfg !! predecessor);
  end_block ← unwrap (get_cfg_block_of_last_borrow self surrounding_block_index (DAG.borrow (block_node predecessor_block)));
  start_block ← unwrap (get_cfg_block_of_last_borrow self surrounding_block_index (DAG.borrow curr_node));
  if start_block == end_block then Val (cfg, (incoming ++ [pctxt])%list)
  else
    r ← restore_dropped_between heap (PathCtxt.log surrounding_pctxt) dag new_cfg start_block end_block pctxt;
    let '(comments, pctxt) := r in
    let cfg := match comments with [] => cfg | _ => extend_edge cfg (predecessor, curr_block_index) comments end in
    Val (cfg, (incoming ++ [pctxt])%list).

(** One action of a merge: what was dropped because of an expired borrow is
    restored. *)
Definition merge_action (dag : DAG.DAG Stmt) (acc : list Stmt * PathCtxt) (a : Action) :
    outcome FoldUnfoldError (list Stmt * PathCtxt) :=
  let '(stmts_to_add, pctxt) := acc in
  stmt ← unwrap (Action.to_stmt a);
  let stmts_to_add := (stmts_to_add ++ [stmt])%list in
  match a with
  | Action.Drop perm missing_perm =>
      borrowed ← unwrap (DAG.in_borrowed_places dag (Perm.get_place missing_perm));
      if (borrowed : bool) && (Perm.get_perm_amount perm != PermAmount.Read) then
        p ← unwrap (Perm.to_string perm);
        m ← unwrap (Perm.to_string missing_perm);
        state ← State.restore_dropped_perm (PathCtxt.state pctxt) perm;
        Val ((stmts_to_add ++ [Stmt.Comment ("restored (in branch merge): " ++ p ++ " (" ++ m ++ ")")])%list,
             PathCtxt.with_state pctxt state)
      else Val (stmts_to_add, pctxt)
  | _ => Val (stmts_to_add, pctxt)
  end.

(** The actions on the edges of a merge; [add] puts them into the graph. *)
Definition merge_actions (dag : DAG.DAG Stmt) (add : ExpireCfg -> nat -> list Stmt -> ExpireCfg)
    (acc : ExpireCfg * PathCtxt) (edge : nat * list Action) : outcome FoldUnfoldError (ExpireCfg * PathCtxt) :=
  let '(cfg, pctxt) := acc in
  match snd edge with
  | [] => Val (cfg, pctxt)
  | action =>
      r ← foldM (merge_action dag) ([], pctxt) action;
      Val (add cfg (fst edge) (fst r), snd r)
  end.

Definition construct_initial_pctxt_with_predecessors (self : FoldUnfold) (heap : Heap) (dag : DAG.DAG Stmt) (cfg : ExpireCfg)
    (surrounding_pctxt : PathCtxt) (surrounding_block_index : CfgBlockIndex) (new_cfg : CfgMethod)
    (curr_block_index : nat) (curr_block : ExpireBlock) (final_pctxt : list (option PathCtxt)) :
    outcome FoldUnfoldError (ExpireCfg * PathCtxt) :=
  r ← foldM (incoming_pctxt self heap dag surrounding_pctxt surrounding_block_index new_cfg curr_block_index
               (block_node curr_block) final_pctxt) (cfg, []) (block_predecessors curr_block);
  let '(cfg, incoming_pctxt) := r in
  joined ← prepend_join_pctxts incoming_pctxt;
  let '(actions, pctxt) := joined in
  foldM (fun acc edge =>
    _ ← assert_o (Nat.ltb (fst edge) curr_block_index);
    merge_actions dag (fun cfg src_index => extend_edge cfg (src_index, curr_block_index)) acc edge)
    (cfg, pctxt) (combine (block_predecessors curr_block) actions).

Definition construct_initial_pctxt (self : FoldUnfold) (heap : Heap) (dag : DAG.DAG Stmt) (cfg : ExpireCfg)
    (surrounding_pctxt : PathCtxt) (surrounding_block_index : CfgBlockIndex) (new_cfg : CfgMethod)
    (curr_block_index : nat) (final_pctxt : list (option PathCtxt)) :
    outcome FoldUnfoldError (ExpireCfg * PathCtxt * list Stmt) :=
  curr_block ← unwrap (expire_blocks cfg !! curr_block_index);
  match block_predecessors curr_block with
  | [] =>
      r ← construct_initial_pctxt_no_predecessors self heap dag surrounding_pctxt surrounding_block_index new_cfg
            (block_node curr_block);
      Val (cfg, fst r, snd r)
  | _ =>
      r ← construct_initial_pctxt_with_predecessors self heap dag cfg surrounding_pctxt surrounding_block_index new_cfg
            curr_block_index curr_block final_pctxt;
      Val (r, [])
  end.

Definition construct_final_pctxt (dag : DAG.DAG Stmt) (cfg : ExpireCfg) (final_pctxt : list (option PathCtxt)) :
    outcome FoldUnfoldError (ExpireCfg * PathCtxt) :=
  let final_blocks := map fst (List.filter (fun ib => DAG.is_empty (block_successors (snd ib))) (enumerate (expire_blocks cfg))) in
  final_pctxts ← unwrap (mapM_opt (fun i => p ← final_pctxt !! i; p) final_blocks);
  joined ← prepend_join_pctxts final_pctxts;
  let '(actions, pctxt) := joined in
  foldM (merge_actions dag extend_block) (cfg, pctxt) (combine final_blocks actions).

Definition generate_final_statements (cfg : ExpireCfg) (label : option string) : option (list Stmt) :=
  @concat Stmt <$> mapM_opt (fun ib =>
    let '(i, block) := ib in
    then_stmts ← patch_places (block_statements block) label;
    edge_stmts ← mapM_opt (fun e =>
      let '((_, to), statements) := e in
      to_block ← expire_blocks cfg !! to;
      statements ← patch_places statements label;
      Some (Stmt.If (Ex.and (block_guard block) (block_current_guard to_block)) statements []))
      (List.filter (fun e => Nat.eqb (fst (fst e)) i) (edges cfg));
    Some (Stmt.If (block_guard block) then_stmts [] :: edge_stmts)) (enumerate (expire_blocks cfg)).

(** ** [replace_stmt] *)

Section Step.
(** The recursive call: the arguments are the statement, [is_last_before_return],
    the context and the label; the others do not change. *)
Context (stmt_index : nat) (curr_block_index : CfgBlockIndex) (new_cfg : CfgMethod).
Context (rec : nat -> Stmt -> bool -> PathCtxt -> option string -> FU (list Stmt * PathCtxt)).

Definition replace_stmts (label : option string) (pctxt : PathCtxt) (stmts : list Stmt) : FU (list Stmt * PathCtxt) :=
  for_each (fun acc stmt =>
    r ← rec stmt_index stmt false (snd acc) label;
    mret ((fst acc ++ fst r)%list, snd r)) ([], pctxt) stmts.

(** One node of the reborrowing DAG. *)
Definition process_node (surrounding_pctxt : PathCtxt) (curr_block : ExpireBlock) (label : option string) (pctxt : PathCtxt) :
    FU (list Stmt * PathCtxt) :=
  let curr_node := block_node curr_block in
  acc ← for_each (fun acc indexed_stmt =>
      r ← rec (fst indexed_stmt) (snd indexed_stmt) false (snd acc) label;
      mret ((fst acc ++ fst r)%list, snd r)) (block_statements curr_block, pctxt) (enumerate (DAG.stmts curr_node));
  duplicated_perms ← lift (EventLog.get_duplicated_read_permissions (PathCtxt.log surrounding_pctxt) (DAG.borrow curr_node));
  self ← get_self;
  acc ← for_each (fun acc perm =>
      read_access ← lift match DAG.place curr_node with
                         | Some place => replace_place (fst perm) (snd perm) place
                         | None => Some (fst perm)
                         end;
      r ← rec (length (fst acc)) (Stmt.Exhale read_access (method_pos self)) false (snd acc) label;
      mret ((fst acc ++ fst r)%list, snd r)) acc duplicated_perms;
  let '(statements, pctxt) := acc in
  let pctxt :=
    match last duplicated_perms with
    | Some (_, original_place) =>
        if State.contains_acc (PathCtxt.state pctxt) original_place
        then PathCtxt.with_state pctxt (State.insert_moved (PathCtxt.state pctxt) original_place) else pctxt
    | None => pctxt
    end in
  match DAG.alive_conflicting_borrows curr_node with
  | [] =>
      lift_o (foldM (fun acc borrow =>
        r ← restore_write_permissions borrow (snd acc);
        Val ((fst acc ++ fst r)%list, snd r)) (statements, pctxt)
        (DAG.conflicting_borrows curr_node ++ [DAG.borrow curr_node])%list)
  | _ => mret (statements, pctxt)
  end.

(** One round of the loop over the blocks; [final_pctxt] are the contexts at
    the end of the blocks before this one. *)
Definition process_block (dag : DAG.DAG Stmt) (surrounding_pctxt : PathCtxt) (label : option string)
    (acc : ExpireCfg * list (option PathCtxt)) (index : nat) : FU (ExpireCfg * list (option PathCtxt)) :=
  let '(cfg, final_pctxt) := acc in
  self ← get_self;
  heap ← get_heap;
  initial ← lift_o (construct_initial_pctxt self heap dag cfg surrounding_pctxt curr_block_index new_cfg index final_pctxt);
  let '(cfg, pctxt, pre_statements) := initial in
  let cfg := extend_block cfg index pre_statements in
  curr_block ← lift (expire_blocks cfg !! index);
  r ← process_node surrounding_pctxt curr_block label pctxt;
  let '(statements, pctxt) := r in
  let cfg := extend_block cfg index (drop (length (block_statements curr_block)) statements) in
  mret (cfg, <[index := Some pctxt]> final_pctxt).

Definition process_expire_borrows (dag : DAG.DAG Stmt) (surrounding_pctxt : PathCtxt) (label : option string) :
    FU (list Stmt * PathCtxt) :=
  cfg ← lift (build_initial_cfg dag);
  let n := length (expire_blocks cfg) in
  r ← for_each (process_block dag surrounding_pctxt label) (cfg, replicate n None) (seq 0 n);
  let '(cfg, final_pctxt) := r in
  r ← lift_o (construct_final_pctxt dag cfg final_pctxt);
  let '(cfg, pctxt) := r in
  stmts ← lift (generate_final_statements cfg label);
  mret (stmts, pctxt).

(** Step 3: the body of a package statement. *)
Definition replace_package (stmt : Stmt) (pctxt : PathCtxt) : FU Stmt :=
  match stmt with
  | Stmt.PackageMagicWand (Expr.MagicWand lhs rhs _ _) old_package_stmts label vars position =>
      r ← replace_stmts (Some label) pctxt old_package_stmts;
      mret (Stmt.package_magic_wand lhs rhs (fst r) label vars position)
  | _ => mret stmt
  end.

(** Step 5: the effect of the statement. *)
Definition replace_effect (stmt : Stmt) (pctxt : PathCtxt) : FU (Stmt * PathCtxt) :=
  match stmt with
  | Stmt.If cond then_stmts else_stmts =>
      then_r ← replace_stmts None pctxt then_stmts;
      else_r ← replace_stmts None pctxt else_stmts;
      joined ← lift_o (prepend_join_pctxts [snd then_r; snd else_r]);
      let '(join_actions, joined_pctxt) := joined in
      else_actions ← lift (join_actions !! 1);
      else_more ← perform_actions joined_pctxt curr_block_index else_actions;
      then_actions ← lift (join_actions !! 0);
      then_more ← perform_actions (snd else_more) curr_block_index then_actions;
      mret (Stmt.If cond (fst then_r ++ fst then_more)%list (fst else_r ++ fst else_more)%list, snd then_more)
  | _ => pctxt ← lift_o (apply_stmt pctxt stmt); mret (stmt, pctxt)
  end.

(** Step 6: recombine the permissions after an inhale. *)
Definition recombine (stmt : Stmt) (label : option string) (pctxt : PathCtxt) : FU (list Stmt * PathCtxt) :=
  match stmt with
  | Stmt.Inhale expr =>
      places ← lift (restorable_places expr (PathCtxt.state pctxt));
      for_each (fun acc place =>
        access ← lift (Ex.pred_permission place PermAmount.Read);
        access ← lift access;
        r ← rec stmt_index (Stmt.Obtain access Position.default) false (snd acc) label;
        mret ((fst acc ++ fst r)%list, snd r)) ([], pctxt) places
  | _ => mret ([], pctxt)
  end.

(** A statement that does not expire borrows. *)
Definition replace_ordinary_stmt (stmt : Stmt) (is_last_before_return : bool) (pctxt : PathCtxt) (label : option string) :
    FU (list Stmt * PathCtxt) :=
  _ ← store_lhs stmt pctxt;
  self ← get_self;
  comments ← lift (if Nat.eqb stmt_index 0 && dump_path_ctxt self then state_comments (PathCtxt.state pctxt) else Some []);
  (* 1. *)
  stmt ← lift_o (rewrite_stmt_with_unfoldings_in_old self stmt pctxt);
  (* 2. *)
  obtained ← lift_o (obtain_required self stmt is_last_before_return label pctxt);
  let '(obtain_stmts, pctxt) := obtained in
  (* 3. *)
  stmt ← replace_package stmt pctxt;
  (* 4. *)
  self ← get_self;
  stmt ← lift_o (rewrite_stmt_with_unfoldings self stmt pctxt);
  (* 5. *)
  effect ← replace_effect stmt pctxt;
  let '(stmt, pctxt) := effect in
  (* 6. *)
  recombined ← recombine stmt label pctxt;
  (* 7. *)
  shared ← lift_o (shared_borrow self stmt (snd recombined));
  let '(shared_stmts, pctxt) := shared in
  _ ← store_label stmt pctxt;
  _ ← forget_lhs;
  mret ((comments ++ obtain_stmts ++ [stmt] ++ fst recombined ++ shared_stmts)%list, pctxt).

Definition replace_stmt_step (stmt : Stmt) (is_last_before_return : bool) (pctxt : PathCtxt) (label : option string) :
    FU (list Stmt * PathCtxt) :=
  match stmt with
  | Stmt.ExpireBorrows dag =>
      text ← lift (stmt_to_string stmt);
      r ← process_expire_borrows dag pctxt label;
      mret (Stmt.Comment text :: fst r, snd r)
  | _ => replace_ordinary_stmt stmt is_last_before_return pctxt label
  end.
End Step.

Fixpoint replace_stmt_fuel (fuel : nat) (curr_block_index : CfgBlockIndex) (new_cfg : CfgMethod) (stmt_index : nat)
    (stmt : Stmt) (is_last_before_return : bool) (pctxt : PathCtxt) (label : option string) :
    FU (list Stmt * PathCtxt) :=
  match fuel with
  | 0 => panic
  | S fuel =>
      replace_stmt_step stmt_index curr_block_index new_cfg (replace_stmt_fuel fuel curr_block_index new_cfg)
        stmt is_last_before_return pctxt label
  end.

(** The statements an inhale or an expiring borrow adds need one more call. *)
Fixpoint stmt_fuel (stmt : Stmt) : nat :=
  match stmt with
  | Stmt.Inhale _ => 2
  | Stmt.PackageMagicWand _ stmts _ _ _ => S (list_max (map stmt_fuel stmts))
  | Stmt.If _ then_stmts else_stmts =>
      S (Nat.max (list_max (map stmt_fuel then_stmts)) (list_max (map stmt_fuel else_stmts)))
  | Stmt.ExpireBorrows dag =>
      S (Nat.max 1 (list_max (map (fun node => list_max (map stmt_fuel (DAG.stmts node))) (DAG.nodes dag))))
  | _ => 1
  end.

Definition replace_stmt_of_method (stmt_index : nat) (stmt : Stmt) (is_last_before_return : bool) (pctxt : PathCtxt)
    (curr_block_index : CfgBlockIndex) (new_cfg : CfgMethod) (label : option string) : FU (list Stmt * PathCtxt) :=
  replace_stmt_fuel (stmt_fuel stmt) curr_block_index new_cfg stmt_index stmt is_last_before_return pctxt label.

(** ** Successors *)

Definition successor_exprs (succ : Successor) : list Expr :=
  match succ with
  | Successor.GotoSwitch guarded_targets _ => map fst guarded_targets
  | _ => []
  end.

Definition replace_succ (self : FoldUnfold) (pctxt : PathCtxt) (succ : Successor) : outcome FoldUnfoldError Successor :=
  match succ with
  | Successor.GotoSwitch guarded_targets default_target =>
      guarded_targets ← mapM_outcome (fun gt => expr ← replace_expr self (fst gt) pctxt; Val (expr, snd gt)) guarded_targets;
      Val (Successor.GotoSwitch guarded_targets default_target)
  | _ => Val succ
  end.

(** The permissions of the guards, those of old expressions skipped. *)
Definition replace_successor_of_method (self : FoldUnfold) (succ : Successor) (pctxt : PathCtxt) :
    outcome FoldUnfoldError (list Stmt * Successor * PathCtxt) :=
  perms ← unwrap (mapM_opt (get_required_permissions (PathCtxt.predicates pctxt)) (successor_exprs succ));
  let grouped_perms := group_by_label (concat perms) in
  r ← foldM (fun acc group =>
        let '(stmts, pctxt, some_perms_required) := acc in
        match group with
        | (Some _, _) | (None, []) => Val acc
        | (None, perms) =>
            r ← obtain_stmts pctxt perms;
            Val ((stmts ++ fst r)%list, snd r, true)
        end) ([], pctxt, false) grouped_perms;
  let '(stmts, pctxt, some_perms_required) := r in
  asserts ← (if (some_perms_required : bool) && check_foldunfold_state self
             then unwrap (assert_state_stmts (PathCtxt.state pctxt)) else Val []);
  new_succ ← replace_succ self pctxt succ;
  Val ((stmts ++ asserts)%list, new_succ, pctxt).

(** ** The pass *)

#[export] Instance fold_unfold_replacer : CfgReplacer (FoldUnfold * Heap) FoldUnfoldError PathCtxt (list Action) := {|
  is_noop := DAG.is_empty;
  check_compatible_back_edge := fun _ _ => Some tt;
  initial_context := self ← get_self; mret (initial_pctxt self);
  replace_stmt := replace_stmt_of_method;
  replace_successor := fun succ pctxt => self ← get_self; lift_o (replace_successor_of_method self succ pctxt);
  prepend_join := fun pctxts => lift_o (prepend_join_pctxts pctxts);
  perform_prejoin_action := perform_actions
|}.

(** [add_fold_unfold]; [predicates] are those the encoder has used, the two
    flags its configuration. *)
Definition add_fold_unfold (new_uuid : Uuid) (predicates : Predicates) (check dump : bool) (cfg : CfgMethod)
    (borrow_locations : HashMap.t Borrow Location) (cfg_map : HashMap.t BasicBlock (HashSet.t CfgBlockIndex))
    (method_pos : Position) : outcome FoldUnfoldError CfgMethod :=
  old_exprs ← unwrap (collect_old_exprs cfg);
  let initial_pctxt := PathCtxt.new (CfgMethod.get_all_vars cfg) predicates old_exprs in
  fst <$> replace_cfg new_uuid cfg
            (make_fold_unfold initial_pctxt HashMap.empty check dump cfg borrow_locations cfg_map method_pos, []).
End Driver.
