(* ===== verification/FoldUnfoldFacts.v ===== *)
(** * What the fold-unfold pass adds to a method

    Ghost code only: without the folds, unfolds, obtained permissions and
    comments, and without the unfoldings in expressions, a statement is
    replaced by itself, and so is every block of the method.  This is for
    statements that do not borrow ([plain]): shared borrows and expiring
    borrows exchange permissions.  Also: the recursion of [replace_stmt] has
    enough fuel. *)

From stdpp Require Import relations.
From S2P Require Import Prelude Ast ExprEq ExprPlace ExprTransformers ExprOps Collections Typaram ExprReplace.
From S2P Require Import Items Graph Borrows Stmt Cfg CfgGraph CfgLoops Display.
From S2P Require Import CfgTopo CfgFacts.
From S2P Require Import Perm FuState Footprint FuSemantics EventLog PathCtxt ObtainFacts.
From S2P Require Import CfgReplacer CfgReplacerFacts Unfoldings ExprReplacer FoldUnfold.

(** * The forward pass and the contents of the blocks

    If an implementation of [CfgReplacer] replaces a statement by statements
    that mean the same ([strip]) and keeps what matters of a successor
    ([view]), then so does the pass for every block, and the blocks it adds on
    the edges mean nothing. *)

Import CfgMethod.

(** ** The interface *)

(** [strip stmt] is what a statement means, [view succ] what is to be kept of
    a successor, beside its targets. *)
Class Meaning {V : Type} (strip : Stmt -> list Stmt) (view : Successor -> V) : Prop := {
  strip_comment : forall c, strip (Stmt.Comment c) = [];
  view_uuid : forall succ u, view (Successor.replace_uuid succ u) = view succ;
  view_target : forall succ a b succ', Successor.replace_target succ a b = Some succ' -> view succ' = view succ
}.

(** An implementation that keeps the meaning, from the states [ok] and for the
    statements [plain]. *)
Class KeepsMeaning {S E PathCtxt Action V : Type} `{!CfgReplacer S E PathCtxt Action}
    (strip : Stmt -> list Stmt) (view : Successor -> V) (ok : S -> Prop) (plain : Stmt -> Prop) : Prop := {
  km_initial : forall s p s', ok s -> initial_context s = Val (p, s') -> ok s';
  km_stmt : forall i stmt is_last p b m label s out p' s', ok s -> plain stmt ->
    replace_stmt i stmt is_last p b m label s = Val ((out, p'), s') -> ok s' /\ flat_map strip out = strip stmt;
  km_succ : forall succ p s out succ' p' s', ok s ->
    replace_successor succ p s = Val ((out, succ', p'), s') ->
    ok s' /\ flat_map strip out = [] /\ view succ' = view succ;
  km_join : forall ps s r s', ok s -> prepend_join ps s = Val (r, s') -> ok s';
  km_prejoin : forall p b a s out p' s', ok s ->
    perform_prejoin_action p b a s = Val ((out, p'), s') -> ok s' /\ flat_map strip out = []
}.

(** ** What the builder does to the contents *)

Section Contents.
Context {V : Type} (strip : Stmt -> list Stmt) (view : Successor -> V) `{!Meaning strip view}.

Definition content (b : CfgBlock) : list Stmt * V := (flat_map strip (stmts b), view (successor b)).
Definition contents (m : CfgMethod) : list (list Stmt * V) := map content (basic_blocks m).

Definition put_strip (l : list Stmt) (c : list Stmt * V) : list Stmt * V := (fst c ++ l, snd c)%list.
Definition put_stmts (ss : list Stmt) : list Stmt * V -> list Stmt * V := put_strip (flat_map strip ss).
Definition put_view (v : V) (c : list Stmt * V) : list Stmt * V := (fst c, v).

Lemma put_strip_nil c : put_strip [] c = c.
Proof. destruct c. unfold put_strip. cbn. by rewrite app_nil_r. Qed.

Lemma put_strip_app l1 l2 c : put_strip l2 (put_strip l1 c) = put_strip (l1 ++ l2) c.
Proof. unfold put_strip. cbn. by rewrite <- app_assoc. Qed.

Lemma contents_lookup m i : contents m !! i = content <$> basic_blocks m !! i.
Proof. apply list_lookup_fmap. Qed.

Lemma map_insert_alter {A B} (f : A -> B) (g : B -> B) (l : list A) i x y :
  l !! i = Some x -> f y = g (f x) -> map f (<[i := y]> l) = alter g i (map f l).
Proof.
  intros Hx Hy. apply list_eq. intros k. rewrite list_lookup_fmap. destruct (decide (k = i)) as [->|Hne].
  - rewrite list_lookup_insert_eq by (by eapply lookup_lt_Some). rewrite list_lookup_alter_eq, list_lookup_fmap, Hx. cbn. by rewrite Hy.
  - by rewrite list_lookup_insert_ne, list_lookup_alter_ne, list_lookup_fmap by done.
Qed.

Lemma add_stmt_contents m b s m' : add_stmt m b s = Some m' ->
  contents m' = alter (put_stmts [s]) (block_index b) (contents m).
Proof.
  unfold add_stmt. intros E. inv_option. subst m'. apply register_labels_spec in Hx0 as (-> & _).
  cbn in *. unfold contents. cbn. eapply map_insert_alter; [done|]. unfold content, put_stmts. cbn.
  by rewrite flat_map_app.
Qed.

Lemma add_stmts_contents ss : forall m b m', add_stmts m b ss = Some m' ->
  contents m' = alter (put_stmts ss) (block_index b) (contents m).
Proof.
  induction ss as [|s ss IH]; intros m b m' E; cbn in E.
  - injection E as <-. symmetry. apply list_alter_id, put_strip_nil.
  - inv_option. rewrite (IH _ _ _ E), (add_stmt_contents _ _ _ _ Hx), list_alter_alter_eq.
    apply list_alter_ext; [|done]. intros c _. unfold put_stmts.
    cbn [compose]. rewrite put_strip_app. cbn. by rewrite app_nil_r.
Qed.

Lemma add_block_contents m l ss b m' : add_block m l ss = Some (b, m') ->
  contents m' = (contents m ++ [(flat_map strip ss, view Successor.Undefined)])%list
  /\ block_index b = length (contents m).
Proof.
  unfold add_block. intros E. inv_option. subst. unfold contents. cbn. by rewrite map_app, length_map.
Qed.

Lemma set_successor_contents m i s m' : set_successor m i s = Some m' ->
  contents m' = alter (put_view (view s)) (block_index i) (contents m).
Proof. unfold set_successor. intros E. inv_option. subst. unfold contents. cbn. by eapply map_insert_alter. Qed.

Lemma fresh_label_contents m l m' : get_fresh_label_name m = Some (l, m') -> contents m' = contents m.
Proof. unfold get_fresh_label_name. intros E. inv_option. destruct x. inv_option. by subst. Qed.

Lemma init_blocks_contents blocks : forall labels m m', init_blocks labels blocks m = Some m' ->
  contents m' = (contents m ++ replicate (length blocks) ([], view Successor.Undefined))%list.
Proof.
  induction blocks as [|b blocks IH]; intros [|l labels] m m' Ei; cbn in Ei; try done; try (injection Ei as <-; by rewrite app_nil_r).
  inv_option. destruct x as [i m1]. apply add_block_contents in Hx as [Hc _]. apply IH in Ei.
  rewrite Ei. cbn [snd]. by rewrite Hc, <- app_assoc.
Qed.

(** ** The steps of the pass *)

Context {S E PathCtxt Action : Type} `{!CfgReplacer S E PathCtxt Action}.
Context (ok : S -> Prop) (plain : Stmt -> Prop) `{!KeepsMeaning strip view ok plain}.
Context (new_uuid : Uuid) (cfg : CfgMethod).
Let n : nat := length (basic_blocks cfg).

(** [C'] has more blocks, which mean nothing. *)
Definition grown (C C' : list (list Stmt * V)) : Prop :=
  exists edges, C' = (C ++ edges)%list /\ Forall (fun c => fst c = []) edges.

Lemma grown_refl C : grown C C.
Proof. exists []. by rewrite app_nil_r. Qed.

Lemma grown_trans C1 C2 C3 : grown C1 C2 -> grown C2 C3 -> grown C1 C3.
Proof.
  intros (es1 & -> & H1) (es2 & -> & H2). exists (es1 ++ es2)%list. rewrite <- app_assoc. split; [done|].
  by apply Forall_app.
Qed.

Lemma grown_lookup C C' i : grown C C' -> i < length C -> C' !! i = C !! i.
Proof. intros (es & -> & _) Hi. by apply lookup_app_l. Qed.

Lemma grown_new C C' i c : grown C C' -> length C <= i -> C' !! i = Some c -> fst c = [].
Proof. intros (es & -> & He) Hi. rewrite lookup_app_r by done. intros Hc. exact (proj1 (Forall_lookup _ _) He _ _ Hc). Qed.

Lemma prejoin_edge_grown visited curr_block m p x s m' p' s' :
  ok s -> prejoin_edge visited curr_block (m, p) x s = Val ((m', p'), s') ->
  ok s' /\ grown (contents m) (contents m').
Proof.
  intros Hok Ex. destruct x as [src a]. cbn in Ex. inv_st.
  destruct (is_noop a); inv_st; [split; [done|apply grown_refl]|].
  match goal with H : perform_prejoin_action _ _ _ _ = _ |- _ => apply km_prejoin in H as [Hok' Hnil]; [|done] end.
  split; [done|]. apply fresh_label_contents in Hx2. apply add_block_contents in Hx3 as [Hc3 Hb3].
  pose proof (set_successor_contents _ _ _ _ Hx6) as Hc6.
  apply add_stmts_contents in Hx5. apply set_successor_contents in Hx9. apply view_target in Hx8.
  assert (Hid : contents x6 = contents x3).
  { rewrite Hx9. cbn. transitivity (alter id src (contents x3)); [|by apply list_alter_id].
    apply list_alter_ext; [|done]. intros d. rewrite contents_lookup, Hx7. cbn. intros [= <-].
    unfold put_view, content. cbn. by rewrite Hx8. }
  rewrite Hid, Hc6, Hx5, Hc3, Hb3, Hx2. eexists [_]. split.
  - rewrite !alter_app_r_alt by lia. by rewrite Nat.sub_diag.
  - apply Forall_singleton. cbn. by rewrite strip_comment, Hnil.
Qed.

Lemma join_incoming_grown v curr s m p s' :
  ok s -> join_incoming cfg v curr s = Val ((m, p), s') -> ok s' /\ grown (contents (new_cfg v)) (contents m).
Proof.
  intros Hok Ex. unfold join_incoming in Ex. inv_st.
  match goal with H : mapM_opt _ _ = Some ?ps |- _ => destruct ps end; inv_st.
  - split; [by eapply km_initial|apply grown_refl].
  - match goal with H : prepend_join _ _ = _ |- _ => apply km_join in H; [|done] end.
    refine (for_each_run (fun _ acc s => ok s /\ grown (contents (new_cfg v)) (contents (fst acc))) _ _ _ [] _ _ _ _ _ Ex).
    + intros _ [m1 q1] [src a] s2 [m2 q2] s3 _ [H1 H2] H3. apply prejoin_edge_grown in H3 as [H3 H4]; [|done].
      split; [done|]. cbn in *. by eapply grown_trans.
    + split; [done|]. apply grown_refl.
Qed.

(** The statements of one block. *)
Lemma replace_stmts_contents blk b l : Forall plain l -> forall k m p s m' p' s',
  ok s -> for_each (replace_one_stmt blk b) (m, p) (combine (seq k (length l)) l) s = Val ((m', p'), s') ->
  ok s' /\ contents m' = alter (put_strip (flat_map strip l)) (block_index b) (contents m).
Proof.
  induction 1 as [|x l Hx _ IH]; intros k m p s m' p' s' Hok Ex; cbn in Ex; inv_st.
  - split; [done|]. symmetry. apply list_alter_id, put_strip_nil.
  - match goal with H : replace_stmt _ _ _ _ _ _ _ _ = _ |- _ => apply km_stmt in H as [Hok1 Hout]; [|done..] end.
    apply IH in Ex as [Hok' Hm]; [|done]. split; [done|].
    match goal with H : add_stmts _ _ _ = _ |- _ => apply add_stmts_contents in H as Hm1 end.
    rewrite Hm, Hm1, list_alter_alter_eq. apply list_alter_ext; [|done]. intros c _. cbn.
    unfold put_stmts. by rewrite put_strip_app, Hout.
Qed.

(** The loop invariant: the blocks visited have their contents, the others
    have no statements yet. *)
Record contents_inv (seen : list nat) (v : Visit PathCtxt) : Prop := {
  ci_visited : forall i, i ∈ seen -> visited v !! i = Some true;
  ci_done : forall i, i ∈ seen -> i < n -> contents (new_cfg v) !! i = contents cfg !! i;
  ci_todo : forall i, i ∉ seen -> i < n -> fst <$> contents (new_cfg v) !! i = Some [];
  ci_edges : forall i c, n <= i -> contents (new_cfg v) !! i = Some c -> fst c = []
}.

Lemma contents_inv_length seen v : contents_inv seen v -> n <= length (contents (new_cfg v)).
Proof.
  intros Hi. destruct (Nat.le_gt_cases n (length (contents (new_cfg v)))) as [|Hlt]; [done|].
  assert (Hn : contents (new_cfg v) !! (length (contents (new_cfg v))) = None) by by apply lookup_ge_None.
  destruct (decide (length (contents (new_cfg v)) ∈ seen)) as [Hs|Hs].
  - apply (ci_done _ _ Hi) in Hs; [|done]. rewrite Hn in Hs. symmetry in Hs. apply lookup_ge_None in Hs.
    unfold contents in Hs at 1. rewrite length_map in Hs. unfold n in *. lia.
  - apply (ci_todo _ _ Hi) in Hs; [|done]. by rewrite Hn in Hs.
Qed.

(** A block that is new gets its contents. *)
Lemma contents_inv_step seen v curr b C1 v' :
  contents_inv seen v -> curr ∉ seen -> basic_blocks cfg !! curr = Some b ->
  visited v' = <[curr := true]> (visited v) -> is_Some (visited v !! curr) ->
  grown (contents (new_cfg v)) C1 ->
  contents (new_cfg v') = alter (fun c => (fst c ++ fst (content b), snd (content b)))%list curr C1 ->
  contents_inv (seen ++ [curr]) v'.
Proof.
  intros Hi Hc Hb Hv [x Hx] Hg Hm. pose proof (contents_inv_length _ _ Hi) as Hl.
  assert (Hcn : curr < n) by (by eapply lookup_lt_Some). split.
  - intros i [Hs| ->%list_elem_of_singleton]%elem_of_app; rewrite Hv.
    + rewrite list_lookup_insert_ne by (by intros ->). by apply (ci_visited _ _ Hi).
    + apply list_lookup_insert_eq. by eapply lookup_lt_Some.
  - intros i Hs Hin. rewrite Hm. apply elem_of_app in Hs as [Hs| ->%list_elem_of_singleton].
    + rewrite list_lookup_alter_ne by (by intros ->). rewrite (grown_lookup _ _ _ Hg) by lia. by apply (ci_done _ _ Hi).
    + rewrite list_lookup_alter_eq, (grown_lookup _ _ _ Hg), (contents_lookup cfg), Hb by lia.
      pose proof (ci_todo _ _ Hi _ Hc Hcn) as Ht. destruct (contents (new_cfg v) !! curr) as [[? ?]|]; [|done].
      injection Ht as ->. done.
  - intros i Hs Hin. apply not_elem_of_app in Hs as [Hs Hne].
    assert (i <> curr) by (intros ->; by apply Hne, list_elem_of_singleton).
    rewrite Hm, list_lookup_alter_ne, (grown_lookup _ _ _ Hg) by (done || lia). by apply (ci_todo _ _ Hi).
  - intros i c Hin. rewrite Hm, list_lookup_alter_ne by (unfold n in *; lia). intros Hic.
    destruct (Nat.lt_ge_cases i (length (contents (new_cfg v)))) as [Hlt|Hge].
    + rewrite (grown_lookup _ _ _ Hg) in Hic by done. by eapply (ci_edges _ _ Hi).
    + by eapply grown_new.
Qed.

Lemma replace_block_contents v curr blk s v' s' :
  ok s -> Forall plain (stmts blk) -> replace_block cfg v curr blk s = Val (v', s') ->
  ok s' /\ visited v' = visited v /\ exists C1, grown (contents (new_cfg v)) C1
    /\ contents (new_cfg v') = alter (fun c => (fst c ++ fst (content blk), snd (content blk)))%list curr C1.
Proof.
  intros Hok Hp Ex. unfold replace_block in Ex. inv_st.
  destruct x0 as [m1 p0]. apply join_incoming_grown in Hx0 as [Hok1 Hg]; [|done].
  match goal with H : for_each _ _ _ _ = _ |- _ => apply replace_stmts_contents in H as [Hok2 Hm2]; [|done..] end.
  match goal with H : replace_successor _ _ _ = _ |- _ => apply km_succ in H as (Hok3 & Hnil & Hview); [|done] end.
  split; [done|]. split; [done|]. exists (contents m1). split; [done|]. cbn.
  match goal with H : add_stmts _ _ _ = _ |- _ => apply add_stmts_contents in H as Hm3 end.
  match goal with H : set_successor _ _ _ = _ |- _ => apply set_successor_contents in H as Hm4 end.
  rewrite Hm4, Hm3, Hm2, view_uuid, Hview. cbn. rewrite !list_alter_alter_eq. apply list_alter_ext; [|done].
  intros d _. cbn. unfold put_stmts. rewrite Hnil, put_strip_nil. done.
Qed.

Lemma copy_block_contents curr blk m m' : copy_block curr blk m = Some m' ->
  contents m' = alter (fun c => (fst c ++ fst (content blk), snd (content blk)))%list curr (contents m).
Proof.
  unfold copy_block. intros Ec. inv_option.
  match goal with H : add_stmts _ _ _ = _ |- _ => apply add_stmts_contents in H as Hm3 end.
  match goal with H : set_successor _ _ _ = _ |- _ => apply set_successor_contents in H as Hm4 end.
  rewrite Hm4, Hm3, view_uuid. cbn. rewrite list_alter_alter_eq. by apply list_alter_ext.
Qed.

Lemma visit_block_contents seen v curr s v' s' :
  (forall b, b ∈ basic_blocks cfg -> Forall plain (stmts b)) ->
  ok s /\ contents_inv seen v -> visit_block cfg v curr s = Val (v', s') ->
  ok s' /\ contents_inv (seen ++ [curr]) v'.
Proof.
  intros Hp [Hok Hi] Ex. unfold visit_block in Ex. inv_st.
  match goal with H : assert_ (negb ?b) = Some _, H' : visited v !! curr = Some ?b |- _ =>
    apply assert_Some in H; destruct b; [done|]; rename H' into Hv end.
  match goal with H : basic_blocks cfg !! curr = Some ?b |- _ => rename b into blk; rename H into Hb end.
  assert (Hc : curr ∉ seen) by (intros Hs; apply (ci_visited _ _ Hi) in Hs; congruence).
  match type of Ex with (if ?b then _ else _) _ = _ => destruct b end.
  - apply replace_block_contents in Ex as (Hok' & Hv' & C1 & Hg & Hm); [|done|eapply Hp, list_elem_of_lookup_2, Hb].
    split; [done|]. by eapply contents_inv_step.
  - inv_st. split; [done|]. eapply contents_inv_step; [done..| |apply grown_refl|cbn in *; by apply copy_block_contents]. done.
Qed.
End Contents.

Theorem replace_cfg_contents {S E PathCtxt Action V : Type} `{!CfgReplacer S E PathCtxt Action}
    (strip : Stmt -> list Stmt) (view : Successor -> V) (ok : S -> Prop) (plain : Stmt -> Prop)
    `{!Meaning strip view} `{!KeepsMeaning strip view ok plain}
    (new_uuid : Uuid) (cfg m : CfgMethod) (s s' : S) :
  targets_ok cfg -> (forall b, b ∈ basic_blocks cfg -> Forall plain (stmts b)) -> ok s ->
  replace_cfg new_uuid cfg s = Val (m, s') ->
  ok s' /\ forall i b, basic_blocks m !! i = Some b ->
    match basic_blocks cfg !! i with
    | Some old =>
        flat_map strip (stmts b) = flat_map strip (stmts old) /\ view (successor b) = view (successor old)
    | None => flat_map strip (stmts b) = []
    end.
Proof.
  intros Ht Hp Hok Ex. unfold replace_cfg in Ex. inv_st.
  destruct (get_topological_sort_spec cfg Ht) as (l & El & _ & Hperm & _).
  match goal with H : initial_cfg _ _ = Some _ |- _ => apply (init_blocks_contents strip view) in H as Hinit end.
  match goal with H : get_topological_sort cfg = Some _ |- _ => rewrite El in H; injection H as <- end.
  match goal with H : for_each _ _ _ _ = _ |- _ =>
    apply (for_each_run (fun seen v s => ok s /\ contents_inv strip view cfg seen v)) with (seen := []) in H as [Hok' Hi] end.
  2: { intros seen v curr s1 v' s2 _. by apply (visit_block_contents strip view ok plain). }
  2: { split; [done|]. split; cbn; [by intros i ?%elem_of_nil|by intros i ?%elem_of_nil| |]; rewrite Hinit; cbn.
       - intros i _ Hi. by rewrite lookup_replicate_2.
       - intros i c Hi [_ Hl]%lookup_replicate. lia. }
  split; [done|]. intros i b Hb. cbn in Hi.
  assert (Hc : contents strip view (new_cfg x2) !! i = Some (content strip view b)) by by rewrite contents_lookup, Hb.
  destruct (basic_blocks cfg !! i) as [old|] eqn:Ho.
  - pose proof (ci_done _ _ _ _ _ Hi i) as Hd. rewrite Hc, contents_lookup, Ho in Hd.
    apply lookup_lt_Some in Ho as Hlt. specialize (Hd ltac:(rewrite Hperm; apply elem_of_seq; lia) Hlt). injection Hd as H1 H2. done.
  - apply (ci_edges _ _ _ _ _ Hi i _ ltac:(by apply lookup_ge_None) Hc).
Qed.

(** * The pass *)

(** ** Statements without ghost code *)

(** The wand of a package statement has no borrow after the pass. *)
Definition plain_wand (wand : Expr) (p : Position) : Expr :=
  match wand with
  | Expr.MagicWand lhs rhs _ _ => Expr.MagicWand lhs rhs None p
  | wand => wand
  end.

Fixpoint drop_ghost (s : Stmt) : list Stmt :=
  match s with
  | Stmt.Comment _ | Stmt.Fold _ _ _ _ _ | Stmt.Unfold _ _ _ _ | Stmt.Obtain _ _ => []
  | Stmt.PackageMagicWand wand body label vars p =>
      [Stmt.PackageMagicWand (plain_wand wand p) (flat_map drop_ghost body) label vars p]
  | Stmt.If guard then_stmts else_stmts =>
      [Stmt.If guard (flat_map drop_ghost then_stmts) (flat_map drop_ghost else_stmts)]
  | s => [s]
  end.

Definition strip (s : Stmt) : list Stmt := drop_ghost (stmt_map erase s).

(** No borrows. *)
Fixpoint plain (s : Stmt) : bool :=
  match s with
  | Stmt.ExpireBorrows _ | Stmt.Assign _ _ (AssignKind.SharedBorrow _) => false
  | Stmt.PackageMagicWand _ body _ _ _ => forallb plain body
  | Stmt.If _ then_stmts else_stmts => forallb plain then_stmts && forallb plain else_stmts
  | _ => true
  end.

(** What the effect of a statement runs has no borrows. *)
Definition acts_plain (s : Stmt) : bool :=
  match s with
  | Stmt.PackageMagicWand _ _ _ _ _ => true
  | s => plain s
  end.

Lemma plain_acts s : plain s = true -> acts_plain s = true.
Proof. by destruct s. Qed.

(** Equal up to unfoldings. *)
Definition same_stmt (s s' : Stmt) : Prop := stmt_map erase s' = stmt_map erase s.

#[export] Instance same_stmt_equiv : Equivalence same_stmt.
Proof. split; unfold same_stmt; repeat intro; congruence. Qed.

Lemma map_nested {B} (f : Stmt -> B) (g : Stmt -> Stmt) l :
  Forall (fun s => f (g s) = f s) l -> map f (map g l) = map f l.
Proof. induction 1 as [|s l Hs _ IH]; cbn; [done|]. by rewrite Hs, IH. Qed.

Lemma plain_map f s : plain (stmt_map f s) = plain s.
Proof.
  assert (Hl : forall l, Forall (fun s => plain (stmt_map f s) = plain s) l ->
    forallb plain (map (stmt_map f) l) = forallb plain l).
  { induction 1 as [|x l Hx _ IH]; cbn; [done|]. by rewrite Hx, IH. }
  induction s using Stmt_ind'; try done; cbn; by rewrite !Hl.
Qed.

Lemma stmt_fuel_map f s : stmt_fuel (stmt_map f s) = stmt_fuel s.
Proof. induction s using Stmt_ind'; try done; cbn; by rewrite !map_nested. Qed.

Lemma same_strip s s' : same_stmt s s' -> strip s' = strip s.
Proof. unfold same_stmt, strip. congruence. Qed.

Lemma same_plain s s' : same_stmt s s' -> plain s' = plain s.
Proof. unfold same_stmt. intros Hs. by rewrite <- (plain_map erase s'), Hs, plain_map. Qed.

Lemma same_acts s s' : same_stmt s s' -> acts_plain s' = acts_plain s.
Proof.
  intros Hs. pose proof (same_plain _ _ Hs). unfold same_stmt in Hs. destruct s, s'; try discriminate Hs; done.
Qed.

Lemma same_fuel s s' : same_stmt s s' -> stmt_fuel s' = stmt_fuel s.
Proof. unfold same_stmt. intros Hs. by rewrite <- (stmt_fuel_map erase s'), Hs, stmt_fuel_map. Qed.

(** A statement is its shape and its expressions. *)
Lemma shape_exprs_inj (s : Stmt) : forall (s' : Stmt) (r r' : list Expr), Stmt.shape s = Stmt.shape s' ->
  (stmt_exprs s ++ r = stmt_exprs s' ++ r')%list -> s = s' /\ r = r'.
Proof.
  assert (Hes : forall es es' (r r' : list Expr), map (fun _ => expr_of_bool true) es = map (fun _ => expr_of_bool true) es' ->
    (es ++ r = es' ++ r')%list -> es = es' /\ r = r').
  { intros es es' r r' Hm Ha. apply app_inj_1 in Ha; [done|]. apply (f_equal (@length _)) in Hm. by rewrite !length_map in Hm. }
  assert (Hl : forall l, Forall (fun s => forall s' r r', Stmt.shape s = Stmt.shape s' ->
      (stmt_exprs s ++ r = stmt_exprs s' ++ r')%list -> s = s' /\ r = r') l ->
    forall l' r r', map Stmt.shape l = map Stmt.shape l' ->
      (concat (map stmt_exprs l) ++ r = concat (map stmt_exprs l') ++ r')%list -> l = l' /\ r = r').
  { induction 1 as [|x l Hx _ IH]; intros [|x' l'] r r' Hs He; try done. cbn in Hs, He. injection Hs as Hs1 Hs2.
    rewrite <- !app_assoc in He. apply Hx in He as [-> He]; [|done]. by apply IH in He as [-> ->]. }
  induction s using Stmt_ind'; intros s' r r' Hsh He; destruct s'; try discriminate Hsh; cbn in Hsh, He;
    try (injection Hsh as Hsh); simplify_eq; try done;
    try (apply Hes in He as [-> ->]; [|done]; done).
  - match goal with Hc : (concat _ ++ _)%list = _ |- _ => by apply Hl in Hc as [-> ->] end.
  - match goal with Hc : ((concat _ ++ _) ++ _)%list = _ |- _ =>
      rewrite <- !app_assoc in Hc; apply Hl in Hc as [-> Hc]; [|done..]; by apply Hl in Hc as [-> ->] end.
Qed.

(** Mapping expressions by a function that adds unfoldings. *)
Lemma map_expr_same {E} (f : Expr -> outcome E Expr) s s' :
  (forall e e', f e = Val e' -> erase e' = erase e) -> fallible_map_expr f s = Val s' -> same_stmt s s'.
Proof.
  intros Hf Hs.
  destruct (run_fold_spec f (fallible_stmt_expr_substitutor f) eq_refl eq_refl ltac:(done) s tt) as [H1 H2].
  fold (fallible_map_expr f s) in H1, H2. rewrite Hs in H1. specialize (H2 _ Hs). cbn in H1. symmetry in H1.
  unfold same_stmt. refine (proj1 (shape_exprs_inj _ _ [] [] _ _)).
  - assert (Hsm : forall t, Stmt.shape (stmt_map erase t) = Stmt.shape t); [|by rewrite !Hsm].
    unfold Stmt.shape. induction t using Stmt_ind'; try done; cbn; rewrite ?map_nested by done; by rewrite ?map_map.
  - rewrite !stmt_exprs_map, !app_nil_r. revert H1. generalize (stmt_exprs s'). clear -Hf.
    induction (stmt_exprs s) as [|e es IH]; cbn; intros es' Es; [by injection Es as <-|].
    destruct (f e) as [e'| |] eqn:Ee; cbn in Es; try done. destruct (mapM f es) as [es1| |]; cbn in Es; try done.
    injection Es as <-. cbn. by rewrite (Hf _ _ Ee), (IH es1).
Qed.

Lemma strip_package lhs rhs b body body' label vars p q :
  flat_map strip body' = flat_map strip body ->
  strip (Stmt.package_magic_wand lhs rhs body' label vars p)
  = strip (Stmt.PackageMagicWand (Expr.MagicWand lhs rhs b q) body label vars p).
Proof.
  intros Hb. unfold strip in *. cbn.
  assert (Hm : forall l, flat_map drop_ghost (map (stmt_map erase) l) = flat_map (fun s => drop_ghost (stmt_map erase s)) l)
    by (induction l as [|x l IH]; cbn; [done|]; by rewrite IH).
  by rewrite !Hm, Hb.
Qed.

Lemma strip_if g t t' e e' : flat_map strip t' = flat_map strip t -> flat_map strip e' = flat_map strip e ->
  strip (Stmt.If g t' e') = strip (Stmt.If g t e).
Proof.
  intros Ht He. unfold strip in *. cbn.
  assert (Hm : forall l, flat_map drop_ghost (map (stmt_map erase) l) = flat_map (fun s => drop_ghost (stmt_map erase s)) l)
    by (induction l as [|x l IH]; cbn; [done|]; by rewrite IH).
  by rewrite !Hm, Ht, He.
Qed.

(** ** The parts of [replace_stmt] *)

Section Driver.
Context `{RegexCrate} `{Mir}.
Notation FU A := (ST (FoldUnfold * Heap) FoldUnfoldError A).

(** The pass does not assert its state. *)
Definition no_checks (s : FoldUnfold * Heap) : Prop := check_foldunfold_state (fst s) = false.

(** The computation adds ghost code only. *)
Definition ghost (m : FU (list Stmt * PathCtxt)) (kept : list Stmt) : Prop :=
  forall s out p s', no_checks s -> m s = Val ((out, p), s') -> no_checks s' /\ flat_map strip out = kept.

Lemma to_stmt_strip a stmt : Action.to_stmt a = Some stmt -> strip stmt = [].
Proof. destruct a; cbn; intros Hs; try (by injection Hs as <-). by apply fmap_Some in Hs as (? & _ & ->). Qed.

Lemma to_stmts_strip actions stmts : mapM_opt Action.to_stmt actions = Some stmts -> flat_map strip stmts = [].
Proof.
  revert stmts. induction actions as [|a l IH]; intros stmts Hs; cbn in Hs; inv_option; subst; [done|]. cbn.
  by rewrite (to_stmt_strip _ _ Hx), (IH _ Hx0).
Qed.

Lemma obtain_stmts_strip pctxt perms stmts pctxt' :
  obtain_stmts pctxt perms = Val (stmts, pctxt') -> flat_map strip stmts = [].
Proof.
  unfold obtain_stmts, stmts_of_actions. intros Ho. inv_outcome.
  match goal with Hs : mapM_opt _ _ = _ |- _ => apply to_stmts_strip in Hs end. by simplify_eq.
Qed.

Lemma perform_actions_ghost pctxt b actions : ghost (perform_actions pctxt b actions) [].
Proof.
  intros s out p s' Hs Hp. unfold perform_actions in Hp.
  refine (for_each_run (fun _ acc s => no_checks s /\ flat_map strip (fst acc) = []) _ _ _ [] _ _ _ _ _ Hp); [|done].
  intros _ [stmts q] a s1 [stmts' q'] s2 _ [H1 H2] Hf. unfold get_heap, put_heap in Hf. inv_st. simplify_eq/=.
  destruct (EventLog.log_prejoin_action _ _ _ _). inv_st. simplify_eq/=.
  split; [done|]. cbn in *. rewrite flat_map_app, H2. cbn. match goal with Ha : Action.to_stmt _ = _ |- _ => by rewrite (to_stmt_strip _ _ Ha) end.
Qed.

Lemma obtain_required_strip self stmt is_last label pctxt stmts pctxt' :
  check_foldunfold_state self = false ->
  obtain_required self stmt is_last label pctxt = Val (stmts, pctxt') -> flat_map strip stmts = [].
Proof.
  unfold obtain_required. intros Hc Ho. rewrite Hc in Ho. inv_outcome.
  match type of Ho with context [match ?l with [] => _ | _ => _ end] => destruct l end; inv_outcome; simplify_eq/=; [done|].
  match goal with Hs : obtain_stmts _ _ = Val ?r |- _ => destruct r; apply obtain_stmts_strip in Hs end.
  inv_outcome. simplify_eq/=. by rewrite app_nil_r.
Qed.

Lemma state_comments_strip state comments : state_comments state = Some comments -> flat_map strip comments = [].
Proof. unfold state_comments. intros Hc. inv_option. by subst. Qed.

Lemma rewrite_in_old_same self stmt pctxt stmt' :
  rewrite_stmt_with_unfoldings_in_old self stmt pctxt = Val stmt' -> same_stmt stmt stmt'.
Proof. apply map_expr_same. intros e e'. apply replace_with_added. Qed.

Lemma rewrite_same self stmt pctxt stmt' :
  rewrite_stmt_with_unfoldings self stmt pctxt = Val stmt' -> same_stmt stmt stmt'.
Proof.
  destruct stmt; try (by apply map_expr_same; intros e e'; apply replace_with_added);
    intros Hr; cbn in Hr; inv_outcome; subst; unfold same_stmt; cbn.
  - match goal with Hr : replace_expr _ _ _ = _ |- _ => apply replace_with_added in Hr end. congruence.
  - match goal with Hr : replace_old_expr _ _ _ = _ |- _ => apply replace_with_added in Hr end.
    destruct unchecked; [by simplify_eq; congruence|].
    match goal with Hr : replace_expr _ _ _ = _ |- _ => apply replace_with_added in Hr end. congruence.
  - match goal with Hr : replace_expr _ _ _ = _ |- _ => apply replace_with_added in Hr end. congruence.
Qed.

Section Step.
Context (k : nat) (b : CfgBlockIndex) (new_cfg : CfgMethod).
Context (rec : nat -> Stmt -> bool -> PathCtxt -> option string -> FU (list Stmt * PathCtxt)).
Context (Hrec : forall i stmt last p label, plain stmt = true -> ghost (rec i stmt last p label) (strip stmt)).

Lemma replace_stmts_ghost label pctxt stmts :
  forallb plain stmts = true -> ghost (replace_stmts k rec label pctxt stmts) (flat_map strip stmts).
Proof.
  intros Hp s out p s' Hs Hr. unfold replace_stmts in Hr.
  refine (for_each_run (fun seen acc s => no_checks s /\ flat_map strip (fst acc) = flat_map strip seen) _ _ _ [] _ _ _ _ _ Hr); [|done].
  intros seen [stmts0 q] x s1 [stmts1 q'] s2 Hx [H1 H2] Hf. inv_st. simplify_eq/=.
  rewrite forallb_forall in Hp. apply list_elem_of_In, Hp in Hx.
  match goal with He : rec _ _ _ _ _ _ = Val (?r, _) |- _ => destruct r; apply Hrec in He as [H3 H4]; [|done..] end.
  split; [done|]. cbn. rewrite !flat_map_app, H2, H4. cbn. by rewrite app_nil_r.
Qed.

Lemma store_lhs_checks stmt pctxt s s' u : no_checks s -> store_lhs stmt pctxt s = Val (u, s') -> no_checks s'.
Proof. unfold store_lhs, set_label, modify_self. intros Hs Hl. destruct (wand_lhs_of stmt); inv_st; by simplify_eq. Qed.

Lemma store_label_checks stmt pctxt s s' u : no_checks s -> store_label stmt pctxt s = Val (u, s') -> no_checks s'.
Proof. unfold store_label, set_label, modify_self. intros Hs Hl. destruct stmt; inv_st; by simplify_eq. Qed.

Lemma replace_package_strip stmt pctxt s stmt' s' :
  plain stmt = true -> no_checks s -> replace_package k rec stmt pctxt s = Val (stmt', s') ->
  no_checks s' /\ strip stmt' = strip stmt /\ acts_plain stmt' = true.
Proof.
  intros Hp Hs Hr. destruct stmt; cbn in Hr; inv_st; try (split; [done|split; [done|by apply plain_acts]]).
  destruct wand; inv_st; try (split; [done|split; [done|by apply plain_acts]]).
  match goal with H : replace_stmts _ _ _ _ _ _ = Val (?r, _) |- _ =>
    destruct r; apply replace_stmts_ghost in H as [H1 H2]; [|done..] end.
  split; [done|]. split; [by apply strip_package|done].
Qed.

Lemma plain_no_borrow self s p : plain s = true -> shared_borrow self s p = Val ([], p).
Proof. destruct s as [| | | | | |? ? []| | | | | | | | | | |]; done. Qed.

Lemma replace_effect_strip stmt pctxt s stmt' p s' :
  acts_plain stmt = true -> no_checks s -> replace_effect k b rec stmt pctxt s = Val ((stmt', p), s') ->
  no_checks s' /\ strip stmt' = strip stmt /\ forall self p, shared_borrow self stmt' p = Val ([], p).
Proof.
  intros Hp Hs Hr.
  destruct stmt; cbn in Hr; inv_st; try (split; [done|split; [done|intros self q; first [done|by apply plain_no_borrow]]]).
  cbn in Hp. apply andb_true_iff in Hp as [Hp1 Hp2].
  repeat match goal with
  | H : replace_stmts _ _ _ _ _ ?s = Val (?r, _), Hs : no_checks ?s |- _ =>
      destruct r; apply replace_stmts_ghost in H as [? ?]; [|done..]
  | H : perform_actions _ _ _ ?s = Val (?r, _), Hs : no_checks ?s |- _ =>
      destruct r; apply perform_actions_ghost in H as [? ?]; [|done..]
  end.
  split; [done|]. split; [|done]. cbn.
  apply strip_if; rewrite flat_map_app; match goal with H : flat_map strip ?l = [] |- context [?l] => rewrite H end;
    by rewrite app_nil_r.
Qed.

Lemma recombine_ghost stmt label pctxt : ghost (recombine k rec stmt label pctxt) [].
Proof.
  intros s out p s' Hs Hr. destruct stmt; cbn in Hr; inv_st; try done.
  refine (for_each_run (fun _ acc s => no_checks s /\ flat_map strip (fst acc) = []) _ _ _ [] _ _ _ _ _ Hr); [|done].
  intros _ [stmts0 q] y s1 [stmts1 q'] s2 _ [H1 H2] Hf. inv_st. simplify_eq/=.
  match goal with He : rec _ _ _ _ _ _ = Val (?r, _) |- _ => destruct r; apply Hrec in He as [H3 H4]; [|done..] end.
  split; [done|]. cbn. by rewrite flat_map_app, H2, H4.
Qed.

Lemma forget_lhs_checks s s' u : no_checks s -> forget_lhs s = Val (u, s') -> no_checks s'.
Proof. unfold forget_lhs, modify_self. intros Hs Hl. by simplify_eq. Qed.

Lemma ordinary_stmt_ghost stmt last pctxt label :
  plain stmt = true -> ghost (replace_ordinary_stmt k b rec stmt last pctxt label) (strip stmt).
Proof.
  intros Hp s out p s' Hs Hr. unfold replace_ordinary_stmt, get_self in Hr. inv_st. simplify_eq/=.
  rename Hx into Hlhs, Hx4 into Hcomments, Hx3 into Hold, Hx2 into Hpackage, Hx8 into Hnew, Hx7 into Heffect,
    Hx6 into Hrecombine, Hx10 into Hshared, Hx9 into Hlabel, Hx11 into Hforget, Hx1 into Hobtain.
  apply store_lhs_checks in Hlhs; [|done]. apply rewrite_in_old_same in Hold. apply obtain_required_strip in Hobtain; [|done].
  apply replace_package_strip in Hpackage as (H1 & H2 & H3); [|by rewrite (same_plain _ _ Hold)|done].
  apply rewrite_same in Hnew.
  apply replace_effect_strip in Heffect as (H4 & H5 & H6); [|by rewrite (same_acts _ _ Hnew)|done].
  destruct x5 as [more q]. apply recombine_ghost in Hrecombine as [H7 H8]; [|done].
  rewrite H6 in Hshared. simplify_eq/=.
  apply store_label_checks in Hlabel; [|done]. apply forget_lhs_checks in Hforget; [|done]. split; [done|].
  rewrite !flat_map_app, Hobtain. cbn. rewrite flat_map_app, H8, H5, (same_strip _ _ Hnew), H2, (same_strip _ _ Hold), app_nil_r.
  replace (flat_map strip x4) with (@nil Stmt); [done|]. symmetry.
  destruct (_ && _); [by eapply state_comments_strip|by simplify_eq].
Qed.

Lemma replace_stmt_step_ghost stmt last pctxt label :
  plain stmt = true -> ghost (replace_stmt_step k b new_cfg rec stmt last pctxt label) (strip stmt).
Proof.
  intros Hp. pose proof (ordinary_stmt_ghost stmt last pctxt label Hp). by destruct stmt.
Qed.
End Step.

Lemma replace_stmt_fuel_ghost fuel b new_cfg : forall i stmt last p label, plain stmt = true ->
  ghost (replace_stmt_fuel fuel b new_cfg i stmt last p label) (strip stmt).
Proof. induction fuel as [|fuel IH]; [by intros|]. intros i stmt last p label. by apply replace_stmt_step_ghost. Qed.

(** ** Successors *)

(** The kind of a successor, with its guards without unfoldings. *)
Definition guards (succ : Successor) : option (option (list Expr)) :=
  match succ with
  | Successor.Undefined => None
  | Successor.Return => Some None
  | Successor.Goto _ => Some (Some [])
  | Successor.GotoSwitch guarded_targets _ => Some (Some (map (fun gt => erase (fst gt)) guarded_targets))
  end.

Lemma replace_succ_guards self pctxt succ succ' : replace_succ self pctxt succ = Val succ' -> guards succ' = guards succ.
Proof.
  destruct succ as [| | |ts d]; cbn [replace_succ]; intros Hs; try (by injection Hs as <-). inv_outcome. subst.
  unfold guards. do 2 f_equal.
  apply (mapM_outcome_Forall2 _ (fun gt gt' => erase (fst gt') = erase (fst gt))) in Hx.
  - induction Hx as [|? ? ? ? He _ IH]; [done|]. cbn. by rewrite He, IH.
  - intros [e t] [e' t'] He. unfold replace_expr in He. inv_outcome. simplify_eq/=. by eapply replace_with_added.
Qed.

Lemma replace_successor_ghost self succ pctxt out succ' p :
  check_foldunfold_state self = false -> replace_successor_of_method self succ pctxt = Val (out, succ', p) ->
  flat_map strip out = [] /\ guards succ' = guards succ.
Proof.
  intros Hc Hr. unfold replace_successor_of_method in Hr. inv_outcome. destruct x0 as [[stmts q] required].
  rewrite Hc, andb_false_r in Hr. inv_outcome. simplify_eq/=. split; [|by eapply replace_succ_guards].
  rewrite app_nil_r. revert Hx0.
  match goal with |- foldM ?f ?s0 ?l = _ -> _ => intros Hx0;
    refine (foldM_inv (fun acc => flat_map strip (fst (fst acc)) = []) f l _ s0 (stmts, p, required) eq_refl Hx0) end.
  intros [[ss p0] r] [[label|] perms] acc' _ Hss Hf; [by injection Hf as <-|].
  destruct perms; [by injection Hf as <-|]. inv_outcome. subst. cbn in *. rewrite flat_map_app, Hss.
  match goal with Ho : obtain_stmts _ _ = Val ?x |- _ => destruct x; by apply obtain_stmts_strip in Ho end.
Qed.

(** ** The recursion of [replace_stmt] *)

(** The nodes of the graph do not change. *)
Definition nodes_of (cfg : ExpireCfg) : list (DAG.Node Stmt) := map block_node (expire_blocks cfg).

Lemma extend_block_nodes cfg i l : nodes_of (extend_block cfg i l) = nodes_of cfg.
Proof.
  unfold nodes_of. cbn. apply list_eq. intros k. rewrite !list_lookup_fmap.
  destruct (decide (k = i)) as [->|]; [rewrite list_lookup_alter_eq|by rewrite list_lookup_alter_ne].
  by destruct (expire_blocks cfg !! i).
Qed.

Lemma build_initial_nodes dag cfg : build_initial_cfg dag = Some cfg -> nodes_of cfg = DAG.nodes dag.
Proof.
  unfold build_initial_cfg. intros Hb. inv_option. subst. unfold nodes_of.
  assert (Hadd : forall l c, expire_blocks (foldl expire_add_block c l) = (expire_blocks c ++ l)%list).
  { induction l as [|y l IH]; intros c; cbn; [by rewrite app_nil_r|]. rewrite IH. cbn. by rewrite <- app_assoc. }
  rewrite Hadd. cbn. unfold DAG.iter in Hx. revert x Hx.
  induction (DAG.nodes dag) as [|y l IH]; intros bs Hl; cbn in Hl; inv_option; subst; [done|]. cbn.
  rewrite (IH _ Hx0). unfold expire_block_of in Hx. inv_option. by subst.
Qed.

Lemma incoming_pctxt_nodes self heap dag sp sb new_cfg i node final acc pred acc' :
  incoming_pctxt self heap dag sp sb new_cfg i node final acc pred = Val acc' -> nodes_of (fst acc') = nodes_of (fst acc).
Proof.
  destruct acc as [cfg l]. intros Hi. cbn in Hi. inv_outcome.
  match type of Hi with (if ?c then _ else _) = _ => destruct c end; [by simplify_eq|]. inv_outcome.
  match type of Hi with (match ?r with pair _ _ => _ end) = _ => destruct r as [[|] ?] end; by simplify_eq.
Qed.

Lemma merge_actions_nodes dag add acc edge acc' :
  (forall cfg i l, nodes_of (add cfg i l) = nodes_of cfg) ->
  merge_actions dag add acc edge = Val acc' -> nodes_of (fst acc') = nodes_of (fst acc).
Proof.
  intros Hadd. destruct acc as [cfg p], edge as [src [|a l]]; cbn -[foldM]; intros Hm; [by simplify_eq|]. inv_outcome. subst. apply Hadd.
Qed.

Lemma construct_initial_nodes self heap dag cfg sp sb new_cfg i final cfg' p l :
  construct_initial_pctxt self heap dag cfg sp sb new_cfg i final = Val (cfg', p, l) -> nodes_of cfg' = nodes_of cfg.
Proof.
  unfold construct_initial_pctxt, construct_initial_pctxt_with_predecessors. intros Hc. inv_outcome.
  match type of Hc with (match ?l with [] => _ | _ => _ end) = _ => destruct l eqn:? end; inv_outcome; simplify_eq; [done|].
  match goal with Hf : foldM (incoming_pctxt _ _ _ _ _ _ _ _ _) _ _ = Val ?r |- _ =>
    destruct r as [cfg1 ps]; apply (foldM_inv (fun acc => nodes_of (fst acc) = nodes_of cfg)) in Hf as H1;
      [|intros ? ? ? _ <- ?; by eapply incoming_pctxt_nodes|done] end.
  inv_outcome. match goal with Hj : prepend_join_pctxts _ = Val ?r |- _ => destruct r as [actions q] end.
  match goal with Hf : foldM (fun _ _ => assert_o _ ≫= _) _ _ = Val _ |- _ =>
    apply (foldM_inv (fun acc => nodes_of (fst acc) = nodes_of cfg)) in Hf; [done| |done] end.
  intros acc e acc' _ <- Hm. inv_outcome. by eapply merge_actions_nodes in Hm.
Qed.
(** Two recursive calls that agree on the statements of fuel at most [fuel]. *)
Section Agree.
Context (fuel i : nat) (b : CfgBlockIndex) (new_cfg : CfgMethod).
Context (rec1 rec2 : nat -> Stmt -> bool -> PathCtxt -> option string -> FU (list Stmt * PathCtxt)).
Context (Hrec : forall i stmt last p label s,
  stmt_fuel stmt <= fuel -> rec1 i stmt last p label s = rec2 i stmt last p label s).

Definition all_below (l : list Stmt) : Prop := Forall (fun stmt => stmt_fuel stmt <= fuel) l.

Lemma all_below_max l : list_max (map stmt_fuel l) <= fuel <-> all_below l.
Proof. by rewrite list_max_le, Forall_map. Qed.

Lemma loop_agree {X} (f : X -> nat * Stmt) l label (acc : list Stmt * PathCtxt) s :
  Forall (fun x => stmt_fuel (snd (f x)) <= fuel) l ->
  for_each (fun acc x => r ← rec1 (fst (f x)) (snd (f x)) false (snd acc) label; mret ((fst acc ++ fst r)%list, snd r)) acc l s
  = for_each (fun acc x => r ← rec2 (fst (f x)) (snd (f x)) false (snd acc) label; mret ((fst acc ++ fst r)%list, snd r)) acc l s.
Proof.
  intros Hl. apply (for_each_ext (fun _ => True)); [|done..]. intros acc1 x s1 Hx _.
  apply st_bind_ext; [|done]. apply Hrec. rewrite Forall_forall in Hl. by apply Hl.
Qed.

Lemma replace_stmts_agree label p l s : all_below l -> replace_stmts i rec1 label p l s = replace_stmts i rec2 label p l s.
Proof. intros Hl. exact (loop_agree (fun x => (i, x)) l label _ s Hl). Qed.

(** What the parts of [replace_stmt] run. *)
Definition parts_below (stmt : Stmt) : Prop :=
  match stmt with
  | Stmt.If _ then_stmts else_stmts => all_below then_stmts /\ all_below else_stmts
  | Stmt.Inhale _ => 1 <= fuel
  | _ => True
  end.

Lemma fuel_parts stmt : stmt_fuel stmt <= Datatypes.S fuel -> parts_below stmt.
Proof. destruct stmt; cbn; try done; [lia|]. intros Hf. split; apply all_below_max; lia. Qed.

Lemma same_parts s s' : same_stmt s s' -> parts_below s -> parts_below s'.
Proof.
  assert (Hl : forall l l', map (stmt_map erase) l' = map (stmt_map erase) l -> all_below l -> all_below l').
  { intros l l' Hm. rewrite <- !all_below_max. apply (f_equal (map stmt_fuel)) in Hm. rewrite !map_map in Hm.
    assert (Hf : forall l, map (fun s => stmt_fuel (stmt_map erase s)) l = map stmt_fuel l)
      by (intros; apply map_ext; intros; apply stmt_fuel_map).
    by rewrite <- Hf, <- Hm, Hf. }
  intros Hs. destruct s, s'; try discriminate Hs; try done. unfold same_stmt in Hs. cbn in *. injection Hs as _ Ht He.
  intros [H1 H2]. split; by eapply Hl.
Qed.

Lemma replace_package_agree stmt p s : stmt_fuel stmt <= Datatypes.S fuel ->
  replace_package i rec1 stmt p s = replace_package i rec2 stmt p s.
Proof.
  destruct stmt; try done. intros Hf. cbn. destruct wand; try done. apply st_bind_ext; [|done].
  apply replace_stmts_agree, all_below_max. cbn in Hf. lia.
Qed.

Lemma replace_package_parts stmt p s stmt' s' :
  parts_below stmt -> replace_package i rec1 stmt p s = Val (stmt', s') -> parts_below stmt'.
Proof. destruct stmt; intros Hp Hr; cbn in Hr; inv_st; try done. destruct wand; by inv_st. Qed.

Lemma replace_effect_agree stmt p s : parts_below stmt -> replace_effect i b rec1 stmt p s = replace_effect i b rec2 stmt p s.
Proof.
  destruct stmt; try done. intros [H1 H2]. cbn. apply st_bind_ext; [by apply replace_stmts_agree|]. intros r1 s1 _.
  apply st_bind_ext; [by apply replace_stmts_agree|done].
Qed.

Lemma replace_effect_parts stmt p s stmt' p' s' :
  parts_below stmt -> replace_effect i b rec1 stmt p s = Val ((stmt', p'), s') ->
  match stmt' with Stmt.Inhale _ => 1 <= fuel | _ => True end.
Proof. destruct stmt; intros Hp Hr; cbn in Hr; by inv_st. Qed.

Lemma recombine_agree stmt label p s : match stmt with Stmt.Inhale _ => 1 <= fuel | _ => True end ->
  recombine i rec1 stmt label p s = recombine i rec2 stmt label p s.
Proof.
  destruct stmt; try done. intros Hf. apply st_bind_ext; [done|]. intros places s1 _.
  apply (for_each_ext (fun _ => True)); [|done..]. intros acc x s2 _ _.
  apply st_bind_ext; [done|]. intros o s3 _. apply st_bind_ext; [done|]. intros e s4 _.
  apply st_bind_ext; [by apply Hrec|done].
Qed.

Lemma ordinary_agree stmt last p label s : stmt_fuel stmt <= Datatypes.S fuel ->
  replace_ordinary_stmt i b rec1 stmt last p label s = replace_ordinary_stmt i b rec2 stmt last p label s.
Proof.
  intros Hf. unfold replace_ordinary_stmt.
  apply st_bind_ext; [done|]. intros _ s1 _. apply st_bind_ext; [done|]. intros self1 s2 _.
  apply st_bind_ext; [done|]. intros comments s3 _. apply st_bind_ext; [done|]. intros ? s4 (stmt1 & Hsame & [= -> ->])%lift_o_val.
  apply rewrite_in_old_same in Hsame.
  assert (Hf1 : stmt_fuel stmt1 <= Datatypes.S fuel) by by rewrite (same_fuel _ _ Hsame).
  apply st_bind_ext; [done|]. intros [stmts1 p1] s5 _.
  apply st_bind_ext; [by apply replace_package_agree|]. intros stmt2 s6 Hs2.
  apply replace_package_parts in Hs2; [|by apply fuel_parts].
  apply st_bind_ext; [done|]. intros self2 s7 _. apply st_bind_ext; [done|]. intros ? s8 (stmt3 & Hnew & [= -> ->])%lift_o_val.
  apply rewrite_same, same_parts in Hnew; [|done].
  apply st_bind_ext; [by apply replace_effect_agree|]. intros [stmt4 p2] s9 Hs4.
  apply replace_effect_parts in Hs4; [|done]. by apply st_bind_ext; [apply recombine_agree|].
Qed.

Lemma process_node_agree sp blk label p s :
  1 <= fuel -> all_below (DAG.stmts (block_node blk)) ->
  process_node rec1 sp blk label p s = process_node rec2 sp blk label p s.
Proof.
  intros Hf Hl. unfold process_node.
  apply st_bind_ext.
  { apply (loop_agree id). apply Forall_forall. intros [j x] Hx. unfold enumerate in Hx.
    apply elem_of_zip_r in Hx. exact (proj1 (Forall_forall _ _) Hl _ Hx). }
  intros acc s1 _. apply st_bind_ext; [done|]. intros dups s2 _. apply st_bind_ext; [done|]. intros self s3 _.
  apply st_bind_ext; [|done]. apply (for_each_ext (fun _ => True)); [|done..]. intros acc1 x s4 _ _.
  apply st_bind_ext; [done|]. intros e s5 _. by apply st_bind_ext; [apply Hrec|].
Qed.

Lemma process_block_agree dag sp label acc index s :
  1 <= fuel -> Forall (fun node => all_below (DAG.stmts node)) (nodes_of (fst acc)) ->
  process_block b new_cfg rec1 dag sp label acc index s = process_block b new_cfg rec2 dag sp label acc index s.
Proof.
  intros Hf Hn. destruct acc as [cfg final]. unfold process_block.
  apply st_bind_ext; [done|]. intros self s1 _. apply st_bind_ext; [done|]. intros heap s2 _.
  apply st_bind_ext; [done|]. intros ? s3 ([[cfg1 p1] l1] & Hc & [= -> ->])%lift_o_val.
  apply construct_initial_nodes in Hc. apply st_bind_ext; [done|]. intros ? s4 (blk & Hblk & [= -> ->])%lift_val.
  apply st_bind_ext; [|done]. apply process_node_agree; [done|]. revert Hn. cbn. rewrite <- Hc, <- (extend_block_nodes _ index l1).
  rewrite Forall_lookup. intros Hn. apply (Hn index (block_node blk)). unfold nodes_of. by rewrite list_lookup_fmap, Hblk.
Qed.

Lemma process_block_nodes dag sp label acc index s acc' s' :
  process_block b new_cfg rec1 dag sp label acc index s = Val (acc', s') -> nodes_of (fst acc') = nodes_of (fst acc).
Proof.
  destruct acc as [cfg final]. unfold process_block. intros Hb. inv_st.
  match goal with Hc : construct_initial_pctxt _ _ _ _ _ _ _ _ _ = _ |- _ => apply construct_initial_nodes in Hc end.
  cbn [fst]. by rewrite !extend_block_nodes.
Qed.

Lemma process_expire_agree dag p label s :
  1 <= fuel -> Forall (fun node => all_below (DAG.stmts node)) (DAG.nodes dag) ->
  process_expire_borrows b new_cfg rec1 dag p label s = process_expire_borrows b new_cfg rec2 dag p label s.
Proof.
  intros Hf Hn. unfold process_expire_borrows.
  apply st_bind_ext; [done|]. intros ? s1 (cfg & Hc & [= -> ->])%lift_val. apply build_initial_nodes in Hc.
  apply st_bind_ext; [|done].
  apply (for_each_ext (fun acc => nodes_of (fst acc) = DAG.nodes dag)); [| |done].
  - intros acc index s2 _ Hacc. apply process_block_agree; [done|]. by rewrite Hacc.
  - intros acc index s2 acc' s3 _ <- Hb. by eapply process_block_nodes.
Qed.

Lemma replace_stmt_step_agree stmt last p label s : stmt_fuel stmt <= Datatypes.S fuel ->
  replace_stmt_step i b new_cfg rec1 stmt last p label s = replace_stmt_step i b new_cfg rec2 stmt last p label s.
Proof.
  intros Hf. destruct stmt; try (by apply ordinary_agree).
  apply st_bind_ext; [done|]. intros text s1 _. apply st_bind_ext; [|done]. cbn in Hf.
  apply process_expire_agree; [lia|].
  assert (Hl : list_max (map (fun node => list_max (map stmt_fuel (DAG.stmts node))) (DAG.nodes dag)) <= fuel) by lia.
  apply list_max_le, Forall_map in Hl. eapply Forall_impl; [exact Hl|]. intros node. apply all_below_max.
Qed.
End Agree.

Lemma enough_fuel n : forall m b new_cfg i stmt last p label s, stmt_fuel stmt <= n -> stmt_fuel stmt <= m ->
  replace_stmt_fuel n b new_cfg i stmt last p label s = replace_stmt_fuel m b new_cfg i stmt last p label s.
Proof.
  assert (Hpos : forall stmt, 1 <= stmt_fuel stmt) by (intros []; cbn; lia).
  induction n as [|n IH]; intros [|m] b new_cfg i stmt last p label s Hn Hm; try (specialize (Hpos stmt); lia).
  set (k := pred (stmt_fuel stmt)). assert (Hk : stmt_fuel stmt = Datatypes.S k) by (specialize (Hpos stmt); unfold k; lia).
  cbn [replace_stmt_fuel]. apply (replace_stmt_step_agree k); [|lia].
  intros i1 stmt1 last1 p1 label1 s1 Hk1. apply IH; lia.
Qed.

(** The recursion equation of the code. *)
Theorem replace_stmt_equation (i : nat) (stmt : Stmt) (last : bool) (p : PathCtxt) (b : CfgBlockIndex) (new_cfg : CfgMethod)
    (label : option string) (s : FoldUnfold * Heap) :
  replace_stmt_of_method i stmt last p b new_cfg label s
  = replace_stmt_step i b new_cfg
      (fun i stmt last p label => replace_stmt_of_method i stmt last p b new_cfg label) stmt last p label s.
Proof.
  unfold replace_stmt_of_method.
  transitivity (replace_stmt_fuel (Datatypes.S (stmt_fuel stmt)) b new_cfg i stmt last p label s); [apply enough_fuel; lia|].
  cbn [replace_stmt_fuel]. apply (replace_stmt_step_agree (stmt_fuel stmt)); [|lia].
  intros. by apply enough_fuel.
Qed.

(** ** Joins *)

Lemma prepend_join_more n : forall m bcs, length bcs <= n -> length bcs <= m ->
  prepend_join_fuel n bcs = prepend_join_fuel m bcs.
Proof.
  induction n as [|n IH]; intros m [|bc bcs] Hn Hm; cbn in Hn; try lia; [by destruct m|by destruct m|].
  destruct m as [|m]; cbn in Hm; [lia|]. destruct bcs as [|bc' bcs]; [done|].
  cbn [prepend_join_fuel]. set (l := bc :: bc' :: bcs).
  assert (Hl : 0 < length l / 2 /\ length l / 2 < length l).
  { split; [apply Nat.div_str_pos; cbn; lia|apply Nat.div_lt; cbn; lia]. }
  assert (Hlen : length l = length bcs + 2) by (cbn; lia). cbn in Hn, Hm.
  rewrite (IH m (take _ l)), (IH m (drop _ l)); [done|rewrite ?length_take, ?length_drop; lia..].
Qed.

Theorem prepend_join_splits (bcs : list PathCtxt) :
  (forall actions p, prepend_join_pctxts bcs = Val (actions, p) -> length actions = length bcs)
  /\ (1 < length bcs ->
      prepend_join_pctxts bcs =
      (l ← prepend_join_pctxts (take (length bcs / 2) bcs);
       r ← prepend_join_pctxts (drop (length bcs / 2) bcs);
       joined ← join (snd l) (snd r);
       let '(merged_pctxt, merge_actions_left, merge_actions_right) := joined in
       Val (map (fun a => a ++ merge_actions_left)%list (fst l)
              ++ map (fun a => a ++ merge_actions_right)%list (fst r), merged_pctxt)%list)).
Proof.
  split.
  - unfold prepend_join_pctxts. generalize (length bcs) at 1 as n. intros n. revert bcs.
    induction n as [|n IH]; intros [|bc [|bc' bcs]] actions p Ha; cbn -[Nat.div take drop] in Ha; try done; [by simplify_eq|].
    inv_outcome. destruct x as [al pl], x0 as [ar pr], x1 as [[pm ml] mr]. cbn in Ha. simplify_eq.
    rewrite length_app, !length_map. 
    match goal with Hl : prepend_join_fuel _ (take _ _) = _ |- _ => apply IH in Hl as -> end.
    match goal with Hl : prepend_join_fuel _ (drop _ _) = _ |- _ => apply IH in Hl as -> end.
    by rewrite <- length_app, take_drop.
  - intros Hl. unfold prepend_join_pctxts at 1. destruct bcs as [|bc [|bc' bcs]]; cbn in Hl; try lia.
    change (length (bc :: bc' :: bcs)) with (Datatypes.S (length (bc' :: bcs))) at 1. cbn [prepend_join_fuel].
    set (l := bc :: bc' :: bcs). set (k := length l / 2).
    assert (Hk : 0 < k /\ k < length l).
    { unfold k. split; [apply Nat.div_str_pos; cbn; lia|apply Nat.div_lt; cbn; lia]. }
    unfold prepend_join_pctxts. cbn [length] in Hk.
    rewrite (prepend_join_more (length (bc' :: bcs)) (length (take k l)) (take k l)); [|rewrite length_take; cbn in *; lia..].
    by rewrite (prepend_join_more (length (bc' :: bcs)) (length (drop k l)) (drop k l)); [|rewrite length_drop; cbn in *; lia..].
Qed.

(** ** The pass *)

#[export] Instance fold_unfold_meaning : Meaning strip guards.
Proof.
  split; [done| |].
  - intros [] u; try done. cbn. by rewrite map_map.
  - intros succ a b succ' Hr. unfold Successor.replace_target in Hr. inv_option. subst. destruct succ; try done.
    cbn. by rewrite map_map.
Qed.

#[export] Instance fold_unfold_keeps_meaning :
  KeepsMeaning strip guards no_checks (fun s => plain s = true).
Proof.
  split.
  - intros s p s' Hs Hi. cbn in Hi. unfold get_self in Hi. inv_st. by simplify_eq.
  - intros i stmt last p b m label s out p' s' Hs Hp Hr. exact (replace_stmt_fuel_ghost _ _ _ _ _ _ _ _ Hp _ _ _ _ Hs Hr).
  - intros succ p s out succ' p' s' Hs Hr. cbn in Hr. unfold get_self in Hr. inv_st. simplify_eq/=.
    match goal with Ho : replace_successor_of_method _ _ _ = _ |- _ => by apply replace_successor_ghost in Ho end.
  - intros ps s r s' Hs Hr. cbn in Hr. inv_st. by simplify_eq.
  - intros p b a s out p' s' Hs Hr. exact (perform_actions_ghost _ _ _ _ _ _ _ Hs Hr).
Qed.
End Driver.

(** C36. The fold-unfold pass adds ghost code only, with `check_foldunfold_state` off, as it is
    by default: when it succeeds on a method without borrows, every block of the result is the
    old block once folds, unfolds, obtains, comments and the unfoldings in expressions are
    removed, its guards are the old ones, the blocks it adds on edges are ghost code that ends
    with a jump, and the paths between the old blocks are the same. *)
Theorem add_fold_unfold_adds_ghost_code `{RegexCrate} `{Mir} (new_uuid : Uuid) (predicates : Predicates) (dump : bool)
    (cfg m : CfgMethod) (borrow_locations : HashMap.t Borrow Location)
    (cfg_map : HashMap.t BasicBlock (HashSet.t CfgBlockIndex)) (method_pos : Position) :
  targets_ok cfg ->
  (forall b, b ∈ CfgMethod.basic_blocks cfg -> Forall (fun s => plain s = true) (CfgMethod.stmts b)) ->
  add_fold_unfold new_uuid predicates false dump cfg borrow_locations cfg_map method_pos = Val m ->
  (forall i b, CfgMethod.basic_blocks m !! i = Some b ->
     match CfgMethod.basic_blocks cfg !! i with
     | Some old =>
         flat_map strip (CfgMethod.stmts b) = flat_map strip (CfgMethod.stmts old)
         /\ guards (CfgMethod.successor b) = guards (CfgMethod.successor old)
     | None =>
         flat_map strip (CfgMethod.stmts b) = []
         /\ exists j, j < length (CfgMethod.basic_blocks cfg)
                      /\ CfgMethod.successor b = Successor.Goto (CfgMethod.index_block m j)
     end)
  /\ (forall i j, i < length (CfgMethod.basic_blocks cfg) -> j < length (CfgMethod.basic_blocks cfg) ->
        rtc (edge m) i j <-> rtc (edge cfg) i j).
Proof.
  intros Ht Hp Ha. unfold add_fold_unfold in Ha. inv_outcome. destruct x0 as [m1 s]. subst. cbn.
  match goal with Hr : replace_cfg _ _ _ = _ |- _ => rename Hr into Hrun end.
  epose proof (fun Hok => replace_cfg_contents strip guards no_checks _ _ _ _ _ _ Ht Hp Hok Hrun) as Hc.
  destruct (Hc eq_refl) as [_ Hc']. clear Hc. rename Hc' into Hc.
  destruct (replace_cfg_shape _ _ _ _ _ Ht Hrun) as [Hsig Hsh]. split; [|by apply paths_kept with (u := new_uuid)].
  intros i b Hb. specialize (Hc _ _ Hb). destruct (CfgMethod.basic_blocks cfg !! i) as [old|] eqn:Ho; [done|].
  split; [done|]. apply lookup_ge_None in Ho.
  destruct (sh_edges _ _ _ _ _ Hsh i (CfgMethod.successor b) Ho) as (j & Hj & Hs); [by rewrite succs_lookup, Hb|].
  exists j. split; [done|]. unfold CfgMethod.index_block. by injection Hsig as -> _.
Qed.

(** ** An example *)

Import MiniRegex.

#[local] Instance nat_mir : Mir := {| BasicBlock := nat; Location := nat; location_block := id |}.

Definition pair_x : Expr := Expr.PredicateAccessPredicate "Pair" local_x PermAmount.Write Position.default.

(** Inhale [Pair(x)]; on one branch assign [x.f]; exhale [Pair(x)]. *)
Definition pair_method : CfgMethod :=
  let blk i := CfgBlockIndex.make 7%Z i in
  CfgMethod.make 7%Z "m" 0 [] [LocalVar.new "x" (Ty.TypedRef "Pair")] [] []
    [ CfgMethod.make_block [Stmt.Inhale pair_x] (Successor.GotoSwitch [(expr_of_bool true, blk 1)] (blk 2));
      CfgMethod.make_block [Stmt.Assign x_f_val (expr_of_i32 1) AssignKind.Copy] (Successor.Goto (blk 3));
      CfgMethod.make_block [Stmt.Comment "nothing"] (Successor.Goto (blk 3));
      CfgMethod.make_block [Stmt.Assert (Ex.eq_cmp x_f_val (expr_of_i32 0)) Position.default;
                            Stmt.Exhale pair_x Position.default] Successor.Return ]
    ["start"; "one"; "other"; "end"] 0%Z 0%Z.

(** The pass unfolds [x] where it is assigned, unfolds it on the edge from
    the other branch, and folds it before the exhale. *)
Lemma add_fold_unfold_adds_ghost_code_witness :
  exists m, add_fold_unfold 9%Z pair_predicates false false pair_method [] [] Position.default = Val m
    /\ map (fun b => length (CfgMethod.stmts b)) (CfgMethod.basic_blocks m) = [1; 3; 1; 4; 3]
    /\ (forall b, CfgMethod.basic_blocks m !! 1 = Some b ->
          flat_map strip (CfgMethod.stmts b) = [Stmt.Assign x_f_val (expr_of_i32 1) AssignKind.Copy]).
Proof.
  destruct (add_fold_unfold 9%Z pair_predicates false false pair_method [] [] Position.default) as [m| |] eqn:Ea;
    [|vm_compute in Ea; discriminate Ea..].
  exists m. split; [reflexivity|]. split; [vm_compute in Ea; injection Ea as <-; reflexivity|].
  assert (Ht : targets_ok pair_method) by (apply targets_okb_ok; reflexivity).
  assert (Hp : forall b, b ∈ CfgMethod.basic_blocks pair_method -> Forall (fun s => plain s = true) (CfgMethod.stmts b)).
  { apply Forall_forall. repeat constructor. }
  intros b Hb.
  exact (proj1 (proj1 (add_fold_unfold_adds_ghost_code 9%Z _ false _ m _ _ _ Ht Hp Ea) 1 b Hb)).
Defined.

(** Joining [x] folded with [x] unfolded: one list of actions per branch. *)
Lemma prepend_join_splits_witness :
  exists bcs actions p, length bcs = 3 /\ prepend_join_pctxts bcs = Val (actions, p) /\ length actions = 3.
Proof.
  set (c s := PathCtxt.make s pair_predicates [] EventLog.new).
  set (unfolded := State.new [(local_x, PermAmount.Write); (x_f, PermAmount.Write)] [(x_f, PermAmount.Write)] []).
  destruct (prepend_join_pctxts [c folded_x; c unfolded; c folded_x]) as [[actions p]| |] eqn:E;
    [|vm_compute in E; discriminate E..].
  exists [c folded_x; c unfolded; c folded_x], actions, p. split; [reflexivity|]. split; [exact E|].
  exact (proj1 (prepend_join_splits _) _ _ E).
Defined.
