(* ===== verification/FoldingOpt.v ===== *)
(** * The folding optimization

    [prusti-common/src/vir/optimizations/folding/expressions.rs]: pull the
    [unfolding] expressions up as far as the required permissions allow.  They are also pulled out of
    quantifiers that bind a variable of their predicates. *)

From S2P Require Import Prelude Ast ExprEq ExprPlace ExprTransformers ExprOps Collections Items Semantics.
From S2P Require Import Borrows Stmt Cfg MethodOpts Display EventLog Unfoldings.

(** Predicate argument to predicate name, amount and enum index. *)
Definition UnfoldingMap : Type := HashMap.t Expr (string * PermAmount * MaybeEnumVariantIndex).
Definition RequirementSet : Type := HashSet.t Expr.

Module ExprOptimizer.
Record ExprOptimizer : Type := make {
  unfoldings : UnfoldingMap;
  (** how deeply a place should be unfolded *)
  requirements : RequirementSet
}.
End ExprOptimizer.
Abbreviation ExprOptimizer := ExprOptimizer.ExprOptimizer.
Import ExprOptimizer.

Definition compare_str (a b : string) : comparison := String.compare a b.

(** ** Restoring unfoldings *)

(** The order in which they are put around the expression. *)
Definition compare_unfoldings (a b : Expr * (string * PermAmount * MaybeEnumVariantIndex)) : option comparison :=
  let k1 := fst a in
  let k2 := fst b in
  if k1 == k2 then Some Eq
  else
    base_k1 ← LocalVar.name <$> get_base k1;
    base_k2 ← LocalVar.name <$> get_base k2;
    match compare_str base_k1 base_k2 with
    | Eq =>
        p ← has_prefix k2 k1;
        if (p : bool) then Some Gt
        else
          p ← has_prefix k1 k2;
          if (p : bool) then Some Lt
          else s1 ← expr_to_string k1; s2 ← expr_to_string k2; Some (compare_str s1 s2)
    | c => Some c
    end.

Definition restore_unfolding (expr : Expr) (u : Expr * (string * PermAmount * MaybeEnumVariantIndex)) : Expr :=
  let '(arg, (name, perm_amount, variant)) := u in
  Expr.Unfolding name [arg] expr perm_amount variant (pos expr).

Definition restore_unfoldings (unfolding_map : UnfoldingMap) (expr : Expr) : option Expr :=
  unfoldings ← sort_by compare_unfoldings unfolding_map;
  Some (foldl restore_unfolding expr unfoldings).

(** ** Conflicts *)

(** The first pair of different components of two places: [len1] and [len2]
    are the numbers of components that follow. *)
Fixpoint variants_conflict (components1 components2 : list PlaceComponent) : bool :=
  match components1, components2 with
  | part1 :: rest1, part2 :: rest2 =>
      if part1 == part2 then variants_conflict rest1 rest2
      else
        let not_last := negb (Nat.eqb (length rest1) 0) || negb (Nat.eqb (length rest2) 0) in
        match part1, part2 with
        | PlaceComponent.Variant _ _, PlaceComponent.Variant _ _ => not_last
        | PlaceComponent.Field field _, PlaceComponent.Variant _ _
        | PlaceComponent.Variant _ _, PlaceComponent.Field field _ =>
            (Field.name field == "discriminant") && not_last
        | _, _ => false
        end
  | _, _ => false
  end.

Definition conflict_of_places (reqs1 reqs2 : RequirementSet) (place1 place2 : Expr) : option (option Expr) :=
  let '(base1, components1) := explode_place place1 in
  let '(base2, components2) := explode_place place2 in
  p12 ← has_proper_prefix place1 place2;
  if (p12 : bool) && negb (HashSet.contains reqs1 place2) then Some (Some base2)
  else
    p21 ← has_proper_prefix place2 place1;
    if (p21 : bool) && negb (HashSet.contains reqs2 place1) then Some (Some base1)
    else if base1 == base2 then
      q12 ← has_prefix place1 place2;
      if (q12 : bool) then Some None
      else
        q21 ← has_prefix place2 place1;
        if (q21 : bool) then Some None
        else Some (if variants_conflict components1 components2 then Some base1 else None)
    else Some None.

(** The bases that are required to be unfolded differently. *)
Definition check_requirements_conflict (reqs1 reqs2 : RequirementSet) : option (HashSet.t Expr) :=
  conflicts ← mapM_opt (fun place1 => mapM_opt (conflict_of_places reqs1 reqs2 place1) reqs2) reqs1;
  Some (HashSet.from_list (omap id (concat conflicts))).

(** To restore and to keep. *)
Definition split_unfoldings (unfoldings : UnfoldingMap) (conflicts : HashSet.t Expr) :
    option (UnfoldingMap * UnfoldingMap) :=
  tagged ← mapM_opt (fun e => b ← any_opt (has_prefix (fst e)) conflicts; Some (b, e)) unfoldings;
  Some (HashMap.from_list (map snd (List.filter fst tagged)),
        HashMap.from_list (map snd (List.filter (fun t => negb (fst t)) tagged))).

(** Unfoldings in both sets; the rest of the first, the rest of the second. *)
Definition find_common_unfoldings2 (first second : UnfoldingMap) : UnfoldingMap * UnfoldingMap * UnfoldingMap :=
  foldl (fun acc e =>
    let '(common, new_first, second) := acc in
    if HashMap.contains_key second (fst e)
    then (HashMap.insert common (fst e) (snd e), new_first, HashMap.remove second (fst e))
    else (common, HashMap.insert new_first (fst e) (snd e), second))
    (HashMap.empty, HashMap.empty, second) first.

(** [map.contains_key(place) || reqs.iter().all(|p| !p.has_prefix(place))]. *)
Definition agrees (m : UnfoldingMap) (reqs : RequirementSet) (place : Expr) : option bool :=
  if HashMap.contains_key m place then Some true
  else b ← any_opt (fun p => has_prefix p place) reqs; Some (negb b).

Fixpoint find_common_unfoldings3 (common new_first second third : UnfoldingMap)
    (second_reqs third_reqs : RequirementSet) (first : UnfoldingMap) :
    option (UnfoldingMap * UnfoldingMap * UnfoldingMap * UnfoldingMap) :=
  match first with
  | [] => Some (common, new_first, second, third)
  | (place, data) :: first =>
      second_agrees ← agrees second second_reqs place;
      third_agrees ← agrees third third_reqs place;
      if (second_agrees : bool) && (third_agrees : bool)
      then find_common_unfoldings3 (HashMap.insert common place data) new_first (HashMap.remove second place)
             (HashMap.remove third place) second_reqs third_reqs first
      else find_common_unfoldings3 common (HashMap.insert new_first place data) second third second_reqs third_reqs first
  end.

(** The key [-(place.place_depth() as i32)]. *)
Definition depth_key (place : Expr) : option Z := d ← place_depth place; Some (CfgMethod.wrap_i32 (- CfgMethod.wrap_i32 d)).

Definition compare_depth_keys (a b : Expr * Z) : option comparison := Some (snd a ?= snd b)%Z.

(** [sort_by_cached_key]: the keys are computed if there are two elements. *)
Definition sort_by_depth (places : list Expr) : option (list Expr) :=
  match places with
  | [] | [_] => Some places
  | _ =>
      keyed ← mapM_opt (fun place => k ← depth_key place; Some (place, k)) places;
      sorted ← sort_by compare_depth_keys keyed;
      Some (map fst sorted)
  end.

Definition update_requirements (requirements : RequirementSet) (new_requirements : list Expr) : option RequirementSet :=
  sorted ← sort_by_depth new_requirements;
  foldl (fun acc place =>
    requirements ← acc;
    requirements ← filter_opt (fun p => b ← has_prefix p place; Some (negb b)) requirements;
    Some (HashSet.insert requirements place)) (Some requirements) sorted.

Definition merge_requirements_and_unfoldings2
    (first : Expr) (first_unfoldings : UnfoldingMap) (first_requirements : RequirementSet)
    (second : Expr) (second_unfoldings : UnfoldingMap) (second_requirements : RequirementSet) :
    option (RequirementSet * UnfoldingMap * Expr * Expr) :=
  conflicts ← check_requirements_conflict first_requirements second_requirements;
  match conflicts with
  | [] =>
      Some (HashSet.union first_requirements second_requirements,
            HashMap.extend first_unfoldings second_unfoldings, first, second)
  | _ =>
      let '(common, first_unfoldings, second_unfoldings) :=
        find_common_unfoldings2 first_unfoldings second_unfoldings in
      first_split ← split_unfoldings first_unfoldings conflicts;
      second_split ← split_unfoldings second_unfoldings conflicts;
      new_requirements ← update_requirements (HashSet.union first_requirements second_requirements)
                           (HashMap.keys (fst first_split));
      new_requirements ← update_requirements new_requirements (HashMap.keys (fst second_split));
      first_restored ← restore_unfoldings (fst first_split) first;
      second_restored ← restore_unfoldings (fst second_split) second;
      Some (new_requirements, HashMap.extend (HashMap.extend common (snd first_split)) (snd second_split),
            first_restored, second_restored)
  end.

(** ** The folder *)

Notation Fold A := (ST ExprOptimizer unit A).

Definition add_requirement (place : Expr) : Fold unit :=
  modify (fun s => make (unfoldings s) (HashSet.insert (requirements s) place)).

Definition add_unfolding (place : Expr) (data : string * PermAmount * MaybeEnumVariantIndex) : Fold unit :=
  modify (fun s => make (HashMap.insert (unfoldings s) place data) (requirements s)).

(** [get_unfoldings] and [get_requirements]: the state is left empty. *)
Definition take_state : Fold ExprOptimizer :=
  s ← get_st; _ ← put_st (make HashMap.empty []); mret s.

(** Fold a subexpression and take what it has collected. *)
Definition fold_and_take (c : child (Fold Expr)) : Fold (Expr * ExprOptimizer) :=
  e ← go c; s ← take_state; mret (e, s).

Definition fold_bin_op (kind : BinOpKind) (first second : child (Fold Expr)) (p : Position) : Fold Expr :=
  f ← fold_and_take first;
  s ← fold_and_take second;
  merged ← lift (merge_requirements_and_unfoldings2
    (fst f) (unfoldings (snd f)) (requirements (snd f)) (fst s) (unfoldings (snd s)) (requirements (snd s)));
  let '(new_reqs, new_unfoldings, new_first, new_second) := merged in
  _ ← put_st (make new_unfoldings new_reqs);
  mret (Expr.BinOp kind new_first new_second p).

(** The branch of [fallible_fold_cond] with conflicts. *)
Definition merge_conflicting_cond (conflicts : HashSet.t Expr) (g t e : Expr * ExprOptimizer) :
    option (ExprOptimizer * Expr * Expr * Expr) :=
  found ← find_common_unfoldings3 HashMap.empty HashMap.empty (unfoldings (snd t)) (unfoldings (snd e))
            (requirements (snd t)) (requirements (snd e)) (unfoldings (snd g));
  let '(common, guard_unfoldings, then_unfoldings, else_unfoldings) := found in
  guard_split ← split_unfoldings guard_unfoldings conflicts;
  then_split ← split_unfoldings then_unfoldings conflicts;
  else_split ← split_unfoldings else_unfoldings conflicts;
  reqs ← update_requirements
           (HashSet.union (HashSet.union (requirements (snd g)) (requirements (snd t))) (requirements (snd e)))
           (HashMap.keys (fst guard_split));
  reqs ← update_requirements reqs (HashMap.keys (fst then_split));
  reqs ← update_requirements reqs (HashMap.keys (fst else_split));
  guard_restored ← restore_unfoldings (fst guard_split) (fst g);
  then_restored ← restore_unfoldings (fst then_split) (fst t);
  else_restored ← restore_unfoldings (fst else_split) (fst e);
  Some (make (HashMap.extend (HashMap.extend (HashMap.extend common (snd guard_split)) (snd then_split)) (snd else_split)) reqs,
        guard_restored, then_restored, else_restored).

Definition merge_cond (g t e : Expr * ExprOptimizer) : option (ExprOptimizer * Expr * Expr * Expr) :=
  conflicts1 ← check_requirements_conflict (requirements (snd g)) (requirements (snd t));
  conflicts2 ← check_requirements_conflict (requirements (snd g)) (requirements (snd e));
  conflicts3 ← check_requirements_conflict (requirements (snd t)) (requirements (snd e));
  match HashSet.union (HashSet.union conflicts1 conflicts2) conflicts3 with
  | [] =>
      Some (make (HashMap.extend (HashMap.extend (unfoldings (snd g)) (unfoldings (snd t))) (unfoldings (snd e)))
              (HashSet.union (HashSet.union (requirements (snd g)) (requirements (snd t))) (requirements (snd e))),
            fst g, fst t, fst e)
  | conflicts => merge_conflicting_cond conflicts g t e
  end.

Definition fold_cond (guard then_expr else_expr : child (Fold Expr)) (p : Position) : Fold Expr :=
  g ← fold_and_take guard;
  t ← fold_and_take then_expr;
  e ← fold_and_take else_expr;
  merged ← lift (merge_cond g t e);
  let '(s, guard_folded, then_folded, else_folded) := merged in
  _ ← put_st s;
  mret (Expr.Cond guard_folded then_folded else_folded p).

(** [fallible_fold] handles unfoldings itself; they are a node here. *)
Definition expr_optimizer : FallibleExprFolder ExprOptimizer unit :=
  {| fold := fun expr dflt =>
       match expr with
       | Expr.LabelledOld _ _ _ =>
           _ ← (if is_place expr then add_requirement expr else mret tt); mret expr
       | Expr.Unfolding _ _ _ _ _ _ => dflt
       | _ => if is_place expr then _ ← add_requirement expr; mret expr else dflt
       end;
     fold_node := fun n =>
       match n with
       | Node.Unfolding name args body perm variant _ =>
           match args with
           | [arg] => new_expr ← go body; _ ← add_unfolding (orig arg) (name, perm, variant); mret new_expr
           | _ => panic
           end
       | Node.LabelledOld _ _ _ => panic
       | Node.MagicWand _ _ _ _ | Node.PredicateAccessPredicate _ _ _ _ | Node.FieldAccessPredicate _ _ _ => fail tt
       | Node.BinOp kind first second p => fold_bin_op kind first second p
       | Node.Cond guard then_expr else_expr p => fold_cond guard then_expr else_expr p
       | Node.LetExpr _ _ _ _ => panic
       | n => default_fold_node n
       end |}.

(** ** [FoldingOptimizer::optimize] *)

Definition optimize_expr (self : Expr) : option Expr :=
  match run_fold expr_optimizer self (make HashMap.empty []) with
  | Val (new_expr, optimizer) => restore_unfoldings (unfoldings optimizer) new_expr
  | Err _ => Some self
  | Panic => None
  end.

Definition stmt_optimizer : StmtFolder unit Empty_set :=
  {| fold_stmt := fun _ dflt => dflt;
     fold_expr_of := default_fold_expr_of;
     fold_snode := fun n =>
       match n with
       | SNode.Inhale expr => expr ← lift (optimize_expr expr); mret (Stmt.Inhale expr)
       | n => default_fold_snode default_fold_expr_of n
       end |}.

Definition optimize_method (self : CfgMethod) : option CfgMethod := fold_method_stmts stmt_optimizer self.

Definition optimize_function (self : Function) : option Function :=
  body ← match Function.body self with
         | Some e => e ← optimize_expr e; Some (Some e)
         | None => Some None
         end;
  Some (Function.new (Function.name self) (Function.formal_args self) (Function.return_type self)
          (Function.pres self) (Function.posts self) body).

(** * The folding optimization moves unfoldings

    It keeps the value of an expression, and it unfolds the same places. *)

Import ExprOptimizer.

(** ** The unfolded places of an expression *)

(** The arguments of the unfoldings; unfoldings inside these are not listed. *)
Fixpoint unfolded (e : Expr) : list Expr :=
  match e with
  | Expr.Local _ _ | Expr.Const _ _ => []
  | Expr.Variant b _ _ | Expr.Field b _ _ | Expr.AddrOf b _ _ | Expr.LabelledOld _ b _
  | Expr.PredicateAccessPredicate _ b _ _ | Expr.FieldAccessPredicate b _ _ | Expr.UnaryOp _ b _
  | Expr.ForAll _ _ b _ | Expr.Exists _ _ b _ | Expr.SnapApp b _ => unfolded b
  | Expr.MagicWand l r _ _ | Expr.BinOp _ l r _ | Expr.ContainerOp _ l r _ | Expr.LetExpr _ l r _
  | Expr.InhaleExhale l r _ | Expr.Downcast l r _ => unfolded l ++ unfolded r
  | Expr.Cond g t e _ => unfolded g ++ unfolded t ++ unfolded e
  | Expr.Seq _ es _ | Expr.FuncApp _ es _ _ _ | Expr.DomainFuncApp _ es _ => concat (map unfolded es)
  | Expr.Unfolding _ args b _ _ _ => args ++ unfolded b
  end%list.

(** [a] is in [l], up to the equality of the maps. *)
Definition hits (k a : Expr) : Prop := a = k \/ (a == k) = true.
Definition covered (l : list Expr) (a : Expr) : Prop := exists k, k ∈ l /\ hits k a.

Lemma covered_app l1 l2 a : covered (l1 ++ l2) a <-> covered l1 a \/ covered l2 a.
Proof. unfold covered. setoid_rewrite elem_of_app. firstorder. Qed.

Lemma covered_nil a : covered [] a <-> False.
Proof. split; [|done]. by intros (a' & ?%elem_of_nil & _). Qed.

Lemma covered_cons k l a : covered (k :: l) a <-> hits k a \/ covered l a.
Proof.
  unfold covered. setoid_rewrite elem_of_cons. split; [intros (x & [->|?] & ?); eauto|intros [?|(x & ? & ?)]; eauto].
Qed.

Lemma hits_eq k k' a : (k == k') = true -> hits k a <-> hits k' a.
Proof.
  unfold hits. intros Hk. split; intros [->|Ha]; right; try done.
  - by eapply peq_trans.
  - by rewrite peq_sym.
  - rewrite peq_sym in Hk. by eapply peq_trans.
Qed.

Section Maps.
Context {V : Type}.
Implicit Types (m : HashMap.t Expr V).

Lemma covered_insert m k v a : covered (HashMap.keys (HashMap.insert m k v)) a <-> hits k a \/ covered (HashMap.keys m) a.
Proof.
  unfold HashMap.keys. induction m as [|[k1 v1] m IH]; cbn; [rewrite covered_cons, covered_nil; tauto|].
  destruct (k == k1) eqn:Ek; cbn; rewrite !(covered_cons k1).
  - rewrite (hits_eq k k1) by done. tauto.
  - rewrite IH. tauto.
Qed.

Lemma covered_extend m (l : list (Expr * V)) a :
  covered (HashMap.keys (HashMap.extend m l)) a <-> covered (HashMap.keys m) a \/ covered (map fst l) a.
Proof.
  unfold HashMap.extend. revert m. induction l as [|[k v] l IH]; intros m; cbn [foldl map fst snd].
  - rewrite covered_nil. tauto.
  - rewrite IH, covered_insert, (covered_cons k). tauto.
Qed.

Lemma covered_from_list (l : list (Expr * V)) a : covered (HashMap.keys (HashMap.from_list l)) a <-> covered (map fst l) a.
Proof. unfold HashMap.from_list. rewrite (covered_extend HashMap.empty l). cbn [HashMap.keys HashMap.empty map]. rewrite covered_nil. tauto. Qed.

Lemma covered_remove m k a : covered (HashMap.keys (HashMap.remove m k)) a -> covered (HashMap.keys m) a.
Proof.
  unfold HashMap.keys. induction m as [|[k1 v1] m IH]; cbn; [done|].
  destruct (k == k1); cbn; rewrite !(covered_cons k1); tauto.
Qed.

Lemma covered_removed m k a : covered (HashMap.keys m) a -> hits k a \/ covered (HashMap.keys (HashMap.remove m k)) a.
Proof.
  unfold HashMap.keys. induction m as [|[k1 v1] m IH]; cbn; [tauto|]. destruct (k == k1) eqn:Ek; cbn; rewrite !(covered_cons k1).
  - rewrite (hits_eq k k1) by done. tauto.
  - tauto.
Qed.

Lemma covered_contains m k a : HashMap.contains_key m k = true -> hits k a -> covered (HashMap.keys m) a.
Proof.
  unfold HashMap.contains_key. destruct (HashMap.get m k) as [v|] eqn:Eg; [|done]. intros _ Ha.
  apply HashMap.get_in in Eg as (k' & Hin & Hk). rewrite (hits_eq k k') in Ha by done.
  exists k'. split; [|done].
  apply list_elem_of_In, in_map_iff. by exists (k', v).
Qed.
End Maps.

(** ** Restoring, splitting and merging *)

Lemma insert_sorted_perm {A} (cmp : A -> A -> option comparison) x l l' : insert_sorted cmp x l = Some l' -> l' ≡ₚ x :: l.
Proof.
  revert l'. induction l as [|y l IH]; intros l' Hi; cbn in Hi; inv_option; subst; [done|].
  destruct x0; inv_option; subst; try done. rewrite (IH _ Hx0). constructor.
Qed.

Lemma sort_by_perm {A} (cmp : A -> A -> option comparison) l l' : sort_by cmp l = Some l' -> l' ≡ₚ l.
Proof.
  revert l'. induction l as [|x l IH]; intros l' Hs; cbn in Hs; inv_option; subst; [done|].
  apply insert_sorted_perm in Hs. by rewrite Hs, (IH _ Hx).
Qed.

#[local] Instance covered_perm : Proper ((≡ₚ) ==> (=) ==> iff) covered.
Proof. intros l1 l2 Hl a ? <-. unfold covered. by setoid_rewrite Hl. Qed.

Lemma restore_unfoldings_spec m e e' : restore_unfoldings m e = Some e' ->
  erase e' = erase e /\ forall a, covered (unfolded e') a <-> covered (HashMap.keys m) a \/ covered (unfolded e) a.
Proof.
  unfold restore_unfoldings. intros Hr. inv_option. subst. apply sort_by_perm in Hx.
  unfold HashMap.keys. setoid_rewrite <- Hx. clear Hx.
  revert e. induction x as [|[arg [[name q] v]] l IH]; intros e; cbn [foldl map fst].
  - split; [done|]. intros a. rewrite covered_nil. tauto.
  - destruct (IH (restore_unfolding e (arg, (name, q, v)))) as [He Hc]. split; [by rewrite He|].
    intros a. rewrite Hc. cbn. rewrite !covered_cons. tauto.
Qed.

Lemma split_unfoldings_spec m conflicts r k : split_unfoldings m conflicts = Some (r, k) ->
  forall a, covered (HashMap.keys m) a <-> covered (HashMap.keys r) a \/ covered (HashMap.keys k) a.
Proof.
  unfold split_unfoldings. intros Hs a. inv_option. simplify_eq. rewrite !covered_from_list.
  unfold HashMap.keys. revert x Hx. induction m as [|e m IH]; intros l Hl; cbn in Hl; inv_option; subst; cbn.
  - rewrite covered_nil. tauto.
  - rewrite covered_cons, (IH _ Hx0). destruct x1; cbn; rewrite covered_cons; tauto.
Qed.

Lemma find_common2_spec first second c f s : find_common_unfoldings2 first second = (c, f, s) ->
  forall a, covered (HashMap.keys first) a \/ covered (HashMap.keys second) a
    <-> covered (HashMap.keys c) a \/ covered (HashMap.keys f) a \/ covered (HashMap.keys s) a.
Proof.
  unfold find_common_unfoldings2. intros Hf a.
  assert (Hgen : forall c0 f0 s0, foldl (fun acc e => let '(common, new_first, second) := acc in
      if HashMap.contains_key second (fst e)
      then (HashMap.insert common (fst e) (snd e), new_first, HashMap.remove second (fst e))
      else (common, HashMap.insert new_first (fst e) (snd e), second)) (c0, f0, s0) first = (c, f, s) ->
    covered (HashMap.keys first) a \/ covered (HashMap.keys c0) a \/ covered (HashMap.keys f0) a \/ covered (HashMap.keys s0) a
    <-> covered (HashMap.keys c) a \/ covered (HashMap.keys f) a \/ covered (HashMap.keys s) a).
  { clear Hf. induction first as [|[k v] first IH]; intros c0 f0 s0 Hf; cbn [foldl fst snd] in Hf.
    - injection Hf as -> -> ->. cbn. rewrite covered_nil. tauto.
    - destruct (HashMap.contains_key s0 k) eqn:Ek; apply IH in Hf as <-; rewrite covered_insert;
        unfold HashMap.keys at 1; cbn [map fst]; rewrite covered_cons; fold (HashMap.keys first); [|tauto].
      pose proof (covered_removed s0 k a). pose proof (covered_remove s0 k a). tauto. }
  rewrite <- (Hgen _ _ _ Hf). cbn [HashMap.keys HashMap.empty map]. rewrite covered_nil. tauto.
Qed.

Lemma find_common3_spec first : forall c0 f0 s0 t0 rs rt c f s t,
  find_common_unfoldings3 c0 f0 s0 t0 rs rt first = Some (c, f, s, t) ->
  forall a, covered (HashMap.keys first) a \/ covered (HashMap.keys c0) a \/ covered (HashMap.keys f0) a
      \/ covered (HashMap.keys s0) a \/ covered (HashMap.keys t0) a
    <-> covered (HashMap.keys c) a \/ covered (HashMap.keys f) a \/ covered (HashMap.keys s) a \/ covered (HashMap.keys t) a.
Proof.
  induction first as [|[k v] first IH]; intros c0 f0 s0 t0 rs rt c f s t Hf a; cbn [find_common_unfoldings3] in Hf.
  - injection Hf as -> -> -> ->. cbn. rewrite covered_nil. tauto.
  - inv_option. destruct (x && x0); apply IH with (a := a) in Hf as <-; rewrite covered_insert;
      unfold HashMap.keys at 1; cbn [map fst]; rewrite covered_cons; fold (HashMap.keys first); [|tauto].
    pose proof (covered_removed s0 k a). pose proof (covered_remove s0 k a).
    pose proof (covered_removed t0 k a). pose proof (covered_remove t0 k a). tauto.
Qed.

(** ** The folder *)

Definition kept (s : ExprOptimizer) : list Expr := HashMap.keys (unfoldings s).

(** [m] moves unfoldings between the expression and the state. *)
Definition moves (m : ST ExprOptimizer unit Expr) (e : Expr) : Prop :=
  forall s e' s', m s = Val (e', s') ->
    erase e' = erase e
    /\ forall a, covered (unfolded e) a \/ covered (kept s) a <-> covered (unfolded e') a \/ covered (kept s') a.

Lemma fold_and_take_spec c e s e' o s' : moves (go c) e -> fold_and_take c s = Val ((e', o), s') ->
  s' = make HashMap.empty [] /\ erase e' = erase e
  /\ forall a, covered (unfolded e) a \/ covered (kept s) a <-> covered (unfolded e') a \/ covered (kept o) a.
Proof.
  intros Hc Hr. unfold fold_and_take, take_state in Hr. inv_st. simplify_eq.
  match goal with H : go c _ = _ |- _ => apply Hc in H end. done.
Qed.

(** Disjunctions that differ in the order only. *)
Ltac or_perm := split; intros; destruct_or?; auto 10.

Lemma merge2_logic (U1 K1 U2 K2 C r1 k1 r2 k2 : Prop) :
  (K1 \/ K2 <-> C \/ (r1 \/ k1) \/ (r2 \/ k2)) ->
  (U1 \/ K1 \/ U2 \/ K2 <-> (r1 \/ U1) \/ (r2 \/ U2) \/ ((C \/ k1) \/ k2)).
Proof.
  intros HK. transitivity ((U1 \/ U2) \/ (K1 \/ K2)); [clear HK; or_perm|]. rewrite HK. clear HK. or_perm.
Qed.

Lemma merge2_spec e1 m1 r1 e2 m2 r2 r m e1' e2' :
  merge_requirements_and_unfoldings2 e1 m1 r1 e2 m2 r2 = Some (r, m, e1', e2') ->
  erase e1' = erase e1 /\ erase e2' = erase e2
  /\ forall a, covered (unfolded e1) a \/ covered (HashMap.keys m1) a \/ covered (unfolded e2) a \/ covered (HashMap.keys m2) a
       <-> covered (unfolded e1') a \/ covered (unfolded e2') a \/ covered (HashMap.keys m) a.
Proof.
  unfold merge_requirements_and_unfoldings2. intros Hm. inv_option.
  destruct x as [|x0 x]; [simplify_eq; split; [done|split; [done|]]; intros a; rewrite covered_extend; unfold HashMap.keys; tauto|].
  destruct (find_common_unfoldings2 m1 m2) as [[c f] s] eqn:Ec. inv_option. simplify_eq.
  repeat match goal with
  | H : split_unfoldings _ _ = Some ?p |- _ => destruct p; pose proof (split_unfoldings_spec _ _ _ _ H); clear H
  | H : restore_unfoldings _ _ = Some _ |- _ => apply restore_unfoldings_spec in H as [? ?]
  end.
  split; [done|]. split; [done|]. intros a. pose proof (find_common2_spec _ _ _ _ _ Ec a) as Hf. cbn [fst snd] in *.
  rewrite !covered_extend. unfold HashMap.keys in *.
  repeat match goal with H : forall a, _ |- _ => specialize (H a) end.
  rewrite H4, H2. rewrite H0, H in Hf. by apply merge2_logic.
Qed.

Lemma merge3_logic (Ug Kg Ut Kt Ue Ke C rg kg rt kt re ke : Prop) :
  (Kg \/ False \/ False \/ Kt \/ Ke <-> C \/ (rg \/ kg) \/ (rt \/ kt) \/ (re \/ ke)) ->
  ((Ug \/ Kg) \/ (Ut \/ Kt) \/ (Ue \/ Ke) <->
   (rg \/ Ug) \/ (rt \/ Ut) \/ (re \/ Ue) \/ ((C \/ kg) \/ kt) \/ ke).
Proof.
  intros HK. transitivity ((Ug \/ Ut \/ Ue) \/ (Kg \/ False \/ False \/ Kt \/ Ke)); [clear HK; or_perm|].
  rewrite HK. clear HK. or_perm.
Qed.

Lemma merge_cond_spec g t e s g' t' e' :
  merge_cond g t e = Some (s, g', t', e') ->
  erase g' = erase (fst g) /\ erase t' = erase (fst t) /\ erase e' = erase (fst e)
  /\ forall a,
      (covered (unfolded (fst g)) a \/ covered (kept (snd g)) a) \/ (covered (unfolded (fst t)) a \/ covered (kept (snd t)) a)
        \/ (covered (unfolded (fst e)) a \/ covered (kept (snd e)) a)
      <-> covered (unfolded g') a \/ covered (unfolded t') a \/ covered (unfolded e') a \/ covered (kept s) a.
Proof.
  unfold merge_cond. intros Hm. inv_option.
  destruct (HashSet.union _ x1) as [|y l].
  - simplify_eq. split_and!; try done. intros a. unfold kept. cbn [unfoldings]. rewrite !covered_extend. unfold HashMap.keys. tauto.
  - unfold merge_conflicting_cond in Hm. inv_option. destruct x2 as [[[c f] m2] m3]. inv_option. simplify_eq.
    repeat match goal with
    | H : split_unfoldings _ _ = Some ?p |- _ => destruct p; pose proof (split_unfoldings_spec _ _ _ _ H); clear H
    | H : restore_unfoldings _ _ = Some _ |- _ => apply restore_unfoldings_spec in H as [? ?]
    | H : find_common_unfoldings3 _ _ _ _ _ _ _ = Some _ |- _ => pose proof (find_common3_spec _ _ _ _ _ _ _ _ _ _ _ H); clear H
    end.
    split_and!; try done. intros a. unfold kept. cbn [unfoldings fst snd] in *. rewrite !covered_extend.
    repeat match goal with H : forall a, _ |- _ => specialize (H a) end.
    rewrite H7, H5, H3. rewrite H1, H0, H in H8. unfold HashMap.keys in *. cbn [HashMap.empty map] in H8.
    rewrite covered_nil in H8. by apply merge3_logic.
Qed.

Lemma kept_empty reqs a : covered (kept (make HashMap.empty reqs)) a <-> False.
Proof. apply covered_nil. Qed.

Lemma bin_logic (Ua Ub Ks Ua' Ka Ub' Kb X Y K : Prop) :
  (Ua \/ Ks <-> Ua' \/ Ka) -> (Ub \/ False <-> Ub' \/ Kb) ->
  (Ua' \/ Ka \/ Ub' \/ Kb <-> X \/ Y \/ K) -> ((Ua \/ Ub) \/ Ks <-> (X \/ Y) \/ K).
Proof.
  intros Ha Hb Hm. transitivity ((Ua \/ Ks) \/ (Ub \/ False)); [clear; or_perm; done|]. rewrite Ha, Hb.
  transitivity (X \/ Y \/ K); [rewrite <- Hm; clear; or_perm|clear; or_perm].
Qed.

Lemma cond_logic (Ug Ut Ue Ks Ug' Kg Ut' Kt Ue' Ke X Y Z K : Prop) :
  (Ug \/ Ks <-> Ug' \/ Kg) -> (Ut \/ False <-> Ut' \/ Kt) -> (Ue \/ False <-> Ue' \/ Ke) ->
  ((Ug' \/ Kg) \/ (Ut' \/ Kt) \/ (Ue' \/ Ke) <-> X \/ Y \/ Z \/ K) ->
  ((Ug \/ Ut \/ Ue) \/ Ks <-> (X \/ Y \/ Z) \/ K).
Proof.
  intros Hg Ht He. rewrite <- Hg, <- Ht, <- He. clear Hg Ht He. intros Hm.
  transitivity ((Ug \/ Ks) \/ (Ut \/ False) \/ Ue \/ False); [clear; or_perm; done|]. rewrite Hm. clear. or_perm.
Qed.

Lemma fold_bin_op_moves kind a b ga gb p :
  moves ga a -> moves gb b -> moves (fold_bin_op kind (Child a ga) (Child b gb) p) (Expr.BinOp kind a b p).
Proof.
  intros Ha Hb s e' s' Hr. unfold fold_bin_op in Hr. inv_st. simplify_eq.
  destruct x as [a' oa], x0 as [b' ob].
  match goal with H : fold_and_take (Child a _) _ = _ |- _ => apply (fold_and_take_spec _ a) in H as (-> & Ea & Ca); [|done] end.
  match goal with H : fold_and_take (Child b _) _ = _ |- _ => apply (fold_and_take_spec _ b) in H as (-> & Eb & Cb); [|done] end.
  match goal with H : merge_requirements_and_unfoldings2 _ _ _ _ _ _ = _ |- _ => apply merge2_spec in H as (E1 & E2 & Hm) end.
  cbn [fst snd] in *. split; [cbn; congruence|]. intros k. specialize (Ca k). specialize (Cb k). specialize (Hm k).
  cbn [unfolded]. rewrite !covered_app. rewrite kept_empty in Cb. by apply (bin_logic _ _ _ _ _ _ _ _ _ _ Ca Cb).
Qed.

Lemma fold_cond_moves a b c ga gb gc p :
  moves ga a -> moves gb b -> moves gc c ->
  moves (fold_cond (Child a ga) (Child b gb) (Child c gc) p) (Expr.Cond a b c p).
Proof.
  intros Ha Hb Hc s e' s' Hr. unfold fold_cond in Hr. inv_st. simplify_eq.
  destruct x as [a' oa], x0 as [b' ob], x1 as [c' oc].
  match goal with H : fold_and_take (Child a _) _ = _ |- _ => apply (fold_and_take_spec _ a) in H as (-> & Ea & Ca); [|done] end.
  match goal with H : fold_and_take (Child b _) _ = _ |- _ => apply (fold_and_take_spec _ b) in H as (-> & Eb & Cb); [|done] end.
  match goal with H : fold_and_take (Child c _) _ = _ |- _ => apply (fold_and_take_spec _ c) in H as (-> & Ec & Cc); [|done] end.
  match goal with H : merge_cond _ _ _ = _ |- _ => apply merge_cond_spec in H as (E1 & E2 & E3 & Hm) end.
  cbn [fst snd] in *. split; [cbn; congruence|]. intros k.
  specialize (Ca k). specialize (Cb k). specialize (Cc k). specialize (Hm k).
  cbn [unfolded]. rewrite !covered_app. rewrite kept_empty in Cb, Cc. by apply (cond_logic _ _ _ _ _ _ _ _ _ _ _ _ _ _ Ca Cb Cc).
Qed.

(** One more folded subexpression. *)
Lemma thread_logic (U1 U2 U1' U2' K0 K1 K2 : Prop) :
  (U1 \/ K0 <-> U1' \/ K1) -> (U2 \/ K1 <-> U2' \/ K2) -> ((U1 \/ U2) \/ K0 <-> (U1' \/ U2') \/ K2).
Proof.
  intros H1 H2. transitivity (U2 \/ (U1 \/ K0)); [clear; or_perm|]. rewrite H1.
  transitivity (U1' \/ (U2 \/ K1)); [clear; or_perm|]. rewrite H2. clear. or_perm.
Qed.

(** The methods that are not overridden. *)
Lemma sequence_moves (g : Expr -> ST ExprOptimizer unit Expr) es :
  Forall (fun c => moves (g c) c) es ->
  forall s es' s', sequence (map go (map (fun c => Child c (g c)) es)) s = Val (es', s') ->
    map erase es' = map erase es
    /\ forall a, covered (concat (map unfolded es)) a \/ covered (kept s) a
        <-> covered (concat (map unfolded es')) a \/ covered (kept s') a.
Proof.
  induction 1 as [|c es Hc _ IH]; intros s es' s' Es; cbn in Es; inv_st; [done|].
  match goal with H : g c _ = _ |- _ => apply Hc in H as [E1 C1] end.
  match goal with H : sequence _ _ = _ |- _ => apply IH in H as [E2 C2] end.
  split; [cbn; congruence|]. intros a. specialize (C1 a). specialize (C2 a). cbn. rewrite !covered_app.
  by eapply thread_logic.
Qed.

Lemma default_node_moves (g : Expr -> ST ExprOptimizer unit Expr) e :
  (forall name args body perm variant p, e <> Expr.Unfolding name args body perm variant p) ->
  Forall (fun c => moves (g c) c) (children e) ->
  moves (default_fold_node (Node.of_expr (fun c => Child c (g c)) e)) e.
Proof.
  intros Hne Hc s e' s' Es.
  destruct e; cbn in Es, Hc; rewrite ?Forall_cons in Hc; destruct_and?; inv_st;
    try (by edestruct Hne);
    repeat match goal with
    | Hc : moves ?m _, Hm : ?m _ = Val _ |- _ => apply Hc in Hm as [? ?]
    | Hc : Forall (fun c => moves (?g c) c) ?es, Hm : sequence (map go (map _ ?es)) _ = Val _ |- _ =>
        apply (sequence_moves g es Hc) in Hm as [? ?]
    end; (split; [cbn; congruence|]); intros k;
    repeat match goal with H : forall a, _ |- _ => specialize (H k) end;
    cbn [unfolded]; rewrite ?covered_app; eauto using thread_logic.
Qed.

Lemma add_requirement_spec e s u s' : add_requirement e s = Val (u, s') -> unfoldings s' = unfoldings s.
Proof. intros Hr. unfold add_requirement in Hr. by inv_st. Qed.

Lemma requirement_moves (c : bool) e :
  moves (_ ← (if c then add_requirement e else mret tt); mret e) e.
Proof.
  intros s e' s' Hr. destruct c; inv_st; [|done].
  match goal with H : add_requirement _ _ = _ |- _ => apply add_requirement_spec in H end.
  unfold kept. split; [done|]. intros a. cbn. match goal with H : unfoldings _ = _ |- _ => by rewrite H end.
Qed.

Lemma unfold_logic (A U K U' K' : Prop) : (U \/ K <-> U' \/ K') -> ((A \/ U) \/ K <-> U' \/ A \/ K').
Proof.
  intros H. transitivity (A \/ (U \/ K)); [clear; or_perm|]. rewrite H. clear. or_perm.
Qed.

Lemma fold_unfolding_moves name arg g body perm variant p :
  moves g body ->
  moves (new_expr ← g; _ ← add_unfolding arg (name, perm, variant); mret new_expr)
    (Expr.Unfolding name [arg] body perm variant p).
Proof.
  intros Hg s e' s' Hr. unfold add_unfolding in Hr. inv_st.
  match goal with H : g _ = _ |- _ => apply Hg in H as [He Hc] end.
  split; [done|]. intros a. specialize (Hc a).
  unfold kept. cbn [unfoldings unfolded app]. rewrite covered_insert, covered_cons. by apply unfold_logic.
Qed.

Lemma expr_optimizer_moves e : moves (run_fold expr_optimizer e) e.
Proof.
  induction e as [e IH] using children_ind. rewrite run_fold_unfold. unfold default_fold_expr.
  assert (Hn : moves (fold_node expr_optimizer (Node.of_expr (fun c => Child c (run_fold expr_optimizer c)) e)) e).
  { assert (Hd := fun Hne => default_node_moves (run_fold expr_optimizer) e Hne IH). revert IH Hd.
    destruct e; intros IH Hd; try (by apply Hd); try (by intros s e' s' Hr); cbn in IH; rewrite ?Forall_app, ?Forall_cons in IH; destruct_and?.
    - by apply fold_bin_op_moves.
    - destruct args as [|arg [|]]; try (by intros s e' s' Hr). by apply fold_unfolding_moves.
    - by apply fold_cond_moves. }
  cbn [fold expr_optimizer]. destruct (is_place e) eqn:Ep; destruct e; try done; try (by apply (requirement_moves true));
    by apply (requirement_moves false).
Qed.

(** The optimization puts the unfoldings of an expression at other places:
    apart from them the expression is the same, it has the same value, and
    the same predicate arguments are unfolded. *)
Theorem optimize_moves_unfoldings `{InterpLaws} e e' :
  optimize_expr e = Some e' ->
  unfoldings_added e e' /\ forall a, covered (unfolded e) a <-> covered (unfolded e') a.
Proof.
  unfold optimize_expr. intros Ho.
  destruct (run_fold expr_optimizer e _) as [[new o]| |] eqn:Er; [|by simplify_eq|done].
  apply expr_optimizer_moves in Er as [E1 C1]. apply restore_unfoldings_spec in Ho as [E2 C2].
  split; [apply erase_unfoldings_added; congruence|]. intros a. specialize (C1 a). rewrite kept_empty in C1.
  rewrite C2. fold (kept o). clear -C1. transitivity (covered (unfolded e) a \/ False); [or_perm; done|]. rewrite C1. or_perm.
Qed.

(** ** Witness *)

Definition opt_x : Expr := expr_of_var (LocalVar.new "x" (Ty.TypedRef "Pair")).
Definition opt_x_f : Expr := Expr.Field opt_x (Field.new "f" Ty.Int) Position.default.

Definition in_unfolding (body : Expr) : Expr :=
  Expr.Unfolding "Pair" [opt_x] body PermAmount.Read None Position.default.

Definition x_f_is (n : Z) : Expr := Expr.BinOp BinOpKind.EqCmp opt_x_f (Expr.Const (Const.Int n) Position.default) Position.default.

Definition conj_of (l r : Expr) : Expr := Expr.BinOp BinOpKind.And l r Position.default.

(** Both conjuncts unfold [x]: one unfolding is left. *)
Definition two_unfoldings : Expr := conj_of (in_unfolding (x_f_is 1)) (in_unfolding (x_f_is 2)).

(** Here the second conjunct needs [x] itself, not unfolded. *)
Definition conflicting_unfoldings : Expr := conj_of (in_unfolding (x_f_is 1)) (Expr.BinOp BinOpKind.EqCmp opt_x opt_x Position.default).

Lemma optimize_moves_unfoldings_witness :
  optimize_expr conflicting_unfoldings = Some conflicting_unfoldings
  /\ optimize_expr two_unfoldings = Some (in_unfolding (conj_of (x_f_is 1) (x_f_is 2)))
  /\ @unfoldings_added sample_interp two_unfoldings (in_unfolding (conj_of (x_f_is 1) (x_f_is 2))).
Proof.
  assert (E : optimize_expr two_unfoldings = Some (in_unfolding (conj_of (x_f_is 1) (x_f_is 2)))) by (vm_compute; reflexivity).
  split; [vm_compute; reflexivity|]. split; [exact E|].
  exact (proj1 (@optimize_moves_unfoldings sample_interp sample_laws _ _ E)).
Defined.

(** The unfolding of a place of a bound variable leaves its quantifier. *)
Example unfolding_leaves_quantifier :
  let quantified e := Expr.ForAll [LocalVar.new "x" (Ty.TypedRef "Pair")] [] e Position.default in
  optimize_expr (quantified (in_unfolding (x_f_is 1))) = Some (in_unfolding (quantified (x_f_is 1))).
Proof. vm_compute. reflexivity. Qed.
