(* ===== verification/QuantifierFixer.v ===== *)
(** * The quantifier fixer

    [prusti-common/src/vir/optimizations/methods/quantifier_fixer.rs]: pull
    unfoldings out of universal quantifiers, and bind old expressions, fields
    of variables and operations that do not depend on the bound variables by
    [let] in front of the quantifier. *)

From stdpp Require Import pretty.
From S2P Require Import Prelude Ast ExprEq ExprPlace ExprTransformers ExprOps Collections ExprReplace Items.
From S2P Require Import Semantics Borrows Stmt Cfg Unfoldings.

(** ** Traversals with a state of all statements of a method *)

Definition fold_block_stmts {S E} (f : StmtFolder S E) (block : CfgBlock) : ST S E CfgBlock :=
  stmts ← sequence (map (run_stmt_fold f) (CfgMethod.stmts block));
  mret (CfgMethod.make_block stmts (CfgMethod.successor block)).

Definition fold_cfg_stmts {S E} (f : StmtFolder S E) (cfg : CfgMethod) : ST S E CfgMethod :=
  blocks ← sequence (map (fold_block_stmts f) (CfgMethod.basic_blocks cfg));
  mret (CfgMethod.with_blocks cfg blocks).

(** ** [UnfoldingExtractor] *)

Module UnfoldingExtractor.
Record UnfoldingExtractor : Type := make {
  unfoldings : HashMap.t (string * list Expr) (PermAmount * MaybeEnumVariantIndex * Position);
  in_quantifier : bool
}.
End UnfoldingExtractor.
Abbreviation UnfoldingExtractor := UnfoldingExtractor.UnfoldingExtractor.

(** [forall = vir::Expr::Unfolding(name, args, box forall, ..)]. *)
Definition wrap_unfolding (p : Position) (e : Expr)
    (u : (string * list Expr) * (PermAmount * MaybeEnumVariantIndex * Position)) : Expr :=
  let '((name, args), (perm_amount, variant, _)) := u in
  Expr.Unfolding name args e perm_amount variant p.

Definition unfolding_extractor : ExprFolder UnfoldingExtractor Empty_set :=
  {| fold := default_fold;
     fold_node := fun n =>
       match n with
       | Node.ForAll variables triggers body p =>
           s ← get_st;
           _ ← lift (assert_ (Nat.eqb (length (UnfoldingExtractor.unfoldings s)) 0));
           _ ← put_st (UnfoldingExtractor.make (UnfoldingExtractor.unfoldings s) true);
           replaced_body ← go body;
           s ← get_st;
           _ ← put_st (UnfoldingExtractor.make HashMap.empty false);
           mret (foldl (wrap_unfolding p) (Expr.ForAll variables triggers replaced_body p)
                   (UnfoldingExtractor.unfoldings s))
       | Node.Unfolding name args expr perm variant p =>
           s ← get_st;
           if UnfoldingExtractor.in_quantifier s then
             _ ← put_st (UnfoldingExtractor.make
                   (HashMap.insert (UnfoldingExtractor.unfoldings s) (name, map orig args) (perm, variant, p))
                   (UnfoldingExtractor.in_quantifier s));
             go expr
           else mret (Expr.Unfolding name (map orig args) (orig expr) perm variant p)
       | Node.LabelledOld label body p => mret (Expr.LabelledOld label (orig body) p)
       | n => default_fold_node n
       end |}.

(** ** [Replacer] *)

Module Replacer.
Record Replacer : Type := make {
  counter : Z;
  map : HashMap.t Expr LocalVar;
  bound_vars : list Expr
}.

Definition new (vars : list LocalVar) (counter : Z) : Replacer :=
  make counter HashMap.empty (List.map expr_of_var vars).
End Replacer.
Abbreviation Replacer := Replacer.Replacer.

(** [format!("_LET_{}", counter)]. *)
Definition let_name (counter : Z) : string := "_LET_" ++ pretty counter.

Definition construct_fresh_local (ty : Ty) : ST Replacer Empty_set LocalVar :=
  s ← get_st;
  _ ← put_st (Replacer.make (wrap_u32 (Replacer.counter s + 1)) (Replacer.map s) (Replacer.bound_vars s));
  mret (LocalVar.new (let_name (Replacer.counter s)) ty).

(** The variable of [original_expr], of type [ty] if it is a new one. *)
Definition replace_by_local (original_expr : Expr) (ty : option Ty) (p : Position) : ST Replacer Empty_set Expr :=
  s ← get_st;
  match HashMap.get (Replacer.map s) original_expr with
  | Some local => mret (Expr.Local local p)
  | None =>
      typ ← lift ty;
      local ← construct_fresh_local typ;
      _ ← modify (fun s => Replacer.make (Replacer.counter s)
                             (HashMap.insert (Replacer.map s) original_expr local) (Replacer.bound_vars s));
      mret (Expr.Local local p)
  end.

Definition replace_expr (original_expr : Expr) (p : Position) : ST Replacer Empty_set Expr :=
  replace_by_local original_expr (get_type original_expr) p.

Definition contains_bound (bound_vars : list Expr) (e : Expr) : option bool := any_opt (find e) bound_vars.

Definition replacer : ExprFolder Replacer Empty_set :=
  {| fold := default_fold;
     fold_node := fun n =>
       match n with
       | Node.LabelledOld label expr p =>
           let original_expr := Expr.LabelledOld label (orig expr) p in
           if is_place (orig expr) then replace_by_local original_expr (get_type (orig expr)) p
           else mret original_expr
       | Node.BinOp kind first second p =>
           s ← get_st;
           first_contains_bounded ← lift (contains_bound (Replacer.bound_vars s) (orig first));
           second_contains_bounded ← lift (contains_bound (Replacer.bound_vars s) (orig second));
           if (first_contains_bounded : bool) || (second_contains_bounded : bool) then
             folded_first ← go first;
             folded_second ← go second;
             mret (Expr.BinOp kind folded_first folded_second p)
           else replace_expr (Expr.BinOp kind (orig first) (orig second) p) p
       | Node.Field receiver field p =>
           match orig receiver with
           | Expr.Local _ _ => replace_expr (Expr.Field (orig receiver) field p) p
           | _ => mret (Expr.Field (orig receiver) field p)
           end
       | Node.ForAll variables triggers body p => mret (Expr.ForAll variables triggers (orig body) p)
       | n => default_fold_node n
       end |}.

(** ** [Optimizer]: the state is [counter] *)

(** [forall = vir::Expr::LetExpr(variable, box expr, box forall, pos)]. *)
Definition wrap_let (p : Position) (e : Expr) (u : Expr * LocalVar) : Expr := Expr.LetExpr (snd u) (fst u) e p.

(** [fold_forall] after its body is folded. *)
Definition hoist_forall (variables : list LocalVar) (triggers : list Trigger) (folded_body : Expr) (p : Position) :
    ST Z Empty_set Expr :=
  old_counter ← get_st;
  match run_fold replacer folded_body (Replacer.new variables old_counter) with
  | Val (replaced_body, r) =>
      _ ← put_st (Replacer.counter r);
      let forall_ := Expr.ForAll variables triggers replaced_body p in
      mret (if (old_counter <? Replacer.counter r)%Z then foldl (wrap_let p) forall_ (Replacer.map r) else forall_)
  | Err err => match err with end
  | Panic => panic
  end.

Definition old_optimizer : ExprFolder Z Empty_set :=
  {| fold := default_fold;
     fold_node := fun n =>
       match n with
       | Node.MagicWand lhs rhs borrow p => mret (Expr.MagicWand (orig lhs) (orig rhs) borrow p)
       | Node.ForAll variables triggers body p =>
           folded_body ← go body; hoist_forall variables triggers folded_body p
       | n => default_fold_node n
       end |}.

Definition replace_expr_old (expr : Expr) : ST Z Empty_set Expr := run_fold old_optimizer expr.

Definition replace_expr_unfolding (expr : Expr) : option Expr :=
  fst <$> run_infallible unfolding_extractor expr (UnfoldingExtractor.make HashMap.empty false).

Definition fix_expr (expr : Expr) : ST Z Empty_set Expr :=
  pulled_unfolding ← lift (replace_expr_unfolding expr); replace_expr_old pulled_unfolding.

Definition quantifier_optimizer : StmtFolder Z Empty_set :=
  {| fold_stmt := fun _ dflt => dflt;
     fold_expr_of := default_fold_expr_of;
     fold_snode := fun n =>
       match n with
       | SNode.Assert expr p => e ← fix_expr expr; mret (Stmt.Assert e p)
       | SNode.Inhale expr => e ← fix_expr expr; mret (Stmt.Inhale e)
       | n => default_fold_snode default_fold_expr_of n
       end |}.

Definition fix_quantifiers (cfg : CfgMethod) : option CfgMethod :=
  match fold_cfg_stmts quantifier_optimizer cfg 0%Z with
  | Val (cfg, _) => Some cfg
  | Err err => match err with end
  | Panic => None
  end.

(** * The quantifier fixer keeps the meaning of quantifiers

    Pulling unfoldings out changes an expression in unfoldings only.  Binding
    subexpressions by [let] in front of a quantifier is sound when their
    variables are not bound inside of it, which the code checks for
    operations but not for fields and old expressions. *)

(** ** Names *)

(** The variables that occur in an expression, free or bound. *)
Fixpoint names (e : Expr) : list string :=
  match e with
  | Expr.Local v _ => [LocalVar.name v]
  | Expr.Const _ _ => []
  | Expr.Variant b _ _ | Expr.Field b _ _ | Expr.AddrOf b _ _ | Expr.LabelledOld _ b _
  | Expr.PredicateAccessPredicate _ b _ _ | Expr.FieldAccessPredicate b _ _ | Expr.UnaryOp _ b _
  | Expr.SnapApp b _ => names b
  | Expr.ForAll vars _ b _ | Expr.Exists vars _ b _ => map LocalVar.name vars ++ names b
  | Expr.LetExpr v l r _ => LocalVar.name v :: names l ++ names r
  | Expr.MagicWand l r _ _ | Expr.BinOp _ l r _ | Expr.ContainerOp _ l r _
  | Expr.InhaleExhale l r _ | Expr.Downcast l r _ => names l ++ names r
  | Expr.Cond g t e _ => names g ++ names t ++ names e
  | Expr.Seq _ es _ | Expr.FuncApp _ es _ _ _ | Expr.DomainFuncApp _ es _ => concat (map names es)
  | Expr.Unfolding _ es b _ _ _ => concat (map names es) ++ names b
  end%list.

(** The variables that an expression binds. *)
Fixpoint binders (e : Expr) : list string :=
  match e with
  | Expr.Local _ _ | Expr.Const _ _ => []
  | Expr.Variant b _ _ | Expr.Field b _ _ | Expr.AddrOf b _ _ | Expr.LabelledOld _ b _
  | Expr.PredicateAccessPredicate _ b _ _ | Expr.FieldAccessPredicate b _ _ | Expr.UnaryOp _ b _
  | Expr.SnapApp b _ => binders b
  | Expr.ForAll vars _ b _ | Expr.Exists vars _ b _ => map LocalVar.name vars ++ binders b
  | Expr.LetExpr v l r _ => LocalVar.name v :: binders l ++ binders r
  | Expr.MagicWand l r _ _ | Expr.BinOp _ l r _ | Expr.ContainerOp _ l r _
  | Expr.InhaleExhale l r _ | Expr.Downcast l r _ => binders l ++ binders r
  | Expr.Cond g t e _ => binders g ++ binders t ++ binders e
  | Expr.Seq _ es _ | Expr.FuncApp _ es _ _ _ | Expr.DomainFuncApp _ es _ => concat (map binders es)
  | Expr.Unfolding _ es b _ _ _ => concat (map binders es) ++ binders b
  end%list.

Lemma in_concat_map {A B} (f : A -> list B) l c x : c ∈ l -> x ∈ f c -> x ∈ concat (map f l).
Proof. intros Hc Hx. rewrite list_elem_of_In, in_concat. exists (f c). rewrite <- !list_elem_of_In. split; [|done]. by apply list_elem_of_fmap_2. Qed.

Lemma names_child e c x : c ∈ children e -> x ∈ names c -> x ∈ names e.
Proof.
  intros Hc Hx. destruct e; cbn in Hc |- *; rewrite ?elem_of_app, ?elem_of_cons, ?elem_of_app, ?elem_of_nil in *;
    repeat match goal with H : _ \/ _ |- _ => destruct H end; subst; auto; try done; eauto using in_concat_map.
Qed.

Lemma binders_child e c x : c ∈ children e -> x ∈ binders c -> x ∈ binders e.
Proof.
  intros Hc Hx. destruct e; cbn in Hc |- *; rewrite ?elem_of_app, ?elem_of_cons, ?elem_of_app, ?elem_of_nil in *;
    repeat match goal with H : _ \/ _ |- _ => destruct H end; subst; auto; try done; eauto using in_concat_map.
Qed.

(** ** An expression depends on its names only *)

Definition same_on (l : list string) (st st' : State) : Prop :=
  heap st = heap st' /\ old_heaps st = old_heaps st' /\ forall x, x ∈ l -> store st x = store st' x.

Lemma bind_vars_same_at f g vars vs x : f x = g x -> bind_vars f vars vs x = bind_vars g vars vs x.
Proof.
  unfold bind_vars. intros Hx. revert f g Hx. induction (combine vars vs) as [|[v w] l IH]; intros f g Hx; cbn; [done|].
  apply IH. unfold bind_var. by destruct (String.eqb _ _).
Qed.

Lemma bind_vars_other f vars vs x : x ∉ map LocalVar.name vars -> bind_vars f vars vs x = f x.
Proof.
  unfold bind_vars. revert f vs. induction vars as [|v vars IH]; intros f vs Hx; [done|].
  destruct vs as [|w vs]; [done|]. cbn. cbn in Hx. rewrite not_elem_of_cons in Hx. destruct Hx as [Hne Hx].
  rewrite IH by done. unfold bind_var. by destruct (String.eqb_spec x (LocalVar.name v)).
Qed.

Lemma same_on_bind_vars l st st' vars vs : same_on l st st' ->
  same_on l (with_store st (bind_vars (store st) vars vs)) (with_store st' (bind_vars (store st') vars vs)).
Proof. intros (H1 & H2 & H3). split; [done|]. split; [done|]. intros x Hx. cbn. apply bind_vars_same_at. auto. Qed.

Lemma same_on_bind_var l st st' x v : same_on l st st' ->
  same_on l (with_store st (bind_var (store st) x v)) (with_store st' (bind_var (store st') x v)).
Proof. intros (H1 & H2 & H3). split; [done|]. split; [done|]. intros y Hy. cbn. unfold bind_var. destruct (String.eqb y x); auto. Qed.

Lemma same_on_incl l l' st st' : (forall x, x ∈ l' -> x ∈ l) -> same_on l st st' -> same_on l' st st'.
Proof. intros Hi (H1 & H2 & H3). split_and!; auto. Qed.

Section Value.
Context `{InterpLaws}.

Lemma mapM_opt_ext2 {A B} (f g : A -> option B) l : Forall (fun x => f x = g x) l -> mapM_opt f l = mapM_opt g l.
Proof. induction 1 as [|x l Hx _ IH]; cbn; [done|]. by rewrite Hx, IH. Qed.

Lemma eval_same_on e : forall st st', same_on (names e) st st' -> eval e st = eval e st'.
Proof.
  induction e as [e IH] using children_ind. intros st st' Hs.
  assert (Hc : Forall (fun c => forall s1 s2, same_on (names e) s1 s2 -> eval c s1 = eval c s2) (children e)).
  { rewrite Forall_forall in IH |- *. intros c Hc s1 s2 H12. apply (IH c Hc). eapply same_on_incl; [|exact H12].
    intros x. by apply names_child. }
  clear IH. pose proof Hs as (H1 & H2 & H3).
  assert (Hl : forall es, Forall (fun c => forall s1 s2, same_on (names e) s1 s2 -> eval c s1 = eval c s2) es ->
    mapM_opt (fun e => eval e st) es = mapM_opt (fun e => eval e st') es).
  { intros es Hes. apply mapM_opt_ext2. eapply Forall_impl; [exact Hes|]. auto. }
  destruct e; cbn [eval children] in *; try done;
    repeat match goal with
    | H : Forall _ (_ :: _) |- _ => apply Forall_cons in H as [? ?]
    | H : Forall _ (_ ++ _) |- _ => apply Forall_app in H as [? ?]
    end;
    try (rewrite Hl by done; by rewrite ?H1);
    try (repeat match goal with H : forall s1 s2, _ -> eval ?e s1 = eval ?e s2 |- _ => rewrite (H st st' Hs); clear H end;
         unfold eval_field; by rewrite ?H1).
  - rewrite H3; [done|]. cbn. constructor.
  - rewrite H2. apply option_bind_ext_fun. intros h. auto using same_on_incl.
    match goal with H : forall s1 s2, _ -> eval ?e s1 = eval ?e s2 |- _ => apply H end. by split.
  - f_equal. apply quantifier_ext. intros vs. auto using same_on_bind_vars.
  - f_equal. apply quantifier_ext. intros vs. auto using same_on_bind_vars.
  - rewrite (H4 st st' Hs). apply option_bind_ext_fun. intros v. auto using same_on_bind_var.
Qed.
End Value.

(** ** What the replacer collects *)

Inductive subexpr : Expr -> Expr -> Prop :=
  | subexpr_refl e : subexpr e e
  | subexpr_child q c e : subexpr q c -> c ∈ children e -> subexpr q e.

Lemma subexpr_trans p q e : subexpr p q -> subexpr q e -> subexpr p e.
Proof. intros Hp Hq. induction Hq as [|q c e Hq IH Hc]; [done|]. eapply subexpr_child; [by apply IH|done]. Qed.

Lemma names_subexpr q e x : subexpr q e -> x ∈ names q -> x ∈ names e.
Proof. induction 1; [done|]. eauto using names_child. Qed.

(** The keys are subexpressions of [root]; the variables are numbered. *)
Definition collects (root : Expr) (s s' : Replacer) : Prop :=
  wrap_u32 (Replacer.counter s) = Replacer.counter s ->
  exists new, Replacer.map s' = (Replacer.map s ++ new)%list
    /\ Forall (fun u => subexpr (fst u) root) new
    /\ map (fun u => LocalVar.name (snd u)) new
        = map (fun i => let_name (wrap_u32 (Replacer.counter s + Z.of_nat i))) (seq 0 (length new))
    /\ Replacer.counter s' = wrap_u32 (Replacer.counter s + Z.of_nat (length new)).

Lemma wrap_wrap a b : wrap_u32 (wrap_u32 a + b) = wrap_u32 (a + b).
Proof. unfold wrap_u32. by rewrite Zplus_mod_idemp_l. Qed.

Lemma seq_offset a n : map (Nat.add a) (seq 0 n) = seq a n.
Proof. rewrite <- (Nat.add_0_r a) at 2. exact (fmap_add_seq a 0 n). Qed.

#[local] Instance collects_preorder root : PreOrder (collects root).
Proof.
  split.
  - intros s Hw. exists []. rewrite app_nil_r. cbn. by rewrite Z.add_0_r, Hw.
  - intros s1 s2 s3 H12 H23 Hw. destruct (H12 Hw) as (n1 & M1 & S1 & N1 & C1).
    destruct H23 as (n2 & M2 & S2 & N2 & C2); [rewrite C1; unfold wrap_u32; by apply Z.mod_mod|].
    exists (n1 ++ n2)%list. split_and!.
    + by rewrite M2, M1, app_assoc.
    + by apply Forall_app.
    + rewrite map_app, N1, N2, C1, length_app, seq_app, map_app. f_equal. cbn.
      rewrite <- (seq_offset (length n1)), map_map. apply map_ext. intros i. by rewrite wrap_wrap, <- Z.add_assoc, <- Nat2Z.inj_add.
    + by rewrite C2, C1, length_app, wrap_wrap, Nat2Z.inj_add, Z.add_assoc.
Qed.

Lemma insert_new {V} (m : HashMap.t Expr V) k v : HashMap.get m k = None -> HashMap.insert m k v = (m ++ [(k, v)])%list.
Proof.
  induction m as [|[k1 v1] m IH]; cbn; [done|]. destruct (k == k1); [done|]. intros Hg. by rewrite IH.
Qed.

Lemma replace_by_local_spec root q ty p s e' s' :
  subexpr q root -> replace_by_local q ty p s = Val (e', s') ->
  collects root s s' /\ exists l k, e' = Expr.Local l p /\ (k, l) ∈ Replacer.map s' /\ (k = q \/ (q == k) = true).
Proof.
  unfold replace_by_local, construct_fresh_local. intros Hq Hr. apply st_bind_val in Hr as (s0 & s1 & Hs & Hr).
  apply get_st_val in Hs. injection Hs as -> ->. destruct (HashMap.get (Replacer.map s) q) as [l|] eqn:Eg.
  - inv_st. simplify_eq. split; [by apply collects_preorder|]. apply HashMap.get_in in Eg as (k & Hin & Hk).
    exists l, k. split; [done|]. rewrite list_elem_of_In. auto.
  - inv_st. simplify_eq. cbn [Replacer.counter Replacer.map]. rewrite insert_new by done. split.
    + intros Hw. eexists [(q, _)]. cbn. split_and!; [done|by repeat constructor|by rewrite Z.add_0_r, Hw|done].
    + eexists _, q. split; [done|]. split; [|by left]. rewrite elem_of_app. right. constructor.
Qed.

(** Traversals of parts of [root] collect. *)
Definition keeps {A} (root : Expr) (m : ST Replacer Empty_set A) : Prop := forall s a s', m s = Val (a, s') -> collects root s s'.

Lemma keeps_bind {A B} root (m : ST Replacer Empty_set A) (f : A -> ST Replacer Empty_set B) :
  keeps root m -> (forall a, keeps root (f a)) -> keeps root (m ≫= f).
Proof.
  intros Hm Hf s b s' Hr. apply st_bind_val in Hr as (a & s1 & H1 & H2). etrans; [by eapply Hm|by eapply Hf].
Qed.

Lemma keeps_ret {A} root (a : A) : keeps root (mret a).
Proof. intros s b s' Hr. apply st_ret_val in Hr. injection Hr as -> ->. reflexivity. Qed.

Lemma keeps_sequence root (l : list (ST Replacer Empty_set Expr)) : Forall (keeps root) l -> keeps root (sequence l).
Proof.
  induction 1 as [|m l Hm _ IH]; cbn; [apply keeps_ret|]. apply keeps_bind; [done|]. intros e.
  apply keeps_bind; [done|]. intros es. apply keeps_ret.
Qed.

Lemma keeps_lift {A} root (o : option A) : keeps root (lift o).
Proof. intros s b s' Hr. apply lift_val in Hr as (a & -> & Hr). injection Hr as -> ->. reflexivity. Qed.

(** ** The replaced body has the value of the body *)

Section Replacing.
Context `{InterpLaws} (root : Expr) (M : HashMap.t Expr LocalVar).
Hypothesis fresh : forall q l, (q, l) ∈ M -> LocalVar.name l ∉ names root.
Hypothesis unbound : forall q l x, (q, l) ∈ M -> x ∈ names q -> x ∉ binders root.
Hypothesis same_value : forall q l e, (q, l) ∈ M -> subexpr e root -> (e == q) = true -> forall st, eval e st = eval q st.

(** The second state binds the collected variables. *)
Record related (st st2 : State) : Prop := {
  related_heap : heap st = heap st2;
  related_old : old_heaps st = old_heaps st2;
  related_store : forall x, x ∈ names root -> store st x = store st2 x;
  related_vars : forall q l, (q, l) ∈ M -> exists v, eval q st = Some v /\ store st2 (LocalVar.name l) = Some v
}.

Lemma related_same_on e st st2 : subexpr e root -> related st st2 -> same_on (names e) st st2.
Proof. intros He []. split_and!; eauto using names_subexpr. Qed.

(** Binding more variables: [f] and [g] say how. *)
Lemma related_extend st st2 f g :
  related st st2 ->
  (forall x, x ∈ names root -> f x = g x) ->
  (forall x, x ∉ binders root -> f x = store st x) ->
  (forall x, x ∉ names root -> g x = store st2 x) ->
  related (with_store st f) (with_store st2 g).
Proof.
  intros [R1 R2 R3 R4] Hfg Hf Hg. split; try done. intros q l Hin. destruct (R4 q l Hin) as (v & Hv & Hl).
  exists v. split; [|cbn; rewrite Hg; eauto]. rewrite <- Hv. apply eval_same_on. split_and!; try done.
  intros x Hx. cbn. eauto.
Qed.

Lemma related_bind_vars st st2 vars vs :
  (forall x, x ∈ map LocalVar.name vars -> x ∈ binders root) ->
  (forall x, x ∈ map LocalVar.name vars -> x ∈ names root) -> related st st2 ->
  related (with_store st (bind_vars (store st) vars vs)) (with_store st2 (bind_vars (store st2) vars vs)).
Proof.
  intros Hb Hn Hr. apply related_extend; [done|..]; intros x Hx.
  - apply bind_vars_same_at. by apply Hr.
  - apply bind_vars_other. auto.
  - apply bind_vars_other. auto.
Qed.

Lemma related_bind_var st st2 v w :
  LocalVar.name v ∈ binders root -> LocalVar.name v ∈ names root -> related st st2 ->
  related (with_store st (bind_var (store st) (LocalVar.name v) w)) (with_store st2 (bind_var (store st2) (LocalVar.name v) w)).
Proof.
  intros Hb Hn Hr. apply related_extend; [done|..]; intros x Hx; unfold bind_var;
    destruct (String.eqb_spec x (LocalVar.name v)); subst; try done. by apply Hr.
Qed.

Definition canon (s : Replacer) : Prop := wrap_u32 (Replacer.counter s) = Replacer.counter s.
Definition known (s : Replacer) : Prop := forall u, u ∈ Replacer.map s -> u ∈ M.

Lemma collects_canon s s' : collects root s s' -> canon s -> canon s'.
Proof. intros Hc Hw. destruct (Hc Hw) as (n & _ & _ & _ & C). unfold canon. rewrite C. unfold wrap_u32. by apply Z.mod_mod. Qed.

Lemma collects_known s s' : collects root s s' -> canon s -> known s' -> known s.
Proof.
  intros Hc Hw Hk u Hu. destruct (Hc Hw) as (n & E & _). apply Hk. rewrite E, elem_of_app. by left.
Qed.

Definition has_value (e' e : Expr) : Prop := forall st st2, related st st2 -> ole (eval e' st2) (eval e st).

Definition sound {A} (m : ST Replacer Empty_set A) (P : A -> Prop) : Prop :=
  forall s a s', canon s -> m s = Val (a, s') -> collects root s s' /\ (known s' -> P a).

Lemma sound_ret {A} (a : A) (P : A -> Prop) : P a -> sound (mret a) P.
Proof. intros Hp s b s' _ Hr. apply st_ret_val in Hr. injection Hr as -> ->. by split; [reflexivity|]. Qed.

Lemma sound_bind {A B} (m : ST Replacer Empty_set A) (f : A -> ST Replacer Empty_set B) P Q :
  sound m P -> (forall a, sound (f a) (fun b => P a -> Q b)) -> sound (m ≫= f) Q.
Proof.
  intros Hm Hf s b s' Hw Hr. apply st_bind_val in Hr as (a & s1 & H1 & H2).
  apply Hm in H1 as [C1 P1]; [|done]. pose proof (collects_canon _ _ C1 Hw) as Hw1.
  apply Hf in H2 as [C2 P2]; [|done]. split; [by etrans|]. intros Hk. apply P2; [done|]. apply P1.
  by eapply collects_known.
Qed.

Lemma sound_sequence (g : Expr -> ST Replacer Empty_set Expr) es :
  Forall (fun c => sound (g c) (fun e' => has_value e' c)) es ->
  sound (sequence (map go (map (fun c => Child c (g c)) es))) (fun es' => Forall2 has_value es' es).
Proof.
  induction 1 as [|c es Hc _ IH]; cbn; [by apply sound_ret|].
  eapply sound_bind; [exact Hc|]. intros e'. eapply sound_bind.
  - intros s a s' Hw Hr. apply IH in Hr as [C K]; [|done]. split; [exact C|exact K].
  - intros es'. apply sound_ret. by constructor.
Qed.

Lemma has_value_refl e : subexpr e root -> has_value e e.
Proof.
  intros He st st2 Hr v. by rewrite (eval_same_on e st st2) by (by apply related_same_on).
Qed.

Lemma sound_replace e ty p : subexpr e root -> sound (replace_by_local e ty p) (fun e' => has_value e' e).
Proof.
  intros He s e' s' Hw Hr. apply (replace_by_local_spec root) in Hr as (C & l & k & -> & Hin & Hk); [|done].
  split; [done|]. intros Hm st st2 Hs v Hv. apply Hm in Hin. destruct (related_vars _ _ Hs k l Hin) as (w & Hw' & Hl).
  cbn in Hv. unfold checked in Hv. rewrite Hl in Hv. cbn in Hv. destruct (sort_of_value w == _); [|done]. injection Hv as <-.
  destruct Hk as [->|Hk]; [done|]. by rewrite (same_value k l e Hin He Hk st).
Qed.

Lemma ole_mapM_opt2 {A B} (f g : A -> option B) l l' :
  Forall2 (fun x y => ole (f x) (g y)) l l' -> ole (mapM_opt f l) (mapM_opt g l').
Proof.
  induction 1 as [|x y l l' Hxy _ IH]; cbn; [apply ole_refl|].
  apply ole_bind; [done|]. intros a. apply ole_bind; [done|]. intros. apply ole_refl.
Qed.

Lemma ole_args es es' st st2 : related st st2 -> Forall2 has_value es' es ->
  ole (mapM_opt (fun e => eval e st2) es') (mapM_opt (fun e => eval e st) es).
Proof. intros Hr Hes. apply ole_mapM_opt2. eapply Forall2_impl; [exact Hes|]. intros x y Hxy. by apply Hxy. Qed.

(** The methods that are not overridden. *)
Lemma default_node_sound (g : Expr -> ST Replacer Empty_set Expr) e :
  (forall label body p, e <> Expr.LabelledOld label body p) -> subexpr e root ->
  Forall (fun c => sound (g c) (fun e' => has_value e' c)) (children e) ->
  sound (default_fold_node (Node.of_expr (fun c => Child c (g c)) e)) (fun e' => has_value e' e).
Proof.
  intros Hne He Hc.
  assert (Hb : forall x, x ∈ binders e -> x ∈ binders root) by (clear -He; intros x; induction He; eauto using binders_child).
  assert (Hn : forall x, x ∈ names e -> x ∈ names root) by (intros x; by apply names_subexpr).
  destruct e; cbn [Node.of_expr default_fold_node children go] in *; try (by edestruct Hne);
    rewrite ?Forall_app, ?Forall_cons in Hc; destruct_and?;
    repeat (eapply sound_bind; [first [eassumption | by apply sound_sequence]|intros ?]); apply sound_ret; intros;
    try (by apply has_value_refl); intros st st2 Hr; cbn [eval]; try (apply ole_none);
    repeat first [apply ole_checked | apply ole_eval_field | apply ole_eval_binop | apply ole_eval_container
      | (apply ole_quantifier; intros ?) | (apply ole_args; [done|by assumption])
      | (match goal with H : has_value ?e' _ |- ole (eval ?e' _) _ => apply H end) | done | ole_step].
  all: try (rewrite (related_heap _ _ Hr); apply ole_refl).
  all: try (apply related_bind_vars; [..|done]; intros x Hx; [apply Hb|apply Hn]; cbn; rewrite elem_of_app; by left).
  all: try (apply related_bind_var; [..|done]; [apply Hb|apply Hn]; cbn; constructor).
Qed.

Lemma sound_get (f : Replacer -> ST Replacer Empty_set Expr) P : (forall s, sound (f s) P) -> sound (s ← get_st; f s) P.
Proof.
  intros Hf s e' s' Hw Hr. apply st_bind_val in Hr as (x & s1 & Hs & Hr). apply get_st_val in Hs. injection Hs as -> ->.
  by eapply Hf.
Qed.

Lemma sound_lift {A} (o : option A) (f : A -> ST Replacer Empty_set Expr) P : (forall a, sound (f a) P) -> sound (a ← lift o; f a) P.
Proof.
  intros Hf s e' s' Hw Hr. apply st_bind_val in Hr as (x & s1 & Hs & Hr). apply lift_val in Hs as (a & -> & Hs).
  injection Hs as -> ->. by eapply Hf.
Qed.

Lemma replacer_sound e : subexpr e root -> sound (run_fold replacer e) (fun e' => has_value e' e).
Proof.
  induction e as [e IH] using children_ind. intros He. rewrite run_fold_unfold. unfold default_fold_expr.
  assert (Hc : Forall (fun c => sound (run_fold replacer c) (fun e' => has_value e' c)) (children e)).
  { rewrite Forall_forall in IH |- *. intros c Hin. apply IH; [done|]. eapply subexpr_trans; [|exact He].
    eapply subexpr_child; [constructor|done]. }
  pose proof (fun Hne => default_node_sound (run_fold replacer) e Hne He Hc) as Hd. cbn [fold replacer fold_node default_fold].
  destruct e; try (by apply Hd); cbn [Node.of_expr fold_node replacer orig go] in *.
  - destruct e; try (by apply sound_ret, has_value_refl). by apply sound_replace.
  - destruct (is_place e); [by apply sound_replace|by apply sound_ret, has_value_refl].
  - apply sound_get. intros s. do 2 (apply sound_lift; intros ?). destruct (_ || _); [by apply Hd|by apply sound_replace].
  - by apply sound_ret, has_value_refl.
Qed.
End Replacing.

(** ** The [let]s in front of the quantifier *)

Section Hoisting.
Context `{InterpLaws}.

Lemma eval_lets root p M : forall e st v,
  NoDup (map (fun u => LocalVar.name (snd u)) M) ->
  Forall (fun u : Expr * LocalVar => subexpr (fst u) root /\ LocalVar.name (snd u) ∉ names root) M ->
  eval (foldl (wrap_let p) e M) st = Some v ->
  exists st2, related root M st st2 /\ eval e st2 = Some v
    /\ forall x, x ∉ map (fun u => LocalVar.name (snd u)) M -> store st2 x = store st x.
Proof.
  induction M as [|[q l] M IH] using rev_ind; intros e st v Hnd Hf Hv.
  - exists st. split; [|done]. split; try done. intros q l []%elem_of_nil.
  - rewrite map_app in Hnd. apply NoDup_app in Hnd as (Hnd & Hl & _). cbn in Hl.
    apply Forall_app in Hf as [Hf [[Hq Hln] _]%Forall_cons]. cbn in Hq, Hln.
    rewrite foldl_app in Hv. cbn in Hv. apply bind_Some in Hv as (w & Hw & Hv).
    apply IH in Hv as (st2 & [R1 R2 R3 R4] & He & Hs); [|done..]. cbn in R1, R2, R3, R4, Hs.
    assert (Hlm : LocalVar.name l ∉ map (fun u => LocalVar.name (snd u)) M) by (intros ?; eapply Hl; [done|constructor]).
    assert (Hb : forall x, x <> LocalVar.name l -> bind_var (store st) (LocalVar.name l) w x = store st x)
      by (intros x Hx; unfold bind_var; by destruct (String.eqb_spec x (LocalVar.name l))).
    exists st2. split; [split; try done|split; [done|]].
    + intros x Hx. rewrite <- R3 by done. rewrite Hb; [done|congruence].
    + intros q' l' [Hin|Hin%list_elem_of_singleton]%elem_of_app; [|simplify_eq].
      * destruct (R4 q' l' Hin) as (w' & Hw' & Hs'). exists w'. split; [|done]. rewrite <- Hw'. apply eval_same_on.
        split_and!; try done. intros x Hx. cbn. rewrite Hb; [done|]. intros ->.
        rewrite Forall_forall in Hf. destruct (Hf _ Hin) as [Hq' _]. cbn in Hq'. by apply Hln, (names_subexpr q').
      * exists w. split; [done|]. rewrite Hs by done. unfold bind_var. by rewrite String.eqb_refl.
    + intros x Hx. rewrite map_app, elem_of_app in Hx. rewrite Hs by tauto. apply Hb. intros ->. apply Hx. right. constructor.
Qed.

(** The counter does not overflow, and no collected expression mentions a
    variable that is bound in [root]. *)
Definition hoistable (root : Expr) (variables : list LocalVar) (body : Expr) (c : Z) : Prop :=
  forall b' r, run_fold replacer body (Replacer.new variables c) = Val (b', r) ->
    (c + Z.of_nat (length (Replacer.map r)) < 4294967296)%Z
    /\ forall q l x, (q, l) ∈ Replacer.map r -> x ∈ names q -> x ∉ binders root.

Lemma let_names_distinct c n : (0 <= c)%Z -> (c + Z.of_nat n < 4294967296)%Z ->
  NoDup (map (fun i => let_name (wrap_u32 (c + Z.of_nat i))) (seq 0 n)).
Proof.
  intros Hc Hn. rewrite (map_ext_in _ (fun i => let_name (c + Z.of_nat i))).
  - apply NoDup_fmap_2; [|apply NoDup_seq]. intros i j E%string_app_inj%(inj pretty). lia.
  - intros i Hi%in_seq. unfold wrap_u32. rewrite Z.mod_small by lia. done.
Qed.

(** Binding old expressions, fields and operations by [let] in front of a
    universal quantifier is sound: where the result has a value, the
    quantifier has it too.  For this, the names [_LET_k] must not occur in
    the quantifier, equal expressions must have equal values (functions are
    not overloaded), and the collected expressions must not mention bound
    variables. *)
(** C11. Binding old expressions, fields and operations by `let` in front of a universal
    quantifier is sound: where the result has a value, the quantifier has the same value. This
    is if the names `_LET_k` are not used, what is bound does not mention variables that the
    quantifier binds, subexpressions of the quantifier that are equal for `==` (which ignores
    positions and types) have the same value in every state, and the counter of the names stays
    below 2^32. *)
Theorem hoist_forall_sound variables triggers body p c e' c' :
  let root := Expr.ForAll variables triggers body p in
  hoist_forall variables triggers body p c = Val (e', c') ->
  (0 <= c < 4294967296)%Z ->
  (forall k, let_name k ∉ names root) ->
  (forall q e, subexpr q root -> subexpr e root -> (e == q) = true -> forall st, eval e st = eval q st) ->
  hoistable root variables body c ->
  forall st, ole (eval e' st) (eval root st).
Proof.
  intros root Hr Hc Hfresh Hsame Hh st. unfold hoist_forall in Hr. inv_st.
  destruct (run_fold replacer body _) as [[b' r]|[]|] eqn:Eb; [|done]. inv_st.
  destruct (Hh b' r Eb) as [Hlen Hnames].
  assert (Hw : canon (Replacer.new variables c)) by (unfold canon, wrap_u32; cbn; by apply Z.mod_small).
  assert (Hbody : subexpr body root) by (eapply subexpr_child; constructor).
  assert (Hcol : collects root (Replacer.new variables c) r).
  { edestruct (replacer_sound root []) as [Hcol _]; [..|exact Hw|exact Eb|exact Hcol]; try done; intros *; by intros ?%elem_of_nil. }
  destruct (Hcol Hw) as (new & Em & Hsub & En & Ec). cbn in Em, En, Ec. rewrite <- Em in Hsub, En, Ec. clear new Em.
  assert (Hlets : Forall (fun u => subexpr (fst u) root /\ LocalVar.name (snd u) ∉ names root) (Replacer.map r)).
  { rewrite Forall_forall in Hsub |- *. intros u Hu. split; [by apply Hsub|].
    apply list_elem_of_In, (in_map (fun u => LocalVar.name (snd u))) in Hu. rewrite En in Hu.
    apply in_map_iff in Hu as (k & <- & _). apply Hfresh. }
  assert (Hval : has_value root (Replacer.map r) b' body).
  { edestruct (replacer_sound root (Replacer.map r)) as [_ Hval]; [..|exact Hw|exact Eb|by apply Hval; intros u Hu]; try done.
    - intros q l Hin. rewrite Forall_forall in Hlets. by destruct (Hlets _ Hin).
    - intros q l e Hin He Heq st'. rewrite Forall_forall in Hsub. apply (Hsame q e); [apply (Hsub _ Hin)|done|done]. }
  intros v Hv. cbn [eval root].
  assert (Hfor : exists st2, related root (Replacer.map r) st st2
    /\ eval (Expr.ForAll variables triggers b' p) st2 = Some v).
  { destruct (c <? Replacer.counter r)%Z eqn:Elt.
    - apply (eval_lets root) in Hv as (st2 & Hrel & Hv & _); [by exists st2| |done]. rewrite En. apply let_names_distinct; lia.
    - apply Z.ltb_ge in Elt. rewrite Ec in Elt. unfold wrap_u32 in Elt. rewrite Z.mod_small in Elt by lia.
      assert (Hnil : Replacer.map r = []) by (destruct (Replacer.map r); [done|cbn in Elt; lia]). rewrite Hnil.
      exists st. split; [|done]. split; try done. by intros ? ? ?%elem_of_nil. }
  destruct Hfor as (st2 & Hrel & Hv2). revert Hv2. apply ole_checked, ole_quantifier. intros vs. apply Hval.
  apply (related_bind_vars root); try done; try (by intros *; apply Hnames).
  - intros q l Hin. by destruct (proj1 (Forall_forall _ _) Hlets _ Hin).
  - intros x Hx. cbn. rewrite elem_of_app. by left.
  - intros x Hx. cbn. rewrite elem_of_app. by left.
Qed.
End Hoisting.

(** ** The unfoldings *)

Lemma erase_wrapped p us e : erase (foldl (wrap_unfolding p) e us) = erase e.
Proof. revert e. induction us as [|[[name args] [[q v] ?]] us IH]; intros e; [done|]. cbn. by rewrite IH. Qed.

#[local] Instance any_change_preorder : PreOrder (fun _ _ : UnfoldingExtractor => True).
Proof. by split. Qed.

Lemma extractor_adds e : adds_unfoldings (fun _ _ => True) (run_fold unfolding_extractor e) e.
Proof.
  induction e as [e IH] using children_ind. rewrite run_fold_unfold. unfold default_fold_expr.
  pose proof (fun Hne => default_node_adds (fun _ _ => True) (run_fold unfolding_extractor) e Hne IH) as Hd.
  cbn [fold unfolding_extractor default_fold fold_node].
  destruct e; try (by apply Hd); cbn [Node.of_expr children] in *; rewrite ?Forall_app, ?Forall_cons in IH; destruct_and?;
    intros s e' s' Hr; (split; [done|]); inv_st; cbn [orig go] in *.
  - done.
  - case_match; inv_st; [|by rewrite map_map, map_id].
    match goal with H : adds_unfoldings _ (run_fold _ e) e, Hm : run_fold _ e _ = _ |- _ => by apply H in Hm as [_ ?] end.
  - match goal with H : adds_unfoldings _ (run_fold _ e) e, Hm : run_fold _ e _ = _ |- _ => apply H in Hm as [_ He] end.
    rewrite erase_wrapped. cbn. by rewrite He.
Qed.

(** Pulling the unfoldings out of the quantifiers only moves unfoldings, so
    the expression keeps its value. *)
Theorem extractor_moves_unfoldings `{InterpLaws} e e' :
  replace_expr_unfolding e = Some e' -> unfoldings_added e e'.
Proof.
  unfold replace_expr_unfolding, run_infallible. intros Hr. inv_option. destruct (run_fold _ e _) as [r|[]|] eqn:E; [|done].
  injection Hx as ->. destruct x as [e1 s1]. apply extractor_adds in E as [_ E]. cbn in Hr. subst. by apply erase_unfoldings_added.
Qed.

(** ** Witnesses *)

Definition int_var (x : string) : Expr := expr_of_var (LocalVar.new x Ty.Int).
Definition quantified_x : LocalVar := LocalVar.new "x" Ty.Int.

(** [forall x :: x > a + b]: the sum is bound by a [let]. *)
Definition above_sum : Expr :=
  Expr.BinOp BinOpKind.GtCmp (int_var "x") (Expr.BinOp BinOpKind.Add (int_var "a") (int_var "b") Position.default) Position.default.

Definition hoisted_sum : Expr :=
  Expr.LetExpr (LocalVar.new "_LET_0" Ty.Int) (Expr.BinOp BinOpKind.Add (int_var "a") (int_var "b") Position.default)
    (Expr.ForAll [quantified_x] []
       (Expr.BinOp BinOpKind.GtCmp (int_var "x") (int_var "_LET_0") Position.default) Position.default)
    Position.default.

Lemma hoist_forall_sound_witness :
  hoist_forall [quantified_x] [] above_sum Position.default 0%Z = Val (hoisted_sum, 1%Z)
  /\ forall st, ole (@eval sample_interp hoisted_sum st)
       (@eval sample_interp (Expr.ForAll [quantified_x] [] above_sum Position.default) st).
Proof.
  assert (E : hoist_forall [quantified_x] [] above_sum Position.default 0%Z = Val (hoisted_sum, 1%Z))
    by (vm_compute; reflexivity).
  split; [exact E|].
  apply (@hoist_forall_sound sample_interp sample_laws _ _ _ _ _ _ _ E).
  - split; [discriminate|reflexivity].
  - intros k Hk. cbn in Hk. repeat (apply elem_of_cons in Hk as [Hk|Hk]; [discriminate Hk|]). by apply elem_of_nil in Hk.
  - intros q e Hq He.
    assert (Hall : forall c, subexpr c (Expr.ForAll [quantified_x] [] above_sum Position.default) ->
      c ∈ [Expr.ForAll [quantified_x] [] above_sum Position.default; above_sum; int_var "x";
           Expr.BinOp BinOpKind.Add (int_var "a") (int_var "b") Position.default; int_var "a"; int_var "b"]).
    { intros c Hc. repeat (inversion Hc; subst; [repeat constructor|]; clear Hc;
        repeat match goal with
        | H : _ ∈ children _ |- _ => cbn in H
        | H : _ ∈ [] |- _ => by apply elem_of_nil in H
        | H : _ ∈ _ :: _ |- _ => apply elem_of_cons in H as [->|H]
        end; rename select (subexpr _ _) into Hc). }
    apply Hall in Hq, He.
    repeat (apply elem_of_cons in Hq as [->|Hq]; [
      repeat (apply elem_of_cons in He as [->|He]; [intros Heq st; first [reflexivity | vm_compute in Heq; discriminate Heq]|]);
      by apply elem_of_nil in He|]).
    by apply elem_of_nil in Hq.
  - intros b' r Hr. vm_compute in Hr. injection Hr as <- <-. split; [reflexivity|].
    intros q l x [Hin|Hin%elem_of_nil]%elem_of_cons; [|done]. injection Hin as -> ->. cbn.
    intros Hx Hb. repeat (apply elem_of_cons in Hx as [->|Hx]; [repeat (apply elem_of_cons in Hb as [Hb|Hb]; [discriminate Hb|]); by apply elem_of_nil in Hb|]).
    by apply elem_of_nil in Hx.
Defined.
