(* ===== verification/VarPurifier.v ===== *)
(** * Purification of heap-allocated local variables

    [prusti-common/src/vir/optimizations/methods/purifier.rs]: a local
    variable of type [usize] or [isize] that is only used through its field
    [val_int] becomes a variable of type [Int].  The configuration
    ([check_overflows] and [encode_unsigned_num_constraint]) is an argument. *)

From S2P Require Import Prelude Ast ExprEq ExprPlace ExprTransformers ExprOps Collections Borrows Stmt.
From S2P Require Import Items Cfg QuantifierFixer.

Definition is_purifiable_predicate (name : string) : bool := (name == "usize") || (name == "isize").
Definition is_purifiable_method (name : string) : bool := name == "builtin$havoc_ref".

(** ** [VarCollector] *)

Module VarCollector.
Record VarCollector : Type := make {
  all_vars : HashSet.t LocalVar;
  (** vars that cannot be purified *)
  impure_vars : HashSet.t LocalVar;
  (** are we in a pure context? *)
  is_pure_context : bool;
  replacements : HashMap.t LocalVar LocalVar
}.

Definition with_context (s : VarCollector) (b : bool) : VarCollector :=
  make (all_vars s) (impure_vars s) b (replacements s).
Definition add_replacement (s : VarCollector) (var new_var : LocalVar) : VarCollector :=
  make (all_vars s) (impure_vars s) (is_pure_context s) (HashMap.insert (replacements s) var new_var).
Definition forget (s : VarCollector) (var : LocalVar) : VarCollector :=
  make (HashSet.remove (all_vars s) var) (impure_vars s) (is_pure_context s) (replacements s).
End VarCollector.
Abbreviation VarCollector := VarCollector.VarCollector.

Definition check_local_var (local_var : LocalVar) : Walk VarCollector := fun s =>
  Some (VarCollector.make (HashSet.insert (VarCollector.all_vars s) local_var)
          (if VarCollector.is_pure_context s then VarCollector.impure_vars s
           else HashSet.insert (VarCollector.impure_vars s) local_var)
          (VarCollector.is_pure_context s) (VarCollector.replacements s)).

(** The context is saved before and restored after [w]. *)
Definition in_context (w : Walk VarCollector) : Walk VarCollector := fun s =>
  s' ← w s; Some (VarCollector.with_context s' (VarCollector.is_pure_context s)).

Definition set_pure : Walk VarCollector := fun s => Some (VarCollector.with_context s true).

(** [if let ast::Expr::Local(_, _) = args[0]] of a purifiable predicate. *)
Definition purifiable_args (name : string) (args : list Expr) : Walk VarCollector := fun s =>
  if is_purifiable_predicate name then
    first ← head args; if is_local first then set_pure s else Some s
  else Some s.

Definition with_type (var : LocalVar) (typ : Ty) : LocalVar := LocalVar.new (LocalVar.name var) typ.

Definition var_collector : ExprWalker VarCollector :=
  {| walk := default_walk;
     walk_local_var := check_local_var;
     walk_node := fun n =>
       match n with
       | Node.PredicateAccessPredicate name arg _ _ =>
           in_context (walk_then (fun s =>
             match orig arg with
             | Expr.Local var _ =>
                 if is_purifiable_predicate name
                 then set_pure (VarCollector.add_replacement s var (with_type var Ty.Int)) else Some s
             | _ => Some s
             end) (go arg))
       | Node.Unfolding name args body _ _ _ =>
           in_context (walk_then (purifiable_args name (map orig args))
             (walk_then (walk_list (map go args)) (go body)))
       | Node.Field receiver field _ =>
           in_context (walk_then (fun s =>
             if Field.name field == "val_int" then
               set_pure match orig receiver with
                        | Expr.Local var _ => VarCollector.add_replacement s var (with_type var (Field.typ field))
                        | _ => s
                        end
             else Some s) (go receiver))
       | Node.LetExpr bound_var expr body _ =>
           walk_then (go expr) (walk_then (go body) (fun s => Some (VarCollector.forget s bound_var)))
       | Node.ForAll vars _ body _ =>
           walk_then (go body) (fun s => Some (foldl VarCollector.forget s vars))
       | n => default_walk_node check_local_var n
       end |}.

Definition walk_pred_args (name : string) (args : list Expr) : Walk VarCollector :=
  in_context (walk_then (purifiable_args name args) (walk_list (map (run_walk var_collector) args))).

Definition var_stmt_collector : StmtWalker VarCollector :=
  {| walk_stmt := fun _ dflt => dflt;
     walk_expr_of := run_walk var_collector;
     walk_local_var_of := check_local_var;
     walk_snode := fun n =>
       match n with
       | SNode.MethodCall method_name args targets =>
           in_context (walk_then (if is_purifiable_method method_name then set_pure else walk_nop)
             (walk_then (fun s => _ ← assert_ (Nat.eqb (length args) 0); Some s)
                (walk_list (map check_local_var targets))))
       | SNode.Unfold predicate_name args _ _ => walk_pred_args predicate_name args
       | SNode.Fold predicate_name args _ _ _ => walk_pred_args predicate_name args
       | n => default_walk_snode (run_walk var_collector) check_local_var n
       end |}.

(** ** [VarPurifier] *)

Section VarPurifier.
Context (check_overflows encode_unsigned_num_constraint : bool).
Context (pure_vars : HashSet.t LocalVar) (replacements : HashMap.t LocalVar LocalVar).

Definition is_pure_var (expr : Expr) : bool :=
  match expr with Expr.Local var _ => HashSet.contains pure_vars var | _ => false end.

Definition get_replacement (expr : Expr) : option Expr :=
  match expr with
  | Expr.Local var p => replacement ← HashMap.get replacements var; Some (Expr.Local replacement p)
  | _ => None
  end.

(** [std::usize::MAX] of a 64-bit machine. *)
Definition usize_max : Z := 18446744073709551615.

Definition get_replacement_bounds (var_expr : Expr) : option Expr :=
  replacement ← get_replacement var_expr;
  Some (if check_overflows then
          Ex.and (Ex.ge_cmp replacement (expr_of_i32 0)) (Ex.ge_cmp (expr_of_usize usize_max) replacement)
        else if encode_unsigned_num_constraint then Ex.ge_cmp replacement (expr_of_i32 0)
        else expr_of_bool true).

Definition var_purifier : ExprFolder unit Empty_set :=
  {| fold := default_fold;
     fold_node := fun n =>
       match n with
       | Node.Local local_var p =>
           _ ← lift (assert_ (negb (HashSet.contains pure_vars local_var))); mret (Expr.Local local_var p)
       | Node.PredicateAccessPredicate name arg perm_amount p =>
           if is_purifiable_predicate name && is_pure_var (orig arg) then lift (get_replacement_bounds (orig arg))
           else arg ← go arg; mret (Expr.PredicateAccessPredicate name arg perm_amount p)
       | Node.FieldAccessPredicate receiver perm_amount p =>
           match orig receiver with
           | Expr.Field (Expr.Local var _) _ _ =>
               if HashSet.contains pure_vars var then mret (expr_of_bool true)
               else receiver ← go receiver; mret (Expr.FieldAccessPredicate receiver perm_amount p)
           | _ => receiver ← go receiver; mret (Expr.FieldAccessPredicate receiver perm_amount p)
           end
       | Node.Unfolding name args expr perm variant p =>
           match args with
           | [arg] =>
               if is_purifiable_predicate name && is_pure_var (orig arg) then go expr
               else expr ← go expr; mret (Expr.Unfolding name (map orig args) expr perm variant p)
           | _ => panic
           end
       | Node.Field receiver field p =>
           if is_pure_var (orig receiver) then lift (get_replacement (orig receiver))
           else receiver ← go receiver; mret (Expr.Field receiver field p)
       | n => default_fold_node n
       end |}.

Definition purify_var_expr (e : Expr) : ST unit Empty_set Expr := run_fold var_purifier e.

Definition havoc_name (t : Ty) : option string :=
  match t with
  | Ty.Int => Some "builtin$havoc_int"
  | Ty.Bool => Some "builtin$havoc_bool"
  | Ty.TypedRef _ => Some "builtin$havoc_ref"
  | Ty.Domain _ | Ty.Snapshot _ | Ty.Seq _ => None
  end.

Definition var_stmt_purifier : StmtFolder unit Empty_set :=
  {| fold_stmt := fun _ dflt => dflt;
     fold_expr_of := purify_var_expr;
     fold_snode := fun n =>
       match n with
       | SNode.Unfold predicate_name args perm_amount variant =>
           match args with
           | [arg] =>
               if is_purifiable_predicate predicate_name && is_pure_var arg
               then new_expr ← lift (get_replacement_bounds arg); mret (Stmt.Inhale new_expr)
               else args ← sequence (map purify_var_expr args); mret (Stmt.Unfold predicate_name args perm_amount variant)
           | _ => panic
           end
       | SNode.Fold predicate_name args perm_amount variant p =>
           match args with
           | [arg] =>
               if is_purifiable_predicate predicate_name && is_pure_var arg
               then new_expr ← lift (get_replacement_bounds arg); mret (Stmt.Assert new_expr p)
               else args ← sequence (map purify_var_expr args); mret (Stmt.Fold predicate_name args perm_amount variant p)
           | _ => panic
           end
       | SNode.MethodCall name args targets =>
           match targets with
           | [target] =>
               if HashSet.contains pure_vars target then
                 replacement ← lift (HashMap.get replacements target);
                 name ← lift (havoc_name (LocalVar.typ replacement));
                 args ← sequence (map purify_var_expr args);
                 mret (Stmt.MethodCall name args [replacement])
               else args ← sequence (map purify_var_expr args); mret (Stmt.MethodCall name args targets)
           | _ => panic
           end
       | n => default_fold_snode purify_var_expr n
       end |}.
End VarPurifier.

(** ** [purify_vars] *)

Definition collect_vars (method : CfgMethod) : option VarCollector :=
  let return_var := LocalVar.new "_0" (Ty.TypedRef "") in
  walk_method method var_stmt_collector var_collector
    (VarCollector.make [] (HashSet.insert [] return_var) false HashMap.empty).

Definition pure_vars_of (c : VarCollector) : HashSet.t LocalVar :=
  HashSet.from_list (List.filter (fun var => negb (HashSet.contains (VarCollector.impure_vars c) var)) (VarCollector.all_vars c)).

Definition fix_var (pure_vars : HashSet.t LocalVar) (replacements : HashMap.t LocalVar LocalVar) (var : LocalVar) :
    option LocalVar :=
  if HashSet.contains pure_vars var then HashMap.get replacements var else Some var.

Definition purify_vars (check_overflows encode_unsigned_num_constraint : bool) (method : CfgMethod) : option CfgMethod :=
  collector ← collect_vars method;
  let pure_vars := pure_vars_of collector in
  let replacements := VarCollector.replacements collector in
  method ← match fold_cfg_stmts (var_stmt_purifier check_overflows encode_unsigned_num_constraint pure_vars replacements)
                   method tt with
           | Val (method, _) => Some method
           | _ => None
           end;
  local_vars ← mapM_opt (fix_var pure_vars replacements) (CfgMethod.local_vars method);
  Some (CfgMethod.with_local_vars method local_vars).
