(* ===== verification/Purification.v ===== *)
(** * Purification of a method body

    [prusti-common/src/vir/optimizations/purification/mod.rs]: integer and
    Boolean local variables that are only used through their fields become
    values. *)

From S2P Require Import Prelude Ast ExprEq ExprPlace ExprTransformers ExprOps Collections Typaram ExprReplace.
From S2P Require Import Borrows Stmt.
From S2P Require Import Items Cfg Display QuantifierFixer.

Definition translate_type (typ : Ty) : option Ty :=
  match typ with
  | Ty.TypedRef name =>
      if (name == "i32") || (name == "usize") || (name == "u32") then Some Ty.Int
      else if name == "bool" then Some Ty.Bool
      else None
  (* The type is already translated. *)
  | typ => Some typ
  end.

Definition SUPPORTED_TYPES : list string := ["bool"; "i32"; "usize"; "u32"].

(** ** [PurifiableVariableCollector]: the state is the field [vars] *)

Definition remove_local (local_var : LocalVar) : Walk (HashSet.t string) := fun vars =>
  Some (HashSet.remove vars (LocalVar.name local_var)).

Definition purifiable_collector : ExprWalker (HashSet.t string) :=
  {| walk := default_walk;
     walk_local_var := default_walk_local_var;
     walk_node := fun n =>
       match n with
       | Node.Local local_var _ => remove_local local_var
       | Node.Field receiver _ _ => match orig receiver with Expr.Local _ _ => walk_nop | _ => go receiver end
       | n => default_walk_node default_walk_local_var n
       end |}.

Definition purifiable_stmt_collector : StmtWalker (HashSet.t string) :=
  {| walk_stmt := fun _ dflt => dflt;
     walk_expr_of := default_walk_expr_of;
     walk_local_var_of := default_walk_local_var_of;
     walk_snode := fun n =>
       match n with
       | SNode.Assign _ expr _ => run_walk purifiable_collector expr
       | n => default_walk_snode default_walk_expr_of default_walk_local_var_of n
       end |}.

(** ** [Purifier] *)

Section Purifier.
Context `{RegexCrate} (targets : HashSet.t string) (predicates : list Predicate).

Definition is_target (local : LocalVar) : bool := HashSet.contains targets (LocalVar.name local).

(** The body of the first struct predicate of that name. *)
Fixpoint find_predicate (preds : list Predicate) (predicate_name : string) : option Expr :=
  match preds with
  | [] => None
  | Predicate.Struct p :: preds' =>
      if StructPredicate.name p == predicate_name then StructPredicate.body p
      else find_predicate preds' predicate_name
  | _ :: preds' => find_predicate preds' predicate_name
  end.

Definition translate_local (l : LocalVar) (p : Position) : ST unit Empty_set Expr :=
  typ ← lift (translate_type (LocalVar.typ l)); mret (Expr.Local (LocalVar.new (LocalVar.name l) typ) p).

Definition body_purifier : ExprFolder unit Empty_set :=
  {| fold := default_fold;
     fold_node := fun n =>
       match n with
       | Node.Local local p => if is_target local then translate_local local p else mret (Expr.Local local p)
       | Node.Field receiver field p =>
           rec ← go receiver;
           match rec with
           | Expr.Local l lp => if is_target l then translate_local l lp else mret (Expr.Field rec field p)
           | _ => mret (Expr.Field rec field p)
           end
       | Node.PredicateAccessPredicate name arg perm_amount p =>
           match orig arg with
           | Expr.Local local _ =>
               if is_target local then mret (expr_of_bool true)
               else arg ← go arg; mret (Expr.PredicateAccessPredicate name arg perm_amount p)
           | _ => arg ← go arg; mret (Expr.PredicateAccessPredicate name arg perm_amount p)
           end
       | Node.FieldAccessPredicate receiver perm_amount p =>
           match orig receiver with
           | Expr.Field (Expr.Local l _) _ _ =>
               if is_target l then mret (expr_of_bool true)
               else mret (Expr.FieldAccessPredicate (orig receiver) perm_amount p)
           | _ => mret (Expr.FieldAccessPredicate (orig receiver) perm_amount p)
           end
       | Node.Unfolding name args expr perm variant p =>
           match map orig args with
           | [Expr.Local local _] =>
               if is_target local then go expr
               else args ← sequence (map go args); expr ← go expr; mret (Expr.Unfolding name args expr perm variant p)
           | _ => args ← sequence (map go args); expr ← go expr; mret (Expr.Unfolding name args expr perm variant p)
           end
       | Node.LabelledOld label body p =>
           folded_body ← go body;
           dependent ← lift (is_heap_dependent folded_body);
           mret (if (dependent : bool) then Expr.LabelledOld label folded_body p else folded_body)
       | n => default_fold_node n
       end |}.

Definition purify_body_expr (e : Expr) : ST unit Empty_set Expr := run_fold body_purifier e.

(** The value of the source of an assignment to a purified variable. *)
Definition value_of_source (source : Expr) : option Expr :=
  typ ← get_type source;
  match typ with
  | Ty.TypedRef name =>
      if name == "bool" then Some (field_place source (Field.new "val_bool" Ty.Bool))
      else if (name == "i32") || (name == "usize") || (name == "u32")
      then Some (field_place source (Field.new "val_int" Ty.Int))
      else None
  | _ => None
  end.

Definition assigned_source (target source : Expr) : option Expr :=
  match target with
  | Expr.Local local _ => if is_target local then value_of_source source else Some source
  | _ => Some source
  end.

(** The predicate of a purified variable [l], as a fact about its value. *)
Definition purified_predicate (predicate_name : string) (body : Expr) (l : LocalVar) : ST unit Empty_set Expr :=
  replaced ← lift (replace_place body (expr_of_var (LocalVar.new "self" (Ty.TypedRef predicate_name))) (expr_of_var l));
  purified ← lift (purify replaced);
  purify_body_expr purified.

Definition target_of (args : list Expr) : option LocalVar :=
  match args with
  | [Expr.Local l _] => if is_target l then Some l else None
  | _ => None
  end.

Definition stmt_purifier : StmtFolder unit Empty_set :=
  {| fold_stmt := fun _ dflt => dflt;
     fold_expr_of := purify_body_expr;
     fold_snode := fun n =>
       match n with
       | SNode.Assign target source kind =>
           source ← lift (assigned_source target source);
           target ← purify_body_expr target;
           source ← purify_body_expr source;
           mret (Stmt.Assign target source kind)
       | SNode.MethodCall name args ts =>
           if starts_with name "builtin$havoc" && match ts with [t] => is_target t | _ => false end
           then mret (Stmt.Comment ("replaced havoc call for [" ++ str_join ", " (map LocalVar.to_debug_string ts) ++ "]"))
           else args ← sequence (map purify_body_expr args); mret (Stmt.MethodCall name args ts)
       | SNode.Fold predicate_name args perm_amount variant p =>
           match target_of args with
           | Some l =>
               match find_predicate predicates predicate_name with
               | Some predicate => e ← purified_predicate predicate_name predicate l; mret (Stmt.Assert e p)
               | None => mret (Stmt.Comment "replaced fold")
               end
           | None => args ← sequence (map purify_body_expr args); mret (Stmt.Fold predicate_name args perm_amount variant p)
           end
       | SNode.Unfold predicate_name args perm_amount variant =>
           match target_of args with
           | Some l =>
               match find_predicate predicates predicate_name with
               | Some predicate => e ← purified_predicate predicate_name predicate l; mret (Stmt.Inhale e)
               | None => mret (Stmt.Comment "replaced unfold")
               end
           | None => args ← sequence (map purify_body_expr args); mret (Stmt.Unfold predicate_name args perm_amount variant)
           end
       | n => default_fold_snode purify_body_expr n
       end |}.
End Purifier.

(** ** [purify_methods] *)

Definition purification_candidates (method : CfgMethod) : HashSet.t string :=
  HashSet.from_list (omap (fun var =>
    match LocalVar.typ var with
    | Ty.TypedRef t => if HashSet.contains SUPPORTED_TYPES t then Some (LocalVar.name var) else None
    | _ => None
    end) (CfgMethod.local_vars method)).

Definition purify_method `{RegexCrate} (method : CfgMethod) (predicates : list Predicate) : option CfgMethod :=
  vars ← walk_method method purifiable_stmt_collector purifiable_collector (purification_candidates method);
  local_vars ← mapM_opt (fun var =>
    if HashSet.contains vars (LocalVar.name var)
    then typ ← translate_type (LocalVar.typ var); Some (LocalVar.new (LocalVar.name var) typ)
    else Some var) (CfgMethod.local_vars method);
  match fold_cfg_stmts (stmt_purifier vars predicates) (CfgMethod.with_local_vars method local_vars) tt with
  | Val (method, _) => Some method
  | _ => None
  end.

Definition purify_methods `{RegexCrate} (methods : list CfgMethod) (predicates : list Predicate) : option (list CfgMethod) :=
  mapM_opt (fun method => purify_method method predicates) methods.
