(* ===== verification/PurifyFacts.v ===== *)
(** * Purified expressions keep their value

    The two purifications replace a reference by the value of its field.  An
    expression that mentions the purified variables only through that field
    has the same value in the purified state. *)

From S2P Require Import Prelude Ast ExprEq ExprPlace ExprTransformers ExprOps ExprOpsFacts Collections Typaram.
From S2P Require Import ExprReplace Borrows Stmt.
From S2P Require Import Items Semantics Cfg Unfoldings QuantifierFixer VarPurifier Purification.

Section Purified.
Context `{InterpLaws}.
(** The purified names, the field with the value of each, and whether a field
    of a variable may be replaced. *)
Context (pure_name : string -> bool) (value_field : string -> string) (ok : LocalVar -> Field -> bool).

(** Purified variables occur as receivers of value fields only; they are
    neither bound nor mentioned in old expressions. *)
Fixpoint value_only (e : Expr) : bool :=
  match e with
  | Expr.Local v _ => negb (pure_name (LocalVar.name v))
  | Expr.Field (Expr.Local v _) f _ => if pure_name (LocalVar.name v) then ok v f else true
  | Expr.Const _ _ => true
  | Expr.PredicateAccessPredicate _ _ _ _ | Expr.FieldAccessPredicate _ _ _ | Expr.AddrOf _ _ _
  | Expr.SnapApp _ _ | Expr.MagicWand _ _ _ _ | Expr.InhaleExhale _ _ _ => true
  | Expr.LabelledOld _ b _ => value_only b && forallb (fun x => negb (pure_name x)) (names b)
  | Expr.Variant b _ _ | Expr.Field b _ _ | Expr.UnaryOp _ b _ | Expr.Unfolding _ _ b _ _ _
  | Expr.Downcast b _ _ => value_only b
  | Expr.ForAll vars _ b _ | Expr.Exists vars _ b _ =>
      forallb (fun x => negb (pure_name x)) (map LocalVar.name vars) && value_only b
  | Expr.LetExpr v l r _ => negb (pure_name (LocalVar.name v)) && (value_only l && value_only r)
  | Expr.BinOp _ l r _ | Expr.ContainerOp _ l r _ => value_only l && value_only r
  | Expr.Cond g t e _ => value_only g && (value_only t && value_only e)
  | Expr.Seq _ es _ | Expr.FuncApp _ es _ _ _ | Expr.DomainFuncApp _ es _ => forallb value_only es
  end.

(** The states agree on the other variables. *)
Record same_but (st st2 : State) : Prop := {
  same_heap : heap st = heap st2;
  same_old : old_heaps st = old_heaps st2;
  same_store : forall x, pure_name x = false -> store st x = store st2 x
}.

(** The purified variables have the values of the fields. *)
Definition holds_values (st st2 : State) : Prop :=
  forall x r v, pure_name x = true -> store st x = Some (VRef r) -> heap st r (value_field x) = Some v -> store st2 x = Some v.

(** [e'] stands for [e] in the purified state. *)
Definition stands_for (e e' : Expr) : Prop :=
  value_only e = true -> forall st st2, same_but st st2 ->
  (existsb pure_name (names e) = true -> holds_values st st2) -> ole (eval e st) (eval e' st2).

Definition purifies {S} (m : ST S Empty_set Expr) (e : Expr) : Prop := forall s e' s', m s = Val (e', s') -> stands_for e e'.

Lemma existsb_child (e c : Expr) : c ∈ children e -> existsb pure_name (names c) = true -> existsb pure_name (names e) = true.
Proof.
  rewrite !existsb_exists. intros Hc (x & Hx & Hp). exists x. split; [|done]. apply list_elem_of_In. apply (names_child e c); [done|].
  by apply list_elem_of_In.
Qed.

Lemma same_but_bind_vars st st2 vars vs : same_but st st2 ->
  same_but (with_store st (bind_vars (store st) vars vs)) (with_store st2 (bind_vars (store st2) vars vs)).
Proof. intros [H1 H2 H3]. split; try done. intros x Hx. cbn. apply bind_vars_same_at. auto. Qed.

Lemma holds_bind_vars st st2 vars vs : forallb (fun x => negb (pure_name x)) (map LocalVar.name vars) = true -> holds_values st st2 ->
  holds_values (with_store st (bind_vars (store st) vars vs)) (with_store st2 (bind_vars (store st2) vars vs)).
Proof.
  intros Hv Hh x r v Hx. cbn. rewrite !bind_vars_other; [by apply Hh|..]; intros Hin; rewrite forallb_forall in Hv;
    apply list_elem_of_In, Hv in Hin; by rewrite Hx in Hin.
Qed.

Lemma same_but_bind_var st st2 x v : same_but st st2 ->
  same_but (with_store st (bind_var (store st) x v)) (with_store st2 (bind_var (store st2) x v)).
Proof. intros [H1 H2 H3]. split; try done. intros y Hy. cbn. unfold bind_var. destruct (String.eqb y x); auto. Qed.

Lemma holds_bind_var st st2 x w : pure_name x = false -> holds_values st st2 ->
  holds_values (with_store st (bind_var (store st) x w)) (with_store st2 (bind_var (store st2) x w)).
Proof.
  intros Hx Hh y r v Hy. cbn. unfold bind_var. destruct (String.eqb_spec y x) as [->|]; [congruence|]. by apply Hh.
Qed.

Lemma sequence_purifies {S} (g : Expr -> ST S Empty_set Expr) es :
  Forall (fun c => purifies (g c) c) es ->
  forall s es' s', sequence (map go (map (fun c => Child c (g c)) es)) s = Val (es', s') -> Forall2 stands_for es es'.
Proof.
  induction 1 as [|c es Hc _ IH]; intros s es' s' Es; cbn in Es; inv_st; [done|]. constructor; eauto.
Qed.

Lemma existsb_concat_in es c : c ∈ es -> existsb pure_name (names c) = true -> existsb pure_name (concat (map names es)) = true.
Proof.
  rewrite !existsb_exists. intros Hc (x & Hx & Hp). exists x. split; [|done]. apply list_elem_of_In.
  eapply in_concat_map; [exact Hc|]. by apply list_elem_of_In.
Qed.

Lemma ole_purified_args es es' st st2 : Forall2 stands_for es es' -> forallb value_only es = true -> same_but st st2 ->
  (existsb pure_name (concat (map names es)) = true -> holds_values st st2) ->
  ole (mapM_opt (fun e => eval e st) es) (mapM_opt (fun e => eval e st2) es').
Proof.
  intros Hes Hv Hs Hh. apply ole_mapM_opt2. induction Hes as [|c c' es es' Hc Hes IH]; [done|]. cbn in Hv, Hh.
  apply andb_true_iff in Hv as [Hv1 Hv2]. rewrite existsb_app in Hh.
  constructor; [apply Hc|apply IH]; try done; intros Hx; apply Hh; rewrite Hx; [done|by rewrite orb_true_r].
Qed.

Lemma ole_purified_field f st st2 o o' : same_but st st2 -> ole o o' -> ole (eval_field st f o) (eval_field st2 f o').
Proof.
  intros Hs Ho. unfold eval_field. apply ole_bind; [done|]. intros a. rewrite <- (same_heap _ _ Hs). apply ole_refl.
Qed.

Lemma existsb_forallb_negb l : existsb pure_name l = negb (forallb (fun x => negb (pure_name x)) l).
Proof. induction l as [|x l IH]; cbn; [done|]. rewrite IH. by destruct (pure_name x), (forallb _ l). Qed.

(** A child in the same states: what is left is about variables and names. *)
Lemma stands_for_child e c c' st st2 :
  stands_for c c' -> c ∈ children e -> value_only c = true -> same_but st st2 ->
  (existsb pure_name (names e) = true -> holds_values st st2) -> ole (eval c st) (eval c' st2).
Proof. intros Hc Hin Hv Hs Hh. apply Hc; [done..|]. intros Hx. apply Hh. by eapply existsb_child. Qed.

Lemma value_only_field b f p : value_only (Expr.Field b f p) = true ->
  (forall v q, b = Expr.Local v q -> pure_name (LocalVar.name v) = false) -> value_only b = true.
Proof. intros Hv Hb. destruct b; try done. cbn in *. by rewrite (Hb _ _ eq_refl). Qed.

Lemma stands_for_local v p : stands_for (Expr.Local v p) (Expr.Local v p).
Proof. intros Hv st st2 Hs Hh. cbn in *. rewrite (same_store _ _ Hs) by (by apply negb_true_iff). apply ole_refl. Qed.

(** The methods that are not overridden. *)
Lemma default_node_purifies {S} (g : Expr -> ST S Empty_set Expr) e :
  (forall v p f q, e = Expr.Field (Expr.Local v p) f q -> pure_name (LocalVar.name v) = false) ->
  Forall (fun c => purifies (g c) c) (children e) ->
  purifies (default_fold_node (Node.of_expr (fun c => Child c (g c)) e)) e.
Proof.
  intros Hf Hc s e' s' Hr Hv st st2 Hs Hh.
  assert (Hin : forall c c' , stands_for c c' -> c ∈ children e -> value_only c = true -> ole (eval c st) (eval c' st2))
    by (intros c c' H1 H2 H3; by eapply stands_for_child).
  destruct e; cbn [Node.of_expr default_fold_node children go] in *; rewrite ?Forall_app, ?Forall_cons in Hc; destruct_and?; inv_st;
    repeat match goal with
    | Hc : purifies (?g ?c) _, Hm : ?g ?c _ = Val _ |- _ => apply Hc in Hm
    | Hc : Forall (fun c => purifies (?g c) c) ?es, Hm : sequence (map go (map _ ?es)) _ = Val _ |- _ =>
        apply (sequence_purifies g es Hc) in Hm
    end; cbn [eval]; try (apply ole_none);
    try (apply value_only_field in Hv; [|by intros v q ->; eapply Hf]); cbn [value_only] in Hv;
    rewrite ?andb_true_iff in Hv; destruct_and?;
    repeat first [apply ole_checked | (apply ole_purified_field; [done|]) | apply ole_eval_binop | apply ole_eval_container
      | (apply Hin; [done|rewrite ?elem_of_app, ?elem_of_cons; by auto|done]) | done | ole_step
      | (eapply ole_purified_args; [done|done|done|by auto]) ].
  - rewrite (same_store _ _ Hs); [apply ole_refl|by apply negb_true_iff].
  - rewrite (same_old _ _ Hs). apply ole_refl.
  - match goal with Hst : stands_for e _ |- _ => apply Hst end; [done|by destruct Hs|]. intros Hnm.
    match goal with Hn : forallb _ _ = true |- _ => rewrite existsb_forallb_negb, Hn in Hnm end. done.
  - apply ole_quantifier. intros vs. match goal with Hst : stands_for e _ |- _ => apply Hst end; [done|by apply same_but_bind_vars|].
    intros Hnm. apply holds_bind_vars; [done|]. apply Hh. cbn. by rewrite existsb_app, Hnm, orb_true_r.
  - apply ole_quantifier. intros vs. match goal with Hst : stands_for e _ |- _ => apply Hst end; [done|by apply same_but_bind_vars|].
    intros Hnm. apply holds_bind_vars; [done|]. apply Hh. cbn. by rewrite existsb_app, Hnm, orb_true_r.
  - match goal with Hst : stands_for e2 _ |- _ => apply Hst end; [done|by apply same_but_bind_var|].
    intros Hnm. apply holds_bind_var; [by apply negb_true_iff|]. apply Hh. cbn. by rewrite existsb_app, Hnm, !orb_true_r.
  - rewrite (same_heap _ _ Hs). apply ole_refl.
Qed.

(** The value field of a purified variable. *)
Lemma purified_field_value v p f q v' p' :
  pure_name (LocalVar.name v) = true -> LocalVar.name v' = LocalVar.name v ->
  Field.name f = value_field (LocalVar.name v) -> sort_of_ty (LocalVar.typ v') = sort_of_ty (Field.typ f) ->
  stands_for (Expr.Field (Expr.Local v p) f q) (Expr.Local v' p').
Proof.
  intros Hp Hn Hf Hs Hv st st2 Hb Hh w. cbn. rewrite Hn, Hs. intros (b & Hl & Hw)%bind_Some. destruct b; try done.
  unfold checked in Hl, Hw |- *. apply bind_Some in Hl as (b & Hl & Hb'). destruct (_ == _) in Hb'; [|done]. injection Hb' as ->.
  apply bind_Some in Hw as (u & Hu & Hw). rewrite Hf in Hu.
  rewrite (Hh ltac:(cbn; by rewrite Hp) (LocalVar.name v) r u Hp Hl Hu). done.
Qed.
End Purified.

(** ** [VarPurifier] *)

Section VarPurifier.
Context `{InterpLaws} (check_overflows encode_unsigned : bool).
Context (pure_vars : HashSet.t LocalVar) (replacements : HashMap.t LocalVar LocalVar).

Definition pure_var_name (x : string) : bool := existsb (fun v => String.eqb (LocalVar.name v) x) pure_vars.

(** The field is the integer value, and the replacement is a variable of the
    same name and of the type of the field. *)
Definition replaceable (v : LocalVar) (f : Field) : bool :=
  HashSet.contains pure_vars v && String.eqb (Field.name f) "val_int"
  && match HashMap.get replacements v with
     | Some r => String.eqb (LocalVar.name r) (LocalVar.name v) && (sort_of_ty (LocalVar.typ r) == sort_of_ty (Field.typ f))
     | None => true
     end.

Lemma contains_pure_name v : HashSet.contains pure_vars v = true -> pure_var_name (LocalVar.name v) = true.
Proof.
  unfold HashSet.contains, pure_var_name. rewrite !existsb_exists. intros (w & Hw & He). exists w. split; [done|].
  unfold peq, LocalVar_PartialEq, LocalVar.eqb in He. apply andb_true_iff in He as [He _].
  apply String.eqb_eq in He. rewrite He. apply String.eqb_refl.
Qed.

Lemma stands_for_unfolding pn vf ok name args e e' q v p : stands_for pn vf ok e e' -> stands_for pn vf ok (Expr.Unfolding name args e q v p) e'.
Proof.
  intros He Hv st st2 Hs Hh. apply He; [done..|]. intros Hn. apply Hh. cbn. by rewrite existsb_app, Hn, orb_true_r.
Qed.

Lemma stands_for_no_value pn vf ok e e' : (forall st, eval e st = None) -> stands_for pn vf ok e e'.
Proof. intros He Hv st st2 Hs Hh. rewrite He. apply ole_none. Qed.

(** Where the purifier does not fail, the purified expression has the value
    of the expression. *)
Lemma var_purifier_purifies e :
  purifies pure_var_name (fun _ => "val_int") replaceable
    (run_fold (var_purifier check_overflows encode_unsigned pure_vars replacements) e) e.
Proof.
  induction e as [e IH] using children_ind. rewrite run_fold_unfold. unfold default_fold_expr. cbn [fold fold_node var_purifier default_fold].
  pose proof (fun Hf => default_node_purifies pure_var_name (fun _ => "val_int") replaceable _ e Hf IH) as Hd.
  destruct e; try (by apply Hd); cbn [Node.of_expr orig go children] in *; intros s e' s' Hr;
    try (by apply stands_for_no_value).
  - inv_st. apply stands_for_local.
  - destruct (is_pure_var pure_vars e) eqn:Ep.
    + destruct e as [v q| | | | | | | | | | | | | | | | | | | | | |]; try done. cbn in Ep, Hr. inv_st.
      apply bind_Some in Hx as (r & Hr & Hx). injection Hx as <-. intros Hv0. pose proof Hv0 as Hv. cbn [value_only] in Hv.
      rewrite (contains_pure_name v Ep) in Hv. unfold replaceable in Hv. rewrite Hr in Hv.
      apply andb_true_iff in Hv as [Hv [Hn Hs]%andb_true_iff]. apply andb_true_iff in Hv as [_ Hf].
      apply (purified_field_value pure_var_name (fun _ => "val_int") replaceable).
      * by apply contains_pure_name.
      * by apply String.eqb_eq.
      * by apply String.eqb_eq.
      * by apply (peq_eq (A := sort)) in Hs.
      * done.
    + intros Hv. assert (Hne : forall v p0 f q, Expr.Field e field p = Expr.Field (Expr.Local v p0) f q ->
        pure_var_name (LocalVar.name v) = false).
      { intros v p0 f q [= -> -> ->]. cbn in Hv, Ep. destruct (pure_var_name _); [|done]. unfold replaceable in Hv. by rewrite Ep in Hv. }
      exact (Hd Hne _ _ _ Hr Hv).
  - destruct args as [|arg [|]]; try done. cbn [map orig app] in *. apply Forall_cons in IH as [_ [IH _]%Forall_cons].
    destruct (_ && _); inv_st.
    + apply IH in Hr. by apply stands_for_unfolding.
    + match goal with Hx : run_fold _ e _ = _ |- _ => apply IH in Hx end.
      intros Hv st st2 Hs Hh. by apply (stands_for_unfolding _ _ _ name [arg] e x perm variant p Hx Hv).
Qed.
End VarPurifier.

(** ** Expressions that do not depend on the heap *)

Lemma heap_independent_parts e : existsb is_heap_access (subexprs e) = false ->
  is_heap_access e = false /\ Forall (fun c => existsb is_heap_access (subexprs c) = false) (children e).
Proof.
  rewrite subexprs_eq. cbn [existsb]. intros [He Hc]%orb_false_iff. split; [done|].
  induction (children e) as [|c cs IH]; [done|]. cbn in Hc. rewrite existsb_app in Hc. apply orb_false_iff in Hc as [? ?]. auto.
Qed.

Lemma eval_heap_independent `{InterpLaws} e : forall st h,
  existsb is_heap_access (subexprs e) = false -> eval e (with_heap st h) = eval e st.
Proof.
  induction e as [e IH] using children_ind. intros st h [Ha Hc]%heap_independent_parts.
  assert (Hi : Forall (fun c => forall st h, eval c (with_heap st h) = eval c st) (children e)).
  { rewrite Forall_forall in IH, Hc |- *. intros c Hin st' h'. by apply IH, Hc. }
  clear IH Hc.
  assert (Hl : forall es, Forall (fun c => forall st h, eval c (with_heap st h) = eval c st) es ->
    mapM_opt (fun e => eval e (with_heap st h)) es = mapM_opt (fun e => eval e st) es).
  { intros es Hes. apply mapM_opt_ext2. eapply Forall_impl; [exact Hes|]. auto. }
  destruct e; try done; cbn [eval children] in *;
    repeat match goal with
    | H : Forall _ (_ :: _) |- _ => apply Forall_cons in H as [? ?]
    | H : Forall _ (_ ++ _) |- _ => apply Forall_app in H as [? ?]
    end;
    repeat match goal with H : forall st h, eval ?e (with_heap st h) = eval ?e st |- _ => rewrite (H st h) end;
    rewrite ?Hl by done; try done.
  - f_equal. apply quantifier_ext. intros vs.
    match goal with H : forall st h, eval ?e (with_heap st h) = eval ?e st |- _ => apply (H (with_store st _) h) end.
  - f_equal. apply quantifier_ext. intros vs.
    match goal with H : forall st h, eval ?e (with_heap st h) = eval ?e st |- _ => apply (H (with_store st _) h) end.
  - apply option_bind_ext_fun. intros x.
    match goal with H : forall st h, eval e2 (with_heap st h) = eval e2 st |- _ => apply (H (with_store st _) h) end.
Qed.

(** ** [Purifier] *)

Section BodyPurifier.
Context `{InterpLaws} `{RegexCrate} (targets : HashSet.t string) (value_field : string -> string).

Definition target_name (x : string) : bool := HashSet.contains targets x.

(** The field is the value field, of the type of the purified variable. *)
Definition translatable (v : LocalVar) (f : Field) : bool :=
  String.eqb (Field.name f) (value_field (LocalVar.name v))
  && match translate_type (LocalVar.typ v) with
     | Some t => sort_of_ty t == sort_of_ty (Field.typ f)
     | None => true
     end.

Lemma translated_no_ref t t' : translate_type t = Some t' -> sort_of_ty t' <> SRef /\ translate_type t' = Some t'.
Proof. destruct t; cbn; intros Ht; repeat case_match; by simplify_eq. Qed.

(** A purified variable at the top of a result has its new type. *)
Definition value_local (e : Expr) : Prop :=
  forall l p, e = Expr.Local l p -> is_target targets l = true -> sort_of_ty (LocalVar.typ l) <> SRef.

Lemma translate_local_value l p s e' s' : translate_local l p s = Val (e', s') ->
  exists t, translate_type (LocalVar.typ l) = Some t /\ e' = Expr.Local (LocalVar.new (LocalVar.name l) t) p.
Proof. unfold translate_local. intros Hr. inv_st. eauto. Qed.

Lemma translate_local_no_ref l p s l' p' s' : translate_local l p s = Val (Expr.Local l' p', s') -> sort_of_ty (LocalVar.typ l') <> SRef.
Proof. intros (t & Ht & [= -> _])%translate_local_value. by apply translated_no_ref in Ht as [? _]. Qed.

Lemma purified_value_local e : forall s e' s', run_fold (body_purifier targets) e s = Val (e', s') -> value_local e'.
Proof.
  induction e as [e IH] using children_ind. rewrite run_fold_unfold. unfold default_fold_expr. cbn [fold fold_node body_purifier default_fold].
  intros s e' s' Hr l p' -> Ht.
  destruct e; cbn in Hr, IH; rewrite ?Forall_app, ?Forall_cons in IH; destruct_and?;
    repeat (inv_st; repeat case_match; try done; simplify_eq); eauto using translate_local_no_ref;
    try congruence; match goal with
    | IH : forall s e' s', run_fold _ ?e s = Val (e', s') -> value_local e', Hm : run_fold _ ?e _ = Val (Expr.Local _ _, _) |- _ =>
        by eapply (IH _ _ _ Hm)
    end.
Qed.

(** The node [fold_field]: first for the field of a purified variable. *)
Lemma purified_target_field v q f p t p' :
  is_target targets v = true -> translate_type (LocalVar.typ v) = Some t ->
  stands_for target_name value_field translatable (Expr.Field (Expr.Local v q) f p) (Expr.Local (LocalVar.new (LocalVar.name v) t) p').
Proof.
  intros Ht Htr Hv. pose proof Hv as Hok. cbn [value_only] in Hok. unfold target_name in Hok. unfold is_target in Ht. rewrite Ht in Hok.
  unfold translatable in Hok. rewrite Htr in Hok. apply andb_true_iff in Hok as [Hf Hs].
  apply (purified_field_value target_name value_field translatable); try done; [by apply String.eqb_eq|by apply (peq_eq (A := sort)) in Hs].
Qed.

Lemma purified_plain_field e f p e1 e' :
  (forall v q, e = Expr.Local v q -> target_name (LocalVar.name v) = false) ->
  stands_for target_name value_field translatable e e1 -> value_local e1 ->
  (e' = Expr.Field e1 f p \/ exists l lp, e1 = Expr.Local l lp /\ is_target targets l = true) ->
  stands_for target_name value_field translatable (Expr.Field e f p) e'.
Proof.
  intros Hne He Hl He' Hv st st2 Hs Hh. apply value_only_field in Hv; [|done].
  specialize (He Hv st st2 Hs Hh). destruct He' as [->|(l & lp & -> & Ht)]; [by apply (ole_purified_field target_name)|].
  intros w Hw. cbn in Hw. unfold eval_field in Hw. apply bind_Some in Hw as (b & Hb & Hw). apply He in Hb. destruct b; try done.
  apply checked_sort in Hb. cbn in Hb. by apply (Hl l lp eq_refl) in Ht.
Qed.

Lemma purified_field e f p s e' s' :
  purifies target_name value_field translatable (run_fold (body_purifier targets) e) e ->
  (rec ← run_fold (body_purifier targets) e;
   match rec with
   | Expr.Local l lp => if is_target targets l then translate_local l lp else mret (Expr.Field rec f p)
   | _ => mret (Expr.Field rec f p)
   end) s = Val (e', s') ->
  stands_for target_name value_field translatable (Expr.Field e f p) e'.
Proof.
  intros IH Hr. inv_st. match goal with Hm : run_fold _ e _ = _ |- _ => pose proof (purified_value_local _ _ _ _ Hm) as Hl; pose proof Hm as Hrun; apply IH in Hm as He end.
  destruct (match e with Expr.Local v _ => is_target targets v | _ => false end) eqn:Et.
  - destruct e; try done. rewrite run_fold_unfold in Hrun. cbn in Hrun. rewrite Et in Hrun.
    apply translate_local_value in Hrun as (t & Ht & ->). unfold is_target in Hr, Et. cbn [LocalVar.name] in Hr. rewrite Et in Hr.
    apply translate_local_value in Hr as (t' & Ht' & ->). cbn in Ht'. apply translated_no_ref in Ht as Ht2. destruct Ht2 as [_ Ht2].
    assert (t' = t) as -> by congruence. by apply (purified_target_field v).
  - eapply purified_plain_field; [|exact He|exact Hl|].
    + by intros v q ->.
    + destruct x; try (by inv_st; left). destruct (is_target targets v) eqn:Ex; [right; eauto|by inv_st; left].
Qed.

Lemma purified_old label e p e1 (dependent : bool) :
  stands_for target_name value_field translatable e e1 -> is_heap_dependent e1 = Some dependent ->
  stands_for target_name value_field translatable (Expr.LabelledOld label e p) (if dependent then Expr.LabelledOld label e1 p else e1).
Proof.
  intros He Hd Hv st st2 Hs Hh v Hw. cbn [eval] in Hw. apply bind_Some in Hw as (h & Hl & Hw).
  cbn [value_only] in Hv. apply andb_true_iff in Hv as [Hv Hn].
  assert (Hold : eval e1 (with_heap st2 h) = Some v).
  { apply He with (st := with_heap st h); [done|by destruct Hs| |done]. intros Hnm. by rewrite existsb_forallb_negb, Hn in Hnm. }
  destruct dependent; [by rewrite <- Hold; cbn; rewrite <- (same_old _ _ _ Hs), Hl|].
  rewrite is_heap_dependent_eq in Hd. injection Hd as Hd. by rewrite <- (eval_heap_independent e1 st2 h Hd).
Qed.

(** Where the purifier does not fail, the purified expression has the value
    of the expression. *)
Lemma body_purifier_purifies e : purifies target_name value_field translatable (run_fold (body_purifier targets) e) e.
Proof.
  induction e as [e IH] using children_ind. rewrite run_fold_unfold. unfold default_fold_expr. cbn [fold fold_node body_purifier default_fold].
  pose proof (fun Hf => default_node_purifies target_name value_field translatable _ e Hf IH) as Hd.
  destruct e; try (by apply Hd); cbn [Node.of_expr orig go children] in *; intros s e' s' Hr;
    try (by apply stands_for_no_value).
  - destruct (is_target targets v) eqn:Et; inv_st; [|apply stands_for_local]. intros Hv. cbn in Hv. unfold target_name, is_target in *. by rewrite Et in Hv.
  - apply Forall_cons in IH as [IH _]. by eapply purified_field.
  - apply Forall_cons in IH as [IH _]. inv_st. match goal with Hm : run_fold _ e _ = _ |- _ => apply IH in Hm end. by apply purified_old.
  - assert (Hb : exists e1 s1 s2, run_fold (body_purifier targets) e s1 = Val (e1, s2) /\ (e' = e1 \/ exists as', e' = Expr.Unfolding name as' e1 perm variant p)).
    { repeat (inv_st; repeat case_match; try done; simplify_eq); eauto 10. }
    apply Forall_app in IH as [_ [IH _]%Forall_cons]. destruct Hb as (e1 & s1 & s2 & Hm%IH & [->|[as' ->]]); [by apply stands_for_unfolding|].
    intros Hv st st2 Hs Hh. by apply (stands_for_unfolding _ _ _ name args e e1 perm variant p Hm Hv).
Qed.
End BodyPurifier.

(** ** The theorems *)

(** The expression folder of [purify_vars]: in a state where the purified
    variables have the values of the fields [val_int] of the original ones,
    the purified expression has the value of the original expression. *)
(** C10. `purify_vars` on expressions: if the purified variables occur only as receivers of the
    fields `val_int` that are replaced, are not bound in the expression and do not occur inside
    `old` expressions (where the old heap would be replaced by the current value), then in a
    state where the purified variables have the values of the fields `val_int` of the original
    ones and everything else is equal, the purified expression has the value of the original
    expression. *)
Theorem purify_var_expr_value `{InterpLaws} check_overflows encode_unsigned pure_vars replacements e e' u u' st st2 v :
  purify_var_expr check_overflows encode_unsigned pure_vars replacements e u = Val (e', u') ->
  value_only (pure_var_name pure_vars) (replaceable pure_vars replacements) e = true ->
  same_but (pure_var_name pure_vars) st st2 ->
  holds_values (pure_var_name pure_vars) (fun _ => "val_int") st st2 ->
  eval e st = Some v -> eval e' st2 = Some v.
Proof. intros Hr Hv Hs Hh. by apply (var_purifier_purifies _ _ _ _ _ _ _ _ Hr Hv st st2 Hs). Qed.

(** The expression folder of [purify_methods]: the same, with the value
    fields of all purified types; old expressions that do not depend on the
    heap any more are replaced by their bodies. *)
Theorem purify_body_expr_value `{InterpLaws} targets value_field e e' u u' st st2 v :
  purify_body_expr targets e u = Val (e', u') ->
  value_only (target_name targets) (translatable value_field) e = true ->
  same_but (target_name targets) st st2 ->
  holds_values (target_name targets) value_field st st2 ->
  eval e st = Some v -> eval e' st2 = Some v.
Proof. intros Hr Hv Hs Hh. by apply (body_purifier_purifies targets value_field e _ _ _ Hr Hv st st2 Hs). Qed.

Lemma mapM_opt_fails {A B} (f : A -> option B) l x : x ∈ l -> f x = None -> mapM_opt f l = None.
Proof.
  intros Hx Hf. induction l as [|y l IH]; [by apply elem_of_nil in Hx|]. cbn.
  apply elem_of_cons in Hx as [<-|Hx]; [by rewrite Hf|]. rewrite IH by done. by destruct (f y).
Qed.

(** A declared variable that is never seen outside a pure context but has no
    field access from which to take its new type makes [purify_vars] panic. *)
Theorem purify_vars_panics check_overflows encode_unsigned method collector var :
  collect_vars method = Some collector ->
  var ∈ CfgMethod.local_vars method ->
  HashSet.contains (pure_vars_of collector) var = true ->
  HashMap.get (VarCollector.replacements collector) var = None ->
  purify_vars check_overflows encode_unsigned method = None.
Proof.
  intros Hc Hin Hp Hr. unfold purify_vars. rewrite Hc. cbn. unfold fold_cfg_stmts, mbind, ST_bind.
  destruct (sequence _ _) as [[blocks u]| |]; [|done..]. cbn.
  rewrite (mapM_opt_fails _ _ var); [done|done|]. unfold fix_var. by rewrite Hp.
Qed.

(** ** Witnesses *)

Definition usize_1 : LocalVar := LocalVar.new "_1" (Ty.TypedRef "usize").
Definition int_1 : LocalVar := LocalVar.new "_1" Ty.Int.
Definition one : Expr := expr_of_i32 1.

(** [_1.val_int + 1]. *)
Definition usize_1_plus_1 : Expr :=
  Expr.BinOp BinOpKind.Add (Expr.Field (expr_of_var usize_1) (Field.new "val_int" Ty.Int) Position.default) one Position.default.

Definition int_1_plus_1 : Expr := Expr.BinOp BinOpKind.Add (expr_of_var int_1) one Position.default.

Definition boxed_state : State :=
  {| store := fun x => if String.eqb x "_1" then Some (VRef 5) else None;
     heap := fun r f => if Nat.eqb r 5 && String.eqb f "val_int" then Some (VInt 7) else None;
     old_heaps := fun _ => None |}.

Definition purified_boxed_state : State :=
  with_store boxed_state (fun x => if String.eqb x "_1" then Some (VInt 7) else None).

Lemma boxed_same_but pn : pn "_1" = true -> same_but pn boxed_state purified_boxed_state.
Proof. intros Hp. split; try done. intros x Hx. cbn. destruct (String.eqb_spec x "_1"); [congruence|done]. Qed.

Lemma boxed_values pn : holds_values pn (fun _ => "val_int") boxed_state purified_boxed_state.
Proof. intros x r v _ Hs Hv. cbn in *. destruct (String.eqb x "_1"); [|done]. injection Hs as <-. cbn in Hv. congruence. Qed.

Lemma purify_var_expr_value_witness :
  purify_var_expr true true [usize_1] [(usize_1, int_1)] usize_1_plus_1 tt = Val (int_1_plus_1, tt)
  /\ @eval sample_interp int_1_plus_1 purified_boxed_state = Some (VInt 8).
Proof.
  assert (E : purify_var_expr true true [usize_1] [(usize_1, int_1)] usize_1_plus_1 tt = Val (int_1_plus_1, tt)) by reflexivity.
  split; [exact E|].
  apply (@purify_var_expr_value sample_interp sample_laws _ _ _ _ _ _ _ _ boxed_state _ _ E);
    [reflexivity|by apply boxed_same_but|apply boxed_values|reflexivity].
Defined.

Lemma purify_body_expr_value_witness :
  purify_body_expr ["_1"] usize_1_plus_1 tt = Val (int_1_plus_1, tt)
  /\ @eval sample_interp int_1_plus_1 purified_boxed_state = Some (VInt 8).
Proof.
  assert (E : purify_body_expr ["_1"] usize_1_plus_1 tt = Val (int_1_plus_1, tt)) by reflexivity.
  split; [exact E|].
  apply (@purify_body_expr_value sample_interp sample_laws _ (fun _ => "val_int") _ _ _ _ boxed_state _ _ E);
    [reflexivity|by apply boxed_same_but|apply boxed_values|reflexivity].
Defined.

(** A variable that is only havocked. *)
Definition havoc_only : CfgMethod :=
  CfgMethod.make 7%Z "m" 0 [] [usize_1] [] []
    [CfgMethod.make_block [Stmt.MethodCall "builtin$havoc_ref" [] [usize_1]] Successor.Return] ["start"] 0%Z 0%Z.

Lemma purify_vars_panics_witness : purify_vars true true havoc_only = None.
Proof.
  destruct (collect_vars havoc_only) as [c|] eqn:E; [|discriminate E].
  apply (purify_vars_panics true true havoc_only c usize_1 E); [constructor|..]; vm_compute in E; injection E as <-; reflexivity.
Defined.
