(* ===== verification/Optimizations.v ===== *)
(** * The pipeline of optimizations

    [prusti-common/src/vir/optimizations/mod.rs] and [methods/mod.rs]: which
    optimizations run, and in which order.  The configuration is an argument;
    the logs before and after each step are left out. *)

From stdpp Require Import relations.
From S2P Require Import Prelude Ast ExprEq ExprPlace ExprTransformers ExprOps Collections Typaram ExprReplace.
From S2P Require Import Borrows Stmt.
From S2P Require Import Items Cfg CfgGraph CfgLoops CfgTopo MethodSem MethodOpts Display.
From S2P Require Import CleanCfg.
From S2P Require Import Inliner DeletePredicates FoldingOpt QuantifierFixer VarPurifier Purification.

Module Optimizations.
Record Optimizations : Type := make {
  inline_constant_functions : bool;
  delete_unused_predicates : bool;
  optimize_folding : bool;
  remove_empty_if : bool;
  purify_vars : bool;
  fix_quantifiers : bool;
  remove_unused_vars : bool;
  remove_trivial_assertions : bool;
  clean_cfg : bool
}.

Definition all_disabled : Optimizations := make false false false false false false false false false.
Definition all_enabled : Optimizations := make true true true true true true true true true.
End Optimizations.
Abbreviation Optimizations := Optimizations.Optimizations.

(** The settings that the optimizations read. *)
Record Settings : Type := {
  check_overflows : bool;
  encode_unsigned_num_constraint : bool;
  enable_purification_optimization : bool
}.

Module Program.
Record Program : Type := make {
  domains : list Domain;
  fields : list Field;
  builtin_methods : list BodylessMethod;
  methods : list CfgMethod;
  functions : list Function;
  viper_predicates : list Predicate
}.
End Program.
Abbreviation Program := Program.Program.

(** The macro [apply!]. *)
Definition apply_if (enabled : bool) (optimization : CfgMethod -> option CfgMethod) (cfg : CfgMethod) : option CfgMethod :=
  if enabled then optimization cfg else Some cfg.

Definition optimize_method_encoding (settings : Settings) (o : Optimizations) (cfg : CfgMethod) : option CfgMethod :=
  cfg ← apply_if (Optimizations.purify_vars o)
          (purify_vars (check_overflows settings) (encode_unsigned_num_constraint settings)) cfg;
  cfg ← apply_if (Optimizations.fix_quantifiers o) fix_quantifiers cfg;
  cfg ← apply_if (Optimizations.remove_empty_if o) (fun cfg => Some (remove_empty_if cfg)) cfg;
  cfg ← apply_if (Optimizations.remove_unused_vars o) remove_unused_vars cfg;
  cfg ← apply_if (Optimizations.remove_trivial_assertions o) (fun cfg => Some (remove_trivial_assertions cfg)) cfg;
  apply_if (Optimizations.clean_cfg o) clean_cfg cfg.

Definition optimized `{RegexCrate} (settings : Settings) (o : Optimizations) (self : Program) : option Program :=
  inlined ← (if Optimizations.inline_constant_functions o
             then inline_constant_functions (Program.methods self) (Program.functions self)
             else Some (Program.methods self, Program.functions self));
  folded ← (if Optimizations.optimize_folding o
            then ms ← mapM_opt optimize_method (fst inlined);
                 fs ← mapM_opt optimize_function (snd inlined);
                 Some (ms, fs)
            else Some inlined);
  methods ← mapM_opt (optimize_method_encoding settings o) (fst folded);
  predicates ← (if Optimizations.delete_unused_predicates o
                then delete_unused_predicates methods (snd folded) (Program.viper_predicates self)
                else Some (Program.viper_predicates self));
  methods ← (if enable_purification_optimization settings then purify_methods methods predicates else Some methods);
  Some (Program.make (Program.domains self) (Program.fields self) (Program.builtin_methods self) methods (snd folded) predicates).

(** ** The pipeline keeps the behaviour *)

(** The optimizations of methods that keep every statement they do not
    delete. *)
Definition only_deletes (o : Optimizations) : bool :=
  negb (Optimizations.purify_vars o || Optimizations.fix_quantifiers o || Optimizations.remove_unused_vars o).

(** *** The shape of the graph *)

Definition same_shape (m m' : CfgMethod) : Prop :=
  map CfgMethod.successor (CfgMethod.basic_blocks m') = map CfgMethod.successor (CfgMethod.basic_blocks m).

#[export] Instance same_shape_preorder : PreOrder same_shape.
Proof. split; [done|]. unfold same_shape. intros m1 m2 m3 H1 H2. congruence. Qed.

Lemma shape_length m m' : same_shape m m' -> length (CfgMethod.basic_blocks m') = length (CfgMethod.basic_blocks m).
Proof. intros H. apply (f_equal length) in H. by rewrite !length_map in H. Qed.

Lemma shape_succ m m' u : same_shape m m' -> succ_of m' u = succ_of m u.
Proof.
  intros H. unfold succ_of, following. apply (f_equal (fun l => l !! u)) in H.
  change (map CfgMethod.successor (CfgMethod.basic_blocks m')) with (CfgMethod.successor <$> CfgMethod.basic_blocks m') in H.
  change (map CfgMethod.successor (CfgMethod.basic_blocks m)) with (CfgMethod.successor <$> CfgMethod.basic_blocks m) in H.
  rewrite !list_lookup_fmap in H.
  destruct (CfgMethod.basic_blocks m !! u), (CfgMethod.basic_blocks m' !! u); simplify_option_eq; try done. by cbn; rewrite H.
Qed.

(** What [clean_cfg] needs. *)
Record cleanable (m : CfgMethod) : Prop := {
  clean_targets : targets_ok m;
  clean_acyclic : acyclic m;
  clean_start : forall u, ~ edge m u 0;
  clean_nonempty : CfgMethod.basic_blocks m <> []
}.

Lemma shape_cleanable m m' : same_shape m m' -> cleanable m -> cleanable m'.
Proof.
  intros Hs [H1 H2 H3 H4]. assert (He : forall u v, edge m' u v <-> edge m u v) by (intros; unfold edge; by rewrite (shape_succ m m')).
  split.
  - intros u v Huv. rewrite (shape_length m m') by done. by apply (H1 u), He.
  - intros v Hv. apply (H2 v). revert Hv. clear -He. generalize v at 1 3. intros u.
    induction 1 as [x y Hxy|x y z Hxy _ IH]; [apply tc_once|eapply tc_l; [|exact IH]]; by apply He.
  - intros u Hu. by apply (H3 u), He.
  - intros E. apply shape_length in Hs. rewrite E in Hs. by destruct (CfgMethod.basic_blocks m).
Qed.

Lemma retain_shape m f : same_shape m (retain_stmts m f).
Proof. unfold same_shape, retain_stmts. cbn. by rewrite map_map. Qed.

Lemma fold_method_shape f m m' : fold_method_stmts f m = Some m' -> same_shape m m'.
Proof.
  unfold fold_method_stmts. intros Hm. inv_option. subst. unfold same_shape. cbn. clear -Hx. revert x Hx.
  induction (CfgMethod.basic_blocks m) as [|b bs IH]; intros l Hl; cbn in Hl; inv_option; subst; [done|]. cbn. by rewrite (IH _ Hx0).
Qed.

Lemma fold_cfg_shape {S} (f : StmtFolder S Empty_set) m s m' s' : fold_cfg_stmts f m s = Val (m', s') -> same_shape m m'.
Proof.
  unfold fold_cfg_stmts. intros Hm. apply st_bind_val in Hm as (bs' & s1 & Hm & Hr).
  apply st_ret_val in Hr. injection Hr as -> ->. unfold same_shape. cbn. revert s bs' s1 Hm.
  induction (CfgMethod.basic_blocks m) as [|b bs IH]; intros s l s' Hl; cbn in Hl; inv_st; [done|].
  unfold fold_block_stmts in Hx. inv_st. cbn. by rewrite (IH _ _ _ Hx0).
Qed.

Lemma purify_vars_shape a b m m' : purify_vars a b m = Some m' -> same_shape m m'.
Proof.
  unfold purify_vars. intros Hm. inv_option. destruct (fold_cfg_stmts _ m tt) as [[m1 u]| |] eqn:E; inv_option. simplify_eq.
  apply fold_cfg_shape in E. exact E.
Qed.

Lemma fix_quantifiers_shape m m' : fix_quantifiers m = Some m' -> same_shape m m'.
Proof. unfold fix_quantifiers. intros Hm. destruct (fold_cfg_stmts _ m _) as [[m1 u]|[]|] eqn:E; simplify_eq. by apply fold_cfg_shape in E. Qed.

Lemma remove_unused_shape m m' : remove_unused_vars m = Some m' -> same_shape m m'.
Proof. unfold remove_unused_vars. intros Hm. inv_option. apply fold_method_shape in Hm. exact Hm. Qed.

(** *** The pipeline *)

Definition without_clean (o : Optimizations) : Optimizations :=
  Optimizations.make (Optimizations.inline_constant_functions o) (Optimizations.delete_unused_predicates o)
    (Optimizations.optimize_folding o) (Optimizations.remove_empty_if o) (Optimizations.purify_vars o)
    (Optimizations.fix_quantifiers o) (Optimizations.remove_unused_vars o) (Optimizations.remove_trivial_assertions o) false.

Lemma apply_if_shape b f m m' : (forall m1, f m = Some m1 -> same_shape m m1) -> apply_if b f m = Some m' -> same_shape m m'.
Proof. intros Hf. destruct b; cbn; [by apply Hf|]. intros [= ->]. reflexivity. Qed.

Lemma stages_keep_shape settings o m m' : optimize_method_encoding settings (without_clean o) m = Some m' -> same_shape m m'.
Proof.
  unfold optimize_method_encoding. cbn. intros Hm. inv_option. subst.
  repeat match goal with
  | H : apply_if _ _ _ = Some _ |- _ => apply apply_if_shape in H;
      [|first [apply purify_vars_shape | apply fix_quantifiers_shape | apply remove_unused_shape
              | (intros ? [= <-]; apply retain_shape)]]
  end.
  repeat (etrans; [eassumption|]). reflexivity.
Qed.

Section Behaviour.
Context `{MethodLaws}.

Lemma same_behaviour_trans m1 m2 m3 : same_behaviour m1 m2 -> same_behaviour m2 m3 -> same_behaviour m1 m3.
Proof. intros H1 H2 σ r. etrans; [apply H1|apply H2]. Qed.

(** The guards of deleted conditionals are defined. *)
Definition guards_defined (m : CfgMethod) : Prop :=
  Forall (fun b => Forall (fun s => keep_if s = false ->
    Forall (fun g => forall σ, holds g σ <> None) (if_guards s)) (CfgMethod.stmts b)) (CfgMethod.basic_blocks m).

Lemma optimize_method_encoding_behaves settings o m :
  cleanable m ->
  (forall m1, optimize_method_encoding settings (without_clean o) m = Some m1 ->
     same_shape m m1
     /\ exists m2, optimize_method_encoding settings o m = Some m2 /\ same_behaviour m1 m2)
  /\ (only_deletes o = true -> guards_defined m ->
     exists m2, optimize_method_encoding settings o m = Some m2 /\ same_behaviour m m2).
Proof.
  intros Hc.
  assert (Hstages : forall m1, optimize_method_encoding settings (without_clean o) m = Some m1 ->
    optimize_method_encoding settings o m = apply_if (Optimizations.clean_cfg o) clean_cfg m1).
  { unfold optimize_method_encoding. cbn. intros m1 Hm. inv_option. subst. by simplify_option_eq. }
  assert (H1 : forall m1, optimize_method_encoding settings (without_clean o) m = Some m1 ->
     same_shape m m1 /\ exists m2, optimize_method_encoding settings o m = Some m2 /\ same_behaviour m1 m2).
  { intros m1 Hm. pose proof (stages_keep_shape _ _ _ _ Hm) as Hs. split; [done|]. rewrite (Hstages m1 Hm).
    destruct (Optimizations.clean_cfg o); cbn; [|by exists m1].
    destruct (shape_cleanable m m1 Hs Hc). destruct (clean_cfg_behaves m1) as (m2 & E & Hb); try done. exists m2. split; [done|apply Hb]. }
  split; [exact H1|]. intros Ho Hg. unfold only_deletes in Ho. rewrite !negb_orb in Ho.
  assert (Hd : exists m1, optimize_method_encoding settings (without_clean o) m = Some m1 /\ same_behaviour m m1).
  { apply andb_true_iff in Ho as [[Hp Hq]%andb_true_iff Hr]. apply negb_true_iff in Hp, Hq, Hr.
    unfold optimize_method_encoding. cbn. rewrite Hp, Hq, Hr. cbn.
    destruct (Optimizations.remove_empty_if o), (Optimizations.remove_trivial_assertions o); cbn; (eexists; split; [reflexivity|]).
    - eapply same_behaviour_trans; [by apply remove_empty_if_correct|apply remove_trivial_assertions_correct].
    - by apply remove_empty_if_correct.
    - apply remove_trivial_assertions_correct.
    - done. }
  destruct Hd as (m1 & Hm & Hb). destruct (H1 m1 Hm) as (_ & m2 & E & Hb2). exists m2. split; [done|by eapply same_behaviour_trans].
Qed.

(** The optimizations of a method together.  All stages before [clean_cfg]
    keep the shape of the control flow graph, so that [clean_cfg] succeeds
    after them on an acyclic graph and keeps the behaviour of what they
    return; and when the enabled stages only delete statements, the pipeline
    succeeds and the method behaves as before. *)
(** C8. For an acyclic method whose jumps lead to blocks it has and none to the start block: the
    stages before `clean_cfg` keep the shape of the control flow graph, so that `clean_cfg`
    succeeds after them and keeps the behaviour of what they return; and when the enabled stages
    only delete statements, the pipeline succeeds and the method has the same executions and
    failures as before if the guards of the conditionals that are removed as empty are defined
    in every state (the failure of an ill-defined guard goes away with its conditional). *)
Theorem optimize_method_encoding_correct settings o m :
  cleanable m ->
  (forall m1, optimize_method_encoding settings (without_clean o) m = Some m1 ->
     same_shape m m1
     /\ exists m2, optimize_method_encoding settings o m = Some m2 /\ same_behaviour m1 m2)
  /\ (only_deletes o = true -> guards_defined m ->
     exists m2, optimize_method_encoding settings o m = Some m2 /\ same_behaviour m m2).
Proof. exact (optimize_method_encoding_behaves settings o m). Qed.
End Behaviour.

(** A sample run: an assertion and an empty conditional disappear, and the
    blocks are merged. *)
Definition deleting : Optimizations := Optimizations.make true true true true false false false true true.

Definition default_settings : Settings :=
  {| check_overflows := false; encode_unsigned_num_constraint := false; enable_purification_optimization := false |}.

Lemma sample_cleanable : cleanable sample_cleanup.
Proof.
  assert (He : forall u v, ~ edge sample_cleanup u v) by (intros [|u] v Hu; by apply elem_of_nil in Hu).
  split; try done.
  - intros u v Hu. by apply He in Hu.
  - intros v Hv. inversion Hv; subst; by eapply He.
Qed.

Lemma optimize_method_encoding_correct_witness :
  exists m2, optimize_method_encoding default_settings deleting sample_cleanup = Some m2
    /\ @same_behaviour counting_interp sample_cleanup m2.
Proof.
  apply (proj2 (@optimize_method_encoding_correct counting_interp counting_laws default_settings deleting sample_cleanup sample_cleanable)).
  - reflexivity.
  - repeat (constructor || (intros _; cbn)); done.
Defined.
