(* ===== verification/GhostVars.v ===== *)
(** * Renaming of ghost variables

    [prusti-common/src/vir/fixes/ghost_vars.rs]: the variables declared in a
    package statement get a suffix with the number of the statement, so that
    they are unique. *)

From stdpp Require Import pretty.
From S2P Require Import Prelude Ast ExprEq ExprPlace ExprTransformers ExprOps Collections Items Borrows.
From S2P Require Import Stmt Cfg QuantifierFixer.

Module GhostVarFixer.
Record GhostVarFixer : Type := make {
  package_stmt_count : Z;
  (** the variables declared inside a package statement that should be renamed *)
  vars : option (HashSet.t LocalVar)
}.
End GhostVarFixer.
Abbreviation GhostVarFixer := GhostVarFixer.GhostVarFixer.
Import GhostVarFixer.

Definition fix_name (count : Z) (local_var : LocalVar) : LocalVar :=
  LocalVar.new (LocalVar.name local_var ++ "$p" ++ pretty count) (LocalVar.typ local_var).

Definition ghost_var_fixer : ExprFolder GhostVarFixer Empty_set :=
  {| fold := default_fold;
     fold_node := fun n =>
       match n with
       | Node.Local local_var p =>
           s ← get_st;
           mret (match vars s with
                 | Some vs =>
                     if HashSet.contains vs local_var then Expr.Local (fix_name (package_stmt_count s) local_var) p
                     else Expr.Local local_var p
                 | None => Expr.Local local_var p
                 end)
       | n => default_fold_node n
       end |}.

Definition ghost_var_stmt_fixer : StmtFolder GhostVarFixer Empty_set :=
  let fe := run_fold ghost_var_fixer in
  {| fold_stmt := fun _ dflt => dflt;
     fold_expr_of := fe;
     fold_snode := fun n =>
       match n with
       | SNode.PackageMagicWand wand body label declared p =>
           wand ← fe wand;
           _ ← modify (fun s => make (package_stmt_count s) (Some (HashSet.from_list declared)));
           body ← sequence (map go_stmt body);
           s ← get_st;
           unfixed_vars ← lift (vars s);
           _ ← put_st (make (wrap_u32 (package_stmt_count s + 1)) None);
           mret (Stmt.PackageMagicWand wand body label (map (fix_name (package_stmt_count s)) unfixed_vars) p)
       | n => default_fold_snode fe n
       end |}.

Definition fix_ghost_vars (method : CfgMethod) : option CfgMethod :=
  match fold_cfg_stmts ghost_var_stmt_fixer method (make 0 None) with
  | Val (method, _) => Some method
  | _ => None
  end.

(** * Ghost variables are unique

    After [fix_ghost_vars] the variables of different package statements have
    different names, and the bodies of the statements use the new names. *)

Import GhostVarFixer.

(** The expression with the variables of [vs] renamed. *)
Fixpoint renamed (count : Z) (vs : option (HashSet.t LocalVar)) (e : Expr) : Expr :=
  match e with
  | Expr.Local v p =>
      match vs with
      | Some vs => if HashSet.contains vs v then Expr.Local (fix_name count v) p else Expr.Local v p
      | None => Expr.Local v p
      end
  | e => map_children (renamed count vs) e
  end.

Lemma renamed_none count e : renamed count None e = e.
Proof.
  induction e as [e IH] using children_ind. transitivity (map_children (fun c => c) e); [|apply map_children_id].
  destruct e; cbn; cbn in IH; rewrite ?Forall_app, ?Forall_cons in IH; destruct_and?; f_equal; try done;
    match goal with H : Forall _ ?l |- map _ ?l = _ => induction H as [|? ? Hc _ IHl]; cbn; [done|by rewrite Hc, IHl] end.
Qed.

Lemma fixer_expr e s : run_fold ghost_var_fixer e s = Val (renamed (package_stmt_count s) (vars s) e, s).
Proof.
  induction e as [e IH] using children_ind. rewrite run_fold_unfold. unfold default_fold_expr. cbn [fold ghost_var_fixer default_fold fold_node].
  assert (Hd := default_fold_node_at (run_fold ghost_var_fixer) (renamed (package_stmt_count s) (vars s)) e s IH).
  destruct e; try exact Hd. cbn. unfold mbind, ST_bind, get_st. cbn. destruct (vars s); [|done]. by destruct (HashSet.contains _ _).
Qed.

Lemma fixer_exprs es s : sequence (map (run_fold ghost_var_fixer) es) s = Val (map (renamed (package_stmt_count s) (vars s)) es, s).
Proof. induction es as [|e es IH]; cbn; [done|]. unfold mbind, ST_bind. by rewrite fixer_expr, IH. Qed.

(** The package statements, outermost ones only. *)
Fixpoint packages (s : Stmt) : list (list LocalVar * list Stmt) :=
  match s with
  | Stmt.PackageMagicWand _ body _ vs _ => [(vs, body)]
  | Stmt.If _ t e => concat (map packages t) ++ concat (map packages e)
  | _ => []
  end%list.

(** The statement with the number [count]. *)
Definition fixed_package (count : Z) (p : list LocalVar * list Stmt) : list LocalVar * list Stmt :=
  let vs := HashSet.from_list (fst p) in
  (map (fix_name count) vs, map (stmt_map (renamed count (Some vs))) (snd p)).

Fixpoint fixed_packages (count : Z) (ps : list (list LocalVar * list Stmt)) : list (list LocalVar * list Stmt) :=
  match ps with
  | [] => []
  | p :: ps => fixed_package count p :: fixed_packages (wrap_u32 (count + 1)) ps
  end.

Fixpoint count_after (count : Z) {A} (ps : list A) : Z :=
  match ps with
  | [] => count
  | _ :: ps => count_after (wrap_u32 (count + 1)) ps
  end.

Lemma fixed_packages_app count ps qs :
  fixed_packages count (ps ++ qs) = (fixed_packages count ps ++ fixed_packages (count_after count ps) qs)%list.
Proof. revert count. induction ps as [|p ps IH]; intros count; cbn; [done|]. by rewrite IH. Qed.

Lemma count_after_app {A} count (ps qs : list A) : count_after count (ps ++ qs) = count_after (count_after count ps) qs.
Proof. revert count. induction ps as [|p ps IH]; intros count; cbn; [done|]. by rewrite IH. Qed.

(** What a traversal does: outside package statements it numbers them, and it
    ends inside one only if it renamed everything on the way. *)
Record fixes {A} (m : ST GhostVarFixer Empty_set A) (a : A) (pk : A -> list (list LocalVar * list Stmt)) (mp : (Expr -> Expr) -> A) : Prop := {
  fixes_out : forall st a' st', m st = Val (a', st') -> vars st = None ->
    vars st' = None /\ package_stmt_count st' = count_after (package_stmt_count st) (pk a)
    /\ pk a' = fixed_packages (package_stmt_count st) (pk a) /\ (pk a = [] -> a' = a);
  fixes_in : forall st a' st' vs, m st = Val (a', st') -> vars st' = Some vs ->
    st' = st /\ a' = mp (renamed (package_stmt_count st) (vars st)) /\ pk a = []
}.

Definition fixes_stmt (m : ST GhostVarFixer Empty_set Stmt) (s : Stmt) : Prop := fixes m s packages (fun f => stmt_map f s).

Lemma fixes_list (g : Stmt -> ST GhostVarFixer Empty_set Stmt) l :
  Forall (fun s => fixes_stmt (g s) s) l ->
  fixes (sequence (map g l)) l (fun l => concat (map packages l)) (fun f => map (stmt_map f) l).
Proof.
  induction 1 as [|s l Hs _ IH]; cbn [map sequence]; split.
  - intros st a' st' Hr Hv. inv_st. by split_and!.
  - intros st a' st' vs Hr Hv. by inv_st.
  - intros st a' st' Hr Hv. inv_st. apply (fixes_out _ _ _ _ Hs) in Hx as (V1 & C1 & P1 & I1); [|done].
    apply (fixes_out _ _ _ _ IH) in Hx0 as (V2 & C2 & P2 & I2); [|done]. cbn. rewrite fixed_packages_app, count_after_app, <- C1, <- P1, <- P2.
    split_and!; try done. intros [E1 E2]%app_eq_nil. by rewrite I1, I2.
  - intros st a' st' vs Hr Hv. inv_st. destruct (fixes_in _ _ _ _ IH _ _ _ _ Hx0 Hv) as (<- & -> & P2).
    destruct (fixes_in _ _ _ _ Hs _ _ _ _ Hx Hv) as (<- & -> & P1). cbn. by rewrite P1, P2.
Qed.

Lemma map_Forall_id {A} (f : A -> A) l : Forall (fun x => f x = x) l -> map f l = l.
Proof. induction 1 as [|x l Hx _ IH]; cbn; [done|]. by rewrite Hx, IH. Qed.

Lemma stmt_map_renamed_none count s : stmt_map (renamed count None) s = s.
Proof.
  assert (Hl : forall es, map (renamed count None) es = es).
  { intros es. apply map_Forall_id, Forall_forall. intros e _. apply renamed_none. }
  induction s using Stmt_ind'; cbn; rewrite ?renamed_none, ?Hl, ?map_Forall_id by done; done.
Qed.

(** Statements without nested statements. *)
Lemma plain_fixes m s :
  packages s = [] -> (forall st, m st = Val (stmt_map (renamed (package_stmt_count st) (vars st)) s, st)) -> fixes_stmt m s.
Proof.
  intros Hp Hm. split.
  - intros st a' st' Hr Hv. rewrite Hm in Hr. injection Hr as <- <-. by rewrite Hv, stmt_map_renamed_none, Hp.
  - intros st a' st' vs Hr Hv. rewrite Hm in Hr. by injection Hr as <- <-.
Qed.

Lemma fixer_package wand body label declared p :
  Forall (fun s => fixes_stmt (run_stmt_fold ghost_var_stmt_fixer s) s) body ->
  fixes_stmt (run_stmt_fold ghost_var_stmt_fixer (Stmt.PackageMagicWand wand body label declared p))
    (Stmt.PackageMagicWand wand body label declared p).
Proof.
  intros Hb%fixes_list. split; intros st a' st'; cbn; rewrite map_map; cbn.
  - intros Hr Hv. apply st_bind_val in Hr as (w & s1 & Hw & Hr). rewrite fixer_expr in Hw. injection Hw as <- <-.
    inv_st. destruct (fixes_in _ _ _ _ Hb _ _ _ _ Hx Hx1) as (-> & -> & Hp). cbn in Hx1. injection Hx1 as <-.
    cbn. split_and!; done.
  - intros vs Hr Hv. apply st_bind_val in Hr as (w & s1 & Hw & Hr). rewrite fixer_expr in Hw. injection Hw as <- <-. inv_st. done.
Qed.

Lemma fixer_if g t e :
  Forall (fun s => fixes_stmt (run_stmt_fold ghost_var_stmt_fixer s) s) t ->
  Forall (fun s => fixes_stmt (run_stmt_fold ghost_var_stmt_fixer s) s) e ->
  fixes_stmt (run_stmt_fold ghost_var_stmt_fixer (Stmt.If g t e)) (Stmt.If g t e).
Proof.
  intros Ht%fixes_list He%fixes_list. split; intros st a' st'; cbn; rewrite !map_map; cbn.
  - intros Hr Hv. apply st_bind_val in Hr as (w & s1 & Hw & Hr). rewrite fixer_expr in Hw. injection Hw as <- <-. inv_st.
    destruct (fixes_out _ _ _ _ Ht _ _ _ Hx Hv) as (V1 & C1 & P1 & I1).
    destruct (fixes_out _ _ _ _ He _ _ _ Hx0 V1) as (V2 & C2 & P2 & I2). cbn.
    rewrite fixed_packages_app, count_after_app, <- C1, <- P1, <- P2, Hv, renamed_none. split_and!; try done.
    intros [E1 E2]%app_eq_nil. by rewrite I1, I2.
  - intros vs Hr Hv. apply st_bind_val in Hr as (w & s1 & Hw & Hr). rewrite fixer_expr in Hw. injection Hw as <- <-. inv_st.
    destruct (fixes_in _ _ _ _ He _ _ _ _ Hx0 Hv) as (<- & -> & P2).
    destruct (fixes_in _ _ _ _ Ht _ _ _ _ Hx Hv) as (<- & -> & P1). cbn. by rewrite P1, P2.
Qed.

Lemma fixer_stmt s : fixes_stmt (run_stmt_fold ghost_var_stmt_fixer s) s.
Proof.
  induction s using Stmt_ind'; try (by apply fixer_package); try (by apply fixer_if);
    apply plain_fixes; try done; intros st; cbn; unfold mbind, ST_bind; by rewrite ?fixer_exprs, ?fixer_expr, ?fixer_expr.
Qed.

(** ** Distinct names *)

Definition dollar : Ascii.ascii := Ascii.ascii_of_nat 36.
Definition no_dollar (s : string) : Prop := ~ In dollar (String.list_ascii_of_string s).

Lemma pretty_N_go_no_dollar n : forall s, no_dollar s -> no_dollar (pretty_N_go n s).
Proof.
  induction (N.lt_wf_0 n) as [n _ IH]. intros s Hs. destruct (decide (n = 0%N)) as [->|Hn]; [by rewrite pretty_N_go_0|].
  rewrite pretty_N_go_step by lia. apply IH; [apply N.div_lt; lia|]. intros [Hc|Hc]; [|done].
  unfold pretty_N_char in Hc. repeat case_match; discriminate.
Qed.

Lemma pretty_no_dollar (z : Z) : (0 <= z)%Z -> no_dollar (pretty z).
Proof.
  intros Hz. destruct z as [|q|q]; [by intros [?|[]]| |lia]. change (no_dollar (pretty_N_go (N.pos q) "")). apply pretty_N_go_no_dollar. by intros [].
Qed.

(** What follows the last dollar sign. *)
Lemma last_dollar l1 l2 r1 r2 : ~ In dollar r1 -> ~ In dollar r2 -> (l1 ++ dollar :: r1 = l2 ++ dollar :: r2)%list -> r1 = r2.
Proof.
  intros H1 H2 E. apply (f_equal (@rev Ascii.ascii)) in E. rewrite !rev_app_distr in E. cbn in E. rewrite <- !app_assoc in E. cbn in E.
  rewrite <- (rev_involutive r1), <- (rev_involutive r2). f_equal. rewrite in_rev in H1, H2. revert H1 H2 E.
  generalize (rev r1) (rev r2). intros s1. induction s1 as [|c s1 IH]; intros [|d s2] H1 H2 E; cbn in *; try done.
  - injection E as <- _. destruct H2. by left.
  - injection E as -> _. destruct H1. by left.
  - injection E as -> E. f_equal. apply IH; [tauto|tauto|done].
Qed.

Lemma list_of_append s t : String.list_ascii_of_string (s ++ t) = (String.list_ascii_of_string s ++ String.list_ascii_of_string t)%list.
Proof. induction s as [|c s IH]; [done|]. exact (f_equal (cons c) IH). Qed.

Lemma fix_name_number i j v w : (0 <= i)%Z -> (0 <= j)%Z ->
  LocalVar.name (fix_name i v) = LocalVar.name (fix_name j w) -> i = j.
Proof.
  intros Hi Hj E. cbn in E. apply (f_equal String.list_ascii_of_string) in E. rewrite !list_of_append in E. cbn in E.
  apply (last_dollar _ _ (_ :: _) (_ :: _)) in E.
  - injection E as E. apply (f_equal String.string_of_list_ascii) in E. rewrite !String.string_of_list_ascii_of_string in E.
    by apply (inj pretty) in E.
  - intros [Hd|Hd]; [discriminate Hd|]. by apply (pretty_no_dollar i).
  - intros [Hd|Hd]; [discriminate Hd|]. by apply (pretty_no_dollar j).
Qed.

(** ** The method *)

Definition method_packages (m : CfgMethod) : list (list LocalVar * list Stmt) :=
  concat (map (fun b => concat (map packages (CfgMethod.stmts b))) (CfgMethod.basic_blocks m)).

Definition unchanged_but_packages (s s' : Stmt) : Prop := packages s = [] -> s' = s.

Lemma fixer_stmts l : forall st l' st', sequence (map (run_stmt_fold ghost_var_stmt_fixer) l) st = Val (l', st') -> vars st = None ->
  vars st' = None /\ package_stmt_count st' = count_after (package_stmt_count st) (concat (map packages l))
  /\ concat (map packages l') = fixed_packages (package_stmt_count st) (concat (map packages l))
  /\ Forall2 unchanged_but_packages l l'.
Proof.
  induction l as [|s l IH]; intros st l' st' Hr Hv; cbn in Hr; inv_st; [by split_and!|].
  destruct (fixes_out _ _ _ _ (fixer_stmt s) _ _ _ Hx Hv) as (V1 & C1 & P1 & I1).
  destruct (IH _ _ _ Hx0 V1) as (V2 & C2 & P2 & I2). cbn. rewrite fixed_packages_app, count_after_app, <- C1, <- P1, <- P2.
  split_and!; try done. by constructor.
Qed.

Lemma fixer_blocks bs : forall st bs' st', sequence (map (fold_block_stmts ghost_var_stmt_fixer) bs) st = Val (bs', st') -> vars st = None ->
  vars st' = None
  /\ package_stmt_count st' = count_after (package_stmt_count st) (concat (map (fun b => concat (map packages (CfgMethod.stmts b))) bs))
  /\ concat (map (fun b => concat (map packages (CfgMethod.stmts b))) bs')
     = fixed_packages (package_stmt_count st) (concat (map (fun b => concat (map packages (CfgMethod.stmts b))) bs))
  /\ Forall2 (fun b b' => CfgMethod.successor b' = CfgMethod.successor b
       /\ Forall2 unchanged_but_packages (CfgMethod.stmts b) (CfgMethod.stmts b')) bs bs'.
Proof.
  induction bs as [|b bs IH]; intros st bs' st' Hr Hv; cbn in Hr; inv_st; [by split_and!|].
  unfold fold_block_stmts in Hx. inv_st.
  match goal with Hs : sequence (map (run_stmt_fold _) _) _ = _ |- _ => destruct (fixer_stmts _ _ _ _ Hs Hv) as (V1 & C1 & P1 & I1) end.
  destruct (IH _ _ _ Hx0 V1) as (V2 & C2 & P2 & I2). cbn. rewrite fixed_packages_app, count_after_app, <- C1, <- P1, <- P2.
  split_and!; try done. by constructor.
Qed.

Lemma fixed_packages_lookup ps : forall count i, wrap_u32 count = count ->
  fixed_packages count ps !! i = fixed_package (wrap_u32 (count + Z.of_nat i)) <$> ps !! i.
Proof.
  induction ps as [|p ps IH]; intros count i Hc; [done|]. destruct i as [|i]; cbn; [by rewrite Z.add_0_r, Hc|].
  rewrite IH by (unfold wrap_u32; by apply Z.mod_mod). f_equal. f_equal. unfold wrap_u32. rewrite Zplus_mod_idemp_l. f_equal. lia.
Qed.

(** The pass gives the package statements of a method consecutive numbers:
    the variables that a statement declares, and their occurrences in its
    body, get the number as a suffix; other statements do not change; and no
    two package statements (of fewer than 2^32) share a variable name. *)
Theorem fix_ghost_vars_unique m m' :
  fix_ghost_vars m = Some m' ->
  method_packages m' = fixed_packages 0 (method_packages m)
  /\ Forall2 (fun b b' => CfgMethod.successor b' = CfgMethod.successor b
       /\ Forall2 unchanged_but_packages (CfgMethod.stmts b) (CfgMethod.stmts b')) (CfgMethod.basic_blocks m) (CfgMethod.basic_blocks m')
  /\ ((Z.of_nat (length (method_packages m)) < 4294967296)%Z ->
      forall i j p q v w, i <> j -> method_packages m' !! i = Some p -> method_packages m' !! j = Some q ->
        In v (fst p) -> In w (fst q) -> LocalVar.name v <> LocalVar.name w).
Proof.
  unfold fix_ghost_vars. intros Hm. destruct (fold_cfg_stmts _ m _) as [[m1 st]| |] eqn:E; [|done..]. injection Hm as ->.
  unfold fold_cfg_stmts in E. apply st_bind_val in E as (bs' & st' & E & Hr). apply st_ret_val in Hr. injection Hr as -> ->.
  destruct (fixer_blocks _ _ _ _ E eq_refl) as (_ & _ & P & I). cbn in P. split; [exact P|]. split; [exact I|].
  intros Hlen i j p q v w Hij Hp Hq Hv Hw En.
  change (method_packages (CfgMethod.with_blocks m bs')) with (concat (map (fun b => concat (map packages (CfgMethod.stmts b))) bs')) in Hp, Hq.
  rewrite P, fixed_packages_lookup in Hp, Hq by done. apply fmap_Some in Hp as (p0 & Hp & ->). apply fmap_Some in Hq as (q0 & Hq & ->).
  cbn in Hv, Hw. apply in_map_iff in Hv as (v0 & <- & _). apply in_map_iff in Hw as (w0 & <- & _).
  apply lookup_lt_Some in Hp, Hq. unfold method_packages in Hlen.
  unfold wrap_u32 in En. rewrite !Z.mod_small in En by lia. apply fix_name_number in En; lia.
Qed.

(** Two package statements that declare the same variable. *)
Definition ghost : LocalVar := LocalVar.new "g" Ty.Int.

Definition ghost_package : Stmt :=
  Stmt.PackageMagicWand (expr_of_bool true) [Stmt.Assert (expr_of_var ghost) Position.default] "lhs" [ghost] Position.default.

Definition two_packages : CfgMethod :=
  CfgMethod.make 7%Z "m" 0 [] [] [] [] [CfgMethod.make_block [ghost_package; ghost_package] Successor.Return] ["start"] 0%Z 0%Z.

Lemma fix_ghost_vars_unique_witness :
  exists m', fix_ghost_vars two_packages = Some m'
    /\ map fst (method_packages m') = [[LocalVar.new "g$p0" Ty.Int]; [LocalVar.new "g$p1" Ty.Int]]
    /\ method_packages m' = fixed_packages 0 (method_packages two_packages).
Proof.
  destruct (fix_ghost_vars two_packages) as [m'|] eqn:E; [|vm_compute in E; discriminate E].
  exists m'. split; [reflexivity|]. split; [vm_compute in E; injection E as <-; reflexivity|].
  exact (proj1 (fix_ghost_vars_unique _ _ E)).
Defined.
