(* ===== verification/ViperAst.v ===== *)
(** * The Viper AST and its factory

    [viper/src/ast_factory]: the factory calls the constructors of the Java
    classes of the Viper AST.  An object is modelled by the class it was
    built from and the arguments it was built with; [NoInfo] and [NoTrafos]
    are left out where they are the only choice.  [for_perm], which nothing
    calls, is left out. *)

From stdpp Require Import pretty.
From S2P Require Import Prelude.

(** ** Positions, types and declarations *)

Module VPosition.
Inductive VPosition : Type :=
  | NoPosition
  | LineColumnPosition (line column : Z)
  | IdentifierPosition (start : VPosition) (pos_id : string).
End VPosition.
Abbreviation VPosition := VPosition.VPosition.

Module VType.
Inductive VType : Type :=
  | Int
  | Bool
  | Perm
  | Ref
  | Wand
  | TypeVar (name : string)
  | DomainType (domain_name : string) (partial_typ_vars_map : list (VType * VType)) (type_parameters : list VType)
  | SetType (element_type : VType)
  | MultisetType (element_type : VType)
  | SeqType (element_type : VType).
End VType.
Abbreviation VType := VType.VType.

Record VField : Type := { vfield_name : string; vfield_type : VType }.
Record VLocalVarDecl : Type := { decl_name : string; decl_type : VType }.

Record VDomainFunc : Type := {
  dfunc_name : string;
  dfunc_formal_args : list VLocalVarDecl;
  dfunc_type : VType;
  dfunc_unique : bool;
  dfunc_domain_name : string
}.

(** ** Expressions *)

Module VLit.
Inductive VLit : Type := TrueLit | FalseLit | NullLit | WildcardPerm | FullPerm | NoPerm | EpsilonPerm.
End VLit.
Abbreviation VLit := VLit.VLit.

Module VUn.
Inductive VUn : Type := Minus | Not | CurrentPerm | PermMinus | Old | SeqLength | AnySetCardinality.
End VUn.
Abbreviation VUn := VUn.VUn.

Module VBin.
Inductive VBin : Type :=
    | Add | Sub | Mul | Div | Mod | LtCmp | LeCmp | GtCmp | GeCmp | EqCmp | NeCmp | Or | And |
    Implies | MagicWand | InhaleExhaleExp | FractionalPerm | PermDiv | PermAdd | PermSub | PermMul |
    IntPermMul | PermLtCmp | PermLeCmp | PermGtCmp | PermGeCmp | RangeSeq | SeqAppend | SeqIndex |
    SeqTake | SeqDrop | SeqContains | AnySetUnion | AnySetIntersection | AnySetSubset | AnySetMinus
    | AnySetContains.
End VBin.
Abbreviation VBin := VBin.VBin.

Module VExpr.
Inductive VExpr : Type :=
  (* literals, operators of one and of two operands *)
  | Lit (class : VLit) (pos : VPosition)
  | Un (class : VUn) (expr : VExpr) (pos : VPosition)
  | Bin (class : VBin) (left right : VExpr) (pos : VPosition)
  | IntLit (big_int : string) (pos : VPosition)
  | LocalVar (name : string) (var_type : VType) (pos : VPosition)
  | Result (var_type : VType) (pos : VPosition)
  | FieldAccess (rcv : VExpr) (field : VField) (pos : VPosition)
  | PredicateAccess (args : list VExpr) (predicate_name : string) (pos : VPosition)
  | FieldAccessPredicate (loc perm : VExpr) (pos : VPosition)
  | PredicateAccessPredicate (loc perm : VExpr) (pos : VPosition)
  | FuncApp (function_name : string) (args : list VExpr) (pos : VPosition) (return_type : VType)
  | DomainFuncApp (domain_func : VDomainFunc) (args : list VExpr) (type_var_map : list (VType * VType)) (pos : VPosition)
  | CondExp (cond then_expr else_expr : VExpr) (pos : VPosition)
  | Unfolding (acc body : VExpr) (pos : VPosition)
  | Applying (wand body : VExpr) (pos : VPosition)
  | LabelledOld (expr : VExpr) (old_label : string) (pos : VPosition)
  | Let (variable : VLocalVarDecl) (expr body : VExpr) (pos : VPosition)
  | Forall (variables : list VLocalVarDecl) (triggers : list (list VExpr * VPosition)) (expr : VExpr) (pos : VPosition)
  | Exists (variables : list VLocalVarDecl) (triggers : list (list VExpr * VPosition)) (expr : VExpr) (pos : VPosition)
  | EmptySeq (elem_type : VType) (pos : VPosition)
  | ExplicitSeq (elems : list VExpr) (pos : VPosition)
  | SeqUpdate (seq index elem : VExpr) (pos : VPosition)
  | EmptySet (elem_type : VType) (pos : VPosition)
  | ExplicitSet (elems : list VExpr) (pos : VPosition)
  | EmptyMultiset (elem_type : VType) (pos : VPosition)
  | ExplicitMultiset (elems : list VExpr) (pos : VPosition).
End VExpr.
Abbreviation VExpr := VExpr.VExpr.

Definition VTrigger : Type := list VExpr * VPosition.

(** ** Statements *)

Inductive VInfo : Type := NoInfo | SimpleInfo (comments : list string).

Module VStmt.
Inductive VStmt : Type :=
  | NewStmt (lhs : VExpr) (fields : list VField)
  (** the class depends on [lhs]: an assignment to a variable or a field *)
  | AbstractAssign (lhs rhs : VExpr) (pos : VPosition)
  | LocalVarAssign (lhs rhs : VExpr) (pos : VPosition)
  | FieldAssign (lhs rhs : VExpr) (pos : VPosition)
  | MethodCall (method_name : string) (args targets : list VExpr) (pos : VPosition)
  | Exhale (expr : VExpr) (pos : VPosition) (info : VInfo)
  | Inhale (expr : VExpr) (pos : VPosition) (info : VInfo)
  | Assert (expr : VExpr) (pos : VPosition) (info : VInfo)
  | Fold (acc : VExpr) (pos : VPosition)
  | Unfold (acc : VExpr) (pos : VPosition)
  | Package (wand : VExpr) (proof_script : VStmt) (pos : VPosition)
  | Apply (wand : VExpr) (pos : VPosition)
  | Seqn (stmts : list VStmt) (scoped_decls : list (VLocalVarDecl + VStmt)) (pos : VPosition) (info : VInfo)
  | If (cond : VExpr) (then_body else_body : VStmt) (pos : VPosition)
  | While (cond : VExpr) (invs : list VExpr) (body : VStmt) (pos : VPosition)
  | Label (name : string) (invs : list VExpr) (pos : VPosition)
  | Goto (target : string) (pos : VPosition).
End VStmt.
Abbreviation VStmt := VStmt.VStmt.

(** A [Declaration] is a local variable or a label. *)
Definition VDeclaration : Type := VLocalVarDecl + VStmt.

(** ** Programs *)

Record VPredicate : Type := {
  vpredicate_name : string;
  vpredicate_formal_args : list VLocalVarDecl;
  vpredicate_body : option VExpr
}.

Record VFunction : Type := {
  vfunction_name : string;
  vfunction_formal_args : list VLocalVarDecl;
  vfunction_type : VType;
  vfunction_pres : list VExpr;
  vfunction_posts : list VExpr;
  vfunction_body : option VExpr;
  vfunction_pos : VPosition
}.

Record VMethod : Type := {
  vmethod_name : string;
  vmethod_formal_args : list VLocalVarDecl;
  vmethod_formal_returns : list VLocalVarDecl;
  vmethod_pres : list VExpr;
  vmethod_posts : list VExpr;
  vmethod_body : option VStmt
}.

Record VNamedDomainAxiom : Type := { axiom_name : string; axiom_expr : VExpr; axiom_domain_name : string }.

Record VDomain : Type := {
  vdomain_name : string;
  vdomain_functions : list VDomainFunc;
  vdomain_axioms : list VNamedDomainAxiom;
  vdomain_type_vars : list VType
}.

Record VProgram : Type := {
  vprogram_domains : list VDomain;
  vprogram_fields : list VField;
  vprogram_functions : list VFunction;
  vprogram_predicates : list VPredicate;
  vprogram_methods : list VMethod
}.

(** ** The factory *)

Module Factory.
(** *** Positions and types *)

Definition no_position : VPosition := VPosition.NoPosition.
Definition line_column_position (line column : Z) : VPosition := VPosition.LineColumnPosition line column.
Definition identifier_position (line column : Z) (pos_id : string) : VPosition :=
  VPosition.IdentifierPosition (line_column_position line column) pos_id.

Definition int_type : VType := VType.Int.
Definition bool_type : VType := VType.Bool.
Definition perm_type : VType := VType.Perm.
Definition ref_type : VType := VType.Ref.
Definition wand_type : VType := VType.Wand.
Definition type_var (name : string) : VType := VType.TypeVar name.
Definition domain_type (domain_name : string) (partial_typ_vars_map : list (VType * VType)) (type_parameters : list VType) : VType :=
  VType.DomainType domain_name partial_typ_vars_map type_parameters.
Definition set_type (element_type : VType) : VType := VType.SetType element_type.
Definition multiset_type (element_type : VType) : VType := VType.MultisetType element_type.
Definition seq_type (element_type : VType) : VType := VType.SeqType element_type.

Definition simple_info (comments : list string) : VInfo := SimpleInfo comments.

(** *** Expressions *)

(** [new_big_int] takes the decimal digits. *)
Definition int_lit_with_pos (i : Z) (pos : VPosition) : VExpr := VExpr.IntLit (pretty i) pos.
Definition int_lit_from_ref_with_pos (i : string) (pos : VPosition) : VExpr := VExpr.IntLit i pos.
Definition func_app (function_name : string) (args : list VExpr) (return_type : VType) (pos : VPosition) : VExpr :=
  VExpr.FuncApp function_name args pos return_type.
Definition domain_func_app (domain_func : VDomainFunc) (args : list VExpr) (type_var_map : list (VType * VType)) : VExpr :=
  VExpr.DomainFuncApp domain_func args type_var_map no_position.
Definition add_with_pos (left right : VExpr) (pos : VPosition) : VExpr := VExpr.Bin VBin.Add left right pos.
Definition add (left right : VExpr) : VExpr := add_with_pos left right no_position.
Definition sub_with_pos (left right : VExpr) (pos : VPosition) : VExpr := VExpr.Bin VBin.Sub left right pos.
Definition sub (left right : VExpr) : VExpr := sub_with_pos left right no_position.
Definition mul_with_pos (left right : VExpr) (pos : VPosition) : VExpr := VExpr.Bin VBin.Mul left right pos.
Definition mul (left right : VExpr) : VExpr := mul_with_pos left right no_position.
Definition div_with_pos (left right : VExpr) (pos : VPosition) : VExpr := VExpr.Bin VBin.Div left right pos.
Definition div (left right : VExpr) : VExpr := div_with_pos left right no_position.
Definition module_with_pos (left right : VExpr) (pos : VPosition) : VExpr := VExpr.Bin VBin.Mod left right pos.
Definition module (left right : VExpr) : VExpr := module_with_pos left right no_position.
Definition lt_cmp_with_pos (left right : VExpr) (pos : VPosition) : VExpr := VExpr.Bin VBin.LtCmp left right pos.
Definition lt_cmp (left right : VExpr) : VExpr := lt_cmp_with_pos left right no_position.
Definition le_cmp_with_pos (left right : VExpr) (pos : VPosition) : VExpr := VExpr.Bin VBin.LeCmp left right pos.
Definition le_cmp (left right : VExpr) : VExpr := le_cmp_with_pos left right no_position.
Definition gt_cmp_with_pos (left right : VExpr) (pos : VPosition) : VExpr := VExpr.Bin VBin.GtCmp left right pos.
Definition gt_cmp (left right : VExpr) : VExpr := gt_cmp_with_pos left right no_position.
Definition ge_cmp_with_pos (left right : VExpr) (pos : VPosition) : VExpr := VExpr.Bin VBin.GeCmp left right pos.
Definition ge_cmp (left right : VExpr) : VExpr := ge_cmp_with_pos left right no_position.
Definition eq_cmp_with_pos (left right : VExpr) (pos : VPosition) : VExpr := VExpr.Bin VBin.EqCmp left right pos.
Definition eq_cmp (left right : VExpr) : VExpr := eq_cmp_with_pos left right no_position.
Definition ne_cmp_with_pos (left right : VExpr) (pos : VPosition) : VExpr := VExpr.Bin VBin.NeCmp left right pos.
Definition ne_cmp (left right : VExpr) : VExpr := ne_cmp_with_pos left right no_position.
Definition int_lit (i : Z) : VExpr := int_lit_with_pos i no_position.
Definition int_lit_from_ref (i : string) : VExpr := int_lit_from_ref_with_pos i no_position.
Definition minus_with_pos (expr : VExpr) (pos : VPosition) : VExpr := VExpr.Un VUn.Minus expr pos.
Definition minus (expr : VExpr) : VExpr := minus_with_pos expr no_position.
Definition or_with_pos (left right : VExpr) (pos : VPosition) : VExpr := VExpr.Bin VBin.Or left right pos.
Definition or (left right : VExpr) : VExpr := or_with_pos left right no_position.
Definition and_with_pos (left right : VExpr) (pos : VPosition) : VExpr := VExpr.Bin VBin.And left right pos.
Definition and (left right : VExpr) : VExpr := and_with_pos left right no_position.
Definition implies_with_pos (left right : VExpr) (pos : VPosition) : VExpr := VExpr.Bin VBin.Implies left right pos.
Definition implies (left right : VExpr) : VExpr := VExpr.Bin VBin.Implies left right no_position.
Definition magic_wand_with_pos (left right : VExpr) (pos : VPosition) : VExpr :=
  VExpr.Bin VBin.MagicWand left right pos.
Definition magic_wand (left right : VExpr) : VExpr := magic_wand_with_pos left right no_position.
Definition not_with_pos (expr : VExpr) (pos : VPosition) : VExpr := VExpr.Un VUn.Not expr pos.
Definition not (expr : VExpr) : VExpr := not_with_pos expr no_position.
Definition true_lit_with_pos (pos : VPosition) : VExpr := VExpr.Lit VLit.TrueLit pos.
Definition true_lit : VExpr := true_lit_with_pos no_position.
Definition false_lit_with_pos (pos : VPosition) : VExpr := VExpr.Lit VLit.FalseLit pos.
Definition false_lit : VExpr := false_lit_with_pos no_position.
Definition null_lit_with_pos (pos : VPosition) : VExpr := VExpr.Lit VLit.NullLit pos.
Definition null_lit : VExpr := null_lit_with_pos no_position.
Definition field_access_predicate_with_pos (loc perm : VExpr) (pos : VPosition) : VExpr :=
  VExpr.FieldAccessPredicate loc perm pos.
Definition field_access_predicate (loc perm : VExpr) : VExpr := field_access_predicate_with_pos loc perm no_position.
Definition predicate_access_predicate_with_pos (loc perm : VExpr) (pos : VPosition) : VExpr :=
  VExpr.PredicateAccessPredicate loc perm pos.
Definition predicate_access_predicate (loc perm : VExpr) : VExpr :=
  predicate_access_predicate_with_pos loc perm no_position.
Definition inhale_exhale_pred (inhale exhale : VExpr) : VExpr :=
  VExpr.Bin VBin.InhaleExhaleExp inhale exhale no_position.
Definition wildcard_perm : VExpr := VExpr.Lit VLit.WildcardPerm no_position.
Definition full_perm : VExpr := VExpr.Lit VLit.FullPerm no_position.
Definition no_perm : VExpr := VExpr.Lit VLit.NoPerm no_position.
Definition epsilon_perm : VExpr := VExpr.Lit VLit.EpsilonPerm no_position.
Definition fractional_perm (left right : VExpr) : VExpr := VExpr.Bin VBin.FractionalPerm left right no_position.
Definition perm_div (left right : VExpr) : VExpr := VExpr.Bin VBin.PermDiv left right no_position.
Definition current_perm (loc : VExpr) : VExpr := VExpr.Un VUn.CurrentPerm loc no_position.
Definition perm_minus (expr : VExpr) : VExpr := VExpr.Un VUn.PermMinus expr no_position.
Definition perm_add (left right : VExpr) : VExpr := VExpr.Bin VBin.PermAdd left right no_position.
Definition perm_sub (left right : VExpr) : VExpr := VExpr.Bin VBin.PermSub left right no_position.
Definition perm_mul (left right : VExpr) : VExpr := VExpr.Bin VBin.PermMul left right no_position.
Definition int_perm_mul (left right : VExpr) : VExpr := VExpr.Bin VBin.IntPermMul left right no_position.
Definition perm_lt_cmp (left right : VExpr) : VExpr := VExpr.Bin VBin.PermLtCmp left right no_position.
Definition perm_le_cmp (left right : VExpr) : VExpr := VExpr.Bin VBin.PermLeCmp left right no_position.
Definition perm_gt_cmp (left right : VExpr) : VExpr := VExpr.Bin VBin.PermGtCmp left right no_position.
Definition perm_ge_cmp (left right : VExpr) : VExpr := VExpr.Bin VBin.PermGeCmp left right no_position.
Definition field_access_with_pos (rcv : VExpr) (field : VField) (pos : VPosition) : VExpr :=
  VExpr.FieldAccess rcv field pos.
Definition field_access (rcv : VExpr) (field : VField) : VExpr := field_access_with_pos rcv field no_position.
Definition predicate_access (args : list VExpr) (predicate_name : string) : VExpr :=
  VExpr.PredicateAccess args predicate_name no_position.
Definition predicate_access_with_pos (args : list VExpr) (predicate_name : string) (pos : VPosition) : VExpr :=
  VExpr.PredicateAccess args predicate_name pos.
Definition cond_exp_with_pos (cond then_expr else_expr : VExpr) (pos : VPosition) : VExpr :=
  VExpr.CondExp cond then_expr else_expr pos.
Definition cond_exp (cond then_expr else_expr : VExpr) : VExpr :=
  cond_exp_with_pos cond then_expr else_expr no_position.
Definition unfolding_with_pos (acc body : VExpr) (pos : VPosition) : VExpr := VExpr.Unfolding acc body pos.
Definition unfolding (acc body : VExpr) : VExpr := unfolding_with_pos acc body no_position.
Definition applying (wand body : VExpr) : VExpr := VExpr.Applying wand body no_position.
Definition old (expr : VExpr) : VExpr := VExpr.Un VUn.Old expr no_position.
Definition labelled_old_with_pos (expr : VExpr) (old_label : string) (pos : VPosition) : VExpr :=
  VExpr.LabelledOld expr old_label pos.
Definition labelled_old (expr : VExpr) (old_label : string) : VExpr :=
  labelled_old_with_pos expr old_label no_position.
Definition let_expr_with_pos (variable : VLocalVarDecl) (expr body : VExpr) (pos : VPosition) : VExpr :=
  VExpr.Let variable expr body pos.
Definition let_expr (variable : VLocalVarDecl) (expr body : VExpr) : VExpr :=
  let_expr_with_pos variable expr body no_position.
Definition forall_with_pos (variables : list VLocalVarDecl) (triggers : list VTrigger) (expr : VExpr) (pos : VPosition) : VExpr :=
  VExpr.Forall variables triggers expr pos.
Definition forall_ (variables : list VLocalVarDecl) (triggers : list VTrigger) (expr : VExpr) : VExpr :=
  forall_with_pos variables triggers expr no_position.
Definition exists_with_pos (variables : list VLocalVarDecl) (triggers : list VTrigger) (expr : VExpr) (_ : VPosition) : VExpr :=
  VExpr.Exists variables triggers expr no_position.
Definition exists_ (variables : list VLocalVarDecl) (triggers : list VTrigger) (expr : VExpr) : VExpr :=
  exists_with_pos variables triggers expr no_position.
Definition trigger_with_pos (exps : list VExpr) (pos : VPosition) : VTrigger := (exps, pos).
Definition trigger (exps : list VExpr) : VTrigger := trigger_with_pos exps no_position.
Definition local_var_with_pos (name : string) (var_type : VType) (pos : VPosition) : VExpr :=
  VExpr.LocalVar name var_type pos.
Definition local_var (name : string) (var_type : VType) : VExpr := local_var_with_pos name var_type no_position.
Definition result_with_pos (var_type : VType) (pos : VPosition) : VExpr := VExpr.Result var_type pos.
Definition empty_seq (elem_type : VType) : VExpr := VExpr.EmptySeq elem_type no_position.
Definition explicit_seq (elems : list VExpr) : VExpr := VExpr.ExplicitSeq elems no_position.
Definition range_seq (low high : VExpr) : VExpr := VExpr.Bin VBin.RangeSeq low high no_position.
Definition seq_append (left right : VExpr) : VExpr := VExpr.Bin VBin.SeqAppend left right no_position.
Definition seq_index (seq index : VExpr) : VExpr := VExpr.Bin VBin.SeqIndex seq index no_position.
Definition seq_take (seq num : VExpr) : VExpr := VExpr.Bin VBin.SeqTake seq num no_position.
Definition seq_drop (seq num : VExpr) : VExpr := VExpr.Bin VBin.SeqDrop seq num no_position.
Definition seq_contains (elem seq : VExpr) : VExpr := VExpr.Bin VBin.SeqContains elem seq no_position.
Definition seq_update (seq index elem : VExpr) : VExpr := VExpr.SeqUpdate seq index elem no_position.
Definition seq_length (seq : VExpr) : VExpr := VExpr.Un VUn.SeqLength seq no_position.
Definition empty_set (elem_type : VType) : VExpr := VExpr.EmptySet elem_type no_position.
Definition explicit_set (elems : list VExpr) : VExpr := VExpr.ExplicitSet elems no_position.
Definition empty_multiset (elem_type : VType) : VExpr := VExpr.EmptyMultiset elem_type no_position.
Definition explicit_multiset (elems : list VExpr) : VExpr := VExpr.ExplicitMultiset elems no_position.
Definition any_set_union (left right : VExpr) : VExpr := VExpr.Bin VBin.AnySetUnion left right no_position.
Definition any_set_intersection (left right : VExpr) : VExpr :=
  VExpr.Bin VBin.AnySetIntersection left right no_position.
Definition any_set_subset (left right : VExpr) : VExpr := VExpr.Bin VBin.AnySetSubset left right no_position.
Definition any_set_minus (left right : VExpr) : VExpr := VExpr.Bin VBin.AnySetMinus left right no_position.
Definition any_set_contains (elem set : VExpr) : VExpr := VExpr.Bin VBin.AnySetContains elem set no_position.
Definition any_set_cardinality (set : VExpr) : VExpr := VExpr.Un VUn.AnySetCardinality set no_position.

(** *** Statements *)

Definition new_stmt (lhs : VExpr) (fields : list VField) : VStmt := VStmt.NewStmt lhs fields.
Definition abstract_assign (lhs rhs : VExpr) : VStmt := VStmt.AbstractAssign lhs rhs no_position.
Definition local_var_assign (lhs rhs : VExpr) : VStmt := VStmt.LocalVarAssign lhs rhs no_position.
Definition field_assign (lhs rhs : VExpr) : VStmt := VStmt.FieldAssign lhs rhs no_position.
Definition method_call (method_name : string) (args targets : list VExpr) : VStmt :=
  VStmt.MethodCall method_name args targets no_position.
Definition exhale (expr : VExpr) (pos : VPosition) : VStmt := VStmt.Exhale expr pos NoInfo.
Definition exhale_with_comment (expr : VExpr) (pos : VPosition) (comment : string) : VStmt :=
  VStmt.Exhale expr pos (simple_info [comment; EmptyString]).
Definition inhale (expr : VExpr) (pos : VPosition) : VStmt := VStmt.Inhale expr pos NoInfo.
Definition inhale_with_comment (expr : VExpr) (pos : VPosition) (comment : string) : VStmt :=
  VStmt.Inhale expr pos (simple_info [comment; EmptyString]).
Definition assert (expr : VExpr) (pos : VPosition) : VStmt := VStmt.Assert expr pos NoInfo.
Definition assert_with_comment (expr : VExpr) (pos : VPosition) (comment : string) : VStmt :=
  VStmt.Assert expr pos (simple_info [comment; EmptyString]).
Definition fold (acc : VExpr) : VStmt := VStmt.Fold acc no_position.
Definition fold_with_pos (acc : VExpr) (pos : VPosition) : VStmt := VStmt.Fold acc pos.
Definition unfold (acc : VExpr) : VStmt := VStmt.Unfold acc no_position.
Definition package (wand : VExpr) (proof_script : VStmt) (pos : VPosition) : VStmt := VStmt.Package wand proof_script pos.
Definition apply (wand : VExpr) (pos : VPosition) : VStmt := VStmt.Apply wand pos.
Definition seqn (stmts : list VStmt) (scoped_decls : list VDeclaration) : VStmt := VStmt.Seqn stmts scoped_decls no_position NoInfo.
Definition comment (comment : string) : VStmt := VStmt.Seqn [] [] no_position (simple_info [comment]).
Definition if_stmt (cond : VExpr) (then_body else_body : VStmt) : VStmt := VStmt.If cond then_body else_body no_position.
Definition while_stmt (cond : VExpr) (invs : list VExpr) (body : VStmt) : VStmt := VStmt.While cond invs body no_position.
Definition label (name : string) (invs : list VExpr) : VStmt := VStmt.Label name invs no_position.
Definition goto (target : string) : VStmt := VStmt.Goto target no_position.

(** *** Programs *)

Definition program (domains : list VDomain) (fields : list VField) (functions : list VFunction)
    (predicates : list VPredicate) (methods : list VMethod) : VProgram :=
  {| vprogram_domains := domains; vprogram_fields := fields; vprogram_functions := functions;
     vprogram_predicates := predicates; vprogram_methods := methods |}.
Definition field (name : string) (typ : VType) : VField := {| vfield_name := name; vfield_type := typ |}.
Definition local_var_decl (name : string) (typ : VType) : VLocalVarDecl := {| decl_name := name; decl_type := typ |}.
Definition predicate (name : string) (formal_args : list VLocalVarDecl) (body : option VExpr) : VPredicate :=
  {| vpredicate_name := name; vpredicate_formal_args := formal_args; vpredicate_body := body |}.
Definition function (name : string) (formal_args : list VLocalVarDecl) (typ : VType) (pres posts : list VExpr)
    (pos : VPosition) (body : option VExpr) : VFunction :=
  {| vfunction_name := name; vfunction_formal_args := formal_args; vfunction_type := typ; vfunction_pres := pres;
     vfunction_posts := posts; vfunction_body := body; vfunction_pos := pos |}.
Definition method (name : string) (formal_args formal_returns : list VLocalVarDecl) (pres posts : list VExpr)
    (body : option VStmt) : VMethod :=
  {| vmethod_name := name; vmethod_formal_args := formal_args; vmethod_formal_returns := formal_returns;
     vmethod_pres := pres; vmethod_posts := posts; vmethod_body := body |}.
Definition domain (name : string) (functions : list VDomainFunc) (axioms : list VNamedDomainAxiom) (type_vars : list VType) : VDomain :=
  {| vdomain_name := name; vdomain_functions := functions; vdomain_axioms := axioms; vdomain_type_vars := type_vars |}.
Definition domain_func (name : string) (formal_args : list VLocalVarDecl) (typ : VType) (unique : bool) (domain_name : string) : VDomainFunc :=
  {| dfunc_name := name; dfunc_formal_args := formal_args; dfunc_type := typ; dfunc_unique := unique; dfunc_domain_name := domain_name |}.
Definition named_domain_axiom (name : string) (expr : VExpr) (domain_name : string) : VNamedDomainAxiom :=
  {| axiom_name := name; axiom_expr := expr; axiom_domain_name := domain_name |}.
End Factory.
