(* ===== verification/ToViper.v ===== *)
(** * Translation of expressions, statements and programs to Viper

    [prusti-common/src/vir/to_viper.rs].  The Java simplifier and the
    settings [simplify_encoding] and [verify_only_preamble] are arguments.
    The translation panics on addresses and on snapshots that are not
    patched. *)

From stdpp Require Import pretty.
From Stdlib Require Import ZArith Ascii.
From S2P Require Import Prelude Ast ExprEq ExprPlace ExprTransformers ExprOps Collections Items Semantics.
From S2P Require Import Borrows Stmt Cfg Display QuantifierFixer ViperAst.

(** ** Positions, types and variables *)

Definition position_to_viper (self : Position) : VPosition :=
  Factory.identifier_position (Position.line self) (Position.column self) (pretty (Position.id self)).

Fixpoint type_to_viper (self : Ty) : VType :=
  match self with
  | Ty.Int => Factory.int_type
  | Ty.Bool => Factory.bool_type
  | Ty.TypedRef _ => Factory.ref_type
  | Ty.Domain name => Factory.domain_type name [] []
  | Ty.Snapshot name => Factory.domain_type ("Snap$" ++ name) [] []
  | Ty.Seq elem_ty => Factory.seq_type (type_to_viper elem_ty)
  end.

Definition local_var_to_viper (self : LocalVar) (p : Position) : VExpr :=
  if LocalVar.name self == "__result" then
    Factory.result_with_pos (type_to_viper (LocalVar.typ self)) (position_to_viper p)
  else Factory.local_var_with_pos (LocalVar.name self) (type_to_viper (LocalVar.typ self)) (position_to_viper p).

Definition local_var_to_viper_decl (self : LocalVar) : VLocalVarDecl :=
  Factory.local_var_decl (LocalVar.name self) (type_to_viper (LocalVar.typ self)).

Definition field_to_viper (self : Field) : VField :=
  Factory.field (Field.name self) (type_to_viper (Field.typ self)).

Definition perm_amount_to_viper (self : PermAmount) : VExpr :=
  match self with
  | PermAmount.Write => Factory.full_perm
  | PermAmount.Read => Factory.func_app "read$" [] Factory.perm_type Factory.no_position
  | PermAmount.Remaining =>
      Factory.perm_sub Factory.full_perm (Factory.func_app "read$" [] Factory.perm_type Factory.no_position)
  end.

Definition const_to_viper (self : Const) (p : Position) : VExpr :=
  match self with
  | Const.Bool true => Factory.true_lit_with_pos (position_to_viper p)
  | Const.Bool false => Factory.false_lit_with_pos (position_to_viper p)
  | Const.Int x => Factory.int_lit_with_pos x (position_to_viper p)
  | Const.BigInt x => Factory.int_lit_from_ref_with_pos x (position_to_viper p)
  | Const.FnPtr => Factory.null_lit_with_pos (position_to_viper p)
  end.

Definition domain_func_to_viper (self : DomainFunc) : VDomainFunc :=
  Factory.domain_func (Domain.func_get_identifier self) (map local_var_to_viper_decl (DomainFunc.formal_args self))
    (type_to_viper (DomainFunc.return_type self)) (DomainFunc.unique self) (DomainFunc.domain_name self).

(** The match on [BinOpKind]. *)
Definition bin_op_to_viper (op : BinOpKind) : VExpr -> VExpr -> VPosition -> VExpr :=
  match op with
  | BinOpKind.EqCmp => Factory.eq_cmp_with_pos
  | BinOpKind.NeCmp => Factory.ne_cmp_with_pos
  | BinOpKind.GtCmp => Factory.gt_cmp_with_pos
  | BinOpKind.GeCmp => Factory.ge_cmp_with_pos
  | BinOpKind.LtCmp => Factory.lt_cmp_with_pos
  | BinOpKind.LeCmp => Factory.le_cmp_with_pos
  | BinOpKind.Add => Factory.add_with_pos
  | BinOpKind.Sub => Factory.sub_with_pos
  | BinOpKind.Mul => Factory.mul_with_pos
  | BinOpKind.Div => Factory.div_with_pos
  | BinOpKind.Mod => Factory.module_with_pos
  | BinOpKind.And => Factory.and_with_pos
  | BinOpKind.Or => Factory.or_with_pos
  | BinOpKind.Implies => Factory.implies_with_pos
  end.

(** The full permission to [DeadBorrowToken$(id)]; [id] is an [isize] or a [usize]. *)
Definition dead_borrow_token (id : VExpr) : VExpr :=
  Factory.predicate_access_predicate (Factory.predicate_access [id] "DeadBorrowToken$") Factory.full_perm.

(** The cast [as isize] of a [usize] keeps the 64 bits. *)
Definition as_isize (z : Z) : Z := ((z + 2 ^ 63) mod 2 ^ 64 - 2 ^ 63)%Z.

Example as_isize_wraps :
  as_isize 7 = 7%Z /\ as_isize (2 ^ 63 - 1) = (2 ^ 63 - 1)%Z /\ as_isize (2 ^ 63) = (- 2 ^ 63)%Z
  /\ as_isize (2 ^ 64 - 1) = (-1)%Z.
Proof. repeat split. Qed.

(** [borrow_id(..) as isize] of the borrow of a magic wand, -1 if there
    is none. *)
Definition wand_borrow_id (maybe_borrow : option Borrow) : Z :=
  match maybe_borrow with
  | Some borrow => as_isize (Z.of_nat (Borrow.borrow_id borrow))
  | None => -1
  end.

(** ** Expressions *)

Section Translate.
Context (simplify_encoding : bool) (simplified_expression : VExpr -> VExpr).

(** The end of [Expr::to_viper]. *)
Definition simplify_if (e : VExpr) : VExpr := if simplify_encoding then simplified_expression e else e.

(** [Expr::Const(val, Position::default())] of an integer that becomes a
    [BigInt]. *)
Definition id_to_viper (id : Z) : VExpr :=
  simplify_if (const_to_viper (Const.BigInt (pretty id)) Position.default).

Fixpoint expr_to_viper (self : Expr) : option VExpr :=
  expr ←
    match self with
    | Expr.Local local_var pos => Some (local_var_to_viper local_var pos)
    | Expr.Variant base field pos | Expr.Field base field pos =>
        b ← expr_to_viper base;
        Some (Factory.field_access_with_pos b (field_to_viper field) (position_to_viper pos))
    | Expr.AddrOf _ _ _ => None
    | Expr.Const val pos => Some (const_to_viper val pos)
    | Expr.LabelledOld old_label expr pos =>
        e ← expr_to_viper expr; Some (Factory.labelled_old_with_pos e old_label (position_to_viper pos))
    | Expr.MagicWand lhs rhs maybe_borrow pos =>
        l ← expr_to_viper lhs; r ← expr_to_viper rhs;
        Some (Factory.magic_wand_with_pos
                (Factory.and_with_pos (dead_borrow_token (id_to_viper (wand_borrow_id maybe_borrow))) l (position_to_viper pos))
                r (position_to_viper pos))
    | Expr.PredicateAccessPredicate predicate_name arg perm pos =>
        a ← expr_to_viper arg;
        Some (Factory.predicate_access_predicate_with_pos (Factory.predicate_access [a] predicate_name)
                (perm_amount_to_viper perm) (position_to_viper pos))
    | Expr.FieldAccessPredicate loc perm pos =>
        l ← expr_to_viper loc;
        Some (Factory.field_access_predicate_with_pos l (perm_amount_to_viper perm) (position_to_viper pos))
    | Expr.UnaryOp op expr pos =>
        e ← expr_to_viper expr;
        Some match op with
             | UnaryOpKind.Not => Factory.not_with_pos e (position_to_viper pos)
             | UnaryOpKind.Minus => Factory.minus_with_pos e (position_to_viper pos)
             end
    | Expr.BinOp op e1 e2 pos =>
        l ← expr_to_viper e1; r ← expr_to_viper e2; Some (bin_op_to_viper op l r (position_to_viper pos))
    | Expr.ContainerOp op_kind e1 e2 _ =>
        l ← expr_to_viper e1;
        match op_kind with
        | ContainerOpKind.SeqIndex => r ← expr_to_viper e2; Some (Factory.seq_index l r)
        | ContainerOpKind.SeqConcat => r ← expr_to_viper e2; Some (Factory.seq_append l r)
        | ContainerOpKind.SeqLen => Some (Factory.seq_length l)
        end
    | Expr.Seq ty elems _ =>
        match ty with
        | Ty.Seq elem_ty =>
            match elems with
            | [] => Some (Factory.empty_seq (type_to_viper elem_ty))
            | elems => es ← mapM_opt expr_to_viper elems; Some (Factory.explicit_seq es)
            end
        | _ => None
        end
    | Expr.Unfolding predicate_name args expr perm _ pos =>
        es ← mapM_opt expr_to_viper args;
        e ← expr_to_viper expr;
        Some (Factory.unfolding_with_pos
                (Factory.predicate_access_predicate (Factory.predicate_access es predicate_name) (perm_amount_to_viper perm))
                e (position_to_viper pos))
    | Expr.Cond guard e1 e2 pos =>
        g ← expr_to_viper guard; l ← expr_to_viper e1; r ← expr_to_viper e2;
        Some (Factory.cond_exp_with_pos g l r (position_to_viper pos))
    | Expr.ForAll vars triggers body pos =>
        ts ← mapM_opt (fun t => es ← mapM_opt expr_to_viper (Trigger.elements t);
                                Some (Factory.trigger_with_pos es (position_to_viper pos))) triggers;
        b ← expr_to_viper body;
        Some (Factory.forall_with_pos (map local_var_to_viper_decl vars) ts b (position_to_viper pos))
    | Expr.Exists vars triggers body pos =>
        ts ← mapM_opt (fun t => es ← mapM_opt expr_to_viper (Trigger.elements t);
                                Some (Factory.trigger_with_pos es (position_to_viper pos))) triggers;
        b ← expr_to_viper body;
        Some (Factory.exists_with_pos (map local_var_to_viper_decl vars) ts b (position_to_viper pos))
    | Expr.LetExpr var expr body pos =>
        e ← expr_to_viper expr; b ← expr_to_viper body;
        Some (Factory.let_expr_with_pos (local_var_to_viper_decl var) e b (position_to_viper pos))
    | Expr.FuncApp function_name args formal_args return_type pos =>
        es ← mapM_opt expr_to_viper args;
        Some (Factory.func_app (Function.compute_identifier function_name formal_args return_type) es
                (type_to_viper return_type) (position_to_viper pos))
    | Expr.DomainFuncApp function args _ =>
        es ← mapM_opt expr_to_viper args; Some (Factory.domain_func_app (domain_func_to_viper function) es [])
    | Expr.InhaleExhale inhale_expr exhale_expr _ =>
        i ← expr_to_viper inhale_expr; e ← expr_to_viper exhale_expr; Some (Factory.inhale_exhale_pred i e)
    | Expr.Downcast base _ _ => expr_to_viper base
    | Expr.SnapApp _ _ => None
    end;
  Some (simplify_if expr).
End Translate.

(** ** Statements *)

Section Statements.
Context (simplify_encoding : bool) (simplified_expression : VExpr -> VExpr).

Definition exprs_to_viper (es : list Expr) : option (list VExpr) :=
  mapM_opt (expr_to_viper simplify_encoding simplified_expression) es.

(** [create_footprint_asserts]. *)
Definition create_footprint_asserts (expr : Expr) (perm : PermAmount) : option (list VStmt) :=
  accesses ← compute_footprint expr perm;
  es ← exprs_to_viper accesses;
  Some (map (fun e => Factory.assert e (position_to_viper Position.default)) es).

Definition exhale_to_viper (expr : Expr) (pos : Position) : option VStmt :=
  _ ← assert_ (negb (Position.is_default pos));
  e ← expr_to_viper simplify_encoding simplified_expression expr;
  Some (Factory.exhale e (position_to_viper pos)).

Definition assign_to_viper (lhs rhs : Expr) : option VStmt :=
  l ← expr_to_viper simplify_encoding simplified_expression lhs;
  r ← expr_to_viper simplify_encoding simplified_expression rhs;
  Some (Factory.abstract_assign l r).

Definition fold_to_viper (pred_name : string) (args : list Expr) (perm : PermAmount) (pos : Position) : option VStmt :=
  es ← exprs_to_viper args;
  Some (Factory.fold_with_pos
          (Factory.predicate_access_predicate_with_pos
             (Factory.predicate_access_with_pos es pred_name (position_to_viper pos))
             (perm_amount_to_viper perm) (position_to_viper pos))
          (position_to_viper pos)).

(** [stmts.push(stmt); ast.seqn(stmts, [])]. *)
Definition after_footprint (expr : Expr) (stmt : option VStmt) : option VStmt :=
  stmts ← create_footprint_asserts expr PermAmount.Read;
  s ← stmt;
  Some (Factory.seqn (stmts ++ [s]) []).

Definition as_comment (s : Stmt) : option VStmt := text ← stmt_to_string s; Some (Factory.comment text).

Definition apply_to_viper (wand : Expr) (pos : Position) : option VStmt :=
  match wand with
  | Expr.MagicWand _ _ (Some borrow) _ =>
      let id := id_to_viper simplify_encoding simplified_expression (Z.of_nat (Borrow.borrow_id borrow)) in
      let inhale := Factory.inhale (dead_borrow_token id) (position_to_viper pos) in
      w ← expr_to_viper simplify_encoding simplified_expression wand;
      let apply := Factory.apply w
        (Factory.identifier_position (Position.line pos) (Position.column pos) (pretty (Position.id pos))) in
      Some (Factory.seqn [inhale; apply] [])
  | _ => None
  end.

(** [Stmt::to_viper], and [stmt_to_viper_in_packge] if [in_package]. *)
Fixpoint stmt_to_viper (in_package : bool) (self : Stmt) : option VStmt :=
  match self with
  | Stmt.Comment comment => Some (Factory.comment comment)
  | Stmt.Label label => Some (Factory.label label [])
  | Stmt.Inhale expr =>
      e ← expr_to_viper simplify_encoding simplified_expression expr;
      Some (Factory.inhale e (position_to_viper Position.default))
  | Stmt.Exhale expr pos =>
      if in_package then
        _ ← assert_ (negb (Position.is_default pos)); after_footprint expr (exhale_to_viper expr pos)
      else exhale_to_viper expr pos
  | Stmt.Assert expr pos =>
      e ← expr_to_viper simplify_encoding simplified_expression expr;
      Some (Factory.assert e (position_to_viper pos))
  | Stmt.MethodCall method_name args targets =>
      es ← exprs_to_viper args;
      Some (Factory.method_call method_name es (map (fun v => local_var_to_viper v Position.default) targets))
  | Stmt.Assign lhs rhs _ =>
      if in_package then after_footprint rhs (assign_to_viper lhs rhs) else assign_to_viper lhs rhs
  | Stmt.Fold pred_name args perm _ pos =>
      if in_package then
        match args with
        | [place] => _ ← assert_ (is_place place); after_footprint place (fold_to_viper pred_name args perm pos)
        | _ => None
        end
      else fold_to_viper pred_name args perm pos
  | Stmt.Unfold pred_name args perm _ =>
      es ← exprs_to_viper args;
      Some (Factory.unfold (Factory.predicate_access_predicate (Factory.predicate_access es pred_name)
                              (perm_amount_to_viper perm)))
  | Stmt.Obtain _ _ | Stmt.BeginFrame | Stmt.EndFrame | Stmt.TransferPerm _ _ _ | Stmt.ExpireBorrows _
  | Stmt.Downcast _ _ => as_comment self
  | Stmt.PackageMagicWand wand package_stmts _ vars pos =>
      stmts ← mapM_opt (stmt_to_viper true) package_stmts;
      w ← expr_to_viper simplify_encoding simplified_expression wand;
      Some (Factory.package w (Factory.seqn stmts (map (fun v => inl (local_var_to_viper_decl v)) vars))
              (position_to_viper pos))
  | Stmt.ApplyMagicWand wand pos => apply_to_viper wand pos
  | Stmt.If guard then_stmts else_stmts =>
      ts ← mapM_opt (stmt_to_viper in_package) then_stmts;
      es ← mapM_opt (stmt_to_viper in_package) else_stmts;
      g ← expr_to_viper simplify_encoding simplified_expression guard;
      Some (Factory.if_stmt g (Factory.seqn ts []) (Factory.seqn es []))
  end.

(** ** Items *)

Definition struct_predicate_to_viper (self : StructPredicate) : option VPredicate :=
  body ← match StructPredicate.body self with
         | Some b => b ← expr_to_viper simplify_encoding simplified_expression b; Some (Some b)
         | None => Some None
         end;
  Some (Factory.predicate (StructPredicate.name self) [local_var_to_viper_decl (StructPredicate.this self)] body).

Definition enum_predicate_to_viper (self : EnumPredicate) : option VPredicate :=
  body ← expr_to_viper simplify_encoding simplified_expression (Predicate.enum_body self);
  Some (Factory.predicate (EnumPredicate.name self) [local_var_to_viper_decl (EnumPredicate.this self)] (Some body)).

Definition predicate_to_viper (self : Predicate) : option VPredicate :=
  match self with
  | Predicate.Struct p => struct_predicate_to_viper p
  | Predicate.Enum p => enum_predicate_to_viper p
  | Predicate.Bodyless name this => Some (Factory.predicate name [local_var_to_viper_decl this] None)
  end.

Definition bodyless_method_to_viper (self : BodylessMethod) : VMethod :=
  Factory.method (BodylessMethod.name self) (map local_var_to_viper_decl (BodylessMethod.formal_args self))
    (map local_var_to_viper_decl (BodylessMethod.formal_returns self)) [] [] None.

Definition function_to_viper (self : Function) : option VFunction :=
  pres ← exprs_to_viper (Function.pres self);
  posts ← exprs_to_viper (Function.posts self);
  body ← match Function.body self with
         | Some b => b ← expr_to_viper simplify_encoding simplified_expression b; Some (Some b)
         | None => Some None
         end;
  Some (Factory.function (Function.get_identifier self) (map local_var_to_viper_decl (Function.formal_args self))
          (type_to_viper (Function.return_type self)) pres posts Factory.no_position body).

Definition domain_axiom_to_viper (self : Domain.DomainAxiom) : option VNamedDomainAxiom :=
  e ← expr_to_viper simplify_encoding simplified_expression (Domain.expr self);
  Some (Factory.named_domain_axiom (Domain.axiom_name self) e (Domain.axiom_domain_name self)).

Definition domain_to_viper (self : Domain) : option VDomain :=
  axioms ← mapM_opt domain_axiom_to_viper (Domain.axioms self);
  Some (Factory.domain (Domain.name self) (map domain_func_to_viper (Domain.functions self)) axioms
          (map type_to_viper (Domain.type_vars self))).
End Statements.

(** [read$], the symbolic read permission amount. *)
Definition read_function : VFunction :=
  Factory.function "read$" [] Factory.perm_type
    []
    [Factory.lt_cmp Factory.no_perm (Factory.result_with_pos Factory.perm_type Factory.no_position);
     Factory.lt_cmp (Factory.result_with_pos Factory.perm_type Factory.no_position) Factory.full_perm]
    Factory.no_position None.

(** * The translation of expressions keeps their values

    The value of an expression of the Viper AST, over the values and states
    of [Semantics], and the theorem that a translated expression has the
    value of its source. *)

(** ** The value of an expression of Viper *)

(** What the Viper program and its verifier define; a quantifier ranges over
    declared variables. *)
Class ViperValues : Type := {
  v_idiv : Z -> Z -> Z;
  v_imod : Z -> Z -> Z;
  v_big_int : string -> option Z;
  v_func : string -> list Value -> Heap -> option Value;
  v_domain_func : string -> list Value -> option Value;
  v_quantifier : bool -> list VLocalVarDecl -> (list Value -> option Value) -> option Value
}.

(** The interpretation of the source expressions. *)
#[export] Instance source_interp `{ViperValues} : Interp := {|
  idiv := v_idiv; imod := v_imod; big_int := v_big_int; func := v_func; domain_func := v_domain_func;
  quantifier u vars f := v_quantifier u (map local_var_to_viper_decl vars) f |}.

(** A [BigInt] is read from its decimal digits. *)
Class ViperValuesLaws `{ViperValues} : Prop := {
  big_int_pretty : forall i : Z, v_big_int (pretty i) = Some i;
  v_quantifier_mono : forall u vars f g v,
    (forall vs w, f vs = Some w -> g vs = Some w) ->
    v_quantifier u vars f = Some v -> v_quantifier u vars g = Some v
}.

Definition vsort (t : VType) : option sort :=
  match t with
  | VType.Int => Some SInt
  | VType.Bool => Some SBool
  | VType.Ref => Some SRef
  | VType.SeqType _ => Some SSeq
  | VType.DomainType _ _ _ => Some SDom
  | _ => None
  end.

Definition vchecked (t : VType) (o : option Value) : option Value := s ← vsort t; checked s o.

Definition bind_decls (f : string -> option Value) (vars : list VLocalVarDecl) (vs : list Value) : string -> option Value :=
  foldl (fun f kv => bind_var f (decl_name (fst kv)) (snd kv)) f (combine vars vs).

Section Values.
Context `{ViperValues}.

Definition vlit (c : VLit) : option Value :=
  match c with
  | VLit.TrueLit => Some (VBool true)
  | VLit.FalseLit => Some (VBool false)
  | VLit.NullLit => Some (VRef 0)
  | _ => None
  end.

Definition veval_bin (c : VBin) (l r : option Value) : option Value :=
  match c with
  | VBin.Add => eval_binop BinOpKind.Add l r
  | VBin.Sub => eval_binop BinOpKind.Sub l r
  | VBin.Mul => eval_binop BinOpKind.Mul l r
  | VBin.Div => eval_binop BinOpKind.Div l r
  | VBin.Mod => eval_binop BinOpKind.Mod l r
  | VBin.LtCmp => eval_binop BinOpKind.LtCmp l r
  | VBin.LeCmp => eval_binop BinOpKind.LeCmp l r
  | VBin.GtCmp => eval_binop BinOpKind.GtCmp l r
  | VBin.GeCmp => eval_binop BinOpKind.GeCmp l r
  | VBin.EqCmp => eval_binop BinOpKind.EqCmp l r
  | VBin.NeCmp => eval_binop BinOpKind.NeCmp l r
  | VBin.Or => eval_binop BinOpKind.Or l r
  | VBin.And => eval_binop BinOpKind.And l r
  | VBin.Implies => eval_binop BinOpKind.Implies l r
  | VBin.SeqAppend => eval_container ContainerOpKind.SeqConcat l r
  | VBin.SeqIndex => eval_container ContainerOpKind.SeqIndex l r
  | _ => None
  end.

Definition vfield (st : State) (f : VField) (base : option Value) : option Value :=
  b ← base;
  match b with VRef r => vchecked (vfield_type f) (heap st r (vfield_name f)) | _ => None end.

(** [res] is the value of [result]; permissions, sets and ranges are no
    values here. *)
Fixpoint veval (e : VExpr) (res : option Value) (st : State) {struct e} : option Value :=
  match e with
  | VExpr.Lit c _ => vlit c
  | VExpr.IntLit s _ => VInt <$> v_big_int s
  | VExpr.Un VUn.Not a _ => a ← veval a res st; match a with VBool b => Some (VBool (negb b)) | _ => None end
  | VExpr.Un VUn.Minus a _ => a ← veval a res st; match a with VInt z => Some (VInt (- z)) | _ => None end
  | VExpr.Un VUn.SeqLength a _ =>
      a ← veval a res st; match a with VSeq xs => Some (VInt (Z.of_nat (length xs))) | _ => None end
  | VExpr.Un _ _ _ => None
  | VExpr.Bin c l r _ => veval_bin c (veval l res st) (veval r res st)
  | VExpr.LocalVar n t _ => vchecked t (store st n)
  | VExpr.Result t _ => vchecked t res
  | VExpr.FieldAccess r f _ => vfield st f (veval r res st)
  | VExpr.FuncApp n es _ t =>
      vs ← mapM_opt (fun e => veval e res st) es; vchecked t (v_func n vs (heap st))
  | VExpr.DomainFuncApp f es _ _ =>
      vs ← mapM_opt (fun e => veval e res st) es; vchecked (dfunc_type f) (v_domain_func (dfunc_name f) vs)
  | VExpr.CondExp c t e _ =>
      g ← veval c res st;
      match g with VBool true => veval t res st | VBool false => veval e res st | _ => None end
  | VExpr.Unfolding _ b _ => veval b res st
  | VExpr.LabelledOld e l _ => h ← old_heaps st l; veval e res (with_heap st h)
  | VExpr.Let v d b _ =>
      x ← veval d res st; veval b res (with_store st (bind_var (store st) (decl_name v) x))
  | VExpr.Forall vars _ b _ =>
      checked SBool (v_quantifier true vars (fun vs => veval b res (with_store st (bind_decls (store st) vars vs))))
  | VExpr.Exists vars _ b _ =>
      checked SBool (v_quantifier false vars (fun vs => veval b res (with_store st (bind_decls (store st) vars vs))))
  | VExpr.EmptySeq _ _ => Some (VSeq [])
  | VExpr.ExplicitSeq es _ => VSeq <$> mapM_opt (fun e => veval e res st) es
  | _ => None
  end.

Lemma vchecked_type t o : vchecked (type_to_viper t) o = checked (sort_of_ty t) o.
Proof. by destruct t. Qed.

Lemma bind_decls_vars f vars vs : bind_decls f (map local_var_to_viper_decl vars) vs = bind_vars f vars vs.
Proof.
  unfold bind_decls, bind_vars. revert f vs. induction vars as [|v vars IH]; intros f vs; [done|].
  destruct vs; [done|]. cbn. apply IH.
Qed.

Lemma veval_bin_op op l r p res st :
  veval (bin_op_to_viper op l r p) res st = eval_binop op (veval l res st) (veval r res st).
Proof. by destruct op. Qed.

Context `{!ViperValuesLaws}.
Context (simplify_encoding : bool) (simplified_expression : VExpr -> VExpr).
(** The simplifier keeps the values of expressions. *)
Context (Hsimp : forall e res st, ole (veval e res st) (veval (simplified_expression e) res st)).
Notation to_viper := (expr_to_viper simplify_encoding simplified_expression).

Lemma simplify_if_value e res st : ole (veval e res st) (veval (simplify_if simplify_encoding simplified_expression e) res st).
Proof. unfold simplify_if. destruct simplify_encoding; [apply Hsimp|apply ole_refl]. Qed.

Lemma ole_vfield st f b b' : ole b b' -> ole (eval_field st f b) (vfield st (field_to_viper f) b').
Proof.
  intros Hb. apply ole_bind; [done|]. intros []; try apply ole_refl. cbn. rewrite vchecked_type. apply ole_refl.
Qed.

(** [result] outside binders of that name. *)
Definition translated (e : Expr) : Prop := forall ve st, to_viper e = Some ve -> "__result" ∉ binders e ->
  ole (eval e st) (veval ve (store st "__result") st).

Lemma translated_list es ves st :
  Forall translated es -> mapM_opt to_viper es = Some ves -> "__result" ∉ concat (map binders es) ->
  ole (mapM_opt (fun e => eval e st) es) (mapM_opt (fun e => veval e (store st "__result") st) ves).
Proof.
  intros HF. revert ves. induction HF as [|e es He _ IH]; intros ves Hv Hr; cbn in Hv; inv_option; subst; [apply ole_refl|].
  cbn in Hr. apply not_elem_of_app in Hr as [Hr1 Hr2]. cbn. apply ole_bind; [by apply He|]. intros a.
  apply ole_bind; [by apply IH|]. intros. apply ole_refl.
Qed.

Lemma quantifier_value u vars b ve st :
  translated b -> to_viper b = Some ve -> "__result" ∉ (map LocalVar.name vars ++ binders b)%list ->
  ole (checked SBool (quantifier u vars (fun vs => eval b (with_store st (bind_vars (store st) vars vs)))))
    (checked SBool (v_quantifier u (map local_var_to_viper_decl vars) (fun vs =>
       veval ve (store st "__result") (with_store st (bind_decls (store st) (map local_var_to_viper_decl vars) vs))))).
Proof.
  intros Hb Hve [Hv Hr]%not_elem_of_app. apply ole_checked. intros v. cbn. apply v_quantifier_mono. intros vs w Hw.
  apply (Hb ve _ Hve Hr) in Hw. rewrite bind_decls_vars. cbn in Hw. by rewrite bind_vars_other in Hw.
Qed.

Lemma expr_to_viper_keeps_value e : translated e.
Proof.
  unfold translated.
  induction e using Expr_ind'; intros ve st Hve Hr; cbn [expr_to_viper] in Hve; try (cbn; apply ole_none);
    repeat match goal with
    | op : UnaryOpKind |- _ => destruct op
    | op : ContainerOpKind |- _ => destruct op
    end; inv_option; subst; (eapply ole_trans; [|apply simplify_if_value]); cbn in Hr;
    rewrite ?not_elem_of_app, ?not_elem_of_cons, ?not_elem_of_app in Hr; destruct_and? Hr.
  - cbn [eval]. rewrite <- vchecked_type. unfold local_var_to_viper. destruct (LocalVar.name v == "__result") eqn:E; [|apply ole_refl].
    apply (proj1 (peq_eq _ _)) in E. rewrite E. apply ole_refl.
  - by apply ole_vfield, IHe.
  - by apply ole_vfield, IHe.
  - cbn. apply ole_bind; [apply ole_refl|]. intros h. exact (IHe _ (with_heap st h) Hx0 Hr).
  - destruct c as [[]| | |]; cbn; try apply ole_refl. rewrite big_int_pretty. apply ole_refl.
  - cbn. apply ole_bind; [by apply IHe|]. intros a. apply ole_refl.
  - cbn. apply ole_bind; [by apply IHe|]. intros a. apply ole_refl.
  - cbn [eval]. rewrite veval_bin_op. by apply ole_eval_binop; [apply IHe1|apply IHe2].
  - by apply ole_eval_container; [apply IHe1|apply IHe2].
  - by apply ole_eval_container; [apply IHe1|apply IHe2].
  - cbn. apply ole_bind; [by apply IHe1|]. intros a. apply ole_refl.
  - cbn [eval]. destruct t; try done. destruct es as [|e0 es]; inv_option; subst; [apply ole_refl|].
    apply ole_fmap. by apply translated_list.
  - cbn. by apply IHe.
  - cbn. apply ole_bind; [by apply IHe1|]. intros []; try apply ole_refl. by case_match; [apply IHe2|apply IHe3].
  - apply quantifier_value; [done..|]. by apply not_elem_of_app.
  - apply quantifier_value; [done..|]. by apply not_elem_of_app.
  - cbn. apply ole_bind; [by apply IHe1|]. intros a.
    specialize (IHe2 _ (with_store st (bind_var (store st) (LocalVar.name v) a)) Hx1). cbn in IHe2.
    unfold bind_var at 2 in IHe2. destruct (String.eqb_spec "__result" (LocalVar.name v)); [done|]. by apply IHe2.
  - cbn [eval veval Factory.func_app]. apply ole_bind; [by apply translated_list|]. intros vs. rewrite vchecked_type. apply ole_refl.
  - cbn [eval]. cbn [veval Factory.domain_func_app domain_func_to_viper Factory.domain_func dfunc_type dfunc_name].
    apply ole_bind; [by apply translated_list|]. intros vs. rewrite vchecked_type. apply ole_refl.
  - by apply IHe1.
Qed.
End Values.

(** A translated expression has the value of its source wherever the source
    has one. *)
(** C6. A translated expression has the value of its source wherever the source has one, with or
    without the simplifier, in every interpretation of functions, quantifiers and big integers;
    `__result` becomes the result of the function. *)
Theorem expr_to_viper_value `{ViperValuesLaws} simplify_encoding simplified_expression e ve st v :
  (forall e res st, ole (veval e res st) (veval (simplified_expression e) res st)) ->
  expr_to_viper simplify_encoding simplified_expression e = Some ve -> "__result" ∉ binders e ->
  eval e st = Some v -> veval ve (store st "__result") st = Some v.
Proof.
  intros Hs Hve Hr. exact (expr_to_viper_keeps_value simplify_encoding simplified_expression Hs e ve st Hve Hr v).
Qed.

(** ** A sample interpretation *)

Definition parse_digits (s : string) (acc : N) : option N :=
  (fix go (s : string) (acc : N) : option N :=
     match s with
     | EmptyString => Some acc
     | String c s =>
         let d := N_of_ascii c in
         if (48 <=? d)%N && (d <=? 57)%N then go s (10 * acc + (d - 48))%N else None
     end) s acc.

Definition parse_int (s : string) : option Z :=
  match s with
  | String "-" s => (fun n => - Z.of_N n)%Z <$> parse_digits s 0
  | s => Z.of_N <$> parse_digits s 0
  end.

Lemma parse_digit_char x s acc : (x < 10)%N -> parse_digits (String (pretty_N_char x) s) acc = parse_digits s (10 * acc + x).
Proof.
  intros Hx. assert (E : N_of_ascii (pretty_N_char x) = (48 + x)%N).
  { do 10 (destruct x as [|x] using N.peano_ind; [done|clear IHx]). lia. }
  cbn -[N_of_ascii N.mul N.add N.sub]. rewrite E.
  rewrite (proj2 (N.leb_le _ _)), (proj2 (N.leb_le _ _)) by lia. cbn [andb]. f_equal. lia.
Qed.

Lemma parse_pretty_go x s : parse_digits (pretty_N_go x s) 0 = parse_digits s x.
Proof.
  revert s. induction (N.lt_wf_0 x) as [x _ IH]; intros s.
  assert (x = 0 \/ 0 < x)%N as [->|Hx] by lia; [by rewrite pretty_N_go_0|].
  rewrite pretty_N_go_step by done. rewrite IH by (apply N.div_lt; lia).
  rewrite parse_digit_char by (apply N.mod_lt; lia). f_equal. symmetry. apply N.div_mod. lia.
Qed.

Lemma parse_pretty_N (x : N) : parse_digits (pretty x) 0 = Some x.
Proof. unfold pretty, pretty_N. case_decide as E; [by subst|]. by rewrite parse_pretty_go. Qed.

Lemma pretty_N_no_dash (x : N) s : pretty x <> String "-" s.
Proof.
  unfold pretty, pretty_N. case_decide; [done|]. by apply (pretty_N_go_ne_dash x "" s).
Qed.

Lemma parse_int_pretty (i : Z) : parse_int (pretty i) = Some i.
Proof.
  destruct i as [|p|p]; [done| |].
  - change (pretty (Zpos p)) with (pretty (Npos p)). pose proof (parse_pretty_N (Npos p)) as Hp.
    unfold parse_int. destruct (pretty (Npos p)) as [|c s] eqn:E; [by rewrite Hp|].
    destruct (ascii_dec c "-") as [->|Hc]; [by destruct (pretty_N_no_dash (Npos p) s)|].
    rewrite <- E in *. assert (Hm : forall (A : Type) (a b : A), match c with "-"%char => a | _ => b end = b).
    { intros A a b. destruct c as [[] [] [] [] [] [] [] []]; try done. }
    rewrite E. cbn [parse_int]. rewrite Hm, <- E. by rewrite Hp.
  - change (parse_int _) with ((fun n => - Z.of_N n)%Z <$> parse_digits (pretty (Npos p)) 0). by rewrite parse_pretty_N.
Qed.

(** Euclidean division, no functions; the first literal a simplifier could
    fold. *)
#[export] Instance sample_values : ViperValues := {|
  v_idiv := Z.div; v_imod := Z.modulo; v_big_int := parse_int;
  v_func _ _ _ := None; v_domain_func _ _ := None;
  v_quantifier _ vars f := f (map (fun _ => VInt 0) vars) |}.

#[export] Instance sample_values_laws : ViperValuesLaws.
Proof. split; [exact parse_int_pretty|]. cbn. auto. Qed.

Definition fold_not (e : VExpr) : VExpr :=
  match e with VExpr.Un VUn.Not (VExpr.Lit VLit.TrueLit _) p => VExpr.Lit VLit.FalseLit p | e => e end.

Lemma fold_not_value e res st : ole (veval e res st) (veval (fold_not e) res st).
Proof. destruct e; try apply ole_refl. destruct class; try apply ole_refl. destruct e; try apply ole_refl. destruct class; apply ole_refl. Qed.

(** [!true || __result - 7 > 2]. *)
Definition sample_formula : Expr :=
  Ex.or (Ex.not (expr_of_bool true))
    (Ex.gt_cmp (Ex.sub (expr_of_var (LocalVar.new "__result" Ty.Int)) (expr_of_i32 7)) (expr_of_i32 2)).

Lemma expr_to_viper_value_witness :
  let st := with_store empty_state (fun x => if String.eqb x "__result" then Some (VInt 10) else None) in
  exists ve, expr_to_viper true fold_not sample_formula = Some ve
    /\ veval ve (Some (VInt 10)) st = Some (VBool true).
Proof.
  intros st. eexists. split; [vm_compute; reflexivity|].
  refine (expr_to_viper_value true fold_not sample_formula _ st (VBool true) _ _ _ _).
  - exact fold_not_value.
  - reflexivity.
  - cbn. apply not_elem_of_nil.
  - vm_compute. reflexivity.
Defined.
