(* ===== verification/CfgToViper.v ===== *)
(** * Translation of methods and programs to Viper

    [prusti-common/src/vir/cfg/to_viper.rs] and the translation of programs of
    [vir/to_viper.rs].  A method becomes one sequence of blocks, each a
    label, its statements and its jumps; the configuration of the
    translation is the record [ViperConfig].

    [convert_basic_block_path] iterates over the blocks left in a [HashMap],
    here in insertion order. *)

From S2P Require Import Prelude Ast ExprEq ExprPlace ExprTransformers ExprOps Collections Items Borrows.
From S2P Require Import Stmt Cfg CfgGraph.
From S2P Require Import EventLog Optimizations ViperAst ToViper.

(** The settings the translation reads. *)
Module ViperConfig.
Record ViperConfig : Type := make {
  simplify_encoding : bool;
  verify_only_preamble : bool;
  enable_verify_only_basic_block_path : bool;
  verify_only_basic_block_path : list string;
  delete_basic_blocks : list string
}.
End ViperConfig.
Abbreviation ViperConfig := ViperConfig.ViperConfig.

Definition index_to_label (basic_block_labels : list string) (index : nat) : option string :=
  basic_block_labels !! index.

Section Translate.
Context (config : ViperConfig) (simplified_expression : VExpr -> VExpr).

Notation to_viper_expr := (expr_to_viper (ViperConfig.simplify_encoding config) simplified_expression).
Notation to_viper_stmt := (stmt_to_viper (ViperConfig.simplify_encoding config) simplified_expression false).

(** ** Blocks *)

(** The jump of a guarded target. *)
Definition conditional_goto (basic_block_labels : list string) (target : Expr * CfgBlockIndex) : option VStmt :=
  l ← index_to_label basic_block_labels (block_index (snd target));
  test ← to_viper_expr (fst target);
  Some (Factory.if_stmt test (Factory.goto l) (Factory.seqn [] [])).

Definition successor_to_viper (basic_block_labels : list string) (successor : Successor) : option VStmt :=
  match successor with
  | Successor.Undefined => None
  | Successor.Return => Some (Factory.goto RETURN_LABEL)
  | Successor.Goto target =>
      l ← index_to_label basic_block_labels (block_index target); Some (Factory.goto l)
  | Successor.GotoSwitch successors default_target =>
      stmts ← mapM_opt (conditional_goto basic_block_labels) successors;
      l ← index_to_label basic_block_labels (block_index default_target);
      Some (Factory.seqn (stmts ++ [Factory.goto l]) [])
  end.

Definition block_to_viper (basic_block_labels : list string) (block : CfgBlock) (index : nat) : option VStmt :=
  label ← index_to_label basic_block_labels index;
  stmts ← mapM_opt to_viper_stmt (CfgMethod.stmts block);
  successor ← successor_to_viper basic_block_labels (CfgMethod.successor block);
  Some (Factory.seqn (Factory.label label [] :: stmts ++ [successor]) []).

(** ** Methods *)

(** The key of [sort_by_key]. *)
Definition compare_labels (basic_block_labels : list string) (a b : nat * CfgBlock) : option comparison :=
  l ← index_to_label basic_block_labels (fst a);
  l' ← index_to_label basic_block_labels (fst b);
  Some (String.compare l l').

(** The blocks in the order they are emitted. *)
Definition sorted_blocks (self : CfgMethod) : option (list (nat * CfgBlock)) :=
  blocks ← sort_by (compare_labels (CfgMethod.basic_blocks_labels self)) (skipn 1 (enumerate (CfgMethod.basic_blocks self)));
  first ← CfgMethod.basic_blocks self !! 0;
  Some ((0, first) :: blocks).

(** One block and the declaration of its label. *)
Definition emit_block (basic_block_labels : list string) (block : nat * CfgBlock) : option (VStmt * VDeclaration) :=
  s ← block_to_viper basic_block_labels (snd block) (fst block);
  l ← index_to_label basic_block_labels (fst block);
  Some (s, inr (Factory.label l [])).

(** The loop along the path; [path] is reversed already. *)
Fixpoint follow_path (fuel : nat) (self : CfgMethod) (path : list string) (current_label : string)
    (remaining_blocks : HashMap.t string (nat * CfgBlock)) :
    option (list (VStmt * VDeclaration) * HashMap.t string (nat * CfgBlock)) :=
  match fuel with
  | 0 => None
  | S fuel =>
      match HashMap.get remaining_blocks current_label with
      | None => Some ([], remaining_blocks)
      | Some (index, block) =>
          let remaining_blocks := HashMap.remove remaining_blocks current_label in
          b ← emit_block (CfgMethod.basic_blocks_labels self) (index, block);
          successors ← mapM_opt (fun ci => index_to_label (CfgMethod.basic_blocks_labels self) (block_index ci))
            (Successor.get_following (CfgMethod.successor block));
          match successors with
          | [] => None
          | [l] => r ← follow_path fuel self path l remaining_blocks; Some (b :: fst r, snd r)
          | _ =>
              match path with
              | next_label :: path =>
                  _ ← assert_ (HashSet.contains successors next_label);
                  r ← follow_path fuel self path next_label remaining_blocks; Some (b :: fst r, snd r)
              | [] => Some ([b], remaining_blocks)
              end
          end
      end
  end.

(** A deleted block: its label, [inhale false] and its jumps. *)
Definition deleted_block (basic_block_labels : list string) (label : string) (block : nat * CfgBlock) :
    option (VStmt * VDeclaration) :=
  successor ← successor_to_viper basic_block_labels (CfgMethod.successor (snd block));
  Some (Factory.seqn
          [Factory.label label [];
           Factory.inhale (Factory.false_lit_with_pos (position_to_viper Position.default))
             (position_to_viper Position.default);
           successor] [],
        inr (Factory.label label [])).

Fixpoint delete_blocks (self : CfgMethod) (labels : list string)
    (remaining_blocks : HashMap.t string (nat * CfgBlock)) :
    option (list (VStmt * VDeclaration) * HashMap.t string (nat * CfgBlock)) :=
  match labels with
  | [] => Some ([], remaining_blocks)
  | label :: labels =>
      block ← HashMap.get remaining_blocks label;
      b ← deleted_block (CfgMethod.basic_blocks_labels self) label block;
      r ← delete_blocks self labels (HashMap.remove remaining_blocks label);
      Some (b :: fst r, snd r)
  end.

Definition convert_basic_block_path (self : CfgMethod) (path : list string) : option (list (VStmt * VDeclaration)) :=
  labelled ← mapM_opt (fun ib => l ← index_to_label (CfgMethod.basic_blocks_labels self) (fst ib); Some (l, ib))
    (enumerate (CfgMethod.basic_blocks self));
  let remaining_blocks := HashMap.from_list labelled in
  current_label ← index_to_label (CfgMethod.basic_blocks_labels self) 0;
  followed ← follow_path (S (length remaining_blocks)) self (rev path) current_label remaining_blocks;
  deleted ← delete_blocks self (ViperConfig.delete_basic_blocks config) (snd followed);
  rest ← mapM_opt (fun e => s ← block_to_viper (CfgMethod.basic_blocks_labels self) (snd (snd e)) (fst (snd e));
                            Some (s, inr (Factory.label (fst e) [])))
    (snd deleted);
  Some (fst followed ++ fst deleted ++ rest)%list.

(** The blocks and the declarations of their labels. *)
Definition blocks_to_viper (self : CfgMethod) : option (list (VStmt * VDeclaration)) :=
  if ViperConfig.enable_verify_only_basic_block_path config then
    convert_basic_block_path self (ViperConfig.verify_only_basic_block_path config)
  else
    blocks ← sorted_blocks self;
    mapM_opt (emit_block (CfgMethod.basic_blocks_labels self)) blocks.

Definition cfg_method_to_viper (self : CfgMethod) : option VMethod :=
  let declarations :=
    (map (fun v => inl (local_var_to_viper_decl v)) (CfgMethod.local_vars self)
     ++ map (fun l => inr (Factory.label l [])) (CfgMethod.labels self))%list in
  blocks ← blocks_to_viper self;
  let blocks_ast := (map fst blocks ++ [Factory.label RETURN_LABEL []])%list in
  let declarations := (declarations ++ map snd blocks ++ [inr (Factory.label RETURN_LABEL [])])%list in
  Some (Factory.method (CfgMethod.method_name self) [] (map local_var_to_viper_decl (CfgMethod.formal_returns self)) [] []
          (Some (Factory.seqn blocks_ast declarations))).

(** ** Programs *)

Definition program_to_viper (self : Program) : option VProgram :=
  domains ← mapM_opt (domain_to_viper (ViperConfig.simplify_encoding config) simplified_expression)
    (Program.domains self);
  let fields := map field_to_viper (Program.fields self) in
  cfg_methods ← mapM_opt cfg_method_to_viper (Program.methods self);
  let viper_methods := (cfg_methods ++ map bodyless_method_to_viper (Program.builtin_methods self))%list in
  let viper_methods := if ViperConfig.verify_only_preamble config then [] else viper_methods in
  viper_functions ← mapM_opt (function_to_viper (ViperConfig.simplify_encoding config) simplified_expression)
    (Program.functions self);
  predicates ← mapM_opt (predicate_to_viper (ViperConfig.simplify_encoding config) simplified_expression)
    (Program.viper_predicates self);
  Some (Factory.program domains fields (viper_functions ++ [read_function]) predicates viper_methods).
End Translate.
