(* ===== verification/CfgToViperFacts.v ===== *)
(** * The translation of a method keeps its executions

    A method runs as the Viper method it is translated to: the blocks are
    emitted in the order of their labels, every jump goes to the label of its
    target, and the statements keep their order. *)

From S2P Require Import Prelude Ast ExprEq ExprPlace ExprTransformers ExprOps Collections Items Borrows.
From S2P Require Import Stmt.
From S2P Require Import Cfg CfgGraph CfgLoops CfgFacts MethodSem MethodOpts CleanCfg EventLog.
From S2P Require Import FoldingOpt Optimizations.
From S2P Require Import Display ViperAst ToViper CfgToViper.

(** * Control flow of Viper methods

    The executions of a Viper method body: sequences, conditionals and jumps
    to labels.  What the other statements do to the state of the verifier,
    and the values of conditions, are the parameters of [ViperInterp]. *)

Class ViperInterp : Type := {
  VState : Type;
  (** one execution of a statement: a new state, or [None] if verification fails *)
  vprim : VStmt -> VState -> option VState -> Prop;
  (** the value of a condition, [None] if it is not well defined *)
  vholds : VExpr -> VState -> option bool
}.

(** The statements [vprim] gives a meaning to. *)
Definition is_prim (s : VStmt) : bool :=
  match s with
  | VStmt.Seqn _ _ _ _ | VStmt.If _ _ _ _ | VStmt.Goto _ _ => false
  | _ => true
  end.

(** No jump in the statement. *)
Fixpoint goto_free (s : VStmt) : bool :=
  match s with
  | VStmt.Goto _ _ => false
  | VStmt.Seqn ss _ _ _ => forallb goto_free ss
  | VStmt.If _ t e _ => goto_free t && goto_free e
  | _ => true
  end.

(** ** Labels *)

(** The first result of [f] on the statements of [ss], each with what follows it. *)
Definition first_in (f : VStmt -> list VStmt -> option (list VStmt)) :=
  fix go (ss k : list VStmt) : option (list VStmt) :=
    match ss with
    | [] => None
    | s :: ss' => match f s (ss' ++ k)%list with Some r => Some r | None => go ss' k end
    end.

(** What is executed from the label on, if [s] is followed by [k]; jumps
    into the branches of a conditional are not considered. *)
Fixpoint find_label (l : string) (s : VStmt) (k : list VStmt) : option (list VStmt) :=
  match s with
  | VStmt.Label name _ _ => if name == l then Some (s :: k) else None
  | VStmt.Seqn ss _ _ _ => first_in (find_label l) ss k
  | _ => None
  end.

(** No label of this name where [find_label] looks. *)
Definition no_label (l : string) (s : VStmt) : Prop := forall k, find_label l s k = None.

Lemma first_in_none l ss k : Forall (no_label l) ss -> first_in (find_label l) ss k = None.
Proof. intros HF. revert k. induction HF as [|s ss Hs _ IH]; intros k; cbn; [done|]. by rewrite Hs. Qed.

Lemma first_in_app l ss s ss' k r :
  Forall (no_label l) ss -> find_label l s (ss' ++ k)%list = Some r ->
  first_in (find_label l) (ss ++ s :: ss') k = Some r.
Proof.
  intros HF Hr. induction HF as [|s1 ss Hs _ IH]; cbn; [by rewrite Hr|]. by rewrite Hs.
Qed.

(** ** Executions *)

Section Sem.
Context `{ViperInterp} (body : VStmt).

(** [vrun body n k σ r]: executing [k] in [σ] returns in a state or fails
    to verify, in [n] steps. *)
Inductive vrun : nat -> list VStmt -> VState -> option VState -> Prop :=
  | vrun_done σ : vrun 0 [] σ (Some σ)
  | vrun_goto n l p k k' σ r :
      find_label l body [] = Some k' -> vrun n k' σ r -> vrun (S n) (VStmt.Goto l p :: k) σ r
  | vrun_seqn n ss ds p i k σ r :
      vrun n (ss ++ k) σ r -> vrun (S n) (VStmt.Seqn ss ds p i :: k) σ r
  | vrun_if n c t e p k (b : bool) σ r :
      vholds c σ = Some b -> vrun n ((if b then t else e) :: k) σ r -> vrun (S n) (VStmt.If c t e p :: k) σ r
  | vrun_if_fail c t e p k σ : vholds c σ = None -> vrun 0 (VStmt.If c t e p :: k) σ None
  | vrun_prim n s k σ σ' r :
      is_prim s = true -> vprim s σ (Some σ') -> vrun n k σ' r -> vrun (S n) (s :: k) σ r
  | vrun_prim_fail s k σ : is_prim s = true -> vprim s σ None -> vrun 0 (s :: k) σ None.
End Sem.

Section Facts.
Context `{ViperInterp}.

(** The execution of statements without jumps. *)
Definition vexec (ss : list VStmt) (σ : VState) (r : option VState) : Prop :=
  exists n, vrun (VStmt.Seqn [] [] VPosition.NoPosition NoInfo) n ss σ r.

Lemma goto_free_if t e (b : bool) : goto_free t && goto_free e = true -> goto_free (if b then t else e) = true.
Proof. intros [??]%andb_true_iff. by destruct b. Qed.

Lemma vexec_prim s σ r : is_prim s = true -> vexec [s] σ r <-> vprim s σ r.
Proof.
  intros Hp. split.
  - intros [n Hn]. inversion Hn; subst; try done.
    match goal with E : vrun _ _ [] _ _ |- _ => inversion E; by subst end.
  - intros Hr. destruct r as [σ'|]; [exists 1|exists 0].
    + eapply vrun_prim; [done|done|constructor].
    + by apply vrun_prim_fail.
Qed.

(** Executions of statements without jumps compose with what follows. *)
Lemma vrun_app body ss k σ r :
  forallb goto_free ss = true -> vexec ss σ r ->
  match r with
  | None => exists n, vrun body n (ss ++ k) σ None
  | Some σ' => forall n2 r2, vrun body n2 k σ' r2 -> exists n, vrun body n (ss ++ k) σ r2
  end.
Proof.
  intros Hgf [n Hn]. revert Hgf.
  induction Hn as [σ|n l p k1 k' σ r Hf _ _|n ss1 ds p i k1 σ r _ IH|n c t e p k1 b σ r Hb _ IH
    |c t e p k1 σ Hb|n s k1 σ σ' r Hp Hs _ IH|s k1 σ Hp Hs]; intros Hgf; cbn in Hgf; try done.
  - intros n2 r2 H2. by exists n2.
  - apply andb_true_iff in Hgf as [Hg1 Hg2].
    assert (IH' := IH). rewrite forallb_app, Hg1, Hg2 in IH'. specialize (IH' eq_refl). clear IH.
    rewrite <- app_assoc in IH'.
    destruct r; [intros n2 r2 [n' H']%IH'|destruct IH' as [n' H']]; exists (S n'); cbn; by constructor.
  - apply andb_true_iff in Hgf as [Hg1%(goto_free_if _ _ b) Hg2].
    cbn in IH. rewrite Hg1, Hg2 in IH. specialize (IH eq_refl).
    destruct r; [intros n2 r2 [n' H']%IH|destruct IH as [n' H']]; exists (S n'); cbn; by econstructor.
  - exists 0. cbn. by constructor.
  - apply andb_true_iff in Hgf as [_ Hg]. specialize (IH Hg).
    destruct r; [intros n2 r2 [n' H']%IH|destruct IH as [n' H']]; exists (S n'); cbn; by econstructor.
  - exists 0. cbn. by constructor.
Qed.

(** An execution splits after statements without jumps. *)
Lemma vrun_split body n : forall ss k σ r,
  forallb goto_free ss = true -> vrun body n (ss ++ k) σ r ->
  (vexec ss σ None /\ r = None)
  \/ exists σ' n', n' <= n /\ vexec ss σ (Some σ') /\ vrun body n' k σ' r.
Proof.
  induction n as [n IH] using (well_founded_induction lt_wf); intros ss k σ r Hgf Hr.
  destruct ss as [|s ss]; [right; exists σ, n; split; [done|]; split; [by exists 0; constructor|done]|].
  cbn in Hr, Hgf. apply andb_true_iff in Hgf as [Hg Hgf].
  inversion Hr as [|n1 l p k1 k' σ1 r1 Hf H1|n1 ss1 ds p i k1 σ1 r1 H1|n1 c t e p k1 b σ1 r1 Hb H1
    |c t e p k1 σ1 Hb|n1 s1 k1 σ1 σ' r1 Hp Hs H1|s1 k1 σ1 Hp Hs]; subst; clear Hr; [done| | | | |].
  - rewrite app_assoc in H1. apply IH in H1 as [[[m Hm] ->]|(σ' & n' & Hle & [m Hm] & H2)]; [| |lia|].
    + left. split; [|done]. exists (S m). by constructor.
    + right. exists σ', n'. split; [lia|]. split; [exists (S m); by constructor|done].
    + cbn in Hg. by rewrite forallb_app, Hg, Hgf.
  - change ((if b then t else e) :: ss ++ k)%list with (((if b then t else e) :: ss) ++ k)%list in H1.
    apply IH in H1 as [[[m Hm] ->]|(σ' & n' & Hle & [m Hm] & H2)]; [| |lia|].
    + left. split; [|done]. exists (S m). by econstructor.
    + right. exists σ', n'. split; [lia|]. split; [exists (S m); by econstructor|done].
    + cbn in *. apply (goto_free_if _ _ b) in Hg. by rewrite Hg.
  - left. split; [|done]. exists 0. by constructor.
  - apply IH in H1 as [[[m Hm] ->]|(σ2 & n' & Hle & [m Hm] & H2)]; [| |lia|done].
    + left. split; [|done]. exists (S m). by econstructor.
    + right. exists σ2, n'. split; [lia|]. split; [exists (S m); by econstructor|done].
  - left. split; [|done]. exists 0. by constructor.
Qed.

(** Sequences of statements without jumps. *)
Lemma vexec_app ss1 ss2 σ r :
  forallb goto_free ss1 = true ->
  vexec (ss1 ++ ss2) σ r <->
  (vexec ss1 σ None /\ r = None) \/ exists σ', vexec ss1 σ (Some σ') /\ vexec ss2 σ' r.
Proof.
  intros Hg. split.
  - intros [n [Hf|(σ' & n' & _ & H1 & H2)]%vrun_split]; [by left| |done]. right. exists σ'. split; [done|by exists n'].
  - intros [[H1 ->]|(σ' & H1 & [n2 H2])].
    + by apply (vrun_app _ _ ss2 _ _ Hg H1).
    + by apply (vrun_app _ _ ss2 _ _ Hg H1 n2).
Qed.
End Facts.

(** ** The statements *)

Section Stmts.
Context (simplify_encoding : bool) (simplified_expression : VExpr -> VExpr).
Notation to_viper_expr := (expr_to_viper simplify_encoding simplified_expression).
Notation to_viper_stmt := (stmt_to_viper simplify_encoding simplified_expression).

Lemma mapM_opt_forall2 {A B} (f : A -> option B) l l' : mapM_opt f l = Some l' -> Forall2 (fun a b => f a = Some b) l l'.
Proof.
  revert l'. induction l as [|x l IH]; intros l' Hl; cbn in Hl; inv_option; subst; constructor; [done|by apply IH].
Qed.

Lemma after_footprint_goto_free e s vs :
  after_footprint simplify_encoding simplified_expression e s = Some vs ->
  (forall v, s = Some v -> goto_free v = true) -> goto_free vs = true.
Proof.
  unfold after_footprint. intros Hs Hv. inv_option. subst. cbn. rewrite forallb_app. cbn.
  rewrite (Hv _ eq_refl), andb_true_r. unfold create_footprint_asserts in Hx. inv_option. subst. rename x2 into es.
  clear. by induction es.
Qed.

(** The translation of statements has no jumps. *)
Lemma stmt_to_viper_goto_free s : forall ip vs, to_viper_stmt ip s = Some vs -> goto_free vs = true.
Proof.
  assert (Hlist : forall ip l l', Forall (fun s => forall ip vs, to_viper_stmt ip s = Some vs -> goto_free vs = true) l ->
    mapM_opt (to_viper_stmt ip) l = Some l' -> forallb goto_free l' = true).
  { intros ip l l' HF. revert l'. induction HF as [|x l Hx _ IH]; intros l' Hl; cbn in Hl; inv_option; subst; [done|].
    cbn. by rewrite (Hx _ _ Hx0), IH. }
  induction s using Stmt_ind'; intros ip v0 Hs; cbn in Hs;
    try (unfold exhale_to_viper, assign_to_viper, as_comment, apply_to_viper in Hs); try destruct ip;
    repeat case_match; inv_option; subst; try done.
  all: try (eapply after_footprint_goto_free; [eassumption|]; intros v1 Hv;
    cbv [exhale_to_viper assign_to_viper fold_to_viper] in Hv; inv_option; subst; done).
  all: try (unfold fold_to_viper in Hs; inv_option; subst; done).
  all: cbn; apply andb_true_iff; split; (eapply Hlist; [|eassumption]; eassumption).
Qed.

(** ... and only the labels of the statement where jumps look for them. *)
Lemma stmt_to_viper_no_label l s vs : l ∉ stmt_labels s -> to_viper_stmt false s = Some vs -> no_label l vs.
Proof.
  intros Hl Hs k. destruct s; cbn in Hs;
    try (unfold exhale_to_viper, assign_to_viper, fold_to_viper, as_comment, apply_to_viper in Hs);
    repeat case_match; inv_option; subst; cbn; try done.
  case_match eqn:E; [|done]. apply peq_eq in E as ->. cbn in Hl. by apply not_elem_of_cons in Hl as [].
Qed.
End Stmts.

(** ** The reference semantics of the statements *)

Section Interp.
Context (config : ViperConfig) (simplified_expression : VExpr -> VExpr) `{ViperInterp}.
Notation to_viper_expr := (expr_to_viper (ViperConfig.simplify_encoding config) simplified_expression).
Notation to_viper_stmt := (stmt_to_viper (ViperConfig.simplify_encoding config) simplified_expression false).

Definition exec_seq {A} (f : A -> VState -> option VState -> Prop) :=
  fix go (ss : list A) (σ : VState) (r : option VState) : Prop :=
    match ss with
    | [] => r = Some σ
    | s :: ss' => (f s σ None /\ r = None) \/ exists σ', f s σ (Some σ') /\ go ss' σ' r
    end.

Definition holds_viper (e : Expr) (σ : VState) : option bool := ve ← to_viper_expr e; vholds ve σ.

(** A statement does what its translation does; a conditional is taken
    apart, so that it has a meaning if only the branch taken has one, and a
    statement that is not translated does nothing. *)
Fixpoint exec_viper (s : Stmt) (σ : VState) (r : option VState) : Prop :=
  match s with
  | Stmt.If g t e =>
      match holds_viper g σ with
      | None => r = None
      | Some true => exec_seq exec_viper t σ r
      | Some false => exec_seq exec_viper e σ r
      end
  | s => match to_viper_stmt s with Some vs => vexec [vs] σ r | None => r = Some σ end
  end.

Definition viper_interp : MethodInterp := {| MState := VState; exec := exec_viper; holds := holds_viper |}.

Lemma exec_seq_vexec ss vs :
  Forall2 (fun s v => goto_free v = true /\ forall σ r, exec_viper s σ r <-> vexec [v] σ r) ss vs ->
  forall σ r, exec_seq exec_viper ss σ r <-> vexec vs σ r.
Proof.
  induction 1 as [|s v ss vs [Hg Hs] _ IH]; intros σ r; cbn [exec_seq].
  - split; [intros ->; exists 0; constructor|]. intros [n Hn]. by inversion Hn.
  - rewrite (vexec_app [v] vs) by (cbn; by rewrite Hg). rewrite Hs.
    split; (intros [[? ->]|(σ' & H1 & H2)]; [by left|right; exists σ'; split; [by apply Hs|by apply IH]]).
Qed.

Lemma exec_list_seq ss σ r : @exec_list viper_interp ss σ r <-> exec_seq exec_viper ss σ r.
Proof.
  revert σ. induction ss as [|s ss IH]; intros σ; [done|]. cbn.
  split; (intros [?|(σ' & ? & ?)]; [by left|right; exists σ'; split; [done|by apply IH]]).
Qed.

Lemma vexec_seqn ss ds p i σ r : vexec [VStmt.Seqn ss ds p i] σ r <-> vexec ss σ r.
Proof.
  split.
  - intros [n Hn]. inversion Hn; subst; try done. rewrite app_nil_r in *. by eexists.
  - intros [n Hn]. exists (S n). constructor. by rewrite app_nil_r.
Qed.

Lemma vexec_if c t e p σ r :
  vexec [VStmt.If c t e p] σ r
  <-> match vholds c σ with None => r = None | Some b => vexec [if b then t else e] σ r end.
Proof.
  split.
  - intros [n Hn]. inversion Hn as [| | |n1 c1 t1 e1 p1 k1 b σ1 r1 Hb H1|c1 t1 e1 p1 k1 σ1 Hb| |]; subst; try done.
    + rewrite Hb. by exists n1.
    + by rewrite Hb.
  - destruct (vholds c σ) as [b|] eqn:Hb; [intros [n Hn]; exists (S n); by econstructor|].
    intros ->. exists 0. by constructor.
Qed.

(** The statement and its translation. *)
Lemma exec_viper_spec s : forall vs, to_viper_stmt s = Some vs -> forall σ r, exec_viper s σ r <-> vexec [vs] σ r.
Proof.
  assert (Hlist : forall l l', Forall (fun s => forall vs, to_viper_stmt s = Some vs ->
      forall σ r, exec_viper s σ r <-> vexec [vs] σ r) l ->
    mapM_opt to_viper_stmt l = Some l' -> forall σ r, exec_seq exec_viper l σ r <-> vexec l' σ r).
  { intros l l' HF Hl%mapM_opt_forall2. apply exec_seq_vexec. rewrite Forall_forall in HF.
    induction Hl as [|x v l l' Hx _ IH]; constructor.
    - split; [by eapply stmt_to_viper_goto_free|]. apply (HF x); [left|done].
    - apply IH. intros y Hy. apply HF. by right. }
  induction s using Stmt_ind'; intros v0 Hs σ r0;
    try (unfold exec_viper; rewrite Hs; done).
  cbn in Hs. inv_option. subst. cbn [exec_viper]. unfold Factory.if_stmt. rewrite vexec_if.
  unfold holds_viper. rewrite Hx1. cbn [mbind option_bind].
  destruct (vholds x1 σ) as [[|]|]; [| |done]; unfold Factory.seqn; rewrite vexec_seqn; (eapply Hlist; [|eassumption]; eassumption).
Qed.

Lemma exec_list_viper ss vs :
  mapM_opt to_viper_stmt ss = Some vs ->
  forallb goto_free vs = true /\ forall σ r, @exec_list viper_interp ss σ r <-> vexec vs σ r.
Proof.
  intros Hl%mapM_opt_forall2. split.
  - clear -Hl. induction Hl as [|x v l l' Hx _ IH]; [done|]. cbn. by rewrite (stmt_to_viper_goto_free _ _ _ _ _ Hx), IH.
  - intros σ r. rewrite exec_list_seq. apply exec_seq_vexec. eapply Forall2_impl; [exact Hl|].
    cbv beta. intros s v Hs. split; [eapply stmt_to_viper_goto_free, Hs|by apply exec_viper_spec].
Qed.
End Interp.

(** ** Jumps *)

Section Jumps.
Context (config : ViperConfig) (simplified_expression : VExpr -> VExpr) `{ViperInterp}.
Context (ls : list string) (body : VStmt).

(** [K] is the code from the label of block [i] on. *)
Definition entry (i : nat) (K : list VStmt) : Prop :=
  exists l, ls !! i = Some l /\ find_label l body [] = Some K.

Lemma vrun_goto_iff n l k σ r :
  vrun body n (Factory.goto l :: k) σ r <-> exists n' K, n = S n' /\ find_label l body [] = Some K /\ vrun body n' K σ r.
Proof.
  split.
  - intros Hr. inversion Hr; subst; try done. eauto.
  - intros (n' & K & -> & Hf & Hr). by econstructor.
Qed.

(** The two ways through a conditional jump. *)
Lemma vrun_conditional n c l k σ r :
  vrun body n (Factory.if_stmt c (Factory.goto l) (Factory.seqn [] []) :: k) σ r ->
  (vholds c σ = None /\ r = None)
  \/ (vholds c σ = Some true /\ exists n', n' <= n /\ vrun body n' (Factory.goto l :: k) σ r)
  \/ (vholds c σ = Some false /\ exists n', n' <= n /\ vrun body n' k σ r).
Proof.
  intros Hr. inversion Hr as [| | |n1 c1 t1 e1 p1 k1 b σ1 r1 Hb H1|c1 t1 e1 p1 k1 σ1 Hb| |]; subst; try done; [|by left].
  right. destruct b; [left; split; [done|]; exists n1; split; [lia|done]|].
  right. split; [done|]. inversion H1; subst; try done. cbn in *. eexists. split; [|eassumption]. lia.
Qed.

Notation selected := (@select (viper_interp config simplified_expression)).

Lemma switch_back d rest σ r : forall targets stmts dt n,
  mapM_opt (conditional_goto config simplified_expression ls) targets = Some stmts ->
  ls !! block_index dt = Some d ->
  vrun body n (stmts ++ Factory.goto d :: rest) σ r ->
  (selected targets dt σ = None /\ r = None)
  \/ exists t l n' k, n' <= n /\ selected targets dt σ = Some t /\ ls !! block_index t = Some l
       /\ vrun body n' (Factory.goto l :: k) σ r.
Proof.
  induction targets as [|[g t] targets IH]; intros stmts dt n Hs Hd Hr; cbn in Hs; inv_option; subst.
  - right. by exists dt, d, n, rest.
  - unfold conditional_goto in Hx. cbn in Hx. inv_option. subst. cbn [app] in Hr. cbn [select holds viper_interp].
    unfold holds_viper. rewrite Hx2. cbn [mbind option_bind].
    apply vrun_conditional in Hr as [[-> ->]|[[-> (n' & Hn & Hr)]|[-> (n' & Hn & Hr)]]].
    + by left.
    + right. eexists t, _, n', _. split; [done|]. split; [done|]. split; [exact Hx1|exact Hr].
    + destruct (IH _ _ _ Hx0 Hd Hr) as [?|(t' & l & n2 & k & ? & ? & ? & ?)]; [by left|].
      right. exists t', l, n2, k. split; [lia|done].
Qed.

Lemma switch_forth d rest σ : forall targets stmts dt,
  mapM_opt (conditional_goto config simplified_expression ls) targets = Some stmts ->
  ls !! block_index dt = Some d ->
  match selected targets dt σ with
  | None => exists n, vrun body n (stmts ++ Factory.goto d :: rest) σ None
  | Some t => exists l, ls !! block_index t = Some l /\ forall K n r, find_label l body [] = Some K ->
      vrun body n K σ r -> exists n', vrun body n' (stmts ++ Factory.goto d :: rest) σ r
  end.
Proof.
  induction targets as [|[g t] targets IH]; intros stmts dt Hs Hd; cbn in Hs; inv_option; subst.
  - exists d. split; [done|]. intros K n r Hf Hr. exists (S n). by econstructor.
  - unfold conditional_goto in Hx. cbn in Hx. inv_option. subst. cbn [app select holds viper_interp].
    unfold holds_viper. rewrite Hx2. cbn [mbind option_bind].
    destruct (vholds x2 σ) as [[|]|] eqn:Hb.
    + eexists. split; [exact Hx1|]. intros K n r Hf Hr. exists (S (S n)). eapply vrun_if; [exact Hb|]. by econstructor.
    + specialize (IH _ _ Hx0 Hd). destruct (selected targets dt σ) as [t'|].
      * destruct IH as (l & Hl & IH). exists l. split; [done|]. intros K n r Hf Hr.
        destruct (IH K n r Hf Hr) as [n' Hn']. exists (S (S n')). eapply vrun_if; [exact Hb|]. by constructor.
      * destruct IH as [n' Hn']. exists (S (S n')). eapply vrun_if; [exact Hb|]. by constructor.
    + exists 0. by constructor.
Qed.

Context (Hret : find_label RETURN_LABEL body [] = Some [Factory.label RETURN_LABEL []]).
Context (Hlabel : forall l, l ∈ RETURN_LABEL :: ls -> forall σ r, vprim (Factory.label l []) σ r <-> r = Some σ).

(** A label has no effect. *)
Lemma vrun_label_iff n l k σ r :
  l ∈ RETURN_LABEL :: ls ->
  vrun body n (Factory.label l [] :: k) σ r <-> exists n', n = S n' /\ vrun body n' k σ r.
Proof.
  intros Hl. split.
  - intros Hr. inversion Hr as [| | | | |n1 s k1 σ1 σ' r1 Hp Hs H1|s k1 σ1 Hp Hs]; subst; try done.
    + apply Hlabel in Hs; [|done]. simplify_eq. eauto.
    + by apply Hlabel in Hs.
  - intros (n' & -> & Hr). eapply vrun_prim; [done| |exact Hr]. by apply Hlabel.
Qed.

Lemma return_iff n k σ r : vrun body n (Factory.goto RETURN_LABEL :: k) σ r -> r = Some σ.
Proof.
  rewrite vrun_goto_iff. intros (n' & K & -> & Hf & Hr). rewrite Hret in Hf. injection Hf as <-.
  apply vrun_label_iff in Hr as (n2 & -> & Hr); [|left]. by inversion Hr.
Qed.

Notation jumped := (@jump (viper_interp config simplified_expression)).

(** What the end of a block does. *)
Lemma successor_back succ v rest n σ r :
  successor_to_viper config simplified_expression ls succ = Some v ->
  vrun body n (v :: rest) σ r ->
  (succ = Successor.Return /\ r = Some σ)
  \/ (jumped succ σ = Some None /\ r = None)
  \/ exists j K n', n' < n /\ jumped succ σ = Some (Some j) /\ entry j K /\ vrun body n' K σ r.
Proof.
  intros Hs Hr. destruct succ as [| |t|targets dt]; cbn in Hs; inv_option; subst.
  - left. split; [done|by eapply return_iff].
  - right; right. apply vrun_goto_iff in Hr as (n' & K & -> & Hf & Hr). exists (block_index t), K, n'.
    split; [lia|]. split; [done|]. split; [eexists; split; [eassumption|done]|done].
  - inversion Hr; subst; try done. rewrite <- app_assoc in *. cbn [app] in *.
    match goal with H : vrun _ _ _ _ _ |- _ => eapply switch_back in H as [[E ->]|(t & l & n' & k & Hn & E & Hl & Hr')]; [| |exact Hx|exact Hx0] end.
    + right; left. split; [|done]. cbn. by rewrite E.
    + right; right. apply vrun_goto_iff in Hr' as (n2 & K & -> & Hf & Hr'). exists (block_index t), K, n2.
      split; [lia|]. split; [cbn; by rewrite E|]. split; [eexists; split; [eassumption|done]|done].
Qed.

Lemma successor_forth succ v rest σ :
  successor_to_viper config simplified_expression ls succ = Some v ->
  match jumped succ σ with
  | None => succ = Successor.Return /\ exists n, vrun body n (v :: rest) σ (Some σ)
  | Some None => exists n, vrun body n (v :: rest) σ None
  | Some (Some j) => forall K n r, entry j K -> vrun body n K σ r -> exists n', vrun body n' (v :: rest) σ r
  end.
Proof.
  intros Hs. destruct succ as [| |t|targets dt]; cbn in Hs; inv_option; subst.
  - cbn. split; [done|]. exists 2. apply vrun_goto_iff. eexists 1, _. split; [done|]. split; [exact Hret|].
    apply vrun_label_iff; [left|]. exists 0. split; [done|constructor].
  - cbn. intros K n r (l & Hl & Hf) Hr. unfold index_to_label in Hx. exists (S n). apply vrun_goto_iff.
    exists n, K. split; [done|]. split; [|done]. congruence.
  - pose proof (switch_forth x0 rest σ targets x dt Hx Hx0) as Hf. cbn.
    destruct (selected targets dt σ) as [t|]; cbn.
    + intros K n r (l & Hl & HK) Hr. destruct Hf as (l' & Hl' & Hf). rewrite Hl in Hl'. injection Hl' as <-.
      destruct (Hf _ _ _ HK Hr) as [n' Hn']. exists (S n'). constructor. by rewrite <- app_assoc.
    + destruct Hf as [n' Hn']. exists (S n'). constructor. by rewrite <- app_assoc.
Qed.
End Jumps.

(** ** Methods *)

(** The labels of the blocks are different from each other, from the label
    at the end and from the labels of the statements. *)
Record well_labelled (m : CfgMethod) : Prop := {
  labels_distinct : NoDup (RETURN_LABEL :: CfgMethod.basic_blocks_labels m);
  labels_separate : forall b l, b ∈ CfgMethod.basic_blocks m -> l ∈ block_labels b ->
    l ∉ RETURN_LABEL :: CfgMethod.basic_blocks_labels m;
  has_start : CfgMethod.basic_blocks m <> []
}.

(** A Viper method returns in a state or fails to verify. *)
Definition vrun_method `{ViperInterp} (vm : VMethod) (σ : VState) (r : option VState) : Prop :=
  match vmethod_body vm with Some body => exists n, vrun body n [body] σ r | None => False end.

Section Methods.
Context (config : ViperConfig) (simplified_expression : VExpr -> VExpr).
Notation to_viper_stmt := (stmt_to_viper (ViperConfig.simplify_encoding config) simplified_expression false).
Notation block_to_viper := (block_to_viper config simplified_expression).
Notation successor_to_viper := (successor_to_viper config simplified_expression).

(** The code of a block, with what follows it. *)
Definition block_code (ls : list string) (b : CfgBlock) (l : string) (K : list VStmt) : Prop :=
  exists vs v rest, K = (Factory.label l [] :: vs ++ v :: rest)%list
    /\ mapM_opt to_viper_stmt (CfgMethod.stmts b) = Some vs
    /\ successor_to_viper ls (CfgMethod.successor b) = Some v.

Lemma successor_no_label l ls succ v : successor_to_viper ls succ = Some v -> no_label l v.
Proof.
  intros Hs k. destruct succ as [| |t|targets dt]; cbn in Hs; inv_option; subst; [done..|]. cbn.
  apply first_in_none. apply Forall_app. split; [|by constructor].
  apply mapM_opt_forall2 in Hx. clear -Hx. induction Hx as [|[g t] v targets vs Ht _ IH]; constructor; [|done].
  unfold conditional_goto in Ht. cbn in Ht. inv_option. by subst.
Qed.

Lemma stmts_no_label l ss vs : l ∉ concat (map stmt_labels ss) -> mapM_opt to_viper_stmt ss = Some vs -> Forall (no_label l) vs.
Proof.
  intros Hl Hs%mapM_opt_forall2. induction Hs as [|s v ss vs Hs _ IH]; constructor; cbn in Hl; rewrite elem_of_app in Hl.
  - eapply stmt_to_viper_no_label; [|exact Hs]. tauto.
  - apply IH. tauto.
Qed.

(** Jumps to other labels pass a block, *)
Lemma block_no_label ls b i v l :
  block_to_viper ls b i = Some v -> ls !! i <> Some l -> l ∉ block_labels b -> no_label l v.
Proof.
  intros Hv Hl Hb k. unfold CfgToViper.block_to_viper, index_to_label in Hv. inv_option. subst. cbn.
  destruct (x == l) eqn:E; [apply peq_eq in E as ->; by destruct Hl|].
  apply first_in_none, Forall_app. split; [by eapply stmts_no_label|].
  constructor; [by eapply successor_no_label|done].
Qed.

(** and jumps to its own label find it. *)
Lemma block_has_label ls b i v l k :
  block_to_viper ls b i = Some v -> ls !! i = Some l ->
  exists K, find_label l v k = Some K /\ block_code ls b l K.
Proof.
  intros Hv Hl. unfold CfgToViper.block_to_viper, index_to_label in Hv. rewrite Hl in Hv. cbn in Hv. inv_option. subst.
  cbn. rewrite (proj2 (peq_eq l l) eq_refl). eexists. split; [reflexivity|].
  exists x, x0, k. split; [|done]. by rewrite <- app_assoc.
Qed.

Section Body.
Context (m : CfgMethod) (Hm : well_labelled m).
Notation ls := (CfgMethod.basic_blocks_labels m).
Context (bs : list (nat * CfgBlock)) (vs : list VStmt) (decls : list VDeclaration).
Context (Hbs : forall i b, (i, b) ∈ bs <-> basic_blocks m !! i = Some b) (Hnd : NoDup (map fst bs)).
Context (Hvs : Forall2 (fun ib v => block_to_viper ls (snd ib) (fst ib) = Some v) bs vs).

Definition method_body : VStmt := Factory.seqn (vs ++ [Factory.label RETURN_LABEL []]) decls.

Lemma label_inj i j l : ls !! i = Some l -> ls !! j = Some l -> i = j.
Proof. destruct Hm as [[_ Hd]%NoDup_cons _ _]. by apply NoDup_lookup. Qed.

Lemma others_no_label l bs' vs' :
  Forall2 (fun ib v => block_to_viper ls (snd ib) (fst ib) = Some v) bs' vs' ->
  (forall i b, (i, b) ∈ bs' -> (i, b) ∈ bs /\ ls !! i <> Some l) -> l ∈ RETURN_LABEL :: ls ->
  Forall (no_label l) vs'.
Proof.
  induction 1 as [|[i b] v bs' vs' Hv _ IH]; intros Hin Hl; constructor.
  - destruct (Hin i b) as [Hi Hne]; [left|]. eapply block_no_label; [exact Hv|done|]. intros Hlb.
    apply Hbs, list_elem_of_lookup_2 in Hi. by apply (labels_separate m Hm b l Hi Hlb).
  - apply IH; [|done]. intros j c Hj. apply Hin. by right.
Qed.

Lemma return_found : find_label RETURN_LABEL method_body [] = Some [Factory.label RETURN_LABEL []].
Proof.
  cbn. apply (first_in_app _ vs _ [] []); [|done]. eapply others_no_label; [exact Hvs| |left].
  intros i b Hi. split; [done|]. intros Hl%list_elem_of_lookup_2.
  by destruct Hm as [[Hn _]%NoDup_cons _ _].
Qed.

Lemma block_found i b l :
  basic_blocks m !! i = Some b -> ls !! i = Some l -> exists K, find_label l method_body [] = Some K /\ block_code ls b l K.
Proof.
  intros Hi%Hbs Hl. apply list_elem_of_split in Hi as (bs1 & bs2 & E). rewrite E in Hvs, Hnd.
  apply Forall2_app_inv_l in Hvs as (vs1 & w & H1 & (v & vs2 & Hv & H2 & ->)%Forall2_cons_inv_l & Evs).
  destruct (block_has_label ls b i v l (vs2 ++ [Factory.label RETURN_LABEL []])%list Hv Hl) as (K & HK & Hc).
  exists K. split; [|done]. cbn. rewrite Evs, <- app_assoc. apply first_in_app; [|by rewrite app_nil_r].
  eapply others_no_label; [exact H1| |right; by eapply list_elem_of_lookup_2].
  intros j c Hj. split; [rewrite E; apply elem_of_app; by left|]. intros Hl'. rewrite map_app in Hnd.
  apply NoDup_app in Hnd as (_ & Hne & _). apply (Hne j).
  - apply list_elem_of_In, in_map_iff. exists (j, c). split; [done|]. by apply list_elem_of_In.
  - rewrite (label_inj j i l Hl' Hl). left.
Qed.

Lemma no_block_no_label i l : basic_blocks m !! i = None -> ls !! i = Some l -> find_label l method_body [] = None.
Proof.
  intros Hi Hl. assert (Hin : l ∈ RETURN_LABEL :: ls) by (right; by eapply list_elem_of_lookup_2).
  cbn. apply first_in_none, Forall_app. split.
  - eapply others_no_label; [exact Hvs| |done]. intros j c Hj. split; [done|]. intros Hl'.
    rewrite (label_inj j i l Hl' Hl) in Hj. apply Hbs in Hj. congruence.
  - constructor; [|done]. intros k. cbn -[RETURN_LABEL]. destruct (RETURN_LABEL == l) eqn:E; [|done]. apply peq_eq in E as <-.
    destruct Hm as [[Hn _]%NoDup_cons _ _]. destruct Hn. by eapply list_elem_of_lookup_2.
Qed.

Context `{ViperInterp}.
Context (Hlabel : forall l, l ∈ RETURN_LABEL :: ls -> forall σ r, vprim (Factory.label l []) σ r <-> r = Some σ).
Notation run_m := (@run (viper_interp config simplified_expression) m).
Notation entry := (entry ls method_body).

Lemma entry_block i K : entry i K -> exists b l, basic_blocks m !! i = Some b /\ ls !! i = Some l /\ block_code ls b l K.
Proof.
  intros (l & Hl & HK). destruct (basic_blocks m !! i) as [b|] eqn:E.
  - destruct (block_found i b l E Hl) as (K' & HK' & Hc). exists b, l. rewrite HK in HK'. by injection HK' as <-.
  - rewrite (no_block_no_label i l E Hl) in HK. done.
Qed.

Lemma run_forth i σ r : run_m i σ r -> forall K, entry i K -> exists n, vrun method_body n K σ r.
Proof.
  intros Hr. induction Hr as [i b σ Hb He|i b σ σ' Hb He Hs|i b σ σ' Hb He Hj|i b σ σ' j r Hb He Hj Hr IH];
    intros K (b0 & l & Hb' & Hl & vs0 & v & rest & -> & Hss & Hsu)%entry_block; rewrite Hb in Hb'; injection Hb' as <-;
    pose proof (exec_list_viper config simplified_expression _ _ Hss) as [Hg Hex];
    apply Hex in He; pose proof (vrun_app method_body _ (v :: rest) _ _ Hg He) as Happ; clear Hex;
    pose proof (successor_forth config simplified_expression ls method_body return_found Hlabel _ _ rest σ' Hsu) as Hsf
    || idtac.
  all: assert (Hlab : forall n r, vrun method_body n (vs0 ++ v :: rest) σ r ->
      exists n, vrun method_body n (Factory.label l [] :: vs0 ++ v :: rest) σ r)
    by (intros n r1 Hn; exists (S n); apply (vrun_label_iff ls _ Hlabel); [right; by eapply list_elem_of_lookup_2|eauto]).
  - destruct Happ as [n Hn]. by eapply Hlab.
  - rewrite Hs in Hsf. cbn in Hsf. destruct Hsf as [_ [n Hn]]. destruct (Happ _ _ Hn) as [n' Hn']. by eapply Hlab.
  - rewrite Hj in Hsf. destruct Hsf as [n Hn]. destruct (Happ _ _ Hn) as [n' Hn']. by eapply Hlab.
  - rewrite Hj in Hsf. apply run_iff in Hr as (b' & Hb' & _).
    assert (Hls : exists lj, ls !! j = Some lj).
    { apply Hbs in Hb' as Hin. apply list_elem_of_lookup in Hin as [k Hk].
      destruct (Forall2_lookup_l _ _ _ _ _ Hvs Hk) as (w & _ & Hw). cbn in Hw. unfold CfgToViper.block_to_viper, index_to_label in Hw.
      inv_option. by eexists. }
    destruct Hls as [lj Hlj]. destruct (block_found j b' lj Hb' Hlj) as (K' & HK' & _).
    assert (Hen : entry j K') by (by exists lj). destruct (IH K' Hen) as [n Hn].
    destruct (Hsf _ _ _ Hen Hn) as [n1 Hn1]. destruct (Happ _ _ Hn1) as [n2 Hn2]. by eapply Hlab.
Qed.

Lemma run_back n : forall i K σ r, entry i K -> vrun method_body n K σ r -> run_m i σ r.
Proof.
  induction n as [n IH] using (well_founded_induction lt_wf).
  intros i K σ r (b & l & Hb & Hl & vs0 & v & rest & -> & Hss & Hsu)%entry_block Hr.
  apply (vrun_label_iff ls _ Hlabel) in Hr as (n1 & -> & Hr); [|right; by eapply list_elem_of_lookup_2].
  pose proof (exec_list_viper config simplified_expression _ _ Hss) as [Hg Hex].
  apply vrun_split in Hr as [[He ->]|(σ' & n2 & Hle & He & Hr)]; [| |done].
  - eapply (@run_fail (viper_interp config simplified_expression)); [exact Hb|]. by apply Hex.
  - apply Hex in He. eapply successor_back in Hr as [[Hs ->]|[[Hj ->]|(j & K & n3 & Hlt & Hj & Hen & Hr)]];
      [| | |exact return_found|exact Hlabel|exact Hsu].
    + by eapply (@run_return (viper_interp config simplified_expression)).
    + by eapply (@run_guard (viper_interp config simplified_expression)).
    + eapply (@run_jump (viper_interp config simplified_expression)); [exact Hb|exact He|exact Hj|]. eapply IH; [|exact Hen|exact Hr]. lia.
Qed.
End Body.

(** *** The blocks that are emitted *)

Lemma from_list_nodup {V} (l : list (string * V)) : NoDup (map fst l) -> HashMap.from_list l = l.
Proof.
  unfold HashMap.from_list. assert (Hgen : forall pre, NoDup (map fst (pre ++ l)%list) ->
    foldl (fun m kv => HashMap.insert m (fst kv) (snd kv)) pre l = (pre ++ l)%list).
  { induction l as [|[k v] l IH]; intros pre Hnd; cbn; [by rewrite app_nil_r|].
    assert (E : HashMap.insert pre k v = (pre ++ [(k, v)])%list).
    { rewrite map_app in Hnd. cbn in Hnd. apply NoDup_app in Hnd as (_ & Hne & _). clear IH. induction pre as [|[k' v'] pre IH]; [done|]. cbn.
      destruct (k == k') eqn:E; [apply peq_eq in E as ->; exfalso; apply (Hne k'); left|]. rewrite IH; [done|].
      intros x Hx. apply Hne. by right. }
    rewrite E, IH; [by rewrite <- app_assoc|]. by rewrite <- app_assoc. }
  intros Hnd. apply (Hgen []), Hnd.
Qed.

Lemma remove_perm {V} (m : HashMap.t string V) k v : HashMap.get m k = Some v -> map snd m ≡ₚ v :: map snd (HashMap.remove m k).
Proof.
  induction m as [|[k' v'] m IH]; cbn; [done|]. destruct (k == k'); [by intros [= ->]|].
  intros H. cbn. rewrite (IH H). apply Permutation_swap.
Qed.

(** Blocks and what was emitted for them. *)
Definition emitted (ls : list string) (bs : list (nat * CfgBlock)) (out : list (VStmt * VDeclaration)) : Prop :=
  Forall2 (fun ib v => block_to_viper ls (snd ib) (fst ib) = Some v) bs (map fst out).

Lemma emit_blocks ls bs out : mapM_opt (emit_block config simplified_expression ls) bs = Some out -> emitted ls bs out.
Proof.
  intros Ho%mapM_opt_forall2. unfold emitted. induction Ho as [|ib o bs out Hb _ IH]; cbn; constructor; [|done].
  unfold emit_block in Hb. inv_option. by subst.
Qed.

Lemma follow_path_spec m fuel : forall path cur rem out rem',
  follow_path config simplified_expression fuel m path cur rem = Some (out, rem') ->
  exists bs, emitted (CfgMethod.basic_blocks_labels m) bs out /\ map snd rem ≡ₚ (bs ++ map snd rem')%list
    /\ forall ib, HashMap.get rem cur = Some ib -> head bs = Some ib.
Proof.
  induction fuel as [|fuel IH]; intros path cur rem out rem' Hf; cbn [follow_path] in Hf; [done|].
  destruct (HashMap.get rem cur) as [[i b]|] eqn:Eg.
  2:{ injection Hf as <- <-. exists []. split; [constructor|]. by split. }
  inv_option. apply remove_perm in Eg as Hp.
  assert (Hx1 : block_to_viper (CfgMethod.basic_blocks_labels m) b i = Some (fst x)) by (unfold emit_block in Hx; inv_option; by subst).
  assert (Hstep : forall path l y, follow_path config simplified_expression fuel m path l (HashMap.remove rem cur) = Some y ->
    exists bs, emitted (CfgMethod.basic_blocks_labels m) bs (x :: fst y) /\ map snd rem ≡ₚ (bs ++ map snd (snd y))%list
    /\ forall ib, Some (i, b) = Some ib -> head bs = Some ib).
  { intros path1 l [out1 rem1] Hy. destruct (IH _ _ _ _ _ Hy) as (bs & He & Hpe & _). exists ((i, b) :: bs).
    split; [by constructor|]. split; [by rewrite Hp, Hpe|done]. }
  assert (Hstop : exists bs, emitted (CfgMethod.basic_blocks_labels m) bs [x] /\ map snd rem ≡ₚ (bs ++ map snd (HashMap.remove rem cur))%list
    /\ forall ib, Some (i, b) = Some ib -> head bs = Some ib).
  { exists [(i, b)]. split; [by repeat constructor|]. by split. }
  destruct x0 as [|l0 [|l1 x0]]; [done| |]; [|destruct path as [|next path]]; inv_option; simplify_eq; try exact Hstop; by eapply Hstep.
Qed.

(** No block is deleted. *)
Definition keeps_blocks : Prop :=
  ViperConfig.enable_verify_only_basic_block_path config = false \/ ViperConfig.delete_basic_blocks config = [].

Lemma enumerate_in {A} (l : list A) i x : (i, x) ∈ enumerate l <-> l !! i = Some x.
Proof. unfold enumerate. rewrite in_enumerate_from, Nat.sub_0_r. split; [by intros []|]. split; [lia|done]. Qed.

Lemma enumerate_fst {A} (l : list A) : NoDup (map fst (enumerate l)).
Proof. unfold enumerate. change (NoDup ((zip (seq 0 (length l)) l).*1)). rewrite fst_zip by (by rewrite length_seq). apply NoDup_seq. Qed.

(** Every block is emitted once, and the first block is emitted first. *)
Lemma blocks_emitted m out :
  keeps_blocks -> well_labelled m -> blocks_to_viper config simplified_expression m = Some out ->
  exists bs b0, emitted (CfgMethod.basic_blocks_labels m) ((0, b0) :: bs) out
    /\ ((0, b0) :: bs) ≡ₚ enumerate (CfgMethod.basic_blocks m).
Proof.
  unfold keeps_blocks. intros Hk Hm Hb. unfold blocks_to_viper in Hb.
  destruct (CfgMethod.basic_blocks m) as [|b0 rest] eqn:Em; [by destruct (has_start m Hm)|].
  destruct (ViperConfig.enable_verify_only_basic_block_path config).
  - destruct Hk as [|Hk]; [done|]. unfold convert_basic_block_path in Hb. rewrite Hk in Hb. cbn [delete_blocks] in Hb.
    inv_option. destruct x1 as [out1 rem]. cbn in Hb, Hx2. subst.
    apply follow_path_spec in Hx1 as (bs1 & He & Hp & Hhd). apply mapM_opt_forall2 in Hx.
    assert (Hl : map snd x = enumerate (CfgMethod.basic_blocks m) /\ Forall (fun e => CfgMethod.basic_blocks_labels m !! fst (snd e) = Some (fst e)) x).
    { revert Hx. generalize (enumerate (CfgMethod.basic_blocks m)). intros l Hx. clear -Hx.
      induction Hx as [|ib y l l' Hy _ [IH1 IH2]]; [done|]. inv_option. subst. split; [done|by constructor]. }
    destruct Hl as [Hsnd Hlab]. assert (Hnd : NoDup (map fst x)).
    { assert (Hnd : NoDup (map fst (map snd x))) by (rewrite Hsnd; apply enumerate_fst). clear -Hlab Hnd Hm.
      induction Hlab as [|[l [i b]] x Hl HF IH]; cbn in *; [constructor|]. apply NoDup_cons in Hnd as [Hn Hnd]. constructor; [|by apply IH].
      intros (e & El & He)%list_elem_of_In%in_map_iff. apply Hn. rewrite Forall_forall in HF. apply list_elem_of_In in He.
      specialize (HF e He). rewrite El in HF. rewrite (label_inj m Hm i (fst (snd e)) l Hl HF).
      apply list_elem_of_In. rewrite map_map. apply in_map_iff. exists e. split; [done|by apply list_elem_of_In]. }
    rewrite (from_list_nodup x Hnd) in *. rewrite Hsnd in Hp.
    assert (Hg : HashMap.get x x0 = Some (0, b0)).
    { rewrite Em in Hsnd. destruct x as [|[l0 e] x]; [done|]. cbn in Hsnd. injection Hsnd as -> _.
      apply Forall_cons in Hlab as [Hl0 _]. cbn in Hl0. unfold index_to_label in Hx0. rewrite Hl0 in Hx0. injection Hx0 as <-.
      cbn. by rewrite (proj2 (peq_eq l0 l0) eq_refl). }
    apply Hhd in Hg. destruct bs1 as [|e bs1]; [done|]. injection Hg as ->.
    exists (bs1 ++ map snd rem)%list, b0. rewrite <- Em. split; [|by rewrite Hp].
    unfold emitted in *. rewrite map_app, app_comm_cons. apply Forall2_app; [exact He|].
    cbn in Hx3. apply mapM_opt_forall2 in Hx3. clear -Hx3. induction Hx3 as [|e o rem out He _ IH]; cbn; constructor; [|done]. inv_option. by subst.
  - unfold sorted_blocks in Hb. rewrite Em in Hb. inv_option. cbn in Hx1. simplify_eq.
    apply sort_by_perm in Hx0. apply emit_blocks in Hb. eexists _, _. split; [exact Hb|].
    cbn in Hx0. rewrite Hx0. done.
Qed.

(** The method and its translation. *)
Lemma cfg_method_runs `{ViperInterp} m vm :
  cfg_method_to_viper config simplified_expression m = Some vm -> keeps_blocks -> well_labelled m ->
  (forall l, l ∈ RETURN_LABEL :: CfgMethod.basic_blocks_labels m ->
     forall σ r, vprim (Factory.label l []) σ r <-> r = Some σ) ->
  forall σ r, @run (viper_interp config simplified_expression) m 0 σ r <-> vrun_method vm σ r.
Proof.
  intros Hv Hk Hm Hlabel σ r. unfold cfg_method_to_viper in Hv. inv_option. subst.
  destruct (blocks_emitted m x Hk Hm Hx) as (bs & b0 & He & Hp). unfold emitted, VDeclaration in *.
  unfold vrun_method. cbn [vmethod_body Factory.method].
  match goal with |- context [Factory.seqn (_ ++ _) ?d] => set (decls := d) end.
  assert (Hbs : forall i b, (i, b) ∈ ((0, b0) :: bs) <-> basic_blocks m !! i = Some b).
  { intros i b. rewrite Hp. apply enumerate_in. }
  assert (Hnd : NoDup (map fst ((0, b0) :: bs))) by (rewrite Hp; apply enumerate_fst).
  set (vs := map fst x) in *. clearbody vs. fold (method_body vs decls).
  assert (Hb0 : basic_blocks m !! 0 = Some b0) by (apply Hbs; left).
  destruct vs as [|v vs]; [by inversion He|].
  assert (Hen : exists K, entry (CfgMethod.basic_blocks_labels m) (method_body (v :: vs) decls) 0 K
    /\ forall n, vrun (method_body (v :: vs) decls) (S (S n)) [method_body (v :: vs) decls] σ r <-> vrun (method_body (v :: vs) decls) n K σ r).
  { apply Forall2_cons in He as [Hv0 _]. cbn in Hv0. unfold CfgToViper.block_to_viper in Hv0. inv_option. subst.
    eexists. split.
    - eexists. split; [exact Hx0|]. cbn. by rewrite (proj2 (peq_eq x0 x0) eq_refl).
    - intros n. split.
      + intros Hr. inversion Hr as [| |n1 ss ds p i k σ1 r1 H1| | | |]; subst; try done.
        inversion H1 as [| |n2 ss2 ds2 p2 i2 k2 σ2 r2 H2| | | |]; subst; done.
      + intros Hr. constructor. cbn. constructor. exact Hr. }
  destruct Hen as (K & Hen & HK). split.
  - intros Hr. destruct (run_forth m Hm ((0, b0) :: bs) (v :: vs) decls Hbs Hnd He Hlabel 0 σ r Hr K Hen) as [n Hn].
    exists (S (S n)). by apply HK.
  - intros [n Hn]. destruct n as [|[|n]].
    + inversion Hn; subst; done.
    + inversion Hn as [| |n1 ss ds p i k σ1 r1 H1| | | |]; subst; try done.
      inversion He as [|ib v1 bs1 vs1 Hv0 _]; subst. cbn in Hv0. unfold CfgToViper.block_to_viper in Hv0. inv_option. subst.
      inversion H1; subst; done.
    + apply HK in Hn. by eapply (run_back m Hm ((0, b0) :: bs) (v :: vs) decls Hbs Hnd He Hlabel).
Qed.
End Methods.

(** ** The laws of methods hold for the translation *)

(** What the documentation of Viper says about [true]. *)
Class ViperLaws `{ViperInterp} : Prop := {
  vprim_inhale_true : forall p q i σ r, vprim (VStmt.Inhale (VExpr.Lit VLit.TrueLit p) q i) σ r <-> r = Some σ;
  vprim_exhale_true : forall p q i σ r, vprim (VStmt.Exhale (VExpr.Lit VLit.TrueLit p) q i) σ r <-> r = Some σ;
  vprim_assert_true : forall p q i σ r, vprim (VStmt.Assert (VExpr.Lit VLit.TrueLit p) q i) σ r <-> r = Some σ
}.

Section Laws.
Context (config : ViperConfig) (simplified_expression : VExpr -> VExpr) `{ViperLaws}.
(** The simplifier keeps literals. *)
Context (Hsimp : forall p, simplified_expression (VExpr.Lit VLit.TrueLit p) = VExpr.Lit VLit.TrueLit p).

Lemma vexec_comment c σ r : vexec [Factory.comment c] σ r <-> r = Some σ.
Proof.
  unfold Factory.comment. rewrite vexec_seqn. split; [|intros ->; exists 0; constructor].
  intros [n Hn]. by inversion Hn.
Qed.

Lemma true_to_viper p :
  expr_to_viper (ViperConfig.simplify_encoding config) simplified_expression (Expr.Const (Const.Bool true) p)
  = Some (VExpr.Lit VLit.TrueLit (position_to_viper p)).
Proof. cbn. unfold simplify_if. destruct (ViperConfig.simplify_encoding config); [|done]. f_equal. apply Hsimp. Qed.

Lemma viper_laws : @MethodLaws (viper_interp config simplified_expression).
Proof.
  split.
  - intros c σ r. apply vexec_comment.
  - intros a b u σ r. cbn [exec viper_interp exec_viper stmt_to_viper]. unfold as_comment.
    destruct (stmt_to_string _); [|done]. apply vexec_comment.
  - intros p σ r. cbn [exec viper_interp exec_viper stmt_to_viper]. rewrite true_to_viper. cbn [mbind option_bind].
    unfold Factory.inhale. rewrite vexec_prim by done. apply vprim_inhale_true.
  - intros p q σ r. cbn [exec viper_interp exec_viper stmt_to_viper]. unfold exhale_to_viper. rewrite true_to_viper.
    destruct (assert_ _); [|done]. cbn [mbind option_bind]. unfold Factory.exhale. rewrite vexec_prim by done. apply vprim_exhale_true.
  - intros p q σ r. cbn [exec viper_interp exec_viper stmt_to_viper]. rewrite true_to_viper. cbn [mbind option_bind].
    unfold Factory.assert. rewrite vexec_prim by done. apply vprim_assert_true.
  - intros g t e σ r. cbn [exec holds viper_interp exec_viper]. destruct (holds_viper _ _ g σ) as [[|]|]; [| |done];
      symmetry; apply exec_list_seq.
Qed.

(** The optimizations of a method and the translation together. *)
(** C7. The optimizations of a method and its translation together: when the enabled
    optimizations only delete statements or merge blocks, the Viper method of the optimized
    method has the same executions and failures as that of the method. This is for acyclic
    methods whose jumps lead to blocks they have and none to the start block, whose labels are
    distinct and are no-ops in Viper, for a configuration that deletes no blocks, and if the
    guards of the conditionals that are removed as empty are defined in every state: an
    ill-defined guard is a verification failure that goes away with its conditional. *)
Theorem optimized_translation_correct settings o m m' vm vm' :
  cleanable m -> only_deletes o = true -> @guards_defined (viper_interp config simplified_expression) m ->
  optimize_method_encoding settings o m = Some m' ->
  cfg_method_to_viper config simplified_expression m = Some vm ->
  cfg_method_to_viper config simplified_expression m' = Some vm' ->
  keeps_blocks config -> well_labelled m -> well_labelled m' ->
  (forall l, l ∈ RETURN_LABEL :: CfgMethod.basic_blocks_labels m ++ CfgMethod.basic_blocks_labels m' ->
     forall σ r, vprim (Factory.label l []) σ r <-> r = Some σ) ->
  forall σ r, vrun_method vm σ r <-> vrun_method vm' σ r.
Proof.
  intros Hc Ho Hg Hm' Hv Hv' Hk Hw Hw' Hl σ r.
  destruct (@optimize_method_encoding_behaves _ viper_laws settings o m Hc) as [_ Hb].
  destruct (Hb Ho Hg) as (m2 & E & Hs). rewrite Hm' in E. injection E as <-.
  rewrite <- (cfg_method_runs config simplified_expression m vm), <- (cfg_method_runs config simplified_expression m' vm'); try done.
  - intros l Hin. apply Hl. apply elem_of_cons in Hin as [->|]; [left|]. right. apply elem_of_app. by right.
  - intros l Hin. apply Hl. apply elem_of_cons in Hin as [->|]; [left|]. right. apply elem_of_app. by left.
Qed.
End Laws.

(** ** Samples *)

(** The state counts the inhaled assertions; [assert] fails unless it is
    about [true]. *)
#[export] Instance counting_viper : ViperInterp := {|
  VState := nat;
  vprim s n r :=
    match s with
    | VStmt.Inhale (VExpr.Lit VLit.TrueLit _) _ _ | VStmt.Exhale (VExpr.Lit VLit.TrueLit _) _ _
    | VStmt.Assert (VExpr.Lit VLit.TrueLit _) _ _ | VStmt.Label _ _ _ => r = Some n
    | VStmt.Inhale _ _ _ => r = Some (S n)
    | _ => r = None
    end;
  vholds e _ :=
    match e with
    | VExpr.Lit VLit.TrueLit _ => Some true
    | VExpr.Lit VLit.FalseLit _ => Some false
    | _ => None
    end |}.

#[export] Instance counting_viper_laws : ViperLaws.
Proof. by split. Qed.

Definition plain_config : ViperConfig := ViperConfig.make true false false [] [].

(** C5. A method runs as the Viper method it is translated to: from every state the body of the
    translation, with its labels, conditionals and gotos, returns in the same states and fails
    in the same cases as the control flow graph, whatever the statements mean, with or without
    the debugging path as long as it deletes no block. *)
Theorem cfg_method_to_viper_correct config simplified_expression `{ViperInterp} (m : CfgMethod) vm :
  cfg_method_to_viper config simplified_expression m = Some vm -> keeps_blocks config -> well_labelled m ->
  (forall l, l ∈ RETURN_LABEL :: CfgMethod.basic_blocks_labels m ->
     forall σ r, vprim (Factory.label l []) σ r <-> r = Some σ) ->
  forall σ r, @run (viper_interp config simplified_expression) m 0 σ r <-> vrun_method vm σ r.
Proof. exact (cfg_method_runs config simplified_expression m vm). Qed.

(** Methods whose statements declare no labels. *)
Lemma unlabelled_stmts m :
  Forall (fun b => block_labels b = []) (CfgMethod.basic_blocks m) ->
  bool_decide (NoDup (RETURN_LABEL :: CfgMethod.basic_blocks_labels m)) = true ->
  CfgMethod.basic_blocks m <> [] -> well_labelled m.
Proof.
  intros Hb Hd Hne. split; [by apply bool_decide_eq_true in Hd| |done].
  intros b l Hin Hl. rewrite Forall_forall in Hb. rewrite (Hb b Hin) in Hl. by apply elem_of_nil in Hl.
Qed.

Lemma cfg_method_to_viper_correct_witness :
  exists vm, cfg_method_to_viper plain_config id sample_chain = Some vm
    /\ forall σ r, @run (viper_interp plain_config id) sample_chain 0 σ r <-> vrun_method vm σ r.
Proof.
  eexists. split; [reflexivity|]. apply (cfg_method_to_viper_correct plain_config id sample_chain).
  - reflexivity.
  - by left.
  - by apply unlabelled_stmts; [repeat constructor|vm_compute|].
  - intros l _ σ r. reflexivity.
Defined.

Lemma optimized_translation_correct_witness :
  exists m' vm vm', optimize_method_encoding default_settings deleting sample_cleanup = Some m'
    /\ cfg_method_to_viper plain_config id sample_cleanup = Some vm
    /\ cfg_method_to_viper plain_config id m' = Some vm'
    /\ forall σ r, vrun_method vm σ r <-> vrun_method vm' σ r.
Proof.
  eexists _, _, _. split; [vm_compute; reflexivity|]. split; [reflexivity|]. split; [reflexivity|].
  eapply (optimized_translation_correct plain_config id (fun _ => eq_refl) default_settings deleting sample_cleanup).
  - exact sample_cleanable.
  - reflexivity.
  - repeat (constructor || (intros _; cbn)); done.
  - vm_compute. reflexivity.
  - reflexivity.
  - reflexivity.
  - by left.
  - by apply unlabelled_stmts; [repeat constructor|vm_compute|].
  - by apply unlabelled_stmts; [repeat constructor|vm_compute|].
  - intros l _ σ r. reflexivity.
Defined.
