(* ===== verification/EncoderPurifier.v ===== *)
(** * Purification of shared references

    [prusti-viper/src/encoder/purifier.rs]: local references that are neither
    dereferenced nor borrow anything become variables of snapshot types.  The
    encoder gives the snapshot type of a reference; it asks the compiler, so
    here it is the argument [snapshot_type].  What the dependency collector
    records is specified by the expressions and the assignments of the method,
    and the variables to purify by reachability through the assignments. *)

From stdpp Require Import pretty.
From S2P Require Import Prelude Ast ExprEq ExprPlace ExprTransformers ExprOps Collections Items Borrows.
From S2P Require Import Stmt Cfg QuantifierFixer.

Module VarDependencyCollector.
Record VarDependencyCollector : Type := make {
  dereferenced_variables : HashSet.t string;
  borrowing_variables : HashSet.t string;
  dependencies : HashMap.t string (HashSet.t string);
  dependents : HashMap.t string (HashSet.t string)
}.

Definition default : VarDependencyCollector := make [] [] HashMap.empty HashMap.empty.
End VarDependencyCollector.
Abbreviation VarDependencyCollector := VarDependencyCollector.VarDependencyCollector.

Section Collector.
Import VarDependencyCollector.

(** ** The fixpoints *)

(** One round over the variables: the sets that are reached and removed. *)
Definition take_reached (vars : HashSet.t string) (m : HashMap.t string (HashSet.t string)) :
    list (HashSet.t string) * HashMap.t string (HashSet.t string) :=
  foldl (fun acc var =>
    match HashMap.get (snd acc) var with
    | Some s => (fst acc ++ [s], HashMap.remove (snd acc) var)%list
    | None => acc
    end) ([], m) vars.

Fixpoint reach_fixpoint (fuel : nat) (vars : HashSet.t string) (m : HashMap.t string (HashSet.t string)) :
    option (HashSet.t string * HashMap.t string (HashSet.t string)) :=
  match fuel with
  | 0 => None
  | S fuel =>
      let '(add_queue, m) := take_reached vars m in
      match add_queue with
      | [] => Some (vars, m)
      | _ => reach_fixpoint fuel (foldl HashSet.union vars add_queue) m
      end
  end.

(** Every round but the last removes an entry. *)
Definition compute_fixpoint (vars : HashSet.t string) (m : HashMap.t string (HashSet.t string)) :=
  reach_fixpoint (S (length m)) vars m.

Definition compute_dereferenced_variables_fixpoint (self : VarDependencyCollector) : option VarDependencyCollector :=
  r ← compute_fixpoint (dereferenced_variables self) (dependencies self);
  Some (make (fst r) (borrowing_variables self) (snd r) (dependents self)).

Definition compute_borrowing_variables_fixpoint (self : VarDependencyCollector) : option VarDependencyCollector :=
  r ← compute_fixpoint (borrowing_variables self) (dependents self);
  Some (make (dereferenced_variables self) (fst r) (dependencies self) (snd r)).

(** ** The walkers *)

Definition variable_collector : ExprWalker (HashSet.t string) :=
  {| walk := default_walk;
     walk_local_var := default_walk_local_var;
     walk_node := fun n =>
       match n with
       | Node.Local local_var _ => fun vars => Some (HashSet.insert vars (LocalVar.name local_var))
       | n => default_walk_node default_walk_local_var n
       end |}.

Definition collect_variables (expr : Expr) : option (HashSet.t string) := run_walk variable_collector expr [].

Definition add_dereferenced (local_var : LocalVar) : Walk VarDependencyCollector := fun s =>
  Some (make (HashSet.insert (dereferenced_variables s) (LocalVar.name local_var)) (borrowing_variables s)
          (dependencies s) (dependents s)).

Definition dependency_collector : ExprWalker VarDependencyCollector :=
  {| walk := default_walk;
     walk_local_var := default_walk_local_var;
     walk_node := fun n =>
       match n with
       | Node.Field receiver _ _ =>
           match orig receiver with
           | Expr.Field (Expr.Local local_var _) _ _ => add_dereferenced local_var
           | _ => go receiver
           end
       | n => default_walk_node default_walk_local_var n
       end |}.

(** [entry(k).or_insert(HashSet::new()).extend(vars)]. *)
Definition extend_entry (vars : HashSet.t string) (m : HashMap.t string (HashSet.t string)) (k : string) :
    HashMap.t string (HashSet.t string) :=
  HashMap.insert m k (HashSet.union (match HashMap.get m k with Some s => s | None => [] end) vars).

Definition add_dependencies (ds ts : HashSet.t string) (s : VarDependencyCollector) : VarDependencyCollector :=
  make (dereferenced_variables s) (borrowing_variables s)
    (foldl (extend_entry ds) (dependencies s) ts) (foldl (extend_entry ts) (dependents s) ds).

(** The variable an assignment makes borrow. *)
Definition borrowing_target (target source : Expr) (kind : AssignKind) : option LocalVar :=
  match kind, target with
  | (AssignKind.SharedBorrow _ | AssignKind.MutableBorrow _), Expr.Field (Expr.Local local_var _) _ _ =>
      match source with
      (* Reborrowing is fine. *)
      | Expr.Field (Expr.Local _ _) f _ => if Field.name f == "val_ref" then None else Some local_var
      | _ => Some local_var
      end
  | _, _ => None
  end.

Definition add_borrowing (v : option LocalVar) (s : VarDependencyCollector) : VarDependencyCollector :=
  match v with
  | Some local_var =>
      make (dereferenced_variables s) (HashSet.insert (borrowing_variables s) (LocalVar.name local_var))
        (dependencies s) (dependents s)
  | None => s
  end.

Definition dependency_stmt_collector : StmtWalker VarDependencyCollector :=
  {| walk_stmt := fun _ dflt => dflt;
     walk_expr_of := run_walk dependency_collector;
     walk_local_var_of := default_walk_local_var_of;
     walk_snode := fun n =>
       match n with
       | SNode.Assign target source kind =>
           walk_then (fun s =>
             ds ← collect_variables source;
             ts ← collect_variables target;
             Some (add_borrowing (borrowing_target target source kind) (add_dependencies ds ts s)))
             (walk_then (run_walk dependency_collector target) (run_walk dependency_collector source))
       | n => default_walk_snode (run_walk dependency_collector) default_walk_local_var_of n
       end |}.
End Collector.

(** ** [Purifier] *)

Module RefPurifier.
Record State : Type := make {
  fresh_variables : list LocalVar;
  change_var_types : HashMap.t string Ty
}.

Definition new : State := make [] HashMap.empty.

Section Purifier.
Context (snapshot_type : string -> option Ty) (vars : HashSet.t string).

Definition translate_type (typ : Ty) : option Ty :=
  match typ with
  | Ty.Int | Ty.Bool | Ty.Snapshot _ | Ty.Domain _ => Some typ
  | Ty.TypedRef name => snapshot_type name
  | Ty.Seq _ => None
  end.

Definition is_var (local_var : LocalVar) : bool := HashSet.contains vars (LocalVar.name local_var).

Definition translate_local (local_var : LocalVar) : option LocalVar :=
  typ ← translate_type (LocalVar.typ local_var); Some (LocalVar.new (LocalVar.name local_var) typ).

Definition fresh_variable (typ : Ty) : ST State Empty_set LocalVar :=
  typ ← lift (translate_type typ);
  s ← get_st;
  let var := LocalVar.new ("havoc$" ++ pretty.pretty (length (fresh_variables s))) typ in
  _ ← put_st (make (fresh_variables s ++ [var])%list (change_var_types s));
  mret var.

(** A variable that is purified, or whose type changes with one that is. *)
Definition is_translated (s : State) (local_var : LocalVar) : bool :=
  is_var local_var || HashMap.contains_key (change_var_types s) (LocalVar.name local_var).

Definition expr_purifier : ExprFolder State Empty_set :=
  {| fold := default_fold;
     fold_node := fun n =>
       match n with
       | Node.FieldAccessPredicate receiver perm_amount pos =>
           match orig receiver with
           | Expr.Field (Expr.Local local_var _) _ _ =>
               mret (if is_var local_var then expr_of_bool true
                     else Expr.FieldAccessPredicate (orig receiver) perm_amount pos)
           | receiver => mret (Expr.FieldAccessPredicate receiver perm_amount pos)
           end
       | Node.PredicateAccessPredicate name arg perm_amount pos =>
           arg ← go arg;
           s ← get_st;
           match arg with
           | Expr.Local local_var _ =>
               mret (if is_translated s local_var then expr_of_bool true
                     else Expr.PredicateAccessPredicate name arg perm_amount pos)
           | _ => mret (Expr.PredicateAccessPredicate name arg perm_amount pos)
           end
       | Node.LabelledOld label body pos =>
           body ← go body;
           dependent ← lift (is_heap_dependent body);
           mret (if negb dependent then body else Expr.LabelledOld label body pos)
       | Node.Local var pos =>
           s ← get_st;
           match HashMap.get (change_var_types s) (LocalVar.name var) with
           | Some new_type =>
               typ ← lift (translate_type new_type);
               mret (Expr.Local (LocalVar.new (LocalVar.name var) typ) pos)
           | None => mret (Expr.Local var pos)
           end
       | Node.Field receiver field pos =>
           match orig receiver with
           | Expr.Local local_var _ =>
               if is_var local_var then var ← lift (translate_local local_var); mret (expr_of_var var)
               else mret (Expr.Field (orig receiver) field pos)
           | receiver => mret (Expr.Field receiver field pos)
           end
       | Node.FuncApp name args formal_args return_type pos =>
           args ← sequence (map go args);
           s ← get_st;
           match args with
           | [Expr.Local local_var local_pos] =>
               mret (if starts_with name "snap$" && is_translated s local_var then Expr.Local local_var local_pos
                     else Expr.FuncApp name args formal_args return_type pos)
           | _ => mret (Expr.FuncApp name args formal_args return_type pos)
           end
       | n => default_fold_node n
       end |}.

Definition purify_expr (e : Expr) : ST State Empty_set Expr := run_fold expr_purifier e.

(** A target that preserves the value of a purified variable takes its type. *)
Definition preserving_target (target_var : LocalVar) : bool :=
  starts_with (LocalVar.name target_var) "_preserve" || starts_with (LocalVar.name target_var) "_old$".

Definition retype_target (target source : Expr) : ST State Empty_set Expr :=
  match target, source with
  | Expr.Local target_var pos, Expr.Local source_var _ =>
      if preserving_target target_var && is_var source_var then
        typ ← lift (translate_type (LocalVar.typ source_var));
        _ ← modify (fun s => make (fresh_variables s)
              (HashMap.insert (change_var_types s) (LocalVar.name target_var) (LocalVar.typ source_var)));
        mret (Expr.Local (LocalVar.new (LocalVar.name target_var) typ) pos)
      else mret target
  | _, _ => mret target
  end.

Definition purified_call_target (targets : list LocalVar) : option LocalVar :=
  match targets with
  | [local_var] => if is_var local_var then Some local_var else None
  | _ => None
  end.

Definition stmt_purifier : StmtFolder State Empty_set :=
  {| fold_stmt := fun _ dflt => dflt;
     fold_expr_of := purify_expr;
     fold_snode := fun n =>
       match n with
       | SNode.MethodCall name args targets =>
           match purified_call_target targets with
           | Some local_var =>
               var ← lift (translate_local local_var);
               fresh ← fresh_variable (LocalVar.typ local_var);
               mret (Stmt.Assign (expr_of_var var) (expr_of_var fresh) AssignKind.Ghost)
           | None => args ← sequence (map purify_expr args); mret (Stmt.MethodCall name args targets)
           end
       | SNode.Assign target source kind =>
           target ← purify_expr target;
           source ← purify_expr source;
           target ← retype_target target source;
           mret (Stmt.Assign target source kind)
       | n => default_fold_snode purify_expr n
       end |}.

(** The loop over the local variables: [change_var_types.remove(&var.name)]. *)
Definition translate_declaration (change : HashMap.t string Ty) (var : LocalVar) :
    option (LocalVar * HashMap.t string Ty) :=
  if is_var var then var ← translate_local var; Some (var, change)
  else match HashMap.get change (LocalVar.name var) with
       | Some typ =>
           typ ← translate_type typ;
           Some (LocalVar.new (LocalVar.name var) typ, HashMap.remove change (LocalVar.name var))
       | None => Some (var, change)
       end.

Fixpoint translate_declarations (change : HashMap.t string Ty) (local_vars : list LocalVar) : option (list LocalVar) :=
  match local_vars with
  | [] => Some []
  | var :: rest =>
      r ← translate_declaration change var;
      rest ← translate_declarations (snd r) rest;
      Some (fst r :: rest)
  end.
End Purifier.

(** ** [purify_method] *)

Definition candidate (var : LocalVar) : option string :=
  match LocalVar.typ var with
  | Ty.TypedRef typ => if starts_with typ "ref$" then Some (LocalVar.name var) else None
  | _ => None
  end.

Definition candidates (method : CfgMethod) : HashSet.t string :=
  HashSet.from_list (omap candidate (CfgMethod.local_vars method)).

(** The candidates that are neither dereferenced nor borrow. *)
Definition purifiable (method : CfgMethod) : option (HashSet.t string) :=
  collector ← walk_method method dependency_stmt_collector dependency_collector VarDependencyCollector.default;
  collector ← compute_dereferenced_variables_fixpoint collector;
  collector ← compute_borrowing_variables_fixpoint collector;
  Some (List.filter (fun var => negb (HashSet.contains (VarDependencyCollector.borrowing_variables collector) var))
    (List.filter (fun var => negb (HashSet.contains (VarDependencyCollector.dereferenced_variables collector) var))
      (candidates method))).

Definition purify_method (snapshot_type : string -> option Ty) (method : CfgMethod) : option CfgMethod :=
  match candidates method with
  | [] => Some method
  | _ =>
      vars ← purifiable method;
      match fold_cfg_stmts (stmt_purifier snapshot_type vars) method new with
      | Val (method, purifier) =>
          local_vars ← translate_declarations snapshot_type vars (change_var_types purifier) (CfgMethod.local_vars method);
          Some (CfgMethod.with_local_vars method (local_vars ++ fresh_variables purifier)%list)
      | _ => None
      end
  end.
End RefPurifier.

From stdpp Require Import relations.

(** * The fixpoints of the purification of shared references

    The loops terminate, and the dereferenced (borrowing) variables they
    give are exactly the variables that the recorded dependencies reach. *)

Definition edge (m : HashMap.t string (HashSet.t string)) (y x : string) : Prop :=
  exists s, HashMap.get m y = Some s /\ In x s.

(** ** One round *)

Lemma take_reached_snoc vars var m :
  take_reached (vars ++ [var]) m =
    match HashMap.get (snd (take_reached vars m)) var with
    | Some s => (fst (take_reached vars m) ++ [s], HashMap.remove (snd (take_reached vars m)) var)%list
    | None => take_reached vars m
    end.
Proof. unfold take_reached. by rewrite foldl_app. Qed.

Lemma take_reached_map vars m :
  NoDup (HashMap.keys m) ->
  NoDup (HashMap.keys (snd (take_reached vars m)))
  /\ (forall k, HashMap.get (snd (take_reached vars m)) k
        = if HashSet.contains vars k then None else HashMap.get m k)
  /\ length m = length (fst (take_reached vars m)) + length (snd (take_reached vars m)).
Proof.
  intros Hnd. induction vars as [|var vars (IHn & IHg & IHl)] using rev_ind; [done|].
  rewrite take_reached_snoc. destruct (HashMap.get (snd _) var) as [s|] eqn:E; cbn.
  - split; [by apply HashMap.nodup_remove|]. split.
    + intros k. rewrite HashMap.get_remove, HashSet.contains_app by done. rewrite IHg. cbn.
      rewrite orb_false_r, orb_comm. by destruct (k == var).
    + rewrite length_app, IHl. cbn. rewrite (HashMap.remove_length (snd (take_reached vars m)) var) by (by rewrite E). lia.
  - split; [done|]. split; [|done]. intros k. rewrite HashSet.contains_app, IHg. cbn. rewrite orb_false_r.
    destruct (HashSet.contains vars k) eqn:Ek; [done|]. cbn. destruct (k == var) eqn:Ekv; [|done].
    apply (peq_eq (A := string)) in Ekv as ->. by rewrite IHg, Ek in E.
Qed.

Lemma take_reached_sets vars m x :
  NoDup (HashMap.keys m) ->
  (exists s, In s (fst (take_reached vars m)) /\ In x s) <-> (exists y, In y vars /\ edge m y x).
Proof.
  intros Hnd. induction vars as [|var vars IH] using rev_ind; cbn; [by split; intros (? & [] & _)|].
  rewrite take_reached_snoc. destruct (take_reached_map vars m Hnd) as (_ & Hg & _).
  pose proof (HashSet.contains_In vars var) as Hin. rewrite Hg.
  setoid_rewrite in_app_iff. cbn.
  destruct (HashSet.contains vars var) eqn:Ev.
  - rewrite IH. split; intros (y & Hy & He); exists y; split; try done; [by left|].
    destruct Hy as [|[<-|[]]]; [done|]. by apply Hin.
  - destruct (HashMap.get m var) as [s|] eqn:E; cbn.
    + setoid_rewrite in_app_iff. cbn. split.
      * intros (s' & [Hs|[<-|[]]] & Hx); [|exists var; split; [auto|by exists s]].
        destruct (proj1 IH) as (y & ? & ?); [by exists s'|]. exists y. auto.
      * intros (y & [Hy|[<-|[]]] & He).
        -- destruct (proj2 IH) as (s' & ? & ?); [by exists y|]. exists s'. auto.
        -- destruct He as (s' & Es & Hx). exists s'. rewrite E in Es. injection Es as ->. auto.
    + rewrite IH. split; intros (y & Hy & He); exists y; split; try done; [by left|].
      destruct Hy as [|[<-|[]]]; [done|]. destruct He as (s & ? & _). congruence.
Qed.

(** ** The loop *)

Section Rounds.
Context (vars0 : HashSet.t string) (m0 : HashMap.t string (HashSet.t string)).
Hypothesis Hnd0 : NoDup (HashMap.keys m0).

Definition reachable (x : string) : Prop := exists y, In y vars0 /\ rtc (edge m0) y x.

(** Only reachable variables are collected; the entries that are gone belong
    to collected variables and their sets are collected. *)
Record sound_round (vars : HashSet.t string) (m : HashMap.t string (HashSet.t string)) : Prop := {
  round_nodup : NoDup (HashMap.keys m);
  round_start : forall x, In x vars0 -> In x vars;
  round_reachable : forall x, In x vars -> reachable x;
  round_sub : forall y x, edge m y x -> edge m0 y x;
  round_taken : forall y x, edge m0 y x -> edge m y x \/ In x vars
}.

Lemma sound_round_start : sound_round vars0 m0.
Proof. constructor; try done; [|auto]. intros x ?. exists x. split; [done|apply rtc_refl]. Qed.

Lemma In_union (s1 s2 : HashSet.t string) x : In x (HashSet.union s1 s2) <-> In x s1 \/ In x s2.
Proof. by rewrite <- !HashSet.contains_In, HashSet.contains_union, orb_true_iff. Qed.

Lemma in_unions (sets : list (HashSet.t string)) (vars : HashSet.t string) x :
  In x (foldl HashSet.union vars sets) <-> In x vars \/ exists s, In s sets /\ In x s.
Proof.
  revert vars. induction sets as [|s sets IH]; intros vars; cbn.
  - split; [auto|]. by intros [?|(? & [] & _)].
  - rewrite IH, In_union. split.
    + intros [[?|?]|(s' & ? & ?)]; [auto| |]; right; [exists s|exists s']; auto.
    + intros [?|(s' & [->|?] & ?)]; [auto|auto|]. right. by exists s'.
Qed.

Lemma sound_round_step vars m :
  sound_round vars m ->
  sound_round (foldl HashSet.union vars (fst (take_reached vars m))) (snd (take_reached vars m)).
Proof.
  intros [Hn Hs Hr Hsub Ht]. destruct (take_reached_map vars m Hn) as (Hn' & Hg & _).
  assert (Hedge : forall y x, edge (snd (take_reached vars m)) y x -> edge m y x).
  { intros y x (s & E & ?). rewrite Hg in E. destruct (HashSet.contains vars y); [done|]. by exists s. }
  constructor; [done| | | |].
  - intros x ?. apply in_unions. auto.
  - intros x [?|(y & Hy & He)%take_reached_sets]%in_unions; [auto| |done].
    destruct (Hr y Hy) as (z & ? & ?). exists z. split; [done|]. eapply rtc_r; [done|auto].
  - auto.
  - intros y x [He|?]%Ht; [|right; apply in_unions; auto].
    destruct (HashSet.contains vars y) eqn:Ey.
    + right. apply in_unions. right. apply take_reached_sets; [done|]. exists y. split; [|done].
      by apply HashSet.contains_In.
    + left. destruct He as (s & ? & ?). exists s. by rewrite Hg, Ey.
Qed.

Lemma sound_round_final vars m x :
  sound_round vars m -> fst (take_reached vars m) = [] -> In x vars <-> reachable x.
Proof.
  intros [Hn Hs Hr Hsub Ht] E. split; [auto|]. intros (y & Hy%Hs & Hyx).
  induction Hyx as [y|y z x Hyz _ IH]; [done|]. apply IH. destruct (Ht y z Hyz) as [He|?]; [|done].
  destruct (proj2 (take_reached_sets vars m z Hn)) as (s & Hin & _); [eauto|]. by rewrite E in Hin.
Qed.

Lemma reach_fixpoint_ok fuel vars m :
  sound_round vars m -> length m < fuel ->
  exists vars' m', reach_fixpoint fuel vars m = Some (vars', m') /\ forall x, In x vars' <-> reachable x.
Proof.
  revert vars m. induction fuel as [|fuel IH]; intros vars m Hi Hl; [lia|]. cbn.
  pose proof (sound_round_step vars m Hi) as Hi'. pose proof (sound_round_final vars m) as Hf.
  pose proof (take_reached_map vars m (round_nodup _ _ Hi)) as (_ & _ & Hlen).
  destruct (take_reached vars m) as [[|s sets] m'] eqn:E; cbn in *; [naive_solver|].
  apply IH; [exact Hi'|lia].
Qed.
End Rounds.

(** The loop terminates within its fuel, and gives exactly the variables
    reachable from the initial ones. *)
Lemma compute_fixpoint_reachable vars m :
  NoDup (HashMap.keys m) ->
  exists vars' m', compute_fixpoint vars m = Some (vars', m') /\ forall x, In x vars' <-> reachable vars m x.
Proof. intros Hnd. apply reach_fixpoint_ok; [by apply sound_round_start|lia]. Qed.

(** ** Walks that collect facts *)

#[local] Arguments walk_list : simpl never.

Section Adds.
Context {S F : Type} (ok : S -> Prop) (holds : S -> F -> Prop).

(** The walk does not panic and adds exactly the facts [G]. *)
Definition adds (G : F -> Prop) (w : Walk S) : Prop := forall s, ok s ->
  exists s', w s = Some s' /\ ok s' /\ forall f, holds s' f <-> holds s f \/ G f.

Lemma adds_ext (G1 G2 : F -> Prop) (w1 w2 : Walk S) :
  adds G1 w1 -> (forall f, G1 f <-> G2 f) -> (forall s, w2 s = w1 s) -> adds G2 w2.
Proof.
  intros H HG Hw s (s' & E & Hok & Hf)%H. exists s'. rewrite Hw. split_and!; [done|done|].
  intros f. by rewrite Hf, HG.
Qed.

Lemma adds_nop : adds (fun _ => False) walk_nop.
Proof. intros s ?. exists s. split_and!; [done|done|]. tauto. Qed.

Lemma adds_then G1 G2 w1 w2 : adds G1 w1 -> adds G2 w2 -> adds (fun f => G1 f \/ G2 f) (walk_then w1 w2).
Proof.
  intros H1 H2 s (s1 & E1 & Hok1 & Hf1)%H1. destruct (H2 s1 Hok1) as (s2 & E2 & Hok2 & Hf2).
  exists s2. unfold walk_then. rewrite E1. split_and!; [done|done|]. intros f. rewrite Hf2, Hf1. tauto.
Qed.

Lemma adds_list {A} (G : A -> F -> Prop) (w : A -> Walk S) (l : list A) :
  Forall (fun x => adds (G x) (w x)) l -> adds (fun f => exists x, In x l /\ G x f) (walk_list (map w l)).
Proof.
  induction 1 as [|x l Hx _ IH].
  - eapply adds_ext; [apply adds_nop| |done]. intros f. split; [done|]. by intros (? & [] & _).
  - eapply adds_ext; [exact (adds_then _ _ _ _ Hx IH)| |done]. intros f. cbn. split.
    + intros [?|(y & ? & ?)]; [by exists x; auto|by exists y; auto].
    + intros (y & [<-|?] & ?); [by left|right; by exists y].
Qed.

Lemma adds_all {A} (G : A -> F -> Prop) (w : A -> Walk S) (l : list A) :
  (forall x, adds (G x) (w x)) -> adds (fun f => exists x, In x l /\ G x f) (walk_list (map w l)).
Proof. intros H. apply adds_list, Forall_forall. auto. Qed.
End Adds.

Lemma collector_children {S} (g : Expr -> Walk S) es s :
  walk_list (map go (map (fun c => Child c (g c)) es)) s = walk_list (map g es) s.
Proof. by rewrite map_map. Qed.

Lemma collector_vars {S} (vars : list LocalVar) (s : S) : walk_list (map default_walk_local_var vars) s = Some s.
Proof. by induction vars. Qed.

(** The default methods walk the children, in order. *)
Lemma default_walk_children {S} (g : Expr -> Walk S) e s :
  default_walk_node default_walk_local_var (Node.of_expr (fun c => Child c (g c)) e) s
  = walk_list (map g (children e)) s.
Proof.
  destruct e; cbn [default_walk_node Node.of_expr children go]; unfold walk_then;
    rewrite ?collector_children, ?map_app, ?walk_list_app; cbn [map]; rewrite ?walk_list_cons, ?collector_vars;
    try done; repeat first
    [ done
    | progress cbn [mbind option_bind default_walk_local_var walk_nop]
    | progress rewrite ?walk_list_one, ?collector_vars
    | rewrite walk_list_cons
    | match goal with |- context [g ?c ?t] => destruct (g c t) end
    | match goal with |- context [walk_list (map g ?l) ?t] => destruct (walk_list (map g l) t) end ].
Qed.

(** ** What a method contains

    The specification of the collector: the expressions and assignments of a
    method, those of nested statements included. *)

Inductive Item : Type :=
  | AnExpr (expr : Expr)
  | AnAssignment (target source : Expr) (kind : AssignKind).

Fixpoint stmt_items (s : Stmt) : list Item :=
  match s with
  | Stmt.Comment _ | Stmt.Label _ | Stmt.BeginFrame | Stmt.EndFrame | Stmt.ExpireBorrows _ => []
  | Stmt.Inhale e | Stmt.Exhale e _ | Stmt.Assert e _ | Stmt.Obtain e _
  | Stmt.ApplyMagicWand e _ | Stmt.Downcast e _ => [AnExpr e]
  | Stmt.MethodCall _ es _ | Stmt.Fold _ es _ _ _ | Stmt.Unfold _ es _ _ => map AnExpr es
  | Stmt.Assign a b k => [AnAssignment a b k; AnExpr a; AnExpr b]
  | Stmt.TransferPerm a b _ => [AnExpr a; AnExpr b]
  | Stmt.PackageMagicWand w b _ _ _ => AnExpr w :: concat (map stmt_items b)
  | Stmt.If g t e => (AnExpr g :: concat (map stmt_items t) ++ concat (map stmt_items e))%list
  end.

Definition successor_items (succ : Successor) : list Item :=
  match succ with
  | Successor.GotoSwitch targets _ => map (fun t => AnExpr (fst t)) targets
  | _ => []
  end.

Definition block_items (block : CfgBlock) : list Item :=
  (concat (map stmt_items (CfgMethod.stmts block)) ++ successor_items (CfgMethod.successor block))%list.

Definition contains (method : CfgMethod) (item : Item) : Prop :=
  exists block, In block (CfgMethod.basic_blocks method) /\ In item (block_items block).

(** The variable occurs in the expression. *)
Definition mentions (e : Expr) (x : string) : Prop :=
  exists v p, In (Expr.Local v p) (subexprs e) /\ LocalVar.name v = x.

(** A field of a field of the variable occurs in the expression. *)
Definition dereferences (e : Expr) (x : string) : Prop :=
  exists v p f p' g p'', In (Expr.Field (Expr.Field (Expr.Local v p) f p') g p'') (subexprs e) /\ LocalVar.name v = x.

Definition is_reborrow (source : Expr) : Prop :=
  exists v p f p', source = Expr.Field (Expr.Local v p) f p' /\ Field.name f = "val_ref".

(** The assignment borrows into a field of the variable. *)
Definition borrows_into (target source : Expr) (kind : AssignKind) (x : string) : Prop :=
  (exists b, kind = AssignKind.SharedBorrow b \/ kind = AssignKind.MutableBorrow b)
  /\ (exists v p f p', target = Expr.Field (Expr.Local v p) f p' /\ LocalVar.name v = x)
  /\ ~ is_reborrow source.

Definition dereferenced (method : CfgMethod) (x : string) : Prop :=
  exists e, contains method (AnExpr e) /\ dereferences e x.

Definition borrowing (method : CfgMethod) (x : string) : Prop :=
  exists target source kind, contains method (AnAssignment target source kind) /\ borrows_into target source kind x.

(** An assignment to an expression with [y] from an expression with [x]. *)
Definition depends_on (method : CfgMethod) (y x : string) : Prop :=
  exists target source kind, contains method (AnAssignment target source kind) /\ mentions target y /\ mentions source x.

(** ** The facts the collector records *)

Inductive Fact : Type :=
  | Dereferenced (x : string)
  | Borrowing (x : string)
  | Dependency (y x : string)
  | Dependent (x y : string).

Definition recorded (c : VarDependencyCollector) (f : Fact) : Prop :=
  match f with
  | Dereferenced x => In x (VarDependencyCollector.dereferenced_variables c)
  | Borrowing x => In x (VarDependencyCollector.borrowing_variables c)
  | Dependency y x => edge (VarDependencyCollector.dependencies c) y x
  | Dependent x y => edge (VarDependencyCollector.dependents c) x y
  end.

Definition item_fact (item : Item) (f : Fact) : Prop :=
  match item, f with
  | AnExpr e, Dereferenced x => dereferences e x
  | AnAssignment target source kind, Borrowing x => borrows_into target source kind x
  | AnAssignment target source _, Dependency y x | AnAssignment target source _, Dependent x y =>
      mentions target y /\ mentions source x
  | _, _ => False
  end.

Definition distinct_keys (c : VarDependencyCollector) : Prop :=
  NoDup (HashMap.keys (VarDependencyCollector.dependencies c))
  /\ NoDup (HashMap.keys (VarDependencyCollector.dependents c)).

Lemma In_insert (s : HashSet.t string) x y : In y (HashSet.insert s x) <-> In y s \/ y = x.
Proof.
  rewrite <- !HashSet.contains_In, HashSet.contains_insert, orb_true_iff.
  pose proof (peq_eq (A := string) y x). tauto.
Qed.

Lemma concat_map_items {A B} (f : A -> list B) l y : In y (concat (map f l)) <-> exists x, In x l /\ In y (f x).
Proof. rewrite <- flat_map_concat_map. apply in_flat_map. Qed.

Lemma in_subexprs x e : In x (subexprs e) <-> e = x \/ exists c, In c (children e) /\ In x (subexprs c).
Proof. rewrite subexprs_eq. cbn. by rewrite concat_map_items. Qed.

Lemma mentions_children e x :
  (forall v p, e <> Expr.Local v p) -> mentions e x <-> exists c, In c (children e) /\ mentions c x.
Proof.
  intros Hne. unfold mentions. setoid_rewrite (in_subexprs _ e). split.
  - intros (v & p & [->|(c & ? & ?)] & ?); [by destruct (Hne v p)|]. exists c. eauto.
  - intros (c & ? & v & p & ? & ?). exists v, p. eauto.
Qed.

Lemma collect_variables_spec e :
  exists vars, collect_variables e = Some vars /\ forall x, In x vars <-> mentions e x.
Proof.
  assert (Ha : adds (fun _ => True) (fun (s : HashSet.t string) x => In x s) (mentions e) (run_walk variable_collector e)).
  { induction e as [e IH] using children_ind. destruct e as [v p| | | | | | | | | | | | | | | | | | | | | |].
    { intros s _. eexists. split_and!; [done|done|]. intros x. rewrite In_insert. unfold mentions. cbn. split.
      - intros [?| ->]; [by left|right]. exists v, p. auto.
      - intros [?|(v' & p' & [[= <- <-]|[]] & <-)]; auto. }
    all: eapply adds_ext; [exact (adds_list _ _ _ _ _ IH)| |
           intros s; rewrite run_walk_unfold; apply default_walk_children].
    all: intros x; by rewrite mentions_children. }
  destruct (Ha [] I) as (vars & E & _ & Hv). exists vars. split; [done|]. intros x. rewrite Hv. cbn. tauto.
Qed.

Lemma dereferences_children e x :
  (forall v p f p' g p'', e <> Expr.Field (Expr.Field (Expr.Local v p) f p') g p'') ->
  dereferences e x <-> exists c, In c (children e) /\ dereferences c x.
Proof.
  intros Hne. unfold dereferences. setoid_rewrite (in_subexprs _ e). split.
  - intros (v & p & f & p' & g & p'' & [->|(c & ? & ?)] & ?); [by edestruct Hne|]. exists c. split; [done|].
    by exists v, p, f, p', g, p''.
  - intros (c & ? & v & p & f & p' & g & p'' & ? & ?). exists v, p, f, p', g, p''. eauto.
Qed.

(** [e] is a field of a field of a local variable. *)
Definition double_field (e : Expr) : option LocalVar :=
  match e with Expr.Field (Expr.Field (Expr.Local v _) _ _) _ _ => Some v | _ => None end.

Lemma double_field_none e v p f p' g p'' :
  double_field e = None -> e <> Expr.Field (Expr.Field (Expr.Local v p) f p') g p''.
Proof. by intros ? ->. Qed.

Lemma dependency_node_default e s :
  double_field e = None ->
  run_walk dependency_collector e s = walk_list (map (run_walk dependency_collector) (children e)) s.
Proof.
  rewrite run_walk_unfold. destruct e as [| |r f p| | | | | | | | | | | | | | | | | | | |];
    try (intros _; exact (default_walk_children _ _ _)).
  cbn [children map]. rewrite walk_list_one. destruct r as [| |r f' p'| | | | | | | | | | | | | | | | | | | |]; try done.
  by destruct r.
Qed.

Lemma dependency_walk_adds e :
  adds distinct_keys recorded (item_fact (AnExpr e)) (run_walk dependency_collector e).
Proof.
  induction e as [e IH] using children_ind. destruct (double_field e) as [v|] eqn:E.
  - destruct e as [| |r g p''| | | | | | | | | | | | | | | | | | | |]; try done.
    destruct r as [| |r f p'| | | | | | | | | | | | | | | | | | | |]; try done. destruct r as [w p| | | | | | | | | | | | | | | | | | | | | |]; try done.
    injection E as ->. intros c Hc. eexists. split_and!; [done|done|]. intros [x|x|y x|x y]; cbn; try tauto.
    rewrite In_insert. unfold dereferences. cbn. split.
    + intros [?| ->]; [by left|right]. by exists v, p, f, p', g, p''; auto.
    + intros [?|(v' & ? & ? & ? & ? & ? & Hin & <-)]; [by left|right].
      destruct Hin as [[= -> _ _ _ _ _]|[|[|[]]]]; done.
  - eapply adds_ext; [exact (adds_list _ _ _ _ _ IH)| |intros s; by apply dependency_node_default].
    intros [x|x|y x|x y]; cbn; [|by split; [intros (? & _ & [])|done]..].
    rewrite (dereferences_children e); [done|]. intros. by apply double_field_none.
Qed.

(** ** Assignments *)

Lemma edge_extend vars m k y x : edge (extend_entry vars m k) y x <-> edge m y x \/ (y = k /\ In x vars).
Proof.
  unfold edge, extend_entry. rewrite HashMap.get_insert. destruct (y == k) eqn:E.
  - apply (peq_eq (A := string)) in E as ->. split.
    + intros (s & [= <-] & [Hx|Hx]%In_union); [|by right]. left. destruct (HashMap.get m k) as [s|]; [by exists s|done].
    + intros [(s & -> & Hx)|[_ Hx]]; eexists; (split; [done|]); apply In_union; auto.
  - split; [by left|]. intros [?|[-> _]]; [done|]. assert (k == k = true) by by apply (peq_eq (A := string)). congruence.
Qed.

Lemma edge_extend_all vars ks : forall m y x,
  edge (foldl (extend_entry vars) m ks) y x <-> edge m y x \/ (In y ks /\ In x vars).
Proof.
  induction ks as [|k ks IH]; intros m y x; cbn; [tauto|]. rewrite IH, edge_extend. naive_solver.
Qed.

Lemma extend_entries_nodup vars (m : HashMap.t string (HashSet.t string)) (ks : list string) :
  NoDup (HashMap.keys m) -> NoDup (HashMap.keys (foldl (extend_entry vars) m ks)).
Proof. revert m. induction ks as [|k ks IH]; intros m ?; cbn; [done|]. by apply IH, HashMap.nodup_insert. Qed.

Lemma borrowing_target_spec target source kind x :
  (exists v, borrowing_target target source kind = Some v /\ LocalVar.name v = x)
  <-> borrows_into target source kind x.
Proof.
  unfold borrows_into, is_reborrow. split.
  - intros (v & E & <-). destruct kind as [| |b|b|]; try done.
    all: destruct target as [| |t f p| | | | | | | | | | | | | | | | | | | |]; try done.
    all: destruct t as [w p'| | | | | | | | | | | | | | | | | | | | | |]; try done.
    all: assert (v = w) as -> by (cbn in E; repeat case_match; congruence).
    all: split; [by exists b; auto|]; split; [by eexists _, _, _, _|].
    all: intros (v & q & g & q' & -> & Hg); cbn in E.
    all: assert (Field.name g == "val_ref" = true) as Ht by (by apply (peq_eq (A := string))); by rewrite Ht in E.
  - intros ((b & Hk) & (v & p & f & p' & -> & <-) & Hr). exists v. split; [|done].
    assert (Hgo : match source with
                  | Expr.Field (Expr.Local _ _) g _ => if Field.name g == "val_ref" then None else Some v
                  | _ => Some v
                  end = Some v).
    { destruct source as [| |t g q| | | | | | | | | | | | | | | | | | | |]; try done.
      destruct t as [w q'| | | | | | | | | | | | | | | | | | | | | |]; try done.
      destruct (Field.name g == "val_ref") eqn:E; [|done]. apply (peq_eq (A := string)) in E.
      destruct Hr. by eexists _, _, _, _. }
    by destruct Hk as [-> | ->].
Qed.

Definition assignment_walk (target source : Expr) (kind : AssignKind) : Walk VarDependencyCollector := fun s =>
  ds ← collect_variables source;
  ts ← collect_variables target;
  Some (add_borrowing (borrowing_target target source kind) (add_dependencies ds ts s)).

Lemma assignment_adds target source kind :
  adds distinct_keys recorded (item_fact (AnAssignment target source kind)) (assignment_walk target source kind).
Proof.
  intros c [H1 H2]. unfold assignment_walk.
  destruct (collect_variables_spec source) as (ds & -> & Hds), (collect_variables_spec target) as (ts & -> & Hts).
  cbn [mbind option_bind]. eexists. split; [done|].
  pose proof (borrowing_target_spec target source kind) as Hb. destruct (borrowing_target target source kind) as [v|].
  all: split; [split; by apply extend_entries_nodup|].
  all: intros [x|x|y x|x y]; cbn; rewrite ?edge_extend_all, <- ?Hb, ?Hds, ?Hts; try tauto.
  - rewrite In_insert. split; [intros [?| ->]; eauto|]. intros [?|(v' & [= <-] & <-)]; auto.
  - split; [by left|]. by intros [?|(v' & ? & _)].
Qed.

(** ** Statements and methods *)

Definition item_walk (item : Item) : Walk VarDependencyCollector :=
  match item with
  | AnExpr e => run_walk dependency_collector e
  | AnAssignment target source kind => assignment_walk target source kind
  end.

Lemma item_adds item : adds distinct_keys recorded (item_fact item) (item_walk item).
Proof. destruct item; [apply dependency_walk_adds|apply assignment_adds]. Qed.

Lemma walk_exprs es s : walk_list (map item_walk (map AnExpr es)) s = walk_list (map (run_walk dependency_collector) es) s.
Proof. by rewrite map_map. Qed.

Lemma stmt_walk_items stmt : forall s,
  run_stmt_walk dependency_stmt_collector stmt s = walk_list (map item_walk (stmt_items stmt)) s.
Proof.
  assert (Hv : forall (vs : list LocalVar) (s : VarDependencyCollector),
    walk_list (map default_walk_local_var_of vs) s = Some s) by (induction vs; done).
  induction stmt as [| | | | | | | | | | | | |wd b l vs p IHb| | |g t e IHt IHe|] using Stmt_ind'; intros s;
    cbn [run_stmt_walk SNode.of_stmt dependency_stmt_collector walk_snode walk_stmt default_walk_snode stmt_items map];
    rewrite ?walk_list_one; try done; unfold walk_then; rewrite ?walk_exprs; try done.
  - destruct (walk_list _ s); [apply Hv|done].
  - rewrite walk_list_cons. change (item_walk (AnAssignment a b k) s) with (assignment_walk a b k s).
    fold (assignment_walk a b k s). destruct (assignment_walk a b k s) as [s1|]; [|done].
    cbn [mbind option_bind]. rewrite walk_list_cons. cbn [item_walk]. destruct (run_walk _ a s1); [|done]. cbn.
    by rewrite walk_list_one.
  - rewrite walk_list_cons. cbn [item_walk]. destruct (run_walk _ _ _); [cbn; by rewrite walk_list_one|done].
  - rewrite walk_list_cons. cbn [item_walk]. destruct (run_walk _ _ _) as [s'|]; [|done]. cbn. rewrite Hv. cbn.
    by apply walk_nested.
  - rewrite walk_list_cons. cbn [item_walk]. destruct (run_walk _ _ _) as [s'|]; [|done]. cbn.
    rewrite map_app, walk_list_app, <- (walk_nested dependency_stmt_collector stmt_items item_walk t IHt).
    destruct (walk_list _ s') as [s''|]; [|done]. by apply walk_nested.
Qed.

Lemma guards_walk_items succ s :
  walk_successor_guards (run_walk dependency_collector) succ s = walk_list (map item_walk (successor_items succ)) s.
Proof. destruct succ; try done. cbn. by rewrite map_map. Qed.

Lemma walk_method_adds method :
  adds distinct_keys recorded (fun f => exists item, contains method item /\ item_fact item f)
    (walk_method method dependency_stmt_collector dependency_collector).
Proof.
  assert (Hitems : forall items, adds distinct_keys recorded (fun f => exists item, In item items /\ item_fact item f)
                                   (walk_list (map item_walk items))) by (intros; apply adds_all, item_adds).
  set (facts_of := fun (items : list Item) f => exists item, In item items /\ item_fact item f).
  eapply adds_ext; [apply adds_then| |done].
  - apply (adds_all _ _ (fun block f => exists stmt, In stmt (CfgMethod.stmts block) /\ facts_of (stmt_items stmt) f)).
    intros block. apply (adds_all _ _ (fun stmt => facts_of (stmt_items stmt))). intros stmt.
    eapply adds_ext; [exact (Hitems (stmt_items stmt))|done|apply stmt_walk_items].
  - apply (adds_all _ _ (fun block => facts_of (successor_items (CfgMethod.successor block)))). intros block.
    eapply adds_ext; [exact (Hitems (successor_items (CfgMethod.successor block)))|done|].
    intros s. apply guards_walk_items.
  - intros f. unfold facts_of, contains, block_items. setoid_rewrite in_app_iff. setoid_rewrite concat_map_items. naive_solver.
Qed.

Lemma nothing_recorded f : ~ recorded VarDependencyCollector.default f.
Proof. destruct f; cbn; try tauto; by intros (? & ? & _). Qed.

(** The collector records the facts of the items, and nothing else. *)
Lemma collector_spec method :
  exists c, walk_method method dependency_stmt_collector dependency_collector VarDependencyCollector.default = Some c
    /\ distinct_keys c
    /\ (forall x, In x (VarDependencyCollector.dereferenced_variables c) <-> dereferenced method x)
    /\ (forall x, In x (VarDependencyCollector.borrowing_variables c) <-> borrowing method x)
    /\ (forall y x, edge (VarDependencyCollector.dependencies c) y x <-> depends_on method y x)
    /\ (forall x y, edge (VarDependencyCollector.dependents c) x y <-> depends_on method y x).
Proof.
  destruct (walk_method_adds method VarDependencyCollector.default) as (c & E & Hd & Hf); [by split; constructor|].
  exists c. split; [done|]. split; [done|].
  assert (Hrec : forall f, recorded c f <-> exists item, contains method item /\ item_fact item f).
  { intros f. rewrite Hf. split; [|auto]. by intros [[]%nothing_recorded|?]. }
  split_and!.
  - intros x. rewrite (Hrec (Dereferenced x)). split.
    + intros ([e|] & ? & ?); [by exists e|done].
    + intros (e & ? & ?). by exists (AnExpr e).
  - intros x. rewrite (Hrec (Borrowing x)). split.
    + intros ([|t s k] & ? & ?); [done|by exists t, s, k].
    + intros (t & s & k & ? & ?). by exists (AnAssignment t s k).
  - intros y x. rewrite (Hrec (Dependency y x)). split.
    + intros ([|t s k] & ? & ?); [done|by exists t, s, k].
    + intros (t & s & k & ? & ?). by exists (AnAssignment t s k).
  - intros x y. rewrite (Hrec (Dependent x y)). split.
    + intros ([|t s k] & ? & ?); [done|by exists t, s, k].
    + intros (t & s & k & ? & ?). by exists (AnAssignment t s k).
Qed.

(** ** The variables that are purified *)

Lemma filter_not_in (excluded l : HashSet.t string) x :
  In x (List.filter (fun var => negb (HashSet.contains excluded var)) l) <-> In x l /\ ~ In x excluded.
Proof. rewrite filter_In, negb_true_iff, <- not_true_iff_false, HashSet.contains_In. done. Qed.

(** A declared variable that is a reference. *)
Definition is_reference (method : CfgMethod) (x : string) : Prop :=
  exists v typ, In v (CfgMethod.local_vars method) /\ LocalVar.name v = x
    /\ LocalVar.typ v = Ty.TypedRef typ /\ starts_with typ "ref$" = true.

Lemma candidates_spec method x : In x (RefPurifier.candidates method) <-> is_reference method x.
Proof.
  unfold RefPurifier.candidates. rewrite <- HashSet.contains_In, HashSet.contains_from_list, existsb_exists. split.
  - intros (y & Hy & <-%(peq_eq (A := string))). apply list_elem_of_In, list_elem_of_omap in Hy as (v & Hv & E).
    apply list_elem_of_In in Hv. unfold RefPurifier.candidate in E. destruct (LocalVar.typ v) as [| | |typ| |] eqn:Et; try done.
    destruct (starts_with typ "ref$") eqn:Es; [|done]. injection E as <-. by exists v, typ.
  - intros (v & typ & Hv & <- & Et & Es). exists (LocalVar.name v). split; [|by apply (peq_eq (A := string))].
    apply list_elem_of_In, list_elem_of_omap. exists v. split; [by apply list_elem_of_In|].
    unfold RefPurifier.candidate. by rewrite Et, Es.
Qed.

Lemma reachable_spec vars m (start : string -> Prop) (step : string -> string -> Prop) x :
  (forall y, In y vars <-> start y) -> (forall y z, edge m y z <-> step y z) ->
  reachable vars m x <-> exists y, start y /\ rtc step y x.
Proof.
  intros Hs He. unfold reachable. split; intros (y & Hy & Hr); exists y; (split; [by apply Hs|]);
    (eapply rtc_subrel; [|exact Hr]; intros ? ?; apply He).
Qed.

(** C12. The references that `purify_method` purifies are exactly the declared variables of a
    type `ref$..` on which no dereferenced variable depends and that depend on no borrowing
    variable, in any number of steps. A variable is dereferenced if a field of a field of it
    occurs in an expression of the method; one variable depends on another if an assignment,
    also a nested one, has the first in its target and the second in its source; and a variable
    borrows if an assignment of kind borrow has a field of it as its target and is no reborrow
    through `val_ref`. The collector finds these, and both of its fixpoints end. *)
Theorem purifiable_variables method :
  exists vars, RefPurifier.purifiable method = Some vars
    /\ forall x, In x vars <->
         is_reference method x
         /\ ~ (exists d, dereferenced method d /\ rtc (depends_on method) d x)
         /\ ~ (exists b, borrowing method b /\ rtc (flip (depends_on method)) b x).
Proof.
  destruct (collector_spec method) as (c & E & [Hd Ht] & Hderef & Hborrow & Hdeps & Hdents). unfold RefPurifier.purifiable.
  destruct (compute_fixpoint_reachable (VarDependencyCollector.dereferenced_variables c) _ Hd) as (ds & md & E1 & Hds).
  destruct (compute_fixpoint_reachable (VarDependencyCollector.borrowing_variables c) _ Ht) as (bs & mb & E2 & Hbs).
  rewrite E. cbn [mbind option_bind]. unfold compute_dereferenced_variables_fixpoint. rewrite E1.
  cbn [mbind option_bind fst snd]. unfold compute_borrowing_variables_fixpoint.
  cbn [VarDependencyCollector.borrowing_variables VarDependencyCollector.dependents]. rewrite E2.
  cbn [mbind option_bind fst snd VarDependencyCollector.borrowing_variables VarDependencyCollector.dereferenced_variables].
  eexists. split; [done|]. intros x. rewrite !filter_not_in, Hds, Hbs, candidates_spec.
  rewrite (reachable_spec _ _ _ _ x Hderef Hdeps), (reachable_spec _ _ _ (flip (depends_on method)) x Hborrow); [tauto|].
  intros y z. apply Hdents.
Qed.

(** [b] is dereferenced and copied from [c]; [e] borrows and [f] is copied
    from [e]; only [a] and its copy [d] are purified. *)
Example purified_of_six :
  let ref_to x := LocalVar.new x (Ty.TypedRef "ref$i32") in
  let val x := Expr.Field (expr_of_var (ref_to x)) (Field.new "val_ref" (Ty.TypedRef "i32")) Position.default in
  let int x := Expr.Field (val x) (Field.new "val_int" Ty.Int) Position.default in
  let copy x y := Stmt.Assign (val x) (val y) AssignKind.Copy in
  let method := CfgMethod.make 7%Z "m" 0 [] (map ref_to ["a"; "b"; "c"; "d"; "e"; "f"]) [] []
    [ CfgMethod.make_block
        [ copy "b" "c"; copy "d" "a"; copy "f" "e";
          Stmt.Assign (val "e") (expr_of_var (LocalVar.new "x" (Ty.TypedRef "i32"))) (AssignKind.SharedBorrow (Borrow.from 0));
          Stmt.Assert (Expr.BinOp BinOpKind.EqCmp (int "b") (int "b") Position.default) Position.default ] Successor.Return ] ["start"] 0%Z 0%Z in
  RefPurifier.purifiable method = Some ["a"; "d"].
Proof. vm_compute. reflexivity. Qed.
