(* ===== verification/Specs.v ===== *)
(** * Specifications of Rust code

    [prusti-specs/src/specifications/common.rs]: assertions and the records
    built from them, over the types of expression identifiers, expressions
    and arguments.  An [Assertion] holds its [AssertionKind] in a box and
    nothing else, so the two are one inductive type here.  Identifiers of
    specifications are 128-bit numbers ([Uuid]); printing and parsing them is
    the crate [uuid]. *)

From S2P Require Import Prelude Collections.

Definition SpecificationId : Type := Z.
Definition ExpressionId : Type := Z.

Module SpecType.
Inductive SpecType : Type := Precondition | Postcondition | Invariant | Predicate.

Inductive TryFromStringError : Type := UnknownSpecificationType.

Definition try_from (typ : string) : TryFromStringError + SpecType :=
  if typ == "requires" then inr Precondition
  else if typ == "ensures" then inr Postcondition
  else if typ == "invariant" then inr Invariant
  else if typ == "predicate" then inr Predicate
  else inl UnknownSpecificationType.
End SpecType.
Abbreviation SpecType := SpecType.SpecType.

Module SpecIdRef.
Inductive SpecIdRef : Type :=
  | Precondition (spec_id : SpecificationId)
  | Postcondition (spec_id : SpecificationId)
  | Pledge (lhs : option SpecificationId) (rhs : SpecificationId)
  | Predicate (spec_id : SpecificationId).
End SpecIdRef.
Abbreviation SpecIdRef := SpecIdRef.SpecIdRef.

(** [SpecificationId::dummy]: [Uuid::nil()]. *)
Definition dummy : SpecificationId := 0%Z.

(** [ExpressionIdGenerator]: the state is [last_id: u64]. *)
Definition expression_id_generator : Z := 100%Z.

Definition wrap_u64 (z : Z) : Z := (z mod 2 ^ 64)%Z.

Definition generate_expression_id {E} : ST Z E ExpressionId := fun last_id =>
  Val (wrap_u64 (last_id + 1), wrap_u64 (last_id + 1)).

(** [Display for SpecificationId] and [TryFrom<String>]: the crate [uuid]. *)
Class UuidCrate := {
  (** [to_simple().encode_lower(..)] *)
  uuid_simple : Z -> string;
  (** [Uuid::parse_str] *)
  uuid_parse_str : string -> option Z
}.

Module Spec.
Section Data.
Context {EID ET AT : Type}.

Record Expression : Type := make_expression { spec_id : SpecificationId; id : EID; expr : ET }.

Record Trigger : Type := make_trigger { terms : list Expression }.
Record TriggerSet : Type := make_trigger_set { triggers : list Trigger }.

Record QuantifierVars : Type := make_vars { vars_spec_id : SpecificationId; vars_id : EID; vars : list AT }.

Record SpecEntailmentVars : Type := make_entailment_vars {
  entailment_spec_id : SpecificationId;
  pre_id : EID;
  post_id : EID;
  args : list AT;
  result : AT
}.

Inductive Assertion : Type :=
  | Expr (expression : Expression)
  | And (assertions : list Assertion)
  | Implies (lhs rhs : Assertion)
  | TypeCond (vars : QuantifierVars) (body : Assertion)
  | ForAll (vars : QuantifierVars) (triggers : TriggerSet) (body : Assertion)
  | Exists (vars : QuantifierVars) (triggers : TriggerSet) (body : Assertion)
  | SpecEntailment (closure : Expression) (arg_binders : SpecEntailmentVars) (pres posts : list Assertion).

Record Pledge : Type := make_pledge { reference : option Expression; lhs : option Assertion; rhs : Assertion }.

Record Specification : Type := make_specification { typ : SpecType; assertion : Assertion }.

Record LoopSpecification : Type := make_loop { invariant : list Assertion }.

Definition loop_empty : LoopSpecification := make_loop [].
Definition loop_is_empty (self : LoopSpecification) : bool := Nat.eqb (length (invariant self)) 0.

Record ProcedureSpecification : Type := make_procedure {
  pres : list Assertion;
  posts : list Assertion;
  pledges : list Pledge;
  predicate_body : option Assertion;
  pure : bool;
  trusted : bool
}.

Definition procedure_new (pres posts : list Assertion) (pledges : list Pledge) (predicate_body : option Assertion) :
    ProcedureSpecification := make_procedure pres posts pledges predicate_body false false.

Definition procedure_empty : ProcedureSpecification := procedure_new [] [] [] None.

Definition is_nil {A} (l : list A) : bool := match l with [] => true | _ => false end.
Definition is_none {A} (o : option A) : bool := match o with None => true | _ => false end.

Definition procedure_is_empty (self : ProcedureSpecification) : bool :=
  is_nil (pres self) && is_nil (posts self) && is_none (predicate_body self).

Definition refine (self other : ProcedureSpecification) : ProcedureSpecification :=
  make_procedure
    (if is_nil (pres other) then pres self else pres other)
    (if is_nil (posts other) then posts self else posts other)
    (if is_nil (pledges other) then pledges self else pledges other)
    (if is_none (predicate_body other) then predicate_body self else predicate_body other)
    (pure other) (trusted other).

Inductive SpecificationSet : Type :=
  | Procedure (spec : ProcedureSpecification)
  | Loop (invs : LoopSpecification)
  | Struct (invs : list Specification).

Definition set_is_empty (self : SpecificationSet) : bool :=
  match self with
  | Procedure spec => procedure_is_empty spec
  | Loop invs => loop_is_empty invs
  | Struct invs => is_nil invs
  end.

Definition expect_procedure (self : SpecificationSet) : option ProcedureSpecification :=
  match self with Procedure spec => Some spec | _ => None end.
Definition expect_loop (self : SpecificationSet) : option LoopSpecification :=
  match self with Loop spec => Some spec | _ => None end.
Definition expect_struct (self : SpecificationSet) : option (list Specification) :=
  match self with Struct spec => Some spec | _ => None end.

Section AssertionInd.
Context (P : Assertion -> Prop).
Context (HExpr : forall e, P (Expr e)).
Context (HAnd : forall l, Forall P l -> P (And l)).
Context (HImplies : forall a b, P a -> P b -> P (Implies a b)).
Context (HTypeCond : forall vs b, P b -> P (TypeCond vs b)).
Context (HForAll : forall vs ts b, P b -> P (ForAll vs ts b)).
Context (HExists : forall vs ts b, P b -> P (Exists vs ts b)).
Context (HEntailment : forall c vs l1 l2, Forall P l1 -> Forall P l2 -> P (SpecEntailment c vs l1 l2)).

Fixpoint Assertion_ind' (a : Assertion) : P a :=
  match a with
  | Expr e => HExpr e
  | And l => HAnd l (Forall_of P Assertion_ind' l)
  | Implies a b => HImplies a b (Assertion_ind' a) (Assertion_ind' b)
  | TypeCond vs b => HTypeCond vs b (Assertion_ind' b)
  | ForAll vs ts b => HForAll vs ts b (Assertion_ind' b)
  | Exists vs ts b => HExists vs ts b (Assertion_ind' b)
  | SpecEntailment c vs l1 l2 =>
      HEntailment c vs l1 l2 (Forall_of P Assertion_ind' l1) (Forall_of P Assertion_ind' l2)
  end.
End AssertionInd.
End Data.
#[global] Arguments Expression : clear implicits.
#[global] Arguments Trigger : clear implicits.
#[global] Arguments TriggerSet : clear implicits.
#[global] Arguments QuantifierVars : clear implicits.
#[global] Arguments SpecEntailmentVars : clear implicits.
#[global] Arguments Assertion : clear implicits.
#[global] Arguments Pledge : clear implicits.
#[global] Arguments Specification : clear implicits.
#[global] Arguments LoopSpecification : clear implicits.
#[global] Arguments ProcedureSpecification : clear implicits.
#[global] Arguments SpecificationSet : clear implicits.
End Spec.

(** Assertions with a condition on a type are not implemented: the traversals
    panic there. *)
Fixpoint implemented {EID ET AT} (a : Spec.Assertion EID ET AT) : bool :=
  match a with
  | Spec.Expr _ => true
  | Spec.And l => forallb implemented l
  | Spec.Implies lhs rhs => implemented lhs && implemented rhs
  | Spec.TypeCond _ _ => false
  | Spec.ForAll _ _ body | Spec.Exists _ _ body => implemented body
  | Spec.SpecEntailment _ _ pres posts => forallb implemented pres && forallb implemented posts
  end.
