(* ===== verification/Preparser.v ===== *)
(** * The parser of Prusti assertions

    [prusti-specs/src/specifications/preparser.rs]: a recursive-descent
    parser over token trees, which leaves Rust expressions and arguments to
    the crate [syn].  Spans and their [join] are the compiler's
    ([ProcMacroCrate]), and the parsers of [syn] are arguments ([SynCrate]).
    The only recursive function is [parse_prusti]: the other functions take
    it as an argument, and it runs with the size of the remaining tokens as
    its fuel. *)

From S2P Require Import Prelude Collections Specs.

(** ** Token trees *)

Class ProcMacroCrate := {
  Span : Type;
  (** [Span::join]: [None] if the spans are not of the same file. *)
  span_join : Span -> Span -> option Span;
  call_site : Span
}.

Module Delimiter.
Inductive Delimiter : Type := Parenthesis | Brace | Bracket | None_.
Definition eqb (a b : Delimiter) : bool :=
  match a, b with
  | Parenthesis, Parenthesis | Brace, Brace | Bracket, Bracket | None_, None_ => true
  | _, _ => false
  end.
End Delimiter.
Abbreviation Delimiter := Delimiter.Delimiter.

Module Token.
Section Token.
Context `{ProcMacroCrate}.

(** A punctuation token holds one character. *)
Inductive TokenTree : Type :=
  | Group (delimiter : Delimiter) (stream : list TokenTree) (span : Span)
  | Ident (name : string) (span : Span)
  | Punct (char : Ascii.ascii) (span : Span)
  | Literal (text : string) (span : Span).

Definition span (self : TokenTree) : Span :=
  match self with Group _ _ s | Ident _ s | Punct _ s | Literal _ s => s end.

(** The number of tokens, those of groups included. *)
Fixpoint size (t : TokenTree) : nat :=
  match t with
  | Group _ stream _ => S (list_sum (map size stream))
  | _ => 1
  end.
End Token.
End Token.
Abbreviation TokenTree := Token.TokenTree.

Definition stream_size `{ProcMacroCrate} (tokens : list TokenTree) : nat := list_sum (map Token.size tokens).
#[global] Arguments stream_size {_} tokens : simpl never.

(** ** Operators in a stream *)

Section Operators.
Context `{ProcMacroCrate}.
Implicit Types (stream : list TokenTree) (operator : string).

Definition is_char (c : Ascii.ascii) (t : option TokenTree) : bool :=
  match t with
  | Some (Token.Punct char _) => Ascii.eqb char c
  | _ => false
  end.

Fixpoint peek_operator_stream_offset stream operator (offset : nat) : bool :=
  match operator with
  | EmptyString => true
  | String c operator' =>
      if is_char c (stream !! offset) then peek_operator_stream_offset stream operator' (S offset) else false
  end.

Definition operator_span_offset stream operator (offset : nat) : option Span :=
  first ← stream !! offset;
  last ← stream !! (offset + String.length operator - 1);
  span_join (Token.span first) (Token.span last).

(** Does the operator appear in the stream at top level? *)
Definition contains_operator stream operator : bool :=
  existsb (peek_operator_stream_offset stream operator) (seq 0 (length stream)).

(** [for (offset, token) in stream.iter().enumerate()], until a visit finds
    something; a visit may panic. *)
Definition find_token {A} (visit : nat -> TokenTree -> option (option A)) : nat -> list TokenTree -> option (option A) :=
  fix go offset rest :=
    match rest with
    | [] => Some None
    | token :: rest' =>
        hit ← visit offset token;
        match hit with
        | Some a => Some (Some a)
        | None => go (S offset) rest'
        end
    end.

Definition visit_operator (nested : TokenTree -> option (option Span)) operator stream (offset : nat) (token : TokenTree) :
    option (option Span) :=
  if peek_operator_stream_offset stream operator offset
  then s ← operator_span_offset stream operator offset; Some (Some s)
  else nested token.

Fixpoint group_contains_operator operator (token : TokenTree) : option (option Span) :=
  match token with
  | Token.Group _ stream _ =>
      find_token (fun offset token => visit_operator (group_contains_operator operator) operator stream offset token) 0 stream
  | _ => Some None
  end.

(** Does the operator appear in the stream anywhere? *)
Definition contains_operator_recursive stream operator : option (option Span) :=
  find_token (visit_operator (group_contains_operator operator) operator stream) 0 stream.

(** The loop of [contains_both_and_or] with its two variables. *)
Definition scan_and_or (nested : TokenTree -> option (option Span)) stream :
    nat -> list TokenTree -> option Span -> option Span -> option (option Span) :=
  fix go offset rest and_span or_span :=
    match rest with
    | [] => Some None
    | token :: rest' =>
        let continue and_span or_span :=
          match and_span, or_span with
          | Some a_s, Some o_s => s ← span_join a_s o_s; Some (Some s)
          | _, _ => go (S offset) rest' and_span or_span
          end in
        if peek_operator_stream_offset stream "&&" offset then
          s ← operator_span_offset stream "&&" offset; continue (Some s) or_span
        else if peek_operator_stream_offset stream "||" offset then
          s ← operator_span_offset stream "||" offset; continue and_span (Some s)
        else if peek_operator_stream_offset stream "==>" offset then continue None None
        else
          inner ← nested token;
          match inner with
          | Some s => Some (Some s)
          | None => continue and_span or_span
          end
    end.

Fixpoint group_contains_both (token : TokenTree) : option (option Span) :=
  match token with
  | Token.Group Delimiter.Parenthesis stream _ => scan_and_or group_contains_both stream 0 stream None None
  | _ => Some None
  end.

Definition contains_both_and_or stream : option (option Span) :=
  scan_and_or group_contains_both stream 0 stream None None.
End Operators.

(** ** The parsers of [syn] *)

Section SynData.
Context `{ProcMacroCrate}.

(** [syn::Ident]. *)
Record Ident : Type := make_ident { ident_name : string; ident_span : Span }.
End SynData.

Class SynCrate `{ProcMacroCrate} := {
  (** the errors of the parsers of [syn] *)
  ForeignError : Type;
  foreign_span : ForeignError -> Span;
  SynExpr : Type;
  SynType : Type;
  expr_span : SynExpr -> Span;
  (** [if let syn::Expr::Tuple(tuple) = item]: [tuple.elems] *)
  as_tuple : SynExpr -> option (list SynExpr);
  (** [input.parse()] at the types of the source *)
  parse_ident : list TokenTree -> ForeignError + (Ident * list TokenTree);
  parse_colon : list TokenTree -> ForeignError + (unit * list TokenTree);
  parse_type : list TokenTree -> ForeignError + (SynType * list TokenTree);
  parse_expr : list TokenTree -> ForeignError + (SynExpr * list TokenTree);
  (** [syn::ExprArray]: its elements *)
  parse_expr_array : list TokenTree -> ForeignError + (list SynExpr * list TokenTree);
  (** [parse_terminated] with [Token![,]] *)
  parse_terminated : forall {A}, (list TokenTree -> ForeignError + (A * list TokenTree)) ->
    list TokenTree -> ForeignError + (list A * list TokenTree);
  (** [syn::parse2] *)
  parse2 : forall {A}, (list TokenTree -> ForeignError + (A * list TokenTree)) -> list TokenTree -> ForeignError + A
}.

Module Error.
Section Error.
Context `{SynCrate}.
Inductive Error : Type :=
  | New (span : Span) (message : string)
  | Foreign (e : ForeignError).
End Error.
End Error.
Abbreviation Error := Error.Error.

Module Arg.
Record Arg `{SynCrate} : Type := make { name : Ident; typ : SynType }.
#[global] Arguments make {_ _}.
End Arg.
Abbreviation Arg := Arg.Arg.

(** ** The state of the parser *)

Module Parser.
Record Parser `{ProcMacroCrate} : Type := make {
  tokens : list TokenTree;
  last_span : option Span;
  source_span : option Span
}.
#[global] Arguments make {_}.
End Parser.
Abbreviation Parser := Parser.Parser.

Section Preparser.
Context `{SynCrate}.

Abbreviation Assertion := (Spec.Assertion unit SynExpr Arg).
Abbreviation Expression := (Spec.Expression unit SynExpr).
Abbreviation Pledge := (Spec.Pledge unit SynExpr Arg).
Abbreviation P := (ST Parser Error).

(** [impl Parse for Arg]. *)
Definition parse_arg (input : list TokenTree) : ForeignError + (Arg * list TokenTree) :=
  match parse_ident input with
  | inl e => inl e
  | inr (name, input) =>
      match parse_colon input with
      | inl e => inl e
      | inr (_, input) =>
          match parse_type input with
          | inl e => inl e
          | inr (typ, input) => inr (Arg.make name typ, input)
          end
      end
  end.

(** [impl Parse for ForAllArgs] and [for SpecEntArgs]. *)
Definition parse_args : list TokenTree -> ForeignError + (list Arg * list TokenTree) := parse_terminated parse_arg.

Definition from_token_stream (tokens : list TokenTree) : Parser := Parser.make tokens None None.

Definition from_token_stream_last_span (self : Parser) (tokens : list TokenTree) : Parser :=
  Parser.make tokens None (Parser.last_span self).

(** Parse a nested stream with a parser of its own. *)
Definition in_stream {A} (tokens : list TokenTree) (p : P A) : P A := fun self =>
  match p (from_token_stream_last_span self tokens) with
  | Val (a, _) => Val (a, self)
  | Err e => Err e
  | Panic => Panic
  end.

Definition of_syn {A} (r : ForeignError + A) : P A :=
  match r with
  | inl e => fail (Error.Foreign e)
  | inr a => mret a
  end.

(** *** Errors *)

Definition get_error_span (self : Parser) : Span :=
  match Parser.last_span self, Parser.tokens self, Parser.source_span self with
  | Some span, _, _ => span
  | None, token :: _, _ => Token.span token
  | None, [], Some span => span
  | None, [], None => call_site
  end.

Definition error_at_token {A} (message : string) : P A := fun self => Err (Error.New (get_error_span self) message).

Definition error_expected {A} (what : string) : P A := error_at_token ("expected " ++ what).
Definition error_no_quantifier_arguments {A} : P A := error_at_token "a quantifier must have at least one argument".
Definition error_expected_tuple (span : Span) : Error :=
  Error.New span "`triggers` must be an array of tuples containing Rust expressions".
Definition error_unexpected {A} : P A := error_at_token "unexpected token".
Definition error_no_implies (span : Span) : Error := Error.New span "`==>` cannot be part of Rust expression".
Definition error_ambiguous_expression (span : Span) : Error :=
  Error.New span ("found `||` and `&&` in the same subexpression. "
    ++ "Hint: add parentheses to clarify the evaluation order.").

(** *** Looking at and consuming tokens *)

Definition peek_operator (operator : string) (tokens : list TokenTree) : bool :=
  peek_operator_stream_offset tokens operator 0.

Definition peek_keyword (keyword : string) (tokens : list TokenTree) : bool :=
  match tokens with
  | Token.Ident ident _ :: _ => ident == keyword
  | _ => false
  end.

Definition peek_group (delimiter : Delimiter) (tokens : list TokenTree) : bool :=
  match tokens with
  | Token.Group d _ _ :: _ => Delimiter.eqb delimiter d
  | _ => false
  end.

Definition peek (test : list TokenTree -> bool) : P bool := s ← get_st; mret (test (Parser.tokens s)).

(** [reduce(|span_a, span_b| span_a.join(span_b).unwrap())]. *)
Definition reduce_spans (spans : list Span) : option (option Span) :=
  match spans with
  | [] => Some None
  | s :: rest =>
      joined ← foldl (fun acc b => a ← acc; span_join a b) (Some s) rest;
      Some (Some joined)
  end.

Definition consume_operator (operator : string) : P bool := fun self =>
  if peek_operator operator (Parser.tokens self) then
    let n := String.length operator in
    match reduce_spans (map Token.span (take n (Parser.tokens self))) with
    | Some span => Val (true, Parser.make (drop n (Parser.tokens self)) span (Parser.source_span self))
    | None => Panic
    end
  else Val (false, self).

(** [pop]: the next token, which becomes the last one seen. *)
Definition pop : P (option TokenTree) := fun self =>
  match Parser.tokens self with
  | token :: rest => Val (Some token, Parser.make rest (Some (Token.span token)) (Parser.source_span self))
  | [] => Val (None, self)
  end.

Definition consume_keyword (keyword : string) : P bool :=
  found ← peek (peek_keyword keyword);
  if (found : bool) then _ ← pop; mret true else mret false.

(** [consume_group]: the stream of the group. *)
Definition consume_group (delimiter : Delimiter) : P (option (list TokenTree)) := fun self =>
  match Parser.tokens self with
  | Token.Group d stream span :: rest =>
      if Delimiter.eqb delimiter d then Val (Some stream, Parser.make rest (Some span) (Parser.source_span self))
      else Val (None, self)
  | _ => Val (None, self)
  end.

(** Pop tokens until [stop] holds of the remaining ones. *)
Fixpoint split_until (stop : list TokenTree -> bool) (tokens : list TokenTree) : list TokenTree * list TokenTree :=
  match tokens with
  | [] => ([], [])
  | token :: rest =>
      if stop tokens then ([], tokens)
      else let '(taken, remaining) := split_until stop rest in (token :: taken, remaining)
  end.

(** The span of the last of these tokens, if there is one. *)
Definition last_span_of (taken : list TokenTree) (before : option Span) : option Span :=
  match last taken with
  | Some token => Some (Token.span token)
  | None => before
  end.

Definition pop_until (stop : list TokenTree -> bool) : P (list TokenTree) := fun self =>
  let '(taken, remaining) := split_until stop (Parser.tokens self) in
  Val (taken, Parser.make remaining (last_span_of taken (Parser.last_span self)) (Parser.source_span self)).

Definition create_stream_until (delimiter : string) : P (list TokenTree) := pop_until (peek_operator delimiter).
Definition create_stream_remaining : P (list TokenTree) := pop_until (fun _ => false).

(** *** Rust expressions *)

Definition new_expression (e : SynExpr) : Expression := Spec.make_expression dummy tt e.

Definition ends_rust (terminator : string) (tokens : list TokenTree) : bool :=
  peek_operator "|=" tokens || peek_operator "&&" tokens || peek_operator "==>" tokens || peek_operator terminator tokens.

Definition parse_rust_until (terminator : string) : P Expression :=
  t ← pop_until (ends_rust terminator);
  implies ← lift (contains_operator_recursive t "==>");
  match implies with
  | Some span => fail (error_no_implies span)
  | None =>
      match t with
      | [] => error_expected "expression"
      | _ => expr ← of_syn (parse2 parse_expr t); mret (new_expression expr)
      end
  end.

(** Is there any non-Prusti operator following the first thing? *)
Definition is_part_of_rust_expr (tokens : list TokenTree) : bool :=
  match tokens with
  | [] => false
  | _ :: rest =>
      negb (peek_operator "|=" rest || peek_operator "&&" rest || peek_operator "==>" rest
            || match rest with [] => true | _ => false end)
  end.

(** No token may be left. *)
Definition at_end {A} (a : A) : P A :=
  rest ← pop;
  match rest with
  | Some _ => error_unexpected
  | None => mret a
  end.

(** *** The grammar, over the parser of Prusti expressions *)

Section Grammar.
Context (parse_prusti : P Assertion).

Definition extract_assertion : P Assertion :=
  s ← get_st;
  match Parser.tokens s with
  | [] => mret (Spec.And [])
  | tokens =>
      ambiguous ← lift (contains_both_and_or tokens);
      match ambiguous with
      | Some span => fail (error_ambiguous_expression span)
      | None =>
          expr ← parse_prusti;
          at_end expr
      end
  end.

(** One item of the triggers: a tuple. *)
Definition trigger_of (item : SynExpr) : P (Spec.Trigger unit SynExpr) :=
  match as_tuple item with
  | Some elems => mret (Spec.make_trigger (map new_expression elems))
  | None => fail (error_expected_tuple (expr_span item))
  end.

Definition parse_triggers : P (Spec.TriggerSet unit SynExpr) :=
  comma ← consume_operator ",";
  if (comma : bool) then
    found ← consume_keyword "triggers";
    if negb found then error_expected "`triggers`"
    else
      found ← consume_operator "=";
      if negb found then error_expected "`=`"
      else
        stream ← create_stream_remaining;
        match parse2 parse_expr_array stream with
        | inl err => fail (error_expected_tuple (foreign_span err))
        | inr elems => ts ← sequence (map trigger_of elems); mret (Spec.make_trigger_set ts)
        end
  else mret (Spec.make_trigger_set []).

Definition extract_quantifier_rhs (exists_ : bool) : P Assertion :=
  bar ← consume_operator "|";
  if negb bar then error_expected "`|`"
  else
    arg_tokens ← create_stream_until "|";
    match arg_tokens with
    | [] => error_no_quantifier_arguments
    | _ =>
        vars ← of_syn (parse2 parse_args arg_tokens);
        bar ← consume_operator "|";
        if negb bar then error_expected "`|`"
        else
          body ← parse_prusti;
          trigger_set ← parse_triggers;
          let vars := Spec.make_vars dummy tt vars in
          mret (if (exists_ : bool) then Spec.Exists vars trigger_set body else Spec.ForAll vars trigger_set body)
    end.

Definition parse_quantifier (exists_ : bool) : P Assertion :=
  stream ← consume_group Delimiter.Parenthesis;
  match stream with
  | Some stream => in_stream stream (extract_quantifier_rhs exists_)
  | None => error_expected "`(`"
  end.

(** Parse a paren-delimited expression or a quantifier. *)
Definition parse_primary : P Assertion :=
  stream ← consume_group Delimiter.Parenthesis;
  match stream with
  | Some stream => in_stream stream extract_assertion
  | None =>
      forall_ ← consume_keyword "forall";
      if (forall_ : bool) then parse_quantifier false
      else
        exists_ ← consume_keyword "exists";
        if (exists_ : bool) then parse_quantifier true else error_expected "`(`, `forall` or `exists`"
  end.

(** The argument of [requires] or [ensures]. *)
Definition parse_condition : P Assertion :=
  stream ← consume_group Delimiter.Parenthesis;
  match stream with
  | Some stream => in_stream stream extract_assertion
  | None => error_expected "`(`"
  end.

(** The loop of [extract_entailment_rhs]; every iteration consumes a token. *)
Fixpoint entailment_loop (fuel : nat) (first : bool) (pres posts : list Assertion) : P (list Assertion * list Assertion) :=
  match fuel with
  | 0 => panic
  | S fuel =>
      s ← get_st;
      match Parser.tokens s with
      | [] => mret (pres, posts)
      | _ =>
          next ← (if first : bool then mret true else consume_operator ",");
          if negb next then error_expected "`,`"
          else
            requires ← consume_keyword "requires";
            if (requires : bool) then pre ← parse_condition; entailment_loop fuel false (pres ++ [pre])%list posts
            else
              ensures ← consume_keyword "ensures";
              if (ensures : bool) then post ← parse_condition; entailment_loop fuel false pres (posts ++ [post])%list
              else error_expected "`requires` or `ensures`"
      end
  end.

(** The argument for the result, of type [i32]. *)
Definition result_arg : P Arg :=
  match parse2 parse_type [Token.Ident "i32" call_site] with
  | inr typ => mret (Arg.make (make_ident "result" call_site) typ)
  | inl _ => panic
  end.

Definition extract_entailment_rhs (lhs : Expression) (vars : list Arg) : P Assertion :=
  s ← get_st;
  conditions ← entailment_loop (S (stream_size (Parser.tokens s))) true [] [];
  result ← result_arg;
  mret (Spec.SpecEntailment lhs (Spec.make_entailment_vars dummy tt tt vars result) (fst conditions) (snd conditions)).

(** The arguments of an entailment, between bars. *)
Definition parse_entailment_args : P (list Arg) :=
  bar ← consume_operator "|";
  if (bar : bool) then
    arg_tokens ← create_stream_until "|";
    all_args ← of_syn (parse2 parse_args arg_tokens);
    bar ← consume_operator "|";
    if negb bar then error_expected "`|`" else mret all_args
  else mret [].

Definition starts_primary (tokens : list TokenTree) : bool :=
  (peek_group Delimiter.Parenthesis tokens && negb (is_part_of_rust_expr tokens))
  || peek_keyword "forall" tokens || peek_keyword "exists" tokens.

Definition parse_entailment : P Assertion :=
  primary ← peek starts_primary;
  if (primary : bool) then parse_primary
  else
    lhs ← parse_rust_until ",";
    entails ← consume_operator "|=";
    if (entails : bool) then
      vars ← parse_entailment_args;
      stream ← consume_group Delimiter.Bracket;
      match stream with
      | Some stream => in_stream stream (extract_entailment_rhs lhs vars)
      | None => error_expected "`[`"
      end
    else mret (Spec.Expr lhs).

(** [while self.consume_operator("&&")]; every iteration consumes tokens. *)
Fixpoint more_conjuncts (fuel : nat) (conjuncts : list Assertion) : P (list Assertion) :=
  match fuel with
  | 0 => panic
  | S fuel =>
      more ← consume_operator "&&";
      if (more : bool) then conjunct ← parse_entailment; more_conjuncts fuel (conjuncts ++ [conjunct])%list
      else mret conjuncts
  end.

Definition parse_conjunction : P Assertion :=
  first ← parse_entailment;
  s ← get_st;
  conjuncts ← more_conjuncts (S (stream_size (Parser.tokens s))) [first];
  match conjuncts with
  | [conjunct] => mret conjunct
  | _ => mret (Spec.And conjuncts)
  end.

Definition parse_prusti_body : P Assertion :=
  lhs ← parse_conjunction;
  implies ← consume_operator "==>";
  if (implies : bool) then rhs ← parse_prusti; mret (Spec.Implies lhs rhs) else mret lhs.

Definition parse_pledge_assertion_only : P (option Expression * Assertion) :=
  arrow ← peek (fun tokens => contains_operator tokens "=>");
  reference ← (if arrow : bool then
                 reference ← parse_rust_until "=>";
                 _ ← consume_operator "=>";
                 mret (Some reference)
               else mret None);
  assertion ← parse_prusti;
  mret (reference, assertion).

Definition parse_pledge : P Pledge :=
  r ← parse_pledge_assertion_only;
  comma ← consume_operator ",";
  if (comma : bool) then rhs ← parse_prusti; mret (Spec.make_pledge (fst r) (Some (snd r)) rhs)
  else error_expected "`,`".

Definition extract_pledge : P Pledge := pledge ← parse_pledge; at_end pledge.

Definition extract_pledge_rhs_only : P Pledge :=
  r ← parse_pledge_assertion_only;
  at_end (Spec.make_pledge (fst r) None (snd r)).
End Grammar.

(** *** [parse_prusti] *)

Fixpoint parse_prusti_fuel (fuel : nat) : P Assertion :=
  match fuel with
  | 0 => panic
  | S fuel => parse_prusti_body (parse_prusti_fuel fuel)
  end.

(** Every call from [parse_prusti] to itself leaves at least one token
    behind. *)
Definition parse_prusti : P Assertion := fun self =>
  parse_prusti_fuel (S (stream_size (Parser.tokens self))) self.

(** A parser run on a stream of tokens. *)
Definition parse_stream {A} (p : P A) (tokens : list TokenTree) : outcome Error A :=
  fst <$> p (from_token_stream tokens).
End Preparser.
