(* ===== verification/PreparserFacts.v ===== *)
(** * The parser of Prusti assertions terminates without panicking

    The [unwrap] of the parser are those of [Span::join], which succeeds on
    spans of one file, and of parsing the type [i32]; every loop and every
    recursive call consumes a token.  The file ends with a concrete [SynCrate]
    and inputs of the parser. *)

From S2P Require Import Prelude Collections Specs Preparser.

(** ** Running a parser with a postcondition *)

(** No panic, and [Q] of the result if there is no error. *)
Definition post {S E A} (m : ST S E A) (s : S) (Q : A -> S -> Prop) : Prop :=
  match m s with
  | Val (a, s') => Q a s'
  | Err _ => True
  | Panic => False
  end.

Lemma post_mono {S E A} (m : ST S E A) s (Q R : A -> S -> Prop) :
  post m s Q -> (forall a s', Q a s' -> R a s') -> post m s R.
Proof. unfold post. destruct (m s) as [[a s']| |]; auto. Qed.

Lemma post_bind {S E A B} (m : ST S E A) (f : A -> ST S E B) s Q :
  post m s (fun a s' => post (f a) s' Q) -> post (a ← m; f a) s Q.
Proof. unfold post, mbind, ST_bind. by destruct (m s) as [[a s']| |]. Qed.

(** ** Sizes of streams *)

Section Sizes.
Context `{ProcMacroCrate}.
Implicit Types (tokens stream : list TokenTree).

Lemma stream_size_cons t tokens : stream_size (t :: tokens) = Token.size t + stream_size tokens.
Proof. done. Qed.

Lemma token_size_pos t : 1 <= Token.size t.
Proof. destruct t; cbn; lia. Qed.

Lemma group_size d stream sp : Token.size (Token.Group d stream sp) = S (stream_size stream).
Proof. done. Qed.

Lemma length_stream_size tokens : length tokens <= stream_size tokens.
Proof.
  induction tokens as [|t tokens IH]; [done|]. rewrite stream_size_cons. cbn. pose proof (token_size_pos t). lia.
Qed.

Lemma stream_size_drop n tokens : n <= length tokens -> stream_size (drop n tokens) + n <= stream_size tokens.
Proof.
  revert n. induction tokens as [|t tokens IH]; intros [|n] Hn; cbn [drop length] in *; try lia.
  specialize (IH n ltac:(lia)). rewrite stream_size_cons. pose proof (token_size_pos t). lia.
Qed.

Lemma split_until_size stop tokens : stream_size (snd (split_until stop tokens)) <= stream_size tokens.
Proof.
  induction tokens as [|t tokens IH]; [done|]. cbn [split_until]. destruct (stop (t :: tokens)); [done|].
  destruct (split_until stop tokens). cbn [snd] in *. rewrite stream_size_cons. lia.
Qed.

(** An operator is found where its characters are. *)
Lemma peek_length tokens operator n :
  peek_operator_stream_offset tokens operator n = true -> n + String.length operator <= Nat.max n (length tokens).
Proof.
  revert n. induction operator as [|c operator IH]; intros n; cbn; [lia|].
  destruct (tokens !! n) as [t|] eqn:E; [|done]. cbn. destruct t; try done. destruct (Ascii.eqb _ _); [|done].
  intros Hp%IH. apply lookup_lt_Some in E. lia.
Qed.
End Sizes.

(** ** Spans of one file *)

(** The documentation of [Span::join]: spans of the same file are joined to a
    span of the file, and it is [None] for spans of different files. *)
Definition one_file `{ProcMacroCrate} (file : Span -> Prop) : Prop :=
  forall a b, file a -> file b -> exists c, span_join a b = Some c /\ file c.

(** All spans of the tokens, those in groups included. *)
Fixpoint token_in `{ProcMacroCrate} (file : Span -> Prop) (t : TokenTree) : Prop :=
  file (Token.span t) /\
  match t with
  | Token.Group _ stream _ => foldr and True (map (token_in file) stream)
  | _ => True
  end.
Definition stream_in `{ProcMacroCrate} (file : Span -> Prop) (tokens : list TokenTree) : Prop := Forall (token_in file) tokens.

Section InFile.
Context `{ProcMacroCrate} (file : Span -> Prop).

Lemma token_in_group d stream sp : token_in file (Token.Group d stream sp) <-> file sp /\ stream_in file stream.
Proof.
  cbn. apply and_iff_compat_l. unfold stream_in. induction stream as [|t stream IH]; cbn; [by rewrite Forall_nil|]. by rewrite Forall_cons, IH.
Qed.

Lemma token_in_span t : token_in file t -> file (Token.span t).
Proof. destruct t; by intros [? _]. Qed.

Lemma stream_in_split stop tokens : stream_in file tokens ->
  stream_in file (fst (split_until stop tokens)) /\ stream_in file (snd (split_until stop tokens)).
Proof.
  intros Hin. induction Hin as [|t tokens Ht Hin [IH1 IH2]]; [by split; constructor|]. cbn [split_until].
  destruct (stop (t :: tokens)); [split; [constructor|by constructor]|]. destruct (split_until stop tokens). cbn in *. by split; [constructor|].
Qed.
End InFile.

(** ** Every function of the parser *)

Section NoPanic.
Context `{SynCrate} (file : Span -> Prop).
Hypothesis Hjoin : one_file file.
Hypothesis Hi32 : exists t, parse2 parse_type [Token.Ident "i32" call_site] = inr t.

Abbreviation P := (ST Parser Error).
Abbreviation size s := (stream_size (Parser.tokens s)).
Abbreviation in_file s := (stream_in file (Parser.tokens s)).

(** *** The postconditions of this section

    The tokens of the parser are, and stay, in the file. *)

Definition wp {A} (m : P A) (s : Parser) (Q : A -> Parser -> Prop) : Prop :=
  in_file s -> post m s (fun a s' => in_file s' /\ Q a s').

Lemma wp_mono {A} (m : P A) s (Q R : A -> Parser -> Prop) : wp m s Q -> (forall a s', Q a s' -> R a s') -> wp m s R.
Proof. intros Hm HQ Hs. eapply post_mono; [exact (Hm Hs)|]. intros a s' [? ?]. auto. Qed.

Lemma wp_bind {A B} (m : P A) (f : A -> P B) s Q : wp m s (fun a s' => wp (f a) s' Q) -> wp (a ← m; f a) s Q.
Proof. intros Hm Hs. apply post_bind. eapply post_mono; [exact (Hm Hs)|]. intros a s' [Hs' Hf]. by apply Hf. Qed.

Lemma wp_ret {A} (a : A) s (Q : A -> Parser -> Prop) : Q a s -> wp (mret a) s Q.
Proof. by intros HQ Hs. Qed.

Lemma wp_fail {A} (e : Error) s (Q : A -> Parser -> Prop) : wp (fail e) s Q.
Proof. done. Qed.

Lemma wp_get s (Q : Parser -> Parser -> Prop) : (in_file s -> Q s s) -> wp get_st s Q.
Proof. intros HQ Hs. split; [done|]. by apply HQ. Qed.

Lemma wp_lift {A} (m : option A) s (Q : A -> Parser -> Prop) :
  (in_file s -> is_Some m) -> (forall a, m = Some a -> Q a s) -> wp (lift m) s Q.
Proof. intros Hm HQ Hs. destruct (Hm Hs) as [a Ea]. rewrite Ea in *. split; [done|]. by apply HQ. Qed.

Lemma wp_sequence {A B} (f : A -> P B) (l : list A) s :
  (forall a s, wp (f a) s (fun _ s' => s' = s)) -> wp (sequence (map f l)) s (fun _ s' => s' = s).
Proof.
  intros Hf. induction l as [|a l IH]; [done|]. cbn. apply wp_bind. eapply wp_mono; [apply Hf|]. intros b ? ->.
  apply wp_bind. eapply wp_mono; [exact IH|]. by intros bs ? ->.
Qed.

Lemma operator_span_some tokens operator n : stream_in file tokens ->
  operator <> EmptyString -> peek_operator_stream_offset tokens operator n = true ->
  exists sp, operator_span_offset tokens operator n = Some sp /\ file sp.
Proof.
  intros Hin Hne Hp. pose proof (peek_length _ _ _ Hp). destruct operator as [|c operator]; [done|]. cbn in Hp, H1.
  unfold operator_span_offset. assert (Hspan : forall k t, tokens !! k = Some t -> file (Token.span t)).
  { intros k t Et. apply token_in_span. unfold stream_in in Hin. rewrite Forall_lookup in Hin. by eapply Hin. }
  destruct (tokens !! n) as [t|] eqn:E; [|done]. apply lookup_lt_Some in E as Hlt.
  cbn [String.length mbind option_bind]. destruct (lookup_lt_is_Some_2 tokens (n + S (String.length operator) - 1)) as [t' Et']; [lia|].
  rewrite Et'. cbn [mbind option_bind]. by apply Hjoin; eapply Hspan.
Qed.

Lemma find_token_some {A} (visit : nat -> TokenTree -> option (option A)) rest : forall n,
  Forall (fun t => forall n, is_Some (visit n t)) rest -> is_Some (find_token visit n rest).
Proof.
  induction rest as [|t rest IH]; intros n; [by eexists|]. intros [Ht HF]%Forall_cons. cbn.
  destruct (Ht n) as [[a|] ->]; cbn; [by eexists|auto].
Qed.

Section TokenInd.
Context (Q : TokenTree -> Prop).
Context (HGroup : forall d stream s, Forall Q stream -> Q (Token.Group d stream s)).
Context (HIdent : forall n s, Q (Token.Ident n s)) (HPunct : forall c s, Q (Token.Punct c s)) (HLiteral : forall l s, Q (Token.Literal l s)).

Fixpoint TokenTree_ind' (t : TokenTree) : Q t :=
  match t with
  | Token.Group d stream s => HGroup d stream s (Forall_of Q TokenTree_ind' stream)
  | Token.Ident n s => HIdent n s
  | Token.Punct c s => HPunct c s
  | Token.Literal l s => HLiteral l s
  end.
End TokenInd.

Lemma group_contains_operator_some operator t : token_in file t -> operator <> EmptyString -> is_Some (group_contains_operator operator t).
Proof.
  intros Hin Hne. induction t as [d stream s IH| | |] using TokenTree_ind'; [|by eexists..]. apply token_in_group in Hin as [_ Hin].
  cbn. apply find_token_some. rewrite Forall_forall in IH. apply Forall_forall. intros t Ht n. unfold visit_operator.
  destruct (peek_operator_stream_offset stream operator n) eqn:E.
  - destruct (operator_span_some stream operator n) as (sp & -> & _); [done..|]. by eexists.
  - apply IH; [done|]. unfold stream_in in Hin. rewrite Forall_forall in Hin. by apply Hin.
Qed.

Lemma contains_operator_recursive_some stream operator : stream_in file stream ->
  operator <> EmptyString -> is_Some (contains_operator_recursive stream operator).
Proof.
  intros Hin Hne. apply find_token_some, Forall_forall. intros t Ht n. unfold visit_operator.
  destruct (peek_operator_stream_offset stream operator n) eqn:E.
  - destruct (operator_span_some stream operator n Hin Hne E) as (sp & -> & _). by eexists.
  - apply group_contains_operator_some; [|done]. unfold stream_in in Hin. rewrite Forall_forall in Hin. by apply Hin.
Qed.

Definition file_span (sp : option Span) : Prop := match sp with Some sp => file sp | None => True end.

Lemma scan_and_or_some nested stream rest : stream_in file stream -> forall n a o, file_span a -> file_span o ->
  Forall (fun t => is_Some (nested t)) rest -> is_Some (scan_and_or nested stream n rest a o).
Proof.
  intros Hin. induction rest as [|t rest IH]; intros n a o Ha Ho; [by eexists|]. intros [Ht HF]%Forall_cons. cbn [scan_and_or].
  assert (Hc : forall a o : option Span, file_span a -> file_span o -> is_Some (match a, o with
    | Some a_s, Some o_s => s ← span_join a_s o_s; Some (Some s)
    | _, _ => scan_and_or nested stream (S n) rest a o end)).
  { intros [a'|] [o'|] Ha' Ho'; auto. destruct (Hjoin a' o' Ha' Ho') as (s & -> & _). by eexists. }
  destruct (peek_operator_stream_offset stream "&&" n) eqn:E1.
  { destruct (operator_span_some stream "&&" n) as (s & -> & Hs); [done..|]. exact (Hc (Some s) o Hs Ho). }
  destruct (peek_operator_stream_offset stream "||" n) eqn:E2.
  { destruct (operator_span_some stream "||" n) as (s & -> & Hs); [done..|]. exact (Hc a (Some s) Ha Hs). }
  destruct (peek_operator_stream_offset stream "==>" n); [exact (Hc None None I I)|].
  destruct Ht as [[s|] ->]; [by eexists|exact (Hc a o Ha Ho)].
Qed.

Lemma contains_both_and_or_some stream : stream_in file stream -> is_Some (contains_both_and_or stream).
Proof.
  intros Hin. apply scan_and_or_some; [done..|]. unfold stream_in in Hin. eapply Forall_impl; [exact Hin|]. intros t Ht.
  induction t as [d stream' s IH| | |] using TokenTree_ind'; [|by eexists..]. apply token_in_group in Ht as [_ Ht].
  destruct d; try by eexists. cbn. apply scan_and_or_some; [done..|]. rewrite Forall_forall in IH. unfold stream_in in Ht. rewrite Forall_forall in Ht.
  apply Forall_forall. intros t' Ht'. by apply IH, Ht.
Qed.

(** The token a parser consumes; a parser that consumes nothing keeps the
    tokens. *)
Definition consumes (b : bool) (s s' : Parser) : Prop := if b then size s' < size s else size s' = size s.

Lemma reduce_spans_some spans : Forall file spans -> is_Some (reduce_spans spans).
Proof.
  intros Hs. destruct Hs as [|sp spans Hsp Hs]; [by eexists|]. cbn.
  assert (Hf : forall acc, file acc -> is_Some (foldl (fun acc b => a ← acc; span_join a b) (Some acc) spans)).
  { induction Hs as [|b spans Hb _ IH]; intros acc Ha; [by eexists|]. cbn. destruct (Hjoin acc b Ha Hb) as (c & -> & Hc). by apply IH. }
  destruct (Hf sp Hsp) as [j ->]. by eexists.
Qed.

Lemma wp_consume_operator operator s :
  operator <> EmptyString -> wp (consume_operator operator) s (fun b s' => consumes b s s').
Proof.
  intros Hne Hs. unfold post, consume_operator. destruct (peek_operator operator (Parser.tokens s)) eqn:E; [|done].
  destruct (reduce_spans_some (map Token.span (take (String.length operator) (Parser.tokens s)))) as [sp ->].
  { apply Forall_map. eapply Forall_impl; [by apply Forall_take|]. intros t. apply token_in_span. }
  split; [by apply Forall_drop|].
  apply peek_length in E. pose proof (stream_size_drop (String.length operator) (Parser.tokens s) ltac:(lia)).
  cbn [consumes Parser.tokens]. destruct operator as [|c operator]; [done|]. cbn [String.length] in *. lia.
Qed.

Lemma wp_pop s : wp pop s (fun t s' => consumes (bool_decide (is_Some t)) s s').
Proof.
  intros Hs. unfold post, pop. destruct (Parser.tokens s) as [|t rest] eqn:E; [by rewrite E|]. apply Forall_cons in Hs as [_ Hs].
  split; [exact Hs|]. cbn. rewrite E, stream_size_cons. pose proof (token_size_pos t). lia.
Qed.

Lemma wp_consume_keyword keyword s : wp (consume_keyword keyword) s (fun b s' => consumes b s s').
Proof.
  intros Hs. unfold post, consume_keyword, peek, mbind, ST_bind. cbn. destruct (peek_keyword keyword (Parser.tokens s)) eqn:E; [|done].
  unfold pop. destruct (Parser.tokens s) as [|t rest] eqn:Et; [done|]. apply Forall_cons in Hs as [_ Hs]. split; [exact Hs|].
  cbn. rewrite Et, stream_size_cons. pose proof (token_size_pos t). lia.
Qed.

Lemma wp_consume_group delimiter s :
  wp (consume_group delimiter) s (fun r s' =>
    match r with
    | Some stream => stream_size stream < size s /\ size s' < size s /\ stream_in file stream
    | None => s' = s
    end).
Proof.
  intros Hs. unfold post, consume_group. destruct (Parser.tokens s) as [|[d stream sp| | |] rest] eqn:E; try by rewrite E.
  destruct (Delimiter.eqb delimiter d); [|by rewrite E]. apply Forall_cons in Hs as [[_ Hg]%token_in_group Hs]. cbn.
  rewrite ?E, stream_size_cons, group_size. split_and!; [done|lia|lia|done].
Qed.

Lemma wp_pop_until stop s : wp (pop_until stop) s (fun t s' => size s' <= size s /\ stream_in file t).
Proof.
  intros Hs. unfold post, pop_until. pose proof (split_until_size stop (Parser.tokens s)).
  pose proof (stream_in_split file stop (Parser.tokens s) Hs) as [? ?]. by destruct (split_until stop (Parser.tokens s)).
Qed.

Lemma wp_of_syn {A} (r : ForeignError + A) s : wp (of_syn r) s (fun _ s' => s' = s).
Proof. intros Hs. by destruct r. Qed.

Lemma wp_in_stream {A} stream (p : P A) s Q : stream_in file stream ->
  wp p (from_token_stream_last_span s stream) (fun a _ => Q a s) -> wp (in_stream stream p) s Q.
Proof. intros Hin Hp Hs. specialize (Hp Hin). unfold post, in_stream in *. destruct (p _) as [[a s']| |]; [|done..]. by destruct Hp. Qed.

Lemma wp_rust_until terminator s : wp (parse_rust_until terminator) s (fun _ s' => size s' <= size s).
Proof.
  unfold parse_rust_until. apply wp_bind. eapply wp_mono; [apply wp_pop_until|]. intros t s' [Hs Ht].
  apply wp_bind, wp_lift; [intros _; by apply contains_operator_recursive_some|]. intros [sp|] _; [done|].
  destruct t as [|t0 t]; [done|]. apply wp_bind. eapply wp_mono; [apply wp_of_syn|]. intros e ? ->. by apply wp_ret.
Qed.

(** *** The grammar, over a parser of smaller streams *)

Section Grammar.
Context (rec : P (Spec.Assertion unit SynExpr Arg)) (k : nat).

(** The result of a parser of assertions: every part of it is implemented. *)
Definition parsed (s : Parser) (a : Spec.Assertion unit SynExpr Arg) (s' : Parser) : Prop :=
  implemented a = true /\ size s' <= size s.

Hypothesis Hrec : forall s, size s < k -> wp rec s (parsed s).

Lemma wp_at_end {A} (a : A) s : wp (at_end a) s (fun a' s' => a' = a /\ size s' = size s).
Proof. unfold at_end. apply wp_bind. eapply wp_mono; [apply wp_pop|]. by intros [t|] s' ?. Qed.

Lemma wp_extract_assertion s : size s < k -> wp (extract_assertion rec) s (parsed s).
Proof.
  intros Hs. apply wp_bind, wp_get. intros Hin. assert (Hp : parsed s (Spec.And []) s) by done.
  destruct (Parser.tokens s) as [|t rest] eqn:E; [by apply wp_ret|].
  rewrite <- E in *. clear E Hp. apply wp_bind, wp_lift; [apply contains_both_and_or_some|]. intros [sp|] _; [done|].
  apply wp_bind. eapply wp_mono; [by apply Hrec|]. intros a s' [Hi Hle].
  eapply wp_mono; [apply wp_at_end|]. intros a' s'' [-> Hs'']. split; [done|lia].
Qed.

Lemma wp_triggers s : wp parse_triggers s (fun _ _ => True).
Proof.
  apply wp_bind. eapply wp_mono; [by apply wp_consume_operator|]. intros [] s1 _; [|done].
  apply wp_bind. eapply wp_mono; [apply wp_consume_keyword|]. intros [] s2 _; [|done].
  apply wp_bind. eapply wp_mono; [by apply wp_consume_operator|]. intros [] s3 _; [|done].
  apply wp_bind. eapply wp_mono; [apply wp_pop_until|]. intros stream s4 _.
  destruct (parse2 parse_expr_array stream) as [err|elems]; [done|].
  apply wp_bind. eapply wp_mono; [apply wp_sequence|done]. intros x s5. unfold trigger_of. by destruct (as_tuple x).
Qed.

Lemma wp_quantifier_rhs exists_ s :
  size s < k -> wp (extract_quantifier_rhs rec exists_) s (fun a _ => implemented a = true).
Proof.
  intros Hs. apply wp_bind. eapply wp_mono; [by apply wp_consume_operator|]. intros [] s1 H1; [|done]. cbn in H1.
  apply wp_bind. eapply wp_mono; [apply wp_pop_until|]. intros [|t0 ts] s2 [H2 _]; [done|].
  apply wp_bind. eapply wp_mono; [apply wp_of_syn|]. intros args ? ->.
  apply wp_bind. eapply wp_mono; [by apply wp_consume_operator|]. intros [] s3 H3; [|done]. cbn in H3.
  apply wp_bind. eapply wp_mono; [apply Hrec; lia|]. intros body s4 [H4 _].
  apply wp_bind. eapply wp_mono; [apply wp_triggers|]. intros ts' s5 _. by destruct exists_.
Qed.

Lemma wp_quantifier exists_ s : size s <= k -> wp (parse_quantifier rec exists_) s (parsed s).
Proof.
  intros Hs. apply wp_bind. eapply wp_mono; [apply wp_consume_group|]. intros [stream|] s' Hg; [|done].
  destruct Hg as (H1 & H2 & Hg). apply wp_in_stream; [done|]. eapply wp_mono; [apply wp_quantifier_rhs; cbn; lia|].
  intros a ? Ha. split; [done|lia].
Qed.

(** Assertions in a nested stream. *)
Lemma wp_nested_assertion stream s s' : stream_size stream < k -> size s' <= size s -> stream_in file stream ->
  wp (in_stream stream (extract_assertion rec)) s' (parsed s).
Proof.
  intros Hk Hs Hin. apply wp_in_stream; [done|]. eapply wp_mono; [by apply wp_extract_assertion|]. intros a ? [Ha _]. by split.
Qed.

Lemma wp_primary s : size s <= k -> wp (parse_primary rec) s (parsed s).
Proof.
  intros Hs. apply wp_bind. eapply wp_mono; [apply wp_consume_group|]. intros [stream|] s1 Hg.
  { destruct Hg as (? & ? & ?). apply wp_nested_assertion; [lia..|done]. }
  subst s1. apply wp_bind. eapply wp_mono; [apply wp_consume_keyword|]. intros [] s1 H1; cbn in H1.
  { eapply wp_mono; [apply wp_quantifier; lia|]. intros a s2 [? ?]. split; [done|lia]. }
  apply wp_bind. eapply wp_mono; [apply wp_consume_keyword|]. intros [] s2 H2; cbn in H2; [|done].
  eapply wp_mono; [apply wp_quantifier; lia|]. intros a s3 [? ?]. split; [done|lia].
Qed.

Lemma wp_condition s : size s <= k -> wp (parse_condition rec) s (parsed s).
Proof.
  intros Hs. apply wp_bind. eapply wp_mono; [apply wp_consume_group|]. intros [stream|] s1 Hg; [|done].
  destruct Hg as (? & ? & ?). apply wp_nested_assertion; [lia..|done].
Qed.

Abbreviation Assertion := (Spec.Assertion unit SynExpr Arg).

Definition all_parsed (r : list Assertion * list Assertion) : Prop :=
  forallb implemented (fst r) = true /\ forallb implemented (snd r) = true.

Lemma wp_entailment_loop fuel : forall first pres posts s,
  size s < fuel -> size s <= k -> all_parsed (pres, posts) ->
  wp (entailment_loop rec fuel first pres posts) s (fun r _ => all_parsed r).
Proof.
  induction fuel as [|fuel IH]; intros first pres posts s Hf Hk Hall; [lia|]. cbn [entailment_loop].
  apply wp_bind, wp_get. intros _. destruct (Parser.tokens s) as [|t rest] eqn:E; [by apply wp_ret|]. rewrite <- E in *. clear E.
  apply wp_bind. apply (wp_mono _ _ (fun b s' => b = true -> size s' <= size s)).
  { destruct first; [by apply wp_ret|]. eapply wp_mono; [by apply wp_consume_operator|]. intros [] s' Hc ?; [|done].
    cbn in Hc. lia. }
  intros [] s1 H1; [|done]. specialize (H1 eq_refl).
  assert (Hloop : forall (loop : Assertion -> P (list Assertion * list Assertion)) s2,
    (forall a s, implemented a = true -> size s < fuel -> size s <= k -> wp (loop a) s (fun r _ => all_parsed r)) ->
    size s2 < size s1 -> wp (c ← parse_condition rec; loop c) s2 (fun r _ => all_parsed r)).
  { intros loop s2 Hl H2. apply wp_bind. eapply wp_mono; [apply wp_condition; lia|]. intros a s3 [Ha H3].
    apply Hl; [done|lia..]. }
  destruct Hall as [Hp1 Hp2]. cbn [fst snd] in *.
  apply wp_bind. eapply wp_mono; [apply wp_consume_keyword|]. intros [] s2 H2; cbn in H2.
  { apply Hloop; [|done]. intros a s' Ha ??. apply IH; [done..|]. split; [|done]. cbn. by rewrite forallb_app, Hp1; cbn; rewrite Ha. }
  apply wp_bind. eapply wp_mono; [apply wp_consume_keyword|]. intros [] s3 H3; cbn in H3; [|done].
  apply Hloop; [|lia]. intros a s' Ha ??. apply IH; [done..|]. split; [done|]. cbn. by rewrite forallb_app, Hp2; cbn; rewrite Ha.
Qed.

Lemma wp_entailment_rhs lhs vars s :
  size s <= k -> wp (extract_entailment_rhs rec lhs vars) s (fun a _ => implemented a = true).
Proof.
  intros Hk. apply wp_bind, wp_get. intros _. apply wp_bind. eapply wp_mono; [apply wp_entailment_loop; [lia|lia|done]|].
  intros cs s1 [H1 H2]. apply wp_bind. unfold result_arg. destruct Hi32 as [t ->].
  apply wp_ret, wp_ret. cbn. by rewrite H1, H2.
Qed.

Lemma wp_entailment_args s : wp parse_entailment_args s (fun _ s' => size s' <= size s).
Proof.
  apply wp_bind. eapply wp_mono; [by apply wp_consume_operator|]. intros [] s1 H1; cbn in H1; [|apply wp_ret; lia].
  apply wp_bind. eapply wp_mono; [apply wp_pop_until|]. intros ts s2 [H2 _].
  apply wp_bind. eapply wp_mono; [apply wp_of_syn|]. intros args ? ->.
  apply wp_bind. eapply wp_mono; [by apply wp_consume_operator|]. intros [] s3 H3; cbn in H3; [|done]. apply wp_ret. lia.
Qed.

Lemma wp_entailment s : size s <= k -> wp (parse_entailment rec) s (parsed s).
Proof.
  intros Hk. apply wp_bind. unfold peek. apply wp_bind, wp_get. intros _. apply wp_ret. destruct (starts_primary _).
  { by apply wp_primary. }
  apply wp_bind. eapply wp_mono; [apply wp_rust_until|]. intros lhs s1 H1. cbn beta in H1.
  apply wp_bind. eapply wp_mono; [by apply wp_consume_operator|]. intros [] s2 H2; cbn in H2; [|apply wp_ret; split; [done|lia]].
  apply wp_bind. eapply wp_mono; [apply wp_entailment_args|]. intros vars s3 H3. cbn beta in H3.
  apply wp_bind. eapply wp_mono; [apply wp_consume_group|]. intros [stream|] s4 Hg; [|done]. destruct Hg as (H4 & H5 & Hg).
  apply wp_in_stream; [done|]. eapply wp_mono; [apply wp_entailment_rhs; cbn; lia|]. intros a ? Ha. split; [done|lia].
Qed.

Lemma wp_more_conjuncts fuel : forall conjuncts s,
  size s < fuel -> size s <= k -> forallb implemented conjuncts = true ->
  wp (more_conjuncts rec fuel conjuncts) s (fun l s' => forallb implemented l = true /\ size s' <= size s).
Proof.
  induction fuel as [|fuel IH]; intros conjuncts s Hf Hk Hc; [lia|]. cbn [more_conjuncts].
  apply wp_bind. eapply wp_mono; [by apply wp_consume_operator|]. intros [] s1 H1; cbn in H1; [|apply wp_ret; split; [done|lia]].
  apply wp_bind. eapply wp_mono; [apply wp_entailment; lia|]. intros a s2 [Ha H2].
  eapply wp_mono; [apply IH; [lia|lia|by rewrite forallb_app, Hc; cbn; rewrite Ha]|]. intros l s3 [? ?]. split; [done|lia].
Qed.

Lemma wp_conjunction s : size s <= k -> wp (parse_conjunction rec) s (parsed s).
Proof.
  intros Hk. apply wp_bind. eapply wp_mono; [by apply wp_entailment|]. intros a s1 [Ha H1].
  apply wp_bind, wp_get. intros _. apply wp_bind. eapply wp_mono; [apply wp_more_conjuncts; [lia|lia|by cbn; rewrite Ha]|].
  intros cs s2 [Hcs H2]. destruct cs as [|c [|c' cs]]; apply wp_ret; split; try lia; try done.
  cbn in Hcs. by rewrite andb_true_r in Hcs.
Qed.

Lemma wp_prusti_body s : size s <= k -> wp (parse_prusti_body rec) s (parsed s).
Proof.
  intros Hk. apply wp_bind. eapply wp_mono; [by apply wp_conjunction|]. intros lhs s1 [Hl H1].
  apply wp_bind. eapply wp_mono; [by apply wp_consume_operator|]. intros [] s2 H2; cbn in H2; [|apply wp_ret; split; [done|lia]].
  apply wp_bind. eapply wp_mono; [apply Hrec; lia|]. intros rhs s3 [Hr H3]. apply wp_ret. split; [cbn; by rewrite Hl, Hr|lia].
Qed.
End Grammar.

Lemma wp_prusti_fuel fuel : forall s, size s < fuel -> wp (parse_prusti_fuel fuel) s (parsed s).
Proof.
  induction fuel as [|fuel IH]; intros s Hs; [lia|]. cbn [parse_prusti_fuel].
  apply (wp_prusti_body _ fuel); [exact IH|lia].
Qed.

Lemma wp_prusti s : wp parse_prusti s (parsed s).
Proof. apply wp_prusti_fuel. lia. Qed.

Lemma wp_pledge_assertion_only s :
  wp (parse_pledge_assertion_only parse_prusti) s (fun r _ => implemented (snd r) = true).
Proof.
  apply wp_bind. unfold peek. apply wp_bind, wp_get. intros _. apply wp_ret. apply wp_bind.
  apply (wp_mono _ _ (fun _ _ => True)).
  { destruct (contains_operator _ _); [|done]. apply wp_bind. eapply wp_mono; [apply wp_rust_until|]. intros e s1 _.
    apply wp_bind. by eapply wp_mono; [apply wp_consume_operator|]. }
  intros r s1 _. apply wp_bind. eapply wp_mono; [apply wp_prusti|]. by intros a s2 [Ha _].
Qed.

Definition parsed_pledge (p : Spec.Pledge unit SynExpr Arg) : Prop :=
  implemented (Spec.rhs p) = true /\ match Spec.lhs p with Some lhs => implemented lhs = true | None => True end.

Lemma wp_pledge s : wp (parse_pledge parse_prusti) s (fun p _ => parsed_pledge p).
Proof.
  apply wp_bind. eapply wp_mono; [apply wp_pledge_assertion_only|]. intros r s1 Hr.
  apply wp_bind. eapply wp_mono; [by apply wp_consume_operator|]. intros [] s2 _; [|done].
  apply wp_bind. eapply wp_mono; [apply wp_prusti|]. by intros a s3 [Ha _].
Qed.

Lemma parse_stream_total {A} (p : P A) tokens : stream_in file tokens ->
  wp p (from_token_stream tokens) (fun _ _ => True) -> parse_stream p tokens <> Panic.
Proof. intros Hin Hp. specialize (Hp Hin). unfold post, parse_stream in *. cbn. by destruct (p _) as [[a s]| |]. Qed.

(** What the parser of assertions returns is implemented. *)
Lemma assertion_implemented tokens a : stream_in file tokens ->
  parse_stream (extract_assertion parse_prusti) tokens = Val a -> implemented a = true.
Proof.
  intros Hin. assert (Hw : wp (extract_assertion parse_prusti) (from_token_stream tokens) (parsed (from_token_stream tokens))).
  { apply (wp_extract_assertion _ (S (stream_size tokens))); [intros s _; apply wp_prusti|cbn; lia]. }
  specialize (Hw Hin). unfold post, parse_stream in *. cbn. destruct (extract_assertion _ _) as [[a' s']| |]; [|done..]. intros [= <-].
  by destruct Hw as [_ [? _]].
Qed.

Lemma assertion_total tokens : stream_in file tokens -> parse_stream (extract_assertion parse_prusti) tokens <> Panic.
Proof.
  intros Hin. apply parse_stream_total; [done|]. eapply wp_mono; [apply (wp_extract_assertion _ (S (stream_size tokens)))|done].
  - intros s _. apply wp_prusti.
  - cbn. lia.
Qed.

Lemma pledge_total tokens : stream_in file tokens ->
  parse_stream (extract_pledge parse_prusti) tokens <> Panic
  /\ parse_stream (extract_pledge_rhs_only parse_prusti) tokens <> Panic.
Proof.
  intros Hin. split; (apply parse_stream_total; [done|]); apply wp_bind.
  - eapply wp_mono; [apply wp_pledge|]. intros p s _. by eapply wp_mono; [apply wp_at_end|].
  - eapply wp_mono; [apply wp_pledge_assertion_only|]. intros r s _. by eapply wp_mono; [apply wp_at_end|].
Qed.
End NoPanic.

(** The parser of assertions and the parsers of pledges return an assertion
    or an error for every stream of tokens of one file: each loop and each
    recursive call consumes tokens, and nothing panics as long as [syn] parses
    the type [i32]. *)
(** C31. The parsers of assertions and of pledges end without a panic on every stream of tokens
    whose spans are all of one file (`Span::join` is None for spans of different files, and the
    code unwraps it), if syn reads `i32` as a type: the fuel that the size of the stream gives
    is enough. *)
Theorem parser_terminates `{SynCrate} file tokens : one_file file -> stream_in file tokens ->
  (exists t, parse2 parse_type [Token.Ident "i32" call_site] = inr t) ->
  parse_stream (extract_assertion parse_prusti) tokens <> Panic
  /\ parse_stream (extract_pledge parse_prusti) tokens <> Panic
  /\ parse_stream (extract_pledge_rhs_only parse_prusti) tokens <> Panic.
Proof. intros Hj Hin Hi. split; [by apply (assertion_total file)|]. by apply (pledge_total file). Qed.

(** ** Concrete instances

    An expression is its tokens and a type is an identifier.  Spans carry
    nothing, or, in [Files], the number of their file. *)

Module Concrete.
Definition comma `{ProcMacroCrate} (t : TokenTree) : bool := peek_operator "," [t].

Fixpoint terminated `{ProcMacroCrate} {A} (item : list TokenTree -> string + (A * list TokenTree)) (fuel : nat) (input : list TokenTree) :
    string + (list A * list TokenTree) :=
  match fuel, input with
  | 0, _ | _, [] => inr ([], input)
  | S fuel, _ =>
      match item input with
      | inl e => inl e
      | inr (a, t :: rest) =>
          if comma t then
            match terminated item fuel rest with
            | inl e => inl e
            | inr (l, rest) => inr (a :: l, rest)
            end
          else inl "expected `,`"
      | inr (a, []) => inr ([a], [])
      end
  end.

Definition syn_of `{ProcMacroCrate} : SynCrate := {|
  ForeignError := string;
  foreign_span := fun _ => call_site;
  SynExpr := list TokenTree;
  SynType := string;
  expr_span := fun _ => call_site;
  as_tuple := fun e => match e with [Token.Group Delimiter.Parenthesis stream _] => Some [stream] | _ => None end;
  parse_ident := fun input =>
    match input with Token.Ident name s :: rest => inr (make_ident name s, rest) | _ => inl "expected identifier" end;
  parse_colon := fun input => match input with t :: rest => if peek_operator ":" [t] then inr (tt, rest) else inl "expected `:`"
                              | [] => inl "unexpected end of input" end;
  parse_type := fun input => match input with Token.Ident name _ :: rest => inr (name, rest) | _ => inl "expected type" end;
  parse_expr := fun input => match input with [] => inl "expected expression" | _ => inr (input, []) end;
  parse_expr_array := fun input =>
    match input with
    | [Token.Group Delimiter.Bracket stream _] => inr (map (fun t => [t]) (List.filter (fun t => negb (comma t)) stream), [])
    | _ => inl "expected square brackets"
    end;
  parse_terminated := fun A item input => terminated item (length input) input;
  parse2 := fun A p tokens =>
    match p tokens with
    | inl e => inl e
    | inr (a, []) => inr a
    | inr (_, _) => inl "unexpected token"
    end
|}.

#[export] Instance macro : ProcMacroCrate := {| Span := unit; span_join := fun _ _ => Some tt; call_site := tt |}.
#[export] Instance syn : SynCrate := syn_of.

Definition ident (name : string) : TokenTree := Token.Ident name tt.
Definition group (d : Delimiter) (stream : list TokenTree) : TokenTree := Token.Group d stream tt.
Definition paren : list TokenTree -> TokenTree := group Delimiter.Parenthesis.

(** One token per character. *)
Fixpoint op (s : string) : list TokenTree :=
  match s with
  | EmptyString => []
  | String c s => Token.Punct c tt :: op s
  end.

Definition leaf (name : string) : Spec.Assertion unit SynExpr Arg := Spec.Expr (new_expression [ident name]).

Definition run_parser := parse_stream (extract_assertion parse_prusti).

(** All spans are of one file. *)
Definition anywhere : Span -> Prop := fun _ => True.

Lemma one_file_anywhere : one_file anywhere.
Proof. intros a b _ _. by exists tt. Qed.

Lemma stream_anywhere tokens : stream_in anywhere tokens.
Proof. apply Forall_forall. intros t _. induction t as [d stream s IH| | |] using TokenTree_ind'; [|done..]. by apply token_in_group; split; [|apply Forall_forall, Forall_forall]. Qed.

(** [a ==> b && c ==> d]: the implication is right-associative and binds
    weaker than the conjunction. *)
Example precedence :
  run_parser ([ident "a"] ++ op "==>" ++ [ident "b"] ++ op "&&" ++ [ident "c"] ++ op "==>" ++ [ident "d"])%list
  = Val (Spec.Implies (leaf "a") (Spec.Implies (Spec.And [leaf "b"; leaf "c"]) (leaf "d"))).
Proof. vm_compute. reflexivity. Qed.

(** [forall(|x: i32| p ==> q, triggers=[(x)])]. *)
Example quantifier :
  run_parser [ident "forall"; paren (op "|" ++ [ident "x"] ++ op ":" ++ [ident "i32"] ++ op "|" ++ [ident "p"] ++ op "==>"
    ++ [ident "q"] ++ op "," ++ [ident "triggers"] ++ op "=" ++ [group Delimiter.Bracket [paren [ident "x"]]])%list]
  = Val (Spec.ForAll (Spec.make_vars dummy tt [Arg.make (make_ident "x" tt) "i32"])
           (Spec.make_trigger_set [Spec.make_trigger [new_expression [ident "x"]]]) (Spec.Implies (leaf "p") (leaf "q"))).
Proof. vm_compute. reflexivity. Qed.

(** [a && b || c] is rejected. *)
Example ambiguous :
  run_parser ([ident "a"] ++ op "&&" ++ [ident "b"] ++ op "||" ++ [ident "c"])%list
  = Err (error_ambiguous_expression tt).
Proof. vm_compute. reflexivity. Qed.
End Concrete.

Module Files.
Definition macro : ProcMacroCrate := {| Span := nat; span_join := fun a b => if Nat.eqb a b then Some a else None; call_site := 0 |}.
Definition syn : SynCrate := @Concrete.syn_of macro.
#[local] Existing Instances macro syn.

Fixpoint op_in (file : nat) (s : string) : list TokenTree :=
  match s with
  | EmptyString => []
  | String c s => Token.Punct c (file : Span) :: op_in file s
  end.

(** [a ==> b], the last character of the arrow from a file. *)
Definition implication (file : nat) : list TokenTree :=
  ([Token.Ident "a" (0 : Span)] ++ op_in 0 "==" ++ op_in file ">" ++ [Token.Ident "b" (0 : Span)])%list.

(** An operator from two files panics. *)
Example operator_of_two_files :
  parse_stream (extract_assertion parse_prusti) (implication 1) = Panic
  /\ parse_stream (extract_assertion parse_prusti) (implication 0) <> Panic.
Proof. split; [vm_compute; reflexivity|vm_compute; discriminate]. Qed.

Lemma one_file_zero : one_file (eq 0).
Proof. intros a b <- <-. by exists 0. Qed.
End Files.
Import Concrete.

Lemma parser_terminates_witness :
  @parse_stream Files.macro Files.syn _ (@extract_pledge Files.macro Files.syn (@parse_prusti Files.macro Files.syn)) (Files.implication 0) <> Panic.
Proof.
  apply (@parser_terminates Files.macro Files.syn (eq 0) (Files.implication 0) Files.one_file_zero).
  - repeat (constructor; [by split|]). constructor.
  - exists "i32". reflexivity.
Defined.
