(* ===== verification/PreparserRoundTrip.v ===== *)
(** * The round trip of the parser of assertions

    Printed assertions and pledges are read back as they were: every function
    of the parser consumes exactly the text of its level ([yields]).  A pledge
    without a reference cannot be an implication. *)

From S2P Require Import Prelude Collections Specs Preparser PreparserFacts.

(** * Printing assertions and reading them back

    [print] writes an assertion as the stream of tokens the parser of
    [Preparser] reads: the levels are those of its grammar, and assertions of
    a lower level are put into parentheses.  Printing Rust expressions,
    arguments and triggers is the crate [quote], hence an argument. *)

(** [Forall], for predicates that are defined by recursion. *)
Definition all_of {A} (P : A -> Prop) : list A -> Prop :=
  fix go l := match l with [] => True | x :: l => P x /\ go l end.

Lemma all_of_Forall {A} (P : A -> Prop) l : all_of P l <-> Forall P l.
Proof. induction l as [|x l IH]; cbn; [by rewrite Forall_nil|]. by rewrite Forall_cons, IH. Qed.

(** ** Printing *)

Section Print.
Context `{SynCrate}.
Abbreviation Assertion := (Spec.Assertion unit SynExpr Arg).

Context (print_expr : SynExpr -> list TokenTree) (print_args : list Arg -> list TokenTree).
Context (print_array : Spec.TriggerSet unit SynExpr -> list TokenTree).

(** One token per character of an operator. *)
Fixpoint operator_tokens (operator : string) : list TokenTree :=
  match operator with
  | EmptyString => []
  | String c operator => Token.Punct c call_site :: operator_tokens operator
  end.

Definition in_parens (tokens : list TokenTree) : list TokenTree :=
  [Token.Group Delimiter.Parenthesis tokens call_site].

Definition wrap (b : bool) (tokens : list TokenTree) : list TokenTree := if b then in_parens tokens else tokens.

Definition separated (operator : string) (items : list (list TokenTree)) : list TokenTree :=
  match items with
  | [] => []
  | item :: items => item ++ List.concat (map (fun i => operator_tokens operator ++ i)%list items)
  end.

Definition bar_args (args : list Arg) : list TokenTree :=
  (operator_tokens "|" ++ print_args args ++ operator_tokens "|")%list.

(** The arguments of an entailment, if it has some. *)
Definition entailment_args (args : list Arg) : list TokenTree :=
  match args with [] => [] | _ => bar_args args end.

Definition print_triggers (ts : Spec.TriggerSet unit SynExpr) : list TokenTree :=
  match Spec.triggers ts with
  | [] => []
  | _ => (operator_tokens "," ++ Token.Ident "triggers" call_site :: operator_tokens "=" ++ print_array ts)%list
  end.

Definition keyword_group (keyword : string) (tokens : list TokenTree) : list TokenTree :=
  Token.Ident keyword call_site :: in_parens tokens.

(** The levels: [0] for [parse_prusti], [1] for [parse_conjunction] and [2]
    for [parse_entailment]. *)
Fixpoint print (level : nat) (a : Assertion) : list TokenTree :=
  match a with
  | Spec.Expr e => print_expr (Spec.expr e)
  | Spec.And [] => in_parens []
  | Spec.And l => wrap (Nat.leb 2 level) (separated "&&" (map (print 2) l))
  | Spec.Implies lhs rhs => wrap (Nat.leb 1 level) (print 1 lhs ++ operator_tokens "==>" ++ print 0 rhs)
  | Spec.ForAll vs ts body =>
      keyword_group "forall" (bar_args (Spec.vars vs) ++ print 0 body ++ print_triggers ts)
  | Spec.Exists vs ts body =>
      keyword_group "exists" (bar_args (Spec.vars vs) ++ print 0 body ++ print_triggers ts)
  | Spec.SpecEntailment closure vs pres posts =>
      print_expr (Spec.expr closure) ++ operator_tokens "|="
      ++ entailment_args (Spec.args vs)
      ++ [Token.Group Delimiter.Bracket
            (separated "," (map (fun a => keyword_group "requires" (print 0 a)) pres
                            ++ map (fun a => keyword_group "ensures" (print 0 a)) posts)) call_site]
  | Spec.TypeCond _ _ => []
  end.

(** Does the text end with an assertion in parentheses? *)
Fixpoint ends_group (level : nat) (a : Assertion) : bool :=
  match a with
  | Spec.And [] => true
  | Spec.And l =>
      if Nat.leb 2 level then true
      else (fix go l := match l with [] => true | [x] => ends_group 2 x | _ :: l => go l end) l
  | Spec.Implies _ rhs => if Nat.leb 1 level then true else ends_group 0 rhs
  | _ => false
  end.

(** ** What can be read back *)

Definition is_punct (t : TokenTree) : bool := match t with Token.Punct _ _ => true | _ => false end.

Definition not_assertion (tokens : list TokenTree) : bool :=
  negb (peek_keyword "forall" tokens || peek_keyword "exists" tokens
        || (peek_group Delimiter.Parenthesis tokens && Nat.eqb (length tokens) 1)).

(** The tokens of a Rust expression: no operator of Prusti at top level, no
    implication anywhere, no punctuation at the end, and not the text of a
    quantifier or of an assertion in parentheses. *)
Record rust_tokens (tokens : list TokenTree) : Prop := {
  rust_nonempty : tokens <> [];
  rust_no_operator : forall i, i < length tokens -> ends_rust "," (drop i tokens) = false;
  rust_no_implies : contains_operator_recursive tokens "==>" = Some None;
  rust_end : forall t, last tokens = Some t -> is_punct t = false;
  rust_start : not_assertion tokens = true
}.

Definition rust_expression (e : Spec.Expression unit SynExpr) : Prop :=
  e = new_expression (Spec.expr e)
  /\ rust_tokens (print_expr (Spec.expr e)) /\ parse2 parse_expr (print_expr (Spec.expr e)) = inr (Spec.expr e).

Definition readable_args (args : list Arg) : Prop :=
  print_args args <> [] /\ Forall (fun t => peek_operator "|" [t] = false) (print_args args)
  /\ parse2 parse_args (print_args args) = inr args.

Definition readable_trigger (item : SynExpr) (t : Spec.Trigger unit SynExpr) : Prop :=
  exists elems, as_tuple item = Some elems /\ Spec.terms t = map new_expression elems.

Definition readable_triggers (ts : Spec.TriggerSet unit SynExpr) : Prop :=
  exists items, parse2 parse_expr_array (print_array ts) = inr items
    /\ Forall2 readable_trigger items (Spec.triggers ts).

Definition readable_quantifier (vs : Spec.QuantifierVars unit Arg) (ts : Spec.TriggerSet unit SynExpr)
    (body : Assertion) : Prop :=
  vs = Spec.make_vars dummy tt (Spec.vars vs) /\ readable_args (Spec.vars vs)
  /\ (Spec.triggers ts = [] \/ readable_triggers ts /\ ends_group 0 body = false).

Definition readable_binders (vs : Spec.SpecEntailmentVars unit Arg) : Prop :=
  exists t, parse2 parse_type [Token.Ident "i32" call_site] = inr t
    /\ vs = Spec.make_entailment_vars dummy tt tt (Spec.args vs) (Arg.make (make_ident "result" call_site) t)
    /\ (Spec.args vs = [] \/ readable_args (Spec.args vs)).

(** No part of the text mixes [&&] and [||]. *)
Definition unambiguous (a : Assertion) : Prop := contains_both_and_or (print 0 a) = Some None.

Fixpoint readable (a : Assertion) : Prop :=
  unambiguous a /\
  match a with
  | Spec.Expr e => rust_expression e
  | Spec.And l => length l <> 1 /\ all_of readable l
  | Spec.Implies lhs rhs => readable lhs /\ readable rhs
  | Spec.ForAll vs ts body | Spec.Exists vs ts body => readable_quantifier vs ts body /\ readable body
  | Spec.SpecEntailment closure vs pres posts =>
      rust_expression closure /\ readable_binders vs /\ all_of readable pres /\ all_of readable posts
  | Spec.TypeCond _ _ => False
  end.
End Print.

(** * Reading what is printed *)

(** ** Parsers that consume a given text *)

Section Yields.
Context `{SynCrate}.
Abbreviation P := (ST Parser Error).

(** From these tokens the parser returns [a] and leaves [rest], whatever the
    spans it knows. *)
Definition yields {A} (p : P A) (tokens : list TokenTree) (a : A) (rest : list TokenTree) : Prop :=
  forall l src, exists l', p (Parser.make tokens l src) = Val (a, Parser.make rest l' src).

Lemma yields_bind {A B} (m : P A) (f : A -> P B) t a t' b t'' :
  yields m t a t' -> yields (f a) t' b t'' -> yields (x ← m; f x) t b t''.
Proof.
  intros Hm Hf l src. destruct (Hm l src) as [l1 E1], (Hf l1 src) as [l2 E2]. exists l2.
  unfold mbind, ST_bind. by rewrite E1.
Qed.

Lemma yields_ret {A} (a : A) t : yields (mret a) t a t.
Proof. intros l src. by exists l. Qed.

Lemma yields_get {A} (f : Parser -> P A) t a t' :
  (forall l src, yields (f (Parser.make t l src)) t a t') -> yields (s ← get_st; f s) t a t'.
Proof. intros Hf l src. apply (Hf l src). Qed.

Lemma yields_peek test t : yields (peek test) t (test t) t.
Proof. intros l src. by exists l. Qed.

Lemma yields_lift {A} (m : option A) a t : m = Some a -> yields (lift m) t a t.
Proof. intros -> l src. by exists l. Qed.

Lemma yields_of_syn {A} (r : ForeignError + A) a t : r = inr a -> yields (of_syn r) t a t.
Proof. intros ->. apply yields_ret. Qed.

Lemma yields_at_end {A} (a : A) : yields (at_end a) [] a [].
Proof. intros l src. by exists l. Qed.

Lemma yields_in_stream {A} stream (p : P A) a t : yields p stream a [] -> yields (in_stream stream p) t a t.
Proof.
  intros Hp l src. exists l. unfold in_stream. cbn. destruct (Hp None l) as [l' E].
  unfold from_token_stream_last_span. cbn. by rewrite E.
Qed.

Lemma yields_group d stream sp rest :
  yields (consume_group d) (Token.Group d stream sp :: rest) (Some stream) rest.
Proof. intros l src. exists (Some sp). unfold consume_group. cbn. by destruct d. Qed.

Lemma yields_no_group d t rest : peek_group d (t :: rest) = false -> yields (consume_group d) (t :: rest) None (t :: rest).
Proof.
  intros Hg l src. exists l. unfold consume_group. cbn in *. destruct t; try done. by rewrite Hg.
Qed.

Lemma yields_keyword keyword sp rest : yields (consume_keyword keyword) (Token.Ident keyword sp :: rest) true rest.
Proof.
  intros l src. exists (Some sp). unfold consume_keyword, peek, mbind, ST_bind. cbn. by rewrite (peq_refl (A := string)).
Qed.

Lemma yields_no_keyword keyword t : peek_keyword keyword t = false -> yields (consume_keyword keyword) t false t.
Proof. intros Hk l src. exists l. unfold consume_keyword, peek, mbind, ST_bind. cbn. by rewrite Hk. Qed.

Lemma yields_no_operator operator t : peek_operator operator t = false -> yields (consume_operator operator) t false t.
Proof. intros Hp l src. exists l. unfold consume_operator. cbn. by rewrite Hp. Qed.

(** *** Operators *)

Lemma peek_skip operator (skipped t : list TokenTree) n :
  peek_operator_stream_offset (skipped ++ t)%list operator (length skipped + n) = peek_operator_stream_offset t operator n.
Proof.
  revert n. induction operator as [|c operator IH]; intros n; [done|]. cbn.
  rewrite lookup_app_r by lia. replace (length skipped + n - length skipped) with n by lia.
  destruct (is_char c (t !! n)); [|done]. rewrite <- (IH (S n)). f_equal. lia.
Qed.

Lemma peek_cons c operator t tokens :
  peek_operator (String c operator) (t :: tokens) = is_char c (Some t) && peek_operator operator tokens.
Proof.
  unfold peek_operator. cbn [peek_operator_stream_offset lookup list_lookup].
  destruct (is_char c (Some t)); [|done]. exact (peek_skip operator [t] tokens 0).
Qed.

Lemma peek_nil c operator : peek_operator (String c operator) [] = false.
Proof. done. Qed.

Lemma peek_operator_tokens operator rest : peek_operator operator (operator_tokens operator ++ rest) = true.
Proof. induction operator as [|c operator IH]; [done|]. cbn [operator_tokens app]. rewrite peek_cons, IH. cbn. by rewrite Ascii.eqb_refl. Qed.

Lemma length_operator_tokens operator : length (operator_tokens operator) = String.length operator.
Proof. induction operator; cbn; congruence. Qed.

(** Tokens that end without punctuation hide what follows them. *)
Lemma peek_app operator : forall tokens rest,
  tokens <> [] -> (forall t, last tokens = Some t -> is_punct t = false) ->
  peek_operator operator (tokens ++ rest) = peek_operator operator tokens.
Proof.
  induction operator as [|c operator IH]; intros tokens rest Hne Hl; [done|].
  destruct tokens as [|t tokens]; [done|]. cbn [app]. rewrite !peek_cons. destruct (is_char c (Some t)) eqn:E; [|done].
  cbn. destruct tokens as [|t' tokens].
  - specialize (Hl t eq_refl). by destruct t.
  - apply IH; [done|]. intros t0 Ht0. apply Hl. by rewrite last_cons, Ht0.
Qed.

Context (file : Span -> Prop).
Hypothesis Hjoin : one_file file.
Hypothesis Hsite : file call_site.

Lemma operator_tokens_in operator : stream_in file (operator_tokens operator).
Proof. induction operator; cbn; constructor; done. Qed.

Lemma yields_operator operator rest : yields (consume_operator operator) (operator_tokens operator ++ rest) true rest.
Proof.
  intros l src. unfold consume_operator. cbn [Parser.tokens]. rewrite peek_operator_tokens.
  destruct (reduce_spans_some file Hjoin (map Token.span (take (String.length operator) (operator_tokens operator ++ rest)))) as [sp ->].
  { rewrite <- length_operator_tokens, take_app_length. apply Forall_map. eapply Forall_impl; [apply operator_tokens_in|]. intros t. apply token_in_span. }
  exists sp. by rewrite <- length_operator_tokens, drop_app_length.
Qed.

(** *** Tokens up to a stop *)

Lemma split_until_app (stop : list TokenTree -> bool) ts : forall rest,
  (forall i, i < length ts -> stop (drop i ts ++ rest)%list = false) -> rest = [] \/ stop rest = true ->
  split_until stop (ts ++ rest)%list = (ts, rest).
Proof.
  induction ts as [|t ts IH]; intros rest Hi Hr; cbn.
  - destruct Hr as [->|Hr]; [done|]. destruct rest; [done|]. cbn. by rewrite Hr.
  - pose proof (Hi 0 ltac:(cbn; lia)) as E. cbn in E. rewrite E, IH; [done| |done]. intros i Hl. apply (Hi (S i)). cbn. lia.
Qed.

Lemma yields_until (stop : list TokenTree -> bool) ts rest :
  (forall i, i < length ts -> stop (drop i ts ++ rest)%list = false) -> rest = [] \/ stop rest = true ->
  yields (pop_until stop) (ts ++ rest)%list ts rest.
Proof.
  intros Hi Hr l src. eexists. unfold pop_until. cbn [Parser.tokens]. by rewrite split_until_app.
Qed.

(** *** Rust expressions *)

Definition ended (terminator : string) (rest : list TokenTree) : Prop := rest = [] \/ ends_rust terminator rest = true.

Lemma ends_rust_app terminator ts rest :
  ts <> [] -> (forall t, last ts = Some t -> is_punct t = false) ->
  ends_rust terminator (ts ++ rest)%list = ends_rust terminator ts.
Proof. intros Hne Hl. unfold ends_rust. by rewrite !peek_app. Qed.

Lemma last_drop_some {A} i (ts : list A) : i < length ts -> last (drop i ts) = last ts.
Proof.
  revert ts. induction i as [|i IH]; intros [|t ts] Hi; cbn [drop length] in *; try done; try lia.
  rewrite IH by lia. destruct ts; [cbn in Hi; lia|done].
Qed.

Lemma no_stop_app terminator ts rest :
  (forall t, last ts = Some t -> is_punct t = false) ->
  (forall i, i < length ts -> ends_rust terminator (drop i ts) = false) ->
  forall i, i < length ts -> ends_rust terminator (drop i ts ++ rest)%list = false.
Proof.
  intros Hl Hi i Hlt. rewrite ends_rust_app; [by apply Hi| |].
  - intros E. apply (f_equal length) in E. rewrite length_drop in E. cbn in E. lia.
  - rewrite last_drop_some by done. done.
Qed.

Lemma yields_rust terminator ts e rest :
  ts <> [] -> (forall t, last ts = Some t -> is_punct t = false) ->
  (forall i, i < length ts -> ends_rust terminator (drop i ts) = false) ->
  contains_operator_recursive ts "==>" = Some None -> parse2 parse_expr ts = inr e -> ended terminator rest ->
  yields (parse_rust_until terminator) (ts ++ rest)%list (new_expression e) rest.
Proof.
  intros Hne Hl Hi Hc Hp Hr. eapply yields_bind; [apply yields_until; [by apply no_stop_app|exact Hr]|].
  eapply yields_bind; [by apply yields_lift|]. cbn. destruct ts as [|t ts]; [done|].
  eapply yields_bind; [by apply yields_of_syn|]. apply yields_ret.
Qed.
End Yields.

(** ** The round trip *)

Section RoundTrip.
Context `{SynCrate} (file : Span -> Prop).
Hypothesis Hjoin : one_file file.
Hypothesis Hsite : file call_site.
Context (print_expr : SynExpr -> list TokenTree) (print_args : list Arg -> list TokenTree).
Context (print_array : Spec.TriggerSet unit SynExpr -> list TokenTree).

Abbreviation Assertion := (Spec.Assertion unit SynExpr Arg).
Abbreviation P := (ST Parser Error).
Abbreviation print := (print print_expr print_args print_array).
Abbreviation bar_args := (bar_args print_args).
Abbreviation entailment_args := (entailment_args print_args).
Abbreviation print_triggers := (print_triggers print_array).
Abbreviation readable := (readable print_expr print_args print_array).

Lemma peek_op_false (o o' : string) rest :
  peek_operator o (operator_tokens o') = false -> String.length o <= String.length o' ->
  peek_operator o (operator_tokens o' ++ rest)%list = false.
Proof.
  revert o'. induction o as [|c o IH]; intros [|c' o'] Hp Hl; cbn [String.length] in *; try done; [lia|].
  cbn [operator_tokens app] in *. rewrite !peek_cons in *. destruct (is_char c _); [|done]. cbn in *.
  apply IH; [done|lia].
Qed.

(** The texts that may come after an assertion of a level. *)
Inductive follow (level : nat) (group : bool) : list TokenTree -> Prop :=
  | follow_end : follow level group []
  | follow_comma rest : group = false -> follow level group (operator_tokens "," ++ rest)
  | follow_implies rest : 1 <= level -> follow level group (operator_tokens "==>" ++ rest)
  | follow_and rest : 2 <= level -> follow level group (operator_tokens "&&" ++ rest).

Lemma follow_peek level group rest o :
  follow level group rest -> In o ["|="; "|"] -> peek_operator o rest = false.
Proof. intros [] [<-|[<-|[]]]; done. Qed.

Lemma follow_ended level group rest : follow level group rest -> ended "," rest.
Proof.
  intros [|rest' _|rest' _|rest' _]; [by left|right..]; unfold ends_rust; rewrite peek_operator_tokens; by rewrite ?orb_true_r.
Qed.

Lemma follow_no_and level group rest : level <= 1 -> follow level group rest -> peek_operator "&&" rest = false.
Proof. intros ? []; try done. lia. Qed.

Lemma follow_no_implies group rest : follow 0 group rest -> peek_operator "==>" rest = false.
Proof. intros []; try done; lia. Qed.

Lemma follow_up level group rest : follow level group rest -> follow 2 group rest.
Proof. intros []; constructor; by try lia. Qed.

Lemma follow_step level group rest : follow 0 group rest -> follow level group rest.
Proof. intros []; [constructor|by constructor|lia..]. Qed.

(** The parser of a level. *)
Definition level_parser (level m : nat) : P Assertion :=
  match level with
  | 0 => parse_prusti_fuel (S m)
  | 1 => parse_conjunction (parse_prusti_fuel m)
  | _ => parse_entailment (parse_prusti_fuel m)
  end.

Definition reads (level : nat) (a : Assertion) : Prop := forall m rest,
  stream_size (print level a ++ rest)%list <= m -> follow level (ends_group level a) rest ->
  yields (level_parser level m) (print level a ++ rest)%list a rest.

Lemma stream_size_app (t t' : list TokenTree) : stream_size (t ++ t')%list = stream_size t + stream_size t'.
Proof. unfold stream_size. by rewrite map_app, list_sum_app. Qed.

Lemma operator_size o : stream_size (operator_tokens o) = String.length o.
Proof. induction o as [|c o IH]; [done|]. cbn [operator_tokens]. rewrite stream_size_cons, IH. done. Qed.

(** *** From a level to a lower one *)

Lemma reads_conjunction a :
  (forall rest, follow 1 (ends_group 1 a) rest -> follow 2 (ends_group 2 a) rest) ->
  print 1 a = print 2 a -> reads 2 a -> reads 1 a.
Proof.
  intros Hf Hp Ha m rest Hm Hr. rewrite Hp in *. unfold level_parser, parse_conjunction.
  eapply yields_bind; [by apply Ha, Hf|]. apply yields_get. intros l src. cbn [Parser.tokens].
  eapply yields_bind; [cbn [more_conjuncts]|].
  { eapply yields_bind; [apply yields_no_operator; by apply (follow_no_and 1 (ends_group 1 a))|]. apply yields_ret. }
  apply yields_ret.
Qed.

Lemma reads_prusti a :
  ends_group 0 a = ends_group 1 a -> print 0 a = print 1 a -> reads 1 a -> reads 0 a.
Proof.
  intros Hg Hp Ha m rest Hm Hr. rewrite Hp in *. cbn [level_parser parse_prusti_fuel]. unfold parse_prusti_body.
  eapply yields_bind; [apply Ha; [done|]|].
  { rewrite <- Hg. by apply follow_step. }
  eapply yields_bind; [apply yields_no_operator; by eapply follow_no_implies|]. apply yields_ret.
Qed.

(** *** Assertions in parentheses *)

Lemma starts_group stream sp rest :
  follow 2 true rest -> starts_primary (Token.Group Delimiter.Parenthesis stream sp :: rest) = true.
Proof.
  intros Hr. unfold starts_primary, is_part_of_rust_expr. cbn [peek_group Delimiter.eqb peek_keyword].
  destruct Hr as [|rest' Hf|rest' _|rest' _]; [done|done| |]; rewrite peek_operator_tokens; by rewrite ?orb_true_r.
Qed.

Lemma yields_extract_assertion m a :
  print 0 a <> [] -> unambiguous print_expr print_args print_array a -> reads 0 a -> stream_size (print 0 a) <= m ->
  yields (extract_assertion (parse_prusti_fuel (S m))) (print 0 a) a [].
Proof.
  intros Hne Hu Ha Hm. unfold extract_assertion. apply yields_get. intros l src. cbn [Parser.tokens].
  destruct (print 0 a) as [|t ts] eqn:E; [done|].
  eapply yields_bind; [apply yields_lift; rewrite <- E; exact Hu|]. cbn.
  eapply yields_bind; [|apply yields_at_end]. specialize (Ha m []). rewrite app_nil_r, E in Ha.
  apply Ha; [done|constructor].
Qed.

Lemma reads_parens a :
  print 2 a = in_parens (print 0 a) -> ends_group 2 a = true -> print 0 a <> [] ->
  unambiguous print_expr print_args print_array a -> reads 0 a -> reads 2 a.
Proof.
  intros Hp Hg Hne Hu Ha m rest Hm Hr. rewrite Hp, Hg in *. unfold level_parser, parse_entailment, in_parens in *.
  eapply yields_bind; [apply yields_peek|]. cbn [app]. rewrite starts_group by done. unfold parse_primary.
  eapply yields_bind; [apply yields_group|]. cbn. apply yields_in_stream.
  cbn [app] in Hm. rewrite stream_size_cons, group_size in Hm. destruct m as [|m]; [lia|].
  apply yields_extract_assertion; [done..|lia].
Qed.

(** *** Expressions *)

Lemma not_primary ts rest : rust_tokens ts -> follow 2 false rest \/ (exists r, rest = operator_tokens "|=" ++ r)%list ->
  starts_primary (ts ++ rest)%list = false.
Proof.
  intros [Hne Hi Hc Hl Hs] Hr. unfold starts_primary. unfold not_assertion in Hs. apply negb_true_iff in Hs.
  apply orb_false_iff in Hs as [Hk Hg]. apply orb_false_iff in Hk as [Hk1 Hk2]. destruct ts as [|t ts]; [done|].
  change ((t :: ts) ++ rest)%list with (t :: (ts ++ rest)%list). cbn [peek_keyword] in *. rewrite Hk1, Hk2, !orb_false_r.
  cbn [peek_group] in *. destruct t as [d stream sp| | |]; try done.
  destruct (Delimiter.eqb Delimiter.Parenthesis d); [|done]. cbn in Hg. cbn [andb is_part_of_rust_expr].
  rewrite negb_involutive. destruct ts as [|t' ts]; [done|].
  assert (E : ends_rust "," ((t' :: ts) ++ rest)%list = false).
  { apply (no_stop_app "," (Token.Group d stream sp :: t' :: ts) rest Hl Hi 1). cbn. lia. }
  unfold ends_rust in E. cbn [app] in *. apply orb_false_iff in E as [E _]. by rewrite E.
Qed.

Lemma yields_rust_expression e rest : rust_expression print_expr e -> ended "," rest ->
  yields (parse_rust_until ",") (print_expr (Spec.expr e) ++ rest)%list e rest.
Proof.
  intros (He & [Hne Hi Hc Hl Hs] & Hp) Hr. rewrite He at 2. by apply yields_rust.
Qed.

Lemma reads_expr e : rust_expression print_expr e -> reads 2 (Spec.Expr e).
Proof.
  intros He m rest Hm Hr. cbn [print PreparserRoundTrip.print ends_group] in *. unfold level_parser, parse_entailment.
  pose proof He as (_ & Ht & _). eapply yields_bind; [apply yields_peek|]. rewrite not_primary by auto.
  eapply yields_bind; [apply yields_rust_expression; [done|by eapply follow_ended]|].
  eapply yields_bind; [apply yields_no_operator; eapply follow_peek; [done|by left]|]. apply yields_ret.
Qed.

(** *** Conjunctions *)

Definition more (l : list Assertion) : list TokenTree :=
  List.concat (map (fun i => operator_tokens "&&" ++ i)%list (map (print 2) l)).

Definition last_group (l : list Assertion) : bool :=
  match last l with Some a => ends_group 2 a | None => true end.

Lemma ends_group_and level a b l : level <= 1 -> ends_group level (Spec.And (a :: b :: l)) = last_group (b :: l).
Proof.
  intros Hl. cbn [ends_group]. rewrite (proj2 (Nat.leb_gt 2 level)) by lia. unfold last_group.
  revert a b. induction l as [|c l IH]; intros a b; [done|]. exact (IH b c).
Qed.

Lemma yields_more m l : forall fuel acc rest,
  Forall (reads 2) l -> (l <> [] -> follow 2 (last_group l) rest) -> peek_operator "&&" rest = false ->
  stream_size (more l ++ rest)%list < fuel -> stream_size (more l ++ rest)%list <= m ->
  yields (more_conjuncts (parse_prusti_fuel m) fuel acc) (more l ++ rest)%list (acc ++ l)%list rest.
Proof.
  induction l as [|a l IH]; intros [|fuel] acc rest HF Hf Hn Hs Hm; try lia; cbn [more_conjuncts].
  - rewrite app_nil_r. eapply yields_bind; [by apply yields_no_operator|]. apply yields_ret.
  - apply Forall_cons in HF as [Ha HF].
    assert (E : (more (a :: l) ++ rest = operator_tokens "&&" ++ print 2 a ++ more l ++ rest)%list)
      by (unfold more; cbn [map List.concat]; by rewrite <- !app_assoc).
    rewrite E in *. rewrite !stream_size_app, operator_size in *. cbn [String.length] in *.
    eapply yields_bind; [by apply (yields_operator file)|]. cbn.
    eapply yields_bind; [apply Ha; [rewrite !stream_size_app; lia|]|].
    + destruct l as [|b l]; [apply Hf; done|]. unfold more. cbn [map List.concat]. rewrite <- !app_assoc. by apply follow_and.
    + replace (acc ++ a :: l)%list with ((acc ++ [a]) ++ l)%list by (by rewrite <- app_assoc).
      apply IH; [done| |done|rewrite ?stream_size_app; lia..]. intros Hne. destruct l as [|b l]; [done|].
      apply Hf. done.
Qed.

Lemma print_and level a b l : level <= 1 -> print level (Spec.And (a :: b :: l)) = (print 2 a ++ more (b :: l))%list.
Proof.
  intros Hl. cbn [print]. rewrite (proj2 (Nat.leb_gt 2 level)) by lia. done.
Qed.

Lemma reads_and a b l : Forall (reads 2) (a :: b :: l) -> reads 1 (Spec.And (a :: b :: l)).
Proof.
  intros [Ha HF]%Forall_cons m rest Hm Hr. rewrite ends_group_and, print_and in * by lia.
  rewrite <- app_assoc in *. unfold level_parser, parse_conjunction.
  pose proof Hm as Hm'. rewrite stream_size_app in Hm'.
  eapply yields_bind; [apply Ha; [done|]|].
  - unfold more. cbn [map List.concat]. rewrite <- !app_assoc. by apply follow_and.
  - apply yields_get. intros l0 src. cbn [Parser.tokens].
    eapply yields_bind; [apply yields_more; [done| | |lia..]|].
    + intros _. by eapply follow_up.
    + eapply follow_no_and; [|done]. lia.
    + apply yields_ret.
Qed.

(** *** Implications *)

Lemma reads_implies lhs rhs : reads 1 lhs -> reads 0 rhs -> reads 0 (Spec.Implies lhs rhs).
Proof.
  intros Hl Hr m rest Hm Hf. cbn [print ends_group Nat.leb wrap] in *. rewrite <- !app_assoc in *.
  pose proof Hm as Hm'. rewrite !stream_size_app, operator_size in Hm'. cbn [String.length] in Hm'.
  cbn [level_parser parse_prusti_fuel]. unfold parse_prusti_body.
  eapply yields_bind; [apply Hl; [done|by apply follow_implies]|].
  eapply yields_bind; [by apply (yields_operator file)|]. cbn. destruct m as [|m]; [lia|].
  eapply yields_bind; [apply Hr; [rewrite stream_size_app; lia|done]|]. apply yields_ret.
Qed.

(** *** Arguments and triggers *)

Lemma no_bar_stop args rest :
  Forall (fun t => peek_operator "|" [t] = false) (print_args args) ->
  forall i, i < length (print_args args) -> peek_operator "|" (drop i (print_args args) ++ rest)%list = false.
Proof.
  intros HF i Hi. destruct (lookup_lt_is_Some_2 _ _ Hi) as [t Ht]. rewrite (drop_S _ t) by done.
  rewrite Forall_lookup in HF. specialize (HF i t Ht). cbn [app]. rewrite peek_cons in *. by destruct (is_char _ _).
Qed.

Lemma yields_args args rest :
  Forall (fun t => peek_operator "|" [t] = false) (print_args args) ->
  yields (create_stream_until "|") (print_args args ++ operator_tokens "|" ++ rest)%list (print_args args)
    (operator_tokens "|" ++ rest)%list.
Proof. intros HF. apply yields_until; [by apply no_bar_stop|]. right. apply peek_operator_tokens. Qed.

Lemma yields_sequence {A B} (f : A -> P B) l l' t :
  Forall2 (fun a b => yields (f a) t b t) l l' -> yields (sequence (map f l)) t l' t.
Proof.
  induction 1 as [|a b l l' Hab _ IH]; cbn; [apply yields_ret|].
  eapply yields_bind; [exact Hab|]. eapply yields_bind; [exact IH|]. apply yields_ret.
Qed.

Lemma yields_remaining ts : yields create_stream_remaining ts ts [].
Proof. pose proof (yields_until (fun _ => false) ts []) as Hy. rewrite app_nil_r in Hy. apply Hy; auto. Qed.

Lemma yields_triggers ts : Spec.triggers ts = [] \/ readable_triggers print_array ts ->
  yields parse_triggers (print_triggers ts) ts [].
Proof.
  destruct ts as [[|t ts]]; intros Ht.
  { eapply yields_bind; [by apply yields_no_operator|]. apply yields_ret. }
  destruct Ht as [?|(items & Hp & HF)]; [done|]. unfold parse_triggers, PreparserRoundTrip.print_triggers. cbn [Spec.triggers].
  eapply yields_bind; [by apply (yields_operator file)|]. eapply yields_bind; [apply yields_keyword|].
  eapply yields_bind; [by apply (yields_operator file)|]. eapply yields_bind; [apply yields_remaining|].
  rewrite Hp. eapply yields_bind; [apply yields_sequence|apply yields_ret].
  eapply Forall2_impl; [exact HF|]. intros item [tms] (elems & E & Ht). cbn in Ht. subst tms. unfold trigger_of. rewrite E.
  apply yields_ret.
Qed.

(** *** Quantifiers *)

Lemma yields_bar_args m args ts body rest (exists_ : bool) :
  readable_args print_args args ->
  yields (parse_prusti_fuel m) (body ++ rest)%list ts rest -> forall trig, yields parse_triggers rest trig [] ->
  yields (extract_quantifier_rhs (parse_prusti_fuel m) exists_) (bar_args args ++ body ++ rest)%list
    (if exists_ then Spec.Exists (Spec.make_vars dummy tt args) trig ts
     else Spec.ForAll (Spec.make_vars dummy tt args) trig ts) [].
Proof.
  intros (Hne & Hb & Hp) Hbody trig Ht. unfold extract_quantifier_rhs, PreparserRoundTrip.bar_args. rewrite <- !app_assoc.
  eapply yields_bind; [by apply (yields_operator file)|]. eapply yields_bind; [by apply yields_args|].
  destruct (print_args args) as [|t0 ts0] eqn:E; [done|]. rewrite <- E in *.
  eapply yields_bind; [by apply yields_of_syn|]. eapply yields_bind; [by apply (yields_operator file)|].
  eapply yields_bind; [exact Hbody|]. eapply yields_bind; [exact Ht|]. destruct exists_; apply yields_ret.
Qed.

Lemma reads_quantifier (exists_ : bool) vs ts body :
  readable_quantifier print_args print_array vs ts body -> reads 0 body ->
  reads 2 (if exists_ then Spec.Exists vs ts body else Spec.ForAll vs ts body).
Proof.
  intros (Hvs & Ha & Ht) Hb m rest Hm Hr.
  assert (E : print 2 (if exists_ then Spec.Exists vs ts body else Spec.ForAll vs ts body)
    = keyword_group (if exists_ then "exists" else "forall") (bar_args (Spec.vars vs) ++ print 0 body ++ print_triggers ts))
    by (by destruct exists_).
  rewrite E in *. clear E Hr. unfold keyword_group, in_parens in *. cbn [app] in *.
  rewrite !stream_size_cons, group_size, !stream_size_app in Hm. destruct m as [|m]; [cbn in Hm; lia|].
  unfold level_parser, parse_entailment. eapply yields_bind; [apply yields_peek|].
  replace (starts_primary _) with true by (by destruct exists_). unfold parse_primary.
  eapply yields_bind; [by apply yields_no_group|].
  assert (Hq : yields (parse_quantifier (parse_prusti_fuel (S m)) exists_)
    (Token.Group Delimiter.Parenthesis (bar_args (Spec.vars vs) ++ print 0 body ++ print_triggers ts) call_site :: rest)
    (if exists_ then Spec.Exists vs ts body else Spec.ForAll vs ts body) rest).
  { eapply yields_bind; [apply yields_group|]. apply yields_in_stream. rewrite Hvs. apply yields_bar_args; [done| |].
    - apply (Hb m); [rewrite stream_size_app; cbn in Hm; lia|]. unfold PreparserRoundTrip.print_triggers.
      destruct Ht as [->|[_ Hg]]; [constructor|]. destruct (Spec.triggers ts); by constructor.
    - apply yields_triggers. tauto. }
  destruct exists_.
  - eapply yields_bind; [by apply yields_no_keyword|]. cbn. eapply yields_bind; [apply yields_keyword|]. exact Hq.
  - eapply yields_bind; [apply yields_keyword|]. exact Hq.
Qed.

(** *** Entailments *)

Definition condition (b : bool) (a : Assertion) : list TokenTree :=
  keyword_group (if b then "requires" else "ensures") (print 0 a).

Definition conditions (l : list (bool * Assertion)) : list TokenTree :=
  List.concat (map (fun i => operator_tokens "," ++ i)%list (map (fun c => condition (fst c) (snd c)) l)).

Definition condition_ok (a : Assertion) : Prop :=
  print 0 a <> [] /\ unambiguous print_expr print_args print_array a /\ reads 0 a.

Lemma yields_condition m a rest :
  condition_ok a -> stream_size (print 0 a) <= m ->
  yields (parse_condition (parse_prusti_fuel (S m))) (in_parens (print 0 a) ++ rest)%list a rest.
Proof.
  intros (Hne & Hu & Ha) Hm. eapply yields_bind; [apply yields_group|]. apply yields_in_stream.
  by apply yields_extract_assertion.
Qed.

(** One condition, after the comma. *)
Lemma yields_condition_then m fuel b a rest l1 l2 r1 r2 :
  condition_ok a -> stream_size (condition b a ++ rest)%list <= m ->
  yields (entailment_loop (parse_prusti_fuel m) fuel false (if b then l1 ++ [a] else l1) (if b then l2 else l2 ++ [a])%list)
    rest (r1, r2) [] ->
  yields
    (requires ← consume_keyword "requires";
     if (requires : bool) then
       pre ← parse_condition (parse_prusti_fuel m); entailment_loop (parse_prusti_fuel m) fuel false (l1 ++ [pre])%list l2
     else
       ensures ← consume_keyword "ensures";
       if (ensures : bool) then
         post ← parse_condition (parse_prusti_fuel m); entailment_loop (parse_prusti_fuel m) fuel false l1 (l2 ++ [post])%list
       else error_expected "`requires` or `ensures`")
    (condition b a ++ rest)%list (r1, r2) [].
Proof.
  intros Ha Hm Hl. unfold condition, keyword_group in *. cbn [app in_parens] in *.
  rewrite !stream_size_cons, group_size in Hm. destruct m as [|m]; [cbn in Hm; lia|]. destruct b.
  - eapply yields_bind; [apply yields_keyword|]. cbn.
    eapply yields_bind; [apply yields_condition; [done|cbn in Hm; lia]|exact Hl].
  - eapply yields_bind; [by apply yields_no_keyword|]. cbn. eapply yields_bind; [apply yields_keyword|]. cbn.
    eapply yields_bind; [apply yields_condition; [done|cbn in Hm; lia]|exact Hl].
Qed.

Definition select (b : bool) (l : list (bool * Assertion)) : list Assertion :=
  map snd (List.filter (fun c => Bool.eqb (fst c) b) l).

Lemma select_cons b c a l : select b ((c, a) :: l) = (if Bool.eqb c b then a :: select b l else select b l).
Proof. unfold select. cbn. by destruct (Bool.eqb c b). Qed.

Lemma yields_conditions m l : forall fuel l1 l2,
  Forall (fun c => condition_ok (snd c)) l -> stream_size (conditions l) < fuel -> stream_size (conditions l) <= m ->
  yields (entailment_loop (parse_prusti_fuel m) fuel false l1 l2) (conditions l)
    (l1 ++ select true l, l2 ++ select false l)%list [].
Proof.
  induction l as [|[b a] l IH]; intros [|fuel] l1 l2 HF Hf Hm; try lia; cbn [entailment_loop].
  - rewrite !app_nil_r. apply yields_get. intros l0 src. apply yields_ret.
  - apply Forall_cons in HF as [Ha HF].
    assert (E : conditions ((b, a) :: l) = (operator_tokens "," ++ condition b a ++ conditions l)%list)
      by (unfold conditions; cbn [map List.concat]; by rewrite <- !app_assoc).
    rewrite E in *. rewrite !stream_size_app, operator_size in *. cbn [String.length] in *.
    apply yields_get. intros l0 src. cbn [Parser.tokens operator_tokens app].
    eapply yields_bind; [apply (yields_operator file Hjoin Hsite ",")|]. cbn [negb].
    apply yields_condition_then; [done|rewrite stream_size_app; lia|]. rewrite !select_cons. destruct b; cbn [Bool.eqb].
    + replace (l1 ++ a :: select true l)%list with ((l1 ++ [a]) ++ select true l)%list by (by rewrite <- app_assoc).
      apply IH; [done|lia..].
    + replace (l2 ++ a :: select false l)%list with ((l2 ++ [a]) ++ select false l)%list by (by rewrite <- app_assoc).
      apply IH; [done|lia..].
Qed.

Definition all_conditions (pres posts : list Assertion) : list (bool * Assertion) :=
  (map (fun a => (true, a)) pres ++ map (fun a => (false, a)) posts)%list.

Definition condition_stream (l : list (bool * Assertion)) : list TokenTree :=
  separated "," (map (fun c => condition (fst c) (snd c)) l).

Lemma condition_stream_all pres posts :
  separated "," (map (fun a => keyword_group "requires" (print 0 a)) pres
                 ++ map (fun a => keyword_group "ensures" (print 0 a)) posts)%list
  = condition_stream (all_conditions pres posts).
Proof. unfold condition_stream, all_conditions. by rewrite map_app, !map_map. Qed.

Lemma select_all pres posts :
  select true (all_conditions pres posts) = pres /\ select false (all_conditions pres posts) = posts.
Proof.
  unfold select, all_conditions. rewrite !List.filter_app, !map_app.
  assert (Hs : forall b b' (l : list Assertion),
    map snd (List.filter (fun c : bool * Assertion => Bool.eqb (fst c) b) (map (fun a => (b', a)) l))
    = if Bool.eqb b' b then l else []).
  { intros b b' l. induction l as [|a l IH]; cbn; [by destruct (Bool.eqb b' b)|].
    destruct (Bool.eqb b' b); cbn; congruence. }
  rewrite !Hs. cbn. by rewrite app_nil_r.
Qed.

Lemma condition_stream_cons b a l :
  condition_stream ((b, a) :: l) = (condition b a ++ conditions l)%list.
Proof. reflexivity. Qed.

Lemma yields_condition_stream m fuel l :
  Forall (fun c => condition_ok (snd c)) l -> stream_size (condition_stream l) <= fuel ->
  stream_size (condition_stream l) <= m ->
  yields (entailment_loop (parse_prusti_fuel m) (S fuel) true [] []) (condition_stream l) (select true l, select false l) [].
Proof.
  intros HF Hf Hm. cbn [entailment_loop]. apply yields_get. intros l1 src1. cbn [Parser.tokens].
  destruct l as [|[b a] l]; [apply yields_ret|]. apply Forall_cons in HF as [Ha HF]. rewrite condition_stream_cons in *.
  destruct (condition b a ++ conditions l)%list as [|t ts] eqn:Et; [done|]. rewrite <- Et in *. clear Et.
  eapply yields_bind; [apply yields_ret|]. cbn [negb].
  apply (yields_condition_then m _ b a (conditions l) [] []); [done..|]. rewrite !select_cons.
  assert (Hp : 1 <= stream_size (condition b a)) by
    (unfold condition, keyword_group; rewrite stream_size_cons; cbn; lia).
  rewrite stream_size_app in *. destruct b; cbn [Bool.eqb app];
    [apply (yields_conditions m l fuel [a] [])|apply (yields_conditions m l fuel [] [a])]; (done || lia).
Qed.

Lemma yields_entailment_rhs m closure vs pres posts :
  readable_binders print_args vs -> Forall condition_ok pres -> Forall condition_ok posts ->
  stream_size (condition_stream (all_conditions pres posts)) <= m ->
  yields (extract_entailment_rhs (parse_prusti_fuel m) closure (Spec.args vs))
    (condition_stream (all_conditions pres posts)) (Spec.SpecEntailment closure vs pres posts) [].
Proof.
  intros (t & Ht & Hvs & _) H1 H2 Hm. destruct (select_all pres posts) as [Es1 Es2].
  assert (HF : Forall (fun c => condition_ok (snd c)) (all_conditions pres posts))
    by (apply Forall_app; split; by apply Forall_map).
  unfold extract_entailment_rhs. apply yields_get. intros l0 src. cbn [Parser.tokens].
  eapply yields_bind; [by apply yields_condition_stream|]. rewrite Es1, Es2.
  unfold result_arg. rewrite Ht. eapply yields_bind; [apply yields_ret|]. cbn [fst snd]. rewrite Hvs. apply yields_ret.
Qed.

Lemma yields_entailment_args args rest :
  args = [] \/ readable_args print_args args -> peek_operator "|" rest = false ->
  yields parse_entailment_args (entailment_args args ++ rest)%list args rest.
Proof.
  intros Ha Hr. destruct args as [|arg args].
  - eapply yields_bind; [by apply yields_no_operator|]. apply yields_ret.
  - destruct Ha as [?|(Hne & Hb & Hp)]; [done|]. unfold PreparserRoundTrip.entailment_args, PreparserRoundTrip.bar_args.
    rewrite <- !app_assoc.
    eapply yields_bind; [by apply (yields_operator file)|]. cbn. eapply yields_bind; [by apply yields_args|].
    eapply yields_bind; [by apply yields_of_syn|]. eapply yields_bind; [by apply (yields_operator file)|]. apply yields_ret.
Qed.

Lemma reads_entailment closure vs pres posts :
  rust_expression print_expr closure -> readable_binders print_args vs ->
  Forall condition_ok pres -> Forall condition_ok posts ->
  reads 2 (Spec.SpecEntailment closure vs pres posts).
Proof.
  intros Hc Hvs H1 H2 m rest Hm Hr. cbn [print ends_group] in *. clear Hr.
  rewrite condition_stream_all in *. rewrite <- !app_assoc in *.
  rewrite !stream_size_app in Hm. cbn [app] in *. rewrite stream_size_cons, group_size in Hm.
  pose proof Hc as (_ & Hrust & _). unfold level_parser, parse_entailment.
  eapply yields_bind; [apply yields_peek|]. rewrite not_primary by (done || right; by eexists).
  eapply yields_bind; [apply yields_rust_expression; [done|]|].
  { right. unfold ends_rust. by rewrite peek_operator_tokens. }
  eapply yields_bind; [by apply (yields_operator file)|]. cbv beta iota.
  eapply yields_bind; [apply (yields_entailment_args (Spec.args vs))|].
  { by destruct Hvs as (_ & _ & _ & ?). }
  { done. }
  eapply yields_bind; [apply yields_group|]. cbn. apply yields_in_stream. apply yields_entailment_rhs; try done. lia.
Qed.

(** *** Every assertion *)

Lemma print_nonempty a : readable a -> forall level, print level a <> [].
Proof.
  destruct a as [e|[|a [|b l]]|lhs rhs|vs body|vs ts body|vs ts body|c vs pres posts]; cbn [readable];
    intros [_ Hr] level; cbn [print]; try done.
  - by destruct Hr as (_ & [Hne _ _ _ _] & _).
  - by destruct Hr.
  - destruct (Nat.leb 2 level); [done|]. intros E%(f_equal length). cbn [wrap separated map List.concat] in E.
    rewrite !length_app, length_operator_tokens in E. cbn in E. lia.
  - destruct (Nat.leb 1 level); [done|]. intros E%(f_equal length). cbn [wrap] in E.
    rewrite !length_app, length_operator_tokens in E. cbn in E. lia.
  - intros E%(f_equal length). rewrite !length_app, length_operator_tokens in E. cbn in E. lia.
Qed.

Definition reads_all (a : Assertion) : Prop := reads 0 a /\ reads 1 a /\ reads 2 a.

Lemma reads_all_entailment a :
  (forall level, ends_group level a = ends_group 0 a) -> (forall level, print level a = print 0 a) ->
  reads 2 a -> reads_all a.
Proof.
  intros G P Ha.
  assert (Hc : reads 1 a).
  { apply reads_conjunction; [|by rewrite P, (P 2)|done]. intros rest Hr. rewrite G, <- (G 1). by eapply follow_up. }
  split; [|done]. by apply reads_prusti.
Qed.

Lemma reads_all_conjunction a b l : Forall (reads 2) (a :: b :: l) -> readable (Spec.And (a :: b :: l)) ->
  reads_all (Spec.And (a :: b :: l)).
Proof.
  intros HF Hr. pose proof (reads_and a b l HF) as H1.
  assert (H0' : reads 0 (Spec.And (a :: b :: l))) by (by apply reads_prusti).
  split; [done|]. split; [done|]. apply reads_parens; try done; [by apply print_nonempty|]. by destruct Hr.
Qed.

Lemma reads_all_implies lhs rhs : reads_all lhs -> reads_all rhs -> readable (Spec.Implies lhs rhs) ->
  reads_all (Spec.Implies lhs rhs).
Proof.
  intros (_ & Hl & _) (Hr & _) Hread. pose proof (reads_implies lhs rhs Hl Hr) as H0'.
  assert (H2 : reads 2 (Spec.Implies lhs rhs)).
  { apply reads_parens; try done; [by apply print_nonempty|]. by destruct Hread. }
  split; [done|]. split; [|done]. apply reads_conjunction; [|done..]. intros rest Hf. by eapply follow_up.
Qed.

Lemma readable_unambiguous a : readable a -> unambiguous print_expr print_args print_array a.
Proof. destruct a; by intros []. Qed.

Lemma readable_condition_ok a : (readable a -> reads_all a) -> readable a -> condition_ok a.
Proof.
  intros Ha Hr. split; [by apply print_nonempty|]. split; [by apply readable_unambiguous|]. by destruct (Ha Hr).
Qed.

Lemma readable_reads a : readable a -> reads_all a.
Proof.
  induction a as [e|l IH|lhs rhs IHl IHr|vs body _|vs ts body IH|vs ts body IH|c vs pres posts IH1 IH2]
    using Spec.Assertion_ind'; intros Hr; pose proof Hr as [_ Hr']; fold readable in Hr'.
  - apply reads_all_entailment; [done..|]. by apply reads_expr.
  - destruct Hr' as [Hlen HF%all_of_Forall]. destruct l as [|a [|b l]]; [|done|].
    + apply reads_all_entailment; [done..|]. intros m rest Hm Hf. unfold level_parser, parse_entailment.
      eapply yields_bind; [apply yields_peek|]. cbn [print in_parens app]. rewrite starts_group by done.
      eapply yields_bind; [apply yields_group|]. apply yields_in_stream. unfold extract_assertion. apply yields_get.
      intros. apply yields_ret.
    + apply reads_all_conjunction; [|done]. rewrite Forall_forall in *. intros x Hx. by destruct (IH x Hx (HF x Hx)) as (_ & _ & ?).
  - apply reads_all_implies; [apply IHl|apply IHr|done]; by destruct Hr'.
  - done.
  - apply reads_all_entailment; [done..|]. destruct Hr' as [Hq Hb]. by apply (reads_quantifier false), IH.
  - apply reads_all_entailment; [done..|]. destruct Hr' as [Hq Hb]. by apply (reads_quantifier true), IH.
  - destruct Hr' as (Hc & Hvs & H1%all_of_Forall & H2%all_of_Forall).
    apply reads_all_entailment; [done..|]. apply reads_entailment; [done..| |]; rewrite Forall_forall in *;
      intros x Hx; apply readable_condition_ok; auto.
Qed.

Lemma yields_prusti a rest : reads 0 a -> follow 0 (ends_group 0 a) rest ->
  yields parse_prusti (print 0 a ++ rest)%list a rest.
Proof. intros Ha Hr l src. by apply (Ha (stream_size (print 0 a ++ rest)%list)). Qed.

Lemma readable_parses a : readable a -> parse_stream (extract_assertion parse_prusti) (print 0 a) = Val a.
Proof.
  intros Hr. destruct (readable_reads a Hr) as [Ha _].
  assert (Hy : yields (extract_assertion parse_prusti) (print 0 a) a []).
  { pose proof (print_nonempty a Hr 0) as Hne. pose proof (readable_unambiguous a Hr) as Hu.
    unfold extract_assertion. apply yields_get. intros l src. cbn [Parser.tokens].
    pose proof (yields_prusti a [] Ha (follow_end 0 _)) as Hp. rewrite app_nil_r in Hp. unfold unambiguous in Hu.
    destruct (print 0 a) as [|t ts] eqn:E; [done|]. eapply yields_bind; [by apply yields_lift|]. cbn.
    eapply yields_bind; [exact Hp|apply yields_at_end]. }
  unfold parse_stream. destruct (Hy None None) as [l' E]. unfold from_token_stream. by rewrite E.
Qed.

(** *** Pledges *)

Definition print_reference (r : Spec.Expression unit SynExpr) : list TokenTree :=
  (print_expr (Spec.expr r) ++ operator_tokens "=>")%list.

(** [after_expiry(reference => rhs)]. *)
Definition print_pledge_rhs (p : Spec.Pledge unit SynExpr Arg) : list TokenTree :=
  (match Spec.reference p with Some r => print_reference r | None => [] end ++ print 0 (Spec.rhs p))%list.

(** [after_expiry_if(reference => lhs, rhs)]. *)
Definition print_pledge (p : Spec.Pledge unit SynExpr Arg) (lhs : Assertion) : list TokenTree :=
  (match Spec.reference p with Some r => print_reference r | None => [] end
   ++ print 0 lhs ++ operator_tokens "," ++ print 0 (Spec.rhs p))%list.

(** A reference has no arrow of its own; without a reference there may be no
    arrow at all. *)
Definition readable_reference (r : option (Spec.Expression unit SynExpr)) (tokens : list TokenTree) : Prop :=
  match r with
  | Some r =>
      rust_expression print_expr r /\ forall i, i < length (print_expr (Spec.expr r)) ->
        ends_rust "=>" (drop i (print_expr (Spec.expr r))) = false
  | None => contains_operator tokens "=>" = false
  end.

Lemma contains_operator_app o (before after : list TokenTree) :
  0 < String.length o -> contains_operator (before ++ operator_tokens o ++ after)%list o = true.
Proof.
  intros Hl. unfold contains_operator. apply existsb_exists. exists (length before). split.
  - apply in_seq. rewrite !length_app, length_operator_tokens. lia.
  - replace (length before) with (length before + 0) by lia. rewrite peek_skip. apply peek_operator_tokens.
Qed.

Lemma yields_pledge_assertion r a tokens rest :
  tokens = (match r with Some r => print_reference r | None => [] end ++ print 0 a ++ rest)%list ->
  readable_reference r tokens -> readable a -> follow 0 (ends_group 0 a) rest ->
  yields (parse_pledge_assertion_only parse_prusti) tokens (r, a) rest.
Proof.
  intros -> Hr Ha Hf. destruct (readable_reads a Ha) as [Hreads _]. unfold parse_pledge_assertion_only.
  eapply yields_bind; [apply yields_peek|].
  eapply yields_bind; [|eapply yields_bind; [by apply yields_prusti|apply yields_ret]].
  destruct r as [r|]; cbn [readable_reference] in Hr.
  - destruct Hr as [(He & [Hne Hi Hc Hl Hs] & Hp) Hno]. unfold print_reference. rewrite <- !app_assoc.
    rewrite contains_operator_app by (cbn; lia).
    eapply yields_bind; [apply yields_rust; try done; right; unfold ends_rust; rewrite peek_operator_tokens; by rewrite ?orb_true_r|].
    eapply yields_bind; [by apply (yields_operator file)|]. rewrite He at 2. apply yields_ret.
  - cbn [app] in *. rewrite Hr. apply yields_ret.
Qed.

Lemma readable_pledge_rhs_parses p :
  Spec.lhs p = None -> readable_reference (Spec.reference p) (print_pledge_rhs p) -> readable (Spec.rhs p) ->
  parse_stream (extract_pledge_rhs_only parse_prusti) (print_pledge_rhs p) = Val p.
Proof.
  destruct p as [r lhs rhs]. cbn [Spec.lhs Spec.reference Spec.rhs]. intros -> Hr Ha.
  assert (Hy : yields (extract_pledge_rhs_only parse_prusti) (print_pledge_rhs (Spec.make_pledge r None rhs))
    (Spec.make_pledge r None rhs) []).
  { eapply yields_bind; [apply (yields_pledge_assertion r rhs); [|done|done|apply follow_end]|apply yields_at_end].
    unfold print_pledge_rhs. cbn. by rewrite app_nil_r. }
  unfold parse_stream. destruct (Hy None None) as [l' E]. unfold from_token_stream. by rewrite E.
Qed.

Lemma readable_pledge_parses p lhs :
  Spec.lhs p = Some lhs -> readable_reference (Spec.reference p) (print_pledge p lhs) ->
  readable lhs -> readable (Spec.rhs p) -> ends_group 0 lhs = false ->
  parse_stream (extract_pledge parse_prusti) (print_pledge p lhs) = Val p.
Proof.
  destruct p as [r lhs' rhs]. cbn [Spec.lhs Spec.reference Spec.rhs]. intros -> Hr Hl Ha Hg.
  destruct (readable_reads rhs Ha) as [Hreads _].
  assert (Hy : yields (extract_pledge parse_prusti) (print_pledge (Spec.make_pledge r (Some lhs) rhs) lhs)
    (Spec.make_pledge r (Some lhs) rhs) []).
  { eapply yields_bind; [|apply yields_at_end]. unfold parse_pledge.
    eapply yields_bind; [apply (yields_pledge_assertion r lhs); [done..|by apply follow_comma]|].
    eapply yields_bind; [by apply (yields_operator file)|]. cbn [fst snd].
    pose proof (yields_prusti rhs [] Hreads (follow_end 0 _)) as Hp. rewrite app_nil_r in Hp.
    eapply yields_bind; [exact Hp|apply yields_ret]. }
  unfold parse_stream. destruct (Hy None None) as [l' E]. unfold from_token_stream. by rewrite E.
Qed.
End RoundTrip.

(** *** A pledge without a reference *)

Section Implications.
Context `{SynCrate}.

Lemma split_until_first (stop : list TokenTree -> bool) tokens : forall taken rest, split_until stop tokens = (taken, rest) ->
  rest = drop (length taken) tokens /\ (rest = [] \/ stop rest = true) /\ forall i, i < length taken -> stop (drop i tokens) = false.
Proof.
  induction tokens as [|t tokens IH]; intros taken rest; cbn [split_until]; [intros [= <- <-]; split_and!; [done|by left|cbn; lia]|].
  destruct (stop (t :: tokens)) eqn:Es; [intros [= <- <-]; split_and!; [done|by right|cbn; lia]|].
  destruct (split_until stop tokens) as [taken' rest'] eqn:E. intros [= <- <-]. destruct (IH _ _ eq_refl) as (Hr & Hs & Hi). split_and!; [done..|].
  intros [|i] Hlt; cbn in *; [done|]. apply Hi. lia.
Qed.

Lemma peek_drop operator tokens i : peek_operator_stream_offset tokens operator i = true <-> i <= length tokens /\ peek_operator operator (drop i tokens) = true
  \/ length tokens < i /\ operator = EmptyString.
Proof.
  destruct (decide (i <= length tokens)) as [Hi|Hi].
  - pose proof (peek_skip operator (take i tokens) (drop i tokens) 0) as E. rewrite take_drop, length_take_le, Nat.add_0_r in E by done.
    unfold peek_operator. rewrite E. split; [by left|by intros [[_ ?]|[? _]]; [|lia]].
  - destruct operator; cbn; [split; [right; split; [lia|done]|done]|]. rewrite lookup_ge_None_2 by lia. cbn. split; [done|]. intros [[? _]|[_ ?]]; [lia|done].
Qed.

Lemma peek_first c operator tokens : peek_operator (String c operator) tokens = true ->
  exists sp rest, tokens = Token.Punct c sp :: rest /\ peek_operator operator rest = true.
Proof.
  destruct tokens as [|t tokens]; [done|]. rewrite peek_cons. intros [Ht Hp]%andb_prop. destruct t as [| |c' sp|]; cbn in Ht; try done.
  apply Ascii.eqb_eq in Ht as ->. by exists sp, tokens.
Qed.

(** The implications and the arrows at top level: no arrow but those inside
    implications. *)
Record only_implications (tokens : list TokenTree) : Prop := {
  has_implication : exists i, peek_operator "==>" (drop i tokens) = true;
  arrows_inside : forall i, peek_operator "=>" (drop i tokens) = true -> exists j, i = S j /\ peek_operator "==>" (drop j tokens) = true
}.

Lemma arrow_found tokens i : peek_operator "==>" (drop i tokens) = true -> contains_operator tokens "=>" = true.
Proof.
  intros Hp. apply peek_first in Hp as (sp & rest & E & Hp). unfold contains_operator. apply existsb_exists. exists (S i).
  assert (Hd : drop (S i) tokens = rest) by (rewrite <- Nat.add_1_r, <- drop_drop, E; done).
  assert (Hl : S i < length tokens).
  { apply peek_first in Hp as (sp' & rest' & -> & _). pose proof (f_equal length Hd) as Hl. rewrite length_drop in Hl. cbn in Hl. lia. }
  split; [apply in_seq; lia|]. apply peek_drop. left. rewrite Hd. split; [lia|done].
Qed.

(** An assertion does not start with an operator. *)
Lemma operator_is_no_assertion s : peek_operator "|=" (Parser.tokens s) || peek_operator "&&" (Parser.tokens s) || peek_operator "==>" (Parser.tokens s) = true ->
  parse_prusti s = Err (Error.New (get_error_span s) "expected expression").
Proof.
  intros Hp. destruct s as [tokens l src]. cbn [Parser.tokens] in Hp.
  assert (Hpunct : exists c sp rest, tokens = Token.Punct c sp :: rest).
  { apply orb_prop in Hp as [[Hp|Hp]%orb_prop|Hp]; apply peek_first in Hp as (sp & rest & -> & _); by eexists _, _, _. }
  assert (Hstop : split_until (ends_rust ",") tokens = ([], tokens)).
  { destruct Hpunct as (c & sp & rest & ->). cbn [split_until]. unfold ends_rust. by rewrite Hp. }
  assert (Hprimary : starts_primary tokens = false) by (destruct Hpunct as (c & sp & rest & ->); done).
  unfold parse_prusti. cbn [Parser.tokens]. generalize (stream_size tokens) as n. intros n. cbn [parse_prusti_fuel].
  unfold parse_prusti_body, parse_conjunction, parse_entailment, peek, mbind, ST_bind, get_st, mret, ST_ret. cbn [Parser.tokens]. rewrite Hprimary.
  unfold parse_rust_until, pop_until, mbind, ST_bind. cbn [Parser.tokens]. by rewrite Hstop.
Qed.

(** The arrow [=>] of a reference is found inside [==>]: the text before the
    implication is read as the reference, and the assertion that should
    follow starts with an operator. *)
Lemma implication_is_no_pledge file tokens : one_file file -> stream_in file tokens -> only_implications tokens ->
  exists e, parse_pledge_assertion_only parse_prusti (from_token_stream tokens) = Err e.
Proof.
  intros Hf Hin [[i Hi] Harrows]. unfold parse_pledge_assertion_only, peek, mbind, ST_bind, get_st, mret, ST_ret. cbn [Parser.tokens from_token_stream].
  rewrite (arrow_found tokens i Hi). pose proof (wp_rust_until file Hf "=>" (from_token_stream tokens) Hin) as Hw. unfold post in Hw.
  unfold from_token_stream in Hw. destruct (parse_rust_until "=>" _) as [[e s']|e|] eqn:E; [|by exists e|done]. clear Hw.
  unfold parse_rust_until, pop_until, mbind, ST_bind in E. cbn [Parser.tokens] in E. destruct (split_until (ends_rust "=>") tokens) as [taken rest] eqn:Es.
  destruct (split_until_first _ _ _ _ Es) as (Hrest & Hstop & Hbefore).
  assert (Hs' : Parser.tokens s' = rest).
  { destruct (contains_operator_recursive taken "==>") as [[sp|]|]; cbn in E; try done. destruct taken as [|t taken]; [done|].
    unfold of_syn, mbind, ST_bind in E. destruct (parse2 parse_expr _); cbn in E; [done|]. by injection E as _ <-. }
  assert (Hi' : i < length taken -> False).
  { intros Hlt. specialize (Hbefore i Hlt). unfold ends_rust in Hbefore. by rewrite Hi, orb_true_r in Hbefore. }
  assert (Hends : ends_rust "=>" rest = true).
  { destruct Hstop as [->|]; [|done]. exfalso. apply Hi'. destruct (decide (i < length taken)) as [|Hge]; [done|]. exfalso.
    assert (Hd : drop i tokens = drop (i - length taken) (drop (length taken) tokens)) by (rewrite drop_drop; f_equal; lia).
    by rewrite Hd, <- Hrest, drop_nil in Hi. }
  assert (Hno : peek_operator "=>" rest = false).
  { apply not_true_iff_false. intros Ha. rewrite Hrest in Ha. apply Harrows in Ha as (j & Ej & Hj). specialize (Hbefore j ltac:(lia)).
    unfold ends_rust in Hbefore. by rewrite Hj, orb_true_r in Hbefore. }
  unfold consume_operator. rewrite Hs', Hno. rewrite operator_is_no_assertion; [by eexists|].
  unfold ends_rust in Hends. rewrite Hno, orb_false_r in Hends. by rewrite Hs'.
Qed.

Lemma implication_rejected file tokens : one_file file -> stream_in file tokens -> only_implications tokens ->
  (exists e, parse_stream (extract_pledge parse_prusti) tokens = Err e) /\ exists e, parse_stream (extract_pledge_rhs_only parse_prusti) tokens = Err e.
Proof.
  intros Hf Hin Ho. destruct (implication_is_no_pledge file tokens Hf Hin Ho) as [e E].
  unfold parse_stream, extract_pledge, extract_pledge_rhs_only, parse_pledge, mbind, ST_bind. rewrite E. by split; exists e.
Qed.
End Implications.

(** An assertion that is printed is read back as it was, through all levels
    of the grammar. *)
(** C13. The tokens of a readable assertion, printed with the parentheses that the precedence of
    the operators requires, are parsed to the assertion: implications, conjunctions, quantifiers
    with triggers, specification entailments and parenthesised assertions. All spans are of one
    file, so that they can be joined. Readable: no part of the text mixes && and ||; no
    conjunction has just one operand; the Rust expressions have no operator of Prusti at top
    level, do not look like a quantifier, an entailment or a parenthesised assertion, and syn
    reads them back, as well as arguments and triggers; and the body of a quantifier with
    triggers does not end with parentheses (the code rejects those). *)
Theorem print_parse_roundtrip `{SynCrate} file print_expr print_args print_array (a : Spec.Assertion unit SynExpr Arg) :
  one_file file -> file call_site -> readable print_expr print_args print_array a ->
  parse_stream (extract_assertion parse_prusti) (print print_expr print_args print_array 0 a) = Val a.
Proof. exact (fun Hj Hs => readable_parses file Hj Hs print_expr print_args print_array a). Qed.

(** So is a pledge with a condition, when its arrows are those of the
    reference and its condition does not end in parentheses. *)
Theorem pledge_roundtrip `{SynCrate} file print_expr print_args print_array (p : Spec.Pledge unit SynExpr Arg) lhs :
  one_file file -> file call_site -> Spec.lhs p = Some lhs ->
  readable_reference print_expr (Spec.reference p) (print_pledge print_expr print_args print_array p lhs) ->
  readable print_expr print_args print_array lhs -> readable print_expr print_args print_array (Spec.rhs p) ->
  ends_group 0 lhs = false ->
  parse_stream (extract_pledge parse_prusti) (print_pledge print_expr print_args print_array p lhs) = Val p.
Proof. exact (fun Hj Hs => readable_pledge_parses file Hj Hs print_expr print_args print_array p lhs). Qed.

(** A pledge without a reference whose assertion has an implication is
    rejected. *)
(** C33. A pledge without a reference that has an implication at top level is rejected, also by
    `after_expiry`: for every stream of tokens of one file that has a top-level `==>` and no
    top-level `=>` but the ends of these, both parsers of pledges return an error, because the
    arrow of a reference is also found inside the arrow of an implication. *)
Theorem pledge_implication_rejected `{SynCrate} file tokens : one_file file -> stream_in file tokens -> only_implications tokens ->
  (exists e, parse_stream (extract_pledge parse_prusti) tokens = Err e) /\ exists e, parse_stream (extract_pledge_rhs_only parse_prusti) tokens = Err e.
Proof. exact (implication_rejected file tokens). Qed.

(** ** Concrete assertions *)

Module ConcretePrint.
Import Concrete.

Definition print_expr (e : list TokenTree) : list TokenTree := e.
Definition print_args (args : list Arg) : list TokenTree :=
  separated "," (map (fun a => [ident (ident_name (Arg.name a))] ++ op ":" ++ [ident (Arg.typ a)])%list args).
Definition print_array (ts : Spec.TriggerSet unit SynExpr) : list TokenTree :=
  [group Delimiter.Bracket (List.concat (map (fun t => map (fun e => paren (Spec.expr e)) (Spec.terms t)) (Spec.triggers ts)))].

Definition vars : list Arg := [Arg.make (make_ident "x" tt) "i32"; Arg.make (make_ident "y" tt) "u32"].

(** [forall(|x: i32, y: u32| p && (q ==> r) && s, triggers=[(t)])]. *)
Definition quantified : Spec.Assertion unit SynExpr Arg :=
  Spec.ForAll (Spec.make_vars dummy tt vars) (Spec.make_trigger_set [Spec.make_trigger [new_expression [ident "t"]]])
    (Spec.And [leaf "p"; Spec.Implies (leaf "q") (leaf "r"); leaf "s"]).

(** [f |= |x: i32, y: u32| [requires(p), ensures(q)]]. *)
Definition entailment : Spec.Assertion unit SynExpr Arg :=
  Spec.SpecEntailment (new_expression [ident "f"])
    (Spec.make_entailment_vars dummy tt tt vars (Arg.make (make_ident "result" tt) "i32")) [leaf "p"] [leaf "q"].

Definition example : Spec.Assertion unit SynExpr Arg := Spec.Implies (Spec.And [quantified; Spec.And []]) entailment.

Lemma rust_ident name : name <> "forall" -> name <> "exists" -> rust_expression print_expr (new_expression [ident name]).
Proof.
  intros H1 H2. split; [done|]. split; [|done]. constructor; [done| |done|by intros t [= <-]|].
  - intros [|i] Hi; [done|cbn in Hi; lia].
  - unfold not_assertion. cbn. apply (peq_false_iff (A := string)) in H1, H2. by rewrite H1, H2.
Qed.

Lemma readable_vars : readable_args print_args vars.
Proof. split; [done|]. split; [|done]. by repeat constructor. Qed.

Lemma readable_leaf name : name <> "forall" -> name <> "exists" -> readable print_expr print_args print_array (leaf name).
Proof. intros H1 H2. split; [done|]. by apply rust_ident. Qed.

Lemma readable_quantified : readable print_expr print_args print_array quantified.
Proof.
  split; [vm_compute; reflexivity|]. split.
  - split; [done|]. split; [exact readable_vars|]. right. split; [|done].
    exists [[paren [ident "t"]]]. split; [done|]. constructor; [|constructor]. by exists [[ident "t"]].
  - split; [vm_compute; reflexivity|]. split; [done|]. repeat split; try done; try (vm_compute; reflexivity);
      try (by apply readable_leaf); by apply rust_ident.
Qed.

Lemma readable_entailment : readable print_expr print_args print_array entailment.
Proof.
  split; [vm_compute; reflexivity|]. split; [by apply rust_ident|]. split.
  - exists "i32". split; [done|]. split; [done|]. right. exact readable_vars.
  - by repeat split; try (by apply readable_leaf); apply rust_ident.
Qed.

Lemma readable_example : readable print_expr print_args print_array example.
Proof.
  split; [vm_compute; reflexivity|]. split; [|exact readable_entailment].
  split; [vm_compute; reflexivity|]. split; [done|]. split; [exact readable_quantified|]. by repeat split.
Qed.

(** [r => p, q]. *)
Definition pledge : Spec.Pledge unit SynExpr Arg :=
  Spec.make_pledge (Some (new_expression [ident "r"])) (Some (leaf "p")) (leaf "q").

Lemma no_arrow name : forall i, i < length [ident name] -> ends_rust "=>" (drop i [ident name]) = false.
Proof. intros [|i] Hi; [done|cbn in Hi; lia]. Qed.

(** [a && b || c] in a pledge is read as [a && (b || c)]: only assertions are
    checked for mixed operators. *)
Example pledge_mixes_operators :
  parse_stream (extract_pledge_rhs_only parse_prusti) ([ident "a"] ++ op "&&" ++ [ident "b"] ++ op "||" ++ [ident "c"])%list
  = Val (Spec.make_pledge None None (Spec.And [leaf "a"; Spec.Expr (new_expression ([ident "b"] ++ op "||" ++ [ident "c"])%list)])).
Proof. vm_compute. reflexivity. Qed.

(** [forall(|x: i32| (p ==> q), triggers=[(t)])]: a body in parentheses
    before triggers is taken for a Rust expression. *)
Example parentheses_before_triggers :
  run_parser [ident "forall"; paren (op "|" ++ [ident "x"] ++ op ":" ++ [ident "i32"] ++ op "|"
    ++ [paren ([ident "p"] ++ op "==>" ++ [ident "q"])] ++ op "," ++ [ident "triggers"] ++ op "="
    ++ [group Delimiter.Bracket [paren [ident "t"]]])%list]
  = Err (error_no_implies tt).
Proof. vm_compute. reflexivity. Qed.
End ConcretePrint.
Import Concrete ConcretePrint.

Lemma print_parse_roundtrip_witness :
  parse_stream (extract_assertion parse_prusti) (print print_expr print_args print_array 0 example) = Val example.
Proof. apply (print_parse_roundtrip anywhere); [exact one_file_anywhere|done|exact readable_example]. Defined.

Lemma pledge_roundtrip_witness :
  parse_stream (extract_pledge parse_prusti) (print_pledge print_expr print_args print_array pledge (Concrete.leaf "p"))
  = Val pledge.
Proof.
  apply (pledge_roundtrip anywhere); [exact one_file_anywhere|done|reflexivity| |by apply readable_leaf|by apply readable_leaf|reflexivity].
  split; [by apply rust_ident|apply no_arrow].
Defined.

(** [(a ==> b) && c ==> d]. *)
Definition nested_implication : list TokenTree :=
  ([paren ([ident "a"] ++ op "==>" ++ [ident "b"])] ++ op "&&" ++ [ident "c"] ++ op "==>" ++ [ident "d"])%list.

Lemma nested_implication_arrows : only_implications nested_implication.
Proof.
  split; [by exists 4|]. intros i Hi. do 8 (destruct i as [|i]; [first [vm_compute in Hi; discriminate Hi|eexists; split; [reflexivity|vm_compute; reflexivity]]|]).
  rewrite drop_ge in Hi by (cbn; lia). discriminate Hi.
Qed.

Lemma pledge_implication_rejected_witness :
  (exists e, parse_stream (extract_pledge parse_prusti) nested_implication = Err e)
  /\ exists e, parse_stream (extract_pledge_rhs_only parse_prusti) nested_implication = Err e.
Proof. exact (pledge_implication_rejected anywhere nested_implication one_file_anywhere (stream_anywhere _) nested_implication_arrows). Defined.
