(* ===== verification/Untyped.v ===== *)
(** * Untyped assertions

    [prusti-specs/src/specifications/untyped.rs] and [json.rs]: expressions
    get identifiers, every expression becomes a closure for the type checker,
    marked with its identifier, and the structure of the assertion, with the
    identifiers only, is stored as JSON.  How expressions and types are
    written as tokens is the crate [quote]; the text of the JSON is
    [serde_json]. *)

From S2P Require Import Prelude Collections Specs Preparser.
From stdpp Require Import pretty.

Class QuoteCrate `{SynCrate} := {
  expr_tokens : SynExpr -> list TokenTree;
  type_tokens : SynType -> list TokenTree
}.

(** ** Identifiers *)

Section AssignId.
Context `{SynCrate}.

Definition assign_expression {E} (spec_id : SpecificationId) (self : Spec.Expression unit SynExpr) :
    ST Z E (Spec.Expression ExpressionId SynExpr) :=
  id ← generate_expression_id; mret (Spec.make_expression spec_id id (Spec.expr self)).

Definition assign_vars {E} (spec_id : SpecificationId) (self : Spec.QuantifierVars unit Arg) :
    ST Z E (Spec.QuantifierVars ExpressionId Arg) :=
  id ← generate_expression_id; mret (Spec.make_vars spec_id id (Spec.vars self)).

Definition assign_entailment_vars {E} (spec_id : SpecificationId) (self : Spec.SpecEntailmentVars unit Arg) :
    ST Z E (Spec.SpecEntailmentVars ExpressionId Arg) :=
  pre_id ← generate_expression_id;
  post_id ← generate_expression_id;
  mret (Spec.make_entailment_vars spec_id pre_id post_id (Spec.args self) (Spec.result self)).

Definition assign_trigger {E} (spec_id : SpecificationId) (self : Spec.Trigger unit SynExpr) :
    ST Z E (Spec.Trigger ExpressionId SynExpr) :=
  terms ← sequence (map (assign_expression spec_id) (Spec.terms self)); mret (Spec.make_trigger terms).

Definition assign_triggers {E} (spec_id : SpecificationId) (self : Spec.TriggerSet unit SynExpr) :
    ST Z E (Spec.TriggerSet ExpressionId SynExpr) :=
  triggers ← sequence (map (assign_trigger spec_id) (Spec.triggers self)); mret (Spec.make_trigger_set triggers).

Fixpoint assign_assertion {E} (spec_id : SpecificationId) (self : Spec.Assertion unit SynExpr Arg) :
    ST Z E (Spec.Assertion ExpressionId SynExpr Arg) :=
  match self with
  | Spec.Expr expr => expr ← assign_expression spec_id expr; mret (Spec.Expr expr)
  | Spec.And assertions => assertions ← sequence (map (assign_assertion spec_id) assertions); mret (Spec.And assertions)
  | Spec.Implies lhs rhs =>
      lhs ← assign_assertion spec_id lhs; rhs ← assign_assertion spec_id rhs; mret (Spec.Implies lhs rhs)
  | Spec.ForAll vars triggers body =>
      vars ← assign_vars spec_id vars;
      triggers ← assign_triggers spec_id triggers;
      body ← assign_assertion spec_id body;
      mret (Spec.ForAll vars triggers body)
  | Spec.Exists vars triggers body =>
      vars ← assign_vars spec_id vars;
      triggers ← assign_triggers spec_id triggers;
      body ← assign_assertion spec_id body;
      mret (Spec.Exists vars triggers body)
  | Spec.SpecEntailment closure arg_binders pres posts =>
      closure ← assign_expression spec_id closure;
      arg_binders ← assign_entailment_vars spec_id arg_binders;
      pres ← sequence (map (assign_assertion spec_id) pres);
      posts ← sequence (map (assign_assertion spec_id) posts);
      mret (Spec.SpecEntailment closure arg_binders pres posts)
  (* unimplemented! *)
  | Spec.TypeCond _ _ => panic
  end.

(** [assign_id] of an [Option]. *)
Definition assign_option {E A B} (assign : A -> ST Z E B) (self : option A) : ST Z E (option B) :=
  match self with
  | None => mret None
  | Some a => b ← assign a; mret (Some b)
  end.

(** [Assertion::parse] and [Pledge::parse]: the state is the generator of
    identifiers of expressions. *)
Definition parse_assertion (tokens : list TokenTree) (spec_id : SpecificationId) :
    ST Z Error (Spec.Assertion ExpressionId SynExpr Arg) :=
  assertion ← lift_o (parse_stream (extract_assertion parse_prusti) tokens);
  assign_assertion spec_id assertion.

Definition parse_pledge_of (tokens : list TokenTree) (spec_id_lhs : option SpecificationId) (spec_id_rhs : SpecificationId) :
    ST Z Error (Spec.Pledge ExpressionId SynExpr Arg) :=
  match spec_id_lhs with
  | Some spec_id_lhs =>
      pledge ← lift_o (parse_stream (extract_pledge parse_prusti) tokens);
      reference ← assign_option (assign_expression spec_id_rhs) (Spec.reference pledge);
      lhs ← assign_option (assign_assertion spec_id_lhs) (Spec.lhs pledge);
      rhs ← assign_assertion spec_id_rhs (Spec.rhs pledge);
      mret (Spec.make_pledge reference lhs rhs)
  | None =>
      pledge ← lift_o (parse_stream (extract_pledge_rhs_only parse_prusti) tokens);
      _ ← lift_o (assert_o (Spec.is_none (Spec.lhs pledge)));
      reference ← assign_option (assign_expression spec_id_rhs) (Spec.reference pledge);
      rhs ← assign_assertion spec_id_rhs (Spec.rhs pledge);
      mret (Spec.make_pledge reference None rhs)
  end.
End AssignId.

(** ** Statements for the type checker *)

Definition identifier `{UuidCrate} (spec_id : SpecificationId) (id : ExpressionId) : string :=
  uuid_simple spec_id ++ "_" ++ pretty id.

Section TypeCheck.
Context `{QuoteCrate} `{UuidCrate}.

Fixpoint puncts (span : Span) (s : string) : list TokenTree :=
  match s with
  | EmptyString => []
  | String c s => Token.Punct c span :: puncts span s
  end.

(** A string as a token: [Literal::string]. *)
Definition quote_mark : string := String (Ascii.ascii_of_nat 34) EmptyString.
Definition string_literal (s : string) : TokenTree := Token.Literal (quote_mark ++ s ++ quote_mark) call_site.

(** [#[prusti::name rest]]. *)
Definition prusti_attribute (span : Span) (name : string) (rest : list TokenTree) : list TokenTree :=
  (puncts span "#" ++ [Token.Group Delimiter.Bracket
     (Token.Ident "prusti" span :: puncts span "::" ++ Token.Ident name span :: rest) span])%list.

(** The two attributes of a closure. *)
Definition closure_attributes (span : Span) (identifier : string) : list TokenTree :=
  (prusti_attribute span "spec_only" []
   ++ prusti_attribute span "expr_id" (puncts span "=" ++ [string_literal identifier]))%list.

(** [Arg::to_tokens]. *)
Definition arg_tokens (self : Arg) : list TokenTree :=
  (Token.Ident (ident_name (Arg.name self)) (ident_span (Arg.name self)) :: Token.Punct (Ascii.ascii_of_nat 58) call_site
   :: type_tokens (Arg.typ self))%list.

Fixpoint comma_separated (span : Span) (items : list (list TokenTree)) : list TokenTree :=
  match items with
  | [] => []
  | [item] => item
  | item :: items => (item ++ puncts span "," ++ comma_separated span items)%list
  end.

(** [attributes |args| header { body };]. *)
Definition closure_statement (span : Span) (identifier : string) (args : list Arg) (header body : list TokenTree) :
    list TokenTree :=
  (closure_attributes span identifier
   ++ puncts span "|" ++ comma_separated span (map arg_tokens args) ++ puncts span "|" ++ header
   ++ [Token.Group Delimiter.Brace body span] ++ puncts span ";")%list.

(** A Boolean expression; a trigger or the closure of an entailment may have
    any type. *)
Definition encode_expression (self : Spec.Expression ExpressionId SynExpr) (tokens : list TokenTree) : list TokenTree :=
  let span := expr_span (Spec.expr self) in
  (tokens ++ closure_statement span (identifier (Spec.spec_id self) (Spec.id self)) []
     (puncts span "->" ++ [Token.Ident "bool" span]) (expr_tokens (Spec.expr self)))%list.

Definition encode_untyped_expression (self : Spec.Expression ExpressionId SynExpr) (tokens : list TokenTree) :
    list TokenTree :=
  let span := expr_span (Spec.expr self) in
  (tokens ++ closure_statement span (identifier (Spec.spec_id self) (Spec.id self)) [] [] (expr_tokens (Spec.expr self)))%list.

Definition encode_triggers (self : Spec.TriggerSet ExpressionId SynExpr) (tokens : list TokenTree) : list TokenTree :=
  foldl (fun tokens trigger_tuple =>
    foldl (fun tokens trigger => encode_untyped_expression trigger tokens) tokens (Spec.terms trigger_tuple))
    tokens (Spec.triggers self).

(** A loop over assertions that appends to a stream. *)
Definition encode_all {A} (encode : A -> list TokenTree -> option (list TokenTree)) (l : list A) (tokens : list TokenTree) :
    option (list TokenTree) :=
  foldl (fun acc a => tokens ← acc; encode a tokens) (Some tokens) l.

Definition encode_quantifier (vars : Spec.QuantifierVars ExpressionId Arg) (nested : list TokenTree)
    (tokens : list TokenTree) : list TokenTree :=
  (tokens ++ closure_statement call_site (identifier (Spec.vars_spec_id vars) (Spec.vars_id vars)) (Spec.vars vars) [] nested)%list.

Definition encode_entailment (arg_binders : Spec.SpecEntailmentVars ExpressionId Arg)
    (pre_assertion post_assertion tokens : list TokenTree) : list TokenTree :=
  let spec_id := Spec.entailment_spec_id arg_binders in
  (tokens
   ++ closure_statement call_site (identifier spec_id (Spec.pre_id arg_binders)) (Spec.args arg_binders) [] pre_assertion
   ++ closure_statement call_site (identifier spec_id (Spec.post_id arg_binders))
        (Spec.args arg_binders ++ [Spec.result arg_binders]) [] post_assertion)%list.

Fixpoint encode_type_check (self : Spec.Assertion ExpressionId SynExpr Arg) (tokens : list TokenTree) :
    option (list TokenTree) :=
  match self with
  | Spec.Expr expression => Some (encode_expression expression tokens)
  | Spec.And assertions => encode_all encode_type_check assertions tokens
  | Spec.Implies lhs rhs => tokens ← encode_type_check lhs tokens; encode_type_check rhs tokens
  | Spec.ForAll vars triggers body | Spec.Exists vars triggers body =>
      nested_assertion ← encode_type_check body [];
      Some (encode_quantifier vars (encode_triggers triggers nested_assertion) tokens)
  | Spec.SpecEntailment closure arg_binders pres posts =>
      let tokens := encode_untyped_expression closure tokens in
      pre_assertion ← encode_all encode_type_check pres [];
      post_assertion ← encode_all encode_type_check posts [];
      Some (encode_entailment arg_binders pre_assertion post_assertion tokens)
  (* unimplemented! *)
  | Spec.TypeCond _ _ => None
  end.

(** [Vec<Specification>]. *)
Definition encode_specifications (self : list (Spec.Specification ExpressionId SynExpr Arg)) (tokens : list TokenTree) :
    option (list TokenTree) :=
  encode_all (fun spec => encode_type_check (Spec.assertion spec)) self tokens.
End TypeCheck.

(** ** The structure of an assertion *)

Module Json.
Record Expression : Type := make_expression { spec_id : SpecificationId; expr_id : ExpressionId }.
Record QuantifierVars : Type := make_vars { vars_spec_id : SpecificationId; vars_expr_id : ExpressionId; count : nat }.
Record SpecEntailmentVars : Type := make_entailment_vars {
  entailment_spec_id : SpecificationId;
  pre_expr_id : ExpressionId;
  post_expr_id : ExpressionId;
  arg_count : nat
}.
Record Trigger : Type := make_trigger { terms : list Expression }.
Record TriggerSet : Type := make_trigger_set { triggers : list Trigger }.

Inductive Assertion : Type :=
  | Expr (expression : Expression)
  | And (assertions : list Assertion)
  | Implies (lhs rhs : Assertion)
  | ForAll (vars : QuantifierVars) (body : Assertion) (triggers : TriggerSet)
  | Exists (vars : QuantifierVars) (body : Assertion) (triggers : TriggerSet)
  | SpecEntailment (closure : Expression) (arg_binders : SpecEntailmentVars) (pres posts : list Assertion).

Section ToStructure.
Context {ET AT : Type}.

Definition of_expression (self : Spec.Expression ExpressionId ET) : Expression :=
  make_expression (Spec.spec_id self) (Spec.id self).
Definition of_vars (self : Spec.QuantifierVars ExpressionId AT) : QuantifierVars :=
  make_vars (Spec.vars_spec_id self) (Spec.vars_id self) (length (Spec.vars self)).
Definition of_entailment_vars (self : Spec.SpecEntailmentVars ExpressionId AT) : SpecEntailmentVars :=
  make_entailment_vars (Spec.entailment_spec_id self) (Spec.pre_id self) (Spec.post_id self) (length (Spec.args self)).
Definition of_trigger (self : Spec.Trigger ExpressionId ET) : Trigger := make_trigger (map of_expression (Spec.terms self)).
Definition of_triggers (self : Spec.TriggerSet ExpressionId ET) : TriggerSet :=
  make_trigger_set (map of_trigger (Spec.triggers self)).

Fixpoint to_structure (self : Spec.Assertion ExpressionId ET AT) : option Assertion :=
  match self with
  | Spec.Expr expr => Some (Expr (of_expression expr))
  | Spec.And assertions => assertions ← mapM_opt to_structure assertions; Some (And assertions)
  | Spec.Implies lhs rhs => lhs ← to_structure lhs; rhs ← to_structure rhs; Some (Implies lhs rhs)
  | Spec.ForAll vars triggers body => body ← to_structure body; Some (ForAll (of_vars vars) body (of_triggers triggers))
  | Spec.Exists vars triggers body => body ← to_structure body; Some (Exists (of_vars vars) body (of_triggers triggers))
  | Spec.SpecEntailment closure arg_binders pres posts =>
      pres ← mapM_opt to_structure pres;
      posts ← mapM_opt to_structure posts;
      Some (SpecEntailment (of_expression closure) (of_entailment_vars arg_binders) pres posts)
  (* unimplemented! *)
  | Spec.TypeCond _ _ => None
  end.
End ToStructure.
End Json.

(** [serde_json]: what its texts look like is not used. *)
Class SerdeJson := {
  JsonText : Type;
  to_string : Json.Assertion -> JsonText;
  from_str : JsonText -> option Json.Assertion
}.

Definition to_json_string `{SerdeJson} {ET AT} (assertion : Spec.Assertion ExpressionId ET AT) : option JsonText :=
  structure ← Json.to_structure assertion; Some (to_string structure).

Definition from_json_string `{SerdeJson} (json : JsonText) : option Json.Assertion := from_str json.
