(* ===== verification/Typed.v ===== *)
(** * Typed assertions

    [prusti-interface/src/specs/typed.rs]: the structure of an assertion is
    turned back into an assertion whose expressions are the closures that the
    compiler has type-checked.  The compiler gives the arguments of a closure
    and the spans of definitions and locals: arguments of the model. *)

From S2P Require Import Prelude Collections Specs Preparser Untyped.

Class Rustc := {
  LocalDefId : Type;
  DefId : Type;
  Local : Type;
  RustTy : Type;
  RustSpan : Type;
  as_local : DefId -> option LocalDefId;
  (** [mir_promoted(..)]: the arguments of the body with their types, the
      closure itself first *)
  body_args : LocalDefId -> list (Local * RustTy);
  def_span : LocalDefId -> RustSpan
}.

Section Typed.
Context `{UuidCrate} `{Rustc}.

Abbreviation Expression := (Spec.Expression ExpressionId LocalDefId).
Abbreviation Assertion := (Spec.Assertion ExpressionId LocalDefId (Local * RustTy)).
Abbreviation SpecificationSet := (Spec.SpecificationSet ExpressionId LocalDefId (Local * RustTy)).

(** ** [to_typed] *)

Section ToTyped.
Context (typed_expressions : HashMap.t string LocalDefId).

(** [typed_expressions[&format!(..)]]: a missing key panics. *)
Definition closure_of (spec_id : SpecificationId) (id : ExpressionId) : option LocalDefId :=
  HashMap.get typed_expressions (identifier spec_id id).

Definition expression_to_typed (self : Json.Expression) : option Expression :=
  local_id ← closure_of (Json.spec_id self) (Json.expr_id self);
  Some (Spec.make_expression (Json.spec_id self) (Json.expr_id self) local_id).

Definition trigger_to_typed (self : Json.Trigger) : option (Spec.Trigger ExpressionId LocalDefId) :=
  terms ← mapM_opt expression_to_typed (Json.terms self); Some (Spec.make_trigger terms).

Definition triggers_to_typed (self : Json.TriggerSet) : option (Spec.TriggerSet ExpressionId LocalDefId) :=
  triggers ← mapM_opt trigger_to_typed (Json.triggers self); Some (Spec.make_trigger_set triggers).

(** The arguments of a closure: [args_iter().skip(1)], as many as expected.
    Without any argument [arg_count - 1] overflows. *)
Definition closure_args (local_id : LocalDefId) (count : nat) : option (list (Local * RustTy)) :=
  match body_args local_id with
  | [] => None
  | _ :: vars => _ ← assert_ (Nat.eqb (length vars) count); Some vars
  end.

Definition vars_to_typed (self : Json.QuantifierVars) : option (Spec.QuantifierVars ExpressionId (Local * RustTy)) :=
  local_id ← closure_of (Json.vars_spec_id self) (Json.vars_expr_id self);
  vars ← closure_args local_id (Json.count self);
  Some (Spec.make_vars (Json.vars_spec_id self) (Json.vars_expr_id self) vars).

Definition entailment_vars_to_typed (self : Json.SpecEntailmentVars) :
    option (Spec.SpecEntailmentVars ExpressionId (Local * RustTy)) :=
  local_pre_id ← closure_of (Json.entailment_spec_id self) (Json.pre_expr_id self);
  local_post_id ← closure_of (Json.entailment_spec_id self) (Json.post_expr_id self);
  pre_args ← closure_args local_pre_id (Json.arg_count self);
  post_args ← closure_args local_post_id (Json.arg_count self + 1);
  result ← last post_args;
  Some (Spec.make_entailment_vars (Json.entailment_spec_id self) (Json.pre_expr_id self) (Json.post_expr_id self)
          pre_args result).

Fixpoint to_typed (self : Json.Assertion) : option Assertion :=
  match self with
  | Json.Expr expr => expr ← expression_to_typed expr; Some (Spec.Expr expr)
  | Json.And assertions => assertions ← mapM_opt to_typed assertions; Some (Spec.And assertions)
  | Json.Implies lhs rhs => lhs ← to_typed lhs; rhs ← to_typed rhs; Some (Spec.Implies lhs rhs)
  | Json.ForAll vars body triggers =>
      vars ← vars_to_typed vars;
      triggers ← triggers_to_typed triggers;
      body ← to_typed body;
      Some (Spec.ForAll vars triggers body)
  | Json.Exists vars body triggers =>
      vars ← vars_to_typed vars;
      triggers ← triggers_to_typed triggers;
      body ← to_typed body;
      Some (Spec.Exists vars triggers body)
  | Json.SpecEntailment closure arg_binders pres posts =>
      closure ← expression_to_typed closure;
      arg_binders ← entailment_vars_to_typed arg_binders;
      pres ← mapM_opt to_typed pres;
      posts ← mapM_opt to_typed posts;
      Some (Spec.SpecEntailment closure arg_binders pres posts)
  end.
End ToTyped.

(** ** [DefSpecificationMap] *)

Record DefSpecificationMap `{PartialEq LocalDefId} `{PartialEq DefId} : Type := make_def_specs {
  specs : HashMap.t LocalDefId SpecificationSet;
  extern_specs : HashMap.t DefId LocalDefId
}.

Definition new_def_specs `{PartialEq LocalDefId} `{PartialEq DefId} : DefSpecificationMap :=
  make_def_specs _ _ HashMap.empty HashMap.empty.

Definition get_def_specs `{PartialEq LocalDefId} `{PartialEq DefId} (self : DefSpecificationMap) (def_id : DefId) :
    option SpecificationSet :=
  id ← match HashMap.get (extern_specs self) def_id with
       | Some spec_id => Some spec_id
       | None => as_local def_id
       end;
  HashMap.get (specs self) id.

(** ** [get_spans]

    [local_span]: the span of a local of the function, if it has one. *)
Section Spans.
Context (local_span : Local -> option RustSpan).

Definition expression_spans (self : Expression) : list RustSpan := [def_span (Spec.expr self)].

Definition vars_spans (self : Spec.QuantifierVars ExpressionId (Local * RustTy)) : list RustSpan :=
  omap (fun v => local_span (fst v)) (Spec.vars self).

Definition triggers_spans (self : Spec.TriggerSet ExpressionId LocalDefId) : list RustSpan :=
  List.concat (map expression_spans (List.concat (map Spec.terms (Spec.triggers self)))).

Fixpoint get_spans (self : Assertion) : list RustSpan :=
  match self with
  | Spec.Expr assertion_expr => expression_spans assertion_expr
  | Spec.And assertions => List.concat (map get_spans assertions)
  | Spec.Implies lhs rhs => get_spans lhs ++ get_spans rhs
  | Spec.ForAll vars trigger_set body | Spec.Exists vars trigger_set body =>
      vars_spans vars ++ triggers_spans trigger_set ++ get_spans body
  | Spec.TypeCond vars body => vars_spans vars ++ get_spans body
  | Spec.SpecEntailment closure _ pres posts =>
      expression_spans closure ++ List.concat (map get_spans pres) ++ List.concat (map get_spans posts)
  end%list.
End Spans.
End Typed.
