(* ===== verification/SpecsFacts.v ===== *)
(** * From parsed to typed assertions

    Identifiers are consecutive numbers, every closure that is generated for
    the type checker carries an identifier of its own, and the assertion that
    is read back from the JSON finds the closure of each of its expressions. *)

From S2P Require Import Prelude Collections Specs Preparser PreparserFacts Untyped Typed.
From stdpp Require Import pretty.
From Stdlib Require Import Permutation.

(** ** What an assertion contains *)

Section Contents.
Context {EID ET AT : Type}.
Abbreviation Assertion := (Spec.Assertion EID ET AT).

Definition expression_id (e : Spec.Expression EID ET) : SpecificationId * EID := (Spec.spec_id e, Spec.id e).
Definition trigger_ids (ts : Spec.TriggerSet EID ET) : list (SpecificationId * EID) :=
  List.concat (map (fun t => map expression_id (Spec.terms t)) (Spec.triggers ts)).
Definition vars_id (vs : Spec.QuantifierVars EID AT) : SpecificationId * EID := (Spec.vars_spec_id vs, Spec.vars_id vs).
Definition pre_id (vs : Spec.SpecEntailmentVars EID AT) : SpecificationId * EID := (Spec.entailment_spec_id vs, Spec.pre_id vs).
Definition post_id (vs : Spec.SpecEntailmentVars EID AT) : SpecificationId * EID := (Spec.entailment_spec_id vs, Spec.post_id vs).

(** The identifiers in the order they are assigned. *)
Fixpoint ids (a : Assertion) : list (SpecificationId * EID) :=
  match a with
  | Spec.Expr e => [expression_id e]
  | Spec.And l => List.concat (map ids l)
  | Spec.Implies lhs rhs => ids lhs ++ ids rhs
  | Spec.TypeCond _ _ => []
  | Spec.ForAll vs ts body | Spec.Exists vs ts body => vars_id vs :: trigger_ids ts ++ ids body
  | Spec.SpecEntailment c vs pres posts =>
      expression_id c :: pre_id vs :: post_id vs :: List.concat (map ids pres) ++ List.concat (map ids posts)
  end%list.

(** The closures in the order of the statements for the type checker, with
    the number of their arguments. *)
Fixpoint closures (a : Assertion) : list (SpecificationId * EID * nat) :=
  match a with
  | Spec.Expr e => [(expression_id e, 0)]
  | Spec.And l => List.concat (map closures l)
  | Spec.Implies lhs rhs => closures lhs ++ closures rhs
  | Spec.TypeCond _ _ => []
  | Spec.ForAll vs ts body | Spec.Exists vs ts body =>
      (vars_id vs, length (Spec.vars vs)) :: closures body ++ map (fun i => (i, 0)) (trigger_ids ts)
  | Spec.SpecEntailment c vs pres posts =>
      (expression_id c, 0)
      :: ((pre_id vs, length (Spec.args vs)) :: List.concat (map closures pres))
      ++ (post_id vs, S (length (Spec.args vs))) :: List.concat (map closures posts)
  end%list.

Lemma concat_permutation {A B} (f g : A -> list B) l :
  Forall (fun a => Permutation (f a) (g a)) l -> Permutation (List.concat (map f l)) (List.concat (map g l)).
Proof. induction 1; cbn; [done|]. by apply Permutation_app. Qed.

Lemma map_concat_map {A B C} (f : B -> C) (g : A -> list B) l :
  map f (List.concat (map g l)) = List.concat (map (fun a => map f (g a)) l).
Proof. by rewrite concat_map, map_map. Qed.

Lemma closures_ids a : Permutation (map fst (closures a)) (ids a).
Proof.
  induction a as [e|l IH|lhs rhs IHl IHr|vs body _|vs ts body IH|vs ts body IH|c vs pres posts IH1 IH2]
    using Spec.Assertion_ind'; cbn; try done.
  - rewrite map_concat_map. by apply concat_permutation.
  - rewrite map_app. by apply Permutation_app.
  - constructor. rewrite map_app, map_map. cbn. rewrite map_id, Permutation_app_comm. by apply Permutation_app_head.
  - constructor. rewrite map_app, map_map. cbn. rewrite map_id, Permutation_app_comm. by apply Permutation_app_head.
  - do 2 constructor. rewrite map_app. cbn. rewrite <- Permutation_middle. constructor.
    apply Permutation_app; rewrite map_concat_map; by apply concat_permutation.
Qed.
End Contents.

(** ** Assigning identifiers *)

Section Erase.
Context {EID ET AT : Type}.

Definition erase_expression (e : Spec.Expression EID ET) : Spec.Expression unit ET :=
  Spec.make_expression dummy tt (Spec.expr e).
Definition erase_triggers (ts : Spec.TriggerSet EID ET) : Spec.TriggerSet unit ET :=
  Spec.make_trigger_set (map (fun t => Spec.make_trigger (map erase_expression (Spec.terms t))) (Spec.triggers ts)).
Definition erase_vars (vs : Spec.QuantifierVars EID AT) : Spec.QuantifierVars unit AT :=
  Spec.make_vars dummy tt (Spec.vars vs).
Definition erase_entailment_vars (vs : Spec.SpecEntailmentVars EID AT) : Spec.SpecEntailmentVars unit AT :=
  Spec.make_entailment_vars dummy tt tt (Spec.args vs) (Spec.result vs).

(** The assertion without its identifiers. *)
Fixpoint erase (a : Spec.Assertion EID ET AT) : Spec.Assertion unit ET AT :=
  match a with
  | Spec.Expr e => Spec.Expr (erase_expression e)
  | Spec.And l => Spec.And (map erase l)
  | Spec.Implies lhs rhs => Spec.Implies (erase lhs) (erase rhs)
  | Spec.TypeCond vs body => Spec.TypeCond (erase_vars vs) (erase body)
  | Spec.ForAll vs ts body => Spec.ForAll (erase_vars vs) (erase_triggers ts) (erase body)
  | Spec.Exists vs ts body => Spec.Exists (erase_vars vs) (erase_triggers ts) (erase body)
  | Spec.SpecEntailment c vs pres posts =>
      Spec.SpecEntailment (erase_expression c) (erase_entailment_vars vs) (map erase pres) (map erase posts)
  end.
End Erase.

Section Assign.
Context `{SynCrate} {E : Type} (spec_id : SpecificationId).

Definition numbered (last : Z) (n : nat) : list (SpecificationId * ExpressionId) :=
  map (pair spec_id) (seqZ (last + 1) (Z.of_nat n)).

Lemma numbered_app last n m : numbered last (n + m) = (numbered last n ++ numbered (last + Z.of_nat n) m)%list.
Proof.
  unfold numbered. rewrite Nat2Z.inj_add, seqZ_app by lia. rewrite map_app. do 3 f_equal. lia.
Qed.

Lemma numbered_one last : numbered last 1 = [(spec_id, (last + 1)%Z)].
Proof. done. Qed.

(** The computation takes the next [n] identifiers. *)
Definition assigns {A} (m : ST Z E A) (n : nat) (contents : A -> list (SpecificationId * ExpressionId)) (ok : A -> Prop) :
    Prop := forall last, (0 <= last)%Z -> (last + Z.of_nat n < 2 ^ 64)%Z ->
  exists a, m last = Val (a, (last + Z.of_nat n)%Z) /\ contents a = numbered last n /\ ok a.

Lemma assigns_bind {A B} (m : ST Z E A) (f : A -> ST Z E B) n1 n2 n c1 ok1 c2 ok2 c ok :
  n = n1 + n2 ->
  assigns m n1 c1 ok1 -> (forall a, ok1 a -> assigns (f a) n2 (c2 a) (ok2 a)) ->
  (forall a b, ok1 a -> ok2 a b -> c b = (c1 a ++ c2 a b)%list /\ ok b) ->
  assigns (x ← m; f x) n c ok.
Proof.
  intros -> Hm Hf Hc last H0' Hl. destruct (Hm last H0' ltac:(lia)) as (a & Ea & Ca & Oa).
  destruct (Hf a Oa (last + Z.of_nat n1)%Z ltac:(lia) ltac:(lia)) as (b & Eb & Cb & Ob).
  destruct (Hc a b Oa Ob) as [Hcb Hok]. exists b. split; [|split; [|done]].
  - unfold mbind, ST_bind. rewrite Ea, Eb. do 2 f_equal. lia.
  - by rewrite Hcb, Ca, Cb, numbered_app.
Qed.

Lemma assigns_ret {A} (a : A) c (ok : A -> Prop) : c a = [] -> ok a -> assigns (mret a) 0 c ok.
Proof. intros Hc Ha last _ _. exists a. split; [|by rewrite Hc]. unfold mret, ST_ret. do 2 f_equal. lia. Qed.

(** A single identifier. *)
Lemma assigns_one : assigns generate_expression_id 1 (fun i => [(spec_id, i)]) (fun _ => True).
Proof.
  intros last H0' Hl. exists (last + 1)%Z. unfold generate_expression_id, wrap_u64.
  rewrite Z.mod_small by lia. rewrite numbered_one. done.
Qed.

(** A computation followed by a pure function of its result. *)
Lemma assigns_then {A B} (m : ST Z E A) (f : A -> B) n c1 ok1 c (ok : B -> Prop) :
  assigns m n c1 ok1 -> (forall a, ok1 a -> c (f a) = c1 a /\ ok (f a)) -> assigns (x ← m; mret (f x)) n c ok.
Proof.
  intros Hm Hf last H0' Hl. destruct (Hm last H0' Hl) as (a & Ea & Ca & Oa). exists (f a).
  destruct (Hf a Oa) as [Hc Hok]. split; [unfold mbind, ST_bind; by rewrite Ea|]. by rewrite Hc.
Qed.

Lemma assigns_sequence {A B} (f : A -> ST Z E B) (n : A -> nat) c (ok : A -> B -> Prop) l :
  Forall (fun a => assigns (f a) (n a) c (ok a)) l ->
  assigns (sequence (map f l)) (list_sum (map n l)) (fun bs => List.concat (map c bs)) (fun bs => Forall2 ok l bs).
Proof.
  induction 1 as [|a l Ha _ IH]; cbn; [by apply assigns_ret|].
  eapply (assigns_bind _ _ _ _ _ _ _ (fun b bs => List.concat (map c (tail bs))) (fun b bs => exists bs', bs = b :: bs' /\ Forall2 ok l bs'));
    [done|exact Ha| |].
  - intros b Hb. eapply assigns_then; [exact IH|]. intros bs Hbs. split; [done|]. by exists bs.
  - intros b ? Hb (bs & -> & Hbs). split; [done|]. by constructor.
Qed.

Abbreviation Expression := (Spec.Expression unit SynExpr).
Abbreviation Assertion := (Spec.Assertion unit SynExpr Arg).

Lemma assigns_expression (e : Expression) :
  assigns (assign_expression spec_id e) 1 (fun e' => [expression_id e']) (fun e' => erase_expression e' = erase_expression e).
Proof. eapply assigns_then; [apply assigns_one|]. done. Qed.

Lemma assigns_vars (vs : Spec.QuantifierVars unit Arg) :
  assigns (assign_vars spec_id vs) 1 (fun vs' => [vars_id vs']) (fun vs' => erase_vars vs' = erase_vars vs).
Proof. eapply assigns_then; [apply assigns_one|]. done. Qed.

Lemma assigns_entailment_vars (vs : Spec.SpecEntailmentVars unit Arg) :
  assigns (assign_entailment_vars spec_id vs) 2 (fun vs' => [pre_id vs'; post_id vs'])
    (fun vs' => erase_entailment_vars vs' = erase_entailment_vars vs).
Proof.
  eapply (assigns_bind _ _ 1 1 _ _ _ (fun i vs' => [post_id vs']) (fun i vs' => pre_id vs' = (spec_id, i) /\ _ vs'));
    [done|apply assigns_one| |].
  - intros i _. eapply assigns_then; [apply assigns_one|]. intros j _. split; [done|]. split; [done|].
    instantiate (1 := fun vs' => erase_entailment_vars vs' = erase_entailment_vars vs). done.
  - intros i vs' _ [Hp He]. by rewrite Hp.
Qed.

Lemma map_erase_expressions (l : list Expression) l' :
  Forall2 (fun e e' => erase_expression (EID := ExpressionId) e' = erase_expression e) l l' ->
  map erase_expression l' = map erase_expression l.
Proof. induction 1; cbn; congruence. Qed.

Lemma assigns_triggers (ts : Spec.TriggerSet unit SynExpr) :
  assigns (assign_triggers spec_id ts) (length (trigger_ids ts)) trigger_ids (fun ts' => erase_triggers ts' = erase_triggers ts).
Proof.
  assert (Hn : length (trigger_ids ts) = list_sum (map (fun t => list_sum (map (fun _ => 1) (Spec.terms t))) (Spec.triggers ts))).
  { unfold trigger_ids. induction (Spec.triggers ts) as [|t l IH]; cbn; [done|]. rewrite length_app, length_map, IH. f_equal.
    induction (Spec.terms t) as [|e es IHe]; [done|]. cbn [map length]. by rewrite IHe. }
  rewrite Hn. clear Hn. eapply assigns_then.
  - apply (assigns_sequence _ (fun t => list_sum (map (fun _ => 1) (Spec.terms t))) (fun t' => map expression_id (Spec.terms t'))
      (fun t t' => map erase_expression (Spec.terms t') = map erase_expression (Spec.terms t))).
    apply Forall_forall. intros t _. eapply assigns_then.
    + apply (assigns_sequence _ (fun _ => 1) (fun e' => [expression_id e'])). apply Forall_forall. intros e _.
      apply assigns_expression.
    + intros l' Hl'. cbn. split; [|by apply map_erase_expressions].
      clear. induction l'; cbn; congruence.
  - intros l' Hl'. split; [done|]. unfold erase_triggers. cbn. f_equal. induction Hl' as [|t t' l l' Ht _ IH]; cbn; [done|].
    by rewrite Ht, IH.
Qed.

Lemma length_concat_ids {A B} (f : A -> list B) l : length (List.concat (map f l)) = list_sum (map (fun a => length (f a)) l).
Proof. induction l as [|a l IH]; cbn; [done|]. by rewrite length_app, IH. Qed.

Lemma map_erase (l : list Assertion) l' :
  Forall2 (fun a a' => erase (EID := ExpressionId) a' = erase a /\ implemented a' = true) l l' ->
  map erase l' = map erase l /\ forallb implemented l' = true.
Proof. induction 1 as [|a a' l l' [Ha Hi] _ [IH1 IH2]]; cbn; [done|]. rewrite Ha, IH1, Hi, IH2. done. Qed.

Definition same_assertion (a : Assertion) (a' : Spec.Assertion ExpressionId SynExpr Arg) : Prop :=
  erase a' = erase a /\ implemented a' = true.

Lemma assigns_quantifier (exists_ : bool) vs ts (body : Assertion) :
  assigns (assign_assertion spec_id body) (length (ids body)) ids (same_assertion body) ->
  assigns (assign_assertion spec_id (if exists_ then Spec.Exists vs ts body else Spec.ForAll vs ts body))
    (S (length (trigger_ids ts ++ ids body)%list)) ids
    (same_assertion (if exists_ then Spec.Exists vs ts body else Spec.ForAll vs ts body)).
Proof.
  intros Hb.
  assert (Hq : assigns (vars ← assign_vars spec_id vs; triggers ← assign_triggers spec_id ts;
      body ← assign_assertion spec_id body;
      mret (if exists_ then Spec.Exists vars triggers body else Spec.ForAll vars triggers body))
    (S (length (trigger_ids ts ++ ids body)%list)) ids
    (same_assertion (if exists_ then Spec.Exists vs ts body else Spec.ForAll vs ts body)));
    [|by destruct exists_].
  eapply (assigns_bind _ _ 1 (length (trigger_ids ts ++ ids body)%list) _ _ _ (fun _ a => tail (ids a))
    (fun vs' a => same_assertion (if exists_ then Spec.Exists vs ts body else Spec.ForAll vs ts body) a
                  /\ ids a = vars_id vs' :: tail (ids a))); [done|apply assigns_vars| |].
  2: { intros vs' a _ [Hs Hi]. by rewrite Hi. }
  intros vs' Hvs. eapply (assigns_bind _ _ (length (trigger_ids ts)) (length (ids body)) _ _ _
    (fun ts' a => drop (length (trigger_ids ts')) (tail (ids a)))
    (fun ts' a => exists body', same_assertion body body'
       /\ a = (if exists_ then Spec.Exists vs' ts' body' else Spec.ForAll vs' ts' body'))); [|apply assigns_triggers| |].
  - by rewrite length_app.
  - intros ts' Hts. eapply assigns_then; [exact Hb|]. intros body' Hs. split; [|by exists body'].
    destruct exists_; cbn [ids tail]; by rewrite drop_app_length.
  - intros ts' a Hts (body' & [He Hi] & ->). split; [destruct exists_; cbn [ids tail]; by rewrite drop_app_length|].
    split; [|by destruct exists_]. destruct exists_; split; cbn; congruence.
Qed.

Lemma assigns_list (l : list Assertion) :
  Forall (fun a => assigns (assign_assertion spec_id a) (length (ids a)) ids (same_assertion a)) l ->
  assigns (sequence (map (assign_assertion spec_id) l)) (length (List.concat (map ids l)))
    (fun l' => List.concat (map ids l')) (fun l' => map erase l' = map erase l /\ forallb implemented l' = true).
Proof.
  intros HF last H0' Hl. rewrite length_concat_ids in *.
  destruct (assigns_sequence _ (fun a => length (ids a)) ids same_assertion l HF last H0' Hl) as (l' & El & Cl & Ol).
  exists l'. split; [done|]. split; [done|]. by apply map_erase.
Qed.

Lemma assigns_entailment c vs (pres posts : list Assertion) :
  assigns (sequence (map (assign_assertion spec_id) pres)) (length (List.concat (map ids pres)))
    (fun l' => List.concat (map ids l')) (fun l' => map erase l' = map erase pres /\ forallb implemented l' = true) ->
  assigns (sequence (map (assign_assertion spec_id) posts)) (length (List.concat (map ids posts)))
    (fun l' => List.concat (map ids l')) (fun l' => map erase l' = map erase posts /\ forallb implemented l' = true) ->
  assigns (assign_assertion spec_id (Spec.SpecEntailment c vs pres posts))
    (length (ids (Spec.SpecEntailment c vs pres posts))) ids (same_assertion (Spec.SpecEntailment c vs pres posts)).
Proof.
  intros H1 H2 last H0' Hl. cbn [ids] in *. rewrite !length_cons, length_app in *.
  set (n1 := length (List.concat (map ids pres))) in *. set (n2 := length (List.concat (map ids posts))) in *.
  destruct (assigns_expression c last H0' ltac:(lia)) as (c' & Ec & Cc & Oc).
  destruct (assigns_entailment_vars vs (last + Z.of_nat 1)%Z ltac:(lia) ltac:(lia)) as (vs' & Ev & Cv & Ov).
  destruct (H1 (last + Z.of_nat 1 + Z.of_nat 2)%Z ltac:(lia) ltac:(lia)) as (l1 & E1 & C1 & O1 & I1).
  destruct (H2 (last + Z.of_nat 1 + Z.of_nat 2 + Z.of_nat n1)%Z ltac:(lia) ltac:(lia)) as (l2 & E2 & C2 & O2 & I2).
  exists (Spec.SpecEntailment c' vs' l1 l2). split; [|split].
  - cbn [assign_assertion]. unfold mbind, ST_bind, mret, ST_ret. rewrite Ec, Ev, E1, E2. do 2 f_equal. lia.
  - cbn [ids]. replace (S (S (S (n1 + n2)))) with (1 + (2 + (n1 + n2))) by lia.
    rewrite !numbered_app, <- Cc, <- Cv, <- C1, <- C2. done.
  - split; cbn; [congruence|by rewrite I1, I2].
Qed.

Lemma assigns_assertion (a : Assertion) :
  implemented a = true -> assigns (assign_assertion spec_id a) (length (ids a)) ids (same_assertion a).
Proof.
  assert (Hlist : forall l, Forall (fun a => implemented a = true ->
      assigns (assign_assertion spec_id a) (length (ids a)) ids (same_assertion a)) l -> forallb implemented l = true ->
    assigns (sequence (map (assign_assertion spec_id) l)) (length (List.concat (map ids l)))
      (fun l' => List.concat (map ids l')) (fun l' => map erase l' = map erase l /\ forallb implemented l' = true)).
  { intros l IH Hi. rewrite List.forallb_forall in Hi. apply assigns_list. rewrite Forall_forall in *. intros b Hb. apply IH; [done|].
    apply Hi. by apply list_elem_of_In. }
  induction a as [e|l IH|lhs rhs IHl IHr|vs body _|vs ts body IH|vs ts body IH|c vs pres posts IH1 IH2]
    using Spec.Assertion_ind'; cbn [implemented]; intros Hi; rewrite ?andb_true_iff in Hi.
  - eapply assigns_then; [apply assigns_expression|]. intros e' He. split; [done|]. split; cbn; congruence.
  - eapply assigns_then; [by apply Hlist|]. intros l' [He Hi']. split; [done|]. split; cbn; congruence.
  - destruct Hi as [H1 H2]. cbn [ids]. rewrite length_app. eapply (assigns_bind _ _ _ _ _ _ _ (fun l' a => drop (length (ids l')) (ids a))
      (fun l' a => exists r', same_assertion rhs r' /\ a = Spec.Implies l' r')); [done|by apply IHl| |].
    + intros l' Hl'. eapply assigns_then; [by apply IHr|]. intros r' Hr'. cbn [ids]. rewrite drop_app_length. eauto.
    + intros l' a [Hl Hl'] (r' & [Hr Hr'] & ->). cbn [ids]. rewrite drop_app_length. split; [done|].
      split; cbn; [congruence|by rewrite Hl', Hr'].
  - done.
  - by apply (assigns_quantifier false), IH.
  - by apply (assigns_quantifier true), IH.
  - destruct Hi as [H1 H2]. by apply assigns_entailment; apply Hlist.
Qed.
End Assign.

(** ** The statements for the type checker *)

Section Tokens.
Context `{ProcMacroCrate}.

(** The literal of an attribute [prusti::expr_id = ..]. *)
Definition expr_id_literal (d : Delimiter) (stream : list TokenTree) : option string :=
  match d, stream with
  | Delimiter.Bracket, [Token.Ident prusti _; Token.Punct _ _; Token.Punct _ _; Token.Ident name _; Token.Punct _ _;
      Token.Literal text _] => if (prusti == "prusti") && (name == "expr_id") then Some text else None
  | _, _ => None
  end.

Fixpoint token_ids (t : TokenTree) : list string :=
  match t with
  | Token.Group d stream _ =>
      match expr_id_literal d stream with
      | Some text => [text]
      | None => List.concat (map token_ids stream)
      end
  | _ => []
  end.

(** The literals of all these attributes in a stream. *)
Definition stream_ids (tokens : list TokenTree) : list string := List.concat (map token_ids tokens).

Lemma stream_ids_app t t' : stream_ids (t ++ t') = (stream_ids t ++ stream_ids t')%list.
Proof. unfold stream_ids. by rewrite map_app, concat_app. Qed.

Lemma stream_ids_puncts span s : stream_ids (puncts span s) = [].
Proof. induction s; done. Qed.
End Tokens.

Section Encode.
Context `{QuoteCrate} `{UuidCrate}.
Hypothesis Hexpr : forall e, stream_ids (expr_tokens e) = [].
Hypothesis Htype : forall t, stream_ids (type_tokens t) = [].

Abbreviation Assertion := (Spec.Assertion ExpressionId SynExpr Arg).

Definition literal_text (i : SpecificationId * ExpressionId) : string :=
  quote_mark ++ identifier (fst i) (snd i) ++ quote_mark.

Lemma stream_ids_arg a : stream_ids (arg_tokens a) = [].
Proof. unfold arg_tokens. cbn. apply Htype. Qed.

Lemma stream_ids_args span args : stream_ids (comma_separated span (map arg_tokens args)) = [].
Proof.
  induction args as [|a [|b l] IH]; [done|apply stream_ids_arg|]. cbn [map comma_separated] in *.
  by rewrite !stream_ids_app, stream_ids_arg, stream_ids_puncts, IH.
Qed.

Lemma stream_ids_closure span s i args header body :
  stream_ids header = [] ->
  stream_ids (closure_statement span (identifier s i) args header body) = literal_text (s, i) :: stream_ids body.
Proof.
  intros Hh. unfold closure_statement. rewrite !stream_ids_app, !stream_ids_puncts, stream_ids_args, Hh.
  cbn. by rewrite !app_nil_r.
Qed.

Lemma stream_ids_expression e : stream_ids (encode_expression e []) = [literal_text (expression_id e)].
Proof. unfold encode_expression. cbn [app]. by rewrite stream_ids_closure, Hexpr. Qed.

Lemma stream_ids_untyped e : stream_ids (encode_untyped_expression e []) = [literal_text (expression_id e)].
Proof. unfold encode_untyped_expression. cbn [app]. by rewrite stream_ids_closure, Hexpr. Qed.

Definition appends (f : list TokenTree -> option (list TokenTree)) (found : list (SpecificationId * ExpressionId)) : Prop :=
  forall tokens, exists t, f tokens = Some (tokens ++ t)%list /\ stream_ids t = map literal_text found.

Lemma encode_triggers_appends ts tokens : exists t,
  encode_triggers ts tokens = (tokens ++ t)%list /\ stream_ids t = map literal_text (trigger_ids ts).
Proof.
  unfold encode_triggers, trigger_ids. revert tokens. induction (Spec.triggers ts) as [|t l IH]; intros tokens.
  { exists []. by rewrite app_nil_r. }
  assert (Ht : exists u, foldl (fun tokens trigger => encode_untyped_expression trigger tokens) tokens (Spec.terms t)
    = (tokens ++ u)%list /\ stream_ids u = map literal_text (map expression_id (Spec.terms t))).
  { revert tokens. clear IH. induction (Spec.terms t) as [|e es IHe]; intros tokens; [exists []; by rewrite app_nil_r|].
    cbn. destruct (IHe (encode_untyped_expression e tokens)) as (u & Eu & Iu).
    exists (encode_untyped_expression e [] ++ u)%list. split.
    - rewrite Eu. unfold encode_untyped_expression. cbn [app]. by rewrite app_assoc.
    - rewrite stream_ids_app, Iu. by rewrite stream_ids_untyped. }
  destruct Ht as (u & Eu & Iu). cbn. rewrite Eu. destruct (IH (tokens ++ u)%list) as (v & Ev & Iv).
  exists (u ++ v)%list. rewrite Ev, <- app_assoc. split; [done|]. by rewrite stream_ids_app, Iu, Iv, map_app.
Qed.

Lemma encode_all_appends {A} (encode : A -> list TokenTree -> option (list TokenTree)) found l :
  Forall (fun a => appends (encode a) (found a)) l -> appends (encode_all encode l) (List.concat (map found l)).
Proof.
  unfold encode_all. induction 1 as [|a l Ha _ IH]; intros tokens; [exists []; by rewrite app_nil_r|].
  destruct (Ha tokens) as (t & Et & It). destruct (IH (tokens ++ t)%list) as (u & Eu & Iu).
  exists (t ++ u)%list. cbn. rewrite Et. cbn in Eu |- *. rewrite Eu, <- app_assoc. split; [done|].
  by rewrite stream_ids_app, It, Iu, map_app.
Qed.

Lemma encode_assertion_appends (a : Assertion) :
  implemented a = true -> appends (encode_type_check a) (map fst (closures a)).
Proof.
  assert (Hlist : forall l, Forall (fun a => implemented a = true -> appends (encode_type_check a) (map fst (closures a))) l ->
    forallb implemented l = true -> appends (encode_all encode_type_check l) (map fst (List.concat (map closures l)))).
  { intros l IH Hi. rewrite List.forallb_forall in Hi. rewrite map_concat_map. apply encode_all_appends.
    rewrite Forall_forall in *. intros b Hb. apply IH; [done|]. apply Hi. by apply list_elem_of_In. }
  assert (Hq : forall vs ts body, (implemented body = true -> appends (encode_type_check body) (map fst (closures body))) ->
    implemented body = true -> appends (fun tokens => nested ← encode_type_check body [];
      Some (encode_quantifier vs (encode_triggers ts nested) tokens))
      (vars_id vs :: map fst (closures body ++ map (fun i => (i, 0)) (trigger_ids ts))%list)).
  { intros vs ts body IH Hi tokens. destruct (IH Hi []) as (t & Et & It). rewrite Et. cbn [mbind option_bind app].
    destruct (encode_triggers_appends ts t) as (u & Eu & Iu). eexists. split; [done|].
    rewrite stream_ids_closure by done. rewrite Eu, stream_ids_app, It, Iu. cbn. f_equal.
    by rewrite !map_app, !map_map. }
  induction a as [e|l IH|lhs rhs IHl IHr|vs body _|vs ts body IH|vs ts body IH|c vs pres posts IH1 IH2]
    using Spec.Assertion_ind'; cbn [implemented]; intros Hi; rewrite ?andb_true_iff in Hi.
  - intros tokens. exists (encode_expression e []). split; [done|]. apply stream_ids_expression.
  - by apply Hlist.
  - destruct Hi as [Hi1 Hi2]. intros tokens. destruct (IHl Hi1 tokens) as (t & Et & It).
    destruct (IHr Hi2 (tokens ++ t)%list) as (u & Eu & Iu). exists (t ++ u)%list. cbn. rewrite Et. cbn. rewrite Eu, <- app_assoc.
    split; [done|]. by rewrite stream_ids_app, It, Iu, !map_app.
  - done.
  - by apply Hq.
  - by apply Hq.
  - destruct Hi as [Hi1 Hi2]. intros tokens. cbn [encode_type_check].
    destruct (Hlist pres IH1 Hi1 []) as (t & Et & It), (Hlist posts IH2 Hi2 []) as (u & Eu & Iu).
    rewrite Et. cbn [mbind option_bind app]. rewrite Eu. cbn [mbind option_bind app]. eexists. split.
    { unfold encode_entailment, encode_untyped_expression. by rewrite <- !app_assoc. }
    rewrite !stream_ids_app, !stream_ids_closure by done. rewrite Hexpr, It, Iu. cbn [closures map app fst]. f_equal. f_equal.
    by rewrite !map_app.
Qed.
End Encode.

(** ** Distinct identifiers *)

Section Distinct.
Context `{UuidCrate}.

Lemma identifier_inj spec_id i j : identifier spec_id i = identifier spec_id j -> i = j.
Proof. unfold identifier. intros E%string_app_inj%(string_app_inj "_")%(inj pretty). done. Qed.

Lemma string_app_inj_r (a b q : string) : (a ++ q)%string = (b ++ q)%string -> a = b.
Proof.
  assert (Hlen : forall s t : string, String.length (s ++ t)%string = String.length s + String.length t)
    by (induction s as [|c s IH]; intros t; [done|]; exact (f_equal S (IH t))).
  revert b. induction a as [|c a IH]; intros [|c' b] E; [done| | |].
  - apply (f_equal String.length) in E. rewrite !Hlen in E. cbn [String.length] in E. lia.
  - apply (f_equal String.length) in E. rewrite !Hlen in E. cbn [String.length] in E. lia.
  - injection E as -> E. f_equal. by apply IH.
Qed.

Lemma literal_text_inj spec_id i j : literal_text (spec_id, i) = literal_text (spec_id, j) -> i = j.
Proof. unfold literal_text. intros E%string_app_inj%string_app_inj_r. by eapply identifier_inj. Qed.

Lemma numbered_nodup spec_id last n : NoDup (numbered spec_id last n).
Proof. unfold numbered. apply NoDup_fmap_2; [|apply NoDup_seqZ]. by intros i j [= ->]. Qed.

Lemma numbered_in spec_id last n p : In p (numbered spec_id last n) -> fst p = spec_id.
Proof. unfold numbered. intros (i & <- & _)%in_map_iff. done. Qed.

(** A function that is injective on the pairs of one specification. *)
Lemma nodup_map_numbered {A} (f : SpecificationId * ExpressionId -> A) spec_id last n l :
  (forall i j, f (spec_id, i) = f (spec_id, j) -> i = j) -> Permutation l (numbered spec_id last n) -> NoDup (map f l).
Proof.
  intros Hf Hp. apply (Permutation_map f) in Hp. rewrite Hp.
  unfold numbered. rewrite map_map. apply NoDup_fmap_2; [|apply NoDup_seqZ]. intros i j. apply Hf.
Qed.
End Distinct.

(** ** Back from the JSON *)

Section Back.
Context `{UuidCrate} `{Rustc} {ET AT : Type}.
Context (def : SpecificationId * ExpressionId -> LocalDefId).
Context (typed_expressions : HashMap.t string LocalDefId).

Abbreviation Assertion := (Spec.Assertion ExpressionId ET AT).
Abbreviation TypedAssertion := (Spec.Assertion ExpressionId LocalDefId (Local * RustTy)).

Definition typed_expression (e : Spec.Expression ExpressionId ET) : Spec.Expression ExpressionId LocalDefId :=
  Spec.make_expression (Spec.spec_id e) (Spec.id e) (def (expression_id e)).

Definition typed_triggers (ts : Spec.TriggerSet ExpressionId ET) : Spec.TriggerSet ExpressionId LocalDefId :=
  Spec.make_trigger_set (map (fun t => Spec.make_trigger (map typed_expression (Spec.terms t))) (Spec.triggers ts)).

Definition typed_args (i : SpecificationId * ExpressionId) : list (Local * RustTy) := tail (body_args (def i)).

Definition typed_vars (vs : Spec.QuantifierVars ExpressionId AT) : Spec.QuantifierVars ExpressionId (Local * RustTy) :=
  Spec.make_vars (Spec.vars_spec_id vs) (Spec.vars_id vs) (typed_args (vars_id vs)).

(** The assertion over the closures of its expressions. *)
Inductive typed : Assertion -> TypedAssertion -> Prop :=
  | typed_Expr e : typed (Spec.Expr e) (Spec.Expr (typed_expression e))
  | typed_And l l' : Forall2 typed l l' -> typed (Spec.And l) (Spec.And l')
  | typed_Implies lhs lhs' rhs rhs' : typed lhs lhs' -> typed rhs rhs' -> typed (Spec.Implies lhs rhs) (Spec.Implies lhs' rhs')
  | typed_ForAll vs ts body body' : typed body body' ->
      typed (Spec.ForAll vs ts body) (Spec.ForAll (typed_vars vs) (typed_triggers ts) body')
  | typed_Exists vs ts body body' : typed body body' ->
      typed (Spec.Exists vs ts body) (Spec.Exists (typed_vars vs) (typed_triggers ts) body')
  | typed_SpecEntailment c vs result pres pres' posts posts' :
      last (typed_args (post_id vs)) = Some result -> Forall2 typed pres pres' -> Forall2 typed posts posts' ->
      typed (Spec.SpecEntailment c vs pres posts)
        (Spec.SpecEntailment (typed_expression c)
           (Spec.make_entailment_vars (Spec.entailment_spec_id vs) (Spec.pre_id vs) (Spec.post_id vs)
              (typed_args (pre_id vs)) result) pres' posts').

(** The compiler has a closure for every identifier, with an argument for
    the closure and one for every argument in its statement. *)
Definition compiled (c : SpecificationId * ExpressionId * nat) : Prop :=
  HashMap.get typed_expressions (identifier (fst (fst c)) (snd (fst c))) = Some (def (fst c))
  /\ length (body_args (def (fst c))) = S (snd c).

Lemma closure_of_compiled i n : compiled (i, n) -> closure_of typed_expressions (fst i) (snd i) = Some (def i).
Proof. by intros []. Qed.

Lemma closure_args_compiled i n : compiled (i, n) -> closure_args (def i) n = Some (typed_args i).
Proof.
  intros [_ Hl]. cbn in Hl. unfold closure_args, typed_args. destruct (body_args (def i)) as [|a args]; [done|].
  cbn in *. injection Hl as ->. by rewrite Nat.eqb_refl.
Qed.

Lemma expression_typed (e : Spec.Expression ExpressionId ET) :
  compiled (expression_id e, 0) ->
  expression_to_typed typed_expressions (Json.of_expression e) = Some (typed_expression e).
Proof. intros Hc%closure_of_compiled. unfold expression_to_typed. cbn in *. by rewrite Hc. Qed.

Lemma expressions_typed (l : list (Spec.Expression ExpressionId ET)) :
  Forall compiled (map (fun i => (i, 0)) (map expression_id l)) ->
  mapM_opt (expression_to_typed typed_expressions) (map Json.of_expression l) = Some (map typed_expression l).
Proof.
  induction l as [|e l IH]; [done|]. intros [He HF]%Forall_cons. cbn. rewrite expression_typed by done. cbn.
  by rewrite IH.
Qed.

Lemma trigger_typed (t : Spec.Trigger ExpressionId ET) :
  Forall compiled (map (fun i => (i, 0)) (map expression_id (Spec.terms t))) ->
  trigger_to_typed typed_expressions (Json.of_trigger t) = Some (Spec.make_trigger (map typed_expression (Spec.terms t))).
Proof. intros HF. unfold trigger_to_typed. cbn [Json.of_trigger Json.terms]. by rewrite expressions_typed. Qed.

Lemma triggers_typed (ts : Spec.TriggerSet ExpressionId ET) :
  Forall compiled (map (fun i => (i, 0)) (trigger_ids ts)) ->
  triggers_to_typed typed_expressions (Json.of_triggers ts) = Some (typed_triggers ts).
Proof.
  unfold trigger_ids, triggers_to_typed, typed_triggers. intros HF. cbn.
  assert (E : mapM_opt (trigger_to_typed typed_expressions) (map Json.of_trigger (Spec.triggers ts))
    = Some (map (fun t => Spec.make_trigger (map typed_expression (Spec.terms t))) (Spec.triggers ts)));
    [|by rewrite E].
  induction (Spec.triggers ts) as [|t l IH]; [done|]. cbn in HF. rewrite map_app in HF. apply Forall_app in HF as [Ht HF].
  cbn [map mapM_opt]. rewrite trigger_typed by done. cbn [mbind option_bind]. by rewrite IH.
Qed.

Lemma vars_typed (vs : Spec.QuantifierVars ExpressionId AT) :
  compiled (vars_id vs, length (Spec.vars vs)) ->
  vars_to_typed typed_expressions (Json.of_vars vs) = Some (typed_vars vs).
Proof.
  intros Hc. unfold vars_to_typed, typed_vars. cbn.
  pose proof (closure_of_compiled _ _ Hc) as E. cbn in E. rewrite E. cbn. by rewrite (closure_args_compiled _ _ Hc).
Qed.

Lemma entailment_vars_typed (vs : Spec.SpecEntailmentVars ExpressionId AT) :
  compiled (pre_id vs, length (Spec.args vs)) -> compiled (post_id vs, S (length (Spec.args vs))) ->
  exists result, last (typed_args (post_id vs)) = Some result /\
    entailment_vars_to_typed typed_expressions (Json.of_entailment_vars vs)
    = Some (Spec.make_entailment_vars (Spec.entailment_spec_id vs) (Spec.pre_id vs) (Spec.post_id vs)
        (typed_args (pre_id vs)) result).
Proof.
  intros H1 H2. unfold entailment_vars_to_typed. cbn.
  pose proof (closure_of_compiled _ _ H1) as E1. pose proof (closure_of_compiled _ _ H2) as E2. cbn in E1, E2.
  rewrite E1. cbn. rewrite E2. cbn. rewrite (closure_args_compiled _ _ H1). cbn.
  rewrite Nat.add_1_r, (closure_args_compiled _ _ H2). cbn.
  assert (Hne : typed_args (post_id vs) <> []).
  { destruct H2 as [_ Hl]. cbn in Hl. unfold typed_args. destruct (body_args (def (post_id vs))) as [|a [|b l]]; cbn in *; try done. }
  destruct (last (typed_args (post_id vs))) as [result|] eqn:El; [|by apply last_None in El]. by exists result.
Qed.

Definition comes_back (a : Assertion) : Prop := exists j t,
  Json.to_structure a = Some j /\ to_typed typed_expressions j = Some t /\ typed a t.

Lemma list_comes_back (l : list Assertion) : Forall comes_back l -> exists js ts,
  mapM_opt Json.to_structure l = Some js /\ mapM_opt (to_typed typed_expressions) js = Some ts /\ Forall2 typed l ts.
Proof.
  induction 1 as [|a l (j & t & Ej & Et & Ht) _ (js & ts & Ejs & Ets & Hts)]; [by exists [], []|].
  exists (j :: js), (t :: ts). cbn. rewrite Ej. cbn. rewrite Ejs. cbn. rewrite Et. cbn. rewrite Ets. cbn.
  split; [done|]. split; [done|]. by constructor.
Qed.

Lemma closures_quantifier vs ts (body : Assertion) :
  Forall compiled ((vars_id vs, length (Spec.vars vs)) :: closures body ++ map (fun i => (i, 0)) (trigger_ids ts))%list ->
  vars_to_typed typed_expressions (Json.of_vars vs) = Some (typed_vars vs)
  /\ triggers_to_typed typed_expressions (Json.of_triggers ts) = Some (typed_triggers ts) /\ Forall compiled (closures body).
Proof.
  intros [Hv HF]%Forall_cons. apply Forall_app in HF as [Hb Ht].
  split; [by apply vars_typed|]. split; [by apply triggers_typed|done].
Qed.

Lemma assertion_comes_back (a : Assertion) : implemented a = true -> Forall compiled (closures a) -> comes_back a.
Proof.
  assert (Hlist : forall l : list Assertion, Forall (fun a => implemented a = true -> Forall compiled (closures a) -> comes_back a) l ->
    forallb implemented l = true -> Forall compiled (List.concat (map closures l)) -> Forall comes_back l).
  { induction 1 as [|b l Hb _ IH]; [constructor|]. cbn. intros [Hi Hl]%andb_true_iff [HF1 HF2]%Forall_app.
    constructor; auto. }
  induction a as [e|l IH|lhs rhs IHl IHr|vs body _|vs ts body IH|vs ts body IH|c vs pres posts IH1 IH2]
    using Spec.Assertion_ind'; cbn [implemented closures]; intros Hi HF; rewrite ?andb_true_iff in Hi.
  - apply Forall_cons in HF as [He _]. eexists _, _. cbn. split; [done|]. cbn. rewrite expression_typed by done.
    split; [done|]. constructor.
  - destruct (list_comes_back l) as (js & ts & Ej & Et & Ht); [by apply Hlist|]. eexists _, _. cbn. rewrite Ej. split; [done|].
    cbn. rewrite Et. split; [done|]. by constructor.
  - destruct Hi as [Hi1 Hi2]. apply Forall_app in HF as [HF1 HF2].
    destruct (IHl Hi1 HF1) as (j1 & t1 & Ej1 & Et1 & Ht1), (IHr Hi2 HF2) as (j2 & t2 & Ej2 & Et2 & Ht2).
    eexists _, _. cbn. rewrite Ej1. cbn. rewrite Ej2. split; [done|]. cbn. rewrite Et1. cbn. rewrite Et2.
    split; [done|]. by constructor.
  - done.
  - apply closures_quantifier in HF as (Ev & Ets & HF). destruct (IH Hi HF) as (j & t & Ej & Et & Ht).
    eexists _, _. cbn. rewrite Ej. split; [done|]. cbn [to_typed]. rewrite Ev. cbn [mbind option_bind]. rewrite Ets.
    cbn [mbind option_bind]. rewrite Et. split; [done|]. by constructor.
  - apply closures_quantifier in HF as (Ev & Ets & HF). destruct (IH Hi HF) as (j & t & Ej & Et & Ht).
    eexists _, _. cbn. rewrite Ej. split; [done|]. cbn [to_typed]. rewrite Ev. cbn [mbind option_bind]. rewrite Ets.
    cbn [mbind option_bind]. rewrite Et. split; [done|]. by constructor.
  - destruct Hi as [Hi1 Hi2]. apply Forall_cons in HF as [Hc HF].
    apply (proj1 (Forall_app _ ((pre_id vs, length (Spec.args vs)) :: List.concat (map closures pres)) _)) in HF as [HF1 HF2].
    apply Forall_cons in HF1 as [Hpre HF1]. apply Forall_cons in HF2 as [Hpost HF2].
    destruct (list_comes_back pres) as (js1 & ts1 & Ej1 & Et1 & Ht1); [by apply Hlist|].
    destruct (list_comes_back posts) as (js2 & ts2 & Ej2 & Et2 & Ht2); [by apply Hlist|].
    destruct (entailment_vars_typed vs Hpre Hpost) as (result & El & Ev).
    eexists _, _. cbn. rewrite Ej1. cbn. rewrite Ej2. split; [done|]. cbn [to_typed].
    rewrite expression_typed by done. cbn [mbind option_bind]. rewrite Ev. cbn [mbind option_bind]. rewrite Et1.
    cbn [mbind option_bind]. rewrite Et2. split; [done|]. by constructor.
Qed.
End Back.

(** ** The whole way *)

(** The map of the closures the compiler has visited, in any order. *)
Definition visited_closures `{UuidCrate} `{Rustc} (def : SpecificationId * ExpressionId -> LocalDefId)
    (visited : list (SpecificationId * ExpressionId * nat)) : HashMap.t string LocalDefId :=
  HashMap.from_list (map (fun c => (identifier (fst (fst c)) (snd (fst c)), def (fst c))) visited).

Lemma get_from_list {K V} `{PartialEqLeibniz K} (l : list (K * V)) k v :
  NoDup (map fst l) -> In (k, v) l -> HashMap.get (HashMap.from_list l) k = Some v.
Proof.
  intros Hnd Hin. unfold HashMap.from_list. rewrite HashMap.get_foldl_insert.
  assert (Hf : forall l', NoDup (map fst l') -> In (k, v) l' -> List.find (fun kv => k == fst kv) l' = Some (k, v)).
  { clear Hnd Hin l. induction l' as [|[k1 v1] l' IH]; [done|]. cbn. intros [Hn Hnd]%NoDup_cons [[= -> ->]|Hin].
    - by rewrite (peq_refl (A := K)).
    - destruct (k == k1) eqn:E; [|auto]. apply peq_eq in E as ->. exfalso. apply Hn.
      apply list_elem_of_In, in_map_iff. by exists (k1, v). }
  rewrite Hf; [done| |by apply in_rev in Hin].
  rewrite map_rev. by apply NoDup_ListNoDup, List.NoDup_rev, NoDup_ListNoDup.
Qed.

Lemma visited_compiled `{UuidCrate} `{Rustc} def spec_id last n
    (visited : list (SpecificationId * ExpressionId * nat)) l :
  Permutation visited l -> Permutation (map fst l) (numbered spec_id last n) ->
  Forall (fun c => length (body_args (def (fst c))) = S (snd c)) l ->
  Forall (compiled def (visited_closures def visited)) l.
Proof.
  intros Hp Hn Hl. rewrite Forall_forall in *. intros c Hc. split; [|by apply Hl]. unfold visited_closures.
  apply get_from_list.
  - rewrite map_map. cbn. rewrite Hp.
    rewrite <- (map_map fst (fun i => identifier (fst i) (snd i))).
    eapply nodup_map_numbered; [|exact Hn]. cbn. apply identifier_inj.
  - apply in_map_iff. exists c. split; [done|]. apply list_elem_of_In. by rewrite Hp.
Qed.

(** Every implemented assertion has a structure. *)
Lemma to_structure_total {ET AT} (a : Spec.Assertion ExpressionId ET AT) :
  implemented a = true -> is_Some (Json.to_structure a).
Proof.
  assert (Hlist : forall l : list (Spec.Assertion ExpressionId ET AT),
    Forall (fun a => implemented a = true -> is_Some (Json.to_structure a)) l -> forallb implemented l = true ->
    is_Some (mapM_opt Json.to_structure l)).
  { induction 1 as [|b l Hb _ IH]; [by eexists|]. cbn. intros [Hi Hl]%andb_true_iff.
    destruct (Hb Hi) as [j ->], (IH Hl) as [js ->]. by eexists. }
  induction a as [e|l IH|lhs rhs IHl IHr|vs body _|vs ts body IH|vs ts body IH|c vs pres posts IH1 IH2]
    using Spec.Assertion_ind'; cbn; intros Hi; rewrite ?andb_true_iff in Hi; try done.
  - destruct (Hlist l IH Hi) as [js ->]. by eexists.
  - destruct Hi as [H1 H2], (IHl H1) as [j1 ->], (IHr H2) as [j2 ->]. by eexists.
  - destruct (IH Hi) as [j ->]. by eexists.
  - destruct (IH Hi) as [j ->]. by eexists.
  - destruct Hi as [H1 H2], (Hlist _ IH1 H1) as [j1 ->], (Hlist _ IH2 H2) as [j2 ->]. by eexists.
Qed.

(** The JSON of an assertion comes back as the assertion over the closures of
    its own statements, whatever the order in which they were visited. *)
Lemma json_comes_back `{SerdeJson} `{UuidCrate} `{Rustc} {ET AT} (a : Spec.Assertion ExpressionId ET AT) spec_id last n :
  (forall j, from_str (to_string j) = Some j) -> implemented a = true -> ids a = numbered spec_id last n ->
  exists json, to_json_string a = Some json /\
    forall def visited, Permutation visited (closures a) ->
      Forall (fun c => length (body_args (def (fst c))) = S (snd c)) (closures a) ->
      exists t, (j ← from_json_string json; to_typed (visited_closures def visited) j) = Some t /\ typed def a t.
Proof.
  intros Hserde Hi Hn. unfold to_json_string. destruct (to_structure_total a Hi) as [j Ej]. rewrite Ej. cbn.
  eexists. split; [done|]. intros def visited Hp Hl. unfold from_json_string. rewrite Hserde. cbn.
  destruct (assertion_comes_back def (visited_closures def visited) a Hi) as (j' & t & Ej' & Et & Ht).
  - eapply visited_compiled; [exact Hp|by rewrite closures_ids, Hn|exact Hl].
  - rewrite Ej in Ej'. injection Ej' as <-. by exists t.
Qed.

Lemma parsed_assertion `{SynCrate} file tokens spec_id last : one_file file -> stream_in file tokens ->
  (exists t, parse2 parse_type [Token.Ident "i32" call_site] = inr t) ->
  (0 <= last)%Z ->
  (forall a0, parse_stream (extract_assertion parse_prusti) tokens = Val a0 -> (last + Z.of_nat (length (ids a0)) < 2 ^ 64)%Z) ->
  match parse_stream (extract_assertion parse_prusti) tokens with
  | Val a0 => exists a, parse_assertion tokens spec_id last = Val (a, (last + Z.of_nat (length (ids a0)))%Z)
      /\ ids a = numbered spec_id last (length (ids a0)) /\ erase a = erase a0 /\ implemented a = true
  | Err e => parse_assertion tokens spec_id last = Err e
  | Panic => False
  end.
Proof.
  intros Hj Hin Hi H0' Hl. pose proof (assertion_total file Hj Hi tokens Hin) as Ht. unfold parse_assertion, lift_o, mbind, ST_bind.
  destruct (parse_stream _ tokens) as [a0| |] eqn:E; [|done|done].
  pose proof (assertion_implemented file Hj Hi tokens a0 Hin E) as Ha.
  destruct (assigns_assertion (E := Error) spec_id a0 Ha last H0' (Hl a0 eq_refl)) as (a & Ea & Ca & Oa & Ia).
  by exists a.
Qed.

(** Parsing an assertion never panics, and its expressions get the next
    identifiers, in order; otherwise it is what was parsed. *)
(** C32. Parsing an assertion from tokens whose spans are all of one file (and if syn reads
    `i32` as a type) never panics, and numbers its expressions, triggers and variables
    consecutively from the counter of the rewriter, in the order in which they are written;
    apart from this the assertion is what was parsed. This is as long as the 64-bit counter does
    not wrap around. *)
Theorem parse_assertion_numbers `{SynCrate} file tokens spec_id last : one_file file -> stream_in file tokens ->
  (exists t, parse2 parse_type [Token.Ident "i32" call_site] = inr t) ->
  (0 <= last)%Z ->
  (forall a0, parse_stream (extract_assertion parse_prusti) tokens = Val a0 -> (last + Z.of_nat (length (ids a0)) < 2 ^ 64)%Z) ->
  match parse_stream (extract_assertion parse_prusti) tokens with
  | Val a0 => exists a, parse_assertion tokens spec_id last = Val (a, (last + Z.of_nat (length (ids a0)))%Z)
      /\ ids a = numbered spec_id last (length (ids a0)) /\ erase a = erase a0 /\ implemented a = true
  | Err e => parse_assertion tokens spec_id last = Err e
  | Panic => False
  end.
Proof. exact (parsed_assertion file tokens spec_id last). Qed.


(** The assertion stored as JSON is found again over the closures that were
    type-checked: no key is missing, and every expression is its own closure. *)
(** C29. An assertion that is serialized, read back and resolved in the closures that the type
    checker saw is the assertion with its identifiers, the closures of its expressions and the
    arguments of the closures of its quantifiers; nothing panics. *)
Theorem json_typed_roundtrip `{SerdeJson} `{UuidCrate} `{Rustc} {ET AT} (a : Spec.Assertion ExpressionId ET AT) spec_id last n :
  (forall j, from_str (to_string j) = Some j) -> implemented a = true -> ids a = numbered spec_id last n ->
  exists json, to_json_string a = Some json /\
    forall def visited, Permutation visited (closures a) ->
      Forall (fun c => length (body_args (def (fst c))) = S (snd c)) (closures a) ->
      exists t, (j ← from_json_string json; to_typed (visited_closures def visited) j) = Some t /\ typed def a t.
Proof. exact (json_comes_back a spec_id last n). Qed.

(** ** Concrete assertions *)

Module ConcreteSpecs.
Import Concrete.

#[export] Instance quote : QuoteCrate := {| expr_tokens := fun e => []; type_tokens := fun t => [Token.Ident t tt] |}.
#[export] Instance uuid : UuidCrate := {| uuid_simple := pretty; uuid_parse_str := fun _ => None |}.
#[export] Instance serde : SerdeJson := {| JsonText := Json.Assertion; to_string := id; from_str := Some |}.
(** A definition is a number with the number of its arguments. *)
#[export] Instance rustc : Rustc := {|
  LocalDefId := Z * nat; DefId := Z; Local := nat; RustTy := unit; RustSpan := unit;
  as_local := fun _ => None;
  body_args := fun d => map (fun i => (i, tt)) (seq 0 (S (snd d)));
  def_span := fun _ => tt
|}.

(** [a ==> forall(|x: i32| b)]. *)
Definition tokens : list TokenTree :=
  ([ident "a"] ++ op "==>" ++ [ident "forall"; paren (op "|" ++ [ident "x"] ++ op ":" ++ [ident "i32"] ++ op "|" ++ [ident "b"])])%list.

Definition assertion : Spec.Assertion ExpressionId SynExpr Arg :=
  Spec.Implies (Spec.Expr (Spec.make_expression 7%Z 101%Z [ident "a"]))
    (Spec.ForAll (Spec.make_vars 7%Z 102%Z [Arg.make (make_ident "x" tt) "i32"]) (Spec.make_trigger_set [])
       (Spec.Expr (Spec.make_expression 7%Z 103%Z [ident "b"]))).

Definition untyped : Spec.Assertion unit SynExpr Arg :=
  Spec.Implies (leaf "a")
    (Spec.ForAll (Spec.make_vars dummy tt [Arg.make (make_ident "x" tt) "i32"]) (Spec.make_trigger_set []) (leaf "b")).

Definition def (i : SpecificationId * ExpressionId) : LocalDefId := (snd i, if Z.eqb (snd i) 102 then 1 else 0).
End ConcreteSpecs.
Import Concrete ConcreteSpecs.

Lemma parse_assertion_numbers_witness :
  exists a, parse_assertion ConcreteSpecs.tokens 7%Z 100%Z = Val (a, 103%Z) /\ ids a = numbered 7%Z 100%Z 3.
Proof.
  assert (Hi : exists t : SynType, parse2 parse_type [Token.Ident "i32" call_site] = inr t) by (exists "i32"; reflexivity).
  assert (E : parse_stream (extract_assertion parse_prusti) ConcreteSpecs.tokens = Val ConcreteSpecs.untyped)
    by (vm_compute; reflexivity).
  assert (Hb : forall a0, parse_stream (extract_assertion parse_prusti) ConcreteSpecs.tokens = Val a0 ->
    (100 + Z.of_nat (length (ids a0)) < 2 ^ 64)%Z).
  { intros a0 Ha. rewrite E in Ha. injection Ha as <-. vm_compute. reflexivity. }
  pose proof (parse_assertion_numbers Concrete.anywhere ConcreteSpecs.tokens 7%Z 100%Z Concrete.one_file_anywhere (Concrete.stream_anywhere _) Hi ltac:(lia) Hb) as Hp.
  rewrite E in Hp. destruct Hp as (a & Ea & Ia & _). exists a. split; [exact Ea|exact Ia].
Defined.


Lemma json_typed_roundtrip_witness :
  exists json, to_json_string ConcreteSpecs.assertion = Some json /\
    exists t, (j ← from_json_string json; to_typed (visited_closures ConcreteSpecs.def (rev (closures ConcreteSpecs.assertion))) j)
      = Some t /\ typed ConcreteSpecs.def ConcreteSpecs.assertion t.
Proof.
  destruct (@json_typed_roundtrip serde uuid rustc _ _ ConcreteSpecs.assertion 7%Z 100%Z 3 ltac:(reflexivity) ltac:(reflexivity) ltac:(reflexivity))
    as (json & Ej & Hj).
  exists json. split; [exact Ej|]. apply Hj; [symmetry; apply Permutation_rev|by repeat constructor].
Defined.
