(* ===== verification/SpecMacros.v ===== *)
(** * The attributes of specifications

    [prusti-specs/src/lib.rs], [rewriter.rs] and [spec_attribute_kind.rs]: a
    function with attributes such as [requires] is replaced by the function
    with attributes that refer to generated functions, which hold the
    statements for the type checker.  Items are what the macros look at:
    attributes, name and parameters; random identifiers come from the supply
    [uuid_new_v4], numbered in the order they are asked for. *)

From S2P Require Import Prelude Collections Specs Preparser Untyped.

(** ** The attributes *)

Module SpecAttributeKind.
Inductive SpecAttributeKind : Type := Requires | Ensures | AfterExpiry | AfterExpiryIf | Pure | Trusted | Predicate.

Definition eqb (a b : SpecAttributeKind) : bool :=
  match a, b with
  | Requires, Requires | Ensures, Ensures | AfterExpiry, AfterExpiry | AfterExpiryIf, AfterExpiryIf
  | Pure, Pure | Trusted, Trusted | Predicate, Predicate => true
  | _, _ => false
  end.

Definition try_from (name : string) : string + SpecAttributeKind :=
  if name == "requires" then inr Requires
  else if name == "ensures" then inr Ensures
  else if name == "after_expiry" then inr AfterExpiry
  else if name == "after_expiry_if" then inr AfterExpiryIf
  else if name == "pure" then inr Pure
  else if name == "trusted" then inr Trusted
  else if name == "predicate" then inr Predicate
  else inl name.
End SpecAttributeKind.
Abbreviation SpecAttributeKind := SpecAttributeKind.SpecAttributeKind.

Module SpecItemType.
Inductive SpecItemType : Type := Precondition | Postcondition | Predicate.

Definition to_string (self : SpecItemType) : string :=
  match self with Precondition => "pre" | Postcondition => "post" | Predicate => "pred" end.

Definition is_postcondition (self : SpecItemType) : bool := match self with Postcondition => true | _ => false end.
End SpecItemType.
Abbreviation SpecItemType := SpecItemType.SpecItemType.

(** ** Items *)

Module Item.
Section Item.
Context `{SynCrate}.

(** [syn::Attribute]: the segments of its path, and its tokens. *)
Record Attribute : Type := make_attribute { path : list string; attr_tokens : list TokenTree }.

(** [syn::FnArg]: the identifier, if its pattern is one. *)
Record FnArg : Type := make_arg { arg_ident : option string; arg_span : Span }.

(** [AnyFnItem]: a function or a method. *)
Record AnyFnItem : Type := make_item {
  attrs : list Attribute;
  fn_name : string;
  inputs : list FnArg;
  item_span : Span
}.

Definition with_attrs (self : AnyFnItem) (attrs : list Attribute) : AnyFnItem :=
  make_item attrs (fn_name self) (inputs self) (item_span self).
End Item.
End Item.
Abbreviation AnyFnItem := Item.AnyFnItem.

(** [#[prusti::name]] or [#[prusti::name = "value"]]. *)
Record PrustiAttr : Type := make_prusti_attr { attr_name : string; attr_value : option string }.

Section Macros.
Context `{QuoteCrate} `{UuidCrate} `{SerdeJson}.
(** [Uuid::new_v4()]. *)
Context (uuid_new_v4 : nat -> SpecificationId).
(** [path.is_ident("result")] of an expression that is a path. *)
Context (is_result_path : SynExpr -> bool).
(** [syn::spanned] of a stream. *)
Context (stream_span : list TokenTree -> Span).

(** A generated function.  [result_arg]: it has the result as an additional
    parameter. *)
Record SpecItem : Type := make_spec_item {
  item_name : string;
  spec_id_str : string;
  assertion_json : JsonText;
  item_inputs : list Item.FnArg;
  result_arg : bool;
  statements : list TokenTree
}.

(** [GeneratedResult], with the number of identifiers taken so far. *)
Abbreviation Generated := (ST nat Error (list SpecItem * list PrustiAttr)).

Definition generate_spec_id : ST nat Error SpecificationId := fun n => Val (uuid_new_v4 n, S n).

(** A macro has a rewriter, hence a generator of identifiers, of its own. *)
Definition with_rewriter {A} (p : ST Z Error A) : ST nat Error A := lift_o (fst <$> p expression_id_generator).

(** ** [AstRewriter] *)

Fixpoint check_contains_keyword_in_params (params : list Item.FnArg) (keyword : string) : option Span :=
  match params with
  | [] => None
  | param :: params =>
      match Item.arg_ident param with
      | Some ident => if ident == keyword then Some (Item.arg_span param) else check_contains_keyword_in_params params keyword
      | None => check_contains_keyword_in_params params keyword
      end
  end.

Definition generate_spec_item_fn (spec_type : SpecItemType) (spec_id : SpecificationId)
    (assertion : Spec.Assertion ExpressionId SynExpr Arg) (item : AnyFnItem) : ST nat Error SpecItem :=
  match check_contains_keyword_in_params (Item.inputs item) "result" with
  | Some span => fail (Error.New span "it is not allowed to use the keyword `result` as a function argument")
  | None =>
      let item_name := "prusti_" ++ SpecItemType.to_string spec_type ++ "_item_" ++ Item.fn_name item ++ "_" ++ uuid_simple spec_id in
      statements ← lift (encode_type_check assertion []);
      assertion_json ← lift (to_json_string assertion);
      mret (make_spec_item item_name (uuid_simple spec_id) assertion_json (Item.inputs item)
              (SpecItemType.is_postcondition spec_type) statements)
  end.

(** ** One attribute *)

(** Parse an assertion, generate its function and the attribute that refers
    to it: [generate_for_requires] and [generate_for_ensures]. *)
Definition generate_for_assertion (spec_type : SpecItemType) (name : string) (attr : list TokenTree) (item : AnyFnItem) :
    Generated :=
  spec_id ← generate_spec_id;
  assertion ← with_rewriter (parse_assertion attr spec_id);
  spec_item ← generate_spec_item_fn spec_type spec_id assertion item;
  mret ([spec_item], [make_prusti_attr name (Some (uuid_simple spec_id))]).

Definition generate_for_requires := generate_for_assertion SpecItemType.Precondition "pre_spec_id_ref".
Definition generate_for_ensures := generate_for_assertion SpecItemType.Postcondition "post_spec_id_ref".

Definition check_is_result (reference : option (Spec.Expression ExpressionId SynExpr)) : ST nat Error unit :=
  match reference with
  | Some e => if is_result_path (Spec.expr e) then mret tt
              else fail (Error.New (expr_span (Spec.expr e)) "currently only `result` is supported")
  | None => mret tt
  end.

Definition generate_for_after_expiry (attr : list TokenTree) (item : AnyFnItem) : Generated :=
  spec_id_rhs ← generate_spec_id;
  pledge ← with_rewriter (parse_pledge_of attr None spec_id_rhs);
  _ ← check_is_result (Spec.reference pledge);
  _ ← lift (assert_ (Spec.is_none (Spec.lhs pledge)));
  spec_item_rhs ← generate_spec_item_fn SpecItemType.Postcondition spec_id_rhs (Spec.rhs pledge) item;
  mret ([spec_item_rhs], [make_prusti_attr "pledge_spec_id_ref" (Some (":" ++ uuid_simple spec_id_rhs))]).

Definition generate_for_after_expiry_if (attr : list TokenTree) (item : AnyFnItem) : Generated :=
  spec_id_lhs ← generate_spec_id;
  spec_id_rhs ← generate_spec_id;
  pledge ← with_rewriter (parse_pledge_of attr (Some spec_id_lhs) spec_id_rhs);
  _ ← check_is_result (Spec.reference pledge);
  lhs ← lift (Spec.lhs pledge);
  spec_item_lhs ← generate_spec_item_fn SpecItemType.Postcondition spec_id_lhs lhs item;
  spec_item_rhs ← generate_spec_item_fn SpecItemType.Postcondition spec_id_rhs (Spec.rhs pledge) item;
  mret ([spec_item_lhs; spec_item_rhs],
        [make_prusti_attr "pledge_spec_id_ref" (Some (uuid_simple spec_id_lhs ++ ":" ++ uuid_simple spec_id_rhs))]).

Definition generate_without_arguments (name : string) (message : string) (attr : list TokenTree) : Generated :=
  match attr with
  | [] => mret ([], [make_prusti_attr name None])
  | _ => fail (Error.New (stream_span attr) message)
  end.

Definition generate_for_pure := generate_without_arguments "pure" "the `#[pure]` attribute does not take parameters".
Definition generate_for_trusted := generate_without_arguments "trusted" "the `#[trusted]` attribute does not take parameters".

Definition generate_for (attr_kind : SpecAttributeKind) (attr_tokens : list TokenTree) (item : AnyFnItem) : Generated :=
  match attr_kind with
  | SpecAttributeKind.Requires => generate_for_requires attr_tokens item
  | SpecAttributeKind.Ensures => generate_for_ensures attr_tokens item
  | SpecAttributeKind.AfterExpiry => generate_for_after_expiry attr_tokens item
  | SpecAttributeKind.AfterExpiryIf => generate_for_after_expiry_if attr_tokens item
  | SpecAttributeKind.Pure => generate_for_pure attr_tokens
  | SpecAttributeKind.Trusted => generate_for_trusted attr_tokens
  (* unreachable! *)
  | SpecAttributeKind.Predicate => panic
  end.

(** ** All attributes of an item *)

(** The tokens of an attribute of Prusti, without the parentheses. *)
Definition attribute_tokens (attr_kind : SpecAttributeKind) (tokens : list TokenTree) : option (list TokenTree) :=
  match attr_kind with
  | SpecAttributeKind.Requires | SpecAttributeKind.Ensures | SpecAttributeKind.AfterExpiry | SpecAttributeKind.AfterExpiryIf =>
      match tokens with
      | [Token.Group _ stream _] => Some stream
      | _ => None
      end
  | _ => match tokens with [] => Some [] | _ => None end
  end.

(** Attributes of Prusti and the other ones. *)
Fixpoint extract_attributes (attrs : list Item.Attribute) :
    option (list (SpecAttributeKind * list TokenTree) * list Item.Attribute) :=
  match attrs with
  | [] => Some ([], [])
  | attr :: attrs =>
      match Item.path attr with
      | [name] =>
          match SpecAttributeKind.try_from name with
          | inr attr_kind =>
              tokens ← attribute_tokens attr_kind (Item.attr_tokens attr);
              r ← extract_attributes attrs;
              Some ((attr_kind, tokens) :: fst r, snd r)
          | inl _ => r ← extract_attributes attrs; Some (fst r, attr :: snd r)
          end
      | _ => r ← extract_attributes attrs; Some (fst r, attr :: snd r)
      end
  end.

Definition extract_prusti_attributes (item : AnyFnItem) : option (list (SpecAttributeKind * list TokenTree) * AnyFnItem) :=
  r ← extract_attributes (Item.attrs item); Some (fst r, Item.with_attrs item (snd r)).

Fixpoint generate_spec_and_assertions (prusti_attributes : list (SpecAttributeKind * list TokenTree)) (item : AnyFnItem) :
    Generated :=
  match prusti_attributes with
  | [] => mret ([], [])
  | (attr_kind, attr_tokens) :: rest =>
      new ← generate_for attr_kind attr_tokens item;
      others ← generate_spec_and_assertions rest item;
      mret (fst new ++ fst others, snd new ++ snd others)%list
  end.

Definition is_predicate (a : SpecAttributeKind * list TokenTree) : bool :=
  SpecAttributeKind.eqb (fst a) SpecAttributeKind.Predicate.

(** The generated functions, the generated attributes and the item without
    its attributes of Prusti. *)
Definition rewrite_prusti_attributes (outer_attr_kind : SpecAttributeKind) (outer_attr_tokens : list TokenTree)
    (item : AnyFnItem) : ST nat Error (list SpecItem * list PrustiAttr * AnyFnItem) :=
  r ← lift (extract_prusti_attributes item);
  let prusti_attributes := (outer_attr_kind, outer_attr_tokens) :: fst r in
  let item := snd r in
  if existsb is_predicate prusti_attributes
  then fail (Error.New (Item.item_span item) "`predicate!` is incompatible with other Prusti attributes")
  else generated ← generate_spec_and_assertions prusti_attributes item; mret (generated, item).

(** *** Refined implementations of traits *)

Inductive ImplItem : Type :=
  | Method (method : AnyFnItem)
  | OtherItem.

(** The methods with their generated attributes, and the generated
    functions. *)
Fixpoint refine_trait_spec (items : list ImplItem) : ST nat Error (list (list PrustiAttr * AnyFnItem) * list SpecItem) :=
  match items with
  | [] => mret ([], [])
  | Method method :: items =>
      r ← lift (extract_prusti_attributes method);
      generated ← generate_spec_and_assertions (fst r) (snd r);
      others ← refine_trait_spec items;
      mret ((snd generated, snd r) :: fst others, fst generated ++ snd others)%list
  | OtherItem :: items => refine_trait_spec items
  end.

(** *** Predicates and loop invariants *)

(** [predicate!]: the function is pure and trusted, and its body is the
    assertion. *)
Definition predicate (body : list TokenTree) (fn : AnyFnItem) : Generated :=
  spec_id ← generate_spec_id;
  assertion ← with_rewriter (parse_assertion body spec_id);
  spec_fn ← generate_spec_item_fn SpecItemType.Predicate spec_id assertion fn;
  mret ([spec_fn], [make_prusti_attr "pure" None; make_prusti_attr "trusted" None;
                    make_prusti_attr "pred_spec_id_ref" (Some (uuid_simple spec_id))]).

(** The closure of a loop invariant: its attributes and its statements. *)
Record SpecLoop : Type := make_spec_loop {
  loop_spec_id_str : string;
  loop_assertion_json : JsonText;
  loop_statements : list TokenTree
}.

Definition body_invariant (tokens : list TokenTree) : ST nat Error SpecLoop :=
  spec_id ← generate_spec_id;
  invariant ← with_rewriter (parse_assertion tokens spec_id);
  statements ← lift (encode_type_check invariant []);
  assertion_json ← lift (to_json_string invariant);
  mret (make_spec_loop (uuid_simple spec_id) assertion_json statements).
End Macros.
