(* ===== verification/SpecCollector.v ===== *)
(** * Collecting specifications

    [prusti-interface/src/specs/mod.rs], [external.rs] and the attributes of
    [utils.rs]: the visitor reads the attributes of functions, closures and
    statements; the specifications it found are then resolved to the typed
    assertions.  The compiler's syntax is what the visitor looks at: the
    attributes, the kind and the definition of a function, and for external
    specifications the function they call. *)

From S2P Require Import Prelude Collections Specs Preparser Untyped Typed.

(** ** Attributes of the compiler *)

Module Ast.
(** [ast::MacArgs]: [= literal] with the symbol of the literal. *)
Inductive MacArgs : Type := NoArgs | EqLiteral (symbol : string) | EqOther | Delimited.

Inductive Attribute : Type :=
  | Normal (segments : list string) (args : MacArgs)
  | DocComment.
End Ast.

Definition is_prusti_path (segments : list string) (name : string) : bool :=
  match segments with
  | [first; second] => (first == "prusti") && (second == name)
  | _ => false
  end.

Definition has_prusti_attr (attrs : list Ast.Attribute) (name : string) : bool :=
  existsb (fun attr => match attr with Ast.Normal segments _ => is_prusti_path segments name | Ast.DocComment => false end) attrs.

Definition has_spec_only_attr (attrs : list Ast.Attribute) : bool := has_prusti_attr attrs "spec_only".
Definition has_extern_spec_attr (attrs : list Ast.Attribute) : bool := has_prusti_attr attrs "extern_spec".

(** The replacement in the symbol of a literal: a backslash and a quotation
    mark become a quotation mark. *)
Definition quotation_mark : string := String (Ascii.ascii_of_nat 34) EmptyString.
Definition extract_string (symbol : string) : string :=
  str_replace symbol (String (Ascii.ascii_of_nat 92) quotation_mark) quotation_mark.

Fixpoint read_prusti_attrs (name : string) (attrs : list Ast.Attribute) : option (list string) :=
  match attrs with
  | [] => Some []
  | Ast.Normal segments args :: attrs =>
      if is_prusti_path segments name then
        match args with
        | Ast.EqLiteral symbol => rest ← read_prusti_attrs name attrs; Some (extract_string symbol :: rest)
        (* unreachable! *)
        | Ast.EqOther => None
        | _ => read_prusti_attrs name attrs
        end
      else read_prusti_attrs name attrs
  | Ast.DocComment :: attrs => read_prusti_attrs name attrs
  end.

(** [read_prusti_attrs(..).pop()]. *)
Definition read_prusti_attr (name : string) (attrs : list Ast.Attribute) : option (option string) :=
  strings ← read_prusti_attrs name attrs; Some (last strings).

Section Collector.
Context `{SerdeJson} `{UuidCrate} `{Rustc} `{PartialEq LocalDefId} `{PartialEq DefId}.

Abbreviation Assertion := (Spec.Assertion ExpressionId LocalDefId (Local * RustTy)).
Abbreviation Pledge := (Spec.Pledge ExpressionId LocalDefId (Local * RustTy)).
Abbreviation SpecificationSet := (Spec.SpecificationSet ExpressionId LocalDefId (Local * RustTy)).

(** ** External specifications *)

(** The function that an external specification calls, with the type that
    implements it and the span of the call. *)
Definition SpecFound : Type := DefId * option DefId * RustSpan.

Record ExternSpecResolver : Type := make_resolver {
  extern_fn_map : HashMap.t DefId (option DefId * DefId);
  spec_duplicates : HashMap.t DefId (list (DefId * RustSpan))
}.

Definition eqb_option (a b : option DefId) : bool :=
  match a, b with
  | Some a, Some b => a == b
  | None, None => true
  | _, _ => false
  end.

Definition add_extern_fn (self : ExternSpecResolver) (current_def_id : DefId) (spec_found : option SpecFound) :
    ExternSpecResolver :=
  match spec_found with
  | Some (def_id, impl_ty, span) =>
      match HashMap.get (extern_fn_map self) def_id with
      | Some (existing_impl_ty, _) =>
          if eqb_option existing_impl_ty impl_ty then
            make_resolver (extern_fn_map self)
              (HashMap.insert (spec_duplicates self) def_id
                 (match HashMap.get (spec_duplicates self) def_id with Some dups => dups | None => [] end
                  ++ [(current_def_id, span)])%list)
          else make_resolver (HashMap.insert (extern_fn_map self) def_id (impl_ty, current_def_id)) (spec_duplicates self)
      | None => make_resolver (HashMap.insert (extern_fn_map self) def_id (impl_ty, current_def_id)) (spec_duplicates self)
      end
  | None => self
  end.

(** ** The collector *)

Record SpecItem : Type := make_spec_item {
  spec_id : SpecificationId;
  spec_type : SpecType;
  specification : Json.Assertion
}.

Record ProcedureSpecRef : Type := make_spec_ref {
  spec_id_refs : list SpecIdRef;
  ref_pure : bool;
  ref_trusted : bool
}.

Record SpecCollector : Type := make_collector {
  extern_resolver : ExternSpecResolver;
  spec_items : list SpecItem;
  typed_expressions : HashMap.t string LocalDefId;
  procedure_specs : HashMap.t LocalDefId ProcedureSpecRef;
  loop_specs : HashMap.t LocalDefId (list SpecificationId)
}.

Definition new_collector : SpecCollector :=
  make_collector (make_resolver HashMap.empty HashMap.empty) [] HashMap.empty HashMap.empty HashMap.empty.

(** [splitn(2, ":")]: the text before and after the first colon. *)
Fixpoint split_colon (s : string) : option (string * string) :=
  match s with
  | EmptyString => None
  | String c s' =>
      if starts_with s ":" then Some (EmptyString, s')
      else r ← split_colon s'; Some (String c (fst r), snd r)
  end.

Definition parse_pledge_ref (value : string) : option SpecIdRef :=
  r ← split_colon value;
  lhs ← match fst r with
        | EmptyString => Some None
        | raw_lhs_spec_id => lhs ← uuid_parse_str raw_lhs_spec_id; Some (Some lhs)
        end;
  rhs ← uuid_parse_str (snd r);
  Some (SpecIdRef.Pledge lhs rhs).

(** The inner option says whether there is a specification; the outer one
    is [None] if an identifier cannot be parsed. *)
Definition get_procedure_spec_ids (attrs : list Ast.Attribute) : option (option ProcedureSpecRef) :=
  pres ← read_prusti_attrs "pre_spec_id_ref" attrs;
  pres ← mapM_opt (fun raw_spec_id => id ← uuid_parse_str raw_spec_id; Some (SpecIdRef.Precondition id)) pres;
  posts ← read_prusti_attrs "post_spec_id_ref" attrs;
  posts ← mapM_opt (fun raw_spec_id => id ← uuid_parse_str raw_spec_id; Some (SpecIdRef.Postcondition id)) posts;
  pledges ← read_prusti_attrs "pledge_spec_id_ref" attrs;
  pledges ← mapM_opt parse_pledge_ref pledges;
  pred ← read_prusti_attr "pred_spec_id_ref" attrs;
  preds ← match pred with
          | Some raw_spec_id => id ← uuid_parse_str raw_spec_id; Some [SpecIdRef.Predicate id]
          | None => Some []
          end;
  let spec_id_refs := (pres ++ posts ++ pledges ++ preds)%list in
  let pure := has_prusti_attr attrs "pure" in
  let trusted := has_prusti_attr attrs "trusted" in
  Some (if pure || trusted || Nat.ltb 0 (length spec_id_refs)
        then Some (make_spec_ref spec_id_refs pure trusted) else None).

(** What the visitor gets of a function: its definition, its name unless it
    is a closure, its attributes and the call an external specification
    makes. *)
Record VisitedFn : Type := make_visited_fn {
  local_id : LocalDefId;
  def_id_of : DefId;
  fn_name : option string;
  attrs : list Ast.Attribute;
  spec_found : option SpecFound
}.

Definition collect_procedure_spec (self : SpecCollector) (local_id : LocalDefId) (attrs : list Ast.Attribute) :
    option SpecCollector :=
  r ← get_procedure_spec_ids attrs;
  Some (match r with
        | Some procedure_spec_ref =>
            make_collector (extern_resolver self) (spec_items self) (typed_expressions self)
              (HashMap.insert (procedure_specs self) local_id procedure_spec_ref) (loop_specs self)
        | None => self
        end).

(** [visit_trait_item]. *)
Definition visit_trait_item (self : SpecCollector) (local_id : LocalDefId) (attrs : list Ast.Attribute) :
    option SpecCollector := collect_procedure_spec self local_id attrs.

(** [visit_stmt]: a local with the attribute [closure]; [init] is the
    definition of its value. *)
Definition visit_stmt (self : SpecCollector) (init : option LocalDefId) (attrs : list Ast.Attribute) :
    option SpecCollector :=
  if has_prusti_attr attrs "closure" then local_id ← init; collect_procedure_spec self local_id attrs
  else Some self.

Definition spec_type_of (attrs : list Ast.Attribute) (fn_name : option string) : option SpecType :=
  if has_prusti_attr attrs "loop_body_invariant_spec" then Some SpecType.Invariant
  else
    fn_name ← fn_name;
    if starts_with fn_name "prusti_pre_item_" || starts_with fn_name "prusti_pre_closure_" then Some SpecType.Precondition
    else if starts_with fn_name "prusti_post_item_" || starts_with fn_name "prusti_post_closure_" then Some SpecType.Postcondition
    else if starts_with fn_name "prusti_pred_item_" then Some SpecType.Predicate
    else None.

Definition is_invariant (t : SpecType) : bool := match t with SpecType.Invariant => true | _ => false end.

Definition collect_extern (self : SpecCollector) (fn : VisitedFn) : SpecCollector :=
  if has_extern_spec_attr (attrs fn) then
    make_collector (add_extern_fn (extern_resolver self) (def_id_of fn) (spec_found fn)) (spec_items self)
      (typed_expressions self) (procedure_specs self) (loop_specs self)
  else self.

Definition collect_expression (self : SpecCollector) (fn : VisitedFn) : option SpecCollector :=
  expr_id ← read_prusti_attr "expr_id" (attrs fn);
  Some (match expr_id with
        | Some expr_id =>
            make_collector (extern_resolver self) (spec_items self)
              (HashMap.insert (typed_expressions self) expr_id (local_id fn)) (procedure_specs self) (loop_specs self)
        | None => self
        end).

(** [JsonText] of a string: the attribute holds the text. *)
Context (text_of : string -> JsonText).

Definition collect_spec_item (self : SpecCollector) (fn : VisitedFn) : option SpecCollector :=
  raw_spec_id ← read_prusti_attr "spec_id" (attrs fn);
  match raw_spec_id with
  | Some raw_spec_id =>
      spec_id ← uuid_parse_str raw_spec_id;
      json_string ← read_prusti_attr "assertion" (attrs fn);
      json_string ← json_string;
      specification ← from_json_string (text_of json_string);
      spec_type ← spec_type_of (attrs fn) (fn_name fn);
      Some (make_collector (extern_resolver self) (spec_items self ++ [make_spec_item spec_id spec_type specification])%list
              (typed_expressions self) (procedure_specs self)
              (if is_invariant spec_type
               then HashMap.insert (loop_specs self) (local_id fn)
                      (match HashMap.get (loop_specs self) (local_id fn) with Some l => l | None => [] end ++ [spec_id])%list
               else loop_specs self))
  | None => Some self
  end.

Definition visit_fn (self : SpecCollector) (fn : VisitedFn) : option SpecCollector :=
  let self := collect_extern self fn in
  self ← collect_procedure_spec self (local_id fn) (attrs fn);
  self ← collect_expression self fn;
  collect_spec_item self fn.

(** ** Resolving *)

(** [prepare_typed_procedure_specs]. *)
Definition prepare_typed_procedure_specs (self : SpecCollector) : option (HashMap.t SpecificationId Assertion) :=
  entries ← mapM_opt (fun item =>
    assertion ← to_typed (typed_expressions self) (specification item); Some (spec_id item, assertion)) (spec_items self);
  Some (HashMap.from_list entries).

Section Resolve.
Context (typed_specs : HashMap.t SpecificationId Assertion).

(** The parts of a procedure specification collected so far. *)
Definition add_spec_ref (acc : list Assertion * list Assertion * list Pledge * option Assertion) (r : SpecIdRef) :
    option (list Assertion * list Assertion * list Pledge * option Assertion) :=
  let '(pres, posts, pledges, predicate_body) := acc in
  match r with
  | SpecIdRef.Precondition spec_id =>
      a ← HashMap.get typed_specs spec_id; Some (pres ++ [a], posts, pledges, predicate_body)%list
  | SpecIdRef.Postcondition spec_id =>
      a ← HashMap.get typed_specs spec_id; Some (pres, posts ++ [a], pledges, predicate_body)%list
  | SpecIdRef.Pledge lhs rhs =>
      lhs ← match lhs with
            | Some spec_id => a ← HashMap.get typed_specs spec_id; Some (Some a)
            | None => Some None
            end;
      rhs ← HashMap.get typed_specs rhs;
      Some (pres, posts, pledges ++ [Spec.make_pledge None lhs rhs], predicate_body)%list
  | SpecIdRef.Predicate spec_id =>
      a ← HashMap.get typed_specs spec_id; Some (pres, posts, pledges, Some a)
  end.

Definition procedure_spec (refs : ProcedureSpecRef) : option SpecificationSet :=
  r ← foldl (fun acc x => acc ← acc; add_spec_ref acc x) (Some ([], [], [], None)) (spec_id_refs refs);
  let '(pres, posts, pledges, predicate_body) := r in
  Some (Spec.Procedure (Spec.make_procedure pres posts pledges predicate_body (ref_pure refs) (ref_trusted refs))).

Definition determine_procedure_specs (self : SpecCollector) (def_spec : DefSpecificationMap) : option DefSpecificationMap :=
  entries ← mapM_opt (fun e => spec ← procedure_spec (snd e); Some (fst e, spec)) (procedure_specs self);
  Some (make_def_specs _ _ (HashMap.extend (specs def_spec) entries) (extern_specs def_spec)).

Definition determine_loop_specs (self : SpecCollector) (def_spec : DefSpecificationMap) : option DefSpecificationMap :=
  entries ← mapM_opt (fun e =>
    specs ← mapM_opt (HashMap.get typed_specs) (snd e); Some (fst e, Spec.Loop (Spec.make_loop specs))) (loop_specs self);
  Some (make_def_specs _ _ (HashMap.extend (specs def_spec) entries) (extern_specs def_spec)).
End Resolve.

(** The errors that are reported for external specifications. *)
Inductive ExternError : Type :=
  | DuplicateSpecification (def_id : DefId) (spans : list RustSpan)
  | AlreadySpecified (def_id spec_id : DefId).

Definition check_duplicates (self : ExternSpecResolver) : list ExternError :=
  map (fun e => DuplicateSpecification (fst e) (map snd (snd e))) (spec_duplicates self).

(** One entry of the map: [expect_local] panics. *)
Definition determine_extern_spec (def_spec : DefSpecificationMap) (real_id spec_id : DefId) :
    option (list ExternError * DefSpecificationMap) :=
  let errors := match as_local real_id with
                | Some local_id => if HashMap.contains_key (specs def_spec) local_id then [AlreadySpecified real_id spec_id] else []
                | None => []
                end in
  local_spec ← as_local spec_id;
  Some (errors, match HashMap.get (specs def_spec) local_spec with
                | Some _ => make_def_specs _ _ (specs def_spec) (HashMap.insert (extern_specs def_spec) real_id local_spec)
                | None => def_spec
                end).

Definition determine_extern_specs (self : SpecCollector) (def_spec : DefSpecificationMap) :
    option (list ExternError * DefSpecificationMap) :=
  foldl (fun acc e =>
    acc ← acc;
    r ← determine_extern_spec (snd acc) (fst e) (snd (snd e));
    Some (fst acc ++ fst r, snd r)%list)
    (Some (check_duplicates (extern_resolver self), def_spec)) (extern_fn_map (extern_resolver self)).

Definition build_def_specs (self : SpecCollector) : option (list ExternError * DefSpecificationMap) :=
  typed_specs ← prepare_typed_procedure_specs self;
  def_spec ← determine_procedure_specs typed_specs self new_def_specs;
  r ← determine_extern_specs self def_spec;
  def_spec ← determine_loop_specs typed_specs self (snd r);
  Some (fst r, def_spec).
End Collector.
