(* ===== verification/SpecPipelineFacts.v ===== *)
(** * From attributes to procedure specifications

    The attributes that the macros generate for a function are read back by
    the collector as the specifications that the programmer wrote, grouped by
    kind and in their order; the procedure specification holds their typed
    assertions.  Each item the macros generate carries the assertion of the
    attribute it comes from, the compiler gives the items back to the visitor
    ([compiled_items]), and the assertion found under an identifier is the one
    that was written ([assertion_written]). *)

From S2P Require Import Prelude Collections Specs Preparser PreparserFacts Untyped Typed SpecsFacts SpecMacros.
From S2P Require Import SpecCollector.

(** ** Identifiers as text *)

Definition is_hex_digit (c : Ascii.ascii) : bool :=
  let n := Ascii.nat_of_ascii c in (Nat.leb 48 n && Nat.leb n 57) || (Nat.leb 97 n && Nat.leb n 102).

Fixpoint is_hex (s : string) : bool :=
  match s with
  | EmptyString => true
  | String c s => is_hex_digit c && is_hex s
  end.

(** What the macros rely on: an identifier of 128 bits is printed as
    hexadecimal digits and parsed back. *)
Definition uuid_range (i : Z) : Prop := (0 <= i < 2 ^ 128)%Z.

Class UuidLaws `{UuidCrate} : Prop := {
  uuid_hex : forall i, uuid_range i -> is_hex (uuid_simple i) = true;
  uuid_nonempty : forall i, uuid_range i -> uuid_simple i <> EmptyString;
  uuid_parse_simple : forall i, uuid_range i -> uuid_parse_str (uuid_simple i) = Some i
}.

(** The compiler's view of a generated attribute. *)
Definition lower (a : PrustiAttr) : Ast.Attribute :=
  Ast.Normal ["prusti"; attr_name a]
    (match attr_value a with Some v => Ast.EqLiteral v | None => Ast.NoArgs end).

(** No quotation mark is escaped in these texts. *)
Fixpoint no_backslash (s : string) : bool :=
  match s with
  | EmptyString => true
  | String c s => negb (Ascii.eqb c (Ascii.ascii_of_nat 92)) && no_backslash s
  end.

Lemma extract_string_id s : no_backslash s = true -> extract_string s = s.
Proof.
  unfold extract_string, str_replace. cbn. induction s as [|c s IH]; [done|]. cbn [no_backslash str_replace_go].
  intros [Hc Hs]%andb_true_iff. rewrite IH by done.
  unfold starts_with, String.prefix. destruct (Ascii.ascii_dec _ c) as [<-|]; [done|done].
Qed.

Lemma hex_no_backslash s : is_hex s = true -> no_backslash s = true.
Proof.
  induction s as [|c s IH]; [done|]. cbn. intros [Hc Hs]%andb_true_iff. rewrite IH by done. rewrite andb_true_r.
  apply negb_true_iff. destruct (Ascii.eqb_spec c (Ascii.ascii_of_nat 92)) as [->|]; [done|done].
Qed.

Lemma no_backslash_app s t : no_backslash (s ++ t) = no_backslash s && no_backslash t.
Proof.
  induction s as [|c s IH]; [done|]. change (String c s ++ t) with (String c (s ++ t)). cbn [no_backslash].
  by rewrite IH, andb_assoc.
Qed.

Lemma split_colon_hex s t : is_hex s = true -> split_colon (s ++ ":" ++ t) = Some (s, t).
Proof.
  induction s as [|c s IH]; [by destruct t|]. cbn [is_hex]. intros [Hc Hs]%andb_true_iff.
  change (String c s ++ ":" ++ t) with (String c (s ++ ":" ++ t)). cbn [split_colon].
  replace (starts_with (String c (s ++ ":" ++ t)) ":") with false; [by rewrite IH|].
  symmetry. unfold starts_with, String.prefix. destruct (Ascii.ascii_dec _ c) as [<-|]; [done|done].
Qed.

(** ** The references of attributes *)

Section Refs.
Context `{QuoteCrate} `{UuidCrate} `{!UuidLaws} `{SerdeJson}.
Context (uuid_new_v4 : nat -> SpecificationId) (is_result_path : SynExpr -> bool) (stream_span : list TokenTree -> Span).

Context (new_in_range : forall n, uuid_range (uuid_new_v4 n)).

Abbreviation generate_for := (generate_for uuid_new_v4 is_result_path stream_span).
Abbreviation generate_spec_and_assertions := (generate_spec_and_assertions uuid_new_v4 is_result_path stream_span).

(** The reference an attribute stands for, and the number of identifiers it
    takes. *)
Definition attribute_ref (n : nat) (k : SpecAttributeKind) : option SpecIdRef :=
  match k with
  | SpecAttributeKind.Requires => Some (SpecIdRef.Precondition (uuid_new_v4 n))
  | SpecAttributeKind.Ensures => Some (SpecIdRef.Postcondition (uuid_new_v4 n))
  | SpecAttributeKind.AfterExpiry => Some (SpecIdRef.Pledge None (uuid_new_v4 n))
  | SpecAttributeKind.AfterExpiryIf => Some (SpecIdRef.Pledge (Some (uuid_new_v4 n)) (uuid_new_v4 (S n)))
  | _ => None
  end.

Definition ids_taken (k : SpecAttributeKind) : nat :=
  match k with
  | SpecAttributeKind.Requires | SpecAttributeKind.Ensures | SpecAttributeKind.AfterExpiry => 1
  | SpecAttributeKind.AfterExpiryIf => 2
  | _ => 0
  end.

Fixpoint attribute_refs (n : nat) (ks : list SpecAttributeKind) : list SpecIdRef :=
  match ks with
  | [] => []
  | k :: ks => (match attribute_ref n k with Some r => [r] | None => [] end ++ attribute_refs (n + ids_taken k) ks)%list
  end.

(** The attribute that is generated for it. *)
Definition generated_attr (n : nat) (k : SpecAttributeKind) : PrustiAttr :=
  match k with
  | SpecAttributeKind.Requires => make_prusti_attr "pre_spec_id_ref" (Some (uuid_simple (uuid_new_v4 n)))
  | SpecAttributeKind.Ensures => make_prusti_attr "post_spec_id_ref" (Some (uuid_simple (uuid_new_v4 n)))
  | SpecAttributeKind.AfterExpiry => make_prusti_attr "pledge_spec_id_ref" (Some (":" ++ uuid_simple (uuid_new_v4 n)))
  | SpecAttributeKind.AfterExpiryIf =>
      make_prusti_attr "pledge_spec_id_ref" (Some (uuid_simple (uuid_new_v4 n) ++ ":" ++ uuid_simple (uuid_new_v4 (S n))))
  | SpecAttributeKind.Pure => make_prusti_attr "pure" None
  | SpecAttributeKind.Trusted => make_prusti_attr "trusted" None
  | SpecAttributeKind.Predicate => make_prusti_attr "predicate" None
  end.

Fixpoint generated_attrs (n : nat) (ks : list SpecAttributeKind) : list PrustiAttr :=
  match ks with
  | [] => []
  | k :: ks => generated_attr n k :: generated_attrs (n + ids_taken k) ks
  end.

(** Split a run of a computation into its steps. *)
Lemma bind_val {S E A B} (m : ST S E A) (f : A -> ST S E B) s b s' :
  (x ← m; f x) s = Val (b, s') -> exists a s1, m s = Val (a, s1) /\ f a s1 = Val (b, s').
Proof. unfold mbind, ST_bind. destruct (m s) as [[a s1]| |]; [|done..]. by exists a, s1. Qed.

Lemma with_rewriter_state {A} (p : ST Z Error A) n a n' : with_rewriter p n = Val (a, n') -> n' = n.
Proof. unfold with_rewriter, lift_o. destruct (fst <$> p _); by intros [=]. Qed.

Lemma spec_item_state t i a item n x n' : generate_spec_item_fn t i a item n = Val (x, n') ->
  n' = n /\ spec_id_str x = uuid_simple i.
Proof.
  unfold generate_spec_item_fn. destruct (check_contains_keyword_in_params _ _); [done|].
  intros (st & s1 & E1 & (j & s2 & E2 & [= <- <-])%bind_val)%bind_val. unfold lift in *.
  destruct (encode_type_check a []); [|done]. injection E1 as _ <-. destruct (to_json_string a); [|done].
  by injection E2 as _ <-.
Qed.

Lemma check_result_state r n u n' : check_is_result is_result_path r n = Val (u, n') -> n' = n.
Proof. unfold check_is_result. destruct r as [e|]; [destruct (is_result_path _)|]; by intros [=]. Qed.

Lemma lift_state {S E A} (m : option A) (s : S) a s' : lift (E := E) m s = Val (a, s') -> s' = s /\ m = Some a.
Proof. unfold lift. destruct m; by intros [= -> ->]. Qed.

(** The identifier that a generated function carries. *)
Abbreviation item_id := (fun m => uuid_simple (uuid_new_v4 m)).

Lemma generate_for_attr k tokens item n items gen n' :
  generate_for k tokens item n = Val ((items, gen), n') ->
  gen = [generated_attr n k] /\ n' = (n + ids_taken k)%nat /\ map spec_id_str items = map item_id (seq n (ids_taken k)).
Proof.
  destruct k; cbn [SpecMacros.generate_for generated_attr ids_taken].
  - intros (i & s1 & [= <- <-] & (a & s2 & E2%with_rewriter_state & (x & s3 & [E3 X3]%spec_item_state & [= <- <- <-])%bind_val)%bind_val)%bind_val.
    subst. split_and!; [done|lia|cbn; congruence].
  - intros (i & s1 & [= <- <-] & (a & s2 & E2%with_rewriter_state & (x & s3 & [E3 X3]%spec_item_state & [= <- <- <-])%bind_val)%bind_val)%bind_val.
    subst. split_and!; [done|lia|cbn; congruence].
  - intros (i & s1 & [= <- <-] & (p & s2 & E2%with_rewriter_state & (u & s3 & E3%check_result_state &
      (u' & s4 & [E4 _]%lift_state & (x & s5 & [E5 X5]%spec_item_state & [= <- <- <-])%bind_val)%bind_val)%bind_val)%bind_val)%bind_val.
    subst. split_and!; [done|lia|cbn; congruence].
  - intros (i & s1 & [= <- <-] & (i' & s1' & [= <- <-] & (p & s2 & E2%with_rewriter_state & (u & s3 & E3%check_result_state &
      (lhs & s4 & [E4 _]%lift_state & (x & s5 & [E5 X5]%spec_item_state & (y & s6 & [E6 X6]%spec_item_state &
      [= <- <- <-])%bind_val)%bind_val)%bind_val)%bind_val)%bind_val)%bind_val)%bind_val.
    subst. split_and!; [done|lia|cbn; congruence].
  - unfold generate_for_pure, generate_without_arguments. destruct tokens; [|done]. intros [= <- <- <-]. split_and!; [done|lia|done].
  - unfold generate_for_trusted, generate_without_arguments. destruct tokens; [|done]. intros [= <- <- <-]. split_and!; [done|lia|done].
  - done.
Qed.

Lemma generated_attributes attributes item : forall n items gen n',
  generate_spec_and_assertions attributes item n = Val ((items, gen), n') ->
  let ks := map fst attributes in
  gen = generated_attrs n ks /\ Forall (fun k => k <> SpecAttributeKind.Predicate) ks /\
  n' = (n + sum_list_with ids_taken ks)%nat /\ map spec_id_str items = map item_id (seq n (sum_list_with ids_taken ks)).
Proof.
  induction attributes as [|[k tokens] rest IH]; intros n items gen n' E ks; [injection E as <- <- <-; split_and!; [done..|cbn; lia|done]|].
  revert E; subst ks.
  cbn [SpecMacros.generate_spec_and_assertions map fst].
  intros ([items1 gen1] & n1 & E1 & ([items2 gen2] & n2 & E2 & [= <- <- <-])%bind_val)%bind_val.
  pose proof E1 as (-> & -> & I1)%generate_for_attr. destruct (IH _ _ _ _ E2) as (-> & HF & -> & I2).
  split_and!; [done|constructor; [by intros ->|done]|cbn; lia|].
  cbn [sum_list_with fst snd]. by rewrite seq_app, !map_app, I1, I2.
Qed.

(** ** Reading the attributes back *)

Lemma read_other name a attrs : attr_name a == name = false ->
  read_prusti_attrs name (lower a :: attrs) = read_prusti_attrs name attrs.
Proof. intros E. unfold lower. cbn. by rewrite E. Qed.

Lemma read_value name v attrs : no_backslash v = true ->
  read_prusti_attrs name (lower (make_prusti_attr name (Some v)) :: attrs) =
  (rest ← read_prusti_attrs name attrs; Some (v :: rest)).
Proof. intros Hv. unfold lower. cbn [read_prusti_attrs]. cbn. rewrite String.eqb_refl. cbn. by rewrite extract_string_id. Qed.

Definition is_pre (r : SpecIdRef) : bool := match r with SpecIdRef.Precondition _ => true | _ => false end.
Definition is_post (r : SpecIdRef) : bool := match r with SpecIdRef.Postcondition _ => true | _ => false end.
Definition is_pledge (r : SpecIdRef) : bool := match r with SpecIdRef.Pledge _ _ => true | _ => false end.

Abbreviation lowered n ks := (map lower (generated_attrs n ks)).

Abbreviation simple m := (uuid_simple (uuid_new_v4 m)).

Lemma simple_hex m : is_hex (simple m) = true.
Proof. by apply uuid_hex. Qed.

Lemma simple_parse m : uuid_parse_str (simple m) = Some (uuid_new_v4 m).
Proof. by apply uuid_parse_simple. Qed.

Lemma simple_plain m : no_backslash (simple m) = true.
Proof. apply hex_no_backslash, simple_hex. Qed.

Lemma simple_plain_single m : no_backslash (":" ++ simple m) = true.
Proof. by rewrite no_backslash_app, simple_plain. Qed.

Lemma simple_plain_pair m m' : no_backslash (simple m ++ ":" ++ simple m') = true.
Proof. by rewrite !no_backslash_app, !simple_plain. Qed.

Lemma parse_hex_pledge m : parse_pledge_ref (":" ++ simple m) = Some (SpecIdRef.Pledge None (uuid_new_v4 m)).
Proof.
  unfold parse_pledge_ref. change (":" ++ simple m) with (EmptyString ++ ":" ++ simple m).
  rewrite split_colon_hex by done. cbn. by rewrite simple_parse.
Qed.

Lemma parse_hex_pledge_if m m' :
  parse_pledge_ref (simple m ++ ":" ++ simple m') = Some (SpecIdRef.Pledge (Some (uuid_new_v4 m)) (uuid_new_v4 m')).
Proof.
  unfold parse_pledge_ref. rewrite split_colon_hex by apply simple_hex. cbn.
  pose proof (uuid_nonempty _ (new_in_range m)). pose proof (simple_parse m) as Em.
  destruct (simple m); [done|]. rewrite Em. cbn. by rewrite simple_parse.
Qed.

Ltac read_step := cbn [generated_attrs attribute_refs map attribute_ref ids_taken]; unfold generated_attr;
  first [rewrite read_value by apply simple_plain | rewrite read_other by reflexivity].

Lemma read_pres ks : forall n,
  (pres ← read_prusti_attrs "pre_spec_id_ref" (lowered n ks);
   mapM_opt (fun raw_spec_id => id ← uuid_parse_str raw_spec_id; Some (SpecIdRef.Precondition id)) pres)
  = Some (List.filter is_pre (attribute_refs n ks)).
Proof.
  induction ks as [|k ks IH]; intros n; [done|]. specialize (IH (n + ids_taken k)%nat).
  destruct k; read_step; cbn [ids_taken] in IH; try exact IH.
  destruct (read_prusti_attrs _ _) as [pres|]; [|done]. cbn in *. rewrite simple_parse. cbn. by rewrite IH.
Qed.

Lemma read_posts ks : forall n,
  (posts ← read_prusti_attrs "post_spec_id_ref" (lowered n ks);
   mapM_opt (fun raw_spec_id => id ← uuid_parse_str raw_spec_id; Some (SpecIdRef.Postcondition id)) posts)
  = Some (List.filter is_post (attribute_refs n ks)).
Proof.
  induction ks as [|k ks IH]; intros n; [done|]. specialize (IH (n + ids_taken k)%nat).
  destruct k; read_step; cbn [ids_taken] in IH; try exact IH.
  destruct (read_prusti_attrs _ _) as [posts|]; [|done]. cbn in *. rewrite simple_parse. cbn. by rewrite IH.
Qed.

Lemma read_pledges ks : forall n,
  (pledges ← read_prusti_attrs "pledge_spec_id_ref" (lowered n ks); mapM_opt parse_pledge_ref pledges)
  = Some (List.filter is_pledge (attribute_refs n ks)).
Proof.
  induction ks as [|k ks IH]; intros n; [done|]. specialize (IH (n + ids_taken k)%nat).
  destruct k; cbn [generated_attrs attribute_refs map attribute_ref ids_taken]; unfold generated_attr;
    first [rewrite read_value by first [apply simple_plain_single | apply simple_plain_pair] | rewrite read_other by reflexivity];
    cbn [ids_taken] in IH; try exact IH;
    destruct (read_prusti_attrs _ _) as [pledges|]; try done; cbn [mbind option_bind] in *;
    cbn [mapM_opt]; rewrite ?parse_hex_pledge, ?parse_hex_pledge_if; cbn; by rewrite IH.
Qed.

Lemma read_pred ks : forall n, read_prusti_attrs "pred_spec_id_ref" (lowered n ks) = Some [].
Proof. induction ks as [|k ks IH]; intros n; [done|]. destruct k; read_step; apply IH. Qed.

Lemma read_flag name k : forall ks n,
  (forall k' n', attr_name (generated_attr n' k') == name = SpecAttributeKind.eqb k' k) ->
  has_prusti_attr (lowered n ks) name = existsb (fun k' => SpecAttributeKind.eqb k' k) ks.
Proof.
  induction ks as [|k' ks IH]; intros n Hk; [done|]. cbn [generated_attrs map existsb]. rewrite <- (IH (n + ids_taken k')%nat Hk).
  rewrite <- (Hk k' n). reflexivity.
Qed.

Lemma refs_or_flags ks n : Forall (fun k => k <> SpecAttributeKind.Predicate) ks ->
  existsb (fun k => SpecAttributeKind.eqb k SpecAttributeKind.Pure) ks
  || existsb (fun k => SpecAttributeKind.eqb k SpecAttributeKind.Trusted) ks
  || Nat.ltb 0 (length (List.filter is_pre (attribute_refs n ks) ++ List.filter is_post (attribute_refs n ks)
                        ++ List.filter is_pledge (attribute_refs n ks) ++ []))
  = match ks with [] => false | _ => true end.
Proof.
  intros HF. destruct ks as [|k ks]; [done|]. inversion HF; subst.
  destruct k; try done; try (cbn; by rewrite ?orb_true_r);
    (apply orb_true_iff; right; apply Nat.ltb_lt; rewrite !length_app; cbn; lia).
Qed.

Lemma spec_ids_read_back ks n : Forall (fun k => k <> SpecAttributeKind.Predicate) ks ->
  let refs := attribute_refs n ks in
  get_procedure_spec_ids (lowered n ks) =
    Some (match ks with
          | [] => None
          | _ => Some (make_spec_ref (List.filter is_pre refs ++ List.filter is_post refs ++ List.filter is_pledge refs ++ [])
                         (existsb (fun k => SpecAttributeKind.eqb k SpecAttributeKind.Pure) ks)
                         (existsb (fun k => SpecAttributeKind.eqb k SpecAttributeKind.Trusted) ks))
          end).
Proof.
  intros HF refs. unfold get_procedure_spec_ids.
  pose proof (read_pres ks n) as E1. pose proof (read_posts ks n) as E2. pose proof (read_pledges ks n) as E3.
  destruct (read_prusti_attrs "pre_spec_id_ref" _) as [l1|]; [|done]. cbn [mbind option_bind] in *. rewrite E1. cbn [mbind option_bind].
  destruct (read_prusti_attrs "post_spec_id_ref" _) as [l2|]; [|done]. cbn [mbind option_bind] in *. rewrite E2. cbn [mbind option_bind].
  destruct (read_prusti_attrs "pledge_spec_id_ref" _) as [l3|]; [|done]. cbn [mbind option_bind] in *. rewrite E3. cbn [mbind option_bind].
  unfold read_prusti_attr. rewrite read_pred. cbn [mbind option_bind last].
  rewrite (read_flag "pure" SpecAttributeKind.Pure), (read_flag "trusted" SpecAttributeKind.Trusted) by (by intros []).
  cbn zeta. unfold refs. rewrite refs_or_flags by done. by destruct ks.
Qed.
End Refs.

(** ** What the programmer wrote *)

Section Written.
Context `{UuidCrate} `{Rustc}.
Context (uuid_new_v4 : nat -> SpecificationId).
(** The typed assertion of an identifier. *)
Context (f : SpecificationId -> Spec.Assertion ExpressionId LocalDefId (Local * RustTy)).

Abbreviation Assertion := (Spec.Assertion ExpressionId LocalDefId (Local * RustTy)).

(** The assertions of the attributes of one kind, in their order; the
    attributes take identifiers from [n] on. *)
Definition written {A} (part : nat -> SpecAttributeKind -> list A) : nat -> list SpecAttributeKind -> list A :=
  fix written n ks :=
    match ks with
    | [] => []
    | k :: ks => (part n k ++ written (n + ids_taken k)%nat ks)%list
    end.

Definition written_pres := written (fun n k =>
  match k with SpecAttributeKind.Requires => [f (uuid_new_v4 n)] | _ => [] end).

Definition written_posts := written (fun n k =>
  match k with SpecAttributeKind.Ensures => [f (uuid_new_v4 n)] | _ => [] end).

Definition written_pledges := written (fun n k =>
  match k with
  | SpecAttributeKind.AfterExpiry => [Spec.make_pledge None None (f (uuid_new_v4 n))]
  | SpecAttributeKind.AfterExpiryIf => [Spec.make_pledge None (Some (f (uuid_new_v4 n))) (f (uuid_new_v4 (S n)))]
  | _ => []
  end).

Definition mentioned (k : SpecAttributeKind) (ks : list SpecAttributeKind) : bool :=
  existsb (fun k' => SpecAttributeKind.eqb k' k) ks.

Definition written_spec (n : nat) (ks : list SpecAttributeKind) :=
  Spec.Procedure (Spec.make_procedure (written_pres n ks) (written_posts n ks) (written_pledges n ks) None
    (mentioned SpecAttributeKind.Pure ks) (mentioned SpecAttributeKind.Trusted ks)).

Context (typed_specs : HashMap.t SpecificationId Assertion).

Abbreviation resolve start l := (foldl (fun acc x => acc ← acc; add_spec_ref typed_specs acc x) (Some start) l).
Abbreviation known n n' :=
  (forall m, (n <= m < n')%nat -> HashMap.get typed_specs (uuid_new_v4 m) = Some (f (uuid_new_v4 m))).

Lemma known_tail n k ks : known n (n + sum_list_with ids_taken (k :: ks))%nat ->
  known (n + ids_taken k)%nat (n + ids_taken k + sum_list_with ids_taken ks)%nat.
Proof. intros Hm m Hr. apply Hm. cbn. lia. Qed.

Ltac resolve_head Hn n := cbn in Hn |- *; rewrite ?(Hn n), ?(Hn (S n)) by lia; cbn.

Lemma resolve_pres ks : forall n posts pledges pres, known n (n + sum_list_with ids_taken ks)%nat ->
  resolve (pres, posts, pledges, None) (List.filter is_pre (attribute_refs uuid_new_v4 n ks))
  = Some (pres ++ written_pres n ks, posts, pledges, None)%list.
Proof.
  induction ks as [|k ks IH]; intros n posts pledges pres Hn; [cbn; by rewrite app_nil_r|].
  pose proof (known_tail _ _ _ Hn) as Ht.
  destruct k; try (apply (IH _ _ _ _ Ht)). resolve_head Hn n. etransitivity; [apply (IH _ _ _ _ Ht)|].
  by rewrite <- app_assoc.
Qed.

Lemma resolve_posts ks : forall n pres pledges posts, known n (n + sum_list_with ids_taken ks)%nat ->
  resolve (pres, posts, pledges, None) (List.filter is_post (attribute_refs uuid_new_v4 n ks))
  = Some (pres, posts ++ written_posts n ks, pledges, None)%list.
Proof.
  induction ks as [|k ks IH]; intros n pres pledges posts Hn; [cbn; by rewrite app_nil_r|].
  pose proof (known_tail _ _ _ Hn) as Ht.
  destruct k; try (apply (IH _ _ _ _ Ht)). resolve_head Hn n. etransitivity; [apply (IH _ _ _ _ Ht)|].
  by rewrite <- app_assoc.
Qed.

Lemma resolve_pledges ks : forall n pres posts pledges, known n (n + sum_list_with ids_taken ks)%nat ->
  resolve (pres, posts, pledges, None) (List.filter is_pledge (attribute_refs uuid_new_v4 n ks))
  = Some (pres, posts, pledges ++ written_pledges n ks, None)%list.
Proof.
  induction ks as [|k ks IH]; intros n pres posts pledges Hn; [cbn; by rewrite app_nil_r|].
  pose proof (known_tail _ _ _ Hn) as Ht.
  destruct k; try (apply (IH _ _ _ _ Ht)); resolve_head Hn n; (etransitivity; [apply (IH _ _ _ _ Ht)|]);
    by rewrite <- app_assoc.
Qed.

Lemma resolve_all ks n : known n (n + sum_list_with ids_taken ks)%nat ->
  let refs := attribute_refs uuid_new_v4 n ks in
  procedure_spec typed_specs
    (make_spec_ref (List.filter is_pre refs ++ List.filter is_post refs ++ List.filter is_pledge refs ++ [])
       (mentioned SpecAttributeKind.Pure ks) (mentioned SpecAttributeKind.Trusted ks))
  = Some (written_spec n ks).
Proof.
  intros Hn refs. unfold procedure_spec. cbn [spec_id_refs]. rewrite !foldl_app. unfold refs.
  rewrite (resolve_pres _ _ _ _ _ Hn), (resolve_posts _ _ _ _ _ Hn), (resolve_pledges _ _ _ _ _ Hn). done.
Qed.
End Written.

(** ** What the generated functions carry *)

Section Generated.
Context `{QuoteCrate} `{UuidCrate} `{SerdeJson}.
Context (uuid_new_v4 : nat -> SpecificationId) (is_result_path : SynExpr -> bool) (stream_span : list TokenTree -> Span).

Abbreviation Untyped := (Spec.Assertion unit SynExpr Arg).
Abbreviation generate_for := (generate_for uuid_new_v4 is_result_path stream_span).
Abbreviation generate_spec_and_assertions := (generate_spec_and_assertions uuid_new_v4 is_result_path stream_span).

(** [a] is [a0] with consecutive identifiers of the specification [i]. *)
Definition numbered_as (i : SpecificationId) (a0 : Untyped) (a : Spec.Assertion ExpressionId SynExpr Arg) : Prop :=
  erase a = erase a0 /\ implemented a = true /\ exists start, ids a = numbered i start (length (ids a0)).

(** The counter of the macro does not wrap around. *)
Definition numbers_fit (attribute : SpecAttributeKind * list TokenTree) : Prop :=
  let count (a : Untyped) := Z.of_nat (length (ids a)) in
  match fst attribute with
  | SpecAttributeKind.Requires | SpecAttributeKind.Ensures =>
      forall a0, parse_stream (extract_assertion parse_prusti) (snd attribute) = Val a0 -> (100 + count a0 < 2 ^ 64)%Z
  | SpecAttributeKind.AfterExpiry =>
      forall p0, parse_stream (extract_pledge_rhs_only parse_prusti) (snd attribute) = Val p0 ->
        (101 + count (Spec.rhs p0) < 2 ^ 64)%Z
  | SpecAttributeKind.AfterExpiryIf =>
      forall p0 l0, parse_stream (extract_pledge parse_prusti) (snd attribute) = Val p0 -> Spec.lhs p0 = Some l0 ->
        (101 + count l0 + count (Spec.rhs p0) < 2 ^ 64)%Z
  | _ => True
  end.

(** The assertions that are written in an attribute, with the identifiers
    they get. *)
Definition attr_written (n : nat) (k : SpecAttributeKind) (tokens : list TokenTree)
    (written : list (SpecificationId * Untyped)) : Prop :=
  match k with
  | SpecAttributeKind.Requires | SpecAttributeKind.Ensures =>
      exists a0, parse_stream (extract_assertion parse_prusti) tokens = Val a0 /\ written = [(uuid_new_v4 n, a0)]
  | SpecAttributeKind.AfterExpiry =>
      exists p0, parse_stream (extract_pledge_rhs_only parse_prusti) tokens = Val p0
        /\ written = [(uuid_new_v4 n, Spec.rhs p0)]
  | SpecAttributeKind.AfterExpiryIf =>
      exists p0 l0, parse_stream (extract_pledge parse_prusti) tokens = Val p0 /\ Spec.lhs p0 = Some l0
        /\ written = [(uuid_new_v4 n, l0); (uuid_new_v4 (S n), Spec.rhs p0)]
  | _ => written = []
  end.

Fixpoint attrs_written (n : nat) (attributes : list (SpecAttributeKind * list TokenTree))
    (written : list (SpecificationId * Untyped)) : Prop :=
  match attributes with
  | [] => written = []
  | (k, tokens) :: rest => exists w1 w2, written = (w1 ++ w2)%list
      /\ attr_written n k tokens w1 /\ attrs_written (n + ids_taken k) rest w2
  end.

(** The function [x] carries the assertion under its identifier. *)
Definition carries (i : SpecificationId) (a : Spec.Assertion ExpressionId SynExpr Arg) (x : SpecMacros.SpecItem) : Prop :=
  spec_id_str x = uuid_simple i /\ to_json_string a = Some (assertion_json x)
  /\ exists t s, item_name x = "prusti_" ++ SpecItemType.to_string t ++ "_item_" ++ s.

Definition carries_written (w : SpecificationId * Untyped) (x : SpecMacros.SpecItem) : Prop :=
  exists a, numbered_as (fst w) (snd w) a /\ carries (fst w) a x.

Lemma assign_implemented {E} i (a0 : Untyped) : forall s a s',
  assign_assertion (E := E) i a0 s = Val (a, s') -> implemented a0 = true.
Proof.
  assert (Hlist : forall l : list Untyped,
    Forall (fun b => forall s a s', assign_assertion (E := E) i b s = Val (a, s') -> implemented b = true) l ->
    forall s l' s', sequence (map (assign_assertion (E := E) i) l) s = Val (l', s') -> forallb implemented l = true).
  { induction 1 as [|b l Hb _ IH]; intros s l' s'; [done|]. cbn [map sequence forallb].
    intros (a & s1 & E1%Hb & (l1 & s2 & E2%IH & _)%bind_val)%bind_val. by rewrite E1, E2. }
  induction a0 as [e|l IH|lhs rhs IHl IHr|vs body _|vs ts body IH|vs ts body IH|c vs pres posts IH1 IH2]
    using Spec.Assertion_ind'; intros s a s'; cbn [assign_assertion implemented].
  - done.
  - intros (l' & s1 & E1 & _)%bind_val. by eapply Hlist.
  - intros (l & s1 & E1%IHl & (r & s2 & E2%IHr & _)%bind_val)%bind_val. by rewrite E1, E2.
  - done.
  - intros (v & s1 & _ & (t & s2 & _ & (b & s3 & E3%IH & _)%bind_val)%bind_val)%bind_val. done.
  - intros (v & s1 & _ & (t & s2 & _ & (b & s3 & E3%IH & _)%bind_val)%bind_val)%bind_val. done.
  - intros (e & s1 & _ & (v & s2 & _ & (l1 & s3 & E3 & (l2 & s4 & E4 & _)%bind_val)%bind_val)%bind_val)%bind_val.
    rewrite (Hlist _ IH1 _ _ _ E3). by rewrite (Hlist _ IH2 _ _ _ E4).
Qed.

Lemma assign_numbers {E} i (a0 : Untyped) last a last' :
  assign_assertion (E := E) i a0 last = Val (a, last') ->
  (0 <= last)%Z -> (last + Z.of_nat (length (ids a0)) < 2 ^ 64)%Z ->
  numbered_as i a0 a /\ last' = (last + Z.of_nat (length (ids a0)))%Z.
Proof.
  intros Ea Hpos Hl. pose proof (assign_implemented i a0 _ _ _ Ea) as Hi.
  destruct (assigns_assertion (E := E) i a0 Hi last Hpos Hl) as (b & Eb & Cb & [Ob Ib]).
  rewrite Ea in Eb. injection Eb as <- ->. split; [|done]. split_and!; [done|done|by eexists].
Qed.

Lemma with_rewriter_val {A} (p : ST Z Error A) n a n' :
  with_rewriter p n = Val (a, n') -> exists last', p 100%Z = Val (a, last').
Proof.
  unfold with_rewriter, lift_o. change expression_id_generator with 100%Z.
  destruct (p 100%Z) as [[b last']| |]; cbn; [|done..]. intros [= <- _]. by exists last'.
Qed.

Lemma lift_outcome_val {S E A} (m : outcome E A) (s : S) a s' : lift_o m s = Val (a, s') -> s' = s /\ m = Val a.
Proof. unfold lift_o. destruct m; by intros [= -> ->]. Qed.

Lemma spec_item_carries t i a item n x n' :
  generate_spec_item_fn t i a item n = Val (x, n') -> n' = n /\ carries i a x.
Proof.
  unfold generate_spec_item_fn. destruct (check_contains_keyword_in_params _ _); [done|].
  intros (st & s1 & [-> _]%lift_state & (j & s2 & [-> Ej]%lift_state & [= <- <-])%bind_val)%bind_val.
  split; [done|]. split; [done|]. split; [done|]. by exists t, (Item.fn_name item ++ "_" ++ uuid_simple i).
Qed.

(** The assertions of a pledge are numbered after its reference. *)
Lemma assign_reference {E} i (r : option (Spec.Expression unit SynExpr)) b last' :
  assign_option (E := E) (assign_expression i) r 100%Z = Val (b, last') -> (100 <= last' <= 101)%Z.
Proof.
  destruct r as [e|]; cbn [assign_option]; [|intros [= _ <-]; lia].
  intros (e' & s1 & (j & s2 & [= _ <-] & [= _ <-])%bind_val & [= _ <-])%bind_val. vm_compute. by split.
Qed.

Lemma generate_for_written k tokens item n items gen n' :
  generate_for k tokens item n = Val ((items, gen), n') -> numbers_fit (k, tokens) ->
  exists written, attr_written n k tokens written /\ Forall2 carries_written written items.
Proof.
  destruct k; cbn [SpecMacros.generate_for attr_written numbers_fit fst snd].
  1, 2: intros (i & s1 & [= <- <-] & (a & s2 & Ea & (x & s3 & [-> Hx]%spec_item_carries & [= <- <- <-])%bind_val)%bind_val)%bind_val Hfit;
    pose proof (with_rewriter_val _ _ _ _ Ea) as (last' & Ep);
    apply bind_val in Ep as (a0 & s4 & [-> E0]%lift_outcome_val & En);
    (apply assign_numbers in En as [En _]; [|lia|by apply Hfit]); eexists; (split; [by exists a0|]);
    repeat constructor; by exists a.
  - intros (i & s1 & [= <- <-] & (p & s2 & Ep & (u & s3 & _ & (u' & s4 & _ & (x & s5 & [-> Hx]%spec_item_carries &
      [= <- <- <-])%bind_val)%bind_val)%bind_val)%bind_val)%bind_val Hfit.
    pose proof (with_rewriter_val _ _ _ _ Ep) as (last' & E1). cbn [parse_pledge_of] in E1.
    apply bind_val in E1 as (p0 & s6 & [-> E0]%lift_outcome_val & E1).
    apply bind_val in E1 as ([] & s7 & [-> _]%lift_outcome_val & E1).
    apply bind_val in E1 as (r & s8 & Er%assign_reference & E1).
    apply bind_val in E1 as (a & s9 & En & [= <- _]).
    specialize (Hfit p0 E0). apply assign_numbers in En as [En _]; [|lia|lia].
    eexists. split; [by exists p0|]. repeat constructor. by exists a.
  - intros (i & s1 & [= <- <-] & (i' & s1' & [= <- <-] & (p & s2 & Ep & (u & s3 & _ & (l & s4 & [_ El]%lift_state &
      (x & s5 & [_ Hx]%spec_item_carries & (y & s6 & [_ Hy]%spec_item_carries & [= <- <- <-])%bind_val)%bind_val)%bind_val)
      %bind_val)%bind_val)%bind_val)%bind_val Hfit.
    pose proof (with_rewriter_val _ _ _ _ Ep) as (last' & E1). cbn [parse_pledge_of] in E1.
    apply bind_val in E1 as (p0 & s7 & [-> E0]%lift_outcome_val & E1).
    apply bind_val in E1 as (r & s8 & Er%assign_reference & E1).
    apply bind_val in E1 as (lo & s9 & Elo & E1).
    apply bind_val in E1 as (a & s10 & En & [= <- _]). cbn [Spec.lhs Spec.rhs] in *. subst lo.
    destruct (Spec.lhs p0) as [l0|] eqn:El0; [|done]. specialize (Hfit p0 l0 E0 El0).
    cbn [assign_option] in Elo. apply bind_val in Elo as (b & s11 & Eb & [= <- <-]).
    apply assign_numbers in Eb as [Eb ->]; [|lia|lia]. apply assign_numbers in En as [En _]; [|lia|lia].
    eexists. split; [by exists p0, l0|]. repeat constructor; [by exists b|by exists a].
  - unfold generate_for_pure, generate_without_arguments. destruct tokens; [|done]. intros [= <- <- <-] _. by exists [].
  - unfold generate_for_trusted, generate_without_arguments. destruct tokens; [|done]. intros [= <- <- <-] _. by exists [].
  - done.
Qed.

Lemma generated_written attributes item : forall n items gen n',
  generate_spec_and_assertions attributes item n = Val ((items, gen), n') -> Forall numbers_fit attributes ->
  exists written, attrs_written n attributes written /\ Forall2 carries_written written items.
Proof.
  induction attributes as [|[k tokens] rest IH]; intros n items gen n' E HF; [injection E as <- <- <-; by exists []|].
  apply Forall_cons in HF as [Hfit HF]. revert E. cbn [SpecMacros.generate_spec_and_assertions attrs_written].
  intros ([items1 gen1] & n1 & E1 & ([items2 gen2] & n2 & E2 & [= <- <- <-])%bind_val)%bind_val.
  pose proof (generate_for_attr _ _ _ _ _ _ _ _ _ _ E1) as (_ & -> & _).
  apply generate_for_written in E1 as (w1 & W1 & F1); [|done]. apply IH in E2 as (w2 & W2 & F2); [|done].
  exists (w1 ++ w2)%list. split; [by exists w1, w2|]. by apply Forall2_app.
Qed.
End Generated.

(** ** What the collector finds *)

Section Collected.
Context `{QuoteCrate} `{UuidCrate} `{!UuidLaws} `{SerdeJson} `{Rustc} `{PartialEqLeibniz LocalDefId} `{PartialEq DefId}.
Context (uuid_new_v4 : nat -> SpecificationId) (is_result_path : SynExpr -> bool) (stream_span : list TokenTree -> Span).
(** The symbol of a literal with the text of a JSON, and back. *)
Context (literal_of : JsonText -> string) (text_of : string -> JsonText).
(** The definition of a generated function. *)
Context (local_of : SpecMacros.SpecItem -> LocalDefId) (def_of : SpecMacros.SpecItem -> DefId).
(** The closure of an identifier. *)
Context (def : SpecificationId * ExpressionId -> LocalDefId).

Abbreviation Untyped := (Spec.Assertion unit SynExpr Arg).
Abbreviation TypedAssertion := (Spec.Assertion ExpressionId LocalDefId (Local * RustTy)).

(** The compiler's view of a generated function. *)
Definition visited_item (x : SpecMacros.SpecItem) : VisitedFn :=
  make_visited_fn (local_of x) (def_of x) (Some (item_name x))
    [Ast.Normal ["allow"] Ast.Delimited; Ast.Normal ["prusti"; "spec_only"] Ast.NoArgs;
     Ast.Normal ["prusti"; "spec_id"] (Ast.EqLiteral (spec_id_str x));
     Ast.Normal ["prusti"; "assertion"] (Ast.EqLiteral (literal_of (assertion_json x)))] None.

Fixpoint visit_fns (self : SpecCollector) (fns : list VisitedFn) : option SpecCollector :=
  match fns with
  | [] => Some self
  | fn :: fns => self ← visit_fn text_of self fn; visit_fns self fns
  end.

Definition stands_for_as (i : SpecificationId) (a0 : Untyped) (t : TypedAssertion) : Prop :=
  exists a, numbered_as i a0 a /\ typed def a t.

(** The typed assertion is the written one, with identifiers, over the
    closures of its expressions. *)
Definition stands_for (a0 : Untyped) (t : TypedAssertion) : Prop := exists i, stands_for_as i a0 t.

Context (self : SpecCollector).
Abbreviation te := (typed_expressions self).

Lemma spec_type_known t s attrs : has_prusti_attr attrs "loop_body_invariant_spec" = false ->
  exists ty, spec_type_of attrs (Some ("prusti_" ++ SpecItemType.to_string t ++ "_item_" ++ s)) = Some ty
    /\ is_invariant ty = false.
Proof.
  intros Hn. unfold spec_type_of. rewrite Hn. cbn [mbind option_bind].
  assert (Hp : forall p q, starts_with (p ++ q) p = true).
  { unfold starts_with. induction p as [|c p IH]; intros q; [by destruct q|].
    change (String c p ++ q) with (String c (p ++ q)). cbn [String.prefix]. by destruct (Ascii.ascii_dec c c). }
  destruct t; cbn [SpecItemType.to_string].
  - change ("prusti_" ++ "pre" ++ "_item_" ++ s) with ("prusti_pre_item_" ++ s). rewrite Hp. by eexists.
  - change ("prusti_" ++ "post" ++ "_item_" ++ s) with ("prusti_post_item_" ++ s). rewrite Hp. by eexists.
  - change ("prusti_" ++ "pred" ++ "_item_" ++ s) with ("prusti_pred_item_" ++ s). rewrite Hp. by eexists.
Qed.

Context (serde : forall j, from_str (to_string j) = Some j).

(** What the compiler gives for the generated functions [xs]. *)
Record compiled_items (xs : list SpecMacros.SpecItem) : Prop := {
  items_literal : Forall (fun x => text_of (extract_string (literal_of (assertion_json x))) = assertion_json x) xs;
  items_closures : Forall (fun x => forall a : Spec.Assertion ExpressionId SynExpr Arg,
      to_json_string a = Some (assertion_json x) -> Forall (compiled def te) (closures a)) xs
}.

Definition item_entry (x : SpecCollector.SpecItem) : option (SpecificationId * TypedAssertion) :=
  assertion ← to_typed te (SpecCollector.specification x); Some (SpecCollector.spec_id x, assertion).

(** Nothing but the specification item is added. *)
Definition adds_items (c : SpecCollector) (new : list SpecCollector.SpecItem) : SpecCollector :=
  make_collector (extern_resolver c) (spec_items c ++ new)%list (typed_expressions c) (procedure_specs c) (loop_specs c).

Lemma visit_item_adds c w x :
  carries_written w x -> uuid_range (fst w) ->
  text_of (extract_string (literal_of (assertion_json x))) = assertion_json x ->
  (forall a : Spec.Assertion ExpressionId SynExpr Arg,
     to_json_string a = Some (assertion_json x) -> Forall (compiled def te) (closures a)) ->
  exists item t, visit_fn text_of c (visited_item x) = Some (adds_items c [item])
    /\ item_entry item = Some (fst w, t) /\ stands_for_as (fst w) (snd w) t.
Proof.
  intros (a & Hn & Hid & Hj & t & s & Hname) Hr Hlit Hcl. specialize (Hcl a Hj).
  pose proof Hn as (_ & Hi & _). destruct (assertion_comes_back def te a Hi Hcl) as (j & ta & Ej & Et & Ht).
  unfold to_json_string in Hj. rewrite Ej in Hj. injection Hj as Hj.
  destruct (spec_type_known t s (attrs (visited_item x)) eq_refl) as (ty & Ety & Einv). rewrite <- Hname in Ety.
  exists (SpecCollector.make_spec_item (fst w) ty j), ta. split; [|split; [|by exists a]].
  - change (visit_fn text_of c (visited_item x)) with (collect_spec_item text_of c (visited_item x)).
    unfold collect_spec_item.
    change (read_prusti_attr "spec_id" (attrs (visited_item x))) with (Some (Some (extract_string (spec_id_str x)))).
    change (read_prusti_attr "assertion" (attrs (visited_item x)))
      with (Some (Some (extract_string (literal_of (assertion_json x))))).
    cbn [mbind option_bind]. rewrite Hid, (extract_string_id (uuid_simple (fst w))) by (by apply hex_no_backslash, uuid_hex).
    rewrite uuid_parse_simple by done. cbn [mbind option_bind]. rewrite Hlit. unfold from_json_string.
    rewrite <- Hj, serde. cbn [mbind option_bind]. change (fn_name (visited_item x)) with (Some (item_name x)).
    rewrite Ety. cbn [mbind option_bind]. by rewrite Einv.
  - unfold item_entry. cbn. by rewrite Et.
Qed.

Lemma visit_items_add xs written : forall c,
  Forall2 carries_written written xs -> Forall (fun w => uuid_range (fst w)) written -> compiled_items xs ->
  exists new entries, visit_fns c (map visited_item xs) = Some (adds_items c new)
    /\ mapM_opt item_entry new = Some entries
    /\ Forall2 (fun w e => fst e = fst w /\ stands_for_as (fst w) (snd w) (snd e)) written entries.
Proof.
  intros c HF. revert c. induction HF as [|w x written xs Hw _ IH]; intros c Hr [Hlit Hcl].
  - exists [], []. split_and!; [|done|constructor]. cbn. unfold adds_items. rewrite app_nil_r. by destruct c.
  - apply Forall_cons in Hr as [Hr HrF], Hlit as [Hl HlF], Hcl as [Hc HcF].
    destruct (visit_item_adds c w x Hw Hr Hl Hc) as (item & t & E1 & E2 & Ht).
    destruct (IH (adds_items c [item]) HrF) as (new & entries & E3 & E4 & Hes); [by split|].
    exists (item :: new), ((fst w, t) :: entries). split_and!.
    + cbn [map visit_fns]. rewrite E1. cbn [mbind option_bind]. rewrite E3. unfold adds_items. cbn. by rewrite <- app_assoc.
    + cbn. rewrite E2. cbn. by rewrite E4.
    + by constructor.
Qed.

(** The attributes of the function itself are neither those of a generated
    function nor those of an external specification. *)
Lemma read_none name n ks :
  (forall k m, attr_name (generated_attr uuid_new_v4 m k) == name = false) ->
  read_prusti_attr name (map lower (generated_attrs uuid_new_v4 n ks)) = Some None.
Proof.
  intros Hne. unfold read_prusti_attr. enough (E : read_prusti_attrs name (map lower (generated_attrs uuid_new_v4 n ks)) = Some [])
    by by rewrite E.
  revert n. induction ks as [|k ks IH]; intros n; [done|]. cbn [generated_attrs map]. rewrite read_other by apply Hne. apply IH.
Qed.

Lemma no_extern_attr n ks : has_extern_spec_attr (map lower (generated_attrs uuid_new_v4 n ks)) = false.
Proof.
  unfold has_extern_spec_attr, has_prusti_attr. revert n. induction ks as [|k ks IH]; intros n; [done|].
  cbn [generated_attrs map existsb]. rewrite IH. by destruct k.
Qed.

Lemma visit_function c id did name n ks refs :
  get_procedure_spec_ids (map lower (generated_attrs uuid_new_v4 n ks)) = Some (Some refs) ->
  visit_fn text_of c (make_visited_fn id did name (map lower (generated_attrs uuid_new_v4 n ks)) None)
  = Some (make_collector (extern_resolver c) (spec_items c) (typed_expressions c)
            (HashMap.insert (procedure_specs c) id refs) (loop_specs c)).
Proof.
  intros E. unfold visit_fn, collect_extern. cbn [attrs]. rewrite no_extern_attr. unfold collect_procedure_spec.
  cbn [attrs local_id]. rewrite E. cbn [mbind option_bind]. unfold collect_expression. cbn [attrs].
  rewrite read_none by (by intros []). cbn [mbind option_bind]. unfold collect_spec_item. cbn [attrs].
  rewrite (read_none "spec_id") by (by intros []). reflexivity.
Qed.

Lemma visit_fns_app c fns1 fns2 c1 : visit_fns c fns1 = Some c1 -> visit_fns c (fns1 ++ fns2)%list = visit_fns c1 fns2.
Proof.
  revert c. induction fns1 as [|fn fns1 IH]; intros c; cbn; [by intros [= ->]|].
  destruct (visit_fn text_of c fn); [apply IH|done].
Qed.

Lemma attr_written_ids n k tokens written :
  attr_written uuid_new_v4 n k tokens written -> map fst written = map uuid_new_v4 (seq n (ids_taken k)).
Proof. destruct k; cbn; try (by intros (? & _ & ->)); try (by intros (? & ? & _ & _ & ->)); by intros ->. Qed.

Lemma attrs_written_ids attributes : forall n written,
  attrs_written uuid_new_v4 n attributes written ->
  map fst written = map uuid_new_v4 (seq n (sum_list_with ids_taken (map fst attributes))).
Proof.
  induction attributes as [|[k tokens] rest IH]; intros n written; [by intros ->|].
  intros (w1 & w2 & -> & W1%attr_written_ids & W2%IH). cbn [map fst sum_list_with]. by rewrite seq_app, !map_app, W1, W2.
Qed.

(** ** The specification that is written *)

Definition of_kind (k : SpecAttributeKind) (attribute : SpecAttributeKind * list TokenTree) : bool :=
  SpecAttributeKind.eqb (fst attribute) k.

(** The arguments of the attributes of a kind, in order. *)
Definition tokens_of (k : SpecAttributeKind) (attributes : list (SpecAttributeKind * list TokenTree)) : list (list TokenTree) :=
  map snd (List.filter (of_kind k) attributes).

Definition is_pledge_attr (attribute : SpecAttributeKind * list TokenTree) : bool :=
  of_kind SpecAttributeKind.AfterExpiry attribute || of_kind SpecAttributeKind.AfterExpiryIf attribute.

Definition assertion_written (tokens : list TokenTree) (t : TypedAssertion) : Prop :=
  exists a0, parse_stream (extract_assertion parse_prusti) tokens = Val a0 /\ stands_for a0 t.

Definition pledge_written (attribute : SpecAttributeKind * list TokenTree)
    (pledge : Spec.Pledge ExpressionId LocalDefId (Local * RustTy)) : Prop :=
  Spec.reference pledge = None /\
  if of_kind SpecAttributeKind.AfterExpiryIf attribute then
    exists p0 l0 l, parse_stream (extract_pledge parse_prusti) (snd attribute) = Val p0
      /\ Spec.lhs p0 = Some l0 /\ Spec.lhs pledge = Some l /\ stands_for l0 l
      /\ stands_for (Spec.rhs p0) (Spec.rhs pledge)
  else
    exists p0, parse_stream (extract_pledge_rhs_only parse_prusti) (snd attribute) = Val p0
      /\ Spec.lhs pledge = None /\ stands_for (Spec.rhs p0) (Spec.rhs pledge).

Record specification_written (attributes : list (SpecAttributeKind * list TokenTree))
    (spec : Spec.ProcedureSpecification ExpressionId LocalDefId (Local * RustTy)) : Prop := {
  pres_written : Forall2 assertion_written (tokens_of SpecAttributeKind.Requires attributes) (Spec.pres spec);
  posts_written : Forall2 assertion_written (tokens_of SpecAttributeKind.Ensures attributes) (Spec.posts spec);
  pledges_written : Forall2 pledge_written (List.filter is_pledge_attr attributes) (Spec.pledges spec);
  predicate_written : Spec.predicate_body spec = None;
  pure_written : Spec.pure spec = existsb (of_kind SpecAttributeKind.Pure) attributes;
  trusted_written : Spec.trusted spec = existsb (of_kind SpecAttributeKind.Trusted) attributes
}.

Section Lists.
Context (f : SpecificationId -> TypedAssertion).

Definition resolved (w : SpecificationId * Untyped) : Prop := stands_for_as (fst w) (snd w) (f (fst w)).

Lemma resolved_stands i a0 : resolved (i, a0) -> stands_for a0 (f i).
Proof. intros Hr. by exists i. Qed.

Lemma written_lists attributes : forall n written,
  attrs_written uuid_new_v4 n attributes written -> Forall resolved written ->
  Forall2 assertion_written (tokens_of SpecAttributeKind.Requires attributes) (written_pres uuid_new_v4 f n (map fst attributes))
  /\ Forall2 assertion_written (tokens_of SpecAttributeKind.Ensures attributes) (written_posts uuid_new_v4 f n (map fst attributes))
  /\ Forall2 pledge_written (List.filter is_pledge_attr attributes) (written_pledges uuid_new_v4 f n (map fst attributes)).
Proof.
  induction attributes as [|[k tokens] rest IH]; intros n written; [intros _ _; split_and!; constructor|].
  intros (w1 & w2 & -> & W1 & W2) [R1 R2]%Forall_app. destruct (IH _ _ W2 R2) as (I1 & I2 & I3).
  destruct k; cbn in W1; try (split_and!; [exact I1|exact I2|exact I3]).
  - destruct W1 as (a0 & E0 & ->). apply Forall_cons in R1 as [R1%resolved_stands _].
    split_and!; [constructor; [by exists a0|exact I1]|exact I2|exact I3].
  - destruct W1 as (a0 & E0 & ->). apply Forall_cons in R1 as [R1%resolved_stands _].
    split_and!; [exact I1|constructor; [by exists a0|exact I2]|exact I3].
  - destruct W1 as (p0 & E0 & ->). apply Forall_cons in R1 as [R1%resolved_stands _].
    split_and!; [exact I1|exact I2|constructor; [|exact I3]]. split; [done|]. cbn. by exists p0.
  - destruct W1 as (p0 & l0 & E0 & El & ->). apply Forall_cons in R1 as [R1%resolved_stands R1'].
    apply Forall_cons in R1' as [R1'%resolved_stands _].
    split_and!; [exact I1|exact I2|constructor; [|exact I3]]. split; [done|]. cbn. by exists p0, l0, (f (uuid_new_v4 n)).
Qed.
End Lists.
End Collected.

Section Pipeline.
Context `{QuoteCrate} `{UuidCrate} `{!UuidLaws} `{SerdeJson} `{Rustc} `{PartialEqLeibniz LocalDefId} `{PartialEq DefId}.
Context (uuid_new_v4 : nat -> SpecificationId) (is_result_path : SynExpr -> bool) (stream_span : list TokenTree -> Span).
Context (literal_of : JsonText -> string) (text_of : string -> JsonText).
Context (local_of : SpecMacros.SpecItem -> LocalDefId) (def_of : SpecMacros.SpecItem -> DefId).
Context (def : SpecificationId * ExpressionId -> LocalDefId).

Lemma mapM_opt_app {A B} (f : A -> option B) l1 l2 l1' l2' :
  mapM_opt f l1 = Some l1' -> mapM_opt f l2 = Some l2' -> mapM_opt f (l1 ++ l2)%list = Some (l1' ++ l2')%list.
Proof.
  revert l1'. induction l1 as [|x l1 IH]; intros l1'; cbn; [by intros [= <-]|]. destruct (f x); [|done]. cbn.
  destruct (mapM_opt f l1) as [l|]; [|done]. cbn. intros [= <-] E2. by rewrite (IH l eq_refl E2).
Qed.

Lemma entries_ids self (items : list SpecCollector.SpecItem) entries :
  mapM_opt (item_entry self) items = Some entries -> map fst entries = map SpecCollector.spec_id items.
Proof.
  revert entries. induction items as [|x items IH]; intros entries; cbn; [by intros [= <-]|].
  destruct (item_entry self x) as [[i t]|] eqn:Ex; [|done]. cbn.
  destruct (mapM_opt _ items) as [es|]; [|done]. cbn. intros [= <-]. cbn. rewrite (IH es eq_refl). f_equal.
  unfold item_entry in Ex. destruct (to_typed (typed_expressions self) (SpecCollector.specification x)); [|done]. by injection Ex.
Qed.

(** The typed assertions that the collector prepares. *)
Lemma prepared self new entries written :
  is_Some (prepare_typed_procedure_specs self) -> mapM_opt (item_entry self) new = Some entries ->
  Forall2 (fun w e => fst e = fst w /\ stands_for_as def (fst w) (snd w) (snd e)) written entries ->
  NoDup (map SpecCollector.spec_id (spec_items self) ++ map fst written)%list ->
  exists typed_specs, prepare_typed_procedure_specs (adds_items self new) = Some typed_specs
    /\ Forall (fun w => exists t, HashMap.get typed_specs (fst w) = Some t /\ stands_for_as def (fst w) (snd w) t) written.
Proof.
  intros [m Em] En HF Hnd. unfold prepare_typed_procedure_specs in Em |- *.
  change (mapM_opt _ (spec_items self)) with (mapM_opt (item_entry self) (spec_items self)) in Em.
  destruct (mapM_opt (item_entry self) (spec_items self)) as [old|] eqn:Eo; [|done].
  cbn [adds_items spec_items typed_expressions].
  change (mapM_opt _ (spec_items self ++ new)%list) with (mapM_opt (item_entry self) (spec_items self ++ new)%list).
  rewrite (mapM_opt_app _ _ _ _ _ Eo En). cbn [mbind option_bind]. eexists. split; [done|].
  assert (Hids : map fst entries = map fst written).
  { clear -HF. induction HF as [|w e written entries [He _] _ IH]; [done|]. cbn. by rewrite He, IH. }
  assert (Hnd' : NoDup (map fst (old ++ entries)%list)).
  { by rewrite map_app, Hids, (entries_ids _ _ _ Eo). }
  rewrite Forall_forall. intros w Hw. apply list_elem_of_lookup in Hw as [i Hi].
  destruct (Forall2_lookup_l _ _ _ _ _ HF Hi) as (e & He & Efst & Hst). exists (snd e). split; [|done].
  apply get_from_list; [exact Hnd'|]. apply in_app_iff. right. apply list_elem_of_In, list_elem_of_lookup.
  exists i. rewrite He. f_equal. destruct e; cbn in *. by f_equal.
Qed.

(** C28. From the attributes of a function to its specification: if the macros accept the
    attributes, and the collector visits the functions that they generate and then the function
    with the attributes that they add, it finds for the function a reference that is resolved to
    the procedure specification that was written. The preconditions, postconditions and pledges
    are in their order those that the parser reads from the arguments of the attributes, with
    the sides of a pledge where they belong, as assertions over the closures of their own
    expressions; pure and trusted are those of the attributes. This is if the uuids are fresh,
    the identifiers of each attribute fit 64 bits, literals and JSON are read back as they were,
    the compiler gives a closure with the right number of arguments for each expression, and
    what the collector had found before can be typed. *)
Theorem attributes_become_specification self attributes item n items gen n' fn_id fn_def name :
  (forall m, uuid_range (uuid_new_v4 m)) -> (forall j, from_str (to_string j) = Some j) ->
  Forall numbers_fit attributes -> attributes <> [] ->
  generate_spec_and_assertions uuid_new_v4 is_result_path stream_span attributes item n = Val ((items, gen), n') ->
  NoDup (map SpecCollector.spec_id (spec_items self) ++ map uuid_new_v4 (seq n (n' - n)))%list ->
  is_Some (prepare_typed_procedure_specs self) ->
  compiled_items literal_of text_of def self items ->
  exists c typed_specs refs spec,
    visit_fns text_of self (map (visited_item literal_of local_of def_of) items
      ++ [make_visited_fn fn_id fn_def name (map lower gen) None])%list = Some c
    /\ HashMap.get (procedure_specs c) fn_id = Some refs
    /\ prepare_typed_procedure_specs c = Some typed_specs
    /\ procedure_spec typed_specs refs = Some (Spec.Procedure spec)
    /\ specification_written def attributes spec.
Proof.
  intros Hr Hserde Hfit Hne E Hnd Hprep Hcomp.
  destruct (generated_written _ _ _ _ _ _ _ _ _ E Hfit) as (written & Hw & Hcar).
  apply generated_attributes in E as (-> & HF & -> & _).
  pose proof (attrs_written_ids _ _ _ _ Hw) as Hids. replace (n + _ - n)%nat with (sum_list_with ids_taken (map fst attributes)) in Hnd by lia.
  rewrite <- Hids in Hnd.
  assert (Hrange : Forall (fun w => uuid_range (fst w)) written).
  { assert (Hm : Forall uuid_range (map fst written)) by (rewrite Hids; apply Forall_map, Forall_true; intros; apply Hr). by rewrite Forall_map in Hm. }
  destruct (visit_items_add literal_of text_of local_of def_of def self Hserde items written self Hcar Hrange Hcomp)
    as (new & entries & Ev & En & Hes).
  destruct (prepared self new entries written Hprep En Hes Hnd) as (typed_specs & Ep & Hts).
  set (f := fun i => match HashMap.get typed_specs i with Some t => t | None => Spec.And [] end).
  assert (Hres : Forall (resolved def f) written).
  { eapply Forall_impl; [exact Hts|]. intros w (t & Et & Hst). unfold resolved, f. by rewrite Et. }
  pose proof (spec_ids_read_back uuid_new_v4 Hr (map fst attributes) n HF) as Er. cbn zeta in Er.
  destruct attributes as [|attribute rest]; [done|]. cbn [map] in Er.
  eexists _, typed_specs, _, _. split_and!.
  - rewrite (visit_fns_app text_of _ _ _ _ Ev). cbn [visit_fns].
    rewrite (visit_function _ _ _ _ _ _ _ _ _ Er). done.
  - cbn [procedure_specs]. rewrite HashMap.get_insert. by rewrite peq_refl.
  - exact Ep.
  - apply (resolve_all uuid_new_v4 f typed_specs (map fst (attribute :: rest)) n). intros m Hm.
    assert (Hin : In (uuid_new_v4 m) (map fst written)).
    { rewrite Hids. apply in_map, in_seq. lia. }
    apply in_map_iff in Hin as (w & Ew & Hin). rewrite Forall_forall in Hts.
    destruct (Hts w) as (t & Et & _); [by apply list_elem_of_In|]. rewrite Ew in Et. unfold f. by rewrite Et.
  - destruct (written_lists uuid_new_v4 def f _ _ _ Hw Hres) as (W1 & W2 & W3).
    split; [exact W1|exact W2|exact W3|done|..].
    + unfold mentioned. cbn [Spec.pure]. generalize (attribute :: rest). intros l.
      induction l as [|[k t] l IH]; [done|]. cbn in *. by rewrite IH.
    + unfold mentioned. cbn [Spec.trusted]. generalize (attribute :: rest). intros l.
      induction l as [|[k t] l IH]; [done|]. cbn in *. by rewrite IH.
Qed.
End Pipeline.

(** ** Identifiers of 32 hexadecimal digits *)

Module ConcreteUuid.
Definition hex_digit (d : Z) : Ascii.ascii :=
  Ascii.ascii_of_nat (Z.to_nat (if Z.ltb d 10 then 48 + d else 87 + d)).

Definition hex_value (c : Ascii.ascii) : Z :=
  let v := Z.of_nat (Ascii.nat_of_ascii c) in if Z.ltb v 97 then v - 48 else v - 87.

Fixpoint to_hex (width : nat) (i : Z) : string :=
  match width with
  | 0 => EmptyString
  | S width => String (hex_digit (i / 16 ^ Z.of_nat width)) (to_hex width (i mod 16 ^ Z.of_nat width))
  end.

Fixpoint of_hex (acc : Z) (s : string) : Z :=
  match s with
  | EmptyString => acc
  | String c s => of_hex (16 * acc + hex_value c) s
  end.

#[export] Instance hex_uuid : UuidCrate := {|
  uuid_simple := to_hex 32;
  uuid_parse_str := fun s => if Nat.eqb (String.length s) 32 && is_hex s then Some (of_hex 0 s) else None
|}.

Lemma digit_facts d : (0 <= d < 16)%Z -> is_hex_digit (hex_digit d) = true /\ hex_value (hex_digit d) = d.
Proof.
  intros Hd. assert (d = Z.of_nat (Z.to_nat d)) as E by lia. assert (Z.to_nat d < 16)%nat as Hn by lia.
  revert E Hn. generalize (Z.to_nat d). intros m -> Hm. do 16 (destruct m as [|m]; [by vm_compute|]). lia.
Qed.

Lemma hex_facts width : forall i acc, (0 <= i < 16 ^ Z.of_nat width)%Z ->
  String.length (to_hex width i) = width /\ is_hex (to_hex width i) = true
  /\ of_hex acc (to_hex width i) = (acc * 16 ^ Z.of_nat width + i)%Z.
Proof.
  induction width as [|width IH]; intros i acc Hi; [cbn in *; split_and!; [done..|lia]|].
  cbn [to_hex String.length is_hex of_hex]. rewrite Nat2Z.inj_succ, Z.pow_succ_r in * by lia.
  set (b := (16 ^ Z.of_nat width)%Z) in *. assert (0 < b)%Z by (apply Z.pow_pos_nonneg; lia).
  assert (0 <= i / b < 16)%Z as Hd by (split; [apply Z.div_pos; lia|apply Z.div_lt_upper_bound; lia]).
  destruct (digit_facts _ Hd) as [-> ->].
  destruct (IH (i mod b)%Z (16 * acc + i / b)%Z ltac:(apply Z.mod_pos_bound; lia)) as (-> & -> & ->).
  split_and!; [done..|]. pose proof (Z.div_mod i b ltac:(lia)). lia.
Qed.

Lemma range_hex i : uuid_range i -> (0 <= i < 16 ^ Z.of_nat 32)%Z.
Proof. done. Qed.

#[export] Instance hex_laws : UuidLaws.
Proof.
  split; intros i Hi%range_hex; destruct (hex_facts 32 i 0 Hi) as (El & Eh & Ev); [done| |].
  - intros E. change (to_hex 32 i = EmptyString) in E. by rewrite E in El.
  - unfold uuid_parse_str, uuid_simple, hex_uuid. by rewrite El, Eh, Ev.
Qed.
End ConcreteUuid.

Module ConcretePipeline.
Import Concrete ConcreteSpecs ConcreteUuid.

Definition new_v4 (n : nat) : SpecificationId := (2 ^ 100 + Z.of_nat (Nat.modulo n 1000))%Z.

Lemma new_v4_range m : uuid_range (new_v4 m).
Proof.
  unfold uuid_range, new_v4. pose proof (Nat.mod_upper_bound m 1000 ltac:(lia)).
  assert (2 ^ 100 + 1000 < 2 ^ 128)%Z by (vm_compute; done). assert (0 < 2 ^ 100)%Z by (vm_compute; done). lia.
Qed.

Definition is_result (e : SynExpr) : bool :=
  match e with [Token.Ident name _] => name == "result" | _ => false end.

(** [#[requires(a)] #[after_expiry_if(result => b, c)] #[pure] #[ensures(d)]] *)
Definition attributes : list (SpecAttributeKind * list TokenTree) :=
  [(SpecAttributeKind.Requires, [ident "a"]);
   (SpecAttributeKind.AfterExpiryIf, [ident "result"] ++ op "=>" ++ [ident "b"] ++ op "," ++ [ident "c"])%list;
   (SpecAttributeKind.Pure, []);
   (SpecAttributeKind.Ensures, [ident "d"])].

Definition item : AnyFnItem := Item.make_item [] "m" [] tt.

(** The closure of an expression has no argument but itself. *)
Definition def (i : SpecificationId * ExpressionId) : LocalDefId := ((fst i * 1000 + snd i)%Z, 0).

#[export] Instance local_def_eq : PartialEq LocalDefId := fun a b => Z.eqb (fst a) (fst b) && Nat.eqb (snd a) (snd b).

#[export] Instance local_def_leibniz : PartialEqLeibniz LocalDefId.
Proof.
  intros [a b] [c d]. unfold peq, local_def_eq. cbn. rewrite andb_true_iff, Z.eqb_eq, Nat.eqb_eq. split; [by intros [-> ->]|].
  by intros [= -> ->].
Qed.

(** The expressions of the attributes, as JSON. *)
Definition texts : list Json.Assertion :=
  map (fun c => Json.Expr (Json.make_expression (new_v4 (fst c)) (snd c))) [(0, 101%Z); (1, 102%Z); (2, 103%Z); (3, 101%Z)].

Definition literal_of (j : JsonText) : string :=
  match j with Json.Expr e => to_hex 32 (Json.spec_id e) | _ => EmptyString end.

Definition text_of (s : string) : JsonText :=
  match List.find (fun j => String.eqb (literal_of j) s) texts with Some j => j | None => Json.And [] end.

Definition local_of (x : SpecMacros.SpecItem) : LocalDefId := ((-1)%Z, String.length (item_name x)).
Definition def_of (x : SpecMacros.SpecItem) : DefId := 0%Z.

(** The collector after it has visited the closures. *)
Definition visited : SpecCollector :=
  make_collector (make_resolver HashMap.empty HashMap.empty) []
    (visited_closures def [(new_v4 0, 101%Z, 0); (new_v4 1, 102%Z, 0); (new_v4 2, 103%Z, 0); (new_v4 3, 101%Z, 0)])
    HashMap.empty HashMap.empty.

Definition result : option (list SpecMacros.SpecItem * list PrustiAttr * nat) :=
  match generate_spec_and_assertions new_v4 is_result (fun _ => tt) attributes item 0 with
  | Val r => Some r
  | _ => None
  end.

Definition items : list SpecMacros.SpecItem := match result with Some r => fst (fst r) | None => [] end.

Lemma items_json : map assertion_json items = texts.
Proof. vm_compute. reflexivity. Qed.

Lemma json_expression {ET AT} (a : Spec.Assertion ExpressionId ET AT) e :
  to_json_string a = Some (Json.Expr e) -> closures a = [((Json.spec_id e, Json.expr_id e), 0)].
Proof.
  unfold to_json_string. destruct a as [e'|l|l r|vs b|vs ts b|vs ts b|c vs pres posts]; cbn; [by intros [= <-]|..].
  - by destruct (mapM_opt Json.to_structure l).
  - destruct (Json.to_structure l); [|done]. cbn. by destruct (Json.to_structure r).
  - done.
  - by destruct (Json.to_structure b).
  - by destruct (Json.to_structure b).
  - destruct (mapM_opt Json.to_structure pres); [|done]. cbn. by destruct (mapM_opt Json.to_structure posts).
Qed.

Lemma items_compiled : compiled_items literal_of text_of def visited items.
Proof.
  split.
  - apply (Forall_map assertion_json (fun j => text_of (extract_string (literal_of j)) = j)). rewrite items_json.
    repeat constructor; vm_compute; reflexivity.
  - apply (Forall_map assertion_json (fun j => forall a : Spec.Assertion ExpressionId SynExpr Arg,
      to_json_string a = Some j -> Forall (compiled def (typed_expressions visited)) (closures a))).
    rewrite items_json. repeat constructor; intros a ->%json_expression; repeat constructor; vm_compute; reflexivity.
Qed.

Lemma attributes_fit : Forall numbers_fit attributes.
Proof.
  repeat constructor; intros a0; [|intros l0|]; intros E; vm_compute in E; try (injection E as <-).
  all: try intros E'; try (vm_compute in E'; injection E' as <-); vm_compute; reflexivity.
Qed.
End ConcretePipeline.
Import Concrete ConcreteSpecs ConcreteUuid ConcretePipeline.

Lemma attributes_become_specification_witness :
  exists c typed_specs refs spec,
    visit_fns text_of visited (map (visited_item literal_of local_of def_of) ConcretePipeline.items
      ++ [make_visited_fn ((7%Z, 0) : LocalDefId) (7%Z : DefId) (Some "m")
            (map lower (match result with Some r => snd (fst r) | None => [] end)) None])%list = Some c
    /\ HashMap.get (procedure_specs c) ((7%Z, 0) : LocalDefId) = Some refs
    /\ prepare_typed_procedure_specs c = Some typed_specs
    /\ procedure_spec typed_specs refs = Some (Spec.Procedure spec)
    /\ specification_written ConcretePipeline.def ConcretePipeline.attributes spec.
Proof.
  apply (attributes_become_specification new_v4 is_result (fun _ => tt) literal_of text_of local_of def_of
    ConcretePipeline.def visited ConcretePipeline.attributes ConcretePipeline.item 0 ConcretePipeline.items _ 4
    (7%Z, 0) 7%Z (Some "m") new_v4_range ltac:(reflexivity) attributes_fit ltac:(discriminate)).
  - vm_compute. reflexivity.
  - vm_compute. repeat constructor; rewrite ?list_elem_of_In; cbn; intuition discriminate.
  - by eexists.
  - exact items_compiled.
Defined.
