(* ===== verification/Mir.v ===== *)
(** * The compiler's intermediate representation

    What the analyses of [src/analysis] and [src/prusti-interface] look at in
    a MIR body: basic blocks with their statements and terminators, and
    places.  A body belongs to the compiler, so its types, the successors of a
    terminator, the predecessors of a block and the dominators are the
    operations of the class [MirCrate], and what the documentation of the
    compiler says about them are the laws of [MirLaws]. *)

From stdpp Require Import gmap countable.
From S2P Require Import Prelude.

(** ** Indices *)

Abbreviation BasicBlock := nat (only parsing).
Abbreviation Local := nat (only parsing).
Abbreviation DefId := nat (only parsing).
Definition START_BLOCK : BasicBlock := 0.

(** [mir::Location]. *)
Record Location : Type := make_location { block : BasicBlock; statement_index : nat }.

#[export] Instance Location_eq_dec : EqDecision Location.
Proof. solve_decision. Defined.

#[export] Instance Location_countable : Countable Location :=
  inj_countable' (fun l => (block l, statement_index l)) (fun p => make_location (fst p) (snd p)) (fun l => match l with make_location _ _ => eq_refl end).

Definition successor_within_block (l : Location) : Location := make_location (block l) (S (statement_index l)).

(** ** Types and places *)

(** The types the code distinguishes: the fields of an algebraic type are those
    of its only variant, if it is a struct. *)
Inductive TyKind (Ty : Type) : Type :=
  | Adt (is_struct : bool) (fields : list Ty) (variant_name : nat -> string)
  | Tuple (fields : list Ty)
  | Ref
  | OtherKind.
#[global] Arguments Adt {Ty} _ _ _.
#[global] Arguments Tuple {Ty} _.
#[global] Arguments Ref {Ty}.
#[global] Arguments OtherKind {Ty}.

(** [mir::ProjectionElem]. *)
Inductive ProjectionElem (Ty : Type) : Type :=
  | Deref
  | Field (field : nat) (ty : Ty)
  | Index (local : Local)
  | ConstantIndex (offset min_length : Z) (from_end : bool)
  | Subslice (from to : Z) (from_end : bool)
  | Downcast (symbol : option string) (variant : nat).
#[global] Arguments Deref {Ty}.
#[global] Arguments Field {Ty} _ _.
#[global] Arguments Index {Ty} _.
#[global] Arguments ConstantIndex {Ty} _ _ _.
#[global] Arguments Subslice {Ty} _ _ _.
#[global] Arguments Downcast {Ty} _ _.

#[export] Instance ProjectionElem_eq_dec {Ty} `{EqDecision Ty} : EqDecision (ProjectionElem Ty).
Proof. solve_decision. Defined.

Definition encode_elem {Ty} (e : ProjectionElem Ty) :=
  match e with
  | Deref => inl (inl tt)
  | Field field ty => inl (inr (field, ty))
  | Index local => inr (inl (inl local))
  | ConstantIndex offset min_length from_end => inr (inl (inr (offset, min_length, from_end)))
  | Subslice from to from_end => inr (inr (inl (from, to, from_end)))
  | Downcast symbol variant => inr (inr (inr (symbol, variant)))
  end.

Definition decode_elem {Ty} (x : (unit + nat * Ty) + ((nat + Z * Z * bool) + (Z * Z * bool + option string * nat))) :
    ProjectionElem Ty :=
  match x with
  | inl (inl _) => Deref
  | inl (inr (field, ty)) => Field field ty
  | inr (inl (inl local)) => Index local
  | inr (inl (inr (offset, min_length, from_end))) => ConstantIndex offset min_length from_end
  | inr (inr (inl (from, to, from_end))) => Subslice from to from_end
  | inr (inr (inr (symbol, variant))) => Downcast symbol variant
  end.

#[export] Instance ProjectionElem_countable {Ty} `{Countable Ty} : Countable (ProjectionElem Ty) :=
  inj_countable' encode_elem decode_elem (fun e => match e with
    | Deref | Field _ _ | Index _ | ConstantIndex _ _ _ | Subslice _ _ _ | Downcast _ _ => eq_refl end).

(** [mir::Place]. *)
Record PlaceOf (Ty : Type) : Type := make_place { local : Local; projection : list (ProjectionElem Ty) }.
#[global] Arguments make_place {Ty} _ _.
#[global] Arguments local {Ty} _.
#[global] Arguments projection {Ty} _.

#[export] Instance PlaceOf_eq_dec {Ty} `{EqDecision Ty} : EqDecision (PlaceOf Ty).
Proof. solve_decision. Defined.

#[export] Instance PlaceOf_countable {Ty} `{Countable Ty} : Countable (PlaceOf Ty) :=
  inj_countable' (fun p => (local p, projection p)) (fun x => make_place (fst x) (snd x)) (fun p => match p with make_place _ _ => eq_refl end).

(** ** Bodies *)

Section Bodies.
Context {Ty : Type}.

Inductive OperandOf : Type :=
  | Copy (place : PlaceOf Ty)
  | Move (place : PlaceOf Ty)
  | Constant.

Inductive RvalueOf : Type :=
  | Use (operand : OperandOf)
  | Repeat (operand : OperandOf)
  | Cast (operand : OperandOf)
  | UnaryOp (operand : OperandOf)
  | BinaryOp (operand1 operand2 : OperandOf)
  | CheckedBinaryOp (operand1 operand2 : OperandOf)
  | Aggregate (closure : option DefId) (operands : list OperandOf)
  | OtherRvalue.

(** [mir::StatementKind]. *)
Inductive StatementOf : Type :=
  | Assign (target : PlaceOf Ty) (source : RvalueOf)
  | OtherStatement.

(** [mir::TerminatorKind]. *)
Inductive TerminatorOf : Type :=
  | Goto (target : BasicBlock)
  | SwitchInt (discr : OperandOf) (targets : list BasicBlock)
  | Resume
  | Abort
  | Return
  | Unreachable
  | Drop (place : PlaceOf Ty) (target : BasicBlock) (unwind : option BasicBlock)
  | DropAndReplace (place : PlaceOf Ty) (value : OperandOf) (target : BasicBlock) (unwind : option BasicBlock)
  | Call (func : OperandOf) (args : list OperandOf) (destination : option (PlaceOf Ty * BasicBlock)) (cleanup : option BasicBlock)
  | Assert (cond : OperandOf) (target : BasicBlock) (cleanup : option BasicBlock)
  | Yield (value : OperandOf) (resume : BasicBlock) (resume_arg : PlaceOf Ty) (drop : option BasicBlock)
  | GeneratorDrop
  | FalseEdge (real_target imaginary_target : BasicBlock)
  | FalseUnwind (real_target : BasicBlock) (unwind : option BasicBlock)
  | InlineAsm (destination : option BasicBlock).

(** A block that is built up completely has a terminator. *)
Record BasicBlockDataOf : Type := make_block_data { statements : list StatementOf; terminator : TerminatorOf }.

Record BodyOf : Type := make_body {
  basic_blocks : list BasicBlockDataOf;
  local_count : nat;
  arg_count : nat
}.

(** [args_iter]: the first local is the return place. *)
Definition args_iter (body : BodyOf) : list Local := seq 1 (arg_count body).
Definition local_indices (body : BodyOf) : list Local := seq 0 (local_count body).
Definition block_indices (body : BodyOf) : list BasicBlock := seq 0 (length (basic_blocks body)).
Definition terminator_loc (bb : BasicBlock) (data : BasicBlockDataOf) : Location := make_location bb (length (statements data)).
End Bodies.
#[global] Arguments OperandOf : clear implicits.
#[global] Arguments RvalueOf : clear implicits.
#[global] Arguments StatementOf : clear implicits.
#[global] Arguments TerminatorOf : clear implicits.
#[global] Arguments BasicBlockDataOf : clear implicits.
#[global] Arguments BodyOf : clear implicits.

(** ** The compiler *)

Class MirCrate := {
  Ty : Type;
  Ty_eq_dec :: EqDecision Ty;
  Ty_countable :: Countable Ty;
  (** [place.ty(mir, tcx)]: the variant it is downcast to, and its kind *)
  place_ty : BodyOf Ty -> PlaceOf Ty -> option nat * TyKind Ty;
  (** [terminator.successors()] *)
  successors : TerminatorOf Ty -> list BasicBlock;
  (** [mir.predecessors()] *)
  predecessors : BodyOf Ty -> BasicBlock -> list BasicBlock;
  (** [mir.dominators().is_dominated_by(node, dom)] *)
  is_dominated_by : BodyOf Ty -> BasicBlock -> BasicBlock -> bool
}.

Abbreviation PlaceElem := (ProjectionElem Ty).
Abbreviation Place := (PlaceOf Ty).
Abbreviation Operand := (OperandOf Ty).
Abbreviation Rvalue := (RvalueOf Ty).
Abbreviation Statement := (StatementOf Ty).
Abbreviation Terminator := (TerminatorOf Ty).
Abbreviation BasicBlockData := (BasicBlockDataOf Ty).
Abbreviation Body := (BodyOf Ty).

Section Names.
Context `{MirCrate}.

(** [local.into()]. *)
Definition place_of_local (l : Local) : Place := make_place l [].

(** [place.as_local()]. *)
Definition as_local (p : Place) : option Local :=
  match projection p with [] => Some (local p) | _ => None end.

(** [tcx.mk_place_field], [mk_place_deref], ...: one more projection. *)
Definition mk_place_elem (p : Place) (e : PlaceElem) : Place := make_place (local p) (projection p ++ [e])%list.

(** The place that a terminator assigns, by the documentation of MIR; the
    outputs of inline assembly are not modelled. *)
Definition assigned_place (t : Terminator) : option Place :=
  match t with
  | Call _ _ (Some (place, _)) _ => Some place
  | DropAndReplace place _ _ _ => Some place
  | Yield _ _ resume_arg _ => Some resume_arg
  | _ => None
  end.

(** No terminator but calls assigns a local as a whole. *)
Definition only_calls_assign (t : Terminator) : Prop :=
  match t with
  | DropAndReplace place _ _ _ | Yield _ _ place _ => as_local place = None
  | InlineAsm _ => False
  | _ => True
  end.

(** The targets a terminator names, in the order of its fields. *)
Definition targets (t : Terminator) : list BasicBlock :=
  match t with
  | Goto target => [target]
  | SwitchInt _ targets => targets
  | Resume | Abort | Return | Unreachable | GeneratorDrop => []
  | Drop _ target unwind | DropAndReplace _ _ target unwind => target :: option_list unwind
  | Call _ _ destination cleanup => option_list (snd <$> destination) ++ option_list cleanup
  | Assert _ target cleanup => target :: option_list cleanup
  | Yield _ resume _ drop => resume :: option_list drop
  | FalseEdge real_target imaginary_target => [real_target; imaginary_target]
  | FalseUnwind real_target unwind => real_target :: option_list unwind
  | InlineAsm destination => option_list destination
  end%list.
End Names.

(** What the documentation of the compiler says about these operations. *)
Class MirLaws `{MirCrate} : Prop := {
  successors_spec : forall t bb, bb ∈ successors t <-> bb ∈ targets t;
  predecessors_spec : forall (body : Body) bb pred, pred ∈ predecessors body bb <->
    exists data, basic_blocks body !! pred = Some data /\ bb ∈ successors (terminator data)
}.

(** ** A small compiler

    Types are numbers: [0] is a machine integer, [1] a pair of integers, [2] a
    pair of a pair and an integer, [3] an enumeration and every other number a
    reference.  The type of a local is its number. *)

Module ConcreteMir.
Definition kind_of (ty : nat) : TyKind nat :=
  match ty with
  | 0 => OtherKind
  | 1 => Tuple [0; 0]
  | 2 => Adt true [1; 0] (fun _ => "")
  | 3 => Adt false [] (fun v => if Nat.eqb v 0 then "A" else "B")
  | _ => Ref
  end.

Fixpoint type_after (variant : option nat) (ty : nat) (projection : list (ProjectionElem nat)) : option nat * nat :=
  match projection with
  | [] => (variant, ty)
  | Field _ ty :: projection => type_after None ty projection
  | Downcast _ v :: projection => type_after (Some v) ty projection
  | _ :: projection => type_after None 0 projection
  end.

Definition place_ty (body : BodyOf nat) (p : PlaceOf nat) : option nat * TyKind nat :=
  let r := type_after None (local p) (projection p) in (fst r, kind_of (snd r)).

Definition targets_of (t : TerminatorOf nat) : list BasicBlock :=
  match t with
  | Goto target => [target]
  | SwitchInt _ targets => targets
  | Resume | Abort | Return | Unreachable | GeneratorDrop => []
  | Drop _ target unwind | DropAndReplace _ _ target unwind => target :: option_list unwind
  | Call _ _ destination cleanup => option_list (snd <$> destination) ++ option_list cleanup
  | Assert _ target cleanup => target :: option_list cleanup
  | Yield _ resume _ drop => resume :: option_list drop
  | FalseEdge real_target imaginary_target => [real_target; imaginary_target]
  | FalseUnwind real_target unwind => real_target :: option_list unwind
  | InlineAsm destination => option_list destination
  end%list.

Definition predecessors (body : BodyOf nat) (bb : BasicBlock) : list BasicBlock :=
  List.filter (fun pred =>
    match basic_blocks body !! pred with
    | Some data => bool_decide (bb ∈ targets_of (terminator data))
    | None => false
    end) (block_indices body).

(** The blocks that are reached without going through [dom]. *)
Fixpoint avoiding (body : BodyOf nat) (dom : BasicBlock) (fuel : nat) (reached : gset nat) : gset nat :=
  match fuel with
  | 0 => reached
  | S fuel =>
      avoiding body dom fuel (foldl (fun reached bb =>
        if bool_decide (bb ∈ reached) then
          match basic_blocks body !! bb with
          | Some data => list_to_set (List.filter (fun t => negb (Nat.eqb t dom)) (targets_of (terminator data))) ∪ reached
          | None => reached
          end
        else reached) reached (block_indices body))
  end.

Definition is_dominated_by (body : BodyOf nat) (node dom : BasicBlock) : bool :=
  Nat.eqb node dom
  || negb (bool_decide (node ∈ avoiding body dom (length (basic_blocks body)) (if Nat.eqb dom START_BLOCK then ∅ else {[START_BLOCK]}))).

#[export] Instance crate : MirCrate := Build_MirCrate nat _ _ place_ty targets_of predecessors is_dominated_by.

#[export] Instance laws : MirLaws.
Proof.
  split; [intros t bb; destruct t; reflexivity|]. intros body bb pred. cbn. unfold predecessors. split.
  - intros [_ Hf]%list_elem_of_In%filter_In. case_match eqn:E; [|done].
    eexists. split; [reflexivity|]. by apply bool_decide_eq_true in Hf.
  - intros (data & E & Ht). apply list_elem_of_In, filter_In. split; [|cbn in *; rewrite E; by apply bool_decide_eq_true].
    apply list_elem_of_In, elem_of_seq. apply lookup_lt_Some in E. lia.
Qed.
End ConcreteMir.
