(* ===== verification/Places.v ===== *)
(** * Sets of places

    The places of [prusti-interface/src/utils.rs] and their copy in
    [analysis/src/abstract_domains/place_utils.rs], and the sets of places of
    [environment/place_set.rs].  The copy does not know the projection
    [Index]; the argument [with_index] says which of the two is meant.  A
    function that may panic returns an option. *)

From stdpp Require Import gmap list.
From S2P Require Import Prelude Mir.

Section Places.
Context `{MirCrate}.

(** ** Prefixes *)

Definition is_prefix (place potential_prefix : Place) : bool :=
  if negb (Nat.eqb (local place) (local potential_prefix))
     || Nat.ltb (length (projection place)) (length (projection potential_prefix)) then false
  else forallb (fun e => bool_decide (fst e = snd e)) (zip (projection place) (projection potential_prefix)).

(** ** Expanding *)

Section Expand.
Context (with_index : bool) (mir : Body).

Fixpoint expand_fields (place : Place) (index : nat) (tys : list Ty) (without_field : option nat) : list Place :=
  match tys with
  | [] => []
  | ty :: tys =>
      let rest := expand_fields place (S index) tys without_field in
      if bool_decide (Some index = without_field) then rest else mk_place_elem place (Field index ty) :: rest
  end.

Definition expand_struct_place (place : Place) (without_field : option nat) : option (list Place) :=
  let typ := place_ty mir place in
  match fst typ with
  (* Downcast is a no-op. *)
  | Some _ => Some []
  | None =>
      match snd typ with
      | Adt is_struct fields _ => if is_struct then Some (expand_fields place 0 fields without_field) else None
      | Tuple slice => Some (expand_fields place 0 slice without_field)
      | Ref =>
          match without_field with
          | Some without_field => if Nat.eqb without_field 0 then Some [] else None
          | None => Some [mk_place_elem place Deref]
          end
      (* unimplemented! *)
      | OtherKind => None
      end
  end.

Definition expand_one_level (current_place guide_place : Place) : option (Place * list Place) :=
  let index := length (projection current_place) in
  elem ← projection guide_place !! index;
  match elem with
  | Field projected_field field_ty =>
      places ← expand_struct_place current_place (Some projected_field);
      Some (mk_place_elem current_place (Field projected_field field_ty), places)
  | Downcast _ variant =>
      match snd (place_ty mir current_place) with
      | Adt _ _ variant_name => Some (mk_place_elem current_place (Downcast (Some (variant_name variant)) variant), [])
      (* unreachable! *)
      | _ => None
      end
  | Deref => Some (mk_place_elem current_place Deref, [])
  | Index idx => if with_index then Some (mk_place_elem current_place (Index idx), []) else None
  (* unimplemented! *)
  | _ => None
  end.

(** The loop of [expand]: each round makes the minuend longer. *)
Fixpoint expand_loop (fuel : nat) (minuend subtrahend : Place) : option (list Place) :=
  if Nat.ltb (length (projection minuend)) (length (projection subtrahend)) then
    match fuel with
    | 0 => None
    | S fuel =>
        r ← expand_one_level minuend subtrahend;
        places ← expand_loop fuel (fst r) subtrahend;
        Some (snd r ++ places)%list
    end
  else Some [].

Definition expand (minuend subtrahend : Place) : option (list Place) :=
  if is_prefix subtrahend minuend then expand_loop (length (projection subtrahend)) minuend subtrahend else None.

(** ** Collapsing *)

Fixpoint collapse_loop (fuel : nat) (places : gset Place) (current_place guide_place : Place) : option (gset Place) :=
  if bool_decide (current_place = guide_place) then Some places
  else
    match fuel with
    | 0 => None
    | S fuel =>
        r ← expand_one_level current_place guide_place;
        places ← collapse_loop fuel places (fst r) guide_place;
        let expansion := (snd r ++ [fst r])%list in
        Some (if forallb (fun place => bool_decide (place ∈ places)) expansion
              then {[current_place]} ∪ foldl (fun places place => places ∖ {[place]}) places expansion
              else places)
    end.

(** A round without a projection left panics. *)
Definition collapse (places : gset Place) (guide_place : Place) : option (gset Place) :=
  collapse_loop (S (length (projection guide_place))) places (place_of_local (local guide_place)) guide_place.
End Expand.

End Places.

(** ** The copy of the crate [analysis] *)

Module PlaceUtils.
Section PlaceUtils.
Context `{MirCrate}.

Definition is_prefix : Place -> Place -> bool := is_prefix.
Definition expand_struct_place : Body -> Place -> option nat -> option (list Place) := expand_struct_place.
Definition expand_one_level : Body -> Place -> Place -> option (Place * list Place) := expand_one_level false.
Definition expand : Body -> Place -> Place -> option (list Place) := expand false.
Definition collapse : Body -> gset Place -> Place -> option (gset Place) := collapse false.
End PlaceUtils.
End PlaceUtils.

Section Popping.
Context `{MirCrate}.

(** ** Popping projections *)

Definition try_pop_one_level (place : Place) : option (PlaceElem * Place) :=
  elem ← last (projection place);
  Some (elem, make_place (local place) (removelast (projection place))).

Definition try_pop_deref (place : Place) : option Place :=
  r ← try_pop_one_level place;
  match fst r with Deref => Some (snd r) | _ => None end.

(** [VecPlace]: the prefixes of a place. *)
Fixpoint vec_place_loop (fuel : nat) (mir : Body) (prefix place : Place) : option (list Place) :=
  if Nat.ltb (length (projection prefix)) (length (projection place)) then
    match fuel with
    | 0 => None
    | S fuel =>
        r ← expand_one_level true mir prefix place;
        components ← vec_place_loop fuel mir (fst r) place;
        Some (fst r :: components)
    end
  else Some [].

Definition VecPlace_new (mir : Body) (place : Place) : option (list Place) :=
  let prefix := place_of_local (local place) in
  components ← vec_place_loop (length (projection place)) mir prefix place; Some (prefix :: components).

Definition component_count (components : list Place) : nat := length components.
End Popping.

(** ** [PlaceSet] *)

Module PlaceSet.
(** [PlaceSet]. *)
Abbreviation t := (gset Place).

Section PlaceSet.
Context `{MirCrate}.

Definition new : t := ∅.
Definition contains (self : t) (place : Place) : bool := bool_decide (place ∈ self).

(** No place is a prefix of another one. *)
Definition no_prefixes (places : list Place) : bool :=
  forallb (fun place1 => forallb (fun place2 =>
    bool_decide (place1 = place2) || (negb (is_prefix place1 place2) && negb (is_prefix place2 place1))) places) places.

Definition check_invariant (self : t) : option unit := assert_ (no_prefixes (elements self)).

(** The places that are left when [place] is inserted. *)
Definition insert_place (with_index : bool) (mir : Body) (places : t) (place : Place) : option t :=
  if existsb (is_prefix place) (elements places) then Some places
  else
    let retained := filter (fun other => is_prefix other place = false) places in
    collapse with_index mir ({[place]} ∪ retained) place.

Definition insert (self : t) (place : Place) (mir : Body) : option t :=
  _ ← check_invariant self;
  self ← insert_place true mir self place;
  _ ← check_invariant self;
  Some self.

(** What a place of the set becomes when [place] is removed. *)
Definition remove_one (with_index : bool) (mir : Body) (place other : Place) : option (list Place) :=
  if is_prefix place other then expand with_index mir other place
  else if is_prefix other place then Some []
  else Some [other].

Definition remaining (with_index : bool) (mir : Body) (places : t) (place : Place) : option (list Place) :=
  parts ← mapM_opt (remove_one with_index mir place) (elements places); Some (List.concat parts).

Definition unrelated (place : Place) (places : list Place) : bool :=
  forallb (fun place1 => negb (is_prefix place1 place) && negb (is_prefix place place1)) places.

Definition remove (self : t) (place : Place) (mir : Body) : option t :=
  _ ← check_invariant self;
  places ← remaining true mir self place;
  _ ← assert_ (unrelated place places);
  _ ← assert_ (no_prefixes places);
  let self := list_to_set places : t in
  _ ← check_invariant self;
  Some self.

(** The places of the first set that have a prefix in the second one. *)
Definition propagate (place_set1 place_set2 : t) : t :=
  filter (fun place => existsb (is_prefix place) (elements place_set2) = true) place_set1.

Definition intersect (place_set1 place_set2 : t) : t :=
  propagate place_set1 place_set2 ∪ propagate place_set2 place_set1.

Definition merge (place_set1 place_set2 : t) : option t :=
  _ ← check_invariant place_set1;
  _ ← check_invariant place_set2;
  let result := intersect place_set1 place_set2 in
  _ ← check_invariant result;
  Some result.

(** One pair of indices, [j] smaller than [i]. *)
Definition redundant (places : list Place) (i j : nat) (to_remove : gset nat) : gset nat :=
  if Nat.leb i j then to_remove
  else
    match places !! i, places !! j with
    | Some place, Some other =>
        if bool_decide (place = other) then {[j]} ∪ to_remove
        else if is_prefix place other then {[i]} ∪ to_remove
        else if is_prefix other place then {[j]} ∪ to_remove
        else to_remove
    | _, _ => to_remove
    end.

Definition redundant_indices (places : list Place) : gset nat :=
  let indices := seq 0 (length places) in
  foldl (fun to_remove i => foldl (fun to_remove j => redundant places i j to_remove) to_remove indices) ∅ indices.

Fixpoint keep_indices (index : nat) (places : list Place) (to_remove : gset nat) : list Place :=
  match places with
  | [] => []
  | place :: places =>
      let rest := keep_indices (S index) places to_remove in
      if bool_decide (index ∈ to_remove) then rest else place :: rest
  end.

Definition deduplicate (self : t) : option t :=
  let places := elements self in
  let self := list_to_set (keep_indices 0 places (redundant_indices places)) : t in
  _ ← check_invariant self;
  Some self.

Definition union (place_set1 place_set2 : t) : t := place_set1 ∪ place_set2.
End PlaceSet.
End PlaceSet.
