(* ===== verification/PlacesFacts.v ===== *)
(** * Sets of places cover what they should

    A set of places stands for the places that have a prefix in it.  Merging
    intersects what two sets cover, inserting and removing add and subtract a
    place, and no operation breaks the invariant that the sets are made of
    places none of which is a prefix of another one. *)

From stdpp Require Import gmap list.
From S2P Require Import Prelude Mir Places.

Section Facts.
Context `{MirCrate}.
Implicit Types (p q x c : Place) (S : gset Place).

(** ** Prefixes *)

Definition sub p q : Prop := local p = local q /\ projection p `prefix_of` projection q.

#[export] Instance sub_preorder : PreOrder sub.
Proof. split; [done|]. intros p q r [? ?] [? ?]. split; [congruence|by etrans]. Qed.

Lemma sub_antisym p q : sub p q -> sub q p -> p = q.
Proof.
  destruct p as [lp pp], q as [lq pq]. intros [E Hp] [_ Hq]. cbn in *. subst. f_equal.
  apply prefix_length_eq; [done|by apply prefix_length].
Qed.

(** Two prefixes of a place are comparable. *)
Lemma sub_total p q r : sub p r -> sub q r -> sub p q \/ sub q p.
Proof.
  intros [Ep Hp] [Eq Hq]. destruct (prefix_weak_total _ _ _ Hp Hq); [left|right]; (split; [congruence|done]).
Qed.

Lemma zip_prefix (l k : list PlaceElem) : length k <= length l ->
  forallb (fun e => bool_decide (fst e = snd e)) (zip l k) = true <-> k `prefix_of` l.
Proof.
  revert l. induction k as [|e k IH]; intros l Hl; [split; [intros _; by eexists|by destruct l]|].
  destruct l as [|e' l]; cbn in *; [lia|]. rewrite andb_true_iff, bool_decide_eq_true, IH by lia. split.
  - intros [-> Hk]. by apply prefix_cons.
  - intros Hp. split; [by apply prefix_cons_inv_1 in Hp|by eapply prefix_cons_inv_2].
Qed.

Lemma is_prefix_spec q p : is_prefix q p = true <-> sub p q.
Proof.
  unfold is_prefix, sub. destruct (Nat.eqb_spec (local q) (local p)) as [E|E]; cbn [negb orb]; [|split; [done|intros [? _]; congruence]].
  destruct (Nat.ltb_spec (length (projection q)) (length (projection p))) as [Hl|Hl].
  - split; [done|]. intros [_ Hp%prefix_length]. lia.
  - rewrite zip_prefix by done. by split; [split|intros [_ ?]].
Qed.

Lemma is_prefix_false q p : is_prefix q p = false <-> ~ sub p q.
Proof. rewrite <- is_prefix_spec. by destruct (is_prefix q p). Qed.

#[export] Instance sub_dec p q : Decision (sub p q).
Proof. destruct (is_prefix q p) eqn:E; [left; by apply is_prefix_spec|right; by apply is_prefix_false]. Defined.

(** ** What a set covers *)

Definition covers S q : Prop := exists p, p ∈ S /\ sub p q.
Definition antichain S : Prop := forall p q, p ∈ S -> q ∈ S -> sub p q -> p = q.

Lemma no_prefixes_spec l : PlaceSet.no_prefixes l = true <-> forall p q, p ∈ l -> q ∈ l -> sub p q -> p = q.
Proof.
  unfold PlaceSet.no_prefixes. rewrite forallb_forall. split.
  - intros Hl p q Hp Hq Hs. specialize (Hl p ltac:(by apply list_elem_of_In)). rewrite forallb_forall in Hl.
    specialize (Hl q ltac:(by apply list_elem_of_In)). apply orb_true_iff in Hl as [?%bool_decide_eq_true|[_ Hn]%andb_true_iff]; [done|].
    apply negb_true_iff, is_prefix_false in Hn. done.
  - intros Hl p Hp. apply forallb_forall. intros q Hq. apply list_elem_of_In in Hp, Hq. apply orb_true_iff.
    destruct (decide (p = q)) as [E|E]; [left; by apply bool_decide_eq_true|right].
    apply andb_true_iff. split; apply negb_true_iff, is_prefix_false; intros Hs; apply E; [symmetry|]; by apply Hl.
Qed.

Lemma check_invariant_spec S : PlaceSet.check_invariant S = Some tt <-> antichain S.
Proof.
  unfold PlaceSet.check_invariant, assert_, antichain. destruct (PlaceSet.no_prefixes _) eqn:E.
  - split; [|done]. intros _. pose proof (proj1 (no_prefixes_spec _) E) as Ha. intros p q Hp Hq. apply Ha; by apply elem_of_elements.
  - split; [done|]. intros Ha. enough (PlaceSet.no_prefixes (elements S) = true) by congruence.
    apply no_prefixes_spec. intros p q Hp%elem_of_elements Hq%elem_of_elements. auto.
Qed.

Lemma existsb_covers S q : existsb (is_prefix q) (elements S) = true <-> covers S q.
Proof.
  rewrite existsb_exists. split.
  - intros (p & Hp & Hs%is_prefix_spec). exists p. split; [by apply elem_of_elements, list_elem_of_In|done].
  - intros (p & Hp & Hs). exists p. split; [by apply list_elem_of_In, elem_of_elements|by apply is_prefix_spec].
Qed.

(** ** Merging *)

Lemma propagate_spec S1 S2 p : p ∈ PlaceSet.propagate S1 S2 <-> p ∈ S1 /\ covers S2 p.
Proof. unfold PlaceSet.propagate. rewrite elem_of_filter, existsb_covers. tauto. Qed.

Lemma intersection_spec S1 S2 p :
  p ∈ PlaceSet.intersect S1 S2 <-> (p ∈ S1 /\ covers S2 p) \/ (p ∈ S2 /\ covers S1 p).
Proof. unfold PlaceSet.intersect. by rewrite elem_of_union, !propagate_spec. Qed.

Lemma intersection_covers S1 S2 q : covers (PlaceSet.intersect S1 S2) q <-> covers S1 q /\ covers S2 q.
Proof.
  split.
  - intros (p & [(Hp & r & Hr & Hs)|(Hp & r & Hr & Hs)]%intersection_spec & Hq); split;
      first [by exists p | exists r; split; [done|by etrans]].
  - intros [(p & Hp & Hpq) (r & Hr & Hrq)]. destruct (sub_total p r q Hpq Hrq) as [Hs|Hs].
    + exists r. split; [|done]. apply intersection_spec. right. split; [done|by exists p].
    + exists p. split; [|done]. apply intersection_spec. left. split; [done|by exists r].
Qed.

Lemma intersection_antichain S1 S2 : antichain S1 -> antichain S2 -> antichain (PlaceSet.intersect S1 S2).
Proof.
  intros H1 H2 p q [(Hp & a & Ha & Hsa)|(Hp & a & Ha & Hsa)]%intersection_spec
    [(Hq & b & Hb & Hsb)|(Hq & b & Hb & Hsb)]%intersection_spec Hs; auto.
  - assert (a = q) as -> by (apply H2; [done..|by etrans]). by apply sub_antisym.
  - assert (a = q) as -> by (apply H1; [done..|by etrans]). by apply sub_antisym.
Qed.

Lemma merge_spec S1 S2 : antichain S1 -> antichain S2 ->
  exists S', PlaceSet.merge S1 S2 = Some S' /\ antichain S' /\ forall q, covers S' q <-> covers S1 q /\ covers S2 q.
Proof.
  intros H1 H2. pose proof (intersection_antichain _ _ H1 H2) as H3. exists (PlaceSet.intersect S1 S2).
  split; [|split; [done|apply intersection_covers]]. unfold PlaceSet.merge.
  rewrite (proj2 (check_invariant_spec S1)), (proj2 (check_invariant_spec S2)) by done. cbn.
  by rewrite (proj2 (check_invariant_spec _)).
Qed.

(** ** One level of a place *)

Section Levels.
Context (with_index : bool) (mir : Body).

(** The places beside a place with one more projection. *)
Definition siblings c (e : PlaceElem) : list Place :=
  match e with
  | Field i _ =>
      match place_ty mir c with
      | (None, Adt true fields _) | (None, Tuple fields) => expand_fields c 0 fields (Some i)
      | _ => []
      end
  | _ => []
  end.

(** A projection that the type of the place allows, and that the code
    supports. *)
Definition legal_step c (e : PlaceElem) : Prop :=
  match e with
  | Field i ty =>
      match place_ty mir c with
      | (Some _, _) => True
      | (None, Adt true fields _) | (None, Tuple fields) => fields !! i = Some ty
      | _ => False
      end
  | Downcast symbol variant =>
      match snd (place_ty mir c) with Adt _ _ variant_name => symbol = Some (variant_name variant) | _ => False end
  | Deref => True
  | Index _ => with_index = true
  | _ => False
  end.

Definition legal x : Prop := forall c e, sub (mk_place_elem c e) x -> legal_step c e.

Lemma sub_mk c e : sub c (mk_place_elem c e).
Proof. split; [done|]. by eexists. Qed.

Lemma length_mk c e : length (projection (mk_place_elem c e)) = S (length (projection c)).
Proof. cbn. rewrite length_app. cbn. lia. Qed.

(** The projection of [x] that follows [c]. *)
Lemma next_step c x : sub c x -> c <> x -> exists e, projection x !! length (projection c) = Some e /\ sub (mk_place_elem c e) x.
Proof.
  destruct c as [lc pc], x as [lx px]. intros [E [k Hk]] Hne. cbn in *. subst. destruct k as [|e k]; [by rewrite app_nil_r in Hne|].
  exists e. split; [by apply list_lookup_middle|]. split; [done|]. cbn. exists k. by rewrite <- app_assoc.
Qed.

Lemma sub_step c e x : sub (mk_place_elem c e) x -> projection x !! length (projection c) = Some e.
Proof. intros [_ [k Hk]]. cbn in Hk. rewrite Hk, <- app_assoc. by apply list_lookup_middle. Qed.

Lemma sub_length p q : sub p q -> length (projection p) <= length (projection q).
Proof. intros [_ ?]. by apply prefix_length. Qed.

Lemma sub_same_length p q : sub p q -> length (projection q) <= length (projection p) -> p = q.
Proof.
  destruct p as [lp pp], q as [lq pq]. intros [E Hp] Hl. cbn in *. subst. f_equal. by apply prefix_length_eq.
Qed.

Lemma expand_one_level_spec c x : legal x -> sub c x -> c <> x ->
  exists e, sub (mk_place_elem c e) x /\ expand_one_level with_index mir c x = Some (mk_place_elem c e, siblings c e).
Proof.
  intros Hl Hs Hne. destruct (next_step c x Hs Hne) as (e & Ee & Hn). exists e. split; [done|].
  unfold expand_one_level. rewrite Ee. cbn [mbind option_bind]. pose proof (Hl _ _ Hn) as Ht. unfold siblings.
  destruct e as [|i ty|l|? ? ?|? ? ?|sym v]; cbn in Ht; try done.
  - unfold expand_struct_place. destruct (place_ty mir c) as [[v|] [[] fields names|fields| |]]; done.
  - by rewrite Ht.
  - destruct (snd (place_ty mir c)); try done. by rewrite Ht.
Qed.

Lemma expand_fields_spec c tys i : forall k q, q ∈ expand_fields c k tys (Some i) <->
  exists j ty, tys !! j = Some ty /\ k + j <> i /\ q = mk_place_elem c (Field (k + j) ty).
Proof.
  induction tys as [|ty tys IH]; intros k q; [split; [by intros ?%not_elem_of_nil|by intros (j & ? & ? & _)]|].
  assert (Hrest : q ∈ expand_fields c (S k) tys (Some i) <->
    exists j ty', (ty :: tys) !! S j = Some ty' /\ k + S j <> i /\ q = mk_place_elem c (Field (k + S j) ty')).
  { rewrite IH. by setoid_rewrite Nat.add_succ_r. }
  cbn [expand_fields]. case_bool_decide as E.
  - rewrite Hrest. split; [intros (j & ?); by exists (S j)|]. intros ([|j] & ty' & Hj & Hk & ->); [exfalso|by eauto].
    injection E as E. lia.
  - rewrite elem_of_cons, Hrest. split.
    + intros [->|(j & ?)]; [|by exists (S j)]. exists 0, ty. rewrite Nat.add_0_r. split_and!; [done|congruence|done].
    + intros ([|j] & ty' & Hj & Hk & ->); [left; rewrite Nat.add_0_r; by injection Hj as ->|right; by eauto].
Qed.

(** A sibling has a different projection at the level. *)
Lemma siblings_spec c e s : s ∈ siblings c e -> exists e', e' <> e /\ s = mk_place_elem c e'.
Proof.
  unfold siblings. destruct e as [|i ty|l|? ? ?|? ? ?|sym v]; try by intros ?%not_elem_of_nil.
  assert (forall tys, s ∈ expand_fields c 0 tys (Some i) -> exists e', e' <> Field i ty /\ s = mk_place_elem c e').
  { intros tys (j & ty' & _ & Hne & ->)%expand_fields_spec. exists (Field (0 + j) ty'). split; [by intros [= E _]|done]. }
  destruct (place_ty mir c) as [[v|] [[] fields names|fields| |]]; try by intros ?%not_elem_of_nil; eauto.
  - eauto.
  - eauto.
Qed.

(** Places with different projections at a level have nothing in common. *)
Lemma fork c e e' q : e <> e' -> sub (mk_place_elem c e) q -> sub (mk_place_elem c e') q -> False.
Proof. intros Hne H1%sub_step H2%sub_step. congruence. Qed.

Lemma fork_sub c e e' p q : e <> e' -> sub (mk_place_elem c e) p -> sub (mk_place_elem c e') q -> ~ sub p q.
Proof. intros Hne H1 H2 H3. eapply fork; [done| |done]. by etrans. Qed.

(** Two projections of a place are the same, or one comes first. *)
Lemma levels c e c' e' x : sub (mk_place_elem c e) x -> sub (mk_place_elem c' e') x ->
  (c = c' /\ e = e') \/ sub (mk_place_elem c e) c' \/ sub (mk_place_elem c' e') c.
Proof.
  intros Hx Hx'. destruct (decide (c = c')) as [<-|Hne].
  { left. split; [done|]. apply (inj Some). by rewrite <- (sub_step _ _ _ Hx), <- (sub_step _ _ _ Hx'). }
  right. assert (forall a b f g, sub (mk_place_elem a f) x -> sub (mk_place_elem b g) x -> sub a b -> a <> b -> sub (mk_place_elem a f) b) as Hw.
  { intros a b f g Hf Hg Hab Hn. destruct (next_step a b Hab Hn) as (h & _ & Hh).
    assert (sub (mk_place_elem a h) x) as Hhx by (etrans; [exact Hh|]; etrans; [apply (sub_mk b g)|exact Hg]).
    enough (f = h) as -> by done. apply (inj Some). by rewrite <- (sub_step _ _ _ Hf), <- (sub_step _ _ _ Hhx). }
  destruct (sub_total c c' x) as [Hs|Hs]; [by etrans; [apply sub_mk|]..| |].
  - left. by apply (Hw c c' e e').
  - right. by apply (Hw c' c e' e).
Qed.

(** *** Expanding *)

(** The places beside the path from one place to another one. *)
Definition beside m x q : Prop :=
  exists c e, sub m c /\ sub (mk_place_elem c e) x /\ q ∈ siblings c e.

Lemma beside_step m e x q : sub (mk_place_elem m e) x ->
  beside m x q <-> q ∈ siblings m e \/ beside (mk_place_elem m e) x q.
Proof.
  intros Hx. split.
  - intros (c & e' & Hm & Hc & Hq). destruct (decide (m = c)) as [<-|Hne].
    + left. by rewrite <- (inj Some _ _ (eq_trans (eq_sym (sub_step _ _ _ Hx)) (sub_step _ _ _ Hc))) in Hq.
    + right. exists c, e'. split_and!; [|done..]. destruct (next_step m c Hm Hne) as (f & _ & Hf).
      assert (sub (mk_place_elem m f) x) as Hf' by (etrans; [exact Hf|]; etrans; [apply (sub_mk c e')|exact Hc]).
      by rewrite <- (inj Some _ _ (eq_trans (eq_sym (sub_step _ _ _ Hx)) (sub_step _ _ _ Hf'))) in Hf.
  - intros [Hq|(c & e' & Hm & Hc & Hq)]; [by exists m, e|]. exists c, e'. split_and!; [|done..].
    etrans; [apply sub_mk|done].
Qed.

Lemma expand_loop_spec x : legal x -> forall fuel m, sub m x -> length (projection x) <= fuel + length (projection m) ->
  exists l, expand_loop with_index mir fuel m x = Some l /\ forall q, q ∈ l <-> beside m x q.
Proof.
  intros Hl. assert (forall fuel m, sub m x -> length (projection x) <= length (projection m) ->
    exists l, expand_loop with_index mir fuel m x = Some l /\ forall q, q ∈ l <-> beside m x q) as Hend.
  { intros fuel m Hm Hlen. exists []. split; [destruct fuel; cbn [expand_loop]; by rewrite (proj2 (Nat.ltb_ge _ _))|].
    intros q. split; [by intros ?%not_elem_of_nil|]. intros (c & e & Hc & Hx & _). apply sub_length in Hc, Hx.
    rewrite length_mk in Hx. lia. }
  induction fuel as [|fuel IH]; intros m Hm Hf; [by apply Hend|].
  destruct (decide (length (projection x) <= length (projection m))) as [|Hlt]; [by apply Hend|].
  assert (m <> x) as Hne by (intros ->; lia).
  destruct (expand_one_level_spec m x Hl Hm Hne) as (e & He & E).
  destruct (IH (mk_place_elem m e) He ltac:(rewrite length_mk; lia)) as (l & El & Hq).
  exists (siblings m e ++ l)%list. split; [|intros q; by rewrite elem_of_app, Hq, (beside_step m e x q He)].
  cbn [expand_loop]. rewrite (proj2 (Nat.ltb_lt _ _)), E by lia. cbn [mbind option_bind fst snd]. by rewrite El.
Qed.

Lemma expand_spec m x : legal x -> sub m x ->
  exists l, expand with_index mir m x = Some l /\ forall q, q ∈ l <-> beside m x q.
Proof.
  intros Hl Hm. unfold expand. rewrite (proj2 (is_prefix_spec _ _) Hm). apply expand_loop_spec; [done..|lia].
Qed.

Lemma beside_sub m x q : beside m x q -> sub m q /\ ~ sub q x /\ ~ sub x q.
Proof.
  intros (c & e & Hm & Hx & (e' & Hne & ->)%siblings_spec). split_and!.
  - etrans; [done|apply sub_mk].
  - intros Hs. by eapply fork.
  - eapply fork_sub; [by apply not_eq_sym|exact Hx|done].
Qed.

Lemma beside_antichain m x p q : beside m x p -> beside m x q -> sub p q -> p = q.
Proof.
  intros (c & e & Hm & Hx & (f & Hf & ->)%siblings_spec) (c' & e' & Hm' & Hx' & (f' & Hf' & ->)%siblings_spec) Hs.
  destruct (levels c e c' e' x Hx Hx') as [[<- <-]|[Hl|Hl]].
  - apply sub_same_length; [done|]. by rewrite !length_mk.
  - exfalso. eapply (fork_sub c f e); [done|reflexivity| |exact Hs]. etrans; [exact Hl|apply sub_mk].
  - exfalso. apply sub_length in Hl, Hs. rewrite !length_mk in *. lia.
Qed.

(** Two places that part at the fields of a struct or a tuple. *)
Definition apart q x : Prop := exists c e s, sub (mk_place_elem c e) x /\ s ∈ siblings c e /\ sub s q.

Lemma apart_not_sub q x : apart q x -> ~ sub x q /\ ~ sub q x.
Proof.
  intros (c & e & s & Hx & (e' & Hne & ->)%siblings_spec & Hq). split.
  - eapply fork_sub; [by apply not_eq_sym|exact Hx|exact Hq].
  - by eapply fork_sub.
Qed.

(** *** Removing *)

Lemma mapM_concat (f : Place -> option (list Place)) (R : Place -> Place -> Prop) l :
  (forall p, exists k, f p = Some k /\ forall q, q ∈ k <-> R p q) ->
  exists parts, mapM_opt f l = Some parts /\ forall q, q ∈ List.concat parts <-> exists p, p ∈ l /\ R p q.
Proof.
  intros Hf. induction l as [|p l (parts & E & Hq)].
  - exists []. split; [done|]. intros q. split; [by intros ?%not_elem_of_nil|by intros (p & ?%not_elem_of_nil & _)].
  - destruct (Hf p) as (k & Ek & Hk). exists (k :: parts). cbn [mapM_opt]. rewrite Ek, E. split; [done|].
    intros q. cbn. rewrite elem_of_app, Hk, Hq. setoid_rewrite elem_of_cons. naive_solver.
Qed.

(** What is left of a place when [x] is removed. *)
Definition left_of x p q : Prop := (sub p x /\ beside p x q) \/ (~ sub p x /\ ~ sub x p /\ q = p).

Lemma remove_one_spec x p : legal x ->
  exists l, PlaceSet.remove_one with_index mir x p = Some l /\ forall q, q ∈ l <-> left_of x p q.
Proof.
  intros Hl. unfold PlaceSet.remove_one, left_of. destruct (is_prefix x p) eqn:E1.
  - apply is_prefix_spec in E1. destruct (expand_spec p x Hl E1) as (l & E & Hq). exists l. split; [done|].
    intros q. rewrite Hq. tauto.
  - apply is_prefix_false in E1. destruct (is_prefix p x) eqn:E2.
    + apply is_prefix_spec in E2. exists []. split; [done|]. intros q.
      split; [by intros ?%not_elem_of_nil|intros [[? _]|(_ & ? & _)]; done].
    + apply is_prefix_false in E2. exists [p]. split; [done|]. intros q. rewrite list_elem_of_singleton. tauto.
Qed.

Lemma remaining_spec S x : legal x -> exists l, PlaceSet.remaining with_index mir S x = Some l /\
  forall q, q ∈ l <-> exists p, p ∈ S /\ left_of x p q.
Proof.
  intros Hl. unfold PlaceSet.remaining.
  destruct (mapM_concat _ (left_of x) (elements S) (fun p => remove_one_spec x p Hl)) as (parts & -> & Hq).
  eexists. split; [done|]. intros q. rewrite Hq. by setoid_rewrite elem_of_elements.
Qed.

Lemma left_of_facts x p q : left_of x p q -> sub p q /\ ~ sub q x /\ ~ sub x q.
Proof. intros [[_ Hb]|(H1 & H2 & ->)]; [by apply beside_sub in Hb|done]. Qed.

Lemma left_antichain S x p q q1 q2 : antichain S -> p ∈ S -> q ∈ S -> left_of x p q1 -> left_of x q q2 -> sub q1 q2 -> q1 = q2.
Proof.
  intros Ha Hp Hq H1 H2 Hs. assert (p = q) as <-.
  { destruct (left_of_facts _ _ _ H1) as [Hpq _], (left_of_facts _ _ _ H2) as [Hqq _].
    destruct (sub_total p q q2 ltac:(by etrans) Hqq) as [?|?]; [|symmetry]; by apply Ha. }
  destruct H1 as [[H1 B1]|(H1 & _ & ->)], H2 as [[H2 B2]|(H2 & _ & ->)]; try done. by eapply beside_antichain.
Qed.

Lemma unrelated_spec x l : (forall q, q ∈ l -> ~ sub q x /\ ~ sub x q) -> PlaceSet.unrelated x l = true.
Proof.
  intros Hl. apply forallb_forall. intros q Hq%list_elem_of_In. destruct (Hl q Hq). apply andb_true_iff.
  split; by apply negb_true_iff, is_prefix_false.
Qed.

(** Removing a place leaves what parts from it, and nothing that contains it
    or is contained in it. *)
Definition removed S x S' : Prop :=
  antichain S' /\ (forall q, covers S' q -> covers S q /\ ~ sub q x /\ ~ sub x q)
  /\ forall q, apart q x \/ local q <> local x -> covers S q -> covers S' q.

Lemma removed_spec S x l : antichain S -> (forall q, q ∈ l <-> exists p, p ∈ S /\ left_of x p q) ->
  removed S x (list_to_set l).
Proof.
  intros Ha Hl. split; [|split].
  - intros q1 q2 (p & Hp & H1)%elem_of_list_to_set%Hl (p' & Hp' & H2)%elem_of_list_to_set%Hl. by apply (left_antichain S x p p').
  - intros q (s & (p & Hp & H1)%elem_of_list_to_set%Hl & Hs). pose proof (left_of_facts _ _ _ H1) as (Hps & Hn1 & Hn2).
    split_and!; [exists p; split; [done|by etrans]|intros Hq; apply Hn1; by etrans|].
    intros Hxq. destruct (sub_total s x q Hs Hxq); done.
  - intros q Hq (p & Hp & Hpq). destruct (decide (sub p x)) as [Hpx|Hpx].
    + destruct Hq as [(c & e & s & Hx & Hs & Hsq)|Hloc]; [|by destruct Hloc, Hpx, Hpq; congruence].
      exists s. split; [|done]. apply elem_of_list_to_set, Hl. exists p. split; [done|]. left. split; [done|].
      exists c, e. split_and!; [|done..]. pose proof (siblings_spec _ _ _ Hs) as (e' & Hne & ->).
      assert (sub c x) as Hc by (etrans; [apply sub_mk|done]). destruct (sub_total p c x Hpx Hc) as [?|Hcp]; [done|].
      destruct (decide (c = p)) as [->|Hcne]; [done|]. destruct (next_step c p Hcp Hcne) as (f & _ & Hf). exfalso.
      assert (e <> f) as Hef; [|by apply (fork c e f x); [done..|apply (transitivity Hf)]].
      intros <-. apply (fork c e' e q); [done..|]. by apply (transitivity Hf).
    + exists p. split; [|done]. apply elem_of_list_to_set, Hl. exists p. split; [done|]. right. split_and!; [done| |done].
      intros Hxp. assert (sub x q) as Hxq by (by etrans). destruct Hq as [Hq|Hq]; [by destruct (apart_not_sub _ _ Hq)|].
      destruct Hxq. congruence.
Qed.

(** *** Inserting *)

(** Collapsing keeps what is covered, away from the guide. *)
Definition keeps x S S' : Prop :=
  antichain S' /\ (forall q, covers S q -> covers S' q)
  /\ (forall q, apart q x \/ sub x q \/ local q <> local x -> covers S' q -> covers S q).

(** The places of the set part from [x] at a struct or a tuple, or are
    comparable with it. *)
Definition parts_from S x : Prop := forall p, p ∈ S -> sub p x \/ sub x p \/ apart p x \/ local p <> local x.

Lemma elem_of_foldl_difference (l : list Place) : forall S p, p ∈ foldl (fun places place => places ∖ {[place]}) S l <-> p ∈ S /\ p ∉ l.
Proof.
  induction l as [|q l IH]; intros S p; cbn; [by split; [split; [|apply not_elem_of_nil]|intros []]|].
  rewrite IH, not_elem_of_cons. set_solver.
Qed.

Lemma collapse_step_spec x c e S : legal x -> sub (mk_place_elem c e) x -> antichain S -> parts_from S x ->
  (forall s, s ∈ siblings c e -> s ∈ S) -> mk_place_elem c e ∈ S ->
  let S' := {[c]} ∪ foldl (fun places place => places ∖ {[place]}) S (siblings c e ++ [mk_place_elem c e]) in
  keeps x S S' /\ parts_from S' x.
Proof.
  intros Hl Hx Ha Hp Hs He S'.
  assert (HS' : forall p, p ∈ S' <-> p = c \/ (p ∈ S /\ p ∉ siblings c e /\ p <> mk_place_elem c e)).
  { intros p. unfold S'. rewrite elem_of_union, elem_of_singleton, elem_of_foldl_difference, not_elem_of_app,
      not_elem_of_cons. pose proof (@not_elem_of_nil Place p). tauto. }
  assert (Hcx : sub c x) by (etrans; [apply sub_mk|done]).
  assert (Hcmp : forall p, p ∈ S -> sub p c -> False).
  { intros p Hpin Hpc. assert (p = mk_place_elem c e) as ->.
    { apply Ha; [done..|]. etrans; [exact Hpc|apply sub_mk]. }
    apply sub_length in Hpc. rewrite length_mk in Hpc. lia. }
  assert (Hext : forall p, p ∈ S -> sub c p -> p ∈ siblings c e \/ p = mk_place_elem c e).
  { intros p Hpin Hcp. assert (p <> c) as Hne by (intros ->; by eapply Hcmp).
    destruct (next_step c p Hcp (not_eq_sym Hne)) as (f & _ & Hf).
    destruct (decide (f = e)) as [->|Hfe]; [right; symmetry; by apply Ha|left].
    destruct (Hp p Hpin) as [Hpx|[Hxp|[(c' & e' & s & Hx' & Hs' & Hsp)|Hloc]]].
    - exfalso. apply (fork c f e x); [done|by apply (transitivity Hf)|done].
    - exfalso. apply (fork c f e p); [done..|by apply (transitivity Hx)].
    - pose proof (siblings_spec _ _ _ Hs') as (f' & Hf' & ->). destruct (levels c e c' e' x Hx Hx') as [[<- <-]|[Hlv|Hlv]].
      + by rewrite <- (Ha _ p (Hs _ Hs') Hpin Hsp).
      + exfalso. apply (fork c f e p); [done..|]. etrans; [exact Hlv|]. etrans; [apply sub_mk|exact Hsp].
      + exfalso. apply (fork c' f' e' p); [done..|]. by etrans.
    - destruct Hcp, Hcx. congruence. }
  split; [split; [|split]|].
  - intros p q [->|(Hpin & Hp1 & Hp2)]%HS' [->|(Hqin & Hq1 & Hq2)]%HS' Hpq; [done| | |by apply Ha].
    + destruct (Hext q Hqin Hpq); done.
    + destruct (Hcmp p Hpin Hpq).
  - intros q (p & Hpin & Hpq). destruct (decide (sub c p)) as [Hcp|Hcp].
    + exists c. split; [apply HS'; by left|by etrans].
    + exists p. split; [|done]. apply HS'. right. split_and!; [done| |]; intros Hin; apply Hcp.
      * apply siblings_spec in Hin as (e' & _ & ->). apply sub_mk.
      * subst. apply sub_mk.
  - intros q Hq (p & [->|(Hpin & _)]%HS' & Hpq); [|by exists p]. destruct Hq as [(c' & e' & s & Hx' & Hs' & Hsq)|[Hxq|Hloc]].
    + pose proof (siblings_spec _ _ _ Hs') as (f' & Hf' & ->).
      destruct (levels c e c' e' x Hx Hx') as [[<- <-]|[Hlv|Hlv]].
      * exists (mk_place_elem c f'). split; [by apply Hs|done].
      * exists (mk_place_elem c e). split; [done|]. etrans; [exact Hlv|]. etrans; [apply sub_mk|exact Hsq].
      * exfalso. apply (fork c' f' e' q); [done..|]. by etrans.
    + exists (mk_place_elem c e). split; [done|]. by etrans.
    + destruct Hpq, Hcx. congruence.
  - intros p [->|(Hpin & _)]%HS'; [by left|by apply Hp].
Qed.

Lemma keeps_refl x S : antichain S -> keeps x S S.
Proof. by split. Qed.

Lemma keeps_trans x S1 S2 S3 : keeps x S1 S2 -> keeps x S2 S3 -> keeps x S1 S3.
Proof. intros (A1 & B1 & C1) (A2 & B2 & C2). split; [done|]. split; [by eauto|]. intros q Hq Hc. apply C1; auto. Qed.

Lemma collapse_loop_spec x : legal x -> forall fuel c S, sub c x -> length (projection x) < fuel + length (projection c) ->
  antichain S -> parts_from S x ->
  exists S', collapse_loop with_index mir fuel S c x = Some S' /\ keeps x S S' /\ parts_from S' x.
Proof.
  intros Hl. induction fuel as [|fuel IH]; intros c S Hc Hf Ha Hp; [apply sub_length in Hc; lia|].
  cbn [collapse_loop]. case_bool_decide as E; [by exists S; split_and!; [|apply keeps_refl|]|].
  destruct (expand_one_level_spec c x Hl Hc E) as (e & He & ->). cbn [mbind option_bind fst snd].
  destruct (IH (mk_place_elem c e) S He ltac:(rewrite length_mk; lia) Ha Hp) as (S1 & -> & Hk & Hp1).
  cbn [mbind option_bind]. eexists. split; [done|].
  destruct (forallb _ _) eqn:Ef; [|done]. rewrite forallb_forall in Ef.
  destruct (collapse_step_spec x c e S1 Hl He (proj1 Hk) Hp1) as [Hk' Hp'].
  - intros s Hs. eapply bool_decide_eq_true, Ef, list_elem_of_In, elem_of_app. by left.
  - eapply bool_decide_eq_true, Ef, list_elem_of_In, elem_of_app. right. by apply list_elem_of_singleton.
  - split; [by eapply keeps_trans|done].
Qed.

Lemma insert_place_spec x S : legal x -> antichain S -> parts_from S x ->
  exists S', PlaceSet.insert_place with_index mir S x = Some S' /\ antichain S'
    /\ (forall q, covers S q \/ sub x q -> covers S' q)
    /\ forall q, apart q x \/ sub x q \/ local q <> local x -> covers S' q -> covers S q \/ sub x q.
Proof.
  intros Hl Ha Hp. unfold PlaceSet.insert_place. destruct (existsb _ _) eqn:E.
  - apply existsb_covers in E as (p & Hpin & Hpx). exists S. split_and!; [done..| |by left].
    intros q [?|?]; [done|]. exists p. split; [done|by etrans].
  - assert (~ covers S x) as Hn by (by rewrite <- existsb_covers, E).
    set (R := {[x]} ∪ filter (fun other => is_prefix other x = false) S).
    assert (HR : forall p, p ∈ R <-> p = x \/ (p ∈ S /\ ~ sub x p)).
    { intros p. unfold R. rewrite elem_of_union, elem_of_singleton, elem_of_filter, is_prefix_false. tauto. }
    assert (HaR : antichain R).
    { intros p q [->|[Hpin Hxp]]%HR [->|[Hqin Hxq]]%HR Hs; [done|done| |by apply Ha]. destruct Hn. by exists p. }
    assert (HpR : parts_from R x) by (intros p [->|[? _]]%HR; [by left|by apply Hp]).
    destruct (collapse_loop_spec x Hl (Datatypes.S (length (projection x))) (place_of_local (local x)) R) as (S' & E' & (HaS & Hk1 & Hk2) & _);
      [split; [done|apply prefix_nil]|cbn; lia|done|done|].
    exists S'. split_and!; [exact E'|done| |].
    + intros q Hq. apply Hk1. destruct Hq as [(p & Hpin & Hpq)|Hxq]; [|exists x; split; [apply HR; by left|done]].
      destruct (decide (sub x p)) as [Hxp|Hxp].
      * exists x. split; [apply HR; by left|by etrans].
      * exists p. split; [apply HR; by right|done].
    + intros q Hq (p & [->|[Hpin _]]%HR & Hpq)%Hk2; [by right|left; by exists p|done].
Qed.
End Levels.

(** ** The operations of [PlaceSet] *)

Lemma checked S : antichain S -> PlaceSet.check_invariant S = Some tt.
Proof. apply check_invariant_spec. Qed.

Lemma PlaceSet_insert_spec S x mir : legal true mir x -> antichain S -> parts_from mir S x ->
  exists S', PlaceSet.insert S x mir = Some S' /\ antichain S'
    /\ (forall q, covers S q \/ sub x q -> covers S' q)
    /\ forall q, apart mir q x \/ sub x q \/ local q <> local x -> covers S' q -> covers S q \/ sub x q.
Proof.
  intros Hl Ha Hp. destruct (insert_place_spec true mir x S Hl Ha Hp) as (S' & E & Ha' & H1 & H2).
  exists S'. split_and!; try done. unfold PlaceSet.insert. rewrite checked by done. cbn. rewrite E. cbn. by rewrite checked.
Qed.

Lemma PlaceSet_remove_spec S x mir : legal true mir x -> antichain S ->
  exists S', PlaceSet.remove S x mir = Some S' /\ removed mir S x S'.
Proof.
  intros Hl Ha. destruct (remaining_spec true mir S x Hl) as (l & E & Hq).
  pose proof (removed_spec mir S x l Ha Hq) as Hr. exists (list_to_set l). split; [|done].
  unfold PlaceSet.remove. rewrite checked by done. cbn. rewrite E. cbn.
  rewrite unrelated_spec by (intros q (p & _ & Hp)%Hq; apply left_of_facts in Hp as [_ Hp]; exact Hp). cbn.
  rewrite (proj2 (no_prefixes_spec l)); [cbn; by rewrite checked by apply Hr|].
  intros p q Hp Hqin. apply (proj1 Hr); by apply elem_of_list_to_set.
Qed.

(** ** Removing duplicates *)

Lemma elem_of_foldl_gset {A} (f : gset nat -> A -> gset nat) (P : A -> nat -> Prop) (l : list A) :
  (forall acc a k, k ∈ f acc a <-> k ∈ acc \/ P a k) ->
  forall acc k, k ∈ foldl f acc l <-> k ∈ acc \/ exists a, a ∈ l /\ P a k.
Proof.
  intros Hf. induction l as [|a l IH]; intros acc k; cbn.
  - split; [by left|intros [?|(a & ?%not_elem_of_nil & _)]; done].
  - rewrite IH, Hf. setoid_rewrite elem_of_cons. naive_solver.
Qed.

Definition proper_sub p q : Prop := sub p q /\ p <> q.

(** The pair of indices makes the index [k] redundant. *)
Definition makes_redundant (l : list Place) (i j k : nat) : Prop :=
  j < i /\ exists p q, l !! i = Some p /\ l !! j = Some q
    /\ ((k = i /\ proper_sub q p) \/ (k = j /\ proper_sub p q)).

Lemma redundant_spec l i j acc k : NoDup l -> k ∈ PlaceSet.redundant l i j acc <-> k ∈ acc \/ makes_redundant l i j k.
Proof.
  intros Hnd. unfold PlaceSet.redundant, makes_redundant, proper_sub. destruct (Nat.leb_spec i j) as [Hij|Hij]; [naive_solver lia|].
  destruct (l !! i) as [p|] eqn:Ei; [|naive_solver]. destruct (l !! j) as [q|] eqn:Ej; [|naive_solver].
  case_bool_decide as Epq.
  { subst. pose proof (NoDup_lookup _ _ _ _ Hnd Ei Ej). lia. }
  destruct (is_prefix p q) eqn:E1.
  { apply is_prefix_spec in E1. rewrite elem_of_union, elem_of_singleton. split; [naive_solver|].
    intros [?|(_ & p' & q' & [= <-] & [= <-] & [[-> _]|[_ [? _]]])]; [by right|by left|].
    destruct Epq. by apply sub_antisym. }
  apply is_prefix_false in E1. destruct (is_prefix q p) eqn:E2.
  - apply is_prefix_spec in E2. rewrite elem_of_union, elem_of_singleton. split; [naive_solver|].
    intros [?|(_ & p' & q' & [= <-] & [= <-] & [[_ [? _]]|[-> _]])]; [by right|done|by left].
  - apply is_prefix_false in E2. split; [by left|]. intros [?|(_ & p' & q' & [= <-] & [= <-] & [[_ [? _]]|[_ [? _]]])]; done.
Qed.

Lemma redundant_indices_spec l k : NoDup l ->
  k ∈ PlaceSet.redundant_indices l <-> exists p q, l !! k = Some p /\ q ∈ l /\ proper_sub q p.
Proof.
  intros Hnd. unfold PlaceSet.redundant_indices.
  rewrite (elem_of_foldl_gset _ (fun i k => exists j, j ∈ seq 0 (length l) /\ makes_redundant l i j k)).
  - split.
    + intros [?%elem_of_empty|(i & _ & j & _ & _ & p & q & Ei & Ej & [[-> Hs]|[-> Hs]])]; [done| |].
      * exists p, q. split_and!; [done| |done]. by eapply list_elem_of_lookup_2.
      * exists q, p. split_and!; [done| |done]. by eapply list_elem_of_lookup_2.
    + intros (p & q & Ek & (m & Em)%list_elem_of_lookup & Hs). right.
      pose proof (lookup_lt_Some _ _ _ Ek). pose proof (lookup_lt_Some _ _ _ Em).
      assert (k <> m) as Hne by (intros ->; rewrite Ek in Em; injection Em as ->; by destruct Hs).
      destruct (decide (m < k)) as [Hlt|Hge].
      * exists k. split; [apply elem_of_seq; lia|]. exists m. split; [apply elem_of_seq; lia|]. split; [done|]. exists p, q. tauto.
      * exists m. split; [apply elem_of_seq; lia|]. exists k. split; [apply elem_of_seq; lia|]. split; [lia|]. exists q, p. tauto.
  - intros acc i k'. apply (elem_of_foldl_gset (fun acc j => PlaceSet.redundant l i j acc) (makes_redundant l i)). intros acc' j k''. by apply redundant_spec.
Qed.

Lemma keep_indices_spec l X : forall index p,
  p ∈ PlaceSet.keep_indices index l X <-> exists i, l !! i = Some p /\ (index + i)%nat ∉ X.
Proof.
  induction l as [|q l IH]; intros index p; cbn; [split; [by intros ?%not_elem_of_nil|by intros (i & ? & _)]|].
  assert (Hrest : p ∈ PlaceSet.keep_indices (S index) l X <-> exists i, (q :: l) !! S i = Some p /\ (index + S i)%nat ∉ X).
  { rewrite IH. by setoid_rewrite Nat.add_succ_r. }
  case_bool_decide as E; rewrite ?elem_of_cons, Hrest; split.
  - intros (i & ?). by exists (S i).
  - intros ([|i] & Hi & Hn); [by rewrite Nat.add_0_r in Hn|by exists i].
  - intros [->|(i & ?)]; [exists 0; by rewrite Nat.add_0_r|by exists (S i)].
  - intros ([|i] & Hi & Hn); [left; by injection Hi|right; by exists i].
Qed.

(** The places without a proper prefix in the set. *)
Lemma deduplicate_members S p :
  p ∈ (list_to_set (PlaceSet.keep_indices 0 (elements S) (PlaceSet.redundant_indices (elements S))) : gset Place) <->
  p ∈ S /\ forall q, q ∈ S -> ~ proper_sub q p.
Proof.
  rewrite elem_of_list_to_set, keep_indices_spec. cbn. setoid_rewrite (fun k => redundant_indices_spec (elements S) k (NoDup_elements S)).
  rewrite <- (elem_of_elements S p), list_elem_of_lookup. split.
  - intros (i & Ei & Hn). split; [by exists i|]. intros q Hq Hs. apply Hn. exists p, q. by rewrite elem_of_elements.
  - intros [(i & Ei) Hn]. exists i. split; [done|]. intros (p' & q & Ei' & Hq%elem_of_elements & Hs).
    rewrite Ei in Ei'. injection Ei' as <-. by eapply Hn.
Qed.

Lemma minimal_prefix S p : p ∈ S -> exists q, q ∈ S /\ sub q p /\ forall r, r ∈ S -> ~ proper_sub r q.
Proof.
  remember (length (projection p)) as n eqn:En. revert p En. induction n as [n IH] using lt_wf_ind. intros p -> Hp.
  destruct (existsb (fun r => bool_decide (proper_sub r p)) (elements S)) eqn:E.
  - apply existsb_exists in E as (r & Hr%list_elem_of_In%elem_of_elements & [Hs Hne]%bool_decide_eq_true).
    destruct (IH (length (projection r))) with (p := r) as (q & Hq & Hqr & Hmin); [|done..|].
    + destruct (decide (length (projection r) < length (projection p))) as [|Hge]; [done|].
      destruct Hne. apply sub_same_length; [done|lia].
    + exists q. split_and!; [done|by etrans|done].
  - exists p. split_and!; [done|reflexivity|]. intros r Hr Hs.
    assert (existsb (fun r => bool_decide (proper_sub r p)) (elements S) = true) as E'; [|congruence].
    apply existsb_exists. exists r. split; [by apply list_elem_of_In, elem_of_elements|by apply bool_decide_eq_true].
Qed.

(** Duplicates are removed without changing what is covered, whatever the
    set is. *)
Lemma PlaceSet_deduplicate_spec S : exists S', PlaceSet.deduplicate S = Some S' /\ antichain S' /\ forall q, covers S' q <-> covers S q.
Proof.
  set (S' := list_to_set (PlaceSet.keep_indices 0 (elements S) (PlaceSet.redundant_indices (elements S))) : gset Place).
  assert (Ha : antichain S').
  { intros p q [Hp _]%deduplicate_members [_ Hq]%deduplicate_members Hs. destruct (decide (p = q)); [done|]. by destruct (Hq p Hp). }
  exists S'. split_and!; [|done|].
  - unfold PlaceSet.deduplicate. fold S'. by rewrite checked.
  - intros q. split.
    + intros (p & [Hp _]%deduplicate_members & Hs). by exists p.
    + intros (p & Hp & Hs). destruct (minimal_prefix S p Hp) as (r & Hr & Hrp & Hmin).
      exists r. split; [by apply deduplicate_members|by etrans].
Qed.

Lemma PlaceSet_union_covers S1 S2 q : covers (PlaceSet.union S1 S2) q <-> covers S1 q \/ covers S2 q.
Proof. unfold covers, PlaceSet.union. set_solver. Qed.
End Facts.

(** ** The theorems *)

(** A place that is removed from a set is not covered any more, nor is
    anything that contains it; what parts from it at a field stays covered,
    and nothing else becomes covered.  The operation does not panic. *)
(** C16. Removing a place from a set of places of which none is a prefix of another keeps this
    invariant, and does not panic if the projections of the place are allowed by their types and
    among those the code supports (dereferences, fields of structures, tuples and enum variants,
    downcasts and indices; constant indices, subslices and fields of closures are
    `unimplemented!`); what is left is what the set had and that neither contains the removed
    place nor is a part of it, with every place apart from it: a place of which a part is
    removed is split into its other fields. *)
Theorem place_set_remove `{MirCrate} (S : gset Place) x mir : legal true mir x -> antichain S ->
  exists S', PlaceSet.remove S x mir = Some S' /\ antichain S'
    /\ (forall q, covers S' q -> covers S q /\ ~ sub q x /\ ~ sub x q)
    /\ forall q, apart mir q x \/ local q <> local x -> covers S q -> covers S' q.
Proof. exact (PlaceSet_remove_spec S x mir). Qed.


(** Merging intersects what is covered. *)
(** C19. Merging two sets of places keeps the invariant and covers exactly the places that both
    sets cover. *)
Theorem place_set_merge `{MirCrate} (S1 S2 : gset Place) : antichain S1 -> antichain S2 ->
  exists S', PlaceSet.merge S1 S2 = Some S' /\ antichain S' /\ forall q, covers S' q <-> covers S1 q /\ covers S2 q.
Proof. exact (merge_spec S1 S2). Qed.

Module ConcretePlaces.
Import ConcreteMir.
Definition body : Body := make_body [] 5 0.
(** A local [x] of the type 2: [x.0.0] and [x.0]. *)
Definition x : Place := place_of_local 2.
Definition field (p : Place) (i : nat) (ty : nat) : Place := mk_place_elem p (Field i ty : PlaceElem).
Definition x0 : Place := field x 0 1.
Definition x00 : Place := field x0 0 0.
Definition x01 : Place := field x0 1 0.
Definition x1 : Place := field x 1 0.

Example remove_splits : PlaceSet.remove {[x]} x00 body = Some {[x1; x01]}.
Proof. apply (bool_decide_unpack _). vm_compute. exact I. Qed.

Example insert_collapses : PlaceSet.insert {[x1; x01]} x00 body = Some {[x]}.
Proof. apply (bool_decide_unpack _). vm_compute. exact I. Qed.

(** One field of a variant: the whole enumeration is taken for initialized. *)
Definition e_a0 : Place := field (mk_place_elem (place_of_local 3) (Downcast (Some "A") 0 : PlaceElem)) 0 0.
Example variant_field_collapses : PlaceSet.insert ∅ e_a0 body = Some {[ place_of_local 3 : Place ]}.
Proof. apply (bool_decide_unpack _). vm_compute. exact I. Qed.
End ConcretePlaces.
Import ConcreteMir ConcretePlaces.

Lemma x00_legal : legal true body x00.
Proof.
  intros [lc pc] e [El [k Hk]]. cbn in El, Hk. subst lc.
  destruct pc as [|c1 [|c2 pc]]; cbn in Hk; [by injection Hk as <- _|by injection Hk as <- <- _|].
  exfalso. injection Hk as _ _ Hk. by destruct pc.
Qed.

Lemma singleton_antichain (p : Place) : antichain {[p]}.
Proof. intros a b ->%elem_of_singleton ->%elem_of_singleton _. done. Qed.

Lemma place_set_remove_witness : exists S', PlaceSet.remove {[x]} x00 body = Some S' /\ covers S' x01 /\ ~ covers S' x00.
Proof.
  destruct (place_set_remove {[x]} x00 body x00_legal (singleton_antichain x)) as (S' & E & _ & H1 & H2).
  exists S'. split; [exact E|]. split.
  - apply H2; [left|exists x; split; [by apply elem_of_singleton|split; [done|by eexists]]].
    exists x0, (Field 0 0), x01. split; [done|]. split; [|done]. apply list_elem_of_singleton. done.
  - intros Hc. by destruct (H1 _ Hc) as (_ & [] & _).
Defined.


Lemma place_set_merge_witness : exists S', PlaceSet.merge {[x]} {[x00]} = Some S' /\ covers S' x00 /\ ~ covers S' x01.
Proof.
  destruct (place_set_merge {[x]} {[x00]} (singleton_antichain x) (singleton_antichain x00)) as (S' & E & _ & Hq).
  exists S'. split; [exact E|]. split.
  - apply Hq. split; [exists x|exists x00]; (split; [by apply elem_of_singleton|]); [split; [done|by eexists]|done].
  - intros [_ (p & ->%elem_of_singleton & Hs)]%Hq. by apply is_prefix_spec in Hs.
Defined.
