(* ===== verification/Analysis.v ===== *)
(** * Abstract interpretation

    The crate [analysis]: the analyzer ([analyzer.rs]) over the trait
    [AbstractState] ([abstract_state.rs]), the states it records
    ([pointwise_state.rs]), and the domains of [abstract_domains]; the results
    of [prusti-interface/src/environment/mir_analyses/initialization.rs].  The
    analyzer runs until its work set is empty, so it has fuel; [AnalysisFacts]
    gives the fuel that is enough for a domain of finite height. *)

From stdpp Require Import gmap list.
From S2P Require Import Prelude Mir Places.

Inductive AnalysisError : Type :=
  | UnsupportedStatement (location : Location)
  | SuccessorWithoutState (location : Location) (bb : BasicBlock).

(** ** [AbstractState] *)

(** A method that may panic returns an [outcome] or an option. *)
Class AbstractState `{MirCrate} (D : Type) := {
  state_eq_dec :: EqDecision D;
  new_bottom : Body -> D;
  is_bottom : Body -> D -> bool;
  new_initial : Body -> D;
  need_to_widen : Z -> bool;
  join : D -> D -> D;
  widen : D -> D -> option D;
  apply_statement_effect : Body -> Location -> D -> outcome AnalysisError D;
  apply_terminator_effect : Body -> Location -> D -> outcome AnalysisError (list (BasicBlock * D))
}.

Definition join_all {D : Type} `{AbstractState D} (self : D) (others : list D) : D := foldl join self others.

(** ** [PointwiseState] *)

Record PointwiseState (D : Type) : Type := make_pointwise {
  state_before : gmap Location D;
  state_after_block : gmap BasicBlock (gmap BasicBlock D)
}.
#[global] Arguments make_pointwise {D} _ _.
#[global] Arguments state_before {D} _.
#[global] Arguments state_after_block {D} _.

Section Pointwise.
Context {D : Type}.
Implicit Types (self : PointwiseState D).

Definition new_pointwise : PointwiseState D := make_pointwise ∅ ∅.
Definition lookup_before self (location : Location) : option D := state_before self !! location.
Definition lookup_after self (location : Location) : option D := state_before self !! successor_within_block location.
Definition lookup_after_block self (block : BasicBlock) : option (gmap BasicBlock D) := state_after_block self !! block.

(** [lookup_mut_after_block] gives the map, which is empty at first; storing
    it is the second function. *)
Definition lookup_mut_after_block self (block : BasicBlock) : gmap BasicBlock D :=
  match state_after_block self !! block with Some map => map | None => ∅ end.
Definition set_after_block self (block : BasicBlock) (map : gmap BasicBlock D) : PointwiseState D :=
  make_pointwise (state_before self) (<[block := map]> (state_after_block self)).

Definition set_before self (location : Location) (state : D) : PointwiseState D :=
  make_pointwise (<[location := state]> (state_before self)) (state_after_block self).
End Pointwise.

(** ** [BTreeSet] of blocks *)

Fixpoint btree_insert (set : list BasicBlock) (bb : BasicBlock) : list BasicBlock :=
  match set with
  | [] => [bb]
  | bb' :: set' => if Nat.ltb bb bb' then bb :: set else if Nat.eqb bb bb' then set else bb' :: btree_insert set' bb
  end.

(** ** [Analyzer] *)

Section Analyzer.
Context {D : Type} `{AbstractState D}.
Context (mir : Body).


(** The state at the beginning of a block: what its predecessors give. *)
Definition join_predecessor (p_state : PointwiseState D) (bb : BasicBlock) (state : option D) (pred_bb : BasicBlock) : option D :=
  state ← state;
  match lookup_after_block p_state pred_bb with
  | Some map => s ← map !! bb; Some (join state s)
  | None => Some state
  end.

Definition entry_state (bb : BasicBlock) : D := if Nat.eqb bb START_BLOCK then new_initial mir else new_bottom mir.

Definition state_before_block (p_state : PointwiseState D) (bb : BasicBlock) : option D :=
  foldl (join_predecessor p_state bb) (Some (entry_state bb)) (predecessors mir bb).

Definition wrap_counter (z : Z) : Z := (z mod 2 ^ 32)%Z.

(** [counters.entry(bb).or_insert(0)], incremented. *)
Definition next_counter (counters : gmap BasicBlock Z) (bb : BasicBlock) : Z :=
  wrap_counter (match counters !! bb with Some c => c | None => 0 end + 1).

(** The effects of the statements from an index on. *)
Fixpoint apply_statements (bb : BasicBlock) (index count : nat) (p_state : PointwiseState D) (current_state : D) :
    outcome AnalysisError (PointwiseState D * D) :=
  match count with
  | 0 => Val (p_state, current_state)
  | S count =>
      let location := make_location bb index in
      next ← apply_statement_effect mir location current_state;
      apply_statements bb (S index) count (set_before p_state location current_state) next
  end.

(** States with the same destination are joined. *)
Definition add_next_state (new_map : gmap BasicBlock D) (next : BasicBlock * D) : gmap BasicBlock D :=
  let '(next_bb, state) := next in
  match new_map !! next_bb with
  | Some s => <[next_bb := join s state]> new_map
  | None => <[next_bb := state]> new_map
  end.

Definition next_states_map (next_states : list (BasicBlock * D)) : gmap BasicBlock D :=
  foldl add_next_state ∅ next_states.

Definition check_successors (location : Location) (succs : list BasicBlock) (new_map : gmap BasicBlock D) :
    outcome AnalysisError unit :=
  match List.find (fun next_bb => match new_map !! next_bb with Some _ => false | None => true end) succs with
  | Some next_bb => Err (SuccessorWithoutState location next_bb)
  | None => Val tt
  end.

(** The states on the edges: a successor whose state changes is added to the
    work set. *)
Definition update_successor (st : gmap BasicBlock D * gmap BasicBlock D * list BasicBlock) (next_bb : BasicBlock) :
    gmap BasicBlock D * gmap BasicBlock D * list BasicBlock :=
  let '(new_map, map_after_block, work_set) := st in
  match new_map !! next_bb with
  | Some s =>
      let prev_state := map_after_block !! next_bb in
      (delete next_bb new_map, <[next_bb := s]> map_after_block,
       if bool_decide (prev_state = Some s) then work_set else btree_insert work_set next_bb)
  | None => st
  end.

(** The state of the iteration. *)
Record Run : Type := make_run {
  p_state : PointwiseState D;
  work_set : list BasicBlock;
  counters : gmap BasicBlock Z
}.

(** What one block adds to the recorded states, and the states it passes on. *)
Definition apply_block (bb : BasicBlock) (data : BasicBlockData) (p_state : PointwiseState D) (state_before_block : D) :
    outcome AnalysisError (PointwiseState D * gmap BasicBlock D) :=
  r ← apply_statements bb 0 (length (statements data)) p_state state_before_block;
  let location := terminator_loc bb data in
  let p_state := set_before (fst r) location (snd r) in
  next_states ← apply_terminator_effect mir location (snd r);
  let new_map := next_states_map next_states in
  _ ← check_successors location (successors (terminator data)) new_map;
  Val (p_state, new_map).

Definition analyze_block (run : Run) (bb : BasicBlock) (rest : list BasicBlock) : outcome AnalysisError Run :=
  state ← unwrap (state_before_block (p_state run) bb);
  let counter := next_counter (counters run) bb in
  state ← (if need_to_widen counter
           then unwrap (previous ← lookup_before (p_state run) (make_location bb 0); widen state previous)
           else Val state);
  data ← unwrap (basic_blocks mir !! bb);
  r ← apply_block bb data (p_state run) state;
  let '(_, map_after_block, work_set) :=
    foldl update_successor (snd r, lookup_mut_after_block (fst r) bb, rest) (successors (terminator data)) in
  Val (make_run (set_after_block (fst r) bb map_after_block) work_set (<[bb := counter]> (counters run))).

Fixpoint run_loop (fuel : nat) (run : Run) : outcome AnalysisError (PointwiseState D) :=
  match work_set run with
  | [] => Val (p_state run)
  | bb :: rest =>
      match fuel with
      | 0 => Panic
      | S fuel => run ← analyze_block run bb rest; run_loop fuel run
      end
  end.

Definition initial_run : Run := make_run new_pointwise (block_indices mir) ∅.

Definition run_fwd_analysis (fuel : nat) : outcome AnalysisError (PointwiseState D) := run_loop fuel initial_run.
End Analyzer.
#[global] Arguments make_run {D} _ _ _.
#[global] Arguments p_state {D} _.
#[global] Arguments work_set {D} _.
#[global] Arguments counters {D} _.

(** ** Reaching definitions *)

Module ReachingDefs.
Inductive DefLocation : Type :=
  | Assignment (location : Location)
  | Parameter_ (index : nat).

#[export] Instance DefLocation_eq_dec : EqDecision DefLocation.
Proof. solve_decision. Defined.

#[export] Instance DefLocation_countable : Countable DefLocation :=
  inj_countable' (fun d => match d with Assignment l => inl l | Parameter_ i => inr i end)
    (fun x => match x with inl l => Assignment l | inr i => Parameter_ i end)
    (fun d => match d with Assignment _ | Parameter_ _ => eq_refl end).

(** [ReachingDefsState]. *)
Abbreviation State := (gmap Local (gset DefLocation)).

Section ReachingDefs.
Context `{MirCrate}.

Definition entry (self : State) (local : Local) : gset DefLocation :=
  match self !! local with Some set => set | None => ∅ end.

Definition new_bottom (mir : Body) : State := ∅.
Definition is_bottom (mir : Body) (self : State) : bool :=
  forallb (fun e : Local * gset DefLocation => bool_decide (snd e = ∅)) (map_to_list (K := Local) (M := gmap Local (gset DefLocation)) self).

Definition add_parameter (self : State) (parameter : nat * Local) : State :=
  <[snd parameter := {[Parameter_ (fst parameter)]} ∪ entry self (snd parameter)]> self.
Definition new_initial (mir : Body) : State :=
  foldl add_parameter ∅ (zip (seq 0 (arg_count mir)) (args_iter mir)).

Definition need_to_widen (counter : Z) : bool := false.

(** The entries of both states, the sets of common ones united. *)
Definition join (self other : State) : State := union_with (fun a b => Some (a ∪ b)) self other.

(** unimplemented! *)
Definition widen (self previous : State) : option State := None.

(** [clear] and [insert]. *)
Definition assign (self : State) (local : Local) (location : Location) : State :=
  <[local := {[Assignment location]}]> self.

(** [insert] only. *)
Definition may_assign (self : State) (local : Local) (location : Location) : State :=
  <[local := {[Assignment location]} ∪ entry self local]> self.

Definition assign_place (assign : State -> Local -> Location -> State) (self : State) (place : Place) (location : Location) : State :=
  match as_local place with
  | Some local => assign self local location
  | None => self
  end.

Definition statement_at (mir : Body) (location : Location) : option Statement :=
  data ← basic_blocks mir !! block location; statements data !! statement_index location.
Definition terminator_at (mir : Body) (location : Location) : option Terminator :=
  data ← basic_blocks mir !! block location; Some (terminator data).

Definition apply_statement_effect (mir : Body) (location : Location) (self : State) : outcome AnalysisError State :=
  stmt ← unwrap (statement_at mir location);
  Val (match stmt with
       | Assign target _ => assign_place assign self target location
       | OtherStatement => self
       end).

Definition apply_terminator_effect (mir : Body) (location : Location) (self : State) :
    outcome AnalysisError (list (BasicBlock * State)) :=
  term ← unwrap (terminator_at mir location);
  match term with
  | Call _ _ destination cleanup =>
      let dest := match destination with
                  | Some (place, bb) => [(bb, assign_place assign self place location)]
                  | None => []
                  end in
      let cleanup := match cleanup with
                     | Some bb =>
                         [(bb, match destination with
                               | Some (place, _) => assign_place may_assign self place location
                               | None => self
                               end)]
                     | None => []
                     end in
      Val (dest ++ cleanup)%list
  | InlineAsm _ => Err (UnsupportedStatement location)
  | _ => Val (map (fun bb => (bb, self)) (successors term))
  end.

#[export] Instance domain : AbstractState State := {|
  Analysis.new_bottom := new_bottom;
  Analysis.is_bottom := is_bottom;
  Analysis.new_initial := new_initial;
  Analysis.need_to_widen := need_to_widen;
  Analysis.join := join;
  Analysis.widen := widen;
  Analysis.apply_statement_effect := apply_statement_effect;
  Analysis.apply_terminator_effect := apply_terminator_effect
|}.
End ReachingDefs.
End ReachingDefs.

(** ** Definitely initialized places *)

Module DefinitelyInitialized.
(** [DefinitelyInitializedState]. *)
Abbreviation State := (gset Place).

Section DefinitelyInitialized.
Context `{MirCrate}.

Definition new_top : State := ∅.
Definition is_top (self : State) : bool := bool_decide (self = ∅).

Definition set_place_initialised (mir : Body) (self : State) (place : Place) : option State :=
  PlaceSet.insert_place false mir self place.

Definition set_place_uninitialised (mir : Body) (self : State) (place : Place) : option State :=
  places ← PlaceSet.remaining false mir self place;
  let self := list_to_set places : State in
  _ ← assert_ (PlaceSet.unrelated place (elements self));
  Some self.

Definition apply_operand_effect (mir : Body) (self : State) (operand : Operand) : option State :=
  match operand with
  | Move place => set_place_uninitialised mir self place
  | _ => Some self
  end.

Fixpoint apply_operands (mir : Body) (self : State) (operands : list Operand) : option State :=
  match operands with
  | [] => Some self
  | operand :: operands => self ← apply_operand_effect mir self operand; apply_operands mir self operands
  end.

Definition local_places (locals : list Local) : State := list_to_set (map place_of_local locals).

Definition new_bottom (mir : Body) : State := local_places (local_indices mir).

Definition is_bottom (mir : Body) (self : State) : bool :=
  if Nat.eqb (size self) (local_count mir)
  then forallb (fun local => bool_decide (place_of_local local ∈ self)) (local_indices mir)
  else false.

Definition new_initial (mir : Body) : State := local_places (args_iter mir).

Definition need_to_widen (counter : Z) : bool := false.

Definition join (self other : State) : State := PlaceSet.intersect self other.

(** unimplemented! *)
Definition widen (self previous : State) : option State := None.

(** The operands of the right hand side that may be moved. *)
Definition rvalue_operands (source : Rvalue) : list Operand :=
  match source with
  | Repeat operand | Cast operand | UnaryOp operand | Use operand => [operand]
  | BinaryOp operand1 operand2 | CheckedBinaryOp operand1 operand2 => [operand1; operand2]
  | Aggregate _ operands => operands
  | OtherRvalue => []
  end.

Definition apply_statement (mir : Body) (stmt : Statement) (self : State) : option State :=
  match stmt with
  | Assign target source =>
      self ← apply_operands mir self (rvalue_operands source);
      set_place_initialised mir self target
  | OtherStatement => Some self
  end.

Definition apply_statement_effect (mir : Body) (location : Location) (self : State) : outcome AnalysisError State :=
  unwrap (stmt ← ReachingDefs.statement_at mir location; apply_statement mir stmt self).

(** Imprecision for error states. *)
Definition error_state (bb : option BasicBlock) : list (BasicBlock * State) :=
  match bb with Some bb => [(bb, new_top)] | None => [] end.

Definition apply_terminator (mir : Body) (term : Terminator) (self : State) : option (list (BasicBlock * State)) :=
  match term with
  | SwitchInt discr _ =>
      new_state ← apply_operand_effect mir self discr;
      Some (map (fun bb => (bb, new_state)) (successors term))
  | Drop place target unwind =>
      new_state ← set_place_uninitialised mir self place;
      Some ((target, new_state) :: error_state unwind)
  | DropAndReplace place value target unwind =>
      new_state ← set_place_uninitialised mir self place;
      new_state ← apply_operand_effect mir new_state value;
      new_state ← set_place_initialised mir new_state place;
      Some ((target, new_state) :: error_state unwind)
  | Call func args destination cleanup =>
      new_state ← apply_operands mir self args;
      new_state ← apply_operand_effect mir new_state func;
      dest ← match destination with
             | Some (place, bb) => new_state ← set_place_initialised mir new_state place; Some [(bb, new_state)]
             | None => Some []
             end;
      Some (dest ++ error_state cleanup)%list
  | Assert cond target cleanup =>
      new_state ← apply_operand_effect mir self cond;
      Some ((target, new_state) :: error_state cleanup)
  | Yield value resume _ drop =>
      new_state ← apply_operand_effect mir self value;
      Some ((resume, new_state) :: error_state drop)
  | _ => Some (map (fun bb => (bb, self)) (successors term))
  end.

Definition apply_terminator_effect (mir : Body) (location : Location) (self : State) :
    outcome AnalysisError (list (BasicBlock * State)) :=
  term ← unwrap (ReachingDefs.terminator_at mir location);
  match term with
  | InlineAsm _ => Err (UnsupportedStatement location)
  | _ => unwrap (apply_terminator mir term self)
  end.

#[export] Instance domain : AbstractState State := {|
  Analysis.new_bottom := new_bottom;
  Analysis.is_bottom := is_bottom;
  Analysis.new_initial := new_initial;
  Analysis.need_to_widen := need_to_widen;
  Analysis.join := join;
  Analysis.widen := widen;
  Analysis.apply_statement_effect := apply_statement_effect;
  Analysis.apply_terminator_effect := apply_terminator_effect
|}.
End DefinitelyInitialized.
End DefinitelyInitialized.

#[export] Existing Instances ReachingDefs.domain DefinitelyInitialized.domain.

(** ** The results for the encoder *)

(** [common::AnalysisResult]. *)
Record AnalysisResult (T : Type) : Type := make_result {
  before_block : gmap BasicBlock T;
  after_statement : gmap Location T
}.
#[global] Arguments make_result {T} _ _.
#[global] Arguments before_block {T} _.
#[global] Arguments after_statement {T} _.

Definition new_result {T} : AnalysisResult T := make_result ∅ ∅.
Definition get_before_block {T} (self : AnalysisResult T) (bb : BasicBlock) : option T := before_block self !! bb.
Definition get_after_statement {T} (self : AnalysisResult T) (location : Location) : option T := after_statement self !! location.

Section Initialization.
Context `{MirCrate}.
Abbreviation State := (gset Place).
Abbreviation Result := (AnalysisResult State).

Definition insert_before (r : Result) (bb : BasicBlock) (state : State) : Result :=
  make_result (<[bb := state]> (before_block r)) (after_statement r).
Definition insert_after (r : Result) (location : Location) (state : State) : Result :=
  make_result (before_block r) (<[location := state]> (after_statement r)).

(** The states after the statements of a block. *)
Fixpoint insert_statements (p : PointwiseState State) (r : Result) (location : Location) (count : nat) : option Result :=
  match count with
  | 0 => Some r
  | S count =>
      state ← lookup_after p location;
      insert_statements p (insert_after r location state) (successor_within_block location) count
  end.

(** The states of all outgoing edges joined. *)
Definition state_after_edges (body : Body) (states : list State) : State :=
  match states with
  | [] => DefinitelyInitialized.new_bottom body
  | state :: states => foldl DefinitelyInitialized.join state states
  end.

Definition convert_block (body : Body) (p : PointwiseState State) (r : option Result) (block : BasicBlock * BasicBlockData) :
    option Result :=
  r ← r;
  let '(bb, data) := block in
  before ← lookup_before p (make_location bb 0);
  r ← insert_statements p (insert_before r bb before) (make_location bb 0) (length (statements data));
  after ← lookup_after_block p bb;
  Some (insert_after r (terminator_loc bb data)
    (state_after_edges body (map snd (map_to_list (K := BasicBlock) (M := gmap BasicBlock State) after)))).

(** An error of the analysis is a panic. *)
Definition compute_definitely_initialized (fuel : nat) (body : Body) : option Result :=
  match run_fwd_analysis (D := State) body fuel with
  | Val p => foldl (convert_block body p) (Some new_result) (imap (fun bb data => (bb, data)) (basic_blocks body))
  | _ => None
  end.
End Initialization.
