(* ===== verification/AnalysisFacts.v ===== *)
(** * What the analyzer computes

    When the analyzer ends, the states it recorded solve the equations of the
    analysis: the state before a block is the join over the edges into it,
    each statement and each terminator maps the state before it to the state
    after it.  Over a domain of finite height with monotone effects it does
    end; the reaching definitions are such a domain. *)

From stdpp Require Import gmap list.
From S2P Require Import Prelude Mir Places PlacesFacts Analysis.

(** ** Outcomes *)

Lemma bind_Val {E A B} (m : outcome E A) (f : A -> outcome E B) b :
  (x ← m; f x) = Val b -> exists a, m = Val a /\ f a = Val b.
Proof. destruct m; try done. eauto. Qed.

Lemma unwrap_Val {E A} (o : option A) (a : A) : unwrap (E := E) o = Val a -> o = Some a.
Proof. destruct o; [by intros [= ->]|done]. Qed.

Lemma btree_insert_elem set bb x : x ∈ btree_insert set bb <-> x = bb \/ x ∈ set.
Proof.
  induction set as [|y set IH]; cbn [btree_insert]; [set_solver|].
  destruct (Nat.ltb_spec bb y); [set_solver|].
  destruct (Nat.eqb_spec bb y) as [->|]; rewrite ?elem_of_cons, ?IH; set_solver.
Qed.

Lemma btree_insert_length set bb : length (btree_insert set bb) <= S (length set).
Proof.
  induction set as [|y set IH]; cbn [btree_insert]; [done|]. destruct (Nat.ltb bb y); [done|]. destruct (Nat.eqb bb y); cbn [length]; lia.
Qed.

(** ** The equations *)

Section Solution.
Context `{MirCrate} {D : Type} `{!AbstractState D} (mir : Body).
Implicit Types (p : PointwiseState D) (bb t : BasicBlock).

(** The state on an edge. *)
Definition edge p bb t : option D := m ← state_after_block p !! bb; m !! t.

(** The states on the edges into a block. *)
Definition incoming p bb : list D := omap (fun pred => edge p pred bb) (predecessors mir bb).
Definition input p bb : D := foldl join (entry_state mir bb) (incoming p bb).

(** The states that a terminator gives to one successor, joined. *)
Definition joined (next : list (BasicBlock * D)) t : option D :=
  match List.filter (fun e => Nat.eqb (fst e) t) next with
  | [] => None
  | e :: rest => Some (foldl join (snd e) (map snd rest))
  end.

Record solves p bb (data : BasicBlockData) : Prop := {
  solves_input : lookup_before p (make_location bb 0) = Some (input p bb);
  solves_statement : forall i, i < length (statements data) -> exists s s',
    lookup_before p (make_location bb i) = Some s /\ apply_statement_effect mir (make_location bb i) s = Val s'
    /\ lookup_before p (make_location bb (S i)) = Some s';
  solves_terminator : exists s next, lookup_before p (terminator_loc bb data) = Some s
    /\ apply_terminator_effect mir (terminator_loc bb data) s = Val next
    /\ forall t, t ∈ successors (terminator data) -> exists s', edge p bb t = Some s' /\ joined next t = Some s'
}.

(** The states recorded from an index on. *)
Fixpoint recorded p bb (index count : nat) (current out : D) : Prop :=
  match count with
  | 0 => current = out
  | S count => lookup_before p (make_location bb index) = Some current
      /\ exists next, apply_statement_effect mir (make_location bb index) current = Val next /\ recorded p bb (S index) count next out
  end.

Lemma recorded_ext p p' bb index count current out :
  (forall i, index <= i < index + count -> lookup_before p' (make_location bb i) = lookup_before p (make_location bb i)) ->
  recorded p bb index count current out -> recorded p' bb index count current out.
Proof.
  revert index current. induction count as [|count IH]; intros index current Hp; [done|]. cbn.
  intros (Hc & next & Hn & Hr). split; [by rewrite Hp by lia|]. exists next. split; [done|]. apply IH; [|done].
  intros i Hi. apply Hp. lia.
Qed.

Lemma recorded_at p bb out : forall count index current, recorded p bb index count current out ->
  lookup_before p (make_location bb (index + count)) = Some out ->
  lookup_before p (make_location bb index) = Some current /\
  forall i, index <= i < index + count -> exists s s', lookup_before p (make_location bb i) = Some s
    /\ apply_statement_effect mir (make_location bb i) s = Val s' /\ lookup_before p (make_location bb (S i)) = Some s'.
Proof.
  induction count as [|count IH]; intros index current; cbn.
  - intros <-. rewrite Nat.add_0_r. intros Hc. split; [done|]. intros i Hi. lia.
  - intros (Hc & next & Hn & Hr) Ho. split; [done|]. rewrite Nat.add_succ_r in Ho.
    destruct (IH (S index) next Hr Ho) as [Hnext Hrest]. intros i Hi. destruct (decide (i = index)) as [->|Hne].
    + by exists current, next.
    + apply Hrest. lia.
Qed.

(** *** One block *)

Lemma apply_statements_spec bb : forall count index p current p' out,
  apply_statements mir bb index count p current = Val (p', out) ->
  state_after_block p' = state_after_block p
  /\ (forall l, block l <> bb \/ statement_index l < index -> lookup_before p' l = lookup_before p l)
  /\ recorded p' bb index count current out.
Proof.
  induction count as [|count IH]; intros index p current p' out; cbn [apply_statements]; [by intros [= <- <-]|].
  intros (next & Hn & E)%bind_Val. destruct (IH _ _ _ _ _ E) as (Ha & Hb & Hr). split_and!; [done| |cbn; split].
  - intros l Hl. rewrite Hb by (destruct Hl; [by left|right; lia]). unfold lookup_before. cbn. apply lookup_insert_ne.
    intros <-. cbn in Hl. lia.
  - rewrite Hb by (right; cbn; lia). unfold lookup_before. cbn. apply lookup_insert_eq.
  - by exists next.
Qed.

Lemma joined_snoc next e t : joined (next ++ [e]) t =
  if Nat.eqb (fst e) t then Some (match joined next t with Some s => join s (snd e) | None => snd e end) else joined next t.
Proof.
  unfold joined in *. rewrite List.filter_app. cbn [List.filter].
  destruct (Nat.eqb (fst e) t); destruct (List.filter _ next) as [|e' rest]; cbn; rewrite ?map_app, ?foldl_app, ?app_nil_r; done.
Qed.

Lemma next_states_map_spec next t : next_states_map next !! t = joined next t.
Proof.
  induction next as [|[bb s] next IH] using rev_ind; [done|]. rewrite joined_snoc. cbn [fst snd]. rewrite <- IH. clear IH.
  unfold next_states_map. rewrite foldl_app. generalize (foldl add_next_state ∅ next). intros m. cbn. destruct (Nat.eqb_spec bb t) as [->|Hne].
  - destruct (m !! t); apply lookup_insert_eq.
  - case_match; by rewrite lookup_insert_ne.
Qed.

Lemma check_successors_spec loc succs (m : gmap BasicBlock D) u :
  check_successors loc succs m = Val u -> forall t, t ∈ succs -> is_Some (m !! t).
Proof.
  unfold check_successors. destruct (List.find _ _) eqn:E; [done|]. intros _ t Ht%list_elem_of_In.
  pose proof (List.find_none _ _ E t Ht) as Hn. cbn in Hn. destruct (m !! t); [by eexists|done].
Qed.

Lemma apply_block_spec bb data p s p' m : apply_block mir bb data p s = Val (p', m) ->
  exists out next, state_after_block p' = state_after_block p
  /\ (forall l, block l <> bb -> lookup_before p' l = lookup_before p l)
  /\ recorded p' bb 0 (length (statements data)) s out
  /\ lookup_before p' (terminator_loc bb data) = Some out
  /\ apply_terminator_effect mir (terminator_loc bb data) out = Val next
  /\ m = next_states_map next /\ forall t, t ∈ successors (terminator data) -> is_Some (m !! t).
Proof.
  unfold apply_block. intros ([p1 out] & E1 & (next & E2 & (u & E3 & [= <- <-])%bind_Val)%bind_Val)%bind_Val.
  destruct (apply_statements_spec _ _ _ _ _ _ _ E1) as (Ha & Hb & Hr). exists out, next. cbn [fst snd] in *. split_and!; try done.
  - intros l Hl. rewrite <- (Hb l) by (by left). unfold lookup_before. cbn. apply lookup_insert_ne. intros <-. by cbn in Hl.
  - eapply recorded_ext, Hr. intros i Hi. unfold lookup_before. cbn. apply lookup_insert_ne. intros [=]. lia.
  - unfold lookup_before. cbn. apply lookup_insert_eq.
  - by eapply check_successors_spec.
Qed.

(** *** The edges *)

Lemma update_successors_spec succs : forall (nm ma nm' ma' : gmap BasicBlock D) ws ws',
  foldl update_successor (nm, ma, ws) succs = (nm', ma', ws') ->
  (forall t, ma' !! t = if bool_decide (t ∈ succs) then match nm !! t with Some s => Some s | None => ma !! t end else ma !! t)
  /\ (forall x, x ∈ ws' <-> x ∈ ws \/ (x ∈ succs /\ is_Some (nm !! x) /\ nm !! x <> ma !! x)).
Proof.
  induction succs as [|t succs IH]; intros nm ma nm' ma' ws ws'; cbn [foldl].
  { intros [= <- <- <-]. split; [done|]. set_solver. }
  unfold update_successor at 2. destruct (nm !! t) as [s|] eqn:Et; intros [Hma Hws]%IH.
  - split.
    + intros x. rewrite Hma. destruct (decide (x = t)) as [->|Hne].
      * rewrite lookup_delete_eq, lookup_insert_eq, Et, (bool_decide_eq_true_2 (t ∈ t :: succs)) by (by left). by destruct (bool_decide (t ∈ succs)).
      * rewrite lookup_delete_ne, lookup_insert_ne by done. rewrite (bool_decide_ext (x ∈ t :: succs) (x ∈ succs)); [done|].
        rewrite elem_of_cons. naive_solver.
    + intros x. rewrite Hws, elem_of_cons. destruct (decide (x = t)) as [->|Hne].
      * rewrite lookup_delete_eq, Et. case_bool_decide as E.
        -- rewrite E. naive_solver.
        -- rewrite btree_insert_elem. split; [intros _|naive_solver]. right. split_and!; [by left|by eexists|congruence].
      * rewrite lookup_delete_ne, lookup_insert_ne by done. case_bool_decide; [|rewrite btree_insert_elem]; naive_solver.
  - split.
    + intros x. rewrite Hma. destruct (decide (x = t)) as [->|Hne].
      * rewrite Et. by repeat case_bool_decide.
      * rewrite (bool_decide_ext (x ∈ t :: succs) (x ∈ succs)); [done|]. rewrite elem_of_cons. naive_solver.
    + intros x. rewrite Hws, elem_of_cons. destruct (decide (x = t)) as [->|Hne]; [|naive_solver].
      rewrite Et. split; [intros [?|(_ & [? ?] & _)]; [by left|done]|intros [?|(_ & [? ?] & _)]; [by left|done]].
Qed.
(** *** The iteration *)

Lemma edge_after p bb t : edge p bb t = lookup_mut_after_block p bb !! t.
Proof. unfold edge, lookup_mut_after_block. by destruct (state_after_block p !! bb). Qed.

Lemma state_before_block_spec p bb s : state_before_block mir p bb = Some s -> s = input p bb.
Proof.
  unfold state_before_block, input, incoming. generalize (entry_state mir bb). induction (predecessors mir bb) as [|pred preds IH]; intros e; cbn.
  { by intros [= ->]. }
  unfold lookup_after_block, edge. destruct (state_after_block p !! pred) as [m|] eqn:E; cbn; [|apply IH].
  destruct (m !! bb) as [x|]; cbn; [apply IH|]. intros Hn. exfalso. revert Hn. clear. induction preds as [|q preds IH]; cbn; [done|apply IH].
Qed.

(** What a visit of a block does to the states. *)
Record visited (run run' : Run) bb (rest : list BasicBlock) (data : BasicBlockData) (s : D) (nm : gmap BasicBlock D) : Prop := {
  visited_effect : exists p', apply_block mir bb data (p_state run) s = Val (p', nm);
  visited_elsewhere : forall l, block l <> bb -> lookup_before (p_state run') l = lookup_before (p_state run) l;
  visited_other_blocks : forall b, b <> bb -> state_after_block (p_state run') !! b = state_after_block (p_state run) !! b;
  visited_edges : forall t, t ∈ successors (terminator data) -> is_Some (nm !! t) /\ edge (p_state run') bb t = nm !! t;
  visited_fold : exists nm' ma ma', foldl update_successor (nm, ma, rest) (successors (terminator data)) = (nm', ma', work_set run')
    /\ (forall t, ma !! t = edge (p_state run) bb t) /\ (forall t, ma' !! t = edge (p_state run') bb t);
  visited_work_set : forall b, b ∈ work_set run' <->
    b ∈ rest \/ (b ∈ successors (terminator data) /\ nm !! b <> edge (p_state run) bb b);
  visited_recorded : exists out next, recorded (p_state run') bb 0 (length (statements data)) s out
    /\ lookup_before (p_state run') (terminator_loc bb data) = Some out
    /\ apply_terminator_effect mir (terminator_loc bb data) out = Val next /\ forall t, nm !! t = joined next t
}.

Hypothesis no_widening : forall c, need_to_widen c = false.

Lemma analyze_block_spec (run run' : Run) bb rest : analyze_block mir run bb rest = Val run' ->
  exists data nm, basic_blocks mir !! bb = Some data /\ visited run run' bb rest data (input (p_state run) bb) nm.
Proof.
  unfold analyze_block. intros (s & Es%unwrap_Val & E)%bind_Val. apply state_before_block_spec in Es as ->. revert E.
  cbv zeta. rewrite no_widening. intros (s & [= <-] & (data & Ed%unwrap_Val & ([p1 nm] & Eb & E)%bind_Val)%bind_Val)%bind_Val.
  exists data, nm. split; [done|]. cbn [fst snd] in E.
  destruct (foldl update_successor _ _) as [[nm' ma'] ws'] eqn:Ef. injection E as <-.
  destruct (update_successors_spec _ _ _ _ _ _ _ Ef) as [Hma Hws].
  destruct (apply_block_spec _ _ _ _ _ _ Eb) as (out & next & Ha & Hl & Hr & Ho & Hn & -> & Hs).
  assert (Hpre : forall t, lookup_mut_after_block p1 bb !! t = edge (p_state run) bb t).
  { intros t. rewrite edge_after. unfold lookup_mut_after_block. by rewrite Ha. }
  split; cbn [p_state work_set].
  - by exists p1.
  - intros l Hb. by rewrite <- (Hl l).
  - intros b Hb. cbn. by rewrite lookup_insert_ne, Ha.
  - intros t Ht. split; [by apply Hs|]. unfold edge. cbn. rewrite lookup_insert_eq. cbn. rewrite Hma, bool_decide_eq_true_2 by done.
    by destruct (Hs t Ht) as [? ->].
  - eexists _, _, _. split; [exact Ef|]. split; [exact Hpre|]. intros t. unfold edge. cbn. by rewrite lookup_insert_eq.
  - intros b. rewrite Hws, Hpre. split; (intros [?|Hb]; [by left|right]); [naive_solver|]. destruct Hb as [Hb ?]. auto.
  - exists out, next. split_and!; try done; [by eapply recorded_ext, Hr|]. intros t. apply next_states_map_spec.
Qed.

Lemma visited_other_edges run run' bb rest data s nm b t : visited run run' bb rest data s nm -> b <> bb ->
  edge (p_state run') b t = edge (p_state run) b t.
Proof. intros Hv Hb. unfold edge. by rewrite (visited_other_blocks _ _ _ _ _ _ _ Hv). Qed.

(** A block that is not in the work set has the input it was visited with. *)
Lemma visited_input `{!MirLaws} (run run' : Run) bb rest data s nm b :
  basic_blocks mir !! bb = Some data -> visited run run' bb rest data s nm -> b ∉ work_set run' ->
  input (p_state run') b = input (p_state run) b.
Proof.
  intros Ed Hv Hb. unfold input, incoming. f_equal.
  assert (Hp : forall pred, pred ∈ predecessors mir b -> edge (p_state run') pred b = edge (p_state run) pred b).
  { intros pred (data' & E' & Hin)%predecessors_spec. destruct (decide (pred = bb)) as [->|Hne]; [|by eapply visited_other_edges].
    assert (data' = data) as -> by congruence. rewrite (proj2 (visited_edges _ _ _ _ _ _ _ Hv b Hin)).
    destruct (decide (nm !! b = edge (p_state run) bb b)) as [|Hne]; [done|]. contradict Hb. apply Hv. right. done. }
  revert Hp. induction (predecessors mir b) as [|q preds IH]; intros Hp; [done|]. cbn.
  rewrite (Hp q) by (by left). rewrite IH; [done|]. intros q' Hq'. apply Hp. by right.
Qed.

Definition consistent (run : Run) : Prop :=
  forall bb data, basic_blocks mir !! bb = Some data -> bb ∈ work_set run \/ solves (p_state run) bb data.

Lemma analyze_block_consistent `{!MirLaws} (run run' : Run) bb rest : work_set run = bb :: rest ->
  analyze_block mir run bb rest = Val run' -> consistent run -> consistent run'.
Proof.
  intros Ews (data & nm & Ed & Hv)%analyze_block_spec Hc b data' Eb.
  destruct (decide (b ∈ work_set run')) as [|Hb]; [by left|right]. pose proof (visited_input _ _ _ _ _ _ _ _ Ed Hv Hb) as Hi.
  destruct (decide (b = bb)) as [->|Hne].
  - assert (data' = data) as -> by congruence. destruct (visited_recorded _ _ _ _ _ _ _ Hv) as (out & next & Hr & Ho & Hn & Hj).
    destruct (recorded_at _ _ _ _ _ _ Hr Ho) as [Hi0 Hi']. split.
    + by rewrite Hi.
    + intros i Hlt. apply Hi'. lia.
    + exists out, next. split_and!; [done..|]. intros t Ht. destruct (visited_edges _ _ _ _ _ _ _ Hv t Ht) as [[x Hx] He].
      exists x. by rewrite <- Hj, He.
  - destruct (Hc b data' Eb) as [Hin|[H1 H2 H3]].
    { contradict Hb. apply Hv. left. rewrite Ews in Hin. by apply elem_of_cons in Hin as [->|]. }
    assert (Hl : forall i, lookup_before (p_state run') (make_location b i) = lookup_before (p_state run) (make_location b i)) by (intros i; by apply Hv).
    split.
    + by rewrite Hl, Hi.
    + intros i. rewrite !Hl. apply H2.
    + unfold terminator_loc in *. destruct H3 as (s & next & Hs & Hn & He). exists s, next. rewrite Hl. split_and!; [done..|].
      intros t Ht. rewrite (visited_other_edges _ _ _ _ _ _ _ b t Hv) by done. by apply He.
Qed.

Lemma run_loop_consistent `{!MirLaws} fuel : forall run p, consistent run -> run_loop mir fuel run = Val p ->
  forall bb data, basic_blocks mir !! bb = Some data -> solves p bb data.
Proof.
  induction fuel as [|fuel IH]; intros run p Hc; cbn [run_loop]; destruct (work_set run) as [|bb rest] eqn:Ews.
  1,3: intros [= <-] bb data E; destruct (Hc bb data E) as [Hin|]; [|done]; rewrite Ews in Hin; by apply not_elem_of_nil in Hin.
  - done.
  - intros (run' & Ev & El)%bind_Val. eapply IH, El. by eapply analyze_block_consistent.
Qed.

(** *** Errors *)

Lemma joined_is_Some next t x : (t, x) ∈ next -> is_Some (joined next t).
Proof.
  intros Hx. unfold joined in *. assert (Hf : (t, x) ∈ List.filter (fun e => Nat.eqb (fst e) t) next).
  { apply list_elem_of_In, filter_In. split; [by apply list_elem_of_In|]. apply Nat.eqb_refl. }
  destruct (List.filter _ next); [by apply not_elem_of_nil in Hf|by eexists].
Qed.

(** Effects without errors that give every successor a state. *)
Record no_errors : Prop := {
  statement_no_error : forall l s e, apply_statement_effect mir l s <> Err e;
  terminator_no_error : forall bb data s e, basic_blocks mir !! bb = Some data -> apply_terminator_effect mir (terminator_loc bb data) s <> Err e;
  terminator_covers : forall bb data s next t, basic_blocks mir !! bb = Some data ->
    apply_terminator_effect mir (terminator_loc bb data) s = Val next -> t ∈ successors (terminator data) -> exists x, (t, x) ∈ next
}.

Lemma apply_statements_no_error bb : no_errors -> forall count index p s e, apply_statements mir bb index count p s <> Err e.
Proof.
  intros Hn. induction count as [|count IH]; intros index p s e; [done|]. cbn [apply_statements].
  pose proof (statement_no_error Hn (make_location bb index) s) as Hs.
  destruct (apply_statement_effect _ _ _) as [s'|e'|]; cbn; [apply IH|by destruct (Hs e')|done].
Qed.

Lemma analyze_block_no_error (run : Run) bb rest e : no_errors -> analyze_block mir run bb rest <> Err e.
Proof.
  intros Hn. unfold analyze_block. destruct (state_before_block _ _ _) as [s|]; cbn -[lookup]; [|done]. rewrite no_widening. cbn -[lookup].
  destruct (basic_blocks mir !! bb) as [data|] eqn:E; cbn; [|done]. unfold apply_block.
  pose proof (apply_statements_no_error bb Hn (length (statements data)) 0 (p_state run) s) as Hs.
  destruct (apply_statements _ _ _ _ _ _) as [r|e'|]; cbn; [|by destruct (Hs e')|done].
  pose proof (terminator_no_error Hn bb data (snd r)) as Ht. pose proof (terminator_covers Hn bb data (snd r)) as Hc.
  destruct (apply_terminator_effect _ _ _) as [next|e'|]; cbn; [|by destruct (Ht e' E)|done].
  unfold check_successors. destruct (List.find _ _) as [t|] eqn:Ef; cbn; [|by destruct (foldl _ _ _) as [[? ?] ?]].
  apply List.find_some in Ef as [Hin Hf]. apply list_elem_of_In in Hin. destruct (Hc next t E eq_refl Hin) as [x Hx].
  destruct (joined_is_Some _ _ _ Hx) as [y Hy]. rewrite next_states_map_spec in Hf. cbn in Hf. by rewrite Hy in Hf.
Qed.

Lemma run_fwd_analysis_no_error fuel e : no_errors -> run_fwd_analysis (D := D) mir fuel <> Err e.
Proof.
  intros Hn. unfold run_fwd_analysis. generalize (initial_run (D := D) mir). induction fuel as [|fuel IH]; intros run; cbn [run_loop];
    destruct (work_set run) as [|bb rest]; try done.
  pose proof (analyze_block_no_error run bb rest) as Hv. destruct (analyze_block _ _ _ _) as [run'|e'|]; cbn; [apply IH|by destruct (Hv e' Hn)|done].
Qed.

Lemma run_fwd_analysis_solved `{!MirLaws} fuel p : run_fwd_analysis mir fuel = Val p ->
  forall bb data, basic_blocks mir !! bb = Some data -> solves p bb data.
Proof.
  apply run_loop_consistent. intros bb data E. left. apply elem_of_seq. apply lookup_lt_Some in E. lia.
Qed.
End Solution.

(** ** Sums *)

Lemma sum_le {A} (f g : A -> nat) l : (forall x, x ∈ l -> f x <= g x) -> list_sum (map f l) <= list_sum (map g l).
Proof.
  unfold list_sum. induction l as [|y l IH]; intros Hfg; cbn; [done|]. pose proof (Hfg y ltac:(by left)).
  pose proof (IH (fun x Hx => Hfg x ltac:(by right))). lia.
Qed.

Lemma sum_lt {A} (f g : A -> nat) l y : y ∈ l -> (forall x, f x <= g x) -> f y < g y ->
  list_sum (map f l) < list_sum (map g l).
Proof.
  unfold list_sum. intros Hy Hfg Hlt. induction l as [|x l IH]; [by apply not_elem_of_nil in Hy|]. cbn.
  pose proof (sum_le f g l (fun x _ => Hfg x)). unfold list_sum in *. pose proof (Hfg x).
  apply elem_of_cons in Hy as [->|Hy]; [lia|]. specialize (IH Hy). lia.
Qed.

(** A sum in which one summand changes. *)
Lemma sum_change {A} `{EqDecision A} (f g : A -> nat) l y a b : NoDup l -> y ∈ l -> (forall x, x <> y -> f x = g x) ->
  f y + a <= g y + b -> list_sum (map f l) + a <= list_sum (map g l) + b.
Proof.
  intros Hnd Hy Hfg Hle. unfold list_sum. induction l as [|x l IH]; [by apply not_elem_of_nil in Hy|]. apply NoDup_cons in Hnd as [Hx Hnd]. cbn.
  destruct (decide (x = y)) as [->|Hne].
  - assert (map f l = map g l) as ->; [|lia]. apply map_ext_in. intros z Hz%list_elem_of_In. apply Hfg. by intros ->.
  - rewrite (Hfg x) by done. apply elem_of_cons in Hy as [->|Hy]; [done|]. pose proof (IH Hnd Hy). lia.
Qed.

(** ** Domains of finite height *)

Class FiniteHeight `{MirCrate} (D : Type) `{!AbstractState D} (mir : Body) (le : D -> D -> Prop) (valid : D -> Prop)
    (rank : D -> nat) (height : nat) : Prop := {
  le_pre :: PreOrder le;
  valid_initial : valid (new_initial mir);
  valid_bottom : valid (new_bottom mir);
  valid_join : forall a b, valid a -> valid b -> valid (join a b);
  rank_bound : forall a, valid a -> rank a <= height;
  rank_strict : forall a b, valid a -> valid b -> le a b -> a <> b -> rank a < rank b;
  join_ascending_l : forall a b, le a (join a b);
  join_ascending_r : forall a b, le b (join a b);
  join_monotone : forall a a' b b', le a a' -> le b b' -> le (join a b) (join a' b');
  no_widening_ever : forall c, need_to_widen c = false;
  statement_total : forall bb data i s, basic_blocks mir !! bb = Some data -> i < length (statements data) -> valid s ->
    apply_statement_effect mir (make_location bb i) s <> Panic;
  statement_valid : forall l s s', valid s -> apply_statement_effect mir l s = Val s' -> valid s';
  statement_monotone : forall l a b a', valid a -> valid b -> le a b -> apply_statement_effect mir l a = Val a' ->
    forall b', apply_statement_effect mir l b = Val b' -> le a' b';
  terminator_total : forall bb data s, basic_blocks mir !! bb = Some data -> valid s ->
    apply_terminator_effect mir (terminator_loc bb data) s <> Panic;
  terminator_valid : forall bb data s next, basic_blocks mir !! bb = Some data -> valid s ->
    apply_terminator_effect mir (terminator_loc bb data) s = Val next -> Forall (fun e => valid (snd e)) next;
  terminator_monotone : forall l a b next, valid a -> valid b -> le a b -> apply_terminator_effect mir l a = Val next ->
    forall next', apply_terminator_effect mir l b = Val next' -> Forall2 (fun e e' => fst e = fst e' /\ le (snd e) (snd e')) next next'
}.

Section Terminates.
Context `{MirLaws} {D : Type} `{!AbstractState D} (mir : Body).
Context {le : D -> D -> Prop} {valid : D -> Prop} {rank : D -> nat} {height : nat} `{!FiniteHeight D mir le valid rank height}.
Implicit Types (p : PointwiseState D) (bb t : BasicBlock).

(** Optional states: an edge without a state is below every edge. *)
Definition le_edge (a b : option D) : Prop :=
  match a with Some a => exists b', b = Some b' /\ le a b' | None => True end.

Lemma le_edge_refl a : le_edge a a.
Proof. destruct a; cbn; [|done]. eexists. by split. Qed.

Lemma le_edge_trans a b c : le_edge a b -> le_edge b c -> le_edge a c.
Proof.
  destruct a as [a|]; [|done]. intros (b' & -> & Hab). cbn. intros (c' & -> & Hbc). eexists. split; [done|]. by trans b'.
Qed.

Definition opt_valid (a : option D) : Prop := match a with Some a => valid a | None => True end.

Lemma foldl_join_ascending l : forall a, le a (foldl join a l).
Proof. induction l as [|x l IH]; intros a; cbn; [done|]. trans (join a x); [by apply join_ascending_l|apply IH]. Qed.

Lemma foldl_join_upper l x : x ∈ l -> forall a, le x (foldl join a l).
Proof.
  induction l as [|y l IH]; [by intros ?%not_elem_of_nil|]. intros [->|Hx]%elem_of_cons a; cbn; [|by apply IH].
  trans (join a y); [apply join_ascending_r|apply foldl_join_ascending].
Qed.

Lemma foldl_join_valid l : Forall valid l -> forall a, valid a -> valid (foldl join a l).
Proof. induction 1; intros a Ha; cbn; [done|]. by apply IHForall, valid_join. Qed.

Lemma foldl_join_monotone l l' : Forall2 le l l' -> forall a a', le a a' -> le (foldl join a l) (foldl join a' l').
Proof. induction 1; intros a a' Ha; cbn; [done|]. by apply IHForall2, join_monotone. Qed.

(** More states give more. *)
Lemma omap_join_monotone (f g : BasicBlock -> option D) l : (forall x, x ∈ l -> le_edge (f x) (g x)) ->
  forall a a', le a a' -> le (foldl join a (omap f l)) (foldl join a' (omap g l)).
Proof.
  induction l as [|x l IH]; intros Hfg a a' Ha; [done|]. cbn.
  pose proof (IH (fun y Hy => Hfg y ltac:(by right))) as IH'. pose proof (Hfg x ltac:(by left)) as Hx.
  destruct (f x) as [fx|]; cbn in *.
  - destruct Hx as (gx & -> & Hx). apply IH'. by apply join_monotone.
  - destruct (g x) as [gx|]; [|by apply IH']. apply IH'. trans a'; [done|apply join_ascending_l].
Qed.

(** *** The effect of a block *)

Lemma recorded_monotone bb : forall count p p' index a b out out',
  valid a -> valid b -> le a b -> recorded mir p bb index count a out -> recorded mir p' bb index count b out' ->
  valid out /\ valid out' /\ le out out'.
Proof.
  induction count as [|count IH]; intros p p' index a b out out' Ha Hb Hab; cbn.
  - by intros <- <-.
  - intros (_ & a' & Ea & Hra) (_ & b' & Eb & Hrb). eapply (IH p p' (S index) a' b'); [| | |done|done].
    + by eapply statement_valid, Ea.
    + by eapply statement_valid, Eb.
    + exact (statement_monotone _ a b a' Ha Hb Hab Ea _ Eb).
Qed.

Lemma joined_valid next t : Forall (fun e => valid (snd e)) next -> opt_valid (joined next t).
Proof.
  intros Hn. induction next as [|e next IH] using rev_ind; [done|]. apply Forall_app in Hn as [Hn He].
  apply Forall_cons in He as [He _]. rewrite joined_snoc. destruct (Nat.eqb _ _); [|by apply IH]. specialize (IH Hn).
  destruct (joined next t); cbn in *; [by apply valid_join|done].
Qed.

Lemma joined_monotone next next' t : Forall2 (fun e e' => fst e = fst e' /\ le (snd e) (snd e')) next next' ->
  le_edge (joined next t) (joined next' t).
Proof.
  revert next'. induction next as [|e next IH] using rev_ind; intros next'.
  { intros _. exact I. }
  intros (next0 & l & Hn & (e' & l' & [He Hle] & ->%Forall2_nil_inv_l & ->)%Forall2_cons_inv_l & ->)%Forall2_app_inv_l.
  rewrite !joined_snoc, <- He. specialize (IH _ Hn). destruct (Nat.eqb _ _); [|done].
  destruct (joined next t) as [s|]; cbn in *.
  - destruct IH as (s' & -> & Hs). eexists. split; [done|]. by apply join_monotone.
  - eexists. split; [done|]. destruct (joined next0 t); [|done]. trans (snd e'); [done|apply join_ascending_r].
Qed.

Lemma joined_upper next t s x : joined next t = Some s -> (t, x) ∈ next -> le x s.
Proof.
  intros Ej Hx. unfold joined in *. assert (Hf : (t, x) ∈ List.filter (fun e => Nat.eqb (fst e) t) next).
  { apply list_elem_of_In, filter_In. split; [by apply list_elem_of_In|]. apply Nat.eqb_refl. }
  destruct (List.filter _ next) as [|e rest]; [done|]. injection Ej as <-. apply elem_of_cons in Hf as [<-|Hr].
  - apply foldl_join_ascending.
  - apply foldl_join_upper. apply list_elem_of_fmap. by exists (t, x).
Qed.

(** A state before a block and the states it passes on. *)
Definition gives bb (data : BasicBlockData) (s : D) (nm : gmap BasicBlock D) : Prop :=
  exists p out next, recorded mir p bb 0 (length (statements data)) s out
    /\ apply_terminator_effect mir (terminator_loc bb data) out = Val next /\ forall t, nm !! t = joined next t.

Lemma gives_valid bb data s nm t : basic_blocks mir !! bb = Some data -> valid s -> gives bb data s nm -> opt_valid (nm !! t).
Proof.
  intros E Hs (p & out & next & Hr & Hn & ->). apply joined_valid. eapply terminator_valid, Hn; [done|].
  by destruct (recorded_monotone bb _ p p _ s s out out Hs Hs ltac:(done) Hr Hr).
Qed.

Lemma gives_monotone bb data s s' nm nm' t : valid s -> valid s' -> le s s' -> gives bb data s nm -> gives bb data s' nm' ->
  le_edge (nm !! t) (nm' !! t).
Proof.
  intros Hs Hs' Hle (p & out & next & Hr & Hn & ->) (p' & out' & next' & Hr' & Hn' & ->). apply joined_monotone.
  destruct (recorded_monotone bb _ p p' _ s s' out out' Hs Hs' Hle Hr Hr') as (Ho & Ho' & Hlo).
  exact (terminator_monotone _ out out' next Ho Ho' Hlo Hn _ Hn').
Qed.

Lemma visited_gives (run run' : Run) bb rest data s nm : visited mir run run' bb rest data s nm -> gives bb data s nm.
Proof. intros Hv. destruct (visited_recorded _ _ _ _ _ _ _ _ Hv) as (out & next & Hr & _ & Hn & Hj). by exists (p_state run'), out, next. Qed.

(** *** The invariant *)

(** A block that was visited was given less than its input is now. *)
Record grows (p : PointwiseState D) bb (data : BasicBlockData) (s : D) (nm : gmap BasicBlock D) : Prop := {
  grows_valid : valid s;
  grows_input : le s (input mir p bb);
  grows_gives : gives bb data s nm;
  grows_edges : forall t, t ∈ successors (terminator data) -> is_Some (nm !! t) /\ edge p bb t = nm !! t
}.

Record bounded (run : Run) : Prop := {
  bounded_work_set : forall bb, bb ∈ work_set run -> bb < length (basic_blocks mir);
  bounded_edges : forall bb data, basic_blocks mir !! bb = Some data ->
    state_after_block (p_state run) !! bb = None \/ exists s nm, grows (p_state run) bb data s nm
}.

Lemma bounded_edge (run : Run) bb data t : bounded run -> basic_blocks mir !! bb = Some data -> t ∈ successors (terminator data) ->
  opt_valid (edge (p_state run) bb t) /\ (state_after_block (p_state run) !! bb = None \/ is_Some (edge (p_state run) bb t)).
Proof.
  intros Hb E Ht. destruct (bounded_edges _ Hb bb data E) as [Hn|(s & nm & [Hv _ Hg He])].
  - unfold edge. rewrite Hn. cbn. auto.
  - destruct (He t Ht) as [Hs ->]. split; [by eapply gives_valid|by right].
Qed.

Lemma input_valid (run : Run) bb : bounded run -> valid (input mir (p_state run) bb).
Proof.
  intros Hb. apply foldl_join_valid; [|unfold entry_state; destruct (Nat.eqb _ _); [apply valid_initial|apply valid_bottom]].
  apply Forall_forall. intros s (pred & (data & E & Ht)%predecessors_spec & Hs)%list_elem_of_omap.
  pose proof (proj1 (bounded_edge run pred data bb Hb E Ht)) as Hv. by rewrite Hs in Hv.
Qed.

(** *** No panic *)

Lemma state_before_block_total (run : Run) bb : bounded run ->
  state_before_block mir (p_state run) bb = Some (input mir (p_state run) bb).
Proof.
  intros Hb. assert (Hp : forall pred, pred ∈ predecessors mir bb ->
    state_after_block (p_state run) !! pred = None \/ is_Some (edge (p_state run) pred bb)).
  { intros pred (data & E & Ht)%predecessors_spec. by eapply bounded_edge. }
  unfold state_before_block, input, incoming. revert Hp. generalize (entry_state mir bb).
  induction (predecessors mir bb) as [|pred preds IH]; intros e Hp; [done|]. cbn.
  pose proof (fun e => IH e (fun q Hq => Hp q ltac:(by right))) as IH'. unfold lookup_after_block.
  destruct (Hp pred ltac:(by left)) as [Hn|[s Hs]].
  - unfold edge at 1. rewrite Hn. apply IH'.
  - rewrite Hs. unfold edge in Hs. destruct (state_after_block (p_state run) !! pred) as [m|]; [|done]. cbn in *. rewrite Hs. apply IH'.
Qed.

Lemma apply_statements_total bb data : basic_blocks mir !! bb = Some data ->
  forall count index p s, index + count <= length (statements data) -> valid s ->
  match apply_statements mir bb index count p s with Val r => valid (snd r) | Err _ => True | Panic => False end.
Proof.
  intros E. induction count as [|count IH]; intros index p s Hle Hs; [done|]. cbn [apply_statements].
  destruct (apply_statement_effect mir (make_location bb index) s) as [s'| |] eqn:Es; cbn; [|done|].
  - apply IH; [lia|]. by eapply statement_valid.
  - eapply statement_total; [exact E| |exact Hs|exact Es]. lia.
Qed.

Lemma apply_block_total bb data p s : basic_blocks mir !! bb = Some data -> valid s -> apply_block mir bb data p s <> Panic.
Proof.
  intros E Hs. unfold apply_block. pose proof (apply_statements_total bb data E (length (statements data)) 0 p s ltac:(done) Hs) as Ht.
  destruct (apply_statements _ _ _ _ _ _) as [r| |]; cbn; try easy.
  pose proof (terminator_total bb data (snd r) E Ht) as Hn. destruct (apply_terminator_effect _ _ _); cbn; try easy.
  unfold check_successors. by destruct (List.find _ _).
Qed.

Lemma analyze_block_total (run : Run) bb rest : bounded run -> bb < length (basic_blocks mir) -> analyze_block mir run bb rest <> Panic.
Proof.
  intros Hb Hlt. assert (exists data, basic_blocks mir !! bb = Some data) as [data E] by by apply lookup_lt_is_Some in Hlt.
  unfold analyze_block. rewrite (state_before_block_total run bb Hb). cbn -[lookup].
  rewrite no_widening_ever. cbn -[lookup].  rewrite E. cbn.
  pose proof (apply_block_total bb data (p_state run) _ E (input_valid run bb Hb)) as Ha.
  destruct (apply_block _ _ _ _ _) as [r| |]; cbn; try easy. by destruct (foldl _ _ _) as [[? ?] ?].
Qed.

(** *** States only grow *)

Lemma visit_edges_grow (run run' : Run) bb rest data nm b t :
  bounded run -> basic_blocks mir !! bb = Some data ->
  visited mir run run' bb rest data (input mir (p_state run) bb) nm ->
  (b = bb -> t ∈ successors (terminator data)) -> le_edge (edge (p_state run) b t) (edge (p_state run') b t).
Proof.
  intros Hb E Hv Ht. destruct (decide (b = bb)) as [->|Hne].
  - specialize (Ht eq_refl). rewrite (proj2 (visited_edges _ _ _ _ _ _ _ _ Hv t Ht)).
    destruct (bounded_edges _ Hb bb data E) as [Hn|(s & nm0 & [Hs Hle Hg He])]; [unfold edge; by rewrite Hn|].
    rewrite (proj2 (He t Ht)). eapply gives_monotone; [exact Hs| |exact Hle|exact Hg|by eapply visited_gives].
    by apply input_valid.
  - rewrite (visited_other_edges _ _ _ _ _ _ _ _ b t Hv) by done. apply le_edge_refl.
Qed.

Lemma visit_input_grows (run run' : Run) bb rest data nm b :
  bounded run -> basic_blocks mir !! bb = Some data ->
  visited mir run run' bb rest data (input mir (p_state run) bb) nm -> le (input mir (p_state run) b) (input mir (p_state run') b).
Proof.
  intros Hb E Hv. apply omap_join_monotone; [|done]. intros pred (data' & E' & Ht)%predecessors_spec.
  apply (visit_edges_grow run run' bb rest data nm); [done..|]. intros ->. assert (data' = data) as -> by congruence. done.
Qed.

Hypothesis closed : forall bb data t, basic_blocks mir !! bb = Some data -> t ∈ successors (terminator data) -> t < length (basic_blocks mir).

Lemma analyze_block_bounded (run run' : Run) bb rest : work_set run = bb :: rest -> bounded run ->
  analyze_block mir run bb rest = Val run' -> bounded run'.
Proof.
  intros Ews Hb (data & nm & E & Hv)%analyze_block_spec; [|apply no_widening_ever]. split.
  - intros b [Hr|[Ht _]]%(visited_work_set _ _ _ _ _ _ _ _ Hv); [|by eapply closed]. apply (bounded_work_set _ Hb). rewrite Ews. by right.
  - intros b data' E'. destruct (decide (b = bb)) as [->|Hne].
    + right. assert (data' = data) as -> by congruence. exists (input mir (p_state run) bb), nm. split.
      * by apply input_valid.
      * by apply (visit_input_grows run run' bb rest data nm).
      * by eapply visited_gives.
      * by eapply visited_edges.
    + rewrite (visited_other_blocks _ _ _ _ _ _ _ _ Hv) by done.
      destruct (bounded_edges _ Hb b data' E') as [Hn|(s & nm0 & [Hs Hle Hg He])]; [by left|right]. exists s, nm0. split; [done| |done|].
      * trans (input mir (p_state run) b); [done|]. by apply (visit_input_grows run run' bb rest data nm).
      * intros t Ht. rewrite (visited_other_edges _ _ _ _ _ _ _ _ b t Hv) by done. by apply He.
Qed.

(** *** The measure *)

(** How often the state of an edge can still change. *)
Definition gap (o : option D) : nat := match o with None => S height | Some d => height - rank d end.

Definition edges_of bb : list BasicBlock :=
  match basic_blocks mir !! bb with Some data => successors (terminator data) | None => [] end.
Definition gaps (f : BasicBlock -> option D) (ts : list BasicBlock) : nat := list_sum (map (fun t => gap (f t)) ts).
Definition potential (run : Run) : nat :=
  length (work_set run) + list_sum (map (fun bb => gaps (edge (p_state run) bb) (edges_of bb)) (block_indices mir)).

Definition fuel_bound : nat :=
  length (basic_blocks mir) + list_sum (map (fun bb => length (edges_of bb)) (block_indices mir)) * S height.

Lemma gap_decreases o s : opt_valid o -> valid s -> le_edge o (Some s) -> o <> Some s -> gap (Some s) < gap o.
Proof.
  destruct o as [a|]; cbn; intros Ha Hs Hle Hne; [|lia]. destruct Hle as (s' & [= <-] & Hle).
  pose proof (rank_strict a s Ha Hs Hle ltac:(congruence)). pose proof (rank_bound s Hs). lia.
Qed.

Lemma fold_gaps L succs : forall (nm ma nm' ma' : gmap BasicBlock D) ws ws',
  foldl update_successor (nm, ma, ws) succs = (nm', ma', ws') -> (forall t, t ∈ succs -> t ∈ L) ->
  (forall t s, t ∈ succs -> nm !! t = Some s -> le_edge (ma !! t) (Some s) /\ opt_valid (ma !! t) /\ valid s) ->
  length ws' + gaps (fun t => ma' !! t) L <= length ws + gaps (fun t => ma !! t) L.
Proof.
  induction succs as [|t succs IH]; intros nm ma nm' ma' ws ws'; cbn [foldl]; [by intros [= <- <- <-]|].
  unfold update_successor at 2. destruct (nm !! t) as [s|] eqn:Et; intros Ef HL Hs.
  - specialize (IH _ _ _ _ _ _ Ef (fun x Hx => HL x ltac:(by right))). destruct (Hs t s ltac:(by left) Et) as (Hle & Hv & Hvs).
    etrans; [apply IH|].
    + intros x s' Hx. destruct (decide (x = t)) as [->|Hne]; [by rewrite lookup_delete_eq|]. rewrite lookup_delete_ne, lookup_insert_ne by done.
      apply Hs. by right.
    + unfold gaps. case_bool_decide as Eq.
      * apply Nat.add_le_mono_l, sum_le. intros x _. destruct (decide (x = t)) as [->|Hne]; [by rewrite lookup_insert_eq, Eq|by rewrite lookup_insert_ne].
      * pose proof (btree_insert_length ws t) as Hl.
        enough (list_sum (map (fun x => gap (<[t:=s]> ma !! x)) L) < list_sum (map (fun x => gap (ma !! x)) L)) by lia.
        apply (sum_lt _ _ _ t); [apply HL; by left| |rewrite lookup_insert_eq; by apply gap_decreases].
        intros x. destruct (decide (x = t)) as [->|Hne]; [rewrite lookup_insert_eq; apply Nat.lt_le_incl; by apply gap_decreases|by rewrite lookup_insert_ne].
  - apply (IH _ _ _ _ _ _ Ef); [intros x Hx; apply HL; by right|]. intros x s' Hx. apply Hs. by right.
Qed.

Lemma gaps_ext f g ts : (forall t, f t = g t) -> gaps f ts = gaps g ts.
Proof. intros Hfg. unfold gaps. f_equal. apply map_ext. intros t. by rewrite Hfg. Qed.

Lemma analyze_block_decreases (run run' : Run) bb rest : work_set run = bb :: rest -> bounded run ->
  analyze_block mir run bb rest = Val run' -> potential run' < potential run.
Proof.
  intros Ews Hb (data & nm & E & Hv)%analyze_block_spec; [|apply no_widening_ever]. unfold potential. rewrite Ews. cbn [length].
  assert (Hin : bb ∈ block_indices mir). { apply elem_of_seq. apply lookup_lt_Some in E. lia. }
  enough (list_sum (map (fun b => gaps (edge (p_state run') b) (edges_of b)) (block_indices mir)) + length (work_set run')
    <= list_sum (map (fun b => gaps (edge (p_state run) b) (edges_of b)) (block_indices mir)) + length rest) by lia.
  apply (sum_change _ _ _ bb); [apply NoDup_seq|done| |].
  - intros b Hne. apply gaps_ext. intros t. by apply (visited_other_edges _ _ _ _ _ _ _ _ b t Hv).
  - destruct (visited_fold _ _ _ _ _ _ _ _ Hv) as (nm' & ma & ma' & Ef & Hma & Hma').
    rewrite <- (gaps_ext _ _ (edges_of bb) Hma), <- (gaps_ext _ _ (edges_of bb) Hma'). unfold edges_of. rewrite E, !(Nat.add_comm (gaps _ _)).
    eapply fold_gaps; [exact Ef|done|]. intros t s Ht Es. rewrite Hma. split_and!.
    + rewrite <- Es. rewrite <- (proj2 (visited_edges _ _ _ _ _ _ _ _ Hv t Ht)). by apply (visit_edges_grow run run' bb rest data nm).
    + by eapply bounded_edge.
    + pose proof (gives_valid bb data _ nm t E (input_valid run bb Hb) (visited_gives _ _ _ _ _ _ _ Hv)) as Hvs. by rewrite Es in Hvs.
Qed.

(** *** Enough fuel *)

Lemma run_loop_total fuel : forall run, bounded run -> potential run <= fuel -> run_loop mir fuel run <> Panic.
Proof.
  induction fuel as [|fuel IH]; intros run Hb Hp; cbn [run_loop]; destruct (work_set run) as [|bb rest] eqn:Ews; try done.
  - unfold potential in Hp. rewrite Ews in Hp. cbn in Hp. lia.
  - pose proof (analyze_block_total run bb rest Hb) as Ht. destruct (analyze_block mir run bb rest) as [run'| |] eqn:Ev; cbn; [|done|].
    + apply IH; [by eapply analyze_block_bounded|]. pose proof (analyze_block_decreases run run' bb rest Ews Hb Ev). lia.
    + intros _. apply Ht; [|done]. apply (bounded_work_set _ Hb). rewrite Ews. by left.
Qed.

Lemma initial_bounded : bounded (initial_run mir).
Proof.
  split; [|by left]. cbn. intros bb. unfold block_indices. rewrite elem_of_seq. lia.
Qed.

Lemma initial_potential : potential (initial_run mir) = fuel_bound.
Proof.
  unfold potential, fuel_bound. cbn [work_set initial_run p_state]. f_equal; [apply length_seq|].
  unfold list_sum. induction (block_indices mir) as [|bb l IH]; [done|]. cbn. rewrite IH, Nat.mul_add_distr_r. f_equal.
  unfold gaps, list_sum. induction (edges_of bb) as [|t ts IHt]; [done|]. cbn. rewrite IHt. done.
Qed.

Lemma run_fwd_analysis_total fuel : fuel_bound <= fuel -> run_fwd_analysis (D := D) mir fuel <> Panic.
Proof. intros Hf. apply run_loop_total; [apply initial_bounded|by rewrite initial_potential]. Qed.
End Terminates.
