(* ===== verification/ReachingFacts.v ===== *)
(** * Reaching definitions

    The domain of [reaching_definitions.rs] has finite height: a state maps
    locals that are defined in the body to definitions of the body.  So the
    analyzer ends with it, without a panic.  What it records contains the
    definition that reaches a location on any path of the control flow
    graph. *)

From stdpp Require Import gmap list relations.
From S2P Require Import Prelude Mir Places Analysis AnalysisFacts.

Import ReachingDefs.

Section Height.
Context `{MirLaws}.
Implicit Types (mir : Body) (a b s : State) (loc : Location).

(** ** The order *)

Definition below (a b : State) : Prop := forall l X, a !! l = Some X -> exists Y, b !! l = Some Y /\ X ⊆ Y.

#[export] Instance below_pre : PreOrder below.
Proof.
  split; [intros a l X E; by exists X|]. intros a b c Hab Hbc l X E. destruct (Hab l X E) as (Y & EY & HXY).
  destruct (Hbc l Y EY) as (Z & EZ & HYZ). exists Z. split; [done|]. by trans Y.
Qed.

Lemma below_entry a b l d : below a b -> d ∈ entry a l -> d ∈ entry b l.
Proof.
  unfold entry. intros Hab Hd. destruct (a !! l) as [X|] eqn:E; [|by apply not_elem_of_empty in Hd].
  destruct (Hab l X E) as (Y & -> & HXY). by apply HXY.
Qed.

Lemma join_lookup a b l : join a b !! l = union_with (fun x y => Some (x ∪ y)) (a !! l) (b !! l).
Proof. apply lookup_union_with. Qed.

Lemma join_below_l a b : below a (join a b).
Proof.
  intros l X E. rewrite join_lookup, E. destruct (b !! l) as [Y|]; cbn; eexists; (split; [reflexivity|]); set_solver.
Qed.

Lemma join_below_r a b : below b (join a b).
Proof.
  intros l X E. rewrite join_lookup, E. destruct (a !! l) as [Y|]; cbn; eexists; (split; [reflexivity|]); set_solver.
Qed.

Lemma join_below a b c : below a c -> below b c -> below (join a b) c.
Proof.
  intros Ha Hb l X. rewrite join_lookup. destruct (a !! l) as [X1|] eqn:E1, (b !! l) as [X2|] eqn:E2; cbn; intros [= <-].
  - destruct (Ha l X1 E1) as (Y & EY & H1), (Hb l X2 E2) as (Y' & EY' & H2). assert (Y' = Y) as -> by congruence.
    exists Y. split; [done|set_solver].
  - by apply Ha.
  - by apply Hb.
Qed.

Lemma assign_below a b l loc : below a b -> below (assign a l loc) (assign b l loc).
Proof.
  intros Hab x X. unfold assign. destruct (decide (x = l)) as [->|Hne]; [rewrite !lookup_insert_eq; eauto|].
  rewrite !lookup_insert_ne by done. apply Hab.
Qed.

Lemma may_assign_below a b l loc : below a b -> below (may_assign a l loc) (may_assign b l loc).
Proof.
  intros Hab x X. unfold may_assign. destruct (decide (x = l)) as [->|Hne].
  - rewrite !lookup_insert_eq. intros [= <-]. eexists. split; [reflexivity|].
    apply union_mono_l. intros d. by apply below_entry.
  - rewrite !lookup_insert_ne by done. apply Hab.
Qed.

Lemma assign_place_below f a b p loc : (forall l, below (f a l loc) (f b l loc)) -> below a b ->
  below (assign_place f a p loc) (assign_place f b p loc).
Proof. unfold assign_place. destruct (as_local p); auto. Qed.

(** ** The definitions of a body *)

Definition statement_local (stmt : Statement) : list Local :=
  match stmt with Assign target _ => option_list (as_local target) | OtherStatement => [] end.
Definition terminator_local (t : Terminator) : list Local :=
  match t with Call _ _ (Some (place, _)) _ => option_list (as_local place) | _ => [] end.
Definition block_locals (data : BasicBlockData) : list Local :=
  (List.concat (map statement_local (statements data)) ++ terminator_local (terminator data))%list.

Definition locals mir : gset Local :=
  list_to_set (args_iter mir ++ List.concat (map block_locals (basic_blocks mir)))%list.

Definition locations mir : list Location :=
  List.concat (imap (fun bb data => map (make_location bb) (seq 0 (S (length (statements data))))) (basic_blocks mir)).

Definition defs mir : gset DefLocation :=
  list_to_set (map Parameter_ (seq 0 (arg_count mir)) ++ map Assignment (locations mir))%list.

Definition within mir (s : State) : Prop := forall l X, s !! l = Some X -> l ∈ locals mir /\ X ⊆ defs mir.

Definition rank mir (s : State) : nat :=
  list_sum (map (fun l => match s !! l with Some X => S (size X) | None => 0 end) (elements (locals mir))).
Definition height mir : nat := length (elements (locals mir)) * S (size (defs mir)).

Lemma in_locations mir bb data i : basic_blocks mir !! bb = Some data -> i <= length (statements data) ->
  Assignment (make_location bb i) ∈ defs mir.
Proof.
  intros E Hi. unfold defs. rewrite elem_of_list_to_set, elem_of_app. right. apply list_elem_of_fmap. eexists. split; [done|].
  apply list_elem_of_In, in_concat. eexists. rewrite <- !list_elem_of_In. split; [apply elem_of_lookup_imap; by exists bb, data|].
  apply list_elem_of_fmap. exists i. split; [done|]. apply elem_of_seq. lia.
Qed.

Lemma in_locals mir bb data l : basic_blocks mir !! bb = Some data -> l ∈ block_locals data -> l ∈ locals mir.
Proof.
  intros E Hl. unfold locals. rewrite elem_of_list_to_set, elem_of_app. right.
  apply list_elem_of_In, in_concat. exists (block_locals data). rewrite <- !list_elem_of_In. split; [|done].
  apply list_elem_of_fmap. exists data. split; [done|]. by eapply list_elem_of_lookup_2.
Qed.

Lemma statement_local_in data i stmt l : statements data !! i = Some stmt -> l ∈ statement_local stmt -> l ∈ block_locals data.
Proof.
  intros E Hl. apply elem_of_app. left. apply list_elem_of_In, in_concat. exists (statement_local stmt). rewrite <- !list_elem_of_In.
  split; [|done]. apply list_elem_of_fmap. exists stmt. split; [done|]. by eapply list_elem_of_lookup_2.
Qed.

Lemma within_insert mir s l X : within mir s -> l ∈ locals mir -> X ⊆ defs mir -> within mir (<[l := X]> s).
Proof.
  intros Hs Hl HX x Y. destruct (decide (x = l)) as [->|Hne]; [rewrite lookup_insert_eq; by intros [= <-]|].
  rewrite lookup_insert_ne by done. apply Hs.
Qed.

Lemma within_entry mir s l : within mir s -> entry s l ⊆ defs mir.
Proof. intros Hs. unfold entry. destruct (s !! l) eqn:E; [by eapply Hs|set_solver]. Qed.

Lemma within_join mir a b : within mir a -> within mir b -> within mir (join a b).
Proof.
  intros Ha Hb l X. rewrite join_lookup. destruct (a !! l) as [X1|] eqn:E1, (b !! l) as [X2|] eqn:E2; cbn; intros [= <-]; eauto.
  destruct (Ha l X1 E1), (Hb l X2 E2). split; [done|set_solver].
Qed.

Lemma within_assign_place mir s f bb data i p : (f = assign \/ f = may_assign) -> basic_blocks mir !! bb = Some data ->
  i <= length (statements data) -> (forall l, as_local p = Some l -> l ∈ locals mir) ->
  within mir s -> within mir (assign_place f s p (make_location bb i)).
Proof.
  intros Hf E Hi Hl Hs. unfold assign_place. destruct (as_local p) as [l|]; [|done]. pose proof (in_locations mir bb data i E Hi) as Hd.
  destruct Hf as [-> | ->]; (apply within_insert; [done|by apply Hl|]); [set_solver|]. pose proof (within_entry mir s l Hs). set_solver.
Qed.

Lemma initial_within mir : within mir (new_initial mir).
Proof.
  unfold new_initial. assert (Hz : forall x, x ∈ zip (seq 0 (arg_count mir)) (args_iter mir) -> fst x ∈ seq 0 (arg_count mir) /\ snd x ∈ args_iter mir).
  { intros [i l] Hx. split; [by eapply elem_of_zip_l|by eapply elem_of_zip_r]. }
  assert (Hem : within mir ∅) by (intros l X; by rewrite lookup_empty). revert Hem Hz. generalize (∅ : State).
  induction (zip _ _) as [|[i l] ps IH]; intros s Hs Hz; [done|]. cbn. apply IH; [|intros x Hx; apply Hz; by right].
  destruct (Hz (i, l) ltac:(by left)) as [Hi Hl]. apply within_insert; [done| |].
  - unfold locals. rewrite elem_of_list_to_set, elem_of_app. by left.
  - pose proof (within_entry mir s l Hs). assert (Parameter_ i ∈ defs mir); [|set_solver].
    unfold defs. rewrite elem_of_list_to_set, elem_of_app. left. apply list_elem_of_fmap. by exists i.
Qed.

(** ** The height *)

Lemma rank_within mir s : within mir s -> rank mir s <= height mir.
Proof.
  intros Hs. unfold rank, height, list_sum.
  induction (elements (locals mir)) as [|l ls IH]; [done|]. cbn [map foldr length].
  assert (match s !! l with Some X => S (size X) | None => 0 end <= S (size (defs mir))); [|lia].
  destruct (s !! l) as [X|] eqn:E; [|lia]. destruct (Hs l X E) as [_ HX]. apply subseteq_size in HX. lia.
Qed.

Lemma rank_below mir a b : within mir a -> within mir b -> below a b -> a <> b -> rank mir a < rank mir b.
Proof.
  intros Ha Hb Hab Hne.
  assert (Hx : exists l, l ∈ locals mir /\ a !! l <> b !! l).
  { destruct (decide (Forall (fun l => a !! l = b !! l) (elements (locals mir)))) as [Hall|Hn].
    - contradict Hne. apply map_eq. intros l. destruct (decide (l ∈ locals mir)) as [Hl|Hl].
      + rewrite Forall_forall in Hall. apply Hall. by apply elem_of_elements.
      + destruct (a !! l) as [X|] eqn:E1; [by destruct (Ha l X E1)|]. destruct (b !! l) as [X|] eqn:E2; [by destruct (Hb l X E2)|done].
    - apply not_Forall_Exists in Hn; [|intros l; apply _]. apply Exists_exists in Hn as (l & Hl%elem_of_elements & Hd). by exists l. }
  destruct Hx as (l & Hl & Hd). apply (sum_lt _ _ _ l); [by apply elem_of_elements| |].
  - intros x. destruct (a !! x) as [X|] eqn:E; [|lia]. destruct (Hab x X E) as (Y & -> & HXY). apply subseteq_size in HXY. lia.
  - destruct (a !! l) as [X|] eqn:E.
    + destruct (Hab l X E) as (Y & EY & HXY). rewrite EY in *. apply le_n_S, subset_size. split; [done|].
      intros HYX. apply Hd. f_equal. by apply (anti_symm (⊆)).
    + destruct (b !! l); [lia|done].
Qed.

(** ** The effects *)

Lemma statement_at_lookup mir loc stmt : statement_at mir loc = Some stmt <->
  exists data, basic_blocks mir !! block loc = Some data /\ statements data !! statement_index loc = Some stmt.
Proof. unfold statement_at. destruct (basic_blocks mir !! block loc); cbn; naive_solver. Qed.

Lemma terminator_at_loc mir bb data : basic_blocks mir !! bb = Some data -> terminator_at mir (terminator_loc bb data) = Some (terminator data).
Proof. intros E. unfold terminator_at. cbn -[lookup]. by rewrite E. Qed.

(** The states after a call. *)
Definition call_states (s : State) loc (destination : option (Place * BasicBlock)) (cleanup : option BasicBlock) : list (BasicBlock * State) :=
  (match destination with Some (place, bb) => [(bb, assign_place assign s place loc)] | None => [] end
   ++ match cleanup with
      | Some bb => [(bb, match destination with Some (place, _) => assign_place may_assign s place loc | None => s end)]
      | None => []
      end)%list.

Definition terminator_states (t : Terminator) loc (s : State) : outcome AnalysisError (list (BasicBlock * State)) :=
  match t with
  | Call _ _ destination cleanup => Val (call_states s loc destination cleanup)
  | InlineAsm _ => Err (UnsupportedStatement loc)
  | _ => Val (map (fun bb => (bb, s)) (successors t))
  end.

Lemma apply_terminator_effect_at mir bb data s : basic_blocks mir !! bb = Some data ->
  apply_terminator_effect mir (terminator_loc bb data) s = terminator_states (terminator data) (terminator_loc bb data) s.
Proof. intros E. unfold apply_terminator_effect. rewrite (terminator_at_loc mir bb data E). cbn. by destruct (terminator data). Qed.

Lemma terminator_states_within mir bb data s next : basic_blocks mir !! bb = Some data -> within mir s ->
  terminator_states (terminator data) (terminator_loc bb data) s = Val next -> Forall (fun e => within mir (snd e)) next.
Proof.
  intros E Hs. assert (Hsame : forall l : list BasicBlock, Forall (fun e => within mir (snd e)) (map (fun bb => (bb, s)) l)).
  { intros l. apply Forall_forall. intros e (t & -> & _)%list_elem_of_fmap. done. }
  assert (Hin : forall l, l ∈ terminator_local (terminator data) -> l ∈ locals mir).
  { intros l Hl. eapply in_locals; [exact E|]. apply elem_of_app. by right. }
  destruct (terminator data) as [| | | | | | | |f args destination cleanup| | | | | |]; intros [= <-]; try apply Hsame.
  assert (Hp : forall f place bb', f = assign \/ f = may_assign -> destination = Some (place, bb') ->
    within mir (assign_place f s place (terminator_loc bb data))).
  { intros g place bb' Hg ->. eapply (within_assign_place mir s g bb data); [done..| |done]. intros l Hl. apply Hin. cbn. rewrite Hl. by left. }
  unfold call_states. apply Forall_app. split.
  - destruct destination as [[place bb']|]; [|done]. apply Forall_singleton. cbn. by eapply Hp; [left|].
  - destruct cleanup as [t|]; [|done]. apply Forall_singleton. cbn. destruct destination as [[place bb']|]; [|done]. by eapply Hp; [right|].
Qed.

Lemma terminator_states_below t loc a b next next' : below a b -> terminator_states t loc a = Val next -> terminator_states t loc b = Val next' ->
  Forall2 (fun e e' => fst e = fst e' /\ below (snd e) (snd e')) next next'.
Proof.
  intros Hab. assert (Hsame : forall l : list BasicBlock, Forall2 (fun e e' => fst e = fst e' /\ below (snd e) (snd e'))
    (map (fun bb => (bb, a)) l) (map (fun bb => (bb, b)) l)). { induction l; constructor; auto. }
  destruct t as [| | | | | | | |f args destination cleanup| | | | | |]; intros [= <-] [= <-]; try apply Hsame.
  apply Forall2_app; [destruct destination as [[place bb]|]|destruct cleanup as [bb|]]; repeat constructor; cbn.
  - apply assign_place_below; [|done]. intros l. by apply assign_below.
  - destruct destination as [[place bb']|]; [|done]. apply assign_place_below; [|done]. intros l. by apply may_assign_below.
Qed.

#[export] Instance reaching_height mir : FiniteHeight State mir below (within mir) (rank mir) (height mir).
Proof.
  split.
  - apply _.
  - apply initial_within.
  - intros l X E. change ((∅ : State) !! l = Some X) in E. by rewrite lookup_empty in E.
  - apply within_join.
  - apply rank_within.
  - apply rank_below.
  - apply join_below_l.
  - apply join_below_r.
  - intros a a' b b' Ha Hb. apply join_below; [trans a'; [done|apply join_below_l]|trans b'; [done|apply join_below_r]].
  - done.
  - intros bb data i s E Hi _. cbn. unfold apply_statement_effect.
    destruct (lookup_lt_is_Some_2 (statements data) i Hi) as [stmt Es].
    assert (statement_at mir (make_location bb i) = Some stmt) as -> by (apply statement_at_lookup; by exists data). done.
  - intros l s s' Hs. cbn. unfold apply_statement_effect. destruct (statement_at mir l) as [stmt|] eqn:Es; [|done]. intros [= <-].
    apply statement_at_lookup in Es as (data & E & Es). destruct stmt as [target source|]; [|done]. destruct l as [bb i].
    eapply (within_assign_place mir s assign bb data); [by left|done| | |done].
    + apply lookup_lt_Some in Es. cbn in *. lia.
    + intros l Hl. eapply in_locals; [exact E|]. eapply statement_local_in; [exact Es|]. cbn. rewrite Hl. by left.
  - intros l a b a' _ _ Hab. cbn. unfold apply_statement_effect. destruct (statement_at mir l) as [stmt|]; [|done].
    intros [= <-] b' [= <-]. destruct stmt as [target source|]; [|done]. apply assign_place_below; [|done]. intros x. by apply assign_below.
  - intros bb data s E _. cbn [Analysis.apply_terminator_effect domain]. rewrite (apply_terminator_effect_at mir bb data s E). by destruct (terminator data).
  - intros bb data s next E. cbn [Analysis.apply_terminator_effect domain]. rewrite (apply_terminator_effect_at mir bb data s E).
    by apply terminator_states_within.
  - intros l a b next _ _ Hab. cbn. unfold apply_terminator_effect. destruct (terminator_at mir l) as [t|]; [|done]. cbn.
    intros Ha next' Hb. apply (terminator_states_below t l a b next next' Hab); destruct t; done.
Qed.

(** ** Paths *)

(** The last definition of each local. *)
Abbreviation Env := (gmap Local DefLocation).

Definition define (env : Env) (place : Place) loc : Env :=
  match as_local place with Some l => <[l := Assignment loc]> env | None => env end.

Definition initial_env mir : Env :=
  list_to_map (map (fun x : nat * Local => (snd x, Parameter_ (fst x))) (zip (seq 0 (arg_count mir)) (args_iter mir))).

(** A terminator that assigns a place has done so when it goes on, and may
    have done so when it unwinds; nothing is known of inline assembly. *)
Definition terminator_env (t : Terminator) loc (env : Env) (target : BasicBlock) (env' : Env) : Prop :=
  match t with
  | Call _ _ (Some (place, bb)) unwind | DropAndReplace place _ bb unwind | Yield _ bb place unwind =>
      (target = bb /\ env' = define env place loc) \/ (unwind = Some target /\ (env' = env \/ env' = define env place loc))
  | InlineAsm _ => True
  | _ => env' = env
  end.

Lemma define_part env place loc : as_local place = None -> define env place loc = env.
Proof. unfold define. by intros ->. Qed.

Inductive step mir : Location * Env -> Location * Env -> Prop :=
  | step_assign loc env target source :
      statement_at mir loc = Some (Assign target source) -> step mir (loc, env) (successor_within_block loc, define env target loc)
  | step_other loc env :
      statement_at mir loc = Some OtherStatement -> step mir (loc, env) (successor_within_block loc, env)
  | step_terminator bb data env target env' :
      basic_blocks mir !! bb = Some data -> target ∈ successors (terminator data) ->
      terminator_env (terminator data) (terminator_loc bb data) env target env' ->
      step mir (terminator_loc bb data, env) (make_location target 0, env').

Definition describes (s : State) (env : Env) : Prop := forall l d, env !! l = Some d -> d ∈ entry s l.

Lemma describes_below s s' env : below s s' -> describes s env -> describes s' env.
Proof. intros Hs He l d E. eapply below_entry; [exact Hs|by apply He]. Qed.

Lemma describes_define f s env place loc : (forall l, Assignment loc ∈ entry (f s l loc) l) ->
  (forall l x, x <> l -> f s l loc !! x = s !! x) -> describes s env -> describes (assign_place f s place loc) (define env place loc).
Proof.
  intros Hf Hne He l d. unfold assign_place, define. destruct (as_local place) as [x|]; [|apply He].
  destruct (decide (l = x)) as [->|Hl]; [rewrite lookup_insert_eq; intros [= <-]; apply Hf|].
  rewrite lookup_insert_ne by done. unfold entry. rewrite Hne by done. apply He.
Qed.

Lemma describes_assign s env place loc : describes s env -> describes (assign_place assign s place loc) (define env place loc).
Proof.
  apply describes_define; intros l; [|intros x Hx; by apply lookup_insert_ne]. unfold entry, assign. rewrite lookup_insert_eq. set_solver.
Qed.

Lemma describes_may_assign s env env' place loc : env' = env \/ env' = define env place loc -> describes s env ->
  describes (assign_place may_assign s place loc) env'.
Proof.
  intros [-> | ->] He.
  - intros l d E. unfold assign_place. destruct (as_local place) as [x|]; [|by apply He]. unfold may_assign, entry.
    destruct (decide (l = x)) as [->|Hl]; [rewrite lookup_insert_eq|rewrite lookup_insert_ne by done; by apply He].
    apply He in E. unfold entry in E. set_solver.
  - apply describes_define; [..|done]; intros l; [|intros x Hx; by apply lookup_insert_ne]. unfold entry, may_assign. rewrite lookup_insert_eq. set_solver.
Qed.

Lemma initial_describes mir : describes (new_initial mir) (initial_env mir).
Proof.
  unfold new_initial, initial_env. set (ps := zip _ _). intros l d E%elem_of_list_to_map_2.
  apply list_elem_of_fmap in E as ([i x] & [= -> ->] & Hx). cbn.
  assert (Hkeep : forall ps s, Parameter_ i ∈ entry s x -> Parameter_ i ∈ entry (foldl add_parameter s ps) x).
  { clear. induction ps as [|[j y] ps IH]; intros s Hs; [done|]. cbn. apply IH. unfold add_parameter, entry in *. cbn.
    destruct (decide (x = y)) as [->|Hne]; [rewrite lookup_insert_eq; set_solver|by rewrite lookup_insert_ne]. }
  generalize (∅ : State). induction ps as [|p ps IH]; [by apply not_elem_of_nil in Hx|]. intros s. cbn.
  apply elem_of_cons in Hx as [<-|Hx]; [|by apply IH]. apply Hkeep. unfold add_parameter, entry. cbn. rewrite lookup_insert_eq. set_solver.
Qed.

(** What the terminator gives to the successor describes the environment. *)
Lemma terminator_describes t loc s env target env' next : only_calls_assign t -> target ∈ successors t -> describes s env ->
  terminator_env t loc env target env' -> terminator_states t loc s = Val next -> exists x, (target, x) ∈ next /\ describes x env'.
Proof.
  intros Hc Ht He Henv En. assert (Hsame : env' = env -> next = map (fun bb => (bb, s)) (successors t) -> exists x, (target, x) ∈ next /\ describes x env').
  { intros -> ->. exists s. split; [|done]. apply list_elem_of_fmap. by exists target. }
  destruct t as [| | | | | | | |f args destination cleanup| | | | | |]; cbn in En, Hc; try discriminate En; injection En as <-; try (by apply Hsame);
    try (apply Hsame; [|done]; cbn in Henv; rewrite define_part in Henv by done; tauto).
  apply successors_spec in Ht. cbn in Ht, Henv. unfold call_states. destruct destination as [[place bb]|]; cbn in *.
  - destruct Henv as [[-> ->]|[-> Henv]].
    + eexists. split; [by left|]. by apply describes_assign.
    + eexists. split; [right; by left|]. by eapply describes_may_assign.
  - subst env'. destruct cleanup as [bb|]; [|by apply not_elem_of_nil in Ht]. apply list_elem_of_singleton in Ht as ->.
    exists s. split; [by left|done].
Qed.

(** ** The analysis *)

(** Successors are blocks of the body. *)
Definition well_formed mir : Prop :=
  0 < length (basic_blocks mir)
  /\ forall bb data t, basic_blocks mir !! bb = Some data -> t ∈ successors (terminator data) -> t < length (basic_blocks mir).

Definition no_inline_asm mir : Prop :=
  forall bb data, basic_blocks mir !! bb = Some data -> match terminator data with InlineAsm _ => False | _ => True end.

(** Blocks, and one visit more for each definition an edge may get. *)
Definition reaching_fuel mir : nat := fuel_bound (height := height mir) mir.

Lemma reaching_no_errors mir : no_inline_asm mir -> no_errors (D := State) mir.
Proof.
  intros Hn. split.
  - intros l s e. cbn. unfold apply_statement_effect. by destruct (statement_at mir l).
  - intros bb data s e E. cbn [Analysis.apply_terminator_effect domain]. rewrite (apply_terminator_effect_at mir bb data s E).
    specialize (Hn bb data E). by destruct (terminator data).
  - intros bb data s next t E. cbn [Analysis.apply_terminator_effect domain]. rewrite (apply_terminator_effect_at mir bb data s E).
    intros En Ht. clear E Hn. assert (Hsame : next = map (fun bb => (bb, s)) (successors (terminator data)) -> exists x, (t, x) ∈ next).
    { intros ->. exists s. apply list_elem_of_fmap. by exists t. }
    destruct (terminator data) as [| | | | | | | |f args destination cleanup| | | | | |]; cbn in En; try discriminate En;
      injection En as <-; try (by apply Hsame).
    apply successors_spec in Ht. cbn in Ht. unfold call_states.
    destruct destination as [[place bb']|], cleanup as [bb''|]; cbn in *; set_solver.
Qed.

Lemma reaching_definitions_run mir fuel : well_formed mir -> no_inline_asm mir -> reaching_fuel mir <= fuel ->
  exists p, run_fwd_analysis (D := State) mir fuel = Val p.
Proof.
  intros [_ Hc] Hn Hf. pose proof (run_fwd_analysis_total (D := State) mir Hc fuel Hf) as Ht.
  pose proof (fun e => run_fwd_analysis_no_error (D := State) mir (fun _ => eq_refl) fuel e (reaching_no_errors mir Hn)) as He.
  destruct (run_fwd_analysis mir fuel) as [p|e|]; [by exists p|by destruct (He e)|done].
Qed.

(** Whole locals are assigned by statements and calls. *)
Definition assigned_by_calls mir : Prop := forall bb data, basic_blocks mir !! bb = Some data -> only_calls_assign (terminator data).

(** A location of the body with a recorded state that describes the
    environment. *)
Definition covered mir (p : PointwiseState State) (st : Location * Env) : Prop :=
  exists data s, basic_blocks mir !! block (fst st) = Some data /\ statement_index (fst st) <= length (statements data)
    /\ lookup_before p (fst st) = Some s /\ describes s (snd st).

Lemma step_covered mir p st st' : well_formed mir -> assigned_by_calls mir ->
  (forall bb data, basic_blocks mir !! bb = Some data -> solves mir p bb data) ->
  step mir st st' -> covered mir p st -> covered mir p st'.
Proof.
  intros [_ Hc] Hcalls Hp Hst (data & s & E & Hi & Hs & Hd).
  destruct Hst as [[bb i] env target source Es|[bb i] env Es|bb data' env t env' E' Ht Henv]; cbn [fst snd block statement_index terminator_loc] in *.
  1,2: pose proof Es as (data' & E' & Ei)%statement_at_lookup; cbn [block statement_index] in *; assert (data' = data) as -> by congruence;
    apply lookup_lt_Some in Ei as Hlt; destruct (solves_statement _ _ _ _ (Hp bb data E) i Hlt) as (s0 & s' & Hs0 & Hef & Hs');
    assert (s0 = s) as -> by congruence; cbn in Hef; unfold apply_statement_effect in Hef; rewrite Es in Hef; injection Hef as <-;
    eexists data, _; (split_and!; [done|cbn; lia|exact Hs'|first [by apply describes_assign|done]]).
  assert (data' = data) as -> by congruence. destruct (solves_terminator _ _ _ _ (Hp bb data E)) as (s0 & next & Hs0 & Hn & He).
  assert (s0 = s) as -> by congruence. cbn [Analysis.apply_terminator_effect domain] in Hn. rewrite (apply_terminator_effect_at mir bb data s E) in Hn.
  destruct (terminator_describes _ _ _ _ _ _ _ (Hcalls bb data E) Ht Hd Henv Hn) as (x & Hx & Hdx). destruct (He t Ht) as (y & Ey & Hj).
  assert (exists data', basic_blocks mir !! t = Some data') as [data' Et]. { pose proof (Hc bb data t E Ht) as Hlt. by apply lookup_lt_is_Some in Hlt. }
  exists data', (input mir p t). split_and!; [done|cbn; lia|by apply (solves_input _ _ _ _ (Hp t data' Et))|].
  eapply describes_below; [|exact Hdx]. trans y.
  - exact (joined_upper (D := State) mir _ _ _ _ Hj Hx).
  - apply (foldl_join_upper (D := State) mir). apply list_elem_of_omap. exists bb. split; [|done]. apply predecessors_spec. by exists data.
Qed.

Lemma path_covered mir p st st' : well_formed mir -> assigned_by_calls mir ->
  (forall bb data, basic_blocks mir !! bb = Some data -> solves mir p bb data) ->
  rtc (step mir) st st' -> covered mir p st -> covered mir p st'.
Proof. intros Hw Ha Hp. induction 1; intros Hst; [done|]. apply IHrtc. by eapply step_covered. Qed.

Lemma start_covered mir p : well_formed mir ->
  (forall bb data, basic_blocks mir !! bb = Some data -> solves mir p bb data) ->
  covered mir p (make_location START_BLOCK 0, initial_env mir).
Proof.
  intros [Hl _] Hp. assert (exists data, basic_blocks mir !! START_BLOCK = Some data) as [data E] by by apply lookup_lt_is_Some in Hl.
  exists data, (input mir p START_BLOCK). split_and!; [done|cbn; lia|apply (solves_input _ _ _ _ (Hp _ _ E))|].
  eapply describes_below; [|apply initial_describes]. apply (foldl_join_ascending (D := State) mir).
Qed.

(** ** The theorems *)

(** What the analyzer records solves the equations of the analysis. *)
(** C15. The analyzer ends on the reaching definitions of a body without inline assembly,
    without a panic or an error, within a number of visits given by the blocks, edges and
    definitions of the body; what it records solves the equations: the state before a block is
    the join over the edges into it, and statements and terminators map the state before them to
    the state after them. *)
Theorem reaching_definitions_solve mir fuel : well_formed mir -> no_inline_asm mir -> reaching_fuel mir <= fuel ->
  exists p, run_fwd_analysis (D := State) mir fuel = Val p /\
    forall bb data, basic_blocks mir !! bb = Some data -> solves mir p bb data.
Proof.
  intros Hw Hn Hf. destruct (reaching_definitions_run mir fuel Hw Hn Hf) as [p Hp]. exists p. split; [done|].
  exact (run_fwd_analysis_solved (D := State) mir (fun _ => eq_refl) fuel p Hp).
Qed.

(** The state before a location holds the last definitions on every path to it. *)
(** C14. In a body whose whole locals are assigned by assignment statements and calls only (no
    DropAndReplace, Yield or inline assembly assigns one; the analysis overlooks those), the
    states that the analyzer records for the reaching definitions contain, before each location,
    the last definition of every local on every path of the control flow graph to that location,
    over calls that return and calls that unwind. *)
Theorem reaching_definitions_sound mir fuel p loc env l d : well_formed mir -> assigned_by_calls mir ->
  run_fwd_analysis (D := State) mir fuel = Val p ->
  rtc (step mir) (make_location START_BLOCK 0, initial_env mir) (loc, env) -> env !! l = Some d ->
  exists s, lookup_before p loc = Some s /\ d ∈ entry s l.
Proof.
  intros Hw Ha Hrun Hpath Hd.
  pose proof (run_fwd_analysis_solved (D := State) mir (fun _ => eq_refl) fuel p Hrun) as Hp.
  destruct (path_covered mir p _ _ Hw Ha Hp Hpath (start_covered mir p Hw Hp)) as (data & s & _ & _ & Hs & Hdesc).
  exists s. split; [done|by apply Hdesc].
Qed.
End Height.

(** ** A loop *)

Module ConcreteReaching.
Import ConcreteMir.

(** [_2 := ..; loop { if .. { break }; _2 := .. }] with a parameter. *)
Definition set_local (l : Local) : Statement := Assign (make_place l []) OtherRvalue.
Definition loop_body : Body := make_body
  [make_block_data [set_local 2] (Goto 1);
   make_block_data [] (SwitchInt Constant [2; 3]);
   make_block_data [set_local 2] (Goto 1);
   make_block_data [OtherStatement] Return] 3 1.

Lemma loop_well_formed : well_formed loop_body.
Proof.
  split; [cbn; lia|]. intros bb data t E Ht. cbn. do 4 (destruct bb as [|bb]; [injection E as <-; cbn in Ht; set_unfold; lia|]). done.
Qed.

Lemma loop_no_asm : no_inline_asm loop_body.
Proof. intros bb data E. do 4 (destruct bb as [|bb]; [by injection E as <-|]). done. Qed.

Lemma reaching_definitions_solve_witness : exists p, run_fwd_analysis (D := State) loop_body 200 = Val p /\
  forall bb data, basic_blocks loop_body !! bb = Some data -> solves loop_body p bb data.
Proof. apply (reaching_definitions_solve loop_body 200 loop_well_formed loop_no_asm). vm_compute. lia. Defined.

Definition recorded_states : PointwiseState State :=
  match run_fwd_analysis (D := State) loop_body 200 with Val p => p | _ => new_pointwise end.

Lemma loop_run : run_fwd_analysis (D := State) loop_body 200 = Val recorded_states.
Proof.
  destruct (reaching_definitions_run loop_body 200 loop_well_formed loop_no_asm) as [p Hp]; [vm_compute; lia|].
  unfold recorded_states. by rewrite Hp.
Qed.

(** Before the return both definitions of the variable reach. *)
Example both_reach : (s ← lookup_before recorded_states (make_location 3 0); Some (elements (entry s 2), elements (entry s 1)))
  = Some ([Assignment (make_location 2 0); Assignment (make_location 0 0)], [Parameter_ 0]).
Proof. vm_compute. reflexivity. Qed.

Lemma loop_path : rtc (step loop_body) (make_location START_BLOCK 0, initial_env loop_body)
  (make_location 3 0, define (initial_env loop_body) (make_place 2 []) (make_location 0 0)).
Proof.
  set (env := define _ _ _).
  apply (rtc_l _ _ (make_location 0 1, env)); [by eapply (step_assign loop_body (make_location 0 0)) |].
  apply (rtc_l _ _ (make_location 1 0, env)).
  { apply (step_terminator loop_body 0 (make_block_data [set_local 2] (Goto 1))); [done|by left|done]. }
  apply (rtc_l _ _ (make_location 3 0, env)); [|apply rtc_refl].
  apply (step_terminator loop_body 1 (make_block_data [] (SwitchInt Constant [2; 3]))); [done|right; by left|done].
Qed.

Lemma loop_calls : assigned_by_calls loop_body.
Proof. intros bb data E. do 4 (destruct bb as [|bb]; [injection E as <-; exact I|]). done. Qed.

Lemma reaching_definitions_sound_witness : exists s, lookup_before recorded_states (make_location 3 0) = Some s
  /\ Assignment (make_location 0 0) ∈ entry s 2.
Proof.
  apply (reaching_definitions_sound loop_body 200 recorded_states (make_location 3 0)
    (define (initial_env loop_body) (make_place 2 []) (make_location 0 0)) 2 (Assignment (make_location 0 0)) loop_well_formed loop_calls).
  - exact loop_run.
  - exact loop_path.
  - reflexivity.
Defined.
End ConcreteReaching.
