(* ===== verification/Liveness.v ===== *)
(** * Liveness of assignments

    The analysis of [environment/mir_analyses/liveness.rs], which computes the
    assignments to local variables that may reach a program point with a queue
    of work items.  It ends with exactly the assignments that reach a point on
    a path of the control flow graph. *)

From stdpp Require Import gmap list relations.
From S2P Require Import Prelude Mir Places Analysis AnalysisFacts ReachingFacts.

Record LocalAssignment : Type := make_assignment { target : Local; asg_location : Location }.

#[export] Instance LocalAssignment_eq_dec : EqDecision LocalAssignment.
Proof. solve_decision. Defined.
#[export] Instance LocalAssignment_countable : Countable LocalAssignment :=
  inj_countable' (fun a => (target a, asg_location a)) (fun x => make_assignment (fst x) (snd x)) (fun a => match a with make_assignment _ _ => eq_refl end).

Abbreviation AssignmentSet := (gset LocalAssignment).

Definition union_sets (sets : list AssignmentSet) : AssignmentSet := foldl (fun union_set set => union_set ∪ set) ∅ sets.

Definition replace_assignment (self : AssignmentSet) (local : Local) (location : Location) : AssignmentSet :=
  {[make_assignment local location]} ∪ filter (fun assignment => target assignment <> local) self.

Inductive WorkItem : Type :=
  | ApplyStatementEffects (location : Location)
  | ApplyTerminatorEffects (bb : BasicBlock)
  | MergeEffects (bb : BasicBlock).

(** The item that was pushed last comes first. *)
Record LivenessAnalysis : Type := make_liveness { result : AnalysisResult AssignmentSet; queue : list WorkItem }.

Section Liveness.
Context `{MirCrate} (mir : Body).
Implicit Types (self : LivenessAnalysis).

Definition new_liveness : LivenessAnalysis := make_liveness new_result [].

Definition insert_set_before (self : LivenessAnalysis) (bb : BasicBlock) (set : AssignmentSet) : LivenessAnalysis :=
  make_liveness (make_result (<[bb := set]> (before_block (result self))) (after_statement (result self))) (queue self).
Definition insert_set_after (self : LivenessAnalysis) (location : Location) (set : AssignmentSet) : LivenessAnalysis :=
  make_liveness (make_result (before_block (result self)) (<[location := set]> (after_statement (result self)))) (queue self).
Definition push_item (self : LivenessAnalysis) (item : WorkItem) : LivenessAnalysis := make_liveness (result self) (item :: queue self).

(** The locations of a block, with its terminator. *)
Definition block_locations (bb : BasicBlock) (data : BasicBlockData) : list Location :=
  map (make_location bb) (seq 0 (length (statements data) + 1)).

Definition indexed_blocks : list (BasicBlock * BasicBlockData) := imap (fun bb data => (bb, data)) (basic_blocks mir).

Definition initialize (self : LivenessAnalysis) : LivenessAnalysis :=
  foldl (fun self (b : BasicBlock * BasicBlockData) =>
      foldl (fun self location => insert_set_after self location ∅) (insert_set_before self (fst b) ∅) (block_locations (fst b) (snd b)))
    self indexed_blocks.

Definition block_items (bb : BasicBlock) (data : BasicBlockData) : list WorkItem :=
  MergeEffects bb :: map (fun location =>
    if Nat.eqb (statement_index location) (length (statements data)) then ApplyTerminatorEffects bb else ApplyStatementEffects location)
    (block_locations bb data).

Definition propagate_work_queue (self : LivenessAnalysis) : LivenessAnalysis :=
  let self := foldl (fun self (b : BasicBlock * BasicBlockData) => foldl push_item self (block_items (fst b) (snd b))) self indexed_blocks in
  make_liveness (result self) (rev (queue self)).

Definition replace_in_set (set : AssignmentSet) (place : Place) (location : Location) : AssignmentSet :=
  match projection place with [] => replace_assignment set (local place) location | _ => set end.

Definition get_set_before_statement (self : LivenessAnalysis) (location : Location) : option AssignmentSet :=
  match statement_index location with
  | 0 => before_block (result self) !! block location
  | S index => after_statement (result self) !! make_location (block location) index
  end.

Definition get_set_before_terminator (self : LivenessAnalysis) (bb : BasicBlock) : option AssignmentSet :=
  data ← basic_blocks mir !! bb;
  match length (statements data) with
  | 0 => before_block (result self) !! bb
  | S index => after_statement (result self) !! make_location bb index
  end.

Definition get_set_after_block (self : LivenessAnalysis) (bb : BasicBlock) : option AssignmentSet :=
  data ← basic_blocks mir !! bb; after_statement (result self) !! make_location bb (length (statements data)).

Definition update_set_after_statement (self : LivenessAnalysis) (location : Location) (set : AssignmentSet) : option LivenessAnalysis :=
  old_set ← after_statement (result self) !! location;
  if bool_decide ((old_set : AssignmentSet) = set) then Some self
  else
    data ← basic_blocks mir !! block location;
    let self := insert_set_after self location set in
    Some (if Nat.eqb (statement_index location + 1) (length (statements data)) then push_item self (ApplyTerminatorEffects (block location))
          else if Nat.eqb (statement_index location) (length (statements data)) then
            foldl (fun self successor => push_item self (MergeEffects successor)) self (successors (terminator data))
          else push_item self (ApplyStatementEffects (make_location (block location) (statement_index location + 1)))).

Definition apply_statement_effects (self : LivenessAnalysis) (location : Location) : option LivenessAnalysis :=
  data ← basic_blocks mir !! block location;
  statement ← statements data !! statement_index location;
  set ← get_set_before_statement self location;
  update_set_after_statement self location (match statement with Assign target _ => replace_in_set set target location | OtherStatement => set end).

Definition apply_terminator_effects (self : LivenessAnalysis) (bb : BasicBlock) : option LivenessAnalysis :=
  data ← basic_blocks mir !! bb;
  set ← get_set_before_terminator self bb;
  let location := make_location bb (length (statements data)) in
  update_set_after_statement self location (match terminator data with Call _ _ (Some (place, _)) _ => replace_in_set set place location | _ => set end).

Definition merge_effects (self : LivenessAnalysis) (bb : BasicBlock) : option LivenessAnalysis :=
  match predecessors mir bb with
  | [] => Some self
  | sets =>
      sets ← mapM_opt (get_set_after_block self) sets;
      let set := union_sets sets in
      old_set ← before_block (result self) !! bb;
      if bool_decide ((old_set : AssignmentSet) = set) then Some self
      else
        let self := insert_set_before self bb set in
        data ← basic_blocks mir !! bb;
        Some (push_item self (match length (statements data) with 0 => ApplyTerminatorEffects bb | S _ => ApplyStatementEffects (make_location bb 0) end))
  end.

Definition apply_item (self : LivenessAnalysis) (work_item : WorkItem) : option LivenessAnalysis :=
  match work_item with
  | ApplyStatementEffects location => apply_statement_effects self location
  | ApplyTerminatorEffects bb => apply_terminator_effects self bb
  | MergeEffects bb => merge_effects self bb
  end.

(** The assertion on the counter ends the loop. *)
Fixpoint run_liveness (fuel : nat) (counter : Z) (self : LivenessAnalysis) : option LivenessAnalysis :=
  match queue self with
  | [] => Some self
  | work_item :: queue =>
      match fuel with
      | 0 => None
      | S fuel =>
          _ ← assert_ (Z.leb counter 1000000);
          self ← apply_item (make_liveness (result self) queue) work_item;
          run_liveness fuel (counter + 1) self
      end
  end.

Definition compute_liveness (fuel : nat) : option (AnalysisResult AssignmentSet) :=
  self ← run_liveness fuel 0 (propagate_work_queue (initialize new_liveness)); Some (result self).
End Liveness.

(** ** Points and equations *)

Inductive Point : Type := Before (bb : BasicBlock) | After (loc : Location).

#[export] Instance Point_eq_dec : EqDecision Point.
Proof. solve_decision. Defined.

Section Facts.
Context `{MirLaws} (mir : Body).
Implicit Types (P Q : Point) (r : AnalysisResult AssignmentSet) (q : list WorkItem) (bb : nat) (loc : Location) (a : LocalAssignment).

Definition valid P : Prop :=
  match P with
  | Before bb => bb < length (basic_blocks mir)
  | After loc => exists data, basic_blocks mir !! block loc = Some data /\ statement_index loc <= length (statements data)
  end.

Definition get_set r P : option AssignmentSet := match P with Before bb => before_block r !! bb | After loc => after_statement r !! loc end.
Definition upd_set r P (v : AssignmentSet) : AnalysisResult AssignmentSet :=
  match P with
  | Before bb => make_result (<[bb := v]> (before_block r)) (after_statement r)
  | After loc => make_result (before_block r) (<[loc := v]> (after_statement r))
  end.
Definition set_at r P : AssignmentSet := match get_set r P with Some v => v | None => ∅ end.

Lemma get_upd r P Q v : get_set (upd_set r P v) Q = if decide (P = Q) then Some v else get_set r Q.
Proof.
  destruct (decide (P = Q)) as [<-|Hne].
  - destruct P; cbn; by rewrite lookup_insert_eq.
  - destruct P, Q; cbn; rewrite ?lookup_insert_ne by congruence; done.
Qed.

Lemma set_upd r P Q v : set_at (upd_set r P v) Q = if decide (P = Q) then v else set_at r Q.
Proof. unfold set_at. rewrite get_upd. by destruct (decide (P = Q)). Qed.

Definition block_end bb : Location := make_location bb (match basic_blocks mir !! bb with Some data => length (statements data) | None => 0 end).
Definition point_before loc : Point := match statement_index loc with 0 => Before (block loc) | S i => After (make_location (block loc) i) end.

(** The local that the analysis takes a statement or a terminator to assign. *)
Definition assigned loc : option nat :=
  data ← basic_blocks mir !! block loc;
  match statements data !! statement_index loc with
  | Some (Assign place _) => as_local place
  | Some OtherStatement => None
  | None => match terminator data with Call _ _ (Some (place, _)) _ => as_local place | _ => None end
  end.

Definition transfer loc (set : AssignmentSet) : AssignmentSet := match assigned loc with Some l => replace_assignment set l loc | None => set end.

Definition equation r P : AssignmentSet :=
  match P with
  | Before bb => union_sets (map (fun p => set_at r (After (block_end p))) (predecessors mir bb))
  | After loc => transfer loc (set_at r (point_before loc))
  end.

Definition item_of P : WorkItem :=
  match P with
  | Before bb => MergeEffects bb
  | After loc => if decide (loc = block_end (block loc)) then ApplyTerminatorEffects (block loc) else ApplyStatementEffects loc
  end.

(** The points whose equation uses a point. *)
Definition dependents P : list Point :=
  match P with
  | Before bb => [After (make_location bb 0)]
  | After loc =>
      if decide (loc = block_end (block loc)) then
        match basic_blocks mir !! block loc with Some data => map Before (successors (terminator data)) | None => [] end
      else [After (make_location (block loc) (statement_index loc + 1))]
  end.

Lemma union_sets_spec l a : a ∈ union_sets l <-> exists s, s ∈ l /\ a ∈ s.
Proof.
  unfold union_sets. enough (forall u, a ∈ foldl (fun (u s : AssignmentSet) => u ∪ s) u l <-> a ∈ u \/ exists s, s ∈ l /\ a ∈ s) as Hl by (rewrite Hl; set_solver).
  induction l as [|s l IH]; intros u; cbn [foldl]; [set_solver|]. rewrite IH, elem_of_union. set_solver.
Qed.

Lemma transfer_spec loc set a : a ∈ transfer loc set <-> (assigned loc = Some (target a) /\ asg_location a = loc) \/ (a ∈ set /\ assigned loc <> Some (target a)).
Proof.
  unfold transfer. destruct (assigned loc) as [l|]; [|split; [by right|intros [[? _]|[? _]]; done]]. unfold replace_assignment.
  rewrite elem_of_union, elem_of_singleton, elem_of_filter. split.
  - intros [->|[Hne Hin]]; [by left|right; split; [done|congruence]].
  - intros [[[= ->] <-]|[Hin Hne]]; [left; by destruct a|right; split; [congruence|done]].
Qed.

Lemma equation_mono r r' P : (forall Q, set_at r Q ⊆ set_at r' Q) -> equation r P ⊆ equation r' P.
Proof.
  intros Hr a. destruct P as [bb|loc]; cbn.
  - rewrite !union_sets_spec. intros (s & (p & -> & Hp)%list_elem_of_fmap & Ha). eexists. split; [apply list_elem_of_fmap; by exists p|]. by apply Hr.
  - rewrite !transfer_spec. intros [?|[Ha ?]]; [by left|right]. split; [by apply Hr|done].
Qed.

(** An equation uses the points it depends on. *)
Lemma equation_upd r P v Q : valid Q -> Q ∉ dependents P -> equation (upd_set r P v) Q = equation r Q.
Proof.
  intros Hv Hd. destruct Q as [bb|loc]; cbn.
  - f_equal. apply map_ext_in. intros p Hp%list_elem_of_In. rewrite set_upd. destruct (decide (P = After (block_end p))) as [->|]; [|done].
    exfalso. apply Hd. apply predecessors_spec in Hp as (data & Ed & Hs). cbn. unfold block_end at 2. cbn. rewrite decide_True by done. rewrite Ed. by apply list_elem_of_fmap_2.
  - rewrite set_upd. destruct (decide (P = point_before loc)) as [->|]; [|done]. exfalso. apply Hd. destruct loc as [b i], Hv as (data & Ed & Hi). cbn in *.
    unfold point_before. cbn. destruct i as [|i]; [by left|]. cbn. rewrite decide_False; [rewrite Nat.add_1_r; by left|]. unfold block_end. rewrite Ed. intros [= E]. lia.
Qed.

Lemma item_inj P Q : valid P -> valid Q -> item_of P = item_of Q -> P = Q.
Proof.
  destruct P as [bb|loc], Q as [bb'|loc']; cbn; intros _ _; [by intros [= ->]|by destruct (decide _)..|].
  destruct (decide (loc = _)) as [E|], (decide (loc' = _)) as [E'|]; intros [= Eb]; [|by subst]. rewrite E, E'. by rewrite Eb.
Qed.


(** ** One work item *)

Lemma get_set_at r P : is_Some (get_set r P) -> get_set r P = Some (set_at r P).
Proof. intros [v E]. unfold set_at. by rewrite E. Qed.

Lemma push_items r q items : foldl push_item (make_liveness r q) items = make_liveness r (rev items ++ q)%list.
Proof. revert q. induction items as [|i items IH]; intros q; [done|]. cbn [rev]. rewrite <- app_assoc. exact (IH (i :: q)). Qed.

Lemma push_merges r q bbs : foldl (fun self successor => push_item self (MergeEffects successor)) (make_liveness r q) bbs
  = make_liveness r (rev (map MergeEffects bbs) ++ q)%list.
Proof. rewrite <- push_items. generalize (make_liveness r q) as s. induction bbs as [|b bbs IH]; intros s; [done|]. apply IH. Qed.

(** What an item does: it solves the equation of a point, and asks for the
    points that depend on it. *)
Definition solved r q P : LivenessAnalysis :=
  if bool_decide (set_at r P = equation r P) then make_liveness r q
  else make_liveness (upd_set r P (equation r P)) (rev (map item_of (dependents P)) ++ q)%list.

Lemma update_spec r q loc set : valid (After loc) -> is_Some (get_set r (After loc)) -> set = equation r (After loc) ->
  update_set_after_statement mir (make_liveness r q) loc set = Some (solved r q (After loc)).
Proof.
  intros (data & Ed & Hi) Hs ->. apply get_set_at in Hs. unfold update_set_after_statement, solved. cbn [result]. cbn in Hs. rewrite Hs. cbn [mbind option_bind].
  case_bool_decide; [done|]. rewrite Ed. cbn [mbind option_bind]. f_equal. unfold dependents, insert_set_after. cbn [result queue before_block after_statement].
  destruct loc as [b i]. cbn [block statement_index] in *. assert (Hend : block_end b = make_location b (length (statements data))) by (unfold block_end; by rewrite Ed).
  rewrite Hend. destruct (Nat.eqb_spec (i + 1) (length (statements data))) as [E1|N1]; [|destruct (Nat.eqb_spec i (length (statements data))) as [E2|N2]].
  - rewrite decide_False by (intros [= E]; lia). cbn [map item_of block]. rewrite Hend, decide_True by by rewrite E1. done.
  - rewrite decide_True by by rewrite E2. rewrite Ed, push_merges, map_map. done.
  - rewrite decide_False by (intros [= E]; lia). cbn [map item_of block]. rewrite Hend, decide_False by (intros [= E]; lia). done.
Qed.

Lemma apply_item_spec r q P : (forall Q, valid Q -> is_Some (get_set r Q)) -> valid P -> (forall bb, P = Before bb -> predecessors mir bb = [] -> set_at r P = ∅) ->
  apply_item mir (make_liveness r q) (item_of P) = Some (solved r q P).
Proof.
  intros Hc Hv Hempty. destruct P as [bb|loc].
  - cbn [item_of apply_item]. unfold merge_effects. destruct (predecessors mir bb) as [|p0 ps] eqn:Ep.
    { unfold solved. cbn [equation]. rewrite Ep, (Hempty bb eq_refl Ep). by rewrite bool_decide_eq_true_2. }
    assert (Hall : mapM_opt (get_set_after_block mir (make_liveness r q)) (p0 :: ps) = Some (map (fun p => set_at r (After (block_end p))) (p0 :: ps))).
    { apply mapM_opt_total, Forall_forall. intros p Hp. rewrite <- Ep in Hp. apply predecessors_spec in Hp as (data & Ed & _).
      unfold get_set_after_block. rewrite Ed. cbn [mbind option_bind result]. assert (Hvp : valid (After (block_end p))).
      { exists data. unfold block_end. rewrite Ed. by split. }
      pose proof (get_set_at _ _ (Hc _ Hvp)) as Hg. cbn in Hg. unfold block_end in *. by rewrite Ed in *. }
    rewrite Hall. cbn [mbind option_bind]. pose proof (get_set_at _ _ (Hc _ Hv)) as Hg. cbn [get_set] in Hg. cbn [result]. rewrite Hg. cbn [mbind option_bind].
    unfold solved. cbn [equation]. rewrite Ep. case_bool_decide; [done|]. destruct (lookup_lt_is_Some_2 (basic_blocks mir) bb Hv) as [data Ed]. rewrite Ed.
    cbn [mbind option_bind dependents map item_of block]. unfold insert_set_before, push_item. cbn. f_equal. f_equal. f_equal. unfold block_end. rewrite Ed.
    destruct (length (statements data)); [by rewrite decide_True|by rewrite decide_False].
  - pose proof Hv as (data & Ed & Hi). destruct loc as [b i]. cbn [block statement_index] in *.
    assert (Hvb : valid (point_before (make_location b i))).
    { unfold point_before. cbn. destruct i as [|i]; cbn; [by eapply lookup_lt_Some|]. exists data. split; [done|lia]. }
    pose proof (get_set_at _ _ (Hc _ Hvb)) as Hg. cbn [item_of block]. unfold block_end. rewrite Ed.
    destruct (decide (make_location b i = make_location b (length (statements data)))) as [E|Hne].
    + injection E as ->. cbn [apply_item]. unfold apply_terminator_effects, get_set_before_terminator. rewrite Ed. cbn [mbind option_bind result].
      assert (Hp : match length (statements data) with 0 => before_block r !! b | S index => after_statement r !! make_location b index end
        = Some (set_at r (point_before (make_location b (length (statements data)))))).
      { unfold point_before in *. cbn in *. by destruct (length (statements data)). }
      rewrite Hp. cbn [mbind option_bind]. apply update_spec; [exists data; by split|apply Hc; exists data; by split|].
      cbn [equation]. unfold transfer, assigned. cbn [block statement_index]. rewrite Ed. cbn [mbind option_bind]. rewrite lookup_ge_None_2 by done.
      unfold replace_in_set, as_local. by destruct (terminator data) as [| | | | | | | |? ? [[[l []] ?]|] ?| | | | | |].
    + assert (Hlt : i < length (statements data)) by (destruct (decide (i = length (statements data))); [congruence|lia]).
      destruct (lookup_lt_is_Some_2 (statements data) i Hlt) as [stmt Est]. cbn [apply_item]. unfold apply_statement_effects, get_set_before_statement.
      cbn [block statement_index]. rewrite Ed. cbn [mbind option_bind]. rewrite Est. cbn [mbind option_bind result].
      assert (Hp : match i with 0 => before_block r !! b | S index => after_statement r !! make_location b index end
        = Some (set_at r (point_before (make_location b i)))) by (unfold point_before in *; cbn in *; by destruct i).
      rewrite Hp. cbn [mbind option_bind]. apply update_spec; [exists data; by split|apply Hc; exists data; by split|].
      cbn [equation]. unfold transfer, assigned. cbn [block statement_index]. rewrite Ed. cbn [mbind option_bind]. rewrite Est.
      unfold replace_in_set, as_local. by destruct stmt as [[l []] ?|].
Qed.

(** ** Assignments that reach a point *)

Inductive reaches_by (assigned : Location -> option nat) : LocalAssignment -> Point -> Prop :=
  | reach_assign loc l : assigned loc = Some l -> reaches_by assigned (make_assignment l loc) (After loc)
  | reach_keep a loc : reaches_by assigned a (point_before loc) -> assigned loc <> Some (target a) -> reaches_by assigned a (After loc)
  | reach_edge a p bb : p ∈ predecessors mir bb -> reaches_by assigned a (After (block_end p)) -> reaches_by assigned a (Before bb).

Abbreviation reaches_point := (reaches_by assigned).

(** The local that a statement or a terminator assigns as a whole, by the
    documentation of MIR. *)
Definition mir_assigned loc : option nat :=
  data ← basic_blocks mir !! block loc;
  match statements data !! statement_index loc with
  | Some (Assign place _) => as_local place
  | Some OtherStatement => None
  | None => place ← assigned_place (terminator data); as_local place
  end.

(** They are the same if only statements and calls assign whole locals. *)
Lemma assigned_by_mir : (forall bb data, basic_blocks mir !! bb = Some data -> only_calls_assign (terminator data)) ->
  forall loc, assigned loc = mir_assigned loc.
Proof.
  intros Hc loc. unfold assigned, mir_assigned. destruct (basic_blocks mir !! block loc) as [data|] eqn:E; cbn; [|done].
  specialize (Hc _ _ E). destruct (statements data !! statement_index loc); [done|]. by destruct (terminator data) as [| | | | | | | |? ? [[? ?]|] ?| | | | | |].
Qed.

Lemma reaches_by_ext f g a P : (forall loc, f loc = g loc) -> reaches_by f a P -> reaches_by g a P.
Proof.
  intros Hfg. induction 1 as [loc l E|a loc _ IH Hne|a p bb Hp _ IH]; [apply reach_assign|apply reach_keep|eapply reach_edge]; by rewrite <- ?Hfg.
Qed.

(** The assignment reaches the point: a path of the control flow graph leads
    from it to the point and does not assign the local again. *)
Definition mir_reaches : LocalAssignment -> Point -> Prop := reaches_by mir_assigned.

(** A set for every point, none too large; what is not solved is in the queue. *)
Record live_inv r q : Prop := {
  inv_complete : forall P, valid P -> is_Some (get_set r P);
  inv_queue : forall item, item ∈ q -> exists P, valid P /\ item = item_of P;
  inv_pending : forall P, valid P -> set_at r P = equation r P \/ item_of P ∈ q;
  inv_growth : forall P, set_at r P ⊆ equation r P;
  inv_reach : forall P a, a ∈ set_at r P -> reaches_point a P
}.

Lemma equation_reach r P a : (forall Q a, a ∈ set_at r Q -> reaches_point a Q) -> a ∈ equation r P -> reaches_point a P.
Proof.
  intros Hr. destruct P as [bb|loc]; cbn.
  - rewrite union_sets_spec. intros (s & (p & -> & Hp)%list_elem_of_fmap & Ha). eapply reach_edge; [done|by apply Hr].
  - rewrite transfer_spec. intros [[El <-]|[Ha Hne]]; [|apply reach_keep; [by apply Hr|done]]. destruct a. by apply reach_assign.
Qed.

(** The blocks the terminators lead to exist. *)
Hypothesis wf : forall bb data t, basic_blocks mir !! bb = Some data -> t ∈ successors (terminator data) -> t < length (basic_blocks mir).

Lemma dependents_valid P Q : valid P -> Q ∈ dependents P -> valid Q.
Proof.
  destruct P as [bb|loc]; cbn [dependents].
  - intros Hb ->%list_elem_of_singleton. destruct (lookup_lt_is_Some_2 (basic_blocks mir) bb Hb) as [data Ed]. exists data. split; [done|cbn; lia].
  - intros (data & Ed & Hi). destruct (decide _) as [E|Hne].
    + rewrite Ed. intros (t & -> & Ht)%list_elem_of_fmap. by eapply wf.
    + intros ->%list_elem_of_singleton. exists data. cbn. split; [done|]. destruct loc as [b i]. cbn in *. unfold block_end in Hne. rewrite Ed in Hne.
      destruct (decide (i = length (statements data))); [congruence|lia].
Qed.

Lemma solved_inv r q P : live_inv r (item_of P :: q) -> valid P -> live_inv (result (solved r q P)) (queue (solved r q P)).
Proof.
  intros [Hc Hq Hp Hg Hr] Hv. unfold solved. case_bool_decide as E; cbn [result queue].
  - split; [done|intros item Hin; apply Hq; by right| |done|done]. intros Q HvQ. destruct (decide (P = Q)) as [<-|Hne]; [by left|].
    destruct (Hp Q HvQ) as [?|[Ei|?]%elem_of_cons]; [by left| |by right]. by apply item_inj in Ei; [destruct Hne|..].
  - assert (Hle : forall Q, set_at r Q ⊆ set_at (upd_set r P (equation r P)) Q).
    { intros Q. rewrite set_upd. destruct (decide (P = Q)) as [<-|]; [apply Hg|done]. }
    split.
    + intros Q HvQ. rewrite get_upd. destruct (decide (P = Q)); [by eexists|by apply Hc].
    + intros item [Hin|Hin]%elem_of_app; [|apply Hq; by right]. apply list_elem_of_In, in_rev, list_elem_of_In, list_elem_of_fmap in Hin as (Q & -> & HQ).
      exists Q. split; [by eapply dependents_valid|done].
    + intros Q HvQ. destruct (decide (Q ∈ dependents P)) as [HQ|HQ].
      { right. apply elem_of_app. left. apply list_elem_of_In, in_rev. rewrite rev_involutive. by apply list_elem_of_In, list_elem_of_fmap_2. }
      rewrite equation_upd by done. rewrite set_upd. destruct (decide (P = Q)) as [<-|Hne]; [by left|].
      destruct (Hp Q HvQ) as [?|[Ei|?]%elem_of_cons]; [by left| |right; apply elem_of_app; by right]. by apply item_inj in Ei; [destruct Hne|..].
    + intros Q. rewrite set_upd. destruct (decide (P = Q)) as [<-|]; [by apply equation_mono|]. etrans; [apply Hg|by apply equation_mono].
    + intros Q a. rewrite set_upd. destruct (decide (P = Q)) as [<-|]; [by apply equation_reach|apply Hr].
Qed.


(** ** The number of work items *)

Definition block_points (b : BasicBlock * BasicBlockData) : list Point := Before (fst b) :: map After (block_locations (fst b) (snd b)).
Definition points : list Point := List.concat (map block_points (indexed_blocks mir)).
Definition all_assignments : gset LocalAssignment := list_to_set (omap (fun loc => l ← assigned loc; Some (make_assignment l loc)) (locations mir)).
Definition successor_count : nat := S (list_sum (map (fun data => length (successors (terminator data))) (basic_blocks mir))).

(** The assignments that may still be added. *)
Definition missing_at r P : nat := size all_assignments - size (set_at r P).
Definition lacking r : nat := list_sum (map (missing_at r) points).
Definition work r q : nat := lacking r * S successor_count + length q.

Definition liveness_fuel : nat := length points * (size all_assignments * S successor_count + 1).

Lemma location_valid loc : loc ∈ locations mir <-> valid (After loc).
Proof.
  unfold locations. rewrite list_elem_of_In, in_concat. split.
  - intros (l & (bb & data & -> & Ed)%list_elem_of_In%elem_of_lookup_imap & Hl%list_elem_of_In). apply list_elem_of_fmap in Hl as (i & -> & Hi%elem_of_seq).
    exists data. cbn. split; [done|lia].
  - intros (data & Ed & Hi). destruct loc as [b i]. cbn in *. eexists. split; [apply list_elem_of_In, elem_of_lookup_imap; by exists b, data|].
    apply list_elem_of_In. apply (list_elem_of_fmap_2 (make_location b) (seq 0 (S (length (statements data))))), elem_of_seq. lia.
Qed.

Lemma indexed_elem bb data : (bb, data) ∈ indexed_blocks mir <-> basic_blocks mir !! bb = Some data.
Proof. unfold indexed_blocks. rewrite elem_of_lookup_imap. naive_solver. Qed.

Lemma block_locations_elem bb data loc : loc ∈ block_locations bb data <-> block loc = bb /\ statement_index loc <= length (statements data).
Proof.
  unfold block_locations. rewrite list_elem_of_fmap. setoid_rewrite elem_of_seq. split; [intros (i & -> & Hi); cbn; split; [done|lia]|].
  intros [<- Hi]. exists (statement_index loc). split; [by destruct loc|lia].
Qed.

Lemma points_valid P : P ∈ points <-> valid P.
Proof.
  unfold points. rewrite list_elem_of_In, in_concat. setoid_rewrite <- list_elem_of_In. setoid_rewrite list_elem_of_fmap. split.
  - intros (l & ([bb data] & -> & Ed%indexed_elem) & HP). apply elem_of_cons in HP as [->|HP]; [by eapply lookup_lt_Some|].
    apply list_elem_of_fmap in HP as (loc & -> & Hl). apply block_locations_elem in Hl as [Eb Hi]. cbn in Eb, Hi. subst bb. by exists data.
  - destruct P as [bb|loc]; cbn.
    + intros Hb. destruct (lookup_lt_is_Some_2 (basic_blocks mir) bb Hb) as [data Ed]. exists (block_points (bb, data)). split; [exists (bb, data); by rewrite indexed_elem|by left].
    + intros (data & Ed & Hi). exists (block_points (block loc, data)). split; [exists (block loc, data); by rewrite indexed_elem|]. right. apply list_elem_of_fmap_2.
      by apply block_locations_elem.
Qed.

Lemma reaches_all a P : reaches_point a P -> valid P -> a ∈ all_assignments.
Proof.
  induction 1 as [loc l Ea|a loc _ IH _|a p bb Hp _ IH]; intros Hv.
  - apply elem_of_list_to_set, list_elem_of_omap. exists loc. split; [by apply location_valid|]. by rewrite Ea.
  - apply IH. destruct Hv as (data & Ed & Hi). unfold point_before. destruct (statement_index loc) as [|i]; [by eapply lookup_lt_Some|]. exists data. split; [done|cbn; lia].
  - apply IH. apply predecessors_spec in Hp as (data & Ed & _). exists data. unfold block_end. rewrite Ed. by split.
Qed.

Lemma dependents_length P : length (dependents P) <= successor_count.
Proof.
  unfold successor_count. destruct P as [bb|loc]; cbn [dependents]; [cbn; lia|]. destruct (decide _); [|cbn; lia].
  destruct (basic_blocks mir !! block loc) as [data|] eqn:Ed; [|cbn; lia]. rewrite length_map. apply list_elem_of_lookup_2 in Ed. clear wf. revert Ed.
  induction (basic_blocks mir) as [|d l IH]; [by intros ?%not_elem_of_nil|]. intros [->|Hin]%elem_of_cons; [cbn; lia|]. specialize (IH Hin). unfold list_sum in *. cbn in *. lia.
Qed.

Lemma sum_less (f g : Point -> nat) l P : (forall Q, g Q <= f Q) -> P ∈ l -> g P < f P -> list_sum (map g l) < list_sum (map f l).
Proof.
  intros Hle. assert (Hl : forall l, list_sum (map g l) <= list_sum (map f l)).
  { induction l0 as [|Q l0 IH]; [done|]. cbn. pose proof (Hle Q). unfold list_sum in *. lia. }
  induction l as [|Q l IH]; [by intros ?%not_elem_of_nil|]. intros [->|Hin]%elem_of_cons Hlt; cbn.
  - pose proof (Hl l). unfold list_sum in *. lia.
  - pose proof (Hle Q). specialize (IH Hin Hlt). unfold list_sum in *. lia.
Qed.

Lemma set_size r q P : live_inv r q -> valid P -> size (set_at r P) <= size all_assignments.
Proof. intros Hi Hv. apply subseteq_size. intros a Ha%(inv_reach _ _ Hi). by apply (reaches_all a P). Qed.

Lemma solved_work r q P : live_inv r (item_of P :: q) -> valid P -> work (result (solved r q P)) (queue (solved r q P)) < work r (item_of P :: q).
Proof.
  intros Hi Hv. pose proof (solved_inv r q P Hi Hv) as Hi'. unfold solved in *. case_bool_decide as E; cbn [result queue] in *; [unfold work; cbn; lia|].
  assert (Hlt : lacking (upd_set r P (equation r P)) < lacking r).
  { unfold lacking. apply (sum_less _ _ _ P); [|by apply points_valid|].
    - intros Q. unfold missing_at. rewrite set_upd. destruct (decide (P = Q)) as [<-|]; [|done]. pose proof (subseteq_size _ _ (inv_growth _ _ Hi P)). lia.
    - unfold missing_at. rewrite set_upd, decide_True by done. pose proof (set_size _ _ P Hi' Hv) as Hs. rewrite set_upd, decide_True in Hs by done.
      assert (Hss : set_at r P ⊂ equation r P) by (split; [apply (inv_growth _ _ Hi)|intros Hge; apply E; apply set_eq; intros x; split; [apply (inv_growth _ _ Hi)|apply Hge]]).
      pose proof (subset_size _ _ Hss). lia. }
  unfold work. rewrite length_app, length_rev, length_map. pose proof (dependents_length P). cbn [length]. nia.
Qed.

(** ** The loop *)

Lemma step_inv r q item : live_inv r (item :: q) -> exists self, apply_item mir (make_liveness r q) item = Some self
  /\ live_inv (result self) (queue self) /\ work (result self) (queue self) < work r (item :: q).
Proof.
  intros Hi. destruct (inv_queue _ _ Hi item ltac:(by left)) as (P & Hv & ->). exists (solved r q P). split_and!.
  - apply apply_item_spec; [apply Hi|done|]. intros bb -> Ep. pose proof (inv_growth _ _ Hi (Before bb)) as Hg. cbn in Hg. rewrite Ep in Hg. cbn in Hg. set_solver.
  - by apply solved_inv.
  - by apply solved_work.
Qed.

Lemma run_inv fuel : forall counter self self', live_inv (result self) (queue self) -> run_liveness mir fuel counter self = Some self' -> live_inv (result self') [].
Proof.
  induction fuel as [|fuel IH]; intros counter [r [|item q]] self' Hi; cbn [run_liveness queue]; [by intros [= <-]|done|by intros [= <-]|].
  destruct (assert_ _); cbn [mbind option_bind]; [|done]. cbn [result queue] in *. destruct (step_inv r q item Hi) as (self & E & Hi' & _). rewrite E. by apply IH.
Qed.

Lemma run_total fuel : forall counter self, live_inv (result self) (queue self) -> work (result self) (queue self) <= fuel ->
  (counter + Z.of_nat (work (result self) (queue self)) <= 1000001)%Z -> exists self', run_liveness mir fuel counter self = Some self'.
Proof.
  induction fuel as [|fuel IH]; intros counter [r [|item q]] Hi Hf Hb; cbn [run_liveness queue]; [by eexists|cbn in *; unfold work in Hf; cbn in Hf; lia|by eexists|].
  cbn [result queue] in *. destruct (step_inv r q item Hi) as (self & E & Hi' & Hw). rewrite (proj2 (Z.leb_le counter 1000000)) by lia. cbn [assert_ mbind option_bind].
  rewrite E. apply IH; [done|lia|lia].
Qed.
(** ** The start *)

Definition insert_empty self P : LivenessAnalysis := make_liveness (upd_set (result self) P ∅) (queue self).

Lemma initialize_points : initialize mir new_liveness = foldl insert_empty new_liveness points.
Proof.
  unfold initialize, points. generalize new_liveness as s. induction (indexed_blocks mir) as [|b l IH]; intros s; [done|].
  cbn [foldl map]. rewrite IH. cbn [List.concat]. rewrite foldl_app. f_equal. cbn [block_points foldl].
  assert (Hl : forall locs s', foldl (fun self location => insert_set_after self location ∅) s' locs = foldl insert_empty s' (map After locs)) by
    (intros locs; induction locs as [|loc locs IHl]; intros s'; [done|apply IHl]).
  exact (Hl _ (insert_empty s (Before (fst b)))).
Qed.

Lemma insert_empty_spec l : forall s, queue (foldl insert_empty s l) = queue s
  /\ forall P, get_set (result (foldl insert_empty s l)) P = if decide (P ∈ l) then Some ∅ else get_set (result s) P.
Proof.
  induction l as [|Q l IH]; intros s; [done|]. cbn [foldl]. destruct (IH (insert_empty s Q)) as [Hq Hg]. split; [by rewrite Hq|].
  intros P. rewrite Hg. cbn [insert_empty result]. rewrite get_upd. destruct (decide (P ∈ l)) as [Hl|Hl], (decide (P ∈ Q :: l)) as [Hc|Hc], (decide (Q = P)) as [->|Hne];
    try done; exfalso; set_solver.
Qed.

Lemma propagate_points self : queue self = [] -> propagate_work_queue mir self = make_liveness (result self) (map item_of points).
Proof.
  intros Hq. unfold propagate_work_queue.
  assert (Hfold : forall (l : list (BasicBlock * BasicBlockData)) s, foldl (fun self (b : BasicBlock * BasicBlockData) => foldl push_item self (block_items (fst b) (snd b))) s l
    = foldl push_item s (List.concat (map (fun b => block_items (fst b) (snd b)) l))).
  { induction l as [|b l IH]; intros s; [done|]. cbn [foldl map List.concat]. by rewrite foldl_app, IH. }
  rewrite Hfold. destruct self as [r q]. cbn in Hq. subst q. rewrite push_items, app_nil_r. cbn [result queue]. rewrite rev_involutive. f_equal.
  unfold points. rewrite concat_map, map_map. f_equal. apply map_ext_in. intros [bb data] Hb%list_elem_of_In%indexed_elem. cbn [fst snd block_points map].
  unfold block_items. f_equal. rewrite map_map. apply map_ext_in. intros [b i] [Eb Hi]%list_elem_of_In%block_locations_elem. cbn in *. subst b.
  unfold block_end. rewrite Hb. destruct (Nat.eqb_spec i (length (statements data))) as [->|Hne]; [by rewrite decide_True|]. rewrite decide_False by congruence. done.
Qed.

Definition start : LivenessAnalysis := propagate_work_queue mir (initialize mir new_liveness).

Lemma start_spec : live_inv (result start) (queue start) /\ work (result start) (queue start) <= liveness_fuel.
Proof.
  unfold start. rewrite initialize_points. destruct (insert_empty_spec points new_liveness) as [Hq Hg]. rewrite propagate_points by done.
  cbn [result queue]. set (r := result (foldl insert_empty new_liveness points)) in *.
  assert (Hempty : forall P, set_at r P = ∅).
  { intros P. unfold set_at. rewrite Hg. destruct (decide (P ∈ points)); [done|]. destruct P; cbn; by rewrite lookup_empty. }
  split.
  - split.
    + intros P Hv%points_valid. rewrite Hg, decide_True by done. by eexists.
    + intros item (P & -> & HP%points_valid)%list_elem_of_fmap. by exists P.
    + intros P HP%points_valid. right. by apply list_elem_of_fmap_2.
    + intros P. rewrite Hempty. set_solver.
    + intros P a. rewrite Hempty. set_solver.
  - unfold work, liveness_fuel, lacking. rewrite length_map.
    assert (Hl : forall l, list_sum (map (missing_at r) l) <= length l * size all_assignments).
    { induction l as [|P l IH]; [done|]. cbn. unfold list_sum in *. assert (missing_at r P <= size all_assignments) by (unfold missing_at; lia). lia. }
    specialize (Hl points). nia.
Qed.
End Facts.

Definition targets_exist `{MirCrate} (mir : Body) : Prop :=
  forall bb data t, basic_blocks mir !! bb = Some data -> t ∈ successors (terminator data) -> t < length (basic_blocks mir).

Lemma liveness_spec `{MirLaws} (mir : Body) fuel : targets_exist mir ->
  (liveness_fuel mir <= fuel -> (Z.of_nat (liveness_fuel mir) <= 1000001)%Z -> exists r, compute_liveness mir fuel = Some r)
  /\ forall r, compute_liveness mir fuel = Some r -> forall P, valid mir P -> exists set, get_set r P = Some set
       /\ forall a, a ∈ set <-> reaches_by mir (assigned mir) a P.
Proof.
  intros wf. destruct (start_spec mir wf) as [Hi Hw]. unfold compute_liveness. fold (start mir). split.
  - intros Hf Hb. destruct (run_total mir wf fuel 0 (start mir) Hi) as [self E]; [lia|lia|]. exists (result self). by rewrite E.
  - intros r. destruct (run_liveness mir fuel 0 (start mir)) as [self|] eqn:E; [|done]. cbn [mbind option_bind]. intros [= <-] P Hv.
    destruct (run_inv mir wf fuel 0 (start mir) self Hi E) as [Hc _ Hp _ Hr]. pose proof (get_set_at _ _ (Hc P Hv)) as Hg. exists (set_at (result self) P).
    split; [done|]. intros a. split; [apply Hr|]. intros Ha.
    assert (Heq : forall Q, valid mir Q -> set_at (result self) Q = equation mir (result self) Q) by (intros Q HQ; destruct (Hp Q HQ) as [|[]%not_elem_of_nil]; done).
    clear Hg. induction Ha as [loc l El|a loc _ IH Hne|a p bb Hin _ IH]; rewrite (Heq _ Hv); cbn [equation].
    + apply transfer_spec. by left.
    + apply transfer_spec. right. split; [|done]. apply IH. destruct Hv as (data & Ed & Hidx). unfold point_before.
      destruct (statement_index loc) as [|i]; [by eapply lookup_lt_Some|]. exists data. split; [done|cbn; lia].
    + apply union_sets_spec. eexists. split; [apply list_elem_of_fmap; by exists p|]. apply IH. apply predecessors_spec in Hin as (data & Ed & _).
      exists data. unfold block_end. rewrite Ed. by split.
Qed.

(** The analysis ends, if it does not need more work items than it allows, and
    its sets are the assignments that reach the points. *)
(** C17. In a body whose whole locals are assigned by assignment statements and calls only (no
    DropAndReplace, Yield or inline assembly assigns one), the liveness analysis ends without a
    panic if the work items it can need, a number given by the points, assignments and edges of
    the body, are within the limit of its counter; its sets are then exactly the assignments to
    locals that reach each point on a path of the control flow graph without another assignment
    to the local, where a call counts as an assignment of its destination on every edge out of
    it, also when it unwinds. *)
Theorem liveness_correct `{MirLaws} (mir : Body) fuel : targets_exist mir -> assigned_by_calls mir ->
  (liveness_fuel mir <= fuel -> (Z.of_nat (liveness_fuel mir) <= 1000001)%Z -> exists r, compute_liveness mir fuel = Some r)
  /\ forall r, compute_liveness mir fuel = Some r -> forall P, valid mir P -> exists set, get_set r P = Some set
       /\ forall a, a ∈ set <-> mir_reaches mir a P.
Proof.
  intros wf Hc. destruct (liveness_spec mir fuel wf) as [Ht Hr]. split; [exact Ht|]. intros r E P HP. destruct (Hr r E P HP) as (set & Es & Ha).
  exists set. split; [done|]. intros a. rewrite Ha. split; apply reaches_by_ext; intros loc; [|symmetry]; by apply assigned_by_mir.
Qed.

Module ConcreteLiveness.
Import ConcreteMir ConcreteReaching.

Example loop_liveness : (r ← compute_liveness loop_body 300; set ← get_set r (Before 3); Some (map asg_location (elements set)))
  = Some [make_location 2 0; make_location 0 0].
Proof. vm_compute. reflexivity. Qed.

Lemma loop_targets : targets_exist loop_body.
Proof. exact (proj2 loop_well_formed). Qed.

Lemma liveness_correct_witness : exists r, compute_liveness loop_body 300 = Some r /\
  forall P, valid loop_body P -> exists set, get_set r P = Some set /\ forall a, a ∈ set <-> mir_reaches loop_body a P.
Proof.
  destruct (liveness_correct loop_body 300 loop_targets loop_calls) as [Ht Hr]. destruct Ht as [r E]; [apply Nat.leb_le; vm_compute; reflexivity|apply Z.leb_le; vm_compute; reflexivity|].
  exists r. split; [exact E|]. exact (Hr r E).
Defined.
End ConcreteLiveness.
