(* ===== verification/Loops.v ===== *)
(** * Loops of a body

    The edges of a body that are not virtual ([mir_utils/real_edges.rs]) and
    the loops of a body ([environment/loops.rs]): back edges, natural loops,
    the order of the blocks, exits and nonconditional blocks of loops, and the
    places a loop reads and writes.  An iteration over a hash set or map goes
    over its elements in the order of [elements] or [map_to_list]; out of range
    indices and failed assertions are [None]. *)

From stdpp Require Import gmap list sorting.
From S2P Require Import Prelude Mir Places.

(** ** [RealEdges] *)

Module RealEdges.
Section RealEdges.
Context `{MirCrate}.

Record RealEdges : Type := make_edges { all_successors : list (list BasicBlock); all_predecessors : list (list BasicBlock) }.

Definition real_targets (terminator : Terminator) : list BasicBlock :=
  match terminator with
  | Goto target | Assert _ target _ => [target]
  | SwitchInt _ targets => targets
  | Resume | Abort | Return | GeneratorDrop | Unreachable => []
  | DropAndReplace _ _ target _ | Drop _ target _ => [target]
  | Call _ _ destination _ => match destination with Some (_, target) => [target] | None => [] end
  | FalseEdge real_target _ => [real_target]
  | FalseUnwind real_target _ => [real_target]
  | Yield _ resume _ _ => [resume]
  | InlineAsm destination => match destination with Some target => [target] | None => [] end
  end.

(** [v[index].push(x)]. *)
Definition push_at (v : list (list BasicBlock)) (index x : BasicBlock) : option (list (list BasicBlock)) :=
  row ← v !! index; Some (<[index := (row ++ [x])%list]> v).

Definition add_edge (bb : BasicBlock) (edges : option RealEdges) (target : BasicBlock) : option RealEdges :=
  edges ← edges;
  successors ← push_at (all_successors edges) bb target;
  predecessors ← push_at (all_predecessors edges) target bb;
  Some (make_edges successors predecessors).

Definition new (body : Body) : option RealEdges :=
  let empty := map (fun _ => []) (basic_blocks body) in
  foldl (fun edges block => foldl (add_edge (fst block)) edges (real_targets (terminator (snd block))))
    (Some (make_edges empty empty)) (imap (fun bb data => (bb, data)) (basic_blocks body)).

Definition successors (edges : RealEdges) (bb : BasicBlock) : option (list BasicBlock) := all_successors edges !! bb.
Definition predecessors (edges : RealEdges) (bb : BasicBlock) : option (list BasicBlock) := all_predecessors edges !! bb.
End RealEdges.
End RealEdges.
Import RealEdges (RealEdges).

(** ** Bodies of loops *)

Section Loops.
Context `{MirCrate}.

Definition add_predecessor (head : BasicBlock) (st : list BasicBlock * gset BasicBlock) (predecessor : BasicBlock) :
    list BasicBlock * gset BasicBlock :=
  let '(work_queue, body) := st in
  if bool_decide (predecessor ∈ body) then st
  else (if Nat.eqb predecessor head then work_queue else predecessor :: work_queue, {[predecessor]} ∪ body).

(** The last element of the queue comes first. *)
Fixpoint collect_loop (fuel : nat) (head : BasicBlock) (real_edges : RealEdges) (work_queue : list BasicBlock) (body : gset BasicBlock) :
    option (gset BasicBlock) :=
  match work_queue with
  | [] => Some body
  | current :: work_queue =>
      match fuel with
      | 0 => None
      | S fuel =>
          predecessors ← RealEdges.predecessors real_edges current;
          let '(work_queue, body) := foldl (add_predecessor head) (work_queue, body) predecessors in
          collect_loop fuel head real_edges work_queue body
      end
  end.

(** Every block is put into the queue at most once. *)
Definition collect_loop_body (head back_edge_source : BasicBlock) (real_edges : RealEdges) (body : gset BasicBlock) : option (gset BasicBlock) :=
  collect_loop (S (length (RealEdges.all_predecessors real_edges))) head real_edges [back_edge_source] ({[back_edge_source]} ∪ body).

(** ** Order of the blocks *)

Record Marks : Type := make_marks { sorted_blocks : list BasicBlock; permanent_mark : list bool; temporary_mark : list bool }.

(** The loop body is ordered before exit edges. *)
Definition successors_groups (loop_depth : BasicBlock -> nat) (current : BasicBlock) (succs : list BasicBlock) : list BasicBlock :=
  let curr_depth := loop_depth current in
  (List.filter (fun bb => Nat.ltb (loop_depth bb) curr_depth) succs
   ++ List.filter (fun bb => negb (Nat.ltb (loop_depth bb) curr_depth)) succs)%list.

Fixpoint visit (fuel : nat) (real_edges : RealEdges) (back_edges : gset (BasicBlock * BasicBlock)) (loop_depth : BasicBlock -> nat)
    (current : BasicBlock) (st : Marks) : option Marks :=
  match fuel with
  | 0 => None
  | S fuel =>
      permanent ← permanent_mark st !! current;
      if (permanent : bool) then Some st
      else
        temporary ← temporary_mark st !! current;
        _ ← assert_ (negb temporary);
        let st := make_marks (sorted_blocks st) (permanent_mark st) (<[current := true]> (temporary_mark st)) in
        succs ← RealEdges.successors real_edges current;
        st ← foldl (fun st successor =>
               st ← st;
               if bool_decide ((current, successor) ∈ back_edges) then Some st
               else visit fuel real_edges back_edges loop_depth successor st)
             (Some st) (successors_groups loop_depth current succs);
        Some (make_marks (sorted_blocks st ++ [current])%list (<[current := true]> (permanent_mark st)) (temporary_mark st))
  end.

(** [iter().position(|x| !*x)]. *)
Fixpoint first_unmarked (marks : list bool) : option nat :=
  match marks with
  | [] => None
  | mark :: marks => if mark then S <$> first_unmarked marks else Some 0
  end.

Fixpoint order_loop (rounds depth : nat) (real_edges : RealEdges) (back_edges : gset (BasicBlock * BasicBlock)) (loop_depth : BasicBlock -> nat)
    (st : Marks) : option Marks :=
  match first_unmarked (permanent_mark st) with
  | None => Some st
  | Some index =>
      match rounds with
      | 0 => None
      | S rounds =>
          st ← visit depth real_edges back_edges loop_depth index st;
          order_loop rounds depth real_edges back_edges loop_depth st
      end
  end.

(** Each round marks a block, and the blocks of a recursion are different. *)
Definition order_basic_blocks (mir : Body) (real_edges : RealEdges) (back_edges : gset (BasicBlock * BasicBlock)) (loop_depth : BasicBlock -> nat) :
    option (list BasicBlock) :=
  let n := length (basic_blocks mir) in
  st ← order_loop n (S n) real_edges back_edges loop_depth (make_marks [] (replicate n false) (replicate n false));
  Some (rev (sorted_blocks st)).

(** ** [ProcedureLoops] *)

Record ProcedureLoops : Type := make_loops {
  loop_heads : gset BasicBlock;
  loop_head_depths : gmap BasicBlock nat;
  loop_bodies : gmap BasicBlock (gset BasicBlock);
  ordered_loop_bodies : gmap BasicBlock (list BasicBlock);
  enclosing_loop_heads : gmap BasicBlock (list BasicBlock);
  loop_exit_blocks : gmap BasicBlock (list BasicBlock);
  nonconditional_loop_blocks : gmap BasicBlock (gset BasicBlock);
  back_edges : gset (BasicBlock * BasicBlock);
  ordered_blocks : list BasicBlock
}.

(** [sort_by_key]. *)
Fixpoint insert_by_key (key : BasicBlock -> nat) (x : BasicBlock) (l : list BasicBlock) : list BasicBlock :=
  match l with
  | [] => [x]
  | y :: l' => if Nat.leb (key x) (key y) then x :: l else y :: insert_by_key key x l'
  end.
Definition sort_by_key (key : BasicBlock -> nat) (l : list BasicBlock) : list BasicBlock := foldr (insert_by_key key) [] l.

(** One entry for each key. *)
Definition map_entries {A B} (f : BasicBlock -> A -> option B) (m : gmap BasicBlock A) : option (gmap BasicBlock B) :=
  entries ← mapM_opt (fun e : BasicBlock * A => b ← f (fst e) (snd e); Some (fst e, b)) (map_to_list m);
  Some (list_to_map entries).

Definition block_back_edges (mir : Body) (real_edges : RealEdges) (bb : BasicBlock) : option (list (BasicBlock * BasicBlock)) :=
  succs ← RealEdges.successors real_edges bb;
  Some (map (fun successor => (bb, successor)) (List.filter (is_dominated_by mir bb) succs)).

Definition find_back_edges (mir : Body) (real_edges : RealEdges) : option (gset (BasicBlock * BasicBlock)) :=
  edges ← mapM_opt (block_back_edges mir real_edges) (block_indices mir); Some (list_to_set (List.concat edges)).

Definition add_loop_body (real_edges : RealEdges) (bodies : option (gmap BasicBlock (gset BasicBlock))) (edge : BasicBlock * BasicBlock) :
    option (gmap BasicBlock (gset BasicBlock)) :=
  bodies ← bodies;
  let '(source, target) := edge in
  body ← collect_loop_body target source real_edges (match bodies !! target with Some body => body | None => ∅ end);
  Some (<[target := body]> bodies).

Definition find_loop_bodies (real_edges : RealEdges) (back_edges : gset (BasicBlock * BasicBlock)) : option (gmap BasicBlock (gset BasicBlock)) :=
  foldl (add_loop_body real_edges) (Some ∅) (elements back_edges).

Definition add_enclosing_head (loop_head : BasicBlock) (sets : gmap BasicBlock (gset BasicBlock)) (block : BasicBlock) : gmap BasicBlock (gset BasicBlock) :=
  <[block := {[loop_head]} ∪ match sets !! block with Some heads => heads | None => ∅ end]> sets.

Definition enclosing_loop_heads_set (loop_bodies : gmap BasicBlock (gset BasicBlock)) : gmap BasicBlock (gset BasicBlock) :=
  foldl (fun sets (e : BasicBlock * gset BasicBlock) => foldl (add_enclosing_head (fst e)) sets (elements (snd e))) ∅ (map_to_list loop_bodies).

(** The depth of a block: the depth of its innermost loop head. *)
Definition depth_of (enclosing : gmap BasicBlock (list BasicBlock)) (depths : gmap BasicBlock nat) (bb : BasicBlock) : nat :=
  match (heads ← enclosing !! bb; last heads) with
  | Some bb_head => match depths !! bb_head with Some depth => depth | None => 0 end
  | None => 0
  end.

Definition depth_key (depths : gmap BasicBlock nat) (bb : BasicBlock) : nat := match depths !! bb with Some depth => depth | None => 0 end.

(** [depths[..]] of all the keys, or a panic. *)
Definition sort_heads (depths : gmap BasicBlock nat) (heads : gset BasicBlock) : option (list BasicBlock) :=
  _ ← assert_ (forallb (fun bb => bool_decide (is_Some (depths !! bb))) (elements heads));
  Some (sort_by_key (depth_key depths) (elements heads)).

Definition is_switch_int (terminator : Terminator) : bool := match terminator with SwitchInt _ _ => true | _ => false end.

(** A block decides whether to exit from the loop. *)
Definition is_exit_block (mir : Body) (real_edges : RealEdges) (get_loop_depth : BasicBlock -> nat) (loop_head_depth : nat) (curr_bb : BasicBlock) : option bool :=
  data ← basic_blocks mir !! curr_bb;
  succs ← RealEdges.successors real_edges curr_bb;
  Some (is_switch_int (terminator data) && existsb (fun bb => Nat.ltb (get_loop_depth bb) loop_head_depth) succs).

Fixpoint exit_blocks (mir : Body) (real_edges : RealEdges) (get_loop_depth : BasicBlock -> nat) (loop_head_depth : nat) (ordered : list BasicBlock) :
    option (list BasicBlock) :=
  match ordered with
  | [] => Some []
  | curr_bb :: ordered =>
      is_exit ← is_exit_block mir real_edges get_loop_depth loop_head_depth curr_bb;
      rest ← exit_blocks mir real_edges get_loop_depth loop_head_depth ordered;
      Some (if (is_exit : bool) then curr_bb :: rest else rest)
  end.

(** [dominators.dominators(node)]: all the blocks that dominate a block. *)
Definition dominators_of (mir : Body) (node : BasicBlock) : gset BasicBlock := list_to_set (List.filter (is_dominated_by mir node) (block_indices mir)).

Definition restrict_blocks (mir : Body) (blocks : option (gmap BasicBlock (gset BasicBlock))) (edge : BasicBlock * BasicBlock) :
    option (gmap BasicBlock (gset BasicBlock)) :=
  blocks ← blocks;
  let '(back_edge_source, loop_head) := edge in
  set ← blocks !! loop_head;
  Some (<[loop_head := set ∩ dominators_of mir back_edge_source]> blocks).

Definition new_loops (mir : Body) (real_edges : RealEdges) : option ProcedureLoops :=
  back_edges ← find_back_edges mir real_edges;
  loop_bodies ← find_loop_bodies real_edges back_edges;
  let enclosing_set := enclosing_loop_heads_set loop_bodies in
  let loop_heads := dom loop_bodies in
  loop_head_depths ← map_entries (fun loop_head _ => heads ← enclosing_set !! loop_head; Some (size heads)) loop_bodies;
  enclosing_loop_heads ← map_entries (fun _ heads => sort_heads loop_head_depths heads) enclosing_set;
  let get_loop_depth := depth_of enclosing_loop_heads loop_head_depths in
  ordered_blocks ← order_basic_blocks mir real_edges back_edges get_loop_depth;
  let block_order := list_to_map (imap (fun i v => (v, i)) ordered_blocks) : gmap BasicBlock nat in
  ordered_loop_bodies ← map_entries (fun _ body => sort_heads block_order body) loop_bodies;
  loop_exit_blocks ← map_entries (fun loop_head ordered =>
      depth ← loop_head_depths !! loop_head; exit_blocks mir real_edges get_loop_depth depth ordered) ordered_loop_bodies;
  nonconditional_loop_blocks ← foldl (restrict_blocks mir) (Some loop_bodies) (elements back_edges);
  Some (make_loops loop_heads loop_head_depths loop_bodies ordered_loop_bodies enclosing_loop_heads loop_exit_blocks nonconditional_loop_blocks
    back_edges ordered_blocks).

(** ** Queries *)

Definition count_loop_heads (self : ProcedureLoops) : nat := size (loop_heads self).
Definition max_loop_nesting (self : ProcedureLoops) : nat := max_list (map snd (map_to_list (loop_head_depths self))).
Definition is_loop_head (self : ProcedureLoops) (bbi : BasicBlock) : bool := bool_decide (bbi ∈ loop_heads self).
Definition get_loop_exit_blocks (self : ProcedureLoops) (bbi : BasicBlock) : option (list BasicBlock) := loop_exit_blocks self !! bbi.
Definition is_conditional_branch (self : ProcedureLoops) (loop_head bbi : BasicBlock) : option bool :=
  blocks ← nonconditional_loop_blocks self !! loop_head; Some (negb (bool_decide (bbi ∈ (blocks : gset BasicBlock)))).
Definition get_enclosing_loop_heads (self : ProcedureLoops) (bbi : BasicBlock) : list BasicBlock :=
  match enclosing_loop_heads self !! bbi with Some heads => heads | None => [] end.
Definition get_loop_head (self : ProcedureLoops) (bbi : BasicBlock) : option BasicBlock := heads ← enclosing_loop_heads self !! bbi; last heads.
Definition get_loop_head_depth (self : ProcedureLoops) (bbi : BasicBlock) : option nat := loop_head_depths self !! bbi.
Definition get_loop_depth (self : ProcedureLoops) (bbi : BasicBlock) : option nat :=
  match get_loop_head self bbi with Some x => get_loop_head_depth self x | None => Some 0 end.
Definition get_loop_body (self : ProcedureLoops) (loop_head : BasicBlock) : option (list BasicBlock) := ordered_loop_bodies self !! loop_head.

Definition is_out_edge (self : ProcedureLoops) (from to : BasicBlock) : option bool :=
  match get_loop_head self from with
  | Some from_loop_head =>
      match get_loop_head self to with
      | Some to_loop_head =>
          if Nat.eqb from_loop_head to_loop_head || Nat.eqb to to_loop_head then Some false
          else heads ← enclosing_loop_heads self !! to; Some (negb (bool_decide (from_loop_head ∈ (heads : list BasicBlock))))
      | None => Some true
      end
  | None => Some false
  end.

(** The dominators are those of the body the loops were computed for. *)
Definition is_block_in_loop (mir : Body) (loop_head block : BasicBlock) : bool := is_dominated_by mir block loop_head.
End Loops.

(** ** Places a loop accesses *)

Inductive PlaceAccessKind : Type := Store | Read | MoveAccess | SharedBorrow | MutableBorrow.

#[export] Instance PlaceAccessKind_eq_dec : EqDecision PlaceAccessKind.
Proof. solve_decision. Defined.

Definition is_write_access (kind : PlaceAccessKind) : bool :=
  match kind with Store | MoveAccess => true | Read | MutableBorrow | SharedBorrow => false end.

(** [mir::visit::PlaceContext]: the uses the code names, the other uses, and
    what is no use. *)
Inductive PlaceContext : Type :=
  | MutatingStore | MutatingCall | MutatingBorrow | MutatingDrop
  | NonMutatingCopy | NonMutatingMove | NonMutatingInspect | NonMutatingSharedBorrow
  | OtherUse
  | NonUse.

Section Access.
Context `{MirCrate}.
(** [Visitor::visit_body]: the places of a body with their contexts. *)
Context (visit_body : Body -> list (Place * PlaceContext * Location)).

Record PlaceAccess : Type := make_access { location : Location; place : Place; kind : PlaceAccessKind }.

Definition access_kind (context : PlaceContext) : option PlaceAccessKind :=
  match context with
  | MutatingStore | MutatingCall => Some Store
  | MutatingBorrow => Some MutableBorrow
  | MutatingDrop => Some MoveAccess
  | NonMutatingCopy => Some Read
  | NonMutatingMove => Some MoveAccess
  | NonMutatingInspect => Some Read
  | NonMutatingSharedBorrow => Some SharedBorrow
  (* unimplemented! *)
  | OtherUse => None
  (* unreachable! *)
  | NonUse => None
  end.

Definition is_use (context : PlaceContext) : bool := match context with NonUse => false | _ => true end.

Definition visit_place (body : gset BasicBlock) (accessed_places : option (list PlaceAccess)) (x : Place * PlaceContext * Location) :
    option (list PlaceAccess) :=
  accessed_places ← accessed_places;
  let '(place, context, location) := x in
  if bool_decide (block location ∈ body) && is_use context then
    kind ← access_kind context; Some (accessed_places ++ [make_access location place kind])%list
  else Some accessed_places.

Definition compute_used_paths (self : ProcedureLoops) (loop_head : BasicBlock) (mir : Body) : option (list PlaceAccess) :=
  body ← loop_bodies self !! loop_head;
  foldl (visit_place body) (Some []) (visit_body mir).

Abbreviation Access := (Place * PlaceAccessKind)%type.

(** An access whose place is, or may become, initialised. *)
Definition possible_access (paths : gset Place) (access : Access) : bool :=
  existsb (fun initialised_place => is_prefix (fst access) initialised_place
    || (bool_decide (snd access = Store) && is_prefix initialised_place (fst access))) (elements paths).

Definition has_prefix_access (accesses : list Access) (selects : PlaceAccessKind -> bool) (place : Place) : bool :=
  existsb (fun potential => selects (snd potential) && negb (bool_decide (place = fst potential)) && is_prefix place (fst potential)) accesses.

(** One of the three loops over the accesses. *)
Definition add_leaf (accesses : list Access) (candidate selects : PlaceAccessKind -> bool) (others : list Place) (leaves : list Place) (access : Access) : list Place :=
  if candidate (snd access) then
    if has_prefix_access accesses selects (fst access) || bool_decide (fst access ∈ leaves) || bool_decide (fst access ∈ others) then leaves
    else (leaves ++ [fst access])%list
  else leaves.

Definition leaves_of (accesses : list Access) (candidate selects : PlaceAccessKind -> bool) (others : list Place) : list Place :=
  foldl (add_leaf accesses candidate selects others) [] accesses.

Definition read_and_write_leaves (accesses : list Access) : list Place * list Place * list Place :=
  let write_leaves := leaves_of accesses is_write_access is_write_access [] in
  let mut_borrow_leaves := leaves_of accesses (fun kind => bool_decide (kind = MutableBorrow))
    (fun kind => is_write_access kind || bool_decide (kind = MutableBorrow)) write_leaves in
  let read_leaves := leaves_of accesses (fun kind => negb (is_write_access kind)) (fun _ => true) (write_leaves ++ mut_borrow_leaves)%list in
  (write_leaves, mut_borrow_leaves, read_leaves).

Definition compute_read_and_write_leaves (self : ProcedureLoops) (loop_head : BasicBlock) (mir : Body) (definitely_initialised_paths : option (gset Place)) :
    option (list Place * list Place * list Place) :=
  accesses ← compute_used_paths self loop_head mir;
  let pairs := map (fun access => (place access, kind access)) accesses in
  let pairs := match definitely_initialised_paths with
               | Some paths => List.filter (possible_access paths) pairs
               | None => pairs
               end in
  Some (read_and_write_leaves pairs).
End Access.
