(* ===== verification/LoopsFacts.v ===== *)
(** * Natural loops, the order of the blocks, and the places of a loop

    The body of a loop is the natural loop of its back edges; the order of the
    blocks is a topological order of the edges that are no back edges, and it
    exists when these edges have no cycle; the leaves that a loop reads and
    writes cover the places it accesses. *)

From stdpp Require Import gmap list sorting.
From S2P Require Import Prelude Mir Places PlacesFacts Loops.
Import RealEdges (RealEdges).

Section Natural.
Context `{MirCrate}.
Implicit Types (e : RealEdges) (head source bb : BasicBlock) (body : gset BasicBlock) (queue : list BasicBlock).

(** ** Edges *)

Definition preds e bb : list BasicBlock := match RealEdges.predecessors e bb with Some l => l | None => [] end.
Definition succs e bb : list BasicBlock := match RealEdges.successors e bb with Some l => l | None => [] end.

(** Rows for [n] blocks, with blocks below [n]. *)
Record edges_wf (n : nat) e : Prop := {
  wf_successors : length (RealEdges.all_successors e) = n;
  wf_predecessors : length (RealEdges.all_predecessors e) = n;
  wf_succs : forall bb t, t ∈ succs e bb -> t < n;
  wf_preds : forall bb p, p ∈ preds e bb -> p < n;
  wf_both : forall bb t, t ∈ succs e bb <-> bb ∈ preds e t
}.

Definition row (v : list (list BasicBlock)) bb : list BasicBlock := match v !! bb with Some l => l | None => [] end.

Lemma push_at_spec v i x : i < length v -> exists v', RealEdges.push_at v i x = Some v' /\ length v' = length v
  /\ forall b y, y ∈ row v' b <-> y ∈ row v b \/ (b = i /\ y = x).
Proof.
  intros Hi. destruct (lookup_lt_is_Some_2 v i Hi) as [l Hl]. exists (<[i := (l ++ [x])%list]> v).
  unfold RealEdges.push_at. rewrite Hl. split; [done|]. split; [apply length_insert|]. intros b y. unfold row.
  destruct (decide (b = i)) as [->|Hne].
  - rewrite list_lookup_insert_eq, Hl by done. rewrite elem_of_app, list_elem_of_singleton. naive_solver.
  - rewrite list_lookup_insert_ne by done. naive_solver.
Qed.

Definition has_edge e bb t : Prop := t ∈ row (RealEdges.all_successors e) bb.

Record edges_of n e (R : BasicBlock -> BasicBlock -> Prop) : Prop := {
  of_successors : length (RealEdges.all_successors e) = n;
  of_predecessors : length (RealEdges.all_predecessors e) = n;
  of_succs : forall bb t, t ∈ row (RealEdges.all_successors e) bb <-> R bb t;
  of_preds : forall bb t, bb ∈ row (RealEdges.all_predecessors e) t <-> R bb t
}.

Lemma add_edge_spec n e R bb t : edges_of n e R -> bb < n -> t < n ->
  exists e', RealEdges.add_edge bb (Some e) t = Some e' /\ edges_of n e' (fun a b => R a b \/ (a = bb /\ b = t)).
Proof.
  intros [Hs Hp Hsr Hpr] Hb Ht. destruct (push_at_spec (RealEdges.all_successors e) bb t ltac:(lia)) as (v & Ev & Lv & Hv).
  destruct (push_at_spec (RealEdges.all_predecessors e) t bb ltac:(lia)) as (w & Ew & Lw & Hw).
  exists (RealEdges.make_edges v w). cbn. rewrite Ev, Ew. split; [done|]. split; cbn; [lia|lia| |].
  - intros a b. rewrite Hv, Hsr. naive_solver.
  - intros a b. rewrite Hw, Hpr. naive_solver.
Qed.

Lemma add_edges_spec n bb ts : bb < n -> (forall t, t ∈ ts -> t < n) -> forall e R, edges_of n e R ->
  exists e', foldl (RealEdges.add_edge bb) (Some e) ts = Some e' /\ edges_of n e' (fun a b => R a b \/ (a = bb /\ b ∈ ts)).
Proof.
  intros Hb. induction ts as [|t ts IH]; intros Ht e R He.
  - exists e. split; [done|]. destruct He as [? ? H1 H2]. split; [done..| |]; intros a b; rewrite ?H1, ?H2; set_solver.
  - destruct (add_edge_spec n e R bb t He Hb ltac:(apply Ht; by left)) as (e1 & E1 & He1). cbn [foldl]. rewrite E1.
    destruct (IH (fun x Hx => Ht x ltac:(by right)) e1 _ He1) as (e2 & E2 & [? ? H1 H2]). exists e2. split; [done|].
    split; [done..| |]; intros a b; rewrite ?H1, ?H2; set_solver.
Qed.

Lemma add_blocks_spec n (blocks : list (BasicBlock * BasicBlockData)) :
  (forall x, x ∈ blocks -> fst x < n /\ forall t, t ∈ RealEdges.real_targets (terminator (snd x)) -> t < n) -> forall e R, edges_of n e R ->
  exists e', foldl (fun edges block => foldl (RealEdges.add_edge (fst block)) edges (RealEdges.real_targets (terminator (snd block)))) (Some e) blocks = Some e'
    /\ edges_of n e' (fun a b => R a b \/ exists data, (a, data) ∈ blocks /\ b ∈ RealEdges.real_targets (terminator data)).
Proof.
  induction blocks as [|[bb data] blocks IH]; intros Hx e R He.
  - exists e. split; [done|]. destruct He as [? ? H1 H2]. split; [done..| |]; intros a b; rewrite ?H1, ?H2; set_solver.
  - destruct (Hx (bb, data) ltac:(by left)) as [Hb Ht].
    destruct (add_edges_spec n bb _ Hb Ht e R He) as (e1 & E1 & He1). cbn [foldl fst snd] in *. rewrite E1.
    destruct (IH (fun x Hx' => Hx x ltac:(by right)) e1 _ He1) as (e2 & E2 & [? ? H1 H2]). exists e2. split; [done|].
    split; [done..| |]; intros a b; rewrite ?H1, ?H2; setoid_rewrite elem_of_cons; cbn in *; naive_solver.
Qed.

(** The edges of a body whose targets are blocks. *)
Lemma real_edges_spec (mir : Body) :
  (forall bb data t, basic_blocks mir !! bb = Some data -> t ∈ RealEdges.real_targets (terminator data) -> t < length (basic_blocks mir)) ->
  exists e, RealEdges.new mir = Some e /\ edges_wf (length (basic_blocks mir)) e
    /\ forall bb t, t ∈ succs e bb <-> exists data, basic_blocks mir !! bb = Some data /\ t ∈ RealEdges.real_targets (terminator data).
Proof.
  intros Hc. set (n := length (basic_blocks mir)). unfold RealEdges.new.
  assert (Hin : forall bb data, (bb, data) ∈ imap (fun bb data => (bb, data)) (basic_blocks mir) <-> basic_blocks mir !! bb = Some data).
  { intros bb data. rewrite elem_of_lookup_imap. naive_solver. }
  destruct (add_blocks_spec n (imap (fun bb data => (bb, data)) (basic_blocks mir))) with
    (e := RealEdges.make_edges (map (fun _ => []) (basic_blocks mir)) (map (fun _ => []) (basic_blocks mir)))
    (R := fun _ _ : BasicBlock => False) as (e & E & [Hs Hp H1 H2]).
  { intros [bb data] Hx%Hin. split; [by eapply lookup_lt_Some|]. cbn. intros t. by apply (Hc bb). }
  { assert (Hrow : forall b x : BasicBlock, x ∈ row (map (fun _ => []) (basic_blocks mir)) b <-> False).
    { intros b x. unfold row. rewrite list_lookup_fmap. destruct (basic_blocks mir !! b); cbn; set_solver. }
    split; [apply length_map..| |]; intros a b; apply Hrow. }
  exists e. split; [exact E|].
  assert (Hsucc : forall bb t, t ∈ succs e bb <-> exists data, basic_blocks mir !! bb = Some data /\ t ∈ RealEdges.real_targets (terminator data)).
  { intros bb t. etrans; [apply H1|]. setoid_rewrite Hin. naive_solver. }
  split; [split; [done..| | |]|done].
  - intros bb t (data & Ed & Ht)%Hsucc. by eapply Hc.
  - intros bb p Hp'%H2. destruct Hp' as [[]|(data & Ed%Hin & _)]. by eapply lookup_lt_Some.
  - intros bb t. etrans; [apply H1|]. symmetry. apply H2.
Qed.

(** ** Natural loops *)

(** The code asks for the predecessors of the source, even if it is the head,
    and of the other blocks that are not the head. *)
Definition inner head source bb : Prop := bb <> head \/ bb = source.

(** The blocks that lead to the source without passing the head: a path to
    the source has the head, if at all, at its ends. *)
Inductive leads e head source : BasicBlock -> Prop :=
  | leads_refl : leads e head source source
  | leads_step c bb : leads e head source c -> inner head source c -> bb ∈ preds e c -> leads e head source bb.

Lemma closed_leads e head source body bb : (forall c, c ∈ body -> inner head source c -> forall p, p ∈ preds e c -> p ∈ body) ->
  source ∈ body -> leads e head source bb -> bb ∈ body.
Proof. intros Hc Hs. induction 1 as [|c bb _ IH Hne Hp]; [done|]. by apply (Hc c). Qed.

(** A set that was collected from some sources. *)
Definition collected e head body : Prop := exists sources : list BasicBlock, forall bb, bb ∈ body <-> exists s, s ∈ sources /\ leads e head s bb.

Lemma collected_preds e head body bb p : collected e head body -> bb ∈ body -> bb <> head -> p ∈ preds e bb -> p ∈ body.
Proof. intros [ss Hc] (s & Hs & Hl)%Hc Hne Hp. apply Hc. exists s. split; [done|]. eapply leads_step; [exact Hl|by left|done]. Qed.

Lemma collected_add e head source body body' : collected e head body -> (forall bb, bb ∈ body' <-> bb ∈ body \/ leads e head source bb) ->
  collected e head body'.
Proof. intros [ss Hc] Hb. exists (source :: ss). intros bb. rewrite Hb, Hc. setoid_rewrite elem_of_cons. naive_solver. Qed.

(** *** Counting *)

Lemma filter_length_le {A} (P Q : A -> Prop) `{!forall x, Decision (P x), !forall x, Decision (Q x)} (l : list A) :
  (forall x, P x -> Q x) -> length (filter P l) <= length (filter Q l).
Proof. intros HPQ. induction l as [|x l IH]; [done|]. rewrite !filter_cons. repeat case_decide; cbn; try lia. naive_solver. Qed.

Lemma filter_missing_lt {A} (P Q : A -> Prop) `{!forall x, Decision (P x), !forall x, Decision (Q x)} (l : list A) y :
  (forall x, P x -> Q x) -> y ∈ l -> Q y -> ~ P y -> length (filter P l) < length (filter Q l).
Proof.
  intros HPQ Hy HQ HP. induction l as [|x l IH]; [by apply not_elem_of_nil in Hy|]. pose proof (filter_length_le P Q l HPQ).
  rewrite !filter_cons. apply elem_of_cons in Hy as [->|Hy]; [|specialize (IH Hy)]; repeat case_decide; cbn; try lia; naive_solver.
Qed.

Definition missing n body : nat := length (filter (fun bb => bb ∉ body) (seq 0 n)).

Lemma missing_insert n body bb : bb ∉ body -> bb < n -> S (missing n ({[bb]} ∪ body)) <= missing n body.
Proof.
  intros Hb Hn. apply (filter_missing_lt (fun x => x ∉ {[bb]} ∪ body) (fun x => x ∉ body) (seq 0 n) bb); [set_solver| |done|set_solver].
  apply elem_of_seq. lia.
Qed.

(** The predecessors of one block. *)
Lemma add_predecessors_spec n head ps : (forall p, p ∈ ps -> p < n) -> forall queue body,
  exists queue' body', foldl (add_predecessor head) (queue, body) ps = (queue', body')
  /\ (forall bb, bb ∈ body' <-> bb ∈ body \/ bb ∈ ps)
  /\ (forall bb, bb ∈ queue' <-> bb ∈ queue \/ (bb ∈ ps /\ bb ∉ body /\ bb <> head))
  /\ length queue' + missing n body' <= length queue + missing n body.
Proof.
  induction ps as [|p ps IH]; intros Hp queue body; [exists queue, body; split_and!; [done| | |done]; set_solver|].
  cbn [foldl]. unfold add_predecessor at 2. case_bool_decide as Hb.
  - destruct (IH (fun x Hx => Hp x ltac:(by right)) queue body) as (queue' & body' & E & H1 & H2 & H3). exists queue', body'. split_and!; [done| | |done].
    + intros bb. rewrite H1. set_solver.
    + intros bb. rewrite H2. set_solver.
  - destruct (IH (fun x Hx => Hp x ltac:(by right)) (if Nat.eqb p head then queue else p :: queue) ({[p]} ∪ body)) as (queue' & body' & E & H1 & H2 & H3).
    exists queue', body'. split_and!; [done| | |].
    + intros bb. rewrite H1. set_solver.
    + intros bb. rewrite H2. destruct (Nat.eqb_spec p head) as [->|Hne]; [|destruct (decide (bb = p)) as [->|]]; set_solver.
    + pose proof (missing_insert n body p Hb ltac:(apply Hp; by left)). destruct (Nat.eqb p head); cbn [length] in *; lia.
Qed.

Record collecting n e head source body0 queue body : Prop := {
  collecting_queue : forall bb, bb ∈ queue -> bb ∈ body /\ inner head source bb /\ bb < n;
  collecting_open : forall bb, bb ∈ body -> inner head source bb -> bb ∈ queue \/ forall p, p ∈ preds e bb -> p ∈ body;
  collecting_sound : forall bb, bb ∈ body -> bb ∈ body0 \/ leads e head source bb;
  collecting_start : body0 ⊆ body /\ source ∈ body
}.

Lemma natural_loop_spec n e head source body0 : collected e head body0 -> edges_wf n e -> forall fuel queue body,
  collecting n e head source body0 queue body -> length queue + missing n body <= fuel ->
  exists body', collect_loop fuel head e queue body = Some body'
    /\ forall bb, bb ∈ body' <-> bb ∈ body0 \/ leads e head source bb.
Proof.
  intros Hc0 Hwf. induction fuel as [|fuel IH]; intros [|current queue] body [Hq Ho Hs [H0 Hsrc]] Hf; cbn [length] in Hf; try lia.
  1,2: exists body; split; [done|];
    intros bb; split; [apply Hs|intros [Hb|Hl]; [by apply H0|]]; eapply closed_leads; [|exact Hsrc|exact Hl];
    intros x Hx Hne; by destruct (Ho x Hx Hne) as [?%not_elem_of_nil|].
  cbn [collect_loop]. destruct (Hq current ltac:(by left)) as (Hcb & Hch & Hcn).
  destruct (lookup_lt_is_Some_2 (RealEdges.all_predecessors e) current) as [ps Hps]; [by rewrite (wf_predecessors _ _ Hwf)|].
  unfold RealEdges.predecessors at 1. rewrite Hps. cbn.
  assert (Hpreds : preds e current = ps) by (unfold preds, RealEdges.predecessors; by rewrite Hps).
  destruct (add_predecessors_spec n head ps) with (queue := queue) (body := body) as (queue' & body' & E & H1 & H2 & H3).
  { intros p Hp. apply (wf_preds _ _ Hwf current). by rewrite Hpreds. }
  rewrite E. apply IH; [|lia]. split.
  - intros bb [Hb|(Hb & _ & Hne)]%H2.
    + destruct (Hq bb ltac:(by right)) as (? & ? & ?). split_and!; [apply H1; by left|done..].
    + split_and!; [apply H1; by right|by left|]. apply (wf_preds _ _ Hwf current). by rewrite Hpreds.
  - intros bb Hb%H1 Hne. destruct (decide (bb = current)) as [->|Hcur]; [right; intros p Hp; apply H1; right; by rewrite Hpreds in Hp|].
    destruct (decide (bb ∈ body)) as [Hin|Hout].
    + destruct (Ho bb Hin Hne) as [[->|Hq']%elem_of_cons|Hp]; [done|left; apply H2; by left|right; intros p Hp'; apply H1; left; by apply Hp].
    + left. apply H2. right. destruct Hb as [Hb|Hb]; [done|]. split_and!; [done..|]. destruct Hne as [Hne|Hsource]; [done|congruence].
  - intros bb [Hb|Hb]%H1; [by apply Hs|]. rewrite <- Hpreds in Hb. destruct (Hs current Hcb) as [Hc|Hc].
    + destruct Hch as [Hch| ->]; [left; by apply (collected_preds e head body0 current)|]. right. eapply leads_step; [apply leads_refl|by right|done].
    + right. by eapply leads_step.
  - split; [intros bb Hb; apply H1; left; by apply H0|apply H1; by left].
Qed.

Lemma missing_le n body : missing n body <= n.
Proof. unfold missing. etrans; [apply length_filter|]. by rewrite length_seq. Qed.

Lemma collect_loop_body_spec n e head source body : edges_wf n e -> source < n -> collected e head body ->
  exists body', collect_loop_body head source e body = Some body'
    /\ forall bb, bb ∈ body' <-> bb ∈ body \/ leads e head source bb.
Proof.
  intros Hwf Hn Hc. apply (natural_loop_spec n e head source body Hc Hwf).
  - split.
    + intros bb ->%list_elem_of_singleton. split_and!; [set_solver|by right|done].
    + intros bb Hb Hh. destruct (decide (bb = source)) as [->|Hne]; [left; by left|]. destruct Hh as [Hh|]; [|done]. right. intros p Hp.
      apply elem_of_union_r. apply elem_of_union in Hb as [Hb%elem_of_singleton|Hb]; [done|]. by apply (collected_preds e head body bb).
    + intros bb [->%elem_of_singleton|Hb]%elem_of_union; [right; apply leads_refl|by left].
    + set_solver.
  - rewrite (wf_predecessors _ _ Hwf). pose proof (missing_le n ({[source]} ∪ body)). cbn. lia.
Qed.

Lemma add_loop_bodies_spec n e edges : edges_wf n e -> (forall s h, (s, h) ∈ edges -> s < n) -> forall bodies,
  (forall h body, bodies !! h = Some body -> collected e h body) ->
  exists bodies', foldl (add_loop_body e) (Some bodies) edges = Some bodies'
    /\ forall h bb, (exists body, bodies' !! h = Some body /\ bb ∈ body)
         <-> (exists body, bodies !! h = Some body /\ bb ∈ body) \/ exists s, (s, h) ∈ edges /\ leads e h s bb.
Proof.
  intros Hwf. induction edges as [|[s h] edges IH]; intros He bodies Hc.
  { exists bodies. split; [done|]. intros h bb. set_solver. }
  pose proof (He s h ltac:(by left)) as Hn. cbn [foldl]. set (old := match bodies !! h with Some body => body | None => ∅ end).
  assert (Hold : collected e h old) by (unfold old; destruct (bodies !! h) eqn:Eh; [by eapply Hc|exists []; set_solver]).
  destruct (collect_loop_body_spec n e h s old Hwf Hn Hold) as (body & Eb & Hb).
  assert (Hadd : add_loop_body e (Some bodies) (s, h) = Some (<[h := body]> bodies)).
  { unfold add_loop_body. cbn [mbind option_bind]. fold old. by rewrite Eb. }
  rewrite Hadd. destruct (IH (fun s h Hin => He s h ltac:(by right)) (<[h := body]> bodies)) as (bodies' & E & Hall).
  { intros x b. destruct (decide (x = h)) as [->|Hx]; [rewrite lookup_insert_eq; intros [= <-]; by apply (collected_add e h s old)|]. rewrite lookup_insert_ne by done. apply Hc. }
  exists bodies'. split; [exact E|]. intros x bb. rewrite Hall. destruct (decide (x = h)) as [->|Hx].
  - rewrite lookup_insert_eq. setoid_rewrite elem_of_cons. split.
    + intros [(b & [= <-] & Hin%Hb)|(s' & Hin & Hl)]; [|right; exists s'; auto]. destruct Hin as [Hin|Hl]; [left|right; exists s; auto].
      unfold old in Hin. destruct (bodies !! h) as [b|]; [by exists b|set_solver].
    + intros [(b & Eb' & Hin)|(s' & [[= ->]|Hin] & Hl)]; [left; exists body; split; [done|]; apply Hb; left; unfold old; by rewrite Eb'| |].
      * left. exists body. split; [done|]. apply Hb. by right.
      * right. by exists s'.
  - rewrite lookup_insert_ne by done. setoid_rewrite elem_of_cons. naive_solver.
Qed.
End Natural.

(** ** The order of the blocks *)

Section Order.
Context `{MirCrate} (n : nat) (e : RealEdges) (back_edges : gset (nat * nat)) (loop_depth : nat -> nat).
Hypothesis wf : edges_wf n e.
Implicit Types (st : Marks) (u v b : nat).

Definition forward u v : Prop := v ∈ succs e u /\ (u, v) ∉ back_edges.

(** The blocks of a prefix of the list have their successors before them. *)
Definition ordered (l : list nat) : Prop := forall l1 u l2 v, l = (l1 ++ u :: l2)%list -> forward u v -> v ∈ l1.

Record order_inv st : Prop := {
  inv_permanent : length (permanent_mark st) = n;
  inv_temporary : length (temporary_mark st) = n;
  inv_sorted : forall b, b ∈ sorted_blocks st <-> permanent_mark st !! b = Some true;
  inv_nodup : NoDup (sorted_blocks st);
  inv_ordered : ordered (sorted_blocks st);
  inv_marks : forall b, permanent_mark st !! b = Some true -> temporary_mark st !! b = Some true
}.

(** What a visit adds. *)
Record extends st st' : Prop := {
  ext_inv : order_inv st';
  ext_sorted : exists l, sorted_blocks st' = (sorted_blocks st ++ l)%list /\ forall b, b ∈ l -> temporary_mark st !! b <> Some true;
  ext_temporary : forall b, temporary_mark st' !! b = Some true <-> temporary_mark st !! b = Some true \/ b ∈ sorted_blocks st'
}.

Lemma extends_refl st : order_inv st -> extends st st.
Proof.
  intros Hi. split; [done|exists []; rewrite app_nil_r; split; [done|by intros b ?%not_elem_of_nil]|].
  intros b. split; [by left|]. intros [|Hb]; [done|]. by apply (inv_marks _ Hi), (inv_sorted _ Hi).
Qed.

Lemma extends_marks_trans st1 st2 st3 : extends st1 st2 -> extends st2 st3 -> extends st1 st3.
Proof.
  intros [I2 (l2 & E2 & H2) T2] [I3 (l3 & E3 & H3) T3]. split; [done| |].
  - exists (l2 ++ l3)%list. rewrite E3, E2, app_assoc. split; [done|]. intros b [Hb|Hb]%elem_of_app; [by apply H2|].
    intros Ht. apply (H3 b Hb), T2. by left.
  - intros b. rewrite T3, T2, E3. set_solver.
Qed.

Lemma extends_elem st st' b : extends st st' -> b ∈ sorted_blocks st -> b ∈ sorted_blocks st'.
Proof. intros [_ (l & -> & _) _] Hb. apply elem_of_app. by left. Qed.

Lemma ordered_snoc l u : ordered l -> (forall v, forward u v -> v ∈ l) -> ordered (l ++ [u])%list.
Proof.
  intros Ho Hu l1 w l2 v E Hf. destruct l2 as [|x l2 _] using rev_ind.
  - apply app_inj_tail in E as [-> ->]. by apply Hu.
  - rewrite app_comm_cons, app_assoc in E. apply app_inj_tail in E as [-> ->]. by eapply Ho.
Qed.

Definition visit_successor fuel u (st : option Marks) v : option Marks :=
  st ← st; if bool_decide ((u, v) ∈ back_edges) then Some st else visit fuel e back_edges loop_depth v st.

Lemma visit_unfold fuel u st : visit (S fuel) e back_edges loop_depth u st =
  permanent ← permanent_mark st !! u;
  if (permanent : bool) then Some st
  else
    temporary ← temporary_mark st !! u;
    _ ← assert_ (negb temporary);
    succs ← RealEdges.successors e u;
    st ← foldl (visit_successor fuel u) (Some (make_marks (sorted_blocks st) (permanent_mark st) (<[u := true]> (temporary_mark st))))
           (successors_groups loop_depth u succs);
    Some (make_marks (sorted_blocks st ++ [u])%list (<[u := true]> (permanent_mark st)) (temporary_mark st)).
Proof. reflexivity. Qed.

Lemma foldl_visit_none fuel u l : foldl (visit_successor fuel u) None l = None.
Proof. induction l; [done|]. by cbn. Qed.

Lemma successors_groups_elem u l v : v ∈ successors_groups loop_depth u l <-> v ∈ l.
Proof.
  unfold successors_groups. rewrite elem_of_app, !list_elem_of_In, !filter_In. destruct (Nat.ltb _ _); cbn; tauto.
Qed.

(** The current block is marked. *)
Lemma mark_temporary st u : order_inv st -> permanent_mark st !! u = Some false ->
  order_inv (make_marks (sorted_blocks st) (permanent_mark st) (<[u := true]> (temporary_mark st))).
Proof.
  intros [Lp Lt Hs Hn Ho Hm] Hu. split; cbn; try done; [by rewrite length_insert|]. intros b Hb.
  destruct (decide (b = u)) as [->|Hne]; [congruence|]. rewrite list_lookup_insert_ne by done. by apply Hm.
Qed.

Lemma mark_permanent st st1 st2 u : order_inv st -> temporary_mark st !! u = Some false ->
  st1 = make_marks (sorted_blocks st) (permanent_mark st) (<[u := true]> (temporary_mark st)) ->
  extends st1 st2 -> (forall v, forward u v -> v ∈ sorted_blocks st2) ->
  extends st (make_marks (sorted_blocks st2 ++ [u])%list (<[u := true]> (permanent_mark st2)) (temporary_mark st2)).
Proof.
  intros Hi Hu -> [[Lp Lt Hs Hn Ho Hm] (l & El & Hl) Ht] Hf. cbn in *.
  assert (Hun : u < length (temporary_mark st)) by by eapply lookup_lt_Some.
  assert (Hus : u ∉ sorted_blocks st2).
  { rewrite El. intros [Hb|Hb]%elem_of_app.
    - apply (inv_sorted _ Hi), (inv_marks _ Hi) in Hb. congruence.
    - apply (Hl u Hb). by rewrite list_lookup_insert_eq. }
  assert (Htu : temporary_mark st2 !! u = Some true) by (apply Ht; left; by rewrite list_lookup_insert_eq).
  split; [split; cbn| |]; cbn.
  - by rewrite length_insert.
  - done.
  - intros b. rewrite elem_of_app, list_elem_of_singleton. destruct (decide (b = u)) as [->|Hne].
    + rewrite list_lookup_insert_eq by (rewrite Lp, <- (inv_temporary _ Hi); done). split; [done|by right].
    + rewrite list_lookup_insert_ne, <- Hs by done. naive_solver.
  - apply NoDup_app. split; [done|]. split; [|apply NoDup_singleton]. intros x Hx ->%list_elem_of_singleton. done.
  - by apply ordered_snoc.
  - intros b Hb. destruct (decide (b = u)) as [->|Hne]; [done|]. rewrite list_lookup_insert_ne in Hb by done. by apply Hm.
  - exists (l ++ [u])%list. rewrite El, app_assoc. split; [done|]. intros b [Hb|Hb]%elem_of_app.
    + specialize (Hl b Hb). destruct (decide (b = u)) as [->|Hne]; [by rewrite list_lookup_insert_eq in Hl|]. by rewrite list_lookup_insert_ne in Hl.
    + apply list_elem_of_singleton in Hb as ->. congruence.
  - intros b. rewrite Ht, elem_of_app, list_elem_of_singleton. destruct (decide (b = u)) as [->|Hne].
    + rewrite list_lookup_insert_eq by done. naive_solver.
    + rewrite list_lookup_insert_ne by done. naive_solver.
Qed.

Lemma visit_extends fuel : forall u st st', visit fuel e back_edges loop_depth u st = Some st' -> order_inv st ->
  extends st st' /\ u ∈ sorted_blocks st'.
Proof.
  induction fuel as [|fuel IH]; intros u st st'; [done|]. rewrite visit_unfold. intros Ev Hi.
  destruct (permanent_mark st !! u) as [[|]|] eqn:Ep; cbn -[lookup successors_groups] in Ev; [|  |done].
  { injection Ev as <-. split; [by apply extends_refl|by apply (inv_sorted _ Hi)]. }
  destruct (temporary_mark st !! u) as [[|]|] eqn:Et; cbn -[lookup successors_groups] in Ev; try done.
  destruct (RealEdges.successors e u) as [l|] eqn:Es; cbn -[successors_groups] in Ev; [|done].
  set (st1 := make_marks _ _ _) in Ev. destruct (foldl _ _ _) as [st2|] eqn:Ef; cbn in Ev; [|done]. injection Ev as <-.
  assert (Hfold : forall L s s', foldl (visit_successor fuel u) (Some s) L = Some s' -> order_inv s ->
    extends s s' /\ forall v, v ∈ L -> (u, v) ∉ back_edges -> v ∈ sorted_blocks s').
  { induction L as [|v L IHL]; intros s s'; cbn [foldl].
    - intros [= <-] Hs. split; [by apply extends_refl|by intros v ?%not_elem_of_nil].
    - unfold visit_successor at 2. cbn. case_bool_decide as Hb.
      + intros E Hs. destruct (IHL s s' E Hs) as [He Hv]. split; [done|]. intros x [->|Hx]%elem_of_cons; [done|by apply Hv].
      + destruct (visit fuel e back_edges loop_depth v s) as [s1|] eqn:Ev1; [|by rewrite foldl_visit_none]. intros E Hs.
        destruct (IH v s s1 Ev1 Hs) as [He1 Hv1]. destruct (IHL s1 s' E (ext_inv _ _ He1)) as [He2 Hv2].
        split; [by eapply extends_marks_trans|]. intros x [->|Hx]%elem_of_cons Hn; [by eapply extends_elem|by apply Hv2]. }
  destruct (Hfold _ st1 st2 Ef (mark_temporary st u Hi Ep)) as [He Hv]. split; [|cbn; apply elem_of_app; right; by left].
  apply (mark_permanent st st1 st2 u Hi Et eq_refl He). intros v [Hvs Hn]. apply Hv; [|done]. apply successors_groups_elem.
  unfold succs in Hvs. by rewrite Es in Hvs.
Qed.

(** *** The order exists *)

Definition unmarked (marks : list bool) : nat := length (filter (fun b => marks !! b <> Some true) (seq 0 n)).

Lemma unmarked_insert marks u : marks !! u = Some false -> u < n -> unmarked (<[u := true]> marks) < unmarked marks.
Proof.
  intros Hu Hn. assert (Hl : u < length marks) by by eapply lookup_lt_Some. apply (filter_missing_lt _ _ _ u).
  - intros b Hb. destruct (decide (b = u)) as [->|Hne]; [congruence|]. by rewrite list_lookup_insert_ne in Hb.
  - apply elem_of_seq. lia.
  - congruence.
  - rewrite list_lookup_insert_eq by done. intros Hc. by apply Hc.
Qed.

Lemma extends_unmarked st st' : extends st st' -> unmarked (temporary_mark st') <= unmarked (temporary_mark st).
Proof. intros Hx. apply filter_length_le. intros b Hb Ht. apply Hb, (ext_temporary _ _ Hx). by left. Qed.

Context (rank : nat -> nat).
Hypothesis acyclic : forall u v, forward u v -> rank v < rank u.

(** The blocks of the recursion. *)
Definition above u st : Prop := forall b, temporary_mark st !! b = Some true -> permanent_mark st !! b <> Some true -> rank u < rank b.

Lemma extends_above u st st' : order_inv st -> extends st st' -> above u st -> above u st'.
Proof.
  intros Hi Hx Ha b [Ht|Hs]%(ext_temporary _ _ Hx) Hp.
  - apply Ha; [done|]. intros Hp'. apply Hp, (inv_sorted _ (ext_inv _ _ Hx)). eapply extends_elem; [exact Hx|]. by apply (inv_sorted _ Hi).
  - contradict Hp. by apply (inv_sorted _ (ext_inv _ _ Hx)).
Qed.

Lemma visit_total fuel : forall u st, order_inv st -> u < n -> unmarked (temporary_mark st) < fuel -> above u st ->
  exists st', visit fuel e back_edges loop_depth u st = Some st'.
Proof.
  induction fuel as [|fuel IH]; intros u st Hi Hu Hf Ha; [lia|]. rewrite visit_unfold.
  destruct (lookup_lt_is_Some_2 (permanent_mark st) u) as [p Ep]; [by rewrite (inv_permanent _ Hi)|].
  destruct (lookup_lt_is_Some_2 (temporary_mark st) u) as [t Et]; [by rewrite (inv_temporary _ Hi)|].
  destruct (lookup_lt_is_Some_2 (RealEdges.all_successors e) u) as [l El]; [by rewrite (wf_successors _ _ wf)|].
  rewrite Ep. cbn -[lookup successors_groups]. destruct p; [by eexists|]. rewrite Et. cbn -[lookup successors_groups].
  destruct t; [specialize (Ha u Et ltac:(congruence)); lia|]. cbn -[lookup successors_groups].
  unfold RealEdges.successors. rewrite El. cbn -[successors_groups]. set (st1 := make_marks _ _ _).
  assert (Hfold : forall L s, (forall v, v ∈ L -> (u, v) ∉ back_edges -> v < n /\ above v s) -> order_inv s -> unmarked (temporary_mark s) < fuel ->
    exists s', foldl (visit_successor fuel u) (Some s) L = Some s').
  { induction L as [|v L IHL]; intros s HL Hs Hm; [by eexists|]. cbn [foldl]. unfold visit_successor at 2. cbn. case_bool_decide as Hb.
    - apply IHL; [|done..]. intros x Hx. apply HL. by right.
    - destruct (HL v ltac:(by left) Hb) as [Hv Hav]. destruct (IH v s Hs Hv Hm Hav) as [s1 E1]. rewrite E1.
      destruct (visit_extends fuel v s s1 E1 Hs) as [Hx _]. apply IHL; [|by apply Hx|pose proof (extends_unmarked _ _ Hx); lia].
      intros x Hxin Hxb. destruct (HL x ltac:(by right) Hxb) as [Hxn Hxa]. split; [done|]. by eapply extends_above. }
  destruct (Hfold (successors_groups loop_depth u l) st1) as [st2 E2]; [..|by rewrite E2; eexists].
  - intros v Hv%successors_groups_elem Hb. assert (Hsu : v ∈ succs e u) by (unfold succs, RealEdges.successors; by rewrite El).
    split; [by eapply wf_succs|]. assert (Hr : rank v < rank u) by by apply acyclic. intros b. cbn. destruct (decide (b = u)) as [->|Hne]; [done|].
    rewrite list_lookup_insert_ne by done. intros Ht Hp. specialize (Ha b Ht Hp). lia.
  - by apply mark_temporary.
  - cbn. pose proof (unmarked_insert (temporary_mark st) u Et Hu). lia.
Qed.

(** *** All blocks *)

Lemma first_unmarked_spec marks : match first_unmarked marks with
  | Some i => marks !! i = Some false
  | None => forall i, i < length marks -> marks !! i = Some true
  end.
Proof.
  induction marks as [|[|] marks IH]; cbn; [intros i Hi; lia| |done]. destruct (first_unmarked marks); cbn; [done|].
  intros [|i] Hi; [done|]. cbn. apply IH. lia.
Qed.

(** Between the rounds the marks agree. *)
Definition settled st : Prop := forall b, temporary_mark st !! b = Some true -> permanent_mark st !! b = Some true.

Lemma extends_settled st st' : order_inv st -> extends st st' -> settled st -> settled st'.
Proof.
  intros Hi Hx Hs b [Ht|Hb]%(ext_temporary _ _ Hx); apply (inv_sorted _ (ext_inv _ _ Hx)); [|done].
  eapply extends_elem; [exact Hx|]. by apply (inv_sorted _ Hi), Hs.
Qed.

Lemma settled_unmarked st : order_inv st -> settled st -> unmarked (permanent_mark st) = unmarked (temporary_mark st).
Proof.
  intros Hi Hs. apply Nat.le_antisymm; apply filter_length_le; intros b Hb Ht; apply Hb; [by apply Hs|by apply (inv_marks _ Hi)].
Qed.

Lemma order_loop_total rounds : forall st, order_inv st -> settled st -> unmarked (permanent_mark st) <= rounds ->
  exists st', order_loop rounds (S n) e back_edges loop_depth st = Some st' /\ order_inv st' /\ forall b, b < n -> b ∈ sorted_blocks st'.
Proof.
  induction rounds as [|rounds IH]; intros st Hi Hs Hr; cbn [order_loop]; pose proof (first_unmarked_spec (permanent_mark st)) as Hf;
    destruct (first_unmarked (permanent_mark st)) as [i|].
  1,3: assert (Hin : i < n) by (rewrite <- (inv_permanent _ Hi); by eapply lookup_lt_Some).
  - pose proof (unmarked_insert _ i Hf Hin). lia.
  - destruct (visit_total (S n) i st Hi Hin) as [st1 E1].
    + apply Nat.lt_succ_r. etrans; [apply length_filter|]. by rewrite length_seq.
    + intros b Ht Hp. contradict Hp. by apply Hs.
    + rewrite E1. cbn. destruct (visit_extends _ _ _ _ E1 Hi) as [Hx Hv]. apply IH; [by apply Hx|by eapply extends_settled|].
      enough (unmarked (permanent_mark st1) < unmarked (permanent_mark st)) by lia.
      apply (filter_missing_lt _ _ _ i); [|apply elem_of_seq; lia|congruence|].
      * intros b Hb Hp. apply Hb, (inv_sorted _ (ext_inv _ _ Hx)). eapply extends_elem; [exact Hx|]. by apply (inv_sorted _ Hi).
      * intros Hn. by apply Hn, (inv_sorted _ (ext_inv _ _ Hx)).
  - exists st. split_and!; [done..|]. intros b Hb. apply (inv_sorted _ Hi), Hf. by rewrite (inv_permanent _ Hi).
  - exists st. split_and!; [done..|]. intros b Hb. apply (inv_sorted _ Hi), Hf. by rewrite (inv_permanent _ Hi).
Qed.

Lemma initial_inv : order_inv (make_marks [] (replicate n false) (replicate n false)).
Proof.
  assert (Hr : forall b, replicate n false !! b <> Some true) by (intros b [Hb _]%lookup_replicate_1; done).
  split; cbn; [apply length_replicate..| |apply NoDup_nil_2| |intros b Hb; by destruct (Hr b)].
  - intros b. split; [by intros ?%not_elem_of_nil|intros Hb; by destruct (Hr b)].
  - intros l1 u l2 v E. by destruct l1.
Qed.

Lemma order_loop_inv rounds depth : forall st st', order_inv st -> order_loop rounds depth e back_edges loop_depth st = Some st' ->
  order_inv st' /\ forall b, b < n -> b ∈ sorted_blocks st'.
Proof.
  induction rounds as [|rounds IH]; intros st st' Hi; cbn [order_loop]; pose proof (first_unmarked_spec (permanent_mark st)) as Hf;
    destruct (first_unmarked (permanent_mark st)) as [i|]; [done| | |].
  1,3: intros [= <-]; split; [done|]; intros b Hb; apply (inv_sorted _ Hi), Hf; by rewrite (inv_permanent _ Hi).
  destruct (visit depth e back_edges loop_depth i st) as [st1|] eqn:Ev; [|done]. cbn. intros E.
  eapply IH, E. by eapply visit_extends.
Qed.
End Order.

(** *** The theorem about the order *)

(** Every block once, and the successors of a block after it. *)
Record topological `{MirCrate} (n : nat) (e : RealEdges) (back_edges : gset (nat * nat)) (l : list nat) : Prop := {
  topological_nodup : NoDup l;
  topological_elem : forall b, b ∈ l <-> b < n;
  topological_after : forall l1 u l2 v, l = (l1 ++ u :: l2)%list -> forward e back_edges u v -> v ∈ l2
}.

Definition acyclic_by `{MirCrate} (e : RealEdges) (back_edges : gset (nat * nat)) : Prop :=
  exists rank : nat -> nat, forall u v, forward e back_edges u v -> rank v < rank u.

Lemma topological_acyclic `{MirCrate} n e back_edges l : edges_wf n e -> topological n e back_edges l -> acyclic_by e back_edges.
Proof.
  intros Hwf [Hn He Ha]. exists (fun u => match list_find (eq u) l with Some (i, _) => length l - i | None => 0 end).
  intros u v Hf. assert (Hu : u ∈ l). { apply He. destruct Hf as [Hs _]. apply (wf_both _ _ Hwf) in Hs. by eapply wf_preds. }
  destruct (list_find_elem_of (eq u) l u Hu eq_refl) as [[i u'] Eu]. rewrite Eu. apply list_find_Some in Eu as (Hi & <- & _).
  assert (Hv : v ∈ drop (S i) l). { eapply Ha, Hf. symmetry. by apply take_drop_middle. }
  apply list_elem_of_lookup_1 in Hv as [k Hk]. rewrite lookup_drop in Hk.
  destruct (list_find_elem_of (eq v) l v ltac:(by eapply list_elem_of_lookup_2) eq_refl) as [[j v'] Ev]. rewrite Ev.
  apply list_find_Some in Ev as (Hj & <- & _). assert (j = S i + k) as -> by (eapply NoDup_lookup; eauto).
  apply lookup_lt_Some in Hk. lia.
Qed.

Lemma order_inv_topological `{MirCrate} n e back_edges st : order_inv n e back_edges st -> (forall b, b < n -> b ∈ sorted_blocks st) ->
  topological n e back_edges (rev (sorted_blocks st)).
Proof.
  intros Hi Hall. rewrite rev_alt. change (rev_append ?l []) with (reverse l). split.
  - rewrite reverse_Permutation. by apply Hi.
  - intros b. rewrite elem_of_reverse. split; [|apply Hall]. intros Hb%(inv_sorted _ _ _ _ Hi). rewrite <- (inv_permanent _ _ _ _ Hi). by eapply lookup_lt_Some.
  - intros l1 u l2 v E Hf. apply (f_equal reverse) in E. rewrite reverse_involutive, reverse_app, reverse_cons, <- app_assoc in E.
    pose proof (inv_ordered _ _ _ _ Hi _ u _ v E Hf) as Hv. by apply elem_of_reverse.
Qed.

Lemma order_basic_blocks_spec `{MirCrate} (mir : Body) e back_edges loop_depth : edges_wf (length (basic_blocks mir)) e ->
  (acyclic_by e back_edges <-> exists l, order_basic_blocks mir e back_edges loop_depth = Some l)
  /\ forall l, order_basic_blocks mir e back_edges loop_depth = Some l -> topological (length (basic_blocks mir)) e back_edges l.
Proof.
  intros Hwf. pose proof (initial_inv (length (basic_blocks mir)) e back_edges) as Hi.
  assert (Ht : forall l, order_basic_blocks mir e back_edges loop_depth = Some l -> topological (length (basic_blocks mir)) e back_edges l).
  { intros l. unfold order_basic_blocks. destruct (order_loop _ _ _ _ _ _) as [st|] eqn:E; [|done]. cbn. intros [= <-].
    destruct (order_loop_inv _ _ _ _ Hwf _ _ _ _ Hi E). by apply order_inv_topological. }
  split; [|done]. split; [|intros [l E]; by eapply topological_acyclic, Ht].
  intros [rank Hr]. unfold order_basic_blocks. destruct (order_loop_total _ _ _ loop_depth Hwf rank Hr (length (basic_blocks mir)) _ Hi) as (st & E & _).
  - intros b Hb. apply lookup_replicate_1 in Hb as [? _]. done.
  - cbn. etrans; [apply length_filter|]. by rewrite length_seq.
  - rewrite E. by eexists.
Qed.

(** ** Places of a loop *)

Section Leaves.
Context `{MirCrate}.
Implicit Types (accesses : list (Place * PlaceAccessKind)) (p q : Place) (k : PlaceAccessKind).

Lemma has_prefix_access_spec accesses selects p : has_prefix_access accesses selects p = true <->
  exists q k, (q, k) ∈ accesses /\ selects k = true /\ p <> q /\ sub q p.
Proof.
  unfold has_prefix_access. rewrite existsb_exists. split.
  - intros ([q k] & Hin%list_elem_of_In & Hb). apply andb_prop in Hb as [[Hs Hne]%andb_prop Hp%is_prefix_spec]. cbn in *.
    exists q, k. split_and!; try done. intros ->. by rewrite bool_decide_eq_true_2 in Hne.
  - intros (q & k & Hin & Hs & Hne & Hp). exists (q, k). split; [by apply list_elem_of_In|]. cbn.
    rewrite Hs, bool_decide_eq_false_2 by done. by apply is_prefix_spec.
Qed.

Lemma leaves_of_spec accesses candidate selects others :
  NoDup (leaves_of accesses candidate selects others)
  /\ forall p, p ∈ leaves_of accesses candidate selects others <->
       (exists k, (p, k) ∈ accesses /\ candidate k = true) /\ has_prefix_access accesses selects p = false /\ p ∉ others.
Proof.
  unfold leaves_of. assert (Hg : forall l leaves, NoDup leaves ->
    NoDup (foldl (add_leaf accesses candidate selects others) leaves l)
    /\ forall p, p ∈ foldl (add_leaf accesses candidate selects others) leaves l <-> p ∈ leaves \/
         (exists k, (p, k) ∈ l /\ candidate k = true) /\ has_prefix_access accesses selects p = false /\ p ∉ others).
  { induction l as [|[q k] l IH]; intros leaves Hn; cbn [foldl]; [split; [done|]; intros p; set_solver|].
    unfold add_leaf at 2 4. cbn [fst snd]. destruct (candidate k) eqn:Ec.
    - destruct (has_prefix_access accesses selects q) eqn:Eh; cbn [orb].
      + destruct (IH leaves Hn) as [H1 H2]. split; [done|]. intros p. rewrite H2. setoid_rewrite elem_of_cons. naive_solver congruence.
      + case_bool_decide as Hl; cbn [orb].
        * destruct (IH leaves Hn) as [H1 H2]. split; [done|]. intros p. rewrite H2. setoid_rewrite elem_of_cons. naive_solver.
        * case_bool_decide as Ho.
          -- destruct (IH leaves Hn) as [H1 H2]. split; [done|]. intros p. rewrite H2. setoid_rewrite elem_of_cons. naive_solver.
          -- destruct (IH (leaves ++ [q])%list) as [H1 H2]; [apply NoDup_app; split_and!; [done| |apply NoDup_singleton]; set_solver|].
             split; [done|]. intros p. rewrite H2, elem_of_app, list_elem_of_singleton. setoid_rewrite elem_of_cons. naive_solver.
    - destruct (IH leaves Hn) as [H1 H2]. split; [done|]. intros p. rewrite H2. setoid_rewrite elem_of_cons. naive_solver congruence. }
  destruct (Hg accesses [] ltac:(apply NoDup_nil_2)) as [H1 H2]. split; [done|]. intros p. rewrite H2. set_solver.
Qed.

(** An access that is selected has an access above it that has none. *)
Lemma access_above accesses selects (covering : Place -> Prop) :
  (forall p k, (p, k) ∈ accesses -> selects k = true -> has_prefix_access accesses selects p = false -> covering p) ->
  forall p k, (p, k) ∈ accesses -> selects k = true -> exists q, covering q /\ sub q p.
Proof.
  intros Hc p k Hin Hs. assert (Hm : length (projection p) < S (length (projection p))) by lia. revert Hm Hin Hs.
  generalize (S (length (projection p))) as m. intros m. revert p k. induction m as [|m IH]; intros p k Hm Hin Hs; [lia|].
  destruct (has_prefix_access accesses selects p) eqn:Eh; [|exists p; split; [by eapply Hc|done]].
  apply has_prefix_access_spec in Eh as (q & k' & Hin' & Hs' & Hne & Hsub). destruct (IH q k') as (r & Hr & Hrq); [|done..|].
  - pose proof (sub_length q p Hsub). destruct (decide (length (projection p) <= length (projection q))) as [Hle|]; [|lia].
    destruct Hne. symmetry. by apply sub_same_length.
  - exists r. split; [done|]. by trans q.
Qed.

Lemma has_prefix_access_mono accesses (selects selects' : PlaceAccessKind -> bool) p : (forall k, selects k = true -> selects' k = true) ->
  has_prefix_access accesses selects' p = false -> has_prefix_access accesses selects p = false.
Proof.
  intros Hs Hf. apply not_true_iff_false. intros (q & k & Hin & Hk & Hr)%has_prefix_access_spec.
  apply not_true_iff_false in Hf. apply Hf, has_prefix_access_spec. exists q, k. auto.
Qed.

(** What the leaves say about the accesses they are made of. *)
Record leaves_correct accesses (write_leaves mut_borrow_leaves read_leaves : list Place) : Prop := {
  leaves_nodup : NoDup (write_leaves ++ mut_borrow_leaves ++ read_leaves);
  write_covered : forall p k, (p, k) ∈ accesses -> is_write_access k = true -> exists q, q ∈ write_leaves /\ sub q p;
  borrow_covered : forall p, (p, MutableBorrow) ∈ accesses -> exists q, q ∈ (write_leaves ++ mut_borrow_leaves)%list /\ sub q p;
  access_covered : forall p k, (p, k) ∈ accesses -> exists q, q ∈ (write_leaves ++ mut_borrow_leaves ++ read_leaves)%list /\ sub q p;
  write_accessed : forall q, q ∈ write_leaves -> exists k, (q, k) ∈ accesses /\ is_write_access k = true;
  borrow_accessed : forall q, q ∈ mut_borrow_leaves -> (q, MutableBorrow) ∈ accesses;
  read_accessed : forall q, q ∈ read_leaves -> exists k, (q, k) ∈ accesses /\ is_write_access k = false;
  write_antichain : forall p q, p ∈ write_leaves -> q ∈ write_leaves -> sub p q -> p = q
}.

Lemma read_and_write_leaves_spec accesses :
  let '(write_leaves, mut_borrow_leaves, read_leaves) := read_and_write_leaves accesses in
  leaves_correct accesses write_leaves mut_borrow_leaves read_leaves.
Proof.
  unfold read_and_write_leaves. set (w := leaves_of accesses is_write_access is_write_access []).
  set (m := leaves_of accesses (fun kind => bool_decide (kind = MutableBorrow)) _ w). set (r := leaves_of accesses _ _ (w ++ m)%list).
  destruct (leaves_of_spec accesses is_write_access is_write_access []) as [Nw Hw]. fold w in Nw, Hw.
  pose proof (leaves_of_spec accesses (fun kind => bool_decide (kind = MutableBorrow)) (fun kind => is_write_access kind || bool_decide (kind = MutableBorrow)) w) as [Nm Hm].
  fold m in Nm, Hm. pose proof (leaves_of_spec accesses (fun kind => negb (is_write_access kind)) (fun _ => true) (w ++ m)%list) as [Nr Hr]. fold r in Nr, Hr.
  assert (Hpw : forall p k, (p, k) ∈ accesses -> is_write_access k = true -> has_prefix_access accesses is_write_access p = false -> p ∈ w).
  { intros p k Hin Hk Hp. apply Hw. split_and!; [by exists k|done|by apply not_elem_of_nil]. }
  assert (Hpm : forall p, (p, MutableBorrow) ∈ accesses ->
    has_prefix_access accesses (fun kind => is_write_access kind || bool_decide (kind = MutableBorrow)) p = false -> p ∈ (w ++ m)%list).
  { intros p Hin Hp. apply elem_of_app. destruct (decide (p ∈ w)) as [|Hn]; [by left|right]. apply Hm. split_and!; [by exists MutableBorrow|done|done]. }
  split.
  - apply NoDup_app. split; [done|]. split; [intros x Hx [Hx'|Hx']%elem_of_app; [by apply Hm in Hx' as (_ & _ & Hn)|apply Hr in Hx' as (_ & _ & Hn); apply Hn, elem_of_app; by left]|].
    apply NoDup_app. split_and!; [done| |done]. intros x Hx (_ & _ & Hn)%Hr. apply Hn, elem_of_app. by right.
  - apply access_above. done.
  - intros p Hin. apply (access_above accesses (fun kind => is_write_access kind || bool_decide (kind = MutableBorrow)) (fun q => q ∈ (w ++ m)%list)) with (k := MutableBorrow); [|done..].
    intros q k Hq [Hk|Hk%bool_decide_eq_true]%orb_prop Hp; [|subst k; by apply Hpm]. apply elem_of_app. left. eapply Hpw; [done..|].
    eapply has_prefix_access_mono, Hp. intros x Hx. cbn. by rewrite Hx.
  - intros p k Hin. apply (access_above accesses (fun _ => true) (fun q => q ∈ (w ++ m ++ r)%list)) with (k := k); [|done..].
    intros q k' Hq _ Hp. rewrite app_assoc, elem_of_app. destruct (is_write_access k') eqn:Ek.
    + left. apply elem_of_app. left. eapply Hpw; [done..|]. by eapply has_prefix_access_mono, Hp.
    + destruct (decide (q ∈ (w ++ m)%list)) as [|Hn]; [by left|right]. apply Hr. split_and!; [exists k'; by rewrite Ek|done|done].
  - intros q (Hq & _ & _)%Hw. done.
  - intros q ((k & Hq & ->%bool_decide_eq_true) & _ & _)%Hm. done.
  - intros q ((k & Hq & Hk%negb_true_iff) & _ & _)%Hr. by exists k.
  - intros p q ((k & Hp & Hk) & _)%Hw (_ & Hq & _)%Hw Hs. destruct (decide (p = q)) as [|Hne]; [done|].
    apply not_true_iff_false in Hq. destruct Hq. apply has_prefix_access_spec. exists p, k. split_and!; [done|done|congruence|done].
Qed.
End Leaves.

(** ** [ProcedureLoops::new] *)

Section NewLoops.
Context `{MirCrate}.

Lemma map_entries_lookup {A B} (f : nat -> A -> option B) (m : gmap nat A) m' : map_entries f m = Some m' ->
  forall k, match m !! k with Some a => exists b, f k a = Some b /\ m' !! k = Some b | None => m' !! k = None end.
Proof.
  unfold map_entries. destruct (mapM_opt _ _) as [entries|] eqn:E; [|done]. cbn. intros [= <-] k.
  assert (m !! k = (list_to_map (map_to_list m) : gmap nat A) !! k) as -> by by rewrite list_to_map_to_list. revert entries E. induction (map_to_list m) as [|[i a] l IH]; intros entries; cbn [mapM_opt].
  - intros [= <-]. cbn. by rewrite lookup_empty.
  - cbn [fst snd]. destruct (f i a) as [b|] eqn:Eb; cbn; [|done]. destruct (mapM_opt _ l) as [ys|]; cbn; [|done]. intros [= <-].
    specialize (IH ys eq_refl). cbn. destruct (decide (k = i)) as [->|Hne]; [rewrite !lookup_insert_eq; by exists b|].
    by rewrite !lookup_insert_ne by done.
Qed.

Lemma sort_by_key_Permutation key l : sort_by_key key l ≡ₚ l.
Proof.
  assert (Hi : forall x l, insert_by_key key x l ≡ₚ x :: l).
  { intros x. induction l0 as [|y l0 IH]; [done|]. cbn. destruct (Nat.leb _ _); [done|]. rewrite IH. apply Permutation_swap. }
  induction l as [|x l IH]; [done|]. cbn. by rewrite Hi, IH.
Qed.

(** Sorted by a key. *)
Lemma sort_by_key_sorted key l : Sorted (fun x y => key x <= key y) (sort_by_key key l).
Proof.
  assert (Hi : forall x l, Sorted (fun x y => key x <= key y) l -> Sorted (fun x y => key x <= key y) (insert_by_key key x l)).
  { intros x l0. induction 1 as [|y l' Hs IH Hhd]; cbn; [repeat constructor|]. destruct (Nat.leb_spec (key x) (key y)).
    - repeat constructor; done.
    - constructor; [done|]. destruct Hhd as [|z l' Hyz]; cbn; [constructor; lia|]. destruct (Nat.leb (key x) (key z)); constructor; lia. }
  induction l as [|x l IH]; [constructor|]. cbn. by apply Hi.
Qed.

Lemma find_back_edges_spec (mir : Body) e back : find_back_edges mir e = Some back ->
  forall s h, (s, h) ∈ back <-> s < length (basic_blocks mir) /\ h ∈ succs e s /\ is_dominated_by mir s h = true.
Proof.
  unfold find_back_edges. destruct (mapM_opt _ _) as [edges|] eqn:E; [|done]. cbn. intros [= <-] s h.
  rewrite elem_of_list_to_set. transitivity (s ∈ block_indices mir /\ h ∈ succs e s /\ is_dominated_by mir s h = true);
    [|unfold block_indices; rewrite elem_of_seq; cbn; intuition lia].
  revert edges E. induction (block_indices mir) as [|bb l IH]; intros edges; cbn [mapM_opt].
  - intros [= <-]. cbn. set_solver.
  - destruct (block_back_edges mir e bb) as [r|] eqn:Et; cbn; [|done].
    destruct (mapM_opt _ l) as [rest|]; cbn; [|done]. intros [= <-]. cbn. rewrite elem_of_app, (IH rest eq_refl), elem_of_cons.
    enough ((s, h) ∈ r <-> s = bb /\ h ∈ succs e s /\ is_dominated_by mir s h = true) by (clear IH; naive_solver).
    unfold block_back_edges in Et. destruct (RealEdges.successors e bb) as [ts|] eqn:Es; cbn in Et; [|done]. injection Et as <-.
    rewrite list_elem_of_In, in_map_iff. setoid_rewrite filter_In. setoid_rewrite <- list_elem_of_In. split.
    + intros (t & [= <- <-] & Ht & Hd). unfold succs. by rewrite Es.
    + intros (-> & Ht & Hd). unfold succs in Ht. rewrite Es in Ht. by exists h.
Qed.

Lemma restrict_blocks_none (mir : Body) edges : foldl (restrict_blocks mir) None edges = None.
Proof. induction edges; done. Qed.

Lemma restrict_all_spec (mir : Body) edges : forall blocks blocks', foldl (restrict_blocks mir) (Some blocks) edges = Some blocks' ->
  forall h, match blocks !! h with
    | Some set => exists set', blocks' !! h = Some set' /\ forall b, b ∈ set' <-> b ∈ set /\ forall s, (s, h) ∈ edges -> b ∈ dominators_of mir s
    | None => blocks' !! h = None
    end.
Proof.
  induction edges as [|[s t] edges IH]; intros blocks blocks' E h.
  - injection E as <-. destruct (blocks !! h); [|done]. eexists. split; [done|]. set_solver.
  - cbn [foldl] in E. unfold restrict_blocks at 2 in E. cbn -[dominators_of] in E.
    destruct (blocks !! t) as [set|] eqn:Et; cbn -[dominators_of] in E; [|by rewrite restrict_blocks_none in E].
    specialize (IH _ _ E h). destruct (decide (h = t)) as [->|Hne].
    + rewrite lookup_insert_eq in IH. rewrite Et. destruct IH as (set' & E' & Hs). exists set'. split; [done|]. intros b. rewrite Hs, elem_of_intersection.
      setoid_rewrite elem_of_cons. naive_solver.
    + rewrite lookup_insert_ne in IH by done. destruct (blocks !! h) as [set0|]; [|done]. destruct IH as (set' & E' & Hs).
      exists set'. split; [done|]. intros b. rewrite Hs. setoid_rewrite elem_of_cons. naive_solver.
Qed.

Lemma add_loop_body_heads e edges : forall bodies bodies', foldl (add_loop_body e) (Some bodies) edges = Some bodies' ->
  forall h, is_Some (bodies' !! h) <-> is_Some (bodies !! h) \/ exists s, (s, h) ∈ edges.
Proof.
  assert (Hnone : forall edges, foldl (add_loop_body e) None edges = None) by (induction edges0; done).
  induction edges as [|[s t] edges IH]; intros bodies bodies' E h.
  - injection E as <-. set_solver.
  - cbn [foldl] in E. unfold add_loop_body at 2 in E. cbn -[collect_loop_body] in E.
    destruct (collect_loop_body _ _ _ _) as [body|]; cbn in E; [|by rewrite Hnone in E].
    rewrite (IH _ _ E). setoid_rewrite elem_of_cons. destruct (decide (h = t)) as [->|Hne].
    + rewrite lookup_insert_eq. split; [intros _; right; exists s; by left|intros _; left; by eexists].
    + rewrite lookup_insert_ne by done. naive_solver.
Qed.

Lemma sort_heads_elem depths (heads : gset nat) l b : sort_heads depths heads = Some l -> b ∈ l <-> b ∈ heads.
Proof. unfold sort_heads. destruct (assert_ _); cbn; [|done]. intros [= <-]. by rewrite sort_by_key_Permutation, elem_of_elements. Qed.

Lemma sort_heads_keys depths (heads : gset nat) l b : sort_heads depths heads = Some l -> b ∈ l -> is_Some (depths !! b).
Proof.
  intros E Hb. pose proof (proj1 (sort_heads_elem _ _ _ b E) Hb) as Hh. unfold sort_heads in E. destruct (forallb _ _) eqn:Ef; [|done].
  rewrite forallb_forall in Ef. apply elem_of_elements, list_elem_of_In in Hh. by apply Ef, bool_decide_eq_true in Hh.
Qed.

Lemma enclosing_loop_heads_spec (bodies : gmap nat (gset nat)) b h : (exists heads, enclosing_loop_heads_set bodies !! b = Some heads /\ h ∈ heads)
  <-> exists body, bodies !! h = Some body /\ b ∈ body.
Proof.
  unfold enclosing_loop_heads_set.
  enough (forall l (sets : gmap nat (gset nat)),
    (exists heads, foldl (fun sets (e : nat * gset nat) => foldl (add_enclosing_head (fst e)) sets (elements (snd e))) sets l !! b = Some heads /\ h ∈ heads)
    <-> (exists heads, sets !! b = Some heads /\ h ∈ heads) \/ exists body, (h, body) ∈ l /\ b ∈ body) as Hl by (rewrite Hl; setoid_rewrite lookup_empty; setoid_rewrite elem_of_map_to_list; naive_solver).
  assert (Hadd : forall x (blocks : list nat) (sets : gmap nat (gset nat)), (exists heads, foldl (add_enclosing_head x) sets blocks !! b = Some heads /\ h ∈ heads)
    <-> (exists heads, sets !! b = Some heads /\ h ∈ heads) \/ (h = x /\ b ∈ blocks)).
  { intros x blocks. induction blocks as [|c blocks IH]; intros sets; cbn [foldl]; [set_solver|]. rewrite IH. unfold add_enclosing_head.
    rewrite elem_of_cons. destruct (decide (b = c)) as [->|Hne]; [rewrite lookup_insert_eq|rewrite lookup_insert_ne by done; naive_solver].
    set (old := match sets !! c with Some heads => heads | None => ∅ end).
    assert ((exists heads, sets !! c = Some heads /\ h ∈ heads) <-> h ∈ old) as ->.
    { unfold old. destruct (sets !! c) as [heads|]; [split; [by intros (? & [= ->] & ?)|by exists heads]|]. split; [by intros (? & ? & ?)|set_solver]. }
    assert ((exists heads, Some ({[x]} ∪ old) = Some heads /\ h ∈ heads) <-> h = x \/ h ∈ old) as ->; [|naive_solver].
    split; [intros (? & [= <-] & Hh); set_solver|intros Hh; eexists; split; [done|set_solver]]. }
  induction l as [|[x body] l IH]; intros sets; cbn [foldl fst snd]; [set_solver|]. rewrite IH, Hadd. setoid_rewrite elem_of_elements. setoid_rewrite elem_of_cons.
  naive_solver.
Qed.

(** *** Depths and orders *)

(** The depth of a loop is the number of loops its head is in. *)
Lemma head_depths_spec (bodies : gmap nat (gset nat)) depths :
  map_entries (fun loop_head _ => heads ← enclosing_loop_heads_set bodies !! loop_head; Some (size heads)) bodies = Some depths ->
  forall h d, depths !! h = Some d -> exists outer : list nat, NoDup outer /\ length outer = d
    /\ forall h', h' ∈ outer <-> exists body, bodies !! h' = Some body /\ h ∈ body.
Proof.
  intros E h d Eh. pose proof (map_entries_lookup _ _ _ E h) as Hl. destruct (bodies !! h); [|congruence]. destruct Hl as (d' & Ed & Eh').
  destruct (enclosing_loop_heads_set bodies !! h) as [heads|] eqn:Ehs; cbn in Ed; [|done]. exists (elements heads). split; [apply NoDup_elements|]. split.
  - assert (d = d') as -> by congruence. by injection Ed as <-.
  - intros h'. rewrite elem_of_elements, <- (enclosing_loop_heads_spec bodies h h'), Ehs. split; [intros Hh; by exists heads|by intros (? & [= <-] & ?)].
Qed.

Lemma sort_by_key_last key l x y : last (sort_by_key key l) = Some x -> y ∈ l -> key y <= key x.
Proof.
  intros [l' El]%last_Some Hy. rewrite <- (sort_by_key_Permutation key l), El, elem_of_app, list_elem_of_singleton in Hy.
  destruct Hy as [Hy| ->]; [|done]. pose proof (sort_by_key_sorted key l) as Hs. rewrite El in Hs.
  apply Sorted_StronglySorted in Hs; [|intros a b c; lia]. apply list_elem_of_split in Hy as (l1 & l2 & ->).
  rewrite <- app_assoc in Hs. apply StronglySorted_app_1_r in Hs. cbn in Hs. apply StronglySorted_inv in Hs as [_ Hs]. rewrite Forall_forall in Hs.
  apply Hs, elem_of_app. right. by left.
Qed.

(** The depth of a block is that of the deepest loop it is in. *)
Lemma depth_of_spec (bodies : gmap nat (gset nat)) depths enclosing b :
  (forall h, is_Some (bodies !! h) -> is_Some (depths !! h)) ->
  map_entries (fun _ heads => sort_heads depths heads) (enclosing_loop_heads_set bodies) = Some enclosing ->
  (depth_of enclosing depths b = 0 \/ exists h body, bodies !! h = Some body /\ b ∈ body /\ depths !! h = Some (depth_of enclosing depths b))
  /\ forall h body d, bodies !! h = Some body -> b ∈ body -> depths !! h = Some d -> d <= depth_of enclosing depths b.
Proof.
  intros Hd E. pose proof (map_entries_lookup _ _ _ E b) as Hl. pose proof (enclosing_loop_heads_spec bodies b) as Hs. unfold depth_of.
  destruct (enclosing_loop_heads_set bodies !! b) as [heads|].
  2:{ rewrite Hl. cbn. split; [by left|]. intros h body d Eh Hb _. destruct (proj2 (Hs h)) as (? & ? & _); [by exists body|done]. }
  destruct Hl as (l & El & ->). cbn. unfold sort_heads in El. destruct (assert_ _); cbn in El; [|done]. injection El as <-.
  assert (Hin : forall h, h ∈ elements heads <-> exists body, bodies !! h = Some body /\ b ∈ body).
  { intros h. rewrite elem_of_elements, <- Hs. split; [intros Hh; by exists heads|by intros (? & [= <-] & ?)]. }
  destruct (last (sort_by_key (depth_key depths) (elements heads))) as [x|] eqn:Ex.
  - assert (Hx : x ∈ elements heads).
    { rewrite <- (sort_by_key_Permutation (depth_key depths)). apply last_Some in Ex as [l' ->]. apply elem_of_app. right. by left. }
    apply Hin in Hx as (body & Eb & Hb). destruct (Hd x ltac:(by eexists)) as [dx Edx]. rewrite Edx. split; [right; by exists x, body|].
    intros h body' d Eh Hb' Ed. pose proof (sort_by_key_last _ _ _ h Ex) as Hle. unfold depth_key in Hle. rewrite Ed, Edx in Hle. apply Hle, Hin. by exists body'.
  - split; [by left|]. intros h body d Eh Hb _. assert (Hx : h ∈ elements heads) by (apply Hin; by exists body).
    rewrite <- (sort_by_key_Permutation (depth_key depths)) in Hx. apply last_None in Ex. rewrite Ex in Hx. by apply not_elem_of_nil in Hx.
Qed.

Lemma StronglySorted_mono (R1 R2 : nat -> nat -> Prop) l : (forall a b, R1 a b -> R2 a b) -> StronglySorted R1 l -> StronglySorted R2 l.
Proof. intros Hr. induction 1 as [|x l _ IH Hx]; constructor; [done|]. eapply Forall_impl; [exact Hx|apply Hr]. Qed.

(** A list that is sorted by the positions in another list is a part of it. *)
Lemma sorted_sublist (L l : list nat) : NoDup L -> NoDup l -> (forall x, x ∈ l -> x ∈ L) ->
  StronglySorted (fun a b => forall i j, L !! i = Some a -> L !! j = Some b -> i <= j) l -> l `sublist_of` L.
Proof.
  intros HL. revert l. induction HL as [|x L Hx HL IH]; intros l Hl Hin Hs.
  { destruct l as [|y l]; [done|]. by destruct (not_elem_of_nil y (Hin y ltac:(by left))). }
  assert (Htail : forall l', StronglySorted (fun a b => forall i j, (x :: L) !! i = Some a -> (x :: L) !! j = Some b -> i <= j) l' ->
    StronglySorted (fun a b => forall i j, L !! i = Some a -> L !! j = Some b -> i <= j) l').
  { intros l'. apply StronglySorted_mono. intros a b Hab i j Hi Hj. specialize (Hab (S i) (S j) Hi Hj). lia. }
  destruct l as [|y l]; [apply sublist_nil_l|]. apply StronglySorted_inv in Hs as [Hs Hy]. apply NoDup_cons in Hl as [Hyl Hl].
  destruct (decide (y = x)) as [->|Hne].
  - apply sublist_skip, IH; [done| |by apply Htail]. intros z Hz. pose proof (Hin z ltac:(by right)) as [?|?]%elem_of_cons; [congruence|done].
  - assert (Hxl : x ∉ l).
    { intros Hxl. rewrite Forall_forall in Hy. pose proof (Hin y ltac:(by left)) as [?|[i Hi]%list_elem_of_lookup]%elem_of_cons; [congruence|].
      specialize (Hy x Hxl (S i) 0 Hi eq_refl). lia. }
    apply sublist_cons, IH; [by constructor| |apply Htail; by constructor].
    intros z Hz. pose proof (Hin z Hz) as [->|?]%elem_of_cons; [|done]. apply elem_of_cons in Hz as [?|?]; congruence.
Qed.

(** The order of a set of blocks. *)
Lemma sort_blocks_sublist (blocks l : list nat) (set : gset nat) : NoDup blocks -> (forall b, b ∈ set -> b ∈ blocks) ->
  sort_heads (list_to_map (imap (fun i v => (v, i)) blocks)) set = Some l -> l `sublist_of` blocks.
Proof.
  intros Hn Hin E. unfold sort_heads in E. destruct (assert_ _); cbn in E; [|done]. injection E as <-. set (order := list_to_map _ : gmap nat nat).
  assert (Hkey : forall i b, blocks !! i = Some b -> depth_key order b = i).
  { intros i b Hi. unfold depth_key, order. erewrite elem_of_list_to_map_1; [done| |by apply elem_of_lookup_imap; exists i, b].
    rewrite fmap_imap. rewrite (imap_const id). by rewrite list_fmap_id. }
  apply sorted_sublist; [done|rewrite sort_by_key_Permutation; apply NoDup_elements|intros x; rewrite sort_by_key_Permutation, elem_of_elements; apply Hin|].
  eapply StronglySorted_mono; [|apply Sorted_StronglySorted, (sort_by_key_sorted (depth_key order)); intros a b c; lia].
  intros a b Hab i j Hi%Hkey Hj%Hkey. by rewrite <- Hi, <- Hj.
Qed.

Lemma exit_blocks_spec (mir : Body) e depth_of_block depth ordered exits : exit_blocks mir e depth_of_block depth ordered = Some exits ->
  exits `sublist_of` ordered /\ forall b, b ∈ exits <-> b ∈ ordered
    /\ (exists data v targets, basic_blocks mir !! b = Some data /\ terminator data = SwitchInt v targets)
    /\ exists t, t ∈ succs e b /\ depth_of_block t < depth.
Proof.
  revert exits. induction ordered as [|b ordered IH]; intros exits E; cbn in E; [injection E as <-; split; [done|set_solver]|].
  unfold is_exit_block in E. destruct (basic_blocks mir !! b) as [data|] eqn:Ed; cbn in E; [|done].
  destruct (RealEdges.successors e b) as [ts|] eqn:Es; cbn in E; [|done].
  destruct (exit_blocks _ _ _ _ ordered) as [rest|]; cbn in E; [|done]. destruct (IH rest eq_refl) as [Hsub Hrest]. clear IH.
  assert (Hb : is_switch_int (terminator data) && existsb (fun bb => Nat.ltb (depth_of_block bb) depth) ts = true
    <-> (exists data v targets, basic_blocks mir !! b = Some data /\ terminator data = SwitchInt v targets)
        /\ exists t, t ∈ succs e b /\ depth_of_block t < depth).
  { rewrite andb_true_iff, existsb_exists. unfold succs. rewrite Es. setoid_rewrite <- list_elem_of_In. setoid_rewrite Nat.ltb_lt. rewrite Ed. split.
    - intros [Hsw Hx]. split; [|done]. exists data. destruct (terminator data); try done. by eexists _, _.
    - intros [(? & v & targets & [= <-] & Et) Hx]. split; [by rewrite Et|done]. }
  destruct (_ && _) in E, Hb; injection E as <-.
  - split; [by apply sublist_skip|]. intros x. rewrite !elem_of_cons, Hrest. naive_solver.
  - split; [by apply sublist_cons|]. intros x. rewrite elem_of_cons, Hrest. naive_solver.
Qed.

(** An edge to a dominator of its source. *)
Definition natural_back_edge (mir : Body) e s h : Prop := s < length (basic_blocks mir) /\ h ∈ succs e s /\ is_dominated_by mir s h = true.

Lemma leads_lt n e h s b : edges_wf n e -> s < n -> leads e h s b -> b < n.
Proof. intros Hwf Hs. induction 1 as [|c b _ _ _ Hp]; [done|]. by eapply wf_preds. Qed.

(** What the loops of a body are. *)
Record loops_correct (mir : Body) e (self : ProcedureLoops) : Prop := {
  correct_back_edges : forall s h, (s, h) ∈ back_edges self <-> natural_back_edge mir e s h;
  correct_heads : forall h, is_loop_head self h = true <-> exists s, (s, h) ∈ back_edges self;
  correct_bodies : forall h body b, get_loop_body self h = Some body -> b ∈ body <-> exists s, (s, h) ∈ back_edges self /\ leads e h s b;
  correct_order : topological (length (basic_blocks mir)) e (back_edges self) (ordered_blocks self);
  correct_conditional : forall h b, is_loop_head self h = true -> exists c, is_conditional_branch self h b = Some c
    /\ (c = false <-> (exists s, (s, h) ∈ back_edges self /\ leads e h s b) /\ forall s, (s, h) ∈ back_edges self -> b ∈ dominators_of mir s);
  (** The blocks of a loop are in the order of all the blocks. *)
  correct_loop_order : forall h body, get_loop_body self h = Some body -> body `sublist_of` ordered_blocks self;
  (** The depth of a head is the number of the loops it is in, that of a
      block the depth of the deepest loop it is in. *)
  correct_head_depth : forall h d, get_loop_head_depth self h = Some d -> exists outer : list nat, NoDup outer /\ length outer = d
    /\ forall h', h' ∈ outer <-> exists body, get_loop_body self h' = Some body /\ h ∈ body;
  correct_depth : forall b, exists d, get_loop_depth self b = Some d
    /\ (d = 0 \/ exists h body, get_loop_body self h = Some body /\ b ∈ body /\ get_loop_head_depth self h = Some d)
    /\ forall h body d', get_loop_body self h = Some body -> b ∈ body -> get_loop_head_depth self h = Some d' -> d' <= d;
  (** The exits of a loop are the switches with a successor that is less deep. *)
  correct_exits : forall h exits, get_loop_exit_blocks self h = Some exits -> exists body d,
    get_loop_body self h = Some body /\ get_loop_head_depth self h = Some d /\ exits `sublist_of` body
    /\ forall b, b ∈ exits <-> b ∈ body
         /\ (exists data v targets, basic_blocks mir !! b = Some data /\ terminator data = SwitchInt v targets)
         /\ exists t dt, t ∈ succs e b /\ get_loop_depth self t = Some dt /\ dt < d;
  (** The queries do not panic. *)
  correct_queries : forall h, is_loop_head self h = true ->
    is_Some (get_loop_head_depth self h) /\ is_Some (get_loop_body self h) /\ is_Some (get_loop_exit_blocks self h)
}.

(** *** The parts of the loops *)

Section Parts.
Context (mir : Body) (e : RealEdges) (back : gset (nat * nat)) (bodies : gmap nat (gset nat)) (depths : gmap nat nat)
  (enclosing : gmap nat (list nat)) (blocks : list nat) (ordered exits : gmap nat (list nat)) (noncond : gmap nat (gset nat)).
Hypothesis Hwf : edges_wf (length (basic_blocks mir)) e.
Hypothesis Hback : forall s h, (s, h) ∈ back <-> natural_back_edge mir e s h.
Hypothesis Hbodies : forall h b, (exists body, bodies !! h = Some body /\ b ∈ body) <-> exists s, (s, h) ∈ back /\ leads e h s b.
Hypothesis Hheads : forall h, is_Some (bodies !! h) <-> exists s, (s, h) ∈ back.
Hypothesis Ed :
  map_entries (fun loop_head _ => heads ← enclosing_loop_heads_set bodies !! loop_head; Some (size heads)) bodies = Some depths.
Hypothesis Ee : map_entries (fun _ heads => sort_heads depths heads) (enclosing_loop_heads_set bodies) = Some enclosing.
Hypothesis Eo : order_basic_blocks mir e back (depth_of enclosing depths) = Some blocks.
Hypothesis Eord : map_entries (fun _ body => sort_heads (list_to_map (imap (fun i v => (v, i)) blocks)) body) bodies = Some ordered.
Hypothesis Ex : map_entries (fun loop_head ordered =>
  depth ← depths !! loop_head; exit_blocks mir e (depth_of enclosing depths) depth ordered) ordered = Some exits.
Hypothesis Er : foldl (restrict_blocks mir) (Some bodies) (elements back) = Some noncond.
Let self : ProcedureLoops := make_loops (dom bodies) depths bodies ordered enclosing exits noncond back blocks.

Lemma parts_lt h set b : bodies !! h = Some set -> b ∈ set -> b < length (basic_blocks mir).
Proof. intros Eh Hb. destruct (proj1 (Hbodies h b)) as (s & Hs%Hback & Hl); [by exists set|]. eapply leads_lt; [done|apply Hs|done]. Qed.

Lemma parts_depths h : is_Some (bodies !! h) -> is_Some (depths !! h).
Proof. intros [set Eh]. pose proof (map_entries_lookup _ _ _ Ed h) as Hd. rewrite Eh in Hd. destruct Hd as (d & _ & ->). by eexists. Qed.

Lemma parts_ordered h body : ordered !! h = Some body -> exists set, bodies !! h = Some set
  /\ sort_heads (list_to_map (imap (fun i v => (v, i)) blocks)) set = Some body /\ forall b, b ∈ body <-> b ∈ set.
Proof.
  intros Eh. pose proof (map_entries_lookup _ _ _ Eord h) as Ho. destruct (bodies !! h) as [set|]; [|congruence]. destruct Ho as (body' & Es & Eh').
  assert (body' = body) as -> by congruence. exists set. split; [done|]. split; [exact Es|]. intros b. by apply (sort_heads_elem _ _ _ b Es).
Qed.

Lemma parts_in h b : (exists body, ordered !! h = Some body /\ b ∈ body) <-> exists set, bodies !! h = Some set /\ b ∈ set.
Proof.
  split; [intros (body & (set & Es & _ & Hin)%parts_ordered & Hb); exists set; by rewrite <- Hin|]. intros (set & Es & Hb).
  pose proof (map_entries_lookup _ _ _ Eord h) as Ho. rewrite Es in Ho. destruct Ho as (body & Es' & Eh). exists body. split; [done|].
  by apply (sort_heads_elem _ _ _ b Es').
Qed.

Lemma parts_depth b : get_loop_depth self b = Some (depth_of enclosing depths b).
Proof.
  unfold get_loop_depth, get_loop_head, get_loop_head_depth, depth_of. cbn. pose proof (map_entries_lookup _ _ _ Ee b) as He.
  destruct (enclosing_loop_heads_set bodies !! b) as [heads|]; [|by rewrite He]. destruct He as (l & El' & ->). cbn.
  destruct (last l) as [h|] eqn:Elast; [|done]. apply last_Some in Elast as [l' ->].
  destruct (sort_heads_keys _ _ _ h El') as [d ->]; [set_solver|done].
Qed.

Lemma parts_head h : bool_decide (h ∈ dom bodies) = true <-> exists s, (s, h) ∈ back.
Proof. by rewrite bool_decide_eq_true, elem_of_dom. Qed.

Lemma parts_correct : loops_correct mir e self.
Proof.
  destruct (order_basic_blocks_spec mir e back (depth_of enclosing depths) Hwf) as [_ Htop]. specialize (Htop blocks Eo).
  split; unfold get_loop_body, get_loop_head_depth, get_loop_exit_blocks; try setoid_rewrite parts_depth; cbn.
  - exact Hback.
  - exact parts_head.
  - intros h body b Eh. rewrite <- Hbodies, <- parts_in. split; [intros Hb; by exists body|by intros (? & [= <-]%(eq_trans (eq_sym Eh)) & ?)].
  - exact Htop.
  - intros h b Hh%parts_head%Hheads. destruct Hh as [set Eset]. pose proof (restrict_all_spec mir _ _ _ Er h) as Hr. rewrite Eset in Hr.
    destruct Hr as (set' & Es' & Hs). unfold is_conditional_branch. cbn. rewrite Es'. exists (negb (bool_decide (b ∈ set'))). split; [done|].
    rewrite negb_false_iff, bool_decide_eq_true, Hs, <- Hbodies. setoid_rewrite elem_of_elements. rewrite Eset. naive_solver.
  - intros h body (set & Es & Esort & _)%parts_ordered. eapply sort_blocks_sublist; [apply (topological_nodup _ _ _ _ Htop)| |exact Esort].
    intros b Hb%(parts_lt _ _ _ Es). by apply (topological_elem _ _ _ _ Htop).
  - intros h d Eh. destruct (head_depths_spec bodies depths Ed h d Eh) as (outer & Hn & Hl & Hin). exists outer. split_and!; [done..|].
    intros h'. by rewrite Hin, parts_in.
  - intros b. exists (depth_of enclosing depths b). destruct (depth_of_spec bodies depths enclosing b parts_depths Ee) as [Hmax Hle]. split; [done|]. split.
    + destruct Hmax as [|(h & set & Es & Hb & Edh)]; [by left|right]. destruct (proj2 (parts_in h b)) as (body & Eh & Hb'); [by exists set|]. by exists h, body.
    + intros h body d' Eh Hb. destruct (proj1 (parts_in h b)) as (set & Es & Hb'); [by exists body|]. by apply (Hle h set).
  - intros h out Eh. pose proof (map_entries_lookup _ _ _ Ex h) as Hx. destruct (ordered !! h) as [body|] eqn:Eb'; [|congruence]. destruct Hx as (out' & Ee' & Eh').
    assert (out' = out) as -> by congruence. destruct (depths !! h) as [d|] eqn:Edh; cbn in Ee'; [|done]. exists body, d. split_and!; [done..| |].
    + by apply (exit_blocks_spec mir e _ _ _ _ Ee').
    + intros b. rewrite (proj2 (exit_blocks_spec mir e _ _ _ _ Ee') b). naive_solver.
  - intros h Hh%parts_head%Hheads. pose proof (map_entries_lookup _ _ _ Eord h) as Ho. pose proof (map_entries_lookup _ _ _ Ex h) as Hx. destruct (parts_depths h Hh) as [d ->]. destruct Hh as [set Eset]. rewrite Eset in Ho.
    destruct Ho as (body & _ & Eb'). rewrite Eb' in *. destruct Hx as (exits' & _ & ->). split_and!; by eexists.
Qed.
End Parts.

Lemma new_loops_spec (mir : Body) e self : edges_wf (length (basic_blocks mir)) e -> new_loops mir e = Some self -> loops_correct mir e self.
Proof.
  intros Hwf Hnew. unfold new_loops in Hnew.
  destruct (find_back_edges mir e) as [back|] eqn:Eb; cbn -[map_entries] in Hnew; [|done].
  destruct (find_loop_bodies e back) as [bodies|] eqn:El; cbn -[map_entries] in Hnew; [|done].
  destruct (map_entries _ bodies) as [depths|] eqn:Ed in Hnew; cbn -[map_entries] in Hnew; [|done].
  destruct (map_entries _ (enclosing_loop_heads_set bodies)) as [enclosing|] eqn:Ee in Hnew; cbn -[map_entries] in Hnew; [|done].
  destruct (order_basic_blocks _ _ _ _) as [blocks|] eqn:Eo in Hnew; cbn -[map_entries] in Hnew; [|done].
  destruct (map_entries _ bodies) as [ordered|] eqn:Eord in Hnew; cbn -[map_entries] in Hnew; [|done].
  destruct (map_entries _ ordered) as [exits|] eqn:Ex in Hnew; cbn -[map_entries] in Hnew; [|done].
  destruct (foldl (restrict_blocks mir) _ _) as [noncond|] eqn:Er in Hnew; cbn -[map_entries] in Hnew; [|done].
  injection Hnew as <-. pose proof (find_back_edges_spec mir e back Eb) as Hback.
  destruct (add_loop_bodies_spec _ e (elements back) Hwf) with (bodies := ∅ : gmap nat (gset nat)) as (bodies' & Ebs & Hbs).
  { intros s h Hin%elem_of_elements. by apply Hback in Hin as [? _]. }
  { intros h body. by rewrite lookup_empty. }
  unfold find_loop_bodies in El. rewrite El in Ebs. injection Ebs as <-.
  assert (Hbodies : forall h b, (exists body, bodies !! h = Some body /\ b ∈ body) <-> exists s, (s, h) ∈ back /\ leads e h s b).
  { intros h b. rewrite Hbs. setoid_rewrite elem_of_elements. setoid_rewrite lookup_empty. naive_solver. }
  assert (Hheads : forall h, is_Some (bodies !! h) <-> exists s, (s, h) ∈ back).
  { intros h. rewrite (add_loop_body_heads _ _ _ _ El h), lookup_empty. setoid_rewrite elem_of_elements. split; [by intros [[? ?]|]|by right]. }
  by apply parts_correct.
Qed.

(** *** The loops are found *)

Lemma map_entries_total {A B} (f : nat -> A -> option B) (m : gmap nat A) : (forall k a, m !! k = Some a -> is_Some (f k a)) -> is_Some (map_entries f m).
Proof.
  intros Hf. unfold map_entries. assert (Hl : forall x, x ∈ map_to_list m -> is_Some (f (fst x) (snd x))).
  { intros [k a] Hx%elem_of_map_to_list. by apply Hf. }
  enough (is_Some (mapM_opt (fun x : nat * A => b ← f (fst x) (snd x); Some (fst x, b)) (map_to_list m))) as [entries ->] by by eexists.
  induction (map_to_list m) as [|x l IH]; cbn; [by eexists|]. destruct (Hl x ltac:(by left)) as [b ->]. cbn.
  destruct IH as [ys ->]; [|by eexists]. intros y Hy. apply Hl. by right.
Qed.

Lemma successors_total n e bb : edges_wf n e -> bb < n -> is_Some (RealEdges.successors e bb).
Proof. intros Hwf Hb. apply lookup_lt_is_Some_2. by rewrite (wf_successors _ _ Hwf). Qed.

Lemma find_back_edges_total (mir : Body) e : edges_wf (length (basic_blocks mir)) e -> is_Some (find_back_edges mir e).
Proof.
  intros Hwf. unfold find_back_edges. enough (is_Some (mapM_opt (block_back_edges mir e) (block_indices mir))) as [edges ->] by by eexists.
  assert (Hall : forall b, b ∈ block_indices mir -> b < length (basic_blocks mir)) by (unfold block_indices; intros b; rewrite elem_of_seq; lia).
  induction (block_indices mir) as [|b l IH]; cbn; [by eexists|].
  assert (is_Some (block_back_edges mir e b)) as [ts ->].
  { unfold block_back_edges. destruct (successors_total _ e b Hwf (Hall b ltac:(by left))) as [ts ->]. by eexists. }
  cbn. destruct IH as [ys ->]; [|by eexists]. intros x Hx. apply Hall. by right.
Qed.

Lemma sort_heads_total depths (heads : gset nat) : (forall h, h ∈ heads -> is_Some (depths !! h)) -> is_Some (sort_heads depths heads).
Proof.
  intros Hh. unfold sort_heads. assert (forallb (fun bb => bool_decide (is_Some (depths !! bb))) (elements heads) = true) as ->; [|by eexists].
  apply forallb_forall. intros h Hin%list_elem_of_In%elem_of_elements. by apply bool_decide_eq_true, Hh.
Qed.

Lemma exit_blocks_total (mir : Body) e depth_of_block depth ordered : edges_wf (length (basic_blocks mir)) e ->
  (forall b, b ∈ ordered -> b < length (basic_blocks mir)) -> is_Some (exit_blocks mir e depth_of_block depth ordered).
Proof.
  intros Hwf. induction ordered as [|b ordered IH]; intros Hb; cbn; [by eexists|]. unfold is_exit_block.
  destruct (lookup_lt_is_Some_2 (basic_blocks mir) b (Hb b ltac:(by left))) as [data ->].
  destruct (successors_total _ e b Hwf (Hb b ltac:(by left))) as [ts ->]. cbn. destruct IH as [rest ->]; [|by eexists]. intros x Hx. apply Hb. by right.
Qed.

Lemma restrict_all_total (mir : Body) edges : forall blocks, (forall s h, (s, h) ∈ edges -> is_Some (blocks !! h)) ->
  is_Some (foldl (restrict_blocks mir) (Some blocks) edges).
Proof.
  induction edges as [|[s t] edges IH]; intros blocks Hb; [by eexists|]. cbn [foldl]. unfold restrict_blocks at 2. cbn -[dominators_of].
  destruct (Hb s t ltac:(by left)) as [set ->]. cbn -[dominators_of]. apply IH. intros s' h Hin. destruct (decide (h = t)) as [->|Hne].
  - rewrite lookup_insert_eq. by eexists.
  - rewrite lookup_insert_ne by done. apply (Hb s'). by right.
Qed.

(** The loops of a reducible body: the head of a back edge leads to the source
    of the edge, and the other edges have no cycle. *)
Record reducible (mir : Body) e : Prop := {
  reducible_head : forall s h, natural_back_edge mir e s h -> leads e h s h;
  reducible_rank : exists rank : nat -> nat, forall u v, v ∈ succs e u -> ~ natural_back_edge mir e u v -> rank v < rank u
}.

Lemma new_loops_total (mir : Body) e : edges_wf (length (basic_blocks mir)) e -> reducible mir e -> is_Some (new_loops mir e).
Proof.
  intros Hwf [Hhead [rank Hrank]]. unfold new_loops.
  destruct (find_back_edges_total mir e Hwf) as [back Eb]. rewrite Eb. cbn -[map_entries find_loop_bodies].
  pose proof (find_back_edges_spec mir e back Eb) as Hback.
  destruct (add_loop_bodies_spec _ e (elements back) Hwf) with (bodies := ∅ : gmap nat (gset nat)) as (bodies & Ebs & Hbs).
  { intros s h Hin%elem_of_elements%Hback. by apply Hin. }
  { intros h body. by rewrite lookup_empty. }
  pose proof (add_loop_body_heads _ _ _ _ Ebs) as Hheads. unfold find_loop_bodies. rewrite Ebs. cbn -[map_entries].
  assert (Hbodies : forall h b, (exists body, bodies !! h = Some body /\ b ∈ body) <-> exists s, (s, h) ∈ back /\ leads e h s b).
  { intros h b. rewrite Hbs. setoid_rewrite elem_of_elements. setoid_rewrite lookup_empty. naive_solver. }
  setoid_rewrite elem_of_elements in Hheads. setoid_rewrite lookup_empty in Hheads.
  destruct (map_entries_total (fun loop_head _ => heads ← enclosing_loop_heads_set bodies !! loop_head; Some (size heads)) bodies) as [depths Ed].
  { intros h body Eh. destruct (proj1 (Hheads h) ltac:(by eexists)) as [[? ?]|[s Hs]]; [done|].
    destruct (proj2 (enclosing_loop_heads_spec bodies h h)) as (heads & -> & _); [|by eexists].
    apply Hbodies. exists s. split; [done|]. by apply Hhead, Hback. }
  rewrite Ed. cbn -[map_entries]. pose proof (map_entries_lookup _ _ _ Ed) as Hdepths.
  assert (Hdepth : forall h, is_Some (bodies !! h) -> is_Some (depths !! h)).
  { intros h [body Eh]. specialize (Hdepths h). rewrite Eh in Hdepths. destruct Hdepths as (d & _ & ->). by eexists. }
  destruct (map_entries_total (fun _ heads => sort_heads depths heads) (enclosing_loop_heads_set bodies)) as [enclosing Ee].
  { intros b heads Eh. apply sort_heads_total. intros h Hh. apply Hdepth. destruct (proj1 (enclosing_loop_heads_spec bodies b h)) as (body & -> & _); [by exists heads|by eexists]. }
  rewrite Ee. cbn -[map_entries]. set (get_depth := depth_of enclosing depths).
  destruct (order_basic_blocks_spec mir e back get_depth Hwf) as [Hord Htop].
  destruct (proj1 Hord) as [blocks Eo]. { exists rank. intros u v [Hv Hn]. apply Hrank; [done|]. intros Hb. by apply Hn, Hback. }
  rewrite Eo. cbn -[map_entries]. specialize (Htop blocks Eo).
  assert (Hlt : forall h body b, bodies !! h = Some body -> b ∈ body -> b < length (basic_blocks mir)).
  { intros h body b Eh Hb. destruct (proj1 (Hbodies h b)) as (s & Hs%Hback & Hl); [by exists body|]. eapply leads_lt; [done|apply Hs|done]. }
  set (block_order := list_to_map _ : gmap nat nat).
  destruct (map_entries_total (fun _ body => sort_heads block_order body) bodies) as [ordered Eord].
  { intros h body Eh. apply sort_heads_total. intros b Hb%(Hlt _ _ _ Eh). apply (topological_elem _ _ _ _ Htop), list_elem_of_lookup in Hb as [i Hi].
    apply elem_of_dom. unfold block_order. rewrite dom_list_to_map_L, elem_of_list_to_set, list_elem_of_fmap. exists (b, i). split; [done|].
    apply elem_of_lookup_imap. by exists i, b. }
  rewrite Eord. cbn -[map_entries]. pose proof (map_entries_lookup _ _ _ Eord) as Hordered.
  destruct (map_entries_total (fun loop_head ordered => depth ← depths !! loop_head; exit_blocks mir e get_depth depth ordered) ordered) as [exits Ex].
  { intros h body Eh. specialize (Hordered h). destruct (bodies !! h) as [set|] eqn:Es; [|congruence]. destruct Hordered as (body' & E1 & E2).
    destruct (Hdepth h ltac:(by eexists)) as [d ->]. cbn. apply exit_blocks_total; [done|]. intros b Hb. eapply Hlt; [exact Es|].
    assert (body' = body) as -> by congruence. by apply (sort_heads_elem _ _ _ b E1). }
  rewrite Ex. cbn -[restrict_blocks]. destruct (restrict_all_total mir (elements back) bodies) as [noncond ->].
  { intros s h Hin%elem_of_elements. apply Hheads. right. by exists s. }
  by eexists.
Qed.
End NewLoops.

(** ** The theorems *)

Definition targets_in_body `{MirCrate} (mir : Body) : Prop :=
  forall bb data t, basic_blocks mir !! bb = Some data -> t ∈ RealEdges.real_targets (terminator data) -> t < length (basic_blocks mir).

Lemma new_edges_wf `{MirCrate} (mir : Body) e : targets_in_body mir -> RealEdges.new mir = Some e -> edges_wf (length (basic_blocks mir)) e.
Proof. intros Hc E. destruct (real_edges_spec mir Hc) as (e' & E' & Hwf & _). by assert (e' = e) as <- by congruence. Qed.

(** The loops of a reducible body are found, and are the natural loops of its
    back edges. *)
(** C20. On a reducible body (the edges to a dominator of their source come from a block that
    their target leads to, and the other edges have no cycle) ProcedureLoops::new does not
    panic. The back edges are the edges to a dominator of their source; the body of a loop
    holds, in the order of all blocks, the blocks with a path to the source of a back edge that
    has the head at its ends only (if a block jumps to itself, these are all the blocks that
    lead to it); the depth of a loop is the number of loops its head is in, and that of a block
    the depth of the deepest loop it is in; the exits are the switches of the body with a less
    deep successor; the nonconditional blocks are the blocks of the loop that dominate the
    sources of all back edges; and the queries answer. *)
Theorem procedure_loops_correct `{MirCrate} (mir : Body) e : targets_in_body mir -> RealEdges.new mir = Some e -> reducible mir e ->
  exists self, new_loops mir e = Some self /\ loops_correct mir e self.
Proof.
  intros Hc E Hr. pose proof (new_edges_wf mir e Hc E) as Hwf. destruct (new_loops_total mir e Hwf Hr) as [self Es].
  exists self. split; [done|]. by apply new_loops_spec.
Qed.

(** The blocks have an order iff the edges that are no back edges have no cycle. *)
(** C21. The blocks are ordered without a panic iff the edges that are no back edges have no
    cycle; the order has every block once and, but for back edges, the successors of a block
    after it. *)
Theorem block_order_correct `{MirCrate} (mir : Body) e back_edges loop_depth : targets_in_body mir -> RealEdges.new mir = Some e ->
  (acyclic_by e back_edges <-> exists l, order_basic_blocks mir e back_edges loop_depth = Some l)
  /\ forall l, order_basic_blocks mir e back_edges loop_depth = Some l -> topological (length (basic_blocks mir)) e back_edges l.
Proof. intros Hc E. apply order_basic_blocks_spec. by apply new_edges_wf. Qed.

Section LoopPlaces.
Context `{MirCrate} (visit_body : Body -> list (Place * PlaceContext * Location)).

Lemma visit_places_spec body l : forall accessed accessed', foldl (visit_place body) (Some accessed) l = Some accessed' ->
  forall p k, (exists loc, make_access loc p k ∈ accessed') <-> (exists loc, make_access loc p k ∈ accessed) \/
    exists context loc, (p, context, loc) ∈ l /\ block loc ∈ body /\ access_kind context = Some k.
Proof.
  assert (Hnone : forall l, foldl (visit_place body) None l = None) by (induction l0; done).
  induction l as [|[[q context] loc] l IH]; intros accessed accessed' E p k.
  { injection E as <-. set_solver. }
  cbn [foldl] in E. unfold visit_place at 2 in E. cbn -[access_kind is_use] in E.
  assert (Hskip : forall P : Prop, (block loc ∈ body /\ exists k', access_kind context = Some k' /\ (q = p /\ k' = k)) \/ P <->
    P \/ (block loc ∈ body /\ access_kind context = Some k /\ q = p)) by naive_solver.
  setoid_rewrite elem_of_cons. case_bool_decide as Hb; cbn [andb] in E.
  - destruct (is_use context) eqn:Eu.
    + destruct (access_kind context) as [k'|] eqn:Ek; cbn in E; [|by rewrite Hnone in E]. rewrite (IH _ _ E).
      setoid_rewrite elem_of_app. setoid_rewrite list_elem_of_singleton. naive_solver.
    + rewrite (IH _ _ E). assert (access_kind context = None) by by destruct context. naive_solver.
  - rewrite (IH _ _ E). naive_solver.
Qed.

(** An access of a loop: a use in its body, of a place that may be initialised. *)
Definition loop_access (mir : Body) (body : gset nat) (initialised : option (gset Place)) (p : Place) (k : PlaceAccessKind) : Prop :=
  (exists context loc, (p, context, loc) ∈ visit_body mir /\ block loc ∈ body /\ access_kind context = Some k)
  /\ match initialised with Some paths => possible_access paths (p, k) = true | None => True end.

(** The leaves of a loop cover the places that the loop accesses. *)
(** C22. The leaves of a loop come from the accesses of its body whose places may be
    initialised; they are without duplicates, no place is in two lists, and each access has a
    leaf of its strength that is a prefix of its place. *)
Theorem loop_leaves_correct self head (mir : Body) initialised w m r :
  compute_read_and_write_leaves visit_body self head mir initialised = Some (w, m, r) ->
  exists body accesses, loop_bodies self !! head = Some body
    /\ (forall p k, (p, k) ∈ accesses <-> loop_access mir body initialised p k) /\ leaves_correct accesses w m r.
Proof.
  unfold compute_read_and_write_leaves, compute_used_paths. destruct (loop_bodies self !! head) as [body|]; cbn -[read_and_write_leaves]; [|done].
  destruct (foldl _ _ _) as [l|] eqn:E; cbn -[read_and_write_leaves]; [|done].
  set (accesses := match initialised with Some paths => _ | None => _ end). intros El%(inj Some). exists body, accesses.
  pose proof (read_and_write_leaves_spec accesses) as Hs. rewrite El in Hs. split_and!; [done| |done]. intros p k. unfold loop_access.
  pose proof (visit_places_spec body _ _ _ E p k) as Hv.
  assert (Hl : (p, k) ∈ map (fun access => (place access, kind access)) l <-> exists loc, make_access loc p k ∈ l).
  { rewrite list_elem_of_In, in_map_iff. setoid_rewrite <- list_elem_of_In. split; [intros ([loc p' k'] & [= -> ->] & Hin); by exists loc|].
    intros [loc Hin]. by exists (make_access loc p k). }
  assert (Hv' : (exists loc, make_access loc p k ∈ l) <-> exists context loc, (p, context, loc) ∈ visit_body mir /\ block loc ∈ body /\ access_kind context = Some k).
  { rewrite Hv. set_solver. }
  unfold accesses. destruct initialised as [paths|].
  - rewrite list_elem_of_In, filter_In, <- list_elem_of_In, Hl, Hv'. done.
  - rewrite Hl, Hv'. naive_solver.
Qed.
End LoopPlaces.

(** ** Examples *)

Module ConcreteLoops.
Import ConcreteMir.

(** [bb0: goto bb1; bb1: switch [bb2, bb3]; bb2: goto bb1; bb3: return], and a
    block that jumps to itself. *)
Definition while_body : Body := make_body
  [make_block_data [] (Goto 1); make_block_data [] (SwitchInt Constant [2; 3]); make_block_data [] (Goto 1); make_block_data [] Return] 3 1.
Definition self_loop : Body := make_body [make_block_data [] (Goto 1); make_block_data [] (Goto 1)] 1 0.

Definition while_edges : RealEdges := RealEdges.make_edges [[1]; [2; 3]; [1]; []] [[]; [0; 2]; [1]; [1]].
Example while_edges_new : RealEdges.new while_body = Some while_edges.
Proof. reflexivity. Qed.

Definition while_loops : ProcedureLoops :=
  match new_loops while_body while_edges with Some self => self | None => make_loops ∅ ∅ ∅ ∅ ∅ ∅ ∅ ∅ [] end.
Example while_loops_parts :
  (ordered_blocks while_loops, get_loop_body while_loops 1, get_loop_exit_blocks while_loops 1, get_loop_depth while_loops 2, get_loop_depth while_loops 3,
   is_conditional_branch while_loops 1 2, is_out_edge while_loops 1 3)
  = ([0; 1; 2; 3], Some [1; 2], Some [1], Some 1, Some 0, Some false, Some true).
Proof. vm_compute. reflexivity. Qed.

(** The body of a loop of one block also holds the blocks before it. *)
Example self_loop_body : (e ← RealEdges.new self_loop; self ← new_loops self_loop e; get_loop_body self 1) = Some [0; 1].
Proof. vm_compute. reflexivity. Qed.

Lemma while_targets : targets_in_body while_body.
Proof.
  intros bb data t E Ht. cbn. do 4 (destruct bb as [|bb]; [injection E as <-; cbn in Ht; set_unfold; lia|]). done.
Qed.

Lemma while_succs s h : h ∈ succs while_edges s -> (s = 0 /\ h = 1) \/ (s = 1 /\ h = 2) \/ (s = 1 /\ h = 3) \/ (s = 2 /\ h = 1).
Proof.
  do 4 (destruct s as [|s]; [cbn; rewrite ?elem_of_cons, elem_of_nil; lia|]). cbn. by rewrite elem_of_nil.
Qed.

Lemma while_back_edge s h : natural_back_edge while_body while_edges s h <-> s = 2 /\ h = 1.
Proof.
  unfold natural_back_edge. split; [|intros [-> ->]; split_and!; [cbn; lia|by left|by vm_compute]].
  intros (_ & [[-> ->]|[[-> ->]|[[-> ->]|[-> ->]]]]%while_succs & Hd); [..|by split]; vm_compute in Hd; discriminate Hd.
Qed.

Lemma while_reducible : reducible while_body while_edges.
Proof.
  split.
  - intros s h [-> ->]%while_back_edge. eapply leads_step; [apply leads_refl|by left|by left].
  - exists (fun b => match b with 0 => 3 | 1 => 2 | 2 => 1 | _ => 0 end). intros u v Ht Hn. rewrite while_back_edge in Hn.
    apply while_succs in Ht as [[-> ->]|[[-> ->]|[[-> ->]|[-> ->]]]]; [lia..|]. by destruct Hn.
Qed.

Lemma procedure_loops_correct_witness : exists self, new_loops while_body while_edges = Some self /\ loops_correct while_body while_edges self.
Proof. exact (procedure_loops_correct while_body while_edges while_targets while_edges_new while_reducible). Defined.

Lemma block_order_correct_witness : topological 4 while_edges {[(2, 1)]} [0; 1; 2; 3].
Proof.
  apply (proj2 (block_order_correct while_body while_edges {[(2, 1)]} (fun b => if Nat.eqb b 1 || Nat.eqb b 2 then 1 else 0) while_targets while_edges_new)).
  vm_compute. reflexivity.
Defined.

(** [x.0] is moved and [x.0.1] is read in the body of the loop. *)
Definition x0 : Place := make_place 2 [Field 0 1 : PlaceElem].
Definition x01 : Place := make_place 2 [Field 0 1 : PlaceElem; Field 1 0 : PlaceElem].
Definition uses (mir : Body) : list (Place * PlaceContext * Location) :=
  [(x0, NonMutatingMove, make_location 2 0); (x01, NonMutatingCopy, make_location 1 0); (place_of_local 1, NonMutatingCopy, make_location 3 0)].

Lemma loop_leaves_correct_witness : exists body accesses, loop_bodies while_loops !! 1 = Some body
  /\ (forall p k, (p, k) ∈ accesses <-> loop_access uses while_body body None p k) /\ leaves_correct accesses [x0] [] [].
Proof. apply (loop_leaves_correct uses while_loops 1 while_body None [x0] [] []). vm_compute. reflexivity. Defined.
End ConcreteLoops.
