(* ===== verification/Procedure.v ===== *)
(** * Procedures

    The facade of a body ([environment/procedure.rs]): the blocks that can be
    reached, those that only type check specifications, and the queries of the
    encoder; and the loop encoder's queries ([encoder/loop_encoder.rs]).  The
    attributes of a definition come from the compiler. *)

From stdpp Require Import gmap list relations.
From S2P Require Import Prelude SpecCollector Mir Places Loops LoopsFacts.
Import RealEdges (RealEdges).

Section Procedures.
Context `{MirCrate}.
(** [tcx.get_attrs]. *)
Context (get_attrs : DefId -> list Ast.Attribute).

(** ** Reachable blocks *)

Definition unvisited_targets (visited : gset BasicBlock) (targets : list BasicBlock) : list BasicBlock :=
  List.filter (fun target => negb (bool_decide (target ∈ visited))) targets.

(** The block that was pushed last is visited first. *)
Fixpoint reach_loop (fuel : nat) (real_edges : RealEdges) (visited reachable : gset BasicBlock) (to_visit : list BasicBlock) :
    option (gset BasicBlock) :=
  match to_visit with
  | [] => Some reachable
  | source :: to_visit =>
      match fuel with
      | 0 => None
      | S fuel =>
          if bool_decide (source ∈ visited) then reach_loop fuel real_edges visited reachable to_visit
          else
            let visited := {[source]} ∪ visited in
            targets ← RealEdges.successors real_edges source;
            reach_loop fuel real_edges visited ({[source]} ∪ reachable) (rev (unvisited_targets visited targets) ++ to_visit)%list
      end
  end.

(** A block is pushed at most once for each edge. *)
Definition visit_fuel (real_edges : RealEdges) : nat := S (list_sum (map length (RealEdges.all_successors real_edges))).

Definition first_block (mir : Body) : option BasicBlock := head (block_indices mir).

Definition build_reachable_basic_blocks (mir : Body) (real_edges : RealEdges) : option (gset BasicBlock) :=
  first ← first_block mir; reach_loop (visit_fuel real_edges) real_edges ∅ ∅ [first].

(** ** Blocks of specifications *)

Definition is_spec_closure (def_id : DefId) : bool := has_spec_only_attr (get_attrs def_id).

Definition is_spec_statement (stmt : Statement) : bool :=
  match stmt with
  | Assign _ (Aggregate (Some def_id) _) => is_spec_closure def_id
  | _ => false
  end.
Definition is_spec_basic_block (bb_data : BasicBlockData) : bool := existsb is_spec_statement (statements bb_data).

Record BasicBlockNode : Type := make_node { node_successors : gset BasicBlock; node_predecessors : gset BasicBlock }.
Definition empty_node : BasicBlockNode := make_node ∅ ∅.
Abbreviation Graph := (gmap BasicBlock BasicBlockNode).

Definition ensure_node (bb_graph : Graph) (bb : BasicBlock) : Graph :=
  match bb_graph !! bb with Some _ => bb_graph | None => <[bb := empty_node]> bb_graph end.

Definition add_predecessor_of (source : BasicBlock) (node : BasicBlockNode) : BasicBlockNode :=
  make_node (node_successors node) ({[source]} ∪ node_predecessors node).
Definition add_successor_of (target : BasicBlock) (node : BasicBlockNode) : BasicBlockNode :=
  make_node ({[target]} ∪ node_successors node) (node_predecessors node).

(** One edge of the graph. *)
Definition connect (source : BasicBlock) (bb_graph : Graph) (target : BasicBlock) : Graph :=
  alter (add_successor_of target) source (alter (add_predecessor_of source) target (ensure_node bb_graph target)).

Fixpoint graph_loop (fuel : nat) (real_edges : RealEdges) (visited : gset BasicBlock) (bb_graph : Graph) (to_visit : list BasicBlock) : option Graph :=
  match to_visit with
  | [] => Some bb_graph
  | source :: to_visit =>
      match fuel with
      | 0 => None
      | S fuel =>
          if bool_decide (source ∈ visited) then graph_loop fuel real_edges visited bb_graph to_visit
          else
            let bb_graph := ensure_node bb_graph source in
            let visited := {[source]} ∪ visited in
            targets ← RealEdges.successors real_edges source;
            graph_loop fuel real_edges visited (foldl (connect source) bb_graph targets) (rev (unvisited_targets visited targets) ++ to_visit)%list
      end
  end.

(** The recursion over the predecessors that have one successor: it has no end
    on a cycle of them. *)
Fixpoint blocks_leading_to (fuel : nat) (bb_graph : Graph) (target : BasicBlock) (blocks : gset BasicBlock) : option (gset BasicBlock) :=
  match fuel with
  | 0 => None
  | S fuel =>
      node ← bb_graph !! target;
      foldl (fun blocks pred =>
          blocks ← blocks;
          pred_node ← bb_graph !! pred;
          if Nat.eqb (size (node_successors pred_node)) 1 then blocks_leading_to fuel bb_graph pred ({[pred]} ∪ blocks) else Some blocks)
        (Some blocks) (elements (node_predecessors node))
  end.

Definition blocks_definitely_leading_to (fuel : nat) (bb_graph : Graph) (target : BasicBlock) : option (gset BasicBlock) :=
  blocks_leading_to fuel bb_graph target ∅.

Definition add_spec_block (fuel : nat) (mir : Body) (bb_graph : Graph) (spec_basic_blocks : option (gset BasicBlock)) (bb : BasicBlock) :
    option (gset BasicBlock) :=
  spec_basic_blocks ← spec_basic_blocks;
  data ← basic_blocks mir !! bb;
  if is_spec_basic_block data then
    blocks ← blocks_definitely_leading_to fuel bb_graph bb; Some (blocks ∪ ({[bb]} ∪ spec_basic_blocks))
  else Some spec_basic_blocks.

Definition get_nonspec_basic_blocks (fuel : nat) (bb_graph : Graph) (mir : Body) : option (gset BasicBlock) :=
  spec_basic_blocks ← foldl (add_spec_block fuel mir bb_graph) (Some ∅) (elements (dom bb_graph));
  Some (dom bb_graph ∖ spec_basic_blocks).

Definition build_nonspec_basic_blocks (fuel : nat) (mir : Body) (real_edges : RealEdges) : option (gset BasicBlock) :=
  first ← first_block mir;
  bb_graph ← graph_loop (visit_fuel real_edges) real_edges ∅ ∅ [first];
  get_nonspec_basic_blocks fuel bb_graph mir.

(** ** [Procedure] *)

Record Procedure : Type := make_procedure {
  proc_mir : Body;
  proc_edges : RealEdges;
  loop_info : ProcedureLoops;
  reachable_basic_blocks : gset BasicBlock;
  nonspec_basic_blocks : gset BasicBlock
}.

Definition new_procedure (fuel : nat) (mir : Body) : option Procedure :=
  real_edges ← RealEdges.new mir;
  reachable ← build_reachable_basic_blocks mir real_edges;
  nonspec ← build_nonspec_basic_blocks fuel mir real_edges;
  loop_info ← new_loops mir real_edges;
  Some (make_procedure mir real_edges loop_info reachable nonspec).

Definition get_first_cfg_block (self : Procedure) : option BasicBlock := first_block (proc_mir self).
Definition get_all_cfg_blocks (self : Procedure) : list BasicBlock := ordered_blocks (loop_info self).
Definition is_spec_block (self : Procedure) (bbi : BasicBlock) : bool := negb (bool_decide (bbi ∈ nonspec_basic_blocks self)).
Definition is_reachable_block (self : Procedure) (bbi : BasicBlock) : bool := bool_decide (bbi ∈ reachable_basic_blocks self).
Definition get_reachable_cfg_blocks (self : Procedure) : list BasicBlock := List.filter (is_reachable_block self) (get_all_cfg_blocks self).
Definition get_reachable_nonspec_cfg_blocks (self : Procedure) : list BasicBlock :=
  List.filter (fun bbi => negb (is_spec_block self bbi)) (get_reachable_cfg_blocks self).
Definition proc_successors (self : Procedure) (bbi : BasicBlock) : option (list BasicBlock) := RealEdges.successors (proc_edges self) bbi.

(** ** The invariant block of a loop *)

Inductive LoopEncoderError : Type := LoopInvariantInBranch (bb : BasicBlock).

(** A block of the loop that leads to a block of a specification. *)
Definition precedes_invariant (self : Procedure) (loop_depth : nat) (bb : BasicBlock) : option bool :=
  depth ← get_loop_depth (loop_info self) bb;
  data ← basic_blocks (proc_mir self) !! bb;
  Some (Nat.eqb depth loop_depth
        && existsb (fun succ_bb => is_reachable_block self succ_bb && is_spec_block self succ_bb) (successors (terminator data))).

Fixpoint find_block (f : BasicBlock -> option bool) (l : list BasicBlock) : option (option BasicBlock) :=
  match l with
  | [] => Some None
  | bb :: l => found ← f bb; if (found : bool) then Some (Some bb) else find_block f l
  end.

Definition get_loop_invariant_block (self : Procedure) (loop_head : BasicBlock) : option (BasicBlock + LoopEncoderError) :=
  loop_depth ← get_loop_head_depth (loop_info self) loop_head;
  body ← get_loop_body (loop_info self) loop_head;
  let loop_body := List.filter (fun bb => negb (is_spec_block self bb)) body in
  loop_exit_blocks ← get_loop_exit_blocks (loop_info self) loop_head;
  found ← find_block (precedes_invariant self loop_depth) loop_body;
  let before_invariant_block := match (found : option BasicBlock) with
                                | Some bb => bb
                                | None => match head loop_exit_blocks with Some bb => bb | None => loop_head end
                                end in
  conditional ← is_conditional_branch (loop_info self) loop_head before_invariant_block;
  Some (if (conditional : bool) then inr (LoopInvariantInBranch loop_head) else inl before_invariant_block).
End Procedures.

(** * Facts about procedures

    The reachable blocks are those a path of real edges leads to; a block is
    left out as part of a specification iff it builds a closure of a
    specification or every path from it leads to such a block; the block of a
    loop invariant is run in every iteration. *)

Section Search.
Context `{MirCrate} (n : nat) (e : RealEdges).
Hypothesis wf : edges_wf n e.
Implicit Types (b t : nat) (visited : gset nat) (queue order : list nat).

Definition edge_of b t : Prop := t ∈ succs e b.

(** The blocks in the order in which they are visited. *)
Fixpoint search (fuel : nat) (visited : gset nat) (to_visit : list nat) : option (list nat) :=
  match to_visit with
  | [] => Some []
  | source :: to_visit =>
      match fuel with
      | 0 => None
      | S fuel =>
          if bool_decide (source ∈ visited) then search fuel visited to_visit
          else
            targets ← RealEdges.successors e source;
            order ← search fuel ({[source]} ∪ visited) (rev (unvisited_targets ({[source]} ∪ visited) targets) ++ to_visit)%list;
            Some (source :: order)
      end
  end.

Lemma reach_loop_search fuel : forall visited reachable queue,
  reach_loop fuel e visited reachable queue = (order ← search fuel visited queue; Some (foldl (fun r s => {[s]} ∪ r) reachable order)).
Proof.
  induction fuel as [|fuel IH]; intros visited reachable [|source queue]; cbn -[unvisited_targets]; try done.
  case_bool_decide; [apply IH|]. destruct (RealEdges.successors e source) as [targets|]; cbn -[unvisited_targets]; [|done].
  rewrite IH. by destruct (search _ _ _).
Qed.

Definition graph_step (g : gmap nat BasicBlockNode) (source : nat) : gmap nat BasicBlockNode :=
  foldl (connect source) (ensure_node g source) (succs e source).

Lemma graph_loop_search fuel : forall visited g queue,
  graph_loop fuel e visited g queue = (order ← search fuel visited queue; Some (foldl graph_step g order)).
Proof.
  induction fuel as [|fuel IH]; intros visited g [|source queue]; cbn -[unvisited_targets]; try done.
  case_bool_decide; [apply IH|]. destruct (RealEdges.successors e source) as [targets|] eqn:E; cbn -[unvisited_targets]; [|done].
  rewrite IH. destruct (search _ _ _); cbn; [|done]. unfold graph_step at 3, succs. by rewrite E.
Qed.

(** The edges of the blocks that are not visited. *)
Definition open_edges visited : nat := list_sum (map (fun b => if bool_decide (b ∈ visited) then 0 else length (succs e b)) (seq 0 n)).

Lemma open_edges_visit visited b : b < n -> b ∉ visited -> open_edges ({[b]} ∪ visited) + length (succs e b) <= open_edges visited.
Proof.
  intros Hb Hv. unfold open_edges. assert (Hin : b ∈ seq 0 n) by (apply elem_of_seq; lia). revert Hin. generalize (NoDup_seq 0 n).
  unfold list_sum. induction (seq 0 n) as [|x l IH]; intros Hnd Hin; [by apply not_elem_of_nil in Hin|]. apply NoDup_cons in Hnd as [Hx Hnd]. cbn.
  apply elem_of_cons in Hin as [<-|Hin].
  - rewrite (bool_decide_eq_true_2 (b ∈ {[b]} ∪ visited)), (bool_decide_eq_false_2 (b ∈ visited)) by set_solver.
    assert (map (fun y => if bool_decide (y ∈ {[b]} ∪ visited) then 0 else length (succs e y)) l
      = map (fun y => if bool_decide (y ∈ visited) then 0 else length (succs e y)) l) as ->; [|lia].
    apply map_ext_in. intros y Hy%list_elem_of_In. rewrite (bool_decide_ext (y ∈ {[b]} ∪ visited) (y ∈ visited)); [done|]. set_solver.
  - specialize (IH Hnd Hin). rewrite (bool_decide_ext (x ∈ {[b]} ∪ visited) (x ∈ visited)) by set_solver. lia.
Qed.

Lemma unvisited_targets_elem visited targets t : t ∈ unvisited_targets visited targets <-> t ∈ targets /\ t ∉ visited.
Proof. unfold unvisited_targets. rewrite !list_elem_of_In, filter_In, negb_true_iff, bool_decide_eq_false. done. Qed.

Lemma search_spec fuel : forall visited queue, length queue + open_edges visited <= fuel -> (forall b, b ∈ queue -> b < n) ->
  (forall b t, b ∈ visited -> edge_of b t -> t ∈ visited \/ t ∈ queue) ->
  exists order, search fuel visited queue = Some order
    /\ (forall b, b ∈ order -> b < n /\ b ∉ visited /\ exists q, q ∈ queue /\ rtc edge_of q b)
    /\ (forall b, b ∈ queue -> b ∈ visited \/ b ∈ order)
    /\ (forall b t, b ∈ visited \/ b ∈ order -> edge_of b t -> t ∈ visited \/ t ∈ order) /\ NoDup order.
Proof.
  induction fuel as [|fuel IH]; intros visited [|source queue] Hf Hq Hc; cbn [length] in Hf; try lia.
  1,2: exists []; split_and!; [done|by intros b ?%not_elem_of_nil|by intros b ?%not_elem_of_nil| |apply NoDup_nil_2];
    intros b t [Hb|?%not_elem_of_nil] Ht; [|done]; destruct (Hc b t Hb Ht) as [|?%not_elem_of_nil]; [by left|done].
  cbn [search]. case_bool_decide as Hv.
  - destruct (IH visited queue) as (order & E & H1 & H2 & H3 & H4); [lia|intros b Hb; apply Hq; by right|..].
    { intros b t Hb Ht. destruct (Hc b t Hb Ht) as [|[->|]%elem_of_cons]; auto. }
    exists order. split_and!; [done| | |done|done].
    + intros b (Hn & Hb & q & Hqq & Hr)%H1. split_and!; [done..|]. exists q. split; [by right|done].
    + intros b [->|Hb]%elem_of_cons; [by left|by apply H2].
  - assert (Hs : source < n) by (apply Hq; by left).
    destruct (lookup_lt_is_Some_2 (RealEdges.all_successors e) source) as [targets Et]; [by rewrite (wf_successors _ _ wf)|].
    unfold RealEdges.successors at 1. rewrite Et. cbn -[unvisited_targets].
    assert (Hsu : succs e source = targets) by (unfold succs, RealEdges.successors; by rewrite Et).
    pose proof (open_edges_visit visited source Hs Hv) as Ho. rewrite Hsu in Ho.
    destruct (IH ({[source]} ∪ visited) (rev (unvisited_targets ({[source]} ∪ visited) targets) ++ queue)%list) as (order & E & H1 & H2 & H3 & H4).
    + rewrite length_app, length_rev. assert (length (unvisited_targets ({[source]} ∪ visited) targets) <= length targets) by apply List.filter_length_le. lia.
    + intros b [Hb|Hb]%elem_of_app; [|apply Hq; by right]. apply list_elem_of_In, in_rev, list_elem_of_In, unvisited_targets_elem in Hb as [Hb _].
      eapply wf_succs; [exact wf|]. by rewrite Hsu.
    + intros b t Hb Ht. destruct (decide (t ∈ {[source]} ∪ visited)) as [|Hn]; [by left|right]. apply elem_of_app.
      apply elem_of_union in Hb as [->%elem_of_singleton|Hb].
      * left. apply list_elem_of_In, in_rev. rewrite rev_involutive. apply list_elem_of_In, unvisited_targets_elem. unfold edge_of in Ht. by rewrite Hsu in Ht.
      * right. destruct (Hc b t Hb Ht) as [|[->|]%elem_of_cons]; [set_solver|set_solver|done].
    + rewrite E. cbn. exists (source :: order). split_and!; [done| | | |].
      * intros b [->|Hb]%elem_of_cons; [split_and!; [done..|]; exists source; split; [by left|done]|].
        destruct (H1 b Hb) as (Hn & Hnv & q & Hqq & Hr). split_and!; [done|set_solver|]. apply elem_of_app in Hqq as [Hqq|Hqq].
        -- exists source. split; [by left|]. eapply rtc_l; [|exact Hr]. unfold edge_of. rewrite Hsu.
           by apply list_elem_of_In, in_rev, list_elem_of_In, unvisited_targets_elem in Hqq as [Hqq _].
        -- exists q. split; [by right|done].
      * intros b [->|Hb]%elem_of_cons; [right; by left|]. destruct (H2 b ltac:(apply elem_of_app; by right)) as [Hin|]; [|right; by right].
        apply elem_of_union in Hin as [->%elem_of_singleton|]; [right; by left|by left].
      * intros b t Hb Ht. destruct (H3 b t) as [[->%elem_of_singleton|]%elem_of_union|]; [set_solver|done|right; by left|by left|right; by right].
      * apply NoDup_cons. split; [|done]. intros Hin. destruct (H1 source Hin) as (_ & Hn & _). set_solver.
Qed.

Lemma open_edges_empty : open_edges ∅ = list_sum (map length (RealEdges.all_successors e)).
Proof.
  unfold open_edges. f_equal. rewrite <- (wf_successors _ _ wf). apply list_eq. intros i. rewrite !list_lookup_fmap.
  destruct (lookup (M := list nat) i (seq 0 (length (RealEdges.all_successors e)))) as [j|] eqn:E; cbn.
  - apply lookup_seq in E as [-> Hi]. destruct (lookup_lt_is_Some_2 (RealEdges.all_successors e) i Hi) as [l El].
    rewrite Nat.add_0_l. unfold succs, RealEdges.successors. by rewrite El.
  - apply lookup_ge_None_1 in E. rewrite length_seq in E. by rewrite (proj2 (lookup_ge_None _ _)) by lia.
Qed.

Lemma search_first b0 : b0 < n -> exists order, search (visit_fuel e) ∅ [b0] = Some order /\ NoDup order
  /\ forall b, b ∈ order <-> rtc edge_of b0 b.
Proof.
  intros Hb0. destruct (search_spec (visit_fuel e) ∅ [b0]) as (order & E & H1 & H2 & H3 & H4).
  - rewrite open_edges_empty. unfold visit_fuel. cbn. lia.
  - intros b ->%list_elem_of_singleton. done.
  - intros b t Hb. set_solver.
  - exists order. split_and!; [done..|]. intros b. split.
    + intros (_ & _ & q & ->%list_elem_of_singleton & Hr)%H1. done.
    + assert (Hstart : b0 ∈ order) by (destruct (H2 b0 ltac:(by left)) as [|]; [set_solver|done]). intros Hr. revert Hstart. clear -Hr H3.
      induction Hr as [|x y z Hxy _ IH]; [done|]. intros Hx. apply IH. destruct (H3 x y); [by right|done|set_solver|done].
Qed.
End Search.

(** ** The graph of the blocks *)

Section Graph.
Context `{MirCrate}.
Implicit Types (g : gmap nat BasicBlockNode) (b s t : nat).

Definition node_succs g b : gset nat := match g !! b with Some node => node_successors node | None => ∅ end.
Definition node_preds g b : gset nat := match g !! b with Some node => node_predecessors node | None => ∅ end.

Lemma ensure_node_spec g b : dom (ensure_node g b) = {[b]} ∪ dom g
  /\ (forall x, node_succs (ensure_node g b) x = node_succs g x) /\ forall x, node_preds (ensure_node g b) x = node_preds g x.
Proof.
  unfold ensure_node. destruct (g !! b) as [node|] eqn:E.
  - split_and!; [|done..]. apply elem_of_dom_2 in E. set_solver.
  - split_and!; [apply dom_insert_L|..]; intros x; unfold node_succs, node_preds; (destruct (decide (x = b)) as [->|]; [by rewrite lookup_insert_eq, E|by rewrite lookup_insert_ne]).
Qed.

Lemma connect_spec s g t : s ∈ dom g -> dom (connect s g t) = {[t]} ∪ dom g
  /\ (forall b x, x ∈ node_succs (connect s g t) b <-> x ∈ node_succs g b \/ (b = s /\ x = t))
  /\ forall b x, x ∈ node_preds (connect s g t) b <-> x ∈ node_preds g b \/ (b = t /\ x = s).
Proof.
  intros Hs. unfold connect. destruct (ensure_node_spec g t) as (Hd & Hsu & Hp). set (g1 := ensure_node g t) in *.
  assert (Hs1 : is_Some (g1 !! s)) by (apply elem_of_dom; rewrite Hd; set_solver).
  assert (Ht1 : is_Some (g1 !! t)) by (apply elem_of_dom; rewrite Hd; set_solver). destruct Hs1 as [ns Es], Ht1 as [nt Et].
  split; [by rewrite !dom_alter_L|]. split; intros b x.
  - rewrite <- Hsu. unfold node_succs. destruct (decide (b = s)) as [->|Hne].
    + rewrite lookup_alter_eq. destruct (decide (s = t)) as [->|Hst].
      * rewrite lookup_alter_eq, Et. cbn. set_solver.
      * rewrite lookup_alter_ne, Es by done. cbn. set_solver.
    + rewrite lookup_alter_ne by done. destruct (decide (b = t)) as [->|Hbt].
      * rewrite lookup_alter_eq, Et. cbn. naive_solver.
      * rewrite lookup_alter_ne by done. naive_solver.
  - rewrite <- Hp. unfold node_preds. destruct (decide (b = s)) as [->|Hne].
    + rewrite lookup_alter_eq. destruct (decide (s = t)) as [->|Hst].
      * rewrite lookup_alter_eq, Et. cbn. set_solver.
      * rewrite lookup_alter_ne, Es by done. cbn. naive_solver.
    + rewrite lookup_alter_ne by done. destruct (decide (b = t)) as [->|Hbt].
      * rewrite lookup_alter_eq, Et. cbn. set_solver.
      * rewrite lookup_alter_ne by done. naive_solver.
Qed.

Lemma connect_all_spec s ts : forall g, s ∈ dom g -> dom (foldl (connect s) g ts) = list_to_set ts ∪ dom g
  /\ (forall b x, x ∈ node_succs (foldl (connect s) g ts) b <-> x ∈ node_succs g b \/ (b = s /\ x ∈ ts))
  /\ forall b x, x ∈ node_preds (foldl (connect s) g ts) b <-> x ∈ node_preds g b \/ (b ∈ ts /\ x = s).
Proof.
  induction ts as [|t ts IH]; intros g Hs; cbn [foldl]; [split_and!; intros; set_solver|].
  destruct (connect_spec s g t Hs) as (H1 & H2 & H3). destruct (IH (connect s g t)) as (I1 & I2 & I3); [rewrite H1; set_solver|].
  split_and!; [rewrite I1, H1; set_solver|..]; intros b x; [rewrite I2, H2|rewrite I3, H3]; set_solver.
Qed.

Lemma graph_steps_spec e order : forall g, dom (foldl (graph_step e) g order) = list_to_set order ∪ list_to_set (List.concat (map (succs e) order)) ∪ dom g
  /\ (forall b x, x ∈ node_succs (foldl (graph_step e) g order) b <-> x ∈ node_succs g b \/ (b ∈ order /\ x ∈ succs e b))
  /\ forall b x, x ∈ node_preds (foldl (graph_step e) g order) b <-> x ∈ node_preds g b \/ (x ∈ order /\ b ∈ succs e x).
Proof.
  induction order as [|s order IH]; intros g; cbn [foldl]; [split_and!; intros; set_solver|].
  destruct (ensure_node_spec g s) as (Hd & Hsu & Hp).
  destruct (connect_all_spec s (succs e s) (ensure_node g s)) as (H1 & H2 & H3); [rewrite Hd; set_solver|]. fold (graph_step e g s) in *.
  destruct (IH (graph_step e g s)) as (I1 & I2 & I3). split_and!.
  - rewrite I1, H1, Hd. cbn. rewrite list_to_set_app_L. apply set_eq. intros x. rewrite !elem_of_union. tauto.
  - intros b x. rewrite I2, H2, Hsu. set_solver.
  - intros b x. rewrite I3, H3, Hp. set_solver.
Qed.

(** ** Blocks that lead to a block *)

Lemma exists_elem_cons {A} (P : A -> Prop) x l : (exists y, y ∈ x :: l /\ P y) <-> P x \/ exists y, y ∈ l /\ P y.
Proof. setoid_rewrite elem_of_cons. split; [intros (y & [->|Hy] & HP); eauto|intros [HP|(y & Hy & HP)]; eauto]. Qed.

(** Blocks with one successor, which leads to the target or is it. *)
Inductive only_leads g : nat -> nat -> Prop :=
  | only_pred p t : p ∈ node_preds g t -> size (node_succs g p) = 1 -> only_leads g p t
  | only_step p c t : only_leads g c t -> p ∈ node_preds g c -> size (node_succs g p) = 1 -> only_leads g p t.

Lemma only_leads_trans g p c t : only_leads g p c -> only_leads g c t -> only_leads g p t.
Proof. induction 1 as [p c Hp H1|p d c _ IH Hp H1]; intros Ht; (eapply only_step; [|exact Hp|exact H1]); auto. Qed.

Definition lead_step fuel g (blocks : option (gset nat)) (pred : nat) : option (gset nat) :=
  blocks ← blocks; pred_node ← g !! pred;
  if Nat.eqb (size (node_successors pred_node)) 1 then blocks_leading_to fuel g pred ({[pred]} ∪ blocks) else Some blocks.

Lemma only_leads_last g b t : only_leads g b t -> exists p, p ∈ node_preds g t /\ size (node_succs g p) = 1 /\ (b = p \/ only_leads g b p).
Proof.
  induction 1 as [p t Hp H1|p c t _ IH Hp H1]; [exists p; auto|].
  destruct IH as (q & Hq & H1q & Hc). exists q. split_and!; [done..|]. right. destruct Hc as [->|Hc]; [by apply only_pred|by eapply only_step].
Qed.

(** The predecessors and the successors are those of the same edges. *)
Definition graph_edges g : Prop := forall p t, p ∈ node_preds g t <-> t ∈ node_succs g p /\ p ∈ dom g.

(** A block with one successor on a cycle of such blocks only leads to blocks
    of the cycle. *)
Lemma cycle_leads g p t : graph_edges g -> only_leads g p t -> only_leads g p p -> only_leads g t t.
Proof.
  intros Hg. assert (Hdet : forall p x y, p ∈ node_preds g x -> p ∈ node_preds g y -> size (node_succs g p) = 1 -> x = y).
  { intros q x y [Hx _]%Hg [Hy _]%Hg [z Hz]%size_1_elem_of. apply Hz, elem_of_singleton in Hx as ->. by apply Hz, elem_of_singleton in Hy as ->. }
  assert (Hcycle : forall p c, p ∈ node_preds g c -> size (node_succs g p) = 1 -> only_leads g p p -> only_leads g c c).
  { intros q c Hq H1 Hl. inversion Hl as [? ? Hq'|? c' ? Hl' Hq']; subst.
    - by rewrite (Hdet q c q Hq Hq' H1).
    - rewrite <- (Hdet q c c' Hq Hq' H1) in Hl'. eapply only_leads_trans; [exact Hl'|by apply only_pred]. }
  induction 1 as [p t Hp H1|p c t _ IH Hp H1]; intros Hc; [by apply (Hcycle p)|]. by apply IH, (Hcycle p).
Qed.

Lemma lead_steps_none fuel g ps : foldl (lead_step fuel g) None ps = None.
Proof. by induction ps. Qed.

(** On a cycle of blocks with one successor the recursion has no end. *)
Lemma blocks_leading_to_diverges g fuel : forall t blocks, only_leads g t t -> blocks_leading_to fuel g t blocks = None.
Proof.
  induction fuel as [|fuel IH]; intros t blocks Hl; [done|]. cbn [blocks_leading_to]. destruct (g !! t) as [node|] eqn:En; [|done]. cbn.
  fold (lead_step fuel g). destruct (only_leads_last g t t Hl) as (p & Hp & H1 & Hc).
  assert (Hpp : only_leads g p p) by (destruct Hc as [<-|Hc]; [done|]; eapply only_leads_trans; [by apply only_pred|exact Hc]).
  assert (Hin : p ∈ elements (node_predecessors node)) by (unfold node_preds in Hp; rewrite En in Hp; by apply elem_of_elements).
  generalize (Some blocks) as acc. induction (elements (node_predecessors node)) as [|q ps IHps]; intros acc; [by apply not_elem_of_nil in Hin|].
  cbn [foldl]. apply elem_of_cons in Hin as [<-|Hin]; [|by apply IHps]. destruct acc as [bs|]; [|apply lead_steps_none].
  unfold lead_step at 2. cbn. unfold node_succs in H1. destruct (g !! p) as [pn|]; cbn; [|apply lead_steps_none].
  rewrite (proj2 (Nat.eqb_eq _ _) H1), IH by done. apply lead_steps_none.
Qed.

(** Elsewhere it ends: [chain] is the recursion, from the target on. *)
Lemma blocks_leading_to_spec g target : graph_edges g -> ~ only_leads g target target ->
  forall fuel chain t blocks, NoDup (t :: chain) -> (forall x, x ∈ t :: chain -> x ∈ dom g) -> (forall x, x ∈ chain -> only_leads g t x) ->
  t = target \/ only_leads g t target -> size (dom g) <= fuel + length chain ->
  exists blocks', blocks_leading_to fuel g t blocks = Some blocks' /\ forall b, b ∈ blocks' <-> b ∈ blocks \/ only_leads g b t.
Proof.
  intros Hg Hacyc. induction fuel as [|fuel IH]; intros chain t blocks Hn Hd Hl Ht Hf.
  { exfalso. assert (Hle : size (list_to_set (t :: chain) : gset nat) <= size (dom g)) by (apply subseteq_size; intros x; rewrite elem_of_list_to_set; apply Hd).
    rewrite size_list_to_set in Hle by done. cbn in Hle. lia. }
  cbn [blocks_leading_to]. pose proof (Hd t ltac:(by left)) as Htd. apply elem_of_dom in Htd as [node En]. rewrite En. cbn. fold (lead_step fuel g).
  assert (Hnew : forall p, p ∈ node_preds g t -> size (node_succs g p) = 1 -> NoDup (p :: t :: chain) /\ only_leads g p target).
  { intros p Hp H1. assert (Hpt : only_leads g p target) by (destruct Ht as [<-|Ht]; [by apply only_pred|by eapply only_step]). split; [|done].
    constructor; [|done]. intros Hin. apply Hacyc, (cycle_leads g p target); [done..|].
    apply elem_of_cons in Hin as [->|Hin]; [by apply only_pred|]. eapply only_step; [by apply Hl|done..]. }
  assert (Hfold : forall ps blocks, (forall p, p ∈ ps -> p ∈ node_preds g t) ->
    exists blocks', foldl (lead_step fuel g) (Some blocks) ps = Some blocks'
      /\ forall b, b ∈ blocks' <-> b ∈ blocks \/ exists p, p ∈ ps /\ size (node_succs g p) = 1 /\ (b = p \/ only_leads g b p)).
  { induction ps as [|p ps IHps]; intros bs Hps; [exists bs; split; [done|]; intros b; set_solver|]. cbn [foldl].
    assert (Hp : p ∈ node_preds g t) by (apply Hps; by left). pose proof (proj2 (proj1 (Hg p t) Hp)) as Hpd.
    pose proof Hpd as [pn Ep]%elem_of_dom. assert (Hsz : node_succs g p = node_successors pn) by (unfold node_succs; by rewrite Ep).
    unfold lead_step at 2. cbn. rewrite Ep. cbn. rewrite <- Hsz. destruct (Nat.eqb_spec (size (node_succs g p)) 1) as [H1|H1].
    - destruct (Hnew p Hp H1) as [Hn' Hp']. destruct (IH (t :: chain) p ({[p]} ∪ bs) Hn') as (bs1 & E1 & Hb1); [| |by right|cbn; lia|].
      { intros x [->|Hx]%elem_of_cons; [done|by apply Hd]. }
      { intros x [->|Hx]%elem_of_cons; [by apply only_pred|]. eapply only_step; [by apply Hl|done..]. }
      rewrite E1. destruct (IHps bs1) as (bs2 & E2 & Hb2); [intros q Hq; apply Hps; by right|]. exists bs2. split; [done|].
      intros b. rewrite Hb2, Hb1, elem_of_union, elem_of_singleton, exists_elem_cons. tauto.
    - destruct (IHps bs) as (bs2 & E2 & Hb2); [intros q Hq; apply Hps; by right|]. exists bs2. split; [done|].
      intros b. rewrite Hb2, exists_elem_cons. tauto. }
  destruct (Hfold (elements (node_predecessors node)) blocks) as (blocks' & E & Hb).
  { intros p Hp%elem_of_elements. unfold node_preds. by rewrite En. }
  exists blocks'. split; [exact E|]. intros b. rewrite Hb. setoid_rewrite elem_of_elements.
  assert (Hnp : node_preds g t = node_predecessors node) by (unfold node_preds; by rewrite En). rewrite <- Hnp. split.
  - intros [|(p & Hp & H1 & [->|Hl'])]; [by left|right; by apply only_pred|right]. eapply only_leads_trans; [exact Hl'|]. by apply only_pred.
  - intros [|Hl']; [by left|right]. by apply only_leads_last.
Qed.
End Graph.

(** ** Blocks of specifications *)

Section Nonspec.
Context `{MirCrate} (get_attrs : nat -> list Ast.Attribute).

Definition is_spec_at (mir : Body) (b : nat) : Prop :=
  exists data, basic_blocks mir !! b = Some data /\ is_spec_basic_block get_attrs data = true.

Lemma add_spec_blocks_none fuel (mir : Body) g bs : foldl (add_spec_block get_attrs fuel mir g) None bs = None.
Proof. by induction bs. Qed.

(** The blocks are found iff none of those that build a specification is on a
    cycle of blocks with one successor. *)
Lemma add_spec_blocks_spec fuel (mir : Body) g : graph_edges g -> size (dom g) <= fuel ->
  forall bs spec, (forall b, b ∈ bs -> b ∈ dom g /\ b < length (basic_blocks mir)) ->
  (is_Some (foldl (add_spec_block get_attrs fuel mir g) (Some spec) bs) <-> forall t, t ∈ bs -> is_spec_at mir t -> ~ only_leads g t t)
  /\ forall spec', foldl (add_spec_block get_attrs fuel mir g) (Some spec) bs = Some spec' ->
       forall b, b ∈ spec' <-> b ∈ spec \/ exists t, t ∈ bs /\ is_spec_at mir t /\ (b = t \/ only_leads g b t).
Proof.
  intros Hg Hf. induction bs as [|t bs IH]; intros spec Hbs; [split; [split; [set_solver|by eexists]|intros ? [= <-]; set_solver]|]. cbn [foldl].
  destruct (Hbs t ltac:(by left)) as [Htd Htn]. assert (exists data, basic_blocks mir !! t = Some data) as [data Et] by by apply lookup_lt_is_Some in Htn.
  unfold add_spec_block at 2 4. cbn -[lookup]. rewrite Et. cbn. setoid_rewrite elem_of_cons. destruct (is_spec_basic_block get_attrs data) eqn:Es.
  - assert (Hspec : is_spec_at mir t) by by exists data. unfold blocks_definitely_leading_to.
    destruct (blocks_leading_to fuel g t ∅) as [bs1|] eqn:E1; cbn.
    + assert (Hacyc : ~ only_leads g t t) by (intros Hl; by rewrite blocks_leading_to_diverges in E1).
      destruct (blocks_leading_to_spec g t Hg Hacyc fuel [] t ∅) as (bs1' & E1' & Hb1); [apply NoDup_singleton|by intros x ->%list_elem_of_singleton|set_solver|by left|cbn; lia|].
      assert (bs1' = bs1) as -> by congruence. destruct (IH (bs1 ∪ ({[t]} ∪ spec)) (fun b Hb => Hbs b ltac:(by right))) as [Hs Hs']. split; [rewrite Hs; naive_solver|].
      intros spec' E' b. rewrite (Hs' spec' E'), !elem_of_union, elem_of_singleton, Hb1. pose proof (not_elem_of_empty (C := gset nat) b). naive_solver.
    + rewrite add_spec_blocks_none. split; [|done]. split; [by intros []|]. intros Hall. exfalso. destruct (Hall t) as []; [by left|done|].
      destruct (blocks_leading_to_spec g t Hg (Hall t ltac:(by left) Hspec) fuel [] t ∅) as (? & ? & _); [apply NoDup_singleton|by intros x ->%list_elem_of_singleton|set_solver|by left|cbn; lia|congruence].
  - assert (Hns : ~ is_spec_at mir t) by (intros (d & Ed & Hd); congruence).
    destruct (IH spec (fun b Hb => Hbs b ltac:(by right))) as [Hs Hs']. split; [rewrite Hs; naive_solver|].
    intros spec' E' b. rewrite (Hs' spec' E'). naive_solver.
Qed.

(** Real edges from one reachable block to another. *)
Definition reaches e (b t : nat) : Prop := rtc (edge_of e) b t.

(** The only real edge from a block, and chains of them. *)
Definition only_edge e (p t : nat) : Prop := t ∈ succs e p /\ forall x, x ∈ succs e p -> x = t.

Lemma build_reachable_spec (mir : Body) e : edges_wf (length (basic_blocks mir)) e -> 0 < length (basic_blocks mir) ->
  exists blocks, build_reachable_basic_blocks mir e = Some blocks /\ forall b, b ∈ blocks <-> reaches e 0 b.
Proof.
  intros Hwf Hn. unfold build_reachable_basic_blocks, first_block, block_indices. destruct (length (basic_blocks mir)) as [|n] eqn:En; [lia|]. cbn -[reach_loop visit_fuel].
  destruct (search_first (S n) e Hwf 0 Hn) as (order & E & _ & Ho). rewrite reach_loop_search, E. eexists. split; [reflexivity|].
  intros b. unfold reaches. rewrite <- Ho. enough (Hf : forall l (r : gset nat), b ∈ foldl (fun r s => {[s]} ∪ r) r l <-> b ∈ r \/ b ∈ l) by (rewrite Hf; set_solver).
  induction l as [|x l IH]; intros r; cbn; [set_solver|]. rewrite IH. set_solver.
Qed.

Lemma node_size_one g e p t : (forall b x, x ∈ node_succs g b <-> reaches e 0 b /\ x ∈ succs e b) -> reaches e 0 p -> t ∈ succs e p ->
  size (node_succs g p) = 1 <-> only_edge e p t.
Proof.
  intros Hg Hp Ht. split.
  - intros [x Hx]%size_1_elem_of. split; [done|]. intros y Hy. assert (Hy' : y ∈ node_succs g p) by by apply Hg. assert (Ht' : t ∈ node_succs g p) by by apply Hg.
    apply Hx, elem_of_singleton in Hy' as ->. by apply Hx, elem_of_singleton in Ht' as ->.
  - intros [_ Ho]. assert (node_succs g p = {[t]}) as ->; [|apply size_singleton].
    apply set_eq. intros x. rewrite Hg, elem_of_singleton. split; [intros [_ Hx]; by apply Ho|intros ->; done].
Qed.

(** A block leads, by only edges, to the building of a specification. *)
Definition of_spec (mir : Body) e (b : nat) : Prop := exists t, rtc (only_edge e) b t /\ reaches e 0 t /\ is_spec_at mir t.

(** The graph of the reachable blocks. *)
Lemma build_graph_spec (mir : Body) e : edges_wf (length (basic_blocks mir)) e -> 0 < length (basic_blocks mir) ->
  exists g, graph_loop (visit_fuel e) e ∅ ∅ [0] = Some g /\ graph_edges g /\ (forall b, b ∈ dom g <-> reaches e 0 b)
    /\ forall b t, only_leads g b t <-> reaches e 0 b /\ tc (only_edge e) b t.
Proof.
  intros Hwf Hn. destruct (search_first _ e Hwf 0 Hn) as (order & E & _ & Ho). rewrite graph_loop_search, E. cbn. eexists. split; [reflexivity|].
  destruct (graph_steps_spec e order ∅) as (Hd & Hs & Hp). set (g := foldl (graph_step e) ∅ order) in *.
  assert (Hgs : forall b x, x ∈ node_succs g b <-> reaches e 0 b /\ x ∈ succs e b).
  { intros b x. rewrite Hs, Ho. unfold node_succs. rewrite lookup_empty. set_solver. }
  assert (Hgp : forall b x, x ∈ node_preds g b <-> reaches e 0 x /\ b ∈ succs e x).
  { intros b x. rewrite Hp, Ho. unfold node_preds. rewrite lookup_empty. set_solver. }
  assert (Hstep : forall b t, reaches e 0 b -> t ∈ succs e b -> reaches e 0 t) by (intros b t Hb Ht; by eapply rtc_r).
  assert (Hgd : forall b, b ∈ dom g <-> reaches e 0 b).
  { intros b. rewrite Hd, dom_empty_L, !elem_of_union, !elem_of_list_to_set, Ho. split; [|by intros; left; left]. intros [[Hb|Hc]|?%not_elem_of_empty]; [done| |done].
    apply list_elem_of_In, in_concat in Hc as (l & Hl & Hin). apply in_map_iff in Hl as (x & <- & Hx). apply list_elem_of_In, Ho in Hx.
    eapply Hstep; [exact Hx|by apply list_elem_of_In]. }
  split_and!; [intros p t; rewrite Hgp, Hgs, Hgd; tauto|exact Hgd|]. intros b t. split.
  - induction 1 as [p t Hpt H1|p c t Hl [_ IH] Hpt H1]; apply Hgp in Hpt as [Hr Ht]; (split; [done|]).
    + apply tc_once. by apply (node_size_one g e p t Hgs Hr Ht).
    + eapply tc_l; [|exact IH]. by apply (node_size_one g e p c Hgs Hr Ht).
  - intros [Hb Ht]. induction Ht as [x y Hxy|x y z Hxy _ IH]; pose proof Hxy as [Hy _];
      (assert (H1 : size (node_succs g x) = 1) by by apply (node_size_one g e x y Hgs Hb Hy)).
    + apply only_pred; [by apply Hgp|done].
    + eapply only_step; [apply IH; by eapply Hstep|by apply Hgp|done].
Qed.

(** A block that builds a specification is on a cycle of blocks with one
    successor. *)
Definition spec_cycle (mir : Body) e : Prop := exists t, reaches e 0 t /\ is_spec_at mir t /\ tc (only_edge e) t t.

Lemma build_nonspec_spec (mir : Body) e fuel :
  edges_wf (length (basic_blocks mir)) e -> 0 < length (basic_blocks mir) -> length (basic_blocks mir) <= fuel ->
  (is_Some (build_nonspec_basic_blocks get_attrs fuel mir e) <-> ~ spec_cycle mir e)
  /\ forall blocks, build_nonspec_basic_blocks get_attrs fuel mir e = Some blocks -> forall b, b ∈ blocks <-> reaches e 0 b /\ ~ of_spec mir e b.
Proof.
  intros Hwf Hn Hfuel. destruct (build_graph_spec mir e Hwf Hn) as (g & Eg & Hg & Hgd & Hl).
  assert (Hrange : forall b, reaches e 0 b -> b < length (basic_blocks mir)).
  { intros b Hb. apply rtc_inv_r in Hb as [<-|(c & _ & Hc)]; [done|]. by eapply wf_succs. }
  assert (Hsize : size (dom g) <= fuel).
  { etrans; [|exact Hfuel]. etrans; [apply (subseteq_size _ (list_to_set (seq 0 (length (basic_blocks mir)))))|].
    - intros b Hb%Hgd%Hrange. apply elem_of_list_to_set, elem_of_seq. lia.
    - rewrite size_list_to_set by apply NoDup_seq. by rewrite length_seq. }
  destruct (add_spec_blocks_spec fuel mir g Hg Hsize (elements (dom g)) ∅) as [Hsome Hspec].
  { intros b Hb%elem_of_elements. split; [done|]. by apply Hrange, Hgd. }
  unfold build_nonspec_basic_blocks, first_block, block_indices. destruct (length (basic_blocks mir)) as [|n] eqn:En; [lia|].
  cbn -[get_nonspec_basic_blocks graph_loop visit_fuel]. rewrite Eg. cbn -[get_nonspec_basic_blocks]. unfold get_nonspec_basic_blocks. split.
  - transitivity (is_Some (foldl (add_spec_block get_attrs fuel mir g) (Some ∅) (elements (dom g)))).
    { destruct (foldl (add_spec_block _ _ _ _) _ _); cbn; split; intros [? ?]; try done; by eexists. }
    rewrite Hsome. setoid_rewrite elem_of_elements. setoid_rewrite Hgd. setoid_rewrite Hl. unfold spec_cycle. naive_solver.
  - intros blocks E b. destruct (foldl (add_spec_block _ _ _ _) _ _) as [spec|]; cbn in E; [|done]. injection E as <-.
    rewrite elem_of_difference, (Hspec spec eq_refl), Hgd. setoid_rewrite elem_of_elements. setoid_rewrite Hgd. setoid_rewrite Hl. unfold of_spec.
    assert (Hempty : b ∈ (∅ : gset nat) <-> False) by (split; [apply not_elem_of_empty|done]). rewrite Hempty. setoid_rewrite rtc_tc.
    split; intros [Hb Hx]; (split; [done|]); [intros (t & Hbt & Ht & Hs)|intros [[]|(t & Ht & Hs & Hbt)]]; apply Hx; [right|]; exists t; tauto.
Qed.
End Nonspec.

(** ** The theorems *)

(** The blocks of a procedure that are encoded: reachable, and not part of a
    specification. *)
(** C23. The reachable blocks are those that a path of real edges leads to. The blocks that are
    not left out as specification are found iff no reachable block that builds the closure of a
    specification is on a cycle of blocks with one successor (on such a cycle the recursion has
    no end); they are then the reachable blocks that neither build the closure of a
    specification nor have only paths, of blocks with one successor, to one that does. *)
Theorem procedure_blocks_correct `{MirCrate} get_attrs fuel (mir : Body) e :
  targets_in_body mir -> RealEdges.new mir = Some e -> 0 < length (basic_blocks mir) -> length (basic_blocks mir) <= fuel ->
  (exists reachable, build_reachable_basic_blocks mir e = Some reachable /\ forall b, b ∈ reachable <-> reaches e 0 b)
  /\ (is_Some (build_nonspec_basic_blocks get_attrs fuel mir e) <-> ~ spec_cycle get_attrs mir e)
  /\ forall nonspec, build_nonspec_basic_blocks get_attrs fuel mir e = Some nonspec ->
       forall b, b ∈ nonspec <-> reaches e 0 b /\ ~ of_spec get_attrs mir e b.
Proof.
  intros Hc E Hn Hf. pose proof (new_edges_wf mir e Hc E) as Hwf. split; [by apply build_reachable_spec|by apply build_nonspec_spec].
Qed.

(** *** The block of an invariant *)

Section InvariantBlock.
Context `{MirCrate} (self : Procedure) (e : RealEdges).

(** Every iteration of the loop runs the block: it is a block of the loop and
    dominates the sources of the back edges. *)
Definition in_every_iteration (h bb : nat) : Prop :=
  (exists s, (s, h) ∈ back_edges (loop_info self) /\ leads e h s bb)
  /\ forall s, (s, h) ∈ back_edges (loop_info self) -> bb ∈ dominators_of (proc_mir self) s.

(** A block of the loop, not of an inner loop or of a specification, before a
    reachable block of a specification. *)
Definition before_specification (h bb : nat) : Prop :=
  (exists s, (s, h) ∈ back_edges (loop_info self) /\ leads e h s bb) /\ is_spec_block self bb = false
  /\ (exists d, get_loop_depth (loop_info self) bb = Some d /\ get_loop_head_depth (loop_info self) h = Some d)
  /\ exists data succ, basic_blocks (proc_mir self) !! bb = Some data /\ succ ∈ successors (terminator data)
       /\ is_reachable_block self succ = true /\ is_spec_block self succ = true.

(** The first block of a list with a property. *)
Definition first_of (P : nat -> Prop) (l : list nat) (bb : nat) : Prop :=
  exists l1 l2, l = (l1 ++ bb :: l2)%list /\ P bb /\ forall x, x ∈ l1 -> ~ P x.

(** The block for the invariant: the first one before a specification, in the
    order of the blocks; without one the first exit of the loop, and the head
    if there is no exit. *)
Definition invariant_block (h bb : nat) : Prop :=
  first_of (before_specification h) (ordered_blocks (loop_info self)) bb
  \/ (forall x, ~ before_specification h x)
     /\ (exists exits, get_loop_exit_blocks (loop_info self) h = Some exits /\ bb = match exits with x :: _ => x | [] => h end).

Lemma first_of_sublist (P : nat -> Prop) l L bb : NoDup L -> l `sublist_of` L -> (forall x, P x -> x ∈ L -> x ∈ l) -> first_of P l bb -> first_of P L bb.
Proof.
  intros Hn Hs. induction Hs as [|x l L Hs IH|x l L Hs IH]; intros Hin (l1 & l2 & E & Hp & Hbefore); [by destruct l1| |].
  - apply NoDup_cons in Hn as [Hx Hn]. destruct l1 as [|y l1]; injection E as -> ->; [by exists [], L|].
    destruct IH as (m1 & m2 & -> & Hp' & Hm); [done| |by exists l1, l2; split_and!; [done..|intros z Hz; apply Hbefore; by right]|].
    { intros z Hz HzL. pose proof (Hin z Hz ltac:(by right)) as [->|?]%elem_of_cons; [|done]. by destruct (Hbefore y ltac:(by left)). }
    exists (y :: m1), m2. split_and!; [done..|]. intros z [->|Hz]%elem_of_cons; [apply Hbefore; by left|by apply Hm].
  - apply NoDup_cons in Hn as [Hx Hn]. assert (Hpx : ~ P x).
    { intros Hpx. apply Hx. eapply elem_of_submseteq; [apply (Hin x Hpx); by left|by apply sublist_submseteq]. }
    destruct IH as (m1 & m2 & -> & Hp' & Hm); [done|intros z Hz HzL; apply Hin; [done|by right]|by exists l1, l2|].
    exists (x :: m1), m2. split_and!; [done..|]. intros z [->|Hz]%elem_of_cons; [done|by apply Hm].
Qed.

Lemma find_block_first (f : nat -> option bool) (P : nat -> Prop) l : (forall b, b ∈ l -> exists r, f b = Some r /\ (r = true <-> P b)) ->
  exists found, find_block f l = Some found /\ match found with Some b => first_of P l b | None => forall b, b ∈ l -> ~ P b end.
Proof.
  induction l as [|b l IH]; intros Hf; cbn [find_block]; [exists None; set_solver|]. destruct (Hf b ltac:(by left)) as (r & -> & Hr). cbn.
  destruct r; [exists (Some b); split; [done|]; exists [], l; split_and!; [done|by apply Hr|set_solver]|].
  assert (Hb : ~ P b) by (intros Hb; by apply Hr in Hb). destruct IH as (found & -> & Hx); [intros x Hx; apply Hf; by right|]. exists found. split; [done|].
  destruct found as [c|]; [|set_solver]. destruct Hx as (l1 & l2 & -> & Hp & Hl). exists (b :: l1), l2. split_and!; [done..|set_solver].
Qed.

Hypothesis wf : edges_wf (length (basic_blocks (proc_mir self))) e.
Hypothesis loops : loops_correct (proc_mir self) e (loop_info self).

(** The test of the code, on the blocks of the loop. *)
Lemma precedes_invariant_spec h d b : get_loop_head_depth (loop_info self) h = Some d ->
  (exists s, (s, h) ∈ back_edges (loop_info self) /\ leads e h s b) -> is_spec_block self b = false ->
  exists r, precedes_invariant self d b = Some r /\ (r = true <-> before_specification h b).
Proof.
  intros Ed Hb Hs. unfold precedes_invariant, before_specification. destruct (correct_depth _ _ _ loops b) as (db & Edb & _). rewrite Edb, Ed. cbn.
  destruct Hb as (s & Hsh & Hl). pose proof (proj1 (correct_back_edges _ _ _ loops s h) Hsh) as [Hlt _].
  destruct (lookup_lt_is_Some_2 (basic_blocks (proc_mir self)) b) as [data ->]; [by eapply leads_lt|]. cbn. eexists. split; [done|].
  rewrite andb_true_iff, Nat.eqb_eq, existsb_exists. setoid_rewrite <- list_elem_of_In. setoid_rewrite andb_true_iff. split.
  - intros [<- (succ & ? & ? & ?)]. split_and!; [by exists s|done|by exists db|by exists data, succ].
  - intros (_ & _ & (d' & [= ->] & [= ->]) & (? & succ & [= <-] & ? & ? & ?)). split; [done|]. by exists succ.
Qed.

Lemma invariant_block_spec h : is_loop_head (loop_info self) h = true ->
  exists bb, invariant_block h bb
    /\ ((in_every_iteration h bb /\ get_loop_invariant_block self h = Some (inl bb))
        \/ (~ in_every_iteration h bb /\ get_loop_invariant_block self h = Some (inr (LoopInvariantInBranch h)))).
Proof.
  intros Hh. destruct (correct_queries _ _ _ loops h Hh) as ([d Ed] & [body Eb] & [exits Ex]). pose proof (correct_bodies _ _ _ loops h body) as Hbody.
  set (l := List.filter (fun bb => negb (is_spec_block self bb)) body).
  assert (Hl : forall b, b ∈ l <-> b ∈ body /\ is_spec_block self b = false).
  { intros b. unfold l. rewrite !list_elem_of_In, filter_In, negb_true_iff. done. }
  assert (Hbefore : forall b, before_specification h b -> b ∈ l).
  { intros b (Hb & Hs & _). apply Hl. split; [|done]. by apply Hbody. }
  destruct (find_block_first (precedes_invariant self d) (before_specification h) l) as (found & Ef & Hfound).
  { intros b [Hb Hs]%Hl. apply precedes_invariant_spec; [done| |done]. by apply (Hbody b). }
  exists (match found with Some bb => bb | None => match head exits with Some bb => bb | None => h end end).
  unfold get_loop_invariant_block. rewrite Ed, Eb, Ex. cbn -[precedes_invariant]. fold l. rewrite Ef. cbn.
  set (bb := match found with Some bb => bb | None => _ end). split.
  - destruct found as [c|]; [left|right].
    + apply (first_of_sublist _ l); [apply (topological_nodup _ _ _ _ (correct_order _ _ _ loops))| |by intros x Hx _; apply Hbefore|done].
      etrans; [|by eapply correct_loop_order]. unfold l. clear. induction body as [|x body IH]; cbn; [done|].
      destruct (negb _); [by apply sublist_skip|by apply sublist_cons].
    + split; [intros x Hx; by apply (Hfound x (Hbefore x Hx))|]. exists exits. split; [done|]. by destruct exits.
  - destruct (correct_conditional _ _ _ loops h bb Hh) as (c & -> & Hc). cbn. destruct c; [right|left]; (split; [|done]); [|by apply Hc].
    intros Hi. by apply Hc in Hi.
Qed.
End InvariantBlock.

(** A block for the loop invariant is chosen: the first block before a
    specification of the loop, or the first exit. *)
(** C25. For every loop head of a procedure that was built, the block of the loop invariant is
    the first block in the order of all blocks that is in the loop but not in an inner one, is
    not part of a specification, and has a reachable successor that is; without such a block the
    first exit of the loop, or the head if there is no exit. It is returned if it is in the loop
    and dominates the sources of all back edges, so that every iteration runs it; otherwise the
    result is the error that the invariant is in a branch. *)
Theorem invariant_block_correct `{MirCrate} get_attrs fuel mir (self : Procedure) e h : targets_in_body mir -> RealEdges.new mir = Some e ->
  new_procedure get_attrs fuel mir = Some self -> is_loop_head (loop_info self) h = true ->
  exists bb, invariant_block self e h bb
    /\ ((in_every_iteration self e h bb /\ get_loop_invariant_block self h = Some (inl bb))
        \/ (~ in_every_iteration self e h bb /\ get_loop_invariant_block self h = Some (inr (LoopInvariantInBranch h)))).
Proof.
  intros Hc E Hnew. unfold new_procedure in Hnew. rewrite E in Hnew. cbn in Hnew. pose proof (new_edges_wf mir e Hc E) as Hwf.
  destruct (build_reachable_basic_blocks mir e) as [r|]; cbn in Hnew; [|done]. destruct (build_nonspec_basic_blocks _ _ _ _) as [s|]; cbn in Hnew; [|done].
  destruct (new_loops mir e) as [loops|] eqn:El; cbn in Hnew; [|done]. injection Hnew as <-. apply invariant_block_spec; [done|]. by apply new_loops_spec.
Qed.

Module ConcreteProcedure.
Import ConcreteMir.

(** A loop whose body starts with [if false { closure }]. *)
Definition attrs (def_id : nat) : list Ast.Attribute := if Nat.eqb def_id 7 then [Ast.Normal ["prusti"; "spec_only"] Ast.NoArgs] else [].
Definition spec_body : Body := make_body
  [make_block_data [] (Goto 1);
   make_block_data [] (SwitchInt Constant [2; 4]);
   make_block_data [] (SwitchInt Constant [3; 5]);
   make_block_data [Assign (make_place 1 []) (Aggregate (Some 7) [])] (Goto 5);
   make_block_data [] Return;
   make_block_data [] (Goto 1)] 3 0.
Definition spec_edges : RealEdges := RealEdges.make_edges [[1]; [2; 4]; [3; 5]; [5]; []; [1]] [[]; [0; 5]; [1]; [2]; [1]; [2; 3]].

Definition procedure : Procedure :=
  match new_procedure attrs 10 spec_body with
  | Some self => self
  | None => make_procedure spec_body spec_edges (make_loops ∅ ∅ ∅ ∅ ∅ ∅ ∅ ∅ []) ∅ ∅
  end.

Example procedure_parts :
  (get_all_cfg_blocks procedure, get_reachable_nonspec_cfg_blocks procedure, get_loop_invariant_block procedure 1)
  = ([0; 1; 2; 3; 5; 4], [0; 1; 2; 5; 4], Some (inl 2)).
Proof. vm_compute. reflexivity. Qed.

Lemma spec_edges_new : RealEdges.new spec_body = Some spec_edges.
Proof. reflexivity. Qed.

Lemma spec_targets : targets_in_body spec_body.
Proof.
  intros bb data t E Ht. cbn. do 6 (destruct bb as [|bb]; [injection E as <-; cbn in Ht; set_unfold; lia|]). done.
Qed.

Lemma procedure_blocks_correct_witness :
  (exists reachable, build_reachable_basic_blocks spec_body spec_edges = Some reachable /\ forall b, b ∈ reachable <-> reaches spec_edges 0 b)
  /\ (is_Some (build_nonspec_basic_blocks attrs 10 spec_body spec_edges) <-> ~ spec_cycle attrs spec_body spec_edges)
  /\ forall nonspec, build_nonspec_basic_blocks attrs 10 spec_body spec_edges = Some nonspec ->
       forall b, b ∈ nonspec <-> reaches spec_edges 0 b /\ ~ of_spec attrs spec_body spec_edges b.
Proof. apply (procedure_blocks_correct attrs 10 spec_body spec_edges spec_targets spec_edges_new); cbn; lia. Defined.

(** A block that builds a specification and jumps to itself. *)
Definition cyclic_body : Body := make_body
  [make_block_data [] (Goto 1); make_block_data [Assign (make_place 1 []) (Aggregate (Some 7) [])] (Goto 1)] 3 0.

Example cyclic_body_diverges : forall fuel, fuel <= 50 ->
  (e ← RealEdges.new cyclic_body; build_nonspec_basic_blocks attrs fuel cyclic_body e) = None.
Proof. intros fuel Hf. do 51 (destruct fuel as [|fuel]; [vm_compute; reflexivity|]). lia. Qed.

Lemma procedure_new : new_procedure attrs 10 spec_body = Some procedure.
Proof.
  unfold procedure. assert (Hn : (if new_procedure attrs 10 spec_body then true else false) = true) by (vm_compute; reflexivity).
  by destruct (new_procedure attrs 10 spec_body).
Qed.

Lemma invariant_block_correct_witness : exists bb, invariant_block procedure spec_edges 1 bb
  /\ ((in_every_iteration procedure spec_edges 1 bb /\ get_loop_invariant_block procedure 1 = Some (inl bb))
      \/ (~ in_every_iteration procedure spec_edges 1 bb /\ get_loop_invariant_block procedure 1 = Some (inr (LoopInvariantInBranch 1)))).
Proof.
  apply (invariant_block_correct attrs 10 spec_body procedure spec_edges 1 spec_targets spec_edges_new procedure_new).
  vm_compute. reflexivity.
Defined.
End ConcreteProcedure.
