(* ===== verification/LoopForest.v ===== *)
(** * Permissions of a loop

    The permission trees of a loop invariant ([environment/loops_utils.rs]) and
    the loop encoder that builds them from the leaves of a loop
    ([encoder/loop_encoder.rs]): in every tree a place has the permission of
    its leaf and its prefixes can be passed. *)

From stdpp Require Import gmap list sorting.
From S2P Require Import Prelude Mir Places PlacesFacts Analysis Loops LoopsFacts Procedure.

Inductive PermissionKind : Type := ReadNode | ReadSubtree | WriteNode | WriteSubtree | WriteNodeAndSubtree | NoPermission.

#[export] Instance PermissionKind_eq_dec : EqDecision PermissionKind.
Proof. solve_decision. Defined.

Definition is_none (self : PermissionKind) : bool := match self with NoPermission => true | _ => false end.

Inductive TargetType : Type := TargetRead | TargetWriteNode | TargetWriteContents.

Definition is_write (self : TargetType) : bool := match self with TargetRead => false | TargetWriteNode | TargetWriteContents => true end.

Definition to_permission_kind (self : TargetType) : PermissionKind :=
  match self with TargetRead => ReadSubtree | TargetWriteNode => WriteNodeAndSubtree | TargetWriteContents => WriteSubtree end.

Section Trees.
Context `{MirCrate}.

(** [id] is a number of the borrow checker. *)
Record Loan : Type := make_loan { loan_id : nat; loan_location : Location; loan_place : Place }.

Inductive PermissionNode : Type :=
  | OwnedNode (place : Place) (kind : PermissionKind) (children : list PermissionNode)
  | BorrowedNode (place : Place) (kind : PermissionKind) (child : PermissionNode) (may_borrow_from : list Loan).

Definition get_place (self : PermissionNode) : Place := match self with OwnedNode place _ _ | BorrowedNode place _ _ _ => place end.
Definition get_permission_kind (self : PermissionNode) : PermissionKind := match self with OwnedNode _ kind _ | BorrowedNode _ kind _ _ => kind end.
Definition get_children (self : PermissionNode) : list PermissionNode :=
  match self with OwnedNode _ _ children => children | BorrowedNode _ _ child _ => [child] end.

(** The branches of borrowed nodes are unimplemented. *)
Definition set_permission_kind (self : PermissionNode) (permission_kind : PermissionKind) : option PermissionNode :=
  match self with OwnedNode place _ children => Some (OwnedNode place permission_kind children) | BorrowedNode _ _ _ _ => None end.

Definition find_child (place : Place) (children : list PermissionNode) : option PermissionNode :=
  List.find (fun child => bool_decide (get_place child = place)) children.

Definition get_child (self : PermissionNode) (place : Place) : option (option PermissionNode) :=
  match self with OwnedNode _ _ children => Some (find_child place children) | BorrowedNode _ _ _ _ => None end.

(** [*f(self.get_or_create_child(place, kind))]: the child in its place, or a new
    last one. *)
Fixpoint change_child (place : Place) (kind : PermissionKind) (f : PermissionNode -> option PermissionNode) (children : list PermissionNode) :
    option (list PermissionNode) :=
  match children with
  | [] => child ← f (OwnedNode place kind []); Some [child]
  | child :: children =>
      if bool_decide (get_place child = place) then child ← f child; Some (child :: children)
      else children ← change_child place kind f children; Some (child :: children)
  end.

Definition get_or_create_child (self : PermissionNode) (place : Place) (kind : PermissionKind) (f : PermissionNode -> option PermissionNode) :
    option PermissionNode :=
  match self with
  | OwnedNode self_place self_kind children => children ← change_child place kind f children; Some (OwnedNode self_place self_kind children)
  | BorrowedNode _ _ _ _ => None
  end.

(** ** [PermissionTree] *)

(** The nodes above a node, from the nearest one to the root. *)
Fixpoint new_ancestors (target_place : Place) (node : PermissionNode) (permission_kind : PermissionKind) (components : list Place) : PermissionNode :=
  match components with
  | [] => node
  | component :: components =>
      new_ancestors target_place (OwnedNode component permission_kind [node])
        (if bool_decide (component = target_place) then ReadNode else permission_kind) components
  end.

Definition new_tree (mir : Body) (place target_place : Place) (target_type : TargetType) : option PermissionNode :=
  components ← VecPlace_new mir place;
  match rev components with
  | [] => None
  | last :: components =>
      let node := OwnedNode last (to_permission_kind target_type) [] in
      let permission_kind := if bool_decide (last = target_place) || negb (is_write target_type) then ReadNode else WriteNode in
      Some (new_ancestors target_place node permission_kind components)
  end.

(** The components below the root. *)
Fixpoint add_components (target_type : TargetType) (current_parent_node : PermissionNode) (components : list Place) : option PermissionNode :=
  match components with
  | [] => None
  | [component] => get_or_create_child current_parent_node component (to_permission_kind target_type) Some
  | component :: components =>
      get_or_create_child current_parent_node component ReadNode (fun current_node =>
        current_node ← if is_write target_type then set_permission_kind current_node WriteNode else Some current_node;
        add_components target_type current_node components)
  end.

Definition add (mir : Body) (root : PermissionNode) (place : Place) (target_type : TargetType) : option PermissionNode :=
  components ← VecPlace_new mir place;
  match drop 1 components with
  | [] => _ ← assert_ (negb (is_write target_type)); Some root
  | components => add_components target_type root components
  end.

Fixpoint count_nodes (node : PermissionNode) : nat :=
  match node with
  | OwnedNode _ _ children => S (list_sum (map count_nodes children))
  | BorrowedNode _ _ child _ => S (count_nodes child)
  end.

(** What a parent says about a child. *)
Definition child_permission (kind : PermissionKind) (child : PermissionNode) : option (PermissionKind * Place) :=
  if bool_decide (get_permission_kind child = WriteNodeAndSubtree) then Some (WriteNode, get_place child)
  else
    match kind with
    | ReadNode | WriteNode => Some (kind, get_place child)
    (* unreachable! *)
    | _ => None
    end.

Definition own_permission (node : PermissionNode) : list (PermissionKind * Place) :=
  match get_permission_kind node with
  | ReadSubtree => [(ReadSubtree, get_place node)]
  | WriteNodeAndSubtree | WriteSubtree => [(WriteSubtree, get_place node)]
  | ReadNode | WriteNode | NoPermission => []
  end.

(** The node that was pushed last is visited first. *)
Fixpoint permissions_loop (fuel : nat) (visited : list (PermissionKind * Place)) (to_visit : list PermissionNode) : option (list (PermissionKind * Place)) :=
  match to_visit with
  | [] => Some visited
  | node :: to_visit =>
      match fuel with
      | 0 => None
      | S fuel =>
          children ← mapM_opt (child_permission (get_permission_kind node)) (get_children node);
          permissions_loop fuel (visited ++ children ++ own_permission node) (rev (get_children node) ++ to_visit)
      end
  end%list.

Definition get_permissions (root : PermissionNode) : option (list (PermissionKind * Place)) := permissions_loop (count_nodes root) [] [root].

Fixpoint descend (node : PermissionNode) (components : list Place) : option (option PermissionNode) :=
  match components with
  | [] => Some (Some node)
  | component :: components =>
      child ← get_child node component;
      match (child : option PermissionNode) with Some child => descend child components | None => Some None end
  end.

Fixpoint children_loop (fuel : nat) (visited : list Place) (to_visit : list PermissionNode) : option (list Place) :=
  match to_visit with
  | [] => Some visited
  | node :: to_visit =>
      match fuel with
      | 0 => None
      | S fuel =>
          let children := List.filter (fun child => negb (bool_decide (get_permission_kind child = NoPermission))) (get_children node) in
          children_loop fuel (visited ++ map get_place children) (rev children ++ to_visit)
      end
  end%list.

Definition tree_children (mir : Body) (root : PermissionNode) (parent_place : Place) : option (list Place) :=
  components ← VecPlace_new mir parent_place;
  node ← descend root (drop 1 components);
  match (node : option PermissionNode) with Some node => children_loop (count_nodes node) [] [node] | None => Some [] end.

(** ** [PermissionForest] *)

Definition add_def_init (place : Place) (st : option (bool * bool * list (Place * Place))) (def_init_place : Place) :
    option (bool * bool * list (Place * Place)) :=
  st ← st;
  let '(found_def_init_prefix, found_target_prefix, result) := st in
  if is_prefix place def_init_place then
    _ ← assert_ (negb found_target_prefix && negb found_def_init_prefix);
    Some (true, found_target_prefix, result ++ [(place, place)])%list
  else if is_prefix def_init_place place then
    _ ← assert_ (negb found_def_init_prefix);
    Some (found_def_init_prefix, true, result ++ [(def_init_place, place)])%list
  else Some st.

Definition compute_places_to_add (place : Place) (all_places : gset Place) : option (list (Place * Place)) :=
  st ← foldl (add_def_init place) (Some (false, false, [])) (elements all_places);
  let '(found_def_init_prefix, found_target_prefix, result) := st in
  _ ← assert_ (found_target_prefix || found_def_init_prefix);
  Some result.

Definition add_all (mir : Body) (target_type : TargetType) (places_to_add : list (Place * Place)) (tree : PermissionNode) : option PermissionNode :=
  foldl (fun tree (p : Place * Place) => tree ← tree; add mir tree (fst p) target_type) (Some tree) places_to_add.

Definition add_path (mir : Body) (target_type : TargetType) (all_places : gset Place) (trees : list PermissionNode) (place : Place) : option (list PermissionNode) :=
  places_to_add ← compute_places_to_add place all_places;
  let is_root tree := is_prefix place (get_place tree) in
  let found := existsb is_root trees in
  trees ← mapM_opt (fun tree => if is_root tree then add_all mir target_type places_to_add tree else Some tree) trees;
  if found then Some trees
  else new_trees ← mapM_opt (fun p : Place * Place => new_tree mir (fst p) (snd p) target_type) places_to_add; Some (trees ++ new_trees)%list.

Definition add_paths (mir : Body) (target_type : TargetType) (all_places : gset Place) (trees : list PermissionNode) (paths : list Place) :
    option (list PermissionNode) :=
  foldl (fun trees place => trees ← trees; add_path mir target_type all_places trees place) (Some trees) paths.

Definition new_forest (mir : Body) (write_paths mut_borrowed_paths read_paths : list Place) (all_places : gset Place) : option (list PermissionNode) :=
  trees ← add_paths mir TargetWriteNode all_places [] write_paths;
  trees ← add_paths mir TargetWriteContents all_places trees mut_borrowed_paths;
  add_paths mir TargetRead all_places trees read_paths.

Fixpoint forest_children (mir : Body) (trees : list PermissionNode) (parent_place : Place) : option (list Place) :=
  match trees with
  | [] => Some []
  | tree :: trees => if is_prefix parent_place (get_place tree) then tree_children mir tree parent_place else forest_children mir trees parent_place
  end.

(** ** [LoopEncoder] *)

Section Encoder.
Context (visit_body : Body -> list (Place * PlaceContext * Location)).

Record LoopEncoder : Type := make_encoder { encoded_procedure : Procedure; initialization : AnalysisResult (gset Place) }.

Definition new_encoder (fuel : nat) (procedure : Procedure) : option LoopEncoder :=
  initialization ← compute_definitely_initialized fuel (proc_mir procedure); Some (make_encoder procedure initialization).

Definition insert_all (mir : Body) (all_places : option (gset Place)) (leaves : list Place) : option (gset Place) :=
  foldl (fun all_places place => all_places ← all_places; PlaceSet.insert all_places place mir) all_places leaves.

Definition compute_loop_invariant (self : LoopEncoder) (bb bb_inv : BasicBlock) : option (list PermissionNode) :=
  let mir := proc_mir (encoded_procedure self) in
  _ ← assert_ (is_loop_head (loop_info (encoded_procedure self)) bb);
  initialised ← get_before_block (initialization self) bb_inv;
  leaves ← compute_read_and_write_leaves visit_body (loop_info (encoded_procedure self)) bb mir (Some initialised);
  let '(write_leaves, mut_borrow_leaves, read_leaves) := leaves in
  all_places ← insert_all mir (insert_all mir (insert_all mir (Some ∅) read_leaves) mut_borrow_leaves) write_leaves;
  new_forest mir write_leaves mut_borrow_leaves read_leaves all_places.

(** Is a place definitely initialised at the beginning of a block? *)
Definition is_definitely_initialised (self : LoopEncoder) (place : Place) (bbi : BasicBlock) : option bool :=
  places ← get_before_block (initialization self) bbi; Some (existsb (is_prefix place) (elements (places : gset Place))).
End Encoder.
End Trees.

(** ** Trees *)

Section Shapes.
Context `{MirCrate}.
Implicit Types (p q x : Place) (e f : PlaceElem) (es fs : list PlaceElem) (n t : PermissionNode).

Lemma mk_inj q e f : mk_place_elem q e = mk_place_elem q f -> e = f.
Proof. intros [= E]. by apply (inj (app _)) in E as [= ->]. Qed.

(** The place of a node under another one. *)
Fixpoint extend q es : Place := match es with [] => q | e :: es => extend (mk_place_elem q e) es end.

Lemma extend_app q es fs : extend q (es ++ fs) = extend (extend q es) fs.
Proof. revert q. induction es as [|e es IH]; intros q; [done|]. apply IH. Qed.

Lemma extend_place q es : extend q es = make_place (local q) (projection q ++ es)%list.
Proof.
  revert q. induction es as [|e es IH]; intros q; cbn; [rewrite app_nil_r; by destruct q|]. by rewrite IH; cbn; rewrite <- app_assoc.
Qed.

Fixpoint below q es : list Place := match es with [] => [] | e :: es => mk_place_elem q e :: below (mk_place_elem q e) es end.

(** A tree of owned nodes whose children are one level below their parents. *)
Inductive shaped : Place -> PermissionNode -> Prop :=
  | shaped_node q k children :
      NoDup (map get_place children) ->
      (forall c, c ∈ children -> exists e, get_place c = mk_place_elem q e) ->
      (forall c, c ∈ children -> shaped (get_place c) c) ->
      shaped q (OwnedNode q k children).

Lemma shaped_place q n : shaped q n -> get_place n = q.
Proof. by destruct 1. Qed.

Lemma find_child_Some q children n : find_child q children = Some n -> n ∈ children /\ get_place n = q.
Proof. intros [Hin E%bool_decide_eq_true]%List.find_some. by rewrite list_elem_of_In. Qed.

Lemma find_child_elem children n : NoDup (map get_place children) -> n ∈ children -> find_child (get_place n) children = Some n.
Proof.
  induction children as [|c children IH]; [by intros _ ?%not_elem_of_nil|]. cbn [map]. intros [Hc Hn]%NoDup_cons. cbn. intros [->|Hin]%elem_of_cons.
  - by rewrite bool_decide_eq_true_2.
  - rewrite bool_decide_eq_false_2; [by apply IH|]. intros E. apply Hc. rewrite E. by apply list_elem_of_fmap_2.
Qed.

Fixpoint node_at q n es : option PermissionNode :=
  match es with [] => Some n | e :: es => c ← find_child (mk_place_elem q e) (get_children n); node_at (mk_place_elem q e) c es end.
Definition kind_at q n es : option PermissionKind := get_permission_kind <$> node_at q n es.

Lemma node_at_app q n es fs : node_at q n (es ++ fs) = c ← node_at q n es; node_at (extend q es) c fs.
Proof.
  revert q n. induction es as [|e es IH]; intros q n; [done|]. cbn [node_at app extend]. destruct (find_child _ _) as [c|]; [|done]. apply IH.
Qed.

Lemma node_at_shaped q n es c : shaped q n -> node_at q n es = Some c -> shaped (extend q es) c.
Proof.
  revert q n. induction es as [|e es IH]; intros q n Hs; cbn [node_at extend]; [by intros [= <-]|]. destruct Hs as [q k children Hn Hp Hc]. cbn [get_children].
  destruct (find_child _ _) as [d|] eqn:E; [|done]. cbn. apply find_child_Some in E as [Hd Ed]. pose proof (Hc d Hd) as Hsd. rewrite Ed in Hsd. by apply IH.
Qed.

Inductive in_tree t : PermissionNode -> Prop :=
  | in_root : in_tree t t
  | in_child n c : in_tree t n -> c ∈ get_children n -> in_tree t c.

(** The nodes of a tree are those that a path leads to. *)
Lemma in_tree_at q t n : shaped q t -> in_tree t n <-> exists es, node_at q t es = Some n.
Proof.
  intros Hs. split.
  - induction 1 as [|n c _ [es E] Hc]; [by exists []|]. pose proof (node_at_shaped _ _ _ _ Hs E) as Hn. inversion Hn as [q' k children Hd Hp _ Eq En].
    subst n. destruct (Hp c Hc) as [e Ee]. exists (es ++ [e])%list. rewrite node_at_app, E. cbn [mbind option_bind node_at get_children]. rewrite <- Ee, find_child_elem; done.
  - intros [es E]. revert n E. induction es as [|e es IH] using rev_ind; intros n; [intros [= <-]; constructor|]. rewrite node_at_app.
    destruct (node_at q t es) as [m|]; [|done]. cbn [mbind option_bind node_at]. destruct (find_child _ _) as [c|] eqn:Ec; [|done]. cbn. intros [= <-].
    eapply in_child; [by apply IH|]. by apply find_child_Some in Ec as [? _].
Qed.

(** *** Adding a path *)

Lemma find_child_hit c children : find_child (get_place c) (c :: children) = Some c.
Proof. unfold find_child. cbn. by rewrite bool_decide_eq_true_2. Qed.

Lemma find_child_miss q c children : get_place c <> q -> find_child q (c :: children) = find_child q children.
Proof. intros Hne. unfold find_child. cbn. by rewrite bool_decide_eq_false_2. Qed.

Lemma change_child_spec q k g children c :
  g (match find_child q children with Some c => c | None => OwnedNode q k [] end) = Some c -> get_place c = q -> NoDup (map get_place children) ->
  exists children', change_child q k g children = Some children' /\ NoDup (map get_place children') /\ find_child q children' = Some c
    /\ (forall x, x <> q -> find_child x children' = find_child x children)
    /\ forall d, d ∈ children' -> d = c \/ d ∈ children.
Proof.
  intros Hg <- Hn. revert Hg Hn. induction children as [|d children IH]; intros Hg Hn; cbn [change_child].
  - cbn in Hg. rewrite Hg. cbn [mbind option_bind]. exists [c]. split_and!; [done|apply NoDup_singleton|apply find_child_hit|intros x Hx; by apply find_child_miss|set_solver].
  - cbn [map] in Hn. apply NoDup_cons in Hn as [Hd Hn]. case_bool_decide as E.
    + rewrite <- E, find_child_hit in Hg. rewrite Hg. cbn [mbind option_bind]. exists (c :: children).
      split_and!; [done|cbn; rewrite <- E; by apply NoDup_cons|apply find_child_hit| |set_solver].
      intros x Hx. by rewrite !find_child_miss by congruence.
    + rewrite find_child_miss in Hg by done. destruct (IH Hg Hn) as (children' & -> & Hn' & Hf & Hx & Hin). cbn [mbind option_bind]. exists (d :: children'). split_and!.
      * done.
      * cbn. apply NoDup_cons. split; [|done]. intros (y & Ey & [->|Hy]%Hin)%list_elem_of_fmap; [congruence|]. apply Hd. rewrite Ey. by apply list_elem_of_fmap_2.
      * by rewrite find_child_miss.
      * intros x Hne. destruct (decide (get_place d = x)) as [<-|Hnx]; [by rewrite !find_child_hit|]. by rewrite !find_child_miss, Hx.
      * set_solver.
Qed.

(** What is found after a path is added. *)
Definition leaf_kind tt (old : option PermissionKind) : option PermissionKind := match old with Some k => Some k | None => Some (to_permission_kind tt) end.
Definition step_kind tt (old : option PermissionKind) : option PermissionKind :=
  if is_write tt then Some WriteNode else match old with Some k => Some k | None => Some ReadNode end.
Fixpoint added tt es fs (old : option PermissionKind) : option PermissionKind :=
  match es, fs with
  | [], [] => old
  | [e], [f] => if decide (e = f) then leaf_kind tt old else old
  | e :: es, [f] => if decide (e = f) then step_kind tt old else old
  | e :: es, f :: fs => if decide (e = f) then added tt es fs old else old
  | _, _ => old
  end.

Lemma shaped_new q k : shaped q (OwnedNode q k []).
Proof. constructor; [apply NoDup_nil_2|by intros c ?%not_elem_of_nil..]. Qed.

Lemma kind_at_new q k f fs : kind_at q (OwnedNode q k []) (f :: fs) = None.
Proof. done. Qed.

Lemma kind_at_cons q n f fs : kind_at q n (f :: fs) = c ← find_child (mk_place_elem q f) (get_children n); kind_at (mk_place_elem q f) c fs.
Proof. unfold kind_at. cbn [node_at]. by destruct (find_child _ _). Qed.

(** A child that is changed. *)
Lemma change_shaped q n e k g c : shaped q n ->
  g (match find_child (mk_place_elem q e) (get_children n) with Some c => c | None => OwnedNode (mk_place_elem q e) k [] end) = Some c ->
  shaped (mk_place_elem q e) c ->
  exists n', get_or_create_child n (mk_place_elem q e) k g = Some n' /\ shaped q n' /\ get_permission_kind n' = get_permission_kind n
    /\ forall f fs, kind_at q n' (f :: fs) = if decide (e = f) then kind_at (mk_place_elem q e) c fs else kind_at q n (f :: fs).
Proof.
  intros [q' kn children Hn Hp Hc] Hg Hs. cbn [get_or_create_child get_children] in *.
  destruct (change_child_spec _ k g children c Hg (shaped_place _ _ Hs) Hn) as (children' & -> & Hn' & Hf & Hx & Hin). cbn [mbind option_bind]. eexists. split; [done|]. split_and!.
  - constructor; [done|..].
    + intros d [->|Hd]%Hin; [exists e; by apply shaped_place|by apply Hp].
    + intros d [->|Hd]%Hin; [by rewrite (shaped_place _ _ Hs)|by apply Hc].
  - done.
  - intros f fs. rewrite !kind_at_cons. cbn [get_children]. destruct (decide (e = f)) as [<-|Hne]; [by rewrite Hf|].
    rewrite Hx; [done|]. intros E%mk_inj. congruence.
Qed.

Lemma find_child_shaped q n e c : shaped q n -> find_child (mk_place_elem q e) (get_children n) = Some c -> shaped (mk_place_elem q e) c.
Proof. intros [q' kn children Hn Hp Hc] [Hin <-]%find_child_Some. by apply Hc. Qed.

(** The child that a path goes through. *)
Definition old_child q n e k : PermissionNode :=
  match find_child (mk_place_elem q e) (get_children n) with Some c => c | None => OwnedNode (mk_place_elem q e) k [] end.

Lemma old_child_shaped q n e k : shaped q n -> shaped (mk_place_elem q e) (old_child q n e k).
Proof. intros Hs. unfold old_child. destruct (find_child _ _) eqn:E; [by eapply find_child_shaped|apply shaped_new]. Qed.

Lemma old_child_kind q n e k : Some (get_permission_kind (old_child q n e k)) = match kind_at q n [e] with Some k => Some k | None => Some k end.
Proof. rewrite kind_at_cons. unfold old_child. by destruct (find_child _ _). Qed.

Lemma old_child_at q n e k f fs : kind_at (mk_place_elem q e) (old_child q n e k) (f :: fs) = kind_at q n (e :: f :: fs).
Proof. rewrite (kind_at_cons q n). unfold old_child. by destruct (find_child _ _). Qed.

Lemma set_kind_spec q n k : shaped q n -> exists n', set_permission_kind n k = Some n' /\ shaped q n' /\ get_permission_kind n' = k
  /\ forall f fs, kind_at q n' (f :: fs) = kind_at q n (f :: fs).
Proof. intros [q' kn children Hn Hp Hc]. eexists. split; [done|]. split_and!; [by constructor|done|done]. Qed.

Lemma add_components_spec tt es : es <> [] -> forall q n, shaped q n ->
  exists n', add_components tt n (below q es) = Some n' /\ shaped q n' /\ get_permission_kind n' = get_permission_kind n
    /\ forall f fs, kind_at q n' (f :: fs) = added tt es (f :: fs) (kind_at q n (f :: fs)).
Proof.
  intros Hes. induction es as [|e es IH]; [done|]. intros q n Hs. destruct es as [|e' es].
  - destruct (change_shaped q n e (to_permission_kind tt) Some _ Hs eq_refl (old_child_shaped q n e _ Hs)) as (n' & E & Hs' & Hk & Hat).
    exists n'. split_and!; [exact E|done..|]. intros f fs. rewrite Hat. fold (old_child q n e (to_permission_kind tt)). cbn [added].
    destruct (decide (e = f)) as [<-|Hne]; [|by destruct fs]. destruct fs as [|f fs]; [|by rewrite old_child_at].
    etrans; [apply old_child_kind|]. by destruct (kind_at q n [e]).
  - pose proof (old_child_shaped q n e ReadNode Hs) as Ho.
    assert (exists old', (if is_write tt then set_permission_kind (old_child q n e ReadNode) WriteNode else Some (old_child q n e ReadNode)) = Some old'
      /\ shaped (mk_place_elem q e) old' /\ Some (get_permission_kind old') = step_kind tt (kind_at q n [e])
      /\ forall f fs, kind_at (mk_place_elem q e) old' (f :: fs) = kind_at q n (e :: f :: fs)) as (old' & Eold & Hso & Hko & Hao).
    { unfold step_kind. destruct (is_write tt).
      - destruct (set_kind_spec _ _ WriteNode Ho) as (n' & E & Hs' & Hk & Hat). exists n'. split_and!; [done|done|by rewrite Hk|]. intros f fs. by rewrite Hat, old_child_at.
      - eexists. split_and!; [done|done|by rewrite old_child_kind|]. intros f fs. by rewrite old_child_at. }
    destruct (IH ltac:(done) _ _ Hso) as (c & Ec & Hsc & Hkc & Hac).
    destruct (change_shaped q n e ReadNode (fun current_node =>
      current_node ← if is_write tt then set_permission_kind current_node WriteNode else Some current_node;
      add_components tt current_node (below (mk_place_elem q e) (e' :: es))) c Hs) as (n' & E & Hs' & Hk & Hat).
    { fold (old_child q n e ReadNode). rewrite Eold. exact Ec. }
    { done. }
    exists n'. split_and!; [exact E|done..|]. intros f fs. rewrite Hat. destruct fs as [|f' fs]; cbn [added]; destruct (decide (e = f)) as [<-|Hne]; try done.
    + unfold kind_at. cbn [node_at fmap option_fmap option_map]. by rewrite Hkc, Hko.
    + by rewrite Hac, Hao.
Qed.
End Shapes.

(** ** Forests *)

Section Forests.
Context `{MirCrate} (mir : Body).
Implicit Types (p q x : Place) (es fs : list PlaceElem) (t n : PermissionNode) (L : list (Place * TargetType)).

Definition strict q p : Prop := sub q p /\ q <> p.
Definition inner (k : PermissionKind) : Prop := k = ReadNode \/ k = WriteNode.

Lemma sub_extend q es : sub q (extend q es).
Proof. rewrite extend_place. split; [done|]. by exists es. Qed.

Lemma extend_local x : extend (place_of_local (local x)) (projection x) = x.
Proof. rewrite extend_place. by destruct x. Qed.

Lemma vec_place_loop_spec x : legal true mir x -> forall es c fuel, x = extend c es -> length es <= fuel -> vec_place_loop fuel mir c x = Some (below c es).
Proof.
  intros Hl. induction es as [|e es IH]; intros c fuel Hx Hf.
  - cbn in Hx. subst c. destruct fuel; cbn [vec_place_loop]; by rewrite Nat.ltb_irrefl.
  - destruct fuel as [|fuel]; cbn [length] in Hf; [lia|]. cbn [vec_place_loop].
    assert (Hlt : length (projection c) < length (projection x)) by (rewrite Hx, extend_place; cbn; rewrite length_app; cbn; lia).
    rewrite (proj2 (Nat.ltb_lt _ _) Hlt). destruct (expand_one_level_spec true mir c x Hl) as (e' & He' & ->).
    { rewrite Hx. apply sub_extend. }
    { intros ->. lia. }
    cbn [mbind option_bind fst]. assert (e' = e) as ->.
    { apply (inj Some). rewrite <- (sub_step _ _ _ He'). apply sub_step. rewrite Hx. cbn. apply sub_extend. }
    rewrite (IH _ fuel Hx ltac:(lia)). done.
Qed.

Lemma VecPlace_new_spec x : legal true mir x -> VecPlace_new mir x = Some (place_of_local (local x) :: below (place_of_local (local x)) (projection x)).
Proof. intros Hl. unfold VecPlace_new. rewrite (vec_place_loop_spec x Hl (projection x)); [done| |done]. by rewrite extend_local. Qed.

(** *** A new tree *)

Fixpoint line q es n : PermissionNode := match es with [] => n | e :: es => OwnedNode q ReadNode [line (mk_place_elem q e) es n] end.
Fixpoint over q es : list Place := match es with [] => [] | e :: es => q :: over (mk_place_elem q e) es end.

Lemma below_over q es : q :: below q es = (over q es ++ [extend q es])%list.
Proof. revert q. induction es as [|e es IH]; intros q; [done|]. cbn. by rewrite IH. Qed.

Lemma new_ancestors_line target es : forall q n rest,
  new_ancestors target n ReadNode (rev (over q es) ++ rest) = new_ancestors target (line q es n) ReadNode rest.
Proof.
  induction es as [|e es IH]; intros q n rest; [done|]. cbn [over rev line]. rewrite <- app_assoc, IH. cbn. by destruct (bool_decide _).
Qed.

Lemma line_shaped es : forall q n, shaped (extend q es) n -> shaped q (line q es n).
Proof.
  induction es as [|e es IH]; intros q n Hs; [done|]. cbn [line]. specialize (IH (mk_place_elem q e) n Hs). pose proof (shaped_place _ _ IH) as Ep.
  constructor; [apply NoDup_singleton|..]; intros c ->%list_elem_of_singleton; [by exists e|by rewrite Ep].
Qed.

Lemma line_kind es k : forall q fs, kind_at q (line q es (OwnedNode (extend q es) k [])) fs =
  if decide (fs = es) then Some k else if decide (fs `prefix_of` es) then Some ReadNode else None.
Proof.
  induction es as [|e es IH]; intros q fs.
  - destruct fs as [|f fs]; [done|]. rewrite decide_False by done. rewrite decide_False; [done|]. by intros ?%prefix_nil_inv.
  - destruct fs as [|f fs]; [rewrite decide_False by done; rewrite decide_True by apply prefix_nil; done|]. cbn [line]. rewrite kind_at_cons. cbn [get_children].
    assert (Hs : get_place (line (mk_place_elem q e) es (OwnedNode (extend (mk_place_elem q e) es) k [])) = mk_place_elem q e).
    { apply shaped_place, line_shaped, shaped_new. }
    destruct (decide (e = f)) as [<-|Hne].
    + pose proof (find_child_hit (line (mk_place_elem q e) es (OwnedNode (extend (mk_place_elem q e) es) k [])) []) as Hh. rewrite Hs in Hh.
      cbn [extend]. rewrite Hh. cbn [mbind option_bind]. rewrite IH.
      destruct (decide (fs = es)) as [->|Hn]; [by rewrite decide_True|]. rewrite (decide_False (P := e :: fs = e :: es)) by congruence.
      destruct (decide (fs `prefix_of` es)); [by rewrite decide_True by by apply prefix_cons|]. rewrite decide_False; [done|]. by intros ?%prefix_cons_inv_2.
    + cbn [extend]. rewrite find_child_miss; [|rewrite Hs; intros E%mk_inj; congruence]. cbn. rewrite !decide_False; [done| |congruence].
      intros E%prefix_cons_inv_1. congruence.
Qed.

Lemma new_tree_spec p tt : legal true mir p -> exists t, new_tree mir p p tt = Some t /\ shaped (place_of_local (local p)) t
  /\ forall fs, kind_at (place_of_local (local p)) t fs =
       if decide (fs = projection p) then Some (to_permission_kind tt) else if decide (fs `prefix_of` projection p) then Some ReadNode else None.
Proof.
  intros Hl. unfold new_tree. rewrite VecPlace_new_spec by done. cbn [mbind option_bind]. rewrite below_over, rev_app_distr. cbn [rev app].
  rewrite extend_local, bool_decide_eq_true_2 by done. cbn [orb]. eexists. split; [done|].
  rewrite <- (app_nil_r (rev _)), new_ancestors_line. cbn [new_ancestors]. split.
  - apply line_shaped. rewrite extend_local. apply shaped_new.
  - intros fs. by rewrite <- (line_kind _ _ (place_of_local (local p))), extend_local.
Qed.

Lemma added_spec tt es : forall fs old, fs <> [] -> added tt es fs old =
  if decide (fs = es) then leaf_kind tt old else if decide (fs `prefix_of` es) then step_kind tt old else old.
Proof.
  induction es as [|e es IH]; intros [|f fs] old Hf; [done| |done|].
  - cbn. rewrite !decide_False; [done| |done]. by intros ?%prefix_nil_inv.
  - assert (Hcons : forall A (a b c : A), (if decide (f :: fs = e :: es) then a else if decide (f :: fs `prefix_of` e :: es) then b else c)
      = if decide (e = f) then if decide (fs = es) then a else if decide (fs `prefix_of` es) then b else c else c).
    { intros A a b c. destruct (decide (e = f)) as [<-|Hne].
      - destruct (decide (fs = es)) as [->|Hn]; [by rewrite decide_True|]. rewrite (decide_False (P := e :: fs = e :: es)) by congruence.
        destruct (decide (fs `prefix_of` es)); [by rewrite decide_True by by apply prefix_cons|]. rewrite decide_False; [done|]. by intros ?%prefix_cons_inv_2.
      - rewrite !decide_False; [done| |congruence]. intros E%prefix_cons_inv_1. congruence. }
    rewrite Hcons. destruct es as [|e' es], fs as [|f' fs]; [cbn [added]; destruct (decide (e = f)) as [<-|]; done..|].
    change (added tt (e :: e' :: es) (f :: f' :: fs) old) with (if decide (e = f) then added tt (e' :: es) (f' :: fs) old else old).
    destruct (decide (e = f)); [by apply IH|done].
Qed.

(** *** What a tree stands for *)

Definition paths_of L : list Place := map fst L.

Lemma paths_of_elem L p : p ∈ paths_of L <-> exists tt, (p, tt) ∈ L.
Proof.
  unfold paths_of. rewrite list_elem_of_fmap. split; [intros ([q tt] & -> & Hq); by exists tt|intros [tt Hp]; by exists (p, tt)].
Qed.

Lemma paths_of_snoc L p tt q : q ∈ paths_of (L ++ [(p, tt)]) <-> q ∈ paths_of L \/ q = p.
Proof. unfold paths_of. rewrite map_app, elem_of_app. cbn. by rewrite list_elem_of_singleton. Qed.

(** A place of the tree is a leaf, or lies on the way to one. *)
Definition stands L q (kind : option PermissionKind) : Prop :=
  match kind with
  | Some k => ((exists p, p ∈ paths_of L /\ strict q p) /\ inner k)
      \/ (~ (exists p, p ∈ paths_of L /\ strict q p) /\ exists tt, (q, tt) ∈ L /\ k = to_permission_kind tt)
  | None => ~ exists p, p ∈ paths_of L /\ sub q p
  end.

Record represents (l : nat) t L : Prop := {
  rep_shaped : shaped (place_of_local l) t;
  rep_stands : forall q, local q = l -> stands L q (kind_at (place_of_local l) t (projection q))
}.

Lemma sub_prefix q p : local q = local p -> sub q p <-> projection q `prefix_of` projection p.
Proof. intros E. split; [by intros [_ ?]|by split]. Qed.

(** A path that says nothing about a place. *)
Lemma stands_snoc L p tt q k : ~ sub q p -> stands (L ++ [(p, tt)]) q k <-> stands L q k.
Proof.
  intros Hn. assert (Hs : (exists x, x ∈ paths_of (L ++ [(p, tt)]) /\ strict q x) <-> exists x, x ∈ paths_of L /\ strict q x).
  { setoid_rewrite paths_of_snoc. unfold strict. naive_solver. }
  assert (Hu : (exists x, x ∈ paths_of (L ++ [(p, tt)]) /\ sub q x) <-> exists x, x ∈ paths_of L /\ sub q x) by (setoid_rewrite paths_of_snoc; naive_solver).
  assert (Ht : forall tt', (q, tt') ∈ (L ++ [(p, tt)])%list <-> (q, tt') ∈ L).
  { intros tt'. rewrite elem_of_app, list_elem_of_singleton. split; [intros [?|[= -> ->]]; [done|by destruct Hn]|by left]. }
  unfold stands. destruct k; [|by rewrite Hu]. rewrite Hs. by setoid_rewrite Ht.
Qed.

(** A leaf that has no prefix among the other paths. *)
Lemma stands_leaf L p tt k : (forall x, x ∈ paths_of L -> ~ sub x p) -> stands L p k -> stands (L ++ [(p, tt)]) p (leaf_kind tt k).
Proof.
  intros Hx Hs. assert (Hst : (exists x, x ∈ paths_of (L ++ [(p, tt)]) /\ strict p x) <-> exists x, x ∈ paths_of L /\ strict p x).
  { setoid_rewrite paths_of_snoc. unfold strict. naive_solver. }
  destruct k as [k|]; cbn in *; rewrite Hst.
  - destruct Hs as [Hs|(Hn & tt' & Hin & ->)]; [by left|]. exfalso. apply (Hx p); [|done]. rewrite paths_of_elem. by exists tt'.
  - right. split; [|exists tt; split; [set_solver|done]]. intros (x & Hin & Hs' & _). apply Hs. by exists x.
Qed.

(** A place on the way to a new leaf. *)
Lemma stands_step L p tt q k : (forall x, x ∈ paths_of L -> ~ sub x p) -> strict q p -> stands L q k -> stands (L ++ [(p, tt)]) q (step_kind tt k).
Proof.
  intros Hx Hp Hs. assert (Hst : exists x, x ∈ paths_of (L ++ [(p, tt)]) /\ strict q x) by (exists p; split; [rewrite paths_of_snoc; by right|done]).
  unfold step_kind. destruct (is_write tt); [left; split; [done|by right]|]. destruct k as [k|]; [|left; split; [done|by left]].
  destruct Hs as [[_ Hk]|(_ & tt' & Hin & _)]; [by left|]. exfalso. apply (Hx q); [|apply Hp]. rewrite paths_of_elem. by exists tt'.
Qed.

Lemma represents_skip l t L p tt : local p <> l -> represents l t L -> represents l t (L ++ [(p, tt)]).
Proof. intros Hne [Hs Hk]. split; [done|]. intros q Hq. apply stands_snoc; [|by apply Hk]. intros [E _]. congruence. Qed.

Lemma new_tree_represents L p tt : legal true mir p -> (forall x, x ∈ paths_of L -> local x <> local p) ->
  exists t, new_tree mir p p tt = Some t /\ represents (local p) t (L ++ [(p, tt)]).
Proof.
  intros Hl Hn. destruct (new_tree_spec p tt Hl) as (t & E & Hs & Hk). exists t. split; [done|]. split; [done|]. intros q Hq. rewrite Hk.
  assert (H0 : forall r, local r = local p -> stands L r None) by (intros r Hr (x & Hx & [E' _]); apply (Hn x Hx); congruence).
  assert (Hx : forall x, x ∈ paths_of L -> ~ sub x p) by (intros x Hx [E' _]; by apply (Hn x Hx)).
  destruct (decide (projection q = projection p)) as [Ep|Hne].
  { assert (q = p) as -> by (destruct q, p; cbn in *; congruence). by apply (stands_leaf L p tt None Hx), H0. }
  destruct (decide (projection q `prefix_of` projection p)) as [Hp|Hp].
  - left. split; [|by left]. exists p. rewrite paths_of_snoc. split; [by right|]. split; [by apply sub_prefix|]. by intros ->.
  - rewrite stands_snoc; [by apply H0|]. by rewrite sub_prefix.
Qed.

Lemma add_represents t L p tt : legal true mir p -> represents (local p) t L -> (forall x, x ∈ paths_of L -> ~ sub x p) ->
  (projection p = [] -> is_write tt = false) -> exists t', add mir t p tt = Some t' /\ represents (local p) t' (L ++ [(p, tt)]).
Proof.
  intros Hl [Hs Hk] Hx Hw. unfold add. rewrite VecPlace_new_spec by done. cbn [mbind option_bind drop].
  destruct (projection p) as [|e es] eqn:Ep.
  - cbn [below]. rewrite drop_0, (Hw eq_refl). cbn. exists t. split; [done|]. split; [done|]. intros q Hq. specialize (Hk q Hq).
    destruct (decide (q = p)) as [->|Hne]; [|apply stands_snoc; [|done]].
    + pose proof (stands_leaf L p tt _ Hx Hk) as Hlf. by rewrite Ep in *.
    + intros [_ Hp]. rewrite Ep in Hp. apply prefix_nil_inv in Hp. apply Hne. destruct q, p; cbn in *; congruence.
  - destruct (add_components_spec tt (e :: es) ltac:(done) _ t Hs) as (t' & E & Hs' & Hkr & Hka). exists t'. split; [exact E|]. split; [done|].
    intros q Hq. specialize (Hk q Hq). destruct (projection q) as [|f fs] eqn:Eq.
    + assert (kind_at (place_of_local (local p)) t' [] = kind_at (place_of_local (local p)) t []) as -> by (unfold kind_at; cbn; by rewrite Hkr).
      assert (Hsq : strict q p) by (split; [apply sub_prefix; [done|rewrite Eq; apply prefix_nil]|intros ->; congruence]).
      left. split; [exists p; rewrite paths_of_snoc; split; [by right|done]|]. destruct Hk as [[_ Hk]|(_ & tt' & Hin & _)]; [done|].
      exfalso. apply (Hx q); [rewrite paths_of_elem; by exists tt'|apply Hsq].
    + rewrite Hka, added_spec by done. destruct (decide (f :: fs = e :: es)) as [Eqp|Hne].
      { assert (q = p) as -> by (destruct q, p; cbn in *; congruence). by apply stands_leaf. }
      destruct (decide (f :: fs `prefix_of` e :: es)) as [Hp|Hp].
      * apply stands_step; [done| |done]. split; [apply sub_prefix; [done|]; by rewrite Eq, Ep|]. intros ->. congruence.
      * rewrite stands_snoc; [done|]. rewrite sub_prefix by done. by rewrite Eq, Ep.
Qed.


(** *** Adding a path to the trees *)

Lemma places_to_add_loop p d0 l : sub d0 p -> (forall d, d ∈ l -> d = d0 \/ (~ sub d p /\ ~ sub p d)) -> NoDup l -> forall r,
  foldl (add_def_init p) (Some (false, false, r)) l = if decide (d0 ∈ l) then Some (true, false, r ++ [(p, p)])%list else Some (false, false, r).
Proof.
  intros Hd0 Hl Hn r.
  assert (Hskip : forall l st, (forall d, d ∈ l -> ~ sub d p /\ ~ sub p d) -> foldl (add_def_init p) (Some st) l = Some st).
  { clear l r Hl Hn. induction l as [|d l IH]; intros [[a b] c] Hl; [done|]. destruct (Hl d ltac:(by left)) as [H1 H2].
    cbn [foldl]. unfold add_def_init at 2. cbn. rewrite (proj2 (is_prefix_false _ _) H1), (proj2 (is_prefix_false _ _) H2). apply IH. set_solver. }
  induction l as [|d l IH]; [done|]. apply NoDup_cons in Hn as [Hd Hn]. destruct (decide (d = d0)) as [->|Hne].
  - rewrite decide_True by by left. cbn [foldl]. unfold add_def_init at 2. cbn. rewrite (proj2 (is_prefix_spec _ _) Hd0). cbn. apply Hskip.
    intros d Hin. destruct (Hl d ltac:(by right)) as [->|?]; done.
  - cbn [foldl]. unfold add_def_init at 2. cbn. destruct (Hl d ltac:(by left)) as [?|[H1 H2]]; [done|].
    rewrite (proj2 (is_prefix_false _ _) H1), (proj2 (is_prefix_false _ _) H2). rewrite IH; [|set_solver|done].
    destruct (decide (d0 ∈ l)), (decide (d0 ∈ d :: l)) as [Hx|Hx]; try done; [set_solver|]. apply elem_of_cons in Hx as [?|?]; congruence.
Qed.

Lemma places_to_add_spec p all_places : antichain all_places -> covers all_places p -> compute_places_to_add p all_places = Some [(p, p)].
Proof.
  intros Ha (d0 & Hd & Hs). unfold compute_places_to_add. rewrite (places_to_add_loop p d0); [|done| |apply NoDup_elements].
  - by rewrite decide_True by by apply elem_of_elements.
  - intros d Hin%elem_of_elements. destruct (decide (d = d0)) as [->|Hne]; [by left|]. right. split; intros Hp.
    + destruct (sub_total _ _ _ Hp Hs) as [Hx|Hx]; apply Hne; [by apply Ha|symmetry; by apply Ha].
    + apply Hne. symmetry. apply Ha; [done..|]. by etrans.
Qed.

Lemma mapM_opt_related {A B} (f : A -> option B) (R : A -> B -> Prop) l : (forall a, a ∈ l -> exists b, f a = Some b /\ R a b) ->
  exists l', mapM_opt f l = Some l' /\ Forall2 R l l'.
Proof.
  induction l as [|a l IH]; intros Hl; [by exists []|]. destruct (Hl a ltac:(by left)) as (b & Eb & Hb).
  destruct IH as (l' & El & Hl'); [set_solver|]. exists (b :: l'). cbn [mapM_opt]. rewrite Eb, El. split; [done|by constructor].
Qed.

(** One tree for each local of the paths. *)
Record forest_represents trees L : Prop := {
  forest_nodup : NoDup (map get_place trees);
  forest_tree : forall t, t ∈ trees -> exists l, represents l t L /\ exists x, x ∈ paths_of L /\ local x = l;
  forest_path : forall x, x ∈ paths_of L -> exists t, t ∈ trees /\ get_place t = place_of_local (local x)
}.

Lemma root_prefix p l : is_prefix p (place_of_local l) = true <-> local p = l.
Proof. rewrite is_prefix_spec. split; [by intros [<- _]|]. intros <-. split; [done|apply prefix_nil]. Qed.

Lemma add_path_spec trees L all_places p tt : forest_represents trees L -> legal true mir p -> antichain all_places -> covers all_places p ->
  (forall x, x ∈ paths_of L -> ~ sub x p) -> (projection p = [] -> is_write tt = true -> forall x, x ∈ paths_of L -> local x <> local p) ->
  exists trees', add_path mir tt all_places trees p = Some trees' /\ forest_represents trees' (L ++ [(p, tt)]).
Proof.
  intros [Hn Ht Hp] Hl Ha Hc Hx Hw. unfold add_path. rewrite places_to_add_spec by done. cbn [mbind option_bind].
  set (step := fun tree => if is_prefix p (get_place tree) then add_all mir tt [(p, p)] tree else Some tree).
  destruct (mapM_opt_related step (fun t t' => get_place t' = get_place t /\ exists l, get_place t = place_of_local l /\ represents l t' (L ++ [(p, tt)])
    /\ exists x, x ∈ paths_of L /\ local x = l) trees) as (trees' & E & Hf).
  { intros t Hin. destruct (Ht t Hin) as (l & Hr & x & Hxl & El). pose proof (shaped_place _ _ (rep_shaped _ _ _ Hr)) as Et. unfold step. rewrite Et.
    destruct (is_prefix p (place_of_local l)) eqn:Er.
    - apply root_prefix in Er as <-. destruct (add_represents t L p tt Hl Hr Hx) as (t' & Et' & Hr').
      { intros E0. apply not_true_iff_false. intros Hwr. by apply (Hw E0 Hwr x). }
      exists t'. unfold add_all. cbn. split; [done|]. split; [apply (shaped_place _ _ (rep_shaped _ _ _ Hr'))|]. exists (local p). split_and!; [done|done|by exists x].
    - exists t. split; [done|]. split; [done|]. exists l. split_and!; [done| |by exists x]. apply represents_skip; [|done].
      intros El'. apply root_prefix in El'. congruence. }
  rewrite E. cbn [mbind option_bind].
  assert (Hmap : map get_place trees' = map get_place trees).
  { clear -Hf. induction Hf as [|t t' ts ts' [Et _] _ IH]; [done|]. cbn. by rewrite Et, IH. }
  assert (Htrees : forall t', t' ∈ trees' -> exists l, represents l t' (L ++ [(p, tt)]) /\ exists x, x ∈ paths_of (L ++ [(p, tt)]) /\ local x = l).
  { intros t' Hin. apply list_elem_of_lookup in Hin as [i Hi]. destruct (Forall2_lookup_r _ _ _ _ _ Hf Hi) as (t & _ & _ & l & _ & Hr & x & Hxl & El).
    exists l. split; [done|]. exists x. rewrite paths_of_snoc. by split; [left|]. }
  assert (Hpaths : forall x, x ∈ paths_of L -> exists t, t ∈ trees' /\ get_place t = place_of_local (local x)).
  { intros x Hin. destruct (Hp x Hin) as (t & Hint & Et). assert (get_place t ∈ map get_place trees') as Hm by (rewrite Hmap; by apply list_elem_of_fmap_2).
    apply list_elem_of_fmap in Hm as (t' & Et' & Hin'). exists t'. split; [done|congruence]. }
  destruct (existsb (fun tree => is_prefix p (get_place tree)) trees) eqn:Ef.
  - exists trees'. split; [done|]. split; [by rewrite Hmap|done|]. intros x [Hin| ->]%paths_of_snoc; [by apply Hpaths|].
    apply existsb_exists in Ef as (t & Hin%list_elem_of_In & Er). destruct (Ht t Hin) as (l & Hr & _). pose proof (shaped_place _ _ (rep_shaped _ _ _ Hr)) as Et.
    rewrite Et in Er. apply root_prefix in Er as <-. assert (get_place t ∈ map get_place trees') as Hm by (rewrite Hmap; by apply list_elem_of_fmap_2).
    apply list_elem_of_fmap in Hm as (t' & Et' & Hin'). exists t'. split; [done|congruence].
  - assert (Hlocal : forall x, x ∈ paths_of L -> local x <> local p).
    { intros x Hin El. destruct (Hp x Hin) as (t & Hint & Et). apply not_true_iff_false in Ef. apply Ef, existsb_exists. exists t.
      rewrite <- list_elem_of_In. split; [done|]. rewrite Et. by apply root_prefix. }
    destruct (new_tree_represents L p tt Hl Hlocal) as (t & Et & Hr). cbn [mapM_opt fst snd]. rewrite Et. cbn [mbind option_bind]. eexists. split; [done|].
    pose proof (shaped_place _ _ (rep_shaped _ _ _ Hr)) as Etp. split.
    + rewrite map_app, Hmap. cbn [map]. rewrite Etp. apply NoDup_app. split_and!; [done| |apply NoDup_singleton].
      intros q (t' & -> & Hin)%list_elem_of_fmap Hq%list_elem_of_singleton. destruct (Ht t' Hin) as (l & Hr' & x & Hxl & El).
      pose proof (shaped_place _ _ (rep_shaped _ _ _ Hr')) as Et'. rewrite Et' in Hq. injection Hq as ->. by apply (Hlocal x).
    + intros t' [Hin| ->%list_elem_of_singleton]%elem_of_app; [by apply Htrees|]. exists (local p). split; [done|]. exists p. rewrite paths_of_snoc. by split; [right|].
    + intros x [Hin| ->]%paths_of_snoc; [|exists t; set_solver]. destruct (Hpaths x Hin) as (t' & ? & ?). exists t'. set_solver.
Qed.

(** No path is a prefix of a later one, and a whole local is written only if it
    is the first path of the local. *)
Definition precedes (a b : Place * TargetType) : Prop :=
  ~ sub (fst a) (fst b) /\ (projection (fst b) = [] -> is_write (snd b) = true -> local (fst a) <> local (fst b)).
Definition in_order L : Prop := StronglySorted precedes L.

Lemma add_paths_spec all_places tt paths : antichain all_places -> forall trees L, forest_represents trees L ->
  (forall p, p ∈ paths -> legal true mir p /\ covers all_places p) ->
  in_order (L ++ map (fun p => (p, tt)) paths) ->
  exists trees', add_paths mir tt all_places trees paths = Some trees' /\ forest_represents trees' (L ++ map (fun p => (p, tt)) paths).
Proof.
  intros Ha. unfold add_paths. induction paths as [|p paths IH]; intros trees L Hf Hp Ho.
  - exists trees. cbn. by rewrite app_nil_r.
  - destruct (Hp p ltac:(by left)) as [Hl Hc]. cbn [map] in Ho.
    assert (Hb : forall x, x ∈ paths_of L -> ~ sub x p /\ (projection p = [] -> is_write tt = true -> local x <> local p)).
    { intros x [tt' Hin]%paths_of_elem. exact (StronglySorted_app_1_elem_of precedes L _ (x, tt') (p, tt) Ho Hin ltac:(by left)). }
    destruct (add_path_spec trees L all_places p tt Hf Hl Ha Hc) as (trees' & E & Hf').
    { intros x Hx. by apply Hb. }
    { intros E0 Hw x Hx. by apply (proj2 (Hb x Hx)). }
    cbn [foldl mbind option_bind]. rewrite E. assert (Happ : (L ++ (p, tt) :: map (fun p => (p, tt)) paths)%list = ((L ++ [(p, tt)]) ++ map (fun p => (p, tt)) paths)%list)
      by by rewrite <- app_assoc.
    cbn [map]. rewrite Happ in *. apply IH; [done| |done]. intros q Hq. apply Hp. by right.
Qed.

(** A whole local that is written does not fit into a tree that is there. *)
Lemma add_path_panics trees L all_places p tt : forest_represents trees L -> legal true mir p -> antichain all_places -> covers all_places p ->
  projection p = [] -> is_write tt = true -> (exists x, x ∈ paths_of L /\ local x = local p) -> add_path mir tt all_places trees p = None.
Proof.
  intros [_ _ Hp] Hl Ha Hc E0 Hw (x & Hx & El). unfold add_path. rewrite places_to_add_spec by done. cbn [mbind option_bind].
  destruct (Hp x Hx) as (t & Ht & Et). rewrite El in Et.
  assert (Hadd : add_all mir tt [(p, p)] t = None).
  { unfold add_all. cbn. unfold add. rewrite VecPlace_new_spec, E0 by done. cbn. by rewrite Hw. }
  assert (Hr : is_prefix p (get_place t) = true) by (rewrite Et; by apply root_prefix). clear Hp Et.
  set (step := fun tree => if is_prefix p (get_place tree) then add_all mir tt [(p, p)] tree else Some tree).
  enough (E : mapM_opt step trees = None) by by rewrite E. unfold step. clear step.
  induction trees as [|t' trees IH]; [by apply not_elem_of_nil in Ht|]. cbn [mapM_opt]. apply elem_of_cons in Ht as [<-|Ht]; [by rewrite Hr, Hadd|].
  destruct (if is_prefix p (get_place t') then _ else _); cbn [mbind option_bind]; [|done]. by rewrite IH.
Qed.

Lemma add_paths_app all_places tt trees l1 l2 : add_paths mir tt all_places trees (l1 ++ l2) =
  (trees ← add_paths mir tt all_places trees l1; add_paths mir tt all_places trees l2).
Proof.
  unfold add_paths. rewrite foldl_app. destruct (foldl _ _ l1) as [ts|]; cbn; [done|]. by induction l2.
Qed.

(** *** The permissions of a tree *)

Lemma count_nodes_unfold n : count_nodes n = S (list_sum (map count_nodes (get_children n))).
Proof. destruct n; cbn; [done|by rewrite Nat.add_0_r]. Qed.

Lemma in_tree_inv t n : in_tree t n <-> n = t \/ exists c, c ∈ get_children t /\ in_tree c n.
Proof.
  split.
  - induction 1 as [|n c _ IH Hc]; [by left|]. right. destruct IH as [->|(d & Hd & Hn)]; [exists c; split; [done|constructor]|].
    exists d. split; [done|]. by eapply in_child.
  - intros [->|(c & Hc & Hn)]; [constructor|]. induction Hn as [|n d _ IH Hd]; [eapply in_child; [constructor|done]|by eapply in_child].
Qed.

(** What a node adds to the permissions. *)
Definition contributes n (x : PermissionKind * Place) : Prop :=
  (exists c, c ∈ get_children n /\ child_permission (get_permission_kind n) c = Some x) \/ x ∈ own_permission n.

Lemma permissions_loop_spec fuel : forall visited to_visit, list_sum (map count_nodes to_visit) <= fuel ->
  (forall t n c, t ∈ to_visit -> in_tree t n -> c ∈ get_children n -> is_Some (child_permission (get_permission_kind n) c)) ->
  exists ps, permissions_loop fuel visited to_visit = Some ps
    /\ forall (x : PermissionKind * Place), x ∈ ps <-> x ∈ visited \/ exists t n, t ∈ to_visit /\ in_tree t n /\ contributes n x.
Proof.
  induction fuel as [|fuel IH]; intros visited [|node to_visit] Hf Hg.
  1,3: exists visited; split; [done|]; set_solver.
  { cbn [map list_sum foldr] in Hf. rewrite count_nodes_unfold in Hf. lia. }
  cbn [permissions_loop]. destruct (mapM_opt_related (child_permission (get_permission_kind node)) (fun c perm => child_permission (get_permission_kind node) c = Some perm)
    (get_children node)) as (children & -> & Hch).
  { intros c Hc. destruct (Hg node node c ltac:(by left) ltac:(constructor) Hc) as [x Ex]. by exists x. }
  cbn [mbind option_bind]. destruct (IH (visited ++ children ++ own_permission node)%list (rev (get_children node) ++ to_visit)%list) as (ps & -> & Hps).
  - cbn [map list_sum foldr] in Hf. rewrite count_nodes_unfold in Hf. rewrite map_app, list_sum_app, map_rev.
    assert (Hr : list_sum (rev (map count_nodes (get_children node))) = list_sum (map count_nodes (get_children node))).
    { generalize (map count_nodes (get_children node)) as l. induction l as [|a l IHl]; [done|]. cbn [rev]. rewrite list_sum_app, IHl. unfold list_sum. cbn. lia. }
    rewrite Hr. unfold list_sum in *. cbn in *. lia.
  - intros t n c [Ht|Ht]%elem_of_app Hn Hc; [|by apply (Hg t); [right|..]]. apply (Hg node); [by left| |done].
    apply in_tree_inv. right. exists t. split; [|done]. by apply list_elem_of_In, in_rev, list_elem_of_In.
  - exists ps. split; [done|]. intros x. rewrite Hps, !elem_of_app.
    assert (Hx : x ∈ children <-> exists c, c ∈ get_children node /\ child_permission (get_permission_kind node) c = Some x).
    { clear -Hch. induction Hch as [|c y cs ys Hy _ IHf]; [set_solver|]. setoid_rewrite elem_of_cons. rewrite IHf. naive_solver congruence. }
    rewrite Hx. setoid_rewrite elem_of_app. setoid_rewrite elem_of_cons.
    assert (Hr : forall t, t ∈ rev (get_children node) <-> t ∈ get_children node) by (intros t; by rewrite !list_elem_of_In, <- in_rev).
    setoid_rewrite Hr. split.
    + intros [[Hv|[Hc|Ho]]|(t & n & [Ht|Ht] & Hn & Hc)]; [by left|right; exists node, node..| |right; exists t, n; auto].
      * split_and!; [by left|constructor|by left].
      * split_and!; [by left|constructor|by right].
      * right. exists node, n. split_and!; [by left| |done]. apply in_tree_inv. right. by exists t.
    + intros [Hv|(t & n & [->|Ht] & Hn & Hc)]; [by left; left| |right; exists t, n; auto].
      apply in_tree_inv in Hn as [->|(c & Hcc & Hn)]; [left; right; exact Hc|]. right. exists c, n. auto.
Qed.

Definition leaf_permission tt : PermissionKind := match tt with TargetRead => ReadSubtree | TargetWriteNode | TargetWriteContents => WriteSubtree end.

(** The permissions of a tree: one to read or write each place on the way to a
    path, and one for the contents of the paths that have no longer path. *)
Record permissions_of (l : nat) L (ps : list (PermissionKind * Place)) : Prop := {
  node_permissions : forall q, (exists k, inner k /\ (k, q) ∈ ps) <-> local q = l /\ projection q <> [] /\ exists p, p ∈ paths_of L /\ sub q p;
  leaf_permissions : forall k q, ~ inner k -> (k, q) ∈ ps <->
    local q = l /\ ~ (exists p, p ∈ paths_of L /\ strict q p) /\ exists tt, (q, tt) ∈ L /\ k = leaf_permission tt;
  write_permissions : forall q, (q, TargetWriteNode) ∈ L -> local q = l -> projection q <> [] -> ~ (exists p, p ∈ paths_of L /\ strict q p) -> (WriteNode, q) ∈ ps
}.

(** The nodes of a tree stand for their places. *)
Lemma represents_node l t L n : represents l t L -> in_tree t n -> local (get_place n) = l /\ stands L (get_place n) (Some (get_permission_kind n)).
Proof.
  intros [Hs Hk] Hn. apply (in_tree_at _ _ _ Hs) in Hn as [es E]. pose proof (shaped_place _ _ (node_at_shaped _ _ _ _ Hs E)) as Ep.
  rewrite extend_place in Ep. cbn in Ep. rewrite Ep. split; [done|]. specialize (Hk (make_place l es) eq_refl). cbn in Hk. unfold kind_at in Hk. by rewrite E in Hk.
Qed.

Lemma represents_child l t L n c : represents l t L -> in_tree t n -> c ∈ get_children n ->
  inner (get_permission_kind n) /\ in_tree t c /\ exists e, get_place c = mk_place_elem (get_place n) e.
Proof.
  intros Hr Hn Hc. assert (Hct : in_tree t c) by (by eapply in_child). destruct (represents_node _ _ _ _ Hr Hn) as [_ Hkn].
  destruct (represents_node _ _ _ _ Hr Hct) as [_ Hkc]. pose proof (rep_shaped _ _ _ Hr) as Hs. apply (in_tree_at _ _ _ Hs) in Hn as [es E].
  pose proof (node_at_shaped _ _ _ _ Hs E) as Hsn. assert (exists e, get_place c = mk_place_elem (get_place n) e) as [e Ee].
  { rewrite (shaped_place _ _ Hsn). inversion Hsn as [q k children _ Hp _ Eq En]. subst n. by apply Hp. }
  split; [|split; [done|by exists e]]. assert (Hst : exists p, p ∈ paths_of L /\ strict (get_place n) p).
  { assert (exists p, p ∈ paths_of L /\ sub (get_place c) p) as (p & Hp & Hsub).
    { destruct Hkc as [[(p & Hp & Hsub & _) _]|(_ & tt & Hin & _)]; [by exists p|]. exists (get_place c). split; [|done]. rewrite paths_of_elem. by exists tt. }
    exists p. split; [done|]. rewrite Ee in Hsub. split; [etrans; [apply sub_mk|done]|]. intros <-. apply sub_length in Hsub. rewrite length_mk in Hsub. lia. }
  destruct Hkn as [[_ Hk]|[Hn' _]]; done.
Qed.

Lemma child_permission_inner k c : inner k -> exists k', child_permission k c = Some (k', get_place c) /\ inner k'
  /\ (get_permission_kind c = WriteNodeAndSubtree -> k' = WriteNode).
Proof.
  unfold child_permission. intros Hk. case_bool_decide as E; [exists WriteNode; split_and!; [done|by right|done]|].
  destruct Hk as [-> | ->]; eexists; split_and!; try done; [by left|by right].
Qed.

Lemma own_permission_inner k q n : (k, q) ∈ own_permission n <-> q = get_place n /\
  match get_permission_kind n with ReadSubtree => k = ReadSubtree | WriteNodeAndSubtree | WriteSubtree => k = WriteSubtree | _ => False end.
Proof. unfold own_permission. destruct (get_permission_kind n); rewrite ?list_elem_of_singleton, ?elem_of_nil; naive_solver. Qed.

Lemma root_child l t L q : represents l t L -> local q = l -> projection q <> [] -> is_Some (kind_at (place_of_local l) t (projection q)) ->
  exists n c, in_tree t n /\ c ∈ get_children n /\ get_place c = q /\ in_tree t c.
Proof.
  intros Hr El Hp [k Hk]. pose proof (rep_shaped _ _ _ Hr) as Hs. destruct (exists_last Hp) as (es & e & Eq). rewrite Eq in Hk.
  unfold kind_at in Hk. rewrite node_at_app in Hk. destruct (node_at (place_of_local l) t es) as [n|] eqn:En; [|done]. cbn [mbind option_bind node_at] in Hk.
  destruct (find_child _ _) as [c|] eqn:Ec; [|done]. apply find_child_Some in Ec as [Hc Ep]. exists n, c.
  assert (in_tree t n) by (apply (in_tree_at _ _ _ Hs); by exists es). split_and!; [done|done| |by eapply in_child].
  rewrite Ep, extend_place. destruct q as [lq pq]. cbn in *. by subst.
Qed.


Lemma to_permission_kind_leaf tt k q n : get_permission_kind n = to_permission_kind tt -> get_place n = q -> (k, q) ∈ own_permission n <-> k = leaf_permission tt.
Proof. intros E <-. rewrite own_permission_inner, E. destruct tt; naive_solver. Qed.

Lemma represents_permissions l t L : represents l t L -> (forall p a b, (p, a) ∈ L -> (p, b) ∈ L -> a = b) ->
  (exists x, x ∈ paths_of L /\ local x = l) -> exists ps, get_permissions t = Some ps /\ permissions_of l L ps.
Proof.
  intros Hr Hfun (x0 & Hx0 & Ex0). destruct (permissions_loop_spec (count_nodes t) [] [t]) as (ps & E & Hps).
  { cbn. lia. }
  { intros t' n c ->%list_elem_of_singleton Hn Hc. destruct (represents_child _ _ _ _ _ Hr Hn Hc) as (Hk & _).
    destruct (child_permission_inner _ c Hk) as (k' & -> & _). by eexists. }
  assert (Hmem : forall perm, perm ∈ ps <-> exists n, in_tree t n /\ contributes n perm).
  { intros perm. rewrite Hps. setoid_rewrite list_elem_of_singleton. set_solver. }
  assert (Hat : forall q, local q = l -> (exists p, p ∈ paths_of L /\ sub q p) -> is_Some (kind_at (place_of_local l) t (projection q))).
  { intros q Hq Hp. pose proof (rep_stands _ _ _ Hr q Hq) as Hs. destruct (kind_at _ _ _); [by eexists|done]. }
  exists ps. split; [exact E|]. split.
  - intros q. setoid_rewrite Hmem. split.
    + intros (k & Hk & n & Hn & [(c & Hc & Ec)|Ho]).
      * destruct (represents_child _ _ _ _ _ Hr Hn Hc) as (Hkn & Hct & e & Ee). destruct (child_permission_inner _ c Hkn) as (k' & Ek' & _).
        rewrite Ek' in Ec. injection Ec as <- <-. destruct (represents_node _ _ _ _ Hr Hct) as [El Hst]. split_and!; [done|rewrite Ee; cbn; by intros []%app_nil|].
        destruct Hst as [[(p & Hp & Hs & _) _]|(_ & tt & Hin & _)]; [by exists p|]. exists (get_place c). split; [|done]. rewrite paths_of_elem. by exists tt.
      * apply own_permission_inner in Ho as [_ Ho]. exfalso. by destruct Hk as [-> | ->], (get_permission_kind n).
    + intros (El & Hne & Hp). destruct (root_child _ _ _ q Hr El Hne (Hat q El Hp)) as (n & c & Hn & Hc & <- & _).
      destruct (represents_child _ _ _ _ _ Hr Hn Hc) as (Hkn & _). destruct (child_permission_inner _ c Hkn) as (k' & Ek' & Hk' & _).
      exists k'. split; [done|]. exists n. split; [done|]. left. by exists c.
  - intros k q Hk. rewrite Hmem. split.
    + intros (n & Hn & [(c & Hc & Ec)|Ho]).
      { destruct (represents_child _ _ _ _ _ Hr Hn Hc) as (Hkn & _). destruct (child_permission_inner _ c Hkn) as (k' & Ek' & Hk' & _). congruence. }
      destruct (represents_node _ _ _ _ Hr Hn) as [El Hst]. pose proof Ho as Ho'. apply own_permission_inner in Ho' as [Eq Ho']. subst q.
      destruct Hst as [[_ Hin]|(Hns & tt & Hin & Ek)]; [by destruct Hin as [Hin|Hin]; rewrite Hin in Ho'|].
      split_and!; [done..|]. exists tt. split; [done|]. by apply (to_permission_kind_leaf tt k _ n Ek eq_refl).
    + intros (El & Hns & tt & Hin & ->). destruct (Hat q El) as [k' Ek]; [exists q; split; [rewrite paths_of_elem; by exists tt|done]|].
      pose proof (rep_stands _ _ _ Hr q El) as Hst. rewrite Ek in Hst. destruct Hst as [[Hs _]|(_ & tt' & Hin' & ->)]; [done|].
      rewrite (Hfun q tt' tt Hin' Hin) in Ek. unfold kind_at in Ek. destruct (node_at _ _ _) as [n|] eqn:En; [|done]. injection Ek as Ek.
      pose proof (shaped_place _ _ (node_at_shaped _ _ _ _ (rep_shaped _ _ _ Hr) En)) as Ep. rewrite extend_place in Ep. cbn in Ep.
      exists n. split; [apply (in_tree_at _ _ _ (rep_shaped _ _ _ Hr)); by eexists|]. right. apply (to_permission_kind_leaf tt); [done| |done].
      rewrite Ep. destruct q; cbn in *; by subst.
  - intros q Hin El Hne Hns. rewrite Hmem. assert (Hp : exists p, p ∈ paths_of L /\ sub q p) by (exists q; split; [rewrite paths_of_elem; by eexists|done]).
    destruct (root_child _ _ _ q Hr El Hne (Hat q El Hp)) as (n & c & Hn & Hc & <- & Hct). destruct (represents_child _ _ _ _ _ Hr Hn Hc) as (Hkn & _).
    destruct (represents_node _ _ _ _ Hr Hct) as [_ [[Hs _]|(_ & tt & Htt & Ek)]]; [done|]. rewrite (Hfun _ _ _ Htt Hin) in Ek.
    destruct (child_permission_inner _ c Hkn) as (k' & Ek' & _ & Hw). rewrite (Hw Ek) in Ek'. exists n. split; [done|]. left. by exists c.
Qed.

(** ** The leaves of a loop are in order *)

Definition leaf_paths (write_leaves mut_borrow_leaves read_leaves : list Place) : list (Place * TargetType) :=
  map (fun p => (p, TargetWriteNode)) write_leaves ++ map (fun p => (p, TargetWriteContents)) mut_borrow_leaves ++ map (fun p => (p, TargetRead)) read_leaves.

Lemma paths_of_map (tt : TargetType) l p : p ∈ paths_of (map (fun p => (p, tt)) l) <-> p ∈ l.
Proof. unfold paths_of. by rewrite map_map, map_id. Qed.

Lemma elem_of_map_pair (tt : TargetType) l p a : (p, a) ∈ map (fun p => (p, tt)) l <-> p ∈ l /\ a = tt.
Proof. rewrite list_elem_of_fmap. naive_solver. Qed.

(** A local that is mutably borrowed as a whole and of which a part is written. *)
Definition borrowed_and_written (w : list Place) (p : Place) : Prop := projection p = [] /\ exists q, q ∈ w /\ local q = local p.

Lemma whole_sub (p q : Place) : projection p = [] -> local q = local p -> sub p q.
Proof. intros E El. split; [done|]. rewrite E. apply prefix_nil. Qed.

Lemma sorted_map (tt : TargetType) l : NoDup l -> (forall p q, p ∈ l -> q ∈ l -> p <> q -> precedes (p, tt) (q, tt)) -> StronglySorted precedes (map (fun p => (p, tt)) l).
Proof.
  induction l as [|p l IH]; intros Hn Hp; [constructor|]. apply NoDup_cons in Hn as [Hin Hn]. cbn [map]. constructor; [apply IH; set_solver|].
  apply Forall_forall. intros [q a] [Hq ->]%elem_of_map_pair. apply Hp; [by left|by right|]. congruence.
Qed.

Lemma leaves_in_order accesses w m r m' : read_and_write_leaves accesses = (w, m, r) -> NoDup m' -> (forall p, p ∈ m' -> p ∈ m) ->
  (forall p, p ∈ m' -> ~ borrowed_and_written w p) -> in_order (leaf_paths w m' r).
Proof.
  intros E Hnm' Hsub Ha. pose proof (read_and_write_leaves_spec accesses) as Hs. rewrite E in Hs. destruct Hs as [Hnd _ _ _ _ _ _ _]. injection E as Ew Em Er.
  rewrite Ew in Em. rewrite Ew, Em in Er.
  destruct (leaves_of_spec accesses is_write_access is_write_access []) as [_ Hw]. rewrite Ew in Hw.
  destruct (leaves_of_spec accesses (fun kind => bool_decide (kind = MutableBorrow)) (fun kind => is_write_access kind || bool_decide (kind = MutableBorrow)) w) as [_ Hm].
  rewrite Em in Hm. destruct (leaves_of_spec accesses (fun kind => negb (is_write_access kind)) (fun _ => true) (w ++ m)%list) as [_ Hr']. rewrite Er in Hr'.
  assert (Hno : forall selects p q k, has_prefix_access accesses selects q = false -> (p, k) ∈ accesses -> selects k = true -> p <> q -> ~ sub p q).
  { intros selects p q k Hf Hin Hk Hne Hs. apply not_true_iff_false in Hf. apply Hf, has_prefix_access_spec. exists p, k. split_and!; congruence. }
  apply NoDup_app in Hnd as (Hnw & Hwx & [Hnm [Hmx Hnr]]%NoDup_app).
  assert (Hww : forall p q, p ∈ w -> q ∈ (w ++ m ++ r)%list -> p <> q -> ~ sub p q).
  { intros p q [(k & Hin & Hk) _]%Hw Hq Hne. apply elem_of_app in Hq as [Hq|[Hq|Hq]%elem_of_app].
    - apply Hw in Hq as (_ & Hf & _). by eapply Hno.
    - apply Hm in Hq as (_ & Hf & _). eapply Hno; [exact Hf|exact Hin|cbn in *; by rewrite Hk|done].
    - apply Hr' in Hq as (_ & Hf & _). by eapply Hno. }
  assert (Hmm : forall p q, p ∈ m -> q ∈ (m ++ r)%list -> p <> q -> ~ sub p q).
  { intros p q [(k & Hin & Hk) _]%Hm Hq Hne. apply elem_of_app in Hq as [Hq|Hq].
    - apply Hm in Hq as (_ & Hf & _). eapply Hno; [exact Hf|exact Hin|cbn in *; by rewrite Hk, orb_true_r|done].
    - apply Hr' in Hq as (_ & Hf & _). by eapply Hno. }
  assert (Hrr : forall p q, p ∈ r -> q ∈ r -> p <> q -> ~ sub p q).
  { intros p q [(k & Hin & _) _]%Hr' (_ & Hf & _)%Hr' Hne. by eapply Hno. }
  assert (Hwhole : forall p q, p ∈ w -> q ∈ (w ++ m)%list -> p <> q -> projection q = [] -> (q ∈ m -> ~ borrowed_and_written w q) -> local p <> local q).
  { intros p q Hp Hq Hne E0 Hb El. apply elem_of_app in Hq as [Hq|Hq].
    - apply (Hww q p Hq ltac:(rewrite elem_of_app; auto) (not_eq_sym Hne)). by apply whole_sub.
    - apply (Hb Hq). split; [done|]. by exists p. }
  unfold in_order, leaf_paths. apply StronglySorted_app_2; [|apply sorted_map; [done|]|apply StronglySorted_app_2; [|apply sorted_map; [done|]..]].
  - intros [p a] [q b] [Hp ->]%elem_of_map_pair Hq. assert (p <> q) as Hpq.
    { intros ->. apply (Hwx q Hp). apply elem_of_app in Hq as [[Hq%Hsub _]%elem_of_map_pair|[Hq _]%elem_of_map_pair]; apply elem_of_app; auto. }
    apply elem_of_app in Hq as [[Hq ->]%elem_of_map_pair|[Hq ->]%elem_of_map_pair]; (split; [apply Hww; [done| |done]; rewrite !elem_of_app; auto|]); [|done].
    cbn. intros E0 _. apply (Hwhole p q); [done|rewrite elem_of_app; auto|done..|]. intros _. by apply Ha.
  - intros p q Hp Hq Hne. split; [apply Hww; [done| |done]; rewrite elem_of_app; auto|]. cbn. intros E0 _ El.
    apply (Hww q p Hq ltac:(rewrite elem_of_app; auto) (not_eq_sym Hne)). by apply whole_sub.
  - intros [p a] [q b] [Hp%Hsub ->]%elem_of_map_pair [Hq ->]%elem_of_map_pair. split; [|done]. apply Hmm; [done|apply elem_of_app; auto|].
    cbn. intros ->. by apply (Hmx q Hp).
  - intros p q Hp%Hsub Hq%Hsub Hne. split; [apply Hmm; [done| |done]; rewrite elem_of_app; auto|]. cbn. intros E0 _ El.
    apply (Hmm q p Hq ltac:(rewrite elem_of_app; auto) (not_eq_sym Hne)). by apply whole_sub.
  - intros p q Hp Hq Hne. by split; [apply Hrr|].
Qed.

Lemma leaf_paths_elem w m r p : p ∈ paths_of (leaf_paths w m r) <-> p ∈ (w ++ m ++ r)%list.
Proof. unfold leaf_paths. rewrite !elem_of_app, <- (paths_of_map TargetWriteNode w), <- (paths_of_map TargetWriteContents m), <- (paths_of_map TargetRead r).
  unfold paths_of. by rewrite !map_app, !elem_of_app. Qed.

Lemma leaf_paths_functional w m r p a b : NoDup (w ++ m ++ r)%list -> (p, a) ∈ leaf_paths w m r -> (p, b) ∈ leaf_paths w m r -> a = b.
Proof.
  intros (_ & Hw & [_ [Hm _]]%NoDup_app)%NoDup_app. unfold leaf_paths. rewrite !elem_of_app, !(elem_of_map_pair _ _ p). specialize (Hw p). specialize (Hm p).
  rewrite elem_of_app in Hw. naive_solver.
Qed.

End Forests.

(** ** The theorem *)

Lemma first_such {A} (P : A -> Prop) `{!forall x, Decision (P x)} (l : list A) : (exists x, x ∈ l /\ P x) ->
  exists l1 x l2, l = (l1 ++ x :: l2)%list /\ P x /\ forall y, y ∈ l1 -> ~ P y.
Proof.
  induction l as [|a l IH]; intros (x & Hx & HP); [by apply not_elem_of_nil in Hx|].
  destruct (decide (P a)) as [Ha|Ha]; [exists [], a, l; split_and!; [done..|by intros y ?%not_elem_of_nil]|].
  destruct IH as (l1 & y & l2 & -> & Hy & Hl1); [apply elem_of_cons in Hx as [->|Hx]; [done|by exists x]|].
  exists (a :: l1), y, l2. split_and!; [done..|]. intros z [->|Hz]%elem_of_cons; [done|by apply Hl1].
Qed.

Section NewForest.
Context `{MirCrate} (mir : Body) (accesses : list (Place * PlaceAccessKind)) (w m r : list Place) (all_places : gset Place).
Hypothesis leaves : read_and_write_leaves accesses = (w, m, r).
Hypothesis anti : antichain all_places.
Hypothesis places : forall p, p ∈ (w ++ m ++ r)%list -> legal true mir p /\ covers all_places p.

Lemma leaves_nodup : NoDup (w ++ m ++ r)%list.
Proof. pose proof (read_and_write_leaves_spec accesses) as Hs. rewrite leaves in Hs. apply Hs. Qed.

(** The paths that are written, and borrowed ones that do not clash with them. *)
Lemma add_written m' : NoDup m' -> (forall p, p ∈ m' -> p ∈ m) -> (forall p, p ∈ m' -> ~ borrowed_and_written w p) ->
  exists t1 t2, add_paths mir TargetWriteNode all_places [] w = Some t1 /\ add_paths mir TargetWriteContents all_places t1 m' = Some t2
    /\ forest_represents t2 (map (fun p => (p, TargetWriteNode)) w ++ map (fun p => (p, TargetWriteContents)) m').
Proof.
  intros Hn Hsub Ha. pose proof (leaves_in_order accesses w m r m' leaves Hn Hsub Ha) as Ho. unfold in_order, leaf_paths in Ho.
  assert (Hempty : forest_represents [] []) by (split; [apply NoDup_nil_2|by intros t ?%not_elem_of_nil|by intros x ?%not_elem_of_nil]).
  destruct (add_paths_spec mir all_places TargetWriteNode w anti [] [] Hempty) as (t1 & E1 & H1).
  { intros p Hw. apply places. rewrite !elem_of_app. auto. }
  { by eapply StronglySorted_app_1_l. }
  destruct (add_paths_spec mir all_places TargetWriteContents m' anti t1 _ H1) as (t2 & E2 & H2).
  { intros p Hm. apply places. rewrite !elem_of_app. auto. }
  { rewrite app_assoc in Ho. by eapply StronglySorted_app_1_l. }
  by exists t1, t2.
Qed.

Lemma new_forest_panics : (exists p, p ∈ m /\ borrowed_and_written w p) -> new_forest mir w m r all_places = None.
Proof.
  intros Hp. destruct (first_such (fun p => projection p = [] /\ Exists (fun q => local q = local p) w) m) as (m1 & p & m2 & Em & [E0 Hq] & Hm1).
  { destruct Hp as (p & Hp & E0 & Hq). exists p. split; [done|]. split; [done|]. by apply Exists_exists. }
  apply Exists_exists in Hq as (q & Hq & El). pose proof leaves_nodup as (_ & _ & [Hnm _]%NoDup_app)%NoDup_app.
  destruct (add_written m1) as (t1 & t2 & E1 & E2 & Hf).
  { rewrite Em in Hnm. by apply NoDup_app in Hnm as [? _]. }
  { intros x Hx. rewrite Em, elem_of_app. by left. }
  { intros x Hx (Ex & y & Hy & Ey). apply (Hm1 x Hx). split; [done|]. apply Exists_exists. by exists y. }
  assert (Hin : p ∈ m) by (rewrite Em; set_solver). destruct (places p) as [Hl Hc]; [rewrite !elem_of_app; auto|].
  assert (Hnone : add_path mir TargetWriteContents all_places t2 p = None).
  { apply (add_path_panics mir t2 _ all_places p TargetWriteContents Hf Hl anti Hc E0 eq_refl). exists q. split; [|done].
    unfold paths_of. rewrite map_app, elem_of_app. left. by rewrite <- (paths_of_map TargetWriteNode w) in Hq. }
  assert (Hnone' : add_paths mir TargetWriteContents all_places t2 (p :: m2) = None).
  { unfold add_paths. cbn [foldl mbind option_bind]. rewrite Hnone. clear. by induction m2. }
  unfold new_forest. rewrite E1, Em. cbn [mbind option_bind]. rewrite add_paths_app, E2. cbn [mbind option_bind]. by rewrite Hnone'.
Qed.

Lemma new_forest_total : (forall p, p ∈ m -> ~ borrowed_and_written w p) ->
  exists trees, new_forest mir w m r all_places = Some trees /\ forest_represents trees (leaf_paths w m r).
Proof.
  intros Ha. pose proof leaves_nodup as (_ & _ & [Hnm _]%NoDup_app)%NoDup_app. destruct (add_written m Hnm (fun _ Hp => Hp) Ha) as (t1 & t2 & E1 & E2 & H2).
  destruct (add_paths_spec mir all_places TargetRead r anti t2 _ H2) as (t3 & E3 & H3).
  { intros p Hr. apply places. rewrite !elem_of_app. auto. }
  { rewrite <- app_assoc. exact (leaves_in_order accesses w m r m leaves Hnm (fun _ Hp => Hp) Ha). }
  exists t3. unfold new_forest. rewrite E1. cbn [mbind option_bind]. rewrite E2. cbn [mbind option_bind]. split; [exact E3|].
  rewrite <- app_assoc in H3. exact H3.
Qed.
End NewForest.

(** The forest of a loop: one tree for each local, with permissions to write
    or read what the loop writes or reads. *)
(** C24. From the leaves that `read_and_write_leaves` computes, if their places have the
    projections that the code supports (dereferences, fields of structures and tuples, downcasts
    and indices; no constant indices, subslices or fields of closures) and are covered by the
    places given, of which none is a prefix of another, the permission forest is built without a
    panic iff no local is mutably borrowed as a whole while a part of it is written. It has one
    tree for each local, whose permissions make every prefix of a leaf readable or writable, and
    give the contents of exactly the leaves without a longer leaf, to be written for the places
    that are written or borrowed, and to be read for those that are read. *)
Theorem loop_permissions_correct `{MirCrate} (mir : Body) accesses w m r all_places :
  read_and_write_leaves accesses = (w, m, r) -> antichain all_places ->
  (forall p, p ∈ (w ++ m ++ r)%list -> legal true mir p /\ covers all_places p) ->
  (is_Some (new_forest mir w m r all_places) <-> forall p, p ∈ m -> ~ borrowed_and_written w p)
  /\ forall trees, new_forest mir w m r all_places = Some trees -> NoDup (map get_place trees)
    /\ (forall p, p ∈ (w ++ m ++ r)%list -> exists t, t ∈ trees /\ get_place t = place_of_local (local p))
    /\ forall t, t ∈ trees -> exists ps, get_permissions t = Some ps /\ permissions_of (local (get_place t)) (leaf_paths w m r) ps.
Proof.
  intros E Hanti Hp.
  assert (Hclash : is_Some (new_forest mir w m r all_places) -> forall p, p ∈ m -> ~ borrowed_and_written w p).
  { intros [trees Et] p Hin Hb. rewrite (new_forest_panics mir accesses w m r all_places E Hanti Hp) in Et; [done|by exists p]. }
  split; [split; [exact Hclash|]|].
  - intros Ha. destruct (new_forest_total mir accesses w m r all_places E Hanti Hp Ha) as (trees & -> & _). by eexists.
  - intros trees Et. destruct (new_forest_total mir accesses w m r all_places E Hanti Hp) as (trees' & Et' & [Hn Ht Hpath]); [apply Hclash; by eexists|].
    assert (trees' = trees) as -> by congruence. split_and!; [done| |].
    + intros p Hin. apply Hpath. by apply leaf_paths_elem.
    + intros t Hin. destruct (Ht t Hin) as (l & Hr & Hx). rewrite (shaped_place _ _ (rep_shaped _ _ _ Hr)). apply (represents_permissions l t); [done| |done].
      intros p a b. apply leaf_paths_functional. exact (leaves_nodup accesses w m r E).
Qed.

Module ConcreteForest.
Import ConcreteMir.

(** A structure of a pair and a scalar. *)
Definition forest_body : Body := make_body [] 3 0.
Definition s : Place := make_place 2 [].
Definition s0 : Place := make_place 2 [Field 0 1 : PlaceElem].
Definition s00 : Place := make_place 2 [Field 0 1 : PlaceElem; Field 0 0 : PlaceElem].
Definition s1 : Place := make_place 2 [Field 1 0 : PlaceElem].

(** The loop writes one field, borrows another one, and reads the whole. *)
Example forest_permissions : (trees ← new_forest forest_body [s00] [s1] [s] {[s]}; mapM_opt get_permissions trees)
  = Some [[(ReadNode, s0); (ReadNode, s1); (WriteSubtree, s1); (WriteNode, s00); (WriteSubtree, s00)]].
Proof. vm_compute. reflexivity. Qed.

(** A place that is borrowed and has a part that is written gets no permission
    for its contents. *)
Example borrowed_part_written : (trees ← new_forest forest_body [s00] [s0] [] {[s]}; mapM_opt get_permissions trees)
  = Some [[(ReadNode, s0); (WriteNode, s00); (WriteSubtree, s00)]].
Proof. vm_compute. reflexivity. Qed.

(** A local that is borrowed as a whole and written in parts panics. *)
Example borrowed_local_leaves : read_and_write_leaves [(s, MutableBorrow); (s1, Store)] = ([s1], [s], []).
Proof. vm_compute. reflexivity. Qed.
Example borrowed_local_panics : (if new_forest forest_body [s1] [s] [] {[s]} then true else false) = false.
Proof. vm_compute. reflexivity. Qed.

(** A place that is read gets a permission to write its node, or not, by the
    order of the paths that are written. *)
Definition s01 : Place := make_place 2 [Field 0 1 : PlaceElem; Field 1 0 : PlaceElem].
Example order_of_writes :
  (trees ← new_forest forest_body [s1; s00] [] [s01] {[s]}; mapM_opt get_permissions trees) =
    Some [[(WriteNode, s1); (ReadNode, s0); (WriteNode, s00); (WriteNode, s01); (ReadSubtree, s01); (WriteSubtree, s00); (WriteSubtree, s1)]]
  /\ (trees ← new_forest forest_body [s00; s1] [] [s01] {[s]}; mapM_opt get_permissions trees) =
    Some [[(ReadNode, s0); (WriteNode, s1); (WriteSubtree, s1); (WriteNode, s00); (ReadNode, s01); (ReadSubtree, s01); (WriteSubtree, s00)]].
Proof. split; vm_compute; reflexivity. Qed.

Lemma forest_legal p : p ∈ [s00; s1; s] -> legal true forest_body p /\ covers {[s]} p.
Proof.
  intros Hp. apply elem_of_cons in Hp as [-> | [-> | [-> | []%elem_of_nil]%elem_of_cons]%elem_of_cons].
  all: split; [intros [lc pc] e [El [k Hk]]; cbn in El, Hk; subst lc|exists s; split; [by apply elem_of_singleton|split; [done|apply prefix_nil]]].
  - destruct pc as [|c1 [|c2 pc]]; cbn in Hk; [by injection Hk as <- _|by injection Hk as <- <- _|]. exfalso. injection Hk as _ _ Hk. by destruct pc.
  - destruct pc as [|c1 pc]; cbn in Hk; [by injection Hk as <- _|]. exfalso. injection Hk as _ Hk. by destruct pc.
  - exfalso. by destruct pc.
Qed.

Lemma loop_permissions_correct_witness :
  (is_Some (new_forest forest_body [s00] [s1] [s] {[s]}) <-> forall p, p ∈ [s1] -> ~ borrowed_and_written [s00] p)
  /\ forall trees, new_forest forest_body [s00] [s1] [s] {[s]} = Some trees -> NoDup (map get_place trees)
    /\ (forall p, p ∈ [s00; s1; s] -> exists t, t ∈ trees /\ get_place t = place_of_local (local p))
    /\ forall t, t ∈ trees -> exists ps, get_permissions t = Some ps /\ permissions_of (local (get_place t)) (leaf_paths [s00] [s1] [s]) ps.
Proof.
  apply (loop_permissions_correct forest_body [(s00, Store); (s, Read); (s1, MutableBorrow)] [s00] [s1] [s] {[s]});
    [vm_compute; reflexivity| |exact forest_legal].
  intros p q ->%elem_of_singleton ->%elem_of_singleton _. reflexivity.
Defined.
End ConcreteForest.
