(* ===== verification/Interpreter.v ===== *)
(** * Interpretation of bodies

    The backward interpreter for bodies without loops
    ([encoder/mir_interpreter.rs]) and the state of expressions it is used
    with, the successors of encoded blocks ([encoder/mir_successor.rs]), the
    interner of names ([encoder/name_interner.rs]), what is known to be
    initialized ([encoder/initialisation.rs]) and the local variables of the
    encoder ([encoder/places.rs]). *)

From stdpp Require Import gmap list strings pretty.
From S2P Require Import Prelude Ast ExprEq ExprPlace ExprTransformers ExprOps Collections Typaram ExprReplace.
From S2P Require Import Cfg Mir Places Analysis AnalysisFacts.

(** ** Backward interpretation *)

(** The trait [BackwardMirInterpreter]. *)
Record BackwardMirInterpreter `{MirCrate} (State Error : Type) : Type := make_interpreter {
  apply_terminator_b : BasicBlock -> Terminator -> gmap BasicBlock State -> outcome Error State;
  apply_statement_b : BasicBlock -> nat -> Statement -> State -> outcome Error State
}.
#[global] Arguments make_interpreter {_ State Error} _ _.
#[global] Arguments apply_terminator_b {_ State Error} _ _ _ _.
#[global] Arguments apply_statement_b {_ State Error} _ _ _ _ _.

Section Backward.
Context `{MirCrate} {State Error : Type} (interpreter : BackwardMirInterpreter State Error) (mir : Body).
Abbreviation Heads := (gmap BasicBlock State).

(** The statements from the last one to the first. *)
Fixpoint apply_statements_b (bb : BasicBlock) (stmt_index : nat) (stmts : list Statement) (state : State) : outcome Error State :=
  match stmts with
  | [] => Val state
  | stmt :: stmts =>
      state ← apply_statements_b bb (S stmt_index) stmts state;
      apply_statement_b interpreter bb stmt_index stmt state
  end.

(** The states of the successors, which must have one. *)
Definition successor_states (heads : Heads) (terminator : Terminator) : option Heads :=
  states ← mapM_opt (fun bb => s ← heads !! bb; Some (bb, s)) (successors terminator); Some (list_to_map states).

Definition interpret_block (heads : Heads) (curr_bb : BasicBlock) (bb_data : BasicBlockData) : outcome Error State :=
  states ← unwrap (successor_states heads (terminator bb_data));
  curr_state ← apply_terminator_b interpreter curr_bb (terminator bb_data) states;
  apply_statements_b curr_bb 0 (statements bb_data) curr_state.

(** The predecessors whose successors all have a state. *)
Definition ready_predecessors (heads : Heads) (curr_bb : BasicBlock) : list BasicBlock :=
  List.filter (fun pred_bb =>
    match basic_blocks mir !! pred_bb with
    | Some data => forallb (fun succ_bb => bool_decide (is_Some (heads !! succ_bb))) (successors (terminator data))
    | None => false
    end) (predecessors mir curr_bb).

Definition final_blocks : list BasicBlock :=
  List.filter (fun bb =>
    match basic_blocks mir !! bb with
    | Some data => match successors (terminator data) with [] => true | _ => false end
    | None => false
    end) (block_indices mir).

(** The block that was pushed last is interpreted first. *)
Fixpoint backward_loop (fuel : nat) (heads : Heads) (pending_blocks : list BasicBlock) : outcome Error Heads :=
  match pending_blocks with
  | [] => Val heads
  | curr_bb :: pending_blocks =>
      match fuel with
      | 0 => Panic
      | S fuel =>
          bb_data ← unwrap (basic_blocks mir !! curr_bb);
          curr_state ← interpret_block heads curr_bb bb_data;
          let heads := <[curr_bb := curr_state]> heads in
          backward_loop fuel heads (rev (ready_predecessors heads curr_bb) ++ pending_blocks)%list
      end
  end.

Definition run_backward_interpretation (fuel : nat) : outcome Error (option State) :=
  heads ← backward_loop fuel ∅ (rev final_blocks);
  first ← unwrap (head (block_indices mir));
  Val (heads !! first).

(** *** From point to point *)

Section PointToPoint.
Context (initial_bbi final_bbi : BasicBlock) (final_stmt_index : nat) (final_state empty_state : State).

Fixpoint apply_statements_p2p (bb : BasicBlock) (stmt_index : nat) (stmts : list Statement) (state : State) : outcome Error State :=
  match stmts with
  | [] => Val state
  | stmt :: stmts =>
      state ← apply_statements_p2p bb (S stmt_index) stmts state;
      state ← apply_statement_b interpreter bb stmt_index stmt state;
      Val (if Nat.eqb bb final_bbi && Nat.eqb final_stmt_index stmt_index then final_state else state)
  end.

(** A successor without a state gets the state of another one. *)
Definition default_state (heads : Heads) (terminator : Terminator) : State :=
  match omap (fun bb => heads !! bb) (successors terminator) with s :: _ => s | [] => empty_state end.

Definition states_p2p (heads : Heads) (terminator : Terminator) : Heads :=
  list_to_map (map (fun bb => (bb, match heads !! bb with Some s => s | None => default_state heads terminator end)) (successors terminator)).

Definition interpret_block_p2p (heads : Heads) (curr_bb : BasicBlock) (bb_data : BasicBlockData) : outcome Error State :=
  curr_state ← apply_terminator_b interpreter curr_bb (terminator bb_data) (states_p2p heads (terminator bb_data));
  let curr_state := if Nat.eqb curr_bb final_bbi && Nat.eqb final_stmt_index (length (statements bb_data)) then final_state else curr_state in
  apply_statements_p2p curr_bb 0 (statements bb_data) curr_state.

Fixpoint p2p_loop (fuel : nat) (heads : Heads) (pending_blocks : list BasicBlock) : outcome Error Heads :=
  match pending_blocks with
  | [] => Val heads
  | curr_bb :: pending_blocks =>
      match fuel with
      | 0 => Panic
      | S fuel =>
          bb_data ← unwrap (basic_blocks mir !! curr_bb);
          curr_state ← interpret_block_p2p heads curr_bb bb_data;
          p2p_loop fuel (<[curr_bb := curr_state]> heads)
            (if Nat.eqb curr_bb initial_bbi then pending_blocks else rev (predecessors mir curr_bb) ++ pending_blocks)%list
      end
  end.

Definition run_backward_interpretation_point_to_point (fuel : nat) : outcome Error (option State) :=
  heads ← p2p_loop fuel ∅ [final_bbi]; Val (heads !! initial_bbi).
End PointToPoint.
End Backward.

(** ** [MultiExprBackwardInterpreterState] *)

Module MultiExpr.
Section MultiExpr.
Context `{RegexCrate}.

Definition t : Type := list Expr.
Definition new (exprs : list Expr) : t := exprs.
Definition new_single (expr : Expr) : t := [expr].
Definition into_expressions (self : t) : list Expr := self.

Definition substitute_value (self : t) (exact_target replacement : Expr) : option t :=
  mapM_opt (fun expr => replace_place expr exact_target replacement) self.

(** The place behind a reference that is assigned is substituted too. *)
Fixpoint substitute_place (self : t) (sub_target replacement : Expr) : option t :=
  self ← match replacement with
         | Expr.AddrOf base_replacement _ pos =>
             typ ← get_type base_replacement;
             let deref_field := Field.new "val_ref" typ in
             let deref_target := set_pos (Expr.Field sub_target deref_field Position.default) pos in
             substitute_place self deref_target base_replacement
         | _ => Some self
         end;
  mapM_opt (fun expr => replace_place expr sub_target replacement) self.

Definition use_place (self : t) (sub_target : Expr) : option bool := any_opt (fun expr => find expr sub_target) self.
End MultiExpr.
End MultiExpr.

(** ** [MirSuccessor] *)

Module MirSuccessor.
Inductive MirSuccessor : Type :=
  | Return
  | Kill
  | Goto (target : BasicBlock)
  | GotoSwitch (guarded_targets : list (Expr * BasicBlock)) (default : BasicBlock).

Definition targets (self : MirSuccessor) : list BasicBlock :=
  match self with
  | Return | Kill => []
  | Goto target => [target]
  | GotoSwitch guarded_targets default => default :: map snd guarded_targets
  end.

(** The closure may change its environment. *)
Section Encode.
Context {Env : Type} (resolve_target : BasicBlock -> Env -> CfgBlockIndex.CfgBlockIndex * Env).

Fixpoint resolve_guarded (conditional_targets : list (Expr * BasicBlock)) (env : Env) : list (Expr * CfgBlockIndex.CfgBlockIndex) * Env :=
  match conditional_targets with
  | [] => ([], env)
  | (guard, bbi) :: rest =>
      let '(index, env) := resolve_target bbi env in
      let '(rest, env) := resolve_guarded rest env in
      ((guard, index) :: rest, env)
  end.

Definition encode (self : MirSuccessor) (return_block : CfgBlockIndex.CfgBlockIndex) (env : Env) : Successor.Successor * Env :=
  match self with
  | Return => (Successor.Goto return_block, env)
  | Kill => (Successor.Return, env)
  | Goto bbi => let '(index, env) := resolve_target bbi env in (Successor.Goto index, env)
  | GotoSwitch conditional_targets default_bbi =>
      let '(targets, env) := resolve_guarded conditional_targets env in
      let '(default, env) := resolve_target default_bbi env in
      (Successor.GotoSwitch targets default, env)
  end.
End Encode.
End MirSuccessor.

(** ** [NameInterner] *)

Module NameInterner.
Record NameInterner : Type := make { name_to_symbol : gmap string string; used_symbols : gset string }.

Definition new : NameInterner := make ∅ ∅.

(** The assertions of debug builds are the hypotheses of the theorems. *)
Definition intern (self : NameInterner) (full_unique_name : string) (readable_names : list string) : string * NameInterner :=
  match name_to_symbol self !! full_unique_name with
  | Some symbol => (symbol, self)
  | None =>
      let symbol := match List.find (fun r => negb (bool_decide (r ∈ used_symbols self))) readable_names with
                    | Some r => r
                    | None => full_unique_name
                    end in
      (symbol, make (<[full_unique_name := symbol]> (name_to_symbol self)) ({[symbol]} ∪ used_symbols self))
  end.

Fixpoint intern_all (self : NameInterner) (calls : list (string * list string)) : list string * NameInterner :=
  match calls with
  | [] => ([], self)
  | (full, readable) :: calls =>
      let '(symbol, self) := intern self full readable in
      let '(symbols, self) := intern_all self calls in
      (symbol :: symbols, self)
  end.
End NameInterner.

(** ** Initialized places *)

Module InitInfo.
Section Explode.
Context `{MirCrate} (mir : Body).

Fixpoint explode_loop (fuel : nat) (current_place guide_place : Place) (result : gset Place) : option (gset Place) :=
  if Nat.ltb (length (projection current_place)) (length (projection guide_place)) then
    match fuel with
    | 0 => None
    | S fuel =>
        r ← expand_one_level true mir current_place guide_place;
        explode_loop fuel (fst r) guide_place ({[fst r]} ∪ result)
    end
  else Some result.

Definition explode_place (result : option (gset Place)) (guide_place : Place) : option (gset Place) :=
  result ← result;
  let current_place := place_of_local (local guide_place) in
  explode_loop (length (projection guide_place)) current_place guide_place ({[current_place]} ∪ result).

(** All places of a set and their prefixes. *)
Definition explode (place_set : gset Place) : option (gset Place) := foldl explode_place (Some ∅) (elements place_set).
End Explode.

Fixpoint contains_prefix (set : HashSet.t Expr) (place : Expr) : option bool :=
  if HashSet.contains set place then Some true
  else
    match place with
    | Expr.Variant base _ _ | Expr.Field base _ _ | Expr.AddrOf base _ _ => contains_prefix set base
    | Expr.Local _ _ | Expr.LabelledOld _ _ _ | Expr.Unfolding _ _ _ _ _ _ => Some false
    (* the parent of what is no place *)
    | _ => None
    end.

Section Convert.
Context `{MirCrate} {Error : Type}.
(** [mir_encoder.encode_place], as an expression. *)
Context (encode_place : Place -> outcome Error Expr).

Fixpoint encode_places (places : list Place) : outcome Error (HashSet.t Expr) :=
  match places with
  | [] => Val []
  | place :: places => e ← encode_place place; set ← encode_places places; Val (HashSet.insert set e)
  end.

Definition convert_entry {T} `{Countable T} (result : outcome Error (gmap T (HashSet.t Expr))) (entry : T * gset Place) :
    outcome Error (gmap T (HashSet.t Expr)) :=
  result ← result; new_set ← encode_places (elements (snd entry)); Val (<[fst entry := new_set]> result).

Definition convert_to_vir {T} `{Countable T} (m : gmap T (gset Place)) : outcome Error (gmap T (HashSet.t Expr)) :=
  foldl convert_entry (Val ∅) (map_to_list m).

Record InitInfo : Type := make_init_info {
  vir_acc_before_block : gmap BasicBlock (HashSet.t Expr);
  vir_acc_after_statement : gmap Location (HashSet.t Expr)
}.

(** [explode] of all the sets of a result. *)
Definition explode_all {T} `{Countable T} (mir : Body) (m : gmap T (gset Place)) : option (gmap T (gset Place)) :=
  entries ← mapM_opt (fun e : T * gset Place => set ← explode mir (snd e); Some (fst e, set)) (map_to_list m); Some (list_to_map entries).

Definition new (fuel : nat) (mir : Body) : outcome Error InitInfo :=
  initialisation ← unwrap (compute_definitely_initialized fuel mir);
  before ← unwrap (explode_all mir (before_block initialisation));
  after ← unwrap (explode_all mir (after_statement initialisation));
  before ← convert_to_vir before;
  after ← convert_to_vir after;
  Val (make_init_info before after).

Definition is_vir_place_accessible (self : InitInfo) (place : Expr) (location : Location) : option bool :=
  match statement_index location with
  | 0 => set ← vir_acc_before_block self !! block location; contains_prefix set place
  | S index => set ← vir_acc_after_statement self !! make_location (block location) index; contains_prefix set place
  end.
End Convert.
End InitInfo.

(** ** Local variables of the encoder *)

Module LocalVariableManager.
Section Manager.
Context `{MirCrate}.

(** [local] is 32 bits wide. *)
Definition new_local (idx : nat) : Z := (Z.of_nat idx mod 2 ^ 32)%Z.

Inductive LocalVarData : Type :=
  | RealLocal (local : Mir.Local) (ty : Ty)
  | TempLocal (ty : Ty).

(** The types of the real locals, then of the temporary ones. *)
Definition t : Type := list LocalVarData.
Definition new (real_locals : list Ty) : t := imap RealLocal real_locals.
Definition get_fresh (self : t) (ty : Ty) : Z * t := (new_local (length self), self ++ [TempLocal ty])%list.

Definition get (self : t) (local : Z) : option LocalVarData := self !! Z.to_nat local.

Definition get_name (self : t) (local : Z) : option string :=
  data ← get self local;
  Some (match data with
        | RealLocal _ _ => ("_" ++ pretty (Z.to_nat local))%string
        | TempLocal _ => ("_t" ++ pretty (Z.to_nat local))%string
        end).

Definition get_type (self : t) (local : Z) : option Ty :=
  data ← get self local; Some (match data with RealLocal _ ty => ty | TempLocal ty => ty end).

(** [mir::RETURN_PLACE] is the first local. *)
Definition is_return (self : t) (local : Z) : option bool :=
  data ← get self local; Some (match data with RealLocal real_local _ => Nat.eqb real_local 0 | TempLocal _ => false end).

Definition iter (self : t) : list Z := map new_local (seq 0 (length self)).
End Manager.

(** The places of the encoder. *)
Inductive EncoderPlace `{MirCrate} : Type :=
  | NormalPlace (place : Place)
  | SubstitutedPlace (substituted_root : Z) (place : Place).

Definition is_root `{MirCrate} (self : EncoderPlace) (l : Z) : bool :=
  match self with
  | NormalPlace place => Z.eqb (Z.of_nat (local place)) l
  | SubstitutedPlace substituted_root _ => Z.eqb substituted_root l
  end.
End LocalVariableManager.

(** * Facts about the interpretation of bodies

    Backward interpretation gives the first block the state that the
    terminators and statements of all paths give it, and does so for every body
    without cycles; interned names are unique. *)

Section Backward.
Context `{MirLaws} {State Error : Type} (interpreter : BackwardMirInterpreter State Error) (mir : Body).
Abbreviation Heads := (gmap nat State).
Implicit Types (heads : Heads) (bb t : nat) (s : State).

(** The state of a block, from the states of its successors. *)
Definition block_effect bb (data : BasicBlockData) (states : Heads) : outcome Error State :=
  state ← apply_terminator_b interpreter bb (terminator data) states; apply_statements_b interpreter bb 0 (statements data) state.

Inductive denotes : nat -> State -> Prop :=
  | denotes_block bb data states s :
      basic_blocks mir !! bb = Some data ->
      (forall t, t ∈ dom states <-> t ∈ successors (terminator data)) ->
      (forall t s', states !! t = Some s' -> denotes t s') ->
      block_effect bb data states = Val s ->
      denotes bb s.

(** A block has one state. *)
Lemma denotes_functional bb s : denotes bb s -> forall s', denotes bb s' -> s = s'.
Proof.
  induction 1 as [bb data states s E Hd _ IH Hs]. intros s' Hs'. destruct Hs' as [bb data' states' s' E' Hd' Hden Hs'].
  assert (data' = data) as -> by congruence. enough (states = states') as -> by congruence.
  apply map_eq. intros t. destruct (states !! t) as [x|] eqn:Ex, (states' !! t) as [y|] eqn:Ey; [|exfalso..|done].
  - f_equal. by apply (IH t x Ex y), Hden.
  - apply (not_elem_of_dom states' t) in Ey. apply Ey, Hd', Hd. by apply elem_of_dom_2 in Ex.
  - apply (not_elem_of_dom states t) in Ex. apply Ex, Hd, Hd'. by apply elem_of_dom_2 in Ey.
Qed.

Lemma successor_states_spec heads (term : Terminator) states : successor_states heads term = Some states ->
  (forall t, t ∈ dom states <-> t ∈ successors term) /\ forall t s, states !! t = Some s -> heads !! t = Some s.
Proof.
  unfold successor_states. destruct (mapM_opt _ _) as [l|] eqn:E; [|done]. cbn. intros [= <-].
  revert l E. induction (successors term) as [|t ts IH]; intros l; cbn [mapM_opt].
  - intros [= <-]. cbn. split; [intros t; rewrite dom_empty_L; set_solver|intros t s; by rewrite lookup_empty].
  - destruct (heads !! t) as [s|] eqn:Et; cbn; [|done]. destruct (mapM_opt _ ts) as [ys|]; cbn; [|done]. intros [= <-].
    destruct (IH ys eq_refl) as [H1 H2]. cbn. split.
    + intros x. rewrite dom_insert_L, elem_of_union, elem_of_singleton, H1, elem_of_cons. done.
    + intros x y. destruct (decide (x = t)) as [->|Hne]; [rewrite lookup_insert_eq; by intros [= <-]|rewrite lookup_insert_ne by done; apply H2].
Qed.

Lemma successor_states_total heads (term : Terminator) : (forall t, t ∈ successors term -> is_Some (heads !! t)) ->
  exists states, successor_states heads term = Some states.
Proof.
  intros Hs. unfold successor_states. enough (exists l, mapM_opt (fun bb => s ← heads !! bb; Some (bb, s)) (successors term) = Some l) as [l ->] by by eexists.
  induction (successors term) as [|t ts IH]; [by eexists|]. cbn [mapM_opt]. destruct (Hs t ltac:(by left)) as [s ->]. cbn.
  destruct IH as [l ->]; [intros x Hx; apply Hs; by right|by eexists].
Qed.

Lemma interpret_block_spec heads bb data s : basic_blocks mir !! bb = Some data -> (forall t s, heads !! t = Some s -> denotes t s) ->
  interpret_block interpreter heads bb data = Val s -> denotes bb s.
Proof.
  intros E Hh. unfold interpret_block. intros (states & Es%unwrap_Val & Eb)%bind_Val. destruct (successor_states_spec _ _ _ Es) as [H1 H2].
  eapply denotes_block; [exact E|exact H1|intros t s' Ht; by apply Hh, H2|exact Eb].
Qed.

Lemma backward_loop_sound fuel : forall heads pending heads', (forall t s, heads !! t = Some s -> denotes t s) ->
  backward_loop interpreter mir fuel heads pending = Val heads' -> forall t s, heads' !! t = Some s -> denotes t s.
Proof.
  induction fuel as [|fuel IH]; intros heads [|bb pending] heads' Hh; cbn [backward_loop]; try done; [by intros [= <-]|by intros [= <-]|].
  intros (data & Ed%unwrap_Val & (s & Es & El)%bind_Val)%bind_Val. eapply IH, El. intros t x.
  destruct (decide (t = bb)) as [->|Hne]; [rewrite lookup_insert_eq; intros [= <-]; by eapply interpret_block_spec|].
  rewrite lookup_insert_ne by done. apply Hh.
Qed.

(** ** Bodies without cycles *)

Context (rank : nat -> nat).
Hypothesis acyclic : forall bb data t, basic_blocks mir !! bb = Some data -> t ∈ successors (terminator data) ->
  rank t < rank bb /\ t < length (basic_blocks mir).
Hypothesis terminator_effect : forall bb term states, exists s, apply_terminator_b interpreter bb term states = Val s.
Hypothesis statement_effect : forall bb i stmt s, exists s', apply_statement_b interpreter bb i stmt s = Val s'.

Lemma apply_statements_b_total bb stmts : forall i s, exists s', apply_statements_b interpreter bb i stmts s = Val s'.
Proof.
  induction stmts as [|stmt stmts IH]; intros i s; [by eexists|]. cbn. destruct (IH (S i) s) as [s1 ->]. cbn. apply statement_effect.
Qed.

Lemma interpret_block_total heads bb data : (forall t, t ∈ successors (terminator data) -> is_Some (heads !! t)) ->
  exists s, interpret_block interpreter heads bb data = Val s.
Proof.
  intros Hs. unfold interpret_block. destruct (successor_states_total heads _ Hs) as [states ->]. cbn.
  destruct (terminator_effect bb (terminator data) states) as [s ->]. cbn. apply apply_statements_b_total.
Qed.

(** A block whose successors have states has a state or is pending. *)
Record pending_ok heads (pending : list nat) : Prop := {
  pending_ready : forall bb, bb ∈ pending -> exists data, basic_blocks mir !! bb = Some data
    /\ forall t, t ∈ successors (terminator data) -> is_Some (heads !! t);
  ready_pending : forall bb data, basic_blocks mir !! bb = Some data ->
    (forall t, t ∈ successors (terminator data) -> is_Some (heads !! t)) -> is_Some (heads !! bb) \/ bb ∈ pending
}.

Lemma ready_predecessors_elem heads bb p : p ∈ ready_predecessors mir heads bb <->
  exists data, basic_blocks mir !! p = Some data /\ bb ∈ successors (terminator data)
    /\ forall t, t ∈ successors (terminator data) -> is_Some (heads !! t).
Proof.
  unfold ready_predecessors. rewrite list_elem_of_In, filter_In, <- list_elem_of_In, predecessors_spec.
  split.
  - intros [(data & E & Hbb) Hf]. rewrite E in Hf. exists data. split_and!; [done..|]. intros t Ht.
    rewrite forallb_forall in Hf. apply list_elem_of_In, Hf in Ht. by apply bool_decide_eq_true in Ht.
  - intros (data & E & Hbb & Hs). split; [by exists data|]. rewrite E. apply forallb_forall. intros t Ht%list_elem_of_In.
    apply bool_decide_eq_true. by apply Hs.
Qed.

(** The weight of a pending block counts the blocks above it. *)
Definition top_rank : nat := max_list (map rank (block_indices mir)).
Definition max_predecessors : nat := max_list (map (fun bb => length (predecessors mir bb)) (block_indices mir)).
Definition weight bb : nat := S max_predecessors ^ (top_rank - rank bb).
Definition pending_weight (pending : list nat) : nat := list_sum (map weight pending).

Lemma in_max_list (f : nat -> nat) bb data : basic_blocks mir !! bb = Some data -> f bb <= max_list (map f (block_indices mir)).
Proof.
  intros E. apply max_list_elem_of_le, list_elem_of_fmap. exists bb. split; [done|]. apply elem_of_seq. apply lookup_lt_Some in E. cbn. lia.
Qed.

Lemma list_sum_bound (l : list nat) f c : (forall x, x ∈ l -> f x <= c) -> list_sum (map f l) <= length l * c.
Proof.
  intros Hf. unfold list_sum. induction l as [|x l IH]; [done|]. cbn. pose proof (Hf x ltac:(by left)).
  specialize (IH (fun y Hy => Hf y ltac:(by right))). lia.
Qed.

Lemma ready_weight heads bb data : basic_blocks mir !! bb = Some data -> pending_weight (ready_predecessors mir heads bb) < weight bb.
Proof.
  intros E. assert (Hlen : length (ready_predecessors mir heads bb) <= max_predecessors).
  { etrans; [apply List.filter_length_le|]. by apply (in_max_list (fun bb => length (predecessors mir bb)) bb data). }
  destruct (decide (ready_predecessors mir heads bb = [])) as [->|Hne].
  { unfold pending_weight, weight. cbn. pose proof (Nat.pow_nonzero (S max_predecessors) (top_rank - rank bb) ltac:(lia)). lia. }
  assert (Hrank : rank bb < top_rank).
  { destruct (ready_predecessors mir heads bb) as [|p ps] eqn:Ep; [done|].
    assert (Hp : p ∈ ready_predecessors mir heads bb) by (rewrite Ep; by left). apply ready_predecessors_elem in Hp as (d & Ed & Hbb & _).
    destruct (acyclic p d bb Ed Hbb) as [Hr _]. pose proof (in_max_list rank p d Ed). unfold top_rank. lia. }
  assert (Hw : forall p, p ∈ ready_predecessors mir heads bb -> weight p <= S max_predecessors ^ (top_rank - rank bb - 1)).
  { intros p (d & Ed & Hbb & _)%ready_predecessors_elem. apply Nat.pow_le_mono_r; [lia|]. pose proof (proj1 (acyclic p d bb Ed Hbb)). lia. }
  pose proof (list_sum_bound _ weight _ Hw) as Hs. unfold pending_weight, weight at 2.
  replace (top_rank - rank bb) with (S (top_rank - rank bb - 1)) by lia. rewrite Nat.pow_succ_r'.
  pose proof (Nat.pow_nonzero (S max_predecessors) (top_rank - rank bb - 1) ltac:(lia)). nia.
Qed.

Lemma pending_weight_app l l' : pending_weight (l ++ l') = pending_weight l + pending_weight l'.
Proof. unfold pending_weight. by rewrite map_app, list_sum_app. Qed.

Lemma pending_weight_rev l : pending_weight (rev l) = pending_weight l.
Proof. induction l as [|x l IH]; [done|]. cbn [rev]. rewrite pending_weight_app, IH. unfold pending_weight, list_sum. cbn. lia. Qed.

Lemma elem_of_rev (l : list nat) x : x ∈ rev l <-> x ∈ l.
Proof. by rewrite !list_elem_of_In, <- in_rev. Qed.

Lemma backward_loop_total fuel : forall heads pending, pending_ok heads pending -> pending_weight pending <= fuel ->
  exists heads', backward_loop interpreter mir fuel heads pending = Val heads' /\ pending_ok heads' [].
Proof.
  induction fuel as [|fuel IH]; intros heads [|bb pending] Hp Hf; cbn [backward_loop]; try (exists heads; by split).
  - exfalso. unfold pending_weight, weight, list_sum in Hf. cbn in Hf. pose proof (Nat.pow_nonzero (S max_predecessors) (top_rank - rank bb) ltac:(lia)). lia.
  - destruct (pending_ready _ _ Hp bb ltac:(by left)) as (data & E & Hs). destruct (interpret_block_total heads bb data Hs) as [s Es].
    assert (Hgrow : forall t, is_Some (heads !! t) -> is_Some (<[bb := s]> heads !! t)).
    { intros t Ht. destruct (decide (t = bb)) as [->|Hne]; [rewrite lookup_insert_eq; by eexists|by rewrite lookup_insert_ne]. }
    rewrite E. cbn. rewrite Es. cbn. apply IH.
    + split.
      * intros b [Hb|Hb]%elem_of_app.
        -- apply elem_of_rev, ready_predecessors_elem in Hb as (d & Ed & _ & Hd). by exists d.
        -- destruct (pending_ready _ _ Hp b ltac:(by right)) as (d & Ed & Hd). exists d. split; [done|]. intros t Ht. by apply Hgrow, Hd.
      * intros b d Ed Hd. destruct (decide (b = bb)) as [->|Hb]; [left; rewrite lookup_insert_eq; by eexists|].
        rewrite lookup_insert_ne by done. destruct (decide (bb ∈ successors (terminator d))) as [Hin|Hout].
        -- right. apply elem_of_app. left. apply elem_of_rev, ready_predecessors_elem. by exists d.
        -- destruct (ready_pending _ _ Hp b d Ed) as [|[->|]%elem_of_cons]; [|by left|done|right; apply elem_of_app; by right].
           intros t Ht. specialize (Hd t Ht). rewrite lookup_insert_ne in Hd; [done|]. by intros ->.
    + rewrite pending_weight_app, pending_weight_rev. pose proof (ready_weight (<[bb := s]> heads) bb data E).
      unfold pending_weight, list_sum in *. cbn in *. lia.
Qed.

Lemma final_blocks_ok : pending_ok ∅ (rev (final_blocks mir)).
Proof.
  assert (Hin : forall bb, bb ∈ final_blocks mir <-> exists data, basic_blocks mir !! bb = Some data /\ successors (terminator data) = []).
  { intros bb. unfold final_blocks. rewrite list_elem_of_In, filter_In, <- list_elem_of_In. split.
    - intros [_ Hf]. destruct (basic_blocks mir !! bb) as [data|]; [|done]. exists data. split; [done|]. by destruct (successors (terminator data)).
    - intros (data & E & Hs). split; [apply elem_of_seq; apply lookup_lt_Some in E; cbn; lia|]. by rewrite E, Hs. }
  split.
  - intros bb Hb. rewrite elem_of_rev in Hb. apply Hin in Hb as (data & E & Hs). exists data. split; [done|]. rewrite Hs. by intros t ?%not_elem_of_nil.
  - intros bb data E Hs. right. apply elem_of_rev, Hin. exists data. split; [done|]. destruct (successors (terminator data)) as [|t ts]; [done|].
    destruct (Hs t ltac:(by left)) as [x Hx]. by rewrite lookup_empty in Hx.
Qed.

Lemma run_backward_total : 0 < length (basic_blocks mir) ->
  exists s, run_backward_interpretation interpreter mir (pending_weight (final_blocks mir)) = Val (Some s).
Proof.
  intros Hn. unfold run_backward_interpretation.
  destruct (backward_loop_total (pending_weight (final_blocks mir)) ∅ _ final_blocks_ok) as (heads & E & Hok); [by rewrite pending_weight_rev|].
  rewrite E. cbn. assert (Hall : forall r bb data, rank bb < r -> basic_blocks mir !! bb = Some data -> is_Some (heads !! bb)).
  { induction r as [|r IH]; intros bb data Hr Ed; [lia|]. destruct (ready_pending _ _ Hok bb data Ed) as [|?%not_elem_of_nil]; [|done|done].
    intros t Ht. destruct (acyclic bb data t Ed Ht) as [Hrt Htn]. assert (exists d, basic_blocks mir !! t = Some d) as [d Etd] by by apply lookup_lt_is_Some in Htn.
    apply (IH t d); [lia|done]. }
  unfold block_indices. assert (exists data, basic_blocks mir !! 0 = Some data) as [data E0] by by apply lookup_lt_is_Some in Hn.
  destruct (length (basic_blocks mir)) as [|n]; [lia|]. cbn. destruct (Hall (S (rank 0)) 0 data ltac:(lia) E0) as [s Es]. exists s. by rewrite Es.
Qed.
End Backward.


(** ** Names *)

Section Names.
Import NameInterner.
Implicit Types (self : NameInterner) (calls : list (string * list string)).

(** No readable name is the full name of another call. *)
Definition names_apart calls : Prop :=
  forall f r f' r' x, (f, r) ∈ calls -> (f', r') ∈ calls -> x ∈ r -> x = f' -> f = f'.

Record interner_ok calls self : Prop := {
  ok_injective : forall f f' s, name_to_symbol self !! f = Some s -> name_to_symbol self !! f' = Some s -> f = f';
  ok_used : forall s, s ∈ used_symbols self -> exists f, name_to_symbol self !! f = Some s;
  ok_symbol : forall f s, name_to_symbol self !! f = Some s -> s ∈ used_symbols self /\ exists r, (f, r) ∈ calls /\ (s = f \/ s ∈ r)
}.

Lemma intern_ok calls self f r : names_apart calls -> (f, r) ∈ calls -> interner_ok calls self ->
  interner_ok calls (snd (intern self f r)) /\ name_to_symbol (snd (intern self f r)) !! f = Some (fst (intern self f r))
  /\ forall f' s, name_to_symbol self !! f' = Some s -> name_to_symbol (snd (intern self f r)) !! f' = Some s.
Proof.
  intros Hap Hin [Hi Hu Hs]. unfold intern. destruct (name_to_symbol self !! f) as [s|] eqn:E; cbn; [by split_and!|].
  set (symbol := match List.find _ r with Some x => x | None => f end).
  assert (Hsym : symbol ∉ used_symbols self /\ (symbol = f \/ symbol ∈ r)).
  { unfold symbol. destruct (List.find _ r) as [x|] eqn:Ef.
    - apply List.find_some in Ef as [Hx Hn]. apply negb_true_iff, bool_decide_eq_false in Hn. split; [done|right]. by apply list_elem_of_In.
    - split; [|by left]. intros Hf. destruct (Hu f Hf) as [g Eg]. destruct (Hs g f Eg) as (_ & r' & Hg & [Hgf|Hgr]); [congruence|].
      assert (g = f) by by eapply (Hap g r' f r f). congruence. }
  destruct Hsym as [Hn Hf]. split_and!; [split; cbn| |].
  - intros a b s. destruct (decide (a = f)) as [->|Ha], (decide (b = f)) as [->|Hb]; rewrite ?lookup_insert_eq, ?lookup_insert_ne by done; [done| | |apply Hi].
    + intros [= <-] Eb. destruct Hn. by apply (Hs b).
    + intros Ea [= <-]. destruct Hn. by apply (Hs a).
  - intros s [->%elem_of_singleton|Hus]%elem_of_union; [exists f; by rewrite lookup_insert_eq|]. destruct (Hu s Hus) as [g Eg]. exists g.
    rewrite lookup_insert_ne; [done|]. congruence.
  - intros a s. destruct (decide (a = f)) as [->|Ha]; [rewrite lookup_insert_eq; intros [= <-]|rewrite lookup_insert_ne by done].
    + split; [set_solver|]. by exists r.
    + intros Ea. destruct (Hs a s Ea) as [Hus Hr]. split; [set_solver|done].
  - by rewrite lookup_insert_eq.
  - intros a s Ea. rewrite lookup_insert_ne; [done|]. congruence.
Qed.

Lemma intern_all_ok calls : names_apart calls -> forall todo self, (forall c, c ∈ todo -> c ∈ calls) -> interner_ok calls self ->
  let self' := snd (intern_all self todo) in interner_ok calls self'
  /\ Forall2 (fun c s => name_to_symbol self' !! fst c = Some s) todo (fst (intern_all self todo))
  /\ forall f s, name_to_symbol self !! f = Some s -> name_to_symbol self' !! f = Some s.
Proof.
  intros Hap. induction todo as [|[f r] todo IH]; intros self Hin Hok; cbn [intern_all]; [cbn; split_and!; [done|constructor|done]|].
  destruct (intern_ok calls self f r Hap (Hin _ ltac:(by left)) Hok) as (Hok1 & Hf & Hkeep). destruct (intern self f r) as [s self1]. cbn in *.
  destruct (IH self1 (fun c Hc => Hin c ltac:(by right)) Hok1) as (Hok2 & Hall & Hkeep2). destruct (intern_all self1 todo) as [ss self2]. cbn in *.
  split_and!; [done| |auto]. constructor; [cbn; auto|done].
Qed.

(** Two calls give the same symbol iff they intern the same full name. *)
(** C27. Two calls of intern return the same symbol iff they intern the same full name, if no
    readable name is the full name of another call. *)
Theorem interned_names_unique calls i j f r f' r' s s' : names_apart calls ->
  calls !! i = Some (f, r) -> calls !! j = Some (f', r') ->
  fst (intern_all NameInterner.new calls) !! i = Some s -> fst (intern_all NameInterner.new calls) !! j = Some s' -> s = s' <-> f = f'.
Proof.
  intros Hap Hi Hj Hs Hs'. assert (Hnew : interner_ok calls NameInterner.new) by (split; cbn; intros *; rewrite ?lookup_empty; set_solver).
  destruct (intern_all_ok calls Hap calls NameInterner.new (fun _ Hc => Hc) Hnew) as (Hok & Hall & _).
  pose proof (Forall2_lookup_lr _ _ _ _ _ _ Hall Hi Hs) as E. pose proof (Forall2_lookup_lr _ _ _ _ _ _ Hall Hj Hs') as E'. cbn in E, E'.
  split; [intros ->; by eapply ok_injective|congruence].
Qed.
End Names.

Module ConcreteInterpreter.
Import ConcreteMir.

(** The number of paths to an end of a body. *)
Definition count_paths : BackwardMirInterpreter nat unit := make_interpreter
  (fun bb t states => Val (match map_to_list states with [] => 1 | l => list_sum (map snd l) end)) (fun bb i stmt s => Val s).
Definition diamond : Body := make_body
  [make_block_data [] (SwitchInt Constant [1; 2]); make_block_data [] (Goto 3); make_block_data [] (SwitchInt Constant [3; 4]);
   make_block_data [] Return; make_block_data [] Resume] 1 0.

Example diamond_paths : run_backward_interpretation count_paths diamond 20 = Val (Some 3).
Proof. vm_compute. reflexivity. Qed.

Definition diamond_rank (bb : nat) : nat := match bb with 0 => 3 | 1 => 1 | 2 => 2 | _ => 0 end.


Definition calls : list (string * list string) := [("my$first$name", ["name"; "first$name"]); ("my$second$name", ["name"; "second$name"]); ("my$first$name", [])].

Lemma interned_names_unique_witness : "name" = "second$name" <-> "my$first$name" = "my$second$name".
Proof.
  apply (interned_names_unique calls 0 1 "my$first$name" ["name"; "first$name"] "my$second$name" ["name"; "second$name"]); [|reflexivity..].
  assert (H : Forall (fun c => Forall (fun c' => Forall (fun x => x = fst c' -> fst c = fst c') (snd c)) calls) calls)
    by (repeat constructor; cbn; intros; by simplify_eq).
  intros f r f' r' x Hf Hf' Hx. rewrite Forall_forall in H. specialize (H _ Hf). rewrite Forall_forall in H.
  specialize (H _ Hf'). rewrite Forall_forall in H. by apply H.
Defined.
End ConcreteInterpreter.
